(* ===== verification/_CoqProject ===== *)
-Q . S2P
Prelude.v
Ty.v
Interner.v
Infer.v
Unify.v
Refine.v
Instantiate.v
Mir.v
Opt.v
Proto.v
Executor.v
ExecutorInv.v
Retired.v
Channel.v
ChannelInv.v
RwLock.v
RwLockInv.v
AsyncMutex.v
FormatTemplate.v
Scheduler.v
TaskScope.v
Select.v
Strs.v
Sorting.v
NetBytes.v
Net.v
WebSocket.v
HttpServer.v
HttpInv.v
HttpText.v
HttpState.v
HttpHandles.v
HttpRoundtrip.v
Worklist.v
BuildGraph.v
Impact.v
ImpactInv.v
ImpactSymbols.v
ModuleGraph.v
GenericCache.v
GenericCacheInv.v
Workset.v
WorksetInv.v
Ast.v
Token.v
Parser.v
ParserDecl.v
ParserInv.v
ParserPratt.v
Scanner.v
ScannerInv.v
ExpandText.v
MacroExpander.v
AttributeExpander.v
DeriveExpander.v
Frontend.v
ExpandInv.v
DeriveInv.v
ExpandExamples.v
TypeEnv.v
Borrow.v
BorrowInv.v
BorrowSound.v
Hir.v
HirLower.v
HirItems.v
HirClasses.v
HirSem.v
HirCorrect.v
HirExamples.v
Prune.v
PruneMirSource.v
PruneInv.v
PruneMirInv.v
Format.v
FormatRoundtrip.v
PkgManifest.v
PkgArchive.v
Resolver.v
ResolverInv.v
