(* ===== verification/Prelude.v ===== *)
(** * The Sengoo compiler and runtime

    Sengoo is a statically typed language with async tasks.  This library
    models parts of its compiler (compiler/), which parses a program to an
    AST, checks types and borrows, lowers it to a high-level IR (HIR) and that to
    a mid-level one (MIR), optimizes this and emits LLVM text or runs it in a JIT, of the native
    runtime the emitted code calls (runtime/): tasks, channels, locks, HTTP
    and a wire format behind a C interface, of the incremental build of the
    compiler driver (tools/sgc/), and of the package manager (tools/sgpm/).
    The parts do not share state at run time; they meet at
    their data: tokens, the AST, the checker's types, the MIR, and [i64]
    handles.

    ** Where things are

    The front end of the compiler:
    - Strs: what is used of strings; Sorting: sorted and deduplicated lists.
    - Ast: the abstract syntax (ast/).
    - Token: token kinds, the symbol interner and the parser's errors
      (lexer/token.rs, symbol.rs, error.rs).
    - Scanner: the patterns of the tokens, their callbacks and the f-string
      scanners (lexer/token.rs, lexer/mod.rs, parser/fstring_scan.rs);
      ScannerInv: what the tokens of a text are.
    - Parser: expressions, types, patterns, statements (parser/mod.rs, expr.rs,
      expr/, stmt.rs, pat.rs, fstring.rs); ParserDecl: declarations and whole
      programs (parser/decl.rs, decl/); ParserInv: the parser ends;
      ParserPratt: operator precedence.
    - ExpandText: cursors over a source text; MacroExpander, AttributeExpander
      and DeriveExpander: the rewriting of the text before it is scanned
      (parser/macro_expander.rs, attribute_expander.rs, derive_expander.rs);
      Frontend: from a text to a program ([Parser::parse] of parser/mod.rs, with
      the passes of formatter_protocol.rs and hasher_protocol.rs over the parsed
      program); ExpandInv: what the expanders keep; DeriveInv: what a
      derive is and where its code goes; ExpandExamples: concrete texts.
    - TypeEnv: scopes, layouts and ownership keys (typeck/env.rs).
    - Borrow: the borrow checker (typeck/borrow.rs) over the AST and the type
      environment; BorrowInv: what it keeps; BorrowSound: a semantics of moves
      and the soundness of the check.
    - Hir: the HIR data model (hir/, type_naming.rs); HirLower: types,
      patterns, expressions and statements (hir/lower/); HirItems:
      declarations, class hierarchies and programs (hir/lower.rs);
      HirClasses: the layout and dispatch of classes; HirSem: reference
      interpreters of the source and of the HIR; HirCorrect: the lowered
      program does what the source does; HirExamples: concrete programs.
    - Format: the source formatter (tools/sgfmt/src/), which prints the AST;
      FormatRoundtrip: what it prints is read back.

    Types, the MIR and code generation:
    - Ty: types, kinds, predicates, errors (typeck/ty.rs).
    - Interner: the hash-consing arena of types (typeck/interner.rs,
      [TyInterner]).  The state is the arena and its reverse index.
    - Infer: unification, substitution, the occurs check and instantiation
      (typeck/infer.rs, [TypeInfer]; the id counters of typeck/env.rs).  The
      unifier is written against the interface [BindingStore]; the code's
      store of interned ids ([interned_store]) and a finite map
      ([ideal_store]) are its instances.
    - Unify: the metatheory of the unifier over the finite map.
    - Refine: the code's store implements the finite map; through this
      simulation the results of Unify hold of the code.
    - Instantiate: fresh instances of polymorphic types, and what callers see
      of a session through several calls.
    - Mir: the MIR data model (mir/mod.rs, inst.rs, bb.rs, op.rs) and what
      the emitted code does for assignments, integer arithmetic, loads and
      stores, with the generator's choice of names and stack slots
      (codegen/mod.rs, codegen/instruction_helpers.rs).
    - Opt: the passes and pipelines of mir/opt.rs.  A pass is a [MirPass];
      the class [CorrectPass] is what the pipeline needs to know of one.
    - FormatTemplate: the format-string parser (format_template.rs) and the
      argument selection of mir/lowering/format_methods.rs.

    The runtime:
    - Proto: varints, the user-event encoder and decoder, the table of decoded
      events and the last-error state (reflect/runtime_proto.rs).
    - Executor: the multi-threaded executor (async_runtime/executor.rs) as a
      transition system; ExecutorInv: its invariant and progress;
      Retired: the record of statuses kept after a shutdown, and the
      process-wide functions.
    - Channel: bounded channels (async_runtime/concurrent.rs, with the poll
      lifecycle of async_runtime/futures.rs and the handle conventions of
      async_runtime.rs); ChannelInv: their correctness.
    - RwLock: the reader/writer lock of the same file; RwLockInv: its
      correctness.  AsyncMutex: the mutex, with its correctness.
    - Scheduler: the single-threaded [CoroutineScheduler]
      (async_runtime.rs), over the trait [CoroutineTask] as a class.
    - TaskScope: scopes of tasks and the tasks that own a foreign future
      (async_runtime/task_scope.rs, bridge.rs), as a transition system like
      Executor; Select: waiting for the first of several futures
      (async_runtime/select.rs); with their correctness.
    - NetBytes: byte strings and connections; Net: error codes, URL and HTTP
      parsing and the HTTP client (net.rs, net/http_client.rs); WebSocket:
      base64, SHA-1, frames and the handshake (net/websocket.rs).
    - HttpServer: reading, routing and answering requests
      (net/http_server.rs); HttpState: its handle tables and C interface;
      HttpInv, HttpText, HttpHandles, HttpRoundtrip: their correctness.

    The compiler driver (tools/sgc/src/), whose incremental build has files of
    its own below:
    - Prune: leaving out of an AST and of an HIR the functions that main cannot
      reach (pipeline/ast_pruning.rs, hir_pruning.rs), and when this is done
      (pipeline.rs); PruneMirSource: the same of the MIR and of a plain source
      text (pipeline/mir_pruning.rs, source_pruning.rs);
      PruneInv, PruneMirInv: what is kept.

    The incremental build (tools/sgc/src/):
    - Worklist: the search loop that several of the files contain.
    - BuildGraph: fingerprints, graphs and their construction
      (model_types.rs, graph_builder.rs, symbol_intern.rs), and the class
      [HashOrder], what a client may assume of the iteration order of a hash
      table.
    - Impact: the classification of an edit and its propagation (impact.rs);
      ImpactInv, ImpactSymbols: their correctness.
    - ModuleGraph: the batches in which modules are built (module_graph.rs).
    - GenericCache: the cache of generic instances (generic_cache.rs);
      GenericCacheInv: its correctness.
    - Workset: cache keys, plans, the manifest, the shortcuts and the decision
      of the build command (workset.rs, commands/workset_optimizations.rs,
      commands/build.rs), with what depends on the target (cross_compile.rs,
      native_toolchain.rs, installed_runtime.rs); WorksetInv: its correctness.

    The package manager:
    - PkgManifest: manifests and paths (tools/sgpm/src/manifest.rs).
    - PkgArchive: archives, the cache and content checksums
      (tools/sgpm/src/resolver.rs).
    - Resolver: the dependency graph (the same file); ResolverInv: its
      correctness.

    This file holds what they share: results, machine integers, options,
    lists and tactics.

    ** How the code is modelled

    A function that reads and writes [self] takes the state and returns the
    new one.  [Result] is [result], [?] is [let?].  A [w]-bit integer is a [Z]
    with wrap-around written out ([wrap_u], [wrap_s]); a counter that only
    counts allocations is a [nat].  A [HashMap] is a [gmap]; where a result
    could depend on its iteration order, the order is an instance of
    [HashOrder].  A box behind an
    [i64] handle is an entry of a store; the use of a handle that is dead or
    has another type is undefined, and undefined is [None].  A function that
    runs under a mutex is one step, and concurrency is the interleaving of
    steps.  What the program does not decide is a parameter: payloads and
    what their foreign functions do, the answers of a coroutine's [poll] and
    [cancel], allocation failure, the clock, the file system, what
    arrives on a connection and when, the fingerprints of tool chains and
    files, and the TOML, semver and SHA-256
    libraries.  A parsing function is a value of
    a state and error monad, whose state also changes when it fails.

    ** What is proved

    - Parser: on every stream of tokens without f-strings and contract clauses
      the parser returns, and recovery after an error makes progress.  An
      operator expression written with the parentheses its levels need is read
      back as itself, no two such expressions have the same tokens, and every
      expression can be so written.  Six forms that are read otherwise than
      the language reference says follow from concrete runs.
    - Scanner: it ends, its tokens are in order and inside the text, and the
      text expanders skip f-strings as the scanner reads them.
    - Text expanders: an expanded text has no macro invocation left, templates
      are filled in exactly, [cfg] predicates are read as they are written and
      their parser ends on every text; exactly the derive attributes
      of a text are blanked, its positions stay, and what they generate is
      inserted at the ends of their declarations; the protocol
      passes add each method once.  Concrete texts show what is changed otherwise
      than meant: fields that derived impls leave out, declarations that a
      [cfg] removes too many, a panic at the end of a file.
    - Formatter: an operator expression is printed, scanned and parsed to
      itself, and printed the same again; what is not read back, or is lost,
      follows from concrete runs.
    - Type environment: the arena of scopes implements a stack of maps, and
      the search through struct layouts ends.
    - Borrow checker: a function it accepts, in a fragment that is delimited
      by counterexamples, never uses a moved value.  The semantics moves
      wherever the language does, consuming receivers, fields of structs and
      overloaded operands included; where the checker does not look is outside
      of the fragment ([untaken]), with a program it accepts that uses a
      moved value.  Also scopes are balanced; the
      count of later uses is exact; a borrow is refused exactly on a conflict.
    - HIR lowering: it gives a module for every program, nothing is dropped,
      and what a function returns is what its lowering returns; the methods
      and the layout of a class are those of its hierarchy.  Five constructs
      whose lowering means something else follow from concrete runs.
    - Pruning: main of a pruned AST or HIR computes what it did, when no two
      functions have the same name; of the MIR, with or without such names,
      exactly the functions that can be entered are kept; of a source text
      every function that a kept one mentions.  A function called only from a
      method is lost, by a concrete run.
    - Package manager: a parsed manifest is well formed; what an archive
      writes, the directories it makes included, stays below its directory
      (its bytes are bounded by their headers only); the checksum covers exactly the
      content; resolution ends, lists dependencies before dependents, reports
      only real cycles and selects the greatest version that matches.
    - Types: interning and materializing are inverse up to origin tags, and
      [ty_eq] is structural equality.  Unification answers from every acyclic
      store, keeps the store acyclic and earlier bindings in place, and makes
      the two types compatible.  Instantiation renames injectively to
      variables not in use.  Three observations about the code follow from
      concrete runs: unifying two variables twice ends in an error type,
      [Future] is opaque to all traversals, and a failed tuple keeps the
      bindings of its prefix.
    - Optimizer: every pipeline preserves the behaviour of every block in
      both overflow modes of the emitted code, for functions that meet the
      conditions of [optimizable] (which lowering does not always establish;
      a narrow operand shows what happens then), and a pass reports a change
      exactly when it made one.  Constant folding at O1 removes an overflow
      panic; the preservation theorem speaks of runs that do not panic.
    - Format templates: printing and parsing are inverse on canonical
      templates, and the number of arguments the checker demands is exact.
    - Wire format: decoding an encoded event gives it back, through the
      internal functions and through the C interface; the decoder takes the
      last occurrence of a field and skips unknown ones; decoded handles
      live until closed.  With overflow checks the decoder ends on every
      input; without them there is an input on which it does not.
    - Executor: in every interleaving each pending task is in one place, a
      final status stays, submissions are accepted exactly when there is
      room, and a cancelling shutdown terminates.  Retired statuses are the
      newest ones, and a shutdown does not change what a caller reads.
    - Channels: first in, first out, nothing lost or doubled while the
      receiver lives; queue, counters and the closed flag agree; a pending
      poll changes nothing; every payload ends exactly once.
    - Reader/writer lock: exclusion, nobody passes a waiting writer, the head
      of the queue gets a free lock, payloads end exactly once.  Cancelling a
      ready acquisition loses its guard.
    - Mutex: locks and unlocks of a mutex alternate, and payloads end exactly
      once; a cancelled or dropped lock that was ready keeps the mutex locked.
    - Scheduler: a tick polls each due task once in order, every task is
      counted once, and [run_until_idle] empties the queue of terminating
      tasks within as many ticks as they need polls.
    - Task scopes: whatever the interleaving, a closed scope accepted its tasks,
      cancelled all of them if it was to, joined each once in order, and then
      reported; no call panics, and a close waits only for spawns.  The report
      hides a failure behind a later cancel.  A foreign task releases its
      future exactly once.
    - Select: futures are polled in turn and the first ready one wins; each
      loser is cancelled once.
    - HTTP: a request for a static route is read, routed and answered with
      the configured response however its bytes arrive; reading takes no more
      than the configured limits; each connection has one owner and each
      request or response stream is answered at most once, and its handle is
      gone then, on every run of the C interface;
      streamed responses are read back by the client; the echo session
      answers every frame.  Findings show where limits and header values
      are not checked.
    - Incremental build: the classification of an edit does not depend on
      hash order and lists exactly what the edit reaches; the symbols of a
      module are exact; batches are topologically sorted; a repeated build
      rebuilds no generic instance; every module and function of the manifest
      is built or reused; and an artifact is reused only for the same
      sources and recorded options and runtime, except by two shortcuts, for
      which concrete runs show that they reuse too much.  The target is not
      recorded: native code is reused only for the same target, unless two
      fingerprints collide, but LLVM text is for any.

    ** Fuel and bounds

    [unify_in_place] and [subst_apply] follow bindings and take fuel; from an
    acyclic store enough fuel exists (Unify, Refine), and more fuel does not
    change the answer.  [materialize] takes [id + 1], because the children of
    a shape have smaller ids.  The decoder takes an iteration bound, one more
    than the bytes of the input, since each field consumes a byte; the theorem
    on divergence quantifies over all bounds.  The varint loops take 10 and 11:
    a 64-bit varint has at most ten bytes, and an eleventh is an error.  The id
    search of the lock takes one more
    than the ids in use, the pigeonhole bound.  The decimal printer takes 20,
    the digits of 2^64.  The parser takes fuel for its nesting, and one more
    than the tokens ahead is enough, since every nested call is made after a
    token was consumed; its loops run on a count of their own, two more than
    the tokens ahead, since every round consumes one.  The scanner takes the
    length of the text, since no token is empty.  The resolver's fuel is
    more than the number of canonical paths, since no manifest is entered
    twice.  A read loop takes one more than the arrivals it can see, decoding
    chunks one more than the bytes, the echo session as much as its frames
    need; a deadline is the number of attempts made before it passes; an
    allocation beyond [alloc_max] ends the process.  A walk takes the length
    of its queue and the number of elements that can be found, a level of
    modules two per module, the search from main one per call.  The walk along
    the parents of a class takes two more than the number of classes; the
    reference interpreters take fuel for calls and loop iterations, and the
    theorem on lowering gives the lowered function the same fuel.  A loop of
    the text expanders runs for the distance to the end of the text, which
    every step shortens; the nesting of a [cfg] predicate has the length of its
    text as fuel, which is enough for every text; the wait of a select runs for as many rounds as
    one looks at; macro expansion makes sixteen
    passes, as in the code.  The search for reachable functions takes the
    length of its stack and the number of calls of all functions, since each
    function is expanded once.

    ** What is not modelled

    MIR lowering, the async state-machine lowering and the AST walk of the
    type checker.  The environment variables and commands that derive macros may
    name are parameters.  The scanner
    is generated by the logos crate from the patterns of the tokens; its
    documented rule, the longest match, is what Scanner uses of it, and a text
    in which no pattern matches somewhere has no tokens there.
    Text inside f-strings and contract clauses is parsed by a second parser
    over the scanner's output, which is modelled; the parser takes the scanner
    as a parameter for them, and the theorems on termination are about streams
    without them.  Of
    the runtime the shared cell of concurrent.rs, timers, the reactor and
    asynchronous files and the futures of the HTTP server's asynchronous
    interface are left; TCP, UDP and TLS sockets, databases, Lua and files
    are calls into the operating system or other libraries.
    Text emission of the code generators, messages and the [Display] impls
    are left out, and so are the command lines of the tools (tools/), their
    files, and the language server. *)

From stdpp Require Export base tactics option list strings gmap fin_maps.
From Stdlib Require Export ZArith Lia.

(** ** Results

    Rust's [Result<A, E>], with a bind notation that plays the role of the
    [?] operator. *)

Inductive result (A E : Type) : Type :=
| Ok (a : A)
| Err (e : E).
Arguments Ok {A E} a.
Arguments Err {A E} e.

Declare Scope sengoo_scope.
Delimit Scope sengoo_scope with sengoo.

Notation "'let?' x := e 'in' k" :=
  (match e with Ok x => k | Err err => Err err end)
  (at level 10, x pattern, e at level 200, k at level 200) : sengoo_scope.
Notation "'let*' x := e 'in' k" :=
  (match e with Some x => k | None => None end)
  (at level 10, x pattern, e at level 200, k at level 200) : sengoo_scope.

#[global] Open Scope sengoo_scope.

#[global] Instance result_eq_dec {A E} `{EqDecision A, EqDecision E} : EqDecision (result A E).
Proof. solve_decision. Defined.

(** ** Machine integers

    A [w]-bit integer is a [Z]; the wrap-around of Rust's wrapping operations
    and of [as] casts is written out. *)

Definition wrap_u (w : Z) (z : Z) : Z := z mod 2 ^ w.

Definition wrap_s (w : Z) (z : Z) : Z := (z + 2 ^ (w - 1)) mod 2 ^ w - 2 ^ (w - 1).

Definition in_u (w z : Z) : Prop := (0 <= z < 2 ^ w)%Z.

Definition in_s (w z : Z) : Prop := (- 2 ^ (w - 1) <= z < 2 ^ (w - 1))%Z.

Lemma wrap_u_id (w z : Z) : in_u w z -> wrap_u w z = z.
Proof. unfold in_u, wrap_u. intros. by apply Z.mod_small. Qed.

Lemma wrap_u_range (w z : Z) : (0 <= w)%Z -> in_u w (wrap_u w z).
Proof. intros Hw. unfold in_u, wrap_u. apply Z.mod_pos_bound. lia. Qed.

Lemma pow2_half (w : Z) : (0 < w)%Z -> (2 ^ w = 2 * 2 ^ (w - 1))%Z.
Proof. intros. rewrite <- Z.pow_succ_r by lia. f_equal. lia. Qed.

Lemma wrap_s_id (w z : Z) : (0 < w)%Z -> in_s w z -> wrap_s w z = z.
Proof.
  unfold in_s, wrap_s. intros Hw Hz. pose proof (pow2_half w Hw).
  rewrite Z.mod_small; lia.
Qed.

Lemma wrap_s_range (w z : Z) : (0 < w)%Z -> in_s w (wrap_s w z).
Proof.
  intros Hw. unfold in_s, wrap_s. pose proof (pow2_half w Hw).
  pose proof (Z.mod_pos_bound (z + 2 ^ (w - 1)) (2 ^ w) ltac:(lia)). lia.
Qed.

(** *** Bit fields *)

Lemma land_shiftl_disjoint (acc b s : Z) :
  (0 <= s)%Z -> (0 <= acc < 2 ^ s)%Z -> Z.land acc (Z.shiftl b s) = 0%Z.
Proof.
  intros Hs Hacc. apply Z.bits_inj'. intros i Hi. rewrite Z.land_spec, Z.bits_0.
  destruct (Z.lt_ge_cases i s).
  - rewrite Z.shiftl_spec_low by done. by rewrite andb_false_r.
  - rewrite (proj1 (Z.bounded_iff_bits_nonneg s acc ltac:(lia) ltac:(lia))) by lia. done.
Qed.

Lemma lor_disjoint (acc b s : Z) :
  (0 <= s)%Z -> (0 <= acc < 2 ^ s)%Z -> Z.lor acc (Z.shiftl b s) = (acc + b * 2 ^ s)%Z.
Proof.
  intros Hs Hacc. rewrite <- Z.add_nocarry_lor by (by apply land_shiftl_disjoint).
  by rewrite Z.shiftl_mul_pow2.
Qed.

Lemma land_127 (z : Z) : Z.land z 127 = (z mod 128)%Z.
Proof. change 127%Z with (Z.ones 7). by rewrite Z.land_ones. Qed.

(** ** State-threading traversal

    [iter().map(|x| self.f(x)).collect()] where [f] updates [self]: the
    elements are visited from left to right and each call sees the state the
    previous one left. *)

Section traverse.
Context {S A B : Type} (f : A -> S -> B * S).

Fixpoint traverse (l : list A) (s : S) : list B * S :=
  match l with
  | [] => ([], s)
  | x :: l' =>
      let '(y, s1) := f x s in
      let '(ys, s2) := traverse l' s1 in
      (y :: ys, s2)
  end.
End traverse.

(** ** Options *)

Definition is_some {A} (o : option A) : bool := match o with Some _ => true | None => false end.

(** ** Lists *)

Lemma sum_list_le_elem (l : list nat) (x : nat) : x ∈ l -> x <= sum_list l.
Proof. induction 1; simpl; lia. Qed.

Lemma Forall2_compose {A B C} (P : A -> B -> Prop) (Q : B -> C -> Prop) (R : A -> C -> Prop) l k m :
  (forall x y z, P x y -> Q y z -> R x z) ->
  Forall2 P l k -> Forall2 Q k m -> Forall2 R l m.
Proof.
  intros HR H1. revert m. induction H1; intros m H2; inversion H2; subst; constructor; eauto.
Qed.

(** ** Automation *)

(** Break the [Forall] hypotheses over literal lists and appends. *)
Ltac forall_split :=
  repeat match goal with
    | H : Forall _ [] |- _ => clear H
    | H : Forall _ (_ ++ _) |- _ => apply Forall_app in H as [? ?]
    | H : Forall _ (_ :: _) |- _ => apply Forall_cons in H as [? ?]
    end; cbn beta in *.

Create HintDb sengoo.
