(* ===== verification/Ty.v ===== *)
(** The type representation of the checker: compiler/src/typeck/ty.rs.

    [Ty] is the source's struct of an origin tag and a [TyKind]; the two are
    mutually inductive because composite kinds hold [Ty] children.  [usize]
    ids are [nat]: they only count allocations and are compared.  The file
    gives the induction principle over direct children used everywhere, the
    derived structural equality, and [erase], the specification-level view of
    a type with all its origin tags reset to the sentinel [0]. *)

From S2P Require Import Prelude.

Notation TyId := nat (only parsing).
Notation TyVarId := nat (only parsing).

(** ** Kinds of numbers *)

Inductive IntKind :=
| I8 | I16 | I32 | I64 | I128 | ISize
| U8 | U16 | U32 | U64 | U128 | USize.

Inductive FloatKind := F32 | F64.

#[export] Instance IntKind_eq_dec : EqDecision IntKind.
Proof. solve_decision. Defined.

#[export] Instance FloatKind_eq_dec : EqDecision FloatKind.
Proof. solve_decision. Defined.

Definition int_is_signed (k : IntKind) : bool :=
  match k with
  | I8 | I16 | I32 | I64 | I128 | ISize => true
  | _ => false
  end.

Definition int_bits (k : IntKind) : nat :=
  match k with
  | I8 | U8 => 8
  | I16 | U16 => 16
  | I32 | U32 => 32
  | I64 | U64 => 64
  | I128 | U128 => 128
  | ISize | USize => 64
  end.

Definition float_bits (k : FloatKind) : nat :=
  match k with F32 => 32 | F64 => 64 end.

(** ** Types *)

Inductive Ty :=
| mkTy (id : TyId) (kind : TyKind)
with TyKind :=
| TError
| TUnit
| TNever
| TBool
| TInt (k : IntKind)
| TFloat (k : FloatKind)
| TChar
| TStr
| TByte
| TBytes
| TTuple (types : list Ty)
| TArray (elem : Ty) (n : nat)
| TSlice (elem : Ty)
| TRef (mutable : bool) (inner : Ty)
| TPtr (inner : Ty)
| TFn (params : list Ty) (ret : Ty) (is_variadic : bool)
| TVar (id : TyVarId)
| TAdt (name : string) (args : list Ty)
| TDyn (traits : list string)
| TAssocProjection (base : Ty) (trait_name name : string)
| TImplTrait (traits : list string)
| TFuture (inner : Ty)
| TSelfType
| TInferred.

Definition ty_id (t : Ty) : TyId := match t with mkTy i _ => i end.
Definition ty_kind (t : Ty) : TyKind := match t with mkTy _ k => k end.

(** The direct sub-types of a kind, in the order the source visits them. *)
Definition children (k : TyKind) : list Ty :=
  match k with
  | TTuple ts => ts
  | TArray e _ | TSlice e => [e]
  | TRef _ t | TPtr t | TFuture t => [t]
  | TFn ps r _ => ps ++ [r]
  | TAdt _ args => args
  | TAssocProjection b _ _ => [b]
  | _ => []
  end.

(** Induction with one case: a type inherits what all its children have. *)
Section Ty_induction.
Context (P : Ty -> Prop).
Context (H : forall id k, Forall P (children k) -> P (mkTy id k)).

Lemma Ty_children_ind : forall t, P t.
Proof.
  fix IH 1. intros [id k]. apply H.
  assert (Hl : forall l, Forall P l).
  { fix IHl 1. intros [|x l]; constructor; [apply IH|apply IHl]. }
  destruct k; simpl;
    match goal with
    | |- Forall P [] => apply Forall_nil_2
    | |- Forall P [?x] => apply Forall_cons_2; [exact (IH x)|apply Forall_nil_2]
    | |- Forall P (?l ++ [?x]) =>
        apply Forall_app_2; [exact (Hl l)|apply Forall_cons_2; [exact (IH x)|apply Forall_nil_2]]
    | |- Forall P ?l => exact (Hl l)
    end.
Qed.
End Ty_induction.

(** ** Predicates of [impl Ty] *)

Definition is_error (t : Ty) : bool := match ty_kind t with TError => true | _ => false end.
Definition is_unit (t : Ty) : bool := match ty_kind t with TUnit => true | _ => false end.
Definition is_never (t : Ty) : bool := match ty_kind t with TNever => true | _ => false end.
Definition is_bool (t : Ty) : bool := match ty_kind t with TBool => true | _ => false end.
Definition is_int (t : Ty) : bool := match ty_kind t with TInt _ => true | _ => false end.
Definition is_float (t : Ty) : bool := match ty_kind t with TFloat _ => true | _ => false end.
Definition is_numeric (t : Ty) : bool := is_int t || is_float t.
Definition is_ref (t : Ty) : bool := match ty_kind t with TRef _ _ => true | _ => false end.
Definition is_mut_ref (t : Ty) : bool := match ty_kind t with TRef true _ => true | _ => false end.
Definition is_fn (t : Ty) : bool := match ty_kind t with TFn _ _ _ => true | _ => false end.
Definition is_var (t : Ty) : bool := match ty_kind t with TVar _ => true | _ => false end.
Definition is_future (t : Ty) : bool := match ty_kind t with TFuture _ => true | _ => false end.

Definition is_copy_value (t : Ty) : bool :=
  match ty_kind t with
  | TInt _ | TFloat _ | TBool | TByte | TRef _ _ => true
  | _ => false
  end.

Definition ref_inner (t : Ty) : option Ty :=
  match ty_kind t with TRef _ t' => Some t' | _ => None end.

Definition future_inner (t : Ty) : option Ty :=
  match ty_kind t with TFuture t' => Some t' | _ => None end.

(** ** Structural equality

    [#[derive(PartialEq)]] on [Ty] compares the origin tag as well as the
    kind, recursively. *)

Definition list_eqb {A} (eqb : A -> A -> bool) : list A -> list A -> bool :=
  fix go (l1 l2 : list A) : bool :=
    match l1, l2 with
    | [], [] => true
    | x :: l1', y :: l2' => eqb x y && go l1' l2'
    | _, _ => false
    end.

Fixpoint ty_eqb (t1 t2 : Ty) : bool :=
  match t1, t2 with mkTy i1 k1, mkTy i2 k2 =>
    Nat.eqb i1 i2 &&
    match k1, k2 with
    | TError, TError | TUnit, TUnit | TNever, TNever | TBool, TBool
    | TChar, TChar | TStr, TStr | TByte, TByte | TBytes, TBytes
    | TSelfType, TSelfType | TInferred, TInferred => true
    | TInt a, TInt b => bool_decide (a = b)
    | TFloat a, TFloat b => bool_decide (a = b)
    | TTuple a, TTuple b => list_eqb ty_eqb a b
    | TArray a n, TArray b m => ty_eqb a b && Nat.eqb n m
    | TSlice a, TSlice b => ty_eqb a b
    | TRef m a, TRef m' b => eqb m m' && ty_eqb a b
    | TPtr a, TPtr b => ty_eqb a b
    | TFn ps r v, TFn ps' r' v' => list_eqb ty_eqb ps ps' && ty_eqb r r' && eqb v v'
    | TVar a, TVar b => Nat.eqb a b
    | TAdt n a, TAdt n' b => bool_decide (n = n') && list_eqb ty_eqb a b
    | TDyn a, TDyn b => bool_decide (a = b)
    | TAssocProjection a t n, TAssocProjection b t' n' =>
        ty_eqb a b && bool_decide (t = t') && bool_decide (n = n')
    | TImplTrait a, TImplTrait b => bool_decide (a = b)
    | TFuture a, TFuture b => ty_eqb a b
    | _, _ => false
    end
  end.

Lemma list_eqb_eq {A} (eqb : A -> A -> bool) (l1 l2 : list A) :
  Forall (fun x => forall y, eqb x y = true <-> x = y) l1 ->
  list_eqb eqb l1 l2 = true <-> l1 = l2.
Proof.
  intros HF. revert l2.
  induction HF as [|x l Hx _ IH]; intros [|y l2]; simpl; try (split; congruence).
  rewrite andb_true_iff, Hx, IH. split; [intros [-> ->]; done|by intros [= -> ->]].
Qed.

Lemma ty_eqb_eq (t1 t2 : Ty) : ty_eqb t1 t2 = true <-> t1 = t2.
Proof.
  revert t2. induction t1 as [i k IH] using Ty_children_ind. intros [j k2].
  cbn [ty_eqb]. rewrite andb_true_iff, Nat.eqb_eq.
  destruct k, k2; cbn [children] in IH;
    forall_split;
    rewrite ?andb_true_iff, ?bool_decide_eq_true, ?Nat.eqb_eq, ?eqb_true_iff;
    try (rewrite list_eqb_eq by assumption);
    repeat match goal with H : forall y, ty_eqb ?x y = true <-> _ |- context [ty_eqb ?x ?z] =>
      rewrite (H z) end;
    intuition congruence.
Qed.

#[export] Instance Ty_eq_dec : EqDecision Ty.
Proof.
  intros t1 t2. destruct (ty_eqb t1 t2) eqn:E.
  - left. by apply ty_eqb_eq.
  - right. intros ->. by rewrite (proj2 (ty_eqb_eq t2 t2) eq_refl) in E.
Defined.

(** ** Forgetting origin tags

    Storing a type in the interner forgets every origin tag and reading it
    back fills them with [0] (interner.rs, [materialize]). *)

Fixpoint erase (t : Ty) : Ty :=
  match t with mkTy _ k => mkTy 0
    match k with
    | TTuple ts => TTuple (map erase ts)
    | TArray e n => TArray (erase e) n
    | TSlice e => TSlice (erase e)
    | TRef m t' => TRef m (erase t')
    | TPtr t' => TPtr (erase t')
    | TFn ps r v => TFn (map erase ps) (erase r) v
    | TAdt n args => TAdt n (map erase args)
    | TAssocProjection b tr n => TAssocProjection (erase b) tr n
    | TFuture t' => TFuture (erase t')
    | k' => k'
    end
  end.

(** ** Errors *)

Inductive TypeckError :=
| TypeMismatch (expected found : TyKind)
| UndefinedType (name : string)
| UndefinedVariable (name : string)
| UndefinedFunction (name : string)
| ArgumentCountMismatch (expected found : nat)
| FieldNotFound (type_name field_name : string)
| MethodNotFound (type_name method_name : string)
| TypeInferenceFailed
| RecursiveType (name : string)
| TypeTooLarge (ty : TyKind)
| CyclicType
| NonExhaustiveMatch (missing : list string) (span_lo span_hi : Z)
| UnreachableMatchArm (span_lo span_hi : Z)
| GuardNotBool (span_lo span_hi : Z)
| OrPatternBindingMismatch (span_lo span_hi : Z)
| InvalidQuestionMark (message : string) (span_lo span_hi : Z)
| FfiSignature (code message : string) (span_lo span_hi : Z)
| Diagnostic (code message : string) (span_lo span_hi : Z)
| OtherError (msg : string).

Definition stable_code (e : TypeckError) : option string :=
  match e with
  | NonExhaustiveMatch _ _ _ => Some "non-exhaustive-match"%string
  | UnreachableMatchArm _ _ => Some "unreachable-match-arm"%string
  | GuardNotBool _ _ => Some "guard-not-bool"%string
  | OrPatternBindingMismatch _ _ => Some "or-pattern-binding-mismatch"%string
  | InvalidQuestionMark _ _ _ => Some "invalid-question-mark"%string
  | FfiSignature code _ _ _ => Some code
  | Diagnostic code _ _ _ => Some code
  | _ => None
  end.

Definition error_span (e : TypeckError) : option (Z * Z) :=
  match e with
  | NonExhaustiveMatch _ lo hi | UnreachableMatchArm lo hi | GuardNotBool lo hi
  | OrPatternBindingMismatch lo hi | InvalidQuestionMark _ lo hi
  | FfiSignature _ _ lo hi | Diagnostic _ _ lo hi => Some (lo, hi)
  | _ => None
  end.

(** A diagnostic has a stable code exactly when it has a source span. *)
Lemma stable_code_iff_span (e : TypeckError) :
  is_Some (stable_code e) <-> is_Some (error_span e).
Proof. destruct e; simpl; split; intros [? ?]; try discriminate; eauto. Qed.

Lemma map_erase_idemp (l : list Ty) :
  Forall (fun t => erase (erase t) = erase t) l -> map erase (map erase l) = map erase l.
Proof. induction 1; simpl; congruence. Qed.

Lemma erase_idemp (t : Ty) : erase (erase t) = erase t.
Proof.
  induction t as [i k IH] using Ty_children_ind.
  destruct k; cbn [children] in IH; cbn [erase]; try reflexivity;
    forall_split; rewrite ?map_erase_idemp by assumption;
    repeat match goal with H : erase (erase ?x) = _ |- context [erase (erase ?x)] => rewrite H end;
    reflexivity.
Qed.
