(* ===== verification/Interner.v ===== *)
(** The structural type interner: compiler/src/typeck/interner.rs.

    [TyInterner] is the append-only arena together with its reverse index.
    Ids are [u32]: the [arena.len() as u32] cast is written out, so the
    results about fresh ids assume an arena of at most 2^32 shapes
    ([fits]).  [materialize] recurses through ids, not through a tree; the
    recursion is bounded by fuel [id + 1], which is enough because the
    children of a shape are interned before it ([interner_wf]). *)

From S2P Require Import Prelude Ty.

Notation InternedTyId := N (only parsing).

Definition as_u32 (n : nat) : InternedTyId := (N.of_nat n mod 2 ^ 32)%N.

Inductive InternedTyKind :=
| IError
| IUnit
| INever
| IBool
| IInt (k : IntKind)
| IFloat (k : FloatKind)
| IChar
| IStr
| IByte
| IBytes
| ITuple (ids : list InternedTyId)
| IArray (elem : InternedTyId) (n : nat)
| ISlice (elem : InternedTyId)
| IRef (is_mut : bool) (inner : InternedTyId)
| IPtr (inner : InternedTyId)
| IFn (params : list InternedTyId) (ret : InternedTyId) (is_variadic : bool)
| IVar (id : TyVarId)
| IAdt (name : string) (args : list InternedTyId)
| IDyn (traits : list string)
| IAssocProjection (base : InternedTyId) (trait_name name : string)
| IImplTrait (traits : list string)
| IFuture (inner : InternedTyId)
| ISelfType
| IInferred.

#[export] Instance InternedTyKind_eq_dec : EqDecision InternedTyKind.
Proof. solve_decision. Defined.

(** ** Hashing

    [#[derive(Hash)]]: a shape is a finite-map key.  The instance goes
    through a triple of a constructor number, numbers and strings. *)

Definition int_code (k : IntKind) : N :=
  match k with
  | I8 => 0 | I16 => 1 | I32 => 2 | I64 => 3 | I128 => 4 | ISize => 5
  | U8 => 6 | U16 => 7 | U32 => 8 | U64 => 9 | U128 => 10 | USize => 11
  end%N.

Definition int_decode (n : N) : IntKind :=
  match n with
  | 0 => I8 | 1 => I16 | 2 => I32 | 3 => I64 | 4 => I128 | 5 => ISize
  | 6 => U8 | 7 => U16 | 8 => U32 | 9 => U64 | 10 => U128 | _ => USize
  end%N.

Definition bool_code (b : bool) : N := if b then 1%N else 0%N.

Definition kind_code (k : InternedTyKind) : nat * list N * list string :=
  match k with
  | IError => (0, [], []) | IUnit => (1, [], []) | INever => (2, [], []) | IBool => (3, [], [])
  | IInt i => (4, [int_code i], [])
  | IFloat F32 => (5, [0%N], []) | IFloat F64 => (5, [1%N], [])
  | IChar => (6, [], []) | IStr => (7, [], []) | IByte => (8, [], []) | IBytes => (9, [], [])
  | ITuple ids => (10, ids, [])
  | IArray e n => (11, [e; N.of_nat n], [])
  | ISlice e => (12, [e], [])
  | IRef m t => (13, [bool_code m; t], [])
  | IPtr t => (14, [t], [])
  | IFn ps r v => (15, bool_code v :: r :: ps, [])
  | IVar v => (16, [N.of_nat v], [])
  | IAdt n args => (17, args, [n])
  | IDyn ts => (18, [], ts)
  | IAssocProjection b t n => (19, [b], [t; n])
  | IImplTrait ts => (20, [], ts)
  | IFuture t => (21, [t], [])
  | ISelfType => (22, [], []) | IInferred => (23, [], [])
  end.

Definition kind_decode (c : nat * list N * list string) : option InternedTyKind :=
  match c with
  | (0, _, _) => Some IError | (1, _, _) => Some IUnit | (2, _, _) => Some INever
  | (3, _, _) => Some IBool
  | (4, [i], _) => Some (IInt (int_decode i))
  | (5, [f], _) => Some (IFloat (if bool_decide (f = 0%N) then F32 else F64))
  | (6, _, _) => Some IChar | (7, _, _) => Some IStr | (8, _, _) => Some IByte
  | (9, _, _) => Some IBytes
  | (10, ids, _) => Some (ITuple ids)
  | (11, [e; n], _) => Some (IArray e (N.to_nat n))
  | (12, [e], _) => Some (ISlice e)
  | (13, [m; t], _) => Some (IRef (bool_decide (m = 1%N)) t)
  | (14, [t], _) => Some (IPtr t)
  | (15, v :: r :: ps, _) => Some (IFn ps r (bool_decide (v = 1%N)))
  | (16, [v], _) => Some (IVar (N.to_nat v))
  | (17, args, [n]) => Some (IAdt n args)
  | (18, _, ts) => Some (IDyn ts)
  | (19, [b], [t; n]) => Some (IAssocProjection b t n)
  | (20, _, ts) => Some (IImplTrait ts)
  | (21, [t], _) => Some (IFuture t)
  | (22, _, _) => Some ISelfType
  | (23, _, _) => Some IInferred
  | _ => None
  end.

Lemma kind_decode_code (k : InternedTyKind) : kind_decode (kind_code k) = Some k.
Proof.
  destruct k as [| | | |i|f| | | | |ids|e n|e|m t|t|ps r v|v|nm args|ts|b t n|ts|t| |]; simpl;
    rewrite ?Nat2N.id; try reflexivity; try (by destruct i); try (by destruct f);
    try (by destruct m); by destruct v.
Qed.

#[export] Instance InternedTyKind_countable : Countable InternedTyKind.
Proof. exact (inj_countable kind_code kind_decode kind_decode_code). Defined.

(** ** The interner *)

Record TyInterner := mkInterner {
  arena : list InternedTyKind;
  lookup_tbl : gmap InternedTyKind InternedTyId;
}.

Definition interner_new : TyInterner := mkInterner [] ∅.

Definition interner_len (s : TyInterner) : nat := length (arena s).

Definition interner_is_empty (s : TyInterner) : bool :=
  match arena s with [] => true | _ => false end.

Definition intern (k : InternedTyKind) (s : TyInterner) : InternedTyId * TyInterner :=
  match lookup_tbl s !! k with
  | Some id => (id, s)
  | None =>
      let id := as_u32 (length (arena s)) in
      (id, mkInterner (arena s ++ [k]) (<[k := id]> (lookup_tbl s)))
  end.

Definition try_lookup (s : TyInterner) (id : InternedTyId) : option InternedTyKind :=
  arena s !! N.to_nat id.

Fixpoint intern_ty (ty : Ty) (s : TyInterner) : InternedTyId * TyInterner :=
  match ty with
  | mkTy _ kind => let '(k, s1) := lower_kind kind s in intern k s1
  end
with lower_kind (kind : TyKind) (s : TyInterner) : InternedTyKind * TyInterner :=
  match kind with
  | TError => (IError, s)
  | TUnit => (IUnit, s)
  | TNever => (INever, s)
  | TBool => (IBool, s)
  | TInt k => (IInt k, s)
  | TFloat k => (IFloat k, s)
  | TChar => (IChar, s)
  | TStr => (IStr, s)
  | TByte => (IByte, s)
  | TBytes => (IBytes, s)
  | TTuple types => let '(ids, s1) := traverse intern_ty types s in (ITuple ids, s1)
  | TArray elem n => let '(e, s1) := intern_ty elem s in (IArray e n, s1)
  | TSlice elem => let '(e, s1) := intern_ty elem s in (ISlice e, s1)
  | TRef m inner => let '(i, s1) := intern_ty inner s in (IRef m i, s1)
  | TPtr inner => let '(i, s1) := intern_ty inner s in (IPtr i, s1)
  | TFn params ret v =>
      let '(ps, s1) := traverse intern_ty params s in
      let '(r, s2) := intern_ty ret s1 in
      (IFn ps r v, s2)
  | TVar v => (IVar v, s)
  | TAdt name args => let '(ids, s1) := traverse intern_ty args s in (IAdt name ids, s1)
  | TDyn traits => (IDyn traits, s)
  | TAssocProjection base tr name =>
      let '(b, s1) := intern_ty base s in (IAssocProjection b tr name, s1)
  | TImplTrait traits => (IImplTrait traits, s)
  | TFuture inner => let '(i, s1) := intern_ty inner s in (IFuture i, s1)
  | TSelfType => (ISelfType, s)
  | TInferred => (IInferred, s)
  end.

(** [materialize_kind], with the recursive call as an argument. *)
Definition materialize_kind_with (rec : InternedTyId -> option Ty) (k : InternedTyKind)
    : option TyKind :=
  match k with
  | IError => Some TError
  | IUnit => Some TUnit
  | INever => Some TNever
  | IBool => Some TBool
  | IInt i => Some (TInt i)
  | IFloat f => Some (TFloat f)
  | IChar => Some TChar
  | IStr => Some TStr
  | IByte => Some TByte
  | IBytes => Some TBytes
  | ITuple ids => TTuple <$> mapM rec ids
  | IArray e n => (fun t => TArray t n) <$> rec e
  | ISlice e => TSlice <$> rec e
  | IRef m i => TRef m <$> rec i
  | IPtr i => TPtr <$> rec i
  | IFn ps r v =>
      let* ts := mapM rec ps in
      let* t := rec r in
      Some (TFn ts t v)
  | IVar v => Some (TVar v)
  | IAdt name args => TAdt name <$> mapM rec args
  | IDyn traits => Some (TDyn traits)
  | IAssocProjection b tr name => (fun t => TAssocProjection t tr name) <$> rec b
  | IImplTrait traits => Some (TImplTrait traits)
  | IFuture i => TFuture <$> rec i
  | ISelfType => Some TSelfType
  | IInferred => Some TInferred
  end.

(** [None] stands for the panic of [lookup] on a foreign id, or for a
    recursion that has used up its fuel. *)
Fixpoint materialize_fuel (n : nat) (s : TyInterner) (id : InternedTyId) : option Ty :=
  match n with
  | O => None
  | S n' =>
      let* k := try_lookup s id in
      let* kind := materialize_kind_with (materialize_fuel n' s) k in
      Some (mkTy 0 kind)
  end.

Definition materialize (s : TyInterner) (id : InternedTyId) : option Ty :=
  materialize_fuel (S (N.to_nat id)) s id.

Definition materialize_with_origin (s : TyInterner) (id : InternedTyId) (origin : nat)
    : option Ty :=
  (fun t => mkTy origin (ty_kind t)) <$> materialize s id.

Definition ty_eq (a b : Ty) (s : TyInterner) : bool * TyInterner :=
  let '(id_a, s1) := intern_ty a s in
  let '(id_b, s2) := intern_ty b s1 in
  (N.eqb id_a id_b, s2).

Definition id_eq_ty (id : InternedTyId) (t : Ty) (s : TyInterner) : bool * TyInterner :=
  let '(ty_id, s1) := intern_ty t s in
  (N.eqb ty_id id, s1).

(** ** Invariant *)

Definition ichildren (k : InternedTyKind) : list InternedTyId :=
  match k with
  | ITuple ids => ids
  | IArray e _ | ISlice e => [e]
  | IRef _ t | IPtr t | IFuture t => [t]
  | IFn ps r _ => ps ++ [r]
  | IAdt _ args => args
  | IAssocProjection b _ _ => [b]
  | _ => []
  end.

Definition fits (s : TyInterner) : Prop := (N.of_nat (length (arena s)) <= 2 ^ 32)%N.

Definition valid_id (s : TyInterner) (id : InternedTyId) : Prop :=
  N.to_nat id < length (arena s).

(** The index is the inverse of the arena, and every shape only mentions
    shapes that were interned before it. *)
Record interner_wf (s : TyInterner) : Prop := {
  wf_lookup : forall k id, lookup_tbl s !! k = Some id <-> arena s !! N.to_nat id = Some k;
  wf_closed : forall i k, arena s !! i = Some k -> Forall (fun c => N.to_nat c < i) (ichildren k);
}.

(** [s'] is a later state of the same interner. *)
Definition extends (s s' : TyInterner) : Prop := arena s `prefix_of` arena s'.

#[export] Instance extends_preorder : PreOrder extends.
Proof.
  split.
  - intros s. unfold extends. reflexivity.
  - intros s1 s2 s3. unfold extends. by etrans.
Qed.

Lemma extends_lookup s s' i k :
  extends s s' -> arena s !! i = Some k -> arena s' !! i = Some k.
Proof. intros H Hi. by eapply prefix_lookup_Some. Qed.

Lemma extends_fits s s' : extends s s' -> fits s' -> fits s.
Proof. intros H%prefix_length. unfold fits. lia. Qed.

Lemma extends_valid s s' id : extends s s' -> valid_id s id -> valid_id s' id.
Proof. intros H%prefix_length. unfold valid_id. lia. Qed.

#[export] Hint Resolve extends_valid : sengoo.

Lemma as_u32_id n : (N.of_nat n < 2 ^ 32)%N -> N.to_nat (as_u32 n) = n.
Proof. intros H. unfold as_u32. rewrite N.mod_small by done. apply Nat2N.id. Qed.

Lemma intern_extends k s id s' : intern k s = (id, s') -> extends s s'.
Proof.
  unfold intern, extends. destruct (lookup_tbl s !! k); intros [= <- <-]; [done|].
  by eexists.
Qed.

Lemma intern_wf k s id s' :
  interner_wf s -> Forall (valid_id s) (ichildren k) ->
  intern k s = (id, s') -> fits s' ->
  interner_wf s' /\ arena s' !! N.to_nat id = Some k.
Proof.
  intros [Hl Hc] Hk. unfold intern. destruct (lookup_tbl s !! k) as [i|] eqn:E.
  { intros [= <- <-] _. split; [done|]. by apply Hl. }
  intros [= <- <-] Hf. unfold fits in Hf. cbn [arena] in Hf. rewrite length_app in Hf; cbn [length] in Hf.
  assert (Hid : N.to_nat (as_u32 (length (arena s))) = length (arena s)) by (apply as_u32_id; lia).
  split; [|by rewrite Hid; cbn [arena]; apply list_lookup_middle].
  split; cbn [arena lookup_tbl].
  - intros k' id'. destruct (decide (k = k')) as [<-|Hne].
    + rewrite lookup_insert_eq. split.
      * intros [= <-]. rewrite Hid. by apply list_lookup_middle.
      * intros [?%Hl|[? Hnil]]%lookup_app_Some; [congruence|].
        destruct (N.to_nat id' - length (arena s)) eqn:Esub; simplify_eq/=.
        f_equal. apply N2Nat.inj. lia.
    + rewrite lookup_insert_ne by done. rewrite Hl, lookup_app_Some. split; [by left|].
      intros [?|[? Hx]]; [done|].
      by destruct (N.to_nat id' - length (arena s)); simplify_eq/=.
  - intros i k' [?|[? Hx]]%lookup_app_Some; [by eapply Hc|].
    destruct (i - length (arena s)) eqn:Esub; simplify_eq/=.
    eapply Forall_impl; [exact Hk|]. unfold valid_id. intros. lia.
Qed.

Lemma interner_wf_unique s i j k :
  interner_wf s -> arena s !! N.to_nat i = Some k -> arena s !! N.to_nat j = Some k -> i = j.
Proof. intros [Hl _] Hi%Hl Hj%Hl. congruence. Qed.

Lemma arena_lookup_valid s id k : arena s !! N.to_nat id = Some k -> valid_id s id.
Proof. apply lookup_lt_Some. Qed.

(** ** Shapes and what they stand for

    [lowered R k kind]: the shape [k] and the kind [kind] have the same head,
    and [R] relates their children pairwise. *)

Definition lowered (R : InternedTyId -> Ty -> Prop) (k : InternedTyKind) (kind : TyKind) : Prop :=
  match k, kind with
  | IError, TError | IUnit, TUnit | INever, TNever | IBool, TBool | IChar, TChar
  | IStr, TStr | IByte, TByte | IBytes, TBytes | ISelfType, TSelfType
  | IInferred, TInferred => True
  | IInt a, TInt b => a = b
  | IFloat a, TFloat b => a = b
  | ITuple ids, TTuple ts => Forall2 R ids ts
  | IArray e n, TArray t m => R e t /\ n = m
  | ISlice e, TSlice t => R e t
  | IRef m i, TRef m' t => m = m' /\ R i t
  | IPtr i, TPtr t => R i t
  | IFn ps r v, TFn ts t v' => Forall2 R ps ts /\ R r t /\ v = v'
  | IVar a, TVar b => a = b
  | IAdt n args, TAdt n' ts => n = n' /\ Forall2 R args ts
  | IDyn a, TDyn b => a = b
  | IAssocProjection b tr n, TAssocProjection t tr' n' => R b t /\ tr = tr' /\ n = n'
  | IImplTrait a, TImplTrait b => a = b
  | IFuture i, TFuture t => R i t
  | _, _ => False
  end.

Lemma lowered_mono (R R' : InternedTyId -> Ty -> Prop) k kind :
  (forall i t, i ∈ ichildren k -> R i t -> R' i t) -> lowered R k kind -> lowered R' k kind.
Proof.
  assert (HF : forall ids ts (Q : InternedTyId -> Prop), (forall i t, Q i -> R i t -> R' i t) ->
            Forall Q ids -> Forall2 R ids ts -> Forall2 R' ids ts).
  { intros ids ts Q HQ Hall H2. induction H2; inversion Hall; subst; constructor; eauto. }
  assert (HA : forall ids : list N, Forall (fun i => i ∈ ids) ids).
  { intros. by apply Forall_forall. }
  intros HR. destruct k, kind; simpl in *; try done; intuition eauto using list_elem_of_here;
    try (solve [eapply HF; [|apply HA|eassumption]; eauto]).
  - eapply HF; [|apply HA|eassumption]. intros. apply HR; [|done]. apply elem_of_app. by left.
  - apply HR; [|done]. apply elem_of_app. right. by apply list_elem_of_singleton.
Qed.

Lemma lowered_children R k kind (P : InternedTyId -> Prop) :
  (forall i t, R i t -> P i) -> lowered R k kind -> Forall P (ichildren k).
Proof.
  intros HP. assert (HF : forall ids ts, Forall2 R ids ts -> Forall P ids).
  { intros ids ts H. induction H; constructor; eauto. }
  destruct k, kind; simpl; try done; intuition eauto using Forall_nil_2, Forall_cons_2.
  apply Forall_app_2; eauto using Forall_nil_2, Forall_cons_2.
Qed.

(** Two shapes for the same kind are the same when their children are. *)
Lemma lowered_inj R k1 k2 kind1 kind2 :
  (forall i j t, t ∈ children kind1 -> R i t -> R j t -> i = j) ->
  kind1 = kind2 -> lowered R k1 kind1 -> lowered R k2 kind2 -> k1 = k2.
Proof.
  intros HR <-. assert (HF : forall ts ids1 ids2, (forall t, t ∈ ts -> t ∈ children kind1) ->
    Forall2 R ids1 ts -> Forall2 R ids2 ts -> ids1 = ids2).
  { intros ts ids1 ids2 Hin H1. revert ids2. induction H1 as [|i t ids ts Hi _ IH]; inversion 1;
      subst; [done|]. f_equal; [|apply IH; [|done]]; [eapply HR; eauto; apply Hin|];
      intros; try apply Hin; by constructor. }
  destruct k1, kind1; simpl; try done; destruct k2; simpl; try done; intuition subst; f_equal;
    try (by eapply HF; eauto); try (by eapply HR; eauto; simpl; constructor).
  - eapply HF; [|eassumption..]. intros. simpl. apply elem_of_app. by left.
  - eapply HR; [|eassumption..]. simpl. apply elem_of_app. right. by apply list_elem_of_singleton.
Qed.

(** ** Reading shapes back *)

Lemma mapM_Forall2 {A B} (f : A -> option B) (P : A -> B -> Prop) xs ys :
  (forall x y, P x y -> f x = Some y) -> Forall2 P xs ys -> mapM f xs = Some ys.
Proof. intros HP HF. apply mapM_Some_2. eapply Forall2_impl; [exact HF|auto]. Qed.

Lemma materialize_kind_spec rec k kind :
  lowered (fun i t => rec i = Some t) k kind -> materialize_kind_with rec k = Some kind.
Proof.
  assert (HF : forall ids ts, Forall2 (fun i t => rec i = Some t) ids ts -> mapM rec ids = Some ts).
  { intros. by apply mapM_Some_2. }
  destruct k, kind; simpl; try done; intuition subst;
    repeat match goal with
      | H : Forall2 _ _ _ |- _ => apply HF in H; rewrite H
      | H : rec _ = Some _ |- _ => rewrite H
    end; reflexivity.
Qed.

Lemma materialize_kind_inv rec k kind :
  materialize_kind_with rec k = Some kind -> lowered (fun i t => rec i = Some t) k kind.
Proof.
  destruct k; simpl; intros H; simplify_option_eq; simpl; try done;
    repeat match goal with
      | E : mapM _ _ = Some _ |- _ => apply mapM_Some in E
      | H : _ <$> _ = Some _ |- _ => apply fmap_Some in H as (? & ? & ->)
    end; simpl; eauto.
  destruct (mapM rec params) as [ts|] eqn:E1; [|done].
  destruct (rec ret) as [t|] eqn:E2; [|done]. simplify_eq. apply mapM_Some in E1. by simpl.
Qed.

Lemma materialize_fuel_mono n m s s' id t :
  extends s s' -> n <= m -> materialize_fuel n s id = Some t -> materialize_fuel m s' id = Some t.
Proof.
  intros He. revert m id t. induction n as [|n IH]; [done|]. intros [|m] id t Hnm; [lia|].
  cbn [materialize_fuel]. unfold try_lookup.
  destruct (arena s !! N.to_nat id) as [k|] eqn:Ek; [|done].
  rewrite (extends_lookup _ _ _ _ He Ek).
  destruct (materialize_kind_with (materialize_fuel n s) k) as [kind|] eqn:E; [|done].
  intros [= <-]. apply materialize_kind_inv in E.
  erewrite materialize_kind_spec; [done|].
  eapply lowered_mono; [|exact E]. cbn beta. intros i t _ Hi. apply IH; [lia|done].
Qed.

Lemma materialize_fuel_det n m s id t1 t2 :
  materialize_fuel n s id = Some t1 -> materialize_fuel m s id = Some t2 -> t1 = t2.
Proof.
  intros H1%(materialize_fuel_mono _ (n `max` m) s s) H2%(materialize_fuel_mono _ (n `max` m) s s);
    [congruence|done|lia|done|lia].
Qed.

Lemma materialize_extends s s' id t :
  extends s s' -> materialize s id = Some t -> materialize s' id = Some t.
Proof. intros. by eapply materialize_fuel_mono. Qed.

#[export] Hint Resolve materialize_extends : sengoo.

Lemma materialize_fuel_total n s id :
  interner_wf s -> N.to_nat id < n -> valid_id s id -> is_Some (materialize_fuel n s id).
Proof.
  intros Hwf. revert id. induction n as [|n IH]; [lia|]. intros id Hn [k Hk]%lookup_lt_is_Some_2.
  cbn [materialize_fuel]. unfold try_lookup. rewrite Hk.
  assert (Hc : forall c, c ∈ ichildren k -> is_Some (materialize_fuel n s c)).
  { intros c Hc. pose proof (wf_closed _ Hwf _ _ Hk) as HF.
    apply (proj1 (Forall_forall _ _) HF) in Hc. cbn beta in Hc.
    apply IH; [lia|]. apply lookup_lt_Some in Hk. unfold valid_id. lia. }
  assert (Hm : forall ids, (forall c, c ∈ ids -> is_Some (materialize_fuel n s c)) ->
            is_Some (mapM (materialize_fuel n s) ids)).
  { intros ids H. by apply mapM_is_Some, Forall_forall. }
  assert (is_Some (materialize_kind_with (materialize_fuel n s) k)) as [kind ->]; [|by eexists].
  destruct k; simpl in Hc |- *; try by eexists.
  all: try (apply fmap_is_Some; first [by apply Hm|apply Hc; by constructor]).
  destruct (Hm params) as [ts ->]; [intros; apply Hc, elem_of_app; by left|].
  destruct (Hc ret) as [t ->]; [|by eexists].
  apply elem_of_app. right. by apply list_elem_of_singleton.
Qed.

Lemma materialize_total s id :
  interner_wf s -> valid_id s id -> is_Some (materialize s id).
Proof. intros. apply materialize_fuel_total; [done|lia|done]. Qed.

Lemma materialize_fuel_valid n s id t : materialize_fuel n s id = Some t -> valid_id s id.
Proof.
  destruct n; [done|]. cbn [materialize_fuel]. unfold try_lookup.
  destruct (arena s !! N.to_nat id) eqn:E; [|done]. intros _. by apply lookup_lt_Some in E.
Qed.

Lemma materialize_fuel_enough n s id t :
  interner_wf s -> materialize_fuel n s id = Some t -> materialize s id = Some t.
Proof.
  intros Hwf H. destruct (materialize_total s id Hwf) as [t' Ht'].
  { by eapply materialize_fuel_valid. }
  rewrite Ht'. f_equal. by eapply materialize_fuel_det.
Qed.

(** One unfolding of [materialize], both ways. *)
Lemma materialize_step s id k kind :
  interner_wf s -> arena s !! N.to_nat id = Some k ->
  lowered (fun c t => materialize s c = Some t) k kind ->
  materialize s id = Some (mkTy 0 kind).
Proof.
  intros Hwf Hk HL. unfold materialize. cbn [materialize_fuel]. unfold try_lookup. rewrite Hk.
  erewrite materialize_kind_spec; [done|].
  eapply lowered_mono; [|exact HL]. cbn beta. intros c t Hc Ht.
  pose proof (wf_closed _ Hwf _ _ Hk) as HF. apply (proj1 (Forall_forall _ _) HF) in Hc.
  eapply materialize_fuel_mono; [reflexivity|exact Hc|exact Ht].
Qed.

Lemma materialize_inv s id t :
  interner_wf s -> materialize s id = Some t ->
  exists k kind, arena s !! N.to_nat id = Some k /\ t = mkTy 0 kind /\
    lowered (fun c t => materialize s c = Some t) k kind.
Proof.
  intros Hwf. unfold materialize at 1. cbn [materialize_fuel]. unfold try_lookup.
  destruct (arena s !! N.to_nat id) as [k|] eqn:Hk; [|done].
  destruct (materialize_kind_with _ k) as [kind|] eqn:E; [|done]. intros [= <-].
  exists k, kind. split_and!; [done..|]. apply materialize_kind_inv in E.
  eapply lowered_mono; [|exact E]. cbn beta. eauto using materialize_fuel_enough.
Qed.

(** ** Interning a tree *)

(** [id] stands for [t] up to origin tags. *)
Definition denotes (s : TyInterner) (id : InternedTyId) (t : Ty) : Prop :=
  materialize s id = Some (erase t).

(** What one call of [intern_ty] on [t] guarantees. *)
Definition intern_ty_ok (t : Ty) : Prop := forall s id s',
  intern_ty t s = (id, s') ->
  extends s s' /\
  (interner_wf s -> fits s' -> interner_wf s' /\ denotes s' id t).

Lemma denotes_extends s s' id t : extends s s' -> denotes s id t -> denotes s' id t.
Proof. apply materialize_extends. Qed.

Lemma denotes_valid s id t : denotes s id t -> valid_id s id.
Proof. apply materialize_fuel_valid. Qed.

#[export] Hint Resolve denotes_extends denotes_valid : sengoo.

Lemma traverse_intern_ok ts : Forall intern_ty_ok ts -> forall s ids s',
  traverse intern_ty ts s = (ids, s') ->
  extends s s' /\
  (interner_wf s -> fits s' -> interner_wf s' /\ Forall2 (denotes s') ids ts).
Proof.
  induction 1 as [|t ts Ht _ IH]; intros s ids s'; cbn [traverse].
  { intros [= <- <-]. split; [done|]. intros. split; [done|constructor]. }
  destruct (intern_ty t s) as [i s1] eqn:E1.
  destruct (traverse intern_ty ts s1) as [js s2] eqn:E2. intros [= <- <-].
  apply Ht in E1 as [Hext1 H1]. apply IH in E2 as [Hext2 H2].
  split; [by etrans|]. intros Hwf Hf.
  destruct H1 as [Hwf1 Hd1]; [done|by eapply extends_fits|].
  destruct H2 as [Hwf2 Hd2]; [done..|]. split; [done|]. constructor; eauto with sengoo.
Qed.

Lemma lowered_erase (M : InternedTyId -> option Ty) k kind :
  lowered (fun i t => M i = Some (erase t)) k kind ->
  lowered (fun i t => M i = Some t) k (ty_kind (erase (mkTy 0 kind))).
Proof.
  assert (HF : forall ids ts, Forall2 (fun i t => M i = Some (erase t)) ids ts ->
             Forall2 (fun i t => M i = Some t) ids (map erase ts)).
  { intros ids ts H. induction H; simpl; by constructor. }
  destruct k, kind; simpl; try done; intuition eauto.
Qed.

Lemma lower_kind_ok kind : Forall intern_ty_ok (children kind) -> forall s k s',
  lower_kind kind s = (k, s') ->
  extends s s' /\
  (interner_wf s -> fits s' -> interner_wf s' /\ lowered (denotes s') k kind).
Proof.
  intros HF s k s'. destruct kind; cbn [lower_kind children] in *; forall_split;
    repeat match goal with
      | |- context [traverse intern_ty ?ts ?s] => destruct (traverse intern_ty ts s) eqn:?
      | |- context [intern_ty ?t ?s] => destruct (intern_ty t s) eqn:?
      end; intros [= <- <-];
    repeat match goal with
      | H : Forall intern_ty_ok ?ts, E : traverse intern_ty ?ts _ = _ |- _ =>
          destruct (traverse_intern_ok ts H _ _ _ E) as [? ?]; clear E
      | H : intern_ty_ok ?t, E : intern_ty ?t _ = _ |- _ =>
          destruct (H _ _ _ E) as [? ?]; clear E
      end; simpl; try (split; [done|intros; by split]); try (split; [done|intuition]).
  split; [by etrans|]. intros Hwf Hf.
  match goal with H : interner_wf s -> _ |- _ => destruct H as [Hwf1 ?]; [done|by eapply extends_fits|] end.
  match goal with H : interner_wf _ -> _ |- _ => destruct H as [Hwf2 ?]; [done..|] end.
  split; [done|]. split_and!; [|done..]. eapply Forall2_impl; eauto with sengoo.
Qed.

Lemma intern_ty_spec t : intern_ty_ok t.
Proof.
  induction t as [i kind IH] using Ty_children_ind. intros s id s'. cbn [intern_ty].
  destruct (lower_kind kind s) as [k s1] eqn:E1. intros E2.
  destruct (lower_kind_ok kind IH _ _ _ E1) as [Hext1 H1].
  pose proof (intern_extends _ _ _ _ E2) as Hext2.
  split; [by etrans|]. intros Hwf Hf.
  destruct H1 as [Hwf1 HL]; [done|by eapply extends_fits|].
  destruct (intern_wf _ _ _ _ Hwf1 (lowered_children _ _ _ _ (denotes_valid s1) HL) E2 Hf)
    as [Hwf2 Hk].
  split; [done|]. unfold denotes.
  transitivity (Some (mkTy 0 (ty_kind (erase (mkTy 0 kind))))); [|by destruct kind].
  eapply materialize_step; [done..|]. apply lowered_erase.
  eapply lowered_mono; [|exact HL]. intros; by eapply denotes_extends.
Qed.

(** Ids are canonical: one id per structure. *)
Lemma materialize_inj s t i j :
  interner_wf s -> materialize s i = Some t -> materialize s j = Some t -> i = j.
Proof.
  intros Hwf. revert i j. induction t as [n kind IH] using Ty_children_ind. intros i j Hi Hj.
  destruct (materialize_inv _ _ _ Hwf Hi) as (k1 & kind1 & Hk1 & [= -> ->] & HL1).
  destruct (materialize_inv _ _ _ Hwf Hj) as (k2 & kind2 & Hk2 & [= ->] & HL2).
  eapply interner_wf_unique; [done|exact Hk1|]. rewrite Hk2. f_equal.
  eapply lowered_inj; [|reflexivity|exact HL2|exact HL1].
  intros c1 c2 t Ht. by apply (proj1 (Forall_forall _ _) IH t Ht).
Qed.

Lemma denotes_canonical s t1 t2 i j :
  interner_wf s -> denotes s i t1 -> denotes s j t2 -> i = j <-> erase t1 = erase t2.
Proof.
  unfold denotes. intros Hwf Hi Hj. split.
  - intros ->. congruence.
  - intros E. rewrite E in Hi. by eapply materialize_inj.
Qed.

(** Interning what was read back changes nothing. *)
Lemma intern_hit s id k :
  interner_wf s -> arena s !! N.to_nat id = Some k -> intern k s = (id, s).
Proof. intros [Hl _] Hk%Hl. unfold intern. by rewrite Hk. Qed.

Definition reintern_ok (s : TyInterner) (t : Ty) : Prop :=
  forall id, materialize s id = Some t -> intern_ty t s = (id, s).

Lemma traverse_reintern s ts : Forall (reintern_ok s) ts -> forall ids,
  Forall2 (fun i t => materialize s i = Some t) ids ts -> traverse intern_ty ts s = (ids, s).
Proof.
  induction 1 as [|t ts Ht _ IH]; intros ids H2; inversion H2 as [|i ? js ? Hi Hj]; subst; [done|].
  cbn [traverse]. rewrite (Ht _ Hi), (IH _ Hj). done.
Qed.

Lemma reintern s t : interner_wf s -> reintern_ok s t.
Proof.
  intros Hwf. induction t as [n kind IH] using Ty_children_ind. intros id Hid.
  destruct (materialize_inv _ _ _ Hwf Hid) as (k & kind' & Hk & [= -> ->] & HL).
  cbn [intern_ty]. assert (lower_kind kind' s = (k, s)) as ->; [|by apply intern_hit].
  destruct k, kind'; simpl in HL, IH |- *; try done; forall_split; intuition subst; try done;
    repeat match goal with
      | H : Forall _ ?ts, H2 : Forall2 _ _ ?ts |- _ =>
          rewrite (traverse_reintern s ts H _ H2); clear H
      | H : reintern_ok s ?t, H2 : materialize s _ = Some ?t |- _ => rewrite (H _ H2); clear H
      end; done.
Qed.

(** ** The theorems *)

Lemma interner_new_wf : interner_wf interner_new.
Proof. split; simpl; intros *; [by rewrite lookup_empty, lookup_nil|by rewrite lookup_nil]. Qed.

(** C35: interning round-trips.  Interning a type and materializing the id gives
    the type back, with the origin tags erased; the interner stays well-formed
    and only grows, so earlier ids keep their meaning. *)
Theorem intern_ty_roundtrip (t : Ty) (s s' : TyInterner) (id : InternedTyId) :
  interner_wf s -> intern_ty t s = (id, s') -> fits s' ->
  interner_wf s' /\ extends s s' /\ materialize s' id = Some (erase t).
Proof.
  intros Hwf E Hf. destruct (intern_ty_spec t _ _ _ E) as [He H].
  destruct (H Hwf Hf). by split_and!.
Qed.

(** [ty_eq] decides structural equality: it answers [true] exactly when the
    two types are the same up to origin tags. *)
Theorem ty_eq_structural (a b : Ty) (s s' : TyInterner) (r : bool) :
  interner_wf s -> ty_eq a b s = (r, s') -> fits s' ->
  (r = true <-> erase a = erase b) /\ interner_wf s' /\ extends s s'.
Proof.
  intros Hwf. unfold ty_eq.
  destruct (intern_ty a s) as [i s1] eqn:E1. destruct (intern_ty b s1) as [j s2] eqn:E2.
  intros [= <- <-] Hf.
  destruct (intern_ty_spec _ _ _ _ E1) as [He1 H1]. destruct (intern_ty_spec _ _ _ _ E2) as [He2 H2].
  destruct (H1 Hwf (extends_fits _ _ He2 Hf)) as [Hwf1 Hd1].
  destruct (H2 Hwf1 Hf) as [Hwf2 Hd2].
  rewrite N.eqb_eq. split_and!; [|done|by etrans].
  eapply denotes_canonical; eauto with sengoo.
Qed.

(** A valid id is canonical: materializing it and interning the result gives
    the same id back and allocates nothing. *)
Theorem materialize_intern_id (s : TyInterner) (id : InternedTyId) :
  interner_wf s -> valid_id s id ->
  exists t, materialize s id = Some t /\ intern_ty t s = (id, s).
Proof.
  intros Hwf Hv. destruct (materialize_total _ _ Hwf Hv) as [t Ht].
  exists t. split; [done|]. by apply reintern.
Qed.

(** ** Witnesses *)

Definition sample_ty : Ty := mkTy 3 (TTuple [mkTy 1 (TInt I32); mkTy 2 (TRef true (mkTy 4 (TInt I32)))]).

Definition sample_interner : TyInterner := (intern_ty sample_ty interner_new).2.

Lemma intern_ty_roundtrip_witness :
  interner_wf sample_interner /\ extends interner_new sample_interner /\
  materialize sample_interner 2%N = Some (erase sample_ty).
Proof.
  refine (intern_ty_roundtrip sample_ty interner_new sample_interner 2%N interner_new_wf _ _).
  - vm_compute. reflexivity.
  - vm_compute. discriminate.
Defined.

Lemma ty_eq_structural_witness :
  (true = true <-> erase (mkTy 1 TBool) = erase (mkTy 2 TBool)) /\
  interner_wf (ty_eq (mkTy 1 TBool) (mkTy 2 TBool) interner_new).2 /\
  extends interner_new (ty_eq (mkTy 1 TBool) (mkTy 2 TBool) interner_new).2.
Proof.
  refine (ty_eq_structural (mkTy 1 TBool) (mkTy 2 TBool) interner_new _ true interner_new_wf _ _).
  - vm_compute. reflexivity.
  - vm_compute. discriminate.
Defined.

Lemma materialize_intern_id_witness :
  exists t, materialize sample_interner 2%N = Some t /\ intern_ty t sample_interner = (2%N, sample_interner).
Proof.
  refine (materialize_intern_id sample_interner 2%N _ _).
  - apply (proj1 (proj2 (intern_ty_spec sample_ty interner_new 2%N sample_interner eq_refl) interner_new_wf
      ltac:(vm_compute; discriminate))).
  - vm_compute. reflexivity.
Defined.
