(* ===== verification/Infer.v ===== *)
(** Type inference by unification: compiler/src/typeck/infer.rs, with the
    substitution of compiler/src/typeck/ty.rs ([Subst]) and the fresh-id
    allocation of compiler/src/typeck/env.rs.

    The unifier talks to its substitution through the interface
    [BindingStore] (get, insert, checkpoint and restore).  Two stores
    implement it: [interned_store], the code's own store of interned ids with
    a shared interner, and [ideal_store], a finite map from variables to
    types.  The recursion of [subst_apply] and [unify_in_place] follows
    bindings, so it is not structural: both take fuel, [None] meaning that
    the fuel ran out (or that a dangling id made the interner panic).  That
    enough fuel exists is a theorem of Unify.v. *)

From S2P Require Import Prelude Ty Interner.

(** ** The interface of a substitution *)

Class BindingStore (S : Type) := {
  bs_get : S -> TyVarId -> option (option Ty);   (* [None]: panic *)
  bs_insert : TyVarId -> Ty -> S -> S;
  bs_note_ty : Ty -> S -> S;                      (* a type is created in the session *)
  bs_restore : S -> S -> S;                       (* checkpoint, current *)
}.

(** *** The code's store: interned ids, the interner shared by all clones *)

Record Subst := mkSubst {
  subst_map : gmap TyVarId InternedTyId;
  subst_interner : TyInterner;
}.

Definition subst_new (i : TyInterner) : Subst := mkSubst ∅ i.

Definition subst_insert (v : TyVarId) (t : Ty) (s : Subst) : Subst :=
  let '(id, i) := intern_ty t (subst_interner s) in
  mkSubst (<[v := id]> (subst_map s)) i.

Definition subst_get (s : Subst) (v : TyVarId) : option (option Ty) :=
  match subst_map s !! v with
  | None => Some None
  | Some id => let* t := materialize (subst_interner s) id in Some (Some t)
  end.

Definition subst_get_id (s : Subst) (v : TyVarId) : option InternedTyId := subst_map s !! v.
Definition subst_contains_key (s : Subst) (v : TyVarId) : bool :=
  bool_decide (is_Some (subst_map s !! v)).
Definition subst_is_empty (s : Subst) : bool := bool_decide (subst_map s = ∅).
Definition subst_len (s : Subst) : nat := size (subst_map s).

(** Existing bindings win: [entry(var).or_insert(id)]. *)
Definition subst_union (s other : Subst) : Subst :=
  mkSubst (subst_map s ∪ subst_map other) (subst_interner s).

#[export] Instance interned_store : BindingStore Subst := {
  bs_get := subst_get;
  bs_insert := subst_insert;
  bs_note_ty t s := mkSubst (subst_map s) (intern_ty t (subst_interner s)).2;
  bs_restore cp cur := mkSubst (subst_map cp) (subst_interner cur);
}.

(** *** The specification's store *)

#[export] Instance ideal_store : BindingStore (gmap TyVarId Ty) := {
  bs_get s v := Some (s !! v);
  bs_insert v t s := <[v := erase t]> s;
  bs_note_ty _ s := s;
  bs_restore cp _ := cp;
}.

(** ** The inference state *)

Record TypeInfer (S : Type) := mkInfer {
  next_ty_id : nat;
  next_ty_var_id : nat;
  infer_subst : S;
  infer_errors : list TypeckError;
}.
Arguments mkInfer {S} _ _ _ _.
Arguments next_ty_id {S} _.
Arguments next_ty_var_id {S} _.
Arguments infer_subst {S} _.
Arguments infer_errors {S} _.

Section operations.
Context {S : Type} `{BindingStore S}.
Implicit Types (st : TypeInfer S).

Definition set_subst (s : S) (st : TypeInfer S) : TypeInfer S :=
  mkInfer (next_ty_id st) (next_ty_var_id st) s (infer_errors st).

Definition add_error (e : TypeckError) (st : TypeInfer S) : TypeInfer S :=
  mkInfer (next_ty_id st) (next_ty_var_id st) (infer_subst st) (infer_errors st ++ [e]).

Definition has_errors (st : TypeInfer S) : bool :=
  match infer_errors st with [] => false | _ => true end.

(** [TypeEnv::new_ty]: a fresh origin tag, and the type enters the interner. *)
Definition new_ty (kind : TyKind) (st : TypeInfer S) : Ty * TypeInfer S :=
  let ty := mkTy (next_ty_id st) kind in
  (ty, mkInfer (Datatypes.S (next_ty_id st)) (next_ty_var_id st)
         (bs_note_ty ty (infer_subst st)) (infer_errors st)).

Definition error_ty (st : TypeInfer S) : Ty * TypeInfer S := new_ty TError st.

Definition fresh_ty_var (st : TypeInfer S) : Ty * TypeInfer S :=
  let v := next_ty_var_id st in
  new_ty (TVar v)
    (mkInfer (next_ty_id st) (Datatypes.S v) (infer_subst st) (infer_errors st)).

(** *** Applying the substitution *)

Fixpoint subst_apply (n : nat) (s : S) (ty : Ty) : option Ty :=
  match n with
  | O => None
  | Datatypes.S n' =>
    match ty with mkTy id kind =>
      match kind with
      | TVar v =>
          let* found := bs_get s v in
          match found with
          | Some replacement => subst_apply n' s replacement
          | None => Some ty
          end
      | TRef m inner => let* t := subst_apply n' s inner in Some (mkTy id (TRef m t))
      | TPtr inner => let* t := subst_apply n' s inner in Some (mkTy id (TPtr t))
      | TArray elem k => let* t := subst_apply n' s elem in Some (mkTy id (TArray t k))
      | TSlice elem => let* t := subst_apply n' s elem in Some (mkTy id (TSlice t))
      | TTuple types => let* ts := mapM (subst_apply n' s) types in Some (mkTy id (TTuple ts))
      | TFn params ret v =>
          let* ps := mapM (subst_apply n' s) params in
          let* r := subst_apply n' s ret in
          Some (mkTy id (TFn ps r v))
      | TAdt name args => let* ts := mapM (subst_apply n' s) args in Some (mkTy id (TAdt name ts))
      | TAssocProjection base tr name =>
          let* b := subst_apply n' s base in Some (mkTy id (TAssocProjection b tr name))
      | _ => Some ty
      end
    end
  end.

Definition apply_subst (n : nat) (st : TypeInfer S) (ty : Ty) : option Ty :=
  subst_apply n (infer_subst st) ty.

(** *** Instantiation with fresh variables

    The state is the map from old variables to their fresh types together
    with the inference state. *)

Fixpoint instantiate_fresh_impl (ty : Ty) (ms : gmap TyVarId Ty * TypeInfer S)
    : Ty * (gmap TyVarId Ty * TypeInfer S) :=
  match ty with mkTy id kind =>
    match kind with
    | TVar v =>
        match ms.1 !! v with
        | Some mapped => (mapped, ms)
        | None =>
            let '(fresh, st1) := fresh_ty_var ms.2 in
            (fresh, (<[v := fresh]> ms.1, st1))
        end
    | TRef m inner =>
        let '(t, ms1) := instantiate_fresh_impl inner ms in (mkTy id (TRef m t), ms1)
    | TPtr inner =>
        let '(t, ms1) := instantiate_fresh_impl inner ms in (mkTy id (TPtr t), ms1)
    | TArray elem n =>
        let '(t, ms1) := instantiate_fresh_impl elem ms in (mkTy id (TArray t n), ms1)
    | TSlice elem =>
        let '(t, ms1) := instantiate_fresh_impl elem ms in (mkTy id (TSlice t), ms1)
    | TTuple types =>
        let '(ts, ms1) := traverse instantiate_fresh_impl types ms in (mkTy id (TTuple ts), ms1)
    | TFn params ret v =>
        let '(ps, ms1) := traverse instantiate_fresh_impl params ms in
        let '(r, ms2) := instantiate_fresh_impl ret ms1 in
        (mkTy id (TFn ps r v), ms2)
    | TAdt name args =>
        let '(ts, ms1) := traverse instantiate_fresh_impl args ms in
        (mkTy id (TAdt name ts), ms1)
    | TAssocProjection base tr name =>
        let '(b, ms1) := instantiate_fresh_impl base ms in
        (mkTy id (TAssocProjection b tr name), ms1)
    | _ => (ty, ms)
    end
  end.

Definition instantiate_with_fresh_vars_and_map (ty : Ty) (st : TypeInfer S)
    : Ty * gmap TyVarId TyVarId * TypeInfer S :=
  let '(instantiated, (var_map, st1)) := instantiate_fresh_impl ty (∅, st) in
  let id_map := omap (fun mapped =>
    match ty_kind mapped with TVar new_id => Some new_id | _ => None end) var_map in
  (instantiated, id_map, st1).

Definition instantiate_with_fresh_vars (ty : Ty) (st : TypeInfer S) : Ty * TypeInfer S :=
  let '(instantiated, _, st1) := instantiate_with_fresh_vars_and_map ty st in
  (instantiated, st1).

(** *** Occurs check and binding *)

Fixpoint contains_var (v : TyVarId) (ty : Ty) : bool :=
  match ty with mkTy _ kind =>
    match kind with
    | TVar id => Nat.eqb id v
    | TRef _ t | TPtr t | TArray t _ | TSlice t => contains_var v t
    | TTuple ts => existsb (contains_var v) ts
    | TFn params ret _ => existsb (contains_var v) params || contains_var v ret
    | TAdt _ args => existsb (contains_var v) args
    | TAssocProjection base _ _ => contains_var v base
    | _ => false
    end
  end.

Definition bind_var (v : TyVarId) (ty : Ty) (st : TypeInfer S) : TypeInfer S :=
  if contains_var v ty then
    let '(err, st1) := error_ty (add_error CyclicType st) in
    set_subst (bs_insert v err (infer_subst st1)) st1
  else set_subst (bs_insert v ty (infer_subst st)) st.

(** *** Unification *)

Definition Outcome := option (result unit TypeckError * TypeInfer S).

(** [for (a, b) in xs.iter().zip(ys)]: the substitution is checkpointed before
    each pair and put back when the pair fails. *)
Fixpoint unify_zip (unify : Ty -> Ty -> TypeInfer S -> Outcome) (xs ys : list Ty)
    (st : TypeInfer S) : Outcome :=
  match xs, ys with
  | x :: xs', y :: ys' =>
      let* (r, st1) := unify x y st in
      match r with
      | Ok tt => unify_zip unify xs' ys' st1
      | Err e => Some (Err e, set_subst (bs_restore (infer_subst st) (infer_subst st1)) st1)
      end
  | _, _ => Some (Ok tt, st)
  end.

Fixpoint unify_in_place (n : nat) (ty1 ty2 : Ty) (st : TypeInfer S) : Outcome :=
  match n with
  | O => None
  | Datatypes.S n' =>
    let* ty1 := apply_subst n' st ty1 in
    let* ty2 := apply_subst n' st ty2 in
    if ty_eqb ty1 ty2 then Some (Ok tt, st) else
    let mismatch := Some (Err (TypeMismatch (ty_kind ty2) (ty_kind ty1)), st) in
    match ty_kind ty1, ty_kind ty2 with
    | TError, _ | _, TError => Some (Ok tt, st)
    | TNever, _ | _, TNever => Some (Ok tt, st)
    | TVar v, _ => Some (Ok tt, bind_var v ty2 st)
    | _, TVar v => Some (Ok tt, bind_var v ty1 st)
    | TUnit, TUnit | TBool, TBool | TChar, TChar
    | TStr, TStr | TByte, TByte | TBytes, TBytes => Some (Ok tt, st)
    | TInt i1, TInt i2 => if decide (i1 = i2) then Some (Ok tt, st) else mismatch
    | TFloat f1, TFloat f2 => if decide (f1 = f2) then Some (Ok tt, st) else mismatch
    | TRef m1 t1, TRef m2 t2 =>
        if eqb m1 m2 then unify_in_place n' t1 t2 st else mismatch
    | TPtr t1, TPtr t2 => unify_in_place n' t1 t2 st
    | TTuple ts1, TTuple ts2 =>
        if Nat.eqb (length ts1) (length ts2) then unify_zip (unify_in_place n') ts1 ts2 st
        else Some (Err (TypeMismatch (TTuple ts2) (TTuple ts1)), st)
    | TArray e1 n1, TArray e2 n2 =>
        if Nat.eqb n1 n2 then unify_in_place n' e1 e2 st
        else Some (Err (TypeMismatch (TArray ty2 n2) (TArray ty1 n1)), st)
    | TSlice e1, TSlice e2 => unify_in_place n' e1 e2 st
    | TFn p1 r1 _, TFn p2 r2 _ =>
        if Nat.eqb (length p1) (length p2) then
          let* (r, st1) := unify_zip (unify_in_place n') p1 p2 st in
          match r with
          | Ok tt => unify_zip (unify_in_place n') [r1] [r2] st1
          | Err e => Some (Err e, st1)
          end
        else Some (Err (ArgumentCountMismatch (length p1) (length p2)), st)
    | TAdt n1 a1, TAdt n2 a2 =>
        if decide (n1 = n2) then
          if Nat.eqb (length a1) (length a2) then unify_zip (unify_in_place n') a1 a2 st
          else mismatch
        else mismatch
    | TAssocProjection b1 tr1 nm1, TAssocProjection b2 tr2 nm2 =>
        if decide (tr1 = tr2) then
          if decide (nm1 = nm2) then unify_in_place n' b1 b2 st else mismatch
        else mismatch
    | _, _ => mismatch
    end
  end.

(** The entry point: unify and hand out the substitution reached. *)
Definition unify (n : nat) (ty1 ty2 : Ty) (st : TypeInfer S)
    : option (result S TypeckError * TypeInfer S) :=
  let* (r, st1) := unify_in_place n ty1 ty2 st in
  Some (match r with Ok tt => Ok (infer_subst st1) | Err e => Err e end, st1).
End operations.
