(* ===== verification/Unify.v ===== *)
(** Metatheory of the unifier of Infer.v over the ideal store. *)

From S2P Require Import Prelude Ty Interner Infer.

Notation store := (gmap TyVarId Ty) (only parsing).

(** ** Visible parts

    [subst_apply], [contains_var] and [unify_in_place] descend into the same
    children of a kind: all of them but the one under [TFuture]. *)

Definition vparts (k : TyKind) : list Ty :=
  match k with
  | TTuple ts => ts
  | TArray e _ | TSlice e => [e]
  | TRef _ t | TPtr t => [t]
  | TFn ps r _ => ps ++ [r]
  | TAdt _ args => args
  | TAssocProjection b _ _ => [b]
  | _ => []
  end.

Definition vbuild (k : TyKind) (cs : list Ty) : TyKind :=
  match k, cs with
  | TTuple _, cs => TTuple cs
  | TArray _ n, [e] => TArray e n
  | TSlice _, [e] => TSlice e
  | TRef m _, [t] => TRef m t
  | TPtr _, [t] => TPtr t
  | TFn ps _ v, cs =>
      match last cs with Some r => TFn (take (length ps) cs) r v | None => k end
  | TAdt n _, cs => TAdt n cs
  | TAssocProjection _ tr n, [b] => TAssocProjection b tr n
  | k, _ => k
  end.

Definition kind_is_var (k : TyKind) : bool := match k with TVar _ => true | _ => false end.

Lemma vparts_children k : vparts k ⊆ children k.
Proof. destruct k; simpl; set_solver. Qed.

Lemma length_1_inv {A} (l : list A) : length l = 1 -> exists x, l = [x].
Proof. destruct l as [|x [|]]; simpl; intros; try lia; eauto. Qed.

Lemma length_snoc_inv {A} (l : list A) n : length l = n + 1 -> exists l' x, l = l' ++ [x] /\ length l' = n.
Proof.
  destruct l as [|x l _] using rev_ind; simpl; [lia|].
  rewrite length_app; simpl. intros. exists l, x. split; [done|lia].
Qed.

(** Destruct a list of parts along the length it shares with [vparts k]. *)
Ltac split_parts :=
  repeat match goal with
    | H : length ?l = length [_] |- _ => apply length_1_inv in H as [? ->]
    | H : length ?l = length (_ ++ [_]) |- _ =>
        rewrite length_app in H; cbn [length] in H;
        apply length_snoc_inv in H as (? & ? & -> & ?)
    | H : length ?l = length [] |- _ => apply nil_length_inv in H; subst
    end.

Lemma vparts_vbuild k cs : length cs = length (vparts k) -> vparts (vbuild k cs) = cs.
Proof.
  destruct k; cbn [vparts]; intros; split_parts; try done.
  cbn [vbuild]. rewrite last_snoc. cbn [vparts]. f_equal. by rewrite take_app_length'.
Qed.

Lemma vbuild_vparts k : vbuild k (vparts k) = k.
Proof. destruct k; try done. cbn [vparts vbuild]. by rewrite last_snoc, take_app_length. Qed.

Lemma vbuild_vbuild k cs cs' :
  length cs = length (vparts k) -> length cs' = length (vparts k) ->
  vbuild (vbuild k cs) cs' = vbuild k cs'.
Proof.
  destruct k; cbn [vparts]; intros; split_parts; try done.
  cbn [vbuild]. rewrite !last_snoc. cbn [vbuild]. rewrite last_snoc.
  f_equal. rewrite length_take, length_app; simpl. by rewrite Nat.min_l by lia.
Qed.

Lemma vbuild_not_var k cs : kind_is_var (vbuild k cs) = kind_is_var k.
Proof.
  destruct k; try done; destruct cs as [|? [|]]; try done; simpl; by repeat case_match.
Qed.

Lemma contains_var_node w i k :
  kind_is_var k = false -> contains_var w (mkTy i k) = existsb (contains_var w) (vparts k).
Proof.
  destruct k; try done; intros _; simpl; rewrite ?orb_false_r; try done.
  by rewrite existsb_app; simpl; rewrite orb_false_r.
Qed.

Lemma contains_var_part w i k t :
  kind_is_var k = false -> t ∈ vparts k -> contains_var w t = true ->
  contains_var w (mkTy i k) = true.
Proof.
  intros Hk Ht Hw. rewrite contains_var_node by done. apply existsb_exists.
  exists t. split; [by apply list_elem_of_In|done].
Qed.

Lemma contains_var_part_inv w i k :
  kind_is_var k = false -> contains_var w (mkTy i k) = true ->
  exists t, t ∈ vparts k /\ contains_var w t = true.
Proof.
  intros Hk. rewrite contains_var_node by done. intros (t & ? & ?)%existsb_exists.
  exists t. split; [by apply list_elem_of_In|done].
Qed.

(** ** Applying a substitution, without fuel *)

Section apply_generic.
Context {S : Type} `{BindingStore S}.

Lemma subst_apply_node n (s : S) i k :
  kind_is_var k = false ->
  subst_apply (Datatypes.S n) s (mkTy i k) =
    let* cs := mapM (subst_apply n s) (vparts k) in Some (mkTy i (vbuild k cs)).
Proof.
  destruct k; try done; intros _; cbn [subst_apply vparts].
  all: try (by destruct (mapM (subst_apply n s) _)).
  all: try (cbn [mapM]; destruct (subst_apply n s _); done).
  assert (Happ : forall l t, mapM (subst_apply n s) (l ++ [t]) =
    let* ts := mapM (subst_apply n s) l in let* t' := subst_apply n s t in Some (ts ++ [t'])).
  { induction l as [|x l IH]; intros t; cbn [app mapM].
    - by destruct (subst_apply n s t).
    - destruct (subst_apply n s x); [|done]. cbn. rewrite IH.
      destruct (mapM _ l); [|done]. by destruct (subst_apply n s t). }
  rewrite Happ. destruct (mapM (subst_apply n s) params) as [ps|] eqn:E; [|done].
  destruct (subst_apply n s ret); [|done]. cbn [vbuild]. rewrite last_snoc.
  by rewrite take_app_length' by (eapply length_mapM; done).
Qed.

Lemma subst_apply_mono n m (s : S) t t' :
  n <= m -> subst_apply n s t = Some t' -> subst_apply m s t = Some t'.
Proof.
  revert m t t'. induction n as [|n IH]; [done|]. intros [|m] [i k] t' Hle; [lia|].
  destruct (kind_is_var k) eqn:Hk.
  - destruct k; try done. cbn [subst_apply]. destruct (bs_get s id) as [[r|]|]; try done.
    intros. apply IH; [lia|done].
  - rewrite !subst_apply_node by done.
    destruct (mapM (subst_apply n s) (vparts k)) as [cs|] eqn:E; [|done]. intros [= <-].
    apply mapM_Some in E. erewrite mapM_Some_2; [done|].
    eapply Forall2_impl; [exact E|]. cbn beta. intros. apply IH; [lia|done].
Qed.
End apply_generic.

Definition App (σ : store) (t t' : Ty) : Prop := exists n, subst_apply n σ t = Some t'.

Lemma App_det σ t t1 t2 : App σ t t1 -> App σ t t2 -> t1 = t2.
Proof.
  intros [n H1] [m H2].
  apply (subst_apply_mono _ (n `max` m)) in H1; [|lia].
  apply (subst_apply_mono _ (n `max` m)) in H2; [|lia]. congruence.
Qed.

Lemma App_free σ i v : σ !! v = None -> App σ (mkTy i (TVar v)) (mkTy i (TVar v)).
Proof. intros Hv. exists 1. cbn. by rewrite Hv. Qed.

Lemma App_bound σ i v t t' : σ !! v = Some t -> App σ t t' -> App σ (mkTy i (TVar v)) t'.
Proof. intros Hv [n Hn]. exists (S n). cbn. by rewrite Hv. Qed.

Lemma Forall2_App_fuel σ ts ts' :
  Forall2 (App σ) ts ts' -> exists n, mapM (subst_apply n σ) ts = Some ts'.
Proof.
  induction 1 as [|t t' ts ts' [n Hn] _ [m Hm]]; [by exists 0|].
  exists (n `max` m). cbn [mapM]. rewrite (subst_apply_mono n (n `max` m) _ _ _ ltac:(lia) Hn). cbn.
  apply mapM_Some in Hm. erewrite mapM_Some_2; [done|].
  eapply Forall2_impl; [exact Hm|]. cbn beta. intros ? ?. apply subst_apply_mono. lia.
Qed.

Lemma App_node σ i k cs :
  kind_is_var k = false -> Forall2 (App σ) (vparts k) cs ->
  App σ (mkTy i k) (mkTy i (vbuild k cs)).
Proof.
  intros Hk [n Hn]%Forall2_App_fuel. exists (S n). rewrite subst_apply_node by done. by rewrite Hn.
Qed.

(** Induction on the derivation of an application. *)
Lemma App_ind (σ : store) (P : Ty -> Ty -> Prop) :
  (forall i v, σ !! v = None -> P (mkTy i (TVar v)) (mkTy i (TVar v))) ->
  (forall i v t t', σ !! v = Some t -> App σ t t' -> P t t' -> P (mkTy i (TVar v)) t') ->
  (forall i k cs, kind_is_var k = false -> Forall2 (App σ) (vparts k) cs ->
     Forall2 P (vparts k) cs -> P (mkTy i k) (mkTy i (vbuild k cs))) ->
  forall t t', App σ t t' -> P t t'.
Proof.
  intros Hfree Hbound Hnode t t' [n Hn]. revert t t' Hn. induction n as [|n IH]; [done|].
  intros [i k] t'. destruct (kind_is_var k) eqn:Hk.
  - destruct k; try done. cbn. destruct (σ !! id) as [r|] eqn:E; [|intros [= <-]; by apply Hfree].
    intros Hr. eapply Hbound; [done|by exists n|by apply IH].
  - rewrite subst_apply_node by done.
    destruct (mapM (subst_apply n σ) (vparts k)) as [cs|] eqn:E; [|done]. intros [= <-].
    apply mapM_Some in E. apply Hnode; [done| |].
    + eapply Forall2_impl; [exact E|]. intros; by exists n.
    + eapply Forall2_impl; [exact E|]. exact IH.
Qed.

Lemma App_node_inv σ i k t' :
  kind_is_var k = false -> App σ (mkTy i k) t' ->
  exists cs, Forall2 (App σ) (vparts k) cs /\ t' = mkTy i (vbuild k cs).
Proof.
  intros Hk [[|n] Hn]; [done|]. rewrite subst_apply_node in Hn by done.
  destruct (mapM (subst_apply n σ) (vparts k)) as [cs|] eqn:E; [|done].
  simplify_eq. exists cs. split; [|done]. apply mapM_Some in E.
  eapply Forall2_impl; [exact E|]. intros; by exists n.
Qed.

(** What comes out mentions unbound variables only. *)
Lemma App_normal σ t t' : App σ t t' -> forall w, contains_var w t' = true -> σ !! w = None.
Proof.
  intros HA. pattern t, t'. revert t t' HA. apply App_ind.
  - intros i v Hv w Hw%Nat.eqb_eq. congruence.
  - done.
  - intros i k cs Hk HF IH w Hw.
    apply contains_var_part_inv in Hw as (t & Ht & Hw); [|by rewrite vbuild_not_var].
    rewrite vparts_vbuild in Ht by (symmetry; by eapply Forall2_length).
    apply list_elem_of_lookup in Ht as [j Hj].
    destruct (Forall2_lookup_r _ _ _ _ _ IH Hj) as (? & _ & H). by apply H.
Qed.

(** A type without bound variables is left as it is. *)
Lemma App_id σ t : (forall w, contains_var w t = true -> σ !! w = None) -> App σ t t.
Proof.
  induction t as [i k IH] using Ty_children_ind. intros Hw.
  destruct (kind_is_var k) eqn:Hk.
  - destruct k; try done. apply App_free, Hw. simpl. apply Nat.eqb_refl.
  - rewrite <- (vbuild_vparts k) at 2. apply App_node; [done|].
    apply Forall2_same_length_lookup_2; [done|]. intros j x y Hx Hy. simplify_eq.
    apply list_elem_of_lookup_2 in Hx.
    apply (proj1 (Forall_forall _ _) IH); [by apply vparts_children|].
    intros w Hcw. apply Hw. by eapply contains_var_part.
Qed.

(** Applying an earlier substitution first makes no difference to a later one. *)
Lemma App_compose σ σ' t t1 t2 :
  σ ⊆ σ' -> App σ t t1 -> App σ' t1 t2 -> App σ' t t2.
Proof.
  intros Hsub HA. revert t2. pattern t, t1. revert t t1 HA. apply App_ind.
  - done.
  - intros i v t t' Hv _ IH t2 H2. eapply App_bound; [by eapply lookup_weaken|]. by apply IH.
  - intros i k cs Hk HF IH t2 (cs2 & H2 & ->)%App_node_inv; [|by rewrite vbuild_not_var].
    pose proof (Forall2_length _ _ _ HF). pose proof (Forall2_length _ _ _ H2).
    rewrite vparts_vbuild in H2 by done. rewrite vparts_vbuild in * by done.
    rewrite vbuild_vbuild by congruence. apply App_node; [done|].
    eapply Forall2_compose; [|exact IH|exact H2]. cbn beta. eauto.
Qed.

(** ** Acyclic substitutions *)

Definition ranked (σ : store) (rank : TyVarId -> nat) : Prop :=
  forall v t w, σ !! v = Some t -> contains_var w t = true -> rank w < rank v.

Definition acyclic (σ : store) : Prop := exists rank, ranked σ rank.

Lemma App_total_below σ rank r : ranked σ rank -> forall t,
  (forall w, contains_var w t = true -> rank w < r) -> exists t', App σ t t'.
Proof.
  intros HR. induction r as [r IHr] using lt_wf_ind.
  induction t as [i k IH] using Ty_children_ind. intros Hw.
  destruct (kind_is_var k) eqn:Hk.
  - destruct k; try done. destruct (σ !! id) as [t|] eqn:E; [|eexists; by apply App_free].
    destruct (IHr (rank id)) with (t := t) as [t' Ht'].
    { apply Hw. simpl. apply Nat.eqb_refl. }
    { intros w. by apply HR. }
    exists t'. by eapply App_bound.
  - assert (exists cs, Forall2 (App σ) (vparts k) cs) as [cs Hcs]; [|eexists; by apply App_node].
    assert (HF : Forall (fun t => exists t', App σ t t') (vparts k)).
    { apply Forall_forall. intros t Ht.
      apply (proj1 (Forall_forall _ _) IH); [by apply vparts_children|].
      intros w Hcw. apply Hw. by eapply contains_var_part. }
    clear -HF. induction HF as [|t l [t' Ht] _ [cs IH]]; [by exists []|exists (t' :: cs)]. by constructor.
Qed.

Lemma App_total σ t : acyclic σ -> exists t', App σ t t'.
Proof.
  intros [rank HR].
  assert (exists r, forall w, contains_var w t = true -> rank w < r) as [r Hr];
    [|by eapply App_total_below].
  clear HR σ. induction t as [i k IH] using Ty_children_ind. destruct (kind_is_var k) eqn:Hk.
  - destruct k; try done. exists (S (rank id)). intros w ->%Nat.eqb_eq. lia.
  - assert (exists r, Forall (fun t => forall w, contains_var w t = true -> rank w < r) (vparts k))
      as [r Hr].
    { assert (HF : Forall (fun t => exists r, forall w, contains_var w t = true -> rank w < r) (vparts k)).
      { apply Forall_forall. intros t Ht. apply (proj1 (Forall_forall _ _) IH).
        by apply vparts_children. }
      clear -HF. induction HF as [|t l [r Hr] _ [r' IH]]; [by exists 0|]. exists (r `max` r').
      constructor; [intros w Hw%Hr; lia|]. eapply Forall_impl; [exact IH|].
      cbn beta. intros t' Ht' w Hw%Ht'. lia. }
    exists r. intros w (t & Ht & Hw)%contains_var_part_inv; [|done].
    by apply (proj1 (Forall_forall _ _) Hr t Ht).
Qed.

Lemma contains_var_erase w t : contains_var w (erase t) = contains_var w t.
Proof.
  induction t as [i k IH] using Ty_children_ind.
  assert (Hm : forall l, Forall (fun t => contains_var w (erase t) = contains_var w t) l ->
            existsb (contains_var w) (map erase l) = existsb (contains_var w) l).
  { intros l Hl. induction Hl as [|x l Hx _ IHl]; simpl; [done|]. by rewrite Hx, IHl. }
  destruct k; cbn [children] in IH; try done; forall_split; cbn [erase contains_var];
    rewrite ?Hm by done; congruence.
Qed.

(** Binding a free variable to a type of free variables keeps it acyclic. *)
Lemma acyclic_insert σ v t :
  acyclic σ -> σ !! v = None -> contains_var v t = false ->
  (forall w, contains_var w t = true -> σ !! w = None) ->
  acyclic (<[v := erase t]> σ).
Proof.
  intros [rank HR] Hv Hnot Hw.
  exists (fun w => if σ !! w is Some _ then rank w + 2 else if Nat.eqb w v then 1 else 0).
  intros u t0 w. destruct (decide (v = u)) as [<-|Hne].
  - rewrite lookup_insert_eq. intros [= <-]. rewrite contains_var_erase. intros Hcw.
    rewrite Hv, (Hw _ Hcw), Nat.eqb_refl.
    destruct (Nat.eqb_spec w v); [congruence|lia].
  - rewrite lookup_insert_ne by done. intros Hu Hcw. rewrite Hu.
    pose proof (HR _ _ _ Hu Hcw). destruct (σ !! w); [lia|]. destruct (Nat.eqb w v); lia.
Qed.

(** ** What unification promises

    Two types are compatible when they are equal up to origin tags and up to
    the variadic flag of function types, [TError] and [TNever] being
    compatible with anything outside [TFuture]. *)

Definition absorbing (k : TyKind) : Prop :=
  match k with TError | TNever => True | _ => False end.

Definition same_shape (k1 k2 : TyKind) : Prop :=
  match k1, k2 with
  | TTuple _, TTuple _ | TSlice _, TSlice _ | TPtr _, TPtr _ => True
  | TArray _ n, TArray _ m => n = m
  | TRef m _, TRef m' _ => m = m'
  | TFn _ _ _, TFn _ _ _ => True
  | TAdt n _, TAdt n' _ => n = n'
  | TAssocProjection _ tr n, TAssocProjection _ tr' n' => tr = tr' /\ n = n'
  | TFuture a, TFuture b => erase a = erase b
  | _, _ => k1 = k2
  end.

Inductive compat : Ty -> Ty -> Prop :=
| compat_absorb_l i k t : absorbing k -> compat (mkTy i k) t
| compat_absorb_r i k t : absorbing k -> compat t (mkTy i k)
| compat_node i j k1 k2 :
    same_shape k1 k2 -> Forall2 compat (vparts k1) (vparts k2) ->
    compat (mkTy i k1) (mkTy j k2).

Lemma compat_ind' (P : Ty -> Ty -> Prop) :
  (forall i k t, absorbing k -> P (mkTy i k) t) ->
  (forall i k t, absorbing k -> P t (mkTy i k)) ->
  (forall i j k1 k2, same_shape k1 k2 -> Forall2 compat (vparts k1) (vparts k2) ->
     Forall2 P (vparts k1) (vparts k2) -> P (mkTy i k1) (mkTy j k2)) ->
  forall t1 t2, compat t1 t2 -> P t1 t2.
Proof.
  intros Hl Hr Hn. fix IH 3. intros t1 t2 [i k t H|i k t H|i j k1 k2 Hs HF].
  - by apply Hl.
  - by apply Hr.
  - apply Hn; [done..|].
    revert HF. generalize (vparts k1) (vparts k2).
    fix IHF 3. intros l1 l2 [|x y l1' l2' Hxy HF]; constructor; [by apply IH|by apply IHF].
Qed.

Lemma same_shape_refl k : same_shape k k.
Proof. destruct k; simpl; done. Qed.

Lemma compat_refl t : compat t t.
Proof.
  induction t as [i k IH] using Ty_children_ind. apply compat_node; [apply same_shape_refl|].
  apply Forall2_same_length_lookup_2; [done|]. intros j x y Hx Hy. simplify_eq.
  apply (proj1 (Forall_forall _ _) IH), vparts_children. by eapply list_elem_of_lookup_2.
Qed.

Lemma same_shape_vbuild k1 k2 cs1 cs2 :
  same_shape k1 k2 -> length cs1 = length (vparts k1) -> length cs2 = length (vparts k2) ->
  same_shape (vbuild k1 cs1) (vbuild k2 cs2).
Proof.
  destruct k1, k2; cbn [same_shape vparts]; intros; simplify_eq; split_parts;
    cbn [vbuild]; rewrite ?last_snoc; done.
Qed.

Lemma same_shape_var k1 k2 :
  same_shape k1 k2 -> kind_is_var k1 = true -> exists v, k1 = TVar v /\ k2 = TVar v.
Proof. destruct k1; try done. simpl. intros <- _. eauto. Qed.

Lemma same_shape_not_var k1 k2 :
  same_shape k1 k2 -> kind_is_var k1 = false -> kind_is_var k2 = false.
Proof. destruct k1, k2; simpl; try done; naive_solver. Qed.

Lemma App_absorbing σ i k t : absorbing k -> App σ (mkTy i k) t -> t = mkTy i k.
Proof.
  intros Hk (cs & HF & ->)%App_node_inv; [|by destruct k].
  destruct k; try done; inversion HF; subst; done.
Qed.

(** Compatibility survives any further substitution. *)
Lemma compat_App σ a b a' b' : compat a b -> App σ a a' -> App σ b b' -> compat a' b'.
Proof.
  intros Hc. revert a' b'. pattern a, b. revert a b Hc. apply compat_ind'.
  - intros i k t Hk a' b' ->%App_absorbing _; [|done]. by apply compat_absorb_l.
  - intros i k t Hk a' b' _ ->%App_absorbing; [|done]. by apply compat_absorb_r.
  - intros i j k1 k2 Hs _ IH a' b' HA HB. destruct (kind_is_var k1) eqn:Hk1.
    + destruct (same_shape_var _ _ Hs Hk1) as (v & -> & ->).
      destruct HA as [[|n] HA]; [done|]. destruct HB as [[|m] HB]; [done|].
      cbn in HA, HB. destruct (σ !! v) as [t|] eqn:Ev.
      * assert (a' = b') as ->; [|apply compat_refl].
        eapply (App_det σ t); [by exists n|by exists m].
      * simplify_eq. apply compat_node; [done|]. constructor.
    + pose proof (same_shape_not_var _ _ Hs Hk1) as Hk2.
      apply App_node_inv in HA as (cs1 & H1 & ->); [|done].
      apply App_node_inv in HB as (cs2 & H2 & ->); [|done].
      pose proof (Forall2_length _ _ _ H1). pose proof (Forall2_length _ _ _ H2).
      pose proof (Forall2_length _ _ _ IH).
      apply compat_node; [by apply same_shape_vbuild|].
      rewrite !vparts_vbuild by done.
      apply Forall2_same_length_lookup_2; [congruence|]. intros n x y Hx Hy.
      destruct (Forall2_lookup_r _ _ _ _ _ H1 Hx) as (x0 & Hx0 & HAx).
      destruct (Forall2_lookup_r _ _ _ _ _ H2 Hy) as (y0 & Hy0 & HAy).
      by apply (Forall2_lookup_lr _ _ _ _ _ _ IH Hx0 Hy0).
Qed.

(** ** One step of the unifier *)

Inductive action :=
| ADone
| ABind (v : TyVarId) (t : Ty)
| AOne (a b : Ty)
| AZip (l1 l2 : list Ty)
| AFail (e : TypeckError).

(** The case analysis of [unify_in_place] on two applied types. *)
Definition head_action (t1 t2 : Ty) : action :=
  if ty_eqb t1 t2 then ADone else
  let mismatch := AFail (TypeMismatch (ty_kind t2) (ty_kind t1)) in
  match ty_kind t1, ty_kind t2 with
  | TError, _ | _, TError => ADone
  | TNever, _ | _, TNever => ADone
  | TVar v, _ => ABind v t2
  | _, TVar v => ABind v t1
  | TUnit, TUnit | TBool, TBool | TChar, TChar
  | TStr, TStr | TByte, TByte | TBytes, TBytes => ADone
  | TInt i1, TInt i2 => if decide (i1 = i2) then ADone else mismatch
  | TFloat f1, TFloat f2 => if decide (f1 = f2) then ADone else mismatch
  | TRef m1 a, TRef m2 b => if eqb m1 m2 then AOne a b else mismatch
  | TPtr a, TPtr b => AOne a b
  | TTuple l1, TTuple l2 =>
      if Nat.eqb (length l1) (length l2) then AZip l1 l2 else mismatch
  | TArray a n1, TArray b n2 =>
      if Nat.eqb n1 n2 then AOne a b else AFail (TypeMismatch (TArray t2 n2) (TArray t1 n1))
  | TSlice a, TSlice b => AOne a b
  | TFn p1 r1 _, TFn p2 r2 _ =>
      if Nat.eqb (length p1) (length p2) then AZip (p1 ++ [r1]) (p2 ++ [r2])
      else AFail (ArgumentCountMismatch (length p1) (length p2))
  | TAdt n1 l1, TAdt n2 l2 =>
      if decide (n1 = n2) then
        if Nat.eqb (length l1) (length l2) then AZip l1 l2 else mismatch
      else mismatch
  | TAssocProjection a tr1 nm1, TAssocProjection b tr2 nm2 =>
      if decide (tr1 = tr2) then if decide (nm1 = nm2) then AOne a b else mismatch else mismatch
  | _, _ => mismatch
  end.

Section unfold.
Context {S : Type} `{BindingStore S}.

Definition run_action (rec : Ty -> Ty -> TypeInfer S -> Outcome) (a : action)
    (st : TypeInfer S) : Outcome :=
  match a with
  | ADone => Some (Ok tt, st)
  | ABind v t => Some (Ok tt, bind_var v t st)
  | AOne x y => rec x y st
  | AZip l1 l2 => unify_zip rec l1 l2 st
  | AFail e => Some (Err e, st)
  end.

Lemma unify_zip_app rec l1 l2 m1 m2 st :
  length l1 = length l2 ->
  unify_zip rec (l1 ++ m1) (l2 ++ m2) st =
    let* (r, st1) := unify_zip rec l1 l2 st in
    match r with Ok tt => unify_zip rec m1 m2 st1 | Err e => Some (Err e, st1) end.
Proof.
  revert l2 st. induction l1 as [|x l1 IH]; intros [|y l2] st Hlen; try done.
  cbn [app unify_zip]. destruct (rec x y st) as [[[[]|e] st1]|]; try done.
  apply IH. by injection Hlen.
Qed.

Lemma unify_unfold n t1 t2 (st : TypeInfer S) :
  unify_in_place (Datatypes.S n) t1 t2 st =
    let* a := apply_subst n st t1 in
    let* b := apply_subst n st t2 in
    run_action (unify_in_place n) (head_action a b) st.
Proof.
  cbn [unify_in_place]. destruct (apply_subst n st t1) as [[i1 k1]|]; [|done].
  destruct (apply_subst n st t2) as [[i2 k2]|]; [|done].
  unfold head_action. destruct (ty_eqb _ _); [done|].
  cbn [ty_kind].
  destruct k1, k2; cbn [run_action]; try reflexivity; repeat case_match; try reflexivity; try done.
  all: cbn [run_action]; rewrite ?unify_zip_app by (by apply Nat.eqb_eq);
    repeat match goal with E : unify_zip _ _ _ _ = _ |- _ => rewrite E; clear E end; reflexivity.
Qed.
End unfold.

Lemma head_done a b : head_action a b = ADone -> compat a b.
Proof.
  unfold head_action. destruct (ty_eqb a b) eqn:E.
  { intros _. apply ty_eqb_eq in E as ->. apply compat_refl. }
  destruct a as [i k1], b as [j k2]. cbn [ty_kind].
  destruct k1, k2; try done; intros HA; repeat case_match; try done; subst;
    try (by apply compat_absorb_l); try (by apply compat_absorb_r);
    apply compat_node; first [done|constructor].
Qed.

Lemma head_bind a b v t : head_action a b = ABind v t ->
  (exists i, a = mkTy i (TVar v) /\ t = b) \/ (exists i, b = mkTy i (TVar v) /\ t = a).
Proof.
  unfold head_action. destruct (ty_eqb a b); [done|].
  destruct a as [i k1], b as [j k2]. cbn [ty_kind].
  destruct k1, k2; try done; intros HA; repeat case_match; simplify_eq; eauto.
Qed.

(** The pairs of parts an action unifies. *)
Definition action_parts (a : action) : option (list Ty * list Ty) :=
  match a with
  | AOne x y => Some ([x], [y])
  | AZip l1 l2 => Some (l1, l2)
  | _ => None
  end.

Lemma head_parts a b l1 l2 : action_parts (head_action a b) = Some (l1, l2) ->
  exists i j k1 k2, a = mkTy i k1 /\ b = mkTy j k2 /\ same_shape k1 k2 /\
    kind_is_var k1 = false /\ kind_is_var k2 = false /\
    vparts k1 = l1 /\ vparts k2 = l2 /\ length l1 = length l2.
Proof.
  unfold head_action. destruct (ty_eqb a b); [done|].
  destruct a as [i k1], b as [j k2]. cbn [ty_kind].
  destruct k1, k2; try done; intros HA; repeat case_match; simplify_eq/=;
    repeat match goal with
      | H : (_ =? _) = true |- _ => apply Nat.eqb_eq in H
      | H : eqb _ _ = true |- _ => apply eqb_prop in H
    end; subst;
    eexists _, _, _, _; split_and!; try reflexivity; try done.
  by rewrite !length_app; simpl; f_equal.
Qed.

(** ** Invariants of a run over the ideal store *)

Notation state := (TypeInfer (gmap TyVarId Ty)) (only parsing).

Definition inU (U : TyVarId -> Prop) (t : Ty) : Prop := forall w, contains_var w t = true -> U w.

Definition closedU (U : TyVarId -> Prop) (σ : store) : Prop :=
  forall v t, U v -> σ !! v = Some t -> inU U t.

Lemma inU_parts U i k t : kind_is_var k = false -> inU U (mkTy i k) -> t ∈ vparts k -> inU U t.
Proof. intros Hk HU Ht w Hw. apply HU. by eapply contains_var_part. Qed.

Lemma App_inU U σ t t' : closedU U σ -> App σ t t' -> inU U t -> inU U t'.
Proof.
  intros Hc HA. pattern t, t'. revert t t' HA. apply App_ind; [done| |].
  - intros i v t t' Hv _ IH HU. apply IH. eapply Hc; [|done]. apply HU. simpl. apply Nat.eqb_refl.
  - intros i k cs Hk HF IH HU w Hw.
    apply contains_var_part_inv in Hw as (x & Hx & Hw); [|by rewrite vbuild_not_var].
    rewrite vparts_vbuild in Hx by (symmetry; by eapply Forall2_length).
    apply list_elem_of_lookup in Hx as [n Hn].
    destruct (Forall2_lookup_r _ _ _ _ _ IH Hn) as (y & Hy & H).
    apply H; [|done]. eapply inU_parts; [done|done|]. by eapply list_elem_of_lookup_2.
Qed.

(** What a step from [st] to [st'] keeps. *)
Record kept (U : TyVarId -> Prop) (st st' : state) : Prop := {
  kept_grow : infer_subst st ⊆ infer_subst st';
  kept_acyclic : acyclic (infer_subst st) -> acyclic (infer_subst st');
  kept_closed : closedU U (infer_subst st');
  kept_outside : forall v, ~ U v -> infer_subst st' !! v = infer_subst st !! v;
}.

Lemma kept_refl U st : closedU U (infer_subst st) -> kept U st st.
Proof. by split. Qed.

Lemma kept_trans U st1 st2 st3 : kept U st1 st2 -> kept U st2 st3 -> kept U st1 st3.
Proof.
  intros [g1 a1 c1 o1] [g2 a2 c2 o2]. split; [by etrans|auto|done|].
  intros v Hv. by rewrite o2, o1.
Qed.

#[export] Hint Resolve kept_refl : sengoo.

(** The type [bind_var] really stores. *)
Definition bound_ty (v : TyVarId) (t : Ty) (st : state) : Ty :=
  if contains_var v t then mkTy (next_ty_id st) TError else t.

Lemma bind_var_subst v t (st : state) :
  infer_subst (bind_var v t st) = <[v := erase (bound_ty v t st)]> (infer_subst st).
Proof. unfold bind_var, bound_ty. by destruct (contains_var v t). Qed.

Lemma bound_ty_contains v t st w :
  contains_var w (bound_ty v t st) = true -> contains_var w t = true /\ w <> v.
Proof.
  unfold bound_ty. destruct (contains_var v t) eqn:E; [done|]. intros Hw. split; [done|].
  intros ->. congruence.
Qed.

Lemma bind_var_kept U v t (st : state) :
  closedU U (infer_subst st) -> U v -> inU U t -> infer_subst st !! v = None ->
  (forall w, contains_var w t = true -> infer_subst st !! w = None) ->
  kept U st (bind_var v t st).
Proof.
  intros Hc Hv Ht Hfree Hnorm. split; rewrite bind_var_subst.
  - by apply insert_subseteq.
  - intros Ha. apply acyclic_insert; [done..| |].
    + destruct (contains_var v (bound_ty v t st)) eqn:E; [|done].
      by apply bound_ty_contains in E as [_ ?].
    + intros w [Hw _]%bound_ty_contains. by apply Hnorm.
  - intros u t0 Hu. destruct (decide (v = u)) as [<-|].
    + rewrite lookup_insert_eq. intros [= <-] w. rewrite contains_var_erase.
      intros [Hw _]%bound_ty_contains. by apply Ht.
    + rewrite lookup_insert_ne by done. by apply Hc.
  - intros u Hu. apply lookup_insert_ne. by intros <-.
Qed.

Definition rec_kept (U : TyVarId -> Prop) (rec : Ty -> Ty -> state -> Outcome) : Prop :=
  forall t1 t2 st r st', closedU U (infer_subst st) -> inU U t1 -> inU U t2 ->
    rec t1 t2 st = Some (r, st') -> kept U st st'.

Lemma unify_zip_kept U rec l1 l2 : rec_kept U rec -> forall st r st',
  closedU U (infer_subst st) -> Forall (inU U) l1 -> Forall (inU U) l2 ->
  unify_zip rec l1 l2 st = Some (r, st') -> kept U st st'.
Proof.
  intros Hrec. revert l2. induction l1 as [|x l1 IH]; intros [|y l2] st r st' Hc H1 H2;
    cbn [unify_zip]; try (intros [= <- <-]; by apply kept_refl).
  forall_split. destruct (rec x y st) as [[[[]|e] st1]|] eqn:E; [| |done].
  - intros Hz. assert (kept U st st1) as Hk by (by eapply (Hrec x y)).
    eapply kept_trans; [exact Hk|]. eapply IH; try done. apply (kept_closed _ _ _ Hk).
  - intros [= <- <-]. split; simpl; eauto.
Qed.

Lemma unify_kept U n : rec_kept U (unify_in_place n).
Proof.
  induction n as [|n IH]; [done|]. intros t1 t2 st r st' Hc H1 H2. rewrite unify_unfold.
  unfold apply_subst.
  destruct (subst_apply n _ t1) as [a|] eqn:E1; [|done].
  destruct (subst_apply n _ t2) as [b|] eqn:E2; [|done].
  assert (App (infer_subst st) t1 a) as HA by (by exists n).
  assert (App (infer_subst st) t2 b) as HB by (by exists n).
  assert (Ua : inU U a) by (by eapply App_inU). assert (Ub : inU U b) by (by eapply App_inU).
  assert (Hparts : forall l1 l2, action_parts (head_action a b) = Some (l1, l2) ->
            Forall (inU U) l1 /\ Forall (inU U) l2).
  { intros l1 l2 (i & j & k1 & k2 & -> & -> & _ & ? & ? & <- & <- & _)%head_parts.
    split; apply Forall_forall; intros x Hx.
    - by apply (inU_parts U i k1).
    - by apply (inU_parts U j k2). }
  destruct (head_action a b) as [|v t|x y|l1 l2|e] eqn:EA; cbn [run_action].
  - intros [= <- <-]. by apply kept_refl.
  - intros [= <- <-]. pose proof (App_normal _ _ _ HA). pose proof (App_normal _ _ _ HB).
    assert (Hself : forall i, contains_var v (mkTy i (TVar v)) = true) by (intros; apply Nat.eqb_refl).
    destruct (head_bind _ _ _ _ EA) as [(i & -> & ->)|(i & -> & ->)]; apply bind_var_kept; eauto.
  - destruct (Hparts [x] [y] eq_refl). forall_split. by apply IH.
  - destruct (Hparts l1 l2 eq_refl). by apply unify_zip_kept.
  - intros [= <- <-]. by apply kept_refl.
Qed.

(** ** Soundness *)

Definition everything (v : TyVarId) : Prop := True.

Lemma unify_grow n t1 t2 (st st' : state) r :
  unify_in_place n t1 t2 st = Some (r, st') ->
  infer_subst st ⊆ infer_subst st' /\ (acyclic (infer_subst st) -> acyclic (infer_subst st')).
Proof. intros E. by destruct (unify_kept everything n t1 t2 st r st'). Qed.

Lemma unify_zip_grow n l1 l2 (st st' : state) r :
  unify_zip (unify_in_place n) l1 l2 st = Some (r, st') ->
  infer_subst st ⊆ infer_subst st' /\ (acyclic (infer_subst st) -> acyclic (infer_subst st')).
Proof.
  intros E.
  destruct (unify_zip_kept everything (unify_in_place n) l1 l2 (unify_kept everything n) st r st');
    try done; by apply Forall_forall.
Qed.

(** The two types agree once the substitution is applied. *)
Definition agree (σ : store) (t1 t2 : Ty) : Prop :=
  exists a b, App σ t1 a /\ App σ t2 b /\ compat a b.

Lemma agree_grow σ σ' t1 t2 : σ ⊆ σ' -> acyclic σ' -> agree σ t1 t2 -> agree σ' t1 t2.
Proof.
  intros Hsub Hac (a & b & Ha & Hb & Hc).
  destruct (App_total σ' a Hac) as [a' Ha']. destruct (App_total σ' b Hac) as [b' Hb'].
  exists a', b'. split_and!; [by eapply App_compose..|]. by eapply compat_App.
Qed.

(** Agreement of applied types carries over to the types themselves. *)
Lemma agree_applied σ σ' t1 t2 a b :
  σ ⊆ σ' -> App σ t1 a -> App σ t2 b -> agree σ' a b -> agree σ' t1 t2.
Proof.
  intros Hsub Ha Hb (a' & b' & Ha' & Hb' & Hc).
  exists a', b'. split_and!; [by eapply App_compose..|done].
Qed.

Lemma agree_parts σ i j k1 k2 :
  same_shape k1 k2 -> kind_is_var k1 = false -> kind_is_var k2 = false ->
  Forall2 (agree σ) (vparts k1) (vparts k2) -> agree σ (mkTy i k1) (mkTy j k2).
Proof.
  intros Hs H1 H2 HF.
  assert (exists cs1 cs2, Forall2 (App σ) (vparts k1) cs1 /\ Forall2 (App σ) (vparts k2) cs2 /\
            Forall2 compat cs1 cs2) as (cs1 & cs2 & HA & HB & HC).
  { clear -HF. induction HF as [|x y l1 l2 (a & b & ? & ? & ?) _ (cs1 & cs2 & ? & ? & ?)].
    - by exists [], [].
    - exists (a :: cs1), (b :: cs2). split_and!; by constructor. }
  pose proof (Forall2_length _ _ _ HA). pose proof (Forall2_length _ _ _ HB).
  exists (mkTy i (vbuild k1 cs1)), (mkTy j (vbuild k2 cs2)).
  split_and!; [by apply App_node..|]. apply compat_node; [by apply same_shape_vbuild|].
  by rewrite !vparts_vbuild.
Qed.

Definition rec_sound (rec : Ty -> Ty -> state -> Outcome) : Prop :=
  forall t1 t2 st st', acyclic (infer_subst st) -> rec t1 t2 st = Some (Ok tt, st') ->
    agree (infer_subst st') t1 t2.

Lemma unify_zip_sound n l1 l2 : rec_sound (unify_in_place n) -> forall st st',
  acyclic (infer_subst st) -> length l1 = length l2 ->
  unify_zip (unify_in_place n) l1 l2 st = Some (Ok tt, st') ->
  Forall2 (agree (infer_subst st')) l1 l2.
Proof.
  intros Hrec. revert l2. induction l1 as [|x l1 IH]; intros [|y l2] st st' Hac Hlen; try done.
  cbn [unify_zip]. destruct (unify_in_place n x y st) as [[[[]|e] st1]|] eqn:E; [|done..].
  intros Hz. destruct (unify_grow _ _ _ _ _ _ E) as [_ Hac1]. specialize (Hac1 Hac).
  destruct (unify_zip_grow _ _ _ _ _ _ Hz) as [Hg Hac2]. constructor.
  - eapply agree_grow; [exact Hg|by apply Hac2|]. eapply Hrec; [exact Hac|exact E].
  - eapply IH; [done| |done]. by injection Hlen.
Qed.

Lemma same_shape_sym k1 k2 : same_shape k1 k2 -> same_shape k2 k1.
Proof. destruct k1, k2; simpl; try done; intros; naive_solver. Qed.

Lemma compat_sym t1 t2 : compat t1 t2 -> compat t2 t1.
Proof.
  intros Hc. pattern t1, t2. revert t1 t2 Hc. apply compat_ind'.
  - intros. by apply compat_absorb_r.
  - intros. by apply compat_absorb_l.
  - intros i j k1 k2 Hs _ IH. apply compat_node; [by apply same_shape_sym|by apply Forall2_flip].
Qed.

Lemma compat_erase t : compat (erase t) t.
Proof.
  induction t as [i k IH] using Ty_children_ind.
  assert (Hm : forall l, Forall (fun t => compat (erase t) t) l -> Forall2 compat (map erase l) l).
  { intros l Hl. induction Hl; simpl; by constructor. }
  destruct k; cbn [children] in IH; forall_split; cbn [erase]; apply compat_node; simpl;
    repeat constructor; try done; try (by apply Hm).
  - apply Forall2_app; [by apply Hm|by repeat constructor].
  - apply erase_idemp.
Qed.

Lemma bind_sound σ v (t : Ty) i (st : state) :
  infer_subst st = σ -> acyclic (infer_subst (bind_var v t st)) -> σ !! v = None ->
  (forall w, contains_var w t = true -> σ !! w = None) ->
  agree (infer_subst (bind_var v t st)) (mkTy i (TVar v)) t.
Proof.
  intros <- Hac Hv Hn. rewrite bind_var_subst in *.
  destruct (App_total _ t Hac) as [b Hb].
  assert (HA : App (<[v:=erase (bound_ty v t st)]> (infer_subst st)) (mkTy i (TVar v)) (erase (bound_ty v t st))).
  { eapply App_bound; [apply lookup_insert_eq|]. apply App_id. intros w.
    rewrite contains_var_erase. intros [Hw Hne]%bound_ty_contains.
    rewrite lookup_insert_ne by done. by apply Hn. }
  exists (erase (bound_ty v t st)), b. split_and!; [done..|].
  unfold bound_ty in *. destruct (contains_var v t) eqn:E; [by apply compat_absorb_l|].
  assert (b = t) as ->; [|apply compat_erase].
  eapply App_det; [exact Hb|]. apply App_id. intros w Hw.
  rewrite lookup_insert_ne by congruence. by apply Hn.
Qed.

Lemma agree_sym σ t1 t2 : agree σ t1 t2 -> agree σ t2 t1.
Proof. intros (a & b & Ha & Hb & Hc). exists b, a. split_and!; try done. by apply compat_sym. Qed.

Lemma unify_sound n : rec_sound (unify_in_place n).
Proof.
  induction n as [|n IH]; [done|]. intros t1 t2 st st' Hac E.
  destruct (unify_grow _ _ _ _ _ _ E) as [Hg Hac']. specialize (Hac' Hac).
  revert E. rewrite unify_unfold. unfold apply_subst.
  destruct (subst_apply n _ t1) as [a|] eqn:E1; [|done].
  destruct (subst_apply n _ t2) as [b|] eqn:E2; [|done].
  assert (App (infer_subst st) t1 a) as HA by (by exists n).
  assert (App (infer_subst st) t2 b) as HB by (by exists n).
  intros E. eapply agree_applied; [exact Hg|exact HA|exact HB|].
  assert (Hparts : forall l1 l2, action_parts (head_action a b) = Some (l1, l2) ->
            unify_zip (unify_in_place n) l1 l2 st = Some (Ok tt, st') ->
            agree (infer_subst st') a b).
  { intros l1 l2 (i & j & k1 & k2 & -> & -> & Hs & ? & ? & <- & <- & Hlen)%head_parts Hz.
    apply agree_parts; [done..|]. eapply unify_zip_sound; [exact IH|exact Hac|exact Hlen|exact Hz]. }
  destruct (head_action a b) as [|v t|x y|l1 l2|e] eqn:EA; cbn [run_action] in E.
  - injection E as <-. exists a, b. split_and!; [|by apply App_id; apply (App_normal _ _ _ HB)|by apply head_done].
    apply App_id. apply (App_normal _ _ _ HA).
  - injection E as <-.
    pose proof (App_normal _ _ _ HA) as NA. pose proof (App_normal _ _ _ HB) as NB.
    assert (Hself : forall i, contains_var v (mkTy i (TVar v)) = true) by (intros; apply Nat.eqb_refl).
    destruct (head_bind _ _ _ _ EA) as [(i & -> & ->)|(i & -> & ->)];
      [|apply agree_sym]; eapply bind_sound; eauto.
  - apply (Hparts [x] [y] eq_refl). cbn [unify_zip]. by rewrite E.
  - by apply (Hparts l1 l2 eq_refl).
  - done.
Qed.

(** ** Termination *)

Fixpoint vsize (t : Ty) : nat :=
  match t with mkTy _ k =>
    match k with
    | TTuple ts => S (sum_list (map vsize ts))
    | TArray e _ | TSlice e => S (vsize e)
    | TRef _ t | TPtr t => S (vsize t)
    | TFn ps r _ => S (sum_list (map vsize ps) + vsize r)
    | TAdt _ args => S (sum_list (map vsize args))
    | TAssocProjection b _ _ => S (vsize b)
    | _ => 1
    end
  end.

Lemma vsize_part i k t : t ∈ vparts k -> vsize t < vsize (mkTy i k).
Proof.
  assert (Hm : forall l, t ∈ l -> vsize t <= sum_list (map vsize l)).
  { intros l Hl. apply sum_list_le_elem. apply list_elem_of_In, in_map. by apply list_elem_of_In. }
  destruct k; cbn [vparts vsize]; rewrite ?elem_of_app, ?list_elem_of_singleton, ?elem_of_nil;
    try (by intros ->; lia); try done.
  - intros Hl%Hm. lia.
  - intros [Hl%Hm| ->]; lia.
  - intros Hl%Hm. lia.
Qed.

(** The variables of [U] that are still free. *)
Definition free_count (U : gset TyVarId) (σ : store) : nat :=
  size (filter (fun v => σ !! v = None) U).

Lemma free_filter_grow (U : gset TyVarId) (σ σ' : store) : σ ⊆ σ' ->
  filter (fun v => σ' !! v = None) U ⊆ filter (fun v => σ !! v = None) U.
Proof.
  intros Hsub v. rewrite !elem_of_filter. intros [Hv HU]. split; [|done].
  by eapply lookup_weaken_None.
Qed.

Lemma free_count_grow U σ σ' : σ ⊆ σ' -> free_count U σ' <= free_count U σ.
Proof. intros. by apply subseteq_size, free_filter_grow. Qed.

Lemma free_count_same U σ σ' v :
  σ ⊆ σ' -> free_count U σ <= free_count U σ' -> v ∈ U -> σ !! v = None -> σ' !! v = None.
Proof.
  intros Hsub Hle HU Hv. unfold free_count in Hle.
  assert (Heq : filter (fun v => σ' !! v = None) U ≡ filter (fun v => σ !! v = None) U)
    by (by apply set_subseteq_size_equiv; [apply free_filter_grow|]).
  assert (v ∈ filter (fun v => σ' !! v = None) U) as [? _]%elem_of_filter; [|done].
  apply Heq, elem_of_filter. by split.
Qed.

Section mono.
Context {S : Type} `{BindingStore S}.

Lemma unify_zip_mono (rec rec' : Ty -> Ty -> TypeInfer S -> Outcome) l1 l2 st o :
  (forall t1 t2 st o, rec t1 t2 st = Some o -> rec' t1 t2 st = Some o) ->
  unify_zip rec l1 l2 st = Some o -> unify_zip rec' l1 l2 st = Some o.
Proof.
  intros Hr. revert l2 st. induction l1 as [|x l1 IH]; intros [|y l2] st; cbn [unify_zip]; try done.
  destruct (rec x y st) as [[r st1]|] eqn:E; [|done]. rewrite (Hr _ _ _ _ E).
  destruct r as [[]|e]; [apply IH|done].
Qed.

Lemma unify_mono n m t1 t2 (st : TypeInfer S) o :
  n <= m -> unify_in_place n t1 t2 st = Some o -> unify_in_place m t1 t2 st = Some o.
Proof.
  revert m t1 t2 st o. induction n as [|n IH]; [done|]. intros [|m] t1 t2 st o Hle; [lia|].
  rewrite !unify_unfold. unfold apply_subst.
  destruct (subst_apply n _ t1) as [a|] eqn:E1; [|done].
  destruct (subst_apply n _ t2) as [b|] eqn:E2; [|done].
  rewrite (subst_apply_mono n m _ _ _ ltac:(lia) E1), (subst_apply_mono n m _ _ _ ltac:(lia) E2).
  destruct (head_action a b); cbn [run_action]; try done.
  - apply IH. lia.
  - apply unify_zip_mono. intros. apply IH; [lia|done].
Qed.
End mono.

Definition terminates (t1 t2 : Ty) (st : state) : Prop :=
  exists n r st', unify_in_place n t1 t2 st = Some (r, st').

(** Enough fuel for applying both types and for the action gives a result. *)
Lemma terminates_action t1 t2 (st : state) a b n r st' :
  App (infer_subst st) t1 a -> App (infer_subst st) t2 b ->
  run_action (unify_in_place n) (head_action a b) st = Some (r, st') -> terminates t1 t2 st.
Proof.
  intros [n1 H1] [n2 H2] Hrun. set (m := n `max` (n1 `max` n2)).
  exists (S m), r, st'. rewrite unify_unfold. unfold apply_subst.
  rewrite (subst_apply_mono n1 m _ _ _ ltac:(lia) H1), (subst_apply_mono n2 m _ _ _ ltac:(lia) H2).
  destruct (head_action a b); cbn [run_action] in *; try done.
  - eapply unify_mono; [|exact Hrun]. lia.
  - eapply unify_zip_mono; [|exact Hrun]. intros. eapply unify_mono; [|done]. lia.
Qed.

Section termination.
Context (U : gset TyVarId).
Notation InU := (fun v => v ∈ U).

Definition ready (c s : nat) (t1 t2 : Ty) (st : state) : Prop :=
  acyclic (infer_subst st) /\ closedU InU (infer_subst st) /\ inU InU t1 /\ inU InU t2 /\
  free_count U (infer_subst st) <= c /\ exists a, App (infer_subst st) t1 a /\ vsize a <= s.

(** The list loop: each pair either leaves the free variables alone, and then
    the next one is as small as before, or uses one up. *)
Lemma unify_zip_terminates c s σ l1 :
  (forall c' s' t1 t2 st, c' < c -> ready c' s' t1 t2 st -> terminates t1 t2 st) ->
  (forall t1 t2 st, ready c s t1 t2 st -> terminates t1 t2 st) ->
  free_count U σ <= c ->
  Forall (fun x => inU InU x /\ vsize x <= s /\ forall w, contains_var w x = true -> σ !! w = None) l1 ->
  forall l2 st, Forall (inU InU) l2 ->
    σ ⊆ infer_subst st -> acyclic (infer_subst st) -> closedU InU (infer_subst st) ->
    exists n r st', unify_zip (unify_in_place n) l1 l2 st = Some (r, st').
Proof.
  intros Hless Hsame Hcount HF.
  induction HF as [|x l1 (HUx & Hsx & Hfx) _ IH]; intros [|y l2] st H2 Hsub Hac Hcl;
    try (by eexists 0, _, _).
  forall_split.
  assert (terminates x y st) as (n & r & st1 & E).
  { destruct (decide (free_count U σ <= free_count U (infer_subst st))) as [Hle|Hlt].
    - apply Hsame. split_and!; try done.
      { etrans; [by apply free_count_grow|done]. }
      exists x. split; [|done]. apply App_id. intros w Hw.
      eapply free_count_same; [done..|by apply HUx|by apply Hfx].
    - destruct (App_total _ x Hac) as [a Ha].
      apply (Hless (free_count U (infer_subst st)) (vsize a)); [lia|].
      split_and!; try done. by exists a. }
  destruct (unify_kept InU n x y st r st1) as [Hg Hac' Hcl' _]; [done..|].
  destruct r as [[]|e]; [|eexists n, _, _; cbn [unify_zip]; by rewrite E].
  destruct (IH l2 st1) as (m & r & st2 & Hz); [done|by etrans|by apply Hac'|done|].
  exists (n `max` m), r, st2. cbn [unify_zip].
  rewrite (unify_mono n (n `max` m) _ _ _ _ ltac:(lia) E).
  eapply unify_zip_mono; [|exact Hz]. intros. eapply unify_mono; [|done]. lia.
Qed.

Lemma unify_terminates_ready c s t1 t2 st : ready c s t1 t2 st -> terminates t1 t2 st.
Proof.
  revert s t1 t2 st. induction c as [c IHc] using lt_wf_ind.
  induction s as [s IHs] using lt_wf_ind. intros t1 t2 st (Hac & Hcl & HU1 & HU2 & Hc & a & HA & Hs).
  destruct (App_total _ t2 Hac) as [b HB].
  pose proof (App_normal _ _ _ HA) as NA. pose proof (App_inU _ _ _ _ Hcl HA HU1) as Ua.
  pose proof (App_inU _ _ _ _ Hcl HB HU2) as Ub.
  assert (Hparts : forall l1 l2, action_parts (head_action a b) = Some (l1, l2) ->
            Forall (fun x => inU InU x /\ vsize x <= vsize a - 1 /\ vsize a <> 0 /\
                     forall w, contains_var w x = true -> infer_subst st !! w = None) l1 /\
            Forall (inU InU) l2).
  { intros l1 l2 (i & j & k1 & k2 & -> & -> & _ & ? & ? & <- & <- & _)%head_parts.
    split; apply Forall_forall; intros x Hx; [|by apply (inU_parts InU j k2)].
    pose proof (vsize_part i _ _ Hx).
    split_and!; [by apply (inU_parts InU i k1)|lia|lia|].
    intros w Hw. apply NA. by eapply contains_var_part. }
  destruct (head_action a b) as [|v t|x y|l1 l2|e] eqn:EA.
  1, 2, 5: eapply (terminates_action _ _ _ _ _ 0); [exact HA|exact HB|by rewrite EA].
  - destruct (Hparts [x] [y] eq_refl) as [Hl1 Hl2]. forall_split. destruct_and!.
    destruct (IHs (vsize a - 1) ltac:(lia) x y st) as (n & r & st' & E).
    { split_and!; try done. exists x. split; [by apply App_id|done]. }
    eapply terminates_action; [exact HA|exact HB|]. rewrite EA. exact E.
  - destruct (Hparts l1 l2 eq_refl) as [Hl1 Hl2].
    destruct l1 as [|x l1']; [by eapply (terminates_action _ _ _ _ _ 0); [exact HA|exact HB|rewrite EA]|].
    assert (vsize a <> 0) as Hne by (forall_split; destruct_and!; done).
    destruct (unify_zip_terminates c (vsize a - 1) (infer_subst st) (x :: l1')) with (l2 := l2) (st := st)
      as (n & r & st' & E); try done.
    { intros; by eapply IHc. }
    { intros. by apply (IHs (vsize a - 1) ltac:(lia)). }
    { eapply Forall_impl; [exact Hl1|]. cbn beta. naive_solver. }
    eapply terminates_action; [exact HA|exact HB|]. rewrite EA. exact E.
Qed.
End termination.
