(* ===== verification/Refine.v ===== *)
(** The code's substitution implements the ideal one.

    [Subst] keeps interned ids and shares its interner between checkpoints;
    [gmap] keeps the types themselves.  As long as the interner has room for
    the shapes a run creates, the two stores drive the unifier through the
    same steps ([unify_forward]), so the properties of Unify.v hold of the
    code's store. *)

From S2P Require Import Prelude Ty Interner Infer Unify.

Definition arena_len (s : Subst) : nat := length (arena (subst_interner s)).

(** [k] more ids fit in a [u32]. *)
Definition room (k : nat) (s : Subst) : Prop := (N.of_nat (arena_len s + k) <= 2 ^ 32)%N.

Record store_rel (s : Subst) (σ : gmap TyVarId Ty) : Prop := {
  rel_wf : interner_wf (subst_interner s);
  rel_get : forall v, subst_get s v = Some (σ !! v);
}.

Record infer_rel (st : TypeInfer Subst) (σst : TypeInfer (gmap TyVarId Ty)) : Prop := {
  rel_ty_id : next_ty_id st = next_ty_id σst;
  rel_var_id : next_ty_var_id st = next_ty_var_id σst;
  rel_errors : infer_errors st = infer_errors σst;
  rel_store : store_rel (infer_subst st) (infer_subst σst);
}.

(** ** How much a type costs the interner *)

Fixpoint ty_nodes (t : Ty) : nat :=
  match t with mkTy _ k =>
    match k with
    | TTuple ts => S (sum_list (map ty_nodes ts))
    | TArray e _ | TSlice e => S (ty_nodes e)
    | TRef _ t | TPtr t | TFuture t => S (ty_nodes t)
    | TFn ps r _ => S (sum_list (map ty_nodes ps) + ty_nodes r)
    | TAdt _ args => S (sum_list (map ty_nodes args))
    | TAssocProjection b _ _ => S (ty_nodes b)
    | _ => 1
    end
  end.

Definition costs (t : Ty) (k : nat) : Prop := forall s,
  length (arena (intern_ty t s).2) <= length (arena s) + k.

Lemma intern_cost k s : length (arena (intern k s).2) <= length (arena s) + 1.
Proof. unfold intern. case_match; simpl; rewrite ?length_app; simpl; lia. Qed.

Lemma traverse_costs ts : Forall (fun t => costs t (ty_nodes t)) ts -> forall s,
  length (arena (traverse intern_ty ts s).2) <= length (arena s) + sum_list (map ty_nodes ts).
Proof.
  induction 1 as [|t ts Hk _ IH]; intros s; [simpl; lia|].
  cbn [traverse map sum_list]. specialize (Hk s).
  destruct (intern_ty t s) as [i s1]. specialize (IH s1).
  destruct (traverse intern_ty ts s1) as [l s2]. simpl in *. lia.
Qed.

(** Interning a type adds at most one shape per node. *)
Lemma ty_costs t : costs t (ty_nodes t).
Proof.
  induction t as [i kind IH] using Ty_children_ind. intros s.
  assert (S (length (arena (lower_kind kind s).2)) <= length (arena s) + ty_nodes (mkTy i kind)) as Hk.
  { destruct kind; cbn [children] in IH; forall_split; cbn [lower_kind ty_nodes]; try (simpl; lia);
      try (pose proof (traverse_costs _ IH s) as Hk; destruct (traverse _ _ _); simpl in *; lia);
      try (match goal with H : costs _ _ |- _ => specialize (H s) end;
           destruct (intern_ty _ s); simpl in *; lia).
    pose proof (traverse_costs params ltac:(done) s) as Hk. destruct (traverse _ _ _) as [ps s1].
    match goal with H : costs ret _ |- _ => specialize (H s1) end.
    destruct (intern_ty ret s1). simpl in *. lia. }
  cbn [intern_ty]. destruct (lower_kind kind s) as [ik s1]. pose proof (intern_cost ik s1).
  simpl in *. lia.
Qed.

(** *** The ideal store with a meter

    It counts the shapes a run hands to the interner, so that the room a run
    needs can be computed. *)

#[export] Instance metered_store : BindingStore (gmap TyVarId Ty * nat) := {
  bs_get s v := Some (s.1 !! v);
  bs_insert v t s := (<[v := erase t]> s.1, s.2 + ty_nodes t);
  bs_note_ty t s := (s.1, s.2 + ty_nodes t);
  bs_restore cp cur := (cp.1, cur.2);
}.

Notation metered := (TypeInfer (gmap TyVarId Ty * nat)) (only parsing).

Definition spent (mst : metered) : nat := (infer_subst mst).2.

Definition unmeter (mst : metered) : TypeInfer (gmap TyVarId Ty) :=
  mkInfer (next_ty_id mst) (next_ty_var_id mst) (infer_subst mst).1 (infer_errors mst).

Definition unmeter_outcome (o : @Outcome (gmap TyVarId Ty * nat)) : @Outcome (gmap TyVarId Ty) :=
  let* (r, mst) := o in Some (r, unmeter mst).

Lemma unmeter_bind v t (mst : metered) : unmeter (bind_var v t mst) = bind_var v t (unmeter mst).
Proof. unfold bind_var. by destruct (contains_var v t). Qed.

Lemma subst_apply_metered n (s : gmap TyVarId Ty * nat) t : subst_apply n s t = subst_apply n s.1 t.
Proof.
  revert t. induction n as [|n IH]; [done|]. intros [i k]. destruct (kind_is_var k) eqn:Hk.
  - destruct k; try done. cbn [subst_apply]. simpl. by destruct (s.1 !! id).
  - rewrite !subst_apply_node by done.
    by rewrite (mapM_ext (subst_apply n s) (subst_apply n s.1) (vparts k)).
Qed.

Lemma unify_zip_metered n l1 l2 mst :
  (forall t1 t2 mst, unmeter_outcome (unify_in_place n t1 t2 mst) = unify_in_place n t1 t2 (unmeter mst)) ->
  unmeter_outcome (unify_zip (unify_in_place n) l1 l2 mst) =
    unify_zip (unify_in_place n) l1 l2 (unmeter mst).
Proof.
  intros Hrec. revert l2 mst. induction l1 as [|x l1 IH]; intros [|y l2] mst; try done.
  cbn [unify_zip]. rewrite <- Hrec. destruct (unify_in_place n x y mst) as [[[[]|e] m1]|]; try done.
Qed.

(** The meter does not change what the unifier does. *)
Lemma unify_metered n t1 t2 mst :
  unmeter_outcome (unify_in_place n t1 t2 mst) = unify_in_place n t1 t2 (unmeter mst).
Proof.
  revert t1 t2 mst. induction n as [|n IH]; [done|]. intros t1 t2 mst.
  rewrite !unify_unfold. unfold apply_subst. rewrite !subst_apply_metered. cbn [unmeter infer_subst].
  destruct (subst_apply n _ t1) as [a|]; [|done]. destruct (subst_apply n _ t2) as [b|]; [|done].
  destruct (head_action a b); cbn [run_action]; try done.
  1: cbn [unmeter_outcome]; by rewrite unmeter_bind.
  by apply unify_zip_metered.
Qed.

(** ** Store operations *)

Lemma subst_get_extends m i i' v o :
  extends i i' -> subst_get (mkSubst m i) v = Some o -> subst_get (mkSubst m i') v = Some o.
Proof.
  unfold subst_get; simpl. intros He. destruct (m !! v) as [id|]; [|done].
  destruct (materialize i id) as [t|] eqn:E; [|done]. by rewrite (materialize_extends _ _ _ _ He E).
Qed.

Lemma store_rel_extends s σ i' :
  store_rel s σ -> extends (subst_interner s) i' -> interner_wf i' ->
  store_rel (mkSubst (subst_map s) i') σ.
Proof.
  intros [Hwf Hg] He Hwf'. split; [done|]. intros v. destruct s as [m i].
  by eapply subst_get_extends.
Qed.

Lemma room_fits k s i' : room k s -> length (arena i') <= arena_len s + k -> fits i'.
Proof. unfold room, fits. lia. Qed.

Lemma bs_insert_rel v t s σ (k := ty_nodes t) :
  store_rel s σ -> room k s ->
  store_rel (bs_insert v t s) (bs_insert v t σ) /\
  arena_len (bs_insert v t s) <= arena_len s + k /\
  extends (subst_interner s) (subst_interner (bs_insert v t s)).
Proof.
  intros Hrel Hroom. pose proof (ty_costs t) as Hk. simpl. unfold subst_insert, arena_len in *.
  specialize (Hk (subst_interner s)).
  destruct (intern_ty t (subst_interner s)) as [id i] eqn:E. simpl in *.
  destruct (intern_ty_spec _ _ _ _ E) as [He Hok].
  destruct Hok as [Hwf Hd]; [apply Hrel|by eapply room_fits|].
  split_and!; [|lia|done]. split; [done|]. intros u. unfold subst_get; simpl.
  destruct (decide (v = u)) as [<-|Hne].
  - rewrite !lookup_insert_eq. by rewrite Hd.
  - rewrite !lookup_insert_ne by done.
    apply (store_rel_extends _ _ _ Hrel He Hwf).
Qed.

Lemma bs_note_rel t s σ (k := ty_nodes t) :
  store_rel s σ -> room k s ->
  store_rel (bs_note_ty t s) (bs_note_ty t σ) /\
  arena_len (bs_note_ty t s) <= arena_len s + k /\
  extends (subst_interner s) (subst_interner (bs_note_ty t s)).
Proof.
  intros Hrel Hroom. pose proof (ty_costs t) as Hk. simpl. unfold arena_len in *. specialize (Hk (subst_interner s)).
  destruct (intern_ty t (subst_interner s)) as [id i] eqn:E. simpl in *.
  destruct (intern_ty_spec _ _ _ _ E) as [He Hok].
  destruct Hok as [Hwf Hd]; [apply Hrel|by eapply room_fits|].
  split_and!; [|lia|done]. by apply store_rel_extends.
Qed.

Lemma subst_apply_rel n s σ t : store_rel s σ -> subst_apply n s t = subst_apply n σ t.
Proof.
  intros Hrel. revert t. induction n as [|n IH]; [done|]. intros [i k].
  destruct (kind_is_var k) eqn:Hk.
  - destruct k; try done. cbn [subst_apply]. simpl. rewrite (rel_get _ _ Hrel).
    by destruct (σ !! id).
  - rewrite !subst_apply_node by done.
    by rewrite (mapM_ext (subst_apply n s) (subst_apply n σ) (vparts k)).
Qed.

(** ** Running the unifier *)

(** A metered run can be followed by the code's store when the interner has
    room for what the run spends. *)
Definition follows (st : TypeInfer Subst) (c : @Outcome Subst) (mst : metered)
    (r : result unit TypeckError) (mst' : metered) : Prop :=
  exists st', c = Some (r, st') /\ infer_rel st' (unmeter mst') /\
    arena_len (infer_subst st') + spent mst <= arena_len (infer_subst st) + spent mst' /\
    extends (subst_interner (infer_subst st)) (subst_interner (infer_subst st')).

(** [st] implements [mst] and has room until the meter shows [limit]. *)
Definition backs (limit : nat) (st : TypeInfer Subst) (mst : metered) : Prop :=
  infer_rel st (unmeter mst) /\ room (limit - spent mst) (infer_subst st).

Lemma follows_refl r st mst :
  infer_rel st (unmeter mst) -> follows st (Some (r, st)) mst r mst.
Proof. intros Hr. exists st. split_and!; done. Qed.

Lemma bind_var_forward v t (mst : metered) :
  spent mst <= spent (bind_var v t mst) /\
  forall st, backs (spent (bind_var v t mst)) st mst ->
    follows st (Some (Ok tt, bind_var v t st)) mst (Ok tt) (bind_var v t mst).
Proof.
  unfold bind_var, follows, backs, spent. destruct (contains_var v t) eqn:Ecv; simpl; (split; [lia|]).
  - intros st [[Hid Hvid Herr Hrel] Hroom]. simpl in *. eexists; split; [reflexivity|]. simpl.
    set (e := mkTy (next_ty_id st) TError).
    destruct (bs_note_rel e _ _ Hrel) as (Hrel1 & Hlen1 & Hext1); [unfold room in *; simpl; lia|].
    destruct (bs_insert_rel v e _ _ Hrel1) as (Hrel2 & Hlen2 & Hext2);
      [unfold room in *; simpl in *; lia|].
    split_and!; [|simpl in *; lia|by etrans]. split; simpl; [congruence|done|congruence|done].
  - intros st [[Hid Hvid Herr Hrel] Hroom]. simpl in *. eexists; split; [reflexivity|]. simpl.
    destruct (bs_insert_rel v t _ _ Hrel) as (Hrel1 & Hlen1 & Hext1); [unfold room in *; lia|].
    split_and!; [|simpl in *; lia|done]. by split.
Qed.

Definition rec_forward n : Prop := forall t1 t2 (mst : metered) r mst',
  unify_in_place n t1 t2 mst = Some (r, mst') ->
  spent mst <= spent mst' /\
  forall st, backs (spent mst') st mst -> follows st (unify_in_place n t1 t2 st) mst r mst'.

Lemma unify_zip_forward n l1 l2 : rec_forward n -> forall mst r mst',
  unify_zip (unify_in_place n) l1 l2 mst = Some (r, mst') ->
  spent mst <= spent mst' /\
  forall st, backs (spent mst') st mst ->
    follows st (unify_zip (unify_in_place n) l1 l2 st) mst r mst'.
Proof.
  intros Hrec. revert l2.
  induction l1 as [|x l1 IH]; intros [|y l2] mst r mst'; cbn [unify_zip];
    try (intros [= <- <-]; split; [lia|]; intros st [Hr _]; by apply follows_refl).
  destruct (unify_in_place n x y mst) as [[[[]|e] m1]|] eqn:E; [| |done].
  - intros Hz. destruct (Hrec _ _ _ _ _ E) as [L1 H1]. destruct (IH _ _ _ _ Hz) as [L2 H2].
    split; [lia|]. intros st [Hr Hroom].
    destruct (H1 st) as (st1 & -> & Hr1 & Hlen1 & Hext1); [split; [done|unfold room in *; lia]|].
    destruct (H2 st1) as (st2 & -> & Hr2 & Hlen2 & Hext2); [split; [done|unfold room in *; lia]|].
    exists st2. split_and!; [done..|lia|by etrans].
  - intros [= <- <-]. destruct (Hrec _ _ _ _ _ E) as [L1 H1]. split; [done|].
    intros st [Hr Hroom].
    destruct (H1 st) as (st1 & -> & [Hid Hvid Herr Hrel] & Hlen1 & Hext1); [by split|].
    eexists. split; [reflexivity|]. split_and!; [|done|done]. split; simpl; [done..|].
    apply store_rel_extends; [apply Hr|done|apply Hrel].
Qed.

Lemma unify_forward n : rec_forward n.
Proof.
  induction n as [|n IH]; [done|]. intros t1 t2 mst r mst'. rewrite unify_unfold. unfold apply_subst.
  rewrite !subst_apply_metered.
  destruct (subst_apply n _ t1) as [a|] eqn:E1; [|done].
  destruct (subst_apply n _ t2) as [b|] eqn:E2; [|done]. intros Hrun.
  assert (spent mst <= spent mst' /\ forall st, backs (spent mst') st mst ->
    follows st (run_action (unify_in_place n) (head_action a b) st) mst r mst') as [L Hk].
  { destruct (head_action a b) as [|v t|x y|l1 l2|e]; cbn [run_action] in *.
    - simplify_eq. split; [lia|]. intros st [Hr _]. by apply follows_refl.
    - simplify_eq. apply bind_var_forward.
    - by apply IH.
    - by apply unify_zip_forward.
    - simplify_eq. split; [lia|]. intros st [Hr _]. by apply follows_refl. }
  split; [done|]. intros st Hb. rewrite unify_unfold. unfold apply_subst.
  rewrite !(subst_apply_rel _ _ _ _ (rel_store _ _ (proj1 Hb))). cbn [unmeter infer_subst].
  rewrite E1, E2. by apply Hk.
Qed.

(** ** A finite universe of variables *)

Definition within (U : gset TyVarId) (t : Ty) : Prop := inU (fun v => v ∈ U) t.

Lemma within_mono (U V : gset TyVarId) t : U ⊆ V -> within U t -> within V t.
Proof. intros HUV HU w Hw. by apply HUV, HU. Qed.

Lemma universe_list ts :
  Forall (fun t => exists U, within U t) ts -> exists U, Forall (within U) ts.
Proof.
  induction 1 as [|t l [V HV] _ [U HU]]; [by exists ∅|]. exists (U ∪ V).
  constructor; [by eapply within_mono; [|exact HV]; set_solver|].
  eapply Forall_impl; [exact HU|]. intros x. apply within_mono. set_solver.
Qed.

Lemma ty_universe t : exists U : gset TyVarId, within U t.
Proof.
  induction t as [i k IH] using Ty_children_ind. destruct (kind_is_var k) eqn:Hk.
  - destruct k; try done. exists {[id]}. intros w ->%Nat.eqb_eq. set_solver.
  - apply universe_list in IH as [U HU]. exists U. intros w (t & Ht & Hw)%contains_var_part_inv; [|done].
    apply (proj1 (Forall_forall _ _) HU t); [by apply vparts_children|done].
Qed.

Lemma store_universe (σ : gmap TyVarId Ty) :
  exists U : gset TyVarId, forall v t, σ !! v = Some t -> within U t.
Proof.
  induction σ as [|v t σ Hv [U HU]] using map_ind; [by exists ∅|].
  destruct (ty_universe t) as [V HV]. exists (U ∪ V). intros u t'.
  destruct (decide (v = u)) as [<-|].
  - rewrite lookup_insert_eq. intros [= <-]. eapply within_mono; [|exact HV]. set_solver.
  - rewrite lookup_insert_ne by done. intros E. eapply within_mono; [|by apply (HU u)]. set_solver.
Qed.

Lemma unify_terminates t1 t2 (st : TypeInfer (gmap TyVarId Ty)) :
  acyclic (infer_subst st) -> terminates t1 t2 st.
Proof.
  intros Hac. destruct (ty_universe t1) as [U1 H1]. destruct (ty_universe t2) as [U2 H2].
  destruct (store_universe (infer_subst st)) as [U3 H3].
  destruct (App_total _ t1 Hac) as [a Ha].
  apply (unify_terminates_ready (U1 ∪ U2 ∪ U3) (free_count (U1 ∪ U2 ∪ U3) (infer_subst st)) (vsize a)).
  split_and!; try done.
  - intros v t _ E. eapply within_mono; [|by apply (H3 v)]. set_solver.
  - eapply within_mono; [|exact H1]. set_solver.
  - eapply within_mono; [|exact H2]. set_solver.
  - by exists a.
Qed.

(** ** Total correctness of the code's unifier *)

(** The store's bindings, as the types they stand for, without cycles. *)
Definition models (st : TypeInfer Subst) (σ : gmap TyVarId Ty) : Prop :=
  store_rel (infer_subst st) σ /\ acyclic σ.

(** The metered state that [st] implements, the meter at zero. *)
Definition metered_of (st : TypeInfer Subst) (σ : gmap TyVarId Ty) : metered :=
  mkInfer (next_ty_id st) (next_ty_var_id st) (σ, 0) (infer_errors st).

(** [t1] and [t2] become compatible once the store's bindings are applied. *)
Definition unified (st : TypeInfer Subst) (t1 t2 : Ty) : Prop :=
  exists n a b, apply_subst n st t1 = Some a /\ apply_subst n st t2 = Some b /\ compat a b.

Lemma agree_unified st σ t1 t2 :
  store_rel (infer_subst st) σ -> agree σ t1 t2 -> unified st t1 t2.
Proof.
  intros Hrel (a & b & [n1 Ha] & [n2 Hb] & Hc). exists (n1 `max` n2), a, b. unfold apply_subst.
  rewrite !(subst_apply_rel _ _ _ _ Hrel). split_and!; [| |done].
  - eapply subst_apply_mono; [|exact Ha]. lia.
  - eapply subst_apply_mono; [|exact Hb]. lia.
Qed.

(** C2: [TypeInfer::unify_in_place] is totally correct.  From a store whose
    bindings are acyclic, the unifier over the ideal store returns an answer
    [r] and spends [spent mst'] interner entries; the code's own store, given
    that many free ids, returns the same answer without panicking; it keeps
    every binding it had (also when the answer is an error), the bindings
    stay acyclic, and if the answer is [Ok] the two types are compatible once
    the new bindings are applied. *)
Theorem unify_total_correct (st : TypeInfer Subst) (σ : gmap TyVarId Ty) (t1 t2 : Ty) :
  models st σ ->
  exists n r mst', unify_in_place n t1 t2 (metered_of st σ) = Some (r, mst') /\
    (room (spent mst') (infer_subst st) ->
     exists st', unify_in_place n t1 t2 st = Some (r, st') /\
       models st' (infer_subst mst').1 /\ σ ⊆ (infer_subst mst').1 /\
       (r = Ok tt -> unified st' t1 t2)).
Proof.
  intros [Hrel Hac]. destruct (unify_terminates t1 t2 (unmeter (metered_of st σ)) Hac)
    as (n & r & σst' & E). pose proof (unify_metered n t1 t2 (metered_of st σ)) as EM.
  rewrite E in EM. destruct (unify_in_place n t1 t2 (metered_of st σ)) as [[r' mst']|] eqn:E'; [|done].
  injection EM as -> <-. exists n, r, mst'. split; [done|]. intros Hroom.
  destruct (unify_forward n t1 t2 _ _ _ E') as [_ Hk].
  destruct (Hk st) as (st' & Est & Hr' & _ & _).
  { split; [by split|]. by rewrite Nat.sub_0_r. }
  destruct (unify_grow _ _ _ _ _ _ E) as [Hsub Hac'].
  exists st'. split_and!; [done|split; [apply Hr'|by apply Hac']|done|].
  intros ->. eapply agree_unified; [apply Hr'|]. eapply (unify_sound n); [|exact E]; exact Hac.
Qed.
