(* ===== verification/Instantiate.v ===== *)
(** Instantiation of polymorphic types
    (compiler/src/typeck/infer.rs, [instantiate_with_fresh_vars]): every use
    site gets its own copy of the type variables.  Also the behaviours of the
    inference state that a caller can observe through sequences of calls. *)

From S2P Require Import Prelude Ty Interner Infer Unify Refine.

(** [renamed m t t']: [t'] is [t] with its visible variables replaced along
    [m]; everything else, origin tags of inner nodes included, is kept. *)
Inductive renamed (m : gmap TyVarId TyVarId) : Ty -> Ty -> Prop :=
| renamed_var i j v w :
    m !! v = Some w -> renamed m (mkTy i (TVar v)) (mkTy j (TVar w))
| renamed_node i k cs :
    kind_is_var k = false -> Forall2 (renamed m) (vparts k) cs ->
    renamed m (mkTy i k) (mkTy i (vbuild k cs)).

Lemma renamed_mono m m' : m ⊆ m' -> forall t t', renamed m t t' -> renamed m' t t'.
Proof.
  intros Hsub. fix IH 3. intros t t' [i j v w Hv|i k cs Hk HF].
  - constructor. by eapply lookup_weaken.
  - constructor; [done|]. revert HF. generalize (vparts k). revert cs.
    fix IHF 3. intros cs l [|x y l' cs' Hxy HF]; constructor; [by apply IH|by apply IHF].
Qed.

Section instantiate.
Context {S : Type} `{BindingStore S}.

Definition fresh_ids (μ : gmap TyVarId Ty) : gmap TyVarId TyVarId :=
  omap (fun t => match ty_kind t with TVar w => Some w | _ => None end) μ.

(** The map built so far sends variables to distinct fresh ones. *)
Record fresh_map (c0 : nat) (ms : gmap TyVarId Ty * TypeInfer S) : Prop := {
  fm_var : forall v t, ms.1 !! v = Some t -> exists i w, t = mkTy i (TVar w) /\
             c0 <= w < next_ty_var_id ms.2;
  fm_inj : forall v v' w, fresh_ids ms.1 !! v = Some w -> fresh_ids ms.1 !! v' = Some w -> v = v';
  fm_counter : c0 <= next_ty_var_id ms.2;
}.

Lemma fresh_ids_lookup c0 ms v i w :
  fresh_map c0 ms -> ms.1 !! v = Some (mkTy i (TVar w)) -> fresh_ids ms.1 !! v = Some w.
Proof. intros _ E. unfold fresh_ids. by rewrite lookup_omap, E. Qed.

Lemma fresh_ids_inv c0 ms v w :
  fresh_map c0 ms -> fresh_ids ms.1 !! v = Some w -> c0 <= w < next_ty_var_id ms.2.
Proof.
  intros Hm. unfold fresh_ids. rewrite lookup_omap.
  destruct (ms.1 !! v) as [t|] eqn:E; [|done]. simpl.
  destruct (fm_var _ _ Hm _ _ E) as (i & w' & -> & Hr). by intros [= <-].
Qed.

(** What instantiating [t] from [ms] to [ms'] achieves. *)
Record inst_step (c0 : nat) (vars : TyVarId -> Prop)
    (ms ms' : gmap TyVarId Ty * TypeInfer S) : Prop := {
  is_map : fresh_map c0 ms';
  is_grow : ms.1 ⊆ ms'.1;
  is_dom : forall v, is_Some (ms'.1 !! v) <-> is_Some (ms.1 !! v) \/ vars v;
}.

Lemma fresh_ids_mono (μ μ' : gmap TyVarId Ty) : μ ⊆ μ' -> fresh_ids μ ⊆ fresh_ids μ'.
Proof.
  intros Hsub. apply map_subseteq_spec. intros v w. unfold fresh_ids. rewrite !lookup_omap.
  destruct (μ !! v) as [t|] eqn:E; [|done]. by rewrite (lookup_weaken _ _ _ _ E Hsub).
Qed.

Lemma fresh_map_extend c0 ms v : fresh_map c0 ms -> ms.1 !! v = None ->
  fresh_map c0 (<[v := (fresh_ty_var ms.2).1]> ms.1, (fresh_ty_var ms.2).2).
Proof.
  intros Hm Hv. pose proof (fm_counter _ _ Hm).
  assert (Hlook : forall u, fresh_ids (<[v := (fresh_ty_var ms.2).1]> ms.1) !! u =
            if decide (v = u) then Some (next_ty_var_id ms.2) else fresh_ids ms.1 !! u).
  { intros u. unfold fresh_ids. rewrite !lookup_omap. destruct (decide (v = u)) as [<-|Hne].
    - by rewrite lookup_insert_eq.
    - by rewrite lookup_insert_ne. }
  split; simpl.
  - intros u t. destruct (decide (v = u)) as [<-|Hne].
    + rewrite lookup_insert_eq. intros [= <-]. eexists _, _. split; [done|lia].
    + rewrite lookup_insert_ne by done. intros E.
      destruct (fm_var _ _ Hm _ _ E) as (i & w & -> & ?). eexists _, _. split; [done|lia].
  - intros u u' w. rewrite !Hlook.
    repeat case_decide; subst; intros E E'; simplify_eq; try done.
    + apply (fresh_ids_inv _ _ _ _ Hm) in E'. lia.
    + apply (fresh_ids_inv _ _ _ _ Hm) in E. lia.
    + by apply (fm_inj _ _ Hm _ _ w).
  - lia.
Qed.

Lemma traverse_app {St A B} (f : A -> St -> B * St) l1 l2 s :
  traverse f (l1 ++ l2) s =
    let '(ys, s1) := traverse f l1 s in
    let '(zs, s2) := traverse f l2 s1 in (ys ++ zs, s2).
Proof.
  revert s. induction l1 as [|x l1 IH]; intros s; cbn [app traverse].
  - by destruct (traverse f l2 s).
  - destruct (f x s) as [y s1]. rewrite IH. destruct (traverse f l1 s1) as [ys s2].
    by destruct (traverse f l2 s2).
Qed.

Lemma traverse_length {St A B} (f : A -> St -> B * St) l s ys s1 :
  traverse f l s = (ys, s1) -> length ys = length l.
Proof.
  revert s ys. induction l as [|x l IH]; intros s ys; cbn [traverse]; [by intros [= <- <-]|].
  destruct (f x s) as [y s2]. destruct (traverse f l s2) as [ys' s3] eqn:E.
  intros [= <- <-]. simpl. f_equal. by eapply IH.
Qed.

Lemma instantiate_node i k ms : kind_is_var k = false ->
  instantiate_fresh_impl (mkTy i k) ms =
    let '(cs, ms1) := traverse instantiate_fresh_impl (vparts k) ms in
    (mkTy i (vbuild k cs), ms1).
Proof.
  destruct k; try done; intros _; cbn [instantiate_fresh_impl vparts traverse]; try done;
    try (by destruct (instantiate_fresh_impl _ ms)); try (by destruct (traverse _ _ ms)).
  rewrite traverse_app. destruct (traverse _ params ms) as [ps ms1] eqn:E. cbn [traverse].
  destruct (instantiate_fresh_impl ret ms1) as [r ms2]. cbn [vbuild]. rewrite last_snoc.
  by rewrite take_app_length' by (symmetry; eapply traverse_length; exact E).
Qed.

Definition inst_ok (c0 : nat) (t : Ty) : Prop := forall ms t' ms',
  fresh_map c0 ms -> instantiate_fresh_impl t ms = (t', ms') ->
  inst_step c0 (fun v => contains_var v t = true) ms ms' /\ renamed (fresh_ids ms'.1) t t'.

Lemma traverse_inst c0 ts : Forall (inst_ok c0) ts -> forall ms ts' ms',
  fresh_map c0 ms -> traverse instantiate_fresh_impl ts ms = (ts', ms') ->
  inst_step c0 (fun v => existsb (contains_var v) ts = true) ms ms' /\
  Forall2 (renamed (fresh_ids ms'.1)) ts ts'.
Proof.
  induction 1 as [|t ts Ht _ IH]; intros ms ts' ms' Hm; cbn [traverse].
  - intros [= <- <-]. split; [|done]. split; [done..|]. intros v. simpl. intuition congruence.
  - destruct (instantiate_fresh_impl t ms) as [t1 ms1] eqn:E1.
    destruct (traverse _ ts ms1) as [ts1 ms2] eqn:E2. intros [= <- <-].
    destruct (Ht _ _ _ Hm E1) as [[Hm1 Hg1 Hd1] Hr1].
    destruct (IH _ _ _ Hm1 E2) as [[Hm2 Hg2 Hd2] Hr2]. split.
    + split; [done|by etrans|]. intros v. cbn [existsb].
      rewrite Hd2, Hd1, orb_true_iff. tauto.
    + constructor; [|done]. eapply renamed_mono; [|exact Hr1]. by apply fresh_ids_mono.
Qed.

Lemma instantiate_ok c0 t : inst_ok c0 t.
Proof.
  induction t as [i k IH] using Ty_children_ind. intros ms t' ms' Hm.
  destruct (kind_is_var k) eqn:Hk.
  - destruct k; try done. cbn [instantiate_fresh_impl].
    destruct (ms.1 !! id) as [mapped|] eqn:E.
    + intros [= <- <-]. destruct (fm_var _ _ Hm _ _ E) as (j & w & -> & _). split.
      * split; [done..|]. intros v. simpl. rewrite Nat.eqb_eq. split; [tauto|].
        intros [?|<-]; [done|]. by rewrite E.
      * constructor. by eapply fresh_ids_lookup.
    + pose proof (fresh_map_extend _ _ _ Hm E) as Hm'.
      destruct (fresh_ty_var ms.2) as [fresh st1] eqn:Ef. intros [= <- <-]. split.
      * split; [done|by apply insert_subseteq|]. intros v. simpl. rewrite Nat.eqb_eq.
        rewrite lookup_insert_is_Some. destruct (decide (id = v)); tauto.
      * unfold fresh_ty_var in Ef. injection Ef as <- _. constructor.
        eapply fresh_ids_lookup; [exact Hm'|]. apply lookup_insert_eq.
  - rewrite instantiate_node by done.
    destruct (traverse _ (vparts k) ms) as [cs ms1] eqn:E. intros [= <- <-].
    destruct (traverse_inst c0 (vparts k)) with (ms := ms) (ts' := cs) (ms' := ms1)
      as [[Hm1 Hg1 Hd1] Hr1]; [|done..|].
    { apply Forall_forall. intros t Ht. apply (proj1 (Forall_forall _ _) IH).
      by apply vparts_children. }
    split; [split; [done..|]|by constructor]. intros v. rewrite Hd1.
    by rewrite contains_var_node by done.
Qed.

(** Instantiating a polymorphic type renames its variables.  The result
    is the type with every visible variable replaced along the returned map
    (equal occurrences by equal variables); the map is defined exactly on the
    variables of the type, injective, and only hands out variables the
    session had not allocated before the call, so two use sites never share
    one. *)
Theorem instantiate_fresh (ty t' : Ty) (m : gmap TyVarId TyVarId) (st st' : TypeInfer S) :
  instantiate_with_fresh_vars_and_map ty st = (t', m, st') ->
  renamed m ty t' /\
  (forall v, is_Some (m !! v) <-> contains_var v ty = true) /\
  (forall v v' w, m !! v = Some w -> m !! v' = Some w -> v = v') /\
  (forall v w, m !! v = Some w -> next_ty_var_id st <= w < next_ty_var_id st').
Proof.
  unfold instantiate_with_fresh_vars_and_map.
  destruct (instantiate_fresh_impl ty (∅, st)) as [t1 [μ st1]] eqn:E. intros [= <- <- <-].
  assert (Hm0 : fresh_map (next_ty_var_id st) (∅, st)).
  { split; simpl; [intros ? ?; by rewrite lookup_empty|intros v v' w|lia].
    unfold fresh_ids. by rewrite lookup_omap, lookup_empty. }
  destruct (instantiate_ok _ _ _ _ _ Hm0 E) as [[Hm _ Hd] Hr]. split_and!; [done| | |].
  - intros v. change (omap _ μ) with (fresh_ids μ). unfold fresh_ids. rewrite lookup_omap.
    specialize (Hd v). simpl in Hd. rewrite lookup_empty in Hd.
    destruct (μ !! v) as [t|] eqn:Ev; simpl.
    + destruct (fm_var _ _ Hm _ _ Ev) as (i & w & -> & _). simpl. split; [|done].
      intros _. destruct Hd as [Hd _]. destruct Hd as [[? ?]|]; done.
    + split; [by intros [? ?]|]. intros Hc. destruct Hd as [_ Hd].
      destruct (Hd (or_intror Hc)). done.
  - apply (fm_inj _ _ Hm).
  - intros v w. apply (fresh_ids_inv _ _ _ _ Hm).
Qed.
End instantiate.

(** ** Sessions *)

(** A session without bindings. *)
Definition empty_session : TypeInfer Subst := mkInfer 0 0 (subst_new interner_new) [].

Definition reset_subst (st : TypeInfer Subst) : TypeInfer Subst :=
  set_subst (subst_new (subst_interner (infer_subst st))) st.

Lemma empty_session_models : models empty_session ∅.
Proof.
  split; [split; [apply interner_new_wf|done]|]. exists (fun _ => 0). intros v t w. by rewrite lookup_empty.
Qed.

Definition var_ty (tag v : nat) : Ty := mkTy tag (TVar v).
Definition int_ty (tag : nat) : Ty := mkTy tag (TInt I32).
Definition bool_ty (tag : nat) : Ty := mkTy tag TBool.

Definition instantiate_sample : Ty := mkTy 7 (TFn [var_ty 1 0; var_ty 2 0; var_ty 3 1] (int_ty 4) false).

Definition instantiate_sample_out : Ty := mkTy 7 (TFn [var_ty 0 2; var_ty 0 2; var_ty 1 3] (int_ty 4) false).

Lemma instantiate_fresh_witness :
  renamed {[0 := 2; 1 := 3]} instantiate_sample instantiate_sample_out.
Proof.
  refine (proj1 (instantiate_fresh instantiate_sample instantiate_sample_out {[0 := 2; 1 := 3]}
    (mkInfer 0 2 (∅ : gmap TyVarId Ty) []) (mkInfer 2 4 (∅ : gmap TyVarId Ty) []) _)).
  vm_compute. reflexivity.
Defined.

(** Calls in sequence, each from the state the previous one left. *)
Fixpoint unify_all (n : nat) (pairs : list (Ty * Ty)) (st : TypeInfer Subst)
    : option (list (result unit TypeckError) * TypeInfer Subst) :=
  match pairs with
  | [] => Some ([], st)
  | (a, b) :: pairs' =>
      let* (r, st1) := unify_in_place n a b st in
      let* (rs, st2) := unify_all n pairs' st1 in
      Some (r :: rs, st2)
  end.

(** Unifying the same two variables twice is not idempotent.  The second
    call compares the stored variable (whose origin tag was reset to 0 by
    interning) with the original one, does not see that they are the same
    variable, records [CyclicType] and binds it to the error type; from then
    on it unifies with [i32] and with [bool] alike. *)
Theorem unify_twice_cyclic :
  exists st', unify_all 10 [(var_ty 5 0, var_ty 6 1); (var_ty 5 0, var_ty 6 1);
                            (var_ty 6 1, int_ty 7); (var_ty 6 1, bool_ty 8)] empty_session =
    Some ([Ok tt; Ok tt; Ok tt; Ok tt], st') /\
  infer_errors st' = [CyclicType] /\
  apply_subst 10 st' (var_ty 6 1) = Some (mkTy 0 TError).
Proof. eexists. split; [vm_compute; reflexivity|]. split; vm_compute; reflexivity. Qed.

(** A type variable below [Future] is invisible to instantiation: the
    same variable is handed to every use site, and unifying through it fails
    although the substitution would make the two types equal. *)
Theorem future_opaque (v tag : nat) (st : TypeInfer Subst) :
  let t := mkTy tag (TFuture (var_ty tag v)) in
  instantiate_with_fresh_vars t st = (t, st) /\
  apply_subst 1 st t = Some t /\
  unify_in_place 2 t (mkTy tag (TFuture (int_ty tag))) st =
    Some (Err (TypeMismatch (TFuture (int_ty tag)) (TFuture (var_ty tag v))), st).
Proof.
  split_and!; [done..|]. rewrite unify_unfold. unfold apply_subst. cbn [subst_apply].
  unfold head_action. destruct (ty_eqb _ _) eqn:E; [|done]. apply ty_eqb_eq in E. done.
Qed.

(** A failed unification of tuples is not atomic: the components before
    the failing one keep the bindings they made. *)
Theorem failed_tuple_keeps_prefix :
  let t1 := mkTy 5 (TTuple [var_ty 6 0; int_ty 7]) in
  let t2 := mkTy 8 (TTuple [bool_ty 9; bool_ty 10]) in
  exists st', unify_in_place 10 t1 t2 empty_session =
    Some (Err (TypeMismatch TBool (TInt I32)), st') /\
  apply_subst 10 st' (var_ty 6 0) = Some (mkTy 0 TBool).
Proof. eexists. split; [vm_compute; reflexivity|]. vm_compute. reflexivity. Qed.

Lemma unify_total_correct_witness :
  let t1 := mkTy 5 (TTuple [var_ty 6 0; int_ty 7]) in
  let t2 := mkTy 8 (TTuple [bool_ty 9; var_ty 10 1]) in
  models empty_session ∅ /\
  exists n r mst', unify_in_place n t1 t2 (metered_of empty_session ∅) = Some (r, mst') /\
    (room (spent mst') (infer_subst empty_session) ->
     exists st', unify_in_place n t1 t2 empty_session = Some (r, st') /\
       models st' (infer_subst mst').1 /\ ∅ ⊆ (infer_subst mst').1 /\
       (r = Ok tt -> unified st' t1 t2)).
Proof.
  split; [exact empty_session_models|].
  apply (unify_total_correct empty_session ∅
    (mkTy 5 (TTuple [var_ty 6 0; int_ty 7])) (mkTy 8 (TTuple [bool_ty 9; var_ty 10 1]))).
  exact empty_session_models.
Defined.
