(* ===== verification/Mir.v ===== *)
(** The MIR data model: compiler/src/mir/{inst,bb,op,mod}.rs, and what it
    means to run a block of it.

    The source's [Vec<Instruction>] arena with blocks of instruction ids is
    kept: passes rewrite the arena in place.  Constructors carry a prefix
    ([I], [T], [C], [M], [B]) where the source's names clash. *)

From S2P Require Import Prelude.

Local Open Scope Z_scope.

(** ** Types *)

Inductive MIRType :=
| MUnit | MNever | MBool
| MInt (bits : Z) | MUInt (bits : Z) | MFloat (bits : Z)
| MRef (t : MIRType) | MPtr (t : MIRType) | MArray (t : MIRType) (n : Z)
| MTuple (ts : list MIRType)
| MFn (params : list MIRType) (ret : MIRType)
| MStruct (name : string) (fields : list (string * MIRType))
| MEnum (discr_type : MIRType) (variants : list (Z * option MIRType))
| MFuture (t : MIRType).

#[export] Instance MIRType_eq_dec : EqDecision MIRType.
Proof.
  refine (fix go (a b : MIRType) {struct a} : Decision (a = b) :=
    let _ : EqDecision MIRType := @go in
    match a, b with
    | MUnit, MUnit | MNever, MNever | MBool, MBool => left eq_refl
    | MInt x, MInt y | MUInt x, MUInt y | MFloat x, MFloat y => cast_if (decide (x = y))
    | MRef x, MRef y | MPtr x, MPtr y | MFuture x, MFuture y => cast_if (decide (x = y))
    | MArray x n, MArray y m => cast_if_and (decide (x = y)) (decide (n = m))
    | MTuple xs, MTuple ys => cast_if (decide (xs = ys))
    | MFn ps r, MFn ps' r' => cast_if_and (decide (ps = ps')) (decide (r = r'))
    | MStruct n fs, MStruct n' fs' => cast_if_and (decide (n = n')) (decide (fs = fs'))
    | MEnum d vs, MEnum d' vs' => cast_if_and (decide (d = d')) (decide (vs = vs'))
    | _, _ => right _
    end); congruence.
Defined.

Definition mir_pointer (t : MIRType) : MIRType := MPtr t.

Definition mir_tuple (ts : list MIRType) : MIRType :=
  match ts with [] => MUnit | _ => MTuple ts end.

Definition is_enum (t : MIRType) : bool := match t with MEnum _ _ => true | _ => false end.

Definition enum_variant_count (t : MIRType) : nat :=
  match t with MEnum _ variants => length variants | _ => 0 end.

(** ** Operators and constants *)

Inductive MirUnOp := MNeg | MNot | MBitNot.

Inductive MirBinOp :=
| BAdd | BSub | BMul | BDiv | BRem
| BBitAnd | BBitOr | BBitXor | BShl | BShr
| BLogAnd | BLogOr
| BEq | BNe | BLt | BGt | BLe | BGe.

#[export] Instance MirBinOp_eq_dec : EqDecision MirBinOp.
Proof. solve_decision. Defined.

Definition is_comparison (op : MirBinOp) : bool :=
  match op with BEq | BNe | BLt | BGt | BLe | BGe => true | _ => false end.
Definition is_arithmetic (op : MirBinOp) : bool :=
  match op with BAdd | BSub | BMul | BDiv | BRem => true | _ => false end.
Definition is_bitwise (op : MirBinOp) : bool :=
  match op with BBitAnd | BBitOr | BBitXor | BShl | BShr => true | _ => false end.

(** A float is its bit pattern, a char its scalar value. *)
Inductive MirConstant :=
| CUnit
| CBool (b : bool)
| CInt (n : Z)
| CUint (n : Z)
| CFloat (bits : Z)
| CChar (c : Z)
| CString (s : string)
| CBytes (bs : list Z)
| CGlobalRef (s : string).

Definition constant_ty (c : MirConstant) : MIRType :=
  match c with
  | CUnit => MUnit
  | CBool _ => MBool
  | CInt _ => MInt 64
  | CUint _ => MUInt 64
  | CFloat _ => MFloat 64
  | CChar _ => MInt 32
  | CString _ => mir_pointer (MInt 8)
  | CBytes bs => MArray (MInt 8) (Z.of_nat (length bs))
  | CGlobalRef _ => mir_pointer MUnit
  end.

(** ** Locals and instructions *)

Inductive LocalKind := LReturn | LParam | LTemp | LUser.

Record Local := mkLocal {
  local_id : Z;
  local_kind : LocalKind;
}.

#[export] Instance LocalKind_eq_dec : EqDecision LocalKind.
Proof. solve_decision. Defined.
#[export] Instance Local_eq_dec : EqDecision Local.
Proof. solve_decision. Defined.

Definition local_kind_code (k : LocalKind) : Z :=
  match k with LReturn => 0 | LParam => 1 | LTemp => 2 | LUser => 3 end.
Definition local_kind_decode (z : Z) : option LocalKind :=
  if z =? 0 then Some LReturn else if z =? 1 then Some LParam
  else if z =? 2 then Some LTemp else if z =? 3 then Some LUser else None.

#[export] Instance Local_countable : Countable Local.
Proof.
  apply (inj_countable (fun l => (local_id l, local_kind_code (local_kind l)))
           (fun '(i, k) => k ← local_kind_decode k; Some (mkLocal i k))).
  by intros [i []].
Defined.

(** [Local::new] asserts that the id fits a [u32]. *)
Definition local_new (id : nat) (kind : LocalKind) : option Local :=
  if Z.of_nat id <? 2 ^ 32 then Some (mkLocal (Z.of_nat id) kind) else None.

Definition return_local : Local := mkLocal 0 LReturn.

Notation InstId := nat (only parsing).

Inductive IntrinsicOp :=
| AddWithOverflow | SubWithOverflow | MulWithOverflow
| Copy (size align : Z) | Compare (size align : Z) | MemMove (size align : Z).

Inductive Instruction :=
| IAssign (destination : Local) (value : MirConstant)
| IUnary (destination : Local) (op : MirUnOp) (operand : Local)
| IBinary (destination : Local) (op : MirBinOp) (left right : Local)
| ILoad (destination source : Local)
| IStore (destination value : Local)
| IAddrOf (destination source : Local)
| IFieldAddr (destination base : Local) (field : Z)
| IIndexAddr (destination base index : Local)
| IExtract (destination value : Local) (index : Z)
| IInsert (destination value : Local) (field : Z) (new_value : Local)
| ICast (destination value : Local) (to : MIRType)
| IBitcast (destination value : Local) (to : MIRType)
| IAggregate (destination : Local) (fields : list Local) (ty : MIRType)
| ICall (destination : Local) (func : string) (args : list Local)
| ICallIndirect (destination func_ptr : Local) (args : list Local)
| IIntrinsic (destination : option Local) (intrinsic : IntrinsicOp) (args : list Local)
| IDiscriminant (destination source : Local)
| IEnumConstruct (destination : Local) (discriminant : Z) (payload : option Local) (enum_type : MIRType)
| IExtractPayload (destination source : Local)
| IPhi (destination : Local) (incoming : list (Local * nat))
| INop.

Definition destination (inst : Instruction) : option Local :=
  match inst with
  | IAssign d _ | IUnary d _ _ | IBinary d _ _ _ | ILoad d _ | IAddrOf d _ | IFieldAddr d _ _
  | IIndexAddr d _ _ | IExtract d _ _ | IInsert d _ _ _ | ICast d _ _ | IBitcast d _ _
  | IAggregate d _ _ | ICall d _ _ | ICallIndirect d _ _ | IDiscriminant d _
  | IEnumConstruct d _ _ _ | IExtractPayload d _ | IPhi d _ => Some d
  | IIntrinsic d _ _ => d
  | IStore _ _ | INop => None
  end.

(** ** Blocks and functions *)

Inductive CallArg := ArgLocal (l : Local) | ArgConstant (c : MirConstant).

Inductive Terminator :=
| TReturn (l : option Local)
| TGoto (target : nat)
| TIf (cond : Local) (then_block else_block : nat)
| TSwitch (discr : Local) (targets : list (Z * nat)) (otherwise : nat)
| TCall (func : string) (args : list CallArg) (dest : Local) (target : nat)
| TBreak (target : nat)
| TContinue (target : nat)
| TUnreachable
| TSuspend (poll_func : string) (future_handle dest : Local) (ready_block pending_block : nat).

Record BasicBlock := mkBlock {
  block_id : nat;
  block_insts : list InstId;
  terminator : option Terminator;
  terminator_source_site : option Z;
}.

Definition block_new (id : nat) : BasicBlock := mkBlock id [] None None.
Definition block_push (i : InstId) (b : BasicBlock) : BasicBlock :=
  mkBlock (block_id b) (block_insts b ++ [i]) (terminator b) (terminator_source_site b).
Definition set_terminator (t : Terminator) (b : BasicBlock) : BasicBlock :=
  mkBlock (block_id b) (block_insts b) (Some t) None.
Definition set_terminator_at (t : Terminator) (site : option Z) (b : BasicBlock) : BasicBlock :=
  mkBlock (block_id b) (block_insts b) (Some t) site.
Definition set_insts (l : list InstId) (b : BasicBlock) : BasicBlock :=
  mkBlock (block_id b) l (terminator b) (terminator_source_site b).

Record MirFunction := mkFunction {
  fn_name : string;
  fn_params : list MIRType;
  fn_return_type : MIRType;
  fn_locals : list (Local * MIRType);
  basic_blocks : list BasicBlock;
  instructions : list Instruction;
  instruction_source_sites : list (option Z);
  debug_hidden : gset InstId;
  local_debug_names : gmap nat string;
  start_block : nat;
  is_async : bool;
}.

Definition with_blocks (bs : list BasicBlock) (f : MirFunction) : MirFunction :=
  mkFunction (fn_name f) (fn_params f) (fn_return_type f) (fn_locals f) bs (instructions f)
    (instruction_source_sites f) (debug_hidden f) (local_debug_names f) (start_block f) (is_async f).
Definition with_insts (insts : list Instruction) (f : MirFunction) : MirFunction :=
  mkFunction (fn_name f) (fn_params f) (fn_return_type f) (fn_locals f) (basic_blocks f) insts
    (instruction_source_sites f) (debug_hidden f) (local_debug_names f) (start_block f) (is_async f).

Definition function_new (name : string) (params : list MIRType) (ret : MIRType) : MirFunction :=
  mkFunction name params ret
    ((mkLocal 0 LReturn, ret) ::
     imap (fun i ty => (mkLocal (Z.of_nat (S i)) LParam, ty)) params)
    [block_new 0] [] [] ∅ ∅ 0 false.

Definition add_local (kind : LocalKind) (ty : MIRType) (f : MirFunction) : option (Local * MirFunction) :=
  let* local := local_new (length (fn_locals f)) kind in
  Some (local,
    mkFunction (fn_name f) (fn_params f) (fn_return_type f) (fn_locals f ++ [(local, ty)]) (basic_blocks f)
      (instructions f) (instruction_source_sites f) (debug_hidden f) (local_debug_names f)
      (start_block f) (is_async f)).

Definition add_block (f : MirFunction) : nat * MirFunction :=
  let id := length (basic_blocks f) in
  (id, with_blocks (basic_blocks f ++ [block_new id]) f).

Definition alloc_inst (inst : Instruction) (f : MirFunction) : option (InstId * MirFunction) :=
  let id := length (instructions f) in
  if Z.of_nat id <? 2 ^ 32 then
    Some (id,
      mkFunction (fn_name f) (fn_params f) (fn_return_type f) (fn_locals f) (basic_blocks f)
        (instructions f ++ [inst]) (instruction_source_sites f ++ [None]) (debug_hidden f)
        (local_debug_names f) (start_block f) (is_async f))
  else None.

Definition set_instruction_source_site (id : InstId) (site : option Z) (f : MirFunction) : MirFunction :=
  mkFunction (fn_name f) (fn_params f) (fn_return_type f) (fn_locals f) (basic_blocks f) (instructions f)
    (<[id := site]> (instruction_source_sites f)) (debug_hidden f) (local_debug_names f)
    (start_block f) (is_async f).

Definition push_inst_to_block_at (block : nat) (inst : Instruction) (site : option Z) (f : MirFunction)
    : option MirFunction :=
  let* (id, f) := alloc_inst inst f in
  let f := set_instruction_source_site id site f in
  Some (with_blocks (alter (block_push id) block (basic_blocks f)) f).

Definition push_inst_to_block (block : nat) (inst : Instruction) (f : MirFunction) : option MirFunction :=
  let* (id, f) := alloc_inst inst f in
  Some (with_blocks (alter (block_push id) block (basic_blocks f)) f).

(** Indexing the arena panics on an unknown id. *)
Definition instruction (f : MirFunction) (id : InstId) : option Instruction := instructions f !! id.

Definition block_instructions (f : MirFunction) (b : BasicBlock) : option (list Instruction) :=
  mapM (instruction f) (block_insts b).

(** ** Running a block

    What codegen/instruction_helpers.rs emits for the instructions the
    optimizer looks at.  [Codegen] is what the generator prepares for a
    function: its locals (the source of types and names) and the temporaries
    that are assigned more than once.  User locals and those temporaries are
    stack slots in memory, any other local is a register; [slot] is a slot's
    address.  [None] is a panic, undefined behaviour or IR that LLVM rejects.
    Every other instruction is a parameter: an arbitrary partial function on
    states. *)

Record Codegen := mkCodegen {
  cg_locals : list (Local * MIRType);
  mutable_stack_locals : gset Z;
}.

Definition assigned_id (inst : Instruction) : option Z :=
  match inst with IAssign d _ => Some (local_id d) | _ => None end.

Definition assign_count (x : Z) (insts : list Instruction) : nat :=
  length (filter (fun i => assigned_id i = Some x) insts).

Definition prepare_mutable_stack_locals (f : MirFunction) : gset Z :=
  list_to_set (filter (fun x => (1 < assign_count x (instructions f))%nat) (omap assigned_id (instructions f))).

Definition codegen_for (f : MirFunction) : Codegen :=
  mkCodegen (fn_locals f) (prepare_mutable_stack_locals f).

(** [Codegen::get_local_type]: by index, [i64] outside the table. *)
Definition local_type (cg : Codegen) (l : Local) : MIRType :=
  match cg_locals cg !! Z.to_nat (local_id l) with
  | Some (_, ty) => ty
  | None => MInt 64
  end.

Definition is_user (l : Local) : bool := match local_kind l with LUser => true | _ => false end.

Definition local_uses_stack_slot (cg : Codegen) (l : Local) : bool :=
  match cg_locals cg !! Z.to_nat (local_id l) with
  | Some (info, _) => is_user info || bool_decide (local_id l ∈ mutable_stack_locals cg)
  | None => false
  end.

(** LLVM names consist of an id and a kind, as locals do.  The name cache has,
    for each id, the last local of the table with that id. *)
Definition local_name (cg : Codegen) (l : Local) : Local :=
  default l (last (filter (fun l' => local_id l' = local_id l) (map fst (cg_locals cg)))).

Inductive IntegerOverflowMode := ReleaseWrapping | DebugChecked.

Inductive Val :=
| VInt (z : Z)
| VConst (c : MirConstant).

Record State := mkMState {
  env : gmap Local Val;
  mem : gmap Z Val;
}.

Definition integer_bit_width (ty : MIRType) : option Z :=
  match ty with MInt w | MUInt w => Some w | _ => None end.

Definition should_emit_integer_overflow_check (mode : IntegerOverflowMode) (op : MirBinOp) (ty : MIRType) : bool :=
  match mode with
  | DebugChecked =>
      match op with BAdd | BSub | BMul => true | _ => false end &&
      match integer_bit_width ty with Some w => w <=? 64 | None => false end
  | ReleaseWrapping => false
  end.

(** An integer as a value of the type. *)
Definition wrap_ty (ty : MIRType) (z : Z) : Z :=
  match ty with
  | MInt w => wrap_s w z
  | MUInt w => wrap_u w z
  | _ => z
  end.

Definition fits_ty (ty : MIRType) (z : Z) : bool := wrap_ty ty z =? z.

Definition const_val (ty : MIRType) (c : MirConstant) : Val :=
  match c with
  | CInt n | CUint n | CChar n => VInt (wrap_ty ty n)
  | CBytes _ => VInt 0
  | c => VConst c
  end.

(** The integer instruction at the operands' type: [add], [sub] and [mul] wrap
    unless they are checked, division by zero and an overflowing division are
    a panic or undefined. *)
Definition arith (mode : IntegerOverflowMode) (op : MirBinOp) (ty : MIRType) (a b : Z) : option Z :=
  let wrapping z :=
    if should_emit_integer_overflow_check mode op ty && negb (fits_ty ty z) then None
    else Some (wrap_ty ty z) in
  let dividing z := if (b =? 0) || negb (fits_ty ty (Z.quot a b)) then None else Some z in
  match op with
  | BAdd => wrapping (a + b)
  | BSub => wrapping (a - b)
  | BMul => wrapping (a * b)
  | BDiv => dividing (Z.quot a b)
  | BRem => dividing (Z.rem a b)
  | _ => None
  end.

Definition pointee (ty : MIRType) : option MIRType :=
  match ty with MPtr t | MRef t => Some t | _ => None end.

Definition is_unit_value (ty : MIRType) : bool :=
  match ty with MUnit | MNever | MTuple [] => true | _ => false end.

(** The types [emit_value_copy] can copy. *)
Definition copyable (ty : MIRType) : bool :=
  match ty with
  | MBool | MInt _ | MUInt _ | MFuture _ | MFloat _ | MRef _ | MPtr _ | MFn _ _ => true
  | _ => false
  end.

(** Memory at a type: a unit value takes no space. *)
Definition load_mem (ty : MIRType) (addr : Z) (s : State) : option Val :=
  if is_unit_value ty then Some (VConst CUnit) else mem s !! addr.

Definition store_mem (ty : MIRType) (addr : Z) (v : Val) (s : State) : State :=
  if is_unit_value ty then s else mkMState (env s) (<[addr := v]> (mem s)).

Section semantics.
Context (mode : IntegerOverflowMode).
Context (slot : Local -> Z).
Context (other : Codegen -> Instruction -> State -> option State).
Context (cg : Codegen).
Notation ty_of := (local_type cg).
Notation slot_of l := (slot (local_name cg l)) (only parsing).

Definition operand_value (l : Local) (s : State) : option Val :=
  if is_unit_value (ty_of l) then Some (VConst CUnit)
  else if local_uses_stack_slot cg l then mem s !! slot_of l
  else env s !! local_name cg l.

(** [%t = ...]: only a register can be the result of an instruction. *)
Definition set_register (l : Local) (v : Val) (s : State) : option State :=
  if local_uses_stack_slot cg l then None
  else Some (mkMState (<[local_name cg l := v]> (env s)) (mem s)).

Definition exec_assign (d : Local) (c : MirConstant) (s : State) : option State :=
  let v := const_val (ty_of d) c in
  if local_uses_stack_slot cg d then Some (store_mem (ty_of d) (slot_of d) v s) else set_register d v s.

(** Indexing the table of locals panics outside of it.  A temporary in a stack
    slot cannot be loaded from: its name is the slot's address. *)
Definition exec_load (d src : Local) (s : State) : option State :=
  let* (info, src_ty) := cg_locals cg !! Z.to_nat (local_id src) in
  match is_user info, pointee src_ty with
  | true, Some inner =>
      match mem s !! slot_of src with
      | Some (VInt addr) => let* v := load_mem inner addr s in set_register d v s
      | _ => None
      end
  | true, None => let* v := load_mem src_ty (slot_of src) s in set_register d v s
  | false, Some inner =>
      if local_uses_stack_slot cg src then None
      else
        match env s !! local_name cg src with
        | Some (VInt addr) => let* v := load_mem inner addr s in set_register d v s
        | _ => None
        end
  | false, None =>
      if local_uses_stack_slot cg src || negb (copyable (ty_of d)) then None
      else let* v := env s !! local_name cg src in set_register d v s
  end.

Definition exec_store (dst v : Local) (s : State) : option State :=
  if bool_decide (dst = v) then Some s
  else
    let* x := operand_value v s in
    if bool_decide (pointee (ty_of dst) = Some (ty_of v)) then
      match operand_value dst s with
      | Some (VInt addr) => Some (store_mem (ty_of v) addr x s)
      | _ => None
      end
    else if local_uses_stack_slot cg dst then Some (store_mem (ty_of v) (slot_of dst) x s) else None.

Definition exec_inst (inst : Instruction) (s : State) : option State :=
  match inst with
  | IAssign d c => exec_assign d c s
  | IBinary d op l r =>
      match operand_value l s, operand_value r s with
      | Some (VInt a), Some (VInt b) =>
          if is_arithmetic op && is_some (integer_bit_width (ty_of l)) then
            let* z := arith mode op (ty_of l) a b in set_register d (VInt z) s
          else other cg inst s
      | _, _ => other cg inst s
      end
  | ILoad d src => exec_load d src s
  | IStore dst v => exec_store dst v s
  | inst => other cg inst s
  end.

Fixpoint exec_insts (insts : list Instruction) (s : State) : option State :=
  match insts with
  | [] => Some s
  | i :: insts' => let* s1 := exec_inst i s in exec_insts insts' s1
  end.
End semantics.
