(* ===== verification/Opt.v ===== *)
(** The MIR optimizer: compiler/src/mir/opt.rs.  The passes rewrite the
    instruction arena and the blocks' id lists in place; the theorems say that
    every block of the function still runs to the same state. *)

From S2P Require Import Prelude Mir.

Local Open Scope Z_scope.

(** ** The passes *)

Inductive MirOptLevel := O0 | O1 | O2 | O3.

Definition opt_level_from_u8 (level : Z) : option MirOptLevel :=
  if level =? 0 then Some O0 else if level =? 1 then Some O1
  else if level =? 2 then Some O2 else if level =? 3 then Some O3 else None.

(** [dyn MirPass]; [None] is the panic of an invalid instruction id. *)
Record MirPass := mkPass {
  pass_name : string;
  pass_run : MirFunction -> option (MirFunction * bool);
}.

Definition fold_binary (op : MirBinOp) (left right : MirConstant) : option MirConstant :=
  match op, left, right with
  | BAdd, CInt a, CInt b => Some (CInt (wrap_s 64 (a + b)))
  | BSub, CInt a, CInt b => Some (CInt (wrap_s 64 (a - b)))
  | BMul, CInt a, CInt b => Some (CInt (wrap_s 64 (a * b)))
  | BDiv, CInt a, CInt b => if b =? 0 then None else Some (CInt (wrap_s 64 (Z.quot a b)))
  | BRem, CInt a, CInt b => if b =? 0 then None else Some (CInt (wrap_s 64 (Z.rem a b)))
  | _, _, _ => None
  end.

(** One block: the arena and the constants known so far. *)
Fixpoint fold_block (ids : list InstId) (arena : list Instruction) (known : gmap Local MirConstant)
    (changed : bool) : option (list Instruction * bool) :=
  match ids with
  | [] => Some (arena, changed)
  | id :: ids' =>
      let* inst := arena !! id in
      match inst with
      | IAssign d value => fold_block ids' arena (<[d := value]> known) changed
      | IBinary d op l r =>
          match known !! l, known !! r with
          | Some lc, Some rc =>
              match fold_binary op lc rc with
              | Some res =>
                  fold_block ids' (<[id := IAssign d res]> arena) (<[d := res]> known) true
              | None => fold_block ids' arena known changed
              end
          | _, _ => fold_block ids' arena known changed
          end
      | _ => fold_block ids' arena known changed
      end
  end.

Fixpoint fold_blocks (bs : list BasicBlock) (arena : list Instruction) (changed : bool)
    : option (list Instruction * bool) :=
  match bs with
  | [] => Some (arena, changed)
  | b :: bs' =>
      let* (arena, changed) := fold_block (block_insts b) arena ∅ changed in
      fold_blocks bs' arena changed
  end.

Definition constant_folding_run (f : MirFunction) : option (MirFunction * bool) :=
  let* (arena, changed) := fold_blocks (basic_blocks f) (instructions f) false in
  Some (with_insts arena f, changed).

Definition ConstantFolding : MirPass := mkPass "constant_folding" constant_folding_run.

(** A load followed by the store of the loaded local to the loaded address. *)
Definition redundant (load store : Instruction) : bool :=
  match load, store with
  | ILoad d src, IStore dst v => bool_decide (d = v) && bool_decide (src = dst)
  | _, _ => false
  end.

Fixpoint rlse_ids (arena : list Instruction) (ids : list InstId) : option (list InstId * bool) :=
  match ids with
  | load_id :: ((store_id :: rest) as tail) =>
      let* load := arena !! load_id in
      let* store := arena !! store_id in
      if redundant load store then
        let* (optimized, _) := rlse_ids arena rest in Some (load_id :: optimized, true)
      else
        let* (optimized, changed) := rlse_ids arena tail in Some (load_id :: optimized, changed)
  | ids => Some (ids, false)
  end.

Fixpoint rlse_blocks (arena : list Instruction) (bs : list BasicBlock) (changed : bool)
    : option (list BasicBlock * bool) :=
  match bs with
  | [] => Some ([], changed)
  | b :: bs' =>
      let* (ids, block_changed) := rlse_ids arena (block_insts b) in
      let b' := if block_changed then set_insts ids b else b in
      let* (rest, changed) := rlse_blocks arena bs' (changed || block_changed) in
      Some (b' :: rest, changed)
  end.

Definition rlse_run (f : MirFunction) : option (MirFunction * bool) :=
  let* (bs, changed) := rlse_blocks (instructions f) (basic_blocks f) false in
  Some (with_blocks bs f, changed).

Definition RedundantLoadStoreElimination : MirPass := mkPass "redundant_load_store_elimination" rlse_run.

(** ** Pipelines *)

Definition OptPipeline : Type := list MirPass.

Definition pipeline_new : OptPipeline := [].
Definition add_pass (p : MirPass) (pl : OptPipeline) : OptPipeline := pl ++ [p].
Definition pass_count (pl : OptPipeline) : nat := length pl.

Fixpoint run_passes (pl : OptPipeline) (f : MirFunction) : option MirFunction :=
  match pl with
  | [] => Some f
  | p :: pl' => let* (f, _) := pass_run p f in run_passes pl' f
  end.

Definition pipeline_run (pl : OptPipeline) (funcs : list MirFunction) : option (list MirFunction) :=
  mapM (run_passes pl) funcs.

Definition pipeline_for_level (level : MirOptLevel) : OptPipeline :=
  match level with
  | O0 => pipeline_new
  | O1 => add_pass ConstantFolding pipeline_new
  | O2 | O3 =>
      add_pass RedundantLoadStoreElimination
        (add_pass ConstantFolding (add_pass RedundantLoadStoreElimination pipeline_new))
  end.

(** ** What a pass may rely on *)

(** The other instructions leave every register but their destination alone. *)
Definition respects_destination (other : Codegen -> Instruction -> State -> option State) : Prop :=
  forall cg inst s s' x, other cg inst s = Some s' ->
    (forall d, destination inst = Some d -> local_name cg d <> x) -> env s' !! x = env s !! x.

(** The registers a list of instructions defines. *)
Definition registers (cg : Codegen) (insts : list Instruction) : list Local :=
  map (local_name cg) (filter (fun d => local_uses_stack_slot cg d = false) (omap destination insts)).

Definition operands (inst : Instruction) : list Local := match inst with IBinary _ _ l r => [l; r] | _ => [] end.

Definition assigned (inst : Instruction) : option Local := match inst with IAssign d _ => Some d | _ => None end.

(** A local in a stack slot that the block assigns is no operand of an
    operation of the block. *)
Definition slots_ok (cg : Codegen) (insts : list Instruction) : Prop :=
  forall x, x ∈ concat (map operands insts) -> local_uses_stack_slot cg x = true -> x ∉ omap assigned insts.

Definition result_id (inst : Instruction) : option Z :=
  match inst with IAssign d _ | IBinary d _ _ _ => Some (local_id d) | _ => None end.

Definition arithmetic_operand (arena : list Instruction) (x : Local) : Prop :=
  exists j d op l r, arena !! j = Some (IBinary d op l r) /\ is_arithmetic op = true /\ (x = l \/ x = r).

(** What the optimizer relies on.  Blocks draw their instructions from the
    arena, each used once; a block defines a register at most once (SSA) and
    has no operation on a stack slot it assigns; integer constants fit [i64],
    those that are operands of arithmetic are of type [i64], and arithmetic on
    [i64] has an [i64] result; the result of an operation is a register no
    other operation and no assignment defines; a load has the type of what it
    loads.  Constants of other integer types, as default_value_for_type
    (mir/lowering/try_expr_helpers.rs) makes them, are allowed when no
    arithmetic has them as operands; where one does, the folding is wrong
    ([narrow_operand_folded_wide]). *)
Record optimizable (f : MirFunction) : Prop := {
  op_ids : NoDup (concat (map block_insts (basic_blocks f)));
  op_valid : forall b, b ∈ basic_blocks f -> is_Some (block_instructions f b);
  op_ssa : forall b insts, b ∈ basic_blocks f -> block_instructions f b = Some insts ->
    NoDup (registers (codegen_for f) insts);
  op_slots : forall b insts, b ∈ basic_blocks f -> block_instructions f b = Some insts ->
    slots_ok (codegen_for f) insts;
  op_const : forall i d n, instructions f !! i = Some (IAssign d (CInt n)) ->
    in_s 64 n;
  op_operand : forall i d n, instructions f !! i = Some (IAssign d (CInt n)) ->
    arithmetic_operand (instructions f) d -> local_type (codegen_for f) d = MInt 64;
  op_arith : forall i d op l r, instructions f !! i = Some (IBinary d op l r) ->
    is_arithmetic op = true -> local_type (codegen_for f) l = MInt 64 -> local_type (codegen_for f) d = MInt 64;
  op_binary_reg : forall i d op l r, instructions f !! i = Some (IBinary d op l r) ->
    local_uses_stack_slot (codegen_for f) d = false;
  op_binary_unique : forall i j d op l r inst, instructions f !! i = Some (IBinary d op l r) ->
    instructions f !! j = Some inst -> result_id inst = Some (local_id d) -> j = i;
  op_load : forall i d src, instructions f !! i = Some (ILoad d src) ->
    local_type (codegen_for f) d
      = default (local_type (codegen_for f) src) (pointee (local_type (codegen_for f) src)) /\
    (local_name (codegen_for f) d = local_name (codegen_for f) src -> d = src);
}.

(** A run that ends without a panic ends in the same state. *)
Definition refines (r r' : option State) : Prop := forall s, r = Some s -> r' = Some s.

Lemma refines_refl r : refines r r.
Proof. by intros s. Qed.
#[export] Hint Resolve refines_refl : sengoo.

Lemma refines_bind r r' (k k' : State -> option State) :
  refines r r' -> (forall s, r = Some s -> refines (k s) (k' s)) ->
  refines (let* s := r in k s) (let* s := r' in k' s).
Proof. intros H Hk s. destruct r as [s1|] eqn:E; [|done]. rewrite (H s1 eq_refl). by apply Hk. Qed.

Section correctness.
Context (mode : IntegerOverflowMode) (slot : Local -> Z).
Context (other : Codegen -> Instruction -> State -> option State) (Hother : respects_destination other).

Definition block_run (f : MirFunction) (b : BasicBlock) (s : State) : option State :=
  let* insts := block_instructions f b in exec_insts mode slot other (codegen_for f) insts s.

(** Same control flow, and every block that runs, runs to the same state. *)
Record same_code (f f' : MirFunction) : Prop := {
  sc_locals : fn_locals f' = fn_locals f;
  sc_start : start_block f' = start_block f;
  sc_blocks : Forall2 (fun b b' => terminator b' = terminator b /\
      forall s, refines (block_run f b s) (block_run f' b' s)) (basic_blocks f) (basic_blocks f');
}.

Lemma same_code_refl f : same_code f f.
Proof. split; [done..|]. apply Forall2_same_length_lookup_2; [done|].
  intros i b b' H1 H2. simplify_eq. split; [done|]. auto with sengoo.
Qed.

Lemma same_code_trans f f' f'' : same_code f f' -> same_code f' f'' -> same_code f f''.
Proof.
  intros [l1 s1 b1] [l2 s2 b2]. split; [congruence..|].
  eapply Forall2_compose; [|exact b1|exact b2]. cbn beta. intros x y z [? H1] [? H2].
  split; [congruence|]. intros s s' Hs. by apply H2, H1.
Qed.

(** *** Constant folding *)

Section folding.
Context (cg : Codegen).
Notation run := (exec_insts mode slot other cg).
Notation ty := (local_type cg).
Notation name := (local_name cg).
Notation stack := (local_uses_stack_slot cg).

Definition consts_ok (arena : list Instruction) (known : gmap Local MirConstant) : Prop :=
  forall l n, known !! l = Some (CInt n) -> in_s 64 n /\ (arithmetic_operand arena l -> ty l = MInt 64).

Definition known_ok (known : gmap Local MirConstant) (s : State) : Prop :=
  forall l c, known !! l = Some c -> stack l = false -> env s !! name l = Some (const_val (ty l) c).

(** What folding may do to one arena slot. *)
Definition folded (i i' : Instruction) : Prop :=
  i' = i \/ exists d op l r n, i = IBinary d op l r /\ i' = IAssign d (CInt n) /\
    stack d = false /\ ty d = MInt 64 /\ in_s 64 n.

Lemma folded_destination i i' : folded i i' -> destination i' = destination i.
Proof. by intros [->|(? & ? & ? & ? & ? & -> & -> & _)]. Qed.

Lemma rem_in_s w a b : (0 < w)%Z -> in_s w a -> b <> 0 -> in_s w (Z.rem a b).
Proof.
  intros Hw Ha Hb. unfold in_s in *. pose proof (Z.rem_bound_abs a b Hb).
  pose proof (Z.pow_pos_nonneg 2 (w - 1) ltac:(lia) ltac:(lia)).
  pose proof (Z.quot_rem' a b). pose proof (Z.rem_sign_mul a b Hb).
  assert (Z.abs (Z.rem a b) <= Z.abs a).
  { rewrite <- Z.rem_abs by done. apply Z.rem_le; lia. }
  nia.
Qed.

(** The folded constant is the value of the operation, when it has one. *)
Lemma fold_binary_arith op lc rc res : fold_binary op lc rc = Some res ->
  exists a b n, lc = CInt a /\ rc = CInt b /\ res = CInt n /\ is_arithmetic op = true /\ in_s 64 n /\
    forall z, in_s 64 a -> arith mode op (MInt 64) a b = Some z -> z = n.
Proof.
  destruct op, lc, rc; try done; simpl; intros E; repeat case_match; try done; injection E as <-;
    eexists _, _, _; (split_and!; try done; try (apply wrap_s_range; lia));
    intros z Ha; unfold arith, fits_ty; cbn [wrap_ty];
    repeat (case_match; try done); intros [= <-]; try done.
  all: try (match goal with H : (_ || _) = false |- _ => apply orb_false_iff in H as [_ H] end;
    apply negb_false_iff, Z.eqb_eq in H0; done).
  by rewrite wrap_s_id by (done || apply rem_in_s; try done; by apply Z.eqb_neq).
Qed.

(** *** One instruction *)

Lemma local_name_id l : local_id (name l) = local_id l.
Proof.
  unfold local_name. destruct (last _) as [l'|] eqn:E; [|done]. cbn.
  apply last_Some_elem_of, list_elem_of_filter in E. apply E.
Qed.

Lemma name_stack l l' : name l = name l' -> stack l = stack l'.
Proof.
  intros E. apply (f_equal local_id) in E. rewrite !local_name_id in E.
  unfold local_uses_stack_slot. by rewrite E.
Qed.

Lemma set_register_env d v s s' x : set_register cg d v s = Some s' -> name d <> x -> env s' !! x = env s !! x.
Proof.
  unfold set_register. destruct (stack d); [done|]. intros [= <-] Hx. by apply lookup_insert_ne.
Qed.

Lemma store_mem_env t addr v s : env (store_mem t addr v s) = env s.
Proof. unfold store_mem. by destruct (is_unit_value t). Qed.

Lemma exec_load_env d src s s' x : exec_load slot cg d src s = Some s' -> name d <> x -> env s' !! x = env s !! x.
Proof.
  unfold exec_load. intros E Hx.
  repeat (case_match; try done); try (by eapply set_register_env).
Qed.

Lemma exec_store_env dst v s s' : exec_store slot cg dst v s = Some s' -> env s' = env s.
Proof.
  unfold exec_store. repeat (case_match; try done); intros [= <-]; by rewrite ?store_mem_env.
Qed.

Lemma exec_inst_env inst s s' x : exec_inst mode slot other cg inst s = Some s' ->
  (forall d, destination inst = Some d -> name d <> x) -> env s' !! x = env s !! x.
Proof.
  intros E Hd. destruct inst; cbn [exec_inst] in E; try (by eapply Hother).
  - unfold exec_assign in E. destruct (stack _); [|by eapply set_register_env, Hd].
    injection E as <-. by rewrite store_mem_env.
  - repeat (case_match; try done); try (by eapply Hother). by eapply set_register_env, Hd.
  - by eapply exec_load_env, Hd.
  - by rewrite (exec_store_env _ _ _ _ E).
Qed.

(** The registers of the known constants are not defined again. *)
Definition settled (known : gmap Local MirConstant) (xs : list Local) : Prop :=
  forall l c, known !! l = Some c -> stack l = false -> name l ∉ xs.

Lemma registers_cons inst insts : registers cg (inst :: insts) =
  match destination inst with
  | Some d => if stack d then registers cg insts else name d :: registers cg insts
  | None => registers cg insts
  end.
Proof.
  unfold registers. cbn [omap list_omap]. destruct (destination inst) as [d|]; [|done].
  rewrite filter_cons. destruct (stack d); [by rewrite decide_False|by rewrite decide_True].
Qed.

Lemma settled_tail known inst insts : settled known (registers cg (inst :: insts)) ->
  settled known (registers cg insts).
Proof.
  intros Hs l c Hl Hst Hin. apply (Hs l c Hl Hst). rewrite registers_cons.
  destruct (destination inst) as [d|]; [destruct (stack d)|]; try done. by right.
Qed.

Lemma settled_destination known inst insts l c d : settled known (registers cg (inst :: insts)) ->
  known !! l = Some c -> stack l = false -> destination inst = Some d -> name d <> name l.
Proof.
  intros Hs Hl Hst Hd E. apply (Hs l c Hl Hst). rewrite registers_cons, Hd.
  rewrite (name_stack d l E), Hst, E. by left.
Qed.

Lemma settled_insert known d c inst insts : settled known (registers cg (inst :: insts)) ->
  NoDup (registers cg (inst :: insts)) -> destination inst = Some d ->
  settled (<[d := c]> known) (registers cg insts).
Proof.
  intros Hs Hnd Hd l c'. rewrite lookup_insert_Some. intros [[<- _]|[_ Hl]] Hst.
  - rewrite registers_cons, Hd, Hst in Hnd. by apply NoDup_cons in Hnd as [? _].
  - by eapply settled_tail.
Qed.

Lemma known_ok_other known inst insts s s' : known_ok known s -> settled known (registers cg (inst :: insts)) ->
  exec_inst mode slot other cg inst s = Some s' -> known_ok known s'.
Proof.
  intros Hk Hs E l c Hl Hst. rewrite (exec_inst_env inst s s' (name l) E); [by apply Hk|].
  intros d Hd. by eapply settled_destination.
Qed.

Lemma known_ok_assign known d c insts s s' : known_ok known s ->
  settled known (registers cg (IAssign d c :: insts)) ->
  exec_assign slot cg d c s = Some s' -> known_ok (<[d := c]> known) s'.
Proof.
  intros Hk Hs E l c'. rewrite lookup_insert_Some. intros [[<- <-]|[Hne Hl]] Hst.
  - unfold exec_assign, set_register in E. rewrite Hst in E. injection E as <-. cbn. by rewrite lookup_insert_eq.
  - by eapply (known_ok_other known (IAssign d c) insts s s').
Qed.

Lemma known_operand arena known l n s : known_ok known s -> consts_ok arena known -> known !! l = Some (CInt n) ->
  stack l = false -> arithmetic_operand arena l ->
  ty l = MInt 64 /\ in_s 64 n /\ operand_value slot cg l s = Some (VInt n).
Proof.
  intros Hk Hc Hl Hst Ha. destruct (Hc _ _ Hl) as [Hn Ht]. specialize (Ht Ha).
  split_and!; [done..|]. unfold operand_value. rewrite Hst, (Hk _ _ Hl Hst), Ht. cbn.
  by rewrite wrap_s_id.
Qed.

(** The folded instruction computes what the operation computed. *)
Lemma fold_step arena known id d op l r lc rc res s :
  arena !! id = Some (IBinary d op l r) -> known_ok known s -> consts_ok arena known -> known !! l = Some lc -> known !! r = Some rc ->
  stack l = false -> stack r = false ->
  fold_binary op lc rc = Some res -> stack d = false -> ty d = MInt 64 ->
  refines (exec_inst mode slot other cg (IBinary d op l r) s) (exec_inst mode slot other cg (IAssign d res) s).
Proof.
  intros Ei Hk Hc El Er Sl Sr Ef Hu Td.
  destruct (fold_binary_arith _ _ _ _ Ef) as (a & b & n & -> & -> & -> & Hop & Hn & Ha).
  destruct (known_operand _ _ _ _ _ Hk Hc El Sl) as (Tl & Ra & Vl); [by exists id, d, op, l, r; auto|].
  destruct (known_operand _ _ _ _ _ Hk Hc Er Sr) as (_ & _ & Vr); [by exists id, d, op, l, r; auto|].
  cbn [exec_inst]. rewrite Vl, Vr, Hop, Tl. cbn [integer_bit_width is_some andb].
  intros s'. destruct (arith _ _ _ _ _) as [z|] eqn:E; [|done]. rewrite (Ha z Ra eq_refl).
  unfold exec_assign. rewrite Hu, Td. cbn [const_val wrap_ty]. by rewrite wrap_s_id.
Qed.

(** *** The arena *)

Record arena_ok (arena : list Instruction) : Prop := {
  ar_const : forall i d n, arena !! i = Some (IAssign d (CInt n)) -> in_s 64 n;
  ar_operand : forall i d n, arena !! i = Some (IAssign d (CInt n)) -> arithmetic_operand arena d -> ty d = MInt 64;
  ar_arith : forall i d op l r, arena !! i = Some (IBinary d op l r) -> is_arithmetic op = true ->
    ty l = MInt 64 -> ty d = MInt 64;
  ar_binary_reg : forall i d op l r, arena !! i = Some (IBinary d op l r) -> stack d = false;
  ar_unique : forall i j d op l r inst, arena !! i = Some (IBinary d op l r) ->
    arena !! j = Some inst -> result_id inst = Some (local_id d) -> j = i;
}.

Definition untouched (arena arena' : list Instruction) (ids : list InstId) : Prop :=
  (forall j, j ∉ ids -> arena' !! j = arena !! j) /\
  (forall j, option_Forall2 folded (arena !! j) (arena' !! j)).

Lemma untouched_refl arena ids : untouched arena arena ids.
Proof. split; [done|]. intros j. destruct (arena !! j); constructor. by left. Qed.

Lemma folded_trans i1 i2 i3 : folded i1 i2 -> folded i2 i3 -> folded i1 i3.
Proof.
  intros [->|(d & op & l & r & n & -> & -> & ? & ? & ?)] [->|(d' & op' & l' & r' & n' & E & E' & ? & ? & ?)];
    simplify_eq; try (by left); right; by eexists _, _, _, _, _.
Qed.

Lemma untouched_trans a1 a2 a3 ids ids' : untouched a1 a2 ids -> untouched a2 a3 ids' ->
  untouched a1 a3 (ids ++ ids').
Proof.
  intros [H1 F1] [H2 F2]. split.
  - intros j Hj. rewrite elem_of_app in Hj. rewrite H2, H1 by tauto. done.
  - intros j. specialize (F1 j). specialize (F2 j).
    destruct F1; inversion F2; subst; try constructor. by eapply folded_trans.
Qed.

Lemma untouched_insert arena id i i' : arena !! id = Some i -> folded i i' ->
  untouched arena (<[id := i']> arena) [id].
Proof.
  intros E Hf. split.
  - intros j Hj. rewrite list_lookup_insert_ne; [done|]. intros ->. apply Hj. by left.
  - intros j. destruct (decide (id = j)) as [<-|].
    + rewrite list_lookup_insert_eq by (by eapply lookup_lt_Some). rewrite E. by constructor.
    + rewrite list_lookup_insert_ne by done. destruct (arena !! j); constructor. by left.
Qed.

(** An instruction of the new arena is the old one, or a folded constant. *)
Lemma untouched_inv arena arena' ids j i' : untouched arena arena' ids -> arena' !! j = Some i' ->
  arena !! j = Some i' \/ exists d op l r n, arena !! j = Some (IBinary d op l r) /\ i' = IAssign d (CInt n) /\
    stack d = false /\ ty d = MInt 64 /\ in_s 64 n.
Proof.
  intros [_ HF] E. specialize (HF j). rewrite E in HF. inversion HF as [x y Hf Ex Ey|]; subst.
  destruct Hf as [<-|(d & op & l & r & n & -> & -> & Hr)]; [by left|]. right. by eexists _, _, _, _, _.
Qed.

Lemma folded_result i i' : folded i i' -> result_id i' = result_id i.
Proof. by intros [->|(? & ? & ? & ? & ? & -> & -> & _)]. Qed.

(** Folding leaves fewer operations. *)
Lemma operand_folded arena arena' ids x : untouched arena arena' ids -> arithmetic_operand arena' x -> arithmetic_operand arena x.
Proof.
  intros Hu (j & d & op & l & r & E & H). exists j, d, op, l, r. split; [|done].
  by destruct (untouched_inv _ _ _ _ _ Hu E) as [E'|(? & ? & ? & ? & ? & _ & [=] & _)].
Qed.

Lemma arena_ok_folded arena arena' ids : arena_ok arena -> untouched arena arena' ids -> arena_ok arena'.
Proof.
  intros [H1 Ho H2 H3 H4] Hu. split; intros * E;
    destruct (untouched_inv _ _ _ _ _ Hu E) as [E'|(d' & op' & l' & r' & n' & E' & Ei & Hd' & Ht' & Hn')];
    eauto using operand_folded; simplify_eq; try done.
  intros Ej Hr. pose proof (proj2 Hu j) as Hf. rewrite Ej in Hf. inversion Hf as [x y Hx Ex Ey|]; subst.
  apply folded_result in Hx. eapply H4; [done..|]. congruence.
Qed.

(** Folding does not change which temporaries are assigned more than once. *)
Definition assigned_twice (x : Z) (arena : list Instruction) : Prop :=
  exists i j a b, (i < j)%nat /\ arena !! i = Some a /\ arena !! j = Some b /\
    assigned_id a = Some x /\ assigned_id b = Some x.

Lemma assigned_id_result inst x : assigned_id inst = Some x -> result_id inst = Some x.
Proof. by destruct inst. Qed.

Lemma untouched_assigned arena arena' ids i a x : untouched arena arena' ids ->
  arena !! i = Some a -> assigned_id a = Some x -> arena' !! i = Some a.
Proof.
  intros [_ HF] E Ha. specialize (HF i). rewrite E in HF. inversion HF as [y z Hf Ey Ez|]; subst.
  destruct Hf as [-> |(? & ? & ? & ? & ? & -> & _)]; done.
Qed.

Lemma untouched_twice arena arena' ids x : arena_ok arena -> untouched arena arena' ids ->
  assigned_twice x arena <-> assigned_twice x arena'.
Proof.
  intros Hok Hu. split; intros (i & j & a & b & Hij & Ei & Ej & Ha & Hb).
  - exists i, j, a, b. split_and!; try done; by eapply untouched_assigned.
  - destruct (untouched_inv _ _ _ _ _ Hu Ei) as [Ei'|(d & op & l & r & n & Ei' & -> & _)].
    + destruct (untouched_inv _ _ _ _ _ Hu Ej) as [Ej'|(d & op & l & r & n & Ej' & -> & _)].
      * by exists i, j, a, b.
      * injection Hb as <-. pose proof (ar_unique _ Hok _ _ _ _ _ _ _ Ej' Ei' (assigned_id_result _ _ Ha)). lia.
    + injection Ha as <-. pose proof (proj2 Hu j) as Hf. rewrite Ej in Hf. inversion Hf as [y z Hy Ey Ez|]; subst.
      apply folded_result in Hy. rewrite (assigned_id_result _ _ Hb) in Hy.
      pose proof (ar_unique _ Hok _ _ _ _ _ _ _ Ei' (eq_sym Ey) (eq_sym Hy)). lia.
Qed.

Notation fetch arena ids := (mapM (fun i => arena !! i) ids) (only parsing).

Lemma fetch_same (arena arena' : list Instruction) ids : (forall j, j ∈ ids -> arena' !! j = arena !! j) ->
  fetch arena' ids = fetch arena ids.
Proof.
  intros HF. induction ids as [|i ids IH]; [done|]. cbn [mapM]. rewrite HF by (by left).
  destruct (arena !! i); [|done]. simpl. rewrite IH; [done|]. intros j Hj. apply HF. by right.
Qed.

(** *** One block *)

Definition fold_ok (ids : list InstId) (arena : list Instruction) (known : gmap Local MirConstant)
    (ch : bool) (insts : list Instruction) : Prop :=
  exists arena' ch' insts', fold_block ids arena known ch = Some (arena', ch') /\
    untouched arena arena' ids /\ fetch arena' ids = Some insts' /\
    forall s, known_ok known s -> refines (run insts s) (run insts' s).

(** The first instruction is kept as it is. *)
Lemma fold_keep id ids arena known known' ch inst insts :
  arena !! id = Some inst -> id ∉ ids ->
  fold_block (id :: ids) arena known ch = fold_block ids arena known' ch ->
  fold_ok ids arena known' ch insts ->
  (forall s s1, known_ok known s -> exec_inst mode slot other cg inst s = Some s1 -> known_ok known' s1) ->
  fold_ok (id :: ids) arena known ch (inst :: insts).
Proof.
  intros E Hid Hb (arena' & ch' & insts' & Hf & Hu & Hm & Hr) Hk.
  exists arena', ch', (inst :: insts'). split_and!; [congruence| | |].
  - destruct Hu as [Hu1 Hu2]. split; [|done]. intros j Hj. apply Hu1. set_solver.
  - cbn [mapM]. rewrite (proj1 Hu) by done. rewrite E. simpl. by rewrite Hm.
  - intros s Hs. cbn [exec_insts]. apply refines_bind; [auto with sengoo|].
    intros s1 E1. apply Hr. by eapply Hk.
Qed.

Lemma consts_ok_folded arena arena' ids known : untouched arena arena' ids -> consts_ok arena known -> consts_ok arena' known.
Proof. intros Hu Hk l n Hl. destruct (Hk l n Hl) as [? Ht]. split; [done|]. intros Ho. by eapply Ht, operand_folded. Qed.

Lemma consts_ok_insert arena known d c : consts_ok arena known ->
  (forall n, c = CInt n -> in_s 64 n /\ (arithmetic_operand arena d -> ty d = MInt 64)) -> consts_ok arena (<[d := c]> known).
Proof. intros Hk Hc l n. rewrite lookup_insert_Some. intros [[<- Hn]|[_ Hl]]; [by apply Hc|by apply Hk]. Qed.

(** No operation of the block has a known operand in a stack slot. *)
Definition unslotted (known : gmap Local MirConstant) (insts : list Instruction) : Prop :=
  forall x, x ∈ concat (map operands insts) -> stack x = true -> known !! x = None.

Lemma unslotted_insert known d c inst insts : unslotted known (inst :: insts) ->
  (stack d = true -> d ∉ concat (map operands insts)) -> unslotted (<[d := c]> known) insts.
Proof.
  intros Hu Hd x Hx Hst. rewrite lookup_insert_ne.
  - apply Hu; [|done]. cbn [map concat]. apply elem_of_app. by right.
  - intros ->. by apply Hd.
Qed.

Lemma unslotted_tail known inst insts : unslotted known (inst :: insts) -> unslotted known insts.
Proof. intros Hu x Hx. apply Hu. cbn [map concat]. apply elem_of_app. by right. Qed.

Lemma slots_ok_tail inst insts : slots_ok cg (inst :: insts) -> slots_ok cg insts.
Proof.
  intros Hs x Hx Hst Hin. apply (Hs x); [cbn [map concat]; apply elem_of_app; by right|done|].
  cbn [omap list_omap]. destruct (assigned inst); [by right|done].
Qed.

Lemma slots_ok_head d c insts : slots_ok cg (IAssign d c :: insts) -> stack d = true ->
  d ∉ concat (map operands insts).
Proof. intros Hs Hst Hin. apply (Hs d); [done..|]. cbn. by left. Qed.

(** The first instruction is an operation that is replaced by its result. *)
Lemma fold_replace id ids arena known ch d op l r lc rc res rest :
  arena !! id = Some (IBinary d op l r) -> id ∉ ids -> arena_ok arena -> consts_ok arena known ->
  settled known (registers cg (IBinary d op l r :: rest)) -> stack l = false -> stack r = false ->
  known !! l = Some lc -> known !! r = Some rc -> fold_binary op lc rc = Some res ->
  (forall arena', arena_ok arena' -> fetch arena' ids = fetch arena ids -> consts_ok arena' (<[d := res]> known) ->
     stack d = false -> fold_ok ids arena' (<[d := res]> known) true rest) ->
  fold_ok (id :: ids) arena known ch (IBinary d op l r :: rest).
Proof.
  intros Ei Hid Hok Hk Hst Sl Sr El Er Ef IH.
  destruct (fold_binary_arith _ _ _ _ Ef) as (a & b & n & -> & -> & -> & Hop & Hn & Ha).
  assert (arithmetic_operand arena l) as Hl by (exists id, d, op, l, r; auto).
  destruct (Hk _ _ El) as [_ Tl]. specialize (Tl Hl).
  pose proof (ar_arith _ Hok _ _ _ _ _ Ei Hop Tl) as Td.
  pose proof (ar_binary_reg _ Hok _ _ _ _ _ Ei) as Ud.
  assert (Hfold : folded (IBinary d op l r) (IAssign d (CInt n))) by (right; by eexists _, _, _, _, _).
  pose proof (untouched_insert arena id _ _ Ei Hfold) as Hu0.
  destruct (IH (<[id := IAssign d (CInt n)]> arena)) as (arena' & ch' & insts' & Hf & Hu & Hm & Hr).
  { by eapply arena_ok_folded. }
  { apply fetch_same. intros j Hj. apply (proj1 Hu0). intros ->%list_elem_of_singleton. done. }
  { apply consts_ok_insert; [by eapply consts_ok_folded|]. by intros m [= <-]. }
  { done. }
  exists arena', ch', (IAssign d (CInt n) :: insts'). split_and!.
  - cbn [fold_block]. by rewrite Ei, El, Er, Ef.
  - exact (untouched_trans arena (<[id := IAssign d (CInt n)]> arena) arena' [id] ids Hu0 Hu).
  - cbn [mapM]. rewrite (proj1 Hu) by done.
    rewrite list_lookup_insert_eq by (by eapply lookup_lt_Some). simpl. by rewrite Hm.
  - intros s Hs. cbn [exec_insts].
    pose proof (fold_step arena known id d op l r _ _ _ s Ei Hs Hk El Er Sl Sr Ef Ud Td) as Hstep.
    apply refines_bind; [done|]. intros s1 E1. apply Hr.
    exact (known_ok_assign _ _ _ rest _ _ Hs Hst (Hstep _ E1)).
Qed.

Lemma fold_block_ok ids : forall arena known ch insts,
  NoDup ids -> arena_ok arena -> fetch arena ids = Some insts -> NoDup (registers cg insts) ->
  settled known (registers cg insts) -> slots_ok cg insts -> unslotted known insts -> consts_ok arena known ->
  fold_ok ids arena known ch insts.
Proof.
  induction ids as [|id ids IH]; intros arena known ch insts Hnd Hok Hm Hss Hset Hsl Huns Hk.
  { cbn [mapM] in Hm. injection Hm as <-. exists arena, ch, [].
    split_and!; [done|apply untouched_refl|done|auto with sengoo]. }
  apply NoDup_cons in Hnd as [Hid Hnd]. cbn [mapM] in Hm.
  destruct (arena !! id) as [inst|] eqn:Ei; [|done]. simpl in Hm.
  destruct (mapM _ ids) as [rest|] eqn:Er; [|done]. simpl in Hm. injection Hm as <-.
  assert (Hss' : NoDup (registers cg rest)).
  { rewrite registers_cons in Hss. repeat case_match; try done. by apply NoDup_cons in Hss as [_ ?]. }
  pose proof (slots_ok_tail _ _ Hsl) as Hsl'.
  assert (Hplain : fold_block (id :: ids) arena known ch = fold_block ids arena known ch ->
    fold_ok (id :: ids) arena known ch (inst :: rest)).
  { intros Hb. eapply fold_keep; [done..| |].
    - apply IH; try done; [by eapply settled_tail|by eapply unslotted_tail].
    - intros s s1 Hs E1. by eapply known_ok_other. }
  destruct inst as [d c| |d op l r| | | | | | | | | | | | | | | | | |];
    try (apply Hplain; cbn [fold_block]; by rewrite Ei).
  - apply (fold_keep id ids arena known (<[d := c]> known)); [done..| | |].
    + cbn [fold_block]. by rewrite Ei.
    + apply IH; try done; [by eapply settled_insert| |].
      * eapply unslotted_insert; [done|]. by eapply slots_ok_head.
      * apply consts_ok_insert; [done|]. intros n ->. split; [by eapply ar_const|]. intros Ho. by eapply ar_operand.
    + intros s s1 Hs. cbn [exec_inst]. by eapply known_ok_assign.
  - destruct (known !! l) as [lc|] eqn:El; [|apply Hplain; cbn [fold_block]; by rewrite Ei, El].
    destruct (known !! r) as [rc|] eqn:Erc; [|apply Hplain; cbn [fold_block]; by rewrite Ei, El, Erc].
    destruct (fold_binary op lc rc) as [res|] eqn:Ef;
      [|apply Hplain; cbn [fold_block]; by rewrite Ei, El, Erc, Ef].
    assert (Sl : stack l = false) by (apply not_true_is_false; intros Hst; rewrite Huns in El; set_solver).
    assert (Sr : stack r = false) by (apply not_true_is_false; intros Hst; rewrite Huns in Erc; set_solver).
    eapply fold_replace; [done..|]. intros arena' Hok' Hf' Hk' Sd.
    apply IH; try done; [congruence|by eapply settled_insert|].
    eapply unslotted_insert; [done|]. by rewrite Sd.
Qed.

(** *** All blocks *)

Definition block_refined (arena arena' : list Instruction) (b : BasicBlock) : Prop :=
  exists insts insts', fetch arena (block_insts b) = Some insts /\ fetch arena' (block_insts b) = Some insts' /\
    forall s, refines (run insts s) (run insts' s).

Lemma fold_blocks_ok bs : forall arena ch,
  NoDup (concat (map block_insts bs)) -> arena_ok arena ->
  (forall b, b ∈ bs -> exists insts, fetch arena (block_insts b) = Some insts /\ NoDup (registers cg insts) /\
     slots_ok cg insts) ->
  exists arena' ch', fold_blocks bs arena ch = Some (arena', ch') /\
    untouched arena arena' (concat (map block_insts bs)) /\ Forall (block_refined arena arena') bs.
Proof.
  induction bs as [|b bs IH]; intros arena ch Hnd Hok Hv.
  { exists arena, ch. split_and!; [done|apply untouched_refl|done]. }
  cbn [map concat] in Hnd. apply NoDup_app in Hnd as (Hb & Hdis & Hbs).
  destruct (Hv b ltac:(by left)) as (insts & Hm & Hss & Hsl).
  destruct (fold_block_ok (block_insts b) arena ∅ ch insts) as (a1 & c1 & insts' & Ef & Hu & Hm' & Hr);
    [done..|]. clear Hss Hsl.
  assert (Hsame : forall b', b' ∈ bs -> fetch a1 (block_insts b') = fetch arena (block_insts b')).
  { intros b' Hb'. apply fetch_same. intros j Hj. apply (proj1 Hu). intros Hj'. apply (Hdis j Hj').
    apply list_elem_of_In, in_concat. exists (block_insts b').
    split; [by apply in_map, list_elem_of_In|by apply list_elem_of_In]. }
  destruct (IH a1 c1) as (a2 & c2 & Efs & Hu2 & HF); [done|by eapply arena_ok_folded| |].
  { intros b' Hb'. destruct (Hv b' ltac:(by right)) as (is' & Hi & Hs & Hs'). exists is'. by rewrite Hsame. }
  exists a2, c2. split_and!.
  - cbn [fold_blocks]. by rewrite Ef.
  - by eapply untouched_trans.
  - constructor.
    + exists insts, insts'. split_and!; [done| |intros s; by apply Hr].
      rewrite (fetch_same a1 a2); [done|]. intros j Hj. apply (proj1 Hu2). by apply Hdis.
    + rewrite Forall_forall in HF |- *. intros b' Hb'. destruct (HF b' Hb') as (x & x' & H1 & H2 & H3).
      exists x, x'. split_and!; [by rewrite <- Hsame|done..].
Qed.

Lemma fetch_folded arena arena' ids0 ids (insts insts' : list Instruction) : untouched arena arena' ids0 ->
  fetch arena ids = Some insts -> fetch arena' ids = Some insts' -> Forall2 folded insts insts'.
Proof.
  intros Hu. revert insts insts'. induction ids as [|i ids IH]; intros insts insts' H1 H2.
  { injection H1 as <-. injection H2 as <-. constructor. }
  cbn [mapM] in H1, H2. pose proof (proj2 Hu i) as Hf.
  destruct (arena !! i) as [x|], (arena' !! i) as [x'|]; try done. simpl in H1, H2.
  destruct (mapM _ ids) as [xs|] eqn:E1; [|done]. destruct (mapM (fun i => arena' !! i) ids) as [xs'|] eqn:E2; [|done].
  simpl in H1, H2. injection H1 as <-. injection H2 as <-. inversion Hf as [? ? Hx|]; subst.
  constructor; [done|by apply IH].
Qed.

Lemma folded_registers insts insts' : Forall2 folded insts insts' -> registers cg insts' = registers cg insts.
Proof.
  unfold registers. intros HF. f_equal. f_equal. induction HF as [|i i' xs xs' Hf _ IH]; [done|].
  cbn [omap list_omap]. by rewrite (folded_destination _ _ Hf), IH.
Qed.

Lemma folded_slots insts insts' : Forall2 folded insts insts' -> slots_ok cg insts -> slots_ok cg insts'.
Proof.
  intros HF Hs x Hx Hst Hin. apply (Hs x); [|done|].
  - clear Hs Hin. induction HF as [|i i' xs xs' Hf _ IH]; [done|]. cbn [map concat] in *.
    apply elem_of_app. apply elem_of_app in Hx as [Hx|Hx]; [|by right; apply IH].
    left. destruct Hf as [-> |(? & ? & ? & ? & ? & _ & -> & _)]; [done|]. by apply elem_of_nil in Hx.
  - clear Hs Hx. induction HF as [|i i' xs xs' Hf _ IH]; [done|]. cbn [omap list_omap] in *.
    destruct Hf as [-> |(d & op & l & r & n & -> & -> & Hd & _)].
    + destruct (assigned i); [|by apply IH]. apply elem_of_cons in Hin as [-> |Hin]; [by left|right; by apply IH].
    + cbn in *. apply elem_of_cons in Hin as [-> |Hin]; [congruence|by apply IH].
Qed.
End folding.

(** *** The prepared temporaries *)

Lemma filter_pos {A} (P : A -> Prop) `{!forall x, Decision (P x)} (l : list A) :
  (0 < length (filter P l))%nat <-> exists i a, l !! i = Some a /\ P a.
Proof.
  induction l as [|y l IH]; [split; [cbn; lia|intros (i & a & Hi & _); done]|].
  rewrite filter_cons. case_decide as Hy; cbn [length].
  - split; [intros _; by exists 0%nat, y|lia].
  - rewrite IH. split; [intros (i & a & ?); by exists (S i), a|].
    intros ([|i] & a & Hi & Ha); cbn in Hi; [by simplify_eq|by exists i, a].
Qed.

Lemma assign_count_twice x arena : (1 < assign_count x arena)%nat <-> assigned_twice x arena.
Proof.
  unfold assign_count, assigned_twice. induction arena as [|y l IH].
  { split; [cbn; lia|]. intros (i & j & a & b & _ & Hi & _). done. }
  rewrite filter_cons. case_decide as Hy; cbn [length].
  - transitivity (0 < length (filter (fun i => assigned_id i = Some x) l))%nat; [lia|]. rewrite filter_pos. split.
    + intros (j & b & Hj & Hb). exists 0%nat, (S j), y, b. split_and!; try done. lia.
    + intros (i & [|j] & a & b & Hij & Hi & Hj & Ha & Hb); [lia|]. by exists j, b.
  - rewrite IH. split; intros (i & j & a & b & Hij & Hi & Hj & Ha & Hb).
    + exists (S i), (S j), a, b. split_and!; try done. lia.
    + destruct i as [|i]; [cbn in Hi; by simplify_eq|]. destruct j as [|j]; [lia|].
      exists i, j, a, b. split_and!; try done. lia.
Qed.

Lemma elem_of_prepared x f : x ∈ prepare_mutable_stack_locals f <-> assigned_twice x (instructions f).
Proof.
  unfold prepare_mutable_stack_locals. rewrite elem_of_list_to_set, list_elem_of_filter, assign_count_twice.
  split; [by intros [? _]|]. intros Ht. split; [done|]. destruct Ht as (i & j & a & b & _ & Hi & _ & Ha & _).
  apply list_elem_of_omap. exists a. split; [by eapply list_elem_of_lookup_2|done].
Qed.

Lemma optimizable_arena f : optimizable f -> arena_ok (codegen_for f) (instructions f).
Proof. intros []. by split. Qed.

(** A folded function is generated in the same way. *)
Lemma codegen_folded f arena' ids : optimizable f ->
  untouched (codegen_for f) (instructions f) arena' ids -> codegen_for (with_insts arena' f) = codegen_for f.
Proof.
  intros Hf Hu. unfold codegen_for. cbn [with_insts fn_locals]. f_equal. apply set_eq. intros x.
  rewrite !elem_of_prepared. symmetry. eapply untouched_twice; [by apply optimizable_arena|exact Hu].
Qed.

(** Folding runs, keeps the function's shape and refines every block. *)
Lemma constant_folding_ok f : optimizable f ->
  exists f' ch, constant_folding_run f = Some (f', ch) /\ same_code f f' /\ optimizable f'.
Proof.
  intros Hf. pose proof (optimizable_arena f Hf) as Hok.
  destruct (fold_blocks_ok (codegen_for f) (basic_blocks f) (instructions f) false)
    as (arena' & ch & E & Hu & HF); [apply Hf|done| |].
  { intros b Hb. destruct (op_valid f Hf b Hb) as [insts Hi]. exists insts.
    split_and!; [done|by eapply op_ssa|by eapply op_slots]. }
  exists (with_insts arena' f), ch. unfold constant_folding_run. rewrite E.
  rewrite Forall_forall in HF. split_and!; [done| |].
  - split; [done..|]. apply Forall2_same_length_lookup_2; [done|]. intros i b b' Hb Hb'. simpl in Hb'. simplify_eq.
    split; [done|]. destruct (HF b ltac:(by eapply list_elem_of_lookup_2)) as (x & x' & H1 & H2 & H3).
    intros s. unfold block_run. rewrite (codegen_folded f arena' _ Hf Hu). unfold block_instructions, instruction. cbn [with_insts instructions].
    rewrite H1, H2. apply H3.
  - destruct (arena_ok_folded _ _ _ _ Hok Hu) as [A1 A2 A3 A4 A5].
    split; rewrite ?(codegen_folded f arena' _ Hf Hu); try done; [apply Hf| | | |].
    + intros b Hb. destruct (HF b Hb) as (x & x' & H1 & H2 & _). by exists x'.
    + intros b insts Hb Hi. destruct (HF b Hb) as (x & x' & H1 & H2 & _).
      rewrite (folded_registers _ x insts) by (by eapply fetch_folded). by apply (op_ssa f Hf b).
    + intros b insts Hb Hi. destruct (HF b Hb) as (x & x' & H1 & H2 & _).
      eapply (folded_slots _ x insts); [by eapply fetch_folded|]. by apply (op_slots f Hf b).
    + intros i d src Hi. destruct (untouched_inv _ _ _ _ _ _ Hu Hi) as [Hi'|(d' & op' & l' & r' & n' & _ & [=] & _)].
      by apply (op_load f Hf i).
Qed.

(** *** Load/store elimination *)

Lemma mapM_sublist {A B} (g : A -> option B) ids ids' xs : ids' `sublist_of` ids -> mapM g ids = Some xs ->
  exists xs', mapM g ids' = Some xs' /\ xs' `sublist_of` xs.
Proof.
  intros Hs. revert xs. induction Hs as [|i l1 l2 Hs IH|i l1 l2 Hs IH]; intros xs; cbn [mapM].
  - intros [= <-]. by exists [].
  - destruct (g i) as [x|]; [|done]. simpl. destruct (mapM g l2) as [ys|] eqn:E; [|done].
    simpl. intros [= <-]. destruct (IH ys eq_refl) as (ys' & -> & H). exists (x :: ys'). split; [done|by constructor].
  - destruct (g i) as [x|]; [|done]. simpl. destruct (mapM g l2) as [ys|] eqn:E; [|done].
    simpl. intros [= <-]. destruct (IH ys eq_refl) as (ys' & -> & H). exists ys'. split; [done|by constructor].
Qed.

Lemma sublist_omap {A B} (g : A -> option B) (l1 l2 : list A) :
  l1 `sublist_of` l2 -> omap g l1 `sublist_of` omap g l2.
Proof. induction 1; cbn [omap list_omap]; [done|destruct (g x); [by constructor|done]..]. Qed.

Lemma sublist_concat {A} (ls ls' : list (list A)) : Forall2 sublist ls' ls -> concat ls' `sublist_of` concat ls.
Proof. induction 1; cbn [concat]; [done|by apply sublist_app]. Qed.

Lemma sublist_filter {A} (P : A -> Prop) `{!forall x, Decision (P x)} (l1 l2 : list A) :
  l1 `sublist_of` l2 -> filter P l1 `sublist_of` filter P l2.
Proof. induction 1; rewrite ?filter_cons; repeat case_decide; try done; by constructor. Qed.

Lemma registers_sublist cg l1 l2 : l1 `sublist_of` l2 -> registers cg l1 `sublist_of` registers cg l2.
Proof. intros Hs. apply (fmap_sublist (local_name cg)). by apply sublist_filter, sublist_omap. Qed.

Lemma slots_ok_sublist cg l1 l2 : slots_ok cg l2 -> l1 `sublist_of` l2 -> slots_ok cg l1.
Proof.
  intros Hs Hl x Hx Hst Hin. apply (Hs x); [|done|].
  - clear -Hl Hx. induction Hl; [done|..]; cbn [map concat] in *; rewrite ?elem_of_app in *; naive_solver.
  - eapply elem_of_sublist; [done|by apply sublist_omap].
Qed.

Section elimination.
Context (cg : Codegen).
Notation run := (exec_insts mode slot other cg).
Notation ty := (local_type cg).
Notation name := (local_name cg).

Definition load_typed (d src : Local) : Prop :=
  ty d = default (ty src) (pointee (ty src)) /\ (name d = name src -> d = src).

(** What a register holds after it was set. *)
Lemma set_register_operand d v s s1 : set_register cg d v s = Some s1 ->
  (is_unit_value (ty d) = true -> v = VConst CUnit) ->
  operand_value slot cg d s1 = Some v /\ mem s1 = mem s /\
  forall x, x <> name d -> env s1 !! x = env s !! x.
Proof.
  unfold set_register, operand_value. destruct (local_uses_stack_slot cg d) eqn:Hd; [done|]. intros [= <-] Hu.
  split_and!; [|done|intros x Hx; by apply lookup_insert_ne].
  destruct (is_unit_value (ty d)); [by rewrite Hu|]. apply lookup_insert_eq.
Qed.

(** Writing back what memory holds changes nothing. *)
Lemma store_loaded t addr v s s1 : load_mem t addr s = Some v -> mem s1 = mem s -> store_mem t addr v s1 = s1.
Proof.
  unfold load_mem, store_mem. destruct (is_unit_value t); [done|]. intros E Em. destruct s1 as [e m]. cbn in *.
  subst m. by rewrite insert_id.
Qed.

Lemma load_mem_unit t addr s v : load_mem t addr s = Some v -> is_unit_value t = true -> v = VConst CUnit.
Proof. unfold load_mem. intros E Hu. rewrite Hu in E. by injection E. Qed.

Lemma pointer_not_unit t inner : pointee t = Some inner -> is_unit_value t = false.
Proof. by destruct t. Qed.

(** Storing back what was just loaded from the same place changes nothing. *)
Lemma writeback_noop d src s s1 s2 : load_typed d src ->
  exec_load slot cg d src s = Some s1 -> exec_store slot cg src d s1 = Some s2 -> s2 = s1.
Proof.
  intros [Ht Hn]. unfold exec_load, exec_store. case_bool_decide as Hsd; [by intros _ [= <-]|].
  assert (Hne : name src <> name d) by (intros E; by apply Hsd, eq_sym, Hn).
  destruct (cg_locals cg !! Z.to_nat (local_id src)) as [[info src_ty]|] eqn:El; [|done].
  assert (Hsrc : ty src = src_ty) by (unfold local_type; by rewrite El).
  assert (Hstack : is_user info = true -> local_uses_stack_slot cg src = true).
  { unfold local_uses_stack_slot. rewrite El. by intros ->. }
  rewrite Hsrc in *. destruct (pointee src_ty) as [inner|] eqn:Hp; cbn in Ht; rewrite Ht.
  - pose proof (pointer_not_unit _ _ Hp) as Hnu. rewrite bool_decide_eq_true_2 by done.
    destruct (is_user info).
    + destruct (mem s !! slot (name src)) as [[addr|]|] eqn:Ea; [|done..].
      destruct (load_mem inner addr s) as [v|] eqn:Ev; [|done]. intros E1.
      destruct (set_register_operand _ _ _ _ E1) as (-> & Em & _); [rewrite Ht; by eapply load_mem_unit|].
      unfold operand_value. rewrite Hsrc, Hnu, Hstack, Em, Ea by done. intros [= <-]. by eapply store_loaded.
    + destruct (local_uses_stack_slot cg src) eqn:Hs; [done|].
      destruct (env s !! name src) as [[addr|]|] eqn:Ea; [|done..].
      destruct (load_mem inner addr s) as [v|] eqn:Ev; [|done]. intros E1.
      destruct (set_register_operand _ _ _ _ E1) as (-> & Em & He); [rewrite Ht; by eapply load_mem_unit|].
      unfold operand_value. rewrite Hsrc, Hnu, Hs, He, Ea by done. intros [= <-]. by eapply store_loaded.
  - rewrite bool_decide_eq_false_2 by done. destruct (is_user info).
    + destruct (load_mem src_ty _ s) as [v|] eqn:Ev; [|done]. intros E1.
      destruct (set_register_operand _ _ _ _ E1) as (-> & Em & _); [rewrite Ht; by eapply load_mem_unit|].
      rewrite Hstack by done. intros [= <-]. by eapply store_loaded.
    + destruct (local_uses_stack_slot cg src); [done|]. intros _. by destruct (operand_value slot cg d s1).
Qed.

Notation fetch arena ids := (mapM (fun i => arena !! i) ids) (only parsing).

Lemma rlse_ids_eq arena i j rest : rlse_ids arena (i :: j :: rest) =
  let* load := arena !! i in
  let* store := arena !! j in
  if redundant load store then
    let* (optimized, _) := rlse_ids arena rest in Some (i :: optimized, true)
  else
    let* (optimized, changed) := rlse_ids arena (j :: rest) in Some (i :: optimized, changed).
Proof. reflexivity. Qed.

Lemma rlse_ids_ok arena n : (forall i d src, arena !! i = Some (ILoad d src) -> load_typed d src) ->
  forall ids insts, (length ids <= n)%nat -> fetch arena ids = Some insts ->
  exists ids' ch insts', rlse_ids arena ids = Some (ids', ch) /\ ids' `sublist_of` ids /\
    fetch arena ids' = Some insts' /\ forall s, refines (run insts s) (run insts' s).
Proof.
  intros Hload. induction n as [|n IH]; intros ids insts Hn Hm.
  { destruct ids; [|simpl in Hn; lia]. exists [], false, insts. auto with sengoo. }
  destruct ids as [|i [|j rest]]; [by exists [], false, insts; auto with sengoo
    |by exists [i], false, insts; auto with sengoo|].
  simpl in Hn. rewrite rlse_ids_eq. cbn [mapM] in Hm.
  destruct (arena !! i) as [x|] eqn:Ei; [|done]. simpl in Hm.
  destruct (arena !! j) as [y|] eqn:Ej; [|done]. simpl in Hm.
  destruct (mapM _ rest) as [zs|] eqn:Er; [|done]. simpl in Hm. injection Hm as <-. cbv beta iota.
  destruct (redundant x y) eqn:Hred.
  - destruct (IH rest zs) as (ids' & ch & insts' & -> & Hs & Hm' & Hr); [lia|done|].
    exists (i :: ids'), true, (x :: insts'). split_and!; [done|by do 2 constructor| |].
    { cbn [mapM]. rewrite Ei. simpl. by rewrite Hm'. }
    destruct x; try done. destruct y; try done. cbn [redundant] in Hred.
    apply andb_true_iff in Hred as [->%bool_decide_eq_true ->%bool_decide_eq_true].
    intros s. cbn [exec_insts exec_inst]. apply refines_bind; [auto with sengoo|]. intros s1 E1.
    intros s' Hs'. destruct (exec_store slot cg destination0 value s1) as [s2|] eqn:E2; [|done].
    rewrite (writeback_noop value destination0 s s1 s2 (Hload _ _ _ Ei) E1 E2) in Hs'. by apply Hr.
  - destruct (IH (j :: rest) (y :: zs)) as (ids' & ch & insts' & E & Hs & Hm' & Hr).
    { simpl. lia. }
    { cbn [mapM]. rewrite Ej. simpl. by rewrite Er. }
    rewrite E. exists (i :: ids'), ch, (x :: insts'). split_and!; [done|by constructor| |].
    + cbn [mapM]. rewrite Ei. simpl. by rewrite Hm'.
    + intros s. cbn [exec_insts]. apply refines_bind; [auto with sengoo|]. intros s1 _. apply Hr.
Qed.
End elimination.

Lemma rlse_blocks_ok f bs : optimizable f -> forall ch, (forall b, b ∈ bs -> b ∈ basic_blocks f) ->
  exists bs' ch', rlse_blocks (instructions f) bs ch = Some (bs', ch') /\
    Forall2 (fun b b' => terminator b' = terminator b /\ block_insts b' `sublist_of` block_insts b /\
      forall s, refines (block_run f b s) (block_run f b' s)) bs bs'.
Proof.
  intros Hf. induction bs as [|b bs IH]; intros ch Hin; [by exists [], ch|].
  destruct (op_valid f Hf b (Hin b ltac:(by left))) as [insts Hm].
  destruct (rlse_ids_ok (codegen_for f) (instructions f) (length (block_insts b)) (op_load f Hf)
    (block_insts b) insts) as (ids' & c & insts' & E & Hs & Hm' & Hr); [lia|done|].
  destruct (IH (ch || c)) as (bs' & ch' & E' & HF); [intros b' Hb'; apply Hin; by right|].
  cbn [rlse_blocks]. rewrite E, E'. exists ((if c then set_insts ids' b else b) :: bs'), ch'.
  split; [done|]. constructor; [|done]. destruct c; [|by split_and!; auto with sengoo].
  split_and!; [done..|]. intros s. unfold block_run. rewrite Hm.
  change (block_instructions f (set_insts ids' b)) with (mapM (fun i => instructions f !! i) ids').
  rewrite Hm'. apply Hr.
Qed.

Lemma rlse_ok f : optimizable f ->
  exists f' ch, rlse_run f = Some (f', ch) /\ same_code f f' /\ optimizable f'.
Proof.
  intros Hf. destruct (rlse_blocks_ok f (basic_blocks f) Hf false) as (bs' & ch & E & HF); [done|].
  exists (with_blocks bs' f), ch. unfold rlse_run. rewrite E. split_and!; [done| |].
  - split; [done..|]. eapply Forall2_impl; [exact HF|]. by intros b b' (? & _ & ?).
  - assert (Hsub : forall b', b' ∈ bs' -> exists b, b ∈ basic_blocks f /\ block_insts b' `sublist_of` block_insts b).
    { intros b' Hb'. apply list_elem_of_lookup_1 in Hb' as [i Hi].
      destruct (Forall2_lookup_r _ _ _ _ _ HF Hi) as (b & Hb & _ & Hs & _).
      exists b. split; [by eapply list_elem_of_lookup_2|done]. }
    destruct Hf as [Hids Hval Hssa Hslot Hc Ho Ha Hr1 Hr2 Hl].
    change (codegen_for f) with (codegen_for (with_blocks bs' f)) in *. split; try done.
    + eapply sublist_NoDup; [exact Hids|]. apply sublist_concat. cbn [with_blocks basic_blocks].
      clear -HF. induction HF as [|b b' bs bs' (_ & Hs & _) _ IH]; simpl; by constructor.
    + intros b' Hb'. destruct (Hsub b' Hb') as (b & Hb & Hs). destruct (Hval b Hb) as [insts Hi].
      destruct (mapM_sublist _ _ _ _ Hs Hi) as (insts' & Hi' & _). by exists insts'.
    + intros b' insts' Hb' Hi'. destruct (Hsub b' Hb') as (b & Hb & Hs). destruct (Hval b Hb) as [insts Hi].
      destruct (mapM_sublist _ _ _ _ Hs Hi) as (x & Hx & Hxs).
      change (mapM (instruction f) (block_insts b') = Some insts') in Hi'.
      rewrite Hi' in Hx. injection Hx as <-.
      eapply sublist_NoDup; [by eapply Hssa|by apply registers_sublist].
    + intros b' insts' Hb' Hi'. destruct (Hsub b' Hb') as (b & Hb & Hs). destruct (Hval b Hb) as [insts Hi].
      destruct (mapM_sublist _ _ _ _ Hs Hi) as (x & Hx & Hxs).
      change (mapM (instruction f) (block_insts b') = Some insts') in Hi'.
      rewrite Hi' in Hx. injection Hx as <-. eapply slots_ok_sublist; [by eapply Hslot|done].
Qed.

(** *** Pipelines *)

(** What a pass promises to a pipeline. *)
Class CorrectPass (p : MirPass) : Prop :=
  correct_pass : forall f, optimizable f ->
    exists f' ch, pass_run p f = Some (f', ch) /\ same_code f f' /\ optimizable f'.

#[export] Instance constant_folding_correct : CorrectPass ConstantFolding.
Proof. exact constant_folding_ok. Qed.
#[export] Instance rlse_correct : CorrectPass RedundantLoadStoreElimination.
Proof. exact rlse_ok. Qed.

Lemma run_passes_ok pl : Forall CorrectPass pl -> forall f, optimizable f ->
  exists f', run_passes pl f = Some f' /\ same_code f f' /\ optimizable f'.
Proof.
  induction 1 as [|p pl Hp _ IH]; intros f Hf; [by exists f; auto using same_code_refl|].
  destruct (Hp f Hf) as (f1 & ch & E & Hs & Hf1). destruct (IH f1 Hf1) as (f2 & E2 & Hs2 & Hf2).
  exists f2. cbn [run_passes]. rewrite E. split_and!; [done| |done]. by eapply same_code_trans.
Qed.

Lemma pipeline_for_level_correct level : Forall CorrectPass (pipeline_for_level level).
Proof. destruct level; repeat constructor; apply _. Qed.

Lemma pipeline_run_ok pl funcs : Forall CorrectPass pl -> Forall optimizable funcs ->
  exists funcs', pipeline_run pl funcs = Some funcs' /\ Forall2 same_code funcs funcs'.
Proof.
  intros Hpl. induction 1 as [|f fs Hf _ IH]; [by exists []|].
  destruct (run_passes_ok pl Hpl f Hf) as (f' & E & Hs & _). destruct IH as (fs' & E' & HF).
  exists (f' :: fs'). unfold pipeline_run in *. cbn [mapM]. rewrite E. simpl. rewrite E'. split; [done|by constructor].
Qed.
End correctness.

(** ** The change flag *)

Definition is_binary (i : Instruction) : bool := match i with IBinary _ _ _ _ => true | _ => false end.

(** The number of operations left in the arena. *)
Definition binaries (arena : list Instruction) : nat := length (filter (fun i => is_binary i = true) arena).

Lemma binaries_replace arena id d op l r c : arena !! id = Some (IBinary d op l r) ->
  (binaries (<[id := IAssign d c]> arena) < binaries arena)%nat.
Proof.
  revert id. unfold binaries. induction arena as [|i arena IH]; intros [|id]; try done; simpl.
  - intros [= ->]. rewrite !filter_cons. simpl. lia.
  - intros E. rewrite !filter_cons. specialize (IH id E). case_decide; simpl; lia.
Qed.

Lemma fold_block_changed ids : forall arena known ch arena' ch',
  fold_block ids arena known ch = Some (arena', ch') ->
  (ch' = ch /\ arena' = arena) \/ (ch' = true /\ (binaries arena' < binaries arena)%nat).
Proof.
  induction ids as [|id ids IH]; intros arena known ch arena' ch'; cbn [fold_block].
  { intros [= <- <-]. by left. }
  destruct (arena !! id) as [inst|] eqn:Ei; [|done].
  destruct inst as [d c| |d op l r| | | | | | | | | | | | | | | | | |]; try (by apply IH).
  destruct (known !! l) as [lc|]; [|by apply IH]. destruct (known !! r) as [rc|]; [|by apply IH].
  destruct (fold_binary op lc rc) as [res|]; [|by apply IH]. intros E. right.
  pose proof (binaries_replace arena id d op l r res Ei).
  apply IH in E as [[-> ->]|[-> Hlt]]; split; try done; lia.
Qed.

Lemma fold_blocks_changed bs : forall arena ch arena' ch',
  fold_blocks bs arena ch = Some (arena', ch') ->
  (ch' = ch /\ arena' = arena) \/ (ch' = true /\ (binaries arena' < binaries arena)%nat).
Proof.
  induction bs as [|b bs IH]; intros arena ch arena' ch'; cbn [fold_blocks].
  { intros [= <- <-]. by left. }
  destruct (fold_block _ _ _ _) as [[a1 c1]|] eqn:E; [|done]. intros E'.
  apply fold_block_changed in E as [[-> ->]|[-> Hlt]]; [by apply IH|].
  right. apply IH in E' as [[-> ->]|[-> Hlt']]; split; try done; lia.
Qed.

Lemma rlse_ids_changed arena n : forall ids ids' ch, (length ids <= n)%nat ->
  rlse_ids arena ids = Some (ids', ch) ->
  (ch = false /\ ids' = ids) \/ (ch = true /\ (length ids' < length ids)%nat).
Proof.
  induction n as [|n IH]; intros ids ids' ch Hn.
  { destruct ids; [|simpl in Hn; lia]. intros [= <- <-]. by left. }
  destruct ids as [|i [|j rest]]; [intros [= <- <-]; by left..|]. rewrite rlse_ids_eq. simpl in Hn.
  destruct (arena !! i) as [x|]; [|done]. destruct (arena !! j) as [y|]; [|done].
  destruct (redundant x y).
  - destruct (rlse_ids arena rest) as [[o c]|] eqn:E; [|done]. intros [= <- <-]. right.
    apply IH in E; [|lia]. destruct E as [[_ ->]|[_ ?]]; split; try done; simpl; lia.
  - destruct (rlse_ids arena (j :: rest)) as [[o c]|] eqn:E; [|done]. intros [= <- <-].
    apply IH in E; [|simpl; lia]. destruct E as [[-> ->]|[-> ?]]; [by left|right]; split; try done; simpl in *; lia.
Qed.

(** The number of instructions in the blocks. *)
Definition code_size (bs : list BasicBlock) : nat := length (concat (map block_insts bs)).

Lemma rlse_blocks_changed arena bs : forall ch bs' ch', rlse_blocks arena bs ch = Some (bs', ch') ->
  (ch' = ch /\ bs' = bs) \/ (ch' = true /\ (code_size bs' < code_size bs)%nat).
Proof.
  induction bs as [|b bs IH]; intros ch bs' ch'; cbn [rlse_blocks].
  { intros [= <- <-]. by left. }
  destruct (rlse_ids arena (block_insts b)) as [[ids c]|] eqn:E; [|done].
  destruct (rlse_blocks arena bs (ch || c)) as [[bs1 c1]|] eqn:E'; [|done]. intros [= <- <-].
  apply (rlse_ids_changed arena (length (block_insts b))) in E; [|lia]. apply IH in E'.
  unfold code_size in *. cbn [map concat]. rewrite !length_app.
  destruct E as [[-> ->]|[-> Hlt]]; [rewrite orb_false_r in E'|rewrite orb_true_r in E'];
    destruct E' as [[-> ->]|[-> Hlt']]; cbn [set_insts block_insts]; try (by left); right; split; try done; lia.
Qed.

(** ** Theorems *)

(** C15: At every optimization level and in both overflow modes the pipeline
    runs on functions of the form [optimizable] (no instruction id is
    invalid), keeps each function's locals, entry and terminators, and every
    block that runs to a state before optimization runs to the same state
    after it, whatever the instructions the optimizer does not know do, as
    long as they change no register but their destination
    ([respects_destination]). *)
Theorem pipeline_preserves (mode : IntegerOverflowMode) (slot : Local -> Z)
    (other : Codegen -> Instruction -> State -> option State) (level : MirOptLevel) (funcs : list MirFunction) :
  respects_destination other -> Forall optimizable funcs ->
  exists funcs', pipeline_run (pipeline_for_level level) funcs = Some funcs' /\
    Forall2 (same_code mode slot other) funcs funcs'.
Proof. intros Ho Hf. apply pipeline_run_ok; [by apply pipeline_for_level_correct|done]. Qed.

(** A pass returns [true] exactly when it modified the
    function. *)
Theorem pass_reports_change (p : MirPass) (f f' : MirFunction) (ch : bool) :
  p ∈ pipeline_for_level O3 -> pass_run p f = Some (f', ch) -> (ch = true <-> f' <> f).
Proof.
  intros Hp E. assert (p = ConstantFolding \/ p = RedundantLoadStoreElimination) as [-> | ->] by set_solver.
  - cbn [pass_run ConstantFolding] in E. unfold constant_folding_run in E.
    destruct (fold_blocks _ _ _) as [[a c]|] eqn:Ef; [|done]. injection E as <- <-.
    apply fold_blocks_changed in Ef as [[-> ->]|[-> Hlt]].
    + split; [done|]. intros []. by destruct f.
    + split; [|done]. intros _ Ef. apply (f_equal instructions) in Ef. simpl in Ef. rewrite Ef in Hlt. lia.
  - cbn [pass_run RedundantLoadStoreElimination] in E. unfold rlse_run in E.
    destruct (rlse_blocks _ _ _) as [[bs c]|] eqn:Ef; [|done]. injection E as <- <-.
    apply rlse_blocks_changed in Ef as [[-> ->]|[-> Hlt]].
    + split; [done|]. intros []. by destruct f.
    + split; [|done]. intros _ Ef. apply (f_equal basic_blocks) in Ef. simpl in Ef. rewrite Ef in Hlt. lia.
Qed.

(** A small function: [x = 40 + 2; x = x; if .. { 1 } else { 2 }].  The value of
    the conditional is a temporary that two blocks assign. *)
Module Sample.
Definition x : Local := mkLocal 1 LUser.
Definition t (i : Z) : Local := mkLocal i LTemp.

Definition f : MirFunction :=
  mkFunction "sample" [] (MInt 64)
    [(return_local, MInt 64); (x, MInt 64); (t 2, MInt 64); (t 3, MInt 64); (t 4, MInt 64); (t 5, MInt 64);
     (t 6, MInt 64)]
    [mkBlock 0 [0; 1; 2; 3; 4; 5]%nat None None; mkBlock 1 [6]%nat (Some (TReturn (Some (t 6)))) None;
     mkBlock 2 [7]%nat (Some (TReturn (Some (t 6)))) None]
    [IAssign (t 2) (CInt 40); IAssign (t 3) (CInt 2); IBinary (t 4) BAdd (t 2) (t 3); IStore x (t 4);
     ILoad (t 5) x; IStore x (t 5); IAssign (t 6) (CInt 1); IAssign (t 6) (CInt 2)]
    [None; None; None; None; None; None; None; None] ∅ ∅ 0 false.

Definition nothing_else (_ : Codegen) (_ : Instruction) (_ : State) : option State := None.

Lemma nothing_else_respects : respects_destination nothing_else.
Proof. done. Qed.

Example f_slots : map (local_uses_stack_slot (codegen_for f)) [x; t 2; t 6] = [true; false; true].
Proof. reflexivity. Qed.

Lemma f_blocks b insts : b ∈ basic_blocks f -> block_instructions f b = Some insts ->
  insts ∈ [take 6 (instructions f); [IAssign (t 6) (CInt 1)]; [IAssign (t 6) (CInt 2)]].
Proof.
  cbn [f basic_blocks]. rewrite !elem_of_cons, elem_of_nil.
  intros [-> |[-> |[-> |[]]]] [= <-]; [by left|right; by left|right; right; by left].
Qed.

Lemma f_optimizable : optimizable f.
Proof.
  split.
  - by apply (bool_decide_eq_true_1 _); vm_compute.
  - intros b. cbn [f basic_blocks]. rewrite !elem_of_cons, elem_of_nil. intros [-> |[-> |[-> |[]]]]; by eexists.
  - intros b insts Hb Hi. pose proof (f_blocks b insts Hb Hi) as HI. rewrite !elem_of_cons, elem_of_nil in HI.
    destruct HI as [-> |[-> |[-> |[]]]]; by apply (bool_decide_eq_true_1 _); vm_compute.
  - intros b insts Hb Hi y Hy Hst. pose proof (f_blocks b insts Hb Hi) as HI. rewrite !elem_of_cons, elem_of_nil in HI.
    destruct HI as [-> |[-> |[-> |[]]]]; cbn in Hy; rewrite ?elem_of_cons, ?elem_of_nil in Hy;
      repeat (destruct Hy as [-> |Hy]; [done|]); done.
  - intros i d n E. do 8 (destruct i as [|i]; [cbn in E; simplify_eq; by split|]). done.
  - intros i d n E _. do 8 (destruct i as [|i]; [cbn in E; by simplify_eq|]). done.
  - intros i d op l r E. do 8 (destruct i as [|i]; [cbn in E; by simplify_eq|]). done.
  - intros i d op l r E. do 8 (destruct i as [|i]; [cbn in E; by simplify_eq|]). done.
  - intros i j d op l r inst E. assert (i = 2%nat) as ->.
    { do 8 (destruct i as [|i]; [cbn in E; by simplify_eq|]). done. }
    cbn in E. simplify_eq. do 8 (destruct j as [|j]; [intros Ej; cbn in Ej; by simplify_eq|]). done.
  - intros i d src E. do 8 (destruct i as [|i]; [cbn in E; simplify_eq; by split|]). done.
Qed.

(** At O2 the addition is folded and the writeback is gone. *)
Example f_optimized : map (fun f => map (block_instructions f) (basic_blocks f)) <$> pipeline_run (pipeline_for_level O2) [f]
  = Some [[Some [IAssign (t 2) (CInt 40); IAssign (t 3) (CInt 2); IAssign (t 4) (CInt 42); IStore x (t 4);
                 ILoad (t 5) x]; Some [IAssign (t 6) (CInt 1)]; Some [IAssign (t 6) (CInt 2)]]].
Proof. reflexivity. Qed.
End Sample.

Lemma pipeline_preserves_witness :
  exists funcs', pipeline_run (pipeline_for_level O2) [Sample.f] = Some funcs' /\
    Forall2 (same_code ReleaseWrapping local_id Sample.nothing_else) [Sample.f] funcs'.
Proof.
  apply (pipeline_preserves ReleaseWrapping local_id Sample.nothing_else O2 [Sample.f]).
  - exact Sample.nothing_else_respects.
  - constructor; [exact Sample.f_optimizable|constructor].
Defined.

Lemma pass_reports_change_witness : exists f', rlse_run Sample.f = Some (f', true) /\ f' <> Sample.f.
Proof.
  eexists. split; [reflexivity|].
  apply (pass_reports_change RedundantLoadStoreElimination Sample.f _ true); [by left|reflexivity|reflexivity].
Defined.

(** Folding computes in 64 bits.  Were constants of type [i32] operands of
    arithmetic, [(i32::MAX + 1) / 2] would be folded to another value than the
    operations have; the lowering gives literals the type [i64]. *)
Theorem narrow_operand_folded_wide :
  let t i := mkLocal i LTemp in
  let f := mkFunction "narrow" [] (MInt 32)
    ((return_local, MInt 32) :: map (fun i => (t i, MInt 32)) [1; 2; 3; 4; 5])
    [mkBlock 0 [0; 1; 2; 3; 4]%nat (Some (TReturn (Some (t 5)))) None]
    [IAssign (t 1) (CInt (2 ^ 31 - 1)); IAssign (t 2) (CInt 1); IBinary (t 3) BAdd (t 1) (t 2);
     IAssign (t 4) (CInt 2); IBinary (t 5) BDiv (t 3) (t 4)]
    [None; None; None; None; None] ∅ ∅ 0 false in
  let result f := map (fun b => s ← block_run ReleaseWrapping local_id Sample.nothing_else f b (mkMState ∅ ∅); env s !! t 5) (basic_blocks f) in
  result f = [Some (VInt (- 2 ^ 30))] /\ result <$> run_passes (pipeline_for_level O1) f = Some [Some (VInt (2 ^ 30))].
Proof. split; vm_compute; reflexivity. Qed.

(** O1 is compiled with overflow checks, but it
    folds first: [i64::MAX + 1] panics in the unoptimized function and runs to
    a wrapped result in the optimized one. *)
Theorem o1_drops_overflow_panic :
  let t i := mkLocal i LTemp in
  let f := mkFunction "overflow" [] (MInt 64)
    [(return_local, MInt 64); (t 1, MInt 64); (t 2, MInt 64); (t 3, MInt 64)]
    [mkBlock 0 [0; 1; 2]%nat (Some (TReturn (Some (t 3)))) None]
    [IAssign (t 1) (CInt (2 ^ 63 - 1)); IAssign (t 2) (CInt 1); IBinary (t 3) BAdd (t 1) (t 2)]
    [None; None; None] ∅ ∅ 0 false in
  exists f', run_passes (pipeline_for_level O1) f = Some f' /\
    forall slot other s,
      map (fun b => block_run DebugChecked slot other f b s) (basic_blocks f) = [None] /\
      map (fun b => s' ← block_run DebugChecked slot other f' b s; env s' !! t 3) (basic_blocks f')
        = [Some (VInt (- 2 ^ 63))].
Proof.
  intros t f. eexists. split; [reflexivity|]. intros slot other s.
  assert (Hr : forall cg i v s, local_uses_stack_slot cg (t i) = false -> local_name cg (t i) = t i ->
    set_register cg (t i) v s = Some (mkMState (<[t i := v]> (env s)) (mem s))).
  { intros cg i v s' H1 H2. unfold set_register. by rewrite H1, H2. }
  assert (Ha : forall cg i n s, local_uses_stack_slot cg (t i) = false -> local_name cg (t i) = t i ->
    local_type cg (t i) = MInt 64 -> exec_assign slot cg (t i) (CInt n) s
      = Some (mkMState (<[t i := VInt (wrap_s 64 n)]> (env s)) (mem s))).
  { intros cg i n s' H1 H2 H3. unfold exec_assign. rewrite H1, H3. by apply Hr. }
  assert (Ho : forall cg i s, local_uses_stack_slot cg (t i) = false -> local_name cg (t i) = t i ->
    local_type cg (t i) = MInt 64 -> operand_value slot cg (t i) s = env s !! t i).
  { intros cg i s' H1 H2 H3. unfold operand_value. by rewrite H1, H2, H3. }
  split.
  - change ([exec_insts DebugChecked slot other (codegen_for f) (instructions f) s] = [None]).
    cbn [instructions f exec_insts exec_inst]. rewrite !Ha by reflexivity. cbn [exec_insts exec_inst env mem].
    rewrite !Ho by reflexivity. cbn [env]. rewrite lookup_insert_ne, !lookup_insert_eq by done. reflexivity.
  - match goal with |- context [block_run _ _ _ ?f' _ _] => set (g := f') end.
    change ([s' ← exec_insts DebugChecked slot other (codegen_for g)
        [IAssign (t 1) (CInt (2 ^ 63 - 1)); IAssign (t 2) (CInt 1); IAssign (t 3) (CInt (- 2 ^ 63))] s;
      env s' !! t 3] = [Some (VInt (- 2 ^ 63))]).
    cbn [exec_insts exec_inst]. repeat (rewrite Ha by reflexivity; cbn [exec_insts exec_inst env mem]).
    cbn. rewrite lookup_insert_eq. reflexivity.
Qed.
