(* ===== verification/Proto.v ===== *)
(** The protobuf runtime: runtime/src/reflect/runtime_proto.rs.

    Varint encoding, the wire format of user events, the last-error state and
    the table of decoded events behind the C interface.  A byte is a [Z] below
    256, a string its UTF-8 bytes, a pointer an optional memory block ([None]
    is null).  Calls run in [Run]: besides [Ok] and [Err] they can panic (a
    checked arithmetic overflow or a slice with its end before its start),
    read outside their block, or not return.  [overflow_checks] is the
    compiler's setting of that name, on in the dev profile and off in the
    release profile. *)

From S2P Require Import Prelude.
From stdpp Require Import pretty.

Local Open Scope Z_scope.

Definition SENGOO_PROTO_OK : Z := 0.
Definition SENGOO_PROTO_ERR_INVALID_ARGUMENT : Z := -2801.
Definition SENGOO_PROTO_ERR_PARSE : Z := -2802.
Definition SENGOO_PROTO_ERR_TRUNCATED : Z := -2803.
Definition SENGOO_PROTO_ERR_INTERNAL : Z := -2899.

Definition bytes_of_string (s : string) : list Z :=
  map (fun c => Z.of_N (Ascii.N_of_ascii c)) (String.list_ascii_of_string s).

Record ProtoErrorState := mkError {
  err_code : Z;
  err_message : string;
}.

Definition error_default : ProtoErrorState := mkError SENGOO_PROTO_OK EmptyString.

Record DecodedUserEvent := mkEvent {
  event_id : Z;
  event_name : list Z;
  event_ts : Z;
}.

(** The module's statics.  A mutex is poisoned once a thread panicked while
    holding it; the code handles that case, so the flags are state. *)
Record ProtoState := mkProto {
  last_error : ProtoErrorState;
  error_poisoned : bool;
  decoded_user_events : gmap Z DecodedUserEvent;
  table_poisoned : bool;
  next_handle : Z;
}.

Definition proto_init : ProtoState := mkProto error_default false ∅ false 1.

Definition with_error (e : ProtoErrorState) (st : ProtoState) : ProtoState :=
  mkProto e (error_poisoned st) (decoded_user_events st) (table_poisoned st) (next_handle st).

Definition with_table (t : gmap Z DecodedUserEvent) (n : Z) (st : ProtoState) : ProtoState :=
  mkProto (last_error st) (error_poisoned st) t (table_poisoned st) n.

(** ** Runs *)

Inductive Run (A : Type) : Type :=
| Done (r : result A Z) (st : ProtoState)
| Panic
| OutOfBounds
| OutOfFuel.
Arguments Done {A} r st.
Arguments Panic {A}.
Arguments OutOfBounds {A}.
Arguments OutOfFuel {A}.

Definition PM (A : Type) : Type := ProtoState -> Run A.

Definition ret {A} (a : A) : PM A := fun st => Done (Ok a) st.

(** The [?] operator: an error is handed to the caller. *)
Definition try {A B} (m : PM A) (k : A -> PM B) : PM B := fun st =>
  match m st with
  | Done (Ok a) st1 => k a st1
  | Done (Err e) st1 => Done (Err e) st1
  | Panic => Panic
  | OutOfBounds => OutOfBounds
  | OutOfFuel => OutOfFuel
  end.

Declare Scope proto_scope.
Delimit Scope proto_scope with proto.
Notation "'bind!' x := m 'in' k" := (try m (fun x => k))
  (at level 10, x pattern, m at level 200, k at level 200) : proto_scope.
Local Open Scope proto_scope.

Definition next_decoded_handle (st : ProtoState) : Z * ProtoState :=
  (next_handle st, with_table (decoded_user_events st) (wrap_u 64 (next_handle st + 1)) st).

Definition clear_error (st : ProtoState) : ProtoState :=
  if error_poisoned st then st else with_error error_default st.

Definition set_error (code : Z) (message : string) (st : ProtoState) : ProtoState :=
  if error_poisoned st then st else with_error (mkError code message) st.

(** [Err(set_error(code, message))] *)
Definition fail {A} (code : Z) (message : string) : PM A := fun st =>
  Done (Err code) (set_error code message st).

(** ** Memory *)

Definition pointer : Type := option (list Z).

(** [ptr::copy_nonoverlapping] of [bs] to the start of a block. *)
Definition write_block (bs mem : list Z) : list Z := bs ++ drop (length bs) mem.

Definition copy_bytes_to_buffer (bs : list Z) (buffer : pointer) (capacity : nat)
    (st : ProtoState) : Z * pointer * ProtoState :=
  match buffer with
  | None =>
      (SENGOO_PROTO_ERR_INVALID_ARGUMENT, None,
       set_error SENGOO_PROTO_ERR_INVALID_ARGUMENT "null output buffer" st)
  | Some mem =>
      let copy_len := Nat.min (length bs) capacity in
      (Z.of_nat copy_len, Some (write_block (take copy_len bs) mem), st)
  end.

(** ** UTF-8 ([std::str::from_utf8]) *)

Definition between (lo hi b : Z) : bool := (lo <=? b) && (b <=? hi).

Definition utf8_cont (b : Z) : bool := between 128 191 b.

Fixpoint utf8_valid (bs : list Z) : bool :=
  match bs with
  | [] => true
  | b0 :: r0 =>
    if b0 <? 128 then utf8_valid r0 else
    match r0 with
    | [] => false
    | b1 :: r1 =>
      if between 194 223 b0 then utf8_cont b1 && utf8_valid r1 else
      match r1 with
      | [] => false
      | b2 :: r2 =>
        if between 224 239 b0 then
          (if b0 =? 224 then between 160 191 b1
           else if b0 =? 237 then between 128 159 b1 else utf8_cont b1)
          && utf8_cont b2 && utf8_valid r2
        else
        match r2 with
        | [] => false
        | b3 :: r3 =>
          between 240 244 b0 &&
          (if b0 =? 240 then between 144 191 b1
           else if b0 =? 244 then between 128 143 b1 else utf8_cont b1)
          && utf8_cont b2 && utf8_cont b3 && utf8_valid r3
        end
      end
    end
  end.

(** ** C strings *)

Definition max_c_string : Z := 8 * 1024 * 1024.

(** The scan for the terminator; [None] reads past the end of the block. *)
Fixpoint c_string_scan (mem : list Z) (len : nat) : option (result nat unit) :=
  match mem with
  | [] => None
  | b :: mem' =>
      if b =? 0 then Some (Ok len)
      else if max_c_string <? Z.of_nat (S len) then Some (Err tt)
      else c_string_scan mem' (S len)
  end.

Definition parse_c_string (ptr : pointer) : PM (list Z) := fun st =>
  match ptr with
  | None => fail SENGOO_PROTO_ERR_INVALID_ARGUMENT "null C string pointer" st
  | Some mem =>
      match c_string_scan mem 0 with
      | None => OutOfBounds
      | Some (Err tt) => fail SENGOO_PROTO_ERR_INVALID_ARGUMENT "string too long" st
      | Some (Ok len) =>
          let bs := take len mem in
          if utf8_valid bs then ret bs st
          else fail SENGOO_PROTO_ERR_INVALID_ARGUMENT "invalid UTF-8 string" st
      end
  end.

(** ** Varints *)

(** One byte per seven bits, the top bit set on all but the last. *)
Fixpoint encode_varint_fuel (n : nat) (value : Z) : option (list Z) :=
  match n with
  | O => None
  | S n' =>
      let byte := Z.land value 127 in
      let value := Z.shiftr value 7 in
      if negb (value =? 0) then
        let* rest := encode_varint_fuel n' value in Some (Z.lor byte 128 :: rest)
      else Some [byte]
  end.

(** Ten bytes hold 64 bits. *)
Definition encode_varint (value : Z) : list Z := default [] (encode_varint_fuel 10 value).

Fixpoint decode_varint_loop (n : nat) (input : list Z) (index : Z) (shift value : Z)
    : PM (Z * Z) := fun st =>
  match n with
  | O => OutOfFuel
  | S n' =>
      match input !! Z.to_nat index, shift <=? 63 with
      | Some byte, true =>
          let value := Z.lor value (wrap_u 64 (Z.shiftl (Z.land byte 127) shift)) in
          if Z.land byte 128 =? 0 then ret (value, index + 1) st
          else decode_varint_loop n' input (index + 1) (shift + 7) value st
      | _, _ =>
          if Z.of_nat (length input) <=? index
          then fail SENGOO_PROTO_ERR_TRUNCATED "unexpected EOF while decoding varint" st
          else fail SENGOO_PROTO_ERR_PARSE "invalid varint encoding" st
      end
  end.

(** [shift] is 0, 7, ..., 63, then 70: eleven tests of the loop condition. *)
Definition decode_varint (input : list Z) (index : Z) : PM (Z * Z) :=
  decode_varint_loop 11 input index 0 0.

(** ** The wire format of a user event *)

Definition encode_user_event_wire (id : Z) (name : list Z) (ts : Z) : list Z :=
  encode_varint (Z.shiftl 1 3) ++ encode_varint id ++
  encode_varint (Z.lor (Z.shiftl 2 3) 2) ++ encode_varint (Z.of_nat (length name)) ++ name ++
  encode_varint (Z.shiftl 3 3) ++ encode_varint ts.

Definition Fields : Type := option Z * option (list Z) * option Z.

Section decode.
Context (overflow_checks : bool).

(** [idx + len] on [usize]. *)
Definition add_usize (a b : Z) : PM Z := fun st =>
  if overflow_checks && negb (a + b <? 2 ^ 64) then Panic else ret (wrap_u 64 (a + b)) st.

(** [&input[a..b]] with [b <= input.len()] already tested. *)
Definition slice (input : list Z) (a b : Z) : PM (list Z) := fun st =>
  if b <? a then Panic
  else ret (take (Z.to_nat b - Z.to_nat a) (drop (Z.to_nat a) input)) st.

Definition unsupported_wire (wire_type field_no : Z) : string :=
  ("unsupported wire type " +:+ pretty wire_type +:+ " for field " +:+ pretty field_no)%string.

(** One field: the key, then a value that depends on number and wire type. *)
Definition decode_field (input : list Z) (idx : Z) (f : Fields) : PM (Z * Fields) :=
  let '(id, name, ts) := f in
  bind! (key, idx) := decode_varint input idx in
  let field_no := Z.shiftr key 3 in
  let wire_type := Z.land key 7 in
  if (field_no =? 1) && (wire_type =? 0) then
    bind! (value, idx) := decode_varint input idx in
    ret (idx, (Some (wrap_u 32 value), name, ts))
  else if (field_no =? 2) && (wire_type =? 2) then
    bind! (len, idx) := decode_varint input idx in
    bind! stop := add_usize idx len in
    if Z.of_nat (length input) <? stop
    then fail SENGOO_PROTO_ERR_TRUNCATED "string field exceeds input length"
    else
      bind! bs := slice input idx stop in
      if utf8_valid bs then ret (stop, (id, Some bs, ts))
      else fail SENGOO_PROTO_ERR_PARSE "name field is not UTF-8"
  else if (field_no =? 3) && (wire_type =? 0) then
    bind! (value, idx) := decode_varint input idx in
    ret (idx, (id, name, Some value))
  else if wire_type =? 0 then
    bind! (_, idx) := decode_varint input idx in
    ret (idx, f)
  else if wire_type =? 2 then
    bind! (len, idx) := decode_varint input idx in
    bind! stop := add_usize idx len in
    if Z.of_nat (length input) <? stop
    then fail SENGOO_PROTO_ERR_TRUNCATED "length-delimited field exceeds input length"
    else ret (stop, f)
  else fail SENGOO_PROTO_ERR_PARSE (unsupported_wire wire_type field_no).

Fixpoint decode_fields (n : nat) (input : list Z) (idx : Z) (f : Fields) : PM Fields := fun st =>
  match n with
  | O => OutOfFuel
  | S n' =>
      if idx <? Z.of_nat (length input) then
        (bind! (idx, f) := decode_field input idx f in decode_fields n' input idx f) st
      else ret f st
  end.

Definition require {A} (o : option A) (message : string) : PM A :=
  match o with Some a => ret a | None => fail SENGOO_PROTO_ERR_PARSE message end.

Definition decode_user_event_wire (n : nat) (input : list Z) : PM (Z * list Z * Z) :=
  bind! (id, name, ts) := decode_fields n input 0 (None, None, None) in
  bind! id := require id "missing required field id" in
  bind! name := require name "missing required field name" in
  bind! ts := require ts "missing required field ts" in
  ret (id, name, ts).

(** ** The C interface

    A call returns its C value together with the contents of the output
    blocks it was given. *)

Definition sengoo_proto_last_error_code (st : ProtoState) : Z :=
  if error_poisoned st then SENGOO_PROTO_ERR_INTERNAL else err_code (last_error st).

Definition sengoo_proto_last_error_len (st : ProtoState) : Z :=
  if error_poisoned st then 0 else Z.of_nat (String.length (err_message (last_error st))).

Definition sengoo_proto_last_error_copy (buffer : pointer) (capacity : nat) (st : ProtoState)
    : Z * pointer * ProtoState :=
  let message := if error_poisoned st then EmptyString else err_message (last_error st) in
  copy_bytes_to_buffer (bytes_of_string message) buffer capacity st.

Definition sengoo_proto_last_error_clear (st : ProtoState) : Z * ProtoState :=
  (SENGOO_PROTO_OK, clear_error st).

(** [match m { Ok(v) => k(v), Err(code) => return on_err(code) }] *)
Definition or_return {A B} (m : PM A) (on_err : Z -> B) (k : A -> PM B) : PM B := fun st =>
  match m st with
  | Done (Ok a) st1 => k a st1
  | Done (Err code) st1 => ret (on_err code) st1
  | Panic => Panic
  | OutOfBounds => OutOfBounds
  | OutOfFuel => OutOfFuel
  end.

(** A C function that stops by returning the code it set. *)
Definition return_error {B} (code : Z) (message : string) (on_err : Z -> B) : PM B := fun st =>
  ret (on_err code) (set_error code message st).

Definition too_small (what : string) (need got : nat) : string :=
  (what +:+ "output buffer too small: need " +:+ pretty need +:+ ", got " +:+ pretty got)%string.

Definition sengoo_proto_user_event_encode (id : Z) (name : pointer) (ts : Z)
    (out_buffer : pointer) (out_capacity : nat) : PM (Z * pointer) := fun st =>
  or_return (parse_c_string name) (fun code => (code, out_buffer)) (fun name =>
    let bs := encode_user_event_wire id name ts in
    if Nat.ltb out_capacity (length bs) then
      return_error SENGOO_PROTO_ERR_INVALID_ARGUMENT (too_small EmptyString (length bs) out_capacity)
        (fun code => (code, out_buffer))
    else fun st1 =>
      let '(n, out, st2) := copy_bytes_to_buffer bs out_buffer out_capacity st1 in
      ret (n, out) st2) (clear_error st).

(** The output cells of [decode]: id, name buffer, timestamp. *)
Definition DecodeOut : Type := option Z * pointer * option Z.

Definition sengoo_proto_user_event_decode (n : nat) (input : pointer) (input_len : nat)
    (out_id : option Z) (out_name : pointer) (out_name_capacity : nat) (out_ts : option Z)
    : PM (Z * DecodeOut) := fun st =>
  let untouched := fun code : Z => (code, (out_id, out_name, out_ts)) in
  (match input, out_id, out_name, out_ts with
   | Some mem, Some _, Some buf, Some _ =>
       if Nat.eqb input_len 0 then
         return_error SENGOO_PROTO_ERR_INVALID_ARGUMENT "input buffer is null or empty" untouched
       else if Nat.ltb (length mem) input_len then (fun _ => OutOfBounds)
       else
       or_return (decode_user_event_wire n (take input_len mem)) untouched (fun '(id, name, ts) =>
         if Nat.ltb out_name_capacity (length name) then
           return_error SENGOO_PROTO_ERR_INVALID_ARGUMENT
             (too_small "name " (length name) out_name_capacity) untouched
         else
           ret (Z.of_nat (length name), (Some id, Some (write_block name buf), Some ts)))
   | Some _, _, _, _ =>
       if Nat.eqb input_len 0 then
         return_error SENGOO_PROTO_ERR_INVALID_ARGUMENT "input buffer is null or empty" untouched
       else return_error SENGOO_PROTO_ERR_INVALID_ARGUMENT "output pointer is null" untouched
   | None, _, _, _ =>
       return_error SENGOO_PROTO_ERR_INVALID_ARGUMENT "input buffer is null or empty" untouched
   end) (clear_error st).

Definition poisoned_message : string := "decoded user event table poisoned".

Definition sengoo_proto_user_event_decode_open (n : nat) (input : pointer) (input_len : nat)
    : PM Z := fun st =>
  (match input with
   | None => return_error SENGOO_PROTO_ERR_INVALID_ARGUMENT "input buffer is null or empty" (fun _ => 0)
   | Some mem =>
       if Nat.eqb input_len 0 then
         return_error SENGOO_PROTO_ERR_INVALID_ARGUMENT "input buffer is null or empty" (fun _ => 0)
       else if Nat.ltb (length mem) input_len then (fun _ => OutOfBounds)
       else
       or_return (decode_user_event_wire n (take input_len mem)) (fun _ => 0) (fun '(id, name, ts) st1 =>
         if table_poisoned st1 then
           return_error SENGOO_PROTO_ERR_INTERNAL poisoned_message (fun _ => 0) st1
         else
           let '(handle, st2) := next_decoded_handle st1 in
           ret handle (with_table (<[handle := mkEvent id name ts]> (decoded_user_events st2))
                         (next_handle st2) st2))
   end) (clear_error st).
End decode.

Definition handle_not_found (handle : Z) : string :=
  ("decoded user event handle " +:+ pretty handle +:+ " not found")%string.

(** The table access the readers share: [k] on the event, or the error code. *)
Definition with_decoded {B} (handle : Z) (on_err : Z -> B) (k : DecodedUserEvent -> ProtoState -> B * ProtoState)
    (st : ProtoState) : B * ProtoState :=
  if table_poisoned st then
    (on_err SENGOO_PROTO_ERR_INTERNAL, set_error SENGOO_PROTO_ERR_INTERNAL poisoned_message st)
  else
    match decoded_user_events st !! handle with
    | Some event => k event st
    | None =>
        (on_err SENGOO_PROTO_ERR_INVALID_ARGUMENT,
         set_error SENGOO_PROTO_ERR_INVALID_ARGUMENT (handle_not_found handle) st)
    end.

Definition sengoo_proto_user_event_decoded_id (handle : Z) (st : ProtoState) : Z * ProtoState :=
  with_decoded handle (fun code => code) (fun event st => (event_id event, st)) (clear_error st).

(** [event.ts as i64] *)
Definition sengoo_proto_user_event_decoded_ts (handle : Z) (st : ProtoState) : Z * ProtoState :=
  with_decoded handle (fun code => code) (fun event st => (wrap_s 64 (event_ts event), st)) (clear_error st).

Definition sengoo_proto_user_event_decoded_name_len (handle : Z) (st : ProtoState) : Z * ProtoState :=
  with_decoded handle (fun code => code)
    (fun event st => (Z.of_nat (length (event_name event)), st)) (clear_error st).

Definition sengoo_proto_user_event_decoded_name_copy (handle : Z) (buffer : pointer)
    (capacity : nat) (st : ProtoState) : Z * pointer * ProtoState :=
  with_decoded handle (fun code => (code, buffer))
    (fun event st => copy_bytes_to_buffer (event_name event) buffer capacity st) (clear_error st).

Definition sengoo_proto_user_event_decoded_close (handle : Z) (st : ProtoState) : Z * ProtoState :=
  with_decoded handle (fun code => code)
    (fun _ st => (SENGOO_PROTO_OK,
                  with_table (delete handle (decoded_user_events st)) (next_handle st) st))
    (clear_error st).

(** ** Varints *)

Lemma lor_128 (b : Z) : 0 <= b < 128 -> Z.lor b 128 = b + 128.
Proof. intros Hb. change 128 with (Z.shiftl 1 7) at 1. rewrite lor_disjoint; lia. Qed.

(** The two fields of an encoded byte. *)
Lemma varint_byte (b : Z) (more : bool) : 0 <= b < 128 ->
  let byte := if more then b + 128 else b in
  Z.land byte 127 = b /\ (Z.land byte 128 =? 0) = negb more.
Proof.
  intros Hb byte. split.
  - rewrite land_127. unfold byte. destruct more.
    + replace (b + 128) with (b + 1 * 128) by lia. rewrite Z.mod_add by lia. by apply Z.mod_small.
    + by apply Z.mod_small.
  - unfold byte. destruct more.
    + rewrite <- lor_128 by done. rewrite Z.land_lor_distr_l.
      change (Z.land 128 128) with 128. apply Z.eqb_neq. intros E.
      apply Z.lor_eq_0_iff in E as [_ E]. done.
    + apply Z.eqb_eq. rewrite <- (land_shiftl_disjoint b 1 7) by lia. done.
Qed.

Lemma encode_varint_step n v : 0 <= v ->
  encode_varint_fuel (S n) v =
    if v <? 128 then Some [v]
    else let* rest := encode_varint_fuel n (v / 128) in Some (v mod 128 + 128 :: rest).
Proof.
  intros Hv. cbn [encode_varint_fuel]. rewrite land_127.
  rewrite Z.shiftr_div_pow2 by done. change (2 ^ 7) with 128.
  destruct (Z.ltb_spec v 128) as [Hs|Hl].
  - rewrite Z.div_small, Z.mod_small by lia. done.
  - assert (v / 128 <> 0) as Hne by (pose proof (Z.div_str_pos v 128); lia).
    destruct (Z.eqb_spec (v / 128) 0); [done|]. cbn [negb].
    rewrite lor_128; [done|]. apply Z.mod_pos_bound. lia.
Qed.

Lemma encode_varint_total n v : 0 <= v < 2 ^ (7 * Z.of_nat (S n)) ->
  exists bs, encode_varint_fuel (S n) v = Some bs /\ (0 < length bs <= S n)%nat /\
    Forall (in_u 8) bs.
Proof.
  revert v. induction n as [|n IH]; intros v Hv; rewrite encode_varint_step by lia;
    destruct (Z.ltb_spec v 128) as [Hs|Hl].
  1, 3: exists [v]; split_and!; [done|simpl; lia..|]; constructor; [unfold in_u; lia|constructor].
  - change (2 ^ (7 * Z.of_nat 1)) with 128 in Hv. lia.
  - destruct (IH (v / 128)) as (bs & -> & Hlen & HF).
    { split; [by apply Z.div_pos; lia|]. apply Z.div_lt_upper_bound; [lia|].
      change 128 with (2 ^ 7). rewrite <- Z.pow_add_r by lia.
      replace (7 + 7 * Z.of_nat (S n)) with (7 * Z.of_nat (S (S n))) by lia. lia. }
    eexists; split_and!; [done|simpl; lia..|]. constructor; [|done].
    unfold in_u. pose proof (Z.mod_pos_bound v 128). lia.
Qed.

Lemma encode_varint_Some v : in_u 64 v ->
  encode_varint_fuel 10 v = Some (encode_varint v) /\ (0 < length (encode_varint v) <= 10)%nat.
Proof.
  intros Hv. unfold encode_varint.
  destruct (encode_varint_total 9 v) as (bs & -> & Hlen & _); [|done].
  unfold in_u in Hv. change (7 * Z.of_nat 10) with 70. lia.
Qed.

Lemma lookup_middle {A} (pre : list A) x post : (pre ++ x :: post) !! length pre = Some x.
Proof. by rewrite list_lookup_middle. Qed.

Lemma decode_encode_loop n m v bs pre post acc shift st :
  encode_varint_fuel n v = Some bs -> (length bs <= m)%nat ->
  0 <= v -> 0 <= shift <= 63 -> v * 2 ^ shift < 2 ^ 64 -> 0 <= acc < 2 ^ shift ->
  decode_varint_loop m (pre ++ bs ++ post) (Z.of_nat (length pre)) shift acc st =
    Done (Ok (acc + v * 2 ^ shift, Z.of_nat (length pre + length bs))) st.
Proof.
  revert m v bs pre acc shift. induction n as [|n IH]; [done|].
  intros m v bs pre acc shift E Hm Hv Hs Hfit Hacc. rewrite encode_varint_step in E by done.
  assert (Hp : 0 < 2 ^ shift) by lia.
  assert (Hb : 0 <= v mod 128 < 128) by (apply Z.mod_pos_bound; lia).
  destruct (Z.ltb_spec v 128) as [Hsm|Hl].
  - injection E as <-. destruct m as [|m]; [simpl in Hm; lia|]. cbn [decode_varint_loop app].
    rewrite Nat2Z.id, lookup_middle. rewrite (proj2 (Z.leb_le _ _)) by lia.
    destruct (varint_byte v false) as [-> ->]; [lia|]. cbn [negb].
    rewrite wrap_u_id by (unfold in_u; rewrite Z.shiftl_mul_pow2 by lia; lia).
    rewrite lor_disjoint by lia. unfold ret. do 3 f_equal. simpl. lia.
  - destruct (encode_varint_fuel n (v / 128)) as [rest|] eqn:Er; [|done]. injection E as <-.
    pose proof (Z.div_mod v 128 ltac:(lia)) as Hdm.
    assert (0 <= v / 128) by (apply Z.div_pos; lia).
    assert (Hshift : 2 ^ (shift + 7) = 128 * 2 ^ shift).
    { rewrite Z.pow_add_r by lia. change (2 ^ 7) with 128. lia. }
    assert (shift + 7 <= 63).
    { assert (1 <= v / 128) by (pose proof (Z.div_str_pos v 128); lia).
      assert (2 ^ (shift + 7) < 2 ^ 64) as Hlt by nia. apply Z.pow_lt_mono_r_iff in Hlt; lia. }
    destruct m as [|m]; [simpl in Hm; lia|]. cbn [decode_varint_loop app].
    rewrite Nat2Z.id, lookup_middle. rewrite (proj2 (Z.leb_le _ _)) by lia.
    destruct (varint_byte (v mod 128) true Hb) as [-> ->]. cbn [negb].
    rewrite wrap_u_id by (unfold in_u; rewrite Z.shiftl_mul_pow2 by lia; nia).
    rewrite lor_disjoint by lia.
    replace (pre ++ v mod 128 + 128 :: rest ++ post)
      with ((pre ++ [v mod 128 + 128]) ++ rest ++ post) by (by rewrite <- app_assoc).
    replace (Z.of_nat (length pre) + 1) with (Z.of_nat (length (pre ++ [v mod 128 + 128])))
      by (rewrite length_app; simpl; lia).
    rewrite (IH m (v / 128) rest); [|done|simpl in Hm; lia|lia|lia|nia|nia].
    do 3 f_equal; [nia|]. rewrite !length_app. simpl. lia.
Qed.

(** Decoding picks up exactly the bytes [encode_varint] wrote. *)
Lemma decode_encode_varint v pre post st : in_u 64 v ->
  decode_varint (pre ++ encode_varint v ++ post) (Z.of_nat (length pre)) st =
    Done (Ok (v, Z.of_nat (length pre + length (encode_varint v)))) st.
Proof.
  intros Hv. destruct (encode_varint_Some v Hv) as [E Hlen]. unfold decode_varint.
  rewrite (decode_encode_loop 10 11 v); try done; unfold in_u in Hv; simpl; try lia.
  by rewrite Z.mul_1_r.
Qed.

Lemma decode_varint_at input pre post idx idx' v st :
  in_u 64 v -> input = pre ++ encode_varint v ++ post -> idx = Z.of_nat (length pre) ->
  idx' = Z.of_nat (length pre + length (encode_varint v)) ->
  decode_varint input idx st = Done (Ok (v, idx')) st.
Proof. intros Hv -> -> ->. by apply decode_encode_varint. Qed.

Lemma decode_varint_progress_loop n input idx shift acc st v idx' st' :
  decode_varint_loop n input idx shift acc st = Done (Ok (v, idx')) st' ->
  idx < idx' /\ st' = st.
Proof.
  revert idx shift acc. induction n as [|n IH]; intros idx shift acc; [done|]. cbn [decode_varint_loop].
  destruct (input !! _) as [b|]; [destruct (shift <=? 63)|];
    try (case_match; unfold fail; congruence).
  destruct (Z.land b 128 =? 0); [unfold ret; intros [= _ <- <-]; split; [lia|done]|].
  intros E. apply IH in E as [? ->]. split; [lia|done].
Qed.

(** ** Messages

    A message is a sequence of fields; the reference decoder folds over it. *)

Inductive Field :=
| FVarint (no value : Z)
| FBytes (no : Z) (payload : list Z).

Definition encode_field (fl : Field) : list Z :=
  match fl with
  | FVarint no v => encode_varint (no * 8) ++ encode_varint v
  | FBytes no bs => encode_varint (no * 8 + 2) ++ encode_varint (Z.of_nat (length bs)) ++ bs
  end.

Definition apply_field (fl : Field) (f : Fields) : Fields :=
  let '(id, name, ts) := f in
  match fl with
  | FVarint no v =>
      if no =? 1 then (Some (wrap_u 32 v), name, ts)
      else if no =? 3 then (id, name, Some v) else f
  | FBytes no bs => if no =? 2 then (id, Some bs, ts) else f
  end.

(** Fields the format can carry; the name must be text. *)
Definition field_ok (fl : Field) : Prop :=
  match fl with
  | FVarint no v => 0 <= no < 2 ^ 61 /\ in_u 64 v
  | FBytes no bs => 0 <= no < 2 ^ 61 /\ (no = 2 -> utf8_valid bs = true)
  end.

Lemma key_split no w : 0 <= w < 8 -> Z.shiftr (no * 8 + w) 3 = no /\ Z.land (no * 8 + w) 7 = w.
Proof.
  intros Hw. split.
  - rewrite Z.shiftr_div_pow2 by done. change (2 ^ 3) with 8.
    rewrite Z.add_comm, Z.div_add, Z.div_small by lia. lia.
  - change 7 with (Z.ones 3). rewrite Z.land_ones by done. change (2 ^ 3) with 8.
    rewrite Z.add_comm, Z.mod_add by lia. by apply Z.mod_small.
Qed.

Lemma encode_varint_pos v : in_u 64 v -> (0 < length (encode_varint v))%nat.
Proof. intros Hv. by destruct (encode_varint_Some v Hv) as [_ [? _]]. Qed.

Lemma slice_app pre bs post st idx stop :
  idx = Z.of_nat (length pre) -> stop = Z.of_nat (length pre + length bs) ->
  slice (pre ++ bs ++ post) idx stop st = Done (Ok bs) st.
Proof.
  intros -> ->. unfold slice. rewrite (proj2 (Z.ltb_ge _ _)) by lia. rewrite !Nat2Z.id.
  rewrite drop_app_length. replace (length pre + length bs - length pre)%nat with (length bs) by lia.
  by rewrite take_app_length.
Qed.

Lemma decode_field_ok oc fl pre post f st :
  field_ok fl -> Z.of_nat (length (pre ++ encode_field fl ++ post)) < 2 ^ 64 ->
  decode_field oc (pre ++ encode_field fl ++ post) (Z.of_nat (length pre)) f st =
    Done (Ok (Z.of_nat (length pre + length (encode_field fl)), apply_field fl f)) st.
Proof.
  destruct f as [[id name] ts]. destruct fl as [no v|no bs]; cbn [field_ok encode_field apply_field];
    intros [Hno Hok] Hlen; unfold decode_field, try.
  - assert (Hk : in_u 64 (no * 8)) by (unfold in_u; lia).
    rewrite (decode_varint_at _ pre (encode_varint v ++ post) _
      (Z.of_nat (length (pre ++ encode_varint (no * 8)))) (no * 8)); [|done|by rewrite <- app_assoc|done|by rewrite length_app].
    destruct (key_split no 0) as [E1 E2]; [lia|]. rewrite Z.add_0_r in E1, E2. rewrite E1, E2.
    assert (Hd : decode_varint (pre ++ (encode_varint (no * 8) ++ encode_varint v) ++ post)
      (Z.of_nat (length (pre ++ encode_varint (no * 8)))) st =
      Done (Ok (v, Z.of_nat (length pre + length (encode_varint (no * 8) ++ encode_varint v)))) st).
    { eapply (decode_varint_at _ (pre ++ encode_varint (no * 8)) post); [done|by rewrite <- !app_assoc|done|].
      rewrite !length_app. f_equal. lia. }
    change (0 =? 0) with true. change (0 =? 2) with false. rewrite !andb_true_r, andb_false_r.
    destruct (no =? 1); [by rewrite Hd|]. destruct (no =? 3); by rewrite Hd.
  - rewrite !length_app in Hlen.
    assert (Hk : in_u 64 (no * 8 + 2)) by (unfold in_u; lia).
    assert (Hl : in_u 64 (Z.of_nat (length bs))) by (unfold in_u; lia).
    rewrite (decode_varint_at _ pre (encode_varint (Z.of_nat (length bs)) ++ bs ++ post) _
      (Z.of_nat (length (pre ++ encode_varint (no * 8 + 2)))) (no * 8 + 2));
      [|done|by rewrite <- !app_assoc|done|by rewrite length_app].
    destruct (key_split no 2) as [-> ->]; [lia|].
    set (pre2 := pre ++ encode_varint (no * 8 + 2) ++ encode_varint (Z.of_nat (length bs))).
    set (input := pre ++ (encode_varint (no * 8 + 2) ++ encode_varint (Z.of_nat (length bs)) ++ bs) ++ post).
    assert (Hin : input = pre2 ++ bs ++ post) by (unfold input, pre2; by rewrite <- !app_assoc).
    assert (Hd : decode_varint input (Z.of_nat (length (pre ++ encode_varint (no * 8 + 2)))) st =
      Done (Ok (Z.of_nat (length bs), Z.of_nat (length pre2))) st).
    { eapply (decode_varint_at _ (pre ++ encode_varint (no * 8 + 2)) (bs ++ post)); [done| |done|].
      - rewrite Hin. unfold pre2. by rewrite <- !app_assoc.
      - unfold pre2. rewrite !length_app. f_equal. lia. }
    assert (Hadd : add_usize oc (Z.of_nat (length pre2)) (Z.of_nat (length bs)) st =
      Done (Ok (Z.of_nat (length pre2 + length bs))) st).
    { unfold add_usize, pre2, ret. rewrite !length_app in *.
      rewrite (proj2 (Z.ltb_lt _ _)) by lia. rewrite andb_false_r.
      rewrite wrap_u_id by (unfold in_u; lia). do 2 f_equal. lia. }
    assert (Hle : (Z.of_nat (length input) <? Z.of_nat (length pre2 + length bs)) = false).
    { rewrite Hin, !length_app. apply Z.ltb_ge. lia. }
    assert (Hend : Z.of_nat (length pre2 + length bs) = Z.of_nat (length pre +
      length (encode_varint (no * 8 + 2) ++ encode_varint (Z.of_nat (length bs)) ++ bs))).
    { unfold pre2. rewrite !length_app. lia. }
    change (2 =? 0) with false. change (2 =? 2) with true. rewrite !andb_false_r, andb_true_r.
    destruct (Z.eqb_spec no 2) as [->|Hne]; rewrite Hd, Hadd, Hle.
    + rewrite Hin, slice_app by done. rewrite (Hok eq_refl). unfold ret. by rewrite Hend.
    + unfold ret. by rewrite Hend.
Qed.

Definition encode_message (fs : list Field) : list Z := concat (map encode_field fs).

Lemma encode_field_pos fl : field_ok fl -> (0 < length (encode_field fl))%nat.
Proof.
  destruct fl; intros [Hno _]; cbn [encode_field]; rewrite length_app;
    match goal with |- context [encode_varint ?k] =>
      pose proof (encode_varint_pos k ltac:(unfold in_u; lia)) end; lia.
Qed.

Lemma decode_fields_ok oc fs : Forall field_ok fs -> forall n pre f st,
  (length fs < n)%nat -> Z.of_nat (length (pre ++ encode_message fs)) < 2 ^ 64 ->
  decode_fields oc n (pre ++ encode_message fs) (Z.of_nat (length pre)) f st =
    Done (Ok (foldl (fun f fl => apply_field fl f) f fs)) st.
Proof.
  induction 1 as [|fl fs Hfl _ IH]; intros [|n] pre f st Hn Hlen; simpl in Hn; try lia;
    cbn [decode_fields].
  - rewrite (proj2 (Z.ltb_ge _ _)); [done|]. unfold encode_message. simpl. rewrite app_nil_r. lia.
  - unfold encode_message in *. cbn [map concat] in *. pose proof (encode_field_pos fl Hfl).
    rewrite (proj2 (Z.ltb_lt _ _)) by (rewrite !length_app; lia).
    unfold try. rewrite decode_field_ok by done.
    rewrite app_assoc, <- length_app. rewrite IH; [done|lia|]. by rewrite <- app_assoc.
Qed.

(** The decoder of user events accepts every well-formed message.  For
    any sequence of fields, in any order, with repetitions and with fields
    the event does not know, decoding the encoded sequence gives what the
    reference fold gives: the last occurrence of each known field, unknown
    fields skipped, and an error naming the first missing one. *)
Theorem decode_message_correct (oc : bool) (fs : list Field) (st : ProtoState) :
  Forall field_ok fs -> Z.of_nat (length (encode_message fs)) < 2 ^ 63 ->
  decode_user_event_wire oc (S (length fs)) (encode_message fs) st =
    match foldl (fun f fl => apply_field fl f) (None, None, None) fs with
    | (Some id, Some name, Some ts) => Done (Ok (id, name, ts)) st
    | (None, _, _) =>
        Done (Err SENGOO_PROTO_ERR_PARSE) (set_error SENGOO_PROTO_ERR_PARSE "missing required field id" st)
    | (_, None, _) =>
        Done (Err SENGOO_PROTO_ERR_PARSE) (set_error SENGOO_PROTO_ERR_PARSE "missing required field name" st)
    | (_, _, None) =>
        Done (Err SENGOO_PROTO_ERR_PARSE) (set_error SENGOO_PROTO_ERR_PARSE "missing required field ts" st)
    end.
Proof.
  intros HF Hlen. unfold decode_user_event_wire, try.
  pose proof (decode_fields_ok oc fs HF (S (length fs)) [] (None, None, None) st ltac:(lia)) as E.
  cbn [app length] in E; change (Z.of_nat 0) with 0 in E. rewrite E by lia.
  destruct (foldl _ _ fs) as [[[id|] [name|]] [ts|]]; done.
Qed.

Lemma encode_event_message id name ts :
  encode_user_event_wire id name ts =
    encode_message [FVarint 1 id; FBytes 2 name; FVarint 3 ts].
Proof.
  unfold encode_user_event_wire, encode_message. cbn [map concat encode_field].
  rewrite app_nil_r, <- !app_assoc. reflexivity.
Qed.

Lemma encode_event_length id name ts : in_u 32 id -> in_u 64 ts -> Z.of_nat (length name) < 2 ^ 62 ->
  Z.of_nat (length (encode_user_event_wire id name ts)) < 2 ^ 63 /\
  (0 < length (encode_user_event_wire id name ts))%nat.
Proof.
  intros Hid Hts Hn. unfold encode_user_event_wire. rewrite !length_app.
  pose proof (encode_varint_Some id ltac:(unfold in_u in *; lia)) as [_ ?].
  pose proof (encode_varint_Some (Z.of_nat (length name)) ltac:(unfold in_u in *; lia)) as [_ ?].
  pose proof (encode_varint_Some ts Hts) as [_ ?].
  assert (length (encode_varint (Z.shiftl 1 3)) = 1%nat) as -> by reflexivity.
  assert (length (encode_varint (Z.lor (Z.shiftl 2 3) 2)) = 1%nat) as -> by reflexivity.
  assert (length (encode_varint (Z.shiftl 3 3)) = 1%nat) as -> by reflexivity. lia.
Qed.

Lemma decode_encode_event oc id name ts st :
  in_u 32 id -> in_u 64 ts -> utf8_valid name = true -> Z.of_nat (length name) < 2 ^ 62 ->
  decode_user_event_wire oc 4 (encode_user_event_wire id name ts) st = Done (Ok (id, name, ts)) st.
Proof.
  intros Hid Hts Hname Hlen. destruct (encode_event_length id name ts Hid Hts Hlen) as [Hl _].
  rewrite encode_event_message in *. unfold decode_user_event_wire, try.
  pose proof (decode_fields_ok oc [FVarint 1 id; FBytes 2 name; FVarint 3 ts]) as E.
  specialize (fun HF => E HF 4%nat [] (None, None, None) st). cbn [app length] in E; change (Z.of_nat 0) with 0 in E.
  rewrite E; [|repeat constructor; simpl; unfold in_u in *; try lia; done|lia|lia].
  cbn [foldl apply_field Z.eqb Pos.eqb]. by rewrite wrap_u_id by done.
Qed.

(** ** Termination of the decoder *)

Lemma decode_varint_loop_fuel n input idx shift acc st :
  70 < shift + 7 * Z.of_nat n -> (0 < n)%nat ->
  decode_varint_loop n input idx shift acc st <> OutOfFuel.
Proof.
  revert idx shift acc. induction n as [|n IH]; intros idx shift acc Hn Hpos; [lia|].
  cbn [decode_varint_loop]. destruct (input !! _) as [b|]; [|by case_match].
  destruct (Z.leb_spec shift 63); [|by case_match].
  case_match; [done|]. apply IH; lia.
Qed.

Lemma decode_varint_nonneg n input idx shift acc st v idx' st' : 0 <= acc ->
  decode_varint_loop n input idx shift acc st = Done (Ok (v, idx')) st' -> 0 <= v.
Proof.
  revert idx shift acc. induction n as [|n IH]; intros idx shift acc Hacc; [done|].
  cbn [decode_varint_loop]. destruct (input !! _) as [b|]; [destruct (shift <=? 63)|];
    try (case_match; unfold fail; congruence).
  assert (0 <= Z.lor acc (wrap_u 64 (Z.shiftl (Z.land b 127) shift))) as Hn.
  { apply Z.lor_nonneg. split; [done|]. apply (wrap_u_range 64). lia. }
  case_match; [unfold ret; intros [= <- _ _]; done|]. by apply IH.
Qed.

Lemma decode_varint_loop_never_panics n input idx shift acc st :
  decode_varint_loop n input idx shift acc st <> Panic /\
  decode_varint_loop n input idx shift acc st <> OutOfBounds.
Proof.
  revert idx shift acc. induction n as [|n IH]; intros idx shift acc; [done|].
  cbn [decode_varint_loop]. repeat case_match; try done.
Qed.

(** A varint read either fails or moves the index forward. *)
Lemma decode_varint_cases input idx st :
  (exists code st', decode_varint input idx st = Done (Err code) st') \/
  (exists v idx', decode_varint input idx st = Done (Ok (v, idx')) st /\ idx < idx' /\ 0 <= v).
Proof.
  unfold decode_varint.
  destruct (decode_varint_loop 11 input idx 0 0 st) as [[[v idx']|code] st'| | |] eqn:E; eauto.
  - destruct (decode_varint_progress_loop _ _ _ _ _ _ _ _ _ E) as [? ->].
    pose proof (decode_varint_nonneg _ _ _ _ _ _ _ _ _ (Z.le_refl 0) E). eauto 10.
  - exfalso. by destruct (decode_varint_loop_never_panics 11 input idx 0 0 st).
  - exfalso. by destruct (decode_varint_loop_never_panics 11 input idx 0 0 st).
  - exfalso. apply (decode_varint_loop_fuel 11 input idx 0 0 st); [lia..|done].
Qed.

Definition progress_run (idx : Z) (r : Run (Z * Fields)) : Prop :=
  match r with
  | Done (Ok (idx', _)) _ => idx < idx'
  | OutOfFuel => False
  | _ => True
  end.

Lemma add_usize_checked_cases a b st : 0 <= a -> 0 <= b ->
  add_usize true a b st = Panic \/ add_usize true a b st = Done (Ok (a + b)) st.
Proof.
  intros Ha Hb. unfold add_usize. destruct (Z.ltb_spec (a + b) (2 ^ 64)); [right|by left].
  cbn [negb andb]. unfold ret. by rewrite wrap_u_id by (unfold in_u; lia).
Qed.

Lemma decode_field_progress input idx f st : 0 <= idx ->
  progress_run idx (decode_field true input idx f st).
Proof.
  intros Hidx. unfold decode_field, try. destruct f as [[id name] ts].
  destruct (decode_varint_cases input idx st) as [(c & st1 & ->)|(key & i1 & -> & Hi1 & _)]; [done|].
  assert (Hv : (exists c st1, decode_varint input i1 st = Done (Err c) st1) \/
     exists v i2, decode_varint input i1 st = Done (Ok (v, i2)) st /\ i1 < i2 /\ 0 <= v)
    by apply decode_varint_cases.
  destruct Hv as [(c & st1 & E)|(v & i2 & E & Hi2 & Hv)].
  - repeat (case_match; try rewrite E; try done).
  - destruct (add_usize_checked_cases i2 v st ltac:(lia) Hv) as [Ea|Ea];
      repeat (case_match; try rewrite E; try rewrite Ea; try done);
      unfold ret, fail, slice in *; simplify_eq/=; try lia; try done;
      repeat (case_match; simplify_eq/=; try lia; try done).
Qed.

Lemma decode_fields_returns n input idx f st : 0 <= idx -> (0 < n)%nat ->
  Z.of_nat (length input) - idx < Z.of_nat n ->
  decode_fields true n input idx f st <> OutOfFuel.
Proof.
  revert idx f st. induction n as [|n IH]; intros idx f st Hidx Hpos Hn.
  - lia.
  - cbn [decode_fields]. destruct (Z.ltb_spec idx (Z.of_nat (length input))); [|done].
    pose proof (decode_field_progress input idx f st Hidx) as Hp. unfold try.
    destruct (decode_field true input idx f st) as [[[idx' f']|code] st'| | |]; try done.
    simpl in Hp. apply IH; lia.
Qed.

Lemma decode_event_returns n input st : (length input < n)%nat ->
  decode_user_event_wire true n input st <> OutOfFuel.
Proof.
  intros Hn. unfold decode_user_event_wire, try.
  pose proof (decode_fields_returns n input 0 (None, None, None) st ltac:(lia) ltac:(lia) ltac:(lia)).
  destruct (decode_fields true n input 0 _ st) as [[[[[id|] [name|]] [ts|]]|code] st'| | |]; done.
Qed.

Lemma decode_fields_mono oc n m input idx f st : (n <= m)%nat ->
  decode_fields oc n input idx f st <> OutOfFuel ->
  decode_fields oc m input idx f st = decode_fields oc n input idx f st.
Proof.
  revert m idx f st. induction n as [|n IH]; intros [|m] idx f st Hle; try done; [lia|].
  cbn [decode_fields]. case_match; [|done]. unfold try.
  destruct (decode_field oc input idx f st) as [[[idx' f']|code] st'| | |]; try done.
  apply IH. lia.
Qed.

(** With overflow checks the decoder returns on every input: any fuel
    above the input's length gives the same run, which is a value, an error
    code or a panic, and the loop ends. *)
Theorem decode_terminates_checked (n : nat) (input : list Z) (st : ProtoState) :
  (length input < n)%nat ->
  decode_user_event_wire true n input st =
    decode_user_event_wire true (S (length input)) input st /\
  decode_user_event_wire true n input st <> OutOfFuel.
Proof.
  intros Hn. split; [|by apply decode_event_returns].
  unfold decode_user_event_wire, try. rewrite (decode_fields_mono true (S (length input)) n); [done|lia|].
  apply decode_fields_returns; lia.
Qed.

Lemma decode_terminates_checked_witness :
  decode_user_event_wire true 20 [8; 1] proto_init = decode_user_event_wire true 3 [8; 1] proto_init /\
  decode_user_event_wire true 20 [8; 1] proto_init <> OutOfFuel.
Proof. apply (decode_terminates_checked 20 [8; 1] proto_init). simpl. lia. Defined.

Lemma decode_message_correct_witness :
  decode_user_event_wire false 5 (encode_message
    [FVarint 9 300; FVarint 3 77; FBytes 2 [97; 98]; FVarint 1 5]) proto_init =
  Done (Ok (5, [97; 98], 77)) proto_init.
Proof.
  refine (eq_trans (decode_message_correct false
    [FVarint 9 300; FVarint 3 77; FBytes 2 [97; 98]; FVarint 1 5] proto_init _ _) _).
  - repeat constructor; unfold in_u; try lia; try done.
  - vm_compute. reflexivity.
  - vm_compute. reflexivity.
Defined.

(** Without overflow checks (the release profile) the decoder does not
    return on a message whose unknown field 4 claims a payload of [2^64 - 11]
    bytes: [idx + len] wraps to 0 and the loop starts over. *)
Theorem decode_diverges_release (n : nat) (st : ProtoState) :
  decode_user_event_wire false n (encode_varint 34 ++ encode_varint (2 ^ 64 - 11)) st = OutOfFuel.
Proof.
  assert (H : forall n f st, decode_fields false n (encode_varint 34 ++ encode_varint (2 ^ 64 - 11)) 0 f st = OutOfFuel).
  { clear. induction n as [|n IH]; intros [[id name] ts] st; [done|].
    set (input := encode_varint 34 ++ encode_varint (2 ^ 64 - 11)) in *.
    assert (E : decode_field false input 0 (id, name, ts) st = Done (Ok (0, (id, name, ts))) st)
      by (vm_compute; reflexivity).
    cbn [decode_fields]. unfold try. rewrite E. apply IH. }
  unfold decode_user_event_wire, try. by rewrite H.
Qed.

(** ** Handles *)

(** Handles count up from 1 and none is reused: the table only holds handles
    already given out. *)
Record proto_inv (st : ProtoState) : Prop := {
  inv_next : 0 < next_handle st < 2 ^ 64;
  inv_table : forall h e, decoded_user_events st !! h = Some e -> 0 < h < next_handle st;
}.

Lemma proto_init_inv : proto_inv proto_init.
Proof. split; simpl; [lia|]. intros h e. by rewrite lookup_empty. Qed.

Lemma clear_error_inv st : proto_inv st -> proto_inv (clear_error st).
Proof. intros []. unfold clear_error. destruct (error_poisoned st); by split. Qed.

Lemma set_error_inv code msg st : proto_inv st -> proto_inv (set_error code msg st).
Proof. intros []. unfold set_error. destruct (error_poisoned st); by split. Qed.

Lemma clear_error_table st : decoded_user_events (clear_error st) = decoded_user_events st /\
  next_handle (clear_error st) = next_handle st /\ table_poisoned (clear_error st) = table_poisoned st.
Proof. unfold clear_error. by destruct (error_poisoned st). Qed.

(** The four readers, once the table lock is available. *)
Lemma with_decoded_hit {B} handle (on_err : Z -> B) k st e :
  table_poisoned st = false -> decoded_user_events st !! handle = Some e ->
  with_decoded handle on_err k (clear_error st) = k e (clear_error st).
Proof.
  intros Hp Hl. unfold with_decoded. destruct (clear_error_table st) as (-> & _ & ->).
  by rewrite Hp, Hl.
Qed.

Lemma with_decoded_miss {B} handle (on_err : Z -> B) k st :
  table_poisoned st = false -> decoded_user_events st !! handle = None ->
  (with_decoded handle on_err k (clear_error st)).1 = on_err SENGOO_PROTO_ERR_INVALID_ARGUMENT.
Proof.
  intros Hp Hl. unfold with_decoded. destruct (clear_error_table st) as (-> & _ & ->).
  by rewrite Hp, Hl.
Qed.

(** Opening an encoded event adds it under the next handle. *)
Lemma decode_open_ok oc id name ts st :
  in_u 32 id -> in_u 64 ts -> utf8_valid name = true -> Z.of_nat (length name) < 2 ^ 62 ->
  proto_inv st -> next_handle st + 1 < 2 ^ 64 -> table_poisoned st = false ->
  let wire := encode_user_event_wire id name ts in
  exists st1, sengoo_proto_user_event_decode_open oc 4 (Some wire) (length wire) st = Done (Ok (next_handle st)) st1 /\
    decoded_user_events st1 = <[next_handle st := mkEvent id name ts]> (decoded_user_events st) /\
    next_handle st1 = next_handle st + 1 /\ table_poisoned st1 = false.
Proof.
  intros Hid Hts Hname Hlen Hinv Hnext Hpois wire.
  destruct (encode_event_length id name ts Hid Hts Hlen) as [_ Hpos].
  destruct (clear_error_table st) as (Htbl & Hnxt & Hp).
  eexists. split.
  { unfold sengoo_proto_user_event_decode_open. rewrite (proj2 (Nat.eqb_neq _ _)) by (unfold wire; lia).
    rewrite Nat.ltb_irrefl, take_ge by lia. unfold or_return.
    unfold wire. rewrite decode_encode_event by done. rewrite Hp, Hpois.
    unfold next_decoded_handle. rewrite Hnxt, Htbl. cbn [ret]. reflexivity. }
  split_and!; [done| |simpl; congruence].
  simpl. apply wrap_u_id. unfold in_u. destruct Hinv. lia.
Qed.

(** Closing removes the event and nothing else. *)
Lemma decoded_close_ok h e st : table_poisoned st = false -> decoded_user_events st !! h = Some e ->
  exists st2, sengoo_proto_user_event_decoded_close h st = (SENGOO_PROTO_OK, st2) /\
    decoded_user_events st2 = delete h (decoded_user_events st) /\
    next_handle st2 = next_handle st /\ table_poisoned st2 = false.
Proof.
  intros Hp Hl. destruct (clear_error_table st) as (Ht & Hn & Hp'). eexists.
  unfold sengoo_proto_user_event_decoded_close. rewrite (with_decoded_hit _ _ _ _ _ Hp Hl).
  split; [reflexivity|]. simpl. split_and!; congruence.
Qed.

Lemma proto_inv_same st st' : proto_inv st -> next_handle st <= next_handle st' < 2 ^ 64 ->
  (forall h e, decoded_user_events st' !! h = Some e -> is_Some (decoded_user_events st !! h) \/ 0 < h < next_handle st') ->
  proto_inv st'.
Proof.
  intros [Hn Ht] Hn' Ht'. split; [lia|]. intros h e E. destruct (Ht' h e E) as [[e' E']|]; [|done].
  apply Ht in E'. lia.
Qed.

(** Encode, open, read, close.  Opening the bytes [encode] produced gives
    a fresh non-zero handle; through it the readers return the id, the
    timestamp as an [i64], and the name; every handle opened before still
    reads the same event; closing succeeds once, and afterwards each reader
    reports an invalid argument. *)
Theorem decoded_event_lifecycle (oc : bool) (id ts : Z) (name : list Z) (st : ProtoState) :
  in_u 32 id -> in_u 64 ts -> utf8_valid name = true -> Z.of_nat (length name) < 2 ^ 62 ->
  proto_inv st -> next_handle st + 1 < 2 ^ 64 -> table_poisoned st = false ->
  let wire := encode_user_event_wire id name ts in
  exists h st1, sengoo_proto_user_event_decode_open oc 4 (Some wire) (length wire) st = Done (Ok h) st1 /\
    0 < h /\ decoded_user_events st !! h = None /\ proto_inv st1 /\
    (sengoo_proto_user_event_decoded_id h st1).1 = id /\
    (sengoo_proto_user_event_decoded_ts h st1).1 = wrap_s 64 ts /\
    (sengoo_proto_user_event_decoded_name_len h st1).1 = Z.of_nat (length name) /\
    (forall buf, (sengoo_proto_user_event_decoded_name_copy h (Some buf) (length name) st1).1 =
       (Z.of_nat (length name), Some (write_block name buf))) /\
    (forall h' e, decoded_user_events st !! h' = Some e -> decoded_user_events st1 !! h' = Some e) /\
    exists st2, sengoo_proto_user_event_decoded_close h st1 = (SENGOO_PROTO_OK, st2) /\
      proto_inv st2 /\ decoded_user_events st2 = decoded_user_events st /\
      (sengoo_proto_user_event_decoded_id h st2).1 = SENGOO_PROTO_ERR_INVALID_ARGUMENT /\
      (sengoo_proto_user_event_decoded_close h st2).1 = SENGOO_PROTO_ERR_INVALID_ARGUMENT.
Proof.
  intros Hid Hts Hname Hlen Hinv Hnext Hpois wire.
  assert (Hfresh : decoded_user_events st !! next_handle st = None).
  { destruct (decoded_user_events st !! next_handle st) eqn:E; [|done]. apply (inv_table _ Hinv) in E. lia. }
  pose proof (inv_next _ Hinv) as Hpos.
  destruct (decode_open_ok oc id name ts st Hid Hts Hname Hlen Hinv Hnext Hpois) as (st1 & Eo & Ht1 & Hn1 & Hp1).
  assert (Hl1 : decoded_user_events st1 !! next_handle st = Some (mkEvent id name ts))
    by (rewrite Ht1; apply lookup_insert_eq).
  destruct (decoded_close_ok _ _ _ Hp1 Hl1) as (st2 & Ec & Ht2 & Hn2 & Hp2).
  rewrite Ht1, delete_insert_id in Ht2 by done.
  exists (next_handle st), st1. split; [exact Eo|]. split; [lia|]. split; [done|].
  split. { apply (proto_inv_same st); [done|lia|]. intros h e. rewrite Ht1, lookup_insert_Some.
    intros [[<- _]|[_ E]]; [right; lia|eauto]. }
  unfold sengoo_proto_user_event_decoded_id, sengoo_proto_user_event_decoded_ts,
    sengoo_proto_user_event_decoded_name_len, sengoo_proto_user_event_decoded_name_copy.
  split_and!; try (by rewrite (with_decoded_hit _ _ _ _ _ Hp1 Hl1)).
  - intros buf. rewrite (with_decoded_hit _ _ _ _ _ Hp1 Hl1). simpl. by rewrite Nat.min_id, firstn_all.
  - intros h' e E. rewrite Ht1, lookup_insert_ne; [done|]. congruence.
  - exists st2. split; [exact Ec|]. split; [|split; [done|]].
    + apply (proto_inv_same st); [done|lia|]. intros h e. rewrite Ht2. eauto.
    + unfold sengoo_proto_user_event_decoded_close. split; by apply with_decoded_miss; rewrite ?Ht2.
Qed.

Lemma decoded_event_lifecycle_witness :
  exists h st1, sengoo_proto_user_event_decode_open false 4
      (Some (encode_user_event_wire 7 [104; 105] (2 ^ 64 - 1)))
      (length (encode_user_event_wire 7 [104; 105] (2 ^ 64 - 1))) proto_init = Done (Ok h) st1 /\
    (sengoo_proto_user_event_decoded_ts h st1).1 = -1.
Proof.
  destruct (decoded_event_lifecycle false 7 (2 ^ 64 - 1) [104; 105] proto_init)
    as (h & st1 & E & _ & _ & _ & _ & Hts & _).
  - vm_compute. split; [discriminate|reflexivity].
  - vm_compute. split; [discriminate|reflexivity].
  - reflexivity.
  - reflexivity.
  - exact proto_init_inv.
  - reflexivity.
  - reflexivity.
  - exists h, st1. split; [exact E|]. exact Hts.
Defined.

Lemma c_string_scan_ok name rest len :
  Forall (fun b => b <> 0) name -> Z.of_nat (len + length name) <= max_c_string ->
  c_string_scan (name ++ 0 :: rest) len = Some (Ok (len + length name)%nat).
Proof.
  intros HF. revert len. induction HF as [|b name Hb _ IH]; intros len Hlen; cbn [c_string_scan app].
  - rewrite Z.eqb_refl. simpl. by rewrite Nat.add_0_r.
  - rewrite (proj2 (Z.eqb_neq _ _)) by done. cbn [length] in *.
    rewrite (proj2 (Z.ltb_ge _ _)) by lia. rewrite IH by lia. do 2 f_equal. lia.
Qed.

(** The C entry points round-trip.  Encoding a NUL-terminated UTF-8 name
    of at most 8 MiB into a large enough buffer returns the length of the
    encoding; decoding that prefix of the buffer returns the same id, name and
    timestamp through the output pointers.  Neither call leaves an error. *)
Theorem event_c_roundtrip (oc : bool) (id ts old_id old_ts : Z) (name rest buf name_buf : list Z)
    (capacity name_capacity : nat) (st : ProtoState) :
  in_u 32 id -> in_u 64 ts -> utf8_valid name = true -> Forall (fun b => b <> 0) name ->
  Z.of_nat (length name) <= max_c_string -> (length name <= name_capacity)%nat ->
  (length (encode_user_event_wire id name ts) <= capacity <= length buf)%nat ->
  exists buf', let len := length (encode_user_event_wire id name ts) in
    sengoo_proto_user_event_encode id (Some (name ++ 0 :: rest)) ts (Some buf) capacity st =
      Done (Ok (Z.of_nat len, Some buf')) (clear_error st) /\
    sengoo_proto_user_event_decode oc 4 (Some buf') len (Some old_id) (Some name_buf) name_capacity
      (Some old_ts) st =
      Done (Ok (Z.of_nat (length name), (Some id, Some (write_block name name_buf), Some ts)))
        (clear_error st).
Proof.
  intros Hid Hts Hname HF Hmax Hcap [Hl1 Hl2].
  assert (Hlen : Z.of_nat (length name) < 2 ^ 62).
  { unfold max_c_string in Hmax. lia. }
  destruct (encode_event_length id name ts Hid Hts Hlen) as [_ Hpos].
  set (wire := encode_user_event_wire id name ts) in *.
  exists (wire ++ drop (length wire) buf). split.
  - unfold sengoo_proto_user_event_encode, or_return, parse_c_string.
    rewrite c_string_scan_ok by done. cbn [Nat.add]. rewrite take_app_length, Hname.
    unfold ret at 1. fold wire. rewrite (proj2 (Nat.ltb_ge _ _)) by lia.
    unfold copy_bytes_to_buffer. by rewrite Nat.min_l, firstn_all by lia.
  - unfold sengoo_proto_user_event_decode. rewrite (proj2 (Nat.eqb_neq _ _)) by lia.
    rewrite (proj2 (Nat.ltb_ge _ _)) by (rewrite length_app; lia).
    rewrite take_app_length. unfold or_return, wire. rewrite decode_encode_event by done.
    by rewrite (proj2 (Nat.ltb_ge _ _)) by lia.
Qed.

Lemma event_c_roundtrip_witness :
  exists buf', sengoo_proto_user_event_encode 7 (Some [104; 105; 0]) 9 (Some (repeat 0 16)) 16 proto_init =
      Done (Ok (8, Some buf')) (clear_error proto_init) /\
    sengoo_proto_user_event_decode true 4 (Some buf') 8 (Some 0) (Some [1; 2; 3]) 3 (Some 0) proto_init =
      Done (Ok (2, (Some 7, Some [104; 105; 3], Some 9))) (clear_error proto_init).
Proof.
  refine (event_c_roundtrip true 7 9 0 0 [104; 105] [] (repeat 0 16) [1; 2; 3] 16 3 proto_init
    _ _ _ _ _ _ _).
  - vm_compute. split; [discriminate|reflexivity].
  - vm_compute. split; [discriminate|reflexivity].
  - reflexivity.
  - repeat constructor; discriminate.
  - vm_compute. discriminate.
  - simpl. lia.
  - split; apply Nat.leb_le; vm_compute; reflexivity.
Defined.
