(* ===== verification/Executor.v ===== *)
(** The concurrent executor: runtime/src/async_runtime/executor.rs.

    The mutex-protected state, the control block every task shares with its
    workers, and the worker threads, as a transition system.  One step is one
    critical section or one atomic load; steps of different threads interleave
    freely.  A worker is a stack of frames: [worker_loop] runs on the empty
    stack, and a task that joins another task from inside its [poll] makes
    the worker run its queue again above the frame that polls
    ([help_join_on_worker]).  Condition variables only decide when a waiting
    thread looks again, so they are not part of the state.  The coroutine is a
    parameter [Task]; what its [poll] and [cancel] answer is an input of the
    step. *)

From S2P Require Import Prelude.

Local Open Scope Z_scope.

Definition STATUS_INVALID_ARGUMENT : Z := 2.
Definition IDLE_REPOLL_DELAY : Z := 1000000.
Definition CONCURRENT_TASK_ID_TAG : Z := Z.shiftl 1 62.
Definition RETIRED_STATUS_CAPACITY : nat := Z.to_nat 4096.

Notation TaskId := Z (only parsing).

Inductive TaskLifecycleStatus :=
| Unknown
| Pending
| Completed
| Canceled
| Failed.

#[export] Instance TaskLifecycleStatus_eq_dec : EqDecision TaskLifecycleStatus.
Proof. solve_decision. Defined.

Inductive ConcurrentSubmitError := AtCapacity | ShuttingDown.

Inductive ConcurrentShutdownMode := Drain | Cancel.

#[export] Instance ConcurrentShutdownMode_eq_dec : EqDecision ConcurrentShutdownMode.
Proof. solve_decision. Defined.

(** ** Task ids of the C interface *)

(** [i64::try_from(task_id).ok()?], then the tag bit. *)
Definition encode_task_id (task_id : TaskId) : option Z :=
  if task_id <? 2 ^ 63 then
    if (0 <? task_id) && (task_id <? CONCURRENT_TASK_ID_TAG)
    then Some (Z.lor task_id CONCURRENT_TASK_ID_TAG) else None
  else None.

(** [!CONCURRENT_TASK_ID_TAG] is [Z.lnot]. *)
Definition decode_task_id (task_id : Z) : option TaskId :=
  if (task_id <=? CONCURRENT_TASK_ID_TAG) || (Z.land task_id CONCURRENT_TASK_ID_TAG =? 0)
  then None
  else Some (wrap_u 64 (Z.land task_id (Z.lnot CONCURRENT_TASK_ID_TAG))).

Definition is_concurrent_task_id (task_id : Z) : bool :=
  match decode_task_id task_id with Some _ => true | None => false end.

(** ** Statuses of executors that were shut down *)

Record RetiredTaskStatuses := mkRetired {
  retired_capacity : nat;
  retired_statuses : gmap TaskId TaskLifecycleStatus;
  retired_order : list TaskId;
}.

Definition retired_new (capacity : nat) : RetiredTaskStatuses := mkRetired capacity ∅ [].

(** [while self.order.len() > self.capacity { pop_front; remove }] *)
Fixpoint retired_expire (capacity : nat) (statuses : gmap TaskId TaskLifecycleStatus)
    (order : list TaskId) : gmap TaskId TaskLifecycleStatus * list TaskId :=
  match order with
  | [] => (statuses, [])
  | expired :: order' =>
      if Nat.ltb capacity (length order)
      then retired_expire capacity (delete expired statuses) order'
      else (statuses, order)
  end.

Definition retire_one (r : RetiredTaskStatuses) (entry : TaskId * TaskLifecycleStatus)
    : RetiredTaskStatuses :=
  let '(task_id, status) := entry in
  if decide (status = Pending) then r else
  if decide (status = Unknown) then r else
  let order :=
    match retired_statuses r !! task_id with
    | None => retired_order r ++ [task_id]
    | Some _ => retired_order r
    end in
  let '(statuses, order) :=
    retired_expire (retired_capacity r) (<[task_id := status]> (retired_statuses r)) order in
  mkRetired (retired_capacity r) statuses order.

(** [sort_unstable_by_key]: the keys of a map are distinct, so the order is
    determined. *)
Fixpoint insert_by_id (e : TaskId * TaskLifecycleStatus) (l : list (TaskId * TaskLifecycleStatus))
    : list (TaskId * TaskLifecycleStatus) :=
  match l with
  | [] => [e]
  | x :: l' => if e.1 <=? x.1 then e :: l else x :: insert_by_id e l'
  end.

Definition sort_by_id (l : list (TaskId * TaskLifecycleStatus)) : list (TaskId * TaskLifecycleStatus) :=
  foldr insert_by_id [] l.

Definition retire (statuses : gmap TaskId TaskLifecycleStatus) (r : RetiredTaskStatuses)
    : RetiredTaskStatuses :=
  foldl retire_one r (sort_by_id (map_to_list statuses)).

Definition retired_status (r : RetiredTaskStatuses) (task_id : TaskId) : TaskLifecycleStatus :=
  default Unknown (retired_statuses r !! task_id).

(** ** The executor *)

Section executor.
Context {Task : Type}.

(** [Arc<ConcurrentTask>]; the block of task [id] lives at address [id]. *)
Record ConcurrentTask := mkControl {
  worker_index : nat;
  task : option Task;
  cancel_requested : bool;
}.

Record QueuedTask := mkQueued {
  control : TaskId;
  next_wakeup : option Z;
}.

Record ExecutorState := mkState {
  queues : list (list QueuedTask);
  next_worker : Z;
  controls : gset TaskId;
  statuses : gmap TaskId TaskLifecycleStatus;
  active : nat;
  accepting : bool;
  shutdown_mode : option ConcurrentShutdownMode;
  stop_workers : bool;
}.

(** Where a worker is inside [poll_task]. *)
Inductive Frame :=
| Popped (id : TaskId)                              (* [poll_task] was called *)
| Taken (id : TaskId) (t : Task)                    (* the task was taken out of its block *)
| Polling (id : TaskId) (t : Task)                  (* inside [task.poll()] *)
| Polled (id : TaskId) (t : Task) (hint : option Z) (* it answered [Pending] *)
| Storing (id : TaskId) (t : Task) (wakeup : Z)     (* about to put the task back *)
| Parking (id : TaskId) (wakeup : Z)                (* about to queue it again *)
| Canceling (id : TaskId) (t : Task)                (* inside [cancel_task] *)
| Finishing (id : TaskId) (status : TaskLifecycleStatus). (* about to call [finish_task] *)

Record Exec := mkExec {
  capacity : nat;
  state : ExecutorState;
  heap : gmap TaskId ConcurrentTask;
  next_task_id : Z;          (* [NEXT_CONCURRENT_TASK_ID] *)
  frames : list (list Frame);
}.

Definition set_state (s : ExecutorState) (e : Exec) : Exec :=
  mkExec (capacity e) s (heap e) (next_task_id e) (frames e).
Definition set_heap (h : gmap TaskId ConcurrentTask) (e : Exec) : Exec :=
  mkExec (capacity e) (state e) h (next_task_id e) (frames e).
Definition set_frames (w : nat) (fs : list Frame) (e : Exec) : Exec :=
  mkExec (capacity e) (state e) (heap e) (next_task_id e) (<[w := fs]> (frames e)).

Definition executor_new (worker_count cap : nat) (next_id : Z) : result Exec Z :=
  if Nat.eqb worker_count 0 || Nat.eqb cap 0 then Err STATUS_INVALID_ARGUMENT
  else Ok (mkExec cap
    (mkState (repeat [] worker_count) 0 ∅ ∅ 0 true None false)
    ∅ next_id (repeat [] worker_count)).

(** [spawn_returning_task]: a rejected task is handed back. *)
Definition spawn (t : Task) (e : Exec) : result TaskId (ConcurrentSubmitError * Task) * Exec :=
  let s := state e in
  if negb (accepting s) then (Err (ShuttingDown, t), e)
  else if Nat.leb (capacity e) (active s) then (Err (AtCapacity, t), e)
  else
    let id := next_task_id e in
    let e := mkExec (capacity e) s (heap e) (wrap_u 64 (id + 1)) (frames e) in
    if (id =? 0) || (CONCURRENT_TASK_ID_TAG <=? id) then (Err (ShuttingDown, t), e)
    else
      let w := Z.to_nat (next_worker s mod Z.of_nat (length (queues s))) in
      let queue := default [] (queues s !! w) in
      let s := mkState (<[w := queue ++ [mkQueued id None]]> (queues s))
                 (wrap_u 64 (next_worker s + 1)) ({[id]} ∪ controls s)
                 (<[id := Pending]> (statuses s)) (S (active s))
                 (accepting s) (shutdown_mode s) (stop_workers s) in
      (Ok id, mkExec (capacity e) s (<[id := mkControl w (Some t) false]> (heap e))
                (next_task_id e) (frames e)).

Definition task_status_shared (e : Exec) (task_id : TaskId) : TaskLifecycleStatus :=
  default Unknown (statuses (state e) !! task_id).

Definition request_cancel (h : gmap TaskId ConcurrentTask) (id : TaskId) : gmap TaskId ConcurrentTask :=
  alter (fun c => mkControl (worker_index c) (task c) true) id h.

Definition cancel_shared (task_id : TaskId) (e : Exec) : bool * Exec :=
  if decide (statuses (state e) !! task_id = Some Pending) then
    if decide (task_id ∈ controls (state e)) then
      (true, set_heap (request_cancel (heap e) task_id) e)
    else (false, e)
  else (false, e).

(** The first critical section of [shutdown]. *)
Definition shutdown_begin (mode : ConcurrentShutdownMode) (e : Exec) : Exec :=
  let s := state e in
  if decide (mode = Cancel \/ shutdown_mode s = Some Cancel) then
    mkExec (capacity e)
      (mkState (queues s) (next_worker s) (controls s) (statuses s) (active s) false
         (Some Cancel) (stop_workers s))
      (set_fold (fun id h => request_cancel h id) (heap e) (controls s))
      (next_task_id e) (frames e)
  else
    set_state (mkState (queues s) (next_worker s) (controls s) (statuses s) (active s) false
      (Some Drain) (stop_workers s)) e.

(** Its second one, after [while state.active != 0] has ended. *)
Definition shutdown_stop (e : Exec) : option Exec :=
  let s := state e in
  if Nat.eqb (active s) 0 then
    Some (set_state (mkState (queues s) (next_worker s) (controls s) (statuses s) (active s)
      (accepting s) (shutdown_mode s) true) e)
  else None.

Definition cancel_flag (h : gmap TaskId ConcurrentTask) (id : TaskId) : bool :=
  match h !! id with Some c => cancel_requested c | None => false end.

Definition ready (h : gmap TaskId ConcurrentTask) (now : Z) (q : QueuedTask) : bool :=
  match next_wakeup q with None => true | Some deadline => deadline <=? now end
  || cancel_flag h (control q).

(** The loop of [next_ready_task] over at most [n] entries. *)
Fixpoint next_ready_loop (h : gmap TaskId ConcurrentTask) (now : Z) (n : nat)
    (queue : list QueuedTask) (earliest : option Z) : option QueuedTask * option Z * list QueuedTask :=
  match n with
  | O => (None, earliest, queue)
  | S n' =>
      match queue with
      | [] => (None, earliest, [])
      | q :: queue' =>
          if ready h now q then (Some q, None, queue')
          else
            let delay := Z.max 0 (default now (next_wakeup q) - now) in
            next_ready_loop h now n' (queue' ++ [q])
              (Some (match earliest with Some d => Z.min d delay | None => delay end))
      end
  end.

Definition set_queue (w : nat) (queue : list QueuedTask) (s : ExecutorState) : ExecutorState :=
  mkState (<[w := queue]> (queues s)) (next_worker s) (controls s) (statuses s) (active s)
    (accepting s) (shutdown_mode s) (stop_workers s).

Definition next_ready_task (w : nat) (now : Z) (e : Exec) : option QueuedTask * option Z * Exec :=
  match queues (state e) !! w with
  | None => (None, None, e)
  | Some queue =>
      let '(q, delay, queue) := next_ready_loop (heap e) now (length queue) queue None in
      (q, delay, set_state (set_queue w queue (state e)) e)
  end.

Definition finish_task (task_id : TaskId) (status : TaskLifecycleStatus) (e : Exec) : Exec :=
  let s := state e in
  if decide (statuses s !! task_id = Some Pending) then
    set_state (mkState (queues s) (next_worker s) (controls s ∖ {[task_id]})
      (<[task_id := status]> (statuses s)) (active s - 1)%nat (accepting s) (shutdown_mode s)
      (stop_workers s)) e
  else e.

(** The status [cancel_task] decides on: what [task.cancel()] answered ([None]
    is a panic) and whether [on_scheduler_drop] returned. *)
Definition cancel_task_status (cancel_result : option bool) (drop_ok : bool) : TaskLifecycleStatus :=
  match cancel_result with
  | Some true => Canceled
  | Some false => if drop_ok then Canceled else Failed
  | None => Failed
  end.

(** What [catch_unwind(|| task.poll())] gave, with the wakeup hint recorded. *)
Inductive PollOutcome :=
| PollComplete
| PollPending (t : Task) (hint : option Z)
| PollPanic.

Definition push_queue (w : nat) (q : QueuedTask) (s : ExecutorState) : ExecutorState :=
  set_queue w (default [] (queues s !! w) ++ [q]) s.

(** One step of [poll_task] for the frame on top of a worker's stack: the new
    frame, if the call has not returned, and the new state.  [outcome],
    [cancel_result] and [drop_ok] are what the coroutine answers; [now] is the
    clock. *)
Definition frame_step (outcome : PollOutcome) (cancel_result : option bool) (drop_ok : bool)
    (now : Z) (f : Frame) (e : Exec) : option Frame * Exec :=
  match f with
  | Popped id =>
      match heap e !! id with
      | Some c =>
          match task c with
          | Some t =>
              (Some (Taken id t),
               set_heap (<[id := mkControl (worker_index c) None (cancel_requested c)]> (heap e)) e)
          | None => (None, e)
          end
      | None => (None, e)
      end
  | Taken id t =>
      if cancel_flag (heap e) id then (Some (Canceling id t), e) else (Some (Polling id t), e)
  | Polling id t =>
      match outcome with
      | PollComplete => (Some (Finishing id Completed), e)
      | PollPending t' hint => (Some (Polled id t' hint), e)
      | PollPanic => (Some (Finishing id Failed), e)
      end
  | Polled id t hint =>
      if cancel_flag (heap e) id then (Some (Canceling id t), e)
      else (Some (Storing id t (default (now + IDLE_REPOLL_DELAY) hint)), e)
  | Storing id t wakeup =>
      (Some (Parking id wakeup),
       set_heap (alter (fun c => mkControl (worker_index c) (Some t) (cancel_requested c)) id (heap e)) e)
  | Parking id wakeup =>
      match heap e !! id with
      | Some c => (None, set_state (push_queue (worker_index c) (mkQueued id (Some wakeup)) (state e)) e)
      | None => (None, e)
      end
  | Canceling id t => (Some (Finishing id (cancel_task_status cancel_result drop_ok)), e)
  | Finishing id status => (None, finish_task id status e)
  end.

Definition run_frame (outcome : PollOutcome) (cancel_result : option bool) (drop_ok : bool)
    (now : Z) (w : nat) (e : Exec) : option Exec :=
  match frames e !! w with
  | Some (f :: fs) =>
      let '(f', e') := frame_step outcome cancel_result drop_ok now f e in
      Some (set_frames w (match f' with Some f' => f' :: fs | None => fs end) e')
  | _ => None
  end.

(** [worker_loop] between tasks, or [help_join_on_worker] called by the
    coroutine that a frame is running: look for work in the worker's own
    queue. *)
Definition look_for_work (now : Z) (w : nat) (e : Exec) : option Exec :=
  match frames e !! w with
  | Some fs =>
      let may_look :=
        match fs with
        | [] => negb (stop_workers (state e))
        | Polling _ _ :: _ | Canceling _ _ :: _ => true
        | _ => false
        end in
      if may_look then
        let '(q, _, e') := next_ready_task w now e in
        Some (match q with Some q => set_frames w (Popped (control q) :: fs) e' | None => e' end)
      else None
  | None => None
  end.

(** *** Interleavings *)

Inductive worker_step : Exec -> Exec -> Prop :=
| step_frame outcome cancel_result drop_ok now w e e' :
    run_frame outcome cancel_result drop_ok now w e = Some e' -> worker_step e e'
| step_look now w e e' :
    look_for_work now w e = Some e' -> worker_step e e'.

(** A submission may draw an id as long as the 64-bit counter does not wrap. *)
Inductive step : Exec -> Exec -> Prop :=
| step_spawn t e : next_task_id e + 1 < 2 ^ 64 -> step e (spawn t e).2
| step_cancel id e : step e (cancel_shared id e).2
| step_shutdown mode e : step e (shutdown_begin mode e)
| step_stop e e' : accepting (state e) = false -> shutdown_stop e = Some e' -> step e e'
| step_worker e e' : worker_step e e' -> step e e'.

Definition reachable (e : Exec) : Prop := exists n cap id e0,
  0 < id < 2 ^ 64 /\ executor_new n cap id = Ok e0 /\ rtc step e0 e.
End executor.

Arguments Exec : clear implicits.
