(* ===== verification/ExecutorInv.v ===== *)
(** Correctness of the concurrent executor of Executor.v: the invariant that
    places every task exactly once, final statuses, and the progress of a
    cancelling shutdown. *)

From S2P Require Import Prelude Executor.

Local Open Scope Z_scope.

(** ** Where the tasks are *)

Section invariant.
Context {Task : Type}.
Notation Exec := (Exec Task).
Implicit Types (e : Exec) (L : list (TaskId * bool)) (h : gmap TaskId (@ConcurrentTask Task)).

(** The task a frame works on, and whether its coroutine is in its block. *)
Definition frame_loc (f : @Frame Task) : TaskId * bool :=
  match f with
  | Popped id | Parking id _ => (id, true)
  | Taken id _ | Polling id _ | Polled id _ _ | Storing id _ _ | Canceling id _
  | Finishing id _ => (id, false)
  end.

Definition queue_loc (q : QueuedTask) : TaskId * bool := (control q, true).

Definition located e : list (TaskId * bool) :=
  map queue_loc (concat (queues (state e))) ++ map frame_loc (concat (frames e)).

(** Every pending task is in one place, its coroutine in its block or in the
    hands of one worker, and [active] counts the pending tasks. *)
Record placed L (st : gmap TaskId TaskLifecycleStatus) h (ctrl : gset TaskId) (n : nat) : Prop := {
  pl_nodup : NoDup L.*1;
  pl_pending : forall id, st !! id = Some Pending <-> id ∈ L.*1;
  pl_cell : forall id b, (id, b) ∈ L -> exists c, h !! id = Some c /\ is_some (task c) = b;
  pl_ctrl : forall id, id ∈ ctrl <-> id ∈ L.*1;
  pl_active : n = length L;
}.

Lemma placed_perm L L' st h ctrl n : L ≡ₚ L' -> placed L st h ctrl n -> placed L' st h ctrl n.
Proof.
  intros HP [H1 H2 H3 H4 H5]. split.
  - by rewrite <- HP.
  - intros id. by rewrite <- HP.
  - intros id b. rewrite <- HP. apply H3.
  - intros id. by rewrite <- HP.
  - by rewrite <- HP.
Qed.

Lemma placed_spawn L st h ctrl n id w t :
  placed L st h ctrl n -> id ∉ L.*1 ->
  placed ((id, true) :: L) (<[id := Pending]> st) (<[id := mkControl w (Some t) false]> h)
    ({[id]} ∪ ctrl) (S n).
Proof.
  intros [H1 H2 H3 H4 H5] Hid. split.
  - simpl. by constructor.
  - intros j. simpl. rewrite elem_of_cons, <- H2. destruct (decide (id = j)) as [<-|Hne].
    + rewrite lookup_insert_eq. tauto.
    + rewrite lookup_insert_ne by done. intuition congruence.
  - intros j b. rewrite elem_of_cons. intros [[= -> ->]|Hj].
    + eexists. by rewrite lookup_insert_eq.
    + rewrite lookup_insert_ne; [by apply H3|]. intros <-. apply Hid.
      apply list_elem_of_fmap. by exists (id, b).
  - intros j. simpl. rewrite elem_of_cons, <- H4. set_solver.
  - simpl. by rewrite H5.
Qed.

Lemma placed_heap L st h h' ctrl n id b b' :
  placed ((id, b) :: L) st h ctrl n ->
  (forall j, j <> id -> is_some ∘ task <$> h' !! j = is_some ∘ task <$> h !! j) ->
  is_some ∘ task <$> h' !! id = Some b' ->
  placed ((id, b') :: L) st h' ctrl n.
Proof.
  intros [H1 H2 H3 H4 H5] Hother Hid. simpl in *. split; [done|done| |done|done].
  intros j c. rewrite elem_of_cons. intros [[= -> ->]|Hj].
  - destruct (h' !! id) as [cell|]; [|done]. simpl in Hid. injection Hid as <-. eauto.
  - assert (j <> id) as Hne.
    { intros ->. apply NoDup_cons in H1 as [H1 _]. apply H1. apply list_elem_of_fmap.
      by exists (id, c). }
    destruct (H3 j c) as (cell & E & Hb); [by right|].
    specialize (Hother j Hne). rewrite E in Hother. simpl in Hother.
    destruct (h' !! j) as [cell'|]; [|done]. simpl in Hother. injection Hother as Ho.
    exists cell'. split; [done|congruence].
Qed.

Lemma placed_same_tasks L st h h' ctrl n :
  placed L st h ctrl n ->
  (forall j, is_some ∘ task <$> h' !! j = is_some ∘ task <$> h !! j) ->
  placed L st h' ctrl n.
Proof.
  intros [H1 H2 H3 H4 H5] Hsame. split; [done|done| |done|done].
  intros j b Hj. destruct (H3 j b Hj) as (c & E & Hb). specialize (Hsame j).
  rewrite E in Hsame. destruct (h' !! j) as [c'|]; [|done]. simpl in Hsame.
  injection Hsame as Ho. exists c'. split; [done|congruence].
Qed.

Lemma placed_finish L st h ctrl n id b status :
  placed ((id, b) :: L) st h ctrl n -> status <> Pending ->
  placed L (<[id := status]> st) h (ctrl ∖ {[id]}) (n - 1)%nat.
Proof.
  intros [H1 H2 H3 H4 H5] Hst. simpl in *. apply NoDup_cons in H1 as [H0 H1]. split; [done| | | |].
  - intros j. destruct (decide (id = j)) as [<-|Hne].
    + rewrite lookup_insert_eq. split; [congruence|done].
    + rewrite lookup_insert_ne, H2, elem_of_cons by done. intuition congruence.
  - intros j c Hj. apply H3. by right.
  - intros j. specialize (H4 j). rewrite elem_of_difference, H4, elem_of_cons, elem_of_singleton.
    split; [tauto|]. intros Hj. split; [by right|]. by intros ->.
  - simpl in H5. lia.
Qed.

(** *** Replacing one worker's list *)

Lemma concat_update {A} (ls : list (list A)) w l : ls !! w = Some l ->
  exists rest, forall l', concat (<[w := l']> ls) ≡ₚ l' ++ rest.
Proof.
  intros Hw. exists (concat (take w ls) ++ concat (drop (S w) ls)). intros l'.
  rewrite insert_take_drop by (by eapply lookup_lt_Some).
  rewrite concat_app. simpl. rewrite !app_assoc. f_equiv. apply Permutation_app_comm.
Qed.

Lemma concat_split {A} (ls : list (list A)) w l : ls !! w = Some l ->
  exists rest, concat ls ≡ₚ l ++ rest /\ forall l', concat (<[w := l']> ls) ≡ₚ l' ++ rest.
Proof.
  intros Hw. destruct (concat_update ls w l Hw) as [rest Hr]. exists rest. split; [|done].
  rewrite <- (list_insert_id ls w l Hw) at 1. apply Hr.
Qed.

Lemma next_ready_perm h now n queue earliest q d queue' :
  next_ready_loop h now n queue earliest = (q, d, queue') ->
  queue ≡ₚ option_list q ++ queue'.
Proof.
  revert queue earliest. induction n as [|n IH]; intros queue earliest; cbn [next_ready_loop].
  - by intros [= <- _ <-].
  - destruct queue as [|x queue]; [by intros [= <- _ <-]|].
    destruct (ready h now x); [by intros [= <- _ <-]|].
    intros E%IH. rewrite <- E. by rewrite Permutation_cons_append.
Qed.

(** *** Affinity: a task stays on the worker it was given *)

Definition loc_of (qs : list (list QueuedTask)) (frs : list (list (@Frame Task))) : list (TaskId * bool) :=
  map queue_loc (concat qs) ++ map frame_loc (concat frs).

Record homed (qs : list (list QueuedTask)) (frs : list (list (@Frame Task))) h : Prop := {
  home_queue : forall w l q, qs !! w = Some l -> q ∈ l -> worker_index <$> h !! control q = Some w;
  home_frame : forall w fs f, frs !! w = Some fs -> f ∈ fs ->
    worker_index <$> h !! (frame_loc f).1 = Some w;
}.

Lemma homed_heap qs frs h h' :
  homed qs frs h -> (forall j w, worker_index <$> h !! j = Some w -> worker_index <$> h' !! j = Some w) ->
  homed qs frs h'.
Proof. intros [H1 H2] Hs. split; intros; apply Hs; eauto. Qed.

Lemma homed_frames qs frs h w fs' :
  homed qs frs h ->
  (forall f, f ∈ fs' -> worker_index <$> h !! (frame_loc f).1 = Some w) ->
  homed qs (<[w := fs']> frs) h.
Proof.
  intros [H1 H2] Hf. split; [done|]. intros u fs f. destruct (decide (w = u)) as [<-|Hne].
  - destruct (decide (w < length frs)%nat) as [Hlt|Hge].
    + rewrite list_lookup_insert_eq by done. intros [= <-]. apply Hf.
    + rewrite list_insert_ge by lia. apply H2.
  - rewrite list_lookup_insert_ne by done. apply H2.
Qed.

Lemma homed_queue qs frs h w l' :
  homed qs frs h ->
  (forall q, q ∈ l' -> worker_index <$> h !! control q = Some w) ->
  homed (<[w := l']> qs) frs h.
Proof.
  intros [H1 H2] Hf. split; [|done]. intros u l q. destruct (decide (w = u)) as [<-|Hne].
  - destruct (decide (w < length qs)%nat) as [Hlt|Hge].
    + rewrite list_lookup_insert_eq by done. intros [= <-]. apply Hf.
    + rewrite list_insert_ge by lia. apply H1.
  - rewrite list_lookup_insert_ne by done. apply H1.
Qed.

Lemma loc_frames qs frs w f fs : frs !! w = Some (f :: fs) ->
  exists R, loc_of qs frs ≡ₚ frame_loc f :: R /\
    (forall f', loc_of qs (<[w := f' :: fs]> frs) ≡ₚ frame_loc f' :: R) /\
    loc_of qs (<[w := fs]> frs) ≡ₚ R.
Proof.
  intros Hw. destruct (concat_split frs w _ Hw) as (rest & H0 & Hr).
  exists (map queue_loc (concat qs) ++ map frame_loc fs ++ map frame_loc rest). unfold loc_of.
  split_and!; [|intros f'|]; rewrite ?H0, ?Hr, ?map_app; simpl; rewrite ?map_app, <- ?Permutation_middle;
    done.
Qed.

Lemma loc_push_frame qs frs w f fs : frs !! w = Some fs ->
  loc_of qs (<[w := f :: fs]> frs) ≡ₚ frame_loc f :: loc_of qs frs.
Proof.
  intros Hw. destruct (concat_split frs w _ Hw) as (rest & H0 & Hr). unfold loc_of.
  rewrite H0, Hr, !map_app. simpl. by rewrite <- Permutation_middle.
Qed.

Lemma loc_queue qs frs w l l' : qs !! w = Some l ->
  forall x, l' ≡ₚ x :: l -> loc_of (<[w := l']> qs) frs ≡ₚ queue_loc x :: loc_of qs frs.
Proof.
  intros Hw x Hl. destruct (concat_split qs w _ Hw) as (rest & H0 & Hr). unfold loc_of.
  rewrite H0, Hr, Hl, !map_app. done.
Qed.

Lemma loc_queue_perm qs frs w l l' : qs !! w = Some l -> l ≡ₚ l' ->
  loc_of (<[w := l']> qs) frs ≡ₚ loc_of qs frs.
Proof.
  intros Hw Hl. destruct (concat_split qs w _ Hw) as (rest & H0 & Hr). unfold loc_of.
  by rewrite H0, Hr, Hl.
Qed.

Definition terminal (st : TaskLifecycleStatus) : Prop := st <> Pending /\ st <> Unknown.

Definition frame_ok (f : @Frame Task) : Prop :=
  match f with Finishing _ status => terminal status | _ => True end.

(** ** The invariant *)

Record inv e : Prop := {
  inv_placed : placed (located e) (statuses (state e)) (heap e) (controls (state e)) (active (state e));
  inv_capacity : (active (state e) <= capacity e)%nat;
  inv_workers : length (frames e) = length (queues (state e)) /\ (0 < length (queues (state e)))%nat;
  inv_homed : homed (queues (state e)) (frames e) (heap e);
  inv_frames : Forall (Forall frame_ok) (frames e);
  inv_next : 0 < next_task_id e < 2 ^ 64;
  inv_ids : forall id, is_Some (statuses (state e) !! id) -> 0 < id < next_task_id e;
  inv_heap_ids : forall id, is_Some (heap e !! id) -> 0 < id < next_task_id e;
  inv_known : forall id, statuses (state e) !! id <> Some Unknown;
  inv_cancel : shutdown_mode (state e) = Some Cancel -> accepting (state e) = false /\
    forall id, id ∈ controls (state e) -> cancel_flag (heap e) id = true;
  inv_stop : stop_workers (state e) = true -> active (state e) = O /\ accepting (state e) = false;
}.

Lemma located_loc e : located e = loc_of (queues (state e)) (frames e).
Proof. done. Qed.

Lemma concat_repeat_nil {A} n : concat (repeat (@nil A) n) = [].
Proof. by induction n. Qed.

Lemma executor_new_inv n cap id e : 0 < id < 2 ^ 64 -> executor_new n cap id = Ok e -> inv e.
Proof.
  unfold executor_new. intros Hid. destruct (Nat.eqb_spec n 0); [done|].
  destruct (Nat.eqb_spec cap 0); [done|]. intros [= <-].
  assert (Hl : forall A w (l : list A), repeat [] n !! w = Some l -> l = []).
  { intros A w l Hw%list_elem_of_lookup_2. by apply list_elem_of_In, repeat_spec in Hw. }
  split; simpl; try done.
  - unfold located, loc_of; simpl. rewrite !concat_repeat_nil. simpl. split; simpl; try done.
    + constructor.
    + intros j. rewrite lookup_empty. split; [done|]. by intros ?%elem_of_nil.
    + by intros j b ?%elem_of_nil.
    + intros j. rewrite elem_of_empty, elem_of_nil. done.
  - lia.
  - rewrite !repeat_length. lia.
  - split; intros w l q Hw%Hl; subst; by intros ?%elem_of_nil.
  - apply Forall_forall. intros l Hl'. apply list_elem_of_lookup in Hl' as [w Hw%Hl]. subst. constructor.
  - intros j. rewrite lookup_empty. by intros [? ?].
  - intros j. rewrite lookup_empty. by intros [? ?].
Qed.

(** *** Submissions, cancellation, shutdown *)

Definition bump e : Exec :=
  mkExec (capacity e) (state e) (heap e) (wrap_u 64 (next_task_id e + 1)) (frames e).

Lemma bump_next e : inv e -> next_task_id e + 1 < 2 ^ 64 ->
  next_task_id (bump e) = next_task_id e + 1.
Proof. intros He Hn. simpl. apply wrap_u_id. unfold in_u. destruct (inv_next _ He). lia. Qed.

Lemma bump_inv e : inv e -> next_task_id e + 1 < 2 ^ 64 -> inv (bump e).
Proof.
  intros He Hn. pose proof (bump_next e He Hn) as Hb. destruct He. split; try done.
  - rewrite Hb. lia.
  - intros id Hid. rewrite Hb. specialize (inv_ids0 id Hid). lia.
  - intros id Hid. rewrite Hb. specialize (inv_heap_ids0 id Hid). lia.
Qed.

Lemma spawn_target e : inv e ->
  exists q, queues (state e) !! Z.to_nat (next_worker (state e) mod Z.of_nat (length (queues (state e)))) = Some q.
Proof.
  intros He. apply lookup_lt_is_Some. destruct (inv_workers _ He) as [_ Hpos].
  pose proof (Z.mod_pos_bound (next_worker (state e)) (Z.of_nat (length (queues (state e)))) ltac:(lia)). lia.
Qed.

Lemma spawn_inv t e : inv e -> next_task_id e + 1 < 2 ^ 64 -> inv (spawn t e).2.
Proof.
  intros He Hn. unfold spawn. destruct (accepting (state e)) eqn:Hacc; [|done]. simpl negb.
  destruct (Nat.leb_spec (capacity e) (active (state e))) as [|Hcap]; [done|].
  pose proof (bump_inv e He Hn) as Hb. pose proof (bump_next e He Hn) as Hbn.
  destruct ((next_task_id e =? 0) || (CONCURRENT_TASK_ID_TAG <=? next_task_id e)); [exact Hb|].
  destruct (spawn_target e He) as [q Hq]. set (w := Z.to_nat _) in *.
  set (id := next_task_id e) in *.
  assert (Hnew : id ∉ (located e).*1).
  { intros Hin. apply (pl_pending _ _ _ _ _ (inv_placed _ He)) in Hin.
    assert (0 < id < next_task_id e) by (apply (inv_ids _ He); by rewrite Hin). unfold id in *. lia. }
  assert (Hcell : heap e !! id = None).
  { destruct (heap e !! id) eqn:E; [|done].
    assert (0 < id < next_task_id e) by (apply (inv_heap_ids _ He); by rewrite E). unfold id in *. lia. }
  rewrite Hq. cbn [default]. destruct He as [Hpl Hc Hw Hh Hf Hnx Hids Hhids Hk Hcan Hst]. simpl in Hbn.
  fold id in Hbn, Hnx, Hids, Hhids.
  cbn [snd]. split; simpl; rewrite ?length_insert, ?Hbn; try done; try lia.
  - eapply placed_perm; [|by apply placed_spawn]. rewrite !located_loc. simpl.
    symmetry. rewrite (loc_queue _ _ w q _ Hq (mkQueued id None)); [done|].
    symmetry. apply Permutation_cons_append.
  - apply homed_queue.
    + eapply homed_heap; [done|]. intros j u Hj. rewrite lookup_insert_ne; [done|].
      intros <-. by rewrite Hcell in Hj.
    + intros x [Hx| ->%list_elem_of_singleton]%elem_of_app.
      * rewrite lookup_insert_ne; [by eapply home_queue|].
        intros E. pose proof (home_queue _ _ _ Hh _ _ _ Hq Hx) as Hx'.
        rewrite <- E, Hcell in Hx'. done.
      * simpl. by rewrite lookup_insert_eq.
  - intros j. rewrite lookup_insert_is_Some. intros [<-|[_ Hj]]; [lia|]. specialize (Hids j Hj). lia.
  - intros j. rewrite lookup_insert_is_Some. intros [<-|[_ Hj]]; [lia|]. specialize (Hhids j Hj). lia.
  - intros j. destruct (decide (id = j)) as [<-|]; [by rewrite lookup_insert_eq|].
    by rewrite lookup_insert_ne.
  - intros Hm. destruct (Hcan Hm). congruence.
  - intros Hs. destruct (Hst Hs). congruence.
Qed.

(** Only the cancel flags of a heap changed, and none was cleared. *)
Definition flagged h h' : Prop := forall j,
  worker_index <$> h' !! j = worker_index <$> h !! j /\
  task <$> h' !! j = task <$> h !! j /\
  (cancel_flag h j = true -> cancel_flag h' j = true).

Lemma flagged_inv e h' : inv e -> flagged (heap e) h' -> inv (set_heap h' e).
Proof.
  intros [Hpl Hc Hw Hh Hf Hnx Hids Hhids Hk Hcan Hst] Hfl. split; simpl; try done.
  - eapply placed_same_tasks; [exact Hpl|]. intros j. destruct (Hfl j) as (_ & E & _).
    destruct (h' !! j), (heap e !! j); simpl in *; congruence.
  - eapply homed_heap; [done|]. intros j w Hj. by destruct (Hfl j) as [-> _].
  - intros j Hj. apply Hhids. destruct (Hfl j) as [E _].
    destruct (h' !! j), (heap e !! j); simpl in *; done.
  - intros Hm. destruct (Hcan Hm) as [? Hall]. split; [done|]. intros j Hj.
    apply Hfl. by apply Hall.
Qed.

Lemma request_cancel_lookup h id j :
  request_cancel h id !! j =
    if decide (id = j) then (fun c => mkControl (worker_index c) (task c) true) <$> h !! j else h !! j.
Proof.
  unfold request_cancel. case_decide as Hd; [subst; by rewrite lookup_alter_eq|by rewrite lookup_alter_ne].
Qed.

Lemma request_cancel_flagged h id : flagged h (request_cancel h id).
Proof.
  intros j. unfold cancel_flag. rewrite request_cancel_lookup.
  case_decide; [|done]. by destruct (h !! j).
Qed.

Lemma cancel_shared_inv id e : inv e -> inv (cancel_shared id e).2.
Proof.
  intros He. unfold cancel_shared. repeat case_decide; simpl; try done.
  apply flagged_inv; [done|]. apply request_cancel_flagged.
Qed.

Lemma cancel_all_lookup h (X : gset TaskId) j :
  (j ∈ X -> set_fold (fun id h => request_cancel h id) h X !! j =
             (fun c => mkControl (worker_index c) (task c) true) <$> h !! j) /\
  (j ∉ X -> set_fold (fun id h => request_cancel h id) h X !! j = h !! j).
Proof.
  apply (set_fold_ind_L (fun h' X =>
    (j ∈ X -> h' !! j = (fun c => mkControl (worker_index c) (task c) true) <$> h !! j) /\
    (j ∉ X -> h' !! j = h !! j))).
  - split; [set_solver|done].
  - intros id Y h' Hid [IH1 IH2]. rewrite request_cancel_lookup. split.
    + intros Hj. case_decide as Hd.
      * subst. rewrite IH2 by done. done.
      * apply IH1. set_solver.
    + intros Hj. rewrite decide_False by set_solver. apply IH2. set_solver.
Qed.

Lemma cancel_all_flagged h (X : gset TaskId) : flagged h (set_fold (fun id h => request_cancel h id) h X).
Proof.
  intros j. unfold cancel_flag. destruct (cancel_all_lookup h X j) as [H1 H2].
  destruct (decide (j ∈ X)); [rewrite H1 by done|by rewrite H2]. by destruct (h !! j).
Qed.

Lemma pending_cell e id : inv e -> id ∈ controls (state e) -> is_Some (heap e !! id).
Proof.
  intros He Hid. apply (pl_ctrl _ _ _ _ _ (inv_placed _ He)) in Hid.
  apply list_elem_of_fmap in Hid as ([j b] & -> & Hj).
  destruct (pl_cell _ _ _ _ _ (inv_placed _ He) _ _ Hj) as (c & E & _). by exists c.
Qed.

Lemma shutdown_begin_inv mode e : inv e -> inv (shutdown_begin mode e).
Proof.
  intros He. unfold shutdown_begin. case_decide.
  - pose proof (flagged_inv e _ He (cancel_all_flagged (heap e) (controls (state e)))) as Hf.
    assert (Hall : forall id, id ∈ controls (state e) ->
      cancel_flag (set_fold (fun id h => request_cancel h id) (heap e) (controls (state e))) id = true).
    { intros id Hid. unfold cancel_flag.
      rewrite (proj1 (cancel_all_lookup _ _ _) Hid).
      by destruct (pending_cell e id He Hid) as [c ->]. }
    destruct Hf. split; simpl in *; try done. intros Hs. by destruct (inv_stop0 Hs).
  - destruct He. split; simpl in *; try done. intros Hs. by destruct (inv_stop0 Hs).
Qed.

Lemma shutdown_stop_inv e e' : inv e -> accepting (state e) = false -> shutdown_stop e = Some e' -> inv e'.
Proof.
  unfold shutdown_stop. intros He Ha. destruct (Nat.eqb_spec (active (state e)) 0); [|done]. intros [= <-].
  destruct He. by split.
Qed.

(** *** Workers *)

Lemma loc_queue_take qs frs w l x l' : qs !! w = Some l -> l ≡ₚ x :: l' ->
  loc_of qs frs ≡ₚ queue_loc x :: loc_of (<[w := l']> qs) frs.
Proof.
  intros Hw Hl. destruct (concat_split qs w _ Hw) as (rest & H0 & Hr). unfold loc_of.
  by rewrite H0, Hr, Hl, !map_app.
Qed.

Lemma frames_insert_ok (frs : list (list (@Frame Task))) w fs :
  Forall (Forall frame_ok) frs -> Forall frame_ok fs -> Forall (Forall frame_ok) (<[w := fs]> frs).
Proof. intros H1 H2. by apply Forall_insert. Qed.

Lemma frames_lookup_ok (frs : list (list (@Frame Task))) w fs :
  Forall (Forall frame_ok) frs -> frs !! w = Some fs -> Forall frame_ok fs.
Proof. intros HF Hw. by eapply (proj1 (Forall_lookup _ _) HF). Qed.

(** The bookkeeping of a queue operation by worker [w]. *)
Lemma queue_step_inv e w queue queue' fs fs' :
  inv e -> queues (state e) !! w = Some queue -> frames e !! w = Some fs ->
  loc_of (<[w := queue']> (queues (state e))) (<[w := fs']> (frames e)) ≡ₚ located e ->
  (forall q, q ∈ queue' -> worker_index <$> heap e !! control q = Some w) ->
  (forall f, f ∈ fs' -> worker_index <$> heap e !! (frame_loc f).1 = Some w) ->
  Forall frame_ok fs' ->
  inv (set_frames w fs' (set_state (set_queue w queue' (state e)) e)).
Proof.
  intros [Hpl Hc [Hw1 Hw2] Hh Hf Hnx Hids Hhids Hk Hcan Hst] Hq Hfs HP Hhq Hhf Hok.
  split; simpl; rewrite ?length_insert; try done.
  - eapply placed_perm; [|exact Hpl]. by symmetry.
  - apply homed_frames; [|done]. by apply homed_queue.
  - by apply frames_insert_ok.
Qed.

Lemma look_for_work_inv now w e e' : inv e -> look_for_work now w e = Some e' -> inv e'.
Proof.
  intros He. unfold look_for_work. destruct (frames e !! w) as [fs|] eqn:Hfs; [|done].
  destruct (match fs with [] => _ | _ => _ end); [|done].
  unfold next_ready_task. destruct (inv_workers _ He) as [Hlen _].
  destruct (queues (state e) !! w) as [queue|] eqn:Hq.
  2: { apply lookup_ge_None in Hq. apply lookup_lt_Some in Hfs. lia. }
  destruct (next_ready_loop _ _ _ _ _) as [[q d] queue'] eqn:E. intros [= <-].
  apply next_ready_perm in E.
  assert (Hin : forall x, x ∈ option_list q ++ queue' -> worker_index <$> heap e !! control x = Some w).
  { intros x Hx. rewrite <- E in Hx. by eapply (home_queue _ _ _ (inv_homed _ He)). }
  assert (Hhf : forall f, f ∈ fs -> worker_index <$> heap e !! (frame_loc f).1 = Some w).
  { intros f Hf. by eapply (home_frame _ _ _ (inv_homed _ He)). }
  pose proof (frames_lookup_ok _ _ _ (inv_frames _ He) Hfs) as Hok.
  destruct q as [q|]; simpl in *.
  - apply (queue_step_inv e w queue queue' fs); try done.
    + rewrite located_loc, (loc_push_frame _ _ w _ _ Hfs).
      by rewrite (loc_queue_take _ _ w queue q queue' Hq E).
    + intros x Hx. apply Hin. by right.
    + intros f [->|Hf]%elem_of_cons; [|by apply Hhf]. simpl. apply (Hin q). by left.
    + by constructor.
  - assert (Heq : set_state (set_queue w queue' (state e)) e =
      set_frames w fs (set_state (set_queue w queue' (state e)) e)).
    { unfold set_frames. simpl. by rewrite list_insert_id. }
    rewrite Heq. apply (queue_step_inv e w queue queue' fs); try done.
    rewrite (list_insert_id (frames e) w fs) by done. by apply (loc_queue_perm _ _ w queue).
Qed.

(** A frame changes its phase, and with it possibly the block of its task. *)
Lemma frame_move_inv e w f fs f' h' :
  inv e -> frames e !! w = Some (f :: fs) ->
  (frame_loc f').1 = (frame_loc f).1 -> frame_ok f' ->
  (forall j, j <> (frame_loc f).1 -> h' !! j = heap e !! j) ->
  is_some ∘ task <$> h' !! (frame_loc f).1 = Some (frame_loc f').2 ->
  (forall j, worker_index <$> h' !! j = worker_index <$> heap e !! j) ->
  (forall j, cancel_flag h' j = cancel_flag (heap e) j) ->
  inv (set_frames w (f' :: fs) (set_heap h' e)).
Proof.
  intros [Hpl Hc [Hw1 Hw2] Hh Hf Hnx Hids Hhids Hk Hcan Hst] Hfs Hid Hok Hother Hcell Hwi Hcf.
  destruct (loc_frames (queues (state e)) _ _ _ _ Hfs) as (R & H0 & H1 & _).
  split; simpl; rewrite ?length_insert; try done.
  - unfold located; simpl. fold (loc_of (queues (state e)) (<[w:=f' :: fs]> (frames e))).
    eapply placed_perm; [symmetry; apply H1|]. rewrite (surjective_pairing (frame_loc f')), Hid.
    eapply placed_heap with (b := (frame_loc f).2).
    + rewrite <- surjective_pairing. eapply placed_perm; [exact H0|exact Hpl].
    + intros j Hj. by rewrite Hother.
    + done.
  - apply homed_frames.
    + eapply homed_heap; [done|]. intros j u. by rewrite Hwi.
    + intros g [->|Hg]%elem_of_cons; rewrite Hwi, ?Hid; apply (home_frame _ _ _ Hh w (f :: fs)); try done;
        [by left|by right].
  - apply frames_insert_ok; [done|]. constructor; [done|].
    pose proof (frames_lookup_ok _ _ _ Hf Hfs) as HF. by inversion HF.
  - intros j Hj. apply Hhids. specialize (Hwi j).
    destruct (h' !! j), (heap e !! j); simpl in *; done.
  - intros Hm. destruct (Hcan Hm) as [? Hall]. split; [done|]. intros j Hj. rewrite Hcf. by apply Hall.
Qed.

Lemma frame_cell e w f fs : inv e -> frames e !! w = Some (f :: fs) ->
  exists c, heap e !! (frame_loc f).1 = Some c /\ is_some (task c) = (frame_loc f).2 /\ worker_index c = w.
Proof.
  intros He Hfs. destruct (loc_frames (queues (state e)) _ _ _ _ Hfs) as (R & H0 & _).
  destruct (pl_cell _ _ _ _ _ (inv_placed _ He) (frame_loc f).1 (frame_loc f).2) as (c & E & Ht).
  { rewrite <- surjective_pairing, located_loc, H0. by left. }
  exists c. split_and!; [done..|]. pose proof (home_frame _ _ _ (inv_homed _ He) w _ f Hfs) as Hw.
  rewrite E in Hw. simpl in Hw. specialize (Hw ltac:(by left)). congruence.
Qed.

Lemma frame_same_inv e w f fs f' :
  inv e -> frames e !! w = Some (f :: fs) -> frame_loc f' = frame_loc f -> frame_ok f' ->
  inv (set_frames w (f' :: fs) e).
Proof.
  intros He Hfs Hl Hok. destruct (frame_cell e w f fs He Hfs) as (c & E & Ht & _).
  replace (set_frames w (f' :: fs) e) with (set_frames w (f' :: fs) (set_heap (heap e) e)) by (by destruct e).
  apply (frame_move_inv e w f); try done; [by rewrite Hl|]. rewrite E. simpl. by rewrite Ht, Hl.
Qed.

Lemma parking_inv e w id wakeup fs : inv e -> frames e !! w = Some (Parking id wakeup :: fs) ->
  inv (set_frames w fs (set_state (push_queue w (mkQueued id (Some wakeup)) (state e)) e)).
Proof.
  intros He Hfs. destruct (inv_workers _ He) as [Hlen _]. unfold push_queue.
  destruct (queues (state e) !! w) as [queue|] eqn:Hq.
  2: { apply lookup_ge_None in Hq. apply lookup_lt_Some in Hfs. lia. }
  simpl default. pose proof (inv_homed _ He) as Hh.
  pose proof (home_frame _ _ _ Hh w _ (Parking id wakeup) Hfs ltac:(by left)) as Hid.
  apply (queue_step_inv e w queue _ (Parking id wakeup :: fs)); try done.
  - rewrite located_loc. destruct (loc_frames (queues (state e)) _ _ _ _ Hfs) as (R & H0 & _ & H2).
    rewrite H0, (loc_queue _ _ w queue _ Hq (mkQueued id (Some wakeup))), H2; [done|].
    symmetry. apply Permutation_cons_append.
  - intros x [Hx| ->%list_elem_of_singleton]%elem_of_app; [by eapply home_queue|done].
  - intros f Hf. eapply home_frame; [done..|]. by right.
  - pose proof (frames_lookup_ok _ _ _ (inv_frames _ He) Hfs) as HF. by inversion HF.
Qed.

Lemma finishing_inv e w id status fs : inv e -> frames e !! w = Some (Finishing id status :: fs) ->
  inv (set_frames w fs (finish_task id status e)).
Proof.
  intros He Hfs. destruct (loc_frames (queues (state e)) _ _ _ _ Hfs) as (R & H0 & _ & H2).
  pose proof (frames_lookup_ok _ _ _ (inv_frames _ He) Hfs) as HF.
  apply Forall_cons in HF as [[Hnp Hnu] HF]. cbn [frame_loc] in H0.
  assert (Hpend : statuses (state e) !! id = Some Pending).
  { apply (pl_pending _ _ _ _ _ (inv_placed _ He)). rewrite located_loc, H0. by left. }
  unfold finish_task. rewrite decide_True by done.
  destruct He as [Hpl Hc [Hw1 Hw2] Hh Hf Hnx Hids Hhids Hk Hcan Hst].
  split; simpl; rewrite ?length_insert; try done; try lia.
  - unfold located; simpl. fold (loc_of (queues (state e)) (<[w:=fs]> (frames e))).
    eapply placed_perm; [symmetry; exact H2|]. eapply placed_finish; [|done].
    eapply placed_perm; [exact H0|exact Hpl].
  - apply homed_frames; [done|]. intros f Hin. eapply home_frame; [done..|]. by right.
  - by apply frames_insert_ok.
  - intros j. rewrite lookup_insert_is_Some. intros [<-|[_ Hj]]; [by apply Hids; rewrite Hpend|by apply Hids].
  - intros j. destruct (decide (id = j)) as [<-|]; [rewrite lookup_insert_eq; congruence|].
    by rewrite lookup_insert_ne.
  - intros Hm. destruct (Hcan Hm) as [? Hall]. split; [done|]. intros j Hj. apply Hall. set_solver.
  - intros Hs. destruct (Hst Hs). split; [lia|done].
Qed.

Lemma run_frame_inv outcome cr ok now w e e' :
  inv e -> run_frame outcome cr ok now w e = Some e' -> inv e'.
Proof.
  intros He. unfold run_frame. destruct (frames e !! w) as [[|f fs]|] eqn:Hfs; try done.
  destruct (frame_cell e w f fs He Hfs) as (c & Ec & Ht & Hw).
  destruct f as [id|id t|id t|id t hint|id t wk|id wk|id t|id status]; cbn [frame_step frame_loc fst snd] in *.
  - rewrite Ec. destruct (task c) as [t|] eqn:Etask; [|done]. intros [= <-].
    apply (frame_move_inv e w (Popped id)); try done; simpl.
    + intros j Hj. by rewrite lookup_insert_ne.
    + by rewrite lookup_insert_eq.
    + intros j. destruct (decide (id = j)) as [<-|]; [by rewrite lookup_insert_eq, Ec|by rewrite lookup_insert_ne].
    + intros j. unfold cancel_flag.
      destruct (decide (id = j)) as [<-|]; [by rewrite lookup_insert_eq, Ec|by rewrite lookup_insert_ne].
  - destruct (cancel_flag (heap e) id); intros [= <-]; by apply (frame_same_inv e w (Taken id t)).
  - destruct outcome; intros [= <-]; by apply (frame_same_inv e w (Polling id t)).
  - destruct (cancel_flag (heap e) id); intros [= <-]; by apply (frame_same_inv e w (Polled id t hint)).
  - intros [= <-]. apply (frame_move_inv e w (Storing id t wk)); try done; simpl.
    + intros j Hj. by rewrite lookup_alter_ne.
    + by rewrite lookup_alter_eq, Ec.
    + intros j. destruct (decide (id = j)) as [<-|]; [by rewrite lookup_alter_eq, Ec|by rewrite lookup_alter_ne].
    + intros j. unfold cancel_flag.
      destruct (decide (id = j)) as [<-|]; [by rewrite lookup_alter_eq, Ec|by rewrite lookup_alter_ne].
  - rewrite Ec, Hw. intros [= <-]. by apply parking_inv.
  - intros [= <-]. apply (frame_same_inv e w (Canceling id t)); try done. by destruct cr as [[]|], ok.
  - intros [= <-]. by apply finishing_inv.
Qed.

Lemma step_inv e e' : inv e -> step e e' -> inv e'.
Proof.
  intros He Hs. revert He.
  destruct Hs as [t e Hn|id e|mode e|e e' Ha Hs|e e' Hw]; intros He;
    [..|destruct Hw as [o cr ok now w e e' Hr|now w e e' Hl]].
  - by apply spawn_inv.
  - by apply cancel_shared_inv.
  - by apply shutdown_begin_inv.
  - by eapply shutdown_stop_inv.
  - by eapply run_frame_inv.
  - by eapply look_for_work_inv.
Qed.

Lemma reachable_inv e : reachable e -> inv e.
Proof.
  intros (n & cap & id & e0 & Hid & E & Hr). apply executor_new_inv in E; [|done].
  induction Hr; [done|]. apply IHHr. by eapply step_inv.
Qed.

(** ** Theorems *)

(** C13: the executor loses no task and runs none twice.  In every reachable
    state [active] is the number of pending tasks and at most the capacity;
    each pending task is in exactly one place, a queue or one frame of one
    worker; its coroutine is in its control block unless exactly that frame
    has taken it; and it is on the worker it was assigned to. *)
Theorem executor_no_task_lost e : reachable e ->
  (active (state e) <= capacity e)%nat /\
  active (state e) = length (located e) /\
  NoDup (located e).*1 /\
  (forall id, statuses (state e) !! id = Some Pending <-> id ∈ (located e).*1) /\
  (forall id b, (id, b) ∈ located e -> exists c, heap e !! id = Some c /\ is_some (task c) = b) /\
  (forall w queue q, queues (state e) !! w = Some queue -> q ∈ queue ->
     worker_index <$> heap e !! control q = Some w) /\
  (forall w fs f, frames e !! w = Some fs -> f ∈ fs ->
     worker_index <$> heap e !! (frame_loc f).1 = Some w).
Proof.
  intros He%reachable_inv. destruct (inv_placed _ He), (inv_homed _ He).
  split_and!; try done. apply He.
Qed.

(** *** Statuses are final *)

Definition keeps_terminal e e' : Prop := forall id st,
  statuses (state e) !! id = Some st -> terminal st -> statuses (state e') !! id = Some st.

Lemma finish_keeps id st0 e : keeps_terminal e (finish_task id st0 e).
Proof.
  intros j st Hj [Hp _]. unfold finish_task. case_decide as Hd; [|done]. simpl.
  rewrite lookup_insert_ne; [done|]. intros ->. congruence.
Qed.

Lemma spawn_keeps t e : inv e -> keeps_terminal e (spawn t e).2.
Proof.
  intros He j st Hj _. unfold spawn. repeat case_match; simpl; try done.
  rewrite lookup_insert_ne; [done|]. intros <-.
  assert (0 < next_task_id e < next_task_id e) by (apply (inv_ids _ He); by rewrite Hj). lia.
Qed.

Lemma step_keeps e e' : inv e -> step e e' -> keeps_terminal e e'.
Proof.
  intros He Hs. revert He.
  destruct Hs as [t e Hn|id e|mode e|e e' Ha Hs|e e' Hw]; intros He;
    [..|destruct Hw as [o cr ok now w e e' Hr|now w e e' Hl]].
  - by apply spawn_keeps.
  - intros j st Hj _. unfold cancel_shared. by repeat case_decide.
  - intros j st Hj _. unfold shutdown_begin. by repeat case_decide.
  - intros j st Hj _. unfold shutdown_stop in Hs. case_match; [|done]. by injection Hs as <-.
  - intros j st Hj Ht. unfold run_frame in Hr. destruct (frames e !! w) as [[|f fs]|]; try done.
    destruct f as [| | | | | | |id status]; cbn [frame_step] in Hr; repeat case_match; simplify_eq; try done.
    by apply (finish_keeps id status e).
  - intros j st Hj _. unfold look_for_work, next_ready_task in Hl.
    repeat case_match; simplify_eq/=; try done.
Qed.

(** A task that has completed, failed or been cancelled keeps that status
    whatever the executor does afterwards. *)
Theorem terminal_status_final e e' id st : reachable e -> rtc step e e' ->
  task_status_shared e id = st -> terminal st -> task_status_shared e' id = st.
Proof.
  intros He%reachable_inv Hr. induction Hr as [|e e1 e' Hs _ IH]; [done|].
  intros Hst Hterm. apply IH; [by eapply step_inv| |done].
  unfold task_status_shared in *. destruct (statuses (state e) !! id) as [s|] eqn:E; simpl in Hst.
  - subst. by rewrite (step_keeps e e1 He Hs _ _ E Hterm).
  - subst. by destruct Hterm.
Qed.

(** *** Shutting down *)

Definition frame_rank (f : @Frame Task) : nat :=
  match f with
  | Finishing _ _ => 1
  | Canceling _ _ => 2
  | Taken _ _ => 3
  | Popped _ => 4
  | Parking _ _ => 6
  | Storing _ _ _ => 7
  | Polled _ _ _ => 8
  | Polling _ _ => 9
  end.

Definition frames_rank (fs : list (@Frame Task)) : nat := sum_list (map frame_rank fs).

(** The worker steps left once every task is to be cancelled. *)
Definition rank e : nat :=
  (5 * sum_list (map length (queues (state e))) + sum_list (map frames_rank (frames e)))%nat.

Lemma sum_list_insert {A} (g : A -> nat) (l : list A) w x y : l !! w = Some x ->
  (sum_list (map g (<[w := y]> l)) + g x = sum_list (map g l) + g y)%nat.
Proof.
  revert w. induction l as [|z l IH]; intros [|w] Hw; simplify_eq/=; [lia|].
  specialize (IH w Hw). lia.
Qed.

Lemma rank_frames e w fs fs' : frames e !! w = Some fs ->
  (rank (set_frames w fs' e) + frames_rank fs = rank e + frames_rank fs')%nat.
Proof.
  intros Hw. unfold rank. simpl. pose proof (sum_list_insert frames_rank _ w _ fs' Hw). lia.
Qed.

Lemma rank_queue e w q q' : queues (state e) !! w = Some q ->
  (rank (set_state (set_queue w q' (state e)) e) + 5 * length q = rank e + 5 * length q')%nat.
Proof.
  intros Hw. unfold rank. simpl. pose proof (sum_list_insert length _ w _ q' Hw). lia.
Qed.

Lemma located_flag e id b : inv e -> shutdown_mode (state e) = Some Cancel ->
  (id, b) ∈ located e -> cancel_flag (heap e) id = true.
Proof.
  intros He Hm Hin. destruct (inv_cancel _ He Hm) as [_ Hall]. apply Hall.
  apply (pl_ctrl _ _ _ _ _ (inv_placed _ He)). apply list_elem_of_fmap. by exists (id, b).
Qed.

Lemma frame_located e w f fs : frames e !! w = Some (f :: fs) -> frame_loc f ∈ located e.
Proof.
  intros Hw. destruct (loc_frames (queues (state e)) _ _ _ _ Hw) as (R & H0 & _).
  rewrite located_loc, H0. by left.
Qed.

Lemma queue_located e w queue q : queues (state e) !! w = Some queue -> q ∈ queue -> (control q, true) ∈ located e.
Proof.
  intros Hw Hq. destruct (concat_split (queues (state e)) w _ Hw) as (rest & H0 & _).
  unfold located. rewrite H0, map_app. apply elem_of_app. left. apply elem_of_app. left.
  apply list_elem_of_fmap. by exists q.
Qed.

Lemma run_frame_rank o cr ok now w e e' :
  inv e -> shutdown_mode (state e) = Some Cancel -> run_frame o cr ok now w e = Some e' ->
  (rank e' < rank e)%nat.
Proof.
  intros He Hm. unfold run_frame. destruct (frames e !! w) as [[|f fs]|] eqn:Hfs; try done.
  destruct (frame_cell e w f fs He Hfs) as (c & Ec & Ht & Hw).
  pose proof (located_flag e _ _ He Hm ltac:(rewrite <- surjective_pairing; by eapply frame_located)) as Hfl.
  assert (Hr : forall e0 fs', frames e0 = frames e ->
    (rank (set_frames w fs' e0) + frames_rank (f :: fs) = rank e0 + frames_rank fs')%nat).
  { intros e0 fs' E. apply rank_frames. by rewrite E. }
  destruct f as [id|id t|id t|id t hint|id t wk|id wk|id t|id status];
    cbn [frame_step frame_loc fst snd] in *; rewrite ?Ec, ?Hfl.
  - destruct (task c) as [t|]; [|done]. intros [= <-].
    specialize (Hr (set_heap (<[id := mkControl (worker_index c) None (cancel_requested c)]> (heap e)) e)
      (Taken id t :: fs) eq_refl). unfold frames_rank in Hr. simpl in Hr. unfold rank in *. simpl in *. lia.
  - intros [= <-]. specialize (Hr e (Canceling id t :: fs) eq_refl). unfold frames_rank in Hr. simpl in Hr. lia.
  - destruct o as [|t' hint|]; intros [= <-]; pose proof (Hr e (Finishing id Completed :: fs) eq_refl);
      [|pose proof (Hr e (Polled id t' hint :: fs) eq_refl)|pose proof (Hr e (Finishing id Failed :: fs) eq_refl)];
      unfold frames_rank in *; simpl in *; lia.
  - intros [= <-]. specialize (Hr e (Canceling id t :: fs) eq_refl). unfold frames_rank in Hr. simpl in Hr. lia.
  - intros [= <-]. set (e1 := set_heap _ e). specialize (Hr e1 (Parking id wk :: fs) eq_refl).
    unfold frames_rank in Hr. simpl in Hr. unfold rank in *. simpl in *. lia.
  - intros [= <-]. rewrite Hw. set (e1 := set_state _ e). specialize (Hr e1 fs eq_refl).
    unfold frames_rank in Hr. simpl in Hr.
    destruct (queues (state e) !! w) as [queue|] eqn:Hq.
    + pose proof (rank_queue e w queue (queue ++ [mkQueued id (Some wk)]) Hq) as Hrq.
      unfold e1, push_queue in *. rewrite Hq in *. simpl default in *. rewrite length_app in Hrq. simpl in Hrq. lia.
    + exfalso. apply lookup_ge_None in Hq. apply lookup_lt_Some in Hfs.
      destruct (inv_workers _ He). lia.
  - intros [= <-]. specialize (Hr e (Finishing id (cancel_task_status cr ok) :: fs) eq_refl).
    unfold frames_rank in Hr. simpl in Hr. lia.
  - intros [= <-]. specialize (Hr (finish_task id status e) fs).
    assert (frames (finish_task id status e) = frames e /\ rank (finish_task id status e) = rank e) as [E1 E2]
      by (unfold finish_task; by case_decide).
    specialize (Hr E1). unfold frames_rank in Hr. simpl in Hr. rewrite E2 in Hr. lia.
Qed.

(** With every queued task to be cancelled, looking for work takes the first. *)
Lemma next_ready_canceled e w queue now : inv e -> shutdown_mode (state e) = Some Cancel ->
  queues (state e) !! w = Some queue ->
  next_ready_loop (heap e) now (length queue) queue None =
    match queue with [] => (None, None, []) | q :: queue' => (Some q, None, queue') end.
Proof.
  intros He Hm Hq. destruct queue as [|q queue]; [done|]. cbn [length next_ready_loop].
  assert (Hf : cancel_flag (heap e) (control q) = true).
  { eapply located_flag; [done..|]. eapply queue_located; [done|]. by left. }
  unfold ready. by rewrite Hf, orb_true_r.
Qed.

Lemma look_for_work_rank now w e e' :
  inv e -> shutdown_mode (state e) = Some Cancel -> look_for_work now w e = Some e' ->
  e' = e \/ (rank e' < rank e)%nat.
Proof.
  intros He Hm. unfold look_for_work. destruct (frames e !! w) as [fs|] eqn:Hfs; [|done].
  destruct (match fs with [] => _ | _ => _ end); [|done].
  unfold next_ready_task. destruct (queues (state e) !! w) as [queue|] eqn:Hq; [|intros [= <-]; by left].
  rewrite (next_ready_canceled e w queue now He Hm Hq). destruct queue as [|q queue]; intros [= <-].
  - left. destruct e as [cap s hp nx frs]. unfold set_state, set_queue. simpl in *.
    rewrite list_insert_id by done. by destruct s.
  - right. set (e1 := set_state _ e).
    pose proof (rank_frames e1 w fs (Popped (control q) :: fs) Hfs) as H1.
    pose proof (rank_queue e w (q :: queue) queue Hq) as H2. fold e1 in H2.
    unfold frames_rank in H1. simpl in *. lia.
Qed.

Lemma worker_step_mode e e' : worker_step e e' -> shutdown_mode (state e') = shutdown_mode (state e).
Proof.
  intros [o cr ok now w e0 e0' Hr|now w e0 e0' Hl].
  - unfold run_frame in Hr. destruct (frames e0 !! w) as [[|f fs]|]; try done.
    destruct f; cbn [frame_step] in Hr; unfold finish_task in Hr; repeat case_match; by simplify_eq/=.
  - unfold look_for_work, next_ready_task in Hl. repeat case_match; by simplify_eq/=.
Qed.

(** A pending task means a worker that can move. *)
Lemma some_work e : inv e -> active (state e) <> 0%nat ->
  (exists w f fs, frames e !! w = Some (f :: fs)) \/
  (exists w q queue, frames e !! w = Some [] /\ queues (state e) !! w = Some (q :: queue)).
Proof.
  intros He Ha. rewrite (pl_active _ _ _ _ _ (inv_placed _ He)) in Ha. unfold located in Ha.
  destruct (concat (frames e)) as [|f fs] eqn:Ef.
  - destruct (concat (queues (state e))) as [|q qs] eqn:Eq; [done|]. right.
    assert (q ∈ concat (queues (state e))) as Hq by (rewrite Eq; by left).
    apply list_elem_of_In, in_concat in Hq as (queue & Hin & Hq).
    apply list_elem_of_In, list_elem_of_lookup in Hin as [w Hw].
    destruct queue as [|q' queue]; [done|]. exists w, q', queue. split; [|done].
    destruct (frames e !! w) as [[|f fs]|] eqn:Hfs; [done| |].
    + exfalso. assert (f ∈ concat (frames e)) as Hin2; [|rewrite Ef in Hin2; by apply elem_of_nil in Hin2].
      apply list_elem_of_In, in_concat. exists (f :: fs). split; [|by left].
      apply list_elem_of_In. by eapply list_elem_of_lookup_2.
    + apply lookup_ge_None in Hfs. apply lookup_lt_Some in Hw. destruct (inv_workers _ He). lia.
  - left. assert (f ∈ concat (frames e)) as Hf by (rewrite Ef; by left).
    apply list_elem_of_In, in_concat in Hf as (l & Hin & Hf).
    apply list_elem_of_In, list_elem_of_lookup in Hin as [w Hw].
    destruct l as [|f' l]; [done|]. by exists w, f', l.
Qed.

(** C20: shutting down with [Cancel] finishes.  From any reachable state in
    which cancellation was ordered, whatever the coroutines answer and however
    the workers interleave: a worker step changes nothing or decreases [rank];
    as long as tasks are pending some worker can make a decreasing step; and
    at rank 0 no task is active, so [shutdown]'s wait ends after at most
    [rank e] effective steps. *)
Theorem shutdown_cancel_finishes e : reachable e -> shutdown_mode (state e) = Some Cancel ->
  (forall e', worker_step e e' -> shutdown_mode (state e') = Some Cancel /\
     (e' = e \/ (rank e' < rank e)%nat)) /\
  (active (state e) <> 0%nat -> exists e', worker_step e e' /\ (rank e' < rank e)%nat) /\
  (rank e = 0%nat -> active (state e) = 0%nat).
Proof.
  intros He%reachable_inv Hm.
  assert (Hwork : active (state e) <> 0%nat -> exists e', worker_step e e' /\ (rank e' < rank e)%nat).
  { intros Ha. destruct (some_work e He Ha) as [(w & f & fs & Hfs)|(w & q & queue & Hfs & Hq)].
    - destruct (run_frame PollComplete None true 0 w e) as [e'|] eqn:E.
      + exists e'. split; [by eapply step_frame|by eapply run_frame_rank].
      + unfold run_frame in E. rewrite Hfs in E. by destruct (frame_step _ _ _ _ _ _).
    - assert (Hs : stop_workers (state e) = false).
      { destruct (stop_workers (state e)) eqn:E; [|done]. by destruct (inv_stop _ He E). }
      destruct (look_for_work 0 w e) as [e'|] eqn:E.
      + exists e'. split; [by eapply step_look|]. unfold look_for_work, next_ready_task in E.
        rewrite Hfs, Hs, Hq, (next_ready_canceled e w _ 0 He Hm Hq) in E. simpl in E. injection E as <-.
        set (e1 := set_state _ e).
        pose proof (rank_frames e1 w [] [Popped (control q)] Hfs) as H1.
        pose proof (rank_queue e w (q :: queue) queue Hq) as H2. fold e1 in H2.
        unfold frames_rank in H1. simpl in *. lia.
      + unfold look_for_work, next_ready_task in E.
        by rewrite Hfs, Hs, Hq, (next_ready_canceled e w _ 0 He Hm Hq) in E. }
  split_and!; [|done|].
  - intros e' Hs. split; [rewrite <- Hm; by apply worker_step_mode|]. revert He Hm Hwork. destruct Hs as [o cr ok now w e e' Hr|now w e e' Hl]; intros He Hm _.
    + right. by eapply run_frame_rank.
    + by eapply look_for_work_rank.
  - intros Hr. destruct (decide (active (state e) = 0%nat)) as [|Ha]; [done|].
    destruct (Hwork Ha) as (e' & _ & ?). lia.
Qed.

(** *** Submissions *)

(** Every submission is answered by one of three cases.  It is accepted
    exactly when the executor accepts work, has a free slot and has an id
    left: then the id was never used, its status is pending, and it has an
    encoding for the C interface.  Otherwise the task is handed back with the
    reason and no status changes. *)
Theorem spawn_cases (t : Task) e : reachable e ->
  match spawn t e with
  | (Ok id, e') =>
      accepting (state e) = true /\ (active (state e) < capacity e)%nat /\
      id = next_task_id e /\ task_status_shared e id = Unknown /\
      statuses (state e') = <[id := Pending]> (statuses (state e)) /\
      active (state e') = S (active (state e)) /\ is_Some (encode_task_id id)
  | (Err (reason, t'), e') =>
      t' = t /\ state e' = state e /\ heap e' = heap e /\
      match reason with
      | ShuttingDown => accepting (state e) = false \/ CONCURRENT_TASK_ID_TAG <= next_task_id e
      | AtCapacity => accepting (state e) = true /\ active (state e) = capacity e
      end
  end.
Proof.
  intros He%reachable_inv. unfold spawn. destruct (accepting (state e)) eqn:Hacc; simpl negb; [|by split_and!; auto].
  pose proof (inv_capacity _ He). pose proof (inv_next _ He).
  destruct (Nat.leb_spec (capacity e) (active (state e))); [split_and!; try done; lia|].
  destruct (Z.eqb_spec (next_task_id e) 0); [lia|]. cbn [orb].
  destruct (Z.leb_spec CONCURRENT_TASK_ID_TAG (next_task_id e)); [by split_and!; auto|].
  assert (Hu : task_status_shared e (next_task_id e) = Unknown).
  { unfold task_status_shared. destruct (statuses (state e) !! next_task_id e) eqn:E; [|done].
    assert (0 < next_task_id e < next_task_id e) by (apply (inv_ids _ He); by rewrite E). lia. }
  split_and!; try done. unfold encode_task_id.
  assert (CONCURRENT_TASK_ID_TAG = 2 ^ 62) as Htag by reflexivity.
  rewrite (proj2 (Z.ltb_lt _ _)) by lia. rewrite (proj2 (Z.ltb_lt _ _)) by lia.
  rewrite (proj2 (Z.ltb_lt _ _)) by lia. by eexists.
Qed.
End invariant.

(** Tagged task ids round-trip: every id the executor hands out is
    encoded as an [i64] above the tag, decodes to itself, and nothing else
    decodes to an id: plain scheduler ids (up to the tag) are rejected. *)
Theorem task_id_roundtrip (id ext : Z) : 0 <= id -> in_s 64 ext ->
  encode_task_id id = Some ext <-> decode_task_id ext = Some id.
Proof.
  intros Hid Hext. unfold in_s in Hext. unfold encode_task_id, decode_task_id.
  assert (CONCURRENT_TASK_ID_TAG = 2 ^ 62) as -> by reflexivity.
  assert (Hor : forall z, 0 <= z < 2 ^ 62 -> Z.lor z (2 ^ 62) = z + 2 ^ 62).
  { intros z Hz. rewrite <- (Z.mul_1_l (2 ^ 62)) at 2. rewrite <- (lor_disjoint z 1 62) by lia. done. }
  assert (Hsplit : forall z, 0 <= z < 2 ^ 62 -> Z.land (z + 2 ^ 62) (2 ^ 62) = 2 ^ 62 /\
            Z.land (z + 2 ^ 62) (Z.lnot (2 ^ 62)) = z).
  { intros z Hz. rewrite <- Hor by done. rewrite Z.land_lor_distr_l, Z.land_diag.
    pose proof (land_shiftl_disjoint z 1 62 ltac:(lia) Hz) as Hd. change (Z.shiftl 1 62) with (2 ^ 62) in Hd.
    split; [by rewrite Hd|]. rewrite <- Z.ldiff_land.
    pose proof (Z.lor_ldiff_and z (2 ^ 62)) as H1. rewrite Hd, Z.lor_0_r in H1.
    rewrite Z.ldiff_land, Z.land_lor_distr_l, <- !Z.ldiff_land, Z.ldiff_diag, Z.lor_0_r. done. }
  split.
  - destruct (Z.ltb_spec id (2 ^ 63)); [|done]. destruct (Z.ltb_spec 0 id); [|done].
    destruct (Z.ltb_spec id (2 ^ 62)); [|done]. cbn [andb]. intros [= <-]. rewrite Hor by lia.
    destruct (Hsplit id ltac:(lia)) as [-> ->]. destruct (Z.leb_spec (id + 2 ^ 62) (2 ^ 62)); [lia|].
    cbn [orb]. rewrite wrap_u_id by (unfold in_u; lia). done.
  - destruct (Z.leb_spec ext (2 ^ 62)); [done|]. cbn [orb].
    destruct (Z.eqb_spec (Z.land ext (2 ^ 62)) 0); [done|].
    assert (ext = (ext - 2 ^ 62) + 2 ^ 62) as E by lia. rewrite E.
    destruct (Hsplit (ext - 2 ^ 62) ltac:(lia)) as [_ ->]. rewrite wrap_u_id by (unfold in_u; lia).
    intros [= <-]. rewrite (proj2 (Z.ltb_lt _ _)) by lia. rewrite (proj2 (Z.ltb_lt _ _)) by lia.
    rewrite (proj2 (Z.ltb_lt _ _)) by lia. cbn [andb]. rewrite Hor by lia. done.
Qed.

Lemma task_id_roundtrip_witness :
  encode_task_id 5 = Some (2 ^ 62 + 5) <-> decode_task_id (2 ^ 62 + 5) = Some 5.
Proof.
  apply (task_id_roundtrip 5 (2 ^ 62 + 5)); [discriminate|]. split; vm_compute; [discriminate|reflexivity].
Defined.
(** ** Witnesses *)

Definition sample_new : Exec unit :=
  mkExec 2 (mkState (repeat [] 2) 0 ∅ ∅ 0 true None false) ∅ 1 (repeat [] 2).

(** One task submitted, then cancellation ordered. *)
Definition sample_spawned : Exec unit := (spawn tt sample_new).2.
Definition sample_canceling : Exec unit := shutdown_begin Cancel sample_spawned.

Lemma sample_spawned_reachable : reachable sample_spawned.
Proof.
  exists 2%nat, 2%nat, 1, sample_new. split; [lia|]. split; [reflexivity|].
  eapply rtc_l; [|apply rtc_refl]. apply step_spawn. reflexivity.
Qed.

Lemma sample_canceling_step : rtc step sample_spawned sample_canceling.
Proof. eapply rtc_l; [|apply rtc_refl]. apply step_shutdown. Qed.

Lemma sample_canceling_reachable : reachable sample_canceling.
Proof.
  destruct sample_spawned_reachable as (n & cap & id & e0 & ? & ? & Hr).
  exists n, cap, id, e0. split; [done|]. split; [done|]. etrans; [exact Hr|apply sample_canceling_step].
Qed.

Lemma executor_no_task_lost_witness :
  active (state sample_spawned) = 1%nat /\ active (state sample_spawned) = length (located sample_spawned).
Proof.
  split; [reflexivity|]. exact (proj1 (proj2 (executor_no_task_lost sample_spawned sample_spawned_reachable))).
Defined.

(** Worker 0 takes the task, polls it to completion and records that. *)
Definition advance (e : Exec unit) : Exec unit := default e (run_frame PollComplete None true 0 0 e).
Definition sample_popped : Exec unit := default sample_spawned (look_for_work 0 0 sample_spawned).
Definition sample_done : Exec unit := advance (advance (advance (advance sample_popped))).

Lemma advance_step e : run_frame PollComplete None true 0 0 e = Some (advance e) -> step e (advance e).
Proof. intros E. apply step_worker. by eapply step_frame. Qed.

Lemma sample_done_reachable : reachable sample_done.
Proof.
  destruct sample_spawned_reachable as (n & cap & id & e0 & ? & ? & Hr).
  exists n, cap, id, e0. split; [done|]. split; [done|]. etrans; [exact Hr|].
  apply (rtc_l _ _ sample_popped); [apply step_worker, (step_look 0 0); reflexivity|].
  repeat (eapply rtc_l; [apply advance_step; reflexivity|]). apply rtc_refl.
Qed.

Lemma terminal_status_final_witness :
  task_status_shared (shutdown_begin Drain sample_done) 1 = Completed.
Proof.
  refine (terminal_status_final sample_done (shutdown_begin Drain sample_done) 1 Completed
    sample_done_reachable _ _ _).
  - eapply rtc_l; [|apply rtc_refl]. apply step_shutdown.
  - reflexivity.
  - split; discriminate.
Defined.

Lemma shutdown_cancel_finishes_witness :
  exists e', worker_step sample_canceling e' /\ (rank e' < rank sample_canceling)%nat.
Proof.
  refine (proj1 (proj2 (shutdown_cancel_finishes sample_canceling sample_canceling_reachable _)) _).
  - reflexivity.
  - vm_compute. discriminate.
Defined.

Lemma spawn_cases_witness :
  match spawn tt sample_spawned with (Ok id, _) => id = 2 | _ => False end.
Proof.
  pose proof (spawn_cases tt sample_spawned sample_spawned_reachable) as H.
  change (next_task_id sample_spawned) with 2 in H.
  destruct (spawn tt sample_spawned) as [[id|err] e'] eqn:E; [tauto|]. vm_compute in E. discriminate.
Defined.

