(* ===== verification/Retired.v ===== *)
(** The process-wide executor (runtime/src/async_runtime/executor.rs): the
    bounded record of the statuses of executors that were shut down, and the
    functions behind the C interface. *)

From S2P Require Import Prelude Executor ExecutorInv.
From Stdlib Require Import Sorted.

Local Open Scope Z_scope.

(** ** Retired statuses *)

Record retired_wf (r : RetiredTaskStatuses) : Prop := {
  rw_nodup : NoDup (retired_order r);
  rw_dom : forall id, is_Some (retired_statuses r !! id) <-> id ∈ retired_order r;
  rw_bound : (length (retired_order r) <= retired_capacity r)%nat;
}.

Definition is_terminal (st : TaskLifecycleStatus) : bool :=
  match st with Pending | Unknown => false | _ => true end.

(** The ids a sorted batch adds, oldest first. *)
Definition terminal_ids (l : list (TaskId * TaskLifecycleStatus)) : list TaskId :=
  map fst (List.filter (fun x => is_terminal x.2) l).

Lemma retired_expire_spec cap st order :
  retired_expire cap st order =
    (foldl (fun st id => delete id st) st (take (length order - cap) order),
     drop (length order - cap) order).
Proof.
  revert st. induction order as [|x order IH]; intros st; cbn [retired_expire].
  - simpl. done.
  - destruct (Nat.ltb_spec cap (length (x :: order))) as [Hlt|Hge].
    + rewrite IH. cbn [length] in *.
      replace (S (length order) - cap)%nat with (S (length order - cap))%nat by lia. done.
    + by replace (length (x :: order) - cap)%nat with O by lia.
Qed.

Lemma delete_all_lookup (st : gmap TaskId TaskLifecycleStatus) xs id :
  foldl (fun st id => delete id st) st xs !! id = if decide (id ∈ xs) then None else st !! id.
Proof.
  revert st. induction xs as [|x xs IH]; intros st; cbn [foldl].
  - by rewrite decide_False by (by intros ?%elem_of_nil).
  - rewrite IH. destruct (decide (id ∈ xs)) as [Hin|Hnin].
    + by rewrite decide_True by (by right).
    + destruct (decide (id = x)) as [->|Hne].
      * rewrite decide_True by (by left). apply lookup_delete_eq.
      * rewrite decide_False by (rewrite elem_of_cons; tauto). by apply lookup_delete_ne.
Qed.

(** One entry with a new id. *)
Lemma retire_one_new r id st : retired_wf r -> id ∉ retired_order r -> is_terminal st = true ->
  let r' := retire_one r (id, st) in
  let all := retired_order r ++ [id] in
  retired_capacity r' = retired_capacity r /\
  retired_order r' = drop (length all - retired_capacity r) all /\ retired_wf r' /\
  (forall j s, retired_statuses r' !! j = Some s ->
     (j = id /\ s = st) \/ retired_statuses r !! j = Some s).
Proof.
  intros [Hnd Hdom Hb] Hid Hst r' all.
  assert (Hnone : retired_statuses r !! id = None).
  { destruct (retired_statuses r !! id) eqn:E; [|done]. exfalso. apply Hid, Hdom. by rewrite E. }
  assert (Hall : NoDup all).
  { unfold all. apply NoDup_app. split_and!; [done| |apply NoDup_singleton].
    intros x Hx ->%list_elem_of_singleton. done. }
  assert (E : r' = mkRetired (retired_capacity r)
    (foldl (fun st id => delete id st) (<[id := st]> (retired_statuses r))
       (take (length all - retired_capacity r) all))
    (drop (length all - retired_capacity r) all)).
  { unfold r', retire_one. destruct st; try done; simpl; rewrite Hnone, retired_expire_spec; done. }
  rewrite E. simpl. pose proof Hall as Hsplit.
  rewrite <- (take_drop (length all - retired_capacity r) all) in Hsplit.
  apply NoDup_app in Hsplit as (_ & Hdis & Hnd').
  split_and!; [done|done| |].
  - split; simpl; [done| |rewrite length_drop; lia].
    intros j. rewrite delete_all_lookup. destruct (decide (j ∈ take _ _)) as [Hj|Hj].
    + split; [by intros [? ?]|]. intros Hd. exfalso. by apply (Hdis j).
    + rewrite lookup_insert_is_Some', Hdom.
      assert (j ∈ all <-> j ∈ drop (length all - retired_capacity r) all) as <-.
      { rewrite <- (take_drop (length all - retired_capacity r) all) at 1. rewrite elem_of_app. tauto. }
      unfold all. rewrite elem_of_app, list_elem_of_singleton. intuition congruence.
  - intros j s. rewrite delete_all_lookup. destruct (decide _); [done|].
    rewrite lookup_insert_Some. intros [[<- <-]|[_ Hj]]; [by left|by right].
Qed.

Lemma drop_drop_app {A} (l k : list A) (c : nat) :
  drop (length (drop (length l - c) l ++ k) - c) (drop (length l - c) l ++ k) =
    drop (length (l ++ k) - c) (l ++ k).
Proof.
  rewrite !length_app, length_drop.
  destruct (decide (c <= length l)%nat) as [Hle|Hgt].
  - rewrite <- (drop_app_le l k) by lia. rewrite drop_drop. f_equal. lia.
  - replace (length l - c)%nat with O by lia. simpl. f_equal. lia.
Qed.

Lemma retire_list r l : retired_wf r -> NoDup (map fst l) ->
  (forall x, x ∈ map fst l -> x ∉ retired_order r) ->
  let r' := foldl retire_one r l in
  let all := retired_order r ++ terminal_ids l in
  retired_wf r' /\ retired_capacity r' = retired_capacity r /\
  retired_order r' = drop (length all - retired_capacity r) all /\
  (forall j s, retired_statuses r' !! j = Some s -> (j, s) ∈ l \/ retired_statuses r !! j = Some s).
Proof.
  revert r. induction l as [|[id st] l IH]; intros r Hwf Hnd Hdis.
  - simpl. rewrite app_nil_r. destruct Hwf as [? ? Hb]. split_and!; [done|done| |by right].
    replace (length (retired_order r) - retired_capacity r)%nat with O by lia. done.
  - cbn [map fst] in Hnd, Hdis. apply NoDup_cons in Hnd as [Hni Hnd].
    destruct (is_terminal st) eqn:Hst.
    + destruct (retire_one_new r id st Hwf) as (Hc & Ho & Hwf' & Hv); [apply Hdis; by left|done|].
      destruct (IH (retire_one r (id, st))) as (Hw2 & Hc2 & Ho2 & Hv2); [done..| |].
      { intros x Hx. rewrite Ho. intros Hd.
        assert (x ∈ retired_order r ++ [id]) as Hxo.
        { rewrite <- (take_drop (length (retired_order r ++ [id]) - retired_capacity r) (retired_order r ++ [id])).
          apply elem_of_app. by right. }
        apply elem_of_app in Hxo as [Hxo| ->%list_elem_of_singleton]; [|done].
        apply (Hdis x); [by right|done]. }
      cbn [foldl]. unfold terminal_ids in *. cbn [List.filter snd]. rewrite Hst. cbn [map fst].
      split_and!; [done|congruence| |].
      * rewrite Ho2, Hc, Ho. rewrite drop_drop_app. by rewrite <- app_assoc.
      * intros j s Hj. destruct (Hv2 j s Hj) as [Hin|Hj']; [left; by right|].
        destruct (Hv j s Hj') as [[-> ->]|?]; [left; by left|by right].
    + assert (Hsame : retire_one r (id, st) = r) by (by destruct st).
      cbn [foldl]. rewrite Hsame. unfold terminal_ids in *. cbn [List.filter snd]. rewrite Hst.
      destruct (IH r) as (Hw2 & Hc2 & Ho2 & Hv2); [done..| |].
      { intros x Hx. apply Hdis. by right. }
      split_and!; try done. intros j s Hj. destruct (Hv2 j s Hj); [left; by right|by right].
Qed.

Lemma insert_by_id_perm e l : insert_by_id e l ≡ₚ e :: l.
Proof.
  induction l as [|x l IH]; [done|]. cbn [insert_by_id]. destruct (e.1 <=? x.1); [done|].
  rewrite IH. by apply Permutation_swap.
Qed.

Lemma sort_by_id_perm l : sort_by_id l ≡ₚ l.
Proof. induction l as [|x l IH]; [done|]. simpl. by rewrite insert_by_id_perm, IH. Qed.

Definition by_id (x y : TaskId * TaskLifecycleStatus) : Prop := x.1 <= y.1.

Lemma insert_by_id_sorted e l : Sorted.StronglySorted by_id l -> Sorted.StronglySorted by_id (insert_by_id e l).
Proof.
  induction 1 as [|x l Hs IH HF]; cbn [insert_by_id]; [by repeat constructor|].
  destruct (Z.leb_spec e.1 x.1).
  - constructor; [by constructor|]. constructor; [done|]. eapply Forall_impl; [exact HF|].
    unfold by_id. intros; lia.
  - constructor; [done|]. rewrite insert_by_id_perm. constructor; [unfold by_id; lia|done].
Qed.

Lemma sort_by_id_sorted l : Sorted.StronglySorted by_id (sort_by_id l).
Proof. induction l; simpl; [constructor|by apply insert_by_id_sorted]. Qed.

Lemma terminal_ids_sorted l : Sorted.StronglySorted by_id l ->
  Sorted.StronglySorted Z.le (terminal_ids l).
Proof.
  unfold terminal_ids. induction 1 as [|x l Hs IH HF]; simpl; [constructor|].
  destruct (is_terminal x.2); [|done]. simpl. constructor; [done|].
  apply Forall_forall. intros y Hy. apply list_elem_of_In, in_map_iff in Hy as (z & <- & Hz).
  apply filter_In in Hz as [Hz _]. by apply (proj1 (Forall_forall _ _) HF), list_elem_of_In.
Qed.

Lemma retire_keeps_newest_lemma (m : gmap TaskId TaskLifecycleStatus) (r : RetiredTaskStatuses) :
  retired_wf r -> (forall id, is_Some (m !! id) -> id ∉ retired_order r) ->
  let r' := retire m r in
  let ids := terminal_ids (sort_by_id (map_to_list m)) in
  let all := retired_order r ++ ids in
  retired_wf r' /\
  Sorted.StronglySorted Z.le ids /\
  (forall id, id ∈ ids <-> exists st, m !! id = Some st /\ is_terminal st = true) /\
  retired_order r' = drop (length all - retired_capacity r) all /\
  (forall id st, id ∈ retired_order r' -> m !! id = Some st -> retired_status r' id = st) /\
  (forall id st, id ∈ retired_order r' -> retired_statuses r !! id = Some st -> retired_status r' id = st) /\
  (forall id, id ∉ retired_order r' -> retired_status r' id = Unknown).
Proof.
  intros Hwf Hdis r' ids all.
  assert (Hp : map fst (sort_by_id (map_to_list m)) ≡ₚ map fst (map_to_list m)) by (by rewrite sort_by_id_perm).
  assert (Hkey : forall x, x ∈ map fst (map_to_list m) -> is_Some (m !! x)).
  { intros x Hx. apply list_elem_of_fmap in Hx as ([j st] & -> & Hj%elem_of_map_to_list). by exists st. }
  destruct (retire_list r (sort_by_id (map_to_list m)) Hwf) as (Hw & Hc & Ho & Hv).
  { rewrite Hp. apply NoDup_fst_map_to_list. }
  { intros x Hx. rewrite Hp in Hx. by apply Hdis, Hkey. }
  fold (retire m r) in Hw, Hc, Ho, Hv. fold r' in Hw, Hc, Ho, Hv.
  assert (Hval : forall id st, id ∈ retired_order r' -> m !! id = Some st \/ retired_statuses r !! id = Some st ->
            retired_status r' id = st).
  { intros id st Hin Hst. destruct (proj2 (rw_dom _ Hw id) Hin) as [s Es]. unfold retired_status. rewrite Es.
    simpl. destruct (Hv id s Es) as [Hs|Hs].
    - rewrite sort_by_id_perm, elem_of_map_to_list in Hs. destruct Hst as [|Hst]; [congruence|].
      exfalso. apply (Hdis id); [by rewrite Hs|]. apply (rw_dom _ Hwf). by rewrite Hst.
    - destruct Hst as [Hst|]; [|congruence]. exfalso. apply (Hdis id); [by rewrite Hst|].
      apply (rw_dom _ Hwf). by rewrite Hs. }
  split_and!; [done|apply terminal_ids_sorted, sort_by_id_sorted| |done|eauto..|].
  - intros id. unfold ids, terminal_ids. rewrite list_elem_of_In, in_map_iff. split.
    + intros ([j st] & <- & [Hin Ht]%filter_In). exists st. split; [|done].
      apply elem_of_map_to_list. rewrite <- sort_by_id_perm. by apply list_elem_of_In.
    + intros (st & E & Ht). exists (id, st). split; [done|]. apply filter_In. split; [|done].
      apply list_elem_of_In. rewrite sort_by_id_perm. by apply elem_of_map_to_list.
  - intros id Hin. unfold retired_status. destruct (retired_statuses r' !! id) eqn:E; [|done].
    exfalso. apply Hin, (rw_dom _ Hw). by rewrite E.
Qed.

(** The record of retired statuses is bounded and drops the oldest ids.
    Retiring the statuses of an executor appends the ids of its finished
    tasks in increasing order and keeps the last [capacity] of all ids; each
    id that stays answers with the status it was retired with, and every other
    id with [Unknown]. *)
Theorem retire_keeps_newest (m : gmap TaskId TaskLifecycleStatus) (r : RetiredTaskStatuses) :
  retired_wf r -> (forall id, is_Some (m !! id) -> id ∉ retired_order r) ->
  let r' := retire m r in
  let ids := terminal_ids (sort_by_id (map_to_list m)) in
  let all := retired_order r ++ ids in
  retired_wf r' /\
  Sorted.StronglySorted Z.le ids /\
  (forall id, id ∈ ids <-> exists st, m !! id = Some st /\ is_terminal st = true) /\
  retired_order r' = drop (length all - retired_capacity r) all /\
  (forall id st, id ∈ retired_order r' -> m !! id = Some st -> retired_status r' id = st) /\
  (forall id st, id ∈ retired_order r' -> retired_statuses r !! id = Some st -> retired_status r' id = st) /\
  (forall id, id ∉ retired_order r' -> retired_status r' id = Unknown).
Proof. apply retire_keeps_newest_lemma. Qed.

Lemma retire_keeps_newest_witness :
  retired_order (retire {[3 := Completed; 1 := Canceled; 2 := Failed; 4 := Pending]} (retired_new 2)) = [2; 3] /\
  retired_status (retire {[3 := Completed; 1 := Canceled; 2 := Failed; 4 := Pending]} (retired_new 2)) 2 = Failed.
Proof.
  destruct (retire_keeps_newest {[3 := Completed; 1 := Canceled; 2 := Failed; 4 := Pending]} (retired_new 2))
    as (_ & _ & _ & Ho & Hv & _).
  - split; simpl; [constructor| |lia]. intros id. rewrite lookup_empty, elem_of_nil. split; [intros [? ?]; done|done].
  - intros id _. apply not_elem_of_nil.
  - assert (E : retired_order (retire {[3 := Completed; 1 := Canceled; 2 := Failed; 4 := Pending]} (retired_new 2)) = [2; 3])
      by (rewrite Ho; vm_compute; reflexivity).
    split; [exact E|]. apply Hv; [rewrite E; by left|reflexivity].
Defined.


(** ** The process-wide executor

    [EXECUTOR], [RETIRED_STATUSES] and [NEXT_CONCURRENT_TASK_ID]. *)

Section runtime.
Context {Task : Type}.

Record Runtime := mkRuntime {
  rt_executor : option (Exec Task);
  rt_retired : RetiredTaskStatuses;
  rt_next_task_id : Z;
}.

(** [usize::try_from] of an [i64]. *)
Definition try_usize (z : Z) : option nat := if z <? 0 then None else Some (Z.to_nat z).

Definition enable (worker_count cap : Z) (rt : Runtime) : result Z Z * Runtime :=
  match try_usize worker_count, try_usize cap with
  | Some wc, Some cp =>
      if Nat.eqb wc 0 || Nat.eqb cp 0 then (Err STATUS_INVALID_ARGUMENT, rt)
      else
        match rt_executor rt with
        | Some _ => (Ok 1, rt)
        | None =>
            match executor_new wc cp (rt_next_task_id rt) with
            | Ok e => (Ok 1, mkRuntime (Some e) (rt_retired rt) (rt_next_task_id rt))
            | Err code => (Err code, rt)
            end
        end
  | _, _ => (Err STATUS_INVALID_ARGUMENT, rt)
  end.

Definition is_enabled (rt : Runtime) : bool := is_some (rt_executor rt).

Definition with_executor (e : Exec Task) (rt : Runtime) : Runtime :=
  mkRuntime (Some e) (rt_retired rt) (next_task_id e).

(** 0 stands for a rejected task, which is released. *)
Definition spawn_detached (t : Task) (rt : Runtime) : Z * Runtime :=
  match rt_executor rt with
  | None => (0, rt)
  | Some e =>
      match spawn t e with
      | (Ok id, e') => (default 0 (encode_task_id id), with_executor e' rt)
      | (Err _, e') => (0, with_executor e' rt)
      end
  end.

Definition task_status (task_id : Z) (rt : Runtime) : TaskLifecycleStatus :=
  match decode_task_id task_id with
  | None => Unknown
  | Some id =>
      let active_status :=
        match rt_executor rt with Some e => task_status_shared e id | None => Unknown end in
      if decide (active_status = Unknown) then retired_status (rt_retired rt) id else active_status
  end.

Definition cancel (task_id : Z) (rt : Runtime) : bool * Runtime :=
  match decode_task_id task_id, rt_executor rt with
  | Some id, Some e => let '(b, e') := cancel_shared id e in (b, with_executor e' rt)
  | _, _ => (false, rt)
  end.

(** [shutdown] takes the executor out of its slot, waits until it is idle
    ([e], the state it reaches) and retires its statuses. *)
Definition shutdown_retire (e : Exec Task) (rt : Runtime) : Runtime :=
  mkRuntime None (retire (statuses (state e)) (rt_retired rt)) (next_task_id e).

(** Shutting the executor down does not change what [task_status]
    answers.  When the idle executor [e] is retired into a record that never
    saw its ids and that has room for them, every task id answers as before. *)
Theorem shutdown_keeps_statuses (e : Exec Task) (rt : Runtime) (task_id : Z) :
  reachable e -> active (state e) = 0%nat -> rt_executor rt = Some e -> retired_wf (rt_retired rt) ->
  (forall id, is_Some (statuses (state e) !! id) -> id ∉ retired_order (rt_retired rt)) ->
  (length (retired_order (rt_retired rt)) + size (statuses (state e)) <= retired_capacity (rt_retired rt))%nat ->
  task_status task_id (shutdown_retire e rt) = task_status task_id rt.
Proof.
  intros He%reachable_inv Ha Hrt Hwf Hdis Hroom. unfold task_status. rewrite Hrt.
  destruct (decode_task_id task_id) as [id|]; [|done]. cbn [shutdown_retire rt_executor rt_retired].
  rewrite decide_True by done. unfold task_status_shared.
  destruct (retire_keeps_newest_lemma (statuses (state e)) (rt_retired rt) Hwf Hdis)
    as (Hw' & _ & Hids & Ho & Hv1 & Hv2 & Hv3).
  assert (Hlen : (length (terminal_ids (sort_by_id (map_to_list (statuses (state e))))) <= size (statuses (state e)))%nat).
  { unfold terminal_ids. rewrite length_map.
    etrans; [apply List.filter_length_le|]. rewrite sort_by_id_perm. by rewrite length_map_to_list. }
  rewrite length_app in Ho.
  match type of Ho with _ = drop ?k _ => assert (k = 0%nat) as E by lia; rewrite E in Ho; clear E end.
  rewrite drop_0 in Ho.
  destruct (statuses (state e) !! id) as [st|] eqn:E; simpl.
  - assert (Ht : is_terminal st = true).
    { destruct st; try done; exfalso; [by apply (inv_known _ He id)|].
      apply (pl_pending _ _ _ _ _ (inv_placed _ He)) in E.
      rewrite (pl_active _ _ _ _ _ (inv_placed _ He)) in Ha. apply nil_length_inv in Ha.
      rewrite Ha in E. by apply elem_of_nil in E. }
    assert (st <> Unknown) by (by intros ->). rewrite decide_False by done.
    apply Hv1; [|done]. rewrite Ho. apply elem_of_app. right. apply Hids. by exists st.
  - unfold retired_status at 2.
    destruct (retired_statuses (rt_retired rt) !! id) as [st|] eqn:Er; simpl.
    + apply Hv2; [|done]. rewrite Ho. apply elem_of_app. left. apply (rw_dom _ Hwf). by rewrite Er.
    + apply Hv3. rewrite Ho. intros [Hin|Hin]%elem_of_app.
      * apply (rw_dom _ Hwf) in Hin. rewrite Er in Hin. by destruct Hin.
      * apply Hids in Hin as (st & ? & _). congruence.
Qed.
End runtime.
Arguments Runtime : clear implicits.
Definition sample_runtime : Runtime unit := mkRuntime (Some sample_done) (retired_new RETIRED_STATUS_CAPACITY) 2.

Lemma shutdown_keeps_statuses_witness :
  task_status (2 ^ 62 + 1) (shutdown_retire sample_done sample_runtime) = Completed.
Proof.
  refine (shutdown_keeps_statuses sample_done sample_runtime (2 ^ 62 + 1) sample_done_reachable _ _ _ _ _).
  - reflexivity.
  - reflexivity.
  - split; simpl; [constructor| |lia]. intros id. rewrite lookup_empty, elem_of_nil.
    split; [intros [? ?]; done|done].
  - intros id _. apply not_elem_of_nil.
  - apply Nat.leb_le. vm_compute. reflexivity.
Defined.
