(* ===== verification/Channel.v ===== *)
(** Bounded async channels: runtime/src/async_runtime/concurrent.rs, with the
    handle conventions of runtime/src/async_runtime.rs and the poll lifecycle
    of runtime/src/async_runtime/futures.rs.

    Boxes behind [i64] handles are objects of a store; a box is freed by
    deleting it, and a new one gets an address no live box has.  Calling a
    function with a handle that is not live or has another type is undefined
    ([None]), as the safety comments of the C interface say; 0 is the null
    handle.  The channel behind an [Arc] is an entry of [channels].  Payloads
    of descriptor channels are values of a parameter type [P]; the calls of
    the descriptor's foreign functions that end a payload's life are recorded
    in [calls].  Each function runs under the channel's lock and is one step. *)

From S2P Require Import Prelude.

Local Open Scope Z_scope.

Definition INVALID_ARGUMENT : Z := 2.
Definition STATUS_INVALID_HANDLE : Z := 3.
Definition SENGOO_COLLECTIONS_ABI_VERSION : Z := 1.

(** ** Poll lifecycle *)

Definition POLL_ERROR_REENTRANT : Z := -2.
Definition POLL_ERROR_COMPLETED : Z := -3.

(** 0 idle, 1 inside a poll, 2 ready.  [enter] is a compare-and-swap; the
    guard stores 2 when marked ready and 0 otherwise. *)
Definition PollLifecycle : Type := Z.

Definition lifecycle_enter (state : PollLifecycle) : result PollLifecycle Z :=
  if state =? 0 then Ok 1
  else if state =? 1 then Err POLL_ERROR_REENTRANT
  else Err POLL_ERROR_COMPLETED.

Definition guard_mark_ready : PollLifecycle := 2.
Definition guard_drop : PollLifecycle := 0.

(** ** Type descriptors *)

Record SengooTypeDescriptor := mkDescriptor {
  abi_version : Z;
  desc_size : Z;
  desc_align : Z;
  has_move : bool;
  has_drop : bool;
}.

Definition is_power_of_two (n : Z) : bool := (0 <? n) && (Z.land n (n - 1) =? 0).

(** [Layout::from_size_align]: the size rounded up to the alignment fits an
    [isize]. *)
Definition layout_ok (size align : Z) : bool :=
  is_power_of_two align && (size <=? 2 ^ 63 - 1 - (align - 1)).

Definition validate_descriptor (d : SengooTypeDescriptor) : bool :=
  (abi_version d =? SENGOO_COLLECTIONS_ABI_VERSION) && negb (desc_size d =? 0) &&
  negb (desc_align d =? 0) && is_power_of_two (desc_align d) && has_move d && has_drop d &&
  layout_ok (desc_size d) (desc_align d).

Definition descriptor_from_parts (size align : Z) (move_value drop_value : bool)
    : option SengooTypeDescriptor :=
  if (size <=? 0) || (align <=? 0) then None
  else if negb move_value then None
  else if negb drop_value then None
  else Some (mkDescriptor SENGOO_COLLECTIONS_ABI_VERSION size align true true).

Section channel.
Context {P : Type}.

Inductive ChannelQueueEntry :=
| EntryI64 (v : Z)
| EntryDescriptor (p : P).

Record ChannelInner := mkInner {
  ch_capacity : nat;
  ch_descriptor : option SengooTypeDescriptor;
  ch_queue : list ChannelQueueEntry;
  ch_sender_count : nat;
  ch_receiver_alive : bool;
  ch_closed : bool;
}.

(** What a box holds. *)
Inductive Obj :=
| OPair (sender receiver : option nat)
| OSender (ch : nat)
| OReceiver (ch : nat)
| OSendI64 (ch : nat) (value : Z) (life : PollLifecycle) (outcome : option (result unit Z))
| ORecvI64 (ch : nat) (life : PollLifecycle) (outcome : option (result Z Z))
| OSend (ch : nat) (value : option P) (life : PollLifecycle) (outcome : option Z)
| ORecv (ch : nat) (life : PollLifecycle) (outcome : option (result P Z))
| OValue (payload : option P).

(** The end of a payload: [drop_value], or moved to the caller's output. *)
Inductive Call :=
| CallDrop (p : P)
| CallMoveOut (p : P).

Record Store := mkStore {
  channels : gmap nat ChannelInner;
  objs : gmap Z Obj;
  next_ch : nat;
  next_handle : Z;
  calls : list Call;
}.

Definition store_init : Store := mkStore ∅ ∅ 0 1 [].

Definition put_obj (h : Z) (o : Obj) (st : Store) : Store :=
  mkStore (channels st) (<[h := o]> (objs st)) (next_ch st) (next_handle st) (calls st).
(** [Box::from_raw] followed by the drop of the box. *)
Definition free_obj (h : Z) (st : Store) : Store :=
  mkStore (channels st) (delete h (objs st)) (next_ch st) (next_handle st) (calls st).
(** [Box::into_raw(Box::new(o))] *)
Definition new_obj (o : Obj) (st : Store) : Z * Store :=
  (next_handle st,
   mkStore (channels st) (<[next_handle st := o]> (objs st)) (next_ch st) (next_handle st + 1) (calls st)).
Definition put_channel (ch : nat) (c : ChannelInner) (st : Store) : Store :=
  mkStore (<[ch := c]> (channels st)) (objs st) (next_ch st) (next_handle st) (calls st).
Definition drop_payloads (ps : list P) (st : Store) : Store :=
  mkStore (channels st) (objs st) (next_ch st) (next_handle st) (calls st ++ map CallDrop ps).
Definition move_out (p : P) (st : Store) : Store :=
  mkStore (channels st) (objs st) (next_ch st) (next_handle st) (calls st ++ [CallMoveOut p]).

Definition payload_of (e : ChannelQueueEntry) : list P :=
  match e with EntryI64 _ => [] | EntryDescriptor p => [p] end.

(** ** Dropping the ends of a channel *)

Definition channel_drop_sender (ch : nat) (st : Store) : Store :=
  match channels st !! ch with
  | Some c =>
      let count := (ch_sender_count c - 1)%nat in
      put_channel ch (mkInner (ch_capacity c) (ch_descriptor c) (ch_queue c) count
        (ch_receiver_alive c) (if Nat.eqb count 0 then true else ch_closed c)) st
  | None => st
  end.

Definition channel_drop_receiver (ch : nat) (st : Store) : Store :=
  match channels st !! ch with
  | Some c =>
      if negb (ch_receiver_alive c) then st
      else
        drop_payloads (concat (map payload_of (ch_queue c)))
          (put_channel ch (mkInner (ch_capacity c) (ch_descriptor c) [] (ch_sender_count c) false
             (ch_closed c)) st)
  | None => st
  end.

(** ** Construction *)

Definition new_channel (capacity : Z) (d : option SengooTypeDescriptor) (st : Store) : Z * Store :=
  let ch := next_ch st in
  new_obj (OPair (Some ch) (Some ch))
    (mkStore (<[ch := mkInner (Z.to_nat capacity) d [] 1 true false]> (channels st)) (objs st) (S ch)
       (next_handle st) (calls st)).

Definition sengoo_async_channel_bounded_i64 (capacity : Z) (st : Store) : option (Z * Store) :=
  if capacity <? 1 then Some (0, st) else Some (new_channel capacity None st).

Definition sengoo_async_channel_bounded_parts (capacity size align : Z) (move_value drop_value : bool)
    (st : Store) : option (Z * Store) :=
  if capacity <? 1 then Some (0, st)
  else
    match descriptor_from_parts size align move_value drop_value with
    | None => Some (0, st)
    | Some d => Some (new_channel capacity (Some d) st)
    end.

Definition sengoo_async_channel_pair_sender (h : Z) (st : Store) : option (Z * Store) :=
  if h =? 0 then Some (0, st) else
  match objs st !! h with
  | Some (OPair None _) => Some (0, st)
  | Some (OPair (Some ch) r) => Some (new_obj (OSender ch) (put_obj h (OPair None r) st))
  | _ => None
  end.

Definition sengoo_async_channel_pair_receiver (h : Z) (st : Store) : option (Z * Store) :=
  if h =? 0 then Some (0, st) else
  match objs st !! h with
  | Some (OPair _ None) => Some (0, st)
  | Some (OPair s (Some ch)) => Some (new_obj (OReceiver ch) (put_obj h (OPair s None) st))
  | _ => None
  end.

(** The fields of a tuple are dropped in order. *)
Definition sengoo_async_channel_pair_free (h : Z) (st : Store) : option (Z * Store) :=
  if h =? 0 then Some (0, st) else
  match objs st !! h with
  | Some (OPair s r) =>
      let st := free_obj h st in
      let st := match s with Some ch => channel_drop_sender ch st | None => st end in
      let st := match r with Some ch => channel_drop_receiver ch st | None => st end in
      Some (0, st)
  | _ => None
  end.

Definition sengoo_async_channel_receiver_drop (h : Z) (st : Store) : option (Z * Store) :=
  if h =? 0 then Some (0, st) else
  match objs st !! h with
  | Some (OReceiver ch) => Some (0, channel_drop_receiver ch (free_obj h st))
  | _ => None
  end.

Definition sengoo_async_channel_sender_clone (h : Z) (st : Store) : option (Z * Store) :=
  if h =? 0 then Some (0, st) else
  match objs st !! h with
  | Some (OSender ch) =>
      match channels st !! ch with
      | Some c =>
          Some (new_obj (OSender ch) (put_channel ch (mkInner (ch_capacity c) (ch_descriptor c)
            (ch_queue c) (S (ch_sender_count c)) (ch_receiver_alive c) (ch_closed c)) st))
      | None => None
      end
  | _ => None
  end.

Definition sengoo_async_channel_sender_close (h : Z) (st : Store) : option (Z * Store) :=
  if h =? 0 then Some (0, st) else
  match objs st !! h with
  | Some (OSender ch) => Some (0, channel_drop_sender ch (free_obj h st))
  | _ => None
  end.

Definition sengoo_async_channel_sender_drop (h : Z) (st : Store) : option (Z * Store) :=
  sengoo_async_channel_sender_close h st.

Definition set_queue (q : list ChannelQueueEntry) (c : ChannelInner) : ChannelInner :=
  mkInner (ch_capacity c) (ch_descriptor c) q (ch_sender_count c) (ch_receiver_alive c) (ch_closed c).

(** ** Sending [i64] values *)

Definition sengoo_async_channel_send_i64__start (h value : Z) (st : Store) : option (Z * Store) :=
  if h =? 0 then Some (0, st) else
  match objs st !! h with
  | Some (OSender ch) =>
      match channels st !! ch with
      | Some c =>
          if is_some (ch_descriptor c) then Some (0, st)
          else Some (new_obj (OSendI64 ch value 0 None) st)
      | None => None
      end
  | _ => None
  end.

Definition sengoo_async_channel_send_i64__poll (h : Z) (st : Store) : option (Z * Store) :=
  if h =? 0 then Some (1, st) else
  match objs st !! h with
  | Some (OSendI64 ch value life outcome) =>
      match lifecycle_enter life with
      | Err error => Some (error, st)
      | Ok _ =>
          if is_some outcome
          then Some (1, put_obj h (OSendI64 ch value guard_mark_ready outcome) st)
          else
            match channels st !! ch with
            | Some c =>
                if ch_closed c || negb (ch_receiver_alive c) then
                  Some (1, put_obj h (OSendI64 ch value guard_mark_ready
                                        (Some (Err STATUS_INVALID_HANDLE))) st)
                else if Nat.ltb (length (ch_queue c)) (ch_capacity c) then
                  Some (1, put_obj h (OSendI64 ch value guard_mark_ready (Some (Ok tt)))
                             (put_channel ch (set_queue (ch_queue c ++ [EntryI64 value]) c) st))
                else Some (0, put_obj h (OSendI64 ch value guard_drop outcome) st)
            | None => None
            end
      end
  | _ => None
  end.

Record ChannelSendI64Result := mkSendResult { send_is_ok : bool; send_error : Z }.

Definition send_i64_result (outcome : option (result unit Z)) : ChannelSendI64Result :=
  match outcome with
  | Some (Ok tt) => mkSendResult true 0
  | Some (Err code) => mkSendResult false code
  | None => mkSendResult false STATUS_INVALID_HANDLE
  end.

Definition sengoo_async_channel_send_i64__result (h : Z) (st : Store)
    : option (ChannelSendI64Result * Store) :=
  if h =? 0 then Some (mkSendResult false STATUS_INVALID_HANDLE, st) else
  match objs st !! h with
  | Some (OSendI64 _ _ _ outcome) => Some (send_i64_result outcome, free_obj h st)
  | _ => None
  end.

Definition sengoo_async_channel_send_i64__cancel (h : Z) (st : Store) : option (bool * Store) :=
  if h =? 0 then Some (false, st) else
  match objs st !! h with
  | Some (OSendI64 _ _ _ _) => Some (true, free_obj h st)
  | _ => None
  end.

Definition sengoo_async_channel_send_i64__drop (h : Z) (st : Store) : option (Z * Store) :=
  let* (_, st) := sengoo_async_channel_send_i64__cancel h st in Some (0, st).

(** ** Sending payloads *)

Definition drop_failed_channel_send_input (value : option P) (drop_value : bool) (st : Store) : Store :=
  match value with
  | None => st
  | Some p => if drop_value then drop_payloads [p] st else st
  end.

(** [OwnedDescriptorValue::new]; [alloc_ok] is the allocator's answer. *)
Definition owned_descriptor_value_new (d : SengooTypeDescriptor) (value : option P) (alloc_ok : bool)
    : option P :=
  if validate_descriptor d then
    match value with
    | None => None
    | Some p => if alloc_ok then Some p else None
    end
  else None.

Definition sengoo_async_channel_send__start (h : Z) (value : option P) (drop_value alloc_ok : bool)
    (st : Store) : option (Z * Store) :=
  if h =? 0 then Some (0, drop_failed_channel_send_input value drop_value st) else
  match objs st !! h with
  | Some (OSender ch) =>
      match channels st !! ch with
      | Some c =>
          match ch_descriptor c with
          | None => Some (0, drop_failed_channel_send_input value drop_value st)
          | Some d =>
              match owned_descriptor_value_new d value alloc_ok with
              | None => Some (0, drop_failed_channel_send_input value drop_value st)
              | Some p => Some (new_obj (OSend ch (Some p) 0 None) st)
              end
          end
      | None => None
      end
  | _ => None
  end.

Definition sengoo_async_channel_send__poll (h : Z) (st : Store) : option (Z * Store) :=
  if h =? 0 then Some (1, st) else
  match objs st !! h with
  | Some (OSend ch value life outcome) =>
      match lifecycle_enter life with
      | Err error => Some (error, st)
      | Ok _ =>
          if is_some outcome then Some (1, put_obj h (OSend ch value guard_mark_ready outcome) st)
          else
            match channels st !! ch with
            | Some c =>
                if ch_closed c || negb (ch_receiver_alive c) || negb (is_some (ch_descriptor c)) then
                  Some (1, put_obj h (OSend ch value guard_mark_ready (Some (- STATUS_INVALID_HANDLE))) st)
                else if Nat.ltb (length (ch_queue c)) (ch_capacity c) then
                  match value with
                  | None =>
                      Some (1, put_obj h (OSend ch None guard_mark_ready (Some (- STATUS_INVALID_HANDLE))) st)
                  | Some p =>
                      Some (1, put_obj h (OSend ch None guard_mark_ready (Some 0))
                                 (put_channel ch (set_queue (ch_queue c ++ [EntryDescriptor p]) c) st))
                  end
                else Some (0, put_obj h (OSend ch value guard_drop outcome) st)
            | None => None
            end
      end
  | _ => None
  end.

(** Freeing a send state drops a payload it still owns. *)
Definition sengoo_async_channel_send__result (h : Z) (st : Store) : option (Z * Store) :=
  if h =? 0 then Some (- STATUS_INVALID_HANDLE, st) else
  match objs st !! h with
  | Some (OSend _ value _ outcome) =>
      Some (default (- STATUS_INVALID_HANDLE) outcome,
            drop_payloads (option_list value) (free_obj h st))
  | _ => None
  end.

Definition sengoo_async_channel_send__cancel (h : Z) (st : Store) : option (bool * Store) :=
  if h =? 0 then Some (false, st) else
  match objs st !! h with
  | Some (OSend _ value _ _) => Some (true, drop_payloads (option_list value) (free_obj h st))
  | _ => None
  end.

Definition sengoo_async_channel_send__drop (h : Z) (st : Store) : option (Z * Store) :=
  let* (_, st) := sengoo_async_channel_send__cancel h st in Some (0, st).

(** ** Receiving *)

Definition sengoo_async_channel_recv_i64__start (h : Z) (st : Store) : option (Z * Store) :=
  if h =? 0 then Some (0, st) else
  match objs st !! h with
  | Some (OReceiver ch) =>
      match channels st !! ch with
      | Some c =>
          if is_some (ch_descriptor c) then Some (0, st)
          else Some (new_obj (ORecvI64 ch 0 None) st)
      | None => None
      end
  | _ => None
  end.

Definition sengoo_async_channel_recv_i64__poll (h : Z) (st : Store) : option (Z * Store) :=
  if h =? 0 then Some (1, st) else
  match objs st !! h with
  | Some (ORecvI64 ch life outcome) =>
      match lifecycle_enter life with
      | Err error => Some (error, st)
      | Ok _ =>
          if is_some outcome then Some (1, put_obj h (ORecvI64 ch guard_mark_ready outcome) st)
          else
            match channels st !! ch with
            | Some c =>
                match ch_queue c with
                | EntryI64 v :: q =>
                    Some (1, put_obj h (ORecvI64 ch guard_mark_ready (Some (Ok v)))
                               (put_channel ch (set_queue q c) st))
                | EntryDescriptor p :: q =>
                    Some (1, put_obj h (ORecvI64 ch guard_mark_ready (Some (Err STATUS_INVALID_HANDLE)))
                               (put_channel ch (set_queue (EntryDescriptor p :: q) c) st))
                | [] =>
                    if ch_closed c then
                      Some (1, put_obj h (ORecvI64 ch guard_mark_ready
                                            (Some (Err STATUS_INVALID_HANDLE))) st)
                    else Some (0, put_obj h (ORecvI64 ch guard_drop outcome) st)
                end
            | None => None
            end
      end
  | _ => None
  end.

Record ChannelRecvI64Result := mkRecvResult { recv_is_ok : bool; recv_value : Z; recv_error : Z }.

Definition recv_i64_result (outcome : option (result Z Z)) : ChannelRecvI64Result :=
  match outcome with
  | Some (Ok v) => mkRecvResult true v 0
  | Some (Err code) => mkRecvResult false 0 code
  | None => mkRecvResult false 0 STATUS_INVALID_HANDLE
  end.

Definition sengoo_async_channel_recv_i64__result (h : Z) (st : Store)
    : option (ChannelRecvI64Result * Store) :=
  if h =? 0 then Some (mkRecvResult false 0 STATUS_INVALID_HANDLE, st) else
  match objs st !! h with
  | Some (ORecvI64 _ _ outcome) => Some (recv_i64_result outcome, free_obj h st)
  | _ => None
  end.

Definition sengoo_async_channel_recv_i64__cancel (h : Z) (st : Store) : option (bool * Store) :=
  if h =? 0 then Some (false, st) else
  match objs st !! h with
  | Some (ORecvI64 _ _ _) => Some (true, free_obj h st)
  | _ => None
  end.

Definition sengoo_async_channel_recv_i64__drop (h : Z) (st : Store) : option (Z * Store) :=
  let* (_, st) := sengoo_async_channel_recv_i64__cancel h st in Some (0, st).

Definition sengoo_async_channel_recv__start (h : Z) (st : Store) : option (Z * Store) :=
  if h =? 0 then Some (0, st) else
  match objs st !! h with
  | Some (OReceiver ch) =>
      match channels st !! ch with
      | Some c =>
          if negb (is_some (ch_descriptor c)) then Some (0, st)
          else Some (new_obj (ORecv ch 0 None) st)
      | None => None
      end
  | _ => None
  end.

Definition sengoo_async_channel_recv__poll (h : Z) (st : Store) : option (Z * Store) :=
  if h =? 0 then Some (1, st) else
  match objs st !! h with
  | Some (ORecv ch life outcome) =>
      match lifecycle_enter life with
      | Err error => Some (error, st)
      | Ok _ =>
          if is_some outcome then Some (1, put_obj h (ORecv ch guard_mark_ready outcome) st)
          else
            match channels st !! ch with
            | Some c =>
                match ch_queue c with
                | EntryDescriptor p :: q =>
                    Some (1, put_obj h (ORecv ch guard_mark_ready (Some (Ok p)))
                               (put_channel ch (set_queue q c) st))
                | EntryI64 v :: q =>
                    Some (1, put_obj h (ORecv ch guard_mark_ready (Some (Err (- STATUS_INVALID_HANDLE))))
                               (put_channel ch (set_queue (EntryI64 v :: q) c) st))
                | [] =>
                    if ch_closed c then
                      Some (1, put_obj h (ORecv ch guard_mark_ready
                                            (Some (Err (- STATUS_INVALID_HANDLE)))) st)
                    else Some (0, put_obj h (ORecv ch guard_drop outcome) st)
                end
            | None => None
            end
      end
  | _ => None
  end.

(** The payload moves from the receive state into a value handle. *)
Definition sengoo_async_channel_recv__result (h : Z) (st : Store) : option (Z * Store) :=
  if h =? 0 then Some (- STATUS_INVALID_HANDLE, st) else
  match objs st !! h with
  | Some (ORecv _ _ (Some (Ok p))) => Some (new_obj (OValue (Some p)) (free_obj h st))
  | Some (ORecv _ _ (Some (Err code))) => Some (code, free_obj h st)
  | Some (ORecv _ _ None) => Some (- STATUS_INVALID_HANDLE, free_obj h st)
  | _ => None
  end.

Definition recv_payload (outcome : option (result P Z)) : list P :=
  match outcome with Some (Ok p) => [p] | _ => [] end.

Definition sengoo_async_channel_recv__cancel (h : Z) (st : Store) : option (bool * Store) :=
  if h =? 0 then Some (false, st) else
  match objs st !! h with
  | Some (ORecv _ _ outcome) => Some (true, drop_payloads (recv_payload outcome) (free_obj h st))
  | _ => None
  end.

Definition sengoo_async_channel_recv__drop (h : Z) (st : Store) : option (Z * Store) :=
  let* (_, st) := sengoo_async_channel_recv__cancel h st in Some (0, st).

Definition sengoo_async_channel_value_move_into (h : Z) (output_null : bool) (st : Store)
    : option (Z * Store) :=
  if h =? 0 then Some (- STATUS_INVALID_HANDLE, st) else
  match objs st !! h with
  | Some (OValue payload) =>
      let st := free_obj h st in
      if output_null then Some (- INVALID_ARGUMENT, drop_payloads (option_list payload) st)
      else
        match payload with
        | None => Some (- STATUS_INVALID_HANDLE, st)
        | Some p => Some (0, move_out p st)
        end
  | _ => None
  end.

Definition sengoo_async_channel_value_drop (h : Z) (st : Store) : option (Z * Store) :=
  if h =? 0 then Some (0, st) else
  match objs st !! h with
  | Some (OValue payload) => Some (0, drop_payloads (option_list payload) (free_obj h st))
  | _ => None
  end.

(** ** Runs *)

Inductive Op :=
| BoundedI64 (capacity : Z)
| BoundedParts (capacity size align : Z) (move_value drop_value : bool)
| PairSender (h : Z) | PairReceiver (h : Z) | PairFree (h : Z)
| ReceiverDrop (h : Z) | SenderClone (h : Z) | SenderClose (h : Z) | SenderDrop (h : Z)
| SendI64Start (h value : Z) | SendI64Poll (h : Z) | SendI64Result (h : Z)
| SendI64Cancel (h : Z) | SendI64Drop (h : Z)
| SendStart (h : Z) (value : option P) (drop_value alloc_ok : bool) | SendPoll (h : Z)
| SendResult (h : Z) | SendCancel (h : Z) | SendDrop (h : Z)
| RecvI64Start (h : Z) | RecvI64Poll (h : Z) | RecvI64Result (h : Z)
| RecvI64Cancel (h : Z) | RecvI64Drop (h : Z)
| RecvStart (h : Z) | RecvPoll (h : Z) | RecvResult (h : Z)
| RecvCancel (h : Z) | RecvDrop (h : Z)
| ValueMoveInto (h : Z) (output_null : bool) | ValueDrop (h : Z).

Definition exec (op : Op) (st : Store) : option Store :=
  match op with
  | BoundedI64 cap => snd <$> sengoo_async_channel_bounded_i64 cap st
  | BoundedParts cap s a m d => snd <$> sengoo_async_channel_bounded_parts cap s a m d st
  | PairSender h => snd <$> sengoo_async_channel_pair_sender h st
  | PairReceiver h => snd <$> sengoo_async_channel_pair_receiver h st
  | PairFree h => snd <$> sengoo_async_channel_pair_free h st
  | ReceiverDrop h => snd <$> sengoo_async_channel_receiver_drop h st
  | SenderClone h => snd <$> sengoo_async_channel_sender_clone h st
  | SenderClose h => snd <$> sengoo_async_channel_sender_close h st
  | SenderDrop h => snd <$> sengoo_async_channel_sender_drop h st
  | SendI64Start h v => snd <$> sengoo_async_channel_send_i64__start h v st
  | SendI64Poll h => snd <$> sengoo_async_channel_send_i64__poll h st
  | SendI64Result h => snd <$> sengoo_async_channel_send_i64__result h st
  | SendI64Cancel h => snd <$> sengoo_async_channel_send_i64__cancel h st
  | SendI64Drop h => snd <$> sengoo_async_channel_send_i64__drop h st
  | SendStart h v d a => snd <$> sengoo_async_channel_send__start h v d a st
  | SendPoll h => snd <$> sengoo_async_channel_send__poll h st
  | SendResult h => snd <$> sengoo_async_channel_send__result h st
  | SendCancel h => snd <$> sengoo_async_channel_send__cancel h st
  | SendDrop h => snd <$> sengoo_async_channel_send__drop h st
  | RecvI64Start h => snd <$> sengoo_async_channel_recv_i64__start h st
  | RecvI64Poll h => snd <$> sengoo_async_channel_recv_i64__poll h st
  | RecvI64Result h => snd <$> sengoo_async_channel_recv_i64__result h st
  | RecvI64Cancel h => snd <$> sengoo_async_channel_recv_i64__cancel h st
  | RecvI64Drop h => snd <$> sengoo_async_channel_recv_i64__drop h st
  | RecvStart h => snd <$> sengoo_async_channel_recv__start h st
  | RecvPoll h => snd <$> sengoo_async_channel_recv__poll h st
  | RecvResult h => snd <$> sengoo_async_channel_recv__result h st
  | RecvCancel h => snd <$> sengoo_async_channel_recv__cancel h st
  | RecvDrop h => snd <$> sengoo_async_channel_recv__drop h st
  | ValueMoveInto h n => snd <$> sengoo_async_channel_value_move_into h n st
  | ValueDrop h => snd <$> sengoo_async_channel_value_drop h st
  end.
End channel.

Arguments Store : clear implicits.
Arguments Op : clear implicits.
Arguments ChannelQueueEntry : clear implicits.
Arguments ChannelInner : clear implicits.
Arguments Obj : clear implicits.
