(* ===== verification/ChannelInv.v ===== *)
(** Correctness of the channels of Channel.v: order of delivery, capacity,
    closing, and ownership of payloads. *)

From S2P Require Import Prelude Channel.

Local Open Scope Z_scope.

(** ** Collecting over a store *)

Section gather.
Context {K V A : Type} `{Countable K} (g : V -> list A).

Definition gather (m : gmap K V) : list A := concat (map (fun kv => g kv.2) (map_to_list m)).

Lemma gather_empty : gather ∅ = [].
Proof. unfold gather. by rewrite map_to_list_empty. Qed.

Lemma concat_map_perm (l l' : list (K * V)) : l ≡ₚ l' ->
  concat (map (fun kv => g kv.2) l) ≡ₚ concat (map (fun kv => g kv.2) l').
Proof.
  induction 1; simpl; [done|by f_equiv| |by etrans].
  rewrite !app_assoc. f_equiv. apply Permutation_app_comm.
Qed.

Lemma gather_new (m : gmap K V) k v : m !! k = None -> gather (<[k := v]> m) ≡ₚ g v ++ gather m.
Proof. intros E. unfold gather. by rewrite (concat_map_perm _ _ (map_to_list_insert m k v E)). Qed.

Lemma gather_delete (m : gmap K V) k v : m !! k = Some v -> gather m ≡ₚ g v ++ gather (delete k m).
Proof.
  intros E. unfold gather. rewrite <- (concat_map_perm _ _ (map_to_list_delete m k v E)). done.
Qed.

Lemma gather_replace (m : gmap K V) k v v' : m !! k = Some v ->
  gather (<[k := v']> m) ≡ₚ g v' ++ gather (delete k m).
Proof.
  intros E. rewrite <- (insert_delete_eq m k v'). apply gather_new. apply lookup_delete_eq.
Qed.
End gather.

Section invariant.
Context {P : Type}.
Implicit Types (st : Store P) (o : Obj P) (c : ChannelInner P) (e : ChannelQueueEntry P).

(** What an object holds. *)
Definition senders o : list nat :=
  match o with OSender ch => [ch] | OPair (Some ch) _ => [ch] | _ => [] end.

Definition receivers o : list nat :=
  match o with OReceiver ch => [ch] | OPair _ (Some ch) => [ch] | _ => [] end.

Definition obj_payloads o : list P :=
  match o with
  | OSend _ v _ _ => option_list v
  | ORecv _ _ outcome => recv_payload outcome
  | OValue v => option_list v
  | _ => []
  end.

Definition queue_payloads c : list P := concat (map payload_of (ch_queue c)).

(** A send or receive in progress, or a received value. *)
Definition is_state o : Prop :=
  match o with OPair _ _ | OSender _ | OReceiver _ => False | _ => True end.

Definition state_channel o : option nat :=
  match o with
  | OSendI64 ch _ _ _ | ORecvI64 ch _ _ | OSend ch _ _ _ | ORecv ch _ _ => Some ch
  | _ => None
  end.

(** ** Events a client observes *)

Inductive Event :=
| Sent (ch : nat) (e : ChannelQueueEntry P)
| Received (ch : nat) (e : ChannelQueueEntry P).

(** A poll that turned a pending send into a successful one sent its value; a
    poll that turned a pending receive into a successful one received its
    value. *)
Definition events (op : Op P) (st st' : Store P) : list Event :=
  match op with
  | SendI64Poll h =>
      match objs st !! h, objs st' !! h with
      | Some (OSendI64 ch v _ None), Some (OSendI64 _ _ _ (Some (Ok tt))) => [Sent ch (EntryI64 v)]
      | _, _ => []
      end
  | SendPoll h =>
      match objs st !! h, objs st' !! h with
      | Some (OSend ch (Some p) _ None), Some (OSend _ _ _ (Some 0)) => [Sent ch (EntryDescriptor p)]
      | _, _ => []
      end
  | RecvI64Poll h =>
      match objs st !! h, objs st' !! h with
      | Some (ORecvI64 ch _ None), Some (ORecvI64 _ _ (Some (Ok v))) => [Received ch (EntryI64 v)]
      | _, _ => []
      end
  | RecvPoll h =>
      match objs st !! h, objs st' !! h with
      | Some (ORecv ch _ None), Some (ORecv _ _ (Some (Ok p))) => [Received ch (EntryDescriptor p)]
      | _, _ => []
      end
  | _ => []
  end.

(** The payload a call takes over from its caller: a descriptor send that
    started, or that failed and released its input. *)
Definition taken (op : Op P) (st : Store P) : list P :=
  match op with
  | SendStart h (Some p) d a =>
      match sengoo_async_channel_send__start h (Some p) d a st with
      | Some (handle, _) => if negb (handle =? 0) || d then [p] else []
      | None => []
      end
  | _ => []
  end.

(** ** What an operation can do *)

Inductive delta : list Event -> list P -> Store P -> Store P -> Prop :=
| d_same st : delta [] [] st st
| d_drop_input p st : delta [] [p] st (drop_payloads [p] st)
| d_new_channel cap d st : 1 <= cap -> delta [] [] st (new_channel cap d st).2
| d_take_sender h ch r st : objs st !! h = Some (OPair (Some ch) r) ->
    delta [] [] st (new_obj (OSender ch) (put_obj h (OPair None r) st)).2
| d_take_receiver h s ch st : objs st !! h = Some (OPair s (Some ch)) ->
    delta [] [] st (new_obj (OReceiver ch) (put_obj h (OPair s None) st)).2
| d_pair_free h s r st : objs st !! h = Some (OPair s r) ->
    delta [] [] st
      (let st := free_obj h st in
       let st := match s with Some ch => channel_drop_sender ch st | None => st end in
       match r with Some ch => channel_drop_receiver ch st | None => st end)
| d_receiver_drop h ch st : objs st !! h = Some (OReceiver ch) ->
    delta [] [] st (channel_drop_receiver ch (free_obj h st))
| d_sender_close h ch st : objs st !! h = Some (OSender ch) ->
    delta [] [] st (channel_drop_sender ch (free_obj h st))
| d_clone h ch c st : objs st !! h = Some (OSender ch) -> channels st !! ch = Some c ->
    delta [] [] st (new_obj (OSender ch) (put_channel ch (mkInner (ch_capacity c) (ch_descriptor c)
      (ch_queue c) (S (ch_sender_count c)) (ch_receiver_alive c) (ch_closed c)) st)).2
| d_start h o st : is_Some (objs st !! h) -> is_state o -> delta [] (obj_payloads o) st (new_obj o st).2
| d_settle h o o' st : objs st !! h = Some o -> is_state o -> is_state o' ->
    obj_payloads o' = obj_payloads o -> delta [] [] st (put_obj h o' st)
| d_unqueue h o o' ch c st : objs st !! h = Some o -> is_state o -> is_state o' ->
    obj_payloads o' = obj_payloads o -> channels st !! ch = Some c ->
    delta [] [] st (put_obj h o' (put_channel ch (set_queue (ch_queue c) c) st))
| d_push h o o' ch c e st : objs st !! h = Some o -> is_state o -> is_state o' ->
    channels st !! ch = Some c -> ch_closed c = false -> ch_receiver_alive c = true ->
    (length (ch_queue c) < ch_capacity c)%nat -> obj_payloads o ≡ₚ payload_of e ++ obj_payloads o' ->
    delta [Sent ch e] [] st (put_obj h o' (put_channel ch (set_queue (ch_queue c ++ [e]) c) st))
| d_pop h o o' ch c e q st : objs st !! h = Some o -> is_state o -> is_state o' ->
    channels st !! ch = Some c -> ch_queue c = e :: q ->
    obj_payloads o' ≡ₚ payload_of e ++ obj_payloads o ->
    delta [Received ch e] [] st (put_obj h o' (put_channel ch (set_queue q c) st))
| d_free h o st : objs st !! h = Some o -> is_state o ->
    delta [] [] st (drop_payloads (obj_payloads o) (free_obj h st))
| d_result h o p st : objs st !! h = Some o -> is_state o -> obj_payloads o = [p] ->
    delta [] [] st (new_obj (OValue (Some p)) (free_obj h st)).2
| d_move_out h o p st : objs st !! h = Some o -> is_state o -> obj_payloads o = [p] ->
    delta [] [] st (move_out p (free_obj h st)).

Lemma drop_no_payloads st : drop_payloads [] st = st.
Proof. destruct st. unfold drop_payloads. simpl. by rewrite app_nil_r. Qed.

Lemma d_free_none h o st : objs st !! h = Some o -> is_state o -> obj_payloads o = [] ->
  delta [] [] st (free_obj h st).
Proof.
  intros E Hs Hp. pose proof (d_free h o st E Hs) as D. by rewrite Hp, drop_no_payloads in D.
Qed.

(** Case analysis on the code of an operation. *)
Ltac op_cases E :=
  repeat (case_match; try discriminate E); try (injection E as <- <-); subst; cbn [snd].

Lemma events_same op st : events op st st = [].
Proof. destruct op; try done; simpl; by repeat case_match. Qed.

(** The events of a poll, computed from the objects before and after. *)
Ltac poll_events :=
  cbn [events taken put_obj put_channel objs];
  repeat match goal with H : objs ?st !! ?h = Some _ |- context [objs ?st !! ?h] => rewrite H end;
  rewrite ?lookup_insert_eq; cbv iota beta;
  try match goal with H : is_some ?x = _ |- _ => destruct x; try discriminate H end.

(** The guards of a send that went through. *)
Ltac send_guards :=
  repeat match goal with
    | H : (_ || _) = false |- _ => apply orb_false_iff in H as [? ?]
    | H : negb _ = false |- _ => apply negb_false_iff in H
    | H : (_ <? _)%nat = true |- _ => apply Nat.ltb_lt in H
    end.

Ltac free_state :=
  match goal with H : objs ?st !! ?h = Some ?o |- _ => by apply (d_free h o st H) end.

Ltac poll_cases E :=
  op_cases E; try (rewrite events_same; apply d_same); poll_events;
  try (eapply d_settle; done); send_guards.

Lemma send_start_delta h value d a st r st1 : 0 < next_handle st ->
  sengoo_async_channel_send__start h value d a st = Some (r, st1) ->
  delta [] (taken (SendStart h value d a) st) st st1.
Proof.
  intros Hnh E. destruct value as [p|]; cbn [taken].
  - rewrite E. unfold sengoo_async_channel_send__start, drop_failed_channel_send_input,
      owned_descriptor_value_new in E.
    op_cases E; cbn [Z.eqb negb orb]; try apply d_same; try apply d_drop_input; simplify_eq/=.
    all: destruct (Z.eqb_spec (next_handle st) 0); [lia|]; cbn [negb orb].
    all: try done. all: match goal with |- delta _ [?p] _ _ => by apply (d_start h (OSend ch (Some p) 0 None)) end.
  - unfold sengoo_async_channel_send__start, drop_failed_channel_send_input,
      owned_descriptor_value_new in E. op_cases E; try apply d_same; done.
Qed.

Lemma exec_delta op st st' : 0 < next_handle st -> exec op st = Some st' ->
  delta (events op st st') (taken op st) st st'.
Proof.
  intros Hnh. destruct op; cbn [exec]; intros E; apply fmap_Some in E as ([r st1] & E & ->); cbn [snd].
  - unfold sengoo_async_channel_bounded_i64 in E. op_cases E; [apply d_same|].
    apply (d_new_channel capacity None st). lia.
  - unfold sengoo_async_channel_bounded_parts in E. op_cases E; try apply d_same.
    apply (d_new_channel capacity (Some s) st). lia.
  - unfold sengoo_async_channel_pair_sender in E. op_cases E; try apply d_same. by apply d_take_sender.
  - unfold sengoo_async_channel_pair_receiver in E. op_cases E; try apply d_same; by apply d_take_receiver.
  - unfold sengoo_async_channel_pair_free in E. op_cases E; try apply d_same;
      match goal with Hh : objs st !! h = Some (OPair ?s ?r) |- _ => apply (d_pair_free h s r st Hh) end.
  - unfold sengoo_async_channel_receiver_drop in E. op_cases E; try apply d_same. by apply d_receiver_drop.
  - unfold sengoo_async_channel_sender_clone in E. op_cases E; try apply d_same. by eapply d_clone.
  - unfold sengoo_async_channel_sender_close in E. op_cases E; try apply d_same. by apply d_sender_close.
  - unfold sengoo_async_channel_sender_drop, sengoo_async_channel_sender_close in E.
    op_cases E; try apply d_same. by apply d_sender_close.
  - unfold sengoo_async_channel_send_i64__start in E. op_cases E; try apply d_same.
    by apply (d_start h (OSendI64 ch value 0 None)).
  - unfold sengoo_async_channel_send_i64__poll in E. poll_cases E. by eapply d_push.
  - unfold sengoo_async_channel_send_i64__result in E. op_cases E; try apply d_same. by eapply d_free_none.
  - unfold sengoo_async_channel_send_i64__cancel in E. op_cases E; try apply d_same. by eapply d_free_none.
  - unfold sengoo_async_channel_send_i64__drop, sengoo_async_channel_send_i64__cancel in E.
    op_cases E; simplify_eq; try apply d_same. by eapply d_free_none.
  - by eapply send_start_delta.
  - unfold sengoo_async_channel_send__poll in E. poll_cases E;
      first [by eapply d_push|destruct value; by eapply d_settle].
  - unfold sengoo_async_channel_send__result in E. op_cases E; try apply d_same. free_state.
  - unfold sengoo_async_channel_send__cancel in E. op_cases E; try apply d_same. free_state.
  - unfold sengoo_async_channel_send__drop, sengoo_async_channel_send__cancel in E.
    op_cases E; simplify_eq; try apply d_same. free_state.
  - unfold sengoo_async_channel_recv_i64__start in E. op_cases E; try apply d_same.
    by apply (d_start h (ORecvI64 ch 0 None)).
  - unfold sengoo_async_channel_recv_i64__poll in E. poll_cases E; [by eapply d_pop|].
    match goal with H : ch_queue c = _ |- _ => rewrite <- H end. by eapply d_unqueue.
  - unfold sengoo_async_channel_recv_i64__result in E. op_cases E; try apply d_same. by eapply d_free_none.
  - unfold sengoo_async_channel_recv_i64__cancel in E. op_cases E; try apply d_same. by eapply d_free_none.
  - unfold sengoo_async_channel_recv_i64__drop, sengoo_async_channel_recv_i64__cancel in E.
    op_cases E; simplify_eq; try apply d_same. by eapply d_free_none.
  - unfold sengoo_async_channel_recv__start in E. op_cases E; try apply d_same.
    by apply (d_start h (ORecv ch 0 None)).
  - unfold sengoo_async_channel_recv__poll in E. poll_cases E; [|by eapply d_pop].
    match goal with H : ch_queue c = _ |- _ => rewrite <- H end. by eapply d_unqueue.
  - unfold sengoo_async_channel_recv__result in E. op_cases E; try apply d_same;
      first [by eapply d_free_none | by eapply d_result].
  - unfold sengoo_async_channel_recv__cancel in E. op_cases E; try apply d_same. free_state.
  - unfold sengoo_async_channel_recv__drop, sengoo_async_channel_recv__cancel in E.
    op_cases E; simplify_eq; try apply d_same. free_state.
  - unfold sengoo_async_channel_value_move_into in E. op_cases E; try apply d_same;
      first [by eapply d_free_none | by eapply d_move_out | free_state].
  - unfold sengoo_async_channel_value_drop in E. op_cases E; try apply d_same. free_state.
Qed.

(** ** The invariant *)

Definition cnt (ch : nat) (l : list nat) : nat := length (filter (fun x => x = ch) l).

Lemma cnt_perm ch l l' : l ≡ₚ l' -> cnt ch l = cnt ch l'.
Proof. intros HP. unfold cnt. by rewrite HP. Qed.

Lemma cnt_app ch l l' : cnt ch (l ++ l') = (cnt ch l + cnt ch l')%nat.
Proof. unfold cnt. by rewrite filter_app, length_app. Qed.

Lemma cnt_cons ch x l : cnt ch (x :: l) = ((if decide (x = ch) then 1 else 0) + cnt ch l)%nat.
Proof. unfold cnt. rewrite filter_cons. by case_decide. Qed.

Lemma cnt_nil ch : cnt ch [] = 0%nat.
Proof. done. Qed.

(** [ns] senders and [nr] receivers of the channel are alive. *)
Record chan_ok (ns nr : nat) c : Prop := {
  ok_capacity : (length (ch_queue c) <= ch_capacity c)%nat;
  ok_senders : ch_sender_count c = ns;
  ok_closed : ch_closed c = true <-> ns = 0%nat;
  ok_receiver : nr = if ch_receiver_alive c then 1%nat else 0%nat;
  ok_dead : ch_receiver_alive c = false -> ch_queue c = [];
}.

Definition sender_refs st : list nat := gather senders (objs st).
Definition receiver_refs st : list nat := gather receivers (objs st).

Record store_wf st : Prop := {
  wf_next : 0 < next_handle st;
  wf_objs : forall h, is_Some (objs st !! h) -> h < next_handle st;
  wf_channels : forall ch, is_Some (channels st !! ch) <-> (ch < next_ch st)%nat;
  wf_refs : Forall (fun ch => (ch < next_ch st)%nat) (sender_refs st ++ receiver_refs st);
  wf_chan : forall ch c, channels st !! ch = Some c ->
    chan_ok (cnt ch (sender_refs st)) (cnt ch (receiver_refs st)) c;
}.

Lemma store_init_wf : store_wf (@store_init P).
Proof.
  split; simpl; try lia.
  - intros h. rewrite lookup_empty. by intros [? ?].
  - intros ch. rewrite lookup_empty. split; [by intros [? ?]|lia].
  - unfold sender_refs, receiver_refs; simpl. rewrite !gather_empty. constructor.
  - intros ch c. by rewrite lookup_empty.
Qed.

Lemma wf_fresh st : store_wf st -> objs st !! next_handle st = None.
Proof.
  intros Hwf. destruct (objs st !! next_handle st) eqn:E; [|done].
  assert (next_handle st < next_handle st) by (apply (wf_objs _ Hwf); by rewrite E). lia.
Qed.

Lemma state_refs o : is_state o -> senders o = [] /\ receivers o = [].
Proof. by destruct o. Qed.

Lemma put_obj_next st h o' : store_wf st -> is_Some (objs st !! h) ->
  forall j, is_Some (<[h := o']> (objs st) !! j) -> j < next_handle st.
Proof.
  intros Hwf Hh j. rewrite lookup_insert_is_Some'. intros [<-|Hj]; by apply (wf_objs _ Hwf).
Qed.

(** Changing objects without touching references keeps the channels sound. *)
Lemma wf_same_refs st st' : store_wf st ->
  sender_refs st' ≡ₚ sender_refs st -> receiver_refs st' ≡ₚ receiver_refs st ->
  next_ch st' = next_ch st -> next_handle st <= next_handle st' ->
  (forall h, is_Some (objs st' !! h) -> h < next_handle st') ->
  (forall ch, is_Some (channels st' !! ch) <-> is_Some (channels st !! ch)) ->
  (forall ch c', channels st' !! ch = Some c' -> exists c, channels st !! ch = Some c /\
     forall ns nr, chan_ok ns nr c -> chan_ok ns nr c') ->
  store_wf st'.
Proof.
  intros Hwf Hs Hr Hn Hh Ho Hc Hch. split.
  - pose proof (wf_next _ Hwf). lia.
  - done.
  - intros ch. rewrite Hc, Hn. apply Hwf.
  - rewrite Hs, Hr, Hn. apply Hwf.
  - intros ch c' E. destruct (Hch ch c' E) as (c & Ec & Hok).
    rewrite (cnt_perm _ _ _ Hs), (cnt_perm _ _ _ Hr). by apply Hok, Hwf.
Qed.

Lemma replace_state_refs st h o o' : objs st !! h = Some o -> is_state o -> is_state o' ->
  gather senders (<[h := o']> (objs st)) ≡ₚ sender_refs st /\
  gather receivers (<[h := o']> (objs st)) ≡ₚ receiver_refs st.
Proof.
  intros E Hs Hs'. destruct (state_refs o Hs) as [Es Er]. destruct (state_refs o' Hs') as [Es' Er'].
  unfold sender_refs, receiver_refs. split.
  - by rewrite (gather_replace _ _ _ _ o' E), (gather_delete _ _ _ _ E), Es, Es'.
  - by rewrite (gather_replace _ _ _ _ o' E), (gather_delete _ _ _ _ E), Er, Er'.
Qed.

Lemma channel_update_same st ch c c' : channels st !! ch = Some c ->
  (forall ns nr, chan_ok ns nr c -> chan_ok ns nr c') ->
  (forall j, is_Some (<[ch := c']> (channels st) !! j) <-> is_Some (channels st !! j)) /\
  (forall j c1, <[ch := c']> (channels st) !! j = Some c1 -> exists c0, channels st !! j = Some c0 /\
     forall ns nr, chan_ok ns nr c0 -> chan_ok ns nr c1).
Proof.
  intros E Hok. split.
  - intros j. rewrite lookup_insert_is_Some'. split; [intros [<-|?]; [by rewrite E|done]|by right].
  - intros j c1. destruct (decide (ch = j)) as [<-|Hne].
    + rewrite lookup_insert_eq. intros [= <-]. eauto.
    + rewrite lookup_insert_ne by done. eauto.
Qed.

Lemma free_refs st h o : objs st !! h = Some o ->
  sender_refs st ≡ₚ senders o ++ gather senders (delete h (objs st)) /\
  receiver_refs st ≡ₚ receivers o ++ gather receivers (delete h (objs st)).
Proof. intros E. split; by apply gather_delete. Qed.

Lemma new_refs st o : store_wf st ->
  gather senders (<[next_handle st := o]> (objs st)) ≡ₚ senders o ++ sender_refs st /\
  gather receivers (<[next_handle st := o]> (objs st)) ≡ₚ receivers o ++ receiver_refs st.
Proof. intros Hwf. split; apply gather_new; by apply wf_fresh. Qed.

Lemma set_queue_ok q c : (length q <= ch_capacity c)%nat -> (ch_receiver_alive c = false -> q = []) ->
  forall ns nr, chan_ok ns nr c -> chan_ok ns nr (set_queue q c).
Proof. intros Hl Hd ns nr []. by split. Qed.

(** *** Dropping ends *)

Definition sender_dropped c : ChannelInner P :=
  let count := (ch_sender_count c - 1)%nat in
  mkInner (ch_capacity c) (ch_descriptor c) (ch_queue c) count (ch_receiver_alive c)
    (if Nat.eqb count 0 then true else ch_closed c).

Definition receiver_dropped c : ChannelInner P :=
  if ch_receiver_alive c
  then mkInner (ch_capacity c) (ch_descriptor c) [] (ch_sender_count c) false (ch_closed c)
  else c.

Lemma drop_sender_store ch st :
  channels (channel_drop_sender ch st) = alter sender_dropped ch (channels st) /\
  objs (channel_drop_sender ch st) = objs st /\ next_ch (channel_drop_sender ch st) = next_ch st /\
  next_handle (channel_drop_sender ch st) = next_handle st /\ calls (channel_drop_sender ch st) = calls st.
Proof.
  unfold channel_drop_sender. destruct (channels st !! ch) as [c|] eqn:E; simpl; split_and!; try done.
  - apply map_eq. intros j. destruct (decide (ch = j)) as [<-|].
    + by rewrite lookup_insert_eq, lookup_alter_eq, E.
    + by rewrite lookup_insert_ne, lookup_alter_ne.
  - apply map_eq. intros j. destruct (decide (ch = j)) as [<-|].
    + by rewrite lookup_alter_eq, E.
    + by rewrite lookup_alter_ne.
Qed.

(** The payloads a receiver drop discards. *)
Definition discarded ch st : list P :=
  match channels st !! ch with
  | Some c => if ch_receiver_alive c then queue_payloads c else []
  | None => []
  end.

Lemma drop_receiver_store ch st :
  channels (channel_drop_receiver ch st) = alter receiver_dropped ch (channels st) /\
  objs (channel_drop_receiver ch st) = objs st /\ next_ch (channel_drop_receiver ch st) = next_ch st /\
  next_handle (channel_drop_receiver ch st) = next_handle st /\
  calls (channel_drop_receiver ch st) = calls st ++ map CallDrop (discarded ch st).
Proof.
  unfold channel_drop_receiver, discarded.
  assert (Hid : forall f : ChannelInner P -> ChannelInner P,
    (forall c, channels st !! ch = Some c -> f c = c) -> channels st = alter f ch (channels st)).
  { intros f Hf. apply map_eq. intros j. destruct (decide (ch = j)) as [<-|]; [|by rewrite lookup_alter_ne].
    rewrite lookup_alter_eq. destruct (channels st !! ch) as [c|]; [simpl; by rewrite Hf|done]. }
  destruct (channels st !! ch) as [c|] eqn:E; [destruct (ch_receiver_alive c) eqn:Ha|];
    simpl; rewrite ?app_nil_r; split_and!; try done.
  - apply map_eq. intros j. destruct (decide (ch = j)) as [<-|].
    + rewrite lookup_insert_eq, lookup_alter_eq, E. simpl. unfold receiver_dropped. by rewrite Ha.
    + by rewrite lookup_insert_ne, lookup_alter_ne.
  - apply Hid. intros c' [= <-]. unfold receiver_dropped. by rewrite Ha.
  - by apply Hid.
Qed.

Lemma sender_dropped_ok ns nr c : chan_ok (S ns) nr c -> chan_ok ns nr (sender_dropped c).
Proof.
  intros [Hc Hs Hcl Hr Hd]. unfold sender_dropped. split; simpl; try done; rewrite Hs.
  - lia.
  - replace (S ns - 1)%nat with ns by lia. destruct (Nat.eqb_spec ns 0); [done|].
    split; [|done]. intros ?%Hcl. lia.
Qed.

Lemma receiver_dropped_ok ns nr c : chan_ok ns (S nr) c -> chan_ok ns nr (receiver_dropped c).
Proof.
  intros [Hc Hs Hcl Hr Hd]. unfold receiver_dropped. destruct (ch_receiver_alive c) eqn:Ha; [|lia].
  split; simpl; try done; lia.
Qed.

Definition drop_end {A} (f : nat -> A -> A) (x : option nat) (a : A) : A :=
  match x with Some ch => f ch a | None => a end.

Lemma option_dec_cnt (s : option nat) j : cnt j (option_list s) = (if decide (s = Some j) then 1 else 0)%nat.
Proof.
  destruct s as [ch|]; [change (option_list (Some ch)) with [ch]|done].
  rewrite cnt_cons, cnt_nil. repeat case_decide; simplify_eq; done.
Qed.

Lemma drop_ends_wf st h o s r : store_wf st -> objs st !! h = Some o ->
  senders o = option_list s -> receivers o = option_list r ->
  store_wf (drop_end channel_drop_receiver r (drop_end channel_drop_sender s (free_obj h st))).
Proof.
  intros Hwf E Es Er. destruct (free_refs st h o E) as [Hs Hr]. rewrite Es in Hs. rewrite Er in Hr.
  set (st1 := drop_end channel_drop_sender s (free_obj h st)).
  set (st2 := drop_end channel_drop_receiver r st1).
  assert (H1 : channels st1 = drop_end (fun ch => alter sender_dropped ch) s (channels st) /\
    objs st1 = delete h (objs st) /\ next_ch st1 = next_ch st /\ next_handle st1 = next_handle st).
  { unfold st1. destruct s as [ch|]; [|done]. simpl.
    by destruct (drop_sender_store ch (free_obj h st)) as (-> & -> & -> & -> & _). }
  assert (H2 : channels st2 = drop_end (fun ch => alter receiver_dropped ch) r (channels st1) /\
    objs st2 = objs st1 /\ next_ch st2 = next_ch st1 /\ next_handle st2 = next_handle st1).
  { unfold st2. destruct r as [ch|]; [|done]. simpl.
    by destruct (drop_receiver_store ch st1) as (-> & -> & -> & -> & _). }
  destruct H1 as (C1 & O1 & N1 & X1), H2 as (C2 & O2 & N2 & X2).
  assert (Hlook : forall j, channels st2 !! j =
    (if decide (r = Some j) then receiver_dropped else id) <$>
    ((if decide (s = Some j) then sender_dropped else id) <$> channels st !! j)).
  { intros j. rewrite C2, C1. destruct r as [cr|], s as [cs|]; simpl; repeat case_decide; simplify_eq;
      rewrite ?lookup_alter_eq, ?lookup_alter_ne by congruence;
      rewrite ?lookup_alter_eq, ?lookup_alter_ne by congruence; rewrite ?option_fmap_id; done. }
  split.
  - rewrite X2, X1. apply Hwf.
  - intros j. rewrite O2, O1, X2, X1. rewrite lookup_delete_is_Some. intros [_ Hj]. by apply (wf_objs _ Hwf).
  - intros j. rewrite Hlook, N2, N1, !fmap_is_Some. apply Hwf.
  - unfold sender_refs, receiver_refs. rewrite O2, O1, N2, N1.
    pose proof (wf_refs _ Hwf) as HF. rewrite Hs, Hr, !Forall_app in HF. apply Forall_app. tauto.
  - intros j c' Hj. rewrite Hlook in Hj. destruct (channels st !! j) as [c|] eqn:Ec; [|done].
    simpl in Hj. injection Hj as <-. pose proof (wf_chan _ Hwf j c Ec) as Hok.
    rewrite (cnt_perm _ _ _ Hs), (cnt_perm _ _ _ Hr), !cnt_app, !option_dec_cnt in Hok.
    unfold sender_refs, receiver_refs. rewrite O2, O1.
    destruct (decide (r = Some j)), (decide (s = Some j)); simpl in *.
    + by apply receiver_dropped_ok, sender_dropped_ok.
    + by apply receiver_dropped_ok.
    + by apply sender_dropped_ok.
    + done.
Qed.

(** *** Every operation keeps the invariant *)

Lemma wf_calls st st' : store_wf st -> channels st' = channels st -> objs st' = objs st ->
  next_ch st' = next_ch st -> next_handle st' = next_handle st -> store_wf st'.
Proof.
  intros [] Hc Ho Hn Hh. split; unfold sender_refs, receiver_refs in *; rewrite ?Hc, ?Ho, ?Hn, ?Hh; done.
Qed.

(** Replace a state and possibly one channel. *)
Lemma wf_settle st h o o' ch c c' : store_wf st -> objs st !! h = Some o -> is_state o -> is_state o' ->
  channels st !! ch = Some c -> (forall ns nr, chan_ok ns nr c -> chan_ok ns nr c') ->
  store_wf (put_obj h o' (put_channel ch c' st)).
Proof.
  intros Hwf E Hs Hs' Ec Hok. destruct (replace_state_refs st h o o' E Hs Hs') as [H1 H2].
  destruct (channel_update_same st ch c c' Ec Hok) as [H3 H4].
  apply (wf_same_refs st); try done. apply (put_obj_next st h o'); [done|by rewrite E].
Qed.

Lemma wf_new st o : store_wf st -> senders o = [] -> receivers o = [] -> store_wf (new_obj o st).2.
Proof.
  intros Hwf Es Er. destruct (new_refs st o Hwf) as [H1 H2]. rewrite Es in H1. rewrite Er in H2.
  apply (wf_same_refs st); try done; [simpl; lia| |].
  - intros j. simpl. rewrite lookup_insert_is_Some'. intros [<-|Hj]; [lia|].
    pose proof (wf_objs _ Hwf j Hj). lia.
  - eauto.
Qed.

Lemma wf_free st h o : store_wf st -> objs st !! h = Some o -> senders o = [] -> receivers o = [] ->
  store_wf (free_obj h st).
Proof.
  intros Hwf E Es Er. by apply (drop_ends_wf st h o None None).
Qed.

Lemma wf_take st h o o' onew : store_wf st -> objs st !! h = Some o ->
  senders onew ++ senders o' = senders o -> receivers onew ++ receivers o' = receivers o ->
  store_wf (new_obj onew (put_obj h o' st)).2.
Proof.
  intros Hwf E Es Er. assert (Hne : next_handle st <> h).
  { intros <-. rewrite (wf_fresh st Hwf) in E. done. }
  assert (Hf : <[h := o']> (objs st) !! next_handle st = None)
    by (rewrite lookup_insert_ne by done; by apply wf_fresh).
  apply (wf_same_refs st); try done; simpl.
  - unfold sender_refs. simpl. rewrite gather_new, (gather_replace _ _ _ _ o' E), app_assoc, Es by done.
    by rewrite (gather_delete _ _ _ _ E).
  - unfold receiver_refs. simpl. rewrite gather_new, (gather_replace _ _ _ _ o' E), app_assoc, Er by done.
    by rewrite (gather_delete _ _ _ _ E).
  - lia.
  - intros j. rewrite !lookup_insert_is_Some'. intros [<-|[<-|Hj]]; [lia| |].
    + assert (h < next_handle st) by (apply (wf_objs _ Hwf); by rewrite E). lia.
    + pose proof (wf_objs _ Hwf j Hj). lia.
  - eauto.
Qed.

Lemma wf_new_channel st cap d : store_wf st -> 1 <= cap -> store_wf (new_channel cap d st).2.
Proof.
  intros Hwf Hcap. destruct (new_refs st (OPair (Some (next_ch st)) (Some (next_ch st))) Hwf) as [H1 H2].
  pose proof (wf_refs _ Hwf) as HF. apply Forall_app in HF as [HF1 HF2].
  assert (Hz : forall l, Forall (fun ch => (ch < next_ch st)%nat) l -> cnt (next_ch st) l = 0%nat).
  { intros l HF. induction HF as [|x l Hx _ IH]; [done|]. rewrite cnt_cons, decide_False, IH by lia. done. }
  split; simpl.
  - pose proof (wf_next _ Hwf). lia.
  - intros j. rewrite lookup_insert_is_Some'. intros [<-|Hj]; [lia|]. pose proof (wf_objs _ Hwf j Hj). lia.
  - intros j. rewrite lookup_insert_is_Some', (wf_channels _ Hwf). lia.
  - unfold sender_refs, receiver_refs. simpl. rewrite H1, H2. apply Forall_app.
    split; constructor; try lia; eapply Forall_impl; try done; cbn beta; lia.
  - intros j c. unfold sender_refs, receiver_refs. simpl.
    rewrite (cnt_perm _ _ _ H1), (cnt_perm _ _ _ H2). simpl. rewrite !cnt_cons.
    destruct (decide (next_ch st = j)) as [<-|Hne].
    + rewrite lookup_insert_eq. intros [= <-]. rewrite !Hz by done. split; simpl; try done. lia.
    + rewrite lookup_insert_ne by done. intros Ec. simpl. by apply (wf_chan _ Hwf).
Qed.

Lemma wf_clone st h ch c : store_wf st -> objs st !! h = Some (OSender ch) -> channels st !! ch = Some c ->
  store_wf (new_obj (OSender ch) (put_channel ch (mkInner (ch_capacity c) (ch_descriptor c)
    (ch_queue c) (S (ch_sender_count c)) (ch_receiver_alive c) (ch_closed c)) st)).2.
Proof.
  intros Hwf E Ec. destruct (new_refs st (OSender ch) Hwf) as [H1 H2].
  destruct (free_refs st h _ E) as [Hs _]. simpl in Hs.
  assert (Hch : (ch < next_ch st)%nat) by (apply (wf_channels _ Hwf); by rewrite Ec).
  pose proof (wf_refs _ Hwf) as HF. apply Forall_app in HF as [HF1 HF2].
  split; simpl.
  - pose proof (wf_next _ Hwf). lia.
  - intros j. rewrite lookup_insert_is_Some'. intros [<-|Hj]; [lia|]. pose proof (wf_objs _ Hwf j Hj). lia.
  - intros j. rewrite lookup_insert_is_Some', (wf_channels _ Hwf). intuition lia.
  - unfold sender_refs, receiver_refs. simpl. rewrite H1, H2. apply Forall_app. split; [by constructor|done].
  - intros j c'. unfold sender_refs, receiver_refs. simpl.
    rewrite (cnt_perm _ _ _ H1), (cnt_perm _ _ _ H2). simpl. rewrite cnt_cons.
    destruct (decide (ch = j)) as [<-|Hne].
    + rewrite lookup_insert_eq. intros [= <-]. destruct (wf_chan _ Hwf ch c Ec) as [Hc Hsn Hcl Hr Hd].
      split; simpl; try done; [lia|]. rewrite (cnt_perm _ _ _ Hs), cnt_cons, decide_True in Hcl by done.
      split; [intros ?%Hcl; lia|lia].
    + rewrite lookup_insert_ne by done. intros Ec'. simpl. by apply (wf_chan _ Hwf).
Qed.

Lemma delta_wf evs tk st st' : store_wf st -> delta evs tk st st' -> store_wf st'.
Proof.
  intros Hwf Hd. revert Hwf.
  destruct Hd as [| | |h ch r st E|h s ch st E|h s r st E|h ch st E|h ch st E| |h o st _ Hs
    |h o o' st E Hs Hs' _|h o o' ch c st E Hs Hs' _ Ec|h o o' ch c e st E Hs Hs' Ec Hcl Ha Hl _
    |h o o' ch c e q st E Hs Hs' Ec Hq _|h o st E Hs|h o p st E Hs _|h o p st E Hs _]; intros Hwf.
  - done.
  - by eapply wf_calls.
  - by apply wf_new_channel.
  - by eapply wf_take.
  - eapply wf_take; [done|exact E|by destruct s|by destruct s].
  - apply (drop_ends_wf st h (OPair s r) s r); try done; by destruct s, r.
  - by apply (drop_ends_wf st h (OReceiver ch) None (Some ch)).
  - by apply (drop_ends_wf st h (OSender ch) (Some ch) None).
  - by eapply wf_clone.
  - apply wf_new; [done|apply (state_refs o Hs)..].
  - destruct (replace_state_refs st h o o' E Hs Hs') as [H1 H2].
    apply (wf_same_refs st); try done; [apply (put_obj_next st h o'); [done|by rewrite E]|simpl; eauto].
  - apply (wf_settle st h o o' ch c); try done. intros ns nr Hok. destruct Hok. by apply set_queue_ok.
  - apply (wf_settle st h o o' ch c); try done. apply set_queue_ok; [rewrite length_app; simpl; lia|congruence].
  - apply (wf_settle st h o o' ch c); try done. intros ns nr [Hc Hsn Hc2 Hr Hd].
    apply set_queue_ok; [rewrite Hq in Hc; simpl in Hc; lia| |by split].
    intros Hx. specialize (Hd Hx). congruence.
  - eapply (wf_calls (free_obj h st)); try done. eapply wf_free; [done|exact E|apply (state_refs o Hs)..].
  - apply wf_new; [|done..]. eapply wf_free; [done|exact E|apply (state_refs o Hs)..].
  - eapply (wf_calls (free_obj h st)); try done. eapply wf_free; [done|exact E|apply (state_refs o Hs)..].
Qed.

(** ** Runs *)

(** A run: the events its calls make observable and the payloads they take. *)
Fixpoint run (ops : list (Op P)) (st : Store P) : option (Store P * list Event * list P) :=
  match ops with
  | [] => Some (st, [], [])
  | op :: ops' =>
      let* mid := exec op st in
      let* (final, evs, tk) := run ops' mid in
      Some (final, events op st mid ++ evs, taken op st ++ tk)
  end.

Lemma run_ind (R : Store P -> list Event -> list P -> Store P -> Prop) :
  (forall st, R st [] [] st) ->
  (forall st st1 st2 evs tk evs' tk', store_wf st -> delta evs tk st st1 -> store_wf st1 ->
     R st1 evs' tk' st2 -> R st (evs ++ evs') (tk ++ tk') st2) ->
  forall ops st st' evs tk, store_wf st -> run ops st = Some (st', evs, tk) ->
    store_wf st' /\ R st evs tk st'.
Proof.
  intros H0 H1. induction ops as [|op ops IH]; intros st st' evs tk Hwf; cbn [run].
  - intros [= <- <- <-]. split; [done|apply H0].
  - destruct (exec op st) as [st1|] eqn:E; [|done].
    pose proof (exec_delta op st st1 (wf_next _ Hwf) E) as Hd. pose proof (delta_wf _ _ _ _ Hwf Hd) as Hwf1.
    destruct (run ops st1) as [[[st2 evs'] tk']|] eqn:Er; [|done]. intros [= <- <- <-].
    destruct (IH _ _ _ _ Hwf1 Er) as [Hwf2 HR]. split; [done|]. by eapply H1.
Qed.

(** *** Order of delivery *)

Definition sents (ch : nat) (evs : list Event) : list (ChannelQueueEntry P) :=
  concat (map (fun ev => match ev with Sent j e => if decide (j = ch) then [e] else [] | _ => [] end) evs).

Definition receiveds (ch : nat) (evs : list Event) : list (ChannelQueueEntry P) :=
  concat (map (fun ev => match ev with Received j e => if decide (j = ch) then [e] else [] | _ => [] end) evs).

Lemma sents_app ch l l' : sents ch (l ++ l') = sents ch l ++ sents ch l'.
Proof. unfold sents. by rewrite map_app, concat_app. Qed.

Lemma receiveds_app ch l l' : receiveds ch (l ++ l') = receiveds ch l ++ receiveds ch l'.
Proof. unfold receiveds. by rewrite map_app, concat_app. Qed.

Definition queue_of (ch : nat) (st : Store P) : list (ChannelQueueEntry P) :=
  match channels st !! ch with Some c => ch_queue c | None => [] end.

Definition alive (ch : nat) (st : Store P) : bool :=
  match channels st !! ch with Some c => ch_receiver_alive c | None => true end.

(** From [st] to [st'] with events [evs]: what was queued and sent is what was
    received and is queued, up to what a dropped receiver discarded. *)
Definition flows st (evs : list Event) st' : Prop := forall ch, exists lost,
  queue_of ch st ++ sents ch evs = receiveds ch evs ++ queue_of ch st' ++ lost /\
  (alive ch st = false -> alive ch st' = false /\ sents ch evs = [] /\ receiveds ch evs = []) /\
  (alive ch st' = true -> lost = []).

Lemma dead_queue ch st : store_wf st -> alive ch st = false -> queue_of ch st = [].
Proof.
  unfold alive, queue_of. intros Hwf. destruct (channels st !! ch) as [c|] eqn:E; [|done].
  apply (wf_chan _ Hwf ch c E).
Qed.

Lemma flows_trans st st1 st2 evs evs' : store_wf st1 -> flows st evs st1 -> flows st1 evs' st2 ->
  flows st (evs ++ evs') st2.
Proof.
  intros Hwf1 H1 H2 ch. destruct (H1 ch) as (l1 & E1 & D1 & A1). destruct (H2 ch) as (l2 & E2 & D2 & A2).
  rewrite sents_app, receiveds_app. destruct (alive ch st1) eqn:Ha.
  - exists l2. split_and!.
    + rewrite (A1 eq_refl), app_nil_r in E1. by rewrite app_assoc, E1, <- app_assoc, E2, <- app_assoc.
    + intros Hd. destruct (D1 Hd) as [? _]. done.
    + done.
  - destruct (D2 eq_refl) as (Ha2 & Es & Er). rewrite Es, Er, !app_nil_r.
    assert (Hw2 : queue_of ch st1 = []) by (by apply dead_queue).
    rewrite Es, Er, Hw2 in E2. rewrite Hw2 in E1. simpl in E1, E2. symmetry in E2.
    apply app_eq_nil in E2 as [Eq2 _]. exists l1. rewrite Eq2. split_and!; [done| |congruence].
    intros Hd. destruct (D1 Hd) as (_ & ? & ?). done.
Qed.

Lemma flows_nothing st st' : (forall ch, queue_of ch st' = queue_of ch st) ->
  (forall ch, alive ch st' = alive ch st) -> flows st [] st'.
Proof.
  intros Hq Ha ch. exists []. rewrite Hq, Ha. simpl. rewrite !app_nil_r. done.
Qed.

Lemma drop_sender_queue ch st : (forall j, queue_of j (channel_drop_sender ch st) = queue_of j st) /\
  (forall j, alive j (channel_drop_sender ch st) = alive j st).
Proof.
  destruct (drop_sender_store ch st) as (Hc & _). unfold queue_of, alive. rewrite Hc.
  split; intros j; (destruct (decide (ch = j)) as [<-|];
    [rewrite lookup_alter_eq; by destruct (channels st !! ch)|by rewrite lookup_alter_ne]).
Qed.

Lemma drop_receiver_flows ch st :
  flows st [] (channel_drop_receiver ch st).
Proof.
  intros j. destruct (drop_receiver_store ch st) as (Hc & _).
  unfold queue_of, alive. rewrite Hc. destruct (decide (ch = j)) as [<-|].
  - rewrite lookup_alter_eq. destruct (channels st !! ch) as [c|]; [|by exists []].
    simpl. unfold receiver_dropped. destruct (ch_receiver_alive c) eqn:Ha; simpl.
    + exists (ch_queue c). by rewrite app_nil_r.
    + exists []. by rewrite Ha, !app_nil_r.
  - exists []. rewrite lookup_alter_ne by done. by rewrite !app_nil_r.
Qed.

Lemma flows_cong st0 st evs st' : (forall ch, queue_of ch st = queue_of ch st0) ->
  (forall ch, alive ch st = alive ch st0) -> flows st evs st' -> flows st0 evs st'.
Proof. intros Hq Ha Hf ch. destruct (Hf ch) as (l & H). rewrite Hq, Ha in H. eauto. Qed.

(** One channel's queue changes from [q] to [q']. *)
Lemma flows_queue st st' ch c q' evs : channels st !! ch = Some c -> ch_receiver_alive c = true ->
  channels st' = <[ch := set_queue q' c]> (channels st) ->
  (forall j, j <> ch -> sents j evs = [] /\ receiveds j evs = []) ->
  ch_queue c ++ sents ch evs = receiveds ch evs ++ q' -> flows st evs st'.
Proof.
  intros Ec Ha Hc Hother Hq j. unfold queue_of, alive. rewrite Hc. exists [].
  destruct (decide (ch = j)) as [<-|Hne].
  - rewrite lookup_insert_eq, Ec. simpl. rewrite Ha, app_nil_r. done.
  - rewrite lookup_insert_ne by done. destruct (Hother j) as [-> ->]; [done|].
    simpl. by rewrite !app_nil_r.
Qed.

Lemma sents_other j ch e : j <> ch -> sents j [Sent ch e] = [] /\ receiveds j [Sent ch e] = [].
Proof. intros. unfold sents, receiveds. simpl. by rewrite decide_False by congruence. Qed.

Lemma receiveds_other j ch e : j <> ch -> sents j [Received ch e] = [] /\ receiveds j [Received ch e] = [].
Proof. intros. unfold sents, receiveds. simpl. by rewrite decide_False by congruence. Qed.

Lemma delta_flows evs tk st st' : store_wf st -> delta evs tk st st' -> flows st evs st'.
Proof.
  intros Hwf Hd. revert Hwf.
  destruct Hd as [| |cap d st Hcap| | |h s r st E|h ch st E|h ch st E|h ch c st E Ec| | |h o o' ch c st E Hs Hs' _ Ec
    |h o o' ch c e st E Hs Hs' Ec Hcl Ha Hl _|h o o' ch c e q st E Hs Hs' Ec Hq _| | | ]; intros Hwf;
    try (by apply flows_nothing).
  - assert (Hn : channels st !! next_ch st = None).
    { destruct (channels st !! next_ch st) eqn:E; [|done].
      assert (next_ch st < next_ch st)%nat by (apply (wf_channels _ Hwf); by rewrite E). lia. }
    apply flows_nothing; intros j; unfold queue_of, alive; simpl;
      (destruct (decide (next_ch st = j)) as [<-|]; [by rewrite lookup_insert_eq, Hn|by rewrite lookup_insert_ne]).
  - cbv zeta. set (st1 := match s with Some ch => channel_drop_sender ch (free_obj h st) | None => free_obj h st end).
    assert (Hsame : (forall j, queue_of j st1 = queue_of j st) /\ (forall j, alive j st1 = alive j st)).
    { unfold st1. destruct s as [ch|]; [|done]. destruct (drop_sender_queue ch (free_obj h st)) as [H1 H2].
      split; intros j; [by rewrite H1|by rewrite H2]. }
    destruct Hsame as [H1 H2]. apply (flows_cong st st1); [done..|].
    destruct r as [ch|]; [apply drop_receiver_flows|by apply flows_nothing].
  - apply (flows_cong st (free_obj h st)); [done..|]. apply drop_receiver_flows.
  - destruct (drop_sender_queue ch (free_obj h st)) as [H1 H2]. by apply flows_nothing; intros; rewrite ?H1, ?H2.
  - apply flows_nothing; intros j; unfold queue_of, alive; simpl;
      (destruct (decide (ch = j)) as [<-|]; [by rewrite lookup_insert_eq, Ec|by rewrite lookup_insert_ne]).
  - apply flows_nothing; intros j; unfold queue_of, alive; simpl;
      (destruct (decide (ch = j)) as [<-|]; [by rewrite lookup_insert_eq, Ec|by rewrite lookup_insert_ne]).
  - eapply flows_queue; [exact Ec|done|reflexivity| |].
    + intros j Hj. by apply sents_other.
    + unfold sents, receiveds. simpl. by rewrite decide_True.
  - eapply flows_queue; [exact Ec| |reflexivity| |].
    + destruct (ch_receiver_alive c) eqn:Ha; [done|]. destruct (wf_chan _ Hwf ch c Ec) as [_ _ _ _ Hd].
      specialize (Hd Ha). congruence.
    + intros j Hj. by apply receiveds_other.
    + unfold sents, receiveds. simpl. rewrite decide_True by done. by rewrite Hq, app_nil_r.
Qed.

(** C14: channels deliver in order, without loss or duplication.  In any run
    of calls from the empty store, for every channel: the values received are
    a prefix of the values whose send succeeded, in the order the sends
    succeeded; and as long as the receiver is alive, what is missing is
    exactly the queue. *)
Theorem channel_fifo (ops : list (Op P)) st (evs : list Event) (tk : list P) (ch : nat) :
  run ops store_init = Some (st, evs, tk) ->
  receiveds ch evs `prefix_of` sents ch evs /\
  (alive ch st = true -> sents ch evs = receiveds ch evs ++ queue_of ch st).
Proof.
  intros Hrun.
  destruct (run_ind (fun st evs _ st' => flows st evs st')) with (ops := ops) (st := @store_init P)
    (st' := st) (evs := evs) (tk := tk) as [Hwf Hf]; [| |apply store_init_wf|done|].
  - intros st0. by apply flows_nothing.
  - intros st0 st1 st2 e1 t1 e2 t2 Hwf Hd Hwf1 H2. eapply flows_trans; [exact Hwf1| |exact H2].
    by eapply delta_flows.
  - destruct (Hf ch) as (lost & E & _ & Hl). change (queue_of ch (@store_init P)) with (@nil (ChannelQueueEntry P)) in E.
    simpl in E. split.
    + rewrite E. by apply prefix_app_r.
    + intros Ha. by rewrite E, (Hl Ha), app_nil_r.
Qed.

(** *** Ownership of payloads *)

Definition call_payload (call : @Call P) : P := match call with CallDrop p | CallMoveOut p => p end.

(** Payloads still held by an object or a queue, and payloads whose life the
    runtime has ended. *)
Definition live st : list P := gather obj_payloads (objs st) ++ gather queue_payloads (channels st).
Definition ended st : list P := map call_payload (calls st).

Section weights.
Context (w : P -> nat).

Definition wsum (l : list P) : nat := sum_list (map w l).

Lemma wsum_app l l' : wsum (l ++ l') = (wsum l + wsum l')%nat.
Proof. unfold wsum. induction l; simpl; lia. Qed.

Lemma wsum_perm l l' : l ≡ₚ l' -> wsum l = wsum l'.
Proof. unfold wsum. induction 1; simpl; lia. Qed.

Definition total st : nat := (wsum (live st) + wsum (ended st))%nat.

Lemma wsum_replace {K V} `{Countable K} (g : V -> list P) (m : gmap K V) k v v' : m !! k = Some v ->
  (wsum (gather g (<[k := v']> m)) + wsum (g v) = wsum (gather g m) + wsum (g v'))%nat.
Proof.
  intros E. rewrite (wsum_perm _ _ (gather_replace g m k v v' E)), (wsum_perm _ _ (gather_delete g m k v E)).
  rewrite !wsum_app. lia.
Qed.

Lemma wsum_new {K V} `{Countable K} (g : V -> list P) (m : gmap K V) k v : m !! k = None ->
  wsum (gather g (<[k := v]> m)) = (wsum (gather g m) + wsum (g v))%nat.
Proof. intros E. rewrite (wsum_perm _ _ (gather_new g m k v E)), wsum_app. lia. Qed.

Lemma wsum_delete {K V} `{Countable K} (g : V -> list P) (m : gmap K V) k v : m !! k = Some v ->
  (wsum (gather g (delete k m)) + wsum (g v) = wsum (gather g m))%nat.
Proof. intros E. rewrite (wsum_perm _ _ (gather_delete g m k v E)), wsum_app. lia. Qed.

Lemma wsum_alter {K V} `{Countable K} (g : V -> list P) (m : gmap K V) k f v : m !! k = Some v ->
  (wsum (gather g (alter f k m)) + wsum (g v) = wsum (gather g m) + wsum (g (f v)))%nat.
Proof.
  intros E. rewrite <- (wsum_replace g m k v (f v) E). do 2 f_equal.
  f_equal. apply map_eq. intros j. destruct (decide (k = j)) as [<-|].
  - by rewrite lookup_alter_eq, lookup_insert_eq, E.
  - by rewrite lookup_alter_ne, lookup_insert_ne.
Qed.

Lemma alter_missing {K V} `{Countable K} (m : gmap K V) k f : m !! k = None -> alter f k m = m.
Proof.
  intros E. apply map_eq. intros j. destruct (decide (k = j)) as [<-|]; [by rewrite lookup_alter_eq, E|].
  by rewrite lookup_alter_ne.
Qed.

Lemma total_unfold st :
  total st = (wsum (gather obj_payloads (objs st)) + wsum (gather queue_payloads (channels st)) +
              wsum (ended st))%nat.
Proof. unfold total, live. by rewrite wsum_app. Qed.

Lemma ended_drop ps st : wsum (ended (drop_payloads ps st)) = (wsum (ended st) + wsum ps)%nat.
Proof.
  unfold ended. simpl. rewrite map_app, wsum_app, map_map. simpl. by rewrite map_id.
Qed.

Lemma drop_sender_total ch st : total (channel_drop_sender ch st) = total st.
Proof.
  rewrite !total_unfold. destruct (drop_sender_store ch st) as (Hc & -> & _ & _ & Hcalls).
  unfold ended. rewrite Hcalls, Hc. destruct (channels st !! ch) as [c|] eqn:E.
  - pose proof (wsum_alter queue_payloads (channels st) ch sender_dropped c E) as Hw.
    change (queue_payloads (sender_dropped c)) with (queue_payloads c) in Hw. lia.
  - by rewrite alter_missing.
Qed.

Lemma drop_receiver_total ch st : total (channel_drop_receiver ch st) = total st.
Proof.
  rewrite !total_unfold. destruct (drop_receiver_store ch st) as (Hc & -> & _ & _ & Hcalls).
  unfold ended. rewrite Hcalls, Hc, map_app, wsum_app, map_map. simpl. rewrite map_id.
  unfold discarded. destruct (channels st !! ch) as [c|] eqn:E.
  - pose proof (wsum_alter queue_payloads (channels st) ch receiver_dropped c E) as Hw.
    unfold receiver_dropped in Hw at 2. destruct (ch_receiver_alive c).
    + change (queue_payloads (mkInner _ _ [] _ _ _)) with (@nil P) in Hw.
      change (wsum []) with 0%nat in *. lia.
    + change (wsum []) with 0%nat. lia.
  - rewrite alter_missing by done. change (wsum []) with 0%nat. lia.
Qed.

Lemma free_total h o st : objs st !! h = Some o ->
  (total (free_obj h st) + wsum (obj_payloads o) = total st)%nat.
Proof.
  intros E. rewrite !total_unfold. pose proof (wsum_delete obj_payloads (objs st) h o E). unfold ended. simpl. lia.
Qed.

Lemma drop_payloads_total ps st : total (drop_payloads ps st) = (total st + wsum ps)%nat.
Proof. rewrite !total_unfold, ended_drop. simpl. lia. Qed.

Lemma queue_payloads_snoc c e : queue_payloads (set_queue (ch_queue c ++ [e]) c) = queue_payloads c ++ payload_of e.
Proof. unfold queue_payloads. cbn [set_queue ch_queue]. rewrite map_app, concat_app. simpl. by rewrite app_nil_r. Qed.

Lemma settle_total h o o' ch c c' st : objs st !! h = Some o -> channels st !! ch = Some c ->
  (wsum (obj_payloads o') + wsum (queue_payloads c') = wsum (obj_payloads o) + wsum (queue_payloads c))%nat ->
  total (put_obj h o' (put_channel ch c' st)) = total st.
Proof.
  intros E Ec Hw. rewrite !total_unfold. unfold ended. simpl.
  pose proof (wsum_replace obj_payloads (objs st) h o o' E).
  pose proof (wsum_replace queue_payloads (channels st) ch c c' Ec). lia.
Qed.

Lemma delta_total evs tk st st' : store_wf st -> delta evs tk st st' ->
  total st' = (wsum tk + total st)%nat.
Proof.
  intros Hwf Hd. revert Hwf.
  destruct Hd as [|p st|cap d st Hcap|h ch r st E|h s ch st E|h s r st E|h ch st E|h ch st E|h ch c st E Ec
    |h o st _ Hs|h o o' st E Hs Hs' Hp|h o o' ch c st E Hs Hs' Hp Ec
    |h o o' ch c e st E Hs Hs' Ec Hcl Ha Hl Hp|h o o' ch c e q st E Hs Hs' Ec Hq Hp
    |h o st E Hs|h o p st E Hs Hp|h o p st E Hs Hp]; intros Hwf;
    pose proof (wf_fresh st Hwf) as Hfresh; change (wsum []) with 0%nat in *; rewrite ?Nat.add_0_l.
  - done.
  - rewrite drop_payloads_total. lia.
  - assert (Hn : channels st !! next_ch st = None).
    { destruct (channels st !! next_ch st) eqn:E; [|done].
      assert (next_ch st < next_ch st)%nat by (apply (wf_channels _ Hwf); by rewrite E). lia. }
    rewrite !total_unfold. unfold ended. simpl. rewrite !wsum_new by done.
    change (wsum (queue_payloads _)) with 0%nat. change (wsum (obj_payloads _)) with 0%nat. lia.
  - rewrite !total_unfold. unfold ended. simpl.
    rewrite wsum_new by (rewrite lookup_insert_ne; congruence).
    pose proof (wsum_replace obj_payloads (objs st) h _ (OPair None r) E) as Hw.
    change (obj_payloads (OPair _ _)) with (@nil P) in *. change (obj_payloads (OSender _)) with (@nil P) in *.
    change (wsum []) with 0%nat in *. lia.
  - rewrite !total_unfold. unfold ended. simpl.
    rewrite wsum_new by (rewrite lookup_insert_ne; congruence).
    pose proof (wsum_replace obj_payloads (objs st) h _ (OPair s None) E) as Hw.
    change (obj_payloads (OPair _ _)) with (@nil P) in *. change (obj_payloads (OReceiver _)) with (@nil P) in *.
    change (wsum []) with 0%nat in *. lia.
  - pose proof (free_total h _ st E) as Hf. change (obj_payloads (OPair _ _)) with (@nil P) in Hf.
    change (wsum []) with 0%nat in Hf. cbv zeta. destruct s, r; rewrite ?drop_receiver_total, ?drop_sender_total; lia.
  - pose proof (free_total h _ st E) as Hf. change (obj_payloads (OReceiver _)) with (@nil P) in Hf.
    change (wsum []) with 0%nat in Hf. rewrite drop_receiver_total. lia.
  - pose proof (free_total h _ st E) as Hf. change (obj_payloads (OSender _)) with (@nil P) in Hf.
    change (wsum []) with 0%nat in Hf. rewrite drop_sender_total. lia.
  - rewrite !total_unfold. unfold ended. simpl. rewrite wsum_new by done.
    pose proof (wsum_replace queue_payloads (channels st) ch c (mkInner (ch_capacity c) (ch_descriptor c)
      (ch_queue c) (S (ch_sender_count c)) (ch_receiver_alive c) (ch_closed c)) Ec) as Hw.
    change (queue_payloads (mkInner _ _ (ch_queue c) _ _ _)) with (queue_payloads c) in Hw.
    change (wsum (obj_payloads (OSender _))) with 0%nat. lia.
  - rewrite !total_unfold. unfold ended. simpl. rewrite wsum_new by done. lia.
  - rewrite !total_unfold. unfold ended. simpl.
    pose proof (wsum_replace obj_payloads (objs st) h o o' E) as Hw. rewrite Hp in Hw. lia.
  - apply (settle_total h o o' ch c); [done..|]. rewrite Hp. done.
  - apply (settle_total h o o' ch c); [done..|]. rewrite queue_payloads_snoc, wsum_app, (wsum_perm _ _ Hp), wsum_app. lia.
  - apply (settle_total h o o' ch c); [done..|]. rewrite (wsum_perm _ _ Hp), wsum_app.
    unfold queue_payloads at 2. rewrite Hq. simpl. rewrite wsum_app. unfold queue_payloads. simpl. lia.
  - rewrite drop_payloads_total. pose proof (free_total h o st E). lia.
  - pose proof (free_total h o st E) as Hf. rewrite Hp in Hf. rewrite <- Hf, !total_unfold. unfold ended. simpl.
    rewrite wsum_new; [simpl; lia|]. rewrite lookup_delete_ne; [done|]. congruence.
  - pose proof (free_total h o st E) as Hf. rewrite Hp in Hf. rewrite <- Hf, !total_unfold. unfold ended. simpl.
    rewrite map_app, wsum_app. simpl. lia.
Qed.
End weights.

Lemma run_total w ops st st' evs tk : store_wf st -> run ops st = Some (st', evs, tk) ->
  total w st' = (wsum w tk + total w st)%nat.
Proof.
  intros Hwf Hrun. eapply (run_ind (fun st _ tk st' => total w st' = (wsum w tk + total w st)%nat)); [| |done..].
  - done.
  - intros st0 st1 st2 e1 t1 e2 t2 Hwf0 Hd _ IH. rewrite wsum_app, IH, (delta_total w _ _ _ _ Hwf0 Hd). lia.
Qed.

Lemma run_wf ops st st' evs tk : store_wf st -> run ops st = Some (st', evs, tk) -> store_wf st'.
Proof. intros Hwf Hrun. by eapply (run_ind (fun _ _ _ _ => True)) in Hrun as [? _]. Qed.

(** In every reachable store each channel is sound: its queue is within
    the capacity; the sender count is the number of live senders and the
    channel is closed exactly when there is none; there is exactly one live
    receiver or, once it was dropped, none, and then the queue is empty. *)
Theorem channel_sound (ops : list (Op P)) st (evs : list Event) (tk : list P) (ch : nat) c :
  run ops store_init = Some (st, evs, tk) -> channels st !! ch = Some c ->
  (length (ch_queue c) <= ch_capacity c)%nat /\
  ch_sender_count c = cnt ch (sender_refs st) /\
  (ch_closed c = true <-> cnt ch (sender_refs st) = 0%nat) /\
  cnt ch (receiver_refs st) = (if ch_receiver_alive c then 1 else 0)%nat /\
  (ch_receiver_alive c = false -> ch_queue c = []).
Proof.
  intros Hrun Ec. pose proof (run_wf _ _ _ _ _ store_init_wf Hrun) as Hwf.
  by destruct (wf_chan _ Hwf ch c Ec).
Qed.

Lemma count_occ_wsum `{EqDecision P} x l :
  count_occ (decide_rel (=)) l x = wsum (fun p => if decide (p = x) then 1%nat else 0%nat) l.
Proof.
  unfold wsum. induction l as [|y l IH]; [done|]. simpl. rewrite <- IH.
  unfold decide, decide_rel. by destruct (EqDecision0 y x).
Qed.

(** C19: payloads are neither leaked nor freed twice.  After any run, the
    payloads the channel calls took over are, one for one, those still held by
    a send, a queue, a finished receive or a value handle, and those the
    runtime dropped or moved out to the caller. *)
Theorem payload_conservation `{EqDecision P} (ops : list (Op P)) st (evs : list Event) (tk : list P) :
  run ops store_init = Some (st, evs, tk) -> live st ++ ended st ≡ₚ tk.
Proof.
  intros Hrun. apply (Permutation_count_occ (decide_rel (=))). intros x. rewrite !count_occ_wsum.
  pose proof (run_total (fun p => if decide (p = x) then 1%nat else 0%nat) _ _ _ _ _ store_init_wf Hrun) as Ht.
  rewrite wsum_app. unfold total in Ht at 1. rewrite Ht. unfold total, live, ended. simpl.
  rewrite !gather_empty. simpl. unfold wsum at 2. simpl. lia.
Qed.

Definition polls : list (Z -> Store P -> option (Z * Store P)) :=
  [sengoo_async_channel_send_i64__poll; sengoo_async_channel_send__poll;
   sengoo_async_channel_recv_i64__poll; sengoo_async_channel_recv__poll].

Lemma enter_ok life a : lifecycle_enter life = Ok a -> life = 0.
Proof. unfold lifecycle_enter. destruct (Z.eqb_spec life 0); [done|]. by destruct (life =? 1). Qed.

Lemma put_obj_same h o st : objs st !! h = Some o -> put_obj h o st = st.
Proof. intros E. destruct st. unfold put_obj. simpl in *. by rewrite insert_id. Qed.

(** A poll leaves a ready object behind, and a ready object answers
    [POLL_ERROR_COMPLETED]. *)
Lemma poll_done (f : Z -> Store P -> option (Z * Store P)) h st st' r (is_ready : Store P -> Prop) :
  (forall s, is_ready s -> f h s = Some (POLL_ERROR_COMPLETED, s)) ->
  (r = 0 -> st' = st) /\ (r = 1 -> is_ready st') ->
  (r = 0 -> st' = st) /\ (r = 1 -> f h st' = Some (POLL_ERROR_COMPLETED, st')).
Proof. intros Hd [H0 H1]. split; [done|]. intros Hr. by apply Hd, H1. Qed.

Ltac poll_done :=
  match goal with
  | E' : objs ?s !! ?h = Some _, Hh : ?h <> 0 |- _ =>
      rewrite E'; destruct (Z.eqb_spec h 0); done
  | Hh : ?h <> 0, E : (if ?h =? 0 then _ else _) = Some _ |- _ =>
      destruct (Z.eqb_spec h 0); [done|];
      repeat (case_match; try discriminate E); injection E as <- <-;
      repeat match goal with H : lifecycle_enter _ = Ok _ |- _ => apply enter_ok in H; subst end;
      (split; [intros Hr; try discriminate Hr; try (by apply put_obj_same)|
               intros Hr; try discriminate Hr; simpl; rewrite ?lookup_insert_eq; try by eauto]);
      try (unfold lifecycle_enter in *; repeat case_match; simplify_eq; done);
      try (match goal with H : is_some ?o = false |- _ => destruct o; [done|] end; by apply put_obj_same)
  end.

(** The poll protocol.  A poll that answers 0 (pending) changes nothing;
    after a poll of a real handle answered 1 (ready), any further poll answers
    [POLL_ERROR_COMPLETED] and changes nothing. *)
Theorem poll_protocol (f : Z -> Store P -> option (Z * Store P)) (h : Z) st st' (r : Z) :
  f ∈ polls -> f h st = Some (r, st') ->
  (r = 0 -> st' = st) /\
  (r = 1 -> h <> 0 -> f h st' = Some (POLL_ERROR_COMPLETED, st')).
Proof.
  intros Hf E. destruct (decide (h = 0)) as [->|Hh].
  { repeat (apply elem_of_cons in Hf as [->|Hf]); [..|by apply elem_of_nil in Hf]; by injection E as <- <-. }
  assert (H : (r = 0 -> st' = st) /\ (r = 1 -> f h st' = Some (POLL_ERROR_COMPLETED, st'))).
  { repeat (apply elem_of_cons in Hf as [->|Hf]); [..|by apply elem_of_nil in Hf].
    - apply (poll_done _ h st st' r (fun st => exists ch v out, objs st !! h = Some (OSendI64 ch v 2 out)));
        [intros s (ch & v & out & E')|]; unfold sengoo_async_channel_send_i64__poll in *; poll_done.
    - apply (poll_done _ h st st' r (fun st => exists ch v out, objs st !! h = Some (OSend ch v 2 out)));
        [intros s (ch & v & out & E')|]; unfold sengoo_async_channel_send__poll in *; poll_done.
    - apply (poll_done _ h st st' r (fun st => exists ch out, objs st !! h = Some (ORecvI64 ch 2 out)));
        [intros s (ch & out & E')|]; unfold sengoo_async_channel_recv_i64__poll in *; poll_done.
    - apply (poll_done _ h st st' r (fun st => exists ch out, objs st !! h = Some (ORecv ch 2 out)));
        [intros s (ch & out & E')|]; unfold sengoo_async_channel_recv__poll in *; poll_done. }
  split; [apply H|]. intros Hr _. by apply H.
Qed.
End invariant.

(** ** Witnesses *)

(** A channel of capacity 2: two sends, one receive. *)
Definition sample_ops : list (Op nat) :=
  [BoundedI64 2; PairSender 1; PairReceiver 1; SendI64Start 2 10; SendI64Poll 4; SendI64Start 2 20;
   SendI64Poll 5; RecvI64Start 3; RecvI64Poll 6].

Lemma channel_fifo_witness :
  match run sample_ops store_init with
  | Some (st, evs, _) => sents 0 evs = receiveds 0 evs ++ queue_of 0 st /\ receiveds 0 evs = [EntryI64 10]
  | None => False
  end.
Proof.
  destruct (run sample_ops store_init) as [[[st evs] tk]|] eqn:E.
  - split.
    + apply (channel_fifo sample_ops st evs tk 0 E). vm_compute in E. injection E as <- _ _. reflexivity.
    + vm_compute in E. injection E as _ <- _. reflexivity.
  - vm_compute in E. discriminate.
Defined.

Lemma channel_sound_witness :
  match run sample_ops store_init with
  | Some (st, _, _) =>
      match channels st !! 0%nat with
      | Some c => (length (ch_queue c) <= ch_capacity c)%nat /\ ch_capacity c = 2%nat
      | None => False
      end
  | None => False
  end.
Proof.
  destruct (run sample_ops store_init) as [[[st evs] tk]|] eqn:E; [|vm_compute in E; discriminate].
  destruct (channels st !! 0%nat) as [c|] eqn:Ec.
  - split; [exact (proj1 (channel_sound sample_ops st evs tk 0 c E Ec))|].
    vm_compute in E. injection E as <- _ _. vm_compute in Ec. injection Ec as <-. reflexivity.
  - vm_compute in E. injection E as <- _ _. vm_compute in Ec. discriminate.
Defined.

(** A payload sent, received and moved out; another discarded with its
    receiver. *)
Definition payload_ops : list (Op nat) :=
  [BoundedParts 1 8 8 true true; PairSender 1; PairReceiver 1; SendStart 2 (Some 7%nat) true true; SendPoll 4;
   RecvStart 3; RecvPoll 5; RecvResult 5; ValueMoveInto 6 false; SendStart 2 (Some 9%nat) true true;
   SendPoll 7; ReceiverDrop 3].

Lemma payload_conservation_witness :
  match run payload_ops store_init with
  | Some (st, _, tk) => live st ++ ended st ≡ₚ tk /\ tk = [7; 9]%nat /\ calls st = [CallMoveOut 7; CallDrop 9]%nat
  | None => False
  end.
Proof.
  destruct (run payload_ops store_init) as [[[st evs] tk]|] eqn:E; [|vm_compute in E; discriminate].
  split; [exact (payload_conservation payload_ops st evs tk E)|].
  vm_compute in E. injection E as <- _ <-. split; reflexivity.
Defined.

Definition full_ops : list (Op nat) := take 4 sample_ops.

Lemma poll_protocol_witness :
  match run full_ops store_init with
  | Some (st, _, _) =>
      match sengoo_async_channel_send_i64__poll 4 st with
      | Some (1, st') => sengoo_async_channel_send_i64__poll 4 st' = Some (POLL_ERROR_COMPLETED, st')
      | _ => False
      end
  | None => False
  end.
Proof.
  destruct (run full_ops store_init) as [[[st evs] tk]|] eqn:E; [|vm_compute in E; discriminate].
  destruct (sengoo_async_channel_send_i64__poll 4 st) as [[r st']|] eqn:Ep.
  - assert (r = 1) as Hr by (vm_compute in E; injection E as <- _ _; vm_compute in Ep; by injection Ep).
    subst r. apply (poll_protocol sengoo_async_channel_send_i64__poll 4 st st' 1); [by left|exact Ep|done|done].
  - vm_compute in E. injection E as <- _ _. vm_compute in Ep. discriminate.
Defined.
