(* ===== verification/RwLock.v ===== *)
(** The asynchronous reader/writer lock: async_runtime/concurrent.rs, from
    [RwLockGuardKind] on.

    As for the channels, [Arc<Mutex<AsyncRwLockInner>>] is an address in
    [locks], a box behind a handle is an entry of [rw_objs], a call runs under
    the lock's mutex and is one step, and using a handle of another type is
    undefined ([None]).  The inner state dies with its last [Arc]; its payload
    is then dropped.  [P] is the type of payloads; [i64_of] and [of_i64] read
    and write an 8-byte payload as an [i64]. *)

From S2P Require Import Prelude Channel.

Local Open Scope Z_scope.

Definition STATUS_LOCK_UNAVAILABLE : Z := 11.

Inductive RwLockGuardKind := Read | Write.

#[export] Instance RwLockGuardKind_eq_dec : EqDecision RwLockGuardKind.
Proof. solve_decision. Defined.

Definition i64_max : Z := 2 ^ 63 - 1.

(** The loop of [allocate_rwlock_guard_id] and [allocate_rwlock_waiter_id]:
    the id and the next candidate. *)
Fixpoint allocate_id {A} (n : nat) (used : gmap Z A) (next : Z) : option (Z * Z) :=
  match n with
  | O => None
  | S n' =>
      let candidate := Z.max next 1 in
      let next := if candidate =? i64_max then 1 else candidate + 1 in
      if is_some (used !! candidate) then allocate_id n' used next else Some (candidate, next)
  end.

Section rwlock.
Context {P : Type}.

Record AsyncRwLockInner := mkRw {
  readers : nat;
  writer : bool;
  rw_closed : bool;
  next_guard_id : Z;
  next_waiter_id : Z;
  guards : gmap Z RwLockGuardKind;
  waiters : gmap Z RwLockGuardKind;
  waiter_queue : list Z;
  rw_payload : P;
  rw_descriptor : SengooTypeDescriptor;
}.

Implicit Type inner : AsyncRwLockInner.

(** ** Guards and waiters *)

Definition allocate_rwlock_guard_id inner : option (Z * AsyncRwLockInner) :=
  let* (id, next) := allocate_id (S (size (guards inner))) (guards inner) (next_guard_id inner) in
  Some (id, mkRw (readers inner) (writer inner) (rw_closed inner) next (next_waiter_id inner)
    (guards inner) (waiters inner) (waiter_queue inner) (rw_payload inner) (rw_descriptor inner)).

Definition allocate_rwlock_waiter_id inner : option (Z * AsyncRwLockInner) :=
  let* (id, next) := allocate_id (S (size (waiters inner))) (waiters inner) (next_waiter_id inner) in
  Some (id, mkRw (readers inner) (writer inner) (rw_closed inner) (next_guard_id inner) next
    (guards inner) (waiters inner) (waiter_queue inner) (rw_payload inner) (rw_descriptor inner)).

Definition rwlock_has_waiting_writer inner : bool :=
  existsb (fun kv => bool_decide (kv.2 = Write)) (map_to_list (waiters inner)).

Definition rwlock_first_waiter_id inner : option Z :=
  find (fun w => is_some (waiters inner !! w)) (waiter_queue inner).

Definition with_waiters (ws : gmap Z RwLockGuardKind) (q : list Z) inner : AsyncRwLockInner :=
  mkRw (readers inner) (writer inner) (rw_closed inner) (next_guard_id inner) (next_waiter_id inner)
    (guards inner) ws q (rw_payload inner) (rw_descriptor inner).

Definition rwlock_register_waiter (kind : RwLockGuardKind) inner : option (Z * AsyncRwLockInner) :=
  let* (id, inner') := allocate_rwlock_waiter_id inner in
  Some (id, with_waiters (<[id := kind]> (waiters inner')) (waiter_queue inner' ++ [id]) inner').

(** [position] and [remove]: the first occurrence goes. *)
Fixpoint remove_first (w : Z) (q : list Z) : list Z :=
  match q with
  | [] => []
  | x :: q' => if x =? w then q' else x :: remove_first w q'
  end.

Definition rwlock_unregister_waiter (w : Z) inner : bool * AsyncRwLockInner :=
  if is_some (waiters inner !! w)
  then (true, with_waiters (delete w (waiters inner)) (remove_first w (waiter_queue inner)) inner)
  else (false, inner).

Definition rwlock_acquire_guard (kind : RwLockGuardKind) inner : option (Z * AsyncRwLockInner) :=
  let* (id, inner') := allocate_rwlock_guard_id inner in
  Some (id, mkRw
    (match kind with Read => S (readers inner') | Write => readers inner' end)
    (match kind with Read => writer inner' | Write => true end)
    (rw_closed inner') (next_guard_id inner') (next_waiter_id inner')
    (<[id := kind]> (guards inner')) (waiters inner') (waiter_queue inner')
    (rw_payload inner') (rw_descriptor inner')).

Definition rwlock_waiter_can_acquire inner (w : Z) : bool :=
  match waiters inner !! w with
  | None => false
  | Some kind =>
      if bool_decide (rwlock_first_waiter_id inner = Some w) then
        match kind with
        | Read => negb (writer inner)
        | Write => negb (writer inner) && Nat.eqb (readers inner) 0
        end
      else false
  end.

(** ** The store *)

Inductive RwObj :=
| OLock (l : nat)
| OAcquire (l : nat) (kind : RwLockGuardKind) (life : PollLifecycle) (outcome waiter_id : option Z).

Record RwStore := mkRwStore {
  locks : gmap nat AsyncRwLockInner;
  rw_objs : gmap Z RwObj;
  rw_next_lock : nat;
  rw_next_handle : Z;
  rw_calls : list (@Call P);
}.

Definition rw_init : RwStore := mkRwStore ∅ ∅ 0 1 [].

Implicit Type rs : RwStore.

Definition rw_put (h : Z) (o : RwObj) rs : RwStore :=
  mkRwStore (locks rs) (<[h := o]> (rw_objs rs)) (rw_next_lock rs) (rw_next_handle rs) (rw_calls rs).
Definition rw_new (o : RwObj) rs : Z * RwStore :=
  (rw_next_handle rs,
   mkRwStore (locks rs) (<[rw_next_handle rs := o]> (rw_objs rs)) (rw_next_lock rs)
     (rw_next_handle rs + 1) (rw_calls rs)).
Definition put_lock (l : nat) inner rs : RwStore :=
  mkRwStore (<[l := inner]> (locks rs)) (rw_objs rs) (rw_next_lock rs) (rw_next_handle rs) (rw_calls rs).
Definition rw_drop (ps : list P) rs : RwStore :=
  mkRwStore (locks rs) (rw_objs rs) (rw_next_lock rs) (rw_next_handle rs) (rw_calls rs ++ map CallDrop ps).

Definition lock_of (o : RwObj) : nat := match o with OLock l => l | OAcquire l _ _ _ _ => l end.

Definition referenced (l : nat) (m : gmap Z RwObj) : bool :=
  existsb (fun kv => Nat.eqb (lock_of kv.2) l) (map_to_list m).

(** The box is freed; the last reference to the lock takes the lock with it. *)
Definition rw_free (h : Z) (l : nat) rs : RwStore :=
  let m := delete h (rw_objs rs) in
  let rs' := mkRwStore (locks rs) m (rw_next_lock rs) (rw_next_handle rs) (rw_calls rs) in
  match locks rs !! l with
  | Some inner =>
      if referenced l m then rs'
      else rw_drop [rw_payload inner]
             (mkRwStore (delete l (locks rs)) m (rw_next_lock rs) (rw_next_handle rs) (rw_calls rs))
  | None => rs'
  end.

(** ** Construction and closing *)

Definition sengoo_async_rwlock_new (d : option SengooTypeDescriptor) (value : option P) (alloc_ok : bool)
    rs : option (Z * RwStore) :=
  match d with
  | None => Some (0, rs)
  | Some d =>
      match owned_descriptor_value_new d value alloc_ok with
      | None => Some (0, rs)
      | Some p =>
          let l := rw_next_lock rs in
          Some (rw_new (OLock l)
            (mkRwStore (<[l := mkRw 0 false false 1 1 ∅ ∅ [] p d]> (locks rs)) (rw_objs rs) (S l)
               (rw_next_handle rs) (rw_calls rs)))
      end
  end.

Definition sengoo_async_rwlock_new_parts (value : option P) (size align : Z) (move_value drop_value alloc_ok : bool)
    rs : option (Z * RwStore) :=
  match descriptor_from_parts size align move_value drop_value with
  | None => Some (0, rs)
  | Some d => sengoo_async_rwlock_new (Some d) value alloc_ok rs
  end.

Definition set_closed inner : AsyncRwLockInner :=
  mkRw (readers inner) (writer inner) true (next_guard_id inner) (next_waiter_id inner) (guards inner)
    (waiters inner) (waiter_queue inner) (rw_payload inner) (rw_descriptor inner).

(** The lock behind a handle: [Ok] its state, [Err] for the null handle. *)
Definition lock_ref (h : Z) rs : option (result (nat * AsyncRwLockInner) unit) :=
  if h =? 0 then Some (Err tt)
  else
    match rw_objs rs !! h with
    | Some (OLock l) => let* i := locks rs !! l in Some (Ok (l, i))
    | _ => None
    end.

Definition sengoo_async_rwlock_close (h : Z) rs : option (Z * RwStore) :=
  let* r := lock_ref h rs in
  match r with
  | Err _ => Some (0, rs)
  | Ok (l, inner) => Some (0, put_lock l (set_closed inner) rs)
  end.

Definition sengoo_async_rwlock_drop (h : Z) rs : option (Z * RwStore) :=
  let* r := lock_ref h rs in
  match r with
  | Err _ => Some (0, rs)
  | Ok (l, inner) => Some (0, rw_free h l (put_lock l (set_closed inner) rs))
  end.

(** ** Acquiring *)

Definition sengoo_async_rwlock_try_read (h : Z) rs : option (Z * RwStore) :=
  let* r := lock_ref h rs in
  match r with
  | Err _ => Some (- STATUS_INVALID_HANDLE, rs)
  | Ok (l, inner) =>
      if rw_closed inner then Some (- STATUS_INVALID_HANDLE, rs)
      else if writer inner || rwlock_has_waiting_writer inner then Some (- STATUS_LOCK_UNAVAILABLE, rs)
      else let* (id, inner') := rwlock_acquire_guard Read inner in Some (id, put_lock l inner' rs)
  end.

Definition sengoo_async_rwlock_try_write (h : Z) rs : option (Z * RwStore) :=
  let* r := lock_ref h rs in
  match r with
  | Err _ => Some (- STATUS_INVALID_HANDLE, rs)
  | Ok (l, inner) =>
      if rw_closed inner then Some (- STATUS_INVALID_HANDLE, rs)
      else if writer inner || negb (Nat.eqb (readers inner) 0) || negb (bool_decide (waiters inner = ∅))
      then Some (- STATUS_LOCK_UNAVAILABLE, rs)
      else let* (id, inner') := rwlock_acquire_guard Write inner in Some (id, put_lock l inner' rs)
  end.

Definition rwlock_start (kind : RwLockGuardKind) (h : Z) rs : option (Z * RwStore) :=
  let* r := lock_ref h rs in
  match r with
  | Err _ => Some (0, rs)
  | Ok (l, _) => Some (rw_new (OAcquire l kind 0 None None) rs)
  end.

Definition sengoo_async_rwlock_read__start := rwlock_start Read.
Definition sengoo_async_rwlock_write__start := rwlock_start Write.

Definition can_acquire_now (kind : RwLockGuardKind) inner : bool :=
  match kind with
  | Read => negb (writer inner) && negb (rwlock_has_waiting_writer inner)
  | Write => negb (writer inner) && Nat.eqb (readers inner) 0 && negb (is_some (rwlock_first_waiter_id inner))
  end.

Definition rwlock_acquire_poll (h : Z) (l : nat) (kind : RwLockGuardKind) (life : PollLifecycle)
    (outcome waiter_id : option Z) rs : option (Z * RwStore) :=
  match lifecycle_enter life with
  | Err error => Some (error, rs)
  | Ok _ =>
      if is_some outcome then Some (1, rw_put h (OAcquire l kind guard_mark_ready outcome waiter_id) rs)
      else
        let* i := locks rs !! l in
        if rw_closed i then
          let i' := match waiter_id with
                        | Some w => (rwlock_unregister_waiter w i).2
                        | None => i
                        end in
          Some (1, rw_put h (OAcquire l kind guard_mark_ready (Some (- STATUS_INVALID_HANDLE)) None)
                     (put_lock l i' rs))
        else
          match waiter_id with
          | Some w =>
              if rwlock_waiter_can_acquire i w then
                let* (id, i') := rwlock_acquire_guard kind (rwlock_unregister_waiter w i).2 in
                Some (1, rw_put h (OAcquire l kind guard_mark_ready (Some id) None) (put_lock l i' rs))
              else Some (0, rw_put h (OAcquire l kind guard_drop None (Some w)) rs)
          | None =>
              if can_acquire_now kind i then
                let* (id, i') := rwlock_acquire_guard kind i in
                Some (1, rw_put h (OAcquire l kind guard_mark_ready (Some id) None) (put_lock l i' rs))
              else
                let* (w, i') := rwlock_register_waiter kind i in
                Some (0, rw_put h (OAcquire l kind guard_drop None (Some w)) (put_lock l i' rs))
          end
  end.

Definition rwlock_poll (expected : RwLockGuardKind) (h : Z) rs : option (Z * RwStore) :=
  if h =? 0 then Some (1, rs)
  else
    match rw_objs rs !! h with
    | Some (OAcquire l kind life outcome waiter_id) =>
        if bool_decide (kind = expected) then rwlock_acquire_poll h l kind life outcome waiter_id rs
        else Some (- STATUS_INVALID_HANDLE, rs)
    | _ => None
    end.

Definition sengoo_async_rwlock_read__poll := rwlock_poll Read.
Definition sengoo_async_rwlock_write__poll := rwlock_poll Write.

Definition unregister (l : nat) (waiter_id : option Z) rs : RwStore :=
  match waiter_id, locks rs !! l with
  | Some w, Some inner => put_lock l (rwlock_unregister_waiter w inner).2 rs
  | _, _ => rs
  end.

(** Consuming an acquisition: [result], [cancel] and [drop].  The box is gone
    also when its kind is not the expected one. *)
Definition rwlock_acquire_result (expected : RwLockGuardKind) (h : Z) rs : option (Z * RwStore) :=
  if h =? 0 then Some (- STATUS_INVALID_HANDLE, rs)
  else
    match rw_objs rs !! h with
    | Some (OAcquire l kind _ outcome waiter_id) =>
        if bool_decide (kind = expected)
        then Some (default (- STATUS_INVALID_HANDLE) outcome, rw_free h l (unregister l waiter_id rs))
        else Some (- STATUS_INVALID_HANDLE, rw_free h l rs)
    | _ => None
    end.

Definition rwlock_acquire_cancel (expected : RwLockGuardKind) (h : Z) rs : option (bool * RwStore) :=
  if h =? 0 then Some (false, rs)
  else
    match rw_objs rs !! h with
    | Some (OAcquire l kind _ _ waiter_id) =>
        if bool_decide (kind = expected)
        then Some (true, rw_free h l (unregister l waiter_id rs))
        else Some (false, rw_free h l rs)
    | _ => None
    end.

Definition rwlock_acquire_drop (expected : RwLockGuardKind) (h : Z) rs : option (Z * RwStore) :=
  let* (_, rs') := rwlock_acquire_cancel expected h rs in Some (0, rs').

Definition sengoo_async_rwlock_read__result := rwlock_acquire_result Read.
Definition sengoo_async_rwlock_write__result := rwlock_acquire_result Write.
Definition sengoo_async_rwlock_read__cancel := rwlock_acquire_cancel Read.
Definition sengoo_async_rwlock_write__cancel := rwlock_acquire_cancel Write.
Definition sengoo_async_rwlock_read__drop := rwlock_acquire_drop Read.
Definition sengoo_async_rwlock_write__drop := rwlock_acquire_drop Write.

(** ** Guards *)

(** The code, and what was written to [output]. *)
Definition rwlock_guard_copy_into (inner : AsyncRwLockInner) (g : Z) (expected : RwLockGuardKind)
    (output_null : bool) (size : Z) : Z * option P :=
  if output_null || (size <=? 0) then (- INVALID_ARGUMENT, None)
  else if negb (bool_decide (guards inner !! g = Some expected)) then (- STATUS_INVALID_HANDLE, None)
  else if negb (size =? desc_size (rw_descriptor inner)) then (- INVALID_ARGUMENT, None)
  else (0, Some (rw_payload inner)).

Definition guard_copy_into (expected : RwLockGuardKind) (h g : Z) (output_null : bool) (size : Z)
    rs : option (Z * option P) :=
  let* r := lock_ref h rs in
  match r with
  | Err _ => Some (- STATUS_INVALID_HANDLE, None)
  | Ok (_, inner) => Some (rwlock_guard_copy_into inner g expected output_null size)
  end.

Definition sengoo_async_rwlock_read_guard_copy_into := guard_copy_into Read.
Definition sengoo_async_rwlock_write_guard_copy_into := guard_copy_into Write.

Definition set_payload (p : P) inner : AsyncRwLockInner :=
  mkRw (readers inner) (writer inner) (rw_closed inner) (next_guard_id inner) (next_waiter_id inner)
    (guards inner) (waiters inner) (waiter_queue inner) p (rw_descriptor inner).

Definition sengoo_async_rwlock_write_guard_set (h g : Z) (value : option P) (drop_value : bool)
    rs : option (Z * RwStore) :=
  match value with
  | None => Some (- INVALID_ARGUMENT, rs)
  | Some v =>
      if negb drop_value then Some (- INVALID_ARGUMENT, rs)
      else
        let* r := lock_ref h rs in
        match r with
        | Err _ => Some (- STATUS_INVALID_HANDLE, rw_drop [v] rs)
        | Ok (l, inner) =>
            if negb (bool_decide (guards inner !! g = Some Write))
            then Some (- STATUS_INVALID_HANDLE, rw_drop [v] rs)
            else Some (0, rw_drop [rw_payload inner] (put_lock l (set_payload v inner) rs))
        end
  end.

Definition rwlock_guard_unlock (inner : AsyncRwLockInner) (g : Z) (expected : RwLockGuardKind)
    : Z * AsyncRwLockInner :=
  if negb (bool_decide (guards inner !! g = Some expected)) then (- STATUS_INVALID_HANDLE, inner)
  else
    (0, mkRw
      (match expected with Read => (readers inner - 1)%nat | Write => readers inner end)
      (match expected with Read => writer inner | Write => false end)
      (rw_closed inner) (next_guard_id inner) (next_waiter_id inner) (delete g (guards inner))
      (waiters inner) (waiter_queue inner) (rw_payload inner) (rw_descriptor inner)).

Definition guard_unlock (expected : RwLockGuardKind) (h g : Z) rs : option (Z * RwStore) :=
  let* r := lock_ref h rs in
  match r with
  | Err _ => Some (- STATUS_INVALID_HANDLE, rs)
  | Ok (l, inner) =>
      let '(code, inner') := rwlock_guard_unlock inner g expected in Some (code, put_lock l inner' rs)
  end.

Definition sengoo_async_rwlock_read_guard_unlock := guard_unlock Read.
Definition sengoo_async_rwlock_write_guard_unlock := guard_unlock Write.

(** *** The [i64] interface *)

Section i64.
Context (i64_of : P -> Z) (of_i64 : Z -> P).

Definition scalar_i64_descriptor : SengooTypeDescriptor :=
  mkDescriptor SENGOO_COLLECTIONS_ABI_VERSION 8 8 true true.

Definition sengoo_async_rwlock_new_i64 (value : Z) (alloc_ok : bool) : RwStore -> option (Z * RwStore) :=
  sengoo_async_rwlock_new (Some scalar_i64_descriptor) (Some (of_i64 value)) alloc_ok.

Definition guard_get_i64 (expected : RwLockGuardKind) (h g : Z) rs : option Z :=
  let* (code, out) := guard_copy_into expected h g false 8 rs in
  Some (if code =? 0 then match out with Some p => i64_of p | None => 0 end else 0).

Definition sengoo_async_rwlock_read_guard_get_i64 := guard_get_i64 Read.
Definition sengoo_async_rwlock_write_guard_get_i64 := guard_get_i64 Write.

Definition sengoo_async_rwlock_write_guard_set_i64 (h g value : Z) : RwStore -> option (Z * RwStore) :=
  sengoo_async_rwlock_write_guard_set h g (Some (of_i64 value)) true.
End i64.

Definition sengoo_async_rwlock_try_read_i64 := sengoo_async_rwlock_try_read.
Definition sengoo_async_rwlock_try_write_i64 := sengoo_async_rwlock_try_write.
Definition sengoo_async_rwlock_read_i64__start := sengoo_async_rwlock_read__start.
Definition sengoo_async_rwlock_write_i64__start := sengoo_async_rwlock_write__start.
Definition sengoo_async_rwlock_read_i64__poll := sengoo_async_rwlock_read__poll.
Definition sengoo_async_rwlock_write_i64__poll := sengoo_async_rwlock_write__poll.
Definition sengoo_async_rwlock_read_i64__result := sengoo_async_rwlock_read__result.
Definition sengoo_async_rwlock_write_i64__result := sengoo_async_rwlock_write__result.
Definition sengoo_async_rwlock_read_i64__cancel := sengoo_async_rwlock_read__cancel.
Definition sengoo_async_rwlock_write_i64__cancel := sengoo_async_rwlock_write__cancel.
Definition sengoo_async_rwlock_read_i64__drop := sengoo_async_rwlock_read__drop.
Definition sengoo_async_rwlock_write_i64__drop := sengoo_async_rwlock_write__drop.
Definition sengoo_async_rwlock_read_guard_unlock_i64 := sengoo_async_rwlock_read_guard_unlock.
Definition sengoo_async_rwlock_write_guard_unlock_i64 := sengoo_async_rwlock_write_guard_unlock.

(** ** Runs *)

Inductive RwOp :=
| RwNew (d : option SengooTypeDescriptor) (value : option P) (alloc_ok : bool)
| RwNewParts (value : option P) (size align : Z) (move_value drop_value alloc_ok : bool)
| RwClose (h : Z) | RwDrop (h : Z) | RwTryRead (h : Z) | RwTryWrite (h : Z)
| RwStart (kind : RwLockGuardKind) (h : Z) | RwPoll (kind : RwLockGuardKind) (h : Z)
| RwResult (kind : RwLockGuardKind) (h : Z) | RwCancel (kind : RwLockGuardKind) (h : Z)
| RwAcquireDrop (kind : RwLockGuardKind) (h : Z)
| RwUnlock (kind : RwLockGuardKind) (h g : Z)
| RwGuardSet (h g : Z) (value : option P) (drop_value : bool).

Definition rw_exec (op : RwOp) rs : option RwStore :=
  match op with
  | RwNew d v a => snd <$> sengoo_async_rwlock_new d v a rs
  | RwNewParts v s al m d a => snd <$> sengoo_async_rwlock_new_parts v s al m d a rs
  | RwClose h => snd <$> sengoo_async_rwlock_close h rs
  | RwDrop h => snd <$> sengoo_async_rwlock_drop h rs
  | RwTryRead h => snd <$> sengoo_async_rwlock_try_read h rs
  | RwTryWrite h => snd <$> sengoo_async_rwlock_try_write h rs
  | RwStart k h => snd <$> rwlock_start k h rs
  | RwPoll k h => snd <$> rwlock_poll k h rs
  | RwResult k h => snd <$> rwlock_acquire_result k h rs
  | RwCancel k h => snd <$> rwlock_acquire_cancel k h rs
  | RwAcquireDrop k h => snd <$> rwlock_acquire_drop k h rs
  | RwUnlock k h g => snd <$> guard_unlock k h g rs
  | RwGuardSet h g v d => snd <$> sengoo_async_rwlock_write_guard_set h g v d rs
  end.

(** The caller's side of the contract: an acquisition is consumed by the
    functions of its own kind. *)
Definition rw_contract (op : RwOp) rs : bool :=
  match op with
  | RwResult k h | RwCancel k h | RwAcquireDrop k h =>
      match rw_objs rs !! h with Some (OAcquire _ kind _ _ _) => bool_decide (kind = k) | _ => true end
  | _ => true
  end.
End rwlock.

Arguments AsyncRwLockInner : clear implicits.
Arguments RwStore : clear implicits.
Arguments RwOp : clear implicits.
