(* ===== verification/RwLockInv.v ===== *)
(** Correctness of the reader/writer lock of RwLock.v: exclusion, fairness
    towards writers, progress, fresh ids and ownership of the payload. *)

From S2P Require Import Prelude Channel ChannelInv RwLock.

Local Open Scope Z_scope.

(** ** Ids *)

(** Where the allocation loop is after [n] candidates. *)
Fixpoint candidate (n : nat) (next : Z) : Z :=
  match n with
  | O => Z.max next 1
  | S n' => candidate n' (if Z.max next 1 =? i64_max then 1 else Z.max next 1 + 1)
  end.

(** In closed form: the candidates go round the positive [i64]s. *)
Lemma candidate_mod n next : Z.max next 1 <= i64_max ->
  candidate n next = (Z.max next 1 - 1 + Z.of_nat n) mod i64_max + 1.
Proof.
  assert (0 < i64_max) by done.
  revert next. induction n as [|n IH]; intros next Hn; cbn [candidate].
  - rewrite Z.mod_small by lia. lia.
  - rewrite IH by (case_match; lia). destruct (Z.eqb_spec (Z.max next 1) i64_max) as [E|E].
    + rewrite E. replace (i64_max - 1 + Z.of_nat (S n)) with (Z.of_nat n + 1 * i64_max) by lia.
      rewrite Z.mod_add by lia. done.
    + f_equal; f_equal; lia.
Qed.

Lemma candidate_inj n m next : Z.max next 1 <= i64_max -> Z.of_nat n < i64_max -> Z.of_nat m < i64_max ->
  candidate n next = candidate m next -> n = m.
Proof.
  intros Hn H1 H2. rewrite !candidate_mod by done. intros E.
  assert (0 < i64_max) by done. set (c := Z.max next 1 - 1) in *.
  pose proof (Z.div_mod (c + Z.of_nat n) i64_max ltac:(lia)) as D1.
  pose proof (Z.div_mod (c + Z.of_nat m) i64_max ltac:(lia)) as D2.
  set (q1 := (c + Z.of_nat n) / i64_max) in *. set (q2 := (c + Z.of_nat m) / i64_max) in *.
  assert (Z.of_nat n - Z.of_nat m = i64_max * (q1 - q2)) as D by lia. clear D1 D2 E.
  assert (q1 - q2 = 0) by nia. nia.
Qed.

Lemma allocate_id_spec {A} n (used : gmap Z A) next : Z.max next 1 <= i64_max ->
  match allocate_id n used next with
  | Some (id, next') => 0 < id /\ used !! id = None /\ 0 < next' <= i64_max
  | None => forall m, (m < n)%nat -> is_Some (used !! candidate m next)
  end.
Proof.
  revert next. induction n as [|n IH]; intros next Hn; cbn [allocate_id]; [intros; lia|].
  destruct (used !! Z.max next 1) as [x|] eqn:E; simpl.
  - specialize (IH (if Z.max next 1 =? i64_max then 1 else Z.max next 1 + 1)).
    assert (0 < i64_max) by done.
    destruct (allocate_id n used _) as [[id next']|]; [apply IH; case_match; lia|].
    intros [|m] Hm; cbn [candidate]; [by rewrite E|]. apply IH; [case_match; lia|lia].
  - split_and!; [lia|done|case_match; lia|case_match; [done|lia]].
Qed.

(** The loop ends within one more candidate than there are ids in use. *)
Lemma allocate_id_total {A} (used : gmap Z A) next : Z.max next 1 <= i64_max ->
  Z.of_nat (size used) < i64_max -> is_Some (allocate_id (S (size used)) used next).
Proof.
  intros Hn Hs. pose proof (allocate_id_spec (S (size used)) used next Hn) as H.
  destruct (allocate_id _ used next); [done|]. exfalso.
  set (cs := map (fun m => candidate m next) (seq 0 (S (size used)))).
  assert (HN : NoDup cs).
  { apply NoDup_fmap_2_strong; [|apply NoDup_seq]. intros m m' Hm%elem_of_seq Hm'%elem_of_seq.
    apply candidate_inj; lia. }
  assert (Hsub : list_to_set cs ⊆ (dom used : gset Z)).
  { intros c. rewrite elem_of_list_to_set. intros (m & -> & Hm)%list_elem_of_fmap.
    apply elem_of_seq in Hm. apply elem_of_dom, H. lia. }
  apply subseteq_size in Hsub. rewrite size_list_to_set in Hsub by done.
  rewrite size_dom in Hsub. unfold cs in Hsub. rewrite length_map, length_seq in Hsub. lia.
Qed.

(** ** Counting guards *)

Definition holders (k : RwLockGuardKind) (m : gmap Z RwLockGuardKind) : nat :=
  size (filter (fun kv => kv.2 = k) m).

Lemma holders_insert k k' g m : m !! g = None ->
  holders k (<[g := k']> m) = ((if decide (k' = k) then 1 else 0) + holders k m)%nat.
Proof.
  intros E. unfold holders. case_decide as Hk.
  - rewrite map_filter_insert_True by done. rewrite map_size_insert_None; [done|].
    apply map_lookup_filter_None. by left.
  - rewrite map_filter_insert_False by done. by rewrite delete_id.
Qed.

Lemma holders_delete k k' g m : m !! g = Some k' ->
  holders k m = ((if decide (k' = k) then 1 else 0) + holders k (delete g m))%nat.
Proof.
  intros E. rewrite <- (insert_delete_id m g k' E) at 1. apply holders_insert, lookup_delete_eq.
Qed.

Lemma holders_zero k m : holders k m = 0%nat -> forall g, m !! g <> Some k.
Proof.
  unfold holders. intros E%map_size_empty_inv g Hg.
  assert (H : filter (fun kv => kv.2 = k) m !! g = Some k) by (by apply map_lookup_filter_Some).
  by rewrite E in H.
Qed.

Section invariant.
Context {P : Type}.
Implicit Types (rs : RwStore P) (i : AsyncRwLockInner P).

(** ** One lock *)

Record lock_ok i : Prop := {
  lk_readers : readers i = holders Read (guards i);
  lk_writer : holders Write (guards i) = (if writer i then 1 else 0)%nat;
  lk_excl : writer i = true -> readers i = 0%nat;
  lk_queue : NoDup (waiter_queue i);
  lk_dom : forall w, w ∈ waiter_queue i <-> is_Some (waiters i !! w);
  lk_ids : forall g, is_Some (guards i !! g) -> 0 < g;
  lk_next_guard : Z.max (next_guard_id i) 1 <= i64_max;
  lk_next_waiter : Z.max (next_waiter_id i) 1 <= i64_max;
}.

(** Everything but the guards and the counter of their ids. *)
Definition same_but_guards i i' : Prop :=
  rw_closed i' = rw_closed i /\ waiters i' = waiters i /\ waiter_queue i' = waiter_queue i /\
  rw_payload i' = rw_payload i /\ rw_descriptor i' = rw_descriptor i.

(** Everything but the waiters and the counter of their ids. *)
Definition same_but_waiters i i' : Prop :=
  rw_closed i' = rw_closed i /\ guards i' = guards i /\ readers i' = readers i /\ writer i' = writer i /\
  rw_payload i' = rw_payload i /\ rw_descriptor i' = rw_descriptor i.

Lemma fresh_lock_ok p d : lock_ok (mkRw 0 false false 1 1 ∅ ∅ [] p d).
Proof.
  split; cbn [readers writer guards waiters waiter_queue next_guard_id next_waiter_id]; try done.
  - by apply NoDup_nil_2.
  - intros w. rewrite lookup_empty. split; [by intros ?%not_elem_of_nil|by intros []].
  - intros g. rewrite lookup_empty. by intros [].
Qed.

Lemma acquire_ok k i g i' : lock_ok i -> rwlock_acquire_guard k i = Some (g, i') ->
  writer i = false -> (k = Write -> readers i = 0%nat) ->
  lock_ok i' /\ same_but_guards i i' /\ guards i !! g = None /\ guards i' = <[g := k]> (guards i) /\ 0 < g.
Proof.
  intros [Hr Hw He Hq Hd Hi Hg Hn]. unfold rwlock_acquire_guard, allocate_rwlock_guard_id.
  pose proof (allocate_id_spec (S (size (guards i))) (guards i) (next_guard_id i) Hg) as Ha.
  destruct (allocate_id _ _ _) as [[id next']|]; [|done]. destruct Ha as (Hpos & Hfree & Hnext).
  intros [= <- <-] Hw0 Hr0. cbn [readers writer guards waiters waiter_queue].
  split_and!; try done. split; cbn; try done.
  - rewrite holders_insert by done. destruct k; simpl; lia.
  - rewrite holders_insert by done. rewrite Hw, Hw0. by destruct k.
  - destruct k; [congruence|by intros _; apply Hr0].
  - intros g' [x Hx]. apply lookup_insert_Some in Hx as [[<- _]|[_ Hx]]; [done|by apply Hi].
  - lia.
Qed.

Lemma acquire_total k i : lock_ok i -> Z.of_nat (size (guards i)) < i64_max ->
  is_Some (rwlock_acquire_guard k i).
Proof.
  intros Hok Hs. unfold rwlock_acquire_guard, allocate_rwlock_guard_id.
  destruct (allocate_id_total (guards i) (next_guard_id i) (lk_next_guard _ Hok) Hs) as [[id next'] ->].
  by eexists.
Qed.

Lemma register_ok k i w i' : lock_ok i -> rwlock_register_waiter k i = Some (w, i') ->
  lock_ok i' /\ same_but_waiters i i' /\ waiters i !! w = None /\ waiters i' = <[w := k]> (waiters i) /\
  waiter_queue i' = waiter_queue i ++ [w].
Proof.
  intros [Hr Hw He Hq Hd Hi Hg Hn]. unfold rwlock_register_waiter, allocate_rwlock_waiter_id.
  pose proof (allocate_id_spec (S (size (waiters i))) (waiters i) (next_waiter_id i) Hn) as Ha.
  destruct (allocate_id _ _ _) as [[id next']|]; [|done]. destruct Ha as (Hpos & Hfree & Hnext).
  intros [= <- <-]. cbn. split_and!; try done. split; cbn; try done.
  - apply NoDup_app. split_and!; [done| |apply NoDup_singleton].
    intros w Hw' ->%list_elem_of_singleton. apply Hd in Hw' as [x Hx]. congruence.
  - intros w. rewrite elem_of_app, list_elem_of_singleton, Hd. destruct (decide (w = id)) as [->|].
    + rewrite lookup_insert_eq. split; [by eexists|by right].
    + rewrite lookup_insert_ne by done. split; [by intros [|]|by left].
  - lia.
Qed.

Lemma elem_of_remove_first w x q : NoDup q -> x ∈ remove_first w q <-> x ∈ q /\ x <> w.
Proof.
  induction 1 as [|y q Hy Hq IH]; cbn [remove_first]; [set_solver|].
  destruct (Z.eqb_spec y w) as [->|]; [|rewrite !elem_of_cons, IH; naive_solver congruence].
  rewrite elem_of_cons. split; [|naive_solver]. intros Hx. split; [by right|]. intros ->. done.
Qed.

Lemma NoDup_remove_first w q : NoDup q -> NoDup (remove_first w q).
Proof.
  induction 1 as [|y q Hy Hq IH]; cbn [remove_first]; [constructor|].
  destruct (Z.eqb_spec y w); [done|]. constructor; [|done]. rewrite elem_of_remove_first by done. naive_solver.
Qed.

Lemma unregister_ok w k i : lock_ok i -> waiters i !! w = Some k ->
  let i' := (rwlock_unregister_waiter w i).2 in
  lock_ok i' /\ same_but_waiters i i' /\ waiters i' = delete w (waiters i) /\
  waiter_queue i' = remove_first w (waiter_queue i).
Proof.
  intros [Hr Hw He Hq Hd Hi Hg Hn] E. unfold rwlock_unregister_waiter. rewrite E. cbn.
  split_and!; try done. split; cbn; try done; [by apply NoDup_remove_first|].
  intros x. rewrite elem_of_remove_first, Hd by done. destruct (decide (x = w)) as [->|].
  - rewrite lookup_delete_eq. split; [naive_solver|by intros []].
  - rewrite lookup_delete_ne by done. naive_solver.
Qed.

Lemma unlock_ok i g k code i' : lock_ok i -> rwlock_guard_unlock i g k = (code, i') ->
  lock_ok i' /\ same_but_guards i i' /\ (guards i' = guards i \/ guards i !! g = Some k /\ guards i' = delete g (guards i)).
Proof.
  intros Hok. unfold rwlock_guard_unlock. case_bool_decide as E; simpl; intros [= <- <-];
    [|split_and!; try done; by left].
  destruct Hok as [Hr Hw He Hq Hd Hi Hg Hn]. split_and!; try done; [|by right]. split; cbn; try done.
  - rewrite (holders_delete Read k g _ E) in Hr. destruct k; simpl in Hr; lia.
  - rewrite (holders_delete Write k g _ E) in Hw. destruct k; simpl in Hw; [done|]. destruct (writer i); lia.
  - destruct k; [|done]. intros Hwr. rewrite (He Hwr). lia.
  - intros g' Hg'. apply Hi. destruct Hg' as [x Hx]. apply lookup_delete_Some in Hx as [_ Hx]. by eexists.
Qed.

Lemma first_waiter_head i : lock_ok i -> rwlock_first_waiter_id i = head (waiter_queue i).
Proof.
  intros Hok. unfold rwlock_first_waiter_id. pose proof (lk_dom _ Hok) as Hd.
  destruct (waiter_queue i) as [|w q]; [done|]. cbn [find].
  destruct (proj1 (Hd w) ltac:(by left)) as [k ->]. done.
Qed.

Lemma has_waiting_writer_spec i : rwlock_has_waiting_writer i = true <-> exists w, waiters i !! w = Some Write.
Proof.
  unfold rwlock_has_waiting_writer. rewrite existsb_exists. split.
  - intros ([w k] & Hin & Hk%bool_decide_eq_true). simpl in Hk. subst.
    exists w. by apply elem_of_map_to_list, list_elem_of_In.
  - intros [w Hw]. exists (w, Write). split; [|done]. by apply list_elem_of_In, elem_of_map_to_list.
Qed.

(** ** The store *)

(** The acquisition behind [h] waits for lock [l] as waiter [w]. *)
Definition waits rs (h : Z) (l : nat) (k : RwLockGuardKind) (w : Z) : Prop :=
  rw_objs rs !! h = Some (OAcquire l k 0 None (Some w)).

Record rw_wf rs : Prop := {
  wf_lock : forall l i, locks rs !! l = Some i -> lock_ok i;
  wf_ref : forall h o, rw_objs rs !! h = Some o -> is_Some (locks rs !! lock_of o);
  wf_owned : forall l, is_Some (locks rs !! l) -> exists h o, rw_objs rs !! h = Some o /\ lock_of o = l;
  wf_pending : forall h l k life o w, rw_objs rs !! h = Some (OAcquire l k life o (Some w)) -> life = 0 /\ o = None;
  wf_waiters : forall l i w k, locks rs !! l = Some i ->
    (waiters i !! w = Some k <-> exists h, waits rs h l k w);
  wf_unique : forall h h' l k k' w, waits rs h l k w -> waits rs h' l k' w -> h = h';
  wf_handles : forall h, h <= 0 \/ rw_next_handle rs <= h -> rw_objs rs !! h = None;
  wf_positive : 0 < rw_next_handle rs;
  wf_next_lock : forall l, (rw_next_lock rs <= l)%nat -> locks rs !! l = None;
}.

Lemma rw_init_wf : rw_wf (@rw_init P).
Proof.
  split; cbn; try done; intros *; rewrite ?lookup_empty; try done.
Qed.

Lemma wf_drop ps rs : rw_wf rs -> rw_wf (rw_drop ps rs).
Proof. intros []. by split. Qed.

(** A lock changes, its waiters and their acquisitions do not. *)
Lemma wf_put_lock l i i' rs : rw_wf rs -> locks rs !! l = Some i -> lock_ok i' -> waiters i' = waiters i ->
  rw_wf (put_lock l i' rs).
Proof.
  intros [H1 H2 H3 H4 H5 H6 H7 H8 H9] E Hok Hw. split; cbn; try done.
  - intros l0 i0. rewrite lookup_insert_Some. intros [[<- <-]|[_ ?]]; [done|by eapply H1].
  - intros h o Ho. rewrite lookup_insert_is_Some'. right. by eapply H2.
  - intros l0. rewrite lookup_insert_is_Some'. intros [<-|Hl]; apply H3; [by eexists|done].
  - intros l0 i0 w k. rewrite lookup_insert_Some. intros [[<- <-]|[_ Hl]]; [|by apply H5].
    rewrite Hw. by apply H5.
  - intros l0 Hl0. rewrite lookup_insert_ne; [by apply H9|]. intros ->. rewrite H9 in E; done.
Qed.

(** An acquisition and its lock change together. *)
Lemma rw_wf_settle l i i' h k life o w life' o' w' rs :
  rw_wf rs -> locks rs !! l = Some i -> rw_objs rs !! h = Some (OAcquire l k life o w) -> lock_ok i' ->
  (forall v k', waiters i' !! v = Some k' <-> (waiters i !! v = Some k' /\ w <> Some v) \/ (w' = Some v /\ k' = k)) ->
  (forall v, w' = Some v -> life' = 0 /\ o' = None /\ (waiters i !! v = None \/ w = Some v)) ->
  rw_wf (rw_put h (OAcquire l k life' o' w') (put_lock l i' rs)).
Proof.
  intros [H1 H2 H3 H4 H5 H6 H7 H8 H9] E Eh Hok Hw Hw'.
  assert (Hcase : forall h0 l0 k0 v, waits (rw_put h (OAcquire l k life' o' w') (put_lock l i' rs)) h0 l0 k0 v <->
    (h0 = h /\ l0 = l /\ k0 = k /\ w' = Some v) \/ (h0 <> h /\ waits rs h0 l0 k0 v)).
  { intros h0 l0 k0 v. unfold waits. cbn. rewrite lookup_insert_Some. split.
    - intros [[<- [= -> -> -> -> ->]]|[? ?]]; [by left|by right].
    - intros [(-> & -> & -> & Ev)|[? ?]]; [|by right]. left. destruct (Hw' v Ev) as (-> & -> & _). by rewrite Ev. }
  split; cbn [rw_put put_lock locks rw_objs rw_next_handle rw_next_lock]; try done.
  - intros l0 i0. rewrite lookup_insert_Some. intros [[<- <-]|[_ ?]]; [done|by eapply H1].
  - intros h0 o0. rewrite lookup_insert_is_Some', lookup_insert_Some. intros [[<- <-]|[_ Ho]]; [by left|].
    right. by eapply H2.
  - intros l0. rewrite lookup_insert_is_Some'. intros Hl.
    assert (exists h0 o0, rw_objs rs !! h0 = Some o0 /\ lock_of o0 = l0) as (h0 & o0 & Ho & El)
      by (destruct Hl as [<-|Hl]; apply H3; [by eexists|done]).
    destruct (decide (h = h0)) as [<-|].
    + exists h. eexists. rewrite lookup_insert_eq. split; [done|]. rewrite Eh in Ho. injection Ho as <-. done.
    + exists h0, o0. by rewrite lookup_insert_ne.
  - intros h0 l0 k0 life0 o0 v. rewrite lookup_insert_Some. intros [[<- [= -> -> -> -> ->]]|[_ Ho]]; [|by eapply H4].
    destruct (Hw' v eq_refl) as (-> & -> & _). done.
  - intros l0 i0 v k0. rewrite lookup_insert_Some. intros Hl. setoid_rewrite Hcase. destruct Hl as [[<- <-]|[Hne Hl]].
    + rewrite Hw, (H5 l i v k0 E). split.
      * intros [[[h0 Hh0] Hne]|[-> ->]]; [|by exists h; left]. exists h0. right. split; [|done].
        intros ->. unfold waits in Hh0. rewrite Eh in Hh0. congruence.
      * intros [h0 [(-> & _ & -> & Ev)|[Hne Hh0]]]; [by right|]. left. split; [by exists h0|].
        intros ->. apply Hne. apply (H6 h0 h l k0 k v Hh0). destruct (H4 _ _ _ _ _ _ Eh) as [-> ->]. done.
    + rewrite (H5 l0 i0 v k0 Hl). split.
      * intros [h0 Hh0]. exists h0. right. split; [|done]. intros ->. unfold waits in Hh0. rewrite Eh in Hh0. congruence.
      * intros [h0 [(_ & -> & _)|[_ Hh0]]]; [done|by exists h0].
  - intros h0 h1 l0 k0 k1 v. rewrite !Hcase.
    assert (Hsame : forall h2 k2, w' = Some v -> h2 <> h -> waits rs h2 l k2 v -> False).
    { intros h2 k2 Ev Hne Hh2. destruct (Hw' v Ev) as (_ & _ & [Hnone| ->]).
      - assert (waiters i !! v = Some k2) as Hs by (apply (H5 l i v k2 E); by exists h2). congruence.
      - apply Hne. apply (H6 h2 h l k2 k v Hh2). destruct (H4 _ _ _ _ _ _ Eh) as [-> ->]. done. }
    intros [(-> & -> & -> & Ev)|[Hn0 Hh0]] [(-> & ? & -> & Ev')|[Hn1 Hh1]]; try done.
    + exfalso. by eapply Hsame.
    + subst. exfalso. by eapply Hsame.
    + by eapply H6.
  - intros h0 Hh0. rewrite lookup_insert_ne; [by apply H7|]. intros ->. rewrite H7 in Eh; done.
  - intros l0 Hl0. rewrite lookup_insert_ne; [by apply H9|]. intros ->. rewrite H9 in E; done.
Qed.

Lemma referenced_spec l (m : gmap Z RwObj) :
  referenced l m = true <-> exists h o, m !! h = Some o /\ lock_of o = l.
Proof.
  unfold referenced. rewrite existsb_exists. split.
  - intros ([h o] & Hin & E%Nat.eqb_eq). exists h, o. split; [|done]. by apply elem_of_map_to_list, list_elem_of_In.
  - intros (h & o & Ho & E). exists (h, o). split; [by apply list_elem_of_In, elem_of_map_to_list|].
    by apply Nat.eqb_eq.
Qed.

Definition idle (o : RwObj) : Prop := match o with OAcquire _ _ _ _ (Some _) => False | _ => True end.

Lemma idle_waits rs h o l k w : rw_objs rs !! h = Some o -> idle o -> ~ waits rs h l k w.
Proof. unfold waits. intros E Hi Hw. rewrite E in Hw. injection Hw as ->. done. Qed.

Lemma rw_wf_free h o rs : rw_wf rs -> rw_objs rs !! h = Some o -> idle o -> rw_wf (rw_free h (lock_of o) rs).
Proof.
  intros [H1 H2 H3 H4 H5 H6 H7 H8 H9] Eh Hidle. unfold rw_free.
  destruct (H2 h o Eh) as [i Ei]. rewrite Ei.
  assert (Hw : forall h0 l k v, rw_objs rs !! h0 = Some (OAcquire l k 0 None (Some v)) ->
    delete h (rw_objs rs) !! h0 = Some (OAcquire l k 0 None (Some v))).
  { intros h0 l k v Hh0. rewrite lookup_delete_ne; [done|]. intros ->. by apply (idle_waits rs h0 o l k v). }
  destruct (referenced _ _) eqn:Hr; cbn [rw_drop locks rw_objs rw_next_handle rw_next_lock rw_calls].
  - apply referenced_spec in Hr as (h1 & o1 & Hh1 & Hl1).
    split; cbn; try done.
    + intros h0 o0 [_ Ho]%lookup_delete_Some. by eapply H2.
    + intros l0 Hl0. destruct (H3 l0 Hl0) as (h0 & o0 & Ho & El). destruct (decide (h = h0)) as [<-|].
      * exists h1, o1. split; [done|]. rewrite Eh in Ho. injection Ho as <-. congruence.
      * exists h0, o0. by rewrite lookup_delete_ne.
    + intros h0 l0 k life o0 w [_ Ho]%lookup_delete_Some. by eapply H4.
    + intros l0 i0 w k Hl. rewrite (H5 l0 i0 w k Hl). unfold waits. cbn. split; intros [h0 Hh0]; exists h0;
        [by apply Hw|by apply lookup_delete_Some in Hh0 as [_ ?]].
    + intros h0 h0' l k k' w. unfold waits. cbn. intros [_ Ha]%lookup_delete_Some [_ Hb]%lookup_delete_Some.
      by eapply H6.
    + intros h0 Hh0. apply lookup_delete_None. right. by apply H7.
  - assert (Hnone : forall h0 o0, delete h (rw_objs rs) !! h0 = Some o0 -> lock_of o0 <> lock_of o).
    { intros h0 o0 Ho El. assert (referenced (lock_of o) (delete h (rw_objs rs)) = true) as Ht
        by (apply referenced_spec; by exists h0, o0). by rewrite Hr in Ht. }
    split; cbn; try done.
    + intros l0 i0 [_ Hl]%lookup_delete_Some. by eapply H1.
    + intros h0 o0 Ho. pose proof (Hnone h0 o0 Ho). rewrite lookup_delete_ne by congruence.
      apply lookup_delete_Some in Ho as [_ Ho]. by eapply H2.
    + intros l0 [x [Hne Hl0]%lookup_delete_Some]. destruct (H3 l0 ltac:(by eexists)) as (h0 & o0 & Ho & El).
      exists h0, o0. rewrite lookup_delete_ne; [done|]. intros ->. rewrite Eh in Ho. injection Ho as <-. done.
    + intros h0 l0 k life o0 w [_ Ho]%lookup_delete_Some. by eapply H4.
    + intros l0 i0 w k [Hne Hl]%lookup_delete_Some. rewrite (H5 l0 i0 w k Hl). unfold waits. cbn.
      split; intros [h0 Hh0]; exists h0; [by apply Hw|by apply lookup_delete_Some in Hh0 as [_ ?]].
    + intros h0 h0' l k k' w. unfold waits. cbn. intros [_ Ha]%lookup_delete_Some [_ Hb]%lookup_delete_Some.
      by eapply H6.
    + intros h0 Hh0. apply lookup_delete_None. right. by apply H7.
    + intros l0 Hl0. apply lookup_delete_None. right. by apply H9.
Qed.

(** A new box that does not wait. *)
Lemma rw_wf_new o rs : rw_wf rs -> is_Some (locks rs !! lock_of o) -> idle o -> rw_wf (rw_new o rs).2.
Proof.
  intros [H1 H2 H3 H4 H5 H6 H7 H8 H9] Hl Hidle.
  pose proof (H7 (rw_next_handle rs) ltac:(lia)) as Hfree.
  assert (Hw : forall h l k v, <[rw_next_handle rs := o]> (rw_objs rs) !! h = Some (OAcquire l k 0 None (Some v)) <->
    rw_objs rs !! h = Some (OAcquire l k 0 None (Some v))).
  { intros h l k v. rewrite lookup_insert_Some. split.
    - intros [[_ ->]|[_ ?]]; done.
    - intros E. right. split; [|done]. intros <-. congruence. }
  split; cbn; try done.
  - intros h o0. rewrite lookup_insert_Some. intros [[_ <-]|[_ Ho]]; [done|by eapply H2].
  - intros l Hl0. destruct (H3 l Hl0) as (h & o0 & Ho & El). exists h, o0. split; [|done].
    rewrite lookup_insert_ne; [done|]. intros <-. congruence.
  - intros h l k life o0 w. rewrite lookup_insert_Some. intros [[_ ->]|[_ Ho]]; [done|by eapply H4].
  - intros l i w k Hli. rewrite (H5 l i w k Hli). unfold waits. cbn. by setoid_rewrite Hw.
  - intros h h' l k k' w. unfold waits. cbn. rewrite !Hw. apply H6.
  - intros h Hh. rewrite lookup_insert_ne by lia. apply H7. lia.
  - lia.
Qed.

Lemma wf_add_lock p d rs : rw_wf rs ->
  rw_wf (rw_new (OLock (rw_next_lock rs))
    (mkRwStore (<[rw_next_lock rs := mkRw 0 false false 1 1 ∅ ∅ [] p d]> (locks rs)) (rw_objs rs)
       (S (rw_next_lock rs)) (rw_next_handle rs) (rw_calls rs))).2.
Proof.
  intros [H1 H2 H3 H4 H5 H6 H7 H8 H9].
  pose proof (H9 (rw_next_lock rs) ltac:(lia)) as Hfree.
  pose proof (H7 (rw_next_handle rs) ltac:(lia)) as Hfreeh.
  assert (Hw : forall h l k v, <[rw_next_handle rs := OLock (rw_next_lock rs)]> (rw_objs rs) !! h =
      Some (OAcquire l k 0 None (Some v)) <-> rw_objs rs !! h = Some (OAcquire l k 0 None (Some v))).
  { intros h l k v. rewrite lookup_insert_Some. split; [by intros [[_ ?]|[_ ?]]|].
    intros E. right. split; [|done]. intros <-. congruence. }
  split; cbn; try done.
  - intros l i. rewrite lookup_insert_Some. intros [[<- <-]|[_ ?]]; [apply fresh_lock_ok|by eapply H1].
  - intros h o. rewrite lookup_insert_Some, lookup_insert_is_Some'. intros [[_ <-]|[_ Ho]]; [by left|].
    right. by eapply H2.
  - intros l. rewrite lookup_insert_is_Some'. intros [<-|Hl].
    + eexists _, _. by rewrite lookup_insert_eq.
    + destruct (H3 l Hl) as (h & o & Ho & El). exists h, o. split; [|done].
      rewrite lookup_insert_ne; [done|]. intros <-. congruence.
  - intros h l k life o w. rewrite lookup_insert_Some. intros [[_ ?]|[_ Ho]]; [done|by eapply H4].
  - intros l i w k. rewrite lookup_insert_Some. unfold waits. cbn. setoid_rewrite Hw. intros [[<- <-]|[_ Hl]].
    + cbn. rewrite lookup_empty. split; [done|]. intros [h Hh]. apply H2 in Hh. simpl in Hh. rewrite Hfree in Hh.
      by destruct Hh.
    + by apply H5.
  - intros h h' l k k' w. unfold waits. cbn. rewrite !Hw. apply H6.
  - intros h Hh. rewrite lookup_insert_ne by lia. apply H7. lia.
  - lia.
  - intros l Hl. rewrite lookup_insert_ne by lia. apply H9. lia.
Qed.

(** ** Operations *)

Lemma lock_ref_inv h rs l i : lock_ref h rs = Some (Ok (l, i)) ->
  h <> 0 /\ rw_objs rs !! h = Some (OLock l) /\ locks rs !! l = Some i.
Proof.
  unfold lock_ref. destruct (Z.eqb_spec h 0) as [|Hh]; [done|].
  destruct (rw_objs rs !! h) as [[l'|]|] eqn:E; try done.
  destruct (locks rs !! l') as [i'|] eqn:E'; [|done]. intros [= <- <-]. done.
Qed.

Lemma put_lock_same l i rs : locks rs !! l = Some i -> put_lock l i rs = rs.
Proof. intros E. destruct rs. unfold put_lock. cbn in *. by rewrite insert_id. Qed.

Lemma enter_idle life a : lifecycle_enter life = Ok a -> life = 0.
Proof. unfold lifecycle_enter. destruct (Z.eqb_spec life 0); [done|]. by case_match. Qed.

(** What one poll of a pending acquisition can do to it and to its lock. *)
Inductive poll_case i (k : RwLockGuardKind) (w : option Z) : Z -> option Z -> option Z -> AsyncRwLockInner P -> Prop :=
| pc_closed : rw_closed i = true ->
    poll_case i k w 1 (Some (- STATUS_INVALID_HANDLE)) None
      (match w with Some w => (rwlock_unregister_waiter w i).2 | None => i end)
| pc_granted_waiter w0 g i' : rw_closed i = false -> w = Some w0 -> rwlock_waiter_can_acquire i w0 = true ->
    rwlock_acquire_guard k (rwlock_unregister_waiter w0 i).2 = Some (g, i') ->
    poll_case i k w 1 (Some g) None i'
| pc_still_waiting w0 : w = Some w0 -> poll_case i k w 0 None (Some w0) i
| pc_granted_now g i' : rw_closed i = false -> w = None -> can_acquire_now k i = true ->
    rwlock_acquire_guard k i = Some (g, i') -> poll_case i k w 1 (Some g) None i'
| pc_registered w0 i' : w = None -> rwlock_register_waiter k i = Some (w0, i') ->
    poll_case i k w 0 None (Some w0) i'.

Lemma poll_inv h l k life o w r rs rs' :
  rwlock_acquire_poll h l k life o w rs = Some (r, rs') ->
  rs' = rs \/ (life = 0 /\ is_Some o /\ rs' = rw_put h (OAcquire l k 2 o w) rs /\ r = 1) \/
  exists i o' w' i', life = 0 /\ o = None /\ locks rs !! l = Some i /\ poll_case i k w r o' w' i' /\
    rs' = rw_put h (OAcquire l k (if r =? 1 then 2 else 0) o' w') (put_lock l i' rs).
Proof.
  unfold rwlock_acquire_poll. destruct (lifecycle_enter life) eqn:El; [|intros [= _ <-]; by left].
  apply enter_idle in El as ->. destruct o as [x|]; simpl; [intros [= <- <-]; right; left; by eauto|].
  destruct (locks rs !! l) as [i|] eqn:E; [|done]. intros H. right; right.
  destruct (rw_closed i) eqn:Hc.
  { injection H as <- <-. eexists i, _, _, _. split_and!; [done..|by apply pc_closed|done]. }
  destruct w as [w|].
  - destruct (rwlock_waiter_can_acquire i w) eqn:Hcan.
    + destruct (rwlock_acquire_guard k _) as [[g i']|] eqn:Ea; [|done]. injection H as <- <-.
      eexists i, _, _, _. split_and!; [done..|by eapply pc_granted_waiter|done].
    + injection H as <- <-. eexists i, _, _, _. split_and!; [done..|by apply (pc_still_waiting _ _ _ w)|].
      by rewrite put_lock_same.
  - destruct (can_acquire_now k i) eqn:Hcan.
    + destruct (rwlock_acquire_guard k i) as [[g i']|] eqn:Ea; [|done]. injection H as <- <-.
      eexists i, _, _, _. split_and!; [done..|by eapply pc_granted_now|done].
    + destruct (rwlock_register_waiter k i) as [[w0 i']|] eqn:Ea; [|done]. injection H as <- <-.
      eexists i, _, _, _. split_and!; [done..|by eapply pc_registered|done].
Qed.

Lemma can_acquire_now_free k i : can_acquire_now k i = true -> writer i = false /\ (k = Write -> readers i = 0%nat).
Proof.
  unfold can_acquire_now. destruct k; rewrite !andb_true_iff, ?negb_true_iff, ?Nat.eqb_eq; naive_solver.
Qed.

Lemma waiter_can_acquire_inv i w k : lock_ok i -> waiters i !! w = Some k -> rwlock_waiter_can_acquire i w = true ->
  head (waiter_queue i) = Some w /\ writer i = false /\ (k = Write -> readers i = 0%nat).
Proof.
  intros Hok Ew. unfold rwlock_waiter_can_acquire. rewrite Ew, first_waiter_head by done.
  case_bool_decide; [|done]. intros Hk. split; [done|].
  destruct k; [by apply negb_true_iff in Hk|]. apply andb_true_iff in Hk as [?%negb_true_iff ?%Nat.eqb_eq]. done.
Qed.

(** A poll keeps the lock sound, and the acquisition waits exactly if it is
    among the waiters afterwards. *)
Lemma poll_case_ok i k w r o' w' i' : lock_ok i -> (forall v, w = Some v -> waiters i !! v = Some k) ->
  poll_case i k w r o' w' i' ->
  lock_ok i' /\
  (forall v k', waiters i' !! v = Some k' <-> (waiters i !! v = Some k' /\ w <> Some v) \/ (w' = Some v /\ k' = k)) /\
  (forall v, w' = Some v -> r = 0 /\ o' = None /\ (waiters i !! v = None \/ w = Some v)).
Proof.
  assert (Hdel : forall (m : gmap Z RwLockGuardKind) x, m !! x = Some k -> forall v k',
    delete x m !! v = Some k' <-> (m !! v = Some k' /\ Some x <> Some v) \/ ((None : option Z) = Some v /\ k' = k)).
  { intros m x Hx v k'. rewrite lookup_delete_Some. naive_solver. }
  intros Hok Hw Hc. destruct Hc as [Hc|w0 g i' Hc -> Hcan Ha|w0 ->|g i' Hc -> Hcan Ha|w0 i' -> Hr].
  - destruct w as [w0|]; [|split_and!; try done; naive_solver].
    destruct (unregister_ok w0 k i Hok (Hw w0 eq_refl)) as (Hok' & _ & -> & _).
    split_and!; [done|by apply Hdel, Hw|done].
  - pose proof (Hw w0 eq_refl) as Ew. destruct (unregister_ok w0 k i Hok Ew) as (Hok' & Hs & Ed & _).
    destruct (waiter_can_acquire_inv i w0 k Hok Ew Hcan) as (_ & Hwr & Hrd).
    destruct Hs as (_ & _ & Sr & Sw & _).
    destruct (acquire_ok k _ g i' Hok' Ha) as (Hok'' & (_ & Ew' & _) & _); [by rewrite Sw|by rewrite Sr|].
    split_and!; [done| |done]. rewrite Ew', Ed. by apply Hdel.
  - pose proof (Hw w0 eq_refl) as Ew. split_and!; [done| |naive_solver].
    intros v k'. destruct (decide (v = w0)) as [->|]; naive_solver congruence.
  - destruct (can_acquire_now_free k i Hcan). destruct (acquire_ok k i g i' Hok Ha) as (Hok' & (_ & -> & _) & _); [done..|].
    split_and!; try done; naive_solver.
  - destruct (register_ok k i w0 i' Hok Hr) as (Hok' & _ & Hn & -> & _). split_and!; [done| |naive_solver].
    intros v k'. rewrite lookup_insert_Some. naive_solver congruence.
Qed.

Lemma waiting_in_lock rs h l i k life o w : rw_wf rs -> locks rs !! l = Some i ->
  rw_objs rs !! h = Some (OAcquire l k life o w) -> forall v, w = Some v -> waiters i !! v = Some k.
Proof.
  intros Hwf E Eh v ->. apply (wf_waiters _ Hwf l i v k E). exists h.
  by destruct (wf_pending _ Hwf _ _ _ _ _ _ Eh) as [-> ->].
Qed.

Lemma poll_wf k h rs r rs' : rw_wf rs -> rwlock_poll k h rs = Some (r, rs') -> rw_wf rs'.
Proof.
  intros Hwf. unfold rwlock_poll. destruct (h =? 0); [by intros [= _ <-]|].
  destruct (rw_objs rs !! h) as [[|l k0 life o w]|] eqn:Eh; try done.
  case_bool_decide; [|by intros [= _ <-]]. intros Hp.
  destruct (poll_inv _ _ _ _ _ _ _ _ _ Hp) as [->|[(-> & [x ->] & -> & _)|(i & o' & w' & i' & -> & -> & E & Hc & ->)]];
    [done| |].
  - destruct (wf_ref _ Hwf h _ Eh) as [i Ei]. cbn in Ei.
    destruct w as [w|]; [by destruct (wf_pending _ Hwf _ _ _ _ _ _ Eh) as [_ ?]|].
    rewrite <- (put_lock_same l i rs Ei).
    eapply (rw_wf_settle l i i h k0 0 (Some x) None); try done; [by eapply wf_lock|naive_solver].
  - destruct (poll_case_ok i k0 w r o' w' i') as (Hok & Hw & Hw'); [by eapply wf_lock|by eapply waiting_in_lock|done|].
    eapply (rw_wf_settle l i i' h k0 0 None w); try done. intros v Hv. destruct (Hw' v Hv) as (-> & -> & ?). done.
Qed.

(** Consuming an acquisition is settling it and freeing its box. *)
Lemma unregister_free rs h l k life o w i : locks rs !! l = Some i ->
  rw_free h l (unregister l w rs) =
  rw_free h l (rw_put h (OAcquire l k life o None)
    (put_lock l (match w with Some w => (rwlock_unregister_waiter w i).2 | None => i end) rs)).
Proof.
  intros E. unfold unregister. destruct w as [w|].
  - rewrite E. unfold rw_free. cbn. by rewrite (delete_insert_eq (rw_objs rs)).
  - rewrite put_lock_same by done. unfold rw_free. cbn. by rewrite (delete_insert_eq (rw_objs rs)).
Qed.

Lemma consume_wf rs h l k life o w : rw_wf rs -> rw_objs rs !! h = Some (OAcquire l k life o w) ->
  rw_wf (rw_free h l (unregister l w rs)).
Proof.
  intros Hwf Eh. destruct (wf_ref _ Hwf h _ Eh) as [i Ei]. cbn in Ei.
  pose proof (wf_lock _ Hwf l i Ei) as Hok. pose proof (waiting_in_lock rs h l i k life o w Hwf Ei Eh) as Hin.
  rewrite (unregister_free rs h l k life o w i Ei).
  apply (rw_wf_free h (OAcquire l k life o None)); [|by cbn; rewrite lookup_insert_eq|done].
  eapply (rw_wf_settle l i _ h k life o w); try done.
  - destruct w as [w|]; [|done]. by destruct (unregister_ok w k i Hok (Hin w eq_refl)).
  - intros v k'. destruct w as [w|]; [|naive_solver].
    destruct (unregister_ok w k i Hok (Hin w eq_refl)) as (_ & _ & -> & _).
    rewrite lookup_delete_Some. naive_solver.
Qed.

(** Operations on a live lock that leave its waiters alone. *)
Lemma lock_op_wf h rs l i i' : rw_wf rs -> lock_ref h rs = Some (Ok (l, i)) -> lock_ok i' ->
  waiters i' = waiters i -> rw_wf (put_lock l i' rs).
Proof. intros Hwf (_ & _ & E)%lock_ref_inv Hok Hw. by eapply wf_put_lock. Qed.

Ltac on_lock E := destruct (lock_ref _ _) as [[[l i]|[]]|] eqn:E; [| |done].

Lemma closed_ok i : lock_ok i -> lock_ok (set_closed i).
Proof. intros []. by split. Qed.

Lemma payload_ok p i : lock_ok i -> lock_ok (set_payload p i).
Proof. intros []. by split. Qed.

Lemma new_wf d v a rs r rs' : rw_wf rs -> sengoo_async_rwlock_new d v a rs = Some (r, rs') -> rw_wf rs'.
Proof.
  intros Hwf. unfold sengoo_async_rwlock_new. destruct d as [d|]; [|by intros [= _ <-]].
  destruct (owned_descriptor_value_new d v a) as [p|]; intros [= _ <-]; [by apply wf_add_lock|done].
Qed.

Lemma try_wf k h rs r rs' : rw_wf rs ->
  (if k is Read then sengoo_async_rwlock_try_read h rs else sengoo_async_rwlock_try_write h rs) = Some (r, rs') ->
  rw_wf rs'.
Proof.
  intros Hwf. destruct k.
  - unfold sengoo_async_rwlock_try_read. on_lock El; [|by intros [= _ <-]].
    destruct (rw_closed i); [by intros [= _ <-]|]. destruct (writer i) eqn:Ew; [by intros [= _ <-]|].
    destruct (rwlock_has_waiting_writer i); [by intros [= _ <-]|]. simpl.
    destruct (rwlock_acquire_guard Read i) as [[g i']|] eqn:Ea; [|done]. intros [= _ <-].
    destruct (lock_ref_inv _ _ _ _ El) as (_ & _ & E). pose proof (wf_lock _ Hwf l i E) as Hok.
    destruct (acquire_ok Read i g i' Hok Ea) as (Hok' & (_ & Hw & _) & _); [done..|]. by eapply lock_op_wf.
  - unfold sengoo_async_rwlock_try_write. on_lock El; [|by intros [= _ <-]].
    destruct (rw_closed i); [by intros [= _ <-]|]. destruct (writer i) eqn:Ew; [by intros [= _ <-]|].
    destruct (Nat.eqb_spec (readers i) 0) as [Er|]; [|by intros [= _ <-]].
    destruct (bool_decide (waiters i = ∅)); [|by intros [= _ <-]]. simpl.
    destruct (rwlock_acquire_guard Write i) as [[g i']|] eqn:Ea; [|done]. intros [= _ <-].
    destruct (lock_ref_inv _ _ _ _ El) as (_ & _ & E). pose proof (wf_lock _ Hwf l i E) as Hok.
    destruct (acquire_ok Write i g i' Hok Ea) as (Hok' & (_ & Hw & _) & _); [done..|]. by eapply lock_op_wf.
Qed.

Lemma consumed_wf k h rs (r : bool) rs' : rw_wf rs -> rw_contract (RwCancel k h) rs = true ->
  rwlock_acquire_cancel k h rs = Some (r, rs') -> rw_wf rs'.
Proof.
  intros Hwf Hk. unfold rwlock_acquire_cancel. destruct (h =? 0); [by intros [= _ <-]|].
  cbn [rw_contract] in Hk. destruct (rw_objs rs !! h) as [[|l k0 life o w]|] eqn:Eh; try done.
  rewrite Hk. intros [= _ <-]. by eapply consume_wf.
Qed.

Lemma result_as_cancel k h rs r rs' : rwlock_acquire_result k h rs = Some (r, rs') ->
  exists b, rwlock_acquire_cancel k h rs = Some (b, rs').
Proof.
  unfold rwlock_acquire_result, rwlock_acquire_cancel. destruct (h =? 0); [intros [= _ <-]; by eexists|].
  destruct (rw_objs rs !! h) as [[|l k0 life o w]|]; try done.
  case_bool_decide; intros [= _ <-]; by eexists.
Qed.

Lemma unlock_wf k h g rs r rs' : rw_wf rs -> guard_unlock k h g rs = Some (r, rs') -> rw_wf rs'.
Proof.
  intros Hwf. unfold guard_unlock. on_lock El; [|by intros [= _ <-]].
  destruct (rwlock_guard_unlock i g k) as [code i'] eqn:Eu. intros [= _ <-].
  destruct (lock_ref_inv _ _ _ _ El) as (_ & _ & E).
  destruct (unlock_ok i g k code i' (wf_lock _ Hwf l i E) Eu) as (Hok & (_ & Hw & _) & _). by eapply lock_op_wf.
Qed.

Lemma guard_set_wf h g v d rs r rs' : rw_wf rs ->
  sengoo_async_rwlock_write_guard_set h g v d rs = Some (r, rs') -> rw_wf rs'.
Proof.
  intros Hwf. unfold sengoo_async_rwlock_write_guard_set. destruct v as [v|]; [|by intros [= _ <-]].
  destruct d; [|by intros [= _ <-]]. simpl. on_lock El; [|intros [= _ <-]; by apply wf_drop].
  destruct (lock_ref_inv _ _ _ _ El) as (_ & _ & E). pose proof (wf_lock _ Hwf l i E) as Hok.
  case_bool_decide; intros [= _ <-]; apply wf_drop; [|done].
  eapply lock_op_wf; [done..|by apply payload_ok|done].
Qed.

Lemma close_wf h rs r rs' : rw_wf rs ->
  sengoo_async_rwlock_close h rs = Some (r, rs') \/ sengoo_async_rwlock_drop h rs = Some (r, rs') -> rw_wf rs'.
Proof.
  unfold sengoo_async_rwlock_close, sengoo_async_rwlock_drop. intros Hwf [H|H]; revert H;
    on_lock El; try (by intros [= _ <-]); intros [= _ <-];
    destruct (lock_ref_inv _ _ _ _ El) as (_ & Eh & E); pose proof (closed_ok i (wf_lock _ Hwf l i E)) as Hok.
  - by eapply lock_op_wf.
  - apply (rw_wf_free h (OLock l)); [by eapply lock_op_wf|done|done].
Qed.

Lemma start_wf k h rs r rs' : rw_wf rs -> rwlock_start k h rs = Some (r, rs') -> rw_wf rs'.
Proof.
  intros Hwf. unfold rwlock_start. on_lock El; intros [= _ <-]; [|done].
  destruct (lock_ref_inv _ _ _ _ El) as (_ & _ & E). apply rw_wf_new; [done|by eexists|done].
Qed.

Lemma exec_wf op rs rs' : rw_wf rs -> rw_contract op rs = true -> rw_exec op rs = Some rs' -> rw_wf rs'.
Proof.
  intros Hwf Hcon. destruct op as [d v a|v s al m d a|h|h|h|h|k h|k h|k h|k h|k h|k h g|h g v d];
    cbn [rw_exec]; intros ([r rs1] & E & ->)%fmap_Some; cbn [snd].
  - by eapply new_wf.
  - unfold sengoo_async_rwlock_new_parts in E. destruct (descriptor_from_parts _ _ _ _); [by eapply new_wf|].
    by injection E as _ <-.
  - eapply close_wf; eauto.
  - eapply close_wf; eauto.
  - by eapply (try_wf Read).
  - by eapply (try_wf Write).
  - by eapply start_wf.
  - by eapply poll_wf.
  - apply result_as_cancel in E as [b E]. by eapply consumed_wf.
  - by eapply consumed_wf.
  - unfold rwlock_acquire_drop in E. destruct (rwlock_acquire_cancel k h rs) as [[b rs2]|] eqn:Ec; [|done].
    injection E as _ <-. by eapply consumed_wf.
  - by eapply unlock_wf.
  - by eapply guard_set_wf.
Qed.

(** ** Who gets the lock *)

Lemma free_lock h l0 rs l i : locks (rw_free h l0 rs) !! l = Some i -> locks rs !! l = Some i.
Proof.
  unfold rw_free. destruct (locks rs !! l0); [|done]. destruct (referenced _ _); [done|].
  cbn. by intros [_ ?]%lookup_delete_Some.
Qed.

Lemma put_lock_inv l0 x rs l i : locks (put_lock l0 x rs) !! l = Some i -> l0 = l /\ x = i \/ locks rs !! l = Some i.
Proof. cbn. rewrite lookup_insert_Some. naive_solver. Qed.

(** How a call can hand out a guard of lock [l]. *)
Definition granted_by (op : RwOp P) rs l i : Prop :=
  (exists h, op = RwTryRead h /\ rwlock_has_waiting_writer i = false) \/
  (exists h, op = RwTryWrite h /\ waiters i = ∅) \/
  (exists k h, op = RwPoll k h /\ rw_objs rs !! h = Some (OAcquire l k 0 None None) /\ can_acquire_now k i = true) \/
  (exists k h w, op = RwPoll k h /\ waits rs h l k w /\ head (waiter_queue i) = Some w).

Lemma unregister_guards w i : guards (rwlock_unregister_waiter w i).2 = guards i.
Proof. unfold rwlock_unregister_waiter. by destruct (is_some _). Qed.

Lemma register_guards k i w i' : rwlock_register_waiter k i = Some (w, i') -> guards i' = guards i.
Proof.
  unfold rwlock_register_waiter, allocate_rwlock_waiter_id. destruct (allocate_id _ _ _) as [[id n]|]; [|done].
  by intros [= _ <-].
Qed.

Lemma consumed_locks k h rs (b : bool) rs' l i i' : rwlock_acquire_cancel k h rs = Some (b, rs') ->
  locks rs !! l = Some i -> locks rs' !! l = Some i' -> guards i' = guards i.
Proof.
  unfold rwlock_acquire_cancel. destruct (h =? 0); [intros [= _ <-] E E'; congruence|].
  destruct (rw_objs rs !! h) as [[|l0 k0 life o w]|]; try done. case_bool_decide; intros [= _ <-] E E'%free_lock; [|congruence].
  unfold unregister in E'. destruct w as [w|]; [|congruence].
  destruct (locks rs !! l0) as [i0|] eqn:E0; [|congruence].
  apply put_lock_inv in E' as [[-> <-]|?]; [|congruence]. rewrite unregister_guards. congruence.
Qed.

Lemma poll_grants k h rs r rs' l i i' g : rw_wf rs -> rwlock_poll k h rs = Some (r, rs') ->
  locks rs !! l = Some i -> locks rs' !! l = Some i' -> guards i !! g = None -> is_Some (guards i' !! g) ->
  granted_by (RwPoll k h) rs l i.
Proof.
  intros Hwf Hp E E' Hn [x Hx].
  assert (Hsame : guards i' <> guards i) by (intros Hs; congruence).
  unfold rwlock_poll in Hp. destruct (h =? 0); [injection Hp as _ <-; congruence|].
  destruct (rw_objs rs !! h) as [[|l0 k0 life o w]|] eqn:Eh; try done.
  case_bool_decide as Hk; [subst k0|injection Hp as _ <-; congruence].
  destruct (poll_inv _ _ _ _ _ _ _ _ _ Hp) as [->|[(_ & _ & -> & _)|(i0 & o' & w' & i1 & -> & -> & E0 & Hc & ->)]];
    [congruence|cbn in E'; congruence|].
  change (locks (put_lock l0 i1 rs) !! l = Some i') in E'.
  apply put_lock_inv in E' as [[-> ->]|?]; [|congruence]. assert (i0 = i) as -> by congruence.
  pose proof (wf_lock _ Hwf l i E) as Hok.
  destruct Hc as [Hc|w0 g' i' Hc -> Hcan Ha|w0 ->|g' i' Hc -> Hcan Ha|w0 i' -> Hr].
  - destruct w; [by rewrite unregister_guards in Hsame|done].
  - right; right; right. exists k, h, w0. split_and!; [done..|].
    by destruct (waiter_can_acquire_inv i w0 k Hok (waiting_in_lock rs h l i k _ _ _ Hwf E Eh w0 eq_refl) Hcan).
  - done.
  - right; right; left. by exists k, h.
  - by rewrite (register_guards k i w0 i' Hr) in Hsame.
Qed.

(** Calls that hand out no guard. *)
Definition keeps_guards rs rs' : Prop := forall l i i',
  locks rs !! l = Some i -> locks rs' !! l = Some i' -> guards i' = guards i \/ exists g, guards i' = delete g (guards i).

Lemma keeps_refl rs rs' : locks rs' = locks rs -> keeps_guards rs rs'.
Proof. intros H l i i' E E'. left. congruence. Qed.

Lemma keeps_put h rs l0 i0 i1 : lock_ref h rs = Some (Ok (l0, i0)) ->
  (guards i1 = guards i0 \/ exists g, guards i1 = delete g (guards i0)) -> keeps_guards rs (put_lock l0 i1 rs).
Proof.
  intros (_ & _ & E0)%lock_ref_inv Hg l i i' E [[-> ->]|E']%put_lock_inv; [|left; congruence].
  by assert (i = i0) as -> by congruence.
Qed.

Lemma new_keeps d v a rs r rs' : rw_wf rs -> sengoo_async_rwlock_new d v a rs = Some (r, rs') -> keeps_guards rs rs'.
Proof.
  intros Hwf. unfold sengoo_async_rwlock_new. destruct d as [d|]; [|intros [= _ <-]; by apply keeps_refl].
  destruct (owned_descriptor_value_new d v a) as [p|]; intros [= _ <-]; [|by apply keeps_refl].
  intros l i i' E. cbn. rewrite lookup_insert_Some. intros [[<- _]|[_ E']]; [|left; congruence].
  by rewrite (wf_next_lock _ Hwf) in E.
Qed.

Lemma free_keeps h l rs rs' : keeps_guards rs rs' -> keeps_guards rs (rw_free h l rs').
Proof. intros Hk l0 i i' E E'%free_lock. by eapply Hk. Qed.

Lemma quiet_ops op rs rs' : rw_wf rs -> rw_exec op rs = Some rs' ->
  match op with RwTryRead _ | RwTryWrite _ | RwPoll _ _ => True | _ => keeps_guards rs rs' end.
Proof.
  intros Hwf. destruct op as [d v a|v s al m d a|h|h|h|h|k h|k h|k h|k h|k h|k h g|h g v d];
    cbn [rw_exec]; intros ([r rs1] & E & ->)%fmap_Some; cbn [snd]; try done.
  - by eapply new_keeps.
  - unfold sengoo_async_rwlock_new_parts in E. destruct (descriptor_from_parts _ _ _ _); [by eapply new_keeps|].
    injection E as _ <-. by apply keeps_refl.
  - unfold sengoo_async_rwlock_close in E. revert E. on_lock El; intros [= _ <-]; [|by apply keeps_refl].
    eapply keeps_put; [done|by left].
  - unfold sengoo_async_rwlock_drop in E. revert E. on_lock El; intros [= _ <-]; [|by apply keeps_refl].
    apply free_keeps. eapply keeps_put; [done|by left].
  - unfold rwlock_start in E. revert E. on_lock El; intros [= _ <-]; by apply keeps_refl.
  - apply result_as_cancel in E as [b E]. intros l i i' Hi Hi'. left. by eapply consumed_locks.
  - intros l i i' Hi Hi'. left. by eapply consumed_locks.
  - unfold rwlock_acquire_drop in E. destruct (rwlock_acquire_cancel k h rs) as [[b rs2]|] eqn:Ec; [|done].
    injection E as _ <-. intros l i i' Hi Hi'. left. by eapply consumed_locks.
  - unfold guard_unlock in E. revert E. on_lock El; [|intros [= _ <-]; by apply keeps_refl].
    destruct (rwlock_guard_unlock i g k) as [code i'] eqn:Eu. intros [= _ <-].
    destruct (lock_ref_inv _ _ _ _ El) as (_ & _ & Ei).
    destruct (unlock_ok i g k code i' (wf_lock _ Hwf l i Ei) Eu) as (_ & _ & Hg).
    eapply keeps_put; [done|]. destruct Hg as [?|[_ ?]]; [by left|right; by exists g].
  - unfold sengoo_async_rwlock_write_guard_set in E. destruct v as [v|]; [|injection E as _ <-; by apply keeps_refl].
    destruct d; [|injection E as _ <-; by apply keeps_refl]. simpl in E. revert E.
    on_lock El; [|intros [= _ <-]; by apply keeps_refl].
    case_bool_decide; intros [= _ <-]; [|by apply keeps_refl].
    intros l0 i0 i1 Hi Hi'. eapply (keeps_put h rs l i (set_payload v i)); [done|by left|done..].
Qed.

Lemma new_guard_inv op rs rs' l i i' g : rw_wf rs -> rw_exec op rs = Some rs' ->
  locks rs !! l = Some i -> locks rs' !! l = Some i' -> guards i !! g = None -> is_Some (guards i' !! g) ->
  granted_by op rs l i.
Proof.
  intros Hwf Eop E E' Hn Hs. pose proof (quiet_ops op rs rs' Hwf Eop) as Hq.
  assert (Hkeep : ~ keeps_guards rs rs').
  { intros Hk. destruct Hs as [x Hx]. destruct (Hk l i i' E E') as [Hg|[g' Hg]]; [congruence|].
    rewrite Hg in Hx. apply lookup_delete_Some in Hx as [_ Hx]. congruence. }
  destruct op as [d v a|v s al m d a|h|h|h|h|k h|k h|k h|k h|k h|k h g0|h g0 v d]; try done; clear Hq;
    cbn [rw_exec] in Eop; apply fmap_Some in Eop as ([r rs1] & Eop & ->); cbn [snd] in *.
  - unfold sengoo_async_rwlock_try_read in Eop. revert Eop.
    destruct (lock_ref h rs) as [[[l0 i0]|[]]|] eqn:El; [| |done]; [|intros [= _ <-]; by destruct Hkeep; apply keeps_refl].
    destruct (rw_closed i0); [intros [= _ <-]; by destruct Hkeep; apply keeps_refl|].
    destruct (writer i0); [intros [= _ <-]; by destruct Hkeep; apply keeps_refl|]. simpl.
    destruct (rwlock_has_waiting_writer i0) eqn:Hw; [intros [= _ <-]; by destruct Hkeep; apply keeps_refl|].
    destruct (rwlock_acquire_guard Read i0) as [[g' i1]|]; [|done]. intros [= _ <-].
    destruct (lock_ref_inv _ _ _ _ El) as (_ & _ & E0).
    apply put_lock_inv in E' as [[-> _]|E']; [|destruct Hs; congruence]. left. exists h. split; [done|]. congruence.
  - unfold sengoo_async_rwlock_try_write in Eop. revert Eop.
    destruct (lock_ref h rs) as [[[l0 i0]|[]]|] eqn:El; [| |done]; [|intros [= _ <-]; by destruct Hkeep; apply keeps_refl].
    destruct (rw_closed i0); [intros [= _ <-]; by destruct Hkeep; apply keeps_refl|].
    case_bool_decide as Hw; [|rewrite orb_true_r; intros [= _ <-]; by destruct Hkeep; apply keeps_refl].
    rewrite orb_false_r. destruct (writer i0 || _); [intros [= _ <-]; by destruct Hkeep; apply keeps_refl|].
    destruct (rwlock_acquire_guard Write i0) as [[g' i1]|]; [|done]. intros [= _ <-].
    destruct (lock_ref_inv _ _ _ _ El) as (_ & _ & E0).
    apply put_lock_inv in E' as [[-> _]|E']; [|destruct Hs; congruence]. right; left. exists h. split; [done|]. congruence.
  - by eapply poll_grants.
Qed.

Lemma granted_past_writer op rs l i w : rw_wf rs -> locks rs !! l = Some i -> waiters i !! w = Some Write ->
  granted_by op rs l i -> exists k h w0, op = RwPoll k h /\ waits rs h l k w0 /\ head (waiter_queue i) = Some w0.
Proof.
  intros Hwf E Ew. pose proof (wf_lock _ Hwf l i E) as Hok.
  assert (Hww : rwlock_has_waiting_writer i = true) by (apply has_waiting_writer_spec; by exists w).
  intros [(h & _ & Hf)|[(h & _ & Hf)|[(k & h & _ & _ & Hc)|Hg]]]; [congruence| | |done].
  - by rewrite Hf, lookup_empty in Ew.
  - exfalso. unfold can_acquire_now in Hc. destruct k; [by rewrite Hww, andb_false_r in Hc|].
    rewrite first_waiter_head in Hc by done. pose proof (proj2 (lk_dom _ Hok w) ltac:(by eexists)) as Hin.
    destruct (waiter_queue i); [by apply not_elem_of_nil in Hin|]. by rewrite andb_false_r in Hc.
Qed.

(** ** Ownership of the payload *)

(** The payload a call takes over. *)
Definition rw_taken (op : RwOp P) rs : list P :=
  match op with
  | RwNew (Some d) v a => option_list (owned_descriptor_value_new d v a)
  | RwNewParts v s al m d a =>
      match descriptor_from_parts s al m d with
      | Some d => option_list (owned_descriptor_value_new d v a)
      | None => []
      end
  | RwGuardSet _ _ (Some v) true => [v]
  | _ => []
  end.

Definition rw_live rs : list P := gather (fun i => [rw_payload i]) (locks rs).
Definition rw_ended rs : list P := map call_payload (rw_calls rs).

Lemma live_put l i i' rs : locks rs !! l = Some i -> rw_payload i' = rw_payload i ->
  rw_live (put_lock l i' rs) ≡ₚ rw_live rs.
Proof.
  intros E Ep. unfold rw_live. cbn [put_lock locks].
  rewrite (gather_replace _ _ l i i' E), (gather_delete _ (locks rs) l i E). by rewrite Ep.
Qed.

(** Payloads are conserved from [rs] to [rs']. *)
Definition conserves (tk : list P) rs rs' : Prop :=
  rw_live rs' ++ rw_ended rs' ≡ₚ (rw_live rs ++ rw_ended rs) ++ tk.

Lemma conserves_same rs rs' : rw_live rs' ≡ₚ rw_live rs -> rw_calls rs' = rw_calls rs -> conserves [] rs rs'.
Proof. intros H1 H2. unfold conserves, rw_ended. by rewrite app_nil_r, H1, H2. Qed.

Lemma free_live h l rs : rw_live (rw_free h l rs) ++ rw_ended (rw_free h l rs) ≡ₚ rw_live rs ++ rw_ended rs.
Proof.
  unfold rw_free. destruct (locks rs !! l) as [i|] eqn:E; [|done]. destruct (referenced _ _); [done|].
  unfold rw_live, rw_ended. cbn [rw_drop locks rw_calls]. rewrite (gather_delete _ (locks rs) l i E), map_app.
  cbn. solve_Permutation.
Qed.

Lemma conserves_free tk h l rs rs' : conserves tk rs rs' -> conserves tk rs (rw_free h l rs').
Proof. unfold conserves. intros H. by rewrite free_live. Qed.

Lemma conserves_put h rs l i i' : lock_ref h rs = Some (Ok (l, i)) -> rw_payload i' = rw_payload i ->
  conserves [] rs (put_lock l i' rs).
Proof. intros (_ & _ & E)%lock_ref_inv Ep. apply conserves_same; [by eapply live_put|done]. Qed.

Lemma conserves_refl rs : conserves [] rs rs.
Proof. by apply conserves_same. Qed.

Lemma acquire_payload k i g i' : rwlock_acquire_guard k i = Some (g, i') -> rw_payload i' = rw_payload i.
Proof.
  unfold rwlock_acquire_guard, allocate_rwlock_guard_id. destruct (allocate_id _ _ _) as [[id n]|]; [|done].
  by intros [= _ <-].
Qed.

Lemma unregister_payload w i : rw_payload (rwlock_unregister_waiter w i).2 = rw_payload i.
Proof. unfold rwlock_unregister_waiter. by destruct (is_some _). Qed.

Lemma register_payload k i w i' : rwlock_register_waiter k i = Some (w, i') -> rw_payload i' = rw_payload i.
Proof.
  unfold rwlock_register_waiter, allocate_rwlock_waiter_id. destruct (allocate_id _ _ _) as [[id n]|]; [|done].
  by intros [= _ <-].
Qed.

Lemma poll_conserves k h rs r rs' : rwlock_poll k h rs = Some (r, rs') -> conserves [] rs rs'.
Proof.
  unfold rwlock_poll. destruct (h =? 0); [intros [= _ <-]; apply conserves_refl|].
  destruct (rw_objs rs !! h) as [[|l0 k0 life o w]|]; try done.
  case_bool_decide; [|intros [= _ <-]; apply conserves_refl]. intros Hp.
  destruct (poll_inv _ _ _ _ _ _ _ _ _ Hp) as [->|[(_ & _ & -> & _)|(i & o' & w' & i' & _ & _ & E & Hc & ->)]];
    [apply conserves_refl|by apply conserves_same|].
  apply conserves_same; [|done]. apply (live_put l0 i i' rs E).
  destruct Hc as [Hc|w0 g i' Hc -> Hcan Ha|w0 ->|g i' Hc -> Hcan Ha|w0 i' -> Hr].
  - destruct w; [apply unregister_payload|done].
  - rewrite (acquire_payload _ _ _ _ Ha). apply unregister_payload.
  - done.
  - by rewrite (acquire_payload _ _ _ _ Ha).
  - by rewrite (register_payload _ _ _ _ Hr).
Qed.

Lemma cancel_conserves k h rs (b : bool) rs' : rwlock_acquire_cancel k h rs = Some (b, rs') -> conserves [] rs rs'.
Proof.
  unfold rwlock_acquire_cancel. destruct (h =? 0); [intros [= _ <-]; apply conserves_refl|].
  destruct (rw_objs rs !! h) as [[|l k0 life o w]|]; try done.
  case_bool_decide; intros [= _ <-]; apply conserves_free; [|apply conserves_refl].
  unfold unregister. destruct w as [w|]; [|apply conserves_refl].
  destruct (locks rs !! l) as [i|] eqn:E; [|apply conserves_refl].
  apply conserves_same; [|done]. apply (live_put l i _ rs E). apply unregister_payload.
Qed.

Lemma new_conserves d v a rs r rs' : rw_wf rs -> sengoo_async_rwlock_new (Some d) v a rs = Some (r, rs') ->
  conserves (option_list (owned_descriptor_value_new d v a)) rs rs'.
Proof.
  intros Hwf. unfold sengoo_async_rwlock_new. destruct (owned_descriptor_value_new d v a) as [p|];
    intros [= _ <-]; [|apply conserves_refl].
  unfold conserves, rw_live, rw_ended. cbn. rewrite gather_new by (apply (wf_next_lock _ Hwf); lia).
  cbn. solve_Permutation.
Qed.

Lemma guard_set_conserves h g v d rs r rs' : sengoo_async_rwlock_write_guard_set h g v d rs = Some (r, rs') ->
  conserves (rw_taken (RwGuardSet h g v d) rs) rs rs'.
Proof.
  unfold sengoo_async_rwlock_write_guard_set. destruct v as [v|]; [|intros [= _ <-]; apply conserves_refl].
  destruct d; simpl; [|intros [= _ <-]; apply conserves_refl].
  assert (Hdrop : conserves [v] rs (rw_drop [v] rs)).
  { unfold conserves, rw_ended, rw_live. cbn. rewrite map_app. by rewrite app_assoc. }
  on_lock El; [|by intros [= _ <-]]. case_bool_decide; intros [= _ <-]; [|done].
  destruct (lock_ref_inv _ _ _ _ El) as (_ & _ & E). unfold conserves, rw_live, rw_ended. cbn.
  rewrite (gather_replace _ _ l i (set_payload v i) E), (gather_delete _ (locks rs) l i E), map_app. cbn.
  solve_Permutation.
Qed.

Lemma exec_conserves op rs rs' : rw_wf rs -> rw_exec op rs = Some rs' -> conserves (rw_taken op rs) rs rs'.
Proof.
  intros Hwf. destruct op as [d v a|v s al m d a|h|h|h|h|k h|k h|k h|k h|k h|k h g|h g v d];
    cbn [rw_exec]; intros ([r rs1] & E & ->)%fmap_Some; cbn [snd].
  - destruct d as [d|]; [by eapply new_conserves|]. injection E as _ <-. apply conserves_refl.
  - unfold sengoo_async_rwlock_new_parts in E. cbn [rw_taken].
    destruct (descriptor_from_parts _ _ _ _); [by eapply new_conserves|]. injection E as _ <-. apply conserves_refl.
  - unfold sengoo_async_rwlock_close in E. revert E. on_lock El; intros [= _ <-]; [|apply conserves_refl].
    by eapply conserves_put.
  - unfold sengoo_async_rwlock_drop in E. revert E. on_lock El; intros [= _ <-]; [|apply conserves_refl].
    apply conserves_free. by eapply conserves_put.
  - unfold sengoo_async_rwlock_try_read in E. revert E. on_lock El; [|intros [= _ <-]; apply conserves_refl].
    repeat (case_match; [intros [= _ <-]; apply conserves_refl|]).
    destruct (rwlock_acquire_guard Read i) as [[g i']|] eqn:Ea; [|done]. intros [= _ <-].
    eapply conserves_put; [done|by eapply acquire_payload].
  - unfold sengoo_async_rwlock_try_write in E. revert E. on_lock El; [|intros [= _ <-]; apply conserves_refl].
    repeat (case_match; [intros [= _ <-]; apply conserves_refl|]).
    destruct (rwlock_acquire_guard Write i) as [[g i']|] eqn:Ea; [|done]. intros [= _ <-].
    eapply conserves_put; [done|by eapply acquire_payload].
  - unfold rwlock_start in E. revert E. on_lock El; intros [= _ <-]; [by apply conserves_same|apply conserves_refl].
  - by eapply poll_conserves.
  - apply result_as_cancel in E as [b E]. by eapply cancel_conserves.
  - by eapply cancel_conserves.
  - unfold rwlock_acquire_drop in E. destruct (rwlock_acquire_cancel k h rs) as [[b rs2]|] eqn:Ec; [|done].
    injection E as _ <-. by eapply cancel_conserves.
  - unfold guard_unlock in E. revert E. on_lock El; [|intros [= _ <-]; apply conserves_refl].
    destruct (rwlock_guard_unlock i g k) as [code i'] eqn:Eu. intros [= _ <-].
    eapply conserves_put; [done|]. unfold rwlock_guard_unlock in Eu. by case_bool_decide; simpl in Eu; injection Eu as _ <-.
  - by eapply guard_set_conserves.
Qed.

(** ** Runs *)

(** Calls in sequence that respect the contract, and the payloads they took. *)
Fixpoint rw_run (ops : list (RwOp P)) rs : option (RwStore P * list P) :=
  match ops with
  | [] => Some (rs, [])
  | op :: ops' =>
      if rw_contract op rs then
        match rw_exec op rs with
        | Some rs1 => let* (rs2, tk) := rw_run ops' rs1 in Some (rs2, rw_taken op rs ++ tk)
        | None => None
        end
      else None
  end.

Lemma run_wf_conserves ops : forall rs rs' tk, rw_wf rs -> rw_run ops rs = Some (rs', tk) ->
  rw_wf rs' /\ conserves tk rs rs'.
Proof.
  induction ops as [|op ops IH]; intros rs rs' tk Hwf; cbn [rw_run].
  { intros [= <- <-]. split; [done|apply conserves_refl]. }
  destruct (rw_contract op rs) eqn:Hc; [|done]. destruct (rw_exec op rs) as [rs1|] eqn:E; [|done].
  destruct (rw_run ops rs1) as [[rs2 tk2]|] eqn:Er; [|done]. intros [= <- <-].
  pose proof (exec_wf op rs rs1 Hwf Hc E) as Hwf1. destruct (IH rs1 rs2 tk2 Hwf1 Er) as [Hwf2 H2].
  split; [done|]. pose proof (exec_conserves op rs rs1 Hwf E) as H1. unfold conserves in *.
  rewrite H2, H1. by rewrite <- !app_assoc.
Qed.

Definition rw_reachable rs : Prop := exists ops tk, rw_run ops rw_init = Some (rs, tk).

Lemma reachable_wf rs : rw_reachable rs -> rw_wf rs.
Proof. intros (ops & tk & E). apply (run_wf_conserves ops rw_init rs tk rw_init_wf E). Qed.

Lemma holders_two k m g g' : m !! g = Some k -> m !! g' = Some k -> g <> g' -> (2 <= holders k m)%nat.
Proof.
  intros E E' Hne. rewrite (holders_delete k k g m E), (holders_delete k k g' (delete g m)).
  - rewrite !decide_True by done. lia.
  - by rewrite lookup_delete_ne.
Qed.

(** C25: the lock excludes.  In every reachable store, for every lock: a write
    guard is the only guard; [writer] says whether there is one and [readers]
    counts the read guards; and the queue lists, without repetition, exactly
    the acquisitions that are waiting. *)
Theorem rwlock_exclusion rs l i : rw_reachable rs -> locks rs !! l = Some i ->
  (forall g g', guards i !! g = Some Write -> is_Some (guards i !! g') -> g' = g) /\
  (writer i = true <-> exists g, guards i !! g = Some Write) /\
  readers i = holders Read (guards i) /\
  NoDup (waiter_queue i) /\
  (forall w, w ∈ waiter_queue i <-> exists k h, waits rs h l k w).
Proof.
  intros Hr%reachable_wf E. pose proof (wf_lock _ Hr l i E) as Hok.
  assert (Hwr : forall g, guards i !! g = Some Write -> writer i = true).
  { intros g Hg. destruct (writer i) eqn:Ew; [done|]. exfalso.
    apply (holders_zero Write (guards i)) with g; [|done]. rewrite (lk_writer _ Hok). by rewrite Ew. }
  split_and!.
  - intros g g' Hg [k Hg']. destruct (decide (g' = g)) as [|Hne]; [done|]. exfalso. destruct k.
    + apply (holders_zero Read (guards i)) with g'; [|done]. rewrite <- (lk_readers _ Hok).
      apply (lk_excl _ Hok). by eapply Hwr.
    + pose proof (holders_two Write _ g g' Hg Hg' ltac:(done)). rewrite (lk_writer _ Hok) in *. case_match; lia.
  - split; [|intros [g Hg]; by eapply Hwr]. intros Hw. pose proof (lk_writer _ Hok) as Hh. rewrite Hw in Hh.
    destruct (map_choose (filter (fun kv => kv.2 = Write) (guards i))) as (g & k & Hg).
    { intros He. unfold holders in Hh. rewrite He in Hh. done. }
    apply map_lookup_filter_Some in Hg as [Hg Hk]. simpl in Hk. subst. by exists g.
  - apply (lk_readers _ Hok).
  - apply (lk_queue _ Hok).
  - intros w. rewrite (lk_dom _ Hok). split.
    + intros [k Hk]. exists k. by apply (wf_waiters _ Hr l i w k E).
    + intros (k & h & Hh). exists k. apply (wf_waiters _ Hr l i w k E). by exists h.
Qed.

(** C21: nobody overtakes a waiting writer.  While an acquisition waits to write,
    the only call that can hand out a guard of the lock is a poll of the
    acquisition at the head of the queue: late readers and writers, polled or
    [try_]ed, get nothing before the writer's turn. *)
Theorem rwlock_no_overtaking rs rs' (op : RwOp P) l i i' w g :
  rw_reachable rs -> rw_exec op rs = Some rs' ->
  locks rs !! l = Some i -> locks rs' !! l = Some i' ->
  waiters i !! w = Some Write ->
  guards i !! g = None -> is_Some (guards i' !! g) ->
  exists k h w0, op = RwPoll k h /\ waits rs h l k w0 /\ head (waiter_queue i) = Some w0.
Proof.
  intros Hr%reachable_wf Eop E E' Ew Hn Hs. eapply granted_past_writer; [done..|]. by eapply new_guard_inv.
Qed.

Lemma remove_first_head w q : remove_first w (w :: q) = q.
Proof. cbn. by rewrite Z.eqb_refl. Qed.

(** C27: the lock is handed on.  When the last guard of an open lock is released
    and acquisitions wait, the next poll of the one at the head of the queue is
    ready with a fresh guard id, holds the only guard, and leaves the queue to
    those behind it. *)
Theorem rwlock_progress rs l i w q :
  rw_reachable rs -> locks rs !! l = Some i -> rw_closed i = false -> guards i = ∅ ->
  waiter_queue i = w :: q ->
  exists k h g rs' i', waits rs h l k w /\ rwlock_poll k h rs = Some (1, rs') /\ 0 < g /\
    rw_objs rs' !! h = Some (OAcquire l k 2 (Some g) None) /\
    locks rs' !! l = Some i' /\ guards i' = {[g := k]} /\ waiter_queue i' = q.
Proof.
  intros Hr%reachable_wf E Hc Hg Hq. pose proof (wf_lock _ Hr l i E) as Hok.
  destruct (proj1 (lk_dom _ Hok w)) as [k Hk]; [rewrite Hq; by left|].
  destruct (proj1 (wf_waiters _ Hr l i w k E) Hk) as [h Hh].
  destruct (unregister_ok w k i Hok Hk) as (Hok' & (_ & Sg & Sr & Sw & _) & _ & Sq).
  assert (Hw : writer i = false).
  { pose proof (lk_writer _ Hok) as H. rewrite Hg in H. destruct (writer i); [|done]. done. }
  assert (Hrd : readers i = 0%nat) by (rewrite (lk_readers _ Hok), Hg; done).
  assert (Hcan : rwlock_waiter_can_acquire i w = true).
  { unfold rwlock_waiter_can_acquire. rewrite Hk, first_waiter_head, Hq by done. cbn.
    rewrite bool_decide_eq_true_2 by done. rewrite Hw, Hrd. by destruct k. }
  destruct (acquire_total k _ Hok') as [[g i'] Ha]; [by rewrite Sg, Hg|].
  destruct (acquire_ok k _ g i' Hok' Ha) as (_ & (_ & _ & Eq' & _) & _ & Eg & Hpos); [congruence..|].
  assert (h <> 0).
  { intros ->. unfold waits in Hh. by rewrite (wf_handles _ Hr 0 ltac:(lia)) in Hh. }
  eexists k, h, g, _, i'. split_and!; [done| |done|..].
  - unfold rwlock_poll. rewrite (proj2 (Z.eqb_neq h 0)), Hh by done. rewrite bool_decide_eq_true_2 by done.
    unfold rwlock_acquire_poll. cbn [lifecycle_enter Z.eqb is_some]. rewrite E, Hc, Hcan, Ha. done.
  - cbn. by rewrite lookup_insert_eq.
  - cbn. by rewrite lookup_insert_eq.
  - by rewrite Eg, Sg, Hg.
  - by rewrite Eq', Sq, Hq, remove_first_head.
Qed.

(** The lock's payload is neither leaked nor freed twice.  After any run of
    calls, the payloads the calls took over are, one for one, those still in a
    lock and those that were dropped. *)
Theorem rwlock_payload_conservation (ops : list (RwOp P)) rs (tk : list P) :
  rw_run ops rw_init = Some (rs, tk) -> rw_live rs ++ rw_ended rs ≡ₚ tk.
Proof. intros E. by destruct (run_wf_conserves ops rw_init rs tk rw_init_wf E) as [_ H]. Qed.

(** Guard ids do not run out.  Acquiring always finds an id, positive and
    not in use, as long as fewer than [i64::MAX] guards are held; the loop in
    the code ends after at most one candidate more than there are guards. *)
Theorem rwlock_guard_ids rs l i k : rw_reachable rs -> locks rs !! l = Some i ->
  Z.of_nat (size (guards i)) < i64_max ->
  exists g i', rwlock_acquire_guard k i = Some (g, i') /\ 0 < g /\ guards i !! g = None.
Proof.
  intros Hr%reachable_wf E Hs. pose proof (wf_lock _ Hr l i E) as Hok.
  unfold rwlock_acquire_guard, allocate_rwlock_guard_id.
  destruct (allocate_id_total (guards i) (next_guard_id i) (lk_next_guard _ Hok) Hs) as [[id next'] Ha].
  pose proof (allocate_id_spec (S (size (guards i))) (guards i) (next_guard_id i) (lk_next_guard _ Hok)) as Hsp.
  rewrite Ha in *. destruct Hsp as (? & ? & _). eexists _, _. split_and!; done.
Qed.
End invariant.

(** ** Witnesses *)

Section witnesses.
Local Open Scope nat_scope.

Definition word : SengooTypeDescriptor := mkDescriptor 1 8 8 true true.

(** A reader holds the lock, a writer and then a reader wait. *)
Definition rw_sample_ops : list (RwOp nat) :=
  [RwNew (Some word) (Some 7) true; RwTryRead 1; RwStart Write 1; RwPoll Write 2; RwStart Read 1; RwPoll Read 3].

Definition rw_sample : RwStore nat := default rw_init (fst <$> rw_run rw_sample_ops rw_init).
Definition rw_released : RwStore nat := default rw_init (fst <$> rw_run (rw_sample_ops ++ [RwUnlock Read 1 1]) rw_init).

Lemma rw_sample_reachable : rw_reachable rw_sample.
Proof. exists rw_sample_ops, [7]. vm_compute. reflexivity. Qed.
Lemma rw_released_reachable : rw_reachable rw_released.
Proof. exists (rw_sample_ops ++ [RwUnlock Read 1 1]), [7]. vm_compute. reflexivity. Qed.

Lemma rwlock_exclusion_witness : exists i, locks rw_sample !! 0 = Some i /\ readers i = 1 /\
  readers i = holders Read (guards i) /\ waiter_queue i = [1; 2]%Z /\ NoDup (waiter_queue i).
Proof.
  eexists. split; [vm_compute; reflexivity|].
  pose proof (rwlock_exclusion rw_sample 0 _ rw_sample_reachable ltac:(vm_compute; reflexivity)) as (_ & _ & H1 & H2 & _).
  split_and!; [reflexivity|exact H1|reflexivity|exact H2].
Defined.

Lemma rwlock_no_overtaking_witness : exists k h w0, RwPoll Write 2 = RwPoll (P := nat) k h /\
  waits rw_released h 0 k w0 /\
  head (waiter_queue (default (mkRw 0 false false 1 1 ∅ ∅ [] 0 word) (locks rw_released !! 0))) = Some w0.
Proof.
  eapply (rwlock_no_overtaking rw_released _ (RwPoll Write 2) 0
    (default (mkRw 0 false false 1 1 ∅ ∅ [] 0 word) (locks rw_released !! 0)) _ 1 2 rw_released_reachable).
  - vm_compute. reflexivity.
  - vm_compute. reflexivity.
  - vm_compute. reflexivity.
  - vm_compute. reflexivity.
  - vm_compute. reflexivity.
  - eexists. vm_compute. reflexivity.
Defined.

Lemma rwlock_progress_witness : exists k h g rs' i', waits rw_released h 0 k 1 /\
  rwlock_poll k h rw_released = Some (1%Z, rs') /\ (0 < g)%Z /\
  rw_objs rs' !! h = Some (OAcquire 0 k guard_mark_ready (Some g) None) /\
  locks rs' !! 0 = Some i' /\ guards i' = {[g := k]} /\ waiter_queue i' = [2%Z].
Proof.
  eapply (rwlock_progress rw_released 0 (default (mkRw 0 false false 1 1 ∅ ∅ [] 0 word) (locks rw_released !! 0)) 1 [2%Z]
    rw_released_reachable); vm_compute; reflexivity.
Defined.

Lemma rwlock_payload_conservation_witness : rw_live rw_sample ++ rw_ended rw_sample ≡ₚ [7].
Proof. apply (rwlock_payload_conservation rw_sample_ops). vm_compute. reflexivity. Defined.

Lemma rwlock_guard_ids_witness : exists g i', rwlock_acquire_guard Read
    (default (mkRw 0 false false 1 1 ∅ ∅ [] 0 word) (locks rw_sample !! 0)) = Some (g, i') /\ (0 < g)%Z /\
  guards (default (mkRw 0 false false 1 1 ∅ ∅ [] 0 word) (locks rw_sample !! 0)) !! g = None.
Proof.
  apply (rwlock_guard_ids rw_sample 0 _ Read rw_sample_reachable); vm_compute; reflexivity.
Defined.

(** Cancelling an acquisition after it became ready loses its guard.  The
    cancel call answers [true] and frees the acquisition, but the write guard
    stays in the lock: nobody knows its id, and the lock is never available
    again. *)
Theorem rwlock_cancel_keeps_guard :
  exists rs tk, rw_run [RwNew (Some word) (Some 7) true; RwStart Write 1; RwPoll Write 2; RwCancel Write 2] rw_init
      = Some (rs, tk) /\
    rw_objs rs = {[1%Z := OLock 0]} /\
    (guards <$> locks rs !! 0) = Some {[1%Z := Write]} /\
    sengoo_async_rwlock_try_read 1 rs = Some (- STATUS_LOCK_UNAVAILABLE, rs)%Z /\
    sengoo_async_rwlock_try_write 1 rs = Some (- STATUS_LOCK_UNAVAILABLE, rs)%Z.
Proof. eexists _, _. split; [vm_compute; reflexivity|]. split_and!; vm_compute; reflexivity. Qed.
End witnesses.
