(* ===== verification/AsyncMutex.v ===== *)
(** The asynchronous mutex: async_runtime/concurrent.rs, from
    [AsyncMutexInner] to [sengoo_async_mutex_guard_unlock].

    The conventions are those of the reader/writer lock:
    [Arc<Mutex<AsyncMutexInner>>] is an address in [mutexes], a box behind a
    handle is an entry of [mx_objs], a call runs under the inner mutex and is
    one step, and using a handle of another type is undefined ([None]).  There
    is no guard object: a lock future that becomes ready leaves [locked] set,
    and the holder works on the mutex handle until it unlocks it.

    On every run locks and unlocks of a mutex alternate, and payloads are
    neither leaked nor dropped twice. *)

From S2P Require Import Prelude Channel ChannelInv RwLock.

Local Open Scope Z_scope.

Section mutex.
Context {P : Type}.
Context (i64_of : P -> Z) (of_i64 : Z -> P).

Record AsyncMutexInner := mkMx {
  locked : bool;
  mx_closed : bool;
  mx_waiters : nat;
  mx_payload : P;
  mx_descriptor : SengooTypeDescriptor;
}.

Implicit Type inner : AsyncMutexInner.

(** What a box holds: a mutex, or a lock future of either interface. *)
Inductive MxObj :=
| OMutex (l : nat)
| OLockFut (l : nat) (life : PollLifecycle) (outcome : option Z) (registered : bool)
| OLockI64 (l : nat) (life : PollLifecycle) (outcome : option (result Z Z)) (registered : bool).

Record MxStore := mkMxStore {
  mutexes : gmap nat AsyncMutexInner;
  mx_objs : gmap Z MxObj;
  mx_next : nat;
  mx_next_handle : Z;
  mx_calls : list (@Call P);
}.

Definition mx_init : MxStore := mkMxStore ∅ ∅ 0 1 [].

Implicit Type ms : MxStore.

Definition mx_put (h : Z) (o : MxObj) ms : MxStore :=
  mkMxStore (mutexes ms) (<[h := o]> (mx_objs ms)) (mx_next ms) (mx_next_handle ms) (mx_calls ms).
Definition mx_new (o : MxObj) ms : Z * MxStore :=
  (mx_next_handle ms,
   mkMxStore (mutexes ms) (<[mx_next_handle ms := o]> (mx_objs ms)) (mx_next ms) (mx_next_handle ms + 1) (mx_calls ms)).
Definition put_mutex (l : nat) inner ms : MxStore :=
  mkMxStore (<[l := inner]> (mutexes ms)) (mx_objs ms) (mx_next ms) (mx_next_handle ms) (mx_calls ms).
Definition mx_drop (ps : list P) ms : MxStore :=
  mkMxStore (mutexes ms) (mx_objs ms) (mx_next ms) (mx_next_handle ms) (mx_calls ms ++ map CallDrop ps).

Definition mutex_of (o : MxObj) : nat :=
  match o with OMutex l | OLockFut l _ _ _ | OLockI64 l _ _ _ => l end.

Definition mx_referenced (l : nat) (m : gmap Z MxObj) : bool :=
  existsb (fun kv => Nat.eqb (mutex_of kv.2) l) (map_to_list m).

(** The box is freed; the last reference takes the inner state and its payload
    with it. *)
Definition mx_free (h : Z) (l : nat) ms : MxStore :=
  let m := delete h (mx_objs ms) in
  let ms' := mkMxStore (mutexes ms) m (mx_next ms) (mx_next_handle ms) (mx_calls ms) in
  match mutexes ms !! l with
  | Some inner =>
      if mx_referenced l m then ms'
      else mx_drop [mx_payload inner]
             (mkMxStore (delete l (mutexes ms)) m (mx_next ms) (mx_next_handle ms) (mx_calls ms))
  | None => ms'
  end.

(** The mutex behind a handle: [Ok] its state, [Err] for the null handle. *)
Definition mutex_ref (h : Z) ms : option (result (nat * AsyncMutexInner) unit) :=
  if h =? 0 then Some (Err tt)
  else
    match mx_objs ms !! h with
    | Some (OMutex l) => let* i := mutexes ms !! l in Some (Ok (l, i))
    | _ => None
    end.

(** ** Construction and closing *)

Definition sengoo_async_mutex_new (d : option SengooTypeDescriptor) (value : option P) (alloc_ok : bool)
    ms : option (Z * MxStore) :=
  match d with
  | None => Some (0, ms)
  | Some d =>
      match owned_descriptor_value_new d value alloc_ok with
      | None => Some (0, ms)
      | Some p =>
          let l := mx_next ms in
          Some (mx_new (OMutex l)
            (mkMxStore (<[l := mkMx false false 0 p d]> (mutexes ms)) (mx_objs ms) (S l)
               (mx_next_handle ms) (mx_calls ms)))
      end
  end.

Definition sengoo_async_mutex_new_parts (value : option P) (size align : Z) (move_value drop_value alloc_ok : bool)
    ms : option (Z * MxStore) :=
  match descriptor_from_parts size align move_value drop_value with
  | None => Some (0, ms)
  | Some d => sengoo_async_mutex_new (Some d) value alloc_ok ms
  end.

Definition sengoo_async_mutex_new_i64 (value : Z) (alloc_ok : bool) : MxStore -> option (Z * MxStore) :=
  sengoo_async_mutex_new (Some scalar_i64_descriptor) (Some (of_i64 value)) alloc_ok.

Definition mx_set_closed inner : AsyncMutexInner :=
  mkMx (locked inner) true (mx_waiters inner) (mx_payload inner) (mx_descriptor inner).

Definition sengoo_async_mutex_close (h : Z) ms : option (Z * MxStore) :=
  let* r := mutex_ref h ms in
  match r with
  | Err _ => Some (0, ms)
  | Ok (l, inner) => Some (0, put_mutex l (mx_set_closed inner) ms)
  end.

Definition sengoo_async_mutex_drop (h : Z) ms : option (Z * MxStore) :=
  let* r := mutex_ref h ms in
  match r with
  | Err _ => Some (0, ms)
  | Ok (l, inner) => Some (0, mx_free h l (put_mutex l (mx_set_closed inner) ms))
  end.

(** ** Lock futures *)

Definition sengoo_async_mutex_lock__start (h : Z) ms : option (Z * MxStore) :=
  let* r := mutex_ref h ms in
  match r with
  | Err _ => Some (0, ms)
  | Ok (l, _) => Some (mx_new (OLockFut l 0 None false) ms)
  end.

Definition sengoo_async_mutex_lock_i64__start (h : Z) ms : option (Z * MxStore) :=
  let* r := mutex_ref h ms in
  match r with
  | Err _ => Some (0, ms)
  | Ok (l, _) => Some (mx_new (OLockI64 l 0 None false) ms)
  end.

(** Taking an open, unlocked mutex, and joining its waiters. *)
Definition mx_lock (registered : bool) inner : AsyncMutexInner :=
  mkMx true (mx_closed inner) (if registered then (mx_waiters inner - 1)%nat else mx_waiters inner)
    (mx_payload inner) (mx_descriptor inner).
Definition mx_wait (registered : bool) inner : AsyncMutexInner :=
  mkMx (locked inner) (mx_closed inner) (if registered then mx_waiters inner else S (mx_waiters inner))
    (mx_payload inner) (mx_descriptor inner).

Definition sengoo_async_mutex_lock__poll (h : Z) ms : option (Z * MxStore) :=
  if h =? 0 then Some (1, ms) else
  match mx_objs ms !! h with
  | Some (OLockFut l life outcome registered) =>
      match lifecycle_enter life with
      | Err error => Some (error, ms)
      | Ok _ =>
          if is_some outcome then Some (1, mx_put h (OLockFut l guard_mark_ready outcome registered) ms)
          else
            let* i := mutexes ms !! l in
            if mx_closed i then
              Some (1, mx_put h (OLockFut l guard_mark_ready (Some STATUS_INVALID_HANDLE) registered) ms)
            else if negb (locked i) then
              Some (1, mx_put h (OLockFut l guard_mark_ready (Some 0) false) (put_mutex l (mx_lock registered i) ms))
            else
              Some (0, mx_put h (OLockFut l guard_drop None true) (put_mutex l (mx_wait registered i) ms))
      end
  | _ => None
  end.

Definition sengoo_async_mutex_lock_i64__poll (h : Z) ms : option (Z * MxStore) :=
  if h =? 0 then Some (1, ms) else
  match mx_objs ms !! h with
  | Some (OLockI64 l life outcome registered) =>
      match lifecycle_enter life with
      | Err error => Some (error, ms)
      | Ok _ =>
          if is_some outcome then Some (1, mx_put h (OLockI64 l guard_mark_ready outcome registered) ms)
          else
            let* i := mutexes ms !! l in
            if mx_closed i then
              Some (1, mx_put h (OLockI64 l guard_mark_ready (Some (Err STATUS_INVALID_HANDLE)) registered) ms)
            else if negb (locked i) then
              Some (1, mx_put h (OLockI64 l guard_mark_ready (Some (Ok (i64_of (mx_payload i)))) false)
                         (put_mutex l (mx_lock registered i) ms))
            else
              Some (0, mx_put h (OLockI64 l guard_drop None true) (put_mutex l (mx_wait registered i) ms))
      end
  | _ => None
  end.

(** [is_ok], value and error *)
Definition sengoo_async_mutex_lock_i64__result (h : Z) ms : option (bool * Z * Z * MxStore) :=
  if h =? 0 then Some (false, 0, STATUS_INVALID_HANDLE, ms) else
  match mx_objs ms !! h with
  | Some (OLockI64 l _ outcome _) =>
      let ms := mx_free h l ms in
      Some (match outcome with
            | Some (Ok v) => (true, v, 0)
            | Some (Err code) => (false, 0, code)
            | None => (false, 0, STATUS_INVALID_HANDLE)
            end, ms)
  | _ => None
  end.

Definition sengoo_async_mutex_lock__result (h : Z) ms : option (Z * MxStore) :=
  if h =? 0 then Some (STATUS_INVALID_HANDLE, ms) else
  match mx_objs ms !! h with
  | Some (OLockFut l _ outcome _) => Some (default STATUS_INVALID_HANDLE outcome, mx_free h l ms)
  | _ => None
  end.

(** A registered waiter leaves the count. *)
Definition mx_unregister (l : nat) (registered : bool) ms : MxStore :=
  match registered, mutexes ms !! l with
  | true, Some i =>
      put_mutex l (mkMx (locked i) (mx_closed i) (mx_waiters i - 1) (mx_payload i) (mx_descriptor i)) ms
  | _, _ => ms
  end.

Definition sengoo_async_mutex_lock__cancel (h : Z) ms : option (bool * MxStore) :=
  if h =? 0 then Some (false, ms) else
  match mx_objs ms !! h with
  | Some (OLockFut l _ _ registered) => Some (true, mx_free h l (mx_unregister l registered ms))
  | _ => None
  end.

Definition sengoo_async_mutex_lock_i64__cancel (h : Z) ms : option (bool * MxStore) :=
  if h =? 0 then Some (false, ms) else
  match mx_objs ms !! h with
  | Some (OLockI64 l _ _ registered) => Some (true, mx_free h l (mx_unregister l registered ms))
  | _ => None
  end.

Definition sengoo_async_mutex_lock__drop (h : Z) ms : option (Z * MxStore) :=
  let* (_, ms) := sengoo_async_mutex_lock__cancel h ms in Some (0, ms).
Definition sengoo_async_mutex_lock_i64__drop (h : Z) ms : option (Z * MxStore) :=
  let* (_, ms) := sengoo_async_mutex_lock_i64__cancel h ms in Some (0, ms).

(** ** The holder's operations *)

Definition mx_with (b : bool) (p : P) inner : AsyncMutexInner :=
  mkMx b (mx_closed inner) (mx_waiters inner) p (mx_descriptor inner).

(** A mutex that is open and locked, or the error to return. *)
Definition held (h : Z) ms : option (result (nat * AsyncMutexInner) unit) :=
  let* r := mutex_ref h ms in
  Some (match r with
        | Err _ => Err tt
        | Ok (l, inner) => if mx_closed inner || negb (locked inner) then Err tt else Ok (l, inner)
        end).

Definition sengoo_async_mutex_unlock_i64 (h value : Z) ms : option (Z * MxStore) :=
  let* r := held h ms in
  match r with
  | Err _ => Some (- STATUS_INVALID_HANDLE, ms)
  | Ok (l, inner) => Some (0, put_mutex l (mx_with false (of_i64 value) inner) ms)
  end.

Definition sengoo_async_mutex_guard_get_i64 (h : Z) ms : option Z :=
  let* r := held h ms in
  Some (match r with Err _ => 0 | Ok (_, inner) => i64_of (mx_payload inner) end).

Definition sengoo_async_mutex_guard_set_i64 (h value : Z) ms : option (Z * MxStore) :=
  let* r := held h ms in
  match r with
  | Err _ => Some (- STATUS_INVALID_HANDLE, ms)
  | Ok (l, inner) => Some (0, put_mutex l (mx_with true (of_i64 value) inner) ms)
  end.

(** The payload the returned pointer points to; [None] is null. *)
Definition sengoo_async_mutex_guard_get (h : Z) ms : option (option P) :=
  let* r := held h ms in
  Some (match r with Err _ => None | Ok (_, inner) => Some (mx_payload inner) end).

(** The code, and what was written to [output]. *)
Definition sengoo_async_mutex_guard_copy_into (h : Z) (output_null : bool) (size : Z) ms : option (Z * option P) :=
  if output_null || (size <=? 0) then Some (- INVALID_ARGUMENT, None)
  else
    let* r := held h ms in
    Some (match r with
          | Err _ => (- STATUS_INVALID_HANDLE, None)
          | Ok (_, inner) =>
              if negb (size =? desc_size (mx_descriptor inner)) then (- INVALID_ARGUMENT, None)
              else (0, Some (mx_payload inner))
          end).

Definition sengoo_async_mutex_guard_set (h : Z) (value : option P) (drop_value : bool) ms : option (Z * MxStore) :=
  match value with
  | None => Some (- INVALID_ARGUMENT, ms)
  | Some v =>
      if negb drop_value then Some (- INVALID_ARGUMENT, ms)
      else
        let* r := held h ms in
        match r with
        | Err _ => Some (- STATUS_INVALID_HANDLE, mx_drop [v] ms)
        | Ok (l, inner) => Some (0, mx_drop [mx_payload inner] (put_mutex l (mx_with true v inner) ms))
        end
  end.

Definition sengoo_async_mutex_guard_unlock (h : Z) ms : option (Z * MxStore) :=
  let* r := held h ms in
  match r with
  | Err _ => Some (- STATUS_INVALID_HANDLE, ms)
  | Ok (l, inner) => Some (0, put_mutex l (mx_with false (mx_payload inner) inner) ms)
  end.

Definition sengoo_async_mutex_guard_unlock_i64 : Z -> MxStore -> option (Z * MxStore) :=
  sengoo_async_mutex_guard_unlock.

Definition read_i64_from_generic_mutex (h : Z) ms : option (option Z) :=
  let* r := mutex_ref h ms in
  Some (match r with
        | Err _ => None
        | Ok (_, inner) => if mx_closed inner then None else Some (i64_of (mx_payload inner))
        end).

(** ** Runs *)

Inductive MxOp :=
| MxNew (d : option SengooTypeDescriptor) (value : option P) (alloc_ok : bool)
| MxNewParts (value : option P) (size align : Z) (move_value drop_value alloc_ok : bool)
| MxClose (h : Z) | MxDrop (h : Z)
| MxStart (h : Z) | MxPoll (h : Z) | MxResult (h : Z) | MxCancel (h : Z) | MxFutDrop (h : Z)
| MxUnlock (h : Z)
| MxGuardSet (h : Z) (value : option P) (drop_value : bool)
(* the interface to mutexes of integers *)
| MxNewI64 (v : Z) (alloc_ok : bool)
| MxStartI64 (h : Z) | MxPollI64 (h : Z) | MxResultI64 (h : Z) | MxCancelI64 (h : Z) | MxFutDropI64 (h : Z)
| MxUnlockI64 (h v : Z) | MxGuardSetI64 (h v : Z).

Definition mx_exec (op : MxOp) ms : option MxStore :=
  match op with
  | MxNew d v a => snd <$> sengoo_async_mutex_new d v a ms
  | MxNewParts v s al m d a => snd <$> sengoo_async_mutex_new_parts v s al m d a ms
  | MxClose h => snd <$> sengoo_async_mutex_close h ms
  | MxDrop h => snd <$> sengoo_async_mutex_drop h ms
  | MxStart h => snd <$> sengoo_async_mutex_lock__start h ms
  | MxPoll h => snd <$> sengoo_async_mutex_lock__poll h ms
  | MxResult h => snd <$> sengoo_async_mutex_lock__result h ms
  | MxCancel h => snd <$> sengoo_async_mutex_lock__cancel h ms
  | MxFutDrop h => snd <$> sengoo_async_mutex_lock__drop h ms
  | MxUnlock h => snd <$> sengoo_async_mutex_guard_unlock h ms
  | MxGuardSet h v d => snd <$> sengoo_async_mutex_guard_set h v d ms
  | MxNewI64 v a => snd <$> sengoo_async_mutex_new_i64 v a ms
  | MxStartI64 h => snd <$> sengoo_async_mutex_lock_i64__start h ms
  | MxPollI64 h => snd <$> sengoo_async_mutex_lock_i64__poll h ms
  | MxResultI64 h => snd <$> sengoo_async_mutex_lock_i64__result h ms
  | MxCancelI64 h => snd <$> sengoo_async_mutex_lock_i64__cancel h ms
  | MxFutDropI64 h => snd <$> sengoo_async_mutex_lock_i64__drop h ms
  | MxUnlockI64 h v => snd <$> sengoo_async_mutex_unlock_i64 h v ms
  | MxGuardSetI64 h v => snd <$> sengoo_async_mutex_guard_set_i64 h v ms
  end.
End mutex.

Arguments AsyncMutexInner : clear implicits.
Arguments MxStore : clear implicits.
Arguments MxOp : clear implicits.

Section invariant.
Context {P : Type}.
Context (i64_of : P -> Z) (of_i64 : Z -> P).

Implicit Types (ms : MxStore P) (op : MxOp P) (i : AsyncMutexInner P).
Notation exec := (mx_exec i64_of of_i64).

(** ** What the caller sees *)

(** The mutex a call locked ([true]) or unlocked ([false]), by what it
    answered: a poll that became ready with success, an unlock that returned
    zero. *)
Definition mx_event op ms ms' : option (nat * bool) :=
  match op with
  | MxPoll h =>
      match mx_objs ms !! h, mx_objs ms' !! h with
      | Some (OLockFut l _ None _), Some (OLockFut _ _ (Some 0) _) => Some (l, true)
      | _, _ => None
      end
  | MxPollI64 h =>
      match mx_objs ms !! h, mx_objs ms' !! h with
      | Some (OLockI64 l _ None _), Some (OLockI64 _ _ (Some (Ok _)) _) => Some (l, true)
      | _, _ => None
      end
  | MxUnlock h =>
      match mx_objs ms !! h, fst <$> sengoo_async_mutex_guard_unlock h ms with
      | Some (OMutex l), Some 0 => Some (l, false)
      | _, _ => None
      end
  | MxUnlockI64 h v =>
      match mx_objs ms !! h, fst <$> sengoo_async_mutex_unlock_i64 of_i64 h v ms with
      | Some (OMutex l), Some 0 => Some (l, false)
      | _, _ => None
      end
  | _ => None
  end.

(** The payload a call takes over. *)
Definition mx_taken op : list P :=
  match op with
  | MxNew (Some d) v a => option_list (owned_descriptor_value_new d v a)
  | MxNewParts v s al m d a =>
      match descriptor_from_parts s al m d with
      | Some d => option_list (owned_descriptor_value_new d v a)
      | None => []
      end
  | MxNewI64 v a => option_list (owned_descriptor_value_new scalar_i64_descriptor (Some (of_i64 v)) a)
  | MxGuardSet _ (Some v) true => [v]
  | _ => []
  end.

(** The calls that overwrite an integer in place; a payload with an owner is
    for the generic calls. *)
Definition overwrites op : bool :=
  match op with MxUnlockI64 _ _ | MxGuardSetI64 _ _ => true | _ => false end.

(** ** Steps on the mutexes *)

Inductive mx_step ms ms' : list (nat * bool) -> list P -> bool -> Prop :=
| SObjs : mutexes ms' = mutexes ms -> mx_calls ms' = mx_calls ms -> mx_next ms' = mx_next ms ->
    mx_step ms ms' [] [] false
| SUpdate l i i' : mutexes ms !! l = Some i -> mutexes ms' = <[l := i']> (mutexes ms) ->
    mx_calls ms' = mx_calls ms -> mx_next ms' = mx_next ms -> mx_payload i' = mx_payload i ->
    mx_step ms ms' (if eqb (locked i') (locked i) then [] else [(l, locked i')]) [] false
| SOver l i i' : mutexes ms !! l = Some i -> mutexes ms' = <[l := i']> (mutexes ms) ->
    mx_calls ms' = mx_calls ms -> mx_next ms' = mx_next ms ->
    mx_step ms ms' (if eqb (locked i') (locked i) then [] else [(l, locked i')]) [] true
| SSet l i v : mutexes ms !! l = Some i -> mutexes ms' = <[l := mx_with (locked i) v i]> (mutexes ms) ->
    mx_calls ms' = mx_calls ms ++ [CallDrop (mx_payload i)] -> mx_next ms' = mx_next ms ->
    mx_step ms ms' [] [v] false
| SDropArg v : mutexes ms' = mutexes ms -> mx_calls ms' = mx_calls ms ++ [CallDrop v] -> mx_next ms' = mx_next ms ->
    mx_step ms ms' [] [v] false
| SFree l i : mutexes ms !! l = Some i -> mutexes ms' = delete l (mutexes ms) ->
    mx_calls ms' = mx_calls ms ++ [CallDrop (mx_payload i)] -> mx_next ms' = mx_next ms ->
    mx_step ms ms' [] [] false
| SNew p d : mutexes ms' = <[mx_next ms := mkMx false false 0 p d]> (mutexes ms) ->
    mx_calls ms' = mx_calls ms -> mx_next ms' = S (mx_next ms) -> mx_step ms ms' [] [p] false.

Inductive mx_steps : MxStore P -> MxStore P -> list (nat * bool) -> list P -> bool -> Prop :=
| steps_nil ms : mx_steps ms ms [] [] false
| steps_cons ms1 ms2 ms3 e1 e2 t1 t2 o1 o2 :
    mx_step ms1 ms2 e1 t1 o1 -> mx_steps ms2 ms3 e2 t2 o2 ->
    mx_steps ms1 ms3 (e1 ++ e2) (t1 ++ t2) (o1 || o2).

Lemma steps_one ms ms' e t o : mx_step ms ms' e t o -> mx_steps ms ms' e t o.
Proof.
  intros H. rewrite <- (app_nil_r e), <- (app_nil_r t), <- (orb_false_r o).
  econstructor; [done|constructor].
Qed.

Lemma steps_app ms1 ms2 ms3 e1 e2 t1 t2 o1 o2 :
  mx_steps ms1 ms2 e1 t1 o1 -> mx_steps ms2 ms3 e2 t2 o2 -> mx_steps ms1 ms3 (e1 ++ e2) (t1 ++ t2) (o1 || o2).
Proof.
  intros H1. revert ms3 e2 t2 o2. induction H1 as [|ms1 ms2 ms4 ea eb ta tb oa ob Hs Hss IH]; intros ms3 e2 t2 o2 H2; [done|].
  rewrite <- !(assoc_L (++)), <- orb_assoc. econstructor; [done|]. by apply IH.
Qed.

(** ** The calls are steps *)

Lemma mutex_ref_inv h ms l i : mutex_ref h ms = Some (Ok (l, i)) ->
  h <> 0 /\ mx_objs ms !! h = Some (OMutex l) /\ mutexes ms !! l = Some i.
Proof.
  unfold mutex_ref. destruct (Z.eqb_spec h 0); [done|]. destruct (mx_objs ms !! h) as [[l0| |]|]; try done.
  destruct (mutexes ms !! l0) eqn:E; [|done]. by intros [= -> ->].
Qed.

Lemma held_inv h ms l i : held h ms = Some (Ok (l, i)) ->
  mutex_ref h ms = Some (Ok (l, i)) /\ mx_closed i = false /\ locked i = true.
Proof.
  unfold held. destruct (mutex_ref h ms) as [[[l0 i0]|[]]|]; try done.
  destruct (mx_closed i0) eqn:E1; [done|]. destruct (locked i0) eqn:E2; [|done]. simpl. by intros [= -> ->].
Qed.

Lemma free_steps h l ms : mx_steps ms (mx_free h l ms) [] [] false.
Proof.
  unfold mx_free. destruct (mutexes ms !! l) as [i|] eqn:E.
  - destruct (mx_referenced _ _); [by apply steps_one, SObjs|]. by eapply steps_one, (SFree _ _ l i).
  - by apply steps_one, SObjs.
Qed.

Lemma update_steps l i i' ms :
  mutexes ms !! l = Some i -> mx_payload i' = mx_payload i -> locked i' = locked i ->
  mx_steps ms (put_mutex l i' ms) [] [] false.
Proof.
  intros E Ep El. pose proof (SUpdate ms (put_mutex l i' ms) l i i' E eq_refl eq_refl eq_refl Ep) as H.
  rewrite El, eqb_reflx in H. by apply steps_one.
Qed.

Lemma new_steps d v a ms r ms' : sengoo_async_mutex_new (Some d) v a ms = Some (r, ms') ->
  mx_steps ms ms' [] (option_list (owned_descriptor_value_new d v a)) false.
Proof.
  unfold sengoo_async_mutex_new. destruct (owned_descriptor_value_new d v a) as [p|]; intros [= _ <-].
  - by eapply steps_one, SNew.
  - constructor.
Qed.

Lemma unregister_steps l b ms : mx_steps ms (mx_unregister l b ms) [] [] false.
Proof.
  unfold mx_unregister. destruct b; [|constructor]. destruct (mutexes ms !! l) eqn:E; [|constructor].
  by eapply update_steps.
Qed.

Lemma close_steps l i ms : mutexes ms !! l = Some i -> mx_steps ms (put_mutex l (mx_set_closed i) ms) [] [] false.
Proof. intros E. by eapply update_steps. Qed.

(** Locking: the state of an unlocked mutex with the future marked. *)
Lemma lock_steps l i b h o ms :
  mutexes ms !! l = Some i -> locked i = false ->
  mx_steps ms (mx_put h o (put_mutex l (mx_lock b i) ms)) [(l, true)] [] false.
Proof.
  intros E El. pose proof (SUpdate ms (mx_put h o (put_mutex l (mx_lock b i) ms)) l i (mx_lock b i) E eq_refl eq_refl eq_refl eq_refl) as H.
  simpl in H. rewrite El in H. by apply steps_one.
Qed.

Lemma wait_steps l i b h o ms :
  mutexes ms !! l = Some i -> mx_steps ms (mx_put h o (put_mutex l (mx_wait b i) ms)) [] [] false.
Proof.
  intros E. pose proof (SUpdate ms (mx_put h o (put_mutex l (mx_wait b i) ms)) l i (mx_wait b i) E eq_refl eq_refl eq_refl eq_refl) as H.
  simpl in H. rewrite eqb_reflx in H. by apply steps_one.
Qed.

Lemma put_steps h o ms : mx_steps ms (mx_put h o ms) [] [] false.
Proof. by apply steps_one, SObjs. Qed.

Lemma poll_steps h ms r ms' :
  sengoo_async_mutex_lock__poll h ms = Some (r, ms') ->
  mx_steps ms ms' (option_list (mx_event (MxPoll h) ms ms')) [] false.
Proof.
  unfold sengoo_async_mutex_lock__poll, mx_event. destruct (h =? 0).
  { intros [= _ <-]. destruct (mx_objs ms !! h) as [[|l ? [|] ?|]|] eqn:E; constructor. }
  destruct (mx_objs ms !! h) as [[|l life o b|]|] eqn:Eo; try done.
  destruct (lifecycle_enter life); [|intros [= _ <-]; rewrite Eo; destruct o; constructor].
  destruct o as [o|]; cbn [is_some]. { intros [= _ <-]. apply put_steps. }
  destruct (mutexes ms !! l) as [i|] eqn:El; [|done].
  destruct (mx_closed i). { intros [= _ <-]. cbn [mx_put mx_objs]. rewrite lookup_insert_eq. apply put_steps. }
  destruct (locked i) eqn:Ek; cbn [negb]; intros [= _ <-]; cbn [mx_put mx_objs put_mutex]; rewrite lookup_insert_eq.
  - by apply wait_steps.
  - by apply lock_steps.
Qed.

Lemma poll_i64_steps h ms r ms' :
  sengoo_async_mutex_lock_i64__poll i64_of h ms = Some (r, ms') ->
  mx_steps ms ms' (option_list (mx_event (MxPollI64 h) ms ms')) [] false.
Proof.
  unfold sengoo_async_mutex_lock_i64__poll, mx_event. destruct (h =? 0).
  { intros [= _ <-]. destruct (mx_objs ms !! h) as [[| |l ? [|] ?]|] eqn:E; constructor. }
  destruct (mx_objs ms !! h) as [[| |l life o b]|] eqn:Eo; try done.
  destruct (lifecycle_enter life); [|intros [= _ <-]; rewrite Eo; destruct o; constructor].
  destruct o as [o|]; cbn [is_some]. { intros [= _ <-]. apply put_steps. }
  destruct (mutexes ms !! l) as [i|] eqn:El; [|done].
  destruct (mx_closed i). { intros [= _ <-]. cbn [mx_put mx_objs]. rewrite lookup_insert_eq. apply put_steps. }
  destruct (locked i) eqn:Ek; cbn [negb]; intros [= _ <-]; cbn [mx_put mx_objs put_mutex]; rewrite lookup_insert_eq.
  - by apply wait_steps.
  - by apply lock_steps.
Qed.

Lemma over_steps l i b p ms :
  mutexes ms !! l = Some i -> locked i = true ->
  mx_steps ms (put_mutex l (mx_with b p i) ms) (if b then [] else [(l, false)]) [] true.
Proof.
  intros E El. pose proof (SOver ms (put_mutex l (mx_with b p i) ms) l i (mx_with b p i) E eq_refl eq_refl eq_refl) as H.
  simpl in H. rewrite El in H. destruct b; by apply steps_one.
Qed.

Lemma unlock_steps l i ms :
  mutexes ms !! l = Some i -> locked i = true ->
  mx_steps ms (put_mutex l (mx_with false (mx_payload i) i) ms) [(l, false)] [] false.
Proof.
  intros E El. pose proof (SUpdate ms (put_mutex l (mx_with false (mx_payload i) i) ms) l i _ E eq_refl eq_refl eq_refl eq_refl) as H.
  simpl in H. rewrite El in H. by apply steps_one.
Qed.

Ltac on_mutex E := destruct (mutex_ref _ _) as [[[l i]|[]]|] eqn:E; [| |done].
Ltac on_held E := destruct (held _ _) as [[[l i]|[]]|] eqn:E; [| |done].

Lemma cancel_steps h ms b ms' : sengoo_async_mutex_lock__cancel h ms = Some (b, ms') -> mx_steps ms ms' [] [] false.
Proof.
  unfold sengoo_async_mutex_lock__cancel. destruct (h =? 0); [intros [= _ <-]; constructor|].
  destruct (mx_objs ms !! h) as [[|l ? ? reg|]|]; try done. intros [= _ <-].
  apply (steps_app _ _ _ [] [] [] [] false false (unregister_steps l reg ms)), free_steps.
Qed.

Lemma cancel_i64_steps h ms b ms' : sengoo_async_mutex_lock_i64__cancel h ms = Some (b, ms') -> mx_steps ms ms' [] [] false.
Proof.
  unfold sengoo_async_mutex_lock_i64__cancel. destruct (h =? 0); [intros [= _ <-]; constructor|].
  destruct (mx_objs ms !! h) as [[| |l ? ? reg]|]; try done. intros [= _ <-].
  apply (steps_app _ _ _ [] [] [] [] false false (unregister_steps l reg ms)), free_steps.
Qed.

Lemma guard_set_steps h v d ms r ms' :
  sengoo_async_mutex_guard_set h v d ms = Some (r, ms') -> mx_steps ms ms' [] (mx_taken (MxGuardSet h v d)) false.
Proof.
  unfold sengoo_async_mutex_guard_set. destruct v as [v|]; [|intros [= _ <-]; constructor].
  destruct d; cbn [negb]; [|intros [= _ <-]; constructor]. on_held Eh; intros [= _ <-].
  - apply held_inv in Eh as ((_ & _ & E)%mutex_ref_inv & _ & Hl).
    apply steps_one, (SSet _ _ l i v); try done. by rewrite Hl.
  - by apply steps_one, (SDropArg _ _ v).
Qed.

(** Every call is a sequence of steps that makes the event the caller sees. *)
Lemma exec_steps op ms ms' :
  exec op ms = Some ms' ->
  exists o, mx_steps ms ms' (option_list (mx_event op ms ms')) (mx_taken op) o /\ (overwrites op = false -> o = false).
Proof.
  destruct op; cbn [mx_exec]; intros H; apply fmap_Some in H as ([r ms1] & E & Ems); cbn [snd] in Ems; subst ms1.
  1-6, 7-11: exists false; split; [|done].
  - destruct d; [by eapply new_steps|]. simpl in E. simplify_eq. constructor.
  - unfold sengoo_async_mutex_new_parts in E. cbn [mx_taken]. destruct (descriptor_from_parts _ _ _ _);
      [by eapply new_steps|]. simplify_eq. constructor.
  - unfold sengoo_async_mutex_close in E. revert E. on_mutex Em; intros [= _ <-]; [|constructor].
    apply mutex_ref_inv in Em as (_ & _ & Em). by apply close_steps.
  - unfold sengoo_async_mutex_drop in E. revert E. on_mutex Em; intros [= _ <-]; [|constructor].
    apply mutex_ref_inv in Em as (_ & _ & Em).
    apply (steps_app _ _ _ [] [] [] [] false false (close_steps l i ms Em)), free_steps.
  - unfold sengoo_async_mutex_lock__start in E. revert E. on_mutex Em; intros [= _ <-]; [|constructor].
    by apply steps_one, SObjs.
  - by eapply poll_steps.
  - unfold sengoo_async_mutex_lock__result in E. destruct (h =? 0); [simplify_eq; constructor|].
    destruct (mx_objs ms !! h) as [[|l ? o ?|]|]; try done. simplify_eq. apply free_steps.
  - by eapply cancel_steps.
  - unfold sengoo_async_mutex_lock__drop in E. destruct (sengoo_async_mutex_lock__cancel h ms) as [[b ms2]|] eqn:Ec; [|done].
    simplify_eq. by eapply cancel_steps.
  - cbn [mx_event mx_taken]. rewrite E. cbn [fmap option_fmap option_map fst].
    unfold sengoo_async_mutex_guard_unlock in E. revert E. on_held Eh; intros [= <- <-].
    + apply held_inv in Eh as ((_ & -> & Em)%mutex_ref_inv & _ & Hl). by apply unlock_steps.
    + destruct (mx_objs ms !! h) as [[]|]; constructor.
  - by eapply guard_set_steps.
  - exists false; split; [|done]. by eapply new_steps.
  - exists false; split; [|done]. unfold sengoo_async_mutex_lock_i64__start in E. revert E.
    on_mutex Em; intros [= _ <-]; [|constructor]. by apply steps_one, SObjs.
  - exists false; split; [|done]. by eapply poll_i64_steps.
  - exists false; split; [|done]. unfold sengoo_async_mutex_lock_i64__result in E.
    destruct (h =? 0); [simplify_eq; constructor|].
    destruct (mx_objs ms !! h) as [[| |l ? o ?]|]; try done. destruct o as [[|]|]; simplify_eq; apply free_steps.
  - exists false; split; [|done]. by eapply cancel_i64_steps.
  - exists false; split; [|done]. unfold sengoo_async_mutex_lock_i64__drop in E.
    destruct (sengoo_async_mutex_lock_i64__cancel h ms) as [[b ms2]|] eqn:Ec; [|done].
    simplify_eq. by eapply cancel_i64_steps.
  - cbn [mx_event mx_taken]. rewrite E. cbn [fmap option_fmap option_map fst].
    unfold sengoo_async_mutex_unlock_i64 in E. revert E. on_held Eh; intros [= <- <-].
    + apply held_inv in Eh as ((_ & -> & Em)%mutex_ref_inv & _ & Hl). exists true. split; [|done].
      by apply (over_steps l i false).
    + exists false. split; [|done]. destruct (mx_objs ms !! h) as [[]|]; constructor.
  - unfold sengoo_async_mutex_guard_set_i64 in E. revert E. on_held Eh; intros [= <- <-].
    + apply held_inv in Eh as ((_ & _ & Em)%mutex_ref_inv & _ & Hl). exists true. split; [|done].
      by apply (over_steps l i true).
    + exists false. split; [|done]. constructor.
Qed.

(** ** Runs and their histories *)

(** A run with the events its callers saw and the payloads it took over. *)
Fixpoint mx_run (ops : list (MxOp P)) ms : option (MxStore P * list (nat * bool)) :=
  match ops with
  | [] => Some (ms, [])
  | op :: ops =>
      let* next := exec op ms in
      let* (final, evs) := mx_run ops next in
      Some (final, option_list (mx_event op ms next) ++ evs)
  end.

Lemma run_steps ops ms ms' evs :
  mx_run ops ms = Some (ms', evs) ->
  exists o, mx_steps ms ms' evs (concat (map mx_taken ops)) o /\ (forallb (fun op => negb (overwrites op)) ops = true -> o = false).
Proof.
  revert ms evs. induction ops as [|op ops IH]; intros ms evs; cbn [mx_run map concat forallb].
  { intros [= -> <-]. exists false. split; [constructor|done]. }
  destruct (exec op ms) as [ms1|] eqn:E1; cbn [mbind option_bind]; [|done].
  destruct (mx_run ops ms1) as [[ms2 e]|] eqn:E2; [|done]. intros [= -> <-].
  destruct (exec_steps _ _ _ E1) as (o1 & S1 & H1), (IH _ _ E2) as (o2 & S2 & H2).
  exists (o1 || o2). split; [by eapply steps_app|].
  intros [Ha Hb]%andb_true_iff. rewrite negb_true_iff in Ha. by rewrite H1, H2.
Qed.

(** The events of one mutex, in order. *)
Definition of_mutex (l : nat) (evs : list (nat * bool)) : list bool :=
  snd <$> filter (fun e => e.1 = l) evs.

(** Whether the last event was a lock. *)
Definition last_locked (bs : list bool) : bool := default false (last bs).

(** Locks and unlocks alternate, beginning with the state [b]'s opposite. *)
Fixpoint alternates (b : bool) (bs : list bool) : bool :=
  match bs with
  | [] => true
  | e :: bs => eqb e (negb b) && alternates e bs
  end.

Lemma alternates_snoc c bs b :
  alternates c bs = true -> b = negb (default c (last bs)) -> alternates c (bs ++ [b]) = true.
Proof.
  revert c. induction bs as [|e bs IH]; intros c; cbn [alternates app].
  { intros _ ->. cbn. by rewrite eqb_reflx. }
  intros [He Hbs]%andb_true_iff Hb. rewrite He. cbn. apply IH; [done|].
  rewrite Hb. rewrite last_cons. by destruct (last bs).
Qed.

Lemma of_mutex_app l e1 e2 : of_mutex l (e1 ++ e2) = of_mutex l e1 ++ of_mutex l e2.
Proof. unfold of_mutex. by rewrite filter_app, fmap_app. Qed.

Lemma of_mutex_one l l' b : of_mutex l [(l', b)] = if decide (l' = l) then [b] else [].
Proof. unfold of_mutex. cbn. by destruct (decide (l' = l)). Qed.

(** What relates the state to the history: every mutex's events alternate, a
    live mutex is locked exactly when its last event was a lock, and an
    address not given out yet has no event. *)
Record mx_history ms (evs : list (nat * bool)) : Prop := {
  hist_alternates : forall l, alternates false (of_mutex l evs) = true;
  hist_locked : forall l i, mutexes ms !! l = Some i -> (l < mx_next ms)%nat /\ locked i = last_locked (of_mutex l evs);
  hist_fresh : forall l, (mx_next ms <= l)%nat -> of_mutex l evs = [];
}.

Lemma history_update ms ms' evs l i i' :
  mx_history ms evs -> mutexes ms !! l = Some i -> mutexes ms' = <[l := i']> (mutexes ms) ->
  mx_next ms' = mx_next ms ->
  mx_history ms' (evs ++ if eqb (locked i') (locked i) then [] else [(l, locked i')]).
Proof.
  intros [Ha Hl Hf] E Em En. destruct (Hl _ _ E) as (Hlt & Hi).
  destruct (eqb (locked i') (locked i)) eqn:Eb.
  - rewrite app_nil_r. apply eqb_prop in Eb. split; rewrite ?En, ?Em; [done| |done].
    intros k j. rewrite lookup_insert_Some. intros [[<- <-]|[_ Hk]]; [by rewrite Eb|by apply Hl].
  - assert (locked i' = negb (locked i)) as Eb' by (destruct (locked i'), (locked i); done).
    split; rewrite ?En, ?Em; intros k; rewrite of_mutex_app, of_mutex_one; destruct (decide (l = k)) as [<-|Hne]; rewrite ?app_nil_r.
    + apply alternates_snoc; [done|]. by rewrite Eb', Hi.
    + done.
    + intros j. rewrite lookup_insert_eq. intros [= <-]. split; [done|]. unfold last_locked. by rewrite last_snoc.
    + intros j. rewrite lookup_insert_ne by done. apply Hl.
    + lia.
    + apply Hf.
Qed.

Lemma history_step ms ms' evs e t o :
  mx_history ms evs -> mx_step ms ms' e t o -> mx_history ms' (evs ++ e).
Proof.
  intros H Hs. destruct Hs as [Em Ec En|l i i' E Em Ec En Ep|l i i' E Em Ec En|l i v E Em Ec En|v Em Ec En|l i E Em Ec En|p d Em Ec En].
  1,5: rewrite app_nil_r; destruct H as [Ha Hl Hf]; by split; rewrite ?En, ?Em.
  1,2: by eapply history_update.
  - pose proof (history_update ms ms' evs l i (mx_with (locked i) v i) H E Em En) as H'.
    cbn [mx_with locked] in H'. by rewrite eqb_reflx in H'.
  - rewrite app_nil_r. destruct H as [Ha Hl Hf]. split; rewrite ?En, ?Em; [done| |done].
    intros k j [_ Hk]%lookup_delete_Some. by apply Hl.
  - rewrite app_nil_r. destruct H as [Ha Hl Hf]. split; rewrite ?En, ?Em; [done| |].
    + intros k j. rewrite lookup_insert_Some. intros [[<- <-]|[_ Hk]].
      * split; [lia|]. by rewrite Hf.
      * destruct (Hl _ _ Hk). split; [lia|done].
    + intros k Hk. apply Hf. lia.
Qed.

Lemma history_steps ms ms' evs e t o :
  mx_steps ms ms' e t o -> mx_history ms evs -> mx_history ms' (evs ++ e).
Proof.
  intros Hs. revert evs. induction Hs as [|ms1 ms2 ms3 e1 e2 t1 t2 o1 o2 Hs Hss IH]; intros evs H.
  - by rewrite app_nil_r.
  - rewrite (assoc_L (++)). apply IH. by eapply history_step.
Qed.

Lemma history_init : mx_history mx_init [].
Proof. by split. Qed.

(** ** Payloads *)

Definition mx_live ms : list P := gather (fun i => [mx_payload i]) (mutexes ms).
Definition mx_ended ms : list P := map call_payload (mx_calls ms).

Lemma conserved_step ms ms' evs e t taken :
  mx_history ms evs -> mx_step ms ms' e t false ->
  taken ≡ₚ mx_live ms ++ mx_ended ms -> taken ++ t ≡ₚ mx_live ms' ++ mx_ended ms'.
Proof.
  intros [_ Hl _] Hs ->. remember false as o eqn:Eo. unfold mx_live, mx_ended.
  destruct Hs as [Em Ec En|l i i' E Em Ec En Ep|l i i' E Em Ec En|l i v E Em Ec En|v Em Ec En|l i E Em Ec En|p d Em Ec En]; try done; rewrite Em, Ec.
  - by rewrite app_nil_r.
  - rewrite app_nil_r, (gather_replace _ _ l i i' E), (gather_delete _ (mutexes ms) l i E). by rewrite Ep.
  - rewrite (gather_replace _ _ l i _ E), (gather_delete _ (mutexes ms) l i E), map_app. cbn. solve_Permutation.
  - rewrite map_app. cbn. solve_Permutation.
  - rewrite app_nil_r, (gather_delete _ (mutexes ms) l i E), map_app. cbn. solve_Permutation.
  - assert (mutexes ms !! mx_next ms = None) as Hnone.
    { destruct (mutexes ms !! mx_next ms) eqn:E; [|done]. destruct (Hl _ _ E). lia. }
    rewrite (gather_new _ _ _ _ Hnone). cbn. solve_Permutation.
Qed.

Lemma conserved_steps ms ms' evs e t o taken :
  mx_steps ms ms' e t o -> o = false -> mx_history ms evs ->
  taken ≡ₚ mx_live ms ++ mx_ended ms -> taken ++ t ≡ₚ mx_live ms' ++ mx_ended ms'.
Proof.
  intros Hs. revert evs taken. induction Hs as [|ms1 ms2 ms3 e1 e2 t1 t2 o1 o2 Hs Hss IH]; intros evs taken Ho H Ht.
  - by rewrite app_nil_r.
  - apply orb_false_iff in Ho as [-> ->]. rewrite (assoc_L (++)).
    eapply IH; [done|by eapply history_step|by eapply conserved_step].
Qed.

(** C32: Mutual exclusion as the callers see it.  On every run of the mutex
    interface from the empty store (both the generic and the integer calls, any
    number of mutexes and futures, in any order), the locks and unlocks of each
    mutex alternate, beginning with a lock: no two lock futures become ready
    with success without a successful unlock between them.  A mutex that is
    still alive is locked exactly when its last event was a lock. *)
Theorem mutex_mutual_exclusion ops ms evs l :
  mx_run ops mx_init = Some (ms, evs) ->
  alternates false (of_mutex l evs) = true /\
  (forall i, mutexes ms !! l = Some i -> locked i = last_locked (of_mutex l evs)).
Proof.
  intros (o & Hs & _)%run_steps. destruct (history_steps _ _ _ _ _ _ Hs history_init) as [Ha Hl _].
  split; [apply Ha|]. intros i Hi. by apply Hl.
Qed.

(** Payloads are conserved: after a run that does not overwrite integers
    in place, the payloads the mutexes took over are, as a multiset, those
    still in a live mutex and those given to a drop call.  So no payload is
    dropped twice, none is lost, and a mutex that nothing refers to any more
    has dropped its own. *)
Theorem mutex_payload_conservation ops ms evs :
  mx_run ops mx_init = Some (ms, evs) -> forallb (fun op => negb (overwrites op)) ops = true ->
  concat (map mx_taken ops) ≡ₚ mx_live ms ++ mx_ended ms.
Proof.
  intros (o & Hs & Ho)%run_steps Hops.
  rewrite <- (app_nil_l (concat _)). apply (conserved_steps _ _ _ _ _ _ [] Hs (Ho Hops) history_init).
  unfold mx_live, mx_ended. simpl. by rewrite gather_empty.
Qed.
End invariant.

(** ** Runs *)

(** Two futures race for a mutex of payload 7; the second waits until the
    first holder has replaced the payload and unlocked. *)
Definition race : list (MxOp Z) :=
  [MxNew (Some scalar_i64_descriptor) (Some 7) true; MxStart 1; MxStart 1; MxPoll 2; MxPoll 3;
   MxGuardSet 1 (Some 8) true; MxUnlock 1; MxPoll 3; MxResult 2; MxResult 3; MxUnlock 1; MxDrop 1].

Lemma mutex_mutual_exclusion_witness :
  exists ms evs, mx_run id id race mx_init = Some (ms, evs) /\
    of_mutex 0 evs = [true; false; true; false] /\ alternates false (of_mutex 0 evs) = true.
Proof.
  eexists _, _. split; [vm_compute; reflexivity|]. split; [vm_compute; reflexivity|].
  refine (proj1 (mutex_mutual_exclusion id id race _ _ 0 _)). vm_compute. reflexivity.
Defined.

Lemma mutex_payload_conservation_witness :
  exists ms evs, mx_run id id race mx_init = Some (ms, evs) /\ mutexes ms = ∅ /\
    concat (map (mx_taken id) race) ≡ₚ mx_live ms ++ mx_ended ms.
Proof.
  eexists _, _. split; [vm_compute; reflexivity|]. split; [vm_compute; reflexivity|].
  eapply (mutex_payload_conservation id id race); vm_compute; reflexivity.
Defined.

(** A lock future that became ready and is cancelled, or dropped before its
    result is taken, does not give the lock back: the next future waits with
    no holder left to unlock. *)
Theorem cancelled_lock_stays_locked :
  exists ms, mx_run id id [MxNewI64 7 true; MxStart 1; MxPoll 2; MxCancel 2; MxStart 1; MxPoll 3] mx_init
    = Some (ms, [(0%nat, true)]) /\
    mx_objs ms !! 3 = Some (OLockFut 0 guard_drop None true) /\
    (locked <$> mutexes ms !! 0%nat) = Some true.
Proof. eexists. repeat split; vm_compute; reflexivity. Qed.

(** Nothing identifies the holder: whoever has the mutex handle may unlock it
    while another task works under the lock. *)
Theorem unlock_by_another :
  exists ms, mx_run id id [MxNewI64 7 true; MxStart 1; MxStart 1; MxPoll 2; MxUnlock 1; MxPoll 3] mx_init
    = Some (ms, [(0%nat, true); (0%nat, false); (0%nat, true)]) /\
    mx_objs ms !! 2 = Some (OLockFut 0 guard_mark_ready (Some 0) false) /\
    mx_objs ms !! 3 = Some (OLockFut 0 guard_mark_ready (Some 0) false).
Proof. eexists. repeat split; vm_compute; reflexivity. Qed.

(** Taking the result of a future that is still waiting leaves it in the count
    of waiters. *)
Theorem result_leaks_waiter :
  exists ms evs, mx_run id id [MxNewI64 7 true; MxStart 1; MxStart 1; MxPoll 2; MxPoll 3; MxResult 3] mx_init
    = Some (ms, evs) /\
    mx_objs ms !! 3 = None /\ (mx_waiters <$> mutexes ms !! 0%nat) = Some 1%nat.
Proof. eexists _, _. repeat split; vm_compute; reflexivity. Qed.
