(* ===== verification/FormatTemplate.v ===== *)
(** The [format] and f-string template parser:
    compiler/src/format_template.rs.

    A string is the list of its [char]s, a [char] its scalar value. *)

From S2P Require Import Prelude.

Local Open Scope Z_scope.

Notation char := Z (only parsing).

Definition LBRACE : char := 123.
Definition RBRACE : char := 125.
Definition COLON : char := 58.
Definition DOT : char := 46.
Definition GT : char := 62.
Definition QUESTION : char := 63.
Definition PLUS : char := 43.

Definition usize_max : Z := 2 ^ 64 - 1.

Inductive FormatStyle := Display | Debug.
Inductive FormatAlign := AlignNone | AlignRight.

Record FormatPlaceholder := mkPlaceholder {
  position : option Z;
  style : FormatStyle;
  align : FormatAlign;
  width : option Z;
  precision : option Z;
}.

Inductive FormatSegment :=
| Literal (s : list char)
| Placeholder (p : FormatPlaceholder).

Inductive FormatTemplateError :=
| UnmatchedBrace
| UnsupportedSpec (spec : list char).

(** ** Standard library *)

(** [str::split_once] *)
Fixpoint split_once (c : char) (s : list char) : option (list char * list char) :=
  match s with
  | [] => None
  | x :: s' =>
      if x =? c then Some ([], s')
      else match split_once c s' with Some (a, b) => Some (x :: a, b) | None => None end
  end.

Definition is_digit (c : char) : bool := (48 <=? c) && (c <=? 57).

Fixpoint parse_digits (acc : Z) (s : list char) : option Z :=
  match s with
  | [] => Some acc
  | c :: s' =>
      if is_digit c then
        let acc' := acc * 10 + (c - 48) in
        if acc' <=? usize_max then parse_digits acc' s' else None
      else None
  end.

(** [str::parse::<usize>]: a leading [+] is allowed before digits. *)
Definition parse_usize (s : list char) : option Z :=
  match s with
  | [] => None
  | c :: s' => if (c =? PLUS) && negb (bool_decide (s' = [])) then parse_digits 0 s' else parse_digits 0 s
  end.

(** ** Placeholders *)

Definition parse_or (body : list char) (s : list char) : result Z FormatTemplateError :=
  match parse_usize s with Some n => Ok n | None => Err (UnsupportedSpec body) end.

Definition parse_placeholder_body (body : list char) : result FormatPlaceholder FormatTemplateError :=
  let '(position_part, spec_part) :=
    match split_once COLON body with Some (pos, spec) => (pos, spec) | None => (body, []) end in
  let? position :=
    match position_part with [] => Ok None | _ => let? n := parse_or body position_part in Ok (Some n) end in
  let placeholder := mkPlaceholder position Display AlignNone None None in
  if bool_decide (spec_part = []) then Ok placeholder
  else if bool_decide (spec_part = [QUESTION]) then Ok (mkPlaceholder position Debug AlignNone None None)
  else
    let '(main_spec, precision_spec) :=
      match split_once DOT spec_part with Some (m, p) => (m, Some p) | None => (spec_part, None) end in
    let? precision :=
      match precision_spec with
      | None => Ok None
      | Some [] => Err (UnsupportedSpec body)
      | Some p => let? n := parse_or body p in Ok (Some n)
      end in
    match main_spec with
    | [] => Ok (mkPlaceholder position Display AlignNone None precision)
    | c :: w =>
        if c =? GT then
          match w with
          | [] => Err (UnsupportedSpec body)
          | _ => let? n := parse_or body w in Ok (mkPlaceholder position Display AlignRight (Some n) precision)
          end
        else Err (UnsupportedSpec body)
    end.

(** ** Templates *)

Definition flush (literal : list char) (segments : list FormatSegment) : list FormatSegment :=
  match literal with [] => segments | _ => segments ++ [Literal literal] end.

(** The loop over the characters; [parse_body] is the one that collects a
    placeholder up to its closing brace. *)
Fixpoint parse_loop (cs literal : list char) (segments : list FormatSegment)
    : result (list FormatSegment) FormatTemplateError :=
  match cs with
  | [] => Ok (flush literal segments)
  | ch :: cs' =>
      if ch =? LBRACE then
        match cs' with
        | next :: cs'' =>
            if next =? LBRACE then parse_loop cs'' (literal ++ [LBRACE]) segments
            else parse_body cs' [] literal segments
        | [] => Err UnmatchedBrace
        end
      else if ch =? RBRACE then
        match cs' with
        | next :: cs'' =>
            if next =? RBRACE then parse_loop cs'' (literal ++ [RBRACE]) segments else Err UnmatchedBrace
        | [] => Err UnmatchedBrace
        end
      else parse_loop cs' (literal ++ [ch]) segments
  end
with parse_body (cs body literal : list char) (segments : list FormatSegment)
    : result (list FormatSegment) FormatTemplateError :=
  match cs with
  | [] => Err UnmatchedBrace
  | inner :: cs' =>
      if inner =? RBRACE then
        match parse_placeholder_body body with
        | Err e => Err e
        | Ok placeholder => parse_loop cs' [] (flush literal segments ++ [Placeholder placeholder])
        end
      else parse_body cs' (body ++ [inner]) literal segments
  end.

Definition parse_format_template (template : list char) : result (list FormatSegment) FormatTemplateError :=
  parse_loop template [] [].

Definition is_placeholder (s : FormatSegment) : bool := match s with Placeholder _ => true | _ => false end.

Definition placeholder_count (segments : list FormatSegment) : nat :=
  length (filter (fun s => is_placeholder s = true) segments).

(** [position + 1] is a [usize] addition: [None] is its overflow, a panic when
    overflow checks are on. *)
Fixpoint required_loop (segments : list FormatSegment) (auto_count explicit_required : Z) : option Z :=
  match segments with
  | [] => Some (Z.max auto_count explicit_required)
  | Literal _ :: rest => required_loop rest auto_count explicit_required
  | Placeholder p :: rest =>
      match position p with
      | Some n =>
          if n + 1 <=? usize_max then required_loop rest auto_count (Z.max explicit_required (n + 1)) else None
      | None => required_loop rest (auto_count + 1) explicit_required
      end
  end.

Definition required_arg_count (segments : list FormatSegment) : option Z := required_loop segments 0 0.

(** ** Selecting arguments *)

(** What lowering picks for each placeholder: its position, or the next of
    those that have none. *)
Fixpoint arg_indices (segments : list FormatSegment) (arg_index : Z) : list Z :=
  match segments with
  | [] => []
  | Literal _ :: rest => arg_indices rest arg_index
  | Placeholder p :: rest =>
      match position p with
      | Some n => n :: arg_indices rest arg_index
      | None => arg_index :: arg_indices rest (arg_index + 1)
      end
  end.

(** ** Printing *)

Definition escape_char (c : char) : list char := if (c =? LBRACE) || (c =? RBRACE) then [c; c] else [c].
Definition escape (s : list char) : list char := concat (map escape_char s).

Fixpoint decimal_fuel (n : nat) (z : Z) : list char :=
  match n with
  | O => []
  | S n' => if z <? 10 then [48 + z] else decimal_fuel n' (z / 10) ++ [48 + z mod 10]
  end.

(** A [usize] has at most 20 digits. *)
Definition decimal (z : Z) : list char := decimal_fuel 20 z.

Definition print_spec (p : FormatPlaceholder) : list char :=
  match style p with
  | Debug => [QUESTION]
  | Display =>
      match width p with Some w => GT :: decimal w | None => [] end ++
      match precision p with Some n => DOT :: decimal n | None => [] end
  end.

Definition print_body (p : FormatPlaceholder) : list char :=
  match position p with Some n => decimal n | None => [] end ++
  match print_spec p with [] => [] | spec => COLON :: spec end.

Definition print_segment (s : FormatSegment) : list char :=
  match s with
  | Literal s => escape s
  | Placeholder p => LBRACE :: print_body p ++ [RBRACE]
  end.

Definition print_template (segments : list FormatSegment) : list char := concat (map print_segment segments).

(** ** Canonical templates *)

Definition is_usize (z : Z) : Prop := 0 <= z <= usize_max.

Record placeholder_ok (p : FormatPlaceholder) : Prop := {
  pl_position : forall n, position p = Some n -> is_usize n;
  pl_width : forall n, width p = Some n -> is_usize n;
  pl_precision : forall n, precision p = Some n -> is_usize n;
  pl_align : align p = match width p with Some _ => AlignRight | None => AlignNone end;
  pl_debug : style p = Debug -> width p = None /\ precision p = None;
}.

(** No empty literal and no two literals in a row; [after_literal] says
    whether one precedes. *)
Fixpoint canonical (after_literal : bool) (segments : list FormatSegment) : Prop :=
  match segments with
  | [] => True
  | Literal s :: rest => after_literal = false /\ s <> [] /\ canonical true rest
  | Placeholder p :: rest => placeholder_ok p /\ canonical false rest
  end.

(** ** Numbers *)

Lemma parse_digits_app a xs ys :
  parse_digits a (xs ++ ys) = match parse_digits a xs with Some b => parse_digits b ys | None => None end.
Proof.
  revert a. induction xs as [|x xs IH]; intros a; [done|]. cbn [app parse_digits].
  destruct (is_digit x); [|done]. destruct (_ <=? _); [apply IH|done].
Qed.

Lemma parse_digits_range s : forall a n, is_usize a -> parse_digits a s = Some n -> is_usize n.
Proof.
  induction s as [|c s IH]; intros a n Ha; cbn [parse_digits]; [by intros [= <-]|].
  unfold is_digit. destruct (Z.leb_spec 48 c); [|done]. destruct (Z.leb_spec c 57); [|done]. cbn [andb].
  destruct (Z.leb_spec (a * 10 + (c - 48)) usize_max); [|done]. apply IH. unfold is_usize in *. lia.
Qed.

Lemma parse_usize_range s n : parse_usize s = Some n -> is_usize n.
Proof.
  assert (is_usize 0) by (unfold is_usize, usize_max; lia).
  destruct s as [|c s]; [done|]. unfold parse_usize. case_match; by apply parse_digits_range.
Qed.

Lemma decimal_digits n z : 0 <= z -> Forall (fun c => 48 <= c <= 57) (decimal_fuel n z).
Proof.
  revert z. induction n as [|n IH]; intros z Hz; cbn [decimal_fuel]; [constructor|].
  destruct (Z.ltb_spec z 10); [constructor; [lia|constructor]|].
  apply Forall_app. split; [apply IH, Z.div_pos; lia|]. pose proof (Z.mod_pos_bound z 10 ltac:(lia)).
  constructor; [lia|constructor].
Qed.

Lemma parse_decimal n z : 0 <= z <= usize_max -> z < 10 ^ Z.of_nat n -> parse_digits 0 (decimal_fuel n z) = Some z.
Proof.
  revert z. induction n as [|n IH]; intros z Hz Hn; [simpl in Hn; cbn; f_equal; lia|]. cbn [decimal_fuel].
  destruct (Z.ltb_spec z 10).
  - cbn [parse_digits]. unfold is_digit. rewrite (proj2 (Z.leb_le 48 _)), (proj2 (Z.leb_le _ 57)) by lia. cbn [andb].
    rewrite (proj2 (Z.leb_le _ _)) by lia. f_equal. lia.
  - pose proof (Z.mod_pos_bound z 10 ltac:(lia)). pose proof (Z.div_mod z 10 ltac:(lia)).
    rewrite Nat2Z.inj_succ, Z.pow_succ_r in Hn by lia.
    rewrite parse_digits_app, IH by lia.
    cbn [parse_digits]. unfold is_digit. rewrite (proj2 (Z.leb_le 48 _)), (proj2 (Z.leb_le _ 57)) by lia. cbn [andb].
    replace (z / 10 * 10 + (48 + z mod 10 - 48)) with z by lia. by rewrite (proj2 (Z.leb_le z _)) by lia.
Qed.

Lemma decimal_nonempty z : decimal z <> [].
Proof. unfold decimal. cbn [decimal_fuel]. case_match; [done|]. by intros [_ ?]%app_eq_nil. Qed.

Lemma decimal_head z : 0 <= z -> exists c s, decimal z = c :: s /\ 48 <= c <= 57.
Proof.
  intros Hz. pose proof (decimal_digits 20 z Hz) as Hd. pose proof (decimal_nonempty z) as Hn. unfold decimal in *.
  destruct (decimal_fuel 20 z) as [|c s]; [done|]. apply Forall_cons in Hd as [Hc _]. by exists c, s.
Qed.

Lemma parse_usize_decimal z : is_usize z -> parse_usize (decimal z) = Some z.
Proof.
  intros Hz. destruct (decimal_head z) as (c & s & E & Hc); [unfold is_usize in Hz; lia|].
  assert (Hp : parse_digits 0 (decimal z) = Some z).
  { apply parse_decimal; [done|]. unfold is_usize in Hz. assert (usize_max < 10 ^ Z.of_nat 20) by done. lia. }
  rewrite E in *. unfold parse_usize. rewrite (proj2 (Z.eqb_neq c PLUS)) by (unfold PLUS; lia). done.
Qed.

Lemma parse_or_decimal body z : is_usize z -> parse_or body (decimal z) = Ok z.
Proof. intros Hz. unfold parse_or. by rewrite parse_usize_decimal. Qed.

Lemma decimal_not_elem c z : 0 <= z -> ~ 48 <= c <= 57 -> c ∉ decimal z.
Proof. intros Hz Hc Hin. pose proof (decimal_digits 20 z Hz) as Hd. rewrite Forall_forall in Hd. by apply Hc, Hd. Qed.

(** ** Placeholders round-trip *)

Lemma split_once_app c xs ys : c ∉ xs -> split_once c (xs ++ c :: ys) = Some (xs, ys).
Proof.
  induction xs as [|x xs IH]; intros Hc; cbn [app split_once]; [by rewrite Z.eqb_refl|].
  apply not_elem_of_cons in Hc as [Hx Hc]. rewrite (proj2 (Z.eqb_neq x c)), IH by done. done.
Qed.

Lemma split_once_none c xs : c ∉ xs -> split_once c xs = None.
Proof.
  induction xs as [|x xs IH]; intros Hc; cbn [split_once]; [done|].
  apply not_elem_of_cons in Hc as [Hx Hc]. by rewrite (proj2 (Z.eqb_neq x c)), IH.
Qed.

(** The part before the colon. *)
Lemma parse_position body pos (n : option Z) : (forall z, n = Some z -> is_usize z) ->
  pos = match n with Some z => decimal z | None => [] end ->
  match pos with [] => Ok None | _ => let? z := parse_or body pos in Ok (Some z) end = Ok n.
Proof.
  intros Hn ->. destruct n as [z|]; [|done]. pose proof (decimal_nonempty z).
  destruct (decimal z) as [|c s] eqn:E; [done|]. rewrite <- E, parse_or_decimal by auto. done.
Qed.

Lemma print_body_split p : placeholder_ok p ->
  match split_once COLON (print_body p) with Some (pos, spec) => (pos, spec) | None => (print_body p, []) end =
  (match position p with Some n => decimal n | None => [] end, print_spec p).
Proof.
  intros Hp. unfold print_body. set (pos := match position p with Some n => decimal n | None => [] end).
  assert (Hpos : COLON ∉ pos).
  { unfold pos. destruct (position p) as [n|] eqn:E; [|by apply not_elem_of_nil].
    apply decimal_not_elem; [by apply (pl_position _ Hp)|unfold COLON; lia]. }
  destruct (print_spec p) as [|c s]; [|by rewrite split_once_app].
  rewrite app_nil_r. by rewrite split_once_none.
Qed.

(** The main part of a specification and its precision. *)
Lemma print_spec_split p : placeholder_ok p -> style p = Display ->
  match split_once DOT (print_spec p) with Some (m, q) => (m, Some q) | None => (print_spec p, None) end =
  (match width p with Some w => GT :: decimal w | None => [] end, decimal <$> precision p).
Proof.
  intros Hp Hs. unfold print_spec. rewrite Hs.
  assert (Hm : DOT ∉ match width p with Some w => GT :: decimal w | None => [] end).
  { destruct (width p) as [w|] eqn:E; [|by apply not_elem_of_nil]. apply not_elem_of_cons. split; [done|].
    apply decimal_not_elem; [by apply (pl_width _ Hp)|unfold DOT; lia]. }
  destruct (precision p) as [n|]; cbn [fmap option_fmap option_map]; [by rewrite split_once_app|].
  rewrite app_nil_r. by rewrite split_once_none.
Qed.

Lemma print_spec_question p : style p = Display -> print_spec p <> [QUESTION].
Proof.
  intros Hs. unfold print_spec. rewrite Hs. destruct (width p); [done|]. destruct (precision p); done.
Qed.

Lemma parse_print_body p : placeholder_ok p -> parse_placeholder_body (print_body p) = Ok p.
Proof.
  intros Hp. unfold parse_placeholder_body. rewrite print_body_split by done.
  rewrite (parse_position (print_body p) _ (position p) (pl_position _ Hp) eq_refl).
  destruct p as [pos st al wd pr]. pose proof (pl_align _ Hp) as Hal. cbn [width align] in Hal. subst al.
  destruct st.
  2:{ destruct (pl_debug _ Hp eq_refl) as [Ew Epr]. cbn in Ew, Epr. subst. done. }
  case_bool_decide as He.
  { unfold print_spec in He. cbn in He. apply app_eq_nil in He as [H1 H2]. by destruct wd, pr. }
  rewrite bool_decide_eq_false_2 by (by apply print_spec_question).
  rewrite print_spec_split by done. cbn [width precision position].
  assert (Hpr : match decimal <$> pr with
    | None => Ok None
    | Some [] => Err (UnsupportedSpec (print_body (mkPlaceholder pos Display
        match wd with Some _ => AlignRight | None => AlignNone end wd pr)))
    | Some q => let? n := parse_or (print_body (mkPlaceholder pos Display
        match wd with Some _ => AlignRight | None => AlignNone end wd pr)) q in Ok (Some n)
    end = Ok pr).
  { destruct pr as [n|]; [|done]. cbn [fmap option_fmap option_map]. pose proof (decimal_nonempty n).
    destruct (decimal n) as [|c s] eqn:E; [done|]. rewrite <- E, parse_or_decimal; [done|]. by apply (pl_precision _ Hp). }
  rewrite Hpr. destruct wd as [w|]; [|done]. cbn [Z.eqb]. rewrite Z.eqb_refl. pose proof (decimal_nonempty w).
  destruct (decimal w) as [|c s] eqn:E; [done|]. rewrite <- E, parse_or_decimal; [done|]. by apply (pl_width _ Hp).
Qed.

(** ** Templates round-trip *)

Lemma parse_escape s : forall rest lit acc, parse_loop (escape s ++ rest) lit acc = parse_loop rest (lit ++ s) acc.
Proof.
  induction s as [|c s IH]; intros rest lit acc; [by rewrite app_nil_r|]. unfold escape. cbn [map concat].
  fold (escape s). unfold escape_char. replace (lit ++ c :: s) with ((lit ++ [c]) ++ s) by (by rewrite <- app_assoc).
  rewrite <- IH. destruct (Z.eqb_spec c LBRACE) as [->|Hl]; [reflexivity|].
  destruct (Z.eqb_spec c RBRACE) as [->|Hr]; [reflexivity|]. cbn [orb app parse_loop].
  by rewrite (proj2 (Z.eqb_neq c LBRACE)), (proj2 (Z.eqb_neq c RBRACE)).
Qed.

Lemma parse_body_to_brace body : RBRACE ∉ body -> forall b rest lit acc,
  parse_body (body ++ RBRACE :: rest) b lit acc =
  match parse_placeholder_body (b ++ body) with
  | Err e => Err e
  | Ok p => parse_loop rest [] (flush lit acc ++ [Placeholder p])
  end.
Proof.
  induction body as [|c body IH]; intros Hb b rest lit acc; cbn [app parse_body].
  - rewrite Z.eqb_refl, app_nil_r. done.
  - apply not_elem_of_cons in Hb as [Hc Hb]. rewrite (proj2 (Z.eqb_neq c RBRACE)), IH by done.
    by rewrite <- app_assoc.
Qed.

Lemma print_body_chars p : placeholder_ok p -> Forall (fun c => c <> LBRACE /\ c <> RBRACE) (print_body p).
Proof.
  intros Hp.
  assert (Hd : forall z, is_usize z -> Forall (fun c => c <> LBRACE /\ c <> RBRACE) (decimal z)).
  { intros z Hz. eapply Forall_impl; [apply (decimal_digits 20 z); unfold is_usize in Hz; lia|].
    cbn beta. unfold LBRACE, RBRACE. lia. }
  assert (Hs : Forall (fun c => c <> LBRACE /\ c <> RBRACE) (print_spec p)).
  { unfold print_spec. destruct (style p); [|by repeat constructor]. apply Forall_app. split.
    - destruct (width p) eqn:E; [|constructor]. constructor; [done|]. by apply Hd, (pl_width _ Hp).
    - destruct (precision p) eqn:E; [|constructor]. constructor; [done|]. by apply Hd, (pl_precision _ Hp). }
  unfold print_body. apply Forall_app. split.
  - destruct (position p) eqn:E; [|constructor]. by apply Hd, (pl_position _ Hp).
  - destruct (print_spec p); [constructor|]. by constructor.
Qed.

Lemma parse_print_placeholder p rest lit acc : placeholder_ok p ->
  parse_loop (LBRACE :: print_body p ++ RBRACE :: rest) lit acc =
  parse_loop rest [] (flush lit acc ++ [Placeholder p]).
Proof.
  intros Hp. pose proof (print_body_chars p Hp) as Hc.
  assert (Hb : RBRACE ∉ print_body p).
  { intros Hin. rewrite Forall_forall in Hc. by destruct (Hc _ Hin). }
  transitivity (parse_body (print_body p ++ RBRACE :: rest) [] lit acc).
  - cbn [parse_loop]. rewrite Z.eqb_refl. destruct (print_body p) as [|c s]; [done|]. cbn [app].
    apply Forall_cons in Hc as [[Hc _] _]. by rewrite (proj2 (Z.eqb_neq c LBRACE)).
  - rewrite parse_body_to_brace, app_nil_l, parse_print_body by done. done.
Qed.

Lemma flush_nonempty lit acc : lit <> [] -> flush lit acc = acc ++ [Literal lit].
Proof. by destruct lit. Qed.

Lemma parse_print segs : forall lit acc, canonical (negb (bool_decide (lit = []))) segs ->
  parse_loop (print_template segs) lit acc = Ok (flush lit acc ++ segs).
Proof.
  induction segs as [|[s|p] segs IH]; intros lit acc Hc; unfold print_template in *; cbn [map concat print_segment].
  - cbn. by rewrite app_nil_r.
  - destruct Hc as (Hl & Hs & Hc). apply negb_false_iff, bool_decide_eq_true in Hl as ->.
    rewrite parse_escape, app_nil_l, IH by (by rewrite bool_decide_eq_false_2).
    rewrite flush_nonempty by done. by rewrite <- app_assoc.
  - destruct Hc as [Hp Hc]. cbn [app]. rewrite <- app_assoc. cbn [app].
    rewrite parse_print_placeholder by done. rewrite IH by done. cbn [flush]. by rewrite <- app_assoc.
Qed.

(** ** Results are canonical *)

Definition ends_in_literal (segs : list FormatSegment) : bool :=
  match last segs with Some (Literal _) => true | _ => false end.

Lemma canonical_app segs segs' : forall b, canonical b segs ->
  canonical (match segs with [] => b | _ => ends_in_literal segs end) segs' -> canonical b (segs ++ segs').
Proof.
  induction segs as [|s segs IH]; intros b H1 H2; [done|]. cbn [app canonical] in *.
  destruct s as [s|p]; destruct segs as [|s2 segs]; cbn [app] in *; naive_solver.
Qed.

Lemma parse_or_range body s n : parse_or body s = Ok n -> is_usize n.
Proof.
  unfold parse_or. destruct (parse_usize s) eqn:E; [|done]. intros [= <-]. by eapply parse_usize_range.
Qed.

Lemma parse_placeholder_ok body p : parse_placeholder_body body = Ok p -> placeholder_ok p.
Proof.
  unfold parse_placeholder_body. destruct (match split_once COLON body with Some (pos, spec) => (pos, spec) | None => (body, []) end)
    as [pos spec].
  assert (Hpos : forall n, match pos with [] => Ok None | _ => let? z := parse_or body pos in Ok (Some z) end = Ok n ->
    forall z, n = Some z -> is_usize z).
  { intros n Hn z ->. destruct pos; [done|]. destruct (parse_or body _) eqn:E; [|done]. injection Hn as <-.
    by eapply parse_or_range. }
  destruct (match pos with [] => Ok None | _ => let? z := parse_or body pos in Ok (Some z) end) as [n|] eqn:En; [|done]. specialize (Hpos n eq_refl).
  case_bool_decide; [intros [= <-]; by split|]. case_bool_decide; [intros [= <-]; by split|].
  destruct (match split_once DOT spec with Some (m, p) => (m, Some p) | None => (spec, None) end) as [m q].
  assert (Hq : forall r, match q with None => Ok None | Some [] => Err (UnsupportedSpec body)
      | Some p => let? n := parse_or body p in Ok (Some n) end = Ok r -> forall z, r = Some z -> is_usize z).
  { intros r Hr z ->. destruct q as [[|c q]|]; [done| |done].
    destruct (parse_or body (c :: q)) eqn:E; [|done].
    injection Hr as <-. by eapply parse_or_range. }
  destruct (match q with None => Ok None | Some [] => Err (UnsupportedSpec body)
      | Some p => let? n := parse_or body p in Ok (Some n) end) as [r|] eqn:Er; [|done]. specialize (Hq r eq_refl).
  destruct m as [|c w]; [intros [= <-]; by split|]. destruct (c =? GT); [|done]. destruct w as [|x w]; [done|].
  destruct (parse_or body (x :: w)) as [k|] eqn:Ek; [|done]. intros [= <-]. split; try done.
  cbn. intros z [= <-]. by eapply parse_or_range.
Qed.

(** What the loops keep: the segments so far are canonical and do not end in a
    literal. *)
Definition loop_ok (segs : list FormatSegment) : Prop := canonical false segs /\ ends_in_literal segs = false.

Lemma flush_canonical lit segs : loop_ok segs -> canonical false (flush lit segs).
Proof.
  intros [Hc He]. destruct lit as [|c lit]; [done|]. apply canonical_app; [done|].
  rewrite He. destruct segs; by split_and!.
Qed.

Lemma placeholder_loop_ok lit segs p : loop_ok segs -> placeholder_ok p -> loop_ok (flush lit segs ++ [Placeholder p]).
Proof.
  intros Hs Hp. split; [|unfold ends_in_literal; by rewrite last_snoc].
  apply canonical_app; [by apply flush_canonical|]. by destruct (flush lit segs).
Qed.

Lemma parse_loop_canonical n : forall cs segs res, (length cs <= n)%nat -> loop_ok segs ->
  (forall lit, parse_loop cs lit segs = Ok res -> canonical false res) /\
  (forall body lit, parse_body cs body lit segs = Ok res -> canonical false res).
Proof.
  induction n as [|n IH]; intros cs segs res Hn Hs; destruct cs as [|c cs]; cbn [length] in Hn; try lia.
  1,2: (split; [intros lit [= <-]; by apply flush_canonical|done]).
  split.
  - intros lit. cbn [parse_loop]. destruct (c =? LBRACE).
    + destruct cs as [|d cs]; [done|]. destruct (d =? LBRACE).
      * apply IH; [cbn [length] in Hn; lia|done].
      * apply (IH (d :: cs)); [lia|done].
    + destruct (c =? RBRACE).
      * destruct cs as [|d cs]; [done|]. destruct (d =? RBRACE); [|done]. apply IH; [cbn [length] in Hn; lia|done].
      * apply IH; [lia|done].
  - intros body lit. cbn [parse_body]. destruct (c =? RBRACE); [|apply IH; [lia|done]].
    destruct (parse_placeholder_body body) as [p|] eqn:Ep; [|done].
    apply IH; [lia|]. apply placeholder_loop_ok; [done|by eapply parse_placeholder_ok].
Qed.

(** ** Counting arguments *)

Lemma required_loop_spec segs : forall a e n, 0 <= a -> 0 <= e -> required_loop segs a e = Some n ->
  Forall (fun s => match s with Placeholder p => forall z, position p = Some z -> 0 <= z | _ => True end) segs ->
  a <= n /\ e <= n /\ Forall (fun i => 0 <= i < n) (arg_indices segs a) /\
  (n = a \/ n = e \/ exists i, i ∈ arg_indices segs a /\ n = i + 1).
Proof.
  induction segs as [|[s|p] segs IH]; intros a e n Ha He; cbn [required_loop arg_indices].
  - intros [= <-] _. split_and!; [lia|lia|constructor|]. destruct (Z.max_spec a e) as [[_ ->]|[_ ->]]; auto.
  - intros E [_ HF]%Forall_cons. by apply IH.
  - intros E [Hp HF]%Forall_cons. destruct (position p) as [k|].
    + specialize (Hp k eq_refl). destruct (Z.leb_spec (k + 1) usize_max); [|done].
      destruct (IH a (Z.max e (k + 1)) n Ha ltac:(lia) E HF) as (H1 & H2 & H3 & H4).
      split_and!; [lia|lia|constructor; [lia|done]|]. destruct H4 as [->|[->|(i & Hi & ->)]]; [by left| |].
      * destruct (Z.max_spec e (k + 1)) as [[_ ->]|[_ ->]]; [right; right|by right; left]. exists k. split; [by left|done].
      * right; right. exists i. split; [by right|done].
    + destruct (IH (a + 1) e n ltac:(lia) He E HF) as (H1 & H2 & H3 & H4).
      split_and!; [lia|lia|constructor; [lia|done]|]. destruct H4 as [->|[->|(i & Hi & ->)]].
      * right; right. exists a. split; [by left|done].
      * by right; left.
      * right; right. exists i. split; [by right|done].
Qed.

Lemma canonical_positions segs : forall b, canonical b segs ->
  Forall (fun s => match s with Placeholder p => forall z, position p = Some z -> 0 <= z | _ => True end) segs.
Proof.
  induction segs as [|[s|p] segs IH]; intros b Hc; constructor; cbn [canonical] in Hc; try done.
  - apply (IH true), Hc.
  - intros z Hz. by apply (pl_position _ (proj1 Hc)).
  - apply (IH false), Hc.
Qed.

(** ** Theorems *)

(** Templates round-trip.  Printing segments (braces of the text doubled,
    numbers in decimal) and parsing the result gives the segments back exactly
    for the lists without empty or adjacent literals and with numbers that fit
    a [usize]; and those are exactly the lists the parser produces. *)
Theorem template_roundtrip (segs : list FormatSegment) :
  (canonical false segs <-> parse_format_template (print_template segs) = Ok segs) /\
  (canonical false segs <-> exists t, parse_format_template t = Ok segs).
Proof.
  assert (Hp : forall t, parse_format_template t = Ok segs -> canonical false segs).
  { intros t Ht. eapply (proj1 (parse_loop_canonical (length t) t [] segs ltac:(lia) ltac:(done))); exact Ht. }
  assert (Hc : canonical false segs -> parse_format_template (print_template segs) = Ok segs).
  { intros H. unfold parse_format_template. by rewrite (parse_print segs [] []). }
  naive_solver.
Qed.

(** The argument count the checker demands is the right one.  For a parsed
    template whose count is [n], every argument lowering selects is among the
    first [n], and [n] is no larger than needed. *)
Theorem required_args_exact (t : list char) (segs : list FormatSegment) (n : Z) :
  parse_format_template t = Ok segs -> required_arg_count segs = Some n ->
  Forall (fun i => 0 <= i < n) (arg_indices segs 0) /\
  (n = 0 \/ exists i, i ∈ arg_indices segs 0 /\ n = i + 1).
Proof.
  intros Ht Hn. pose proof (proj1 (parse_loop_canonical (length t) t [] segs ltac:(lia) ltac:(done)) [] Ht) as Hc.
  destruct (required_loop_spec segs 0 0 n ltac:(lia) ltac:(lia) Hn (canonical_positions segs false Hc))
    as (_ & _ & HF & H). split; [done|]. naive_solver.
Qed.

Lemma required_args_exact_witness :
  Forall (fun i => 0 <= i < 3) (arg_indices [Placeholder (mkPlaceholder (Some 2) Display AlignNone None None);
    Literal [32]; Placeholder (mkPlaceholder None Debug AlignNone None None)] 0).
Proof.
  apply (required_args_exact (* {2} {:?} *) [123; 50; 125; 32; 123; 58; 63; 125] _ 3); vm_compute; reflexivity.
Defined.

(** A template can make the count overflow.  The largest [usize] is a valid
    position, and counting the arguments of that template overflows in
    [position + 1]. *)
Theorem position_overflow :
  let t := LBRACE :: decimal usize_max ++ [RBRACE] in
  let p := mkPlaceholder (Some usize_max) Display AlignNone None None in
  parse_format_template t = Ok [Placeholder p] /\ required_arg_count [Placeholder p] = None.
Proof. split; vm_compute; reflexivity. Qed.
