(* ===== verification/Scheduler.v ===== *)
(** The cooperative scheduler: [CoroutineScheduler] of
    runtime/src/async_runtime.rs.

    [CoroutineTask] is the source's trait.  [poll] also lists the deadlines the
    task recorded with [record_poll_wakeup_hint] while it ran, which end up in
    the thread-local [POLL_WAKEUP_HINT]; [now] is the clock reading of a tick. *)

From S2P Require Import Prelude Executor.

Local Open Scope Z_scope.

Inductive TaskState := TaskPending | TaskComplete.

Class CoroutineTask (T : Type) := {
  poll : T -> TaskState * list Z * T;
  foreign_identity : T -> option (Z * Z);
  cancel : T -> bool * T;
}.

(** The thread-local [POLL_WAKEUP_HINT] keeps the earliest deadline recorded. *)
Definition record_poll_wakeup_hint (cell : option Z) (deadline : Z) : option Z :=
  Some (match cell with Some current => if current <=? deadline then current else deadline | None => deadline end).

(** [clear_poll_wakeup_hint] before the poll, [take_poll_wakeup_hint] after it. *)
Definition wakeup_hint (recorded : list Z) : option Z := foldl record_poll_wakeup_hint None recorded.

Section scheduler.
Context {T : Type} `{CoroutineTask T}.

Record TaskEntry := mkEntry {
  entry_id : Z;
  entry_task : T;
  entry_wakeup : option Z;
}.

Record CoroutineScheduler := mkScheduler {
  next_id : Z;
  queue : list TaskEntry;
  completed : nat;
  sched_statuses : gmap Z TaskLifecycleStatus;
}.

Record SchedulerStats := mkStats { scheduled : nat; stats_completed : nat }.

Implicit Type s : CoroutineScheduler.

Definition u64_max : Z := 2 ^ 64 - 1.

Definition scheduler_new : CoroutineScheduler := mkScheduler 1 [] 0 ∅.

Definition sched_spawn (t : T) s : Z * CoroutineScheduler :=
  let id := next_id s in
  (id, mkScheduler (Z.min u64_max (id + 1)) (queue s ++ [mkEntry id t None]) (completed s)
         (<[id := Pending]> (sched_statuses s))).

Definition sched_is_empty s : bool := bool_decide (length (queue s) = 0%nat).

Definition sched_stats s : SchedulerStats := mkStats (length (queue s)) (completed s).

Definition sched_task_status s (task_id : Z) : TaskLifecycleStatus := default Unknown (sched_statuses s !! task_id).

(** [position], [cancel] on the entry found, and its removal: what is left of
    the queue and the id that was cancelled. *)
Fixpoint cancel_first (sel : TaskEntry -> bool) (q : list TaskEntry) : option Z * list TaskEntry :=
  match q with
  | [] => (None, [])
  | e :: q' =>
      if sel e then
        let '(canceled, t') := cancel (entry_task e) in
        if canceled then (Some (entry_id e), q') else (None, mkEntry (entry_id e) t' (entry_wakeup e) :: q')
      else let '(r, q'') := cancel_first sel q' in (r, e :: q'')
  end.

Definition cancel_where (sel : TaskEntry -> bool) s : bool * CoroutineScheduler :=
  let '(r, q) := cancel_first sel (queue s) in
  match r with
  | Some id => (true, mkScheduler (next_id s) q (completed s) (<[id := Canceled]> (sched_statuses s)))
  | None => (false, mkScheduler (next_id s) q (completed s) (sched_statuses s))
  end.

Definition sched_cancel (task_id : Z) : CoroutineScheduler -> bool * CoroutineScheduler :=
  cancel_where (fun e => entry_id e =? task_id).

Definition sched_cancel_foreign (kind handle : Z) : CoroutineScheduler -> bool * CoroutineScheduler :=
  cancel_where (fun e => bool_decide (foreign_identity (entry_task e) = Some (kind, handle))).

(** The loop of [tick], [n] entries to go. *)
Fixpoint tick_loop (n : nat) (now : Z) (ready : list Z) s : list Z * CoroutineScheduler :=
  match n with
  | O => (ready, s)
  | S n' =>
      match queue s with
      | [] => (ready, s)
      | e :: q =>
          if match entry_wakeup e with Some deadline => now <? deadline | None => false end then
            tick_loop n' now ready (mkScheduler (next_id s) (q ++ [e]) (completed s) (sched_statuses s))
          else
            match poll (entry_task e) with
            | (TaskPending, hints, t') =>
                tick_loop n' now ready
                  (mkScheduler (next_id s) (q ++ [mkEntry (entry_id e) t' (wakeup_hint hints)]) (completed s) (sched_statuses s))
            | (TaskComplete, _, _) =>
                tick_loop n' now (ready ++ [entry_id e])
                  (mkScheduler (next_id s) q (S (completed s)) (<[entry_id e := Completed]> (sched_statuses s)))
            end
      end
  end.

Definition tick (now : Z) s : list Z * CoroutineScheduler := tick_loop (length (queue s)) now [] s.

(** How long [sleep_until_next_wakeup] sleeps: [None] is an immediate return. *)
Fixpoint earliest_wakeup (now : Z) (earliest : option Z) (q : list TaskEntry) : option (option Z) :=
  match q with
  | [] => Some earliest
  | e :: q' =>
      match entry_wakeup e with
      | None => None
      | Some deadline =>
          if deadline <=? now then None
          else
            earliest_wakeup now
              (Some (match earliest with Some c => if c <=? deadline then c else deadline | None => deadline end)) q'
      end
  end.

Definition sleep_until_next_wakeup (cross_thread_wakeup : bool) (now : Z) s : option Z :=
  if cross_thread_wakeup then None
  else
    match earliest_wakeup now None (queue s) with
    | Some (Some deadline) => Some (Z.max 0 (deadline - now))
    | _ => None
    end.

(** What the run loop cannot control: how long the [i]-th tick takes, whether
    a cross-thread wakeup is pending after it, and how long a requested sleep
    really lasts ([wait_for_cross_thread_wakeup] may end early). *)
Record RunEnv := mkEnv {
  tick_time : nat -> Z;
  wakeup : nat -> bool;
  sleep_time : nat -> Z -> Z;
}.

Definition after_sleep (env : RunEnv) (i : nat) (now : Z) s : Z :=
  match sleep_until_next_wakeup (wakeup env i) now s with
  | Some sleep_for => now + sleep_time env i sleep_for
  | None => now
  end.

Fixpoint run_loop (env : RunEnv) (n i : nat) (now : Z) (finished : list Z) s : list Z * CoroutineScheduler :=
  match n with
  | O => (finished, s)
  | S n' =>
      if sched_is_empty s then (finished, s)
      else
        let '(ready, s') := tick now s in
        if sched_is_empty s' then (finished ++ ready, s')
        else run_loop env n' (S i) (after_sleep env i (now + tick_time env i) s') (finished ++ ready) s'
  end.

Definition run_until_idle (env : RunEnv) (max_ticks : nat) (now : Z) s : list Z * CoroutineScheduler :=
  run_loop env max_ticks 0 now [] s.

(** The tasks [on_scheduler_drop] is called on when the scheduler is dropped. *)
Definition sched_drop s : list T := map entry_task (queue s).

(** ** One tick as a map

    What happens to one entry: it is left alone, polled and kept, or polled
    and finished. *)
Definition visit (now : Z) (e : TaskEntry) : option TaskEntry :=
  if match entry_wakeup e with Some deadline => now <? deadline | None => false end then Some e
  else
    match poll (entry_task e) with
    | (TaskPending, hints, t') => Some (mkEntry (entry_id e) t' (wakeup_hint hints))
    | (TaskComplete, _, _) => None
    end.

Definition finished_by (now : Z) (q : list TaskEntry) : list Z :=
  omap (fun e => match visit now e with Some _ => None | None => Some (entry_id e) end) q.

Definition complete_all (ids : list Z) (m : gmap Z TaskLifecycleStatus) : gmap Z TaskLifecycleStatus :=
  foldl (fun m id => <[id := Completed]> m) m ids.

Lemma visit_id now e e' : visit now e = Some e' -> entry_id e' = entry_id e.
Proof. unfold visit. repeat case_match; intros; simplify_eq; done. Qed.

Lemma tick_loop_step now n ready e q nid c st :
  tick_loop (S n) now ready (mkScheduler nid (e :: q) c st) =
  match visit now e with
  | Some e' => tick_loop n now ready (mkScheduler nid (q ++ [e']) c st)
  | None => tick_loop n now (ready ++ [entry_id e]) (mkScheduler nid q (S c) (<[entry_id e := Completed]> st))
  end.
Proof. cbn. unfold visit. by repeat case_match. Qed.

Lemma finished_by_cons now e q : finished_by now (e :: q) =
  match visit now e with Some _ => finished_by now q | None => entry_id e :: finished_by now q end.
Proof. unfold finished_by. cbn. by destruct (visit now e). Qed.

Lemma omap_visit_cons now e q : omap (visit now) (e :: q) =
  match visit now e with Some e' => e' :: omap (visit now) q | None => omap (visit now) q end.
Proof. done. Qed.

Lemma tick_loop_map now q1 : forall q2 ready nid c st,
  tick_loop (length q1) now ready (mkScheduler nid (q1 ++ q2) c st) =
  (ready ++ finished_by now q1,
   mkScheduler nid (q2 ++ omap (visit now) q1) (c + length (finished_by now q1))
     (complete_all (finished_by now q1) st)).
Proof.
  induction q1 as [|e q1 IH]; intros q2 ready nid c st.
  { cbn. rewrite !app_nil_r, Nat.add_0_r. done. }
  cbn [length app]. rewrite tick_loop_step, finished_by_cons, omap_visit_cons. destruct (visit now e) as [e'|].
  - rewrite <- app_assoc, IH. by rewrite <- app_assoc.
  - rewrite IH. cbn [length]. rewrite <- app_assoc. cbn [app complete_all foldl]. do 2 f_equal. lia.
Qed.

Lemma tick_map now s : tick now s =
  (finished_by now (queue s),
   mkScheduler (next_id s) (omap (visit now) (queue s)) (completed s + length (finished_by now (queue s)))
     (complete_all (finished_by now (queue s)) (sched_statuses s))).
Proof.
  unfold tick. pose proof (tick_loop_map now (queue s) [] [] (next_id s) (completed s) (sched_statuses s)) as E.
  rewrite app_nil_r in E. destruct s. exact E.
Qed.

(** ** Operation sequences and the bookkeeping invariant *)
Inductive SchedOp :=
  | OpSpawn (t : T)
  | OpCancel (task_id : Z)
  | OpCancelForeign (kind handle : Z)
  | OpTick (now : Z).

Definition sched_exec s (op : SchedOp) : CoroutineScheduler :=
  match op with
  | OpSpawn t => snd (sched_spawn t s)
  | OpCancel task_id => snd (sched_cancel task_id s)
  | OpCancelForeign kind handle => snd (sched_cancel_foreign kind handle s)
  | OpTick now => snd (tick now s)
  end.

Definition is_spawn (op : SchedOp) : bool := if op is OpSpawn _ then true else false.

Definition spawns (ops : list SchedOp) : nat := length (List.filter is_spawn ops).

(** How many tasks a status table records with one status. *)
Definition count_status (st : TaskLifecycleStatus) (m : gmap Z TaskLifecycleStatus) : nat :=
  size (filter (fun kv => kv.2 = st) m).

Definition entry_ids s : list Z := map entry_id (queue s).

Record sched_inv s : Prop := mkInv {
  inv_nodup : NoDup (entry_ids s);
  inv_known : forall id, is_Some (sched_statuses s !! id) <-> 1 <= id < next_id s;
  inv_pending : forall id, sched_statuses s !! id = Some Pending <-> id ∈ entry_ids s;
  inv_completed : completed s = count_status Completed (sched_statuses s);
  inv_total : next_id s = 1 + Z.of_nat (length (queue s) + completed s + count_status Canceled (sched_statuses s));
  inv_no_unknown : forall id, sched_statuses s !! id <> Some Unknown;
}.

Lemma count_insert st m id : m !! id <> Some st -> count_status st (<[id := st]> m) = S (count_status st m).
Proof.
  intros Hid. unfold count_status. rewrite map_filter_insert_True by done.
  apply map_size_insert_None, map_lookup_filter_None. right. intros x Hx E. cbn in E. congruence.
Qed.

Lemma count_insert_ne st st' m id : st' <> st -> m !! id <> Some st ->
  count_status st (<[id := st']> m) = count_status st m.
Proof.
  intros Hne Hid. unfold count_status. rewrite map_filter_insert_False by done. f_equal.
  rewrite map_filter_delete. apply delete_id, map_lookup_filter_None. right. intros x Hx E. cbn in E. congruence.
Qed.

Lemma inv_perm nid q q' c st : map entry_id q ≡ₚ map entry_id q' ->
  sched_inv (mkScheduler nid q c st) -> sched_inv (mkScheduler nid q' c st).
Proof.
  intros Hp [H1 H2 H3 H4 H5 H6]. unfold entry_ids in *. cbn in *. constructor; unfold entry_ids; cbn; auto.
  - by rewrite <- Hp.
  - intros id. by rewrite <- Hp.
  - apply Permutation_length in Hp. rewrite !length_map in Hp. lia.
Qed.

(** An entry leaves the queue and gets a final status. *)
Lemma inv_remove nid q q' c c' st id v : map entry_id q ≡ₚ id :: map entry_id q' ->
  v = Completed /\ c' = S c \/ v = Canceled /\ c' = c ->
  sched_inv (mkScheduler nid q c st) -> sched_inv (mkScheduler nid q' c' (<[id := v]> st)).
Proof.
  intros Hp Hv [H1 H2 H3 H4 H5 H6]. unfold entry_ids in *. cbn in *.
  assert (Hid : st !! id = Some Pending). { apply H3. rewrite Hp. left. }
  rewrite Hp in H1. apply NoDup_cons in H1 as [Hni Hnd].
  assert (Hnp : v <> Pending) by (destruct Hv as [[-> _]|[-> _]]; done).
  constructor; unfold entry_ids; cbn; auto.
  - intros k. rewrite lookup_insert_is_Some, <- H2. split; [|destruct (decide (id = k)); auto].
    intros [<-|[_ ?]]; eauto.
  - intros k. rewrite lookup_insert_Some, H3, Hp, elem_of_cons. split; [naive_solver|].
    intros Hk. right. split; [congruence|by right].
  - destruct Hv as [[-> ->]|[-> ->]].
    + rewrite count_insert by congruence. lia.
    + rewrite count_insert_ne by congruence. lia.
  - apply Permutation_length in Hp. cbn in Hp. rewrite !length_map in Hp. destruct Hv as [[-> ->]|[-> ->]].
    + rewrite count_insert_ne by congruence. lia.
    + rewrite count_insert by congruence. lia.
  - intros k. rewrite lookup_insert_Some. intros [[_ Eu]|[_ Eu]]; [|by eapply H6].
    destruct Hv as [[-> _]|[-> _]]; done.
Qed.

Lemma inv_tick_loop n now ready s : sched_inv s -> sched_inv (snd (tick_loop n now ready s)).
Proof.
  revert ready s. induction n as [|n IH]; intros ready [nid [|e q] c st] Hi; [done..|].
  rewrite tick_loop_step. destruct (visit now e) as [e'|] eqn:Ev; apply IH.
  - apply visit_id in Ev. eapply inv_perm, Hi. rewrite map_app. cbn. rewrite Ev. apply Permutation_cons_append.
  - eapply inv_remove, Hi; [reflexivity|auto].
Qed.

Lemma cancel_first_ids sel q r q' : cancel_first sel q = (r, q') ->
  map entry_id q ≡ₚ match r with Some id => id :: map entry_id q' | None => map entry_id q' end.
Proof.
  revert r q'. induction q as [|e q IH]; intros r q' E; cbn in E; [by simplify_eq|].
  destruct (sel e).
  - destruct (cancel (entry_task e)) as [[] t']; simplify_eq; done.
  - destruct (cancel_first sel q) as [r0 q0]. simplify_eq. cbn. rewrite (IH _ _ eq_refl).
    destruct r; [apply Permutation_swap|done].
Qed.

Lemma inv_cancel_where sel s : sched_inv s -> sched_inv (snd (cancel_where sel s)).
Proof.
  destruct s as [nid q c st]. intros Hi. unfold cancel_where. cbn.
  destruct (cancel_first sel q) as [[id|] q'] eqn:E; apply cancel_first_ids in E; cbn.
  - eapply inv_remove, Hi; [done|auto].
  - by eapply inv_perm.
Qed.

Lemma inv_spawn t s : next_id s < u64_max -> sched_inv s -> sched_inv (snd (sched_spawn t s)).
Proof.
  destruct s as [nid q c st]. cbn. intros Hlt [H1 H2 H3 H4 H5 H6]. unfold entry_ids in *. cbn in *.
  rewrite Z.min_r by lia.
  assert (Hf : st !! nid = None). { apply eq_None_not_Some. rewrite H2. lia. }
  constructor; unfold entry_ids; cbn; rewrite ?map_app, ?length_app; cbn.
  - apply NoDup_app. repeat split; [done| |apply NoDup_singleton].
    intros k Hk E%list_elem_of_singleton. subst k. apply H3 in Hk. congruence.
  - intros k. rewrite lookup_insert_is_Some, H2. lia.
  - intros k. rewrite lookup_insert_Some, H3, elem_of_app, list_elem_of_singleton.
    split; [naive_solver|]. intros [Hk| ->]; [right|left; done]. split; [|done].
    intros ->. apply H3 in Hk. congruence.
  - rewrite count_insert_ne by congruence. done.
  - rewrite count_insert_ne by congruence. lia.
  - intros k. rewrite lookup_insert_Some. intros [[_ Eu]|[_ Eu]]; [done|by eapply H6].
Qed.

Lemma sched_exec_next_id s op : next_id (sched_exec s op) = next_id s \/
  is_spawn op = true /\ next_id (sched_exec s op) = Z.min u64_max (next_id s + 1).
Proof.
  destruct op; cbn; auto; left.
  - unfold sched_cancel, cancel_where. by repeat case_match.
  - unfold sched_cancel_foreign, cancel_where. by repeat case_match.
  - by rewrite tick_map.
Qed.

Lemma inv_exec s op : (is_spawn op = true -> next_id s < u64_max) -> sched_inv s -> sched_inv (sched_exec s op).
Proof.
  intros Hlt Hi. destruct op; cbn.
  - by apply inv_spawn; [apply Hlt|].
  - by apply inv_cancel_where.
  - by apply inv_cancel_where.
  - by apply inv_tick_loop.
Qed.

Lemma inv_run ops : forall s, next_id s + Z.of_nat (spawns ops) <= u64_max -> sched_inv s ->
  sched_inv (foldl sched_exec s ops).
Proof.
  induction ops as [|op ops IH]; intros s Hb Hi; [done|]. cbn [foldl].
  unfold spawns in Hb, IH. cbn [List.filter] in Hb. apply IH.
  - destruct (sched_exec_next_id s op) as [->|[E ->]]; [destruct (is_spawn op); cbn in Hb; lia|].
    rewrite E in Hb. cbn in Hb. lia.
  - apply inv_exec; [|done]. intros E. rewrite E in Hb. cbn in Hb. lia.
Qed.

Lemma inv_new : sched_inv scheduler_new.
Proof.
  constructor; cbn; try done; try constructor.
  - intros [? E]. by rewrite lookup_empty in E.
  - lia.
  - rewrite lookup_empty. done.
  - intros E%elem_of_nil. done.
Qed.

(** After any sequence of spawns, cancellations and ticks with fewer than
    2^64 - 1 spawns, no task is queued twice, the ids from 1 to [next_id]
    (and no others) have a status, a task has status Pending exactly when it
    is queued, and each task ever spawned is counted once as queued, completed
    or cancelled. *)
Theorem scheduler_bookkeeping (ops : list SchedOp) (Hb : Z.of_nat (spawns ops) < u64_max) :
  let s := foldl sched_exec scheduler_new ops in
  NoDup (entry_ids s) /\
  (forall id, sched_task_status s id = Unknown <-> ~ 1 <= id < next_id s) /\
  (forall id, sched_task_status s id = Pending <-> id ∈ entry_ids s) /\
  next_id s = 1 + Z.of_nat (scheduled (sched_stats s) + stats_completed (sched_stats s)
                            + count_status Canceled (sched_statuses s)) /\
  stats_completed (sched_stats s) = count_status Completed (sched_statuses s).
Proof.
  assert (Hi : sched_inv (foldl sched_exec scheduler_new ops)).
  { apply inv_run, inv_new. cbn. lia. }
  set (s := foldl sched_exec scheduler_new ops) in *. destruct Hi as [H1 H2 H3 H4 H5 H6].
  split_and!; try done; intros id; unfold sched_task_status.
  - rewrite <- H2. destruct (sched_statuses s !! id) as [st|] eqn:E; cbn.
    + split; [intros ->; by destruct (H6 id)|]. intros []. eauto.
    + split; [|done]. intros _ [? ?]. done.
  - rewrite <- H3. destruct (sched_statuses s !! id); cbn; naive_solver.
Qed.

(** ** Liveness of [run_until_idle]

    [finishes k t]: the [k]-th poll of [t], at the latest, completes it. *)
Fixpoint finishes (k : nat) (t : T) : bool :=
  match k with
  | O => false
  | S k' => match poll t with (TaskComplete, _, _) => true | (TaskPending, _, t') => finishes k' t' end
  end.

Definition due (now : Z) (e : TaskEntry) : bool :=
  match entry_wakeup e with Some deadline => deadline <=? now | None => true end.

(** The tasks need at most [n] polls in all. *)
Definition polls_left (q : list TaskEntry) (n : nat) : Prop :=
  exists ks, Forall2 (fun e k => finishes k (entry_task e) = true) q ks /\ sum_list ks = n.

Lemma polls_left_cons e q k n : finishes k (entry_task e) = true -> polls_left q n -> polls_left (e :: q) (k + n).
Proof. intros Hf (ks & Hks & <-). exists (k :: ks). split; [by constructor|done]. Qed.

Lemma polls_left_nil_inv q : polls_left q 0 -> q = [].
Proof.
  intros (ks & Hks & Hs). destruct Hks as [|e k q ks Hf]; [done|]. destruct k; [done|]. cbn in Hs. lia.
Qed.

(** A visit uses up one poll of a due task and leaves the others alone. *)
Lemma visit_finishes now e k : finishes k (entry_task e) = true ->
  match visit now e with
  | Some e' => exists k', finishes k' (entry_task e') = true /\
      (if due now e then k' + 1 = k else k' = k)%nat
  | None => due now e = true /\ (1 <= k)%nat
  end.
Proof.
  unfold visit, due. intros Hf. destruct (entry_wakeup e) as [d|].
  - destruct (Z.ltb_spec now d); [rewrite (proj2 (Z.leb_gt _ _)) by lia; by exists k|].
    rewrite (proj2 (Z.leb_le _ _)) by lia. destruct k as [|k]; [done|]. cbn in Hf.
    destruct (poll _) as [[[] hint] t']; [exists k; cbn; split; [done|lia]|split; [done|lia]].
  - destruct k as [|k]; [done|]. cbn in Hf.
    destruct (poll _) as [[[] hint] t']; [exists k; cbn; split; [done|lia]|split; [done|lia]].
Qed.

Lemma tick_progress now q n : polls_left q n ->
  exists n', polls_left (omap (visit now) q) n' /\ (n' <= n)%nat /\ (existsb (due now) q = true -> n' < n)%nat.
Proof.
  intros (ks & Hks & <-). induction Hks as [|e k q ks Hf Hks (n' & Hp & Hle & Hlt)].
  { exists 0%nat. split_and!; [by exists []|done|done]. }
  rewrite omap_visit_cons. apply (visit_finishes now) in Hf. cbn [sum_list_with existsb id]. unfold id in *.
  destruct (visit now e) as [e'|].
  - destruct Hf as (k' & Hf & Hk). exists (k' + n')%nat. split; [by apply polls_left_cons|].
    destruct (due now e); [split; intros; lia|]. cbn. split; [lia|]. intros Hd. specialize (Hlt Hd). lia.
  - destruct Hf as [-> Hk]. exists n'. split; [done|]. split; intros; cbn; lia.
Qed.

(** The scan of [sleep_until_next_wakeup] stops early at a due entry, and
    otherwise returns the deadline of one of the entries. *)
Lemma earliest_wakeup_due now q acc :
  match earliest_wakeup now acc q with
  | None => existsb (due now) q = true
  | Some (Some d) => acc = Some d \/ exists e, e ∈ q /\ entry_wakeup e = Some d /\ now < d
  | Some None => q = [] /\ acc = None
  end.
Proof.
  revert acc. induction q as [|e q IH]; intros acc; cbn.
  { destruct acc; auto. }
  unfold due at 1. destruct (entry_wakeup e) as [d|] eqn:Ew; [|done].
  destruct (Z.leb_spec d now) as [Hd|Hd]; [done|]. cbn [orb].
  specialize (IH (Some match acc with Some c => if c <=? d then c else d | None => d end)).
  destruct (earliest_wakeup now _ q) as [[d'|]|]; [|naive_solver|done].
  destruct IH as [[= <-]|(e' & He' & ? & ?)]; [|right; exists e'; split_and!; [by right|done|done]].
  destruct acc as [c|]; [destruct (c <=? d); [by left|]|]; right; exists e; (split_and!; [left|done|lia]).
Qed.

(** It is no later than any deadline scanned. *)
Lemma earliest_wakeup_least now q acc :
  match earliest_wakeup now acc q with
  | Some (Some d) => (forall c, acc = Some c -> d <= c) /\
      forall e, e ∈ q -> exists deadline, entry_wakeup e = Some deadline /\ d <= deadline
  | _ => True
  end.
Proof.
  revert acc. induction q as [|e q IH]; intros acc; cbn.
  { destruct acc; [|done]. split; [intros ? [= <-]; lia|intros e []%elem_of_nil]. }
  destruct (entry_wakeup e) as [w|] eqn:Ew; [|done]. destruct (w <=? now); [done|].
  specialize (IH (Some match acc with Some c => if c <=? w then c else w | None => w end)).
  destruct (earliest_wakeup now _ q) as [[d|]|]; [|done..]. destruct IH as [Ha Hq].
  specialize (Ha _ eq_refl). split.
  - intros c ->. destruct (Z.leb_spec c w); lia.
  - intros e' [-> |He']%elem_of_cons; [|by apply Hq]. exists w. split; [done|].
    destruct acc as [c|]; [destruct (Z.leb_spec c w)|]; lia.
Qed.

Section live.
Variable env : RunEnv.
Hypothesis tick_forward : forall i, 0 <= tick_time env i.
Hypothesis no_wakeup : forall i, wakeup env i = false.
Hypothesis sleeps_enough : forall i d, 0 <= d -> d <= sleep_time env i d.

Lemma due_mono now now' e : now <= now' -> due now e = true -> due now' e = true.
Proof. unfold due. destruct (entry_wakeup e); [|done]. rewrite !Z.leb_le. lia. Qed.

Lemma after_sleep_due i now s : queue s <> [] -> existsb (due (after_sleep env i now s)) (queue s) = true.
Proof.
  intros Hq. unfold after_sleep, sleep_until_next_wakeup. rewrite no_wakeup.
  pose proof (earliest_wakeup_due now (queue s) None) as He.
  destruct (earliest_wakeup now None (queue s)) as [[d|]|]; [|naive_solver|done].
  destruct He as [?|(e & He & Hw & Hd)]; [done|]. apply existsb_exists. exists e.
  split; [by apply list_elem_of_In|]. unfold due. rewrite Hw. apply Z.leb_le.
  rewrite Z.max_r by lia. specialize (sleeps_enough i (d - now)). lia.
Qed.

Lemma run_loop_idle n m i now fin s : polls_left (queue s) m -> (m <= n)%nat ->
  (existsb (due now) (queue s) = true \/ m < n)%nat ->
  queue (snd (run_loop env n i now fin s)) = [].
Proof.
  revert m i now fin s. induction n as [|n IH]; intros m i now fin s Hp Hm Hd; cbn [run_loop].
  { destruct m; [|lia]. by apply polls_left_nil_inv. }
  unfold sched_is_empty at 1. case_bool_decide as He; [by apply nil_length_inv|].
  rewrite tick_map. unfold sched_is_empty at 1. cbn [queue]. case_bool_decide as He'; [by apply nil_length_inv|].
  destruct (tick_progress now _ _ Hp) as (m' & Hp' & Hle & Hlt).
  apply (IH m'); cbn [queue]; [done|destruct Hd as [Hd|Hd]; [specialize (Hlt Hd)|]; lia|].
  left. apply after_sleep_due. cbn [queue]. intros E. by rewrite E in He'.
Qed.
End live.

(** C26: [run_until_idle] is live.  When the clock goes forward, a sleep lasts
    as long as it was asked to and every queued task completes within its share
    of [m] polls, then one tick more than [m] empties the queue, whatever
    deadlines the tasks set: a tick after a sleep always has a due task. *)
Theorem run_until_idle_live (env : RunEnv) (s : CoroutineScheduler) (now : Z) (m max_ticks : nat)
    (Hfwd : forall i, 0 <= tick_time env i) (Hwake : forall i, wakeup env i = false)
    (Hsleep : forall i d, 0 <= d -> d <= sleep_time env i d)
    (Hfin : polls_left (queue s) m) (Hmax : (m < max_ticks)%nat) :
  sched_is_empty (snd (run_until_idle env max_ticks now s)) = true.
Proof.
  unfold sched_is_empty, run_until_idle. rewrite (run_loop_idle _ Hwake Hsleep _ m); auto; lia.
Qed.

(** A sleep is exact.  The scheduler sleeps only when it has tasks and none
    of them is due, and then until the earliest of their deadlines. *)
Theorem sleep_exact (now : Z) (s : CoroutineScheduler) :
  match sleep_until_next_wakeup false now s with
  | None => queue s = [] \/ exists e, e ∈ queue s /\ due now e = true
  | Some sleep_for =>
      0 < sleep_for /\
      (exists e, e ∈ queue s /\ entry_wakeup e = Some (now + sleep_for)) /\
      forall e, e ∈ queue s -> exists deadline, entry_wakeup e = Some deadline /\ now + sleep_for <= deadline
  end.
Proof.
  unfold sleep_until_next_wakeup. pose proof (earliest_wakeup_due now (queue s) None) as Hd.
  pose proof (earliest_wakeup_least now (queue s) None) as Hl.
  destruct (earliest_wakeup now None (queue s)) as [[d|]|].
  - destruct Hd as [?|(e & He & Hw & Hlt)]; [done|]. rewrite Z.max_r by lia.
    replace (now + (d - now)) with d by lia. split; [lia|]. split; [by exists e|apply Hl].
  - left. apply Hd.
  - right. apply existsb_exists in Hd as (e & He%list_elem_of_In & ?). by exists e.
Qed.

(** One tick polls each due task exactly once, in queue order, and no
    other: the queue becomes the result of visiting each entry in place (so the
    order of the tasks left is kept), the ids returned are those of the tasks
    that completed, in order, and exactly these become Completed and are
    added to the count. *)
Theorem tick_polls_once (now : Z) (s : CoroutineScheduler) :
  fst (tick now s) = finished_by now (queue s) /\
  queue (snd (tick now s)) = omap (visit now) (queue s) /\
  next_id (snd (tick now s)) = next_id s /\
  stats_completed (sched_stats (snd (tick now s))) =
    (stats_completed (sched_stats s) + length (fst (tick now s)))%nat /\
  forall id, sched_task_status (snd (tick now s)) id =
    if bool_decide (id ∈ fst (tick now s)) then Completed else sched_task_status s id.
Proof.
  rewrite tick_map. split_and!; try done. intros id. unfold sched_task_status. cbn.
  generalize (sched_statuses s). induction (finished_by now (queue s)) as [|k l IH]; intros m; [done|].
  change (complete_all (k :: l) m) with (complete_all l (<[k := Completed]> m)). rewrite IH.
  destruct (decide (id = k)) as [-> |Hne].
  - rewrite (bool_decide_true (k ∈ k :: l)) by left. case_bool_decide; [done|by rewrite lookup_insert_eq].
  - rewrite lookup_insert_ne by done.
    rewrite (bool_decide_ext (id ∈ k :: l) (id ∈ l)) by set_solver. done.
Qed.

(** [cancel] finds a queued task, asks it, and only when the task agrees
    removes it and records it as Canceled; a task that is not queued, or that
    refuses, leaves every status, the counts and the queued ids as they were. *)
Theorem sched_cancel_spec (task_id : Z) (s : CoroutineScheduler) :
  match List.find (fun e => entry_id e =? task_id) (queue s) with
  | None => sched_cancel task_id s = (false, s)
  | Some e =>
      let '(ok, s') := sched_cancel task_id s in
      ok = fst (cancel (entry_task e)) /\
      completed s' = completed s /\ next_id s' = next_id s /\
      if ok then
        sched_statuses s' = <[task_id := Canceled]> (sched_statuses s) /\
        exists q1 q2, queue s = q1 ++ e :: q2 /\ queue s' = q1 ++ q2
      else sched_statuses s' = sched_statuses s /\ entry_ids s' = entry_ids s
  end.
Proof.
  destruct s as [nid q c st]. unfold sched_cancel, cancel_where, entry_ids. cbn [queue next_id completed sched_statuses].
  assert (Hc : match List.find (fun e => entry_id e =? task_id) q with
    | None => cancel_first (fun e => entry_id e =? task_id) q = (None, q)
    | Some e => let '(r, q') := cancel_first (fun e => entry_id e =? task_id) q in
        if fst (cancel (entry_task e)) then r = Some task_id /\ exists q1 q2, q = q1 ++ e :: q2 /\ q' = q1 ++ q2
        else r = None /\ map entry_id q' = map entry_id q
    end).
  { induction q as [|e q IH]; cbn; [done|]. destruct (Z.eqb_spec (entry_id e) task_id) as [Ee|Ee].
    - destruct (cancel (entry_task e)) as [[] t']; cbn; [|done]. rewrite Ee. split; [done|]. by exists [], q.
    - destruct (List.find _ q) as [e0|].
      + destruct (cancel_first _ q) as [r q']. destruct (fst _).
        * destruct IH as (-> & q1 & q2 & -> & ->). split; [done|]. by exists (e :: q1), q2.
        * destruct IH as [-> IH]. cbn. by rewrite IH.
      + by rewrite IH. }
  destruct (List.find _ q) as [e|]; [|by rewrite Hc].
  destruct (cancel_first _ q) as [r q']. destruct (fst _); destruct Hc as [-> Hc]; cbn; auto.
Qed.
End scheduler.

(** ** A concrete task: it asks for [polls] polls, each [delay] after the last *)
Module SleepyTask.
Record Sleepy := mkSleepy { polls : nat; delay : Z; at_time : Z; cancellable : bool }.

#[global] Instance sleepy_task : CoroutineTask Sleepy := {
  poll t :=
    match polls t with
    | S (S n) => (TaskPending, [at_time t + delay t],
                  mkSleepy (S n) (delay t) (at_time t + delay t) (cancellable t))
    | _ => (TaskComplete, [], t)
    end;
  foreign_identity _ := None;
  cancel t := (cancellable t, t);
}.

Definition two_tasks : list (SchedOp (T := Sleepy)) :=
  [OpSpawn (mkSleepy 3 10 0 true); OpSpawn (mkSleepy 2 7 0 false); OpTick 0; OpCancel 2; OpCancel 1; OpTick 8].

Definition env : RunEnv := mkEnv (fun _ => 1) (fun _ => false) (fun _ d => d).

Definition queued : CoroutineScheduler :=
  foldl sched_exec scheduler_new (take 2 two_tasks).
End SleepyTask.

Lemma scheduler_bookkeeping_witness :
  let s := foldl sched_exec scheduler_new SleepyTask.two_tasks in
  sched_task_status s 1 = Canceled /\ sched_task_status s 2 = Completed /\ NoDup (entry_ids s).
Proof.
  split; [by vm_compute|]. split; [by vm_compute|].
  apply (scheduler_bookkeeping SleepyTask.two_tasks). vm_compute. reflexivity.
Defined.

Lemma run_until_idle_live_witness :
  sched_is_empty (snd (run_until_idle SleepyTask.env 6 0 SleepyTask.queued)) = true.
Proof.
  apply (run_until_idle_live SleepyTask.env SleepyTask.queued 0 5 6); [intros; cbn; lia|done|intros; cbn; lia| |lia].
  exists [3; 2]%nat. split; [|done]. repeat constructor.
Defined.
