(* ===== verification/TaskScope.v ===== *)
(** Task scopes and foreign tasks: runtime/src/async_runtime/task_scope.rs and
    the tasks of bridge.rs.

    The registry of scopes is behind a mutex, and several threads call into it.
    One step is one critical section or one call to the executor; steps of
    different calls interleave freely.  A call that is between two of its steps
    is a [ScopeCall].  Waiting on the condition variable is not being able to
    step.  What the executor answers (the id of a spawned task, or 0, and the
    status of a joined one) and whether a future can be cancelled is an input of
    the step; [sc_events] records, newest first, what the calls did.

    What a scope does, in whatever way its calls interleave, is to accept tasks,
    then, when it is closed with a cancel, to cancel all of them, then to join
    all of them in the same order, then to report ([scope_joins_children]); a
    call never panics and a close waits only for spawns ([scope_calls_proceed]).
    A foreign task releases the future it owns exactly once
    ([foreign_released_once]). *)

From S2P Require Import Prelude Executor Scheduler.

Local Open Scope Z_scope.

(** ** Foreign tasks *)

(** The calls of a task on the future it owns.  The answer of a cancel is
    whether the future was released by it. *)
Inductive ForeignCall :=
| PollDispatch (kind handle : Z)
| CancelDispatch (kind handle : Z) (canceled : bool)
| DropDispatch (kind handle : Z).

(** [DetachedForeignAsyncTask] and [ForeignAsyncTask]. *)
Record ForeignTask := mkForeign { foreign_kind : Z; foreign_handle : Z }.

Definition detached_identity (t : ForeignTask) : option (Z * Z) :=
  if foreign_handle t =? 0 then None else Some (foreign_kind t, foreign_handle t).

Definition forget (t : ForeignTask) : ForeignTask := mkForeign (foreign_kind t) 0.

(** [ready] is what the future's poll function answers. *)
Definition detached_poll (ready : bool) (t : ForeignTask) : TaskState * ForeignTask * list ForeignCall :=
  let polled := PollDispatch (foreign_kind t) (foreign_handle t) in
  if negb ready then (TaskPending, t, [polled])
  else if foreign_handle t =? 0 then (TaskComplete, t, [polled])
  else (TaskComplete, forget t, [polled; DropDispatch (foreign_kind t) (foreign_handle t)]).

(** The task of [spawn], whose result is still to be read, keeps its future. *)
Definition foreign_poll (ready : bool) (t : ForeignTask) : TaskState * ForeignTask * list ForeignCall :=
  (if ready then TaskComplete else TaskPending, t, [PollDispatch (foreign_kind t) (foreign_handle t)]).

Definition foreign_cancel (answer : bool) (t : ForeignTask) : bool * ForeignTask * list ForeignCall :=
  if foreign_handle t =? 0 then (true, t, [])
  else (answer, if answer then forget t else t, [CancelDispatch (foreign_kind t) (foreign_handle t) answer]).

Definition on_scheduler_drop (t : ForeignTask) : ForeignTask * list ForeignCall :=
  if foreign_handle t =? 0 then (t, []) else (forget t, [DropDispatch (foreign_kind t) (foreign_handle t)]).

Definition release_rejected (answer : bool) (t : ForeignTask) : list ForeignCall :=
  if foreign_handle t =? 0 then []
  else CancelDispatch (foreign_kind t) (foreign_handle t) answer ::
       (if answer then [] else [DropDispatch (foreign_kind t) (foreign_handle t)]).

(** ** Scopes *)

Record TaskScopeEntry := mkScope { children : list Z; in_flight_spawns : nat; closing : bool }.
Definition scope_default : TaskScopeEntry := mkScope [] 0 false.

(** A call between two of its steps. *)
Inductive ScopeCall :=
| CSpawning (scope kind handle : Z)
| CSpawned (scope task : Z)
| CClosing (scope : Z) (cancel : bool)
| CCanceling (scope : Z) (todo all : list Z)
| CJoining (scope : Z) (cancel : bool) (todo : list Z) (summary : TaskLifecycleStatus).

Inductive ScopeEvent :=
| EAccepted (scope task : Z)
| ERejected (scope : Z) (released : list ForeignCall)
| ECanceled (scope task : Z)
| EJoined (scope task : Z) (status : TaskLifecycleStatus)
| EClosed (scope : Z) (cancel : bool) (summary : TaskLifecycleStatus).

Record Scopes := mkScopes {
  next_scope_id : Z;
  task_scopes : gmap Z TaskScopeEntry;
  sc_calls : list ScopeCall;
  sc_events : list ScopeEvent;
}.

Definition scopes_new : Scopes := mkScopes 1 ∅ [] [].
Definition set_scope (scope : Z) (e : TaskScopeEntry) (s : Scopes) : Scopes :=
  mkScopes (next_scope_id s) (<[scope := e]> (task_scopes s)) (sc_calls s) (sc_events s).
Definition remove_scope (scope : Z) (s : Scopes) : Scopes :=
  mkScopes (next_scope_id s) (delete scope (task_scopes s)) (sc_calls s) (sc_events s).
Definition set_calls (calls : list ScopeCall) (s : Scopes) : Scopes :=
  mkScopes (next_scope_id s) (task_scopes s) calls (sc_events s).
Definition begin_call (c : ScopeCall) (s : Scopes) : Scopes := set_calls (c :: sc_calls s) s.
Definition emit (e : ScopeEvent) (s : Scopes) : Scopes :=
  mkScopes (next_scope_id s) (task_scopes s) (sc_calls s) (e :: sc_events s).

Definition sengoo_async_task_scope_new (s : Scopes) : Z * Scopes :=
  let scope_id := next_scope_id s in
  let s := mkScopes (wrap_s 64 (scope_id + 1)) (task_scopes s) (sc_calls s) (sc_events s) in
  if scope_id <=? 0 then (0, s) else (scope_id, set_scope scope_id scope_default s).

(** [sengoo_async_task_scope_spawn_raw] up to the end of its first critical
    section; [answer] is that of the cancel when the spawn is refused. *)
Definition scope_spawn_begin (answer : bool) (scope_id kind handle : Z) (s : Scopes) : Scopes :=
  let refused := emit (ERejected scope_id (release_rejected answer (mkForeign kind handle))) s in
  match task_scopes s !! scope_id with
  | None => refused
  | Some scope =>
      if closing scope then refused
      else begin_call (CSpawning scope_id kind handle)
             (set_scope scope_id (mkScope (children scope) (S (in_flight_spawns scope)) (closing scope)) s)
  end.

(** [close_scope] up to its wait, which comes after the same critical section
    when nothing is in flight; the model may interleave there. *)
Definition close_scope_begin (scope_id : Z) (cancel : bool) (s : Scopes) : TaskLifecycleStatus + Scopes :=
  match task_scopes s !! scope_id with
  | None => inl Unknown
  | Some scope =>
      if closing scope then inl Unknown
      else inr (begin_call (CClosing scope_id cancel) (set_scope scope_id (mkScope (children scope) (in_flight_spawns scope) true) s))
  end.

Definition sengoo_async_task_scope_join (scope_id : Z) : Scopes -> TaskLifecycleStatus + Scopes := close_scope_begin scope_id false.
Definition sengoo_async_task_scope_cancel_join (scope_id : Z) : Scopes -> TaskLifecycleStatus + Scopes := close_scope_begin scope_id true.

(** What the status of a child makes of the summary. *)
Definition summarize (cancel : bool) (summary status : TaskLifecycleStatus) : TaskLifecycleStatus :=
  match status with
  | Failed => Failed
  | Canceled => if cancel then summary else Canceled
  | Unknown => Unknown
  | Pending | Completed => summary
  end.
Definition first_summary (cancel : bool) : TaskLifecycleStatus := if cancel then Canceled else Completed.

(** A call can wait, panic, or go on. *)
Inductive outcome (A : Type) := Waits | Panics | Goes (a : A).
Arguments Waits {A}.
Arguments Panics {A}.
Arguments Goes {A} a.

(** What the executor answers. *)
Record Answers := mkAnswers { spawned_id : Z; joined_status : TaskLifecycleStatus }.

(** One step of a call, which is not among the calls of [s]. *)
Definition run_call (a : Answers) (c : ScopeCall) (s : Scopes) : outcome Scopes :=
  match c with
  | CSpawning scope_id _ _ => Goes (begin_call (CSpawned scope_id (spawned_id a)) s)
  | CSpawned scope_id task_id =>
      match task_scopes s !! scope_id with
      | None => Panics
      | Some scope =>
          match in_flight_spawns scope with
          | O => Panics
          | S n =>
              let s := set_scope scope_id (mkScope (if task_id =? 0 then children scope else children scope ++ [task_id]) n (closing scope)) s in
              Goes (if task_id =? 0 then s else emit (EAccepted scope_id task_id) s)
          end
      end
  | CClosing scope_id cancel =>
      match task_scopes s !! scope_id with
      | None => Panics
      | Some scope =>
          if Nat.eqb (in_flight_spawns scope) 0 then
            Goes (begin_call (if cancel then CCanceling scope_id (children scope) (children scope)
                              else CJoining scope_id cancel (children scope) (first_summary cancel))
                    (remove_scope scope_id s))
          else Waits
      end
  | CCanceling scope_id [] all => Goes (begin_call (CJoining scope_id true all (first_summary true)) s)
  | CCanceling scope_id (task_id :: todo) all => Goes (begin_call (CCanceling scope_id todo all) (emit (ECanceled scope_id task_id) s))
  | CJoining scope_id cancel [] summary => Goes (emit (EClosed scope_id cancel summary) s)
  | CJoining scope_id cancel (task_id :: todo) summary =>
      let status := joined_status a in
      Goes (begin_call (CJoining scope_id cancel todo (summarize cancel summary status)) (emit (EJoined scope_id task_id status) s))
  end.

Inductive scope_step : Scopes -> Scopes -> Prop :=
| step_scope_new s : scope_step s (snd (sengoo_async_task_scope_new s))
| step_scope_spawn answer scope kind handle s : scope_step s (scope_spawn_begin answer scope kind handle s)
| step_scope_close scope cancel s s' : close_scope_begin scope cancel s = inr s' -> scope_step s s'
| step_scope_call a c l r s s' : sc_calls s = l ++ c :: r -> run_call a c (set_calls (l ++ r) s) = Goes s' -> scope_step s s'.

(** The states that calls lead to while fewer than 2^63 scopes are made: an id
    is not used twice. *)
Inductive scopes_reachable : Scopes -> Prop :=
| scopes_first : scopes_reachable scopes_new
| scopes_next s s' : scopes_reachable s -> scope_step s s' -> 0 < next_scope_id s' -> scopes_reachable s'.

(** ** The life of a scope *)

Definition scope_of (c : ScopeCall) : Z :=
  match c with
  | CSpawning sc _ _ | CSpawned sc _ | CClosing sc _ | CCanceling sc _ _ | CJoining sc _ _ _ => sc
  end.
Definition calls_of (sc : Z) (calls : list ScopeCall) : list ScopeCall := filter (fun c => scope_of c = sc) calls.

Inductive LocalEvent :=
| Accepted (task : Z)
| Cancels (task : Z)
| Joined (task : Z) (status : TaskLifecycleStatus)
| Closed (cancel : bool) (summary : TaskLifecycleStatus).

(** What an event says of a scope; a rejected spawn is no part of its life. *)
Definition local_event (sc : Z) (e : ScopeEvent) : option LocalEvent :=
  let here sc' l := if decide (sc' = sc) then Some l else None in
  match e with
  | EAccepted sc' t => here sc' (Accepted t)
  | ECanceled sc' t => here sc' (Cancels t)
  | EJoined sc' t st => here sc' (Joined t st)
  | EClosed sc' cancel summary => here sc' (Closed cancel summary)
  | ERejected _ _ => None
  end.

(** The life of a scope, in the order of time. *)
Definition life (sc : Z) (events : list ScopeEvent) : list LocalEvent := reverse (omap (local_event sc) events).

Lemma life_cons sc e events : life sc (e :: events) = life sc events ++ match local_event sc e with Some l => [l] | None => [] end.
Proof. unfold life. csimpl. case_match; rewrite ?reverse_cons, ?app_nil_r; done. Qed.

Definition is_spawn (sc : Z) (c : ScopeCall) : Prop := (exists kind handle, c = CSpawning sc kind handle) \/ exists task, c = CSpawned sc task.

Definition cancels (cancel : bool) (ts : list Z) : list LocalEvent := if cancel then map Cancels ts else [].
Definition summary_of (cancel : bool) : list TaskLifecycleStatus -> TaskLifecycleStatus := foldl (summarize cancel) (first_summary cancel).

(** Where a scope can be: its entry, the calls on it, its life. *)
Inductive phase (sc : Z) (calls : list ScopeCall) : option TaskScopeEntry -> list LocalEvent -> Prop :=
| ph_fresh : calls = [] -> phase sc calls None []
| ph_open ts : Forall (is_spawn sc) calls -> phase sc calls (Some (mkScope ts (length calls) false)) (map Accepted ts)
| ph_closing ts spawns cancel :
    calls ≡ₚ CClosing sc cancel :: spawns -> Forall (is_spawn sc) spawns ->
    phase sc calls (Some (mkScope ts (length spawns) true)) (map Accepted ts)
| ph_canceling past todo :
    calls = [CCanceling sc todo (past ++ todo)] -> phase sc calls None (map Accepted (past ++ todo) ++ map Cancels past)
| ph_joining cancel past todo statuses :
    calls = [CJoining sc cancel todo (summary_of cancel statuses)] -> length past = length statuses ->
    phase sc calls None (map Accepted (past ++ todo) ++ cancels cancel (past ++ todo) ++ zip_with Joined past statuses)
| ph_closed cancel ts statuses :
    calls = [] -> length ts = length statuses ->
    phase sc calls None (map Accepted ts ++ cancels cancel ts ++ zip_with Joined ts statuses ++ [Closed cancel (summary_of cancel statuses)]).

Lemma phase_perm sc calls calls' entry l : calls ≡ₚ calls' -> phase sc calls entry l -> phase sc calls' entry l.
Proof.
  intros Hp [Hc|ts Hc|ts spawns cancel Hc Hs|past todo Hc|cancel past todo sts Hc Hl|cancel ts sts Hc Hl];
    try (rewrite Hc in Hp; first [apply Permutation_nil_l in Hp|apply Permutation_singleton_l in Hp]; subst).
  - by constructor.
  - rewrite (Permutation_length Hp). constructor. by rewrite <- Hp.
  - econstructor; [|done]. by rewrite <- Hp.
  - by constructor.
  - by constructor.
  - by constructor.
Qed.

Record scopes_wf (s : Scopes) : Prop := {
  wf_next : 0 < next_scope_id s < 2 ^ 63;
  wf_phase : forall sc, phase sc (calls_of sc (sc_calls s)) (task_scopes s !! sc) (life sc (sc_events s));
  wf_fresh : forall sc, next_scope_id s <= sc ->
    calls_of sc (sc_calls s) = [] /\ task_scopes s !! sc = None /\ life sc (sc_events s) = [];
}.

Lemma calls_of_cons_eq sc c calls : scope_of c = sc -> calls_of sc (c :: calls) = c :: calls_of sc calls.
Proof. intros H. unfold calls_of. by rewrite filter_cons_True. Qed.
Lemma calls_of_cons_ne sc c calls : scope_of c <> sc -> calls_of sc (c :: calls) = calls_of sc calls.
Proof. intros H. unfold calls_of. by rewrite filter_cons_False. Qed.

(** A step changes one scope. *)
Record only (sc : Z) (s s' : Scopes) : Prop := {
  only_calls : forall sc', sc' <> sc -> calls_of sc' (sc_calls s') ≡ₚ calls_of sc' (sc_calls s);
  only_entry : forall sc', sc' <> sc -> task_scopes s' !! sc' = task_scopes s !! sc';
  only_life : forall sc', sc' <> sc -> life sc' (sc_events s') = life sc' (sc_events s);
}.

Lemma only_refl sc s : only sc s s.
Proof. by split. Qed.
Lemma only_trans sc s1 s2 s3 : only sc s1 s2 -> only sc s2 s3 -> only sc s1 s3.
Proof.
  intros [H1 H2 H3] [K1 K2 K3]. split; intros sc' Hne.
  - by rewrite K1, H1.
  - by rewrite K2, H2.
  - by rewrite K3, H3.
Qed.
Lemma only_set sc e s : only sc s (set_scope sc e s).
Proof. split; [done| |done]. intros sc' Hne. cbn. by rewrite lookup_insert_ne. Qed.
Lemma only_remove sc s : only sc s (remove_scope sc s).
Proof. split; [done| |done]. intros sc' Hne. cbn. by rewrite lookup_delete_ne. Qed.
Lemma only_begin sc c s : scope_of c = sc -> only sc s (begin_call c s).
Proof. intros H. split; [|done..]. intros sc' Hne. cbn [begin_call set_calls sc_calls]. rewrite calls_of_cons_ne; [done|congruence]. Qed.
Lemma only_emit sc e s : (forall sc', sc' <> sc -> local_event sc' e = None) -> only sc s (emit e s).
Proof. intros H. split; [done..|]. intros sc' Hne. cbn [emit sc_events]. rewrite life_cons, H by done. by rewrite app_nil_r. Qed.
Lemma only_emit_own e sc s :
  match e with EAccepted sc' _ | ERejected sc' _ | ECanceled sc' _ | EJoined sc' _ _ | EClosed sc' _ _ => sc' = sc end -> only sc s (emit e s).
Proof. intros H. apply only_emit. intros sc' Hne. destruct e; cbn; rewrite ?decide_False by congruence; done. Qed.

#[export] Hint Resolve only_refl only_set only_remove : sengoo.

Lemma only_wf sc s s' : scopes_wf s -> only sc s s' -> next_scope_id s' = next_scope_id s -> sc < next_scope_id s ->
  phase sc (calls_of sc (sc_calls s')) (task_scopes s' !! sc) (life sc (sc_events s')) -> scopes_wf s'.
Proof.
  intros [H1 H2 H3] [K1 K2 K3] Hn Hsc Hp. split; [by rewrite Hn| |].
  - intros sc'. destruct (decide (sc' = sc)) as [->|Hne]; [done|]. rewrite K2, K3 by done. eapply phase_perm; [symmetry; by apply K1|apply H2].
  - intros sc' Hle. rewrite Hn in Hle. rewrite K2, K3 by lia. destruct (H3 sc' Hle) as (Hc & He & Hl). split_and!; [|done..].
    apply Permutation_nil_r. by rewrite <- Hc, K1 by lia.
Qed.

(** *** The steps *)

Lemma in_use s sc e : scopes_wf s -> task_scopes s !! sc = Some e -> sc < next_scope_id s.
Proof. intros [_ _ H] He. destruct (Z.lt_ge_cases sc (next_scope_id s)) as [|Hge]; [done|]. destruct (H sc Hge) as (_ & Hn & _). congruence. Qed.

Lemma spawn_begin_wf answer sc kind handle s : scopes_wf s -> scopes_wf (scope_spawn_begin answer sc kind handle s).
Proof.
  intros Hwf. assert (forall calls, scopes_wf (emit (ERejected sc calls) s)) as Hr.
  { intros calls. destruct Hwf as [H1 H2 H3]. split; [done| |]; intros sc'; cbn [emit sc_events]; rewrite life_cons, app_nil_r; auto. }
  unfold scope_spawn_begin. destruct (task_scopes s !! sc) as [e|] eqn:E; [|apply Hr]. destruct (closing e) eqn:Ec; [apply Hr|].
  apply (only_wf sc s); [done| |done|by eapply in_use|].
  - eapply only_trans; [apply only_set|by apply only_begin].
  - cbn [begin_call set_calls set_scope sc_calls task_scopes sc_events]. rewrite calls_of_cons_eq by done. rewrite lookup_insert_eq. pose proof (wf_phase s Hwf sc) as Hp. rewrite E in Hp.
    inversion Hp as [|ts Hs He Hl| | | |]; subst; [|done]. cbn.
    apply (ph_open sc (CSpawning sc kind handle :: calls_of sc (sc_calls s)) ts). constructor; [left; eauto|done].
Qed.

Lemma scope_new_wf s : scopes_wf s -> 0 < next_scope_id (snd (sengoo_async_task_scope_new s)) -> scopes_wf (snd (sengoo_async_task_scope_new s)).
Proof.
  intros Hwf Hpos. pose proof (wf_next s Hwf) as Hn. unfold sengoo_async_task_scope_new in *. rewrite (proj2 (Z.leb_gt _ _)) in * by lia.
  cbn [snd set_scope next_scope_id task_scopes sc_calls sc_events] in *.
  assert (wrap_s 64 (next_scope_id s + 1) = next_scope_id s + 1) as Hw.
  { destruct (decide (next_scope_id s + 1 = 2 ^ 63)) as [He|He]; [rewrite He in Hpos; vm_compute in Hpos; done|].
    apply wrap_s_id; [lia|]. unfold in_s. change (64 - 1) with 63. lia. }
  pose proof (wrap_s_range 64 (next_scope_id s + 1) ltac:(lia)) as Hr. rewrite Hw in *. unfold in_s in Hr. change (64 - 1) with 63 in Hr.
  split; cbn [set_scope next_scope_id task_scopes sc_calls sc_events]; [lia| |].
  - intros sc. destruct (decide (sc = next_scope_id s)) as [->|Hne].
    + rewrite lookup_insert_eq. destruct (wf_fresh s Hwf (next_scope_id s) ltac:(lia)) as (Hc & _ & Hl). rewrite Hc, Hl. by apply (ph_open _ [] []).
    + rewrite lookup_insert_ne by done. apply (wf_phase s Hwf).
  - intros sc Hsc. rewrite lookup_insert_ne by lia. apply (wf_fresh s Hwf). lia.
Qed.

Lemma close_begin_wf sc cancel s s' : scopes_wf s -> close_scope_begin sc cancel s = inr s' -> scopes_wf s'.
Proof.
  intros Hwf. unfold close_scope_begin. destruct (task_scopes s !! sc) as [e|] eqn:E; [|done]. destruct (closing e) eqn:Ec; [done|]. intros [= <-].
  apply (only_wf sc s); [done| |done|by eapply in_use|].
  - eapply only_trans; [apply only_set|by apply only_begin].
  - cbn [begin_call set_calls set_scope sc_calls task_scopes sc_events]. rewrite calls_of_cons_eq by done. rewrite lookup_insert_eq.
    pose proof (wf_phase s Hwf sc) as Hp. rewrite E in Hp. inversion Hp as [|ts Hs He Hl| | | |]; subst; [|done].
    by eapply ph_closing.
Qed.

Lemma calls_of_split sc l c r : calls_of sc (l ++ c :: r) ≡ₚ calls_of sc (c :: l ++ r).
Proof. unfold calls_of. apply filter_Permutation. symmetry. apply Permutation_middle. Qed.

Lemma run_call_only a c s s' : run_call a c s = Goes s' -> only (scope_of c) s s' /\ next_scope_id s' = next_scope_id s.
Proof.
  destruct c as [sc k h|sc t|sc cancel|sc [|t todo] all|sc cancel [|t todo] summary]; cbn [run_call scope_of].
  - intros [= <-]. split; [by apply only_begin|done].
  - repeat case_match; try done; intros [= <-]; (split; [|done]); [apply only_set|].
    eapply only_trans; [apply only_set|by apply only_emit_own].
  - repeat case_match; try done; intros [= <-]; (split; [|done]); (eapply only_trans; [apply only_remove|by apply only_begin]).
  - intros [= <-]. split; [by apply only_begin|done].
  - intros [= <-]. split; [|done]. eapply only_trans; [|by apply only_begin]. by apply only_emit_own.
  - intros [= <-]. split; [by apply only_emit_own|done].
  - intros [= <-]. split; [|done]. eapply only_trans; [|by apply only_begin]. by apply only_emit_own.
Qed.

(** A spawn can go from its first section to the second, and end. *)
Lemma phase_spawn sc c calls e l : is_spawn sc c -> phase sc (c :: calls) (Some e) l ->
  (forall task, phase sc (CSpawned sc task :: calls) (Some e) l) /\
  exists n, in_flight_spawns e = S n /\ phase sc calls (Some (mkScope (children e) n (closing e))) l /\
    forall task, phase sc calls (Some (mkScope (children e ++ [task]) n (closing e))) (l ++ [Accepted task]).
Proof.
  intros Hspawn Hp. inversion Hp as [|ts Hc He Hl|ts spawns cancel Hc Hs He Hl| | |]; subst.
  - apply Forall_cons in Hc as [_ Hc]. split.
    + intros task. apply (ph_open sc (CSpawned sc task :: calls)). constructor; [right; eauto|done].
    + exists (length calls). split_and!; [done|by apply ph_open|]. intros task. change [Accepted task] with (map Accepted [task]).
      rewrite <- map_app. by apply ph_open.
  - assert (exists spawns', spawns ≡ₚ c :: spawns' /\ calls ≡ₚ CClosing sc cancel :: spawns') as (spawns' & Hsp & Hca).
    { assert (c ∈ CClosing sc cancel :: spawns) as [->|[spawns' Hsp]%elem_of_Permutation]%elem_of_cons by (rewrite <- Hc; set_solver).
      - destruct Hspawn as [(k & h & ?)|(t & ?)]; done.
      - exists spawns'. split; [done|]. rewrite Hsp in Hc. apply (Permutation_cons_inv (a := c)). rewrite Hc. apply perm_swap. }
    rewrite Hsp in Hs. apply Forall_cons in Hs as [_ Hs]. rewrite (Permutation_length Hsp). cbn [length]. split.
    + intros task. apply (ph_closing sc _ ts (CSpawned sc task :: spawns') cancel); [rewrite Hca; apply perm_swap|].
      constructor; [right; eauto|done].
    + exists (length spawns'). split_and!; [done|by eapply ph_closing|]. intros task. change [Accepted task] with (map Accepted [task]).
      rewrite <- map_app. by eapply ph_closing.
Qed.

Lemma phase_close sc cancel calls entry l : phase sc (CClosing sc cancel :: calls) entry l ->
  exists ts, entry = Some (mkScope ts (length calls) true) /\ l = map Accepted ts /\ Forall (is_spawn sc) calls.
Proof.
  intros Hp. inversion Hp as [|ts Hc He Hl|ts spawns cancel' Hc Hs He Hl| | |]; subst; try done.
  - apply Forall_cons in Hc as [[(k & h & ?)|(t & ?)] _]; done.
  - assert (CClosing sc cancel ∈ CClosing sc cancel' :: spawns) as [Heq|Hin]%elem_of_cons by (rewrite <- Hc; set_solver).
    + injection Heq as <-. apply Permutation_cons_inv in Hc. exists ts. by rewrite Hc.
    + rewrite Forall_forall in Hs. destruct (Hs _ Hin) as [(k & h & ?)|(t & ?)]; done.
Qed.

Lemma closer_only sc cancel c calls spawns : c :: calls ≡ₚ CClosing sc cancel :: spawns -> Forall (is_spawn sc) spawns ->
  is_spawn sc c \/ c = CClosing sc cancel.
Proof.
  intros Hc Hs. assert (c ∈ CClosing sc cancel :: spawns) as [->|Hin]%elem_of_cons by (rewrite <- Hc; set_solver); [by right|left].
  rewrite Forall_forall in Hs. by apply Hs.
Qed.

Lemma run_call_phase a c s : let sc := scope_of c in
  phase sc (c :: calls_of sc (sc_calls s)) (task_scopes s !! sc) (life sc (sc_events s)) ->
  match run_call a c s with
  | Panics => False
  | Waits => Exists (is_spawn sc) (calls_of sc (sc_calls s))
  | Goes s' => phase sc (calls_of sc (sc_calls s')) (task_scopes s' !! sc) (life sc (sc_events s'))
  end.
Proof.
  intros sc Hp. destruct c as [sc' k h|sc' t|sc' cancel|sc' todo all|sc' cancel todo summary]; subst sc; cbn [scope_of] in *.
  - cbn [run_call begin_call set_calls sc_calls task_scopes sc_events]. rewrite calls_of_cons_eq by done.
    destruct (task_scopes s !! sc') as [e|] eqn:E; [|by inversion Hp]. eapply phase_spawn; [|exact Hp]. left. eauto.
  - cbn [run_call]. destruct (task_scopes s !! sc') as [e|] eqn:E; [|by inversion Hp].
    destruct (phase_spawn sc' _ _ e _ ltac:(right; eauto) Hp) as (_ & n & -> & H1 & H2).
    case_match; cbn [emit set_scope sc_calls task_scopes sc_events]; rewrite lookup_insert_eq; [done|].
    rewrite life_cons. cbn [local_event]. by rewrite decide_True.
  - apply phase_close in Hp as (ts & E & Hl & Hs). cbn [run_call]. rewrite E. cbn [in_flight_spawns children].
    destruct (Nat.eqb_spec (length (calls_of sc' (sc_calls s))) 0) as [Hz|Hz].
    + apply nil_length_inv in Hz. cbn [begin_call remove_scope set_calls sc_calls task_scopes sc_events]. rewrite lookup_delete_eq.
      rewrite Hl. destruct cancel; (rewrite calls_of_cons_eq by done); rewrite Hz.
      * rewrite <- (app_nil_r (map Accepted ts)). by apply (ph_canceling sc' _ [] ts).
      * replace (map Accepted ts) with (map Accepted ([] ++ ts) ++ cancels false ([] ++ ts) ++ zip_with Joined [] []) by (cbn; by rewrite app_nil_r).
        by apply ph_joining.
    + destruct Hs as [|c cs Hc _]; [done|]. by left.
  - inversion Hp as [|ts Hc He Hl|ts spawns cancel Hc Hs He Hl|past todo' Hc He Hl|cancel past todo' sts Hc Hlen He Hl|]; subst; try done.
    + apply Forall_cons in Hc as [[(k & h & ?)|(t & ?)] _]; done.
    + by destruct (closer_only _ _ _ _ _ Hc Hs) as [[(k & h & ?)|(t & ?)]|?].
    + injection Hc as -> -> Hcalls. destruct todo' as [|t todo']; cbn [run_call begin_call emit set_calls sc_calls task_scopes sc_events];
        rewrite calls_of_cons_eq, Hcalls by done; rewrite <- He.
      * rewrite app_nil_r in *. rewrite <- Hl. replace (map Accepted past ++ map Cancels past) with
          (map Accepted ([] ++ past) ++ cancels true ([] ++ past) ++ zip_with Joined [] []) by (cbn; by rewrite app_nil_r).
        by apply ph_joining.
      * rewrite life_cons. cbn [local_event]. rewrite decide_True by done. rewrite <- Hl, <- app_assoc. change [Cancels t] with (map Cancels [t]).
        rewrite <- map_app. rewrite (cons_middle t past todo'), app_assoc. by apply ph_canceling.
  - inversion Hp as [|ts Hc He Hl|ts spawns cancel' Hc Hs He Hl|past todo' Hc He Hl|cancel' past todo' sts Hc Hlen He Hl|]; subst; try done.
    + apply Forall_cons in Hc as [[(k & h & ?)|(t & ?)] _]; done.
    + by destruct (closer_only _ _ _ _ _ Hc Hs) as [[(k & h & ?)|(t & ?)]|?].
    + injection Hc as -> -> -> Hcalls. destruct todo' as [|t todo']; cbn [run_call begin_call emit set_calls sc_calls task_scopes sc_events].
      * rewrite Hcalls, <- He, life_cons. cbn [local_event]. rewrite decide_True by done. rewrite <- Hl, app_nil_r, <- !app_assoc. by apply ph_closed.
      * rewrite calls_of_cons_eq, Hcalls by done. rewrite <- He, life_cons. cbn [local_event]. rewrite decide_True by done.
        rewrite <- Hl, <- !app_assoc. change [Joined t (joined_status a)] with (zip_with Joined [t] [joined_status a]).
        rewrite <- zip_with_app by done. rewrite (cons_middle t past todo'), !(app_assoc past [t] todo').
        replace (summarize cancel' (summary_of cancel' sts) (joined_status a)) with (summary_of cancel' (sts ++ [joined_status a])) by (unfold summary_of; by rewrite foldl_app).
        apply ph_joining; [done|]. rewrite !length_app. cbn. by rewrite Hlen.
Qed.

Lemma calls_in_use s c : scopes_wf s -> c ∈ sc_calls s -> scope_of c < next_scope_id s.
Proof.
  intros Hwf Hc. destruct (Z.lt_ge_cases (scope_of c) (next_scope_id s)) as [|Hge]; [done|].
  destruct (wf_fresh s Hwf _ Hge) as [Hn _]. assert (c ∈ calls_of (scope_of c) (sc_calls s)) as Hin by (by apply list_elem_of_filter).
  rewrite Hn in Hin. by apply elem_of_nil in Hin.
Qed.

Lemma call_phase s l c r : scopes_wf s -> sc_calls s = l ++ c :: r ->
  let s0 := set_calls (l ++ r) s in
  phase (scope_of c) (c :: calls_of (scope_of c) (sc_calls s0)) (task_scopes s0 !! scope_of c) (life (scope_of c) (sc_events s0)).
Proof.
  intros Hwf Hl s0. rewrite <- calls_of_cons_eq by done. eapply phase_perm; [|apply (wf_phase s Hwf)]. rewrite Hl. apply calls_of_split.
Qed.

Lemma scopes_reachable_wf s : scopes_reachable s -> scopes_wf s.
Proof.
  induction 1 as [|s s' _ Hwf Hstep Hpos].
  - split; [done| |done]. intros sc. by constructor.
  - destruct Hstep as [s|answer sc k h s|sc cancel s s' Hc|a c l r s s' Hl Hrun]; [by apply scope_new_wf|by apply spawn_begin_wf|by eapply close_begin_wf|].
    destruct (run_call_only _ _ _ _ Hrun) as [Ho Hn]. pose proof (run_call_phase a c _ (call_phase s l c r Hwf Hl)) as Hp. rewrite Hrun in Hp.
    apply (only_wf (scope_of c) s); [done| |by rewrite Hn|apply calls_in_use; [done|rewrite Hl; set_solver]|exact Hp].
    eapply only_trans; [|exact Ho]. split; [|done..]. intros sc' Hne. cbn [set_calls sc_calls]. rewrite Hl, calls_of_split.
    by rewrite calls_of_cons_ne.
Qed.

(** C22: in every interleaving of calls, the life of a scope that a close has
    reported on is: the tasks it accepted; when it was closed with a cancel,
    cancels of all of them; joins of all of them, in the order in which they
    were accepted, each once; and the report, which is what the statuses make of
    the summary.  In particular no task is accepted after a join began. *)
Theorem scope_joins_children (s : Scopes) (sc : Z) (cancel : bool) (summary : TaskLifecycleStatus) :
  scopes_reachable s -> EClosed sc cancel summary ∈ sc_events s ->
  exists ts statuses, length statuses = length ts /\ summary = summary_of cancel statuses /\
    life sc (sc_events s) = map Accepted ts ++ cancels cancel ts ++ zip_with Joined ts statuses ++ [Closed cancel summary].
Proof.
  intros Hr Hc. pose proof (wf_phase s (scopes_reachable_wf s Hr) sc) as Hp.
  assert (Closed cancel summary ∈ life sc (sc_events s)) as Hin.
  { unfold life. rewrite elem_of_reverse, list_elem_of_omap. eexists. split; [exact Hc|]. cbn. by rewrite decide_True. }
  assert (forall (A : Type) (f : A -> LocalEvent) l, (forall a, f a <> Closed cancel summary) -> Closed cancel summary ∉ map f l) as Hmap.
  { intros A f l Hf (a & Ha & _)%list_elem_of_fmap. by apply (Hf a). }
  assert (forall b ts, Closed cancel summary ∉ cancels b ts) as Hcan by (intros [] ts; [by apply Hmap|apply not_elem_of_nil]).
  assert (forall ts sts, Closed cancel summary ∉ zip_with Joined ts sts) as Hzip.
  { intros ts sts. rewrite zip_with_zip. apply Hmap. by intros [? ?]. }
  inversion Hp as [Hcs He Hl|ts Hcs He Hl|ts spawns cancel' Hcs Hs He Hl|past todo' Hcs He Hl|cancel' past todo' sts Hcs Hlen He Hl|cancel' ts sts Hcs Hlen He Hl];
    rewrite <- Hl in Hin; rewrite ?elem_of_app in Hin.
  - by apply elem_of_nil in Hin.
  - by apply Hmap in Hin.
  - by apply Hmap in Hin.
  - destruct Hin as [Hin|Hin]; by apply Hmap in Hin.
  - destruct Hin as [Hin|[Hin|Hin]]; [by apply Hmap in Hin|by apply Hcan in Hin|by apply Hzip in Hin].
  - destruct Hin as [Hin|[Hin|[Hin|Hin]]]; [by apply Hmap in Hin|by apply Hcan in Hin|by apply Hzip in Hin|].
    apply list_elem_of_singleton in Hin as [= -> ->]. by exists ts, sts.
Qed.

(** In every interleaving, a call can always take its next step, except that
    a close waits while a spawn it has to see is between its critical sections:
    the scope a spawn left never disappears under it. *)
Theorem scope_calls_proceed (s : Scopes) (a : Answers) (l : list ScopeCall) (c : ScopeCall) (r : list ScopeCall) :
  scopes_reachable s -> sc_calls s = l ++ c :: r ->
  match run_call a c (set_calls (l ++ r) s) with
  | Panics => False
  | Waits => exists c', c' ∈ sc_calls s /\ is_spawn (scope_of c) c'
  | Goes _ => True
  end.
Proof.
  intros Hr Hl. pose proof (scopes_reachable_wf s Hr) as Hwf. pose proof (run_call_phase a c _ (call_phase s l c r Hwf Hl)) as Hp.
  destruct (run_call a c _); [|done|done]. apply Exists_exists in Hp as (c' & Hin & Hs). exists c'. split; [|done].
  apply list_elem_of_filter in Hin as [_ Hin]. cbn in Hin. rewrite Hl. set_solver.
Qed.

(** The report is that of the last child that was not completed: a failure is
    hidden by a child that was cancelled after it. *)
Lemma failure_hidden : summary_of false [Completed; Failed; Canceled] = Canceled /\ summary_of false [Canceled; Failed] = Failed.
Proof. by split. Qed.

(** ** Foreign tasks *)

(** What the scheduler does with a task before it drops it. *)
Inductive ForeignOp := OPoll (ready : bool) | OCancel (answer : bool).

Section foreign.
Context (poll : bool -> ForeignTask -> TaskState * ForeignTask * list ForeignCall).

Definition foreign_op (op : ForeignOp) (t : ForeignTask) : ForeignTask * list ForeignCall :=
  match op with
  | OPoll ready => let '(_, t, calls) := poll ready t in (t, calls)
  | OCancel answer => let '(_, t, calls) := foreign_cancel answer t in (t, calls)
  end.

Fixpoint run_foreign (ops : list ForeignOp) (t : ForeignTask) : list ForeignCall :=
  match ops with
  | [] => snd (on_scheduler_drop t)
  | op :: ops => let '(t, calls) := foreign_op op t in calls ++ run_foreign ops t
  end.
End foreign.

Definition call_handle (c : ForeignCall) : Z :=
  match c with PollDispatch _ h | CancelDispatch _ h _ | DropDispatch _ h => h end.
Definition releases (c : ForeignCall) : bool := match c with CancelDispatch _ _ true | DropDispatch _ _ => true | _ => false end.

Lemma run_forgotten (poll : bool -> ForeignTask -> TaskState * ForeignTask * list ForeignCall) ops kind :
  poll = detached_poll \/ poll = foreign_poll ->
  Forall (fun c => call_handle c = 0 /\ releases c = false) (run_foreign poll ops (mkForeign kind 0)).
Proof.
  intros Hp. induction ops as [|op ops IH]; cbn [run_foreign]; [by constructor|].
  destruct op as [ready|answer], Hp as [-> | ->]; cbn; try destruct ready; cbn; repeat constructor; done.
Qed.

(** A task, detached or not, that is polled and cancelled at will and then
    dropped releases its future exactly once, by a cancel that succeeds or by a
    drop, and does not touch the future any more after that. *)
Theorem foreign_released_once (poll : bool -> ForeignTask -> TaskState * ForeignTask * list ForeignCall) (ops : list ForeignOp) (kind handle : Z) :
  poll = detached_poll \/ poll = foreign_poll -> handle <> 0 ->
  exists before release after, run_foreign poll ops (mkForeign kind handle) = before ++ release :: after /\
    releases release = true /\ call_handle release = handle /\
    Forall (fun c => releases c = false /\ call_handle c = handle) before /\
    Forall (fun c => call_handle c = 0 /\ releases c = false) after.
Proof.
  intros Hp Hh. assert ((handle =? 0) = false) as Hz by lia.
  induction ops as [|op ops (before & release & after & E & H1 & H2 & H3 & H4)]; cbn [run_foreign].
  - exists [], (DropDispatch kind handle), []. unfold on_scheduler_drop. cbn. rewrite Hz. by repeat constructor.
  - assert (Hpoll : forall call, releases call = false -> call_handle call = handle ->
        exists before release after, [call] ++ run_foreign poll ops (mkForeign kind handle) = before ++ release :: after /\
          releases release = true /\ call_handle release = handle /\ Forall (fun c => releases c = false /\ call_handle c = handle) before /\
          Forall (fun c => call_handle c = 0 /\ releases c = false) after).
    { intros call Hr Hc. rewrite E. exists (call :: before), release, after. split_and!; [done..|by constructor|done]. }
    pose proof (run_forgotten poll ops kind Hp) as Hf.
    destruct op as [ready|answer]; cbn [foreign_op].
    + destruct Hp as [-> | ->]; cbn; [|by apply Hpoll]. destruct ready; cbn; [|by apply Hpoll]. rewrite Hz. cbn.
      exists [PollDispatch kind handle], (DropDispatch kind handle), (run_foreign detached_poll ops (mkForeign kind 0)). by repeat constructor.
    + unfold foreign_cancel. cbn. rewrite Hz. destruct answer; [|by apply Hpoll]. exists [], (CancelDispatch kind handle true), (run_foreign poll ops (mkForeign kind 0)).
      by repeat constructor.
Qed.

(** ** A scope with two children *)

(** The call at an index takes a step. *)
Definition advance (i : nat) (a : Answers) (s : Scopes) : Scopes :=
  match sc_calls s !! i with
  | Some c => match run_call a c (set_calls (take i (sc_calls s) ++ drop (S i) (sc_calls s)) s) with Goes s' => s' | _ => s end
  | None => s
  end.

Lemma advance_reachable i a s : scopes_reachable s -> scopes_reachable (advance i a s).
Proof.
  intros Hr. unfold advance. destruct (sc_calls s !! i) as [c|] eqn:Hc; [|done]. destruct (run_call _ _ _) as [| |s'] eqn:E; [done..|].
  pose proof (run_call_only _ _ _ _ E) as [_ Hn]. eapply scopes_next; [exact Hr|eapply step_scope_call; [|exact E]|].
  - symmetry. by apply take_drop_middle.
  - rewrite Hn. apply (wf_next s), scopes_reachable_wf, Hr.
Qed.

Definition answer (task : Z) (status : TaskLifecycleStatus) : Answers := mkAnswers task status.

(** Two spawns, the second of them between its critical sections when the scope
    is closed. *)
Definition two_open : Scopes :=
  let s := snd (sengoo_async_task_scope_new scopes_new) in
  let s := advance 0 (answer 5 Unknown) (scope_spawn_begin true 1 7 100 s) in
  scope_spawn_begin true 1 7 200 (advance 0 (answer 0 Unknown) s).
Definition two_closing : Scopes := match close_scope_begin 1 true two_open with inr s => s | inl _ => two_open end.

Definition two_closed : Scopes :=
  let s := scope_spawn_begin true 1 7 300 two_closing in
  let s := advance 0 (answer 0 Unknown) (advance 1 (answer 6 Unknown) s) in
  let s := Nat.iter 5 (advance 0 (answer 0 Canceled)) s in
  Nat.iter 2 (advance 0 (answer 0 Failed)) s.

Lemma two_closing_reachable : scopes_reachable two_closing.
Proof.
  apply (scopes_next two_open); [|by apply (step_scope_close 1 true)|done].
  eapply scopes_next; [|apply step_scope_spawn|done]. do 2 apply advance_reachable.
  eapply scopes_next; [|apply step_scope_spawn|done]. eapply scopes_next; [constructor|apply step_scope_new|done].
Qed.

Lemma scope_calls_proceed_witness :
  run_call (answer 0 Unknown) (CClosing 1 true) (set_calls [CSpawning 1 7 200] two_closing) = Waits /\
  exists c, c ∈ sc_calls two_closing /\ is_spawn 1 c.
Proof.
  split; [vm_compute; reflexivity|].
  exact (scope_calls_proceed two_closing (answer 0 Unknown) [] (CClosing 1 true) [CSpawning 1 7 200] two_closing_reachable eq_refl).
Defined.

Lemma scope_joins_children_witness :
  life 1 (sc_events two_closed) = [Accepted 5; Accepted 6; Cancels 5; Cancels 6; Joined 5 Canceled; Joined 6 Failed; Closed true Failed] /\
  exists ts statuses, Failed = summary_of true statuses /\
    life 1 (sc_events two_closed) = map Accepted ts ++ cancels true ts ++ zip_with Joined ts statuses ++ [Closed true Failed].
Proof.
  split; [vm_compute; reflexivity|].
  destruct (scope_joins_children two_closed 1 true Failed) as (ts & statuses & _ & H1 & H2).
  - unfold two_closed. repeat apply advance_reachable. eapply scopes_next; [apply two_closing_reachable|apply step_scope_spawn|vm_compute; reflexivity].
  - apply list_elem_of_In. vm_compute. by left.
  - exists ts, statuses. by split.
Defined.

Lemma foreign_released_once_witness :
  run_foreign detached_poll [OPoll false; OCancel false; OPoll true; OCancel true] (mkForeign 7 100) =
    [PollDispatch 7 100; CancelDispatch 7 100 false; PollDispatch 7 100; DropDispatch 7 100] /\
  exists before release after, run_foreign detached_poll [OPoll false; OCancel false; OPoll true; OCancel true] (mkForeign 7 100) = before ++ release :: after /\
    releases release = true.
Proof.
  split; [vm_compute; reflexivity|].
  destruct (foreign_released_once detached_poll [OPoll false; OCancel false; OPoll true; OCancel true] 7 100) as (b & r & a & E & H & _);
    [by left|lia|by exists b, r, a].
Defined.
