(* ===== verification/Select.v ===== *)
(** Selection of the first future that is ready:
    runtime/src/async_runtime/select.rs, with what async_runtime.rs says of
    wakeup hints.

    The futures, the scheduler and the clock are a world [W]; polling a future
    answers a number and the deadlines it recorded, and the other calls change
    the world as they like.  The wait for the first ready future is a loop
    without a bound: it is run for a number of rounds, and gives the world it
    has come to when these are over.

    Futures are polled in turn and the first that is ready wins
    ([select_first_ready]); each loser is cancelled once and the winner is left
    alone ([losers_canceled_once]). *)

From S2P Require Import Prelude Scheduler.

Local Open Scope Z_scope.

Definition MAX_SELECT_OPERANDS : nat := 8.

Definition merge_wakeup_hints (first second : option Z) : option Z :=
  match first, second with
  | Some a, Some b => Some (Z.min a b)
  | Some a, None => Some a
  | None, Some b => Some b
  | None, None => None
  end.

(** What a select needs of the rest of the runtime. *)
Record SelectOps (W : Type) := mkSelectOps {
  poll_dispatch : Z -> Z -> W -> Z * list Z * W;
  wait_for_wakeup_hint_or_yield : option Z -> W -> W;
  cancel_scheduled_foreign : Z -> Z -> W -> bool * W;
  cancel_dispatch : Z -> Z -> W -> bool * W;
  drop_dispatch : Z -> Z -> W -> W;
}.
Arguments poll_dispatch {W} _ _ _ _.
Arguments wait_for_wakeup_hint_or_yield {W} _ _ _.
Arguments cancel_scheduled_foreign {W} _ _ _ _.
Arguments cancel_dispatch {W} _ _ _ _.
Arguments drop_dispatch {W} _ _ _ _.

Section select.
Context {W : Type} (ops : SelectOps W).

(** The polls of a round that are left: the winner, or the hint of all polls.
    [None] is an index out of bounds. *)
Fixpoint poll_round (operands : list (Z * Z)) (rotation : nat) (offsets : list nat) (merged_hint : option Z) (w : W)
    : option ((nat * W) + (option Z * W)) :=
  match offsets with
  | [] => Some (inr (merged_hint, w))
  | offset :: offsets =>
      let index := ((rotation + offset) mod length operands)%nat in
      let* (kind, handle) := operands !! index in
      let '(ready, recorded, w) := poll_dispatch ops kind handle w in
      if negb (ready =? 0) then Some (inl (index, w))
      else poll_round operands rotation offsets (merge_wakeup_hints merged_hint (wakeup_hint recorded)) w
  end.

Fixpoint wait_rounds (rounds : nat) (operands : list (Z * Z)) (rotation : nat) (w : W) : option ((nat * W) + W) :=
  match rounds with
  | O => Some (inr w)
  | S rounds =>
      let* polled := poll_round operands rotation (seq 0 (length operands)) None w in
      match polled with
      | inl winner => Some (inl winner)
      | inr (merged_hint, w) =>
          wait_rounds rounds operands ((rotation + 1) mod length operands)%nat (wait_for_wakeup_hint_or_yield ops merged_hint w)
      end
  end.

Definition wait_for_first_ready_n (rounds : nat) (operands : list (Z * Z)) (w : W) : option ((nat * W) + W) :=
  wait_rounds rounds operands 0 w.

(** [canceled_pairs] up to [canceled_count]; writing behind its last element
    panics. *)
Definition record_canceled (operand : Z * Z) (canceled_pairs : list (Z * Z)) : option (list (Z * Z)) :=
  if Nat.ltb (length canceled_pairs) MAX_SELECT_OPERANDS then Some (canceled_pairs ++ [operand]) else None.

Definition cancel_loser (operand : Z * Z) (w : W) : W :=
  let '(kind, handle) := operand in
  let '(scheduled, w) := cancel_scheduled_foreign ops kind handle w in
  if scheduled then w
  else let '(canceled, w) := cancel_dispatch ops kind handle w in
       if canceled then w else drop_dispatch ops kind handle w.

Fixpoint cancel_losers_from (index winner : nat) (winner_pair : Z * Z) (operands canceled_pairs : list (Z * Z)) (w : W) : option W :=
  match operands with
  | [] => Some w
  | operand :: operands =>
      if Nat.eqb index winner || (operand.2 =? 0) || bool_decide (operand = winner_pair) then
        cancel_losers_from (S index) winner winner_pair operands canceled_pairs w
      else if bool_decide (operand ∈ canceled_pairs) then
        cancel_losers_from (S index) winner winner_pair operands canceled_pairs w
      else
        let w := cancel_loser operand w in
        let* canceled_pairs := record_canceled operand canceled_pairs in
        cancel_losers_from (S index) winner winner_pair operands canceled_pairs w
  end.
Definition cancel_select_losers (operands : list (Z * Z)) (winner : nat) (w : W) : option W :=
  let* winner_pair := operands !! winner in
  cancel_losers_from 0 winner winner_pair operands [] w.

(** ** The entry points

    [pairs] are the eight kinds and handles of a call. *)

Definition operands_of (count : Z) (pairs : list (Z * Z)) : option (list (Z * Z)) :=
  let count := wrap_u 64 count in
  if (2 <=? count) && (count <=? Z.of_nat MAX_SELECT_OPERANDS) then Some (take (Z.to_nat count) pairs) else None.

Definition sengoo_async_select_n_winner (rounds : nat) (count : Z) (pairs : list (Z * Z)) (w : W) : option ((Z * W) + W) :=
  match operands_of count pairs with
  | None => Some (inl (0, w))
  | Some operands =>
      let* waited := wait_for_first_ready_n rounds operands w in
      Some (match waited with inl (winner, w) => inl (Z.of_nat winner, w) | inr w => inr w end)
  end.

Definition select_cancel (rounds : nat) (operands : list (Z * Z)) (w : W) : option ((Z * W) + W) :=
  let* waited := wait_for_first_ready_n rounds operands w in
  match waited with
  | inl (winner, w) => let* w := cancel_select_losers operands winner w in Some (inl (Z.of_nat winner, w))
  | inr w => Some (inr w)
  end.
Definition sengoo_async_select_cancel_n_winner (rounds : nat) (count : Z) (pairs : list (Z * Z)) (w : W) : option ((Z * W) + W) :=
  match operands_of count pairs with
  | None => Some (inl (0, w))
  | Some operands => select_cancel rounds operands w
  end.
Definition sengoo_async_select_cancel_winner (rounds : nat) (first second : Z * Z) (w : W) : option ((Z * W) + W) :=
  select_cancel rounds [first; second] w.

Definition wait_for_first_ready_winner (rounds : nat) (first second : Z * Z) (w : W) : option ((Z * W) + W) :=
  let* waited := wait_for_first_ready_n rounds [first; second] w in
  Some (match waited with inl (winner, w) => inl (Z.of_nat winner, w) | inr w => inr w end).
Definition sengoo_async_select_winner := wait_for_first_ready_winner.

(** The typed selects; [dispatch] is the result function of the type. *)
Definition wait_for_first_ready {T} (dispatch : Z -> Z -> W -> T * W) (rounds : nat) (first second : Z * Z) (w : W) : option ((T * W) + W) :=
  let* waited := wait_for_first_ready_winner rounds first second w in
  match waited with
  | inl (0, w) => Some (inl (dispatch first.1 first.2 w))
  | inl (1, w) => Some (inl (dispatch second.1 second.2 w))
  | inl _ => None
  | inr w => Some (inr w)
  end.
End select.

(** ** Polling in turn

    A log of the polls, newest first, with the answers. *)
Definition Log : Type := list (Z * Z * Z).

Section polling.
Context {W : Type} (ops : SelectOps W).

Definition logged : SelectOps (W * Log) := {|
  poll_dispatch kind handle w :=
    let '(ready, recorded, w') := poll_dispatch ops kind handle w.1 in (ready, recorded, (w', (kind, handle, ready) :: w.2));
  wait_for_wakeup_hint_or_yield hint w := (wait_for_wakeup_hint_or_yield ops hint w.1, w.2);
  cancel_scheduled_foreign kind handle w := let '(b, w') := cancel_scheduled_foreign ops kind handle w.1 in (b, (w', w.2));
  cancel_dispatch kind handle w := let '(b, w') := cancel_dispatch ops kind handle w.1 in (b, (w', w.2));
  drop_dispatch kind handle w := (drop_dispatch ops kind handle w.1, w.2);
|}.

(** The positions that the first rounds poll: each round starts one further. *)
Definition turn (count round : nat) : list nat := map (fun offset => (round + offset) mod count)%nat (seq 0 count).
Definition turns (count : nat) (first rounds : nat) : list nat := flat_map (turn count) (seq first rounds).

Definition asked (operands : list (Z * Z)) (index : nat) (ready : Z) : Z * Z * Z := (default (0, 0) (operands !! index), ready).

Context (operands : list (Z * Z)) (Hops : operands <> []).
Notation count := (length operands).

Lemma position_ok n : exists operand, operands !! (n mod count)%nat = Some operand.
Proof.
  apply lookup_lt_is_Some_2. apply Nat.mod_upper_bound. by destruct operands.
Qed.

(** What polling positions in turn gives: the first that is ready, or nothing. *)
Inductive polled (positions : list nat) (log log' : Log) : option nat -> Prop :=
| polled_ready before winner after ready :
    positions = before ++ winner :: after -> ready <> 0 ->
    log' = asked operands winner ready :: reverse (map (fun i => asked operands i 0) before) ++ log -> polled positions log log' (Some winner)
| polled_pending : log' = reverse (map (fun i => asked operands i 0) positions) ++ log -> polled positions log log' None.

Lemma polled_cons i positions log log' o : polled positions (asked operands i 0 :: log) log' o -> polled (i :: positions) log log' o.
Proof.
  intros [before winner after ready -> Hr -> | ->].
  - apply (polled_ready _ _ _ (i :: before) winner after ready); [done..|]. cbn [map]. by rewrite reverse_cons, <- app_assoc.
  - apply polled_pending. cbn [map]. by rewrite reverse_cons, <- app_assoc.
Qed.

Lemma polled_app p1 p2 log log1 log2 o : polled p1 log log1 None -> polled p2 log1 log2 o -> polled (p1 ++ p2) log log2 o.
Proof.
  intros H1. inversion H1 as [ |Hl]; subst log1. intros [before winner after ready -> Hr -> | ->].
  - apply (polled_ready _ _ _ (p1 ++ before) winner after ready); [by rewrite <- app_assoc|done|]. by rewrite map_app, reverse_app, <- app_assoc.
  - apply polled_pending. by rewrite map_app, reverse_app, <- app_assoc.
Qed.

Lemma polled_more p1 p2 log log1 winner : polled p1 log log1 (Some winner) -> polled (p1 ++ p2) log log1 (Some winner).
Proof.
  intros H. inversion H as [before w after ready -> Hr -> E|]; subst. apply (polled_ready _ _ _ before winner (after ++ p2) ready); [by rewrite <- app_assoc|done|done].
Qed.

Lemma poll_round_in_turn rotation offsets : forall hint w log, exists result,
  poll_round logged operands rotation offsets hint (w, log) = Some result /\
  match result with
  | inl (winner, w') => polled (map (fun offset => (rotation + offset) mod count)%nat offsets) log w'.2 (Some winner)
  | inr (_, w') => polled (map (fun offset => (rotation + offset) mod count)%nat offsets) log w'.2 None
  end.
Proof.
  induction offsets as [|offset offsets IH]; intros hint w log; cbn [poll_round map].
  - eexists. split; [done|]. by apply polled_pending.
  - destruct (position_ok (rotation + offset)) as [[kind handle] Hp]. rewrite Hp. cbn [poll_dispatch logged fst snd].
    destruct (poll_dispatch ops kind handle w) as [[ready recorded] w']. cbn [fst snd].
    assert (forall r, (kind, handle, r) = asked operands ((rotation + offset) mod count) r) as Hask by (intros r; unfold asked; by rewrite Hp).
    destruct (Z.eqb_spec ready 0) as [->|Hr]; cbn [negb].
    + destruct (IH (merge_wakeup_hints hint (wakeup_hint recorded)) w' ((kind, handle, 0) :: log)) as (result & E & H). exists result. split; [exact E|].
      rewrite Hask in H. destruct result as [[winner w'']|[hint' w'']]; by apply polled_cons.
    + eexists. split; [done|]. cbn. by apply (polled_ready _ _ _ [] _ (map (fun offset => (rotation + offset) mod count)%nat offsets) ready); [..|rewrite Hask].
Qed.

Lemma wait_rounds_in_turn rounds : forall first w log, exists result,
  wait_rounds logged rounds operands (first mod count) (w, log) = Some result /\
  match result with
  | inl (winner, w') => polled (turns count first rounds) log w'.2 (Some winner)
  | inr w' => polled (turns count first rounds) log w'.2 None
  end.
Proof.
  assert (count <> 0%nat) as Hc by (by destruct operands).
  induction rounds as [|rounds IH]; intros first w log; cbn [wait_rounds].
  - eexists. split; [done|]. by apply polled_pending.
  - destruct (poll_round_in_turn (first mod count) (seq 0 count) None w log) as (result & -> & H).
    assert (map (fun offset => (first mod count + offset) mod count)%nat (seq 0 count) = turn count first) as Ht.
    { unfold turn. apply map_ext. intros offset. by rewrite Nat.Div0.add_mod_idemp_l. }
    rewrite Ht in H. change (turns count first (S rounds)) with (turn count first ++ turns count (S first) rounds).
    destruct result as [[winner w']|[hint w']].
    + eexists. split; [done|]. by apply polled_more.
    + destruct w' as [w' log']. cbn [wait_for_wakeup_hint_or_yield logged fst snd].
      replace ((first mod count + 1) mod count)%nat with (S first mod count)%nat by (rewrite Nat.Div0.add_mod_idemp_l; f_equal; lia).
      destruct (IH (S first) (wait_for_wakeup_hint_or_yield ops hint w') log') as (result & E & Hr). exists result. split; [exact E|].
      destruct result as [[winner w'']|w'']; by eapply polled_app.
Qed.
End polling.

(** Keeping a log changes nothing. *)
Lemma poll_round_logged {W} (ops : SelectOps W) operands rotation offsets : forall hint w log,
  poll_round ops operands rotation offsets hint w =
  match poll_round (logged ops) operands rotation offsets hint (w, log) with
  | Some (inl (i, w')) => Some (inl (i, w'.1))
  | Some (inr (hint', w')) => Some (inr (hint', w'.1))
  | None => None
  end.
Proof.
  induction offsets as [|offset offsets IH]; intros hint w log; cbn [poll_round]; [done|].
  destruct (operands !! _) as [[kind handle]|]; [|done]. cbn [poll_dispatch logged fst snd].
  destruct (poll_dispatch ops kind handle w) as [[ready recorded] w']. cbn [fst snd]. case_match; [done|]. apply IH.
Qed.

Lemma wait_rounds_logged {W} (ops : SelectOps W) operands rounds : forall rotation w log,
  wait_rounds ops rounds operands rotation w =
  match wait_rounds (logged ops) rounds operands rotation (w, log) with
  | Some (inl (i, w')) => Some (inl (i, w'.1))
  | Some (inr w') => Some (inr w'.1)
  | None => None
  end.
Proof.
  induction rounds as [|rounds IH]; intros rotation w log; cbn [wait_rounds]; [done|].
  rewrite (poll_round_logged ops operands rotation _ None w log).
  destruct (poll_round (logged ops) _ _ _ _ _) as [[[i [w' log']]|[hint [w' log']]]|]; [done| |done]. cbn [fst snd wait_for_wakeup_hint_or_yield logged]. apply IH.
Qed.

(** C23: the wait of a select polls its futures in turn, every round starting one
    further, until the first that is ready, which wins; nothing is polled after
    that, no index is out of bounds, and while nothing is ready it goes on.
    The rounds are as many as are looked at. *)
Theorem select_first_ready {W} (ops : SelectOps W) (rounds : nat) (operands : list (Z * Z)) (w : W) :
  operands <> [] ->
  let positions := turns (length operands) 0 rounds in
  exists result, wait_for_first_ready_n (logged ops) rounds operands (w, []) = Some result /\
  match result with
  | inl (winner, w') =>
      wait_for_first_ready_n ops rounds operands w = Some (inl (winner, w'.1)) /\
      exists m ready, positions !! m = Some winner /\ ready <> 0 /\
        reverse w'.2 = map (fun i => asked operands i 0) (take m positions) ++ [asked operands winner ready]
  | inr w' =>
      wait_for_first_ready_n ops rounds operands w = Some (inr w'.1) /\ reverse w'.2 = map (fun i => asked operands i 0) positions
  end.
Proof.
  intros Hops positions. destruct (wait_rounds_in_turn ops operands Hops rounds 0 w []) as (result & E & H).
  rewrite Nat.Div0.mod_0_l in E. exists result. split; [exact E|].
  pose proof (wait_rounds_logged ops operands rounds 0 w []) as Hl. rewrite E in Hl.
  destruct result as [[winner w']|w']; (split; [exact Hl|]).
  - inversion H as [before w'' after ready Hp Hr Hlog|]; subst. exists (length before), ready. unfold positions. rewrite Hp.
    split_and!; [by apply list_lookup_middle|done|]. rewrite take_app_length, Hlog, app_nil_r, reverse_cons. by rewrite reverse_involutive.
  - inversion H as [|Hlog]; subst. rewrite Hlog, app_nil_r. by rewrite reverse_involutive.
Qed.

(** ** Losers *)

Section losers.
Context {W : Type} (ops : SelectOps W).

Definition is_loser (operands : list (Z * Z)) (winner_operand p : Z * Z) : Prop := p ∈ operands /\ p.2 <> 0 /\ p <> winner_operand.

Lemma cancel_losers_exact winner winner_operand operands : forall index canceled w,
  operands !! (winner - index)%nat = Some winner_operand \/ (winner < index)%nat ->
  NoDup canceled -> (length canceled + length operands <= MAX_SELECT_OPERANDS)%nat ->
  exists losers, cancel_losers_from ops index winner winner_operand operands canceled w = Some (fold_left (fun w p => cancel_loser ops p w) losers w) /\
    NoDup losers /\ (length losers <= length operands)%nat /\
    forall p, p ∈ losers <-> is_loser operands winner_operand p /\ p ∉ canceled.
Proof.
  unfold is_loser. induction operands as [|p operands IH]; intros index canceled w Hw Hnd Hlen; cbn [cancel_losers_from].
  - exists []. split_and!; [done|constructor|done|]. set_solver.
  - cbn [length] in Hlen.
    assert (operands !! (winner - S index)%nat = Some winner_operand \/ (winner < S index)%nat) as Hw'.
    { destruct Hw as [Hw|]; [|right; lia]. destruct (decide (winner <= index)%nat); [right; lia|left].
      replace (winner - index)%nat with (S (winner - S index)) in Hw by lia. done. }
    destruct (Nat.eqb index winner || (p.2 =? 0) || bool_decide (p = winner_operand)) eqn:Eskip.
    + destruct (IH (S index) canceled w Hw' Hnd ltac:(lia)) as (losers & E & H1 & H2 & H3). exists losers. split_and!; [done..|cbn; lia|].
      intros q. rewrite H3, elem_of_cons.
      assert (p.2 = 0 \/ p = winner_operand) as Hp.
      { apply orb_true_iff in Eskip as [[He%Nat.eqb_eq|He%Z.eqb_eq]%orb_true_iff|He%bool_decide_eq_true]; [|by left|by right].
        subst winner. rewrite Nat.sub_diag in Hw. destruct Hw as [[= ->]|]; [by right|lia]. }
      naive_solver.
    + apply orb_false_iff in Eskip as [[_ Hz%Z.eqb_neq]%orb_false_iff Hne%bool_decide_eq_false].
      case_bool_decide as Hin.
      * destruct (IH (S index) canceled w Hw' Hnd ltac:(lia)) as (losers & E & H1 & H2 & H3). exists losers. split_and!; [done..|cbn; lia|].
        intros q. rewrite H3, elem_of_cons. naive_solver.
      * unfold record_canceled. rewrite (proj2 (Nat.ltb_lt _ _)) by lia.
        destruct (IH (S index) (canceled ++ [p]) (cancel_loser ops p w) Hw') as (losers & E & H1 & H2 & H3).
        { apply NoDup_app. split_and!; [done|set_solver|apply NoDup_singleton]. }
        { rewrite length_app. cbn. lia. }
        exists (p :: losers). split_and!; [exact E|constructor; [rewrite H3; set_solver|done]|cbn; lia|].
        intros q. rewrite !elem_of_cons, H3, elem_of_app, list_elem_of_singleton. destruct (decide (q = p)) as [->|Hq].
        { split; [|by left]. intros _. split; [by split_and!; [left| |]|done]. }
        split.
        -- intros [?|((Hin' & Hrest) & Hn)]; [done|]. split; [split; [by right|done]|]. intros ?. apply Hn. by left.
        -- intros (([?|Hin'] & Hrest) & Hn); [done|]. right. split; [done|]. by intros [?|?].
Qed.

(** C24: after a select of at most eight futures has its winner, each other
    future that is not null is cancelled once, however often it was given, and
    dropped when the cancel fails; the winner's is not touched, and the fixed
    table of cancelled futures is long enough. *)
Theorem losers_canceled_once (operands : list (Z * Z)) (winner : nat) (w : W) (winner_operand : Z * Z) :
  operands !! winner = Some winner_operand -> (length operands <= MAX_SELECT_OPERANDS)%nat ->
  exists losers, cancel_select_losers ops operands winner w = Some (fold_left (fun w p => cancel_loser ops p w) losers w) /\
    NoDup losers /\ forall p, p ∈ losers <-> p ∈ operands /\ p.2 <> 0 /\ p <> winner_operand.
Proof.
  intros Hw Hlen. unfold cancel_select_losers. rewrite Hw.
  destruct (cancel_losers_exact winner winner_operand operands 0 [] w) as (losers & E & H1 & _ & H2);
    [left; by rewrite Nat.sub_0_r|constructor|done|].
  exists losers. split_and!; [exact E|done|]. intros p. rewrite H2. unfold is_loser. set_solver.
Qed.
End losers.

(** ** Futures that are ready after some polls *)

(** A future is ready when its count is zero; each poll counts it down.  The
    second list is what was cancelled (1), cancelled at the second try (2) and
    dropped (3). *)
Definition Countdowns : Type := gmap Z Z * list (Z * Z).
Definition countdown_ops : SelectOps Countdowns := {|
  poll_dispatch kind handle w :=
    match w.1 !! handle with
    | Some 0 | None => (1, [], w)
    | Some n => (0, [n], (<[handle := n - 1]> w.1, w.2))
    end;
  wait_for_wakeup_hint_or_yield _ w := w;
  cancel_scheduled_foreign kind handle w := (kind =? 1, (w.1, if kind =? 1 then w.2 ++ [(1, handle)] else w.2));
  cancel_dispatch kind handle w := (kind =? 2, (w.1, w.2 ++ [(2, handle)]));
  drop_dispatch kind handle w := (w.1, w.2 ++ [(3, handle)]);
|}.

Definition three : list (Z * Z) := [(1, 10); (2, 20); (3, 30)].
Definition three_counts : Countdowns := ({[10 := 2; 20 := 1; 30 := 2]}, []).

Lemma select_first_ready_witness :
  exists w', wait_for_first_ready_n countdown_ops 4 three three_counts = Some (inl (1%nat, w')) /\
    exists m, turns 3 0 4 !! m = Some 1%nat /\ take m (turns 3 0 4) = [0%nat; 1%nat; 2%nat].
Proof.
  destruct (select_first_ready countdown_ops 4 three three_counts) as (result & E & H); [done|].
  vm_compute in E. injection E as <-. destruct H as [E (m & ready & Hm & _ & Hlog)]. eexists. split; [exact E|].
  exists m. split; [exact Hm|]. apply (f_equal length) in Hlog. rewrite length_app, length_map, length_take in Hlog.
  change (4 = Nat.min m 12 + 1)%nat in Hlog. assert (m = 3)%nat as -> by lia. reflexivity.
Defined.

Lemma losers_canceled_once_witness :
  let operands := [(1, 10); (2, 20); (1, 10); (3, 30); (2, 0); (2, 20)] in
  (fun w => w.2) <$> cancel_select_losers countdown_ops operands 1 three_counts = Some [(1, 10); (2, 30); (3, 30)] /\
  exists losers, NoDup losers /\ forall p, p ∈ losers <-> p ∈ operands /\ p.2 <> 0 /\ p <> (2, 20).
Proof.
  intros operands. split; [vm_compute; reflexivity|].
  destruct (losers_canceled_once countdown_ops operands 1 three_counts (2, 20)) as (losers & _ & H1 & H2);
    [reflexivity|unfold MAX_SELECT_OPERANDS; cbn; lia|by exists losers].
Defined.
