(* ===== verification/Strs.v ===== *)
(** What the programs use of Rust's strings: byte strings with [trim], which
    removes the bytes of leading and trailing Unicode white space, the ASCII
    character classes, and [split] on a character. *)

From S2P Require Import Prelude.
From Stdlib Require Import Ascii String.

#[local] Open Scope string_scope.

(** ** White space *)

(** White space at the front of a UTF-8 byte string: the bytes after it. *)
Definition strip_ws (s : list nat) : option (list nat) :=
  match s with
  | b :: r1 =>
      if bool_decide (b ∈ [9; 10; 11; 12; 13; 32]) then Some r1
      else match r1 with
      | c :: r2 =>
          if bool_decide (b = 194 /\ c ∈ [133; 160]) then Some r2
          else match r2 with
          | d :: r3 =>
              if bool_decide (b = 225 /\ c = 154 /\ d = 128) ||
                 bool_decide (b = 226 /\ c = 128 /\ d ∈ [128; 129; 130; 131; 132; 133; 134; 135; 136; 137; 138; 168; 169; 175]) ||
                 bool_decide (b = 226 /\ c = 129 /\ d = 159) || bool_decide (b = 227 /\ c = 128 /\ d = 128)
              then Some r3 else None
          | [] => None
          end
      | [] => None
      end
  | [] => None
  end.

(** The same from the back, on the reversed bytes. *)
Definition strip_ws_rev (s : list nat) : option (list nat) :=
  match s with
  | b :: r1 =>
      if bool_decide (b ∈ [9; 10; 11; 12; 13; 32]) then Some r1
      else match r1 with
      | c :: r2 =>
          if bool_decide (c = 194 /\ b ∈ [133; 160]) then Some r2
          else match r2 with
          | d :: r3 => match strip_ws [d; c; b] with Some [] => Some r3 | _ => None end
          | [] => None
          end
      | [] => None
      end
  | [] => None
  end.

Fixpoint strip_all (n : nat) (f : list nat -> option (list nat)) (s : list nat) : list nat :=
  match n with
  | 0 => s
  | S n' => match f s with Some s' => strip_all n' f s' | None => s end
  end.

Definition bytes_of (s : string) : list nat := map Ascii.nat_of_ascii (list_ascii_of_string s).
Definition of_bytes (l : list nat) : string := string_of_list_ascii (map Ascii.ascii_of_nat l).

Definition trim_start (l : list nat) : list nat := strip_all (List.length l) strip_ws l.
Definition trim_end (l : list nat) : list nat := reverse (strip_all (List.length l) strip_ws_rev (reverse l)).
Definition trim (s : string) : string := of_bytes (trim_end (trim_start (bytes_of s))).

(** ** Characters *)

Definition chars_all (P : ascii -> bool) (s : string) : bool := forallb P (list_ascii_of_string s).

Definition in_range (lo hi : nat) (c : ascii) : bool :=
  (lo <=? Ascii.nat_of_ascii c)%nat && (Ascii.nat_of_ascii c <=? hi)%nat.
Definition is_ascii_lowercase : ascii -> bool := in_range 97 122.
Definition is_ascii_uppercase : ascii -> bool := in_range 65 90.
Definition is_ascii_digit : ascii -> bool := in_range 48 57.
Definition is_ascii_alphabetic (c : ascii) : bool := is_ascii_lowercase c || is_ascii_uppercase c.
Definition is_ascii_alphanumeric (c : ascii) : bool := is_ascii_alphabetic c || is_ascii_digit c.
Definition char_is (n : nat) (c : ascii) : bool := Nat.eqb (Ascii.nat_of_ascii c) n.
Definition CH_DASH := 45.
Definition CH_DOT := 46.
Definition CH_SLASH := 47.
Definition CH_COLON := 58.
Definition CH_BACKSLASH := 92.
Definition CH_UNDERSCORE := 95.

(** [str::split] on one character. *)
Fixpoint split_on (c : nat) (s : list ascii) : list (list ascii) :=
  match s with
  | [] => [[]]
  | x :: r =>
      if char_is c x then [] :: split_on c r
      else match split_on c r with w :: ws => (x :: w) :: ws | [] => [[x]] end
  end.

Definition split_str (c : nat) (s : string) : list string :=
  map string_of_list_ascii (split_on c (list_ascii_of_string s)).
