(* ===== verification/Sorting.v ===== *)
(** Sorting, as the programs use it: [sort_by] and [sort] of slices, which are
    stable, and [dedup_by] and [dedup] of vectors, which remove an element when
    it equals the last one kept. *)

From stdpp Require Import sorting.
From S2P Require Import Prelude.
From Stdlib Require Import String.

(** ** Stable sorting *)

Fixpoint insert_by {A} (leb : A -> A -> bool) (x : A) (l : list A) : list A :=
  match l with
  | [] => [x]
  | y :: l' => if leb y x then y :: insert_by leb x l' else x :: l
  end.

Definition sort_by {A} (leb : A -> A -> bool) (l : list A) : list A :=
  fold_left (fun acc x => insert_by leb x acc) l [].

Section sorting_facts.
Context {A : Type} (leb : A -> A -> bool).

Lemma insert_by_perm (x : A) (l : list A) : insert_by leb x l ≡ₚ x :: l.
Proof.
  induction l as [|y l IH]; simpl; [done|]. destruct (leb y x); [|done].
  rewrite IH. apply Permutation_swap.
Qed.

Lemma sort_by_perm (l : list A) : sort_by leb l ≡ₚ l.
Proof.
  unfold sort_by. enough (H : forall acc, fold_left (fun acc x => insert_by leb x acc) l acc ≡ₚ l ++ acc).
  { rewrite H. by rewrite app_nil_r. }
  induction l as [|x l IH]; intros acc; simpl; [done|]. rewrite IH, insert_by_perm. by rewrite Permutation_middle.
Qed.

Context (leb_total : forall x y, leb x y \/ leb y x) (leb_trans : forall x y z, leb x y -> leb y z -> leb x z).

Lemma insert_by_sorted (x : A) (l : list A) : StronglySorted leb l -> StronglySorted leb (insert_by leb x l).
Proof.
  induction 1 as [|y l Hs IH Hy]; simpl; [by repeat constructor|].
  destruct (leb y x) eqn:Hyx.
  - constructor; [done|]. rewrite insert_by_perm. constructor; [by rewrite Hyx|done].
  - assert (leb x y) as Hxy by (destruct (leb_total x y) as [|H]; [done|by rewrite Hyx in H]).
    constructor; [by constructor|]. constructor; [done|]. eapply Forall_impl; [exact Hy|]. eauto.
Qed.

Lemma sort_by_sorted (l : list A) : StronglySorted leb (sort_by leb l).
Proof.
  unfold sort_by. enough (H : forall acc, StronglySorted leb acc ->
    StronglySorted leb (fold_left (fun acc x => insert_by leb x acc) l acc)) by (apply H; constructor).
  induction l as [|x l IH]; intros acc Ha; simpl; [done|]. by apply IH, insert_by_sorted.
Qed.

(** The last of the sorted list is a largest element, and the last such. *)
Lemma last_sort_by_max (l : list A) (x : A) :
  last (sort_by leb l) = Some x -> x ∈ l /\ forall y, y ∈ l -> leb y x.
Proof.
  intros Hl. apply last_Some in Hl as (l' & Hl').
  assert (Hp : l ≡ₚ l' ++ [x]) by (by rewrite <- Hl', sort_by_perm).
  split; [rewrite Hp; set_solver|]. intros y. rewrite Hp.
  pose proof (sort_by_sorted l) as Hs. rewrite Hl' in Hs.
  rewrite elem_of_app, list_elem_of_singleton. intros [Hy| ->].
  - eapply (StronglySorted_app_1_elem_of leb l' [x]); [exact Hs|done|set_solver].
  - by destruct (leb_total x x).
Qed.

(** ** Sorting and removing duplicates *)

Context (leb_antisymm : forall x y, leb x y -> leb y x -> x = y).

Lemma sort_by_ext (l l' : list A) : l ≡ₚ l' -> sort_by leb l = sort_by leb l'.
Proof.
  intros Hp. apply (StronglySorted_unique_strong leb); try apply sort_by_sorted.
  - intros x y _ _. apply leb_antisymm.
  - by rewrite !sort_by_perm.
Qed.
End sorting_facts.


Lemma sublist_sorted {A} (R : relation A) (l1 l2 : list A) :
  l1 `sublist_of` l2 -> StronglySorted R l2 -> StronglySorted R l1.
Proof.
  induction 1 as [|x l1 l2 Hsub IH|x l1 l2 Hsub IH]; [constructor| |];
    intros [Hs Hx]%StronglySorted_inv; [|by apply IH].
  constructor; [by apply IH|]. rewrite Forall_forall in Hx |- *. intros y Hy. apply Hx. by eapply elem_of_sublist.
Qed.

(** ** Removing duplicates *)

Fixpoint dedup_after {A} (same : A -> A -> bool) (kept : A) (l : list A) : list A :=
  match l with
  | [] => []
  | x :: l => if same x kept then dedup_after same kept l else x :: dedup_after same x l
  end.

Definition dedup_by {A} (same : A -> A -> bool) (l : list A) : list A :=
  match l with [] => [] | x :: l => x :: dedup_after same x l end.

Lemma dedup_after_sublist {A} (same : A -> A -> bool) (p : A) (l : list A) : dedup_after same p l `sublist_of` l.
Proof.
  revert p. induction l as [|x l IH]; intros p; simpl; [done|].
  destruct (same x p); [by apply sublist_cons|by apply sublist_skip].
Qed.

Lemma dedup_by_sublist {A} (same : A -> A -> bool) (l : list A) : dedup_by same l `sublist_of` l.
Proof. destruct l; simpl; [done|]. apply sublist_skip, dedup_after_sublist. Qed.

(** ** Sorting and removing duplicates by a key

    Of the elements that share a key, the first in the original order stays. *)

Section dedup_key.
Context {A K : Type} `{EqDecision K} (key : A -> K) (leb : K -> K -> bool) (same : A -> A -> bool).
Context (leb_total : forall x y, leb x y \/ leb y x) (leb_trans : forall x y z, leb x y -> leb y z -> leb x z).
Context (leb_antisymm : forall x y, leb x y -> leb y x -> x = y).
Context (same_spec : forall a b, same a b = true <-> key a = key b).

Notation kleb := (fun a b => leb (key a) (key b)).
Notation with_key k := (filter (fun x => key x = k)).

Let kleb_total (x y : A) : kleb x y \/ kleb y x.
Proof. apply leb_total. Qed.
Let kleb_trans (x y z : A) : kleb x y -> kleb y z -> kleb x z.
Proof. apply leb_trans. Qed.

Lemma insert_by_stable (k : K) (x : A) (l : list A) :
  StronglySorted kleb l ->
  with_key k (insert_by kleb x l) = with_key k l ++ with_key k [x].
Proof.
  induction 1 as [|y l Hs IH Hy]; [done|]. cbn [insert_by]. destruct (leb (key y) (key x)) eqn:E.
  - rewrite !filter_cons, IH. by destruct (decide (key y = k)).
  - rewrite (filter_cons _ x (y :: l)), (filter_cons _ x []). destruct (decide (key x = k)) as [Hk|Hk]; [|by rewrite app_nil_r].
    enough (with_key k (y :: l) = []) as -> by done.
    apply elem_of_nil_inv. assert (leb (key x) (key y)) as Hxy by (destruct (leb_total (key x) (key y)) as [|H']; [done|by rewrite E in H']).
    intros z [Hzk Hz]%list_elem_of_filter. assert (leb (key y) (key z)) as Hyz.
    { apply elem_of_cons in Hz as [->|Hz]; [by destruct (leb_total (key y) (key y))|].
      rewrite Forall_forall in Hy. by apply Hy. }
    rewrite Hzk, <- Hk in Hyz. by rewrite E in Hyz.
Qed.

Lemma sort_by_stable (k : K) (l : list A) : with_key k (sort_by kleb l) = with_key k l.
Proof.
  unfold sort_by. enough (H : forall acc, StronglySorted kleb acc ->
    with_key k (fold_left (fun acc x => insert_by kleb x acc) l acc) = with_key k acc ++ with_key k l)
    by (apply H; constructor).
  induction l as [|x l IH]; intros acc Ha; simpl; [by rewrite app_nil_r|].
  rewrite IH by by apply insert_by_sorted. rewrite insert_by_stable by done.
  rewrite <- (assoc_L (++)). f_equal. by rewrite !filter_cons; destruct (decide _).
Qed.

Lemma elem_of_dedup_after (p x : A) (l : list A) :
  StronglySorted kleb (p :: l) ->
  x ∈ dedup_after same p l <-> key x <> key p /\ head (with_key (key x) l) = Some x.
Proof.
  revert p. induction l as [|y l IH]; intros p Hs; cbn [dedup_after].
  { split; [by intros ?%elem_of_nil|by intros []]. }
  apply StronglySorted_inv in Hs as [Hs Hp]. apply Forall_cons in Hp as [Hpy Hp].
  rewrite filter_cons. destruct (same y p) eqn:E.
  - apply same_spec in E. rewrite IH.
    + destruct (decide (key y = key x)) as [Hk|Hk]; [|done].
      split; intros [Hn _]; by rewrite <- Hk, E in Hn.
    + constructor; [by apply StronglySorted_inv in Hs as [? _]|done].
  - assert (key y <> key p) as Hne by (intros H; apply same_spec in H; by rewrite E in H).
    rewrite elem_of_cons, IH by done. destruct (decide (key y = key x)) as [Hk|Hk].
    + rewrite <- Hk. split; [intros [->|[? _]]; [|done]|intros [? [= ->]]; by left].
      done.
    + split.
      * intros [->|[_ Hx]]; [done|]. split; [|done]. intros Hxp.
        assert (x ∈ l) as Hin.
        { apply (list_elem_of_filter (fun z => key z = key x)). destruct (with_key (key x) l); simplify_eq/=. by left. }
        apply Hne, leb_antisymm; [|done]. rewrite <- Hxp. apply StronglySorted_inv in Hs as [_ Hy].
        rewrite Forall_forall in Hy. by apply Hy.
      * intros [_ Hx]. by right.
Qed.

Lemma dedup_after_nodup (p : A) (l : list A) :
  StronglySorted kleb (p :: l) -> NoDup (key <$> p :: dedup_after same p l).
Proof.
  revert p. induction l as [|y l IH]; intros p Hs; cbn [dedup_after]; [by apply NoDup_singleton|].
  pose proof (fun x => elem_of_dedup_after p x (y :: l) Hs) as Hel. cbn [dedup_after] in Hel.
  apply StronglySorted_inv in Hs as [Hs Hp]. pose proof Hs as [Hs' _]%StronglySorted_inv.
  apply Forall_cons in Hp as [_ Hp].
  destruct (same y p) eqn:E; [apply IH; by constructor|].
  change (NoDup (key p :: (key <$> y :: dedup_after same y l))). apply NoDup_cons_2; [|by apply IH].
  intros (z & Hz & Hin)%list_elem_of_fmap. apply Hel in Hin as [Hn _]. done.
Qed.

Definition sort_dedup_by (l : list A) : list A := dedup_by same (sort_by kleb l).

Lemma elem_of_sort_dedup_by (l : list A) (x : A) :
  x ∈ sort_dedup_by l <-> head (with_key (key x) l) = Some x.
Proof.
  unfold sort_dedup_by. pose proof (sort_by_sorted kleb kleb_total kleb_trans l) as Hs.
  rewrite <- (sort_by_stable (key x) l). destruct (sort_by kleb l) as [|y l']; cbn [dedup_by].
  { split; [by intros ?%elem_of_nil|done]. }
  rewrite elem_of_cons, elem_of_dedup_after, filter_cons by done.
  destruct (decide (key y = key x)) as [Hk|Hk].
  - split; [intros [->|[? _]]; done|intros [= ->]; by left].
  - split; [intros [->|[_ ?]]; done|intros ?; by right].
Qed.

Lemma sort_dedup_by_nodup (l : list A) : NoDup (key <$> sort_dedup_by l).
Proof.
  unfold sort_dedup_by. pose proof (sort_by_sorted kleb kleb_total kleb_trans l) as Hs.
  destruct (sort_by kleb l); [constructor|]. by apply dedup_after_nodup.
Qed.

Lemma sort_dedup_by_sorted (l : list A) : StronglySorted kleb (sort_dedup_by l).
Proof.
  eapply sublist_sorted; [|apply (sort_by_sorted kleb kleb_total kleb_trans l)].
  apply dedup_by_sublist.
Qed.

(** The result depends only on which elements come first for their keys. *)
Lemma sort_dedup_by_ext (l l' : list A) :
  (forall k, head (with_key k l) = head (with_key k l')) -> sort_dedup_by l = sort_dedup_by l'.
Proof.
  intros Hh. apply (StronglySorted_unique_strong kleb); try apply sort_dedup_by_sorted.
  - intros x y Hx Hy Hxy Hyx. assert (key x = key y) as Hk by by apply leb_antisymm.
    apply elem_of_sort_dedup_by in Hx, Hy. rewrite <- Hh, <- Hk, Hx in Hy. by simplify_eq.
  - apply NoDup_Permutation; [eapply NoDup_fmap_1, sort_dedup_by_nodup..|].
    intros x. by rewrite !elem_of_sort_dedup_by, Hh.
Qed.
End dedup_key.

Lemma dedup_by_keeps {A K} `{EqDecision K} (k : A -> K) l x :
  x ∈ l -> exists y, y ∈ dedup_by (fun a b => bool_decide (k a = k b)) l /\ k y = k x.
Proof.
  assert (forall l p x, x ∈ l -> exists y, y ∈ p :: dedup_after (fun a b => bool_decide (k a = k b)) p l /\ k y = k x) as Hg.
  { clear. induction l as [|z l IH]; intros p x; [by intros ?%elem_of_nil|]. cbn [dedup_after].
    intros [->|Hx]%elem_of_cons; case_bool_decide as E.
    - exists p. split; [by left|done].
    - exists z. split; [right; by left|done].
    - by apply IH.
    - destruct (IH z x Hx) as (y & Hy & ?). exists y. split; [by right|done]. }
  destruct l as [|z l]; [by intros ?%elem_of_nil|]. cbn [dedup_by]. intros [->|Hx]%elem_of_cons; [exists z; split; [by left|done]|by apply Hg].
Qed.

(** ** Sorted lists without duplicates: [v.sort(); v.dedup()] *)

Section sort_dedup.
Context {A : Type} `{EqDecision A} (leb : A -> A -> bool).

Definition sort_dedup (l : list A) : list A := dedup_by (fun x y => bool_decide (x = y)) (sort_by leb l).

Context (leb_total : forall x y, leb x y \/ leb y x) (leb_trans : forall x y z, leb x y -> leb y z -> leb x z).
Context (leb_antisymm : forall x y, leb x y -> leb y x -> x = y).

Let same_spec (x y : A) : bool_decide (x = y) = true <-> id x = id y.
Proof. apply bool_decide_eq_true. Qed.

Lemma head_with_key (l : list A) (x : A) : head (filter (fun y => y = x) l) = Some x <-> x ∈ l.
Proof.
  induction l as [|y l IH]; [split; [done|by intros ?%elem_of_nil]|].
  rewrite filter_cons, elem_of_cons. destruct (decide (y = x)) as [->|]; [naive_solver|].
  rewrite IH. naive_solver.
Qed.

Lemma elem_of_sort_dedup (l : list A) (x : A) : x ∈ sort_dedup l <-> x ∈ l.
Proof. rewrite <- (head_with_key l). apply (elem_of_sort_dedup_by id leb); done. Qed.

Lemma sort_dedup_nodup (l : list A) : NoDup (sort_dedup l).
Proof. pose proof (sort_dedup_by_nodup id leb (fun x y => bool_decide (x = y))) as H. setoid_rewrite list_fmap_id in H. by apply H. Qed.

Lemma sort_dedup_sorted (l : list A) : StronglySorted leb (sort_dedup l).
Proof. by apply (sort_dedup_by_sorted id leb). Qed.

Lemma sort_dedup_ext (l l' : list A) : (forall x, x ∈ l <-> x ∈ l') -> sort_dedup l = sort_dedup l'.
Proof.
  intros Hl. apply (StronglySorted_unique_strong leb); try apply sort_dedup_sorted.
  - intros x y _ _. apply leb_antisymm.
  - apply NoDup_Permutation; [apply sort_dedup_nodup..|]. intros x. by rewrite !elem_of_sort_dedup.
Qed.
End sort_dedup.

Lemma string_leb_total (x y : string) : String.leb x y \/ String.leb y x.
Proof. apply String.le_total. Qed.
Lemma string_leb_trans (x y z : string) : String.leb x y -> String.leb y z -> String.leb x z.
Proof. apply (@transitivity _ String.le _). Qed.
Lemma string_leb_antisymm (x y : string) : String.leb x y -> String.leb y x -> x = y.
Proof. apply (anti_symm String.le). Qed.

Lemma Z_leb_total (x y : Z) : (x <=? y)%Z \/ (y <=? x)%Z.
Proof. rewrite !Is_true_true. lia. Qed.
Lemma Z_leb_trans (x y z : Z) : (x <=? y)%Z -> (y <=? z)%Z -> (x <=? z)%Z.
Proof. rewrite !Is_true_true. lia. Qed.
Lemma Z_leb_antisymm (x y : Z) : (x <=? y)%Z -> (y <=? x)%Z -> x = y.
Proof. rewrite !Is_true_true. lia. Qed.

Create HintDb sorting.
#[export] Hint Resolve string_leb_total string_leb_trans string_leb_antisymm
  Z_leb_total Z_leb_trans Z_leb_antisymm : sorting.

(** ** Sorting by name *)

Definition key_leb {A} (x y : string * A) : bool := String.leb x.1 y.1.

Lemma key_leb_total {A} (x y : string * A) : key_leb x y \/ key_leb y x.
Proof. apply (String.le_total x.1 y.1). Qed.

Lemma key_leb_trans {A} (x y z : string * A) : key_leb x y -> key_leb y z -> key_leb x z.
Proof. unfold key_leb. intros. by apply (@transitivity _ String.le _ (x.1) (y.1) (z.1)). Qed.

Lemma sort_keys_unique {A} (l l' : list (string * A)) :
  NoDup (l.*1) -> l ≡ₚ l' -> sort_by key_leb l = sort_by key_leb l'.
Proof.
  intros Hnd Hp. apply (StronglySorted_unique_strong key_leb).
  - intros x y Hx Hy Hxy Hyx.
    assert (x.1 = y.1) as Hk by (by apply (anti_symm String.le)).
    rewrite (sort_by_perm key_leb) in Hx, Hy. rewrite <- Hp in Hy.
    destruct x as [k a], y as [k' a']; simpl in *; subst.
    apply list_elem_of_lookup in Hx as (i & Hi), Hy as (j & Hj).
    assert (i = j) as ->; [|by simplify_eq].
    eapply (NoDup_lookup (l.*1)); [done| |]; rewrite list_lookup_fmap; [by rewrite Hi|by rewrite Hj].
  - apply sort_by_sorted; [apply key_leb_total|apply key_leb_trans].
  - apply sort_by_sorted; [apply key_leb_total|apply key_leb_trans].
  - by rewrite !sort_by_perm.
Qed.
