(* ===== verification/NetBytes.v ===== *)
(** Byte strings and connections of the network runtime.

    A byte is a [Z] below 256 and a Rust string its UTF-8 bytes, so that one
    type serves [&[u8]], [String] and the wire.  The first part holds what the
    network code uses of Rust's slices and strings: searching, splitting,
    trimming, letter case and number parsing.  The second part is a connection:
    the arrivals its reads will see, the bytes written so far and the failures
    its writes will meet. *)

From stdpp Require Import pretty.
From S2P Require Import Prelude Strs Proto.

Local Open Scope Z_scope.

Notation bytes := (list Z).

Definition is_byte (b : Z) : Prop := 0 <= b < 256.
Notation bytes_ok := (Forall is_byte).

#[global] Instance is_byte_dec b : Decision (is_byte b).
Proof. unfold is_byte. apply _. Defined.

Definition lit (s : string) : bytes := bytes_of_string s.
Definition CRLF : bytes := [13; 10].

(** ** Searching and splitting *)

Definition bytes_eqb (a b : bytes) : bool := bool_decide (a = b).

Fixpoint starts_with (pre l : bytes) : bool :=
  match pre, l with
  | [], _ => true
  | p :: pre', x :: l' => (p =? x) && starts_with pre' l'
  | _, [] => false
  end.

(** [windows(n).position(|w| w == pat)], for a non-empty [pat]. *)
Fixpoint find_sub (pat l : bytes) : option nat :=
  if starts_with pat l then Some 0%nat
  else match l with
       | [] => None
       | _ :: l' => option_map S (find_sub pat l')
       end.

Definition contains (pat l : bytes) : bool := is_some (find_sub pat l).

Definition ends_with (suf l : bytes) : bool := starts_with (reverse suf) (reverse l).

(** [str::split_once] *)
Definition split_once (pat l : bytes) : option (bytes * bytes) :=
  match find_sub pat l with
  | Some i => Some (take i l, drop (i + length pat) l)
  | None => None
  end.

(** [str::rsplit_once] for a single character *)
Definition rsplit_once (c : Z) (l : bytes) : option (bytes * bytes) :=
  match split_once [c] (reverse l) with
  | Some (b, a) => Some (reverse a, reverse b)
  | None => None
  end.

(** [str::split] with a non-empty pattern *)
Fixpoint split_fuel (n : nat) (pat l : bytes) : list bytes :=
  match n with
  | O => [l]
  | S n' => match split_once pat l with
            | Some (a, b) => a :: split_fuel n' pat b
            | None => [l]
            end
  end.
Definition split (pat l : bytes) : list bytes := split_fuel (length l) pat l.

(** ** White space and letter case *)

Definition trim (l : bytes) : bytes :=
  map Z.of_nat (trim_end (trim_start (map Z.to_nat l))).

Fixpoint skip_ws (n : nat) (l : list nat) : list nat :=
  match n with
  | O => l
  | S n' => match strip_ws l with Some l' => skip_ws n' l' | None => l end
  end.

(** The characters up to the next white space, and what follows them. *)
Fixpoint take_word (l : list nat) : list nat * list nat :=
  match strip_ws l with
  | Some _ => ([], l)
  | None => match l with
            | [] => ([], [])
            | b :: l' => let '(w, r) := take_word l' in (b :: w, r)
            end
  end.

Fixpoint words_fuel (n : nat) (l : list nat) : list (list nat) :=
  match n with
  | O => []
  | S n' =>
      match skip_ws (length l) l with
      | [] => []
      | l' => let '(w, r) := take_word l' in w :: words_fuel n' r
      end
  end.

(** [str::split_whitespace] *)
Definition split_whitespace (l : bytes) : list bytes :=
  map (map Z.of_nat) (words_fuel (S (length l)) (map Z.to_nat l)).

Definition to_lower (b : Z) : Z := if (65 <=? b) && (b <=? 90) then b + 32 else b.
Definition to_upper (b : Z) : Z := if (97 <=? b) && (b <=? 122) then b - 32 else b.
Definition to_ascii_lowercase (l : bytes) : bytes := map to_lower l.
Definition to_ascii_uppercase (l : bytes) : bytes := map to_upper l.
Definition eq_ignore_ascii_case (a b : bytes) : bool :=
  bytes_eqb (to_ascii_lowercase a) (to_ascii_lowercase b).

(** [u8::is_ascii_whitespace] *)
Definition is_ascii_whitespace (b : Z) : bool :=
  (b =? 32) || (b =? 9) || (b =? 10) || (b =? 12) || (b =? 13).

(** ** Numbers *)

Definition digit_value (radix b : Z) : option Z :=
  let d := if (48 <=? b) && (b <=? 57) then b - 48
           else if (97 <=? b) && (b <=? 122) then b - 87
           else if (65 <=? b) && (b <=? 90) then b - 55 else radix in
  if d <? radix then Some d else None.

Fixpoint digits_value (radix acc : Z) (l : bytes) : option Z :=
  match l with
  | [] => Some acc
  | b :: l' => let* d := digit_value radix b in digits_value radix (acc * radix + d) l'
  end.

(** [from_str_radix] of an unsigned type of [w] bits: one leading [+] is
    allowed, at least one digit is needed, and the value must fit. *)
Definition parse_unsigned (w radix : Z) (l : bytes) : option Z :=
  let l := match l with 43 :: (_ :: _ as r) => r | _ => l end in
  match l with
  | [] => None
  | _ => let* v := digits_value radix 0 l in if v <? 2 ^ w then Some v else None
  end.

(** [from_str_radix] of a signed type of [w] bits. *)
Definition parse_signed (w radix : Z) (l : bytes) : option Z :=
  match l with
  | 45 :: (_ :: _ as r) =>
      let* v := digits_value radix 0 r in if v <=? 2 ^ (w - 1) then Some (- v) else None
  | _ =>
      let l := match l with 43 :: (_ :: _ as r) => r | _ => l end in
      match l with
      | [] => None
      | _ => let* v := digits_value radix 0 l in if v <? 2 ^ (w - 1) then Some v else None
      end
  end.

(** The digits of a non-negative number, most significant first; [fuel]
    digits suffice when the number is below [radix ^ fuel]. *)
Definition digit_char (d : Z) : Z := if d <? 10 then 48 + d else 87 + d.

Fixpoint show_radix (fuel : nat) (radix n : Z) (acc : bytes) : bytes :=
  match fuel with
  | O => acc
  | S f => let acc := digit_char (n mod radix) :: acc in
           if n <? radix then acc else show_radix f radix (n / radix) acc
  end.

(** The decimal digits [{}] prints for an unsigned number and the hexadecimal
    ones [{:x}] prints; no 64-bit number has more than sixty-four. *)
Definition show_dec (n : Z) : bytes := show_radix 64 10 n [].
Definition show_hex (n : Z) : bytes := show_radix 64 16 n [].
Definition show_signed (n : Z) : bytes := if n <? 0 then 45 :: show_dec (- n) else show_dec n.

(** [to_be_bytes] and [from_be_bytes] *)
Fixpoint be_bytes (n : nat) (v : Z) : bytes :=
  match n with
  | O => []
  | S n' => Z.shiftr v (8 * Z.of_nat n') mod 256 :: be_bytes n' v
  end.

Definition from_be (l : bytes) : Z := foldl (fun acc b => Z.lor (Z.shiftl acc 8) b) 0 l.

(** ** Connections *)

Inductive ErrorKind := TimedOut | WouldBlock | Interrupted | OtherKind.

#[global] Instance ErrorKind_eq_dec : EqDecision ErrorKind.
Proof. solve_decision. Defined.

Inductive arrival :=
| Data (bs : bytes)
| Fault (k : ErrorKind).

(** A connection: what its reads will find, in order (end of file once the
    list is exhausted), what was written to it, and for each coming write
    whether it fails, and then after how many bytes (writes past the end of
    the list succeed). *)
Record Conn := mkConn {
  c_in : list arrival;
  c_out : bytes;
  c_writes : list (option (nat * ErrorKind));
}.

Definition with_in (l : list arrival) (c : Conn) : Conn := mkConn l (c_out c) (c_writes c).

(** One [read] into a buffer of [n] bytes; no byte is the end of the file. *)
Fixpoint read_in (n : nat) (l : list arrival) : result bytes ErrorKind * list arrival :=
  match l with
  | [] => (Ok [], [])
  | Data [] :: l' => read_in n l'
  | Data bs :: l' =>
      (Ok (take n bs), if (length bs <=? n)%nat then l' else Data (drop n bs) :: l')
  | Fault k :: l' => (Err k, l')
  end.

Definition read (n : nat) (c : Conn) : result bytes ErrorKind * Conn :=
  let '(r, l) := read_in n (c_in c) in (r, with_in l c).

(** [Read::read_exact]: [None] on an error (an interruption is retried) or on
    the end of the file; what was read by then is lost. *)
Fixpoint read_exact_in (n : nat) (l : list arrival) : option bytes * list arrival :=
  match n, l with
  | O, _ => (Some [], l)
  | _, [] => (None, [])
  | _, Fault Interrupted :: l' => read_exact_in n l'
  | _, Fault _ :: l' => (None, l')
  | _, Data bs :: l' =>
      if (length bs <=? n)%nat
      then let '(r, l1) := read_exact_in (n - length bs) l' in
           (option_map (app bs) r, l1)
      else (Some (take n bs), Data (drop n bs) :: l')
  end.

Definition read_exact (n : nat) (c : Conn) : option bytes * Conn :=
  let '(r, l) := read_exact_in n (c_in c) in (r, with_in l c).

(** [write_all], which does nothing for no bytes, followed by [flush] *)
Definition write_all (bs : bytes) (c : Conn) : result unit ErrorKind * Conn :=
  match bs, c_writes c with
  | [], _ => (Ok tt, c)
  | _, [] => (Ok tt, mkConn (c_in c) (c_out c ++ bs) [])
  | _, None :: w => (Ok tt, mkConn (c_in c) (c_out c ++ bs) w)
  | _, Some (n, k) :: w => (Err k, mkConn (c_in c) (c_out c ++ take n bs) w)
  end.

(** The bytes that arrive, and whether none of the arrivals is a failure. *)
Fixpoint arriving (l : list arrival) : bytes :=
  match l with
  | [] => []
  | Data bs :: l' => bs ++ arriving l'
  | Fault _ :: l' => arriving l'
  end.

Definition is_data (a : arrival) : bool := match a with Data _ => true | Fault _ => false end.
Definition quiet (l : list arrival) : bool := forallb is_data l.

(** ** Lemmas *)

Lemma starts_with_spec (pre l : bytes) : starts_with pre l = true <-> exists r, l = pre ++ r.
Proof.
  revert l. induction pre as [|p pre IH]; intros l; simpl; [naive_solver|].
  destruct l as [|x l]; simpl; [naive_solver|].
  rewrite andb_true_iff, Z.eqb_eq, IH. naive_solver.
Qed.

Lemma starts_with_app (pre r : bytes) : starts_with pre (pre ++ r) = true.
Proof. apply starts_with_spec. eauto. Qed.

Lemma find_sub_spec (pat l : bytes) i :
  find_sub pat l = Some i <->
  (starts_with pat (drop i l) = true /\ (i <= length l)%nat /\
   forall j, (j < i)%nat -> starts_with pat (drop j l) = false).
Proof.
  revert i. induction l as [|x l IH]; intros i.
  - cbn [find_sub]. destruct (starts_with pat []) eqn:E.
    + split.
      * intros [= <-]. repeat split; try done. intros j Hj. lia.
      * intros (_ & Hi & _). simpl in Hi. f_equal. lia.
    + split; [done|]. rewrite drop_nil. intros (? & _). congruence.
  - cbn [find_sub]. destruct (starts_with pat (x :: l)) eqn:E.
    + split.
      * intros [= <-]. repeat split; [done|simpl; lia|]. intros j Hj. lia.
      * intros (_ & _ & Hj). destruct i; [done|]. specialize (Hj 0%nat ltac:(lia)). simpl in Hj. congruence.
    + rewrite fmap_Some. split.
      * intros (k & Hk & ->). apply IH in Hk as (H1 & H2 & H3).
        repeat split; [done|simpl; lia|]. intros [|j] Hj; [done|]. apply H3. lia.
      * intros (H1 & H2 & H3). destruct i as [|i]; [simpl in *; congruence|].
        exists i. split; [|done]. apply IH. simpl in *. repeat split; [done|lia|].
        intros j Hj. apply (H3 (S j)). lia.
Qed.

(** A string is cut at the first occurrence of the pattern. *)
Lemma split_once_spec (pat l a b : bytes) :
  split_once pat l = Some (a, b) ->
  l = a ++ pat ++ b /\ find_sub pat l = Some (length a).
Proof.
  unfold split_once. intros H. destruct (find_sub pat l) as [i|] eqn:E; [|done].
  injection H as <- <-. pose proof E as E'. apply find_sub_spec in E as (H1 & H2 & _).
  apply starts_with_spec in H1 as [r Hr].
  assert (Hd : drop (i + length pat) l = r).
  { rewrite <- drop_drop, Hr. by rewrite drop_app_length. }
  split.
  - by rewrite Hd, <- Hr, take_drop.
  - rewrite length_take, Nat.min_l by done. done.
Qed.

Lemma find_sub_None (pat l : bytes) :
  find_sub pat l = None -> forall j, starts_with pat (drop j l) = false.
Proof.
  induction l as [|x l IH]; simpl; destruct (starts_with pat _) eqn:E; try done.
  - intros _ j. by rewrite drop_nil.
  - rewrite fmap_None. intros H [|j]; [done|]. simpl. auto.
Qed.

(** More bytes after the first occurrence leave it the first. *)
Lemma find_sub_app (pat a b : bytes) i :
  find_sub pat a = Some i -> find_sub pat (a ++ b) = Some i.
Proof.
  intros H. apply find_sub_spec in H as (H1 & H2 & H3).
  assert (Hpre : forall j, (j <= length a)%nat -> starts_with pat (drop j a) = true ->
                 starts_with pat (drop j (a ++ b)) = true).
  { intros j Hj Hs. apply starts_with_spec in Hs as [r Hr]. apply starts_with_spec.
    exists (r ++ b). rewrite drop_app_le by lia. by rewrite Hr, (assoc_L (++)). }
  destruct (find_sub pat (a ++ b)) as [k|] eqn:E.
  - apply find_sub_spec in E as (K1 & K2 & K3).
    destruct (decide (k < i)%nat) as [Hlt|Hge].
    + exfalso. specialize (H3 k Hlt).
      (* the occurrence at k lies inside a, since the one at i does *)
      apply starts_with_spec in K1 as [r Hr]. apply starts_with_spec in H1 as [r' Hr'].
      rewrite drop_app_le in Hr by lia.
      assert (length pat <= length (drop i a))%nat as Hl by (rewrite Hr', length_app; lia).
      rewrite length_drop in Hl.
      assert (starts_with pat (drop k a) = true); [|congruence].
      apply starts_with_spec. exists (drop (length pat) (drop k a)).
      transitivity (take (length pat) (drop k a) ++ drop (length pat) (drop k a)); [by rewrite take_drop|].
      f_equal. apply (f_equal (take (length pat))) in Hr.
      by rewrite take_app_length, take_app_le in Hr by (rewrite length_drop; lia).
    + destruct (decide (i < k)%nat) as [Hlt|?]; [|f_equal; lia].
      exfalso. specialize (K3 i Hlt). rewrite Hpre in K3 by (done || lia). done.
  - exfalso. pose proof (find_sub_None _ _ E i) as Hn. by rewrite (Hpre i) in Hn by (done || lia).
Qed.

(** *** Reads *)

Lemma read_exact_in_quiet (n : nat) (l : list arrival) :
  quiet l = true ->
  exists l', quiet l' = true /\
    if (n <=? length (arriving l))%nat
    then read_exact_in n l = (Some (take n (arriving l)), l') /\ arriving l' = drop n (arriving l)
    else read_exact_in n l = (None, l') /\ arriving l' = [].
Proof.
  revert n. induction l as [|a l IH]; intros n Hq.
  { exists []. destruct n; simpl; by repeat split. }
  destruct a as [bs|k]; [|done]. simpl in Hq.
  destruct n as [|n]. { exists (Data bs :: l). by repeat split. }
  cbn [read_exact_in arriving].
  destruct (length bs <=? S n)%nat eqn:E.
  - destruct (IH (S n - length bs)%nat Hq) as (l' & Hq' & H). exists l'. split; [done|].
    apply Nat.leb_le in E. rewrite length_app.
    destruct (S n - length bs <=? length (arriving l))%nat eqn:E1.
    + destruct H as [-> ->]. apply Nat.leb_le in E1.
      replace (S n <=? length bs + length (arriving l))%nat with true by (symmetry; apply Nat.leb_le; lia).
      by rewrite take_app_ge, drop_app_ge by lia.
    + destruct H as [-> ->]. apply Nat.leb_gt in E1.
      replace (S n <=? length bs + length (arriving l))%nat with false by (symmetry; apply Nat.leb_gt; lia).
      done.
  - apply Nat.leb_gt in E. exists (Data (drop (S n) bs) :: l). split; [done|].
    rewrite length_app.
    replace (S n <=? length bs + length (arriving l))%nat with true by (symmetry; apply Nat.leb_le; lia).
    simpl arriving. by rewrite take_app_le, drop_app_le by lia.
Qed.

(** Exactly [bs] is read when the arrivals begin with it, however they are cut. *)
Lemma read_exact_app (bs rest : bytes) (c : Conn) :
  quiet (c_in c) = true -> arriving (c_in c) = bs ++ rest ->
  exists l', read_exact (length bs) c = (Some bs, with_in l' c) /\
    quiet l' = true /\ arriving l' = rest.
Proof.
  intros Hq Ha. destruct (read_exact_in_quiet (length bs) (c_in c) Hq) as (l' & Hq' & H).
  rewrite Ha, length_app in H.
  replace (length bs <=? length bs + length rest)%nat with true in H by (symmetry; apply Nat.leb_le; lia).
  destruct H as [H1 H2]. rewrite take_app_length in H1. rewrite drop_app_length in H2.
  exists l'. unfold read_exact. by rewrite H1.
Qed.

Lemma with_in_idemp (l l' : list arrival) (c : Conn) : with_in l (with_in l' c) = with_in l c.
Proof. done. Qed.

Lemma read_exact_in_shrinks (n : nat) (l : list arrival) r l' :
  read_exact_in n l = (r, l') -> (length (arriving l') + (if is_some r then n else 0) <= length (arriving l))%nat.
Proof.
  revert n r l'. induction l as [|a l IH]; intros n r l'; destruct n as [|n]; cbn [read_exact_in].
  1-2: intros [= <- <-]; simpl; lia.
  1: intros [= <- <-]; destruct a; simpl; lia.
  destruct a as [bs|k].
  - destruct (length bs <=? S n)%nat eqn:E.
    + destruct (read_exact_in _ l) as [r1 l1] eqn:E1. intros [= <- <-]. apply IH in E1.
      apply Nat.leb_le in E. simpl arriving. rewrite length_app.
      destruct r1; simpl in *; lia.
    + intros [= <- <-]. apply Nat.leb_gt in E. simpl arriving. rewrite !length_app, length_drop.
      cbn [is_some]. lia.
  - destruct k; first [intros H; apply IH in H; simpl; done | intros [= <- <-]; simpl; lia].
Qed.

(** *** Writes *)

Lemma write_all_ok bs c :
  c_writes c = [] -> write_all bs c = (Ok tt, mkConn (c_in c) (c_out c ++ bs) []).
Proof.
  destruct c as [l o w]. simpl. intros ->. destruct bs; [|done]. unfold write_all. simpl. by rewrite app_nil_r.
Qed.

Lemma write_all_in bs c r c' : write_all bs c = (r, c') -> c_in c' = c_in c.
Proof. unfold write_all. repeat case_match; intros; by simplify_eq. Qed.

(** *** Numbers *)

Lemma be_bytes_ok n v : bytes_ok (be_bytes n v).
Proof. induction n; simpl; constructor; auto. unfold is_byte. apply Z.mod_pos_bound. lia. Qed.

Lemma be_bytes_length n v : length (be_bytes n v) = n.
Proof. induction n; simpl; auto. Qed.

Lemma from_be_app (l : bytes) (acc : Z) :
  0 <= acc -> bytes_ok l ->
  foldl (fun acc b => Z.lor (Z.shiftl acc 8) b) acc l = acc * 2 ^ (8 * Z.of_nat (length l)) + from_be l.
Proof.
  unfold from_be. intros Hacc H. revert acc Hacc. induction H as [|b l Hb Hl IH]; intros acc Hacc.
  { simpl. lia. }
  cbn [foldl length].
  assert (Hor : forall a, 0 <= a -> Z.lor (Z.shiftl a 8) b = a * 2 ^ 8 + b).
  { intros a Ha. rewrite Z.lor_comm. rewrite lor_disjoint by (unfold is_byte in Hb; lia). lia. }
  rewrite !Hor by lia. unfold is_byte in Hb.
  rewrite (IH (acc * 2 ^ 8 + b)) by lia. rewrite (IH (0 * 2 ^ 8 + b)) by lia.
  replace (8 * Z.of_nat (S (length l))) with (8 + 8 * Z.of_nat (length l)) by lia.
  rewrite Z.pow_add_r by lia. lia.
Qed.

Lemma from_be_be_bytes n v : 0 <= v < 2 ^ (8 * Z.of_nat n) -> from_be (be_bytes n v) = v.
Proof.
  revert v. induction n as [|n IH]; intros v Hv. { simpl in *. unfold from_be. simpl. lia. }
  cbn [be_bytes]. change (from_be ?l) with (foldl (fun acc b => Z.lor (Z.shiftl acc 8) b) 0 l).
  cbn [foldl]. rewrite Z.shiftl_0_l, Z.lor_0_l.
  rewrite from_be_app; [|apply Z.mod_pos_bound; lia|apply be_bytes_ok].
  rewrite be_bytes_length.
  assert (Hlow : be_bytes n v = be_bytes n (v mod 2 ^ (8 * Z.of_nat n))).
  { assert (forall m, (m <= n)%nat -> be_bytes m v = be_bytes m (v mod 2 ^ (8 * Z.of_nat n))) as H.
    2: { by apply H. }
    clear. induction m as [|m IH]; intros Hm; [done|]. cbn [be_bytes]. f_equal; [|apply IH; lia].
    rewrite !Z.shiftr_div_pow2 by lia.
    replace (8 * Z.of_nat n) with (8 * Z.of_nat m + 8 * Z.of_nat (n - m)) by lia.
    rewrite Z.pow_add_r by lia. rewrite Z.rem_mul_r by (try apply Z.pow_nonzero; lia).
    rewrite (Z.mul_comm (2 ^ (8 * Z.of_nat m))), Z.div_add by (apply Z.pow_nonzero; lia).
    rewrite (Z.div_small (v mod _)) by (apply Z.mod_pos_bound; lia).
    rewrite Z.add_0_l. replace (8 * Z.of_nat (n - m)) with (8 + 8 * Z.of_nat (n - m - 1)) by lia.
    rewrite Z.pow_add_r by lia. change 256 with (2 ^ 8).
    symmetry. apply Z.mod_mod_divide. apply Z.divide_factor_l. }
  rewrite Hlow, IH by (apply Z.mod_pos_bound; lia).
  rewrite Z.shiftr_div_pow2 by lia. rewrite Z.mod_small.
  - rewrite Z.mul_comm. symmetry. apply Z.div_mod. apply Z.pow_nonzero; lia.
  - replace (8 * Z.of_nat (S n)) with (8 + 8 * Z.of_nat n) in Hv by lia. rewrite Z.pow_add_r in Hv by lia.
    split; [apply Z.div_pos; lia|]. apply Z.div_lt_upper_bound; lia.
Qed.

Lemma digit_value_char (radix d : Z) :
  0 <= d < radix -> radix <= 36 -> digit_value radix (digit_char d) = Some d.
Proof.
  intros Hd Hr. unfold digit_value, digit_char.
  destruct (d <? 10) eqn:E; [apply Z.ltb_lt in E|apply Z.ltb_ge in E].
  - replace ((48 <=? 48 + d) && (48 + d <=? 57)) with true by (symmetry; apply andb_true_iff; split; apply Z.leb_le; lia).
    replace (48 + d - 48) with d by lia.
    by replace (d <? radix) with true by (symmetry; apply Z.ltb_lt; lia).
  - replace ((48 <=? 87 + d) && (87 + d <=? 57)) with false by (symmetry; apply andb_false_iff; right; apply Z.leb_gt; lia).
    replace ((97 <=? 87 + d) && (87 + d <=? 122)) with true by (symmetry; apply andb_true_iff; split; apply Z.leb_le; lia).
    replace (87 + d - 87) with d by lia.
    by replace (d <? radix) with true by (symmetry; apply Z.ltb_lt; lia).
Qed.

Lemma show_radix_value (fuel : nat) (radix n : Z) (acc : bytes) :
  1 < radix <= 36 -> 0 <= n < radix ^ Z.of_nat (S fuel) ->
  digits_value radix 0 (show_radix (S fuel) radix n acc) = digits_value radix n acc.
Proof.
  intros Hr. revert n acc. induction fuel as [|f IH]; intros n acc Hn;
    pose proof (Z.mod_pos_bound n radix ltac:(lia)) as Hm.
  - change (Z.of_nat 1) with 1 in Hn. rewrite Z.pow_1_r in Hn. cbn [show_radix].
    rewrite Z.mod_small by lia. replace (n <? radix) with true by (symmetry; apply Z.ltb_lt; lia).
    cbn [digits_value]. by rewrite digit_value_char by lia.
  - change (show_radix (S (S f)) radix n acc) with
      (if n <? radix then digit_char (n mod radix) :: acc
       else show_radix (S f) radix (n / radix) (digit_char (n mod radix) :: acc)).
    destruct (n <? radix) eqn:E.
    + apply Z.ltb_lt in E. rewrite Z.mod_small by lia.
      cbn [digits_value]. by rewrite digit_value_char by lia.
    + apply Z.ltb_ge in E. rewrite IH.
      * cbn [digits_value]. rewrite digit_value_char by lia. f_equal.
        rewrite (Z.div_mod n radix) at 3 by lia. lia.
      * split; [apply Z.div_pos; lia|]. apply Z.div_lt_upper_bound; [lia|].
        rewrite (Nat2Z.inj_succ (S f)), Z.pow_succ_r in Hn by lia. lia.
Qed.

Definition is_digit_char (b : Z) : Prop := 48 <= b <= 57 \/ 97 <= b <= 122.

Lemma show_radix_chars (fuel : nat) (radix n : Z) (acc : bytes) :
  1 < radix <= 36 -> Forall is_digit_char acc ->
  Forall is_digit_char (show_radix fuel radix n acc) /\
  (length acc <= length (show_radix fuel radix n acc))%nat /\
  (fuel <> O -> (length acc < length (show_radix fuel radix n acc))%nat).
Proof.
  intros Hr. revert n acc. induction fuel as [|f IH]; intros n acc Ha; [simpl; repeat split; try done; lia|].
  assert (Forall is_digit_char (digit_char (n mod radix) :: acc)) as Hc.
  { constructor; [|done]. pose proof (Z.mod_pos_bound n radix ltac:(lia)).
    unfold is_digit_char, digit_char. case_match eqn:E; [apply Z.ltb_lt in E|apply Z.ltb_ge in E]; lia. }
  cbn [show_radix]. destruct (n <? radix); [repeat split; simpl; [done|lia|lia]|].
  destruct (IH (n / radix) _ Hc) as (H1 & H2 & _). simpl in H2. repeat split; [done|lia|lia].
Qed.

(** A printed number is a non-empty run of digits and reads back. *)
Lemma parse_show (w radix n : Z) :
  1 < radix <= 36 -> 0 <= w <= 64 -> 0 <= n < 2 ^ w ->
  parse_unsigned w radix (show_radix 64 radix n []) = Some n.
Proof.
  intros Hr Hw Hn.
  pose proof (show_radix_chars 64 radix n [] Hr (Forall_nil_2 _)) as (Hc & _ & Hl). specialize (Hl ltac:(done)).
  assert (Hv : digits_value radix 0 (show_radix 64 radix n []) = Some n).
  { rewrite show_radix_value; [done|done|]. split; [lia|].
    apply Z.lt_le_trans with (2 ^ w); [lia|].
    transitivity (2 ^ 64); [apply Z.pow_le_mono_r; lia|]. apply Z.pow_le_mono_l. lia. }
  destruct (show_radix 64 radix n []) as [|b l]; [simpl in Hl; lia|].
  unfold parse_unsigned. assert (b <> 43) as Hb.
  { inversion Hc; subst. unfold is_digit_char in *. lia. }
  assert ((match b :: l with 43 :: (_ :: _ as r) => r | _ => b :: l end) = b :: l) as ->.
  { destruct b as [|p|p]; try done. repeat (destruct p as [p|p|]; try done). }
  rewrite Hv. by replace (n <? 2 ^ w) with true by (symmetry; apply Z.ltb_lt; lia).
Qed.

Lemma show_dec_chars n : Forall is_digit_char (show_dec n) /\ show_dec n <> [].
Proof.
  destruct (show_radix_chars 64 10 n [] ltac:(lia) (Forall_nil_2 _)) as (H & _ & H1).
  split; [done|]. intros E. unfold show_dec in E. rewrite E in H1. specialize (H1 ltac:(done)). simpl in H1. lia.
Qed.

Lemma show_hex_chars n : Forall is_digit_char (show_hex n) /\ show_hex n <> [].
Proof.
  destruct (show_radix_chars 64 16 n [] ltac:(lia) (Forall_nil_2 _)) as (H & _ & H1).
  split; [done|]. intros E. unfold show_hex in E. rewrite E in H1. specialize (H1 ltac:(done)). simpl in H1. lia.
Qed.

(** [std::str::from_utf8] *)
Definition from_utf8 (l : bytes) : option bytes := if utf8_valid l then Some l else None.

(** [Read::read_to_end] *)
Fixpoint read_to_end_in (l : list arrival) : result bytes ErrorKind * list arrival :=
  match l with
  | [] => (Ok [], [])
  | Fault Interrupted :: l' => read_to_end_in l'
  | Fault k :: l' => (Err k, l')
  | Data bs :: l' =>
      let '(r, l1) := read_to_end_in l' in
      (match r with Ok r => Ok (bs ++ r) | Err k => Err k end, l1)
  end.

Definition read_to_end (c : Conn) : result bytes ErrorKind * Conn :=
  let '(r, l) := read_to_end_in (c_in c) in (r, with_in l c).

Lemma read_to_end_quiet (l : list arrival) :
  quiet l = true -> read_to_end_in l = (Ok (arriving l), []).
Proof.
  induction l as [|[bs|k] l IH]; simpl; try done. intros H. by rewrite (IH H).
Qed.

(** A run that comes back with a value, one that takes the process down (a
    panic in a function of the C interface, or a failed allocation), and one
    for which the model's fuel was too small. *)
Inductive outcome (A : Type) : Type :=
| Returns (a : A)
| Aborts
| NoFuel.
Arguments Returns {A} a.
Arguments Aborts {A}.
Arguments NoFuel {A}.

Notation "'run!' x := e 'in' k" :=
  (match e with Returns x => k | Aborts => Aborts | NoFuel => NoFuel end)
  (at level 10, x pattern, e at level 200, k at level 200) : sengoo_scope.
