(* ===== verification/Net.v ===== *)
(** The network runtime's error codes, URL and HTTP parsing, and HTTP client:
    runtime/src/net.rs and runtime/src/net/http_client.rs.

    Name resolution, connecting and the TLS handshake are the operating
    system's and third-party code: the client is given the connection, or the
    error, that opening it produced. *)

From S2P Require Import Prelude NetBytes.

Local Open Scope Z_scope.

(** ** Error codes *)

Inductive NetErrorCode :=
| NetOk | InvalidArgument | InvalidUrl | UnsupportedScheme | ResolveFailed | ConnectFailed
| IoError | Timeout | HttpProtocolError | HttpChunkDecodeError | WebSocketHandshakeError
| WebSocketProtocolError | HandleNotFound | InternalError | RemoteClosed | TlsCertInvalid
| TlsHostnameMismatch | TlsHandshake | TlsUnavailable.

#[global] Instance NetErrorCode_eq_dec : EqDecision NetErrorCode.
Proof. solve_decision. Defined.

Definition net_codes : list NetErrorCode :=
  [NetOk; InvalidArgument; InvalidUrl; UnsupportedScheme; ResolveFailed; ConnectFailed; IoError;
   Timeout; HttpProtocolError; HttpChunkDecodeError; WebSocketHandshakeError;
   WebSocketProtocolError; HandleNotFound; InternalError; RemoteClosed; TlsCertInvalid;
   TlsHostnameMismatch; TlsHandshake; TlsUnavailable].

(** The discriminant, [code as i32] *)
Definition net_code (c : NetErrorCode) : Z :=
  match c with
  | NetOk => 0 | InvalidArgument => 1 | InvalidUrl => 2 | UnsupportedScheme => 3
  | ResolveFailed => 4 | ConnectFailed => 5 | IoError => 6 | Timeout => 7
  | HttpProtocolError => 8 | HttpChunkDecodeError => 9 | WebSocketHandshakeError => 10
  | WebSocketProtocolError => 11 | HandleNotFound => 12 | InternalError => 13
  | RemoteClosed => 14 | TlsCertInvalid => 15 | TlsHostnameMismatch => 16
  | TlsHandshake => 17 | TlsUnavailable => 18
  end.

Definition classify_io_error (k : ErrorKind) : NetErrorCode :=
  match k with TimedOut | WouldBlock => Timeout | _ => IoError end.

Definition status_from_net_error_code (c : NetErrorCode) : Z :=
  match c with
  | NetOk => 0
  | InvalidArgument | InvalidUrl => 2
  | HandleNotFound => 3
  | UnsupportedScheme => 8
  | ResolveFailed | ConnectFailed | IoError | WebSocketHandshakeError | RemoteClosed => 9
  | HttpProtocolError | HttpChunkDecodeError | WebSocketProtocolError => 10
  | Timeout => 11
  | InternalError => 1
  | TlsCertInvalid => 15
  | TlsHostnameMismatch => 16
  | TlsHandshake => 17
  | TlsUnavailable => 18
  end.

Definition net_error_name (code : Z) : bytes :=
  lit (match code with
  | 0 => "ok"
  | 1 => "invalid_argument"
  | 2 => "invalid_url"
  | 3 => "unsupported_scheme"
  | 4 => "resolve_failed"
  | 5 => "connect_failed"
  | 6 => "io_error"
  | 7 => "timeout"
  | 8 => "http_protocol_error"
  | 9 => "http_chunk_decode_error"
  | 10 => "websocket_handshake_error"
  | 11 => "websocket_protocol_error"
  | 12 => "handle_not_found"
  | 13 => "internal_error"
  | 14 => "remote_closed"
  | 15 => "tls_cert_invalid"
  | 16 => "tls_hostname_mismatch"
  | 17 => "tls_handshake"
  | 18 => "tls_unavailable"
  | _ => "unknown_error"
  end)%string.

(** ** Buffers of the C interface: [None] is the null pointer *)

(** The bytes of [source] that fit are stored at the front of the block. *)
Definition copy_bytes_to_buffer (source : bytes) (buffer : option bytes) (capacity : nat) : Z * option bytes :=
  match buffer with
  | None => (-1, None)
  | Some mem =>
      let copy_len := Nat.min (length source) capacity in
      (Z.of_nat copy_len, Some (take copy_len source ++ drop copy_len mem))
  end.

(** A NUL-terminated string of at most 8192 bytes; the pointer is the bytes up
    to the terminator. *)
Definition parse_host (host : option bytes) : result bytes NetErrorCode :=
  match host with
  | None => Err InvalidArgument
  | Some bs =>
      if (8192 <? Z.of_nat (length bs)) then Err InvalidArgument
      else match from_utf8 bs with Some s => Ok s | None => Err InvalidArgument end
  end.

(** ** URLs *)

Record ParsedUrl := mkUrl {
  scheme : bytes;
  host : bytes;
  port : Z;
  path : bytes;
}.

Definition parse_url_str (raw : bytes) : result ParsedUrl NetErrorCode :=
  match split_once (lit "://") raw with
  | None => Err InvalidUrl
  | Some (sch, rest) =>
      let '(host_port, path) :=
        match split_once (lit "/") rest with
        | Some (h, p) => (h, lit "/" ++ p)
        | None => (rest, lit "/")
        end in
      let? (host, port) :=
        match rsplit_once 58 host_port with
        | Some (host, port) =>
            match parse_unsigned 16 10 port with
            | Some port => Ok (host, port)
            | None => Err InvalidUrl
            end
        | None =>
            Ok (host_port,
                if eq_ignore_ascii_case sch (lit "https") || eq_ignore_ascii_case sch (lit "wss")
                then 443 else 80)
        end in
      if bytes_eqb host [] then Err InvalidUrl
      else Ok (mkUrl (to_ascii_lowercase sch) host port path)
  end.

Definition parse_url (url : option bytes) : result ParsedUrl NetErrorCode :=
  let? raw := parse_host url in parse_url_str raw.

(** ** HTTP responses *)

Notation Headers := (gmap (list Z) (list Z)).

Definition parse_status_code (status_line : bytes) : result Z NetErrorCode :=
  match split_whitespace status_line with
  | _ :: status :: _ =>
      match parse_signed 64 10 status with Some s => Ok s | None => Err HttpProtocolError end
  | _ => Err HttpProtocolError
  end.

Definition split_http_headers_and_body (bs : bytes) : result (bytes * bytes) NetErrorCode :=
  match find_sub (CRLF ++ CRLF) bs with
  | Some header_end => Ok (take header_end bs, drop (header_end + 4) bs)
  | None => Err HttpProtocolError
  end.

(** The header lines after the first line; a later header of the same name
    replaces an earlier one. *)
Fixpoint parse_header_lines (lines : list bytes) (headers : Headers) : result Headers NetErrorCode :=
  match lines with
  | [] => Ok headers
  | line :: lines =>
      if bytes_eqb line [] then parse_header_lines lines headers
      else match split_once (lit ":") line with
           | None => Err HttpProtocolError
           | Some (name, value) =>
               parse_header_lines lines (<[to_ascii_lowercase (trim name) := trim value]> headers)
           end
  end.

Definition parse_http_headers (header_bytes : bytes) : result (Z * Headers) NetErrorCode :=
  match from_utf8 header_bytes with
  | None => Err HttpProtocolError
  | Some header_text =>
      match split CRLF header_text with
      | [] => Err HttpProtocolError
      | status_line :: lines =>
          let? status_code := parse_status_code status_line in
          let? headers := parse_header_lines lines ∅ in
          Ok (status_code, headers)
      end
  end.

(** One turn of the loop of [decode_chunked_body] on the bytes from [idx] on:
    the end of the body, or a chunk and what follows it. *)
Definition decode_chunk (body : bytes) : result (option (bytes * bytes)) NetErrorCode :=
  match find_sub CRLF body with
  | None => Err HttpChunkDecodeError
  | Some rel =>
      match from_utf8 (take rel body) with
      | None => Err HttpChunkDecodeError
      | Some size_line =>
          let size_hex := trim (default [] (head (split (lit ";") size_line))) in
          match parse_unsigned 64 16 size_hex with
          | None => Err HttpChunkDecodeError
          | Some size =>
              let rest := drop (rel + 2) body in
              if size =? 0 then
                if starts_with CRLF rest || bytes_eqb rest [] then Ok None
                else Err HttpChunkDecodeError
              else if Z.of_nat (length rest) <? size then Err HttpChunkDecodeError
              else
                let n := Z.to_nat size in
                if bytes_eqb (take 2 (drop n rest)) CRLF
                then Ok (Some (take n rest, drop (n + 2) rest))
                else Err HttpChunkDecodeError
          end
      end
  end.

Fixpoint decode_chunked_loop (fuel : nat) (body decoded : bytes) : outcome (result bytes NetErrorCode) :=
  match fuel with
  | O => NoFuel
  | S fuel =>
      match decode_chunk body with
      | Err e => Returns (Err e)
      | Ok None => Returns (Ok decoded)
      | Ok (Some (chunk, rest)) => decode_chunked_loop fuel rest (decoded ++ chunk)
      end
  end.

(** Every chunk takes at least five bytes off the body. *)
Definition decode_chunked_body (body : bytes) : outcome (result bytes NetErrorCode) :=
  decode_chunked_loop (S (length body)) body [].

(** ** The HTTP client *)

Record HttpResponseEntry := mkHttpResponse {
  status_code : Z;
  resp_body : bytes;
}.

Definition request_text (method : bytes) (url : ParsedUrl) (body : bytes) : bytes :=
  method ++ lit " " ++ path url ++ lit " HTTP/1.1" ++ CRLF ++
  lit "Host: " ++ host url ++ CRLF ++
  lit "Connection: close" ++ CRLF ++
  lit "User-Agent: sengoo-runtime/0.1" ++ CRLF ++
  (if bytes_eqb body [] then []
   else lit "Content-Type: application/octet-stream" ++ CRLF ++
        lit "Content-Length: " ++ show_dec (Z.of_nat (length body)) ++ CRLF) ++
  CRLF.

(** What the client makes of the bytes the server sent. *)
Definition read_response (raw : bytes) : outcome (result HttpResponseEntry NetErrorCode) :=
  match split_http_headers_and_body raw with
  | Err e => Returns (Err e)
  | Ok (header, body_bytes) =>
      match parse_http_headers header with
      | Err e => Returns (Err e)
      | Ok (status, headers) =>
          let chunked := match headers !! lit "transfer-encoding" with
                         | Some v => contains (lit "chunked") (to_ascii_lowercase v)
                         | None => false
                         end in
          if chunked then
            run! body := decode_chunked_body body_bytes in
            Returns (let? body := body in Ok (mkHttpResponse status body))
          else Returns (Ok (mkHttpResponse status body_bytes))
      end
  end.

Definition io_result {A} (r : result A ErrorKind) : result A NetErrorCode :=
  match r with Ok a => Ok a | Err k => Err (classify_io_error k) end.

Definition send_http_request (method : bytes) (url : ParsedUrl) (body : bytes)
    (opened : result Conn NetErrorCode) :
    outcome (result HttpResponseEntry NetErrorCode * option Conn) :=
  if negb (bytes_eqb (scheme url) (lit "http")) && negb (bytes_eqb (scheme url) (lit "https"))
  then Returns (Err UnsupportedScheme, None)
  else match opened with
  | Err e => Returns (Err e, None)
  | Ok c0 =>
      let '(r1, c1) := write_all (request_text method url body) c0 in
      match io_result r1 with
      | Err e => Returns (Err e, Some c1)
      | Ok _ =>
          let '(r2, c2) := if bytes_eqb body [] then (Ok tt, c1) else write_all body c1 in
          match io_result r2 with
          | Err e => Returns (Err e, Some c2)
          | Ok _ =>
              let '(r3, c3) := read_to_end c2 in
              match io_result r3 with
              | Err e => Returns (Err e, Some c3)
              | Ok raw =>
                  run! r := read_response raw in
                  Returns (r, Some c3)
              end
          end
      end
  end.
