(* ===== verification/WebSocket.v ===== *)
(** Base64, SHA-1 and the WebSocket protocol: runtime/src/net/websocket.rs,
    with the base64 decoder and the PEM reader of
    runtime/src/net/http_server.rs.

    Payload lengths come off the wire as 64-bit numbers and are allocated
    before the payload is read, so the model keeps the allocator: [alloc_max]
    is the largest allocation that succeeds, and a longer one takes the process
    down. *)

From S2P Require Import Prelude NetBytes Net.

Local Open Scope Z_scope.

(** ** Base64 *)

Definition b64_table : bytes :=
  lit "ABCDEFGHIJKLMNOPQRSTUVWXYZabcdefghijklmnopqrstuvwxyz0123456789+/".

Definition b64_char (i : Z) : Z := nth (Z.to_nat i) b64_table 0.

Definition b64_triple (b0 b1 b2 : Z) : Z := Z.lor (Z.lor (Z.shiftl b0 16) (Z.shiftl b1 8)) b2.

Definition b64_digit (triple shift : Z) : Z := b64_char (Z.land (Z.shiftr triple shift) 63).

Fixpoint base64_encode (input : bytes) : bytes :=
  match input with
  | [] => []
  | [b0] => let t := b64_triple b0 0 0 in [b64_digit t 18; b64_digit t 12; 61; 61]
  | [b0; b1] => let t := b64_triple b0 b1 0 in [b64_digit t 18; b64_digit t 12; b64_digit t 6; 61]
  | b0 :: b1 :: b2 :: rest =>
      let t := b64_triple b0 b1 b2 in
      [b64_digit t 18; b64_digit t 12; b64_digit t 6; b64_digit t 0] ++ base64_encode rest
  end.

(** The decoder's table: 255 where there is no digit. *)
Definition b64_value (c : Z) : Z :=
  if (65 <=? c) && (c <=? 90) then c - 65
  else if (97 <=? c) && (c <=? 122) then c - 97 + 26
  else if (48 <=? c) && (c <=? 57) then c - 48 + 52
  else if c =? 43 then 62 else if c =? 47 then 63 else 255.

(** A character's value, and whether it is padding. *)
Definition b64_classify (c : Z) : option (Z * bool) :=
  if c =? 61 then Some (0, true)
  else if (c <? 128) && negb (b64_value c =? 255) then Some (b64_value c, false) else None.

Definition count_pad (l : list (Z * bool)) : Z := Z.of_nat (length (filter (fun p => p.2 = true) l)).

Definition b64_group (a b c d : Z) : option bytes :=
  let* (v0, p0) := b64_classify a in
  let* (v1, p1) := b64_classify b in
  let* (v2, p2) := b64_classify c in
  let* (v3, p3) := b64_classify d in
  let pad := count_pad [(v0, p0); (v1, p1); (v2, p2); (v3, p3)] in
  Some ([Z.lor (wrap_u 8 (Z.shiftl v0 2)) (Z.shiftr v1 4)] ++
        (if pad <? 2 then [Z.lor (wrap_u 8 (Z.shiftl v1 4)) (Z.shiftr v2 2)] else []) ++
        (if pad <? 1 then [Z.lor (wrap_u 8 (Z.shiftl v2 6)) v3] else [])).

Fixpoint b64_groups (l : bytes) : option bytes :=
  match l with
  | [] => Some []
  | a :: b :: c :: d :: rest =>
      let* g := b64_group a b c d in
      let* r := b64_groups rest in
      Some (g ++ r)
  | _ => None
  end.

(** A length that is no multiple of four is refused before any group. *)
Definition base64_decode (input : bytes) : option bytes :=
  b64_groups (filter (fun b => is_ascii_whitespace b = false) input).

(** ** PEM *)

(** [str::lines]: cut after line feeds; a line that ends in one loses it and a
    carriage return before it. *)
Definition strip_cr (l : bytes) : bytes :=
  match reverse l with 13 :: r => reverse r | _ => l end.

Definition lines (l : bytes) : list bytes :=
  let parts := split [10] l in
  let final := default [] (last parts) in
  map strip_cr (removelast parts) ++ (if bytes_eqb final [] then [] else [final]).

Definition strip_suffix (suf l : bytes) : option bytes :=
  if ends_with suf l then Some (take (length l - length suf) l) else None.

Definition strip_prefix (pre l : bytes) : option bytes :=
  if starts_with pre l then Some (drop (length pre) l) else None.

(** The base64 text up to the END line, and the lines after it. *)
Fixpoint pem_body (ls : list bytes) : bytes * list bytes :=
  match ls with
  | [] => ([], [])
  | body :: ls =>
      let body := trim body in
      if starts_with (lit "-----END ") body then ([], ls)
      else let '(b64, rest) := pem_body ls in (body ++ b64, rest)
  end.

Fixpoint pem_blocks (fuel : nat) (ls : list bytes) : result (list (bytes * bytes)) NetErrorCode :=
  match fuel, ls with
  | O, _ | _, [] => Ok []
  | S fuel, line :: ls =>
      match strip_prefix (lit "-----BEGIN ") (trim line) with
      | None => pem_blocks fuel ls
      | Some rest =>
          match strip_suffix (lit "-----") rest with
          | None => Err TlsCertInvalid
          | Some label =>
              let '(b64, ls) := pem_body ls in
              match base64_decode b64 with
              | None => Err TlsCertInvalid
              | Some der => let? out := pem_blocks fuel ls in Ok ((label, der) :: out)
              end
          end
      end
  end.

Definition decode_pem_blocks (pem : bytes) : result (list (bytes * bytes)) NetErrorCode :=
  match from_utf8 pem with
  | None => Err TlsCertInvalid
  | Some text =>
      let? out := pem_blocks (length (lines text)) (lines text) in
      match out with [] => Err TlsCertInvalid | _ => Ok out end
  end.

(** ** SHA-1 *)

Definition rotate_left (value bits : Z) : Z :=
  Z.lor (wrap_u 32 (Z.shiftl value bits)) (Z.shiftr value (32 - bits)).
Definition left_rotate := rotate_left.
Definition add32 (a b : Z) : Z := wrap_u 32 (a + b).
Definition not32 (a : Z) : Z := 2 ^ 32 - 1 - a.

(** The input, a one bit, zeros up to eight bytes short of a whole block, and
    the bit length. *)
Definition sha1_pad (input : bytes) : bytes :=
  let n := Z.of_nat (length input) in
  input ++ [128] ++ repeat 0 (Z.to_nat ((55 - n) mod 64)) ++ be_bytes 8 (wrap_u 64 (n * 8)).

Fixpoint chunks_of (n : nat) (fuel : nat) (l : bytes) : list bytes :=
  match fuel, l with
  | O, _ | _, [] => []
  | S fuel, _ => take n l :: chunks_of n fuel (drop n l)
  end.
Definition chunks (n : nat) (l : bytes) : list bytes := chunks_of n (length l) l.

(** The eighty words of a block, built last word first. *)
Fixpoint sha1_extend (n : nat) (rev_w : list Z) : list Z :=
  match n with
  | O => rev_w
  | S n =>
      let w i := nth (i - 1) rev_w 0 in
      sha1_extend n (left_rotate (Z.lxor (Z.lxor (Z.lxor (w 3%nat) (w 8%nat)) (w 14%nat)) (w 16%nat)) 1 :: rev_w)
  end.

Definition sha1_schedule (chunk : bytes) : list Z :=
  reverse (sha1_extend 64 (reverse (map from_be (take 16 (chunks 4 chunk))))).

Definition sha1_fk (idx : nat) (b c d : Z) : Z * Z :=
  if (idx <? 20)%nat then (Z.lor (Z.land b c) (Z.land (not32 b) d), 1518500249)
  else if (idx <? 40)%nat then (Z.lxor (Z.lxor b c) d, 1859775393)
  else if (idx <? 60)%nat then (Z.lor (Z.lor (Z.land b c) (Z.land b d)) (Z.land c d), 2400959708)
  else (Z.lxor (Z.lxor b c) d, 3395469782).

Notation sha_state := (Z * Z * Z * Z * Z)%type.

Definition sha1_round (idx : nat) (wi : Z) (s : sha_state) : sha_state :=
  let '(a, b, c, d, e) := s in
  let '(f, k) := sha1_fk idx b c d in
  let temp := add32 (add32 (add32 (add32 (left_rotate a 5) f) e) k) wi in
  (temp, a, left_rotate b 30, c, d).

Fixpoint sha1_rounds (idx : nat) (w : list Z) (s : sha_state) : sha_state :=
  match w with
  | [] => s
  | wi :: w => sha1_rounds (S idx) w (sha1_round idx wi s)
  end.

Definition sha1_block (h : sha_state) (chunk : bytes) : sha_state :=
  let '(h0, h1, h2, h3, h4) := h in
  let '(a, b, c, d, e) := sha1_rounds 0 (sha1_schedule chunk) h in
  (add32 h0 a, add32 h1 b, add32 h2 c, add32 h3 d, add32 h4 e).

Definition sha1_init : sha_state := (1732584193, 4023233417, 2562383102, 271733878, 3285377520).

Definition sha1_digest (input : bytes) : bytes :=
  let '(h0, h1, h2, h3, h4) := foldl sha1_block sha1_init (chunks 64 (sha1_pad input)) in
  be_bytes 4 h0 ++ be_bytes 4 h1 ++ be_bytes 4 h2 ++ be_bytes 4 h3 ++ be_bytes 4 h4.

(** ** The handshake *)

Definition websocket_accept_value (client_key : bytes) : bytes :=
  base64_encode (sha1_digest (trim client_key ++ lit "258EAFA5-E914-47DA-95CA-C5AB0DC85B11")).

Definition websocket_upgrade_text (accept : bytes) : bytes :=
  lit "HTTP/1.1 101 Switching Protocols" ++ CRLF ++ lit "Upgrade: websocket" ++ CRLF ++
  lit "Connection: Upgrade" ++ CRLF ++ lit "Sec-WebSocket-Accept: " ++ accept ++ CRLF ++ CRLF.

Definition write_websocket_upgrade_response (accept : bytes) (c : Conn) :
    result unit NetErrorCode * Conn :=
  let '(r, c) := write_all (websocket_upgrade_text accept) c in (io_result r, c).

Definition websocket_client_key : bytes := lit "MDEyMzQ1Njc4OWFiY2RlZg==".

Fixpoint read_headers_loop (n : nat) (rev_bytes : bytes) (c : Conn) : result bytes NetErrorCode * Conn :=
  match n with
  | O => (Err WebSocketHandshakeError, c)
  | S n =>
      let '(r, c) := read 1 c in
      match r with
      | Err k => (Err (classify_io_error k), c)
      | Ok [] => (Err WebSocketHandshakeError, c)
      | Ok (b :: _) =>
          let rev_bytes := b :: rev_bytes in
          if starts_with [10; 13; 10; 13] rev_bytes then (Ok (reverse rev_bytes), c)
          else read_headers_loop n rev_bytes c
      end
  end.

(** The response head, a byte at a time, of at most 16384 bytes. *)
Definition read_http_response_headers (c : Conn) : result bytes NetErrorCode * Conn :=
  read_headers_loop (Z.to_nat (16 * 1024)) [] c.

Definition websocket_request_text (url : ParsedUrl) : bytes :=
  lit "GET " ++ path url ++ lit " HTTP/1.1" ++ CRLF ++ lit "Host: " ++ host url ++ CRLF ++
  lit "Upgrade: websocket" ++ CRLF ++ lit "Connection: Upgrade" ++ CRLF ++
  lit "Sec-WebSocket-Key: " ++ websocket_client_key ++ CRLF ++
  lit "Sec-WebSocket-Version: 13" ++ CRLF ++ CRLF.

Definition header_holds (headers : Headers) (name : bytes) (P : bytes -> bool) : bool :=
  match headers !! name with Some v => P v | None => false end.

(** Whether the client takes a response head for a completed handshake. *)
Definition handshake_accepted (response : bytes) : result unit NetErrorCode :=
  let? (header, _) := split_http_headers_and_body response in
  let? (status, headers) := parse_http_headers header in
  if negb (status =? 101) then Err WebSocketHandshakeError
  else
    let upgrade_ok := header_holds headers (lit "upgrade") (fun v => eq_ignore_ascii_case v (lit "websocket")) in
    let connection_ok := header_holds headers (lit "connection")
                           (fun v => contains (lit "upgrade") (to_ascii_lowercase v)) in
    let accept_ok := header_holds headers (lit "sec-websocket-accept") (fun v => negb (bytes_eqb (trim v) [])) in
    if negb upgrade_ok || negb connection_ok || negb accept_ok
    then Err WebSocketHandshakeError else Ok tt.

Definition websocket_connect (url : ParsedUrl) (opened : result Conn NetErrorCode) :
    result Conn NetErrorCode :=
  if negb (bytes_eqb (scheme url) (lit "ws")) then Err UnsupportedScheme
  else
    let? c := opened in
    let '(r1, c) := write_all (websocket_request_text url) c in
    let? _ := io_result r1 in
    let '(r2, c) := read_http_response_headers c in
    let? response := r2 in
    let? _ := handshake_accepted response in
    Ok c.

(** ** Frames *)

Definition mask_key_const : bytes := [19; 55; 192; 222].

Fixpoint xor_mask (key : bytes) (idx : nat) (payload : bytes) : bytes :=
  match payload with
  | [] => []
  | b :: payload => Z.lxor b (nth (idx mod 4) key 0) :: xor_mask key (S idx) payload
  end.

Definition ws_frame (opcode : Z) (payload : bytes) (masked : bool) : bytes :=
  let len := Z.of_nat (length payload) in
  let mask_bit := if masked then 128 else 0 in
  [Z.lor 128 (Z.land opcode 15)] ++
  (if len <=? 125 then [Z.lor mask_bit len]
   else if len <=? 65535 then Z.lor mask_bit 126 :: be_bytes 2 len
   else Z.lor mask_bit 127 :: be_bytes 8 (wrap_u 64 len)) ++
  (if masked then mask_key_const ++ xor_mask mask_key_const 0 payload else payload).

Definition ws_write_frame (opcode : Z) (payload : bytes) (masked : bool) (c : Conn) :
    result unit ErrorKind * Conn :=
  write_all (ws_frame opcode payload masked) c.

Section Frames.
(** [vec![0u8; n]]: the allocator's largest block.  [Vec] itself panics above
    [isize::MAX], whatever the allocator has. *)
Variable alloc_max : Z.
Definition allocates (n : Z) : bool := (n <=? alloc_max) && (n <? 2 ^ 63).

(** The declared payload length: the second header byte, or the two or eight
    bytes after it. *)
Definition ws_read_len (b1 : Z) (c : Conn) : option Z * Conn :=
  let short := Z.land b1 127 in
  if short =? 126 then
    let '(r, c) := read_exact 2 c in (option_map from_be r, c)
  else if short =? 127 then
    let '(r, c) := read_exact 8 c in (option_map from_be r, c)
  else (Some short, c).

Definition ws_read_key (masked : bool) (c : Conn) : option bytes * Conn :=
  if masked then read_exact 4 c else (Some [0; 0; 0; 0], c).

Definition ws_read_payload (n : Z) (c : Conn) : outcome (option bytes * Conn) :=
  if allocates n then
    Returns (if 0 <? n then read_exact (Z.to_nat n) c else (Some [], c))
  else Aborts.

Definition ws_read_frame (c : Conn) : outcome (option (Z * bytes) * Conn) :=
  let '(header, c) := read_exact 2 c in
  match header with
  | Some [b0; b1] =>
      let opcode := Z.land b0 15 in
      let masked := negb (Z.land b1 128 =? 0) in
      let '(len, c) := ws_read_len b1 c in
      match len with
      | None => Returns (None, c)
      | Some payload_len =>
          let '(key, c) := ws_read_key masked c in
          match key with
          | None => Returns (None, c)
          | Some mask_key =>
              run! (payload, c) := ws_read_payload payload_len c in
              Returns (match payload with
                       | None => None
                       | Some payload =>
                           Some (opcode, if masked then xor_mask mask_key 0 payload else payload)
                       end, c)
          end
      end
  | _ => Returns (None, c)
  end.

(** ** Sessions *)

(** What the echo server does with one frame: [None] to go on. *)
Definition ws_echo_step (opcode : Z) (payload : bytes) (c : Conn) : option (result unit NetErrorCode) * Conn :=
  let go_on r := match io_result r with Ok _ => None | Err e => Some (Err e) end in
  if opcode =? 1 then let '(r, c) := ws_write_frame 1 payload false c in (go_on r, c)
  else if opcode =? 9 then let '(r, c) := ws_write_frame 10 payload false c in (go_on r, c)
  else if opcode =? 8 then let '(_, c) := ws_write_frame 8 payload false c in (Some (Ok tt), c)
  else if opcode =? 10 then (None, c)
  else (Some (Err WebSocketProtocolError), c).

Fixpoint ws_echo_loop (fuel : nat) (c : Conn) : outcome (result unit NetErrorCode * Conn) :=
  match fuel with
  | O => NoFuel
  | S fuel =>
      run! (frame, c) := ws_read_frame c in
      match frame with
      | None => Returns (Err RemoteClosed, c)
      | Some (opcode, payload) =>
          let '(r, c) := ws_echo_step opcode payload c in
          match r with
          | Some r => Returns (r, c)
          | None => ws_echo_loop fuel c
          end
      end
  end.

(** Every frame read takes at least its two header bytes off the connection. *)
Definition run_ws_echo_session (c : Conn) : outcome (result unit NetErrorCode * Conn) :=
  ws_echo_loop (S (length (arriving (c_in c)))) c.

(** The client's receive: the payload of the next text frame, pings answered
    on the way; [Ok None] is the peer's close. *)
Fixpoint ws_recv_loop (fuel : nat) (c : Conn) : outcome (result (option bytes) NetErrorCode * Conn) :=
  match fuel with
  | O => NoFuel
  | S fuel =>
      run! (frame, c) := ws_read_frame c in
      match frame with
      | None => Returns (Err WebSocketProtocolError, c)
      | Some (opcode, payload) =>
          if opcode =? 1 then Returns (Ok (Some payload), c)
          else if opcode =? 9 then
            let '(r, c) := ws_write_frame 10 payload true c in
            match io_result r with
            | Err e => Returns (Err e, c)
            | Ok _ => ws_recv_loop fuel c
            end
          else if opcode =? 8 then Returns (Ok None, c)
          else if opcode =? 10 then ws_recv_loop fuel c
          else Returns (Err WebSocketProtocolError, c)
      end
  end.

Definition ws_recv_frame (c : Conn) : outcome (result (option bytes) NetErrorCode * Conn) :=
  ws_recv_loop (S (length (arriving (c_in c)))) c.
End Frames.

(** ** Base64 reads back *)

Lemma b64_char_classify i : 0 <= i < 64 -> b64_classify (b64_char i) = Some (i, false).
Proof.
  intros Hi.
  assert (forallb (fun n => bool_decide (b64_classify (b64_char (Z.of_nat n)) = Some (Z.of_nat n, false)))
            (seq 0 64) = true) as H by (vm_compute; reflexivity).
  rewrite forallb_forall in H. specialize (H (Z.to_nat i)). rewrite in_seq in H.
  specialize (H ltac:(lia)). apply bool_decide_eq_true in H. by rewrite Z2Nat.id in H by lia.
Qed.

Lemma b64_char_not_ws i : 0 <= i < 64 -> is_ascii_whitespace (b64_char i) = false.
Proof.
  intros Hi.
  assert (forallb (fun n => negb (is_ascii_whitespace (b64_char (Z.of_nat n)))) (seq 0 64) = true) as H
    by (vm_compute; reflexivity).
  rewrite forallb_forall in H. specialize (H (Z.to_nat i)). rewrite in_seq in H.
  specialize (H ltac:(lia)). rewrite Z2Nat.id in H by lia. by apply negb_true_iff in H.
Qed.

Lemma lor_shifted a b s : 0 <= s -> 0 <= a < 2 ^ s -> Z.lor (Z.shiftl b s) a = b * 2 ^ s + a.
Proof. intros. rewrite Z.lor_comm, lor_disjoint by lia. lia. Qed.

Lemma b64_triple_sum b0 b1 b2 :
  is_byte b0 -> is_byte b1 -> is_byte b2 -> b64_triple b0 b1 b2 = b0 * 65536 + b1 * 256 + b2.
Proof.
  unfold is_byte, b64_triple. intros H0 H1 H2.
  rewrite <- Z.lor_assoc, (lor_shifted b2) by lia. rewrite lor_shifted by lia. lia.
Qed.

Lemma b64_digit_bounds t s : 0 <= Z.land (Z.shiftr t s) 63 < 64.
Proof. change 63 with (Z.ones 6). rewrite Z.land_ones by lia. apply Z.mod_pos_bound. lia. Qed.

Lemma b64_digit_classify t s : b64_classify (b64_digit t s) = Some (Z.land (Z.shiftr t s) 63, false).
Proof. apply b64_char_classify, b64_digit_bounds. Qed.

Lemma land_63 t s : 0 <= s -> Z.land (Z.shiftr t s) 63 = t / 2 ^ s mod 64.
Proof. intros. change 63 with (Z.ones 6). rewrite Z.land_ones, Z.shiftr_div_pow2 by lia. done. Qed.

(** A byte put together from the low bits of one digit and the high bits of
    the next. *)
Lemma b64_join v w s :
  0 <= s <= 8 -> 0 <= w < 2 ^ s ->
  Z.lor (wrap_u 8 (Z.shiftl v s)) w = v mod 2 ^ (8 - s) * 2 ^ s + w.
Proof.
  intros Hs Hw. unfold wrap_u. rewrite Z.shiftl_mul_pow2 by lia.
  replace (2 ^ 8) with (2 ^ (8 - s) * 2 ^ s) by (rewrite <- Z.pow_add_r by lia; f_equal; lia).
  rewrite Z.mul_mod_distr_r by (apply Z.pow_nonzero; lia).
  rewrite <- Z.shiftl_mul_pow2 by lia. rewrite lor_shifted, Z.shiftl_mul_pow2 by lia. done.
Qed.

Lemma div_bounds x a b : 0 < a -> 0 <= x < a * b -> 0 <= x / a < b.
Proof. intros. split; [apply Z.div_pos; lia|apply Z.div_lt_upper_bound; lia]. Qed.

Lemma b64_bytes t (v := fun s => t / 2 ^ s mod 64) :
  0 <= t < 2 ^ 24 ->
  Z.lor (wrap_u 8 (Z.shiftl (v 18) 2)) (Z.shiftr (v 12) 4) = t / 65536 /\
  Z.lor (wrap_u 8 (Z.shiftl (v 12) 4)) (Z.shiftr (v 6) 2) = t / 256 mod 256 /\
  Z.lor (wrap_u 8 (Z.shiftl (v 6) 6)) (v 0) = t mod 256.
Proof.
  intros Ht. assert (Hv : forall s, 0 <= v s < 64) by (intros; apply Z.mod_pos_bound; lia).
  rewrite !Z.shiftr_div_pow2 by lia.
  rewrite !b64_join by (try apply div_bounds; try apply Hv; lia).
  unfold v. clear Hv v. repeat split; Z.div_mod_to_equations; lia.
Qed.

Lemma b64_group_full t :
  0 <= t < 2 ^ 24 ->
  b64_group (b64_digit t 18) (b64_digit t 12) (b64_digit t 6) (b64_digit t 0) =
  Some [t / 65536; t / 256 mod 256; t mod 256].
Proof.
  intros Ht. unfold b64_group. rewrite !b64_digit_classify. rewrite !land_63 by lia.
  change (count_pad _) with 0. cbn [Z.ltb Z.compare app].
  by destruct (b64_bytes t Ht) as (-> & -> & ->).
Qed.

Lemma b64_group_two t :
  0 <= t < 2 ^ 24 ->
  b64_group (b64_digit t 18) (b64_digit t 12) (b64_digit t 6) 61 =
  Some [t / 65536; t / 256 mod 256].
Proof.
  intros Ht. unfold b64_group. rewrite !b64_digit_classify. rewrite !land_63 by lia.
  change (b64_classify 61) with (Some (0, true)). cbv beta iota.
  change (count_pad _) with 1. cbn [Z.ltb Z.compare Pos.compare Pos.compare_cont app].
  by destruct (b64_bytes t Ht) as (-> & -> & _).
Qed.

Lemma b64_group_one t :
  0 <= t < 2 ^ 24 ->
  b64_group (b64_digit t 18) (b64_digit t 12) 61 61 = Some [t / 65536].
Proof.
  intros Ht. unfold b64_group. rewrite !b64_digit_classify. rewrite !land_63 by lia.
  change (b64_classify 61) with (Some (0, true)). cbv beta iota.
  change (count_pad _) with 2. cbn [Z.ltb Z.compare Pos.compare Pos.compare_cont app].
  by destruct (b64_bytes t Ht) as (-> & _).
Qed.

(** Induction over the groups of three bytes the encoder takes. *)
Lemma by_threes (P : bytes -> Prop) :
  P [] -> (forall a, P [a]) -> (forall a b, P [a; b]) ->
  (forall a b c l, P l -> P (a :: b :: c :: l)) -> forall l, P l.
Proof.
  intros H0 H1 H2 H3. enough (forall n l, (length l <= n)%nat -> P l) as H by eauto.
  induction n as [|n IH]; intros l Hl; destruct l as [|a [|b [|c l]]]; simpl in Hl; try lia; auto.
  apply H3, IH. lia.
Qed.

Lemma base64_encode_no_ws l :
  filter (fun b => is_ascii_whitespace b = false) (base64_encode l) = base64_encode l.
Proof.
  assert (Hd : forall t s, is_ascii_whitespace (b64_digit t s) = false)
    by (intros; apply b64_char_not_ws, b64_digit_bounds).
  induction l as [| | |a b c l IH] using by_threes; [done|..];
    cbn [base64_encode app]; rewrite ?filter_cons, ?filter_nil;
    repeat (rewrite decide_True by (apply Hd || done)); try done. by rewrite IH.
Qed.

(** Base64 text read by the decoder of the PEM reader gives back the bytes
    the encoder of the WebSocket handshake was given, whatever their number. *)
Theorem base64_roundtrip (input : bytes) :
  bytes_ok input -> base64_decode (base64_encode input) = Some input.
Proof.
  unfold base64_decode. rewrite base64_encode_no_ws.
  induction input as [|a|a b|a b c l IH] using by_threes; intros Hok; forall_split;
    [done|..]; cbn [base64_encode app b64_groups].
  - rewrite b64_group_one; rewrite b64_triple_sum by (done || unfold is_byte; lia);
      unfold is_byte in *; [|lia]. cbn [app]. do 2 f_equal. Z.div_mod_to_equations; lia.
  - rewrite b64_group_two; rewrite b64_triple_sum by (done || unfold is_byte; lia);
      unfold is_byte in *; [|lia]. cbn [app]. repeat f_equal; Z.div_mod_to_equations; lia.
  - rewrite b64_group_full; rewrite b64_triple_sum by done; [|unfold is_byte in *; lia].
    rewrite IH by done. unfold is_byte in *. cbn [app]. repeat f_equal; Z.div_mod_to_equations; lia.
Qed.

Lemma base64_roundtrip_witness :
  base64_decode (base64_encode [0; 255; 17; 128]) = Some [0; 255; 17; 128].
Proof. apply base64_roundtrip. by vm_compute; repeat constructor; try discriminate. Defined.

Example sha1_abc :
  sha1_digest (lit "abc") =
  [169; 153; 62; 54; 71; 6; 129; 106; 186; 62; 37; 113; 120; 80; 194; 108; 156; 208; 216; 157].
Proof. vm_compute. reflexivity. Qed.

(** The sample handshake of RFC 6455. *)
Example accept_sample :
  websocket_accept_value (lit "dGhlIHNhbXBsZSBub25jZQ==") = lit "s3pPLMBiTxaQ9kYGzzhZRbK+xOo=".
Proof. vm_compute. reflexivity. Qed.

(** ** Frames read back *)

Lemma xor_mask_length key idx p : length (xor_mask key idx p) = length p.
Proof. revert idx. induction p; intros; simpl; auto. Qed.

(** Masking twice with one key is the identity. *)
Lemma xor_mask_involutive key idx p : xor_mask key idx (xor_mask key idx p) = p.
Proof.
  revert idx. induction p as [|b p IH]; intros idx; [done|]. cbn [xor_mask].
  rewrite IH, Z.lxor_assoc, Z.lxor_nilpotent, Z.lxor_0_r. done.
Qed.

(** A connection on which exactly [bs] is still to arrive, without failures. *)
Definition awaits (c : Conn) (bs : bytes) : Prop := quiet (c_in c) = true /\ arriving (c_in c) = bs.

Lemma awaits_read bs rest c :
  awaits c (bs ++ rest) ->
  exists l, read_exact (length bs) c = (Some bs, with_in l c) /\ awaits (with_in l c) rest.
Proof.
  intros [Hq Ha]. destruct (read_exact_app bs rest c Hq Ha) as (l & H & H1 & H2).
  exists l. by repeat split.
Qed.

Lemma header_bits (masked : bool) (n : Z) (m := if masked then 128 else 0) :
  0 <= n < 128 -> Z.land (Z.lor m n) 127 = n /\ negb (Z.land (Z.lor m n) 128 =? 0) = masked.
Proof.
  intros Hn.
  assert (forallb (fun k => let n := Z.of_nat k in
            (Z.land (Z.lor m n) 127 =? n) && eqb (negb (Z.land (Z.lor m n) 128 =? 0)) masked)
            (seq 0 128) = true) as H by (unfold m; destruct masked; vm_compute; reflexivity).
  rewrite forallb_forall in H. specialize (H (Z.to_nat n)). rewrite in_seq in H.
  specialize (H ltac:(lia)). cbv zeta in H. rewrite Z2Nat.id in H by lia.
  apply andb_true_iff in H as [H1 H2]. apply Z.eqb_eq in H1. apply eqb_prop in H2. done.
Qed.

Lemma opcode_bits op : 0 <= op < 16 -> Z.land (Z.lor 128 (Z.land op 15)) 15 = op.
Proof.
  intros H. rewrite Z.land_lor_distr_l, <- Z.land_assoc. change (Z.land 128 15) with 0.
  change (Z.land 15 15) with (Z.ones 4). rewrite Z.lor_0_l, Z.land_ones by lia. by apply Z.mod_small.
Qed.

(** The length field: the second header byte and what follows it. *)
Definition len_field (masked : bool) (len : Z) : Z * bytes :=
  let m := if masked then 128 else 0 in
  if len <=? 125 then (Z.lor m len, [])
  else if len <=? 65535 then (Z.lor m 126, be_bytes 2 len)
  else (Z.lor m 127, be_bytes 8 (wrap_u 64 len)).

Lemma read_len_back masked len rest c :
  0 <= len < 2 ^ 64 -> awaits c ((len_field masked len).2 ++ rest) ->
  exists l, ws_read_len (len_field masked len).1 c = (Some len, with_in l c) /\
    negb (Z.land (len_field masked len).1 128 =? 0) = masked /\ awaits (with_in l c) rest.
Proof.
  intros Hl. unfold len_field, ws_read_len.
  destruct (len <=? 125) eqn:E; [apply Z.leb_le in E|apply Z.leb_gt in E].
  { cbn [fst snd]. destruct (header_bits masked len ltac:(lia)) as [-> ->]. intros Ha. exists (c_in c).
    replace (len =? 126) with false by (symmetry; apply Z.eqb_neq; lia).
    replace (len =? 127) with false by (symmetry; apply Z.eqb_neq; lia). by destruct c. }
  destruct (len <=? 65535) eqn:E1; [apply Z.leb_le in E1|apply Z.leb_gt in E1]; cbn [fst snd].
  - destruct (header_bits masked 126 ltac:(lia)) as [-> ->]. intros Ha.
    destruct (awaits_read _ _ _ Ha) as (l & Hr & Ha'). exists l. rewrite be_bytes_length in Hr.
    cbn [Z.eqb Pos.eqb]. rewrite Hr. cbn [option_map]. rewrite from_be_be_bytes by (simpl; lia). done.
  - destruct (header_bits masked 127 ltac:(lia)) as [-> ->]. intros Ha.
    destruct (awaits_read _ _ _ Ha) as (l & Hr & Ha'). exists l. rewrite be_bytes_length in Hr.
    cbn [Z.eqb Pos.eqb]. rewrite Hr. cbn [option_map]. unfold wrap_u.
    rewrite Z.mod_small, from_be_be_bytes by (try lia; simpl; lia). done.
Qed.

Lemma ws_frame_parts op payload masked :
  ws_frame op payload masked =
  [Z.lor 128 (Z.land op 15); (len_field masked (Z.of_nat (length payload))).1] ++
  (len_field masked (Z.of_nat (length payload))).2 ++
  (if masked then mask_key_const else []) ++
  (if masked then xor_mask mask_key_const 0 payload else payload).
Proof. unfold ws_frame, len_field. repeat case_match; done. Qed.

Lemma read_payload_back alloc_max payload rest c :
  allocates alloc_max (Z.of_nat (length payload)) = true -> awaits c (payload ++ rest) ->
  exists l, ws_read_payload alloc_max (Z.of_nat (length payload)) c = Returns (Some payload, with_in l c) /\
    awaits (with_in l c) rest.
Proof.
  intros Hal Ha. unfold ws_read_payload. rewrite Hal, Nat2Z.id.
  destruct payload as [|b p]; [exists (c_in c); by destruct c|].
  replace (0 <? Z.of_nat (length (b :: p))) with true by (symmetry; apply Z.ltb_lt; simpl; lia).
  destruct (awaits_read _ _ _ Ha) as (l & -> & ?). eauto.
Qed.

Lemma ws_read_frame_back (alloc_max op : Z) (payload rest : bytes) (masked : bool) (c : Conn) :
  0 <= op < 16 -> allocates alloc_max (Z.of_nat (length payload)) = true ->
  awaits c (ws_frame op payload masked ++ rest) ->
  exists l, ws_read_frame alloc_max c = Returns (Some (op, payload), with_in l c) /\
    awaits (with_in l c) rest.
Proof.
  intros Hop Hal. rewrite ws_frame_parts, <- !(assoc_L (++)). intros Ha.
  assert (0 <= Z.of_nat (length payload) < 2 ^ 64) as Hlen.
  { unfold allocates in Hal. apply andb_true_iff in Hal as [_ Hal]. apply Z.ltb_lt in Hal. lia. }
  destruct (awaits_read _ _ _ Ha) as (l1 & Hr1 & Ha1). cbn [length] in Hr1.
  destruct (read_len_back _ _ _ _ Hlen Ha1) as (l2 & Hr2 & Hm & Ha2).
  unfold ws_read_frame. rewrite Hr1. cbv beta iota zeta. rewrite Hr2, Hm, opcode_bits by done.
  rewrite with_in_idemp in Ha2 |- *. unfold ws_read_key. destruct masked.
  - destruct (awaits_read _ _ _ Ha2) as (l3 & Hr3 & Ha3).
    change (length mask_key_const) with 4%nat in Hr3. rewrite Hr3, with_in_idemp in *.
    rewrite <- (xor_mask_length mask_key_const 0) in Hal |- *.
    destruct (read_payload_back _ _ _ _ Hal Ha3) as (l4 & -> & Ha4).
    rewrite with_in_idemp in *. rewrite xor_mask_involutive. eauto.
  - destruct (read_payload_back _ _ _ _ Hal Ha2) as (l4 & -> & Ha4).
    rewrite with_in_idemp in *. eauto.
Qed.

(** The frame reader gives back the opcode and the payload of every frame
    the frame writer produces, masked or not and in each of the three length
    forms, and leaves exactly the bytes after the frame, however the bytes of
    the frame are cut into reads. *)
Theorem ws_frame_roundtrip (alloc_max op : Z) (payload rest : bytes) (masked : bool) (c : Conn) :
  0 <= op < 16 -> allocates alloc_max (Z.of_nat (length payload)) = true ->
  awaits c (ws_frame op payload masked ++ rest) ->
  exists l, ws_read_frame alloc_max c = Returns (Some (op, payload), with_in l c) /\
    awaits (with_in l c) rest.
Proof. apply ws_read_frame_back. Qed.

Lemma ws_frame_roundtrip_witness :
  let c := mkConn [Data [129; 131; 19; 55]; Data [192; 222; 113]; Data [88; 163; 5; 6]] [] [] in
  exists l, ws_read_frame 1000 c = Returns (Some (1, [98; 111; 99]), with_in l c) /\
    awaits (with_in l c) [5; 6].
Proof. apply (ws_frame_roundtrip 1000 1 [98; 111; 99] [5; 6] true); done. Defined.

(** ** The echo session *)

(** Reads never add bytes, and a frame takes at least its header. *)
Definition remaining (c : Conn) : nat := length (arriving (c_in c)).

Lemma read_exact_shrinks n c r c' :
  read_exact n c = (r, c') -> (remaining c' + (if is_some r then n else 0) <= remaining c)%nat.
Proof.
  unfold read_exact, remaining. destruct (read_exact_in n (c_in c)) as [r1 l1] eqn:E.
  intros [= <- <-]. by apply read_exact_in_shrinks in E.
Qed.

Lemma ws_read_len_shrinks b c r c' : ws_read_len b c = (r, c') -> (remaining c' <= remaining c)%nat.
Proof.
  unfold ws_read_len. repeat case_match; intros; simplify_eq; try lia;
    match goal with H : read_exact _ _ = _ |- _ => apply read_exact_shrinks in H; lia end.
Qed.

Lemma ws_read_key_shrinks m c r c' : ws_read_key m c = (r, c') -> (remaining c' <= remaining c)%nat.
Proof.
  unfold ws_read_key. case_match; intros; simplify_eq; try lia.
  match goal with H : read_exact _ _ = _ |- _ => apply read_exact_shrinks in H; lia end.
Qed.

Lemma ws_read_payload_shrinks a n c r c' :
  ws_read_payload a n c = Returns (r, c') -> (remaining c' <= remaining c)%nat.
Proof.
  unfold ws_read_payload. repeat case_match; intros; simplify_eq; try lia.
  match goal with H : read_exact _ _ = _ |- _ => apply read_exact_shrinks in H; lia end.
Qed.

Lemma ws_read_frame_shrinks a c f c' :
  ws_read_frame a c = Returns (Some f, c') -> (remaining c' + 2 <= remaining c)%nat.
Proof.
  unfold ws_read_frame. destruct (read_exact 2 c) as [r c1] eqn:E1.
  apply read_exact_shrinks in E1. intros H. repeat case_match; simplify_eq;
  repeat match goal with
    | H : ws_read_len _ _ = _ |- _ => apply ws_read_len_shrinks in H
    | H : ws_read_key _ _ = _ |- _ => apply ws_read_key_shrinks in H
    | H : ws_read_payload _ _ _ = _ |- _ => apply ws_read_payload_shrinks in H
    end; simpl in *; lia.
Qed.

Lemma ws_read_frame_fuel a c : ws_read_frame a c <> NoFuel.
Proof. unfold ws_read_frame, ws_read_payload. repeat case_match; congruence. Qed.

Lemma ws_echo_step_in op p c r c' : ws_echo_step op p c = (r, c') -> c_in c' = c_in c.
Proof.
  unfold ws_echo_step, ws_write_frame. intros H. repeat case_match; simplify_eq; try done;
    by eapply write_all_in.
Qed.

Lemma ws_echo_loop_total a fuel c : (remaining c < fuel)%nat -> ws_echo_loop a fuel c <> NoFuel.
Proof.
  revert c. induction fuel as [|fuel IH]; intros c Hf; [lia|]. cbn [ws_echo_loop].
  destruct (ws_read_frame a c) as [[[[op p]|] c1]| |] eqn:E; try done.
  - destruct (ws_echo_step op p c1) as [[r|] c2] eqn:E1; [done|]. apply IH.
    apply ws_read_frame_shrinks in E. apply ws_echo_step_in in E1. unfold remaining in *.
    rewrite E1. lia.
  - by apply ws_read_frame_fuel in E.
Qed.

Lemma ws_recv_loop_total a fuel c : (remaining c < fuel)%nat -> ws_recv_loop a fuel c <> NoFuel.
Proof.
  revert c. induction fuel as [|fuel IH]; intros c Hf; [lia|]. cbn [ws_recv_loop].
  destruct (ws_read_frame a c) as [[[[op p]|] c1]| |] eqn:E; try done.
  2: by apply ws_read_frame_fuel in E.
  apply ws_read_frame_shrinks in E. repeat case_match; try done; try (apply IH; lia).
  unfold ws_write_frame in *.
  match goal with H : write_all _ _ = _ |- _ => apply write_all_in in H; rename H into Hw end.
  apply IH. unfold remaining in *. rewrite Hw. lia.
Qed.

(** What the echo server sends for a frame. *)
Definition ws_reply (f : Z * bytes) : bytes :=
  if f.1 =? 1 then ws_frame 1 f.2 false else if f.1 =? 9 then ws_frame 10 f.2 false else [].

(** A message of the conversation: text, ping or pong, whose payload fits. *)
Definition conversational (alloc_max : Z) (f : Z * bytes * bool) : Prop :=
  f.1.1 ∈ [1; 9; 10] /\ allocates alloc_max (Z.of_nat (length f.1.2)) = true.

Definition frames_of (fs : list (Z * bytes * bool)) : bytes :=
  flat_map (fun f => ws_frame f.1.1 f.1.2 f.2) fs.

Lemma ws_echo_step_reply op p c :
  op ∈ [1; 9; 10] -> c_writes c = [] ->
  ws_echo_step op p c = (None, mkConn (c_in c) (c_out c ++ ws_reply (op, p)) []).
Proof.
  intros Hop Hw. destruct c as [l o w]. simpl in Hw. subst w.
  unfold ws_echo_step, ws_reply, ws_write_frame, write_all. cbn [fst snd].
  set_unfold in Hop. destruct Hop as [->|[->|[->|[]]]]; simpl; [done|done|]. by rewrite app_nil_r.
Qed.

Lemma ws_echo_loop_conversation a fuel fs p m rest c :
  Forall (conversational a) fs -> allocates a (Z.of_nat (length p)) = true ->
  c_writes c = [] -> awaits c (frames_of fs ++ ws_frame 8 p m ++ rest) -> (length fs < fuel)%nat ->
  exists l, ws_echo_loop a fuel c =
    Returns (Ok tt, mkConn l (c_out c ++ flat_map (fun f => ws_reply f.1) fs ++ ws_frame 8 p false) []) /\
    awaits (with_in l c) rest.
Proof.
  intros Hfs Hp. revert fuel c. induction Hfs as [|[[op q] k] fs [Hop Hq] Hfs IH];
    intros fuel c Hw Ha Hf; (destruct fuel as [|fuel]; [simpl in Hf; lia|]); cbn [ws_echo_loop].
  - destruct (ws_read_frame_back a 8 p rest m c ltac:(lia) Hp Ha) as (l & -> & Ha'). exists l.
    destruct c as [l0 o w]. simpl in Hw. subst w. by split.
  - simpl in Ha, Hop, Hq. rewrite <- (assoc_L (++)) in Ha.
    assert (0 <= op < 16) as Hr by (set_unfold in Hop; lia).
    destruct (ws_read_frame_back a op q _ k c Hr Hq Ha) as (l & -> & Ha').
    rewrite ws_echo_step_reply by done. cbn [with_in c_in c_out].
    destruct (IH fuel (mkConn l (c_out c ++ ws_reply (op, q)) []) eq_refl Ha' ltac:(simpl in Hf; lia))
      as (l' & -> & Ha''). exists l'. split; [|done]. cbn [c_out flat_map fst].
    by rewrite <- !(assoc_L (++)).
Qed.

Lemma frames_of_length fs : (length fs <= length (frames_of fs))%nat.
Proof.
  unfold frames_of. induction fs as [|f fs IH]; [done|]. cbn [flat_map length]. rewrite length_app.
  rewrite ws_frame_parts. simpl. lia.
Qed.

(** C31: an echo session returns on every connection, failing ones included.
    On one that carries any conversation of text, ping and pong frames (masked
    or not, cut into reads anyhow) and then a close frame, it sends for each
    text frame the same text, for each ping a pong with its payload, nothing
    for a pong, in that order, then the close frame back, and ends without an
    error. *)
Theorem ws_echo_session_correct (alloc_max : Z) :
  (forall c, run_ws_echo_session alloc_max c <> NoFuel) /\
  (forall fs p m rest c,
    Forall (conversational alloc_max) fs -> allocates alloc_max (Z.of_nat (length p)) = true ->
    c_writes c = [] -> awaits c (frames_of fs ++ ws_frame 8 p m ++ rest) ->
    exists l, run_ws_echo_session alloc_max c =
      Returns (Ok tt, mkConn l (c_out c ++ flat_map (fun f => ws_reply f.1) fs ++ ws_frame 8 p false) []) /\
      awaits (with_in l c) rest).
Proof.
  split.
  - intros c. apply ws_echo_loop_total. unfold remaining. lia.
  - intros fs p m rest c Hfs Hp Hw Ha. apply (ws_echo_loop_conversation _ _ _ _ m); try done.
    destruct Ha as [_ ->]. rewrite length_app. pose proof (frames_of_length fs). lia.
Qed.

Lemma ws_echo_session_correct_witness :
  let c := mkConn [Data [129; 2; 104]; Data [105; 136; 0]] [] [] in
  exists l, run_ws_echo_session 1000 c = Returns (Ok tt, mkConn l [129; 2; 104; 105; 136; 0] []) /\
    awaits (with_in l c) [].
Proof.
  apply (proj2 (ws_echo_session_correct 1000) [(1, [104; 105], false)] [] false []); try done.
  repeat constructor; vm_compute; done.
Defined.

(** ** A frame header that takes the server down

    The payload length is a 64-bit number of the peer's choosing, and a buffer
    of that length is allocated before any payload byte is read: ten bytes are
    enough, whatever memory the machine has. *)

(** There is a ten-byte message on which an echo session does not return
    an error: the allocation it asks for fails and the process ends, on every
    machine. *)
Theorem ws_length_aborts (alloc_max : Z) (rest : bytes) :
  run_ws_echo_session alloc_max (mkConn [Data ([129; 127; 255; 255; 255; 255; 255; 255; 255; 255] ++ rest)] [] []) = Aborts.
Proof.
  unfold run_ws_echo_session. cbn [ws_echo_loop].
  set (c := mkConn _ _ _).
  assert (awaits c ([129; 127] ++ repeat 255 8 ++ rest)) as Ha.
  { split; [done|]. unfold c. cbn [c_in arriving]. by rewrite app_nil_r. }
  destruct (awaits_read _ _ _ Ha) as (l1 & Hr1 & Ha1). cbn [length] in Hr1.
  destruct (awaits_read _ _ _ Ha1) as (l2 & Hr2 & Ha2). change (length (repeat 255 8)) with 8%nat in Hr2.
  unfold ws_read_frame, ws_read_len. rewrite Hr1. cbv beta iota zeta.
  change (Z.land 127 127) with 127. cbn [Z.eqb Pos.eqb]. rewrite Hr2. cbn [option_map].
  change (from_be (repeat 255 8)) with (2 ^ 64 - 1). unfold ws_read_key.
  change (negb (Z.land 127 128 =? 0)) with false. cbv beta iota.
  unfold ws_read_payload, allocates. change (2 ^ 64 - 1 <? 2 ^ 63) with false. by rewrite andb_false_r.
Qed.

(** A receive that times out in the middle of a frame loses what it has
    read of it, and the next receive takes the rest of that frame's payload for
    a frame of its own. *)
Theorem ws_timeout_desynchronises :
  let sent := ws_frame 1 [72; 105; 129; 1; 33] false in
  let c := mkConn [Data (take 4 sent); Fault WouldBlock; Data (drop 4 sent)] [] [] in
  (run! (first, c) := ws_recv_frame 1000 c in
   run! (second, c) := ws_recv_frame 1000 c in
   Returns (first, second)) = Returns (Err WebSocketProtocolError, Ok (Some [33])).
Proof. vm_compute. reflexivity. Qed.

(** The client takes a handshake response for good whatever its
    Sec-WebSocket-Accept value is. *)
Theorem ws_accept_unchecked :
  handshake_accepted (websocket_upgrade_text (lit "x")) = Ok tt /\
  websocket_accept_value websocket_client_key <> lit "x".
Proof. split; vm_compute; [reflexivity|discriminate]. Qed.
