(* ===== verification/HttpServer.v ===== *)
(** The HTTP server of the network runtime: runtime/src/net/http_server.rs.

    Requests are read from a connection and parsed, routed to a static response
    or a WebSocket echo session, or handed to the program as a request handle
    that is answered once, at a stroke or as a stream of chunks.  The state is
    the runtime's handle tables; a lock on one of them is never found poisoned,
    because a panic inside the C interface ends the process.  A deadline is the
    number of attempts made before it passes, an [Instant] a number. *)

From S2P Require Import Prelude NetBytes Net WebSocket.

Local Open Scope Z_scope.

(** ** Data *)

(** A connection in the clear or under TLS, by its application bytes. *)
Inductive HttpServerConn :=
| Plain (c : Conn)
| Tls (c : Conn).

Definition conn_of (s : HttpServerConn) : Conn := match s with Plain c | Tls c => c end.
Definition with_conn (s : HttpServerConn) (c : Conn) : HttpServerConn :=
  match s with Plain _ => Plain c | Tls _ => Tls c end.

Record HttpServerRequest := mkRequest {
  rq_method : bytes;
  rq_path : bytes;
  rq_version : bytes;
  rq_headers : Headers;
  rq_body : bytes;
}.

Record HttpServerResponse := mkResponse {
  rs_status : Z;
  rs_headers : list (bytes * bytes);
  rs_body : bytes;
}.

Inductive HttpServerRouteKind :=
| StaticResponse (status : Z) (body : bytes)
| WebSocketEcho.

Record HttpServerRoute := mkRoute {
  rt_method : bytes;
  path_pattern : bytes;
  rt_kind : HttpServerRouteKind;
}.

Inductive HttpServerMiddleware :=
| RequireHeader (name value : bytes) (reject_status : Z) (reject_body : bytes).

Definition HTTP_KEEP_ALIVE_MAX_REQUESTS : Z := 100.
Definition HTTP_KEEP_ALIVE_IDLE_TIMEOUT_MS : Z := 30000.
Definition MAX_PENDING_DYNAMIC_REQUESTS : nat := 64.
Definition HTTP_STREAM_MAX_CHUNK : Z := 65536.
Definition HTTP_SERVER_MODE_UNSET : Z := 0.
Definition HTTP_SERVER_MODE_PULL : Z := 1.
Definition HTTP_SERVER_MODE_ROUTER : Z := 2.

(** ** Reading a request *)

Definition usize_max : Z := 2 ^ 64 - 1.
Definition saturating_add (a b : Z) : Z := Z.min (a + b) usize_max.

Definition parse_http_request_head (header_bytes : bytes) :
    result (bytes * bytes * bytes * Headers) NetErrorCode :=
  match from_utf8 header_bytes with
  | None => Err HttpProtocolError
  | Some header_text =>
      match split CRLF header_text with
      | [] => Err HttpProtocolError
      | request_line :: lines =>
          match split_whitespace request_line with
          | [method; path; version] =>
              if negb (starts_with (lit "/") path) || negb (starts_with (lit "HTTP/1.") version)
              then Err HttpProtocolError
              else let? headers := parse_header_lines lines ∅ in
                   Ok (to_ascii_uppercase method, path, version, headers)
          | _ => Err HttpProtocolError
          end
      end
  end.

Notation Rd A := (result A NetErrorCode * bool * Conn)%type.

(** The loop that reads up to the blank line: its position and the bytes read
    so far.  [saw] is [*saw_application_bytes]. *)
Fixpoint read_head (fuel : nat) (limit : Z) (raw : bytes) (saw : bool) (c : Conn) :
    outcome (Rd (nat * bytes)) :=
  match fuel with
  | O => NoFuel
  | S fuel =>
      let '(r, c) := read 1024 c in
      match r with
      | Err k => Returns (Err (classify_io_error k), saw, c)
      | Ok [] => Returns (Err RemoteClosed, saw, c)
      | Ok bs =>
          let raw := raw ++ bs in
          if limit <? Z.of_nat (length raw) then Returns (Err HttpProtocolError, true, c)
          else match find_sub (CRLF ++ CRLF) raw with
               | Some pos => Returns (Ok (pos, raw), true, c)
               | None => read_head fuel limit raw true c
               end
      end
  end.

Definition chunked_end : bytes := lit "0" ++ CRLF ++ CRLF.

(** A chunked body is read until its end marker is seen or the peer closes. *)
Fixpoint read_chunked (fuel : nat) (limit : Z) (body : bytes) (saw : bool) (c : Conn) :
    outcome (Rd bytes) :=
  match fuel with
  | O => NoFuel
  | S fuel =>
      if contains chunked_end body then Returns (Ok body, saw, c)
      else
        let '(r, c) := read 1024 c in
        match r with
        | Err k => Returns (Err (classify_io_error k), saw, c)
        | Ok [] => Returns (Ok body, saw, c)
        | Ok bs =>
            let body := body ++ bs in
            if limit <? Z.of_nat (length body) then Returns (Err HttpProtocolError, true, c)
            else read_chunked fuel limit body true c
        end
  end.

Fixpoint read_fixed (fuel : nat) (content_length : Z) (body : bytes) (saw : bool) (c : Conn) :
    outcome (Rd bytes) :=
  match fuel with
  | O => NoFuel
  | S fuel =>
      if content_length <=? Z.of_nat (length body)
      then Returns (Ok (take (Z.to_nat content_length) body), saw, c)
      else
        let '(r, c) := read 1024 c in
        match r with
        | Err k => Returns (Err (classify_io_error k), saw, c)
        | Ok [] => Returns (Err HttpProtocolError, saw, c)
        | Ok bs => read_fixed fuel content_length (body ++ bs) true c
        end
  end.

Definition is_chunked (headers : Headers) : bool :=
  header_holds headers (lit "transfer-encoding") (fun v => contains (lit "chunked") (to_ascii_lowercase v)).

Definition content_length_of (headers : Headers) : result Z NetErrorCode :=
  match headers !! lit "content-length" with
  | None => Ok 0
  | Some value =>
      match parse_unsigned 64 10 (trim value) with Some n => Ok n | None => Err HttpProtocolError end
  end.

(** No read loop runs more often than there are bytes to come. *)
Definition read_fuel (c : Conn) : nat := S (S (remaining c)).

Definition read_body (max_body_bytes : Z) (headers : Headers) (body_bytes : bytes) (saw : bool) (c : Conn) :
    outcome (Rd bytes) :=
  if is_chunked headers then
    run! (r, saw, c) :=
      read_chunked (read_fuel c) (saturating_add max_body_bytes 4096) body_bytes saw c in
    match r with
    | Err e => Returns (Err e, saw, c)
    | Ok body_bytes =>
        run! decoded := decode_chunked_body body_bytes in
        Returns (match decoded with
                 | Err e => Err e
                 | Ok d => if max_body_bytes <? Z.of_nat (length d) then Err HttpProtocolError else Ok d
                 end, saw, c)
    end
  else
    match content_length_of headers with
    | Err e => Returns (Err e, saw, c)
    | Ok content_length =>
        if max_body_bytes <? content_length then Returns (Err HttpProtocolError, saw, c)
        else read_fixed (read_fuel c) content_length body_bytes saw c
    end.

Definition read_http_request (max_header_bytes max_body_bytes : Z) (c : Conn) :
    outcome (Rd HttpServerRequest) :=
  let limit := saturating_add (saturating_add max_header_bytes max_body_bytes) 8192 in
  run! (r, saw, c) := read_head (read_fuel c) limit [] false c in
  match r with
  | Err e => Returns (Err e, saw, c)
  | Ok (header_end, raw) =>
      if max_header_bytes <? Z.of_nat header_end then Returns (Err HttpProtocolError, saw, c)
      else match parse_http_request_head (take header_end raw) with
      | Err e => Returns (Err e, saw, c)
      | Ok (method, path, version, headers) =>
          run! (r, saw, c) := read_body max_body_bytes headers (drop (header_end + 4) raw) saw c in
          Returns (match r with
                   | Err e => Err e
                   | Ok body => Ok (mkRequest method path version headers body)
                   end, saw, c)
      end
  end.

(** ** Writing a response *)

Definition http_reason_phrase (status : Z) : bytes :=
  lit (match status with
  | 101 => "Switching Protocols"
  | 200 => "OK"
  | 400 => "Bad Request"
  | 401 => "Unauthorized"
  | 404 => "Not Found"
  | 408 => "Request Timeout"
  | 426 => "Upgrade Required"
  | 500 => "Internal Server Error"
  | 503 => "Service Unavailable"
  | 504 => "Gateway Timeout"
  | _ => "OK"
  end)%string.

Definition has_header (name : bytes) (headers : list (bytes * bytes)) : bool :=
  existsb (fun h => eq_ignore_ascii_case h.1 name) headers.

Definition or_header (name value : bytes) (headers : list (bytes * bytes)) : list (bytes * bytes) :=
  if has_header (to_ascii_lowercase name) headers then headers else headers ++ [(name, value)].

Definition response_headers (response : HttpServerResponse) (keep_alive : bool) : list (bytes * bytes) :=
  or_header (lit "Content-Length") (show_dec (Z.of_nat (length (rs_body response))))
    (or_header (lit "Connection") (if keep_alive then lit "keep-alive" else lit "close")
      (or_header (lit "Content-Type") (lit "text/plain; charset=utf-8") (rs_headers response))).

Definition header_line (h : bytes * bytes) : bytes := h.1 ++ lit ": " ++ h.2 ++ CRLF.

Definition status_line (status : Z) : bytes :=
  lit "HTTP/1.1 " ++ show_signed status ++ lit " " ++ http_reason_phrase status ++ CRLF.

Definition response_head (response : HttpServerResponse) (keep_alive : bool) : bytes :=
  status_line (rs_status response) ++ flat_map header_line (response_headers response keep_alive) ++ CRLF.

(** Writes of several pieces: the first that fails ends the sequence. *)
Fixpoint write_pieces (pieces : list bytes) (c : Conn) : result unit NetErrorCode * Conn :=
  match pieces with
  | [] => (Ok tt, c)
  | p :: pieces =>
      let '(r, c) := write_all p c in
      match r with
      | Ok _ => write_pieces pieces c
      | Err k => (Err (classify_io_error k), c)
      end
  end.

Definition write_http_response (response : HttpServerResponse) (keep_alive : bool) (c : Conn) :
    result unit NetErrorCode * Conn :=
  write_pieces [response_head response keep_alive; rs_body response] c.

Definition gateway_timeout_response : HttpServerResponse := mkResponse 504 [] (lit "gateway timeout").

(** ** Routing *)

Fixpoint trim_start_matches (b : Z) (l : bytes) : bytes :=
  match l with
  | x :: l' => if x =? b then trim_start_matches b l' else l
  | [] => []
  end.

Definition split_path_segments (path : bytes) : list bytes :=
  filter (fun seg => seg <> []) (split (lit "/") (trim_start_matches 47 path)).

Fixpoint match_segments (lhs rhs : list bytes) (params : gmap bytes bytes) : option (gmap bytes bytes) :=
  match lhs, rhs with
  | pat :: lhs, actual :: rhs =>
      match pat with
      | 58 :: name =>
          if bytes_eqb name [] then None else match_segments lhs rhs (<[name := actual]> params)
      | _ => if bytes_eqb pat actual then match_segments lhs rhs params else None
      end
  | _, _ => Some params
  end.

Definition match_route_path (pattern path : bytes) : option (gmap bytes bytes) :=
  let lhs := split_path_segments pattern in
  let rhs := split_path_segments path in
  if negb (length lhs =? length rhs)%nat then None else match_segments lhs rhs ∅.

(** [str::replace] *)
Fixpoint replace_fuel (n : nat) (pat new l : bytes) : bytes :=
  match n with
  | O => l
  | S n => match split_once pat l with
           | Some (a, b) => a ++ new ++ replace_fuel n pat new b
           | None => l
           end
  end.
Definition replace_all (pat new l : bytes) : bytes := replace_fuel (length l) pat new l.

(** The parameters are substituted one after another, in the order in which
    the hash map is iterated, which [order] stands for. *)
Definition render_route_body (order : gmap bytes bytes -> list (bytes * bytes))
    (template : bytes) (params : gmap bytes bytes) : bytes :=
  if bool_decide (params = ∅) then template
  else match from_utf8 template with
       | None => template
       | Some text =>
           foldl (fun text '(key, value) => replace_all (lit "{" ++ key ++ lit "}") value text)
             text (order params)
       end.

Fixpoint apply_middlewares (middlewares : list HttpServerMiddleware) (request : HttpServerRequest) :
    option HttpServerResponse :=
  match middlewares with
  | [] => None
  | RequireHeader name value reject_status reject_body :: middlewares =>
      if bool_decide (rq_headers request !! name = Some value) then apply_middlewares middlewares request
      else Some (mkResponse reject_status [] reject_body)
  end.

Fixpoint find_route (routes : list HttpServerRoute) (method path : bytes) :
    option (HttpServerRoute * gmap bytes bytes) :=
  match routes with
  | [] => None
  | route :: routes =>
      if negb (bytes_eqb (rt_method route) (lit "*")) && negb (eq_ignore_ascii_case (rt_method route) method)
      then find_route routes method path
      else match match_route_path (path_pattern route) path with
           | Some params => Some (route, params)
           | None => find_route routes method path
           end
  end.

(** ** Serving a connection *)

Definition respond_on (response : HttpServerResponse) (s : HttpServerConn) :
    result unit NetErrorCode * HttpServerConn :=
  let '(r, c) := write_http_response response false (conn_of s) in (r, with_conn s c).

Definition text_response (status : Z) (text : string) : HttpServerResponse := mkResponse status [] (lit text).

Definition is_ws_upgrade (request : HttpServerRequest) : bool :=
  eq_ignore_ascii_case (rq_method request) (lit "GET") &&
  header_holds (rq_headers request) (lit "upgrade") (fun v => eq_ignore_ascii_case v (lit "websocket")) &&
  header_holds (rq_headers request) (lit "connection") (fun v => contains (lit "upgrade") (to_ascii_lowercase v)) &&
  header_holds (rq_headers request) (lit "sec-websocket-version") (fun v => bytes_eqb (trim v) (lit "13")).

Section Serving.
Variable alloc_max : Z.
Variable order : gmap bytes bytes -> list (bytes * bytes).

Definition answer_ws_echo_route (request : HttpServerRequest) (s : HttpServerConn) :
    outcome (result unit NetErrorCode * HttpServerConn) :=
  match rq_headers request !! lit "sec-websocket-key" with
  | None => Returns (respond_on (text_response 426 "upgrade required") s)
  | Some client_key =>
      if negb (is_ws_upgrade request) then Returns (respond_on (text_response 426 "upgrade required") s)
      else
        let accept := websocket_accept_value client_key in
        match s with
        | Tls _ => Returns (Err UnsupportedScheme, s)
        | Plain tcp =>
            let '(r, tcp) := write_websocket_upgrade_response accept tcp in
            match r with
            | Err e => Returns (Err e, Plain tcp)
            | Ok _ =>
                run! (r, tcp) := run_ws_echo_session alloc_max tcp in
                Returns (r, Plain tcp)
            end
        end
  end.

(** The answer to a request that was read, before any handle is involved:
    a middleware's rejection or a route's response; [None] if neither applies. *)
Definition answer_route (route : HttpServerRoute) (params : gmap bytes bytes)
    (request : HttpServerRequest) (s : HttpServerConn) :
    outcome (result unit NetErrorCode * HttpServerConn) :=
  match rt_kind route with
  | StaticResponse status body =>
      Returns (respond_on (mkResponse status [] (render_route_body order body params)) s)
  | WebSocketEcho => answer_ws_echo_route request s
  end.

Definition process_http_server_connection (routes : list HttpServerRoute)
    (middlewares : list HttpServerMiddleware) (max_header_bytes max_body_bytes : Z) (s : HttpServerConn) :
    outcome (result unit NetErrorCode * HttpServerConn) :=
  run! (r, _, c) := read_http_request max_header_bytes max_body_bytes (conn_of s) in
  let s := with_conn s c in
  match r with
  | Err _ => Returns (Ok tt, snd (respond_on (text_response 400 "bad request") s))
  | Ok request =>
      match apply_middlewares middlewares request with
      | Some response => Returns (respond_on response s)
      | None =>
          match find_route routes (rq_method request) (rq_path request) with
          | None => Returns (respond_on (text_response 404 "not found") s)
          | Some (route, params) => answer_route route params request s
          end
      end
  end.

Definition client_wants_connection_close (request : HttpServerRequest) : bool :=
  let by_version := negb (starts_with (lit "HTTP/1.1") (to_ascii_uppercase (rq_version request))) in
  match rq_headers request !! lit "connection" with
  | None => by_version
  | Some connection =>
      let parts := map trim (split (lit ",") (to_ascii_lowercase connection)) in
      if existsb (fun p => bytes_eqb p (lit "close")) parts then true
      else if existsb (fun p => bytes_eqb p (lit "keep-alive")) parts then false
      else by_version
  end.

Definition should_keep_alive (keep_alive_enabled client_wants_close : bool) (answered_after : Z)
    (version : bytes) : bool :=
  keep_alive_enabled && negb client_wants_close && (answered_after <? HTTP_KEEP_ALIVE_MAX_REQUESTS) &&
  starts_with (lit "HTTP/1.1") (to_ascii_uppercase version).
End Serving.
