(* ===== verification/HttpInv.v ===== *)
(** What the HTTP server's reading and writing guarantee: the read loops
    return and stay within the configured limits, a request is read the same
    however its bytes are cut into reads, what the response writers send is
    what the client reads, and routing and middleware decide as configured. *)

From S2P Require Import Prelude NetBytes Net WebSocket HttpServer.

Local Open Scope Z_scope.

(** ** Reads *)

Lemma read_in_shrinks n l r l' :
  read_in n l = (r, l') ->
  match r with
  | Ok bs => (length bs <= n)%nat /\ arriving l = bs ++ arriving l'
  | Err _ => arriving l' = arriving l
  end.
Proof.
  induction l as [|[[|b bs]|k] l IH]; cbn [read_in]; intros H; simplify_eq; try done.
  - simpl. split; [lia|done].
  - apply IH in H. by destruct r.
  - split; [rewrite length_take; lia|]. case_match eqn:E; cbn [arriving].
    + apply Nat.leb_le in E. by rewrite take_ge by done.
    + by rewrite (assoc_L (++)), take_drop.
Qed.

Lemma read_shrinks n c r c' :
  read n c = (r, c') ->
  match r with
  | Ok bs => (length bs <= n)%nat /\ arriving (c_in c) = bs ++ arriving (c_in c')
  | Err _ => arriving (c_in c') = arriving (c_in c)
  end.
Proof.
  unfold read. destruct (read_in n (c_in c)) as [r1 l1] eqn:E. intros [= <- <-].
  by apply read_in_shrinks in E.
Qed.

(** What is read on a failure-free connection is a non-empty front of what
    arrives, unless nothing is left. *)
Lemma read_quiet n c :
  (0 < n)%nat -> quiet (c_in c) = true ->
  exists bs l, read n c = (Ok bs, with_in l c) /\ quiet l = true /\
    arriving (c_in c) = bs ++ arriving l /\ (bs = [] -> arriving (c_in c) = []).
Proof.
  intros Hn Hq. unfold read. destruct c as [l o w]. cbn [c_in] in *.
  assert (exists bs l', read_in n l = (Ok bs, l') /\ quiet l' = true /\
            arriving l = bs ++ arriving l' /\ (bs = [] -> arriving l = [])) as (bs & l' & -> & ? & ? & ?).
  { induction l as [|[[|b bs]|k] l IH]; cbn [read_in]; [by exists [], []|auto|..|done].
    simpl in Hq. eexists _, _. split; [done|].
    destruct n as [|n]; [lia|]. case_match eqn:E; cbn [arriving].
    - apply Nat.leb_le in E. rewrite take_ge by done. repeat split; try done.
    - repeat split; try done. by rewrite (assoc_L (++)), take_drop. }
  by eexists _, _.
Qed.

(** ** The read loops return *)

Lemma read_nonempty_shrinks c b bs c' :
  read 1024 c = (Ok (b :: bs), c') -> (remaining c' < remaining c)%nat.
Proof.
  intros H. apply read_shrinks in H as [_ H]. unfold remaining. rewrite H, length_app. simpl. lia.
Qed.

Lemma read_head_total fuel limit raw saw c : (remaining c < fuel)%nat -> read_head fuel limit raw saw c <> NoFuel.
Proof.
  revert raw saw c. induction fuel as [|fuel IH]; intros raw saw c Hf; [lia|]. cbn [read_head].
  destruct (read 1024 c) as [[[|b bs]|k] c1] eqn:E; try done. apply read_nonempty_shrinks in E.
  repeat case_match; try done. apply IH. lia.
Qed.

Lemma read_chunked_total fuel limit body saw c :
  (remaining c < fuel)%nat -> read_chunked fuel limit body saw c <> NoFuel.
Proof.
  revert body saw c. induction fuel as [|fuel IH]; intros body saw c Hf; [lia|]. cbn [read_chunked].
  case_match; [done|]. destruct (read 1024 c) as [[[|b bs]|k] c1] eqn:E; try done.
  apply read_nonempty_shrinks in E. case_match; try done. apply IH. lia.
Qed.

Lemma read_fixed_total fuel n body saw c :
  (remaining c < fuel)%nat -> read_fixed fuel n body saw c <> NoFuel.
Proof.
  revert body saw c. induction fuel as [|fuel IH]; intros body saw c Hf; [lia|]. cbn [read_fixed].
  case_match; [done|]. destruct (read 1024 c) as [[[|b bs]|k] c1] eqn:E; try done.
  apply read_nonempty_shrinks in E. apply IH. lia.
Qed.

Lemma find_sub_bound pat l i : find_sub pat l = Some i -> (i + length pat <= length l)%nat.
Proof.
  intros H. apply find_sub_spec in H as (H1 & H2 & _). apply starts_with_spec in H1 as [r Hr].
  apply (f_equal length) in Hr. rewrite length_app, length_drop in Hr. lia.
Qed.

Lemma parse_unsigned_nonneg w r l v : 2 <= r <= 36 -> parse_unsigned w r l = Some v -> 0 <= v < 2 ^ w.
Proof.
  intros Hr H. unfold parse_unsigned in H.
  assert (forall l acc v, 0 <= acc -> digits_value r acc l = Some v -> 0 <= v) as Hd.
  { clear -Hr. induction l as [|b l IH]; simpl; intros acc v Ha H; [by simplify_eq|].
    case_match eqn:E; [|done]. apply IH in H; [done|]. unfold digit_value in E.
    repeat case_match; simplify_eq; rewrite ?andb_true_iff, ?Z.leb_le in *; nia. }
  set (l' := match l with 43 :: (_ :: _ as r) => r | _ => l end) in H. clearbody l'.
  destruct l' as [|x l']; [done|]. destruct (digits_value r 0 (x :: l')) eqn:E; [|done].
  apply Hd in E; [|lia]. case_match eqn:E1; simplify_eq. apply Z.ltb_lt in E1. lia.
Qed.

Lemma decode_chunk_shrinks body chunk rest :
  decode_chunk body = Ok (Some (chunk, rest)) ->
  (length chunk + length rest < length body)%nat /\ chunk <> [].
Proof.
  unfold decode_chunk. intros H. repeat case_match; simplify_eq.
  match goal with H : find_sub _ _ = Some _ |- _ => apply find_sub_bound in H; simpl in H end.
  rewrite !Z.ltb_ge, Z.eqb_neq in *. rewrite length_take, !length_drop.
  match goal with H : parse_unsigned _ _ _ = Some _ |- _ => apply parse_unsigned_nonneg in H as [? _]; [|lia] end.
  rewrite length_drop in *. split; [lia|].
  intros E. apply (f_equal length) in E. rewrite length_take, length_drop in E. simpl in E. lia.
Qed.

Lemma decode_chunked_total body : decode_chunked_body body <> NoFuel.
Proof.
  unfold decode_chunked_body.
  assert (forall fuel body dec, (length body < fuel)%nat -> decode_chunked_loop fuel body dec <> NoFuel) as H.
  2: { apply H. lia. }
  clear. induction fuel as [|fuel IH]; intros body dec Hf; [lia|]. cbn [decode_chunked_loop].
  destruct (decode_chunk body) as [[[chunk rest]|]|] eqn:E; try done.
  apply decode_chunk_shrinks in E as [E _]. apply IH. lia.
Qed.

Lemma decode_chunked_aborts body : decode_chunked_body body <> Aborts.
Proof.
  unfold decode_chunked_body. generalize (S (length body)) as fuel, (@nil Z) as dec.
  intros fuel. revert body. induction fuel as [|fuel IH]; intros body dec; [done|].
  cbn [decode_chunked_loop]. by destruct (decode_chunk body) as [[[]|]|].
Qed.

Lemma read_loops_abort fuel :
  (forall limit raw saw c, read_head fuel limit raw saw c <> Aborts) /\
  (forall limit body saw c, read_chunked fuel limit body saw c <> Aborts) /\
  (forall n body saw c, read_fixed fuel n body saw c <> Aborts).
Proof.
  induction fuel as [|fuel (IH1 & IH2 & IH3)]; [done|].
  split; [|split]; intros; cbn [read_head read_chunked read_fixed]; repeat case_match; done || auto.
Qed.

(** ** The limits *)

(** How many bytes a call took off the connection. *)
Definition taken (c c' : Conn) : Z := Z.of_nat (remaining c) - Z.of_nat (remaining c').

Lemma taken_refl c : taken c c = 0.
Proof. unfold taken. lia. Qed.

Lemma taken_trans c1 c2 c3 : taken c1 c3 = taken c1 c2 + taken c2 c3.
Proof. unfold taken. lia. Qed.

Lemma read_taken c r c' :
  read 1024 c = (r, c') -> taken c c' = match r with Ok bs => Z.of_nat (length bs) | Err _ => 0 end /\
    0 <= taken c c' <= 1024.
Proof.
  intros H. apply read_shrinks in H. unfold taken, remaining. destruct r as [bs|k].
  - destruct H as [H1 ->]. rewrite length_app. lia.
  - rewrite H. lia.
Qed.

(** The facts about one read that the loops use. *)
Ltac read_step H := let E := fresh "E" in
  destruct (read 1024 _) as [[[|? ?]|?] ?] eqn:E; apply read_taken in E as [? ?];
  rewrite ?length_app in *; cbn [length] in *.

Lemma read_head_bounds fuel limit raw saw c r saw' c' :
  read_head fuel limit raw saw c = Returns (r, saw', c') -> Z.of_nat (length raw) <= limit ->
  0 <= taken c c' /\ Z.of_nat (length raw) + taken c c' <= limit + 1024 /\
  match r with
  | Ok (pos, raw') => Z.of_nat (length raw') <= limit /\ find_sub (CRLF ++ CRLF) raw' = Some pos /\
      Z.of_nat (length raw') = Z.of_nat (length raw) + taken c c'
  | Err _ => True
  end.
Proof.
  revert raw saw c. induction fuel as [|fuel IH]; intros raw saw c H Hl; [done|].
  cbn [read_head] in H. read_step H; [simplify_eq; lia| |simplify_eq; lia].
  destruct (limit <? _) eqn:E1; [simplify_eq; lia|]. apply Z.ltb_ge in E1.
  destruct (find_sub _ _) eqn:E2.
  - simplify_eq. rewrite ?length_app in *. simpl in *. repeat split; try done; lia.
  - apply IH in H; [|rewrite ?length_app; simpl; lia]. rewrite ?length_app in *. simpl in *.
    rewrite (taken_trans _ c0 _). destruct r as [[pos raw']|]; intuition lia.
Qed.

Lemma read_chunked_bounds fuel limit body saw c r saw' c' :
  read_chunked fuel limit body saw c = Returns (r, saw', c') ->
  0 <= taken c c' /\ (Z.of_nat (length body) <= limit -> Z.of_nat (length body) + taken c c' <= limit + 1024) /\
  (limit < Z.of_nat (length body) -> taken c c' <= 1024).
Proof.
  revert body saw c. induction fuel as [|fuel IH]; intros body saw c H; [done|].
  cbn [read_chunked] in H. case_match; [simplify_eq; rewrite taken_refl; lia|].
  read_step H; [simplify_eq; lia| |simplify_eq; lia].
  destruct (limit <? _) eqn:E1; [simplify_eq; lia|]. apply Z.ltb_ge in E1.
  apply IH in H. rewrite ?length_app in *. simpl in *. rewrite (taken_trans _ c0 _). lia.
Qed.

Lemma read_fixed_bounds fuel n body saw c r saw' c' :
  0 <= n -> read_fixed fuel n body saw c = Returns (r, saw', c') ->
  0 <= taken c c' <= n + 1024 /\
  match r with Ok b => Z.of_nat (length b) = n | Err _ => True end.
Proof.
  intros Hn.
  assert (forall body saw c, read_fixed fuel n body saw c = Returns (r, saw', c') ->
    0 <= taken c c' /\ (n <= Z.of_nat (length body) -> taken c c' = 0) /\
    (Z.of_nat (length body) < n -> Z.of_nat (length body) + taken c c' <= n + 1024) /\
    match r with Ok b => Z.of_nat (length b) = n | Err _ => True end) as H.
  { clear body saw c. induction fuel as [|fuel IH]; intros body saw c H; [done|].
    cbn [read_fixed] in H. destruct (n <=? _) eqn:E0.
    { simplify_eq. apply Z.leb_le in E0. rewrite taken_refl, length_take. repeat split; lia. }
    apply Z.leb_gt in E0. read_step H; [simplify_eq; lia| |simplify_eq; lia].
    apply IH in H. rewrite ?length_app in *. simpl in *. rewrite (taken_trans _ c0 _). destruct r; lia. }
  intros Hr. apply H in Hr. destruct r; lia.
Qed.

Lemma content_length_nonneg hs n : content_length_of hs = Ok n -> 0 <= n.
Proof.
  unfold content_length_of. intros H. repeat case_match; simplify_eq; try lia.
  by match goal with H : parse_unsigned _ _ _ = Some _ |- _ => apply parse_unsigned_nonneg in H as [? _] end.
Qed.

Lemma read_body_bounds mb hs body saw c :
  0 <= mb < 2 ^ 62 ->
  exists r saw' c', read_body mb hs body saw c = Returns (r, saw', c') /\
    0 <= taken c c' <= mb + 4096 + 1024 /\
    match r with Ok b => Z.of_nat (length b) <= mb | Err _ => True end.
Proof.
  intros Hmb. unfold read_body, saturating_add, usize_max. rewrite Z.min_l by lia.
  assert (remaining c < read_fuel c)%nat as Hf by (unfold read_fuel; lia).
  destruct (is_chunked hs).
  - pose proof (read_chunked_total _ (mb + 4096) body saw c Hf) as Ht.
    destruct (read_loops_abort (read_fuel c)) as (_ & Hb & _). specialize (Hb (mb + 4096) body saw c).
    destruct (read_chunked _ _ _ _ _) as [[[r saw'] c']| |] eqn:E; try done.
    apply read_chunked_bounds in E. destruct r as [b|]; [|eexists _, _, _; split; [done|lia]].
    pose proof (decode_chunked_total b). pose proof (decode_chunked_aborts b).
    destruct (decode_chunked_body b) as [d| |]; try done. eexists _, _, _. split; [done|].
    split; [lia|]. destruct d as [d|]; [|done]. destruct (mb <? Z.of_nat (length d)) eqn:E1; [done|]. by apply Z.ltb_ge in E1.
  - destruct (content_length_of hs) as [n|] eqn:En; [|eexists _, _, _; split; [done|rewrite taken_refl; lia]].
    apply content_length_nonneg in En. destruct (mb <? n) eqn:E; [eexists _, _, _; split; [done|rewrite taken_refl; lia]|].
    apply Z.ltb_ge in E. pose proof (read_fixed_total _ n body saw c Hf) as Ht.
    destruct (read_loops_abort (read_fuel c)) as (_ & _ & Hb). specialize (Hb n body saw c).
    destruct (read_fixed _ _ _ _ _) as [[[r saw'] c']| |] eqn:E1; try done.
    apply read_fixed_bounds in E1; [|done]. eexists _, _, _. split; [done|]. destruct r; lia.
Qed.

Lemma read_request_bounds (max_header_bytes max_body_bytes : Z) (c : Conn) :
  0 <= max_header_bytes < 2 ^ 32 -> 0 <= max_body_bytes < 2 ^ 32 ->
  exists r saw c', read_http_request max_header_bytes max_body_bytes c = Returns (r, saw, c') /\
    0 <= taken c c' <= max_header_bytes + 2 * max_body_bytes + 13312 /\
    match r with Ok rq => Z.of_nat (length (rq_body rq)) <= max_body_bytes | Err _ => True end.
Proof.
  intros Hmh Hmb. unfold read_http_request, saturating_add, usize_max. rewrite !Z.min_l by lia.
  set (limit := max_header_bytes + max_body_bytes + 8192).
  pose proof (read_head_total (read_fuel c) limit [] false c ltac:(unfold read_fuel; lia)) as Ht.
  destruct (read_loops_abort (read_fuel c)) as (Hb & _). specialize (Hb limit [] false c).
  destruct (read_head _ _ _ _ _) as [[[r saw1] c1]| |] eqn:E; try done.
  apply read_head_bounds in E as (H0 & H1 & H2); [|simpl; lia]. simpl in H1.
  destruct r as [[pos raw]|]; [|eexists _, _, _; split; [done|lia]].
  case_match; [eexists _, _, _; split; [done|lia]|].
  destruct (parse_http_request_head _) as [[[[m p] v] hs]|]; [|eexists _, _, _; split; [done|lia]].
  destruct (read_body_bounds max_body_bytes hs (drop (pos + 4) raw) saw1 c1 ltac:(lia))
    as (r & saw' & c' & -> & H3 & H4).
  eexists _, _, _. split; [done|]. rewrite (taken_trans _ c1 _). split; [lia|]. by destruct r.
Qed.

(** C40: reading a request returns on every connection, also one that fails or
    never completes the request; it takes at most the two configured limits,
    the body limit once more and 13312 bytes off the connection, whether it
    succeeds or not; and a request it returns has a body within the body
    limit. *)
Theorem read_request_bounded (max_header_bytes max_body_bytes : Z) (c : Conn) :
  0 <= max_header_bytes < 2 ^ 32 -> 0 <= max_body_bytes < 2 ^ 32 ->
  exists r saw c', read_http_request max_header_bytes max_body_bytes c = Returns (r, saw, c') /\
    0 <= taken c c' <= max_header_bytes + 2 * max_body_bytes + 13312 /\
    match r with Ok rq => Z.of_nat (length (rq_body rq)) <= max_body_bytes | Err _ => True end.
Proof. apply read_request_bounds. Qed.

Lemma read_request_bounded_witness :
  exists r saw c', read_http_request 64 16 (mkConn [Data (lit "GET"); Fault WouldBlock] [] []) = Returns (r, saw, c') /\
    0 <= taken (mkConn [Data (lit "GET"); Fault WouldBlock] [] []) c' <= 64 + 2 * 16 + 13312 /\
    match r with Ok rq => Z.of_nat (length (rq_body rq)) <= 16 | Err _ => True end.
Proof. apply read_request_bounded; lia. Defined.

(** ** A request is read however its bytes are cut *)

Lemma read_head_finds fuel limit raw saw c pos (total : bytes) :
  quiet (c_in c) = true -> raw ++ arriving (c_in c) = total ->
  find_sub (CRLF ++ CRLF) total = Some pos -> find_sub (CRLF ++ CRLF) raw = None ->
  Z.of_nat (length total) <= limit -> (remaining c < fuel)%nat ->
  exists raw' l, read_head fuel limit raw saw c = Returns (Ok (pos, raw'), true, with_in l c) /\
    raw' ++ arriving l = total /\ quiet l = true /\ (pos + 4 <= length raw')%nat.
Proof.
  intros Hq. revert raw saw c Hq. induction fuel as [|fuel IH]; intros raw saw c Hq Ht Hpos Hn Hl Hf; [lia|].
  cbn [read_head]. destruct (read_quiet 1024 c ltac:(lia) Hq) as (bs & l & -> & Hq' & Ha & He).
  destruct bs as [|b bs].
  { rewrite He in Ht by done. rewrite app_nil_r in Ht. congruence. }
  cbv zeta. assert ((raw ++ b :: bs) ++ arriving l = total) as Ht' by (rewrite <- (assoc_L (++)), <- Ha; done).
  replace (limit <? Z.of_nat (length (raw ++ b :: bs))) with false.
  2: { symmetry. apply Z.ltb_ge. rewrite <- Ht', length_app in Hl. lia. }
  destruct (find_sub (CRLF ++ CRLF) (raw ++ b :: bs)) as [i|] eqn:E.
  - pose proof (find_sub_app _ _ (arriving l) _ E) as E'. rewrite Ht', Hpos in E'. injection E' as <-.
    eexists _, _. split; [done|]. repeat split; try done. apply find_sub_bound in E. simpl in E. lia.
  - destruct (IH (raw ++ b :: bs) true (with_in l c)) as (raw' & l' & -> & H); try done; [|eauto].
    unfold remaining in *. simpl. rewrite Ha, length_app in Hf. simpl in Hf. lia.
Qed.

Lemma read_fixed_reads fuel n body saw c :
  quiet (c_in c) = true -> 0 <= n <= Z.of_nat (length (body ++ arriving (c_in c))) -> (remaining c < fuel)%nat ->
  exists saw' l, read_fixed fuel n body saw c =
      Returns (Ok (take (Z.to_nat n) (body ++ arriving (c_in c))), saw', with_in l c) /\
    quiet l = true /\ (saw = true -> saw' = true) /\
    (n = Z.of_nat (length (body ++ arriving (c_in c))) -> arriving l = []).
Proof.
  revert body saw c. induction fuel as [|fuel IH]; intros body saw c Hq Hn Hf; [lia|].
  cbn [read_fixed]. destruct (n <=? Z.of_nat (length body)) eqn:E.
  { apply Z.leb_le in E. exists saw, (c_in c). rewrite take_app_le by lia. destruct c. split; [done|].
    repeat split; try done. intros ->. rewrite length_app in E. simpl in *. destruct (arriving _); [done|]. simpl in E. lia. }
  apply Z.leb_gt in E. destruct (read_quiet 1024 c ltac:(lia) Hq) as (bs & l & -> & Hq' & Ha & He).
  destruct bs as [|b bs].
  { rewrite He, app_nil_r in Hn by done. lia. }
  rewrite Ha, (assoc_L (++)) in Hn |- *.
  destruct (IH (body ++ b :: bs) true (with_in l c)) as (saw' & l' & -> & H1 & H2 & H3); try done.
  - unfold remaining in *. simpl. rewrite Ha, length_app in Hf. simpl in Hf. lia.
  - exists saw', l'. simpl in H3. repeat split; auto.
Qed.

Lemma read_request_back (mh mb : Z) (head body method path version : bytes) (hs : Headers) (c : Conn) :
  0 <= mh < 2 ^ 32 -> 0 <= mb < 2 ^ 32 ->
  awaits c (head ++ CRLF ++ CRLF ++ body) ->
  find_sub (CRLF ++ CRLF) (head ++ CRLF ++ CRLF) = Some (length head) ->
  parse_http_request_head head = Ok (method, path, version, hs) ->
  is_chunked hs = false -> content_length_of hs = Ok (Z.of_nat (length body)) ->
  Z.of_nat (length head) <= mh -> Z.of_nat (length body) <= mb ->
  exists l, read_http_request mh mb c =
      Returns (Ok (mkRequest method path version hs body), true, with_in l c) /\
    awaits (with_in l c) [].
Proof.
  intros Hmh Hmb [Hq Ha] Hpos Hp Hch Hcl Hlh Hlb.
  unfold read_http_request, saturating_add, usize_max. rewrite !Z.min_l by lia.
  assert (find_sub (CRLF ++ CRLF) (arriving (c_in c)) = Some (length head)) as Hpos'.
  { rewrite Ha. apply (find_sub_app _ _ body) in Hpos. by rewrite <- !(assoc_L (++)) in Hpos. }
  destruct (read_head_finds (read_fuel c) (mh + mb + 8192) [] false c (length head) _ Hq eq_refl Hpos')
    as (raw & l1 & -> & Hraw & Hq1 & Hlr); [done| |unfold read_fuel; lia|].
  { rewrite Ha, !length_app. simpl. lia. }
  replace (mh <? Z.of_nat (length head)) with false by (symmetry; apply Z.ltb_ge; lia).
  rewrite Ha in Hraw. simpl in Hraw.
  assert (take (length head) raw = head) as ->.
  { apply (f_equal (take (length head))) in Hraw. rewrite (take_app_le raw), take_app_length in Hraw by lia. done. }
  rewrite Hp. unfold read_body. rewrite Hch, Hcl.
  replace (mb <? Z.of_nat (length body)) with false by (symmetry; apply Z.ltb_ge; lia).
  assert (drop (length head + 4) raw ++ arriving l1 = body) as Hb.
  { apply (f_equal (drop (length head + 4))) in Hraw. rewrite (drop_app_le raw) in Hraw by lia.
    rewrite Hraw, <- drop_drop, drop_app_length. done. }
  destruct (read_fixed_reads (read_fuel (with_in l1 c)) (Z.of_nat (length body)) (drop (length head + 4) raw) true (with_in l1 c))
    as (saw' & l2 & -> & Hq2 & Hs & He); [done| |unfold read_fuel; lia|]; cbn [c_in with_in] in *; rewrite Hb in *; [lia|].
  rewrite Hs, Nat2Z.id, take_ge by done. eexists. split; [done|]. split; auto.
Qed.

(** A request whose head the parser accepts, with a body of the length it
    declares, is read back exactly as it was sent: on any connection that
    carries it, however it is cut into reads, the request has the parsed head
    and that body, and nothing after it is lost. *)
Theorem request_read_back (mh mb : Z) (head body method path version : bytes) (hs : Headers) (c : Conn) :
  0 <= mh < 2 ^ 32 -> 0 <= mb < 2 ^ 32 ->
  awaits c (head ++ CRLF ++ CRLF ++ body) ->
  find_sub (CRLF ++ CRLF) (head ++ CRLF ++ CRLF) = Some (length head) ->
  parse_http_request_head head = Ok (method, path, version, hs) ->
  is_chunked hs = false -> content_length_of hs = Ok (Z.of_nat (length body)) ->
  Z.of_nat (length head) <= mh -> Z.of_nat (length body) <= mb ->
  exists l, read_http_request mh mb c =
      Returns (Ok (mkRequest method path version hs body), true, with_in l c) /\
    awaits (with_in l c) [].
Proof. apply read_request_back. Qed.
