(* ===== verification/HttpText.v ===== *)
(** Lemmas on the text of HTTP messages: lines, words, header fields and
    numbers, for texts made of printable ASCII. *)

From S2P Require Import Prelude Strs Proto NetBytes Net WebSocket HttpServer HttpInv.

Local Open Scope Z_scope.

(** Printable ASCII without the space; and with it. *)
Definition graphic (b : Z) : Prop := 33 <= b <= 126.
Definition printable (b : Z) : Prop := 32 <= b <= 126.

#[global] Instance graphic_dec b : Decision (graphic b).
Proof. unfold graphic. apply _. Defined.
#[global] Instance printable_dec b : Decision (printable b).
Proof. unfold printable. apply _. Defined.

(** ** Searching past bytes the pattern does not begin with *)

Lemma find_sub_skip p0 pat a b :
  p0 ∉ a -> find_sub (p0 :: pat) (a ++ b) = option_map (Nat.add (length a)) (find_sub (p0 :: pat) b).
Proof.
  induction a as [|x a IH]; intros Hn; [simpl; by destruct (find_sub _ b)|].
  apply not_elem_of_cons in Hn as [Hx Hn]. cbn [app find_sub starts_with].
  replace (p0 =? x) with false by (symmetry; by apply Z.eqb_neq). cbn [andb].
  rewrite (IH Hn). by destruct (find_sub (p0 :: pat) b).
Qed.

Lemma find_sub_here pat b : find_sub pat (pat ++ b) = Some 0%nat.
Proof. pose proof (starts_with_app pat b) as H. destruct (pat ++ b); cbn [find_sub]; by rewrite H. Qed.

Lemma find_sub_at p0 pat a b : p0 ∉ a -> find_sub (p0 :: pat) (a ++ (p0 :: pat) ++ b) = Some (length a).
Proof. intros H. rewrite find_sub_skip, find_sub_here by done. simpl. f_equal. lia. Qed.

Lemma find_sub_absent p0 pat a : p0 ∉ a -> find_sub (p0 :: pat) a = None.
Proof. intros H. rewrite <- (app_nil_r a), find_sub_skip by done. done. Qed.

Lemma split_once_at p0 pat a b : p0 ∉ a -> split_once (p0 :: pat) (a ++ (p0 :: pat) ++ b) = Some (a, b).
Proof.
  intros H. unfold split_once. rewrite find_sub_at by done. rewrite take_app_length.
  by rewrite <- drop_drop, drop_app_length, drop_app_length.
Qed.

(** ** Lines *)

Lemma split_fuel_enough n m p0 pat l :
  (length l <= n)%nat -> (length l <= m)%nat -> split_fuel n (p0 :: pat) l = split_fuel m (p0 :: pat) l.
Proof.
  revert m l. induction n as [|n IH]; intros m l Hn Hm.
  - destruct l; [|simpl in Hn; lia]. by destruct m.
  - destruct m as [|m]; [destruct l; [done|simpl in Hm; lia]|]. cbn [split_fuel].
    destruct (split_once (p0 :: pat) l) as [[a b]|] eqn:E; [|done].
    apply split_once_spec in E as [-> _]. rewrite !length_app in *. simpl in *. f_equal. apply IH; lia.
Qed.

Lemma split_cons p0 pat a b : p0 ∉ a -> split (p0 :: pat) (a ++ (p0 :: pat) ++ b) = a :: split (p0 :: pat) b.
Proof.
  intros H. unfold split. remember (length (a ++ (p0 :: pat) ++ b)) as n eqn:En.
  rewrite !length_app in En. simpl in En.
  destruct n as [|n]; [lia|]. cbn [split_fuel]. rewrite split_once_at by done. f_equal.
  apply split_fuel_enough; lia.
Qed.

Lemma split_single p0 pat a : p0 ∉ a -> split (p0 :: pat) a = [a].
Proof.
  intros H. unfold split. destruct (length a); [done|]. cbn [split_fuel].
  unfold split_once. by rewrite find_sub_absent.
Qed.

(** Lines with a line end between each two. *)
Fixpoint joined (ls : list bytes) : bytes :=
  match ls with
  | [] => []
  | [l] => l
  | l :: ls => l ++ CRLF ++ joined ls
  end.

Definition line_ok (l : bytes) : Prop := l <> [] /\ Forall printable l.

Lemma printable_no_cr l : Forall printable l -> 13 ∉ l.
Proof. intros H Hin. rewrite Forall_forall in H. apply H in Hin. unfold printable in Hin. lia. Qed.

Lemma joined_cons l l2 ls : joined (l :: l2 :: ls) = l ++ CRLF ++ joined (l2 :: ls).
Proof. done. Qed.

Lemma joined_lines l ls : flat_map (fun l => l ++ CRLF) (l :: ls) = joined (l :: ls) ++ CRLF.
Proof.
  revert l. induction ls as [|l2 ls IH]; intros l; [by cbn [flat_map]; rewrite app_nil_r|].
  rewrite joined_cons. cbn [flat_map] in *. rewrite IH. by rewrite <- !(assoc_L (++)).
Qed.

Lemma split_joined l ls : Forall line_ok (l :: ls) -> split CRLF (joined (l :: ls)) = l :: ls.
Proof.
  revert l. induction ls as [|l2 ls IH]; intros l H; apply Forall_cons in H as [[_ Hp] H].
  - apply split_single. by apply printable_no_cr.
  - rewrite joined_cons. unfold CRLF at 1 2. rewrite split_cons by (by apply printable_no_cr).
    f_equal. by apply IH.
Qed.

Lemma line_end_not_blank x t :
  x <> 13 ->
  find_sub [13; 10; 13; 10] (13 :: 10 :: x :: t) = option_map (Nat.add 2) (find_sub [13; 10; 13; 10] (x :: t)).
Proof.
  intros Hx. assert (Hstep : forall a l, find_sub [13; 10; 13; 10] (a :: l) =
    if starts_with [13; 10; 13; 10] (a :: l) then Some 0%nat
    else option_map S (find_sub [13; 10; 13; 10] l)) by done.
  rewrite Hstep.
  assert (starts_with [13; 10; 13; 10] (13 :: 10 :: x :: t) = false) as ->.
  { cbn [starts_with]. rewrite !Z.eqb_refl. cbn [andb].
    by replace (13 =? x) with false by (symmetry; apply Z.eqb_neq; lia). }
  rewrite Hstep. change (starts_with [13; 10; 13; 10] (10 :: x :: t)) with false. cbv beta iota.
  by destruct (find_sub _ (x :: t)).
Qed.

(** The blank line after them is the first one. *)
Lemma blank_line_found l ls rest :
  Forall line_ok (l :: ls) ->
  find_sub (CRLF ++ CRLF) (joined (l :: ls) ++ CRLF ++ CRLF ++ rest) = Some (length (joined (l :: ls))).
Proof.
  revert l. induction ls as [|l2 ls IH]; intros l H; apply Forall_cons in H as [[_ Hp] H];
    apply printable_no_cr in Hp.
  - cbn [joined]. by apply (find_sub_at 13 [10; 13; 10]).
  - rewrite joined_cons, <- !(assoc_L (++)). change (CRLF ++ CRLF) with [13; 10; 13; 10].
    rewrite find_sub_skip by done.
    change (CRLF ++ joined (l2 :: ls) ++ ?r) with (13 :: 10 :: joined (l2 :: ls) ++ r).
    assert (exists x t, joined (l2 :: ls) = x :: t /\ x <> 13) as (x & t & Hx & Hne).
    { apply Forall_cons in H as [[H1 H2] _]. destruct l2 as [|x l2]; [done|]. inversion H2; subst.
      exists x. unfold printable in *. destruct ls; eexists; (split; [reflexivity|lia]). }
    rewrite Hx. cbn [app]. rewrite line_end_not_blank by done. rewrite app_comm_cons, <- Hx.
    change [13; 10; 13; 10] with (CRLF ++ CRLF). rewrite (IH l2) by done. simpl. f_equal.
    rewrite length_app. simpl. lia.
Qed.

(** ** ASCII *)

Lemma utf8_ascii l : Forall (fun b => 0 <= b < 128) l -> from_utf8 l = Some l.
Proof.
  intros H. unfold from_utf8. assert (utf8_valid l = true) as ->; [|done].
  induction H as [|b l Hb Hl IH]; [done|]. cbn [utf8_valid].
  by replace (b <? 128) with true by (symmetry; apply Z.ltb_lt; lia).
Qed.

Lemma joined_ascii ls : Forall (Forall printable) ls -> Forall (fun b => 0 <= b < 128) (joined ls).
Proof.
  assert (forall l, Forall printable l -> Forall (fun b => 0 <= b < 128) l) as Hp.
  { intros l H. eapply Forall_impl; [exact H|]. unfold printable. simpl. intros; lia. }
  induction 1 as [|l ls Hl Hls IH]; [constructor|]. destruct ls as [|l2 ls]; [by apply Hp|].
  rewrite joined_cons. apply Forall_app. split; [by apply Hp|]. apply Forall_app. split; [|done].
  repeat constructor; lia.
Qed.

(** ** White space *)

Notation nats l := (map Z.to_nat l).

Lemma nats_id l : Forall printable l -> map Z.of_nat (nats l) = l.
Proof.
  induction 1 as [|b l Hb Hl IH]; [done|]. simpl. rewrite IH. f_equal. unfold printable in Hb. lia.
Qed.

Lemma strip_ws_graphic b l : (33 <= b <= 126)%nat -> strip_ws (b :: l) = None.
Proof.
  intros Hb. unfold strip_ws.
  rewrite bool_decide_false by (intros H; set_unfold in H; lia). destruct l as [|c l]; [done|].
  rewrite bool_decide_false by lia. destruct l as [|d l]; [done|].
  rewrite !bool_decide_false by lia. done.
Qed.

Lemma strip_ws_rev_graphic b l : (33 <= b <= 126)%nat -> strip_ws_rev (b :: l) = None.
Proof.
  intros Hb. unfold strip_ws_rev.
  rewrite bool_decide_false by (intros H; set_unfold in H; lia). destruct l as [|c l]; [done|].
  rewrite bool_decide_false by (intros [_ H]; set_unfold in H; lia). destruct l as [|d l]; [done|].
  unfold strip_ws. repeat case_match; try done; simplify_eq;
    rewrite ?orb_true_iff, ?bool_decide_eq_true in *; set_unfold; lia.
Qed.

Lemma strip_all_none n f (l : list nat) : f l = None -> strip_all n f l = l.
Proof. intros H. destruct n; [done|]. simpl. by rewrite H. Qed.

(** A field value: printable, neither beginning nor ending with a space. *)
Definition value_ok (v : bytes) : Prop :=
  Forall printable v /\
  match v, reverse v with b :: _, e :: _ => graphic b /\ graphic e | _, _ => False end.

#[global] Instance value_ok_dec v : Decision (value_ok v).
Proof. unfold value_ok. repeat case_match; apply _. Defined.

Lemma value_trim_end v : value_ok v -> trim_end (nats v) = nats v.
Proof.
  intros [Hp H]. destruct v as [|b v]; [done|]. destruct (reverse (b :: v)) as [|e w] eqn:E; [done|].
  destruct H as [_ He]. unfold graphic in He.
  assert (reverse (nats (b :: v)) = Z.to_nat e :: nats w) as Hr.
  { rewrite <- fmap_reverse. change (map Z.to_nat ?l) with (Z.to_nat <$> l). by rewrite E. }
  unfold trim_end. rewrite Hr, strip_all_none by (apply strip_ws_rev_graphic; lia).
  by rewrite <- Hr, reverse_involutive.
Qed.

Lemma value_head v : value_ok v -> strip_ws (nats v) = None.
Proof.
  intros [Hp H]. destruct v as [|b v]; [done|]. case_match; [done|]. destruct H as [Hb _].
  unfold graphic in Hb. apply strip_ws_graphic. lia.
Qed.

Lemma trim_value v : value_ok v -> trim v = v.
Proof.
  intros H. unfold trim, trim_start. rewrite strip_all_none by (by apply value_head).
  rewrite value_trim_end by done. apply nats_id. by destruct H.
Qed.

Lemma trim_space_value v : value_ok v -> trim (32 :: v) = v.
Proof.
  intros H. unfold trim, trim_start. cbn [map length strip_all].
  change (strip_ws (Z.to_nat 32 :: nats v)) with (Some (nats v)). cbv beta iota.
  rewrite strip_all_none by (by apply value_head).
  rewrite value_trim_end by done. apply nats_id. by destruct H.
Qed.

(** ** Words *)

Definition word (w : bytes) : Prop := w <> [] /\ Forall graphic w.

Lemma graphic_printable l : Forall graphic l -> Forall printable l.
Proof. intros H. eapply Forall_impl; [exact H|]. unfold graphic, printable. intros; lia. Qed.

Lemma take_word_word w r :
  Forall graphic w -> (r = [] \/ exists t, r = 32 :: t) -> take_word (nats (w ++ r)) = (nats w, nats r).
Proof.
  intros H Hr. induction H as [|b w Hb Hw IH].
  - destruct Hr as [->|[t ->]]; [done|]. done.
  - unfold graphic in Hb. cbn [app map take_word]. rewrite strip_ws_graphic by lia. cbn [app map] in IH.
    by rewrite IH.
Qed.

Lemma skip_ws_word n w r : word w -> skip_ws n (nats (w ++ r)) = nats (w ++ r).
Proof.
  intros [Hne Hg]. destruct w as [|b w]; [done|]. inversion Hg; subst. unfold graphic in *.
  destruct n; [done|]. cbn [skip_ws app map]. by rewrite strip_ws_graphic by lia.
Qed.

Lemma words_fuel_word n w r :
  word w -> (r = [] \/ exists t, r = 32 :: t) ->
  words_fuel (S n) (nats (w ++ r)) = nats w :: words_fuel n (nats r).
Proof.
  intros Hw Hr. cbn [words_fuel]. rewrite skip_ws_word by done.
  pose proof (take_word_word w r (proj2 Hw) Hr) as Ht.
  destruct (nats (w ++ r)) as [|b l] eqn:E.
  - destruct Hw as [Hne _]. destruct w; done.
  - by rewrite Ht.
Qed.

Lemma words_fuel_space n w r :
  word w -> (r = [] \/ exists t, r = 32 :: t) ->
  words_fuel (S n) (nats (32 :: w ++ r)) = nats w :: words_fuel n (nats r).
Proof.
  intros Hw Hr. rewrite <- (words_fuel_word n w r Hw Hr). cbn [words_fuel].
  assert (skip_ws (length (nats (32 :: w ++ r))) (nats (32 :: w ++ r)) = nats (w ++ r)) as ->.
  { cbn [map length skip_ws]. change (strip_ws (Z.to_nat 32 :: nats (w ++ r))) with (Some (nats (w ++ r))).
    by apply skip_ws_word. }
  by rewrite skip_ws_word.
Qed.

Lemma split_three_words w1 w2 w3 :
  word w1 -> word w2 -> word w3 -> split_whitespace (w1 ++ [32] ++ w2 ++ [32] ++ w3) = [w1; w2; w3].
Proof.
  intros H1 H2 H3. unfold split_whitespace. cbn [app].
  remember (length _) as n eqn:En. rewrite length_app in En. cbn [length] in En. rewrite length_app in En.
  cbn [length] in En. destruct n as [|[|n]]; [lia|lia|].
  rewrite words_fuel_word by eauto. rewrite words_fuel_space by eauto.
  rewrite <- (app_nil_r w3), words_fuel_space by eauto. rewrite app_nil_r.
  assert (words_fuel n (nats []) = []) as -> by (by destruct n).
  cbn [map]. rewrite !nats_id by (apply graphic_printable; apply H1 || apply H2 || apply H3). done.
Qed.

Lemma word_value w : word w -> value_ok w.
Proof.
  intros [Hne Hg]. split; [by apply graphic_printable|].
  assert (Forall graphic (reverse w)) as Hr by (by apply Forall_reverse).
  destruct w as [|b w]; [done|]. destruct (reverse (b :: w)) as [|e l] eqn:E.
  - apply (f_equal length) in E. rewrite length_reverse in E. done.
  - inversion Hg; inversion Hr; subst. done.
Qed.

(** ** Header fields *)

Definition field (h : bytes * bytes) : bytes := h.1 ++ lit ": " ++ h.2.

Definition field_ok (h : bytes * bytes) : Prop := word h.1 /\ 58 ∉ h.1 /\ value_ok h.2.

#[global] Instance word_dec w : Decision (word w).
Proof. unfold word. apply _. Defined.
#[global] Instance field_ok_dec h : Decision (field_ok h).
Proof. unfold field_ok. apply _. Defined.

Lemma field_line_ok h : field_ok h -> line_ok (field h).
Proof.
  intros (Hw & _ & [Hv _]). unfold field, line_ok. destruct h as [n v]. cbn [fst snd] in *. split.
  - destruct n; [by destruct Hw|done].
  - apply Forall_app. split; [apply graphic_printable, Hw|].
    apply Forall_app. split; [|done]. by apply (bool_decide_unpack _); vm_compute.
Qed.

Definition store_fields (hs : list (bytes * bytes)) (m : Headers) : Headers :=
  foldl (fun m h => <[to_ascii_lowercase h.1 := h.2]> m) m hs.

Lemma parse_fields hs m :
  Forall field_ok hs -> parse_header_lines (map field hs) m = Ok (store_fields hs m).
Proof.
  intros H. revert m. induction H as [|[n v] hs (Hw & Hc & Hv) Hhs IH]; intros m; [done|].
  cbn [map parse_header_lines fst snd] in *.
  unfold bytes_eqb. rewrite bool_decide_false.
  2: { unfold field. simpl. destruct n; [by destruct Hw|done]. }
  unfold field. change (lit ": ") with ([58] ++ [32]). rewrite <- (assoc_L (++)).
  change (lit ":") with [58]. cbn [fst snd]. rewrite (split_once_at 58 []) by done.
  rewrite (trim_value n) by (by apply word_value). change ([32] ++ v) with (32 :: v).
  rewrite trim_space_value by done. apply IH.
Qed.
