(* ===== verification/HttpState.v ===== *)
(** The HTTP server's handle tables and C interface:
    runtime/src/net/http_server.rs.

    A server owns a listener and at most one idle keep-alive connection; a
    request handle owns the connection it came on until it is answered; a
    response stream owns it until it is finished.  A connection carries the
    descriptor of its socket.  A connection that is dropped is closed, and the
    state remembers what was written to it, for its peer has received that. *)

From S2P Require Import Prelude NetBytes Net WebSocket HttpServer.

Local Open Scope Z_scope.

(** A socket: its descriptor and the connection over it. *)
Record Socket := mkSocket {
  fd : Z;
  sconn : HttpServerConn;
}.

Definition with_sconn (s : Socket) (c : HttpServerConn) : Socket := mkSocket (fd s) c.

Record LiveHttpConnection := mkLive {
  live_stream : Socket;
  answered_count : Z;
  idle_since : Z;
}.

(** What the coming [accept] calls will return (nothing to accept, once the
    list is exhausted), each connection with its descriptor. *)
Definition Listener : Type := list (result (Z * Conn) ErrorKind).

Record HttpServerState := mkServer {
  listener : Listener;
  routes : list HttpServerRoute;
  middlewares : list HttpServerMiddleware;
  max_header_bytes : Z;
  max_body_bytes : Z;
  serve_mode : Z;
  keep_alive_enabled : bool;
  live_connection : option LiveHttpConnection;
  tls : option (Conn -> result Conn NetErrorCode);
}.

Record HttpRequestEntry := mkEntry {
  e_server : Z;
  e_method : bytes;
  e_path : bytes;
  e_query : bytes;
  e_version : bytes;
  e_headers : Headers;
  e_body : bytes;
  e_stream : Socket;
  e_max_body : Z;
  answered_before : Z;
  client_wants_close : bool;
}.

Inductive HttpStreamBodyMode :=
| Chunked
| Fixed (remaining : Z).

Record HttpResponseStreamEntry := mkStream {
  s_server : Z;
  s_stream : Socket;
  s_mode : HttpStreamBodyMode;
  s_finished : bool;
  s_answered_before : Z;
  s_client_wants_close : bool;
  s_version : bytes;
}.

Record NetRuntime := mkRuntime {
  next_handle : Z;
  http_servers : gmap Z HttpServerState;
  http_requests : gmap Z HttpRequestEntry;
  http_response_streams : gmap Z HttpResponseStreamEntry;
  closed : list Socket;
  last_error : NetErrorCode;
}.

Definition runtime_init : NetRuntime := mkRuntime 1 ∅ ∅ ∅ [] NetOk.

Definition with_servers (m : gmap Z HttpServerState) (st : NetRuntime) : NetRuntime :=
  mkRuntime (next_handle st) m (http_requests st) (http_response_streams st) (closed st) (last_error st).
Definition with_requests (m : gmap Z HttpRequestEntry) (st : NetRuntime) : NetRuntime :=
  mkRuntime (next_handle st) (http_servers st) m (http_response_streams st) (closed st) (last_error st).
Definition with_streams (m : gmap Z HttpResponseStreamEntry) (st : NetRuntime) : NetRuntime :=
  mkRuntime (next_handle st) (http_servers st) (http_requests st) m (closed st) (last_error st).
Definition set_last_error (e : NetErrorCode) (st : NetRuntime) : NetRuntime :=
  mkRuntime (next_handle st) (http_servers st) (http_requests st) (http_response_streams st) (closed st) e.
Definition reset_last_error : NetRuntime -> NetRuntime := set_last_error NetOk.

(** Dropping connections *)
Definition drop_sockets (ss : list Socket) (st : NetRuntime) : NetRuntime :=
  mkRuntime (next_handle st) (http_servers st) (http_requests st) (http_response_streams st)
    (closed st ++ ss) (last_error st).

Definition alloc_handle (st : NetRuntime) : Z * NetRuntime :=
  (next_handle st,
   mkRuntime (wrap_u 64 (next_handle st + 1)) (http_servers st) (http_requests st)
     (http_response_streams st) (closed st) (last_error st)).

Definition fail_handle (e : NetErrorCode) (st : NetRuntime) : Z * NetRuntime := (0, set_last_error e st).
Definition fail_i64 (e : NetErrorCode) (st : NetRuntime) : Z * NetRuntime := (-1, set_last_error e st).
Definition fail_bool (e : NetErrorCode) (st : NetRuntime) : Z * NetRuntime := (0, set_last_error e st).

(** ** Servers *)

Definition with_listener (l : Listener) (s : HttpServerState) : HttpServerState :=
  mkServer l (routes s) (middlewares s) (max_header_bytes s) (max_body_bytes s) (serve_mode s)
    (keep_alive_enabled s) (live_connection s) (tls s).
Definition with_live (o : option LiveHttpConnection) (s : HttpServerState) : HttpServerState :=
  mkServer (listener s) (routes s) (middlewares s) (max_header_bytes s) (max_body_bytes s) (serve_mode s)
    (keep_alive_enabled s) o (tls s).

Definition http_server_store (s : HttpServerState) (st : NetRuntime) : Z * NetRuntime :=
  let '(h, st) := alloc_handle st in (h, with_servers (<[h := s]> (http_servers st)) st).

Definition http_server_with_state {R} (handle : Z) (f : HttpServerState -> R * HttpServerState)
    (st : NetRuntime) : result R NetErrorCode * NetRuntime :=
  match http_servers st !! handle with
  | None => (Err HandleNotFound, st)
  | Some s => let '(r, s') := f s in (Ok r, with_servers (<[handle := s']> (http_servers st)) st)
  end.

Definition live_sockets (o : option LiveHttpConnection) : list Socket :=
  match o with Some l => [live_stream l] | None => [] end.

(** Replacing the idle connection of a server closes the one before. *)
Definition replace_live (handle : Z) (o : option LiveHttpConnection) (st : NetRuntime) :
    result unit NetErrorCode * NetRuntime :=
  match http_servers st !! handle with
  | None => (Err HandleNotFound, st)
  | Some s =>
      (Ok tt, drop_sockets (live_sockets (live_connection s))
                (with_servers (<[handle := with_live o s]> (http_servers st)) st))
  end.

Definition http_server_set_limits (handle mh mb : Z) (st : NetRuntime) :=
  http_server_with_state handle (fun s =>
    (1, mkServer (listener s) (routes s) (middlewares s) mh mb (serve_mode s)
          (keep_alive_enabled s) (live_connection s) (tls s))) st.

Definition http_server_set_keep_alive (handle : Z) (enabled : bool) (st : NetRuntime) :
    result Z NetErrorCode * NetRuntime :=
  let '(r, st) := http_server_with_state handle (fun s =>
    (1, mkServer (listener s) (routes s) (middlewares s) (max_header_bytes s) (max_body_bytes s) (serve_mode s)
          enabled (live_connection s) (tls s))) st in
  (r, if enabled then st else snd (replace_live handle None st)).

Definition http_server_take_live_connection (handle : Z) (st : NetRuntime) :
    result (option LiveHttpConnection) NetErrorCode * NetRuntime :=
  http_server_with_state handle (fun s => (live_connection s, with_live None s)) st.

(** A connection put back to a server that is gone is dropped by the caller. *)
Definition http_server_put_live_connection (handle : Z) (l : LiveHttpConnection) (st : NetRuntime) : NetRuntime :=
  let '(r, st) := replace_live handle (Some l) st in
  match r with Ok _ => st | Err _ => drop_sockets [live_stream l] st end.

Definition http_server_keep_alive_enabled (handle : Z) (st : NetRuntime) : result bool NetErrorCode :=
  match http_servers st !! handle with
  | None => Err HandleNotFound
  | Some s => Ok (keep_alive_enabled s)
  end.

Definition http_server_add_route (handle : Z) (r : HttpServerRoute) (st : NetRuntime) :=
  http_server_with_state handle (fun s =>
    (1, mkServer (listener s) (routes s ++ [r]) (middlewares s) (max_header_bytes s) (max_body_bytes s)
          (serve_mode s) (keep_alive_enabled s) (live_connection s) (tls s))) st.

Definition http_server_add_middleware (handle : Z) (m : HttpServerMiddleware) (st : NetRuntime) :=
  http_server_with_state handle (fun s =>
    (1, mkServer (listener s) (routes s) (middlewares s ++ [m]) (max_header_bytes s) (max_body_bytes s)
          (serve_mode s) (keep_alive_enabled s) (live_connection s) (tls s))) st.

Definition http_server_claim_serve_mode (handle mode : Z) (st : NetRuntime) : result Z NetErrorCode * NetRuntime :=
  let '(r, st) := http_server_with_state handle (fun s =>
    if serve_mode s =? HTTP_SERVER_MODE_UNSET then
      (1, mkServer (listener s) (routes s) (middlewares s) (max_header_bytes s) (max_body_bytes s)
            mode (keep_alive_enabled s) (live_connection s) (tls s))
    else if serve_mode s =? mode then (1, s) else (0, s)) st in
  (match r with
   | Ok ok => if ok =? 1 then Ok 1 else Err InvalidArgument
   | Err e => Err e
   end, st).

(** One [accept] on the server's listener. *)
Definition accept (handle : Z) (st : NetRuntime) : result (Z * Conn) ErrorKind * NetRuntime :=
  match http_servers st !! handle with
  | None => (Err WouldBlock, st)
  | Some s =>
      match listener s with
      | [] => (Err WouldBlock, st)
      | a :: l => (a, with_servers (<[handle := with_listener l s]> (http_servers st)) st)
      end
  end.

Definition try_accept_nonblocking (handle : Z) (st : NetRuntime) :
    result (option (Z * Conn)) NetErrorCode * NetRuntime :=
  let '(r, st) := accept handle st in
  (match r with
   | Ok c => Ok (Some c)
   | Err WouldBlock => Ok None
   | Err k => Err (classify_io_error k)
   end, st).

(** [attempts] polls find nothing before the deadline passes. *)
Fixpoint accept_with_timeout (attempts : nat) (handle : Z) (st : NetRuntime) :
    result (option (Z * Conn)) NetErrorCode * NetRuntime :=
  let '(r, st) := accept handle st in
  match r with
  | Ok c => (Ok (Some c), st)
  | Err WouldBlock =>
      match attempts with O => (Ok None, st) | S n => accept_with_timeout n handle st end
  | Err k => (Err (classify_io_error k), st)
  end.

(** The TLS handshake of an accepted connection, when the server has an
    acceptor.  A connection that fails it is dropped. *)
Definition http_server_wrap_conn (handle : Z) (a : Z * Conn) (st : NetRuntime) :
    result Socket NetErrorCode * NetRuntime :=
  let failed e := (Err e, drop_sockets [mkSocket a.1 (Plain a.2)] st) in
  match http_servers st !! handle with
  | None => failed HandleNotFound
  | Some s =>
      match tls s with
      | None => (Ok (mkSocket a.1 (Plain a.2)), st)
      | Some acc => match acc a.2 with Ok c => (Ok (mkSocket a.1 (Tls c)), st) | Err e => failed e end
      end
  end.

(** ** Requests and streams *)

Definition http_request_store (e : HttpRequestEntry) (st : NetRuntime) : Z * NetRuntime :=
  let '(h, st) := alloc_handle st in (h, with_requests (<[h := e]> (http_requests st)) st).

Definition of_server (h : Z) (p : Z * HttpRequestEntry) : Prop := e_server p.2 = h.
Definition stream_of_server (h : Z) (p : Z * HttpResponseStreamEntry) : Prop := s_server p.2 = h.

#[global] Instance of_server_dec h p : Decision (of_server h p).
Proof. unfold of_server. apply _. Defined.
#[global] Instance stream_of_server_dec h p : Decision (stream_of_server h p).
Proof. unfold stream_of_server. apply _. Defined.

Definition http_request_pending_count (server : Z) (st : NetRuntime) : nat :=
  size (filter (of_server server) (http_requests st)).

Definition http_request_take (handle : Z) (st : NetRuntime) : result HttpRequestEntry NetErrorCode * NetRuntime :=
  match http_requests st !! handle with
  | None => (Err HandleNotFound, st)
  | Some e => (Ok e, with_requests (delete handle (http_requests st)) st)
  end.

Definition http_request_drain_for_server (server : Z) (st : NetRuntime) : list HttpRequestEntry * NetRuntime :=
  (snd <$> map_to_list (filter (of_server server) (http_requests st)),
   with_requests (filter (fun p => ~ of_server server p) (http_requests st)) st).

Definition http_response_stream_store (e : HttpResponseStreamEntry) (st : NetRuntime) : Z * NetRuntime :=
  let '(h, st) := alloc_handle st in (h, with_streams (<[h := e]> (http_response_streams st)) st).

Definition http_response_stream_take (handle : Z) (st : NetRuntime) :
    result HttpResponseStreamEntry NetErrorCode * NetRuntime :=
  match http_response_streams st !! handle with
  | None => (Err HandleNotFound, st)
  | Some e => (Ok e, with_streams (delete handle (http_response_streams st)) st)
  end.

Definition http_response_stream_drain_for_server (server : Z) (st : NetRuntime) :
    list HttpResponseStreamEntry * NetRuntime :=
  (snd <$> map_to_list (filter (stream_of_server server) (http_response_streams st)),
   with_streams (filter (fun p => ~ stream_of_server server p) (http_response_streams st)) st).

(** A response written to a socket *)
Definition socket_respond (r : HttpServerResponse) (keep_alive : bool) (s : Socket) :
    result unit NetErrorCode * Socket :=
  let '(res, c) := write_http_response r keep_alive (conn_of (sconn s)) in
  (res, with_sconn s (with_conn (sconn s) c)).

(** The connections a listener still holds are closed with it. *)
Definition listener_sockets (l : Listener) : list Socket :=
  flat_map (fun a => match a with Ok (n, c) => [mkSocket n (Plain c)] | Err _ => [] end) l.

Definition http_server_close (handle : Z) (st : NetRuntime) : result Z NetErrorCode * NetRuntime :=
  match http_servers st !! handle with
  | None => (Err HandleNotFound, st)
  | Some s =>
      let st := drop_sockets (listener_sockets (listener s) ++ live_sockets (live_connection s))
                  (with_servers (delete handle (http_servers st)) st) in
      let '(entries, st) := http_request_drain_for_server handle st in
      let st := drop_sockets ((fun e => snd (socket_respond gateway_timeout_response false (e_stream e))) <$> entries) st in
      let '(streams, st) := http_response_stream_drain_for_server handle st in
      (Ok 1, drop_sockets (s_stream <$> streams) st)
  end.

(** ** Pulling a request *)

Inductive DynamicRequestPoll :=
| Ready (handle : Z)
| NotReady
| Idle (l : LiveHttpConnection).

Section Pulling.
Variable alloc_max : Z.
Variable order : gmap bytes bytes -> list (bytes * bytes).

(** A response to the peer before the connection is dropped. *)
Definition respond_and_drop (r : HttpServerResponse) (s : Socket) (st : NetRuntime) : NetRuntime :=
  drop_sockets [snd (socket_respond r false s)] st.

Definition process_dynamic_request_stream (server : Z) (sock : Socket) (rts : list HttpServerRoute)
    (mws : list HttpServerMiddleware) (mh mb io_timeout answered : Z) (idle : option Z)
    (preserve_empty_timeout : bool) (now : Z) (st : NetRuntime) :
    outcome (result DynamicRequestPoll NetErrorCode * NetRuntime) :=
  if io_timeout =? 0 then Returns (Err IoError, drop_sockets [sock] st)
  else
  run! (r, saw, c) := read_http_request mh mb (conn_of (sconn sock)) in
  let sock := with_sconn sock (with_conn (sconn sock) c) in
  match r with
  | Err Timeout =>
      if (0 <? answered) && preserve_empty_timeout && negb saw then
        Returns (Ok (Idle (mkLive sock answered (default now idle))), st)
      else if 0 <? answered then Returns (Err Timeout, drop_sockets [sock] st)
      else Returns (Ok NotReady, respond_and_drop (text_response 400 "bad request") sock st)
  | Err _ => Returns (Ok NotReady, respond_and_drop (text_response 400 "bad request") sock st)
  | Ok request =>
      let wants_close := client_wants_connection_close request in
      match apply_middlewares mws request with
      | Some response => Returns (Ok NotReady, respond_and_drop response sock st)
      | None =>
          match find_route rts (rq_method request) (rq_path request) with
          | Some (route, params) =>
              run! (_, sc) := answer_route alloc_max order route params request (sconn sock) in
              Returns (Ok NotReady, drop_sockets [with_sconn sock sc] st)
          | None =>
              if (MAX_PENDING_DYNAMIC_REQUESTS <=? http_request_pending_count server st)%nat then
                Returns (Ok NotReady, respond_and_drop (text_response 503 "service unavailable") sock st)
              else
                let '(path, query) := match split_once (lit "?") (rq_path request) with
                                      | Some (p, q) => (p, q)
                                      | None => (rq_path request, [])
                                      end in
                let '(h, st) := http_request_store
                  (mkEntry server (rq_method request) path query (rq_version request) (rq_headers request)
                     (rq_body request) sock mb answered wants_close) st in
                Returns (Ok (Ready h), st)
          end
      end
  end.

(** The routes and limits are those of the snapshot [s]. *)
Definition poll_next_dynamic_request_once (server : Z) (s : HttpServerState) (io_timeout now : Z) (st : NetRuntime) :
    outcome (result DynamicRequestPoll NetErrorCode * NetRuntime) :=
  let accept_fresh st :=
    let '(a, st) := try_accept_nonblocking server st in
    match a with
    | Err e => Returns (Err e, st)
    | Ok None => Returns (Ok NotReady, st)
    | Ok (Some a) =>
        let '(sock, st) := http_server_wrap_conn server a st in
        match sock with
        | Err e => Returns (Err e, st)
        | Ok sock =>
            process_dynamic_request_stream server sock (routes s) (middlewares s)
              (max_header_bytes s) (max_body_bytes s) io_timeout 0 None false now st
        end
    end in
  let '(live, st) := http_server_take_live_connection server st in
  match live with
  | Err e => Returns (Err e, st)
  | Ok None => accept_fresh st
  | Ok (Some live) =>
      run! (r, st) := process_dynamic_request_stream server (live_stream live) (routes s) (middlewares s)
        (max_header_bytes s) (max_body_bytes s) (Z.min HTTP_KEEP_ALIVE_IDLE_TIMEOUT_MS io_timeout)
        (answered_count live) (Some (idle_since live)) false now st in
      match r with
      | Ok (Ready h) => Returns (Ok (Ready h), st)
      | Ok NotReady => accept_fresh st
      | Ok (Idle l) => accept_fresh (http_server_put_live_connection server l st)
      | Err Timeout => accept_fresh st
      | Err e => Returns (Err e, st)
      end
  end.

Definition connect_timeout (timeout_ms : Z) : Z := if timeout_ms =? 0 then 5000 else timeout_ms.

(** [attempts] rounds of the loop before the deadline. *)
Fixpoint next_request_loop (attempts : nat) (server : Z) (s : HttpServerState) (io_timeout now : Z) (st : NetRuntime) :
    outcome (Z * NetRuntime) :=
  match attempts with
  | O => Returns (0, set_last_error Timeout st)
  | S n =>
      run! (r, st) := poll_next_dynamic_request_once server s io_timeout now st in
      match r with
      | Ok (Ready h) => Returns (h, st)
      | Ok NotReady => next_request_loop n server s io_timeout now st
      | Ok (Idle l) => next_request_loop n server s io_timeout now (http_server_put_live_connection server l st)
      | Err e => Returns (fail_handle e st)
      end
  end.

Definition http_server_next_request_impl (attempts : nat) (handle timeout_ms now : Z) (st : NetRuntime) :
    outcome (Z * NetRuntime) :=
  match http_servers st !! handle with
  | None => Returns (fail_handle HandleNotFound st)
  | Some s => next_request_loop attempts handle s (connect_timeout timeout_ms) now st
  end.

(** ** The C interface: servers *)

Definition read_c_buffer (ptr : option bytes) (len : nat) : result bytes NetErrorCode :=
  match len, ptr with
  | O, _ => Ok []
  | _, None => Err InvalidArgument
  | _, Some bs => Ok (take len bs)
  end.

Definition sengoo_http_server_bind (host : option bytes) (bound : bytes -> result Listener ErrorKind)
    (st : NetRuntime) : Z * NetRuntime :=
  let st := reset_last_error st in
  match match host with None => Ok (lit "127.0.0.1") | Some _ => parse_host host end with
  | Err e => fail_handle e st
  | Ok h =>
      match bound h with
      | Err k => fail_handle (classify_io_error k) st
      | Ok l => http_server_store (mkServer l [] [] (16 * 1024) (1024 * 1024) HTTP_SERVER_MODE_UNSET false None None) st
      end
  end.

Definition bool_result (r : result Z NetErrorCode * NetRuntime) : Z * NetRuntime :=
  match r with (Ok v, st) => (v, st) | (Err e, st) => fail_bool e st end.

Definition sengoo_http_server_set_limits (handle mh mb : Z) (st : NetRuntime) : Z * NetRuntime :=
  let st := reset_last_error st in
  if (mh =? 0) || (mb =? 0) then fail_bool InvalidArgument st
  else bool_result (http_server_set_limits handle mh mb st).

Definition sengoo_http_server_set_keep_alive (handle enabled : Z) (st : NetRuntime) : Z * NetRuntime :=
  bool_result (http_server_set_keep_alive handle (negb (enabled =? 0)) (reset_last_error st)).

Definition status_ok (status : Z) : bool := (100 <=? status) && (status <=? 599).

Definition sengoo_http_server_add_route (handle : Z) (method pattern : option bytes) (status : Z)
    (body : option bytes) (body_len : nat) (st : NetRuntime) : Z * NetRuntime :=
  let st := reset_last_error st in
  if negb (status_ok status) then fail_bool InvalidArgument st
  else match parse_host method with
  | Err e => fail_bool e st
  | Ok method =>
      match parse_host pattern with
      | Err e => fail_bool e st
      | Ok pattern =>
          if negb (starts_with (lit "/") pattern) then fail_bool InvalidArgument st
          else match read_c_buffer body body_len with
          | Err e => fail_bool e st
          | Ok body =>
              bool_result (http_server_add_route handle
                (mkRoute (to_ascii_uppercase method) pattern (StaticResponse status body)) st)
          end
      end
  end.

Definition sengoo_http_server_add_ws_echo_route (handle : Z) (pattern : option bytes) (st : NetRuntime) : Z * NetRuntime :=
  let st := reset_last_error st in
  match parse_host pattern with
  | Err e => fail_bool e st
  | Ok pattern =>
      if negb (starts_with (lit "/") pattern) then fail_bool InvalidArgument st
      else bool_result (http_server_add_route handle (mkRoute (lit "GET") pattern WebSocketEcho) st)
  end.

Definition sengoo_http_server_add_middleware_require_header (handle : Z) (name expected : option bytes)
    (reject_status : Z) (reject_body : option bytes) (reject_len : nat) (st : NetRuntime) : Z * NetRuntime :=
  let st := reset_last_error st in
  if negb (status_ok reject_status) then fail_bool InvalidArgument st
  else match parse_host name with
  | Err e => fail_bool e st
  | Ok name =>
      if bytes_eqb (trim name) [] then fail_bool InvalidArgument st
      else match parse_host expected with
      | Err e => fail_bool e st
      | Ok value =>
          match read_c_buffer reject_body reject_len with
          | Err e => fail_bool e st
          | Ok body =>
              bool_result (http_server_add_middleware handle
                (RequireHeader (to_ascii_lowercase name) value reject_status body) st)
          end
      end
  end.

Definition sengoo_http_server_serve_once (attempts : nat) (handle timeout_ms : Z) (st : NetRuntime) :
    outcome (Z * NetRuntime) :=
  let st := reset_last_error st in
  match http_servers st !! handle with
  | None => Returns (fail_i64 HandleNotFound st)
  | Some s =>
      let '(a, st) := accept_with_timeout attempts handle st in
      match a with
      | Err e => Returns (fail_i64 e st)
      | Ok None => Returns (0, set_last_error Timeout st)
      | Ok (Some a) =>
          let '(sock, st) := http_server_wrap_conn handle a st in
          match sock with
          | Err e => Returns (fail_i64 e st)
          | Ok sock =>
              run! (r, sc) := process_http_server_connection alloc_max order (routes s) (middlewares s)
                (max_header_bytes s) (max_body_bytes s) (sconn sock) in
              let st := drop_sockets [with_sconn sock sc] st in
              Returns (match r with Ok _ => (1, st) | Err e => fail_i64 e st end)
          end
      end
  end.

Definition sengoo_http_server_close (handle : Z) (st : NetRuntime) : Z * NetRuntime :=
  match http_server_close handle (reset_last_error st) with
  | (Ok v, st) => (v, st)
  | (Err HandleNotFound, st) => (1, st)
  | (Err e, st) => fail_bool e st
  end.

Definition sengoo_http_server_claim_serve_mode (handle mode : Z) (st : NetRuntime) : Z * NetRuntime :=
  let st := reset_last_error st in
  if negb (mode =? HTTP_SERVER_MODE_PULL) && negb (mode =? HTTP_SERVER_MODE_ROUTER)
  then fail_bool InvalidArgument st
  else bool_result (http_server_claim_serve_mode handle mode st).

Definition sengoo_http_server_next_request (attempts : nat) (handle timeout_ms now : Z) (st : NetRuntime) :
    outcome (Z * NetRuntime) :=
  let '(r, st) := http_server_claim_serve_mode handle HTTP_SERVER_MODE_PULL (reset_last_error st) in
  match r with
  | Err e => Returns (fail_handle e st)
  | Ok _ => http_server_next_request_impl attempts handle timeout_ms now st
  end.

Definition sengoo_http_server_next_request_router (attempts : nat) (handle timeout_ms now : Z) (st : NetRuntime) :
    outcome (Z * NetRuntime) :=
  http_server_next_request_impl attempts handle timeout_ms now (reset_last_error st).
End Pulling.

(** ** The C interface: requests *)

Definition http_request_with_entry {R} (handle : Z) (f : HttpRequestEntry -> R) (st : NetRuntime) :
    result R NetErrorCode :=
  match http_requests st !! handle with None => Err HandleNotFound | Some e => Ok (f e) end.

Definition request_text_len (handle : Z) (read : HttpRequestEntry -> bytes) (st : NetRuntime) : Z * NetRuntime :=
  let st := reset_last_error st in
  match http_request_with_entry handle (fun e => Z.of_nat (length (read e))) st with
  | Ok n => (n, st)
  | Err e => fail_i64 e st
  end.

Definition request_text_copy (handle : Z) (buffer : option bytes) (capacity : nat)
    (read : HttpRequestEntry -> bytes) (st : NetRuntime) : Z * option bytes * NetRuntime :=
  let st := reset_last_error st in
  match http_request_with_entry handle (fun e => copy_bytes_to_buffer (read e) buffer capacity) st with
  | Ok (n, buffer) => (n, buffer, st)
  | Err e => let '(n, st) := fail_i64 e st in (n, buffer, st)
  end.

Definition sengoo_http_request_method_len handle := request_text_len handle e_method.
Definition sengoo_http_request_method_copy handle buffer capacity := request_text_copy handle buffer capacity e_method.
Definition sengoo_http_request_path_len handle := request_text_len handle e_path.
Definition sengoo_http_request_path_copy handle buffer capacity := request_text_copy handle buffer capacity e_path.
Definition sengoo_http_request_query_len handle := request_text_len handle e_query.
Definition sengoo_http_request_query_copy handle buffer capacity := request_text_copy handle buffer capacity e_query.
Definition sengoo_http_request_version_len handle := request_text_len handle e_version.
Definition sengoo_http_request_version_copy handle buffer capacity := request_text_copy handle buffer capacity e_version.
Definition sengoo_http_request_body_len handle := request_text_len handle e_body.
Definition sengoo_http_request_body_copy handle buffer capacity := request_text_copy handle buffer capacity e_body.

Definition sengoo_http_request_header_len (handle : Z) (name : option bytes) (st : NetRuntime) : Z * NetRuntime :=
  let st := reset_last_error st in
  match parse_host name with
  | Err e => fail_i64 e st
  | Ok name =>
      match http_request_with_entry handle (fun e => e_headers e !! to_ascii_lowercase name) st with
      | Ok (Some v) => (Z.of_nat (length v), st)
      | Ok None => (-1, st)
      | Err e => fail_i64 e st
      end
  end.

Definition sengoo_http_request_header_copy (handle : Z) (name buffer : option bytes) (capacity : nat)
    (st : NetRuntime) : Z * option bytes * NetRuntime :=
  let st := reset_last_error st in
  let failed e := let '(n, st) := fail_i64 e st in (n, buffer, st) in
  match parse_host name with
  | Err e => failed e
  | Ok name =>
      match http_request_with_entry handle (fun e => e_headers e !! to_ascii_lowercase name) st with
      | Ok (Some v) => let '(n, buffer) := copy_bytes_to_buffer v buffer capacity in (n, buffer, st)
      | Ok None => (-1, buffer, st)
      | Err e => failed e
      end
  end.

(** u32 [saturating_add] *)
Definition answered_next (answered : Z) : Z := Z.min (answered + 1) (2 ^ 32 - 1).

Definition keep_alive_for (server : Z) (wants_close : bool) (answered : Z) (version : bytes) (st : NetRuntime) : bool :=
  should_keep_alive (match http_server_keep_alive_enabled server st with Ok b => b | Err _ => false end)
    wants_close (answered_next answered) version.

Definition respond_impl (handle status : Z) (content_type : option bytes) (body : option bytes) (body_len : nat)
    (now : Z) (st : NetRuntime) : Z * NetRuntime :=
  if negb (status_ok status) then fail_bool InvalidArgument st
  else match read_c_buffer body body_len with
  | Err e => fail_bool e st
  | Ok body =>
      match http_request_with_entry handle e_max_body st with
      | Err e => fail_bool e st
      | Ok max_body =>
          if max_body <? Z.of_nat (length body) then fail_bool InvalidArgument st
          else
          let '(entry, st) := http_request_take handle st in
          match entry with
          | Err e => fail_bool e st
          | Ok e =>
              let headers := match content_type with Some ct => [(lit "Content-Type", ct)] | None => [] end in
              let keep_alive := keep_alive_for (e_server e) (client_wants_close e) (answered_before e) (e_version e) st in
              let '(r, sock) := socket_respond (mkResponse status headers body) keep_alive (e_stream e) in
              match r with
              | Ok _ =>
                  (1, if keep_alive
                      then http_server_put_live_connection (e_server e)
                             (mkLive sock (answered_next (answered_before e)) now) st
                      else drop_sockets [sock] st)
              | Err err => fail_bool err (drop_sockets [sock] st)
              end
          end
      end
  end.

Definition sengoo_http_request_respond (handle status : Z) (body : option bytes) (body_len : nat)
    (now : Z) (st : NetRuntime) : Z * NetRuntime :=
  respond_impl handle status None body body_len now (reset_last_error st).

Definition sengoo_http_request_respond_with_content_type (handle status : Z) (content_type body : option bytes)
    (body_len : nat) (now : Z) (st : NetRuntime) : Z * NetRuntime :=
  let st := reset_last_error st in
  match parse_host content_type with
  | Err e => fail_bool e st
  | Ok v =>
      if bytes_eqb (trim v) [] then fail_bool InvalidArgument st
      else respond_impl handle status (Some v) body body_len now st
  end.

Definition sengoo_http_request_is_pending (handle : Z) (st : NetRuntime) : Z * NetRuntime :=
  (if is_some (http_requests st !! handle) then 1 else 0, reset_last_error st).

Definition sengoo_http_request_close (handle : Z) (st : NetRuntime) : Z * NetRuntime :=
  let '(r, st) := http_request_take handle (reset_last_error st) in
  match r with
  | Ok e => (1, respond_and_drop gateway_timeout_response (e_stream e) st)
  | Err HandleNotFound => (1, st)
  | Err e => fail_bool e st
  end.

(** ** The C interface: streamed responses *)

Definition stream_head (status : Z) (content_length : option Z) (keep_alive : bool) : bytes :=
  lit "HTTP/1.1 " ++ show_signed status ++ lit " " ++ http_reason_phrase status ++ CRLF ++
  lit "Content-Type: text/plain; charset=utf-8" ++ CRLF ++
  lit "Connection: " ++ (if keep_alive then lit "keep-alive" else lit "close") ++ CRLF ++
  (match content_length with
   | Some len => lit "Content-Length: " ++ show_dec len
   | None => lit "Transfer-Encoding: chunked"
   end) ++ CRLF ++ CRLF.

Definition write_stream_headers (status : Z) (content_length : option Z) (keep_alive : bool) (c : Conn) :
    result unit NetErrorCode * Conn :=
  write_pieces [stream_head status content_length keep_alive] c.

Definition write_chunked_body_chunk (chunk : bytes) (c : Conn) : result unit NetErrorCode * Conn :=
  write_pieces [show_hex (Z.of_nat (length chunk)) ++ CRLF; chunk; CRLF] c.

Definition write_chunked_terminator (c : Conn) : result unit NetErrorCode * Conn :=
  write_pieces [chunked_end] c.

Definition on_socket (f : Conn -> result unit NetErrorCode * Conn) (s : Socket) : result unit NetErrorCode * Socket :=
  let '(r, c) := f (conn_of (sconn s)) in (r, with_sconn s (with_conn (sconn s) c)).

Definition begin_stream_impl (handle status : Z) (content_length : option Z) (st : NetRuntime) : Z * NetRuntime :=
  if negb (status_ok status) then fail_handle InvalidArgument st
  else if match content_length with Some len => 2 ^ 63 - 1 <? len | None => false end
  then fail_handle InvalidArgument st
  else
    let '(entry, st) := http_request_take handle st in
    match entry with
    | Err e => fail_handle e st
    | Ok e =>
        let keep_alive := keep_alive_for (e_server e) (client_wants_close e) (answered_before e) (e_version e) st in
        let '(r, sock) := on_socket (write_stream_headers status content_length keep_alive) (e_stream e) in
        match r with
        | Err err => fail_handle err (drop_sockets [sock] st)
        | Ok _ =>
            http_response_stream_store
              (mkStream (e_server e) sock
                 (match content_length with Some n => Fixed n | None => Chunked end)
                 false (answered_before e) (client_wants_close e) (e_version e)) st
        end
    end.

Definition sengoo_http_request_begin_stream (handle status : Z) (st : NetRuntime) : Z * NetRuntime :=
  begin_stream_impl handle status None (reset_last_error st).

Definition sengoo_http_request_begin_stream_with_length (handle status content_length : Z) (st : NetRuntime) :
    Z * NetRuntime :=
  begin_stream_impl handle status (Some content_length) (reset_last_error st).

(** The write of one chunk to a stream entry, whose connection is changed even
    when the write fails. *)
Definition stream_write_entry (chunk : bytes) (e : HttpResponseStreamEntry) :
    result Z NetErrorCode * HttpResponseStreamEntry :=
  let with_sock sock mode := mkStream (s_server e) sock mode (s_finished e) (s_answered_before e)
                               (s_client_wants_close e) (s_version e) in
  if s_finished e then (Err HandleNotFound, e)
  else match s_mode e with
  | Chunked =>
      let '(r, sock) := on_socket (write_chunked_body_chunk chunk) (s_stream e) in
      (match r with Ok _ => Ok 1 | Err err => Err err end, with_sock sock Chunked)
  | Fixed n =>
      if n <? Z.of_nat (length chunk) then (Err InvalidArgument, e)
      else
        let '(r, sock) := on_socket (write_pieces [chunk]) (s_stream e) in
        match r with
        | Ok _ => (Ok 1, with_sock sock (Fixed (n - Z.of_nat (length chunk))))
        | Err err => (Err err, with_sock sock (Fixed n))
        end
  end.

Definition sengoo_http_response_stream_write (handle : Z) (data : option bytes) (len : nat) (st : NetRuntime) :
    Z * NetRuntime :=
  let st := reset_last_error st in
  if HTTP_STREAM_MAX_CHUNK <? Z.of_nat len then fail_bool InvalidArgument st
  else match read_c_buffer data len with
  | Err e => fail_bool e st
  | Ok chunk =>
      match http_response_streams st !! handle with
      | None => fail_bool HandleNotFound st
      | Some e =>
          let '(r, e) := stream_write_entry chunk e in
          let st := with_streams (<[handle := e]> (http_response_streams st)) st in
          match r with Ok v => (v, st) | Err err => fail_bool err st end
      end
  end.

Definition sengoo_http_response_stream_finish (handle now : Z) (st : NetRuntime) : Z * NetRuntime :=
  let '(r, st) := http_response_stream_take handle (reset_last_error st) in
  match r with
  | Err e => fail_bool e st
  | Ok e =>
      if s_finished e then fail_bool HandleNotFound (drop_sockets [s_stream e] st)
      else
        let '(r, sock) :=
          match s_mode e with
          | Chunked => on_socket write_chunked_terminator (s_stream e)
          | Fixed n => (if n =? 0 then Ok tt else Err InvalidArgument, s_stream e)
          end in
        match r with
        | Err err => fail_bool err (drop_sockets [sock] st)
        | Ok _ =>
            let keep_alive := keep_alive_for (s_server e) (s_client_wants_close e) (s_answered_before e) (s_version e) st in
            (1, if keep_alive
                then http_server_put_live_connection (s_server e)
                       (mkLive sock (answered_next (s_answered_before e)) now) st
                else drop_sockets [sock] st)
        end
  end.

Definition sengoo_http_response_stream_close (handle : Z) (st : NetRuntime) : Z * NetRuntime :=
  let '(r, st) := http_response_stream_take handle (reset_last_error st) in
  match r with
  | Ok e => (1, drop_sockets [s_stream e] st)
  | Err HandleNotFound => (1, st)
  | Err e => fail_bool e st
  end.
