(* ===== verification/HttpHandles.v ===== *)
(** Ownership and limits of the HTTP server's handles: every connection has
    exactly one owner at any time, a request is answered at most once, and the
    tables stay within the server's bounds, on every run of the C interface. *)

From S2P Require Import Prelude NetBytes Net WebSocket HttpServer HttpInv HttpState.

Local Open Scope Z_scope.

(** ** Sums over a table *)

Section Sums.
Context {A : Type} (g : A -> nat).

Definition tsum (m : gmap Z A) : nat := sum_list_with (fun p => g p.2) (map_to_list m).

Lemma sum_perm (l l' : list (Z * A)) :
  l ≡ₚ l' -> sum_list_with (fun p => g p.2) l = sum_list_with (fun p => g p.2) l'.
Proof. induction 1; simpl; lia. Qed.

Lemma tsum_empty : tsum ∅ = 0%nat.
Proof. unfold tsum. by rewrite map_to_list_empty. Qed.

Lemma tsum_insert_new m i x : m !! i = None -> tsum (<[i := x]> m) = (g x + tsum m)%nat.
Proof. intros H. unfold tsum. by rewrite (sum_perm _ _ (map_to_list_insert m i x H)). Qed.

Lemma tsum_delete m i x : m !! i = Some x -> tsum m = (g x + tsum (delete i m))%nat.
Proof. intros H. unfold tsum. by rewrite <- (sum_perm _ _ (map_to_list_delete m i x H)). Qed.

Lemma tsum_update m i x y : m !! i = Some x -> (tsum (<[i := y]> m) + g x = tsum m + g y)%nat.
Proof.
  intros H. rewrite (tsum_delete m i x H), <- insert_delete_eq, tsum_insert_new by apply lookup_delete_eq. lia.
Qed.

Lemma tsum_filter m (P : Z * A -> Prop) `{!forall p, Decision (P p)} :
  tsum m = (tsum (filter P m) + tsum (filter (fun p => ~ P p) m))%nat.
Proof.
  induction m as [|i x m Hi IH] using map_ind.
  { unfold tsum. by rewrite !map_filter_empty, !map_to_list_empty. }
  rewrite tsum_insert_new by done. destruct (decide (P (i, x))) as [HP|HP].
  - rewrite map_filter_insert_True by done. rewrite map_filter_insert_False by tauto.
    rewrite tsum_insert_new by (apply map_lookup_filter_None; auto). rewrite delete_id by done. lia.
  - rewrite (map_filter_insert_True (fun p => ~ P p)) by done. rewrite map_filter_insert_False by tauto.
    rewrite tsum_insert_new by (apply map_lookup_filter_None; auto). rewrite delete_id by done. lia.
Qed.

Lemma tsum_values m : tsum m = sum_list_with g (snd <$> map_to_list m).
Proof. unfold tsum. induction (map_to_list m) as [|p l IH]; simpl; auto. Qed.
End Sums.

(** ** Owners *)

Definition is_fd (f : Z) (s : Socket) : nat := if fd s =? f then 1 else 0.
Definition in_list (f : Z) (ss : list Socket) : nat := sum_list_with (is_fd f) ss.

#[local] Arguments is_fd : simpl never.
#[local] Arguments in_list : simpl never.

Definition server_owns (f : Z) (s : HttpServerState) : nat :=
  in_list f (listener_sockets (listener s) ++ live_sockets (live_connection s)).

(** How many places a descriptor is in: the listeners' queues, the idle
    connections, the two tables and the closed connections. *)
Definition owners (st : NetRuntime) (f : Z) : nat :=
  tsum (server_owns f) (http_servers st) + tsum (fun e => is_fd f (e_stream e)) (http_requests st) +
  tsum (fun e => is_fd f (s_stream e)) (http_response_streams st) + in_list f (closed st).

Lemma in_list_app f a b : in_list f (a ++ b) = (in_list f a + in_list f b)%nat.
Proof. unfold in_list. apply sum_list_with_app. Qed.

Lemma in_list_nil f : in_list f [] = 0%nat.
Proof. done. Qed.

Lemma in_list_one f s : in_list f [s] = is_fd f s.
Proof. unfold in_list. simpl. lia. Qed.

Lemma owners_drop ss st f : owners (drop_sockets ss st) f = (owners st f + in_list f ss)%nat.
Proof. unfold owners. simpl. rewrite in_list_app. lia. Qed.

Lemma owners_error e st f : owners (set_last_error e st) f = owners st f.
Proof. done. Qed.

Lemma is_fd_same f (s s' : Socket) : fd s' = fd s -> is_fd f s' = is_fd f s.
Proof. unfold is_fd. by intros ->. Qed.

(** ** The invariant *)

Definition limits_ok (s : HttpServerState) : Prop :=
  0 <= max_header_bytes s < 2 ^ 32 /\ 0 <= max_body_bytes s < 2 ^ 32.

Definition live_ok (l : LiveHttpConnection) : Prop := 1 <= answered_count l < HTTP_KEEP_ALIVE_MAX_REQUESTS.

Definition server_ok (s : HttpServerState) : Prop :=
  limits_ok s /\ match live_connection s with Some l => live_ok l | None => True end.

Definition entry_ok (e : HttpRequestEntry) : Prop :=
  Z.of_nat (length (e_body e)) <= e_max_body e /\ 0 <= answered_before e < HTTP_KEEP_ALIVE_MAX_REQUESTS.

Definition stream_ok (e : HttpResponseStreamEntry) : Prop :=
  0 <= s_answered_before e < HTTP_KEEP_ALIVE_MAX_REQUESTS /\
  s_finished e = false /\ match s_mode e with Fixed n => 0 <= n | Chunked => True end.

Definition handles_below (n : Z) {A} (m : gmap Z A) : Prop := forall h x, m !! h = Some x -> 0 < h < n.

Record http_inv (st : NetRuntime) : Prop := {
  inv_next : 0 < next_handle st < 2 ^ 64;
  inv_servers : map_Forall (fun _ => server_ok) (http_servers st);
  inv_requests : map_Forall (fun _ => entry_ok) (http_requests st);
  inv_streams : map_Forall (fun _ => stream_ok) (http_response_streams st);
  inv_pending : forall s, (http_request_pending_count s st <= MAX_PENDING_DYNAMIC_REQUESTS)%nat;
  inv_sh : handles_below (next_handle st) (http_servers st);
  inv_rh : handles_below (next_handle st) (http_requests st);
  inv_th : handles_below (next_handle st) (http_response_streams st);
}.

Lemma http_inv_init : http_inv runtime_init.
Proof.
  split; simpl; try (intros ? ?; by rewrite ?lookup_empty); try apply map_Forall_empty; [lia|].
  intros s. unfold http_request_pending_count. simpl. rewrite map_filter_empty, map_size_empty. lia.
Qed.

(** A handle that has been given up never comes back. *)
Definition stays_gone (st st' : NetRuntime) : Prop :=
  (forall h, h < next_handle st -> http_requests st !! h = None -> http_requests st' !! h = None) /\
  (forall h, h < next_handle st -> http_response_streams st !! h = None -> http_response_streams st' !! h = None).

(** A piece of an operation: the invariant is kept, at most [n] handles are
    used up and none comes back, and the descriptors are conserved, up to the ones the piece
    [gains] from its caller and [holds] for it. *)
Definition moves (n : Z) (st st' : NetRuntime) (gains holds : Z -> nat) : Prop :=
  http_inv st' /\ (next_handle st <= next_handle st' <= next_handle st + n /\ stays_gone st st') /\
  forall f, (owners st' f + holds f = owners st f + gains f)%nat.

Definition none : Z -> nat := fun _ => 0%nat.
Definition one (n : Z) : Z -> nat := fun f => if n =? f then 1%nat else 0%nat.
Definition sock (s : Socket) : Z -> nat := fun f => is_fd f s.

(** The count of descriptors left at the end of a composition. *)
Ltac count := let f := fresh "f" in
  intros f; cbv beta; simpl; unfold none, one, sock; simpl; lia.

Lemma moves_refl st : http_inv st -> moves 0 st st none none.
Proof. intros H. split; [done|]. split; [|done]. split; [lia|by split]. Qed.

Lemma moves_trans n m st1 st2 st3 g1 h1 g2 h2 :
  moves n st1 st2 g1 h1 -> moves m st2 st3 g2 h2 ->
  moves (n + m) st1 st3 (fun f => g1 f + g2 f)%nat (fun f => h1 f + h2 f)%nat.
Proof.
  intros (_ & [N1 [G1 G1']] & F1) (I2 & [N2 [G2 G2']] & F2). split; [done|].
  split; [split; [lia|split]; intros h Hh H; [apply G2|apply G2']; (lia || auto)|].
  intros f. specialize (F1 f). specialize (F2 f). lia.
Qed.

Lemma moves_weaken n m st st' g h g' h' :
  moves n st st' g h -> n <= m -> (forall f, (g f + h' f = g' f + h f)%nat) -> moves m st st' g' h'.
Proof.
  intros (I & [N G] & F) Hn Hf. split; [done|]. split; [by split; [lia|]|]. intros f. specialize (F f). specialize (Hf f). lia.
Qed.

Lemma moves_inv n st st' g h : moves n st st' g h -> http_inv st'.
Proof. by intros [? _]. Qed.

Lemma moves_next n st st' g h : moves n st st' g h -> next_handle st <= next_handle st' <= next_handle st + n.
Proof. by intros (_ & [? _] & _). Qed.

Lemma moves_error e n st st' g h : moves n st st' g h -> moves n st (set_last_error e st') g h.
Proof. intros (I & N & F). split; [by destruct I|]. done. Qed.

Lemma moves_drop ss n st st' g h :
  moves n st st' g h -> moves n st (drop_sockets ss st') (fun f => g f + in_list f ss)%nat h.
Proof.
  intros (I & N & F). split; [by destruct I|]. split; [done|]. intros f. rewrite owners_drop.
  specialize (F f). lia.
Qed.

Ltac moves_gone := split; simpl; intros k Hk Hnone;
  rewrite ?lookup_insert_ne, ?lookup_delete_None by (intros ?; subst; lia || congruence); auto.

Lemma moves_server h s s' st :
  http_inv st -> http_servers st !! h = Some s -> server_ok s' ->
  moves 0 st (with_servers (<[h := s']> (http_servers st)) st) (fun f => server_owns f s') (fun f => server_owns f s).
Proof.
  intros I Hs Hok. split; [|split; [split; [simpl; lia|]|]].
  2: { by moves_gone. }
  - destruct I. split; simpl; try done.
    + by apply map_Forall_insert_2.
    + intros k x. destruct (decide (k = h)) as [->|]; [|rewrite lookup_insert_ne by done; eauto].
      intros _. eauto.
  - intros f. unfold owners. simpl. pose proof (tsum_update (server_owns f) _ _ _ s' Hs). lia.
Qed.

Lemma filter_of_server_delete_le (m : gmap Z HttpRequestEntry) h s :
  (size (filter (of_server s) (delete h m)) <= size (filter (of_server s) m))%nat.
Proof.
  rewrite map_filter_delete. apply map_subseteq_size, delete_subseteq.
Qed.

Lemma moves_take_request h e st :
  http_inv st -> http_requests st !! h = Some e ->
  moves 0 st (with_requests (delete h (http_requests st)) st) none (sock (e_stream e)).
Proof.
  intros I He. split; [|split; [split; [simpl; lia|]|]].
  2: { by moves_gone. }
  - destruct I as [? ? Hr ? Hp ? Hb ?]. split; simpl; try done.
    + by apply map_Forall_delete.
    + intros s. etrans; [|apply (Hp s)]. apply filter_of_server_delete_le.
    + intros k x Hk. apply lookup_delete_Some in Hk as [_ Hk]. eauto.
  - intros f. unfold owners, sock, none. simpl.
    rewrite (tsum_delete (fun e => is_fd f (e_stream e)) _ _ _ He). lia.
Qed.

Lemma moves_take_stream h e st :
  http_inv st -> http_response_streams st !! h = Some e ->
  moves 0 st (with_streams (delete h (http_response_streams st)) st) none (sock (s_stream e)).
Proof.
  intros I He. split; [|split; [split; [simpl; lia|]|]].
  2: { by moves_gone. }
  - destruct I. split; simpl; try done.
    + by apply map_Forall_delete.
    + intros k x Hk. apply lookup_delete_Some in Hk as [_ Hk]. eauto.
  - intros f. unfold owners, sock, none. simpl.
    rewrite (tsum_delete (fun e => is_fd f (s_stream e)) _ _ _ He). lia.
Qed.

Lemma moves_update_stream h e e' st :
  http_inv st -> http_response_streams st !! h = Some e -> stream_ok e' -> fd (s_stream e') = fd (s_stream e) ->
  moves 0 st (with_streams (<[h := e']> (http_response_streams st)) st) none none.
Proof.
  intros I He Hok Hfd. split; [|split; [split; [simpl; lia|]|]].
  2: { by moves_gone. }
  - destruct I. split; simpl; try done.
    + by apply map_Forall_insert_2.
    + intros k x. destruct (decide (k = h)) as [->|]; [|rewrite lookup_insert_ne by done; eauto].
      intros _. eauto.
  - intros f. unfold owners, none. simpl.
    pose proof (tsum_update (fun e => is_fd f (s_stream e)) _ _ _ e' He) as H. cbv beta in H.
    pose proof (is_fd_same f _ _ Hfd). lia.
Qed.

Lemma handles_below_fresh {A} n (m : gmap Z A) : handles_below n m -> m !! n = None.
Proof. intros H. destruct (m !! n) eqn:E; [|done]. apply H in E. lia. Qed.

Lemma handles_below_insert {A} n (m : gmap Z A) x :
  0 < n -> handles_below n m -> handles_below (n + 1) (<[n := x]> m).
Proof.
  intros Hn H k y. destruct (decide (k = n)) as [->|]; [lia|]. rewrite lookup_insert_ne by done.
  intros Hk. apply H in Hk. lia.
Qed.

Lemma handles_below_mono {A} n (m : gmap Z A) : handles_below n m -> handles_below (n + 1) m.
Proof. intros H k x Hk. apply H in Hk. lia. Qed.

Section Store.
Context (st : NetRuntime) (I : http_inv st) (Hn : next_handle st + 1 < 2 ^ 64).

Lemma wrap_next : wrap_u 64 (next_handle st + 1) = next_handle st + 1.
Proof. apply wrap_u_id. destruct I as [? _ _ _ _ _ _ _]. unfold in_u. lia. Qed.

Lemma moves_store_server s :
  server_ok s -> moves 1 st (http_server_store s st).2 (fun f => server_owns f s) none.
Proof.
  intros Hok. unfold http_server_store. cbn [alloc_handle fst snd].
  split; [|split; [split; [simpl; rewrite wrap_next; lia|]|]].
  2: { by moves_gone. }
  - destruct I. split; simpl; rewrite ?wrap_next; eauto using handles_below_mono, handles_below_insert; try lia.
    + by apply map_Forall_insert_2.
    + apply handles_below_insert; [lia|done].
  - intros f. unfold owners, none. simpl.
    rewrite tsum_insert_new by (apply handles_below_fresh; by destruct I). lia.
Qed.

Lemma moves_store_request e :
  entry_ok e -> (http_request_pending_count (e_server e) st < MAX_PENDING_DYNAMIC_REQUESTS)%nat ->
  moves 1 st (http_request_store e st).2 (sock (e_stream e)) none.
Proof.
  intros Hok Hpend. unfold http_request_store. cbn [alloc_handle fst snd].
  assert (http_requests st !! next_handle st = None) as Hfr by (apply handles_below_fresh; by destruct I).
  split; [|split; [split; [simpl; rewrite wrap_next; lia|]|]].
  2: { by moves_gone. }
  - destruct I. split; simpl; rewrite ?wrap_next; eauto using handles_below_mono; try lia.
    + by apply map_Forall_insert_2.
    + intros s. unfold http_request_pending_count in *. simpl in *.
      destruct (decide (e_server e = s)) as [<-|Hne].
      * rewrite map_filter_insert_True by done. rewrite map_size_insert_None; [lia|].
        apply map_lookup_filter_None. auto.
      * rewrite map_filter_insert_False by done. rewrite delete_id by done. eauto.
    + apply handles_below_insert; [lia|done].
  - intros f. unfold owners, none, sock. simpl. rewrite tsum_insert_new by done. lia.
Qed.

Lemma moves_store_stream e :
  stream_ok e -> moves 1 st (http_response_stream_store e st).2 (sock (s_stream e)) none.
Proof.
  intros Hok. unfold http_response_stream_store. cbn [alloc_handle fst snd].
  split; [|split; [split; [simpl; rewrite wrap_next; lia|]|]].
  2: { by moves_gone. }
  - destruct I. split; simpl; rewrite ?wrap_next; eauto using handles_below_mono; try lia.
    + by apply map_Forall_insert_2.
    + apply handles_below_insert; [lia|done].
  - intros f. unfold owners, none, sock. simpl.
    rewrite tsum_insert_new by (apply handles_below_fresh; by destruct I). lia.
Qed.
End Store.

(** ** Servers *)

Lemma with_state_moves {R} h (f : HttpServerState -> R * HttpServerState) st r st' :
  http_inv st -> http_server_with_state h f st = (r, st') ->
  (forall s, server_ok s -> server_ok (f s).2 /\ listener (f s).2 = listener s /\
             live_connection (f s).2 = live_connection s) ->
  moves 0 st st' none none.
Proof.
  intros I H Hf. unfold http_server_with_state in H. destruct (http_servers st !! h) as [s|] eqn:E.
  - destruct (Hf s) as (H1 & H2 & H3); [by eapply inv_servers in E|].
    destruct (f s) as [r1 s'] eqn:Ef. simplify_eq. simpl in *.
    eapply moves_weaken; [by eapply moves_server|lia|]. intros k. unfold server_owns, none.
    rewrite H2, H3. lia.
  - simplify_eq. by apply moves_refl.
Qed.

Lemma replace_live_moves h o st r st' :
  http_inv st -> replace_live h o st = (r, st') -> match o with Some l => live_ok l | None => True end ->
  moves 0 st st' (fun f => match r with Ok _ => in_list f (live_sockets o) | Err _ => 0 end)%nat none.
Proof.
  intros I H Ho. unfold replace_live in H. destruct (http_servers st !! h) as [s|] eqn:E.
  - simplify_eq. pose proof (inv_servers _ I _ _ E) as [Hl _].
    eapply moves_weaken; [apply moves_drop; eapply (moves_server h s (with_live o s)); [done|done|]|lia|].
    + by split.
    + intros f. unfold server_owns, none. simpl. rewrite !in_list_app. lia.
  - simplify_eq. by apply moves_refl.
Qed.

Lemma put_live_moves h l st :
  http_inv st -> live_ok l -> moves 0 st (http_server_put_live_connection h l st) (sock (live_stream l)) none.
Proof.
  intros I Hl. unfold http_server_put_live_connection. destruct (replace_live h (Some l) st) as [r st1] eqn:E.
  apply replace_live_moves in E; [|done|done]. destruct r.
  - eapply moves_weaken; [exact E|lia|]. intros f. unfold none, sock. simpl. rewrite in_list_one. lia.
  - eapply moves_weaken; [apply moves_drop, E|lia|]. intros f. unfold none, sock. rewrite in_list_one. lia.
Qed.

Lemma set_keep_alive_moves h b st :
  http_inv st -> moves 0 st (http_server_set_keep_alive h b st).2 none none.
Proof.
  intros I. unfold http_server_set_keep_alive.
  destruct (http_server_with_state _ _ _) as [r st1] eqn:E. cbn [snd].
  apply with_state_moves in E; [|done|by intros s ?]. destruct b; [done|].
  destruct (replace_live h None st1) as [r1 st2] eqn:E1. cbn [snd].
  apply replace_live_moves in E1; [|by eapply moves_inv|done].
  eapply moves_weaken; [eapply moves_trans; [exact E|exact E1]|lia|]. intros f. unfold none. destruct r1; done.
Qed.

Lemma take_live_moves h st r st' :
  http_inv st -> http_server_take_live_connection h st = (r, st') ->
  match r with
  | Ok (Some l) => live_ok l /\ moves 0 st st' none (sock (live_stream l))
  | _ => moves 0 st st' none none
  end.
Proof.
  intros I H. unfold http_server_take_live_connection, http_server_with_state in H.
  destruct (http_servers st !! h) as [s|] eqn:E; [|simplify_eq; by apply moves_refl].
  pose proof (inv_servers _ I _ _ E) as [Hl Hv]. simplify_eq.
  assert (moves 0 st (with_servers (<[h := with_live None s]> (http_servers st)) st)
            (fun f => server_owns f (with_live None s)) (fun f => server_owns f s)) as Hm.
  { eapply moves_server; [done|done|]. by split. }
  destruct (live_connection s) as [l|] eqn:El; [split; [done|]|];
    (eapply moves_weaken; [exact Hm|lia|]); intros f; unfold server_owns, none, sock; simpl;
    rewrite El, !in_list_app; simpl; rewrite ?in_list_one, ?in_list_nil; lia.
Qed.

Lemma accept_moves h st r st' :
  http_inv st -> accept h st = (r, st') ->
  moves 0 st st' none (match r with Ok a => one a.1 | Err _ => none end).
Proof.
  intros I H. unfold accept in H. destruct (http_servers st !! h) as [s|] eqn:E; [|simplify_eq; by apply moves_refl].
  destruct (listener s) as [|a l] eqn:El; [simplify_eq; by apply moves_refl|]. simplify_eq.
  eapply moves_weaken; [eapply (moves_server h s (with_listener l s)); [done|done|]|lia|].
  - by eapply inv_servers in E.
  - intros f. unfold server_owns, none, one. simpl. rewrite El. unfold listener_sockets. simpl.
    rewrite !in_list_app. destruct r as [[n c]|]; simpl; rewrite ?in_list_one, ?in_list_nil; unfold is_fd; simpl; lia.
Qed.

Lemma wrap_conn_moves h a st r st' :
  http_inv st -> http_server_wrap_conn h a st = (r, st') ->
  match r with
  | Ok s => fd s = a.1 /\ moves 0 st st' none none
  | Err _ => moves 0 st st' (one a.1) none
  end.
Proof.
  intros I H. unfold http_server_wrap_conn in H.
  assert (moves 0 st (drop_sockets [mkSocket a.1 (Plain a.2)] st) (one a.1) none) as Hd.
  { eapply moves_weaken; [apply moves_drop, moves_refl, I|lia|]. intros f. cbv beta. rewrite in_list_one.
    unfold is_fd, none, one. simpl. lia. }
  repeat case_match; simplify_eq; try done; (split; [done|]; by apply moves_refl).
Qed.

(** ** Requests *)

Lemma socket_respond_fd r ka s : fd (socket_respond r ka s).2 = fd s.
Proof. unfold socket_respond. by destruct (write_http_response _ _ _). Qed.

Lemma on_socket_fd g s : fd (on_socket g s).2 = fd s.
Proof. unfold on_socket. by destruct (g _). Qed.

Lemma drop_one_moves s s' n st st' g h :
  moves n st st' g h -> fd s' = fd s -> moves n st (drop_sockets [s'] st') (fun f => g f + sock s f)%nat h.
Proof.
  intros H Hfd. eapply moves_weaken; [apply moves_drop, H|lia|]. intros f. cbv beta. unfold sock.
  rewrite in_list_one, (is_fd_same f s s') by done. lia.
Qed.

(** Dropping the connection a piece was given is all it has to do. *)
Lemma drop_given s s' st : http_inv st -> fd s' = fd s -> moves 0 st (drop_sockets [s'] st) (sock s) none.
Proof.
  intros I Hfd. eapply moves_weaken; [eapply (drop_one_moves s s'); [apply moves_refl, I|done]|lia|].
  count.
Qed.

Lemma respond_and_drop_given r s st : http_inv st -> moves 0 st (respond_and_drop r s st) (sock s) none.
Proof. intros I. unfold respond_and_drop. apply drop_given; [done|]. apply socket_respond_fd. Qed.

Section Pull.
Context (alloc_max : Z) (order : gmap bytes bytes -> list (bytes * bytes)).

(** What a poll hands back besides the state. *)
Definition poll_holds (r : result DynamicRequestPoll NetErrorCode) : Z -> nat :=
  match r with Ok (Idle l) => sock (live_stream l) | _ => none end.

Definition poll_used (r : result DynamicRequestPoll NetErrorCode) : Z :=
  match r with Ok (Ready _) => 1 | _ => 0 end.

Definition poll_ok (r : result DynamicRequestPoll NetErrorCode) : Prop :=
  match r with Ok (Idle l) => live_ok l | _ => True end.

Lemma process_dynamic_moves server s rts mws mh mb tmo n idle pres now st r st' :
  http_inv st -> next_handle st + 1 < 2 ^ 64 -> 0 <= mh < 2 ^ 32 -> 0 <= mb < 2 ^ 32 ->
  0 <= n < HTTP_KEEP_ALIVE_MAX_REQUESTS ->
  process_dynamic_request_stream alloc_max order server s rts mws mh mb tmo n idle pres now st = Returns (r, st') ->
  poll_ok r /\ moves (poll_used r) st st' (sock s) (poll_holds r).
Proof.
  intros I Hn Hmh Hmb Hk. unfold process_dynamic_request_stream.
  destruct (tmo =? 0). { intros [= <- <-]. split; [done|]. by apply drop_given. }
  destruct (read_request_bounds mh mb (conn_of (sconn s)) Hmh Hmb) as (res & saw & c & -> & _ & Hb).
  set (s' := with_sconn s (with_conn (sconn s) c)). assert (fd s' = fd s) as Hfd by done.
  assert (forall r, moves 0 st (respond_and_drop r s' st) (sock s) none) as Hrd.
  { intros r0. apply drop_given; [done|]. by rewrite socket_respond_fd. }
  destruct res as [rq|e].
  2: { destruct e; try (intros [= <- <-]; split; [done|]; apply Hrd).
       destruct ((0 <? n) && pres && negb saw) eqn:E1.
       - intros [= <- <-]. rewrite !andb_true_iff, Z.ltb_lt in E1. split; [unfold poll_ok, live_ok; simpl; lia|].
         eapply moves_weaken; [apply moves_refl, I|simpl; lia|]. intros f. unfold none, poll_holds, sock. simpl. done.
       - destruct (0 <? n); intros [= <- <-]; (split; [done|]); [by apply drop_given|apply Hrd]. }
  destruct (apply_middlewares mws rq); [intros [= <- <-]; split; [done|]; apply Hrd|].
  destruct (find_route _ _ _) as [[rt params]|].
  { destruct (answer_route _ _ _ _ _ _) as [[u sc]| |]; intros; simplify_eq. split; [done|]. by apply drop_given. }
  case_match eqn:E; [intros [= <- <-]; split; [done|]; apply Hrd|]. apply Nat.leb_gt in E.
  destruct (match split_once _ _ with Some _ => _ | None => _ end) as [path query].
  set (e := mkEntry _ _ _ _ _ _ _ _ _ _ _).
  pose proof (moves_store_request st I Hn e) as Hst.
  destruct (http_request_store e st) as [h st1]. intros [= <- <-]. split; [done|].
  apply Hst; [|done]. split; [exact Hb|exact Hk].
Qed.

(** A fresh connection of the listener. *)
Lemma try_accept_moves h st r st' :
  http_inv st -> try_accept_nonblocking h st = (r, st') ->
  moves 0 st st' none (match r with Ok (Some a) => one a.1 | _ => none end).
Proof.
  intros I H. unfold try_accept_nonblocking in H. destruct (accept h st) as [a st1] eqn:E.
  apply accept_moves in E; [|done]. simplify_eq. by destruct a as [a|[]].
Qed.

Definition accept_fresh (server : Z) (s : HttpServerState) (tmo now : Z) (st : NetRuntime) :
    outcome (result DynamicRequestPoll NetErrorCode * NetRuntime) :=
  let '(a, st) := try_accept_nonblocking server st in
  match a with
  | Err e => Returns (Err e, st)
  | Ok None => Returns (Ok NotReady, st)
  | Ok (Some a) =>
      let '(sock, st) := http_server_wrap_conn server a st in
      match sock with
      | Err e => Returns (Err e, st)
      | Ok sock =>
          process_dynamic_request_stream alloc_max order server sock (routes s) (middlewares s)
            (max_header_bytes s) (max_body_bytes s) tmo 0 None false now st
      end
  end.

Lemma accept_fresh_moves server s tmo now st r st' :
  http_inv st -> next_handle st + 1 < 2 ^ 64 -> limits_ok s ->
  accept_fresh server s tmo now st = Returns (r, st') ->
  poll_ok r /\ moves (poll_used r) st st' none (poll_holds r).
Proof.
  intros I Hn [Hmh Hmb] H. unfold accept_fresh in H.
  destruct (try_accept_nonblocking server st) as [a st1] eqn:E1. apply try_accept_moves in E1; [|done].
  destruct a as [[a|]|]; [|simplify_eq; done..].
  pose proof (moves_inv _ _ _ _ _ E1) as I1. pose proof (moves_next _ _ _ _ _ E1) as N1.
  destruct (http_server_wrap_conn server a st1) as [sk st2] eqn:E2.
  apply wrap_conn_moves in E2; [|done]. destruct sk as [sk|e].
  - destruct E2 as [Hfd E2]. pose proof (moves_inv _ _ _ _ _ E2) as I2. pose proof (moves_next _ _ _ _ _ E2) as N2.
    apply process_dynamic_moves in H as [Ho Hm]; [|done|lia|done|done|unfold HTTP_KEEP_ALIVE_MAX_REQUESTS; lia].
    split; [done|]. eapply moves_weaken; [eapply moves_trans; [exact E1|eapply moves_trans; [exact E2|exact Hm]]|lia|].
    intros f. unfold none, one, sock, is_fd. rewrite Hfd. lia.
  - simplify_eq. split; [done|].
    eapply moves_weaken; [eapply moves_trans; [exact E1|exact E2]|simpl; lia|]. count.
Qed.

(** A round of the loop leaves the connection in one place. *)
Lemma poll_next_moves server s tmo now st r st' :
  http_inv st -> next_handle st + 1 < 2 ^ 64 -> limits_ok s ->
  poll_next_dynamic_request_once alloc_max order server s tmo now st = Returns (r, st') ->
  poll_ok r /\ moves (poll_used r) st st' none (poll_holds r).
Proof.
  intros I Hn Hl H. unfold poll_next_dynamic_request_once in H.
  change (fun st0 : NetRuntime => _) with (accept_fresh server s tmo now) in H.
  destruct (http_server_take_live_connection server st) as [lv st1] eqn:E1.
  apply take_live_moves in E1; [|done]. destruct lv as [[l|]|e].
  2: { apply accept_fresh_moves in H as [Ho Hm]; [|by eapply moves_inv|apply moves_next in E1; lia|done].
       split; [done|]. eapply moves_weaken; [eapply moves_trans; [exact E1|exact Hm]|lia|].
       count. }
  2: { by simplify_eq. }
  destruct E1 as [Hlv E1]. pose proof (moves_inv _ _ _ _ _ E1) as I1. pose proof (moves_next _ _ _ _ _ E1) as N1.
  destruct (process_dynamic_request_stream _ _ _ _ _ _ _ _ _ _ _ _ _ _) as [[r1 st2]| |] eqn:E2; try done.
  apply process_dynamic_moves in E2 as [Ho Hm]; [|done|lia|apply Hl|apply Hl|unfold live_ok in Hlv; lia].
  assert (moves (poll_used r1) st st2 none (poll_holds r1)) as Hm'.
  { eapply moves_weaken; [eapply moves_trans; [exact E1|exact Hm]|lia|]. count. }
  pose proof (moves_inv _ _ _ _ _ Hm') as I2. pose proof (moves_next _ _ _ _ _ Hm') as N2.
  assert (forall st3, moves 0 st st3 none none -> accept_fresh server s tmo now st3 = Returns (r, st') ->
            poll_ok r /\ moves (poll_used r) st st' none (poll_holds r)) as Hfresh.
  { intros st3 H3 Ha. apply accept_fresh_moves in Ha as [Ho' Ha]; [|by eapply moves_inv|apply moves_next in H3; lia|done].
    split; [done|]. eapply moves_weaken; [eapply moves_trans; [exact H3|exact Ha]|lia|].
    count. }
  destruct r1 as [[h| |l1]|[]]; try (simplify_eq; done); try (by eapply Hfresh).
  apply (Hfresh (http_server_put_live_connection server l1 st2)); [|done].
  eapply moves_weaken; [eapply moves_trans; [exact Hm'|by apply put_live_moves]|simpl; lia|].
  count.
Qed.

Lemma next_request_loop_moves n server s tmo now st h st' :
  http_inv st -> next_handle st + 1 < 2 ^ 64 -> limits_ok s ->
  next_request_loop alloc_max order n server s tmo now st = Returns (h, st') -> moves 1 st st' none none.
Proof.
  revert st. induction n as [|n IH]; intros st I Hn Hl H; cbn [next_request_loop] in H.
  { simplify_eq. apply moves_error. eapply moves_weaken; [by apply moves_refl|lia|done]. }
  destruct (poll_next_dynamic_request_once _ _ _ _ _ _ _) as [[r st1]| |] eqn:E; try done.
  apply poll_next_moves in E as [Ho Hm]; [|done..].
  pose proof (moves_inv _ _ _ _ _ Hm) as I1. pose proof (moves_next _ _ _ _ _ Hm) as N1.
  destruct r as [[h1| |l]|e].
  - simplify_eq. exact Hm.
  - simpl in N1. apply IH in H; [|done|lia|done].
    eapply moves_weaken; [eapply moves_trans; [exact Hm|exact H]|simpl; lia|]. count.
  - pose proof (put_live_moves server l st1 I1 Ho) as Hp. simpl in N1.
    pose proof (moves_next _ _ _ _ _ Hp) as N2. apply IH in H; [|by eapply moves_inv|lia|done].
    eapply moves_weaken; [eapply moves_trans; [exact Hm|eapply moves_trans; [exact Hp|exact H]]|simpl; lia|].
    count.
  - simplify_eq. apply moves_error. eapply moves_weaken; [exact Hm|simpl; lia|done].
Qed.

Lemma next_request_impl_moves n server tmo now st h st' :
  http_inv st -> next_handle st + 1 < 2 ^ 64 ->
  http_server_next_request_impl alloc_max order n server tmo now st = Returns (h, st') -> moves 1 st st' none none.
Proof.
  intros I Hn H. unfold http_server_next_request_impl in H.
  destruct (http_servers st !! server) as [s|] eqn:E.
  - apply next_request_loop_moves in H; [done..|]. by apply (inv_servers _ I) in E as [? _].
  - simplify_eq. apply moves_error. eapply moves_weaken; [by apply moves_refl|lia|done].
Qed.
End Pull.

(** ** The remaining operations *)

Lemma moves_bool n st r g h : moves n st r.2 g h -> moves n st (bool_result r).2 g h.
Proof. destruct r as [[v|e] st']; [done|]. apply moves_error. Qed.

Lemma reset_inv st : http_inv st -> http_inv (reset_last_error st).
Proof. by intros []. Qed.

(** Operations begin by clearing the last error. *)
Lemma moves_reset n st st' g h : moves n (reset_last_error st) st' g h -> moves n st st' g h.
Proof. done. Qed.

Lemma config_moves {R} h (f : HttpServerState -> R * HttpServerState) st :
  http_inv st ->
  (forall s, server_ok s -> server_ok (f s).2 /\ listener (f s).2 = listener s /\
             live_connection (f s).2 = live_connection s) ->
  moves 0 st (http_server_with_state h f st).2 none none.
Proof.
  intros I Hf. destruct (http_server_with_state h f st) as [r st'] eqn:E. by eapply with_state_moves.
Qed.

Lemma claim_moves h mode st : http_inv st -> moves 0 st (http_server_claim_serve_mode h mode st).2 none none.
Proof.
  intros I. unfold http_server_claim_serve_mode. destruct (http_server_with_state _ _ _) as [r st'] eqn:E.
  apply with_state_moves in E; [done|done|]. intros s Hs. by repeat case_match.
Qed.

Lemma accept_with_timeout_moves n h st r st' :
  http_inv st -> accept_with_timeout n h st = (r, st') ->
  moves 0 st st' none (match r with Ok (Some a) => one a.1 | _ => none end).
Proof.
  revert st. induction n as [|n IH]; intros st I H; cbn [accept_with_timeout] in H;
    destruct (accept h st) as [a st1] eqn:E; apply accept_moves in E; try done;
    (destruct a as [a|[]]; [simplify_eq; exact E|simplify_eq; exact E| |simplify_eq; exact E..]).
  - by simplify_eq.
  - apply IH in H; [|by eapply moves_inv].
    eapply moves_weaken; [eapply moves_trans; [exact E|exact H]|lia|]. count.
Qed.

Lemma serve_once_moves am ord n h tmo st v st' :
  http_inv st -> sengoo_http_server_serve_once am ord n h tmo st = Returns (v, st') -> moves 0 st st' none none.
Proof.
  intros I H. apply moves_reset. apply reset_inv in I. unfold sengoo_http_server_serve_once in H.
  generalize dependent (reset_last_error st). intros st0 I H.
  destruct (http_servers st0 !! h) as [s|]; [|simplify_eq; by apply moves_error, moves_refl].
  destruct (accept_with_timeout n h st0) as [a st1] eqn:E1. apply accept_with_timeout_moves in E1; [|done].
  destruct a as [[a|]|e]; [|simplify_eq; by apply moves_error..].
  destruct (http_server_wrap_conn h a st1) as [sk st2] eqn:E2.
  apply wrap_conn_moves in E2; [|by eapply moves_inv]. destruct sk as [sk|e].
  - destruct E2 as [Hfd E2]. destruct (process_http_server_connection _ _ _ _ _ _ _) as [[r sc]| |]; try done.
    assert (moves 0 st0 (drop_sockets [with_sconn sk sc] st2) none none) as Hm.
    { eapply moves_weaken; [apply (drop_one_moves sk); [eapply moves_trans; [exact E1|exact E2]|done]|lia|].
      intros f. unfold none, one, sock, is_fd. rewrite Hfd. lia. }
    destruct r; simplify_eq; [done|by apply moves_error].
  - simplify_eq. apply moves_error. eapply moves_weaken; [eapply moves_trans; [exact E1|exact E2]|lia|]. count.
Qed.

(** The keep-alive rule caps the answers on a connection. *)
Lemma keep_alive_caps server wc n v st now s :
  0 <= n < HTTP_KEEP_ALIVE_MAX_REQUESTS -> keep_alive_for server wc n v st = true ->
  live_ok (mkLive s (answered_next n) now).
Proof.
  unfold keep_alive_for, should_keep_alive, live_ok, answered_next, HTTP_KEEP_ALIVE_MAX_REQUESTS.
  intros Hn H. rewrite !andb_true_iff, Z.ltb_lt in H. simpl. lia.
Qed.

(** The end of an answer: the connection goes back to its server or is closed. *)
Lemma settle_moves (ka : bool) server s s' n now st :
  http_inv st -> (ka = true -> live_ok (mkLive s' n now)) -> fd s' = fd s ->
  moves 0 st (if ka then http_server_put_live_connection server (mkLive s' n now) st else drop_sockets [s'] st)
    (sock s) none.
Proof.
  intros I Hl Hfd. destruct ka.
  - eapply moves_weaken; [apply put_live_moves; [done|by apply Hl]|lia|]. intros f. unfold none, sock. simpl.
    rewrite (is_fd_same f s s') by done. lia.
  - by apply drop_given.
Qed.

Lemma respond_impl_moves h status ct body len now st :
  http_inv st -> moves 0 st (respond_impl h status ct body len now st).2 none none.
Proof.
  intros I. unfold respond_impl.
  assert (forall e, moves 0 st (fail_bool e st).2 none none) as Hfail by (intros; by apply moves_error, moves_refl).
  destruct (negb (status_ok status)); [apply Hfail|]. destruct (read_c_buffer body len) as [b|]; [|apply Hfail].
  unfold http_request_with_entry, http_request_take.
  destruct (http_requests st !! h) as [e|] eqn:E; [|apply Hfail].
  case_match; [apply Hfail|]. pose proof (moves_take_request h e st I E) as Ht.
  set (st1 := with_requests _ st) in *. set (ka := keep_alive_for _ _ _ _ st1).
  destruct (inv_requests _ I _ _ E) as [_ Hn].
  destruct (socket_respond _ ka (e_stream e)) as [r s'] eqn:Es.
  assert (fd s' = fd (e_stream e)) as Hfd by (rewrite <- (socket_respond_fd (mkResponse status
    (match ct with Some ct => [(lit "Content-Type", ct)] | None => [] end) b) ka (e_stream e)), Es; done).
  pose proof (moves_inv _ _ _ _ _ Ht) as I1. destruct r; cbn [snd].
  - eapply moves_weaken; [eapply moves_trans; [exact Ht|apply (settle_moves ka (e_server e) (e_stream e))]|lia|];
      [done| |done|count]. intros Hka. by eapply keep_alive_caps.
  - apply moves_error. eapply moves_weaken; [apply (drop_one_moves (e_stream e)); [exact Ht|done]|lia|]. count.
Qed.

Lemma request_close_moves h st : http_inv st -> moves 0 st (sengoo_http_request_close h st).2 none none.
Proof.
  intros I. apply moves_reset. apply reset_inv in I. unfold sengoo_http_request_close, http_request_take.
  destruct (http_requests (reset_last_error st) !! h) as [e|] eqn:E; [|by apply moves_refl].
  cbn [snd]. pose proof (moves_take_request _ _ _ I E) as Ht. unfold respond_and_drop.
  eapply moves_weaken; [apply (drop_one_moves (e_stream e)); [exact Ht|apply socket_respond_fd]|lia|]. count.
Qed.

Lemma begin_stream_moves h status len st :
  http_inv st -> next_handle st + 1 < 2 ^ 64 -> match len with Some n => 0 <= n | None => True end ->
  moves 1 st (begin_stream_impl h status len st).2 none none.
Proof.
  intros I Hn Hl. unfold begin_stream_impl.
  assert (forall e, moves 1 st (fail_handle e st).2 none none) as Hfail.
  { intros. apply moves_error. eapply moves_weaken; [by apply moves_refl|lia|done]. }
  destruct (negb (status_ok status)); [apply Hfail|].
  destruct (match len with Some n => _ | None => _ end); [apply Hfail|].
  unfold http_request_take. destruct (http_requests st !! h) as [e|] eqn:E; [|apply Hfail].
  pose proof (moves_take_request h e st I E) as Ht. destruct (inv_requests _ I _ _ E) as [_ Hk].
  set (st1 := with_requests _ st) in *. set (ka := keep_alive_for _ _ _ _ st1).
  destruct (on_socket _ (e_stream e)) as [r s'] eqn:Es.
  assert (fd s' = fd (e_stream e)) as Hfd
    by (rewrite <- (on_socket_fd (write_stream_headers status len ka) (e_stream e)), Es; done).
  destruct r.
  - eapply moves_weaken; [eapply moves_trans; [exact Ht|apply moves_store_stream]|lia|].
    + by eapply moves_inv.
    + apply moves_next in Ht. lia.
    + split; [exact Hk|]. split; [done|]. simpl. by destruct len.
    + intros f. unfold none, sock. simpl. rewrite (is_fd_same f (e_stream e) s') by done. lia.
  - apply moves_error. eapply moves_weaken; [apply (drop_one_moves (e_stream e)); [exact Ht|done]|lia|]. count.
Qed.

Lemma stream_write_entry_ok chunk e r e' :
  stream_ok e -> stream_write_entry chunk e = (r, e') -> stream_ok e' /\ fd (s_stream e') = fd (s_stream e).
Proof.
  intros (Hk & Hf & Hm) H. unfold stream_write_entry in H. rewrite Hf in H.
  destruct (s_mode e) as [|n] eqn:Em.
  - pose proof (on_socket_fd (write_chunked_body_chunk chunk) (s_stream e)) as Hfd.
    destruct (on_socket _ _) as [r1 s1]. simplify_eq. split; [|exact Hfd]. by split; [|split].
  - destruct (n <? _) eqn:E; [simplify_eq; split; [split; [exact Hk|split; [exact Hf|by rewrite Em]]|done]|]. apply Z.ltb_ge in E.
    pose proof (on_socket_fd (write_pieces [chunk]) (s_stream e)) as Hfd.
    destruct (on_socket _ _) as [[|] s1]; simplify_eq; (split; [|exact Hfd]);
      (split; [exact Hk|split; [done|]]); simpl; lia.
Qed.

Lemma stream_write_moves h data len st :
  http_inv st -> moves 0 st (sengoo_http_response_stream_write h data len st).2 none none.
Proof.
  intros I. apply moves_reset. apply reset_inv in I. unfold sengoo_http_response_stream_write.
  generalize dependent (reset_last_error st). intros st0 I.
  assert (forall e, moves 0 st0 (fail_bool e st0).2 none none) as Hfail by (intros; by apply moves_error, moves_refl).
  case_match; [apply Hfail|]. destruct (read_c_buffer data len) as [chunk|]; [|apply Hfail].
  destruct (http_response_streams st0 !! h) as [e|] eqn:E; [|apply Hfail].
  destruct (stream_write_entry chunk e) as [r e'] eqn:Ew.
  apply stream_write_entry_ok in Ew as [Hok Hfd]; [|by eapply inv_streams in E].
  pose proof (moves_update_stream h e e' st0 I E Hok Hfd) as Hm. destruct r; [done|by apply moves_error].
Qed.

Lemma stream_finish_moves h now st :
  http_inv st -> moves 0 st (sengoo_http_response_stream_finish h now st).2 none none.
Proof.
  intros I. apply moves_reset. apply reset_inv in I. unfold sengoo_http_response_stream_finish, http_response_stream_take.
  generalize dependent (reset_last_error st). intros st0 I.
  destruct (http_response_streams st0 !! h) as [e|] eqn:E; [|by apply moves_error, moves_refl].
  pose proof (moves_take_stream h e st0 I E) as Ht. destruct (inv_streams _ I _ _ E) as (Hk & Hf & _).
  set (st1 := with_streams _ st0) in *. rewrite Hf.
  assert (exists r s', match s_mode e with
          | Chunked => on_socket write_chunked_terminator (s_stream e)
          | Fixed n => (if n =? 0 then Ok tt else Err InvalidArgument, s_stream e)
          end = (r, s') /\ fd s' = fd (s_stream e)) as (r & s' & -> & Hfd).
  { destruct (s_mode e); [|by eexists _, _].
    pose proof (on_socket_fd write_chunked_terminator (s_stream e)) as Hfd.
    destruct (on_socket _ _) as [r s']. by eexists _, _. }
  destruct r; cbn [snd].
  - eapply moves_weaken; [eapply moves_trans; [exact Ht|apply (settle_moves _ (s_server e) (s_stream e))]|lia|];
      [by eapply moves_inv| |done|count]. intros Hka. by eapply keep_alive_caps.
  - apply moves_error. eapply moves_weaken; [apply (drop_one_moves (s_stream e)); [exact Ht|done]|lia|]. count.
Qed.

Lemma stream_close_moves h st : http_inv st -> moves 0 st (sengoo_http_response_stream_close h st).2 none none.
Proof.
  intros I. apply moves_reset. apply reset_inv in I. unfold sengoo_http_response_stream_close, http_response_stream_take.
  destruct (http_response_streams (reset_last_error st) !! h) as [e|] eqn:E; [|by apply moves_refl].
  cbn [snd]. pose proof (moves_take_stream _ _ _ I E) as Ht.
  eapply moves_weaken; [apply (drop_one_moves (s_stream e)); [exact Ht|done]|lia|]. count.
Qed.

(** *** Closing a server *)

Lemma moves_delete_server h s st :
  http_inv st -> http_servers st !! h = Some s ->
  moves 0 st (with_servers (delete h (http_servers st)) st) none (fun f => server_owns f s).
Proof.
  intros I Hs. split; [|split; [split; [simpl; lia|]|]].
  2: { by moves_gone. }
  - destruct I. split; simpl; try done.
    + by apply map_Forall_delete.
    + intros k x Hk. apply lookup_delete_Some in Hk as [_ Hk]. eauto.
  - intros f. unfold owners, none. simpl. rewrite (tsum_delete (server_owns f) _ _ _ Hs). lia.
Qed.

Lemma in_list_fmap {A} f (g : A -> Socket) (l : list A) : in_list f (g <$> l) = sum_list_with (fun a => is_fd f (g a)) l.
Proof. unfold in_list. induction l as [|a l IH]; simpl; auto. Qed.

Lemma map_Forall_filter_keep {A} (P : A -> Prop) (Q : Z * A -> Prop) `{!forall p, Decision (Q p)} (m : gmap Z A) :
  map_Forall (fun _ => P) m -> map_Forall (fun _ => P) (filter Q m).
Proof. intros Hm k x Hk. apply map_lookup_filter_Some in Hk as [Hk _]. by eapply Hm. Qed.

Lemma sum_ext {A} (f g : A -> nat) (l : list A) : (forall a, f a = g a) -> sum_list_with f l = sum_list_with g l.
Proof. intros H. induction l as [|a l IH]; simpl; auto. Qed.

Lemma drain_requests_moves h st (es := (http_request_drain_for_server h st).1) :
  http_inv st -> moves 0 st (http_request_drain_for_server h st).2 none (fun f => in_list f (e_stream <$> es)).
Proof.
  intros I. unfold http_request_drain_for_server in *. cbn [fst snd] in *.
  split; [|split; [split; [simpl; lia|]|]].
  2: { split; simpl; intros k Hk Hn; [|done]. apply map_lookup_filter_None. auto. }
  - destruct I as [? ? ? ? Hp ? ? ?]. split; simpl; try done.
    + by apply map_Forall_filter_keep.
    + intros s. etrans; [|apply (Hp s)]. unfold http_request_pending_count. simpl.
      apply map_subseteq_size, map_filter_subseteq_mono, map_filter_subseteq.
    + intros k x Hk. apply map_lookup_filter_Some in Hk as [Hk _]. eauto.
  - intros f. unfold owners, none, es. simpl. rewrite in_list_fmap.
    rewrite (tsum_filter (fun e => is_fd f (e_stream e)) (http_requests st) (of_server h)).
    rewrite (tsum_values _ (filter (of_server h) _)). lia.
Qed.

Lemma drain_streams_moves h st (es := (http_response_stream_drain_for_server h st).1) :
  http_inv st -> moves 0 st (http_response_stream_drain_for_server h st).2 none (fun f => in_list f (s_stream <$> es)).
Proof.
  intros I. unfold http_response_stream_drain_for_server in *. cbn [fst snd] in *.
  split; [|split; [split; [simpl; lia|]|]].
  2: { split; simpl; intros k Hk Hn; [done|]. apply map_lookup_filter_None. auto. }
  - destruct I. split; simpl; try done.
    + by apply map_Forall_filter_keep.
    + intros k x Hk. apply map_lookup_filter_Some in Hk as [Hk _]. eauto.
  - intros f. unfold owners, none, es. simpl. rewrite in_list_fmap.
    rewrite (tsum_filter (fun e => is_fd f (s_stream e)) (http_response_streams st) (stream_of_server h)).
    rewrite (tsum_values _ (filter (stream_of_server h) _)). lia.
Qed.

Lemma server_close_moves h st : http_inv st -> moves 0 st (sengoo_http_server_close h st).2 none none.
Proof.
  intros I. apply moves_reset. apply reset_inv in I. unfold sengoo_http_server_close, http_server_close.
  generalize dependent (reset_last_error st). intros st0 I.
  destruct (http_servers st0 !! h) as [s|] eqn:E; [|by apply moves_refl].
  pose proof (moves_drop (listener_sockets (listener s) ++ live_sockets (live_connection s)) _ _ _ _ _
                (moves_delete_server h s st0 I E)) as H1. set (st1 := drop_sockets _ _) in *.
  pose proof (drain_requests_moves h st1 (moves_inv _ _ _ _ _ H1)) as H2.
  destruct (http_request_drain_for_server h st1) as [es st2]. cbn [fst snd] in H2.
  pose proof (moves_drop ((fun e => (socket_respond gateway_timeout_response false (e_stream e)).2) <$> es) _ _ _ _ _ H2) as H3.
  set (st3 := drop_sockets _ st2) in *.
  pose proof (drain_streams_moves h st3 (moves_inv _ _ _ _ _ H3)) as H4.
  destruct (http_response_stream_drain_for_server h st3) as [ss st4]. cbn [fst snd] in H4 |- *.
  eapply moves_weaken; [apply moves_drop; eapply moves_trans; [exact H1|eapply moves_trans; [exact H3|exact H4]]|lia|].
  intros f. cbv beta. unfold none, server_owns. rewrite !in_list_fmap.
  assert (forall e, is_fd f (socket_respond gateway_timeout_response false (e_stream e)).2 = is_fd f (e_stream e)) as Hr.
  { intros e. apply is_fd_same, socket_respond_fd. }
  rewrite (sum_ext _ (fun e => is_fd f (e_stream e)) es Hr). lia.
Qed.

(** ** Runs of the C interface *)

Inductive HttpOp :=
| OBind (host : option bytes) (bound : bytes -> result Listener ErrorKind)
| OSetLimits (h mh mb : Z)
| OSetKeepAlive (h enabled : Z)
| OAddRoute (h : Z) (method pattern : option bytes) (status : Z) (body : option bytes) (len : nat)
| OAddWsEchoRoute (h : Z) (pattern : option bytes)
| OAddMiddleware (h : Z) (name expected : option bytes) (status : Z) (body : option bytes) (len : nat)
| OServeOnce (attempts : nat) (h timeout : Z)
| OServerClose (h : Z)
| OClaim (h mode : Z)
| ONext (attempts : nat) (h timeout now : Z)
| ONextRouter (attempts : nat) (h timeout now : Z)
| ORespond (h status : Z) (body : option bytes) (len : nat) (now : Z)
| ORespondType (h status : Z) (content_type body : option bytes) (len : nat) (now : Z)
| OClose (h : Z)
| OBegin (h status : Z)
| OBeginLength (h status n : Z)
| OWrite (h : Z) (data : option bytes) (len : nat)
| OFinish (h now : Z)
| OStreamClose (h : Z).

(** The widths of the arguments: limits are u32, a length is u64. *)
Definition op_wf (op : HttpOp) : Prop :=
  match op with
  | OSetLimits _ mh mb => 0 <= mh < 2 ^ 32 /\ 0 <= mb < 2 ^ 32
  | OBeginLength _ _ n => 0 <= n < 2 ^ 64
  | _ => True
  end.

Section Runs.
Context (alloc_max : Z) (order : gmap bytes bytes -> list (bytes * bytes)).

Definition http_exec (op : HttpOp) (st : NetRuntime) : outcome (Z * NetRuntime) :=
  match op with
  | OBind host bound => Returns (sengoo_http_server_bind host bound st)
  | OSetLimits h mh mb => Returns (sengoo_http_server_set_limits h mh mb st)
  | OSetKeepAlive h e => Returns (sengoo_http_server_set_keep_alive h e st)
  | OAddRoute h m p s b n => Returns (sengoo_http_server_add_route h m p s b n st)
  | OAddWsEchoRoute h p => Returns (sengoo_http_server_add_ws_echo_route h p st)
  | OAddMiddleware h n e s b l => Returns (sengoo_http_server_add_middleware_require_header h n e s b l st)
  | OServeOnce n h t => sengoo_http_server_serve_once alloc_max order n h t st
  | OServerClose h => Returns (sengoo_http_server_close h st)
  | OClaim h m => Returns (sengoo_http_server_claim_serve_mode h m st)
  | ONext n h t now => sengoo_http_server_next_request alloc_max order n h t now st
  | ONextRouter n h t now => sengoo_http_server_next_request_router alloc_max order n h t now st
  | ORespond h s b l now => Returns (sengoo_http_request_respond h s b l now st)
  | ORespondType h s ct b l now => Returns (sengoo_http_request_respond_with_content_type h s ct b l now st)
  | OClose h => Returns (sengoo_http_request_close h st)
  | OBegin h s => Returns (sengoo_http_request_begin_stream h s st)
  | OBeginLength h s n => Returns (sengoo_http_request_begin_stream_with_length h s n st)
  | OWrite h d l => Returns (sengoo_http_response_stream_write h d l st)
  | OFinish h now => Returns (sengoo_http_response_stream_finish h now st)
  | OStreamClose h => Returns (sengoo_http_response_stream_close h st)
  end.

Fixpoint http_run (ops : list HttpOp) (st : NetRuntime) : outcome NetRuntime :=
  match ops with
  | [] => Returns st
  | op :: ops => run! (_, st) := http_exec op st in http_run ops st
  end.

(** The connections an operation brings into the runtime: those a new server's
    listener will accept. *)
Definition brings (op : HttpOp) : Z -> nat :=
  match op with
  | OBind host bound =>
      match match host with None => Ok (lit "127.0.0.1") | Some _ => parse_host host end with
      | Ok h => match bound h with Ok l => fun f => in_list f (listener_sockets l) | Err _ => none end
      | Err _ => none
      end
  | _ => none
  end.

Lemma bind_moves host bound st :
  http_inv st -> next_handle st + 1 < 2 ^ 64 ->
  moves 1 st (sengoo_http_server_bind host bound st).2 (brings (OBind host bound)) none.
Proof.
  intros I Hn. apply moves_reset. apply reset_inv in I. unfold sengoo_http_server_bind.
  assert (next_handle (reset_last_error st) + 1 < 2 ^ 64) as Hn' by done. clear Hn.
  generalize dependent (reset_last_error st). intros st0 I Hn. cbn [brings].
  assert (forall e, moves 1 st0 (fail_handle e st0).2 none none) as Hfail.
  { intros. apply moves_error. eapply moves_weaken; [by apply moves_refl|lia|done]. }
  destruct (match host with None => _ | Some _ => _ end) as [h|]; [|apply Hfail].
  destruct (bound h) as [l|]; [|apply Hfail].
  eapply moves_weaken; [apply moves_store_server; [done|done|]|lia|].
  - split; [|done]. split; simpl; lia.
  - intros f. unfold none, server_owns. simpl. rewrite in_list_app, in_list_nil. lia.
Qed.

(** Every operation keeps the invariant and moves connections, never losing or
    doubling one. *)
Lemma http_exec_moves op st v st' :
  op_wf op -> http_inv st -> next_handle st + 1 < 2 ^ 64 -> http_exec op st = Returns (v, st') ->
  moves 1 st st' (brings op) none.
Proof.
  intros Hwf I Hn H.
  assert (forall x : Z * NetRuntime, Returns x = Returns (v, st') -> forall n g, n <= 1 -> moves n st x.2 g none -> moves 1 st st' g none) as Hret.
  { intros x [= ->] n g Hle Hm. eapply moves_weaken; [exact Hm|lia|]. intros; lia. }
  assert (forall e, moves 0 st (fail_bool e (reset_last_error st)).2 none none) as Hfail.
  { intros e. by apply (moves_error e 0 st st), moves_refl. }
  pose proof (reset_inv _ I) as Ir.
  destruct op; cbn [http_exec] in H; cbn [brings].
  - by eapply Hret; [exact H| |by apply bind_moves].
  - eapply (Hret _ H 0); [lia|]. unfold sengoo_http_server_set_limits. case_match; [apply Hfail|].
    apply moves_bool, moves_reset, config_moves; [done|]. intros s [_ Hl]. split; [|done]. by split.
  - eapply (Hret _ H 0); [lia|]. by apply moves_bool, moves_reset, set_keep_alive_moves.
  - eapply (Hret _ H 0); [lia|]. unfold sengoo_http_server_add_route. repeat case_match; try apply Hfail.
    by apply moves_bool, moves_reset, config_moves.
  - eapply (Hret _ H 0); [lia|]. unfold sengoo_http_server_add_ws_echo_route. repeat case_match; try apply Hfail.
    by apply moves_bool, moves_reset, config_moves.
  - eapply (Hret _ H 0); [lia|]. unfold sengoo_http_server_add_middleware_require_header.
    repeat case_match; try apply Hfail. by apply moves_bool, moves_reset, config_moves.
  - apply serve_once_moves in H; [|done]. eapply moves_weaken; [exact H|lia|done].
  - eapply (Hret _ H 0); [lia|]. by apply server_close_moves.
  - eapply (Hret _ H 0); [lia|]. unfold sengoo_http_server_claim_serve_mode. case_match; [apply Hfail|].
    by apply moves_bool, moves_reset, claim_moves.
  - unfold sengoo_http_server_next_request in H.
    pose proof (claim_moves h HTTP_SERVER_MODE_PULL (reset_last_error st) Ir) as Hc.
    destruct (http_server_claim_serve_mode _ _ _) as [r st1]. cbn [snd] in Hc.
    pose proof (moves_next _ _ _ _ _ Hc) as Nc. apply moves_reset. destruct r.
    + apply next_request_impl_moves in H; [|by eapply moves_inv|simpl in *; lia].
      eapply moves_weaken; [eapply moves_trans; [exact Hc|exact H]|lia|]. count.
    + simplify_eq. apply moves_error. eapply moves_weaken; [exact Hc|lia|done].
  - apply moves_reset. by apply next_request_impl_moves in H.
  - eapply (Hret _ H 0); [lia|]. by apply moves_reset, respond_impl_moves.
  - eapply (Hret _ H 0); [lia|]. unfold sengoo_http_request_respond_with_content_type.
    repeat case_match; try apply Hfail. by apply moves_reset, respond_impl_moves.
  - eapply (Hret _ H 0); [lia|]. by apply request_close_moves.
  - eapply (Hret _ H 1); [lia|]. by apply moves_reset, begin_stream_moves.
  - eapply (Hret _ H 1); [lia|]. apply moves_reset, begin_stream_moves; [done|done|]. by destruct Hwf.
  - eapply (Hret _ H 0); [lia|]. by apply stream_write_moves.
  - eapply (Hret _ H 0); [lia|]. by apply stream_finish_moves.
  - eapply (Hret _ H 0); [lia|]. by apply stream_close_moves.
Qed.

Definition brought (ops : list HttpOp) (f : Z) : nat := sum_list_with (fun op => brings op f) ops.

Lemma http_run_moves ops st st' :
  Forall op_wf ops -> http_inv st -> next_handle st + Z.of_nat (length ops) < 2 ^ 64 ->
  http_run ops st = Returns st' -> moves (Z.of_nat (length ops)) st st' (brought ops) none.
Proof.
  intros Hwf. revert st. induction Hwf as [|op ops Hop Hops IH]; intros st I Hn H.
  { simpl in H. simplify_eq. by apply moves_refl. }
  cbn [http_run] in H. destruct (http_exec op st) as [[v st1]| |] eqn:E; try done.
  simpl length in *. apply http_exec_moves in E; [|done|done|lia].
  pose proof (moves_next _ _ _ _ _ E) as N1. apply IH in H; [|by eapply moves_inv|lia].
  eapply moves_weaken; [eapply moves_trans; [exact E|exact H]|lia|]. intros f. unfold brought, none. simpl. lia.
Qed.

(** C29: on every run of the server's C interface from the start, each
    connection that a listener accepts is at every moment in exactly one
    place: the listener's queue, a server's idle slot, a request handle, a
    response stream, or closed.  None is lost and none has two owners. *)
Theorem connections_have_one_owner (ops : list HttpOp) (st : NetRuntime) :
  Forall op_wf ops -> Z.of_nat (length ops) < 2 ^ 63 ->
  (forall f, (brought ops f <= 1)%nat) -> http_run ops runtime_init = Returns st ->
  forall f, owners st f = brought ops f /\ (owners st f <= 1)%nat.
Proof.
  intros Hwf Hl Hb H f. apply http_run_moves in H as (_ & _ & F); [|done|apply http_inv_init|simpl; lia].
  specialize (F f). specialize (Hb f). unfold none in F.
  assert (owners runtime_init f = 0%nat) as H0 by (unfold owners; simpl; by rewrite !tsum_empty).
  lia.
Qed.

(** On every run, no server has more than 64 requests waiting for their
    answers, every waiting request's body is within the limit it was read
    under, and no connection carries more than a hundred requests: one that
    is kept alive has answered fewer than that. *)
Theorem http_tables_bounded (ops : list HttpOp) (st : NetRuntime) :
  Forall op_wf ops -> Z.of_nat (length ops) < 2 ^ 63 -> http_run ops runtime_init = Returns st ->
  (forall s, (http_request_pending_count s st <= 64)%nat) /\
  (forall h e, http_requests st !! h = Some e ->
     Z.of_nat (length (e_body e)) <= e_max_body e /\ answered_before e < 100) /\
  (forall h e, http_response_streams st !! h = Some e -> s_answered_before e < 100) /\
  (forall h s l, http_servers st !! h = Some s -> live_connection s = Some l -> 1 <= answered_count l < 100).
Proof.
  intros Hwf Hl H. apply http_run_moves in H as (I & _); [|done|apply http_inv_init|simpl; lia].
  destruct I as [_ Hs Hr Ht Hp _ _ _]. split; [exact Hp|]. split; [|split].
  - intros h e He. apply Hr in He as [? ?]. unfold HTTP_KEEP_ALIVE_MAX_REQUESTS in *. lia.
  - intros h e He. apply Ht in He as [? _]. unfold HTTP_KEEP_ALIVE_MAX_REQUESTS in *. lia.
  - intros h s l He Hlv. apply Hs in He as [_ He]. rewrite Hlv in He. exact He.
Qed.

(** *** Answered once *)

(** A call that answers the request [h]. *)
Definition answers (h : Z) (op : HttpOp) : Prop :=
  match op with
  | ORespond h' _ _ _ _ | ORespondType h' _ _ _ _ _ | OClose h' | OBegin h' _ | OBeginLength h' _ _ => h' = h
  | _ => False
  end.

(** The same state but for the last error. *)
Definition same_but_error (st st' : NetRuntime) : Prop := exists e, st' = set_last_error e st.

Lemma respond_impl_once h status ct body len now st :
  ((respond_impl h status ct body len now st).1 = 1 ->
     http_requests (respond_impl h status ct body len now st).2 !! h = None) /\
  (http_requests st !! h = None -> same_but_error st (respond_impl h status ct body len now st).2).
Proof.
  unfold respond_impl, http_request_with_entry, http_request_take, fail_bool.
  assert (forall e, same_but_error st (set_last_error e st)) as Hsame by (by eexists).
  assert (forall server l st, http_requests (http_server_put_live_connection server l st) = http_requests st) as Hput.
  { intros server l st0. unfold http_server_put_live_connection, replace_live. by repeat case_match; simplify_eq. }
  split.
  - repeat case_match; simplify_eq; simpl; try done; intros _; rewrite ?Hput; simpl; by rewrite ?lookup_delete_eq.
  - intros ->. repeat case_match; simplify_eq; apply Hsame.
Qed.

Lemma respond_impl_value h status ct body len now st v st' :
  respond_impl h status ct body len now st = (v, st') -> v <> 0 -> v = 1.
Proof. unfold respond_impl, fail_bool. intros H Hv. repeat case_match; by simplify_eq. Qed.

Lemma begin_stream_once h status len st :
  0 < next_handle st ->
  ((begin_stream_impl h status len st).1 <> 0 -> http_requests (begin_stream_impl h status len st).2 !! h = None) /\
  (http_requests st !! h = None -> same_but_error st (begin_stream_impl h status len st).2).
Proof.
  intros Hn. unfold begin_stream_impl, http_request_take, fail_handle.
  assert (forall e, same_but_error st (set_last_error e st)) as Hsame by (by eexists).
  split.
  - repeat case_match; simplify_eq; simpl; try done; intros _; by rewrite ?lookup_delete_eq.
  - intros ->. repeat case_match; simplify_eq; apply Hsame.
Qed.

(** The calls that end the life of a handle of a request or of a response
    stream, and those that work on it. *)
Inductive HandleKind := RequestHandle | StreamHandle.

Definition ends (k : HandleKind) (h : Z) (op : HttpOp) : Prop :=
  match k, op with
  | RequestHandle, _ => answers h op
  | StreamHandle, (OFinish h' _ | OStreamClose h') => h' = h
  | StreamHandle, _ => False
  end.
Definition works_on (k : HandleKind) (h : Z) (op : HttpOp) : Prop :=
  match k, op with
  | StreamHandle, OWrite h' _ _ => h' = h
  | _, _ => ends k h op
  end.
Definition gone (k : HandleKind) (h : Z) (st : NetRuntime) : Prop :=
  match k with RequestHandle => http_requests st !! h = None | StreamHandle => http_response_streams st !! h = None end.

Lemma request_given_up h op st v st1 :
  http_inv st -> answers h op -> http_exec op st = Returns (v, st1) -> v <> 0 -> http_requests st1 !! h = None.
Proof.
  intros I Ha He Hv.
  destruct op; simpl in Ha; try done; subst; cbn [http_exec] in He; simplify_eq.
  - destruct (respond_impl_once h status None body len now (reset_last_error st)) as [H _].
    unfold sengoo_http_request_respond in He. rewrite He in H. simpl in H. apply H.
    by eapply respond_impl_value.
  - unfold sengoo_http_request_respond_with_content_type, fail_bool in He. repeat case_match; simplify_eq; try done.
    match goal with H : respond_impl _ _ ?ct _ _ _ _ = _ |- _ => rename H into Hri;
      destruct (respond_impl_once h status ct body len now (reset_last_error st)) as [Hg _] end.
    rewrite Hri in Hg. simpl in Hg. apply Hg.
    by eapply respond_impl_value.
  - unfold sengoo_http_request_close, http_request_take, respond_and_drop in He.
    repeat case_match; simplify_eq; simpl in *; try done. by rewrite lookup_delete_eq.
  - destruct (begin_stream_once h status None (reset_last_error st)) as [H _]; [apply (inv_next _ I)|].
    unfold sengoo_http_request_begin_stream in He. rewrite He in H. by apply H.
  - destruct (begin_stream_once h status (Some n) (reset_last_error st)) as [H _]; [apply (inv_next _ I)|].
    unfold sengoo_http_request_begin_stream_with_length in He. rewrite He in H. by apply H.
Qed.

Lemma put_live_streams server l st : http_response_streams (http_server_put_live_connection server l st) = http_response_streams st.
Proof. unfold http_server_put_live_connection, replace_live. by repeat case_match; simplify_eq. Qed.

(** Whatever the outcome, the handle of a stream is given up. *)
Lemma stream_given_up h op st v st1 :
  ends StreamHandle h op -> http_exec op st = Returns (v, st1) -> http_response_streams st1 !! h = None.
Proof.
  destruct op; simpl; try done; intros -> He; injection He as He;
    unfold sengoo_http_response_stream_finish, sengoo_http_response_stream_close, http_response_stream_take, fail_bool in He;
    repeat case_match; simplify_eq; simpl in *; rewrite ?put_live_streams; simpl; rewrite ?lookup_delete_eq; done.
Qed.

Lemma gone_request h op st v st' :
  http_inv st -> http_requests st !! h = None -> answers h op -> http_exec op st = Returns (v, st') -> same_but_error st st'.
Proof.
  intros I Hg Ha He. assert (forall x, same_but_error (reset_last_error st) x -> same_but_error st x) as Hreset.
  { intros x [e ->]. by exists e. }
  destruct op; simpl in Ha; try done; subst; cbn [http_exec] in He; simplify_eq; apply Hreset.
  - unfold sengoo_http_request_respond in He.
    destruct (respond_impl_once h status None body len now (reset_last_error st)) as [_ H]. rewrite He in H. by apply H.
  - unfold sengoo_http_request_respond_with_content_type, fail_bool in He. repeat case_match; simplify_eq; try (by eexists).
    match goal with H : respond_impl _ _ ?ct _ _ _ _ = _ |- _ => rename H into Hri;
      destruct (respond_impl_once h status ct body len now (reset_last_error st)) as [_ Hn] end.
    rewrite Hri in Hn. by apply Hn.
  - unfold sengoo_http_request_close, http_request_take in He. simpl in He. rewrite Hg in He. simplify_eq. by eexists.
  - unfold sengoo_http_request_begin_stream in He.
    destruct (begin_stream_once h status None (reset_last_error st)) as [_ H]; [apply (inv_next _ I)|]. rewrite He in H. by apply H.
  - unfold sengoo_http_request_begin_stream_with_length in He.
    destruct (begin_stream_once h status (Some n) (reset_last_error st)) as [_ H]; [apply (inv_next _ I)|]. rewrite He in H. by apply H.
Qed.

Lemma gone_stream h op st v st' :
  http_response_streams st !! h = None -> works_on StreamHandle h op -> http_exec op st = Returns (v, st') -> same_but_error st st'.
Proof.
  intros Hg Ha He. destruct op; simpl in Ha; try done; subst; injection He as He;
    unfold sengoo_http_response_stream_write, sengoo_http_response_stream_finish, sengoo_http_response_stream_close,
      http_response_stream_take, fail_bool in He; simpl in He; rewrite ?Hg in He;
    repeat case_match; simplify_eq; by eexists.
Qed.

(** C30: a request and a response stream are answered and ended at most once.
    A successful answer to a request (a response, a close or the start of a
    stream) and every finish or close of a stream give the handle up; no later
    operation brings it back; and a call on a handle that was given up writes
    nothing and changes nothing but the last error. *)
Theorem request_answered_once (k : HandleKind) (h : Z) (op : HttpOp) (ops : list HttpOp) (st st1 st2 : NetRuntime) (v : Z) :
  http_inv st -> h < next_handle st -> ends k h op -> op_wf op -> Forall op_wf ops ->
  next_handle st + 1 + Z.of_nat (length ops) < 2 ^ 64 ->
  http_exec op st = Returns (v, st1) -> (k = RequestHandle -> v <> 0) -> http_run ops st1 = Returns st2 ->
  gone k h st2 /\
  forall op' v' st3, works_on k h op' -> http_exec op' st2 = Returns (v', st3) -> same_but_error st2 st3.
Proof.
  intros I Hh Ha Hwf Hwfs Hn He Hv Hr.
  assert (gone k h st1) as H1 by (destruct k; [by eapply request_given_up; eauto|by eapply stream_given_up]).
  apply http_exec_moves in He; [|done|done|lia]. pose proof (moves_next _ _ _ _ _ He) as N1.
  apply http_run_moves in Hr; [|done|by eapply moves_inv|lia].
  destruct Hr as (I2 & [_ [G G']] & _).
  assert (gone k h st2) as H2 by (destruct k; [apply G|apply G']; done || lia).
  split; [done|]. intros op' v' st3 Ha' He'. destruct k; [by eapply gone_request|by eapply gone_stream].
Qed.
End Runs.

(** ** Runs that the theorems speak of *)

Definition sample_request : bytes := lit "GET /item?id=3 HTTP/1.1" ++ CRLF ++ CRLF.

Definition sample_ops : list HttpOp :=
  [OBind None (fun _ => Ok [Ok (7, mkConn [Data (take 9 sample_request); Data (drop 9 sample_request)] [] [])]);
   ONext 3 1 0 0; ORespond 2 200 (Some (lit "three")) 5 0].

Definition final (r : outcome NetRuntime) : NetRuntime := match r with Returns st => st | _ => runtime_init end.

Lemma sample_wf : Forall op_wf sample_ops.
Proof. repeat constructor. Qed.

Lemma connections_have_one_owner_witness :
  owners (final (http_run 1000 map_to_list sample_ops runtime_init)) 7 = brought sample_ops 7 /\
  (owners (final (http_run 1000 map_to_list sample_ops runtime_init)) 7 <= 1)%nat.
Proof.
  apply (connections_have_one_owner 1000 map_to_list sample_ops); [apply sample_wf|simpl; lia| |].
  - intros f. unfold brought. cbn [sample_ops sum_list_with]. simpl. unfold none, in_list, is_fd. simpl.
    case_match; lia.
  - vm_compute. reflexivity.
Defined.

Lemma http_tables_bounded_witness :
  let st := final (http_run 1000 map_to_list (take 2 sample_ops) runtime_init) in
  http_request_pending_count 1 st = 1%nat /\ (http_request_pending_count 1 st <= 64)%nat.
Proof.
  split; [vm_compute; reflexivity|].
  apply (http_tables_bounded 1000 map_to_list (take 2 sample_ops)); [|simpl; lia|vm_compute; reflexivity].
  apply Forall_take, sample_wf.
Defined.

Lemma request_answered_once_witness :
  let st := final (http_run 1000 map_to_list (take 2 sample_ops) runtime_init) in
  let st1 := final (http_run 1000 map_to_list sample_ops runtime_init) in
  http_requests st !! 2 <> None /\ http_requests st1 !! 2 = None.
Proof.
  intros st st1. split; [vm_compute; discriminate|].
  apply (request_answered_once 1000 map_to_list RequestHandle 2 (ORespond 2 200 (Some (lit "three")) 5 0) [] st st1 st1 1).
  - assert (moves 2 runtime_init st (brought (take 2 sample_ops)) none) as Hm; [|by eapply moves_inv].
    apply (http_run_moves 1000 map_to_list (take 2 sample_ops)); [apply Forall_take, sample_wf|apply http_inv_init|done|].
    vm_compute. reflexivity.
  - vm_compute. reflexivity.
  - reflexivity.
  - exact Logic.I.
  - constructor.
  - vm_compute. reflexivity.
  - vm_compute. reflexivity.
  - intros _. discriminate.
  - reflexivity.
Defined.
