(* ===== verification/HttpRoundtrip.v ===== *)
(** Client and server read what the other side writes: requests, responses
    and streamed responses, and a request served from end to end. *)

From S2P Require Import Prelude NetBytes Net WebSocket HttpServer HttpInv HttpText HttpState HttpHandles.

Local Open Scope Z_scope.

(** ** Message heads *)

(** A first line and header fields, as they go over the wire. *)
Definition head_text (first : bytes) (fields : list (bytes * bytes)) : bytes :=
  joined (first :: map field fields).

Lemma head_text_lines first fields :
  first ++ CRLF ++ flat_map header_line fields = head_text first fields ++ CRLF.
Proof.
  unfold head_text. rewrite <- joined_lines. cbn [flat_map]. rewrite <- (assoc_L (++)). do 2 f_equal.
  induction fields as [|h hs IH]; [done|]. cbn [map flat_map]. rewrite <- IH.
  unfold header_line, field. by rewrite <- !(assoc_L (++)).
Qed.

Lemma head_lines_ok first fields :
  line_ok first -> Forall field_ok fields -> Forall line_ok (first :: map field fields).
Proof.
  intros Hf Hs. constructor; [done|]. apply Forall_map. eapply Forall_impl; [exact Hs|].
  intros h Hh. by apply field_line_ok.
Qed.

Lemma head_text_found first fields rest :
  line_ok first -> Forall field_ok fields ->
  find_sub (CRLF ++ CRLF) (head_text first fields ++ CRLF ++ CRLF ++ rest) =
  Some (length (head_text first fields)).
Proof. intros. by apply blank_line_found, head_lines_ok. Qed.

Lemma head_text_utf8 first fields :
  line_ok first -> Forall field_ok fields -> from_utf8 (head_text first fields) = Some (head_text first fields).
Proof.
  intros Hf Hs. apply utf8_ascii, joined_ascii.
  eapply Forall_impl; [by apply head_lines_ok|]. by intros l [_ ?].
Qed.

Lemma head_text_split first fields :
  line_ok first -> Forall field_ok fields -> split CRLF (head_text first fields) = first :: map field fields.
Proof. intros. by apply split_joined, head_lines_ok. Qed.

(** ** Responses *)

Definition status_text (status : Z) : bytes :=
  lit "HTTP/1.1 " ++ show_signed status ++ lit " " ++ http_reason_phrase status.

Lemma status_text_reads status :
  100 <= status <= 599 -> line_ok (status_text status) /\ parse_status_code (status_text status) = Ok status.
Proof.
  intros Hs.
  assert (forallb (fun n => let s := Z.of_nat n in
            bool_decide (line_ok (status_text s)) && bool_decide (parse_status_code (status_text s) = Ok s))
            (seq 100 500) = true) as H by (vm_compute; reflexivity).
  rewrite forallb_forall in H. specialize (H (Z.to_nat status)). rewrite in_seq in H.
  specialize (H ltac:(lia)). cbv zeta in H. rewrite Z2Nat.id in H by lia.
  apply andb_true_iff in H as [H1 H2]. apply bool_decide_eq_true in H1, H2. done.
Qed.

(** A response head of printable fields is split off and parsed. *)
Lemma response_head_parsed status fields body :
  100 <= status <= 599 -> Forall field_ok fields ->
  split_http_headers_and_body (head_text (status_text status) fields ++ CRLF ++ CRLF ++ body) =
    Ok (head_text (status_text status) fields, body) /\
  parse_http_headers (head_text (status_text status) fields) = Ok (status, store_fields fields ∅).
Proof.
  intros Hs Hf. destruct (status_text_reads status Hs) as [Hl Hp]. split.
  - unfold split_http_headers_and_body. rewrite head_text_found by done.
    rewrite take_app_length. by rewrite <- drop_drop, drop_app_length.
  - unfold parse_http_headers. rewrite head_text_utf8, head_text_split by done.
    rewrite Hp, parse_fields by done. done.
Qed.

(** What one response field set leaves for a header the fields do not name. *)
Lemma store_fields_other name hs m :
  Forall (fun h => to_ascii_lowercase h.1 <> name) hs -> store_fields hs m !! name = m !! name.
Proof.
  unfold store_fields. intros H. revert m. induction H as [|h hs Hh Hhs IH]; intros m; [done|].
  cbn [foldl]. rewrite IH. by apply lookup_insert_ne.
Qed.

Lemma or_header_fields n v hs :
  field_ok (n, v) -> Forall field_ok hs -> Forall field_ok (or_header n v hs).
Proof. intros. unfold or_header. case_match; [done|]. apply Forall_app. split; [done|]. by constructor. Qed.

Lemma or_header_other name n v hs :
  to_ascii_lowercase n <> name -> Forall (fun h => to_ascii_lowercase h.1 <> name) hs ->
  Forall (fun h => to_ascii_lowercase h.1 <> name) (or_header n v hs).
Proof. intros. unfold or_header. case_match; [done|]. apply Forall_app. split; [done|]. by constructor. Qed.

Lemma show_dec_word n : word (show_dec n).
Proof.
  destruct (show_dec_chars n) as [Hc Hne]. split; [done|]. eapply Forall_impl; [exact Hc|].
  unfold is_digit_char, graphic. simpl. intros; lia.
Qed.

Lemma field_ok_value n v : bool_decide (word n /\ 58 ∉ n) = true -> value_ok v -> field_ok (n, v).
Proof. intros H Hv. apply bool_decide_eq_true in H as [? ?]. done. Qed.

Lemma value_ok_literal v : bool_decide (value_ok v) = true -> value_ok v.
Proof. apply bool_decide_eq_true. Qed.

Lemma response_fields_ok r ka :
  Forall field_ok (rs_headers r) -> Forall field_ok (response_headers r ka).
Proof.
  intros H. unfold response_headers. apply or_header_fields.
  { apply field_ok_value; [vm_compute; reflexivity|]. apply word_value, show_dec_word. }
  apply or_header_fields.
  { apply field_ok_value; [vm_compute; reflexivity|].
    destruct ka; apply value_ok_literal; vm_compute; reflexivity. }
  apply or_header_fields; [|done].
  apply field_ok_value; [vm_compute; reflexivity|]. apply value_ok_literal; vm_compute; reflexivity.
Qed.

Lemma response_head_text r ka :
  response_head r ka = head_text (status_text (rs_status r)) (response_headers r ka) ++ CRLF ++ CRLF.
Proof.
  unfold response_head. rewrite (assoc_L (++) (head_text _ _)), <- head_text_lines.
  unfold status_line, status_text. by rewrite <- !(assoc_L (++)).
Qed.

Definition not_chunked_field (h : bytes * bytes) : Prop := to_ascii_lowercase h.1 <> lit "transfer-encoding".

Lemma plain_response_read (r : HttpServerResponse) (keep_alive : bool) :
  100 <= rs_status r <= 599 -> Forall field_ok (rs_headers r) -> Forall not_chunked_field (rs_headers r) ->
  read_response (response_head r keep_alive ++ rs_body r) =
  Returns (Ok (mkHttpResponse (rs_status r) (rs_body r))).
Proof.
  intros Hs Hf Hc. rewrite response_head_text, <- !(assoc_L (++)).
  destruct (response_head_parsed (rs_status r) (response_headers r keep_alive) (rs_body r) Hs)
    as [H1 H2]; [by apply response_fields_ok|].
  unfold read_response. rewrite H1, H2.
  rewrite store_fields_other; [done|].
  unfold response_headers.
  repeat (apply or_header_other; [vm_compute; discriminate|]). done.
Qed.

(** Whatever response the server writes with fields of printable text,
    the client reads back its status and its body, byte for byte. *)
Theorem response_read_back (r : HttpServerResponse) (keep_alive : bool) :
  100 <= rs_status r <= 599 -> Forall field_ok (rs_headers r) -> Forall not_chunked_field (rs_headers r) ->
  read_response (response_head r keep_alive ++ rs_body r) =
  Returns (Ok (mkHttpResponse (rs_status r) (rs_body r))).
Proof. apply plain_response_read. Qed.

Lemma response_read_back_witness :
  read_response (response_head (mkResponse 404 [(lit "X-Trace", lit "a b")] [0; 13; 10; 255]) true ++ [0; 13; 10; 255]) =
  Returns (Ok (mkHttpResponse 404 [0; 13; 10; 255])).
Proof.
  apply (response_read_back (mkResponse 404 [(lit "X-Trace", lit "a b")] [0; 13; 10; 255]) true).
  - simpl. lia.
  - apply (bool_decide_unpack _). vm_compute. done.
  - constructor; [vm_compute; discriminate|constructor].
Defined.

(** ** Chunks *)

Definition chunk_text (chunk : bytes) : bytes := show_hex (Z.of_nat (length chunk)) ++ CRLF ++ chunk ++ CRLF.

Lemma show_hex_word n : word (show_hex n).
Proof.
  destruct (show_hex_chars n) as [Hc Hne]. split; [done|]. eapply Forall_impl; [exact Hc|].
  unfold is_digit_char, graphic. simpl. intros; lia.
Qed.

Lemma hex_no_semicolon n : 59 ∉ show_hex n.
Proof.
  intros H. destruct (show_hex_chars n) as [Hc _]. rewrite Forall_forall in Hc. apply Hc in H.
  unfold is_digit_char in H. lia.
Qed.

(** The size line of a chunk is read back. *)
Lemma decode_size_line n rest :
  0 <= n < 2 ^ 64 ->
  find_sub CRLF (show_hex n ++ CRLF ++ rest) = Some (length (show_hex n)) /\
  from_utf8 (show_hex n) = Some (show_hex n) /\
  parse_unsigned 64 16 (trim (default [] (head (split (lit ";") (show_hex n))))) = Some n.
Proof.
  intros Hn. pose proof (show_hex_word n) as [Hne Hg].
  pose proof (graphic_printable _ Hg) as Hp. repeat split.
  - apply (find_sub_at 13 [10]). by apply printable_no_cr.
  - apply utf8_ascii. eapply Forall_impl; [exact Hg|]. unfold graphic. simpl. intros; lia.
  - change (lit ";") with [59]. rewrite split_single by apply hex_no_semicolon. cbn [head default].
    unfold default, from_option, id. rewrite trim_value by (apply word_value; by split).
    unfold show_hex. apply parse_show; lia.
Qed.

Lemma decode_chunk_text chunk rest :
  chunk <> [] -> Z.of_nat (length chunk) < 2 ^ 64 ->
  decode_chunk (chunk_text chunk ++ rest) = Ok (Some (chunk, rest)).
Proof.
  intros Hne Hlen. unfold chunk_text. rewrite <- !(assoc_L (++)).
  destruct (decode_size_line (Z.of_nat (length chunk)) (chunk ++ CRLF ++ rest)) as (H1 & H2 & H3); [lia|].
  unfold decode_chunk. rewrite H1, take_app_length, H2, H3.
  rewrite <- drop_drop, drop_app_length. change (drop 2 (CRLF ++ ?l)) with l.
  replace (Z.of_nat (length chunk) =? 0) with false.
  2: { symmetry. apply Z.eqb_neq. destruct chunk; [done|simpl; lia]. }
  rewrite !length_app. change (length CRLF) with 2%nat.
  replace (Z.of_nat (length chunk + (2 + length rest)) <? Z.of_nat (length chunk)) with false
    by (symmetry; apply Z.ltb_ge; lia).
  rewrite Nat2Z.id, drop_app_length, take_app_length. change (take 2 (CRLF ++ rest)) with CRLF.
  unfold bytes_eqb. rewrite bool_decide_true by done.
  by rewrite <- drop_drop, drop_app_length.
Qed.

Lemma decode_terminator : decode_chunk chunked_end = Ok None.
Proof. vm_compute. reflexivity. Qed.

Lemma chunk_text_length chunk : (4 <= length (chunk_text chunk))%nat.
Proof. unfold chunk_text. rewrite !length_app. change (length CRLF) with 2%nat. lia. Qed.

Lemma decode_chunks chunks fuel dec :
  Forall (fun ch => ch <> [] /\ Z.of_nat (length ch) < 2 ^ 64) chunks -> (length chunks < fuel)%nat ->
  decode_chunked_loop fuel (flat_map chunk_text chunks ++ chunked_end) dec = Returns (Ok (dec ++ concat chunks)).
Proof.
  intros H. revert fuel dec. induction H as [|ch chunks [Hne Hl] Hcs IH]; intros fuel dec Hf;
    (destruct fuel as [|fuel]; [simpl in Hf; lia|]); cbn [flat_map decode_chunked_loop].
  - cbn [app]. rewrite decode_terminator. cbn [concat]. by rewrite app_nil_r.
  - rewrite <- (assoc_L (++)), decode_chunk_text by done. rewrite IH by (simpl in Hf; lia).
    cbn [concat]. by rewrite (assoc_L (++)).
Qed.

Lemma chunks_decoded chunks :
  Forall (fun ch => ch <> [] /\ Z.of_nat (length ch) < 2 ^ 64) chunks ->
  decode_chunked_body (flat_map chunk_text chunks ++ chunked_end) = Returns (Ok (concat chunks)).
Proof.
  intros H. unfold decode_chunked_body. rewrite decode_chunks; [done|done|].
  rewrite length_app. assert (length chunks <= length (flat_map chunk_text chunks))%nat; [|lia].
  clear. induction chunks as [|ch cs IH]; [done|]. cbn [flat_map length]. rewrite length_app.
  pose proof (chunk_text_length ch). lia.
Qed.

(** ** Streamed responses *)

Definition stream_fields (content_length : option Z) (keep_alive : bool) : list (bytes * bytes) :=
  [(lit "Content-Type", lit "text/plain; charset=utf-8");
   (lit "Connection", if keep_alive then lit "keep-alive" else lit "close");
   match content_length with
   | Some len => (lit "Content-Length", show_dec len)
   | None => (lit "Transfer-Encoding", lit "chunked")
   end].

Lemma stream_head_text status len ka :
  stream_head status len ka = head_text (status_text status) (stream_fields len ka) ++ CRLF ++ CRLF.
Proof.
  rewrite (assoc_L (++) (head_text _ _)), <- head_text_lines. unfold stream_head, status_text, stream_fields.
  cbn [flat_map]. unfold header_line. cbn [fst snd].
  change (lit "Content-Type: text/plain; charset=utf-8") with (lit "Content-Type" ++ lit ": " ++ lit "text/plain; charset=utf-8").
  change (lit "Connection: ") with (lit "Connection" ++ lit ": ").
  destruct len as [n|].
  - change (lit "Content-Length: ") with (lit "Content-Length" ++ lit ": "). by rewrite <- !(assoc_L (++)).
  - change (lit "Transfer-Encoding: chunked") with (lit "Transfer-Encoding" ++ lit ": " ++ lit "chunked").
    by rewrite <- !(assoc_L (++)).
Qed.

Lemma stream_fields_ok len ka : Forall field_ok (stream_fields len ka).
Proof.
  unfold stream_fields. constructor; [|constructor; [|constructor; [|constructor]]].
  - apply (bool_decide_unpack _). vm_compute. done.
  - apply field_ok_value; [vm_compute; reflexivity|]. destruct ka; apply value_ok_literal; vm_compute; reflexivity.
  - destruct len as [n|]; (apply field_ok_value; [vm_compute; reflexivity|]).
    + apply word_value, show_dec_word.
    + apply value_ok_literal. vm_compute. reflexivity.
Qed.

(** What the client makes of a streamed response, by its head. *)
Lemma stream_read_back status len ka body :
  100 <= status <= 599 ->
  read_response (stream_head status len ka ++ body) =
  match len with
  | Some _ => Returns (Ok (mkHttpResponse status body))
  | None => run! b := decode_chunked_body body in Returns (let? b := b in Ok (mkHttpResponse status b))
  end.
Proof.
  intros Hs. rewrite stream_head_text, <- !(assoc_L (++)).
  destruct (response_head_parsed status (stream_fields len ka) body Hs (stream_fields_ok len ka)) as [H1 H2].
  unfold read_response. rewrite H1, H2.
  assert (forall a b c, store_fields [(lit "Content-Type", a); (lit "Connection", b); (lit "Content-Length", c)] ∅
            !! lit "transfer-encoding" = None) as Hlen by (intros; vm_compute; reflexivity).
  assert (forall a b, store_fields [(lit "Content-Type", a); (lit "Connection", b); (lit "Transfer-Encoding", lit "chunked")] ∅
            !! lit "transfer-encoding" = Some (lit "chunked")) as Hch by (intros; vm_compute; reflexivity).
  unfold stream_fields. destruct len.
  - by rewrite Hlen.
  - rewrite Hch. by change (contains (lit "chunked") (to_ascii_lowercase (lit "chunked"))) with true.
Qed.

(** *** A streamed response through the C interface *)

(** A socket whose writes succeed, and the socket after some bytes went out. *)
Definition calm (s : Socket) : Prop := c_writes (conn_of (sconn s)) = [].
Definition sent (s : Socket) : bytes := c_out (conn_of (sconn s)).
Definition emit (s : Socket) (bs : bytes) : Socket :=
  with_sconn s (with_conn (sconn s) (mkConn (c_in (conn_of (sconn s))) (sent s ++ bs) [])).

Lemma emit_calm s bs : calm (emit s bs).
Proof. unfold calm, emit. simpl. by destruct (sconn s). Qed.

Lemma emit_sent s bs : sent (emit s bs) = sent s ++ bs.
Proof. unfold emit, sent. simpl. by destruct (sconn s). Qed.

Lemma emit_emit s a b : emit (emit s a) b = emit s (a ++ b).
Proof. unfold emit, sent. destruct s as [n [c|c]]; simpl; by rewrite (assoc_L (++)). Qed.

Lemma write_pieces_ok ps c :
  c_writes c = [] -> write_pieces ps c = (Ok tt, mkConn (c_in c) (c_out c ++ concat ps) []).
Proof.
  revert c. induction ps as [|p ps IH]; intros c Hw; cbn [write_pieces concat].
  - rewrite app_nil_r. destruct c. simpl in Hw. by subst.
  - rewrite write_all_ok by done. rewrite IH by done. cbn [c_in c_out]. by rewrite (assoc_L (++)).
Qed.

Lemma on_socket_ok ps s : calm s -> on_socket (write_pieces ps) s = (Ok tt, emit s (concat ps)).
Proof. intros Hc. unfold on_socket. by rewrite write_pieces_ok. Qed.

(** The bytes of a chunk in either mode, and the mode after it. *)
Definition piece (m : HttpStreamBodyMode) (chunk : bytes) : bytes :=
  match m with Chunked => chunk_text chunk | Fixed _ => chunk end.
Definition mode_after (m : HttpStreamBodyMode) (n : nat) : HttpStreamBodyMode :=
  match m with Chunked => Chunked | Fixed k => Fixed (k - Z.of_nat n) end.
Definition room (m : HttpStreamBodyMode) (n : nat) : Prop :=
  match m with Chunked => True | Fixed k => Z.of_nat n <= k end.

Definition stream_with (e : HttpResponseStreamEntry) (s : Socket) (m : HttpStreamBodyMode) : HttpResponseStreamEntry :=
  mkStream (s_server e) s m (s_finished e) (s_answered_before e) (s_client_wants_close e) (s_version e).

Lemma stream_write_entry_writes chunk e :
  s_finished e = false -> calm (s_stream e) -> room (s_mode e) (length chunk) ->
  stream_write_entry chunk e =
  (Ok 1, stream_with e (emit (s_stream e) (piece (s_mode e) chunk)) (mode_after (s_mode e) (length chunk))).
Proof.
  intros Hf Hc Hr. unfold stream_write_entry. rewrite Hf. destruct (s_mode e) as [|n] eqn:Em; simpl in Hr.
  - unfold write_chunked_body_chunk. rewrite on_socket_ok by done. cbn [concat piece mode_after].
    unfold stream_with, chunk_text. rewrite Hf, app_nil_r, <- !(assoc_L (++)). done.
  - replace (n <? Z.of_nat (length chunk)) with false by (symmetry; apply Z.ltb_ge; lia).
    rewrite on_socket_ok by done. cbn [concat]. rewrite app_nil_r. unfold stream_with. by rewrite Hf.
Qed.

Section Session.
Context (alloc_max : Z) (order : gmap bytes bytes -> list (bytes * bytes)).

Definition write_op (sh : Z) (chunk : bytes) : HttpOp := OWrite sh (Some chunk) (length chunk).

Lemma run_writes sh chunks st e :
  http_response_streams st !! sh = Some e -> s_finished e = false -> calm (s_stream e) ->
  Forall (fun ch => Z.of_nat (length ch) <= HTTP_STREAM_MAX_CHUNK) chunks ->
  room (s_mode e) (length (concat chunks)) ->
  exists st', http_run alloc_max order (map (write_op sh) chunks) st = Returns st' /\
    http_response_streams st' !! sh =
      Some (stream_with e (emit (s_stream e) (flat_map (piece (s_mode e)) chunks)) (mode_after (s_mode e) (length (concat chunks)))) /\
    http_servers st' = http_servers st /\ closed st' = closed st.
Proof.
  intros Hs Hf Hc Hl. revert st e Hs Hf Hc. induction Hl as [|ch chunks Hch Hcs IH]; intros st e Hs Hf Hc Hr.
  - exists st. cbn [map http_run flat_map concat length]. split; [done|]. rewrite Hs. split; [|done]. f_equal.
    unfold emit, sent, stream_with, mode_after. rewrite app_nil_r. unfold calm in Hc.
    destruct e as [sv [n [[i o w]|[i o w]]] m fi a cw ver]; simpl in *; subst; destruct m; simpl;
      rewrite ?Z.sub_0_r; done.
  - cbn [concat] in Hr. rewrite length_app in Hr.
    assert (room (s_mode e) (length ch)) as Hr1 by (destruct (s_mode e); simpl in *; lia).
    cbn [map http_run write_op http_exec]. unfold sengoo_http_response_stream_write.
    replace (HTTP_STREAM_MAX_CHUNK <? Z.of_nat (length ch)) with false by (symmetry; apply Z.ltb_ge; lia).
    assert (read_c_buffer (Some ch) (length ch) = Ok ch) as ->.
    { unfold read_c_buffer. destruct (length ch) eqn:El; [by destruct ch|]. by rewrite take_ge by lia. }
    simpl http_response_streams. rewrite Hs, stream_write_entry_writes by done. cbv beta iota.
    set (e1 := stream_with e _ _).
    destruct (IH (with_streams (<[sh := e1]> (http_response_streams st)) (reset_last_error st)) e1)
      as (st' & -> & H1 & H2 & H3).
    + simpl. apply lookup_insert_eq.
    + done.
    + apply emit_calm.
    + unfold e1. simpl. destruct (s_mode e); simpl in *; lia.
    + exists st'. split; [done|]. split; [|done]. rewrite H1. f_equal. unfold e1, stream_with. simpl.
      rewrite emit_emit. cbn [concat]. rewrite length_app.
      destruct (s_mode e) as [|k]; simpl; [done|]. do 2 f_equal. lia.
Qed.

(** Where a connection is once its response is complete. *)
Definition settled (st : NetRuntime) (server : Z) (s : Socket) : Prop :=
  s ∈ closed st \/
  exists srv l, http_servers st !! server = Some srv /\ live_connection srv = Some l /\ live_stream l = s.

Lemma settle_settled (ka : bool) server s n now st :
  settled (if ka then http_server_put_live_connection server (mkLive s n now) st else drop_sockets [s] st) server s.
Proof.
  destruct ka.
  - unfold http_server_put_live_connection, replace_live. destruct (http_servers st !! server) as [srv|] eqn:E.
    + right. simpl. eexists _, _. split; [apply lookup_insert_eq|]. simpl. done.
    + left. simpl. set_solver.
  - left. simpl. set_solver.
Qed.

Lemma run_finish sh e now st :
  http_response_streams st !! sh = Some e -> s_finished e = false -> calm (s_stream e) ->
  s_mode e = Chunked \/ s_mode e = Fixed 0 ->
  exists st', http_run alloc_max order [OFinish sh now] st = Returns st' /\
    settled st' (s_server e) (emit (s_stream e) (match s_mode e with Chunked => chunked_end | Fixed _ => [] end)).
Proof.
  intros Hs Hf Hc Hm. cbn [http_run http_exec].
  unfold sengoo_http_response_stream_finish, http_response_stream_take. simpl http_response_streams.
  rewrite Hs, Hf. destruct Hm as [->| ->].
  - unfold write_chunked_terminator. rewrite on_socket_ok by done. cbn [concat]. rewrite app_nil_r. cbv beta iota.
    eexists. split; [reflexivity|]. apply settle_settled.
  - cbn [Z.eqb]. cbv beta iota. eexists. split; [reflexivity|].
    assert (emit (s_stream e) [] = s_stream e) as ->; [|apply settle_settled].
    unfold emit, sent. rewrite app_nil_r. unfold calm in Hc. destruct (s_stream e) as [n [[i o w]|[i o w]]]; simpl in *; by subst.
Qed.

Lemma http_run_app ops1 ops2 st :
  http_run alloc_max order (ops1 ++ ops2) st =
  run! st1 := http_run alloc_max order ops1 st in http_run alloc_max order ops2 st1.
Proof.
  revert st. induction ops1 as [|op ops1 IH]; intros st; cbn [app http_run]; [done|].
  destruct (http_exec _ _ op st) as [[v st1]| |]; [apply IH|done|done].
Qed.

Lemma http_run_cons op ops st :
  http_run alloc_max order (op :: ops) st =
  run! (_, st1) := http_exec alloc_max order op st in http_run alloc_max order ops st1.
Proof. done. Qed.

(** Starting a stream on a pending request: the head goes out. *)
Lemma begin_stream_starts h status len st e :
  100 <= status <= 599 -> match len with Some n => 0 <= n < 2 ^ 63 | None => True end ->
  http_requests st !! h = Some e -> calm (e_stream e) ->
  exists ka st1, begin_stream_impl h status len st = (next_handle st, st1) /\
    http_response_streams st1 !! next_handle st =
      Some (mkStream (e_server e) (emit (e_stream e) (stream_head status len ka))
              (match len with Some n => Fixed n | None => Chunked end) false
              (answered_before e) (client_wants_close e) (e_version e)).
Proof.
  intros Hs Hl He Hc. unfold begin_stream_impl, status_ok.
  replace ((100 <=? status) && (status <=? 599)) with true
    by (symmetry; apply andb_true_iff; split; apply Z.leb_le; lia). cbn [negb].
  assert (match len with Some n => 2 ^ 63 - 1 <? n | None => false end = false) as ->.
  { destruct len; [|done]. apply Z.ltb_ge. lia. }
  unfold http_request_take. rewrite He. unfold write_stream_headers. rewrite on_socket_ok by done.
  cbn [concat]. rewrite app_nil_r. unfold http_response_stream_store, alloc_handle.
  eexists _, _. split; [reflexivity|]. simpl. apply lookup_insert_eq.
Qed.

(** The operations of a streamed answer. *)
Definition stream_session (h status : Z) (len : option Z) (sh : Z) (chunks : list bytes) (now : Z) : list HttpOp :=
  (match len with Some n => OBeginLength h status n | None => OBegin h status end ::
   map (write_op sh) chunks) ++ [OFinish sh now].

Lemma stream_session_sends h status len chunks now st e :
  100 <= status <= 599 ->
  match len with Some n => n = Z.of_nat (length (concat chunks)) /\ n < 2 ^ 63 | None => True end ->
  Forall (fun ch => Z.of_nat (length ch) <= HTTP_STREAM_MAX_CHUNK) chunks ->
  http_requests st !! h = Some e -> calm (e_stream e) ->
  exists ka st', http_run alloc_max order (stream_session h status len (next_handle st) chunks now) st = Returns st' /\
    settled st' (e_server e)
      (emit (e_stream e)
         (stream_head status len ka ++
          match len with Some _ => concat chunks | None => flat_map chunk_text chunks ++ chunked_end end)).
Proof.
  intros Hs Hl Hch He Hc.
  destruct (begin_stream_starts h status len (reset_last_error st) e Hs) as (ka & st1 & Hb & Hst1); try done.
  { destruct len; [lia|done]. }
  exists ka. unfold stream_session. rewrite http_run_app, http_run_cons.
  assert (http_exec alloc_max order (match len with Some n => OBeginLength h status n | None => OBegin h status end) st =
          Returns (next_handle st, st1)) as ->.
  { destruct len; cbn [http_exec]; f_equal; exact Hb. }
  cbv beta iota. simpl next_handle in Hst1.
  destruct (run_writes (next_handle st) chunks st1 _ Hst1) as (st2 & -> & H2 & _ & _); try done.
  { apply emit_calm. }
  { simpl. destruct len; simpl; [lia|done]. }
  cbv beta iota. eapply (run_finish (next_handle st) _ now st2) in H2 as (st3 & H3 & H4); try done.
  - rewrite H3. eexists. split; [done|].
    cbn [s_server s_mode s_stream stream_with mode_after piece] in H4. rewrite !emit_emit in H4.
    destruct len; cbn [mode_after] in H4; rewrite ?app_nil_r, <- ?(assoc_L (++)) in H4; [|exact H4].
    assert (flat_map (piece (Fixed z)) chunks = concat chunks) as Hfm.
    { rewrite flat_map_concat_map. unfold piece. by rewrite map_id. }
    by rewrite Hfm in H4.
  - simpl. apply emit_calm.
  - simpl. destruct len as [n|]; simpl; [right|by left]. f_equal. lia.
Qed.

(** An answer streamed through the C interface, with a declared length or
    chunked, in any number of non-empty chunks of at most 65536 bytes, reaches
    the client whole: when it is finished, what was sent on its connection
    since it began is a response from which the client reads the status and
    the chunks' concatenation. *)
Theorem streamed_response_read_back (h status : Z) (len : option Z) (chunks : list bytes) (now : Z)
    (st : NetRuntime) (e : HttpRequestEntry) :
  100 <= status <= 599 ->
  match len with Some n => n = Z.of_nat (length (concat chunks)) /\ n < 2 ^ 63 | None => True end ->
  Forall (fun ch => ch <> [] /\ Z.of_nat (length ch) <= HTTP_STREAM_MAX_CHUNK) chunks ->
  http_requests st !! h = Some e -> calm (e_stream e) ->
  exists text st', http_run alloc_max order (stream_session h status len (next_handle st) chunks now) st = Returns st' /\
    settled st' (e_server e) (emit (e_stream e) text) /\
    read_response text = Returns (Ok (mkHttpResponse status (concat chunks))).
Proof.
  intros Hs Hl Hch He Hc.
  destruct (stream_session_sends h status len chunks now st e) as (ka & st' & H1 & H2); try done.
  { eapply Forall_impl; [exact Hch|]. by intros ch [_ ?]. }
  eexists _, st'. split; [done|]. split; [exact H2|]. rewrite stream_read_back by done.
  destruct len; [done|]. rewrite chunks_decoded; [done|].
  eapply Forall_impl; [exact Hch|]. unfold HTTP_STREAM_MAX_CHUNK. intros ch [? ?]. split; [done|lia].
Qed.
End Session.

Lemma streamed_response_read_back_witness :
  let st := final (http_run 1000 map_to_list (take 2 sample_ops) runtime_init) in
  exists text st', http_run 1000 map_to_list (stream_session 2 200 None 3 [lit "ab"; lit "c"] 0) st = Returns st' /\
    settled st' 1 (emit (mkSocket 7 (Plain (mkConn [] [] []))) text) /\
    read_response text = Returns (Ok (mkHttpResponse 200 (lit "abc"))).
Proof.
  intros st. destruct (http_requests st !! 2) as [e|] eqn:E; [|vm_compute in E; discriminate].
  assert (e_server e = 1 /\ e_stream e = mkSocket 7 (Plain (mkConn [] [] []))) as [Hs He].
  { vm_compute in E. injection E as <-. split; reflexivity. }
  destruct (streamed_response_read_back 1000 map_to_list 2 200 None [lit "ab"; lit "c"] 0 st e) as (text & st' & H).
  - lia.
  - exact Logic.I.
  - repeat constructor; vm_compute; discriminate.
  - exact E.
  - rewrite He. reflexivity.
  - exists text, st'. rewrite Hs, He in H. exact H.
Defined.

(** ** The client's request at the server *)

Definition request_line (method path : bytes) : bytes := method ++ lit " " ++ path ++ lit " HTTP/1.1".

Definition client_fields (url : ParsedUrl) (body : bytes) : list (bytes * bytes) :=
  [(lit "Host", host url); (lit "Connection", lit "close"); (lit "User-Agent", lit "sengoo-runtime/0.1")] ++
  (if bytes_eqb body [] then []
   else [(lit "Content-Type", lit "application/octet-stream");
         (lit "Content-Length", show_dec (Z.of_nat (length body)))]).

(** A URL whose parts are plain text, as a request line needs them. *)
Definition url_plain (url : ParsedUrl) : Prop :=
  value_ok (host url) /\ word (path url) /\ starts_with (lit "/") (path url) = true.

Lemma client_request_text method url body :
  request_text method url body = head_text (request_line method (path url)) (client_fields url body) ++ CRLF ++ CRLF.
Proof.
  rewrite (assoc_L (++) (head_text _ _)), <- head_text_lines. unfold request_text, request_line, client_fields.
  rewrite flat_map_app. cbn [flat_map]. unfold header_line. cbn [fst snd].
  change (lit "Host: ") with (lit "Host" ++ lit ": ").
  change (lit "Connection: close") with (lit "Connection" ++ lit ": " ++ lit "close").
  change (lit "User-Agent: sengoo-runtime/0.1") with (lit "User-Agent" ++ lit ": " ++ lit "sengoo-runtime/0.1").
  destruct (bytes_eqb body []); cbn [flat_map]; rewrite ?app_nil_r, <- !(assoc_L (++)); [done|].
  change (lit "Content-Type: application/octet-stream") with (lit "Content-Type" ++ lit ": " ++ lit "application/octet-stream").
  change (lit "Content-Length: ") with (lit "Content-Length" ++ lit ": "). by rewrite <- !(assoc_L (++)).
Qed.

Lemma client_fields_ok url body : url_plain url -> Forall field_ok (client_fields url body).
Proof.
  intros (Hh & _). unfold client_fields. apply Forall_app. split.
  - constructor; [apply field_ok_value; [vm_compute; reflexivity|done]|].
    apply (bool_decide_unpack _). vm_compute. done.
  - case_match; [constructor|]. constructor; [apply (bool_decide_unpack _); vm_compute; done|].
    constructor; [|constructor]. apply field_ok_value; [vm_compute; reflexivity|]. apply word_value, show_dec_word.
Qed.

Lemma request_line_ok method url : word method -> url_plain url -> line_ok (request_line method (path url)).
Proof.
  intros [Hne Hm] (_ & [_ Hp] & _). split; [unfold request_line; by destruct method|].
  unfold request_line. repeat (apply Forall_app; split); try (by apply graphic_printable);
    apply (bool_decide_unpack _); vm_compute; done.
Qed.

Lemma client_head_parsed method url body :
  word method -> url_plain url ->
  parse_http_request_head (head_text (request_line method (path url)) (client_fields url body)) =
  Ok (to_ascii_uppercase method, path url, lit "HTTP/1.1", store_fields (client_fields url body) ∅).
Proof.
  intros Hm Hu. pose proof (request_line_ok method url Hm Hu) as Hl. pose proof (client_fields_ok url body Hu) as Hf.
  unfold parse_http_request_head. rewrite head_text_utf8, head_text_split by done.
  assert (split_whitespace (request_line method (path url)) = [method; path url; lit "HTTP/1.1"]) as ->.
  { unfold request_line. change (lit " ") with [32]. change (lit " HTTP/1.1") with ([32] ++ lit "HTTP/1.1").
    apply split_three_words; [done|apply Hu|]. apply (bool_decide_unpack _). vm_compute. done. }
  destruct Hu as (_ & _ & ->). change (starts_with (lit "HTTP/1.") (lit "HTTP/1.1")) with true. cbn [negb orb].
  by rewrite parse_fields.
Qed.

Lemma client_headers url body :
  is_chunked (store_fields (client_fields url body) ∅) = false /\
  (Z.of_nat (length body) < 2 ^ 64 ->
   content_length_of (store_fields (client_fields url body) ∅) = Ok (Z.of_nat (length body))).
Proof.
  assert (forall h, store_fields [(lit "Host", h); (lit "Connection", lit "close"); (lit "User-Agent", lit "sengoo-runtime/0.1")] ∅
            !! lit "transfer-encoding" = None /\
          store_fields [(lit "Host", h); (lit "Connection", lit "close"); (lit "User-Agent", lit "sengoo-runtime/0.1")] ∅
            !! lit "content-length" = None) as H1 by (intros; split; vm_compute; reflexivity).
  assert (forall h n, store_fields [(lit "Host", h); (lit "Connection", lit "close"); (lit "User-Agent", lit "sengoo-runtime/0.1");
              (lit "Content-Type", lit "application/octet-stream"); (lit "Content-Length", n)] ∅ !! lit "transfer-encoding" = None /\
          store_fields [(lit "Host", h); (lit "Connection", lit "close"); (lit "User-Agent", lit "sengoo-runtime/0.1");
              (lit "Content-Type", lit "application/octet-stream"); (lit "Content-Length", n)] ∅ !! lit "content-length" = Some n) as H2
    by (intros; split; vm_compute; reflexivity).
  unfold is_chunked, header_holds, content_length_of, client_fields, bytes_eqb.
  destruct (decide (body = [])) as [->|Hne].
  - rewrite bool_decide_true by done. cbn [app]. destruct (H1 (host url)) as [-> ->]. done.
  - rewrite bool_decide_false by done. cbn [app].
    destruct (H2 (host url) (show_dec (Z.of_nat (length body)))) as [-> ->]. split; [done|]. intros Hl.
    rewrite trim_value by (apply word_value, show_dec_word). unfold show_dec. rewrite parse_show by lia. done.
Qed.

(** The server reads the client's request: the method in capitals, the path,
    the version, the client's headers and the body. *)
Lemma client_request_read mh mb method url body c :
  0 <= mh < 2 ^ 32 -> 0 <= mb < 2 ^ 32 -> word method -> url_plain url ->
  Z.of_nat (length (head_text (request_line method (path url)) (client_fields url body))) <= mh ->
  Z.of_nat (length body) <= mb ->
  awaits c (request_text method url body ++ body) ->
  exists l, read_http_request mh mb c =
      Returns (Ok (mkRequest (to_ascii_uppercase method) (path url) (lit "HTTP/1.1")
                     (store_fields (client_fields url body) ∅) body), true, with_in l c) /\
    awaits (with_in l c) [].
Proof.
  intros Hmh Hmb Hm Hu Hlh Hlb Ha. rewrite client_request_text, <- !(assoc_L (++)) in Ha.
  destruct (client_headers url body) as [Hch Hcl].
  apply (read_request_back mh mb (head_text (request_line method (path url)) (client_fields url body)) body); try done.
  - pose proof (head_text_found _ _ [] (request_line_ok method url Hm Hu) (client_fields_ok url body Hu)) as H.
    by rewrite app_nil_r in H.
  - by apply client_head_parsed.
  - apply Hcl. lia.
Qed.

(** C28: client and server together.  A request the client sends for a plain
    URL, on a connection to a server that has a static route for it and whose
    middlewares let it pass, however its bytes are cut on the way, is answered
    without an error, and from what the server sent the client reads the
    route's status and the route's body with the path's parameters filled
    in. *)
Theorem static_route_served (alloc_max : Z) (order : gmap bytes bytes -> list (bytes * bytes))
    (routes : list HttpServerRoute) (mws : list HttpServerMiddleware) (mh mb : Z)
    (method : bytes) (url : ParsedUrl) (body : bytes) (c : Conn)
    (route : HttpServerRoute) (params : gmap bytes bytes) (status : Z) (template : bytes) :
  0 <= mh < 2 ^ 32 -> 0 <= mb < 2 ^ 32 -> word method -> url_plain url ->
  Z.of_nat (length (head_text (request_line method (path url)) (client_fields url body))) <= mh ->
  Z.of_nat (length body) <= mb ->
  awaits c (request_text method url body ++ body) -> c_out c = [] -> c_writes c = [] ->
  find_route routes (to_ascii_uppercase method) (path url) = Some (route, params) ->
  rt_kind route = StaticResponse status template -> 100 <= status <= 599 ->
  apply_middlewares mws (mkRequest (to_ascii_uppercase method) (path url) (lit "HTTP/1.1")
                           (store_fields (client_fields url body) ∅) body) = None ->
  exists c', process_http_server_connection alloc_max order routes mws mh mb (Plain c) = Returns (Ok tt, Plain c') /\
    read_response (c_out c') = Returns (Ok (mkHttpResponse status (render_route_body order template params))).
Proof.
  intros Hmh Hmb Hm Hu Hlh Hlb Ha Ho Hw Hrt Hk Hs Hmw.
  destruct (client_request_read mh mb method url body c) as (l & Hr & _); try done.
  unfold process_http_server_connection. cbn [conn_of]. rewrite Hr. cbn [with_conn]. rewrite Hmw. cbn [rq_method rq_path].
  rewrite Hrt. unfold answer_route. rewrite Hk. unfold respond_on, write_http_response. cbn [conn_of].
  rewrite write_pieces_ok by done. cbn [with_conn].
  eexists. split; [reflexivity|]. cbn [c_out c_in with_in concat]. rewrite Ho, app_nil_r. cbn [app].
  apply (plain_response_read (mkResponse status [] _) false); [done|constructor..].
Qed.

Lemma static_route_served_witness :
  let url := mkUrl (lit "http") (lit "localhost") 80 (lit "/hello/bob") in
  let text := request_text (lit "post") url (lit "xyz") ++ lit "xyz" in
  let c := mkConn [Data (take 11 text); Data (drop 11 text)] [] [] in
  exists c', process_http_server_connection 1000 map_to_list
      [mkRoute (lit "POST") (lit "/hello/:who") (StaticResponse 200 (lit "hi {who}"))] [] 4096 64 (Plain c) =
      Returns (Ok tt, Plain c') /\
    read_response (c_out c') = Returns (Ok (mkHttpResponse 200 (lit "hi bob"))).
Proof.
  intros url text c.
  destruct (static_route_served 1000 map_to_list
           [mkRoute (lit "POST") (lit "/hello/:who") (StaticResponse 200 (lit "hi {who}"))] [] 4096 64
           (lit "post") url (lit "xyz") c
           (mkRoute (lit "POST") (lit "/hello/:who") (StaticResponse 200 (lit "hi {who}")))
           {[ lit "who" := lit "bob" ]} 200 (lit "hi {who}")) as (c' & H1 & H2).
  1-2: lia.
  1: apply (bool_decide_unpack _); vm_compute; exact Logic.I.
  1: split; [|split]; [apply (bool_decide_unpack _); vm_compute; exact Logic.I..|vm_compute; reflexivity].
  1-2: vm_compute; discriminate.
  1: split; vm_compute; reflexivity.
  1-2: reflexivity.
  1: vm_compute; reflexivity.
  1: reflexivity.
  1: lia.
  1: reflexivity.
  exists c'. split; [exact H1|]. rewrite H2. vm_compute. reflexivity.
Defined.

(** ** Where the server does not do what it means to *)

(** The connection a run closed last, as its peer saw it. *)
Definition last_sent (r : outcome NetRuntime) : bytes :=
  match last (closed (final r)) with Some s => sent s | None => [] end.

(** Writing an empty chunk to a chunked stream is accepted and sends the
    end marker: the chunks written after it are lost, although every write and
    the finish report success. *)
Theorem empty_chunk_truncates :
  let st := final (http_run 1000 map_to_list (take 2 sample_ops) runtime_init) in
  let run := http_run 1000 map_to_list (stream_session 2 200 None 3 [lit "ab"; []; lit "cd"] 0) st in
  last_error (final run) = NetOk /\
  read_response (last_sent run) = Returns (Ok (mkHttpResponse 200 (lit "ab"))).
Proof. vm_compute. split; reflexivity. Qed.

(** A write to a stream of declared length that fails after part of its
    bytes went out leaves the stream usable with the whole length still open:
    the caller who writes the chunk again, and finishes with success, has sent
    more bytes than the Content-Length it declared. *)
Theorem fixed_stream_resends :
  let ops := [OBind None (fun _ => Ok [Ok (7, mkConn [Data sample_request] [] [None; Some (2%nat, TimedOut)])]);
              ONext 1 1 0 0; OBeginLength 2 200 4; OWrite 3 (Some (lit "abcd")) 4;
              OWrite 3 (Some (lit "abcd")) 4; OFinish 3 0] in
  let run := http_run 1000 map_to_list ops runtime_init in
  last_error (final run) = NetOk /\
  last_sent run = stream_head 200 (Some 4) false ++ lit "ababcd".
Proof. vm_compute. split; reflexivity. Qed.

(** Bytes that arrive in the same read as the end of a request are
    dropped: of two requests a client sends back to back on a kept-alive
    connection, the second is lost when they arrive together and read when
    they do not. *)
Theorem pipelined_request_lost :
  let two (cut : nat) := mkConn [Data (take cut (sample_request ++ sample_request));
                                 Data (drop cut (sample_request ++ sample_request))] [] [] in
  let left cut := match read_http_request 1024 1024 (two cut) with
                  | Returns (Ok _, _, c) => Some (arriving (c_in c))
                  | _ => None
                  end in
  left (length sample_request) = Some sample_request /\ left (2 * length sample_request)%nat = Some [].
Proof. vm_compute. split; reflexivity. Qed.

(** Whether a chunked request is accepted depends on how its bytes are cut
    into reads: chunk data that contains the end marker stops the reading when
    the marker is seen before the rest has arrived. *)
Theorem chunked_request_depends_on_reads :
  let text := lit "POST / HTTP/1.1" ++ CRLF ++ lit "Transfer-Encoding: chunked" ++ CRLF ++ CRLF ++
              flat_map chunk_text [lit "a0" ++ CRLF ++ CRLF ++ lit "b"] ++ chunked_end in
  let accepted (cut : nat) := match read_http_request 1024 1024 (mkConn [Data (take cut text); Data (drop cut text)] [] []) with
                              | Returns (Ok r, _, _) => Some (rq_body r)
                              | _ => None
                              end in
  accepted (length text) = Some (lit "a0" ++ CRLF ++ CRLF ++ lit "b") /\ accepted (length text - 8)%nat = None.
Proof. vm_compute. split; reflexivity. Qed.

(** A static route is looked up with the query string still on the path,
    while a pulled request has it cut off: a route for a path does not answer
    that path with a query. *)
Theorem route_sees_query :
  let r := mkRoute (lit "GET") (lit "/item") (StaticResponse 200 (lit "ok")) in
  find_route [r] (lit "GET") (lit "/item") = Some (r, ∅) /\
  find_route [r] (lit "GET") (lit "/item?id=3") = None.
Proof. vm_compute. split; reflexivity. Qed.

(** The body rendered for a route depends on the order in which the hash
    map of parameters is iterated, since a value that looks like a placeholder
    is substituted again. *)
Theorem render_depends_on_order :
  let params : gmap bytes bytes := <[lit "a" := lit "{b}"]> {[ lit "b" := lit "x" ]} in
  let ab := [(lit "a", lit "{b}"); (lit "b", lit "x")] in
  render_route_body (fun _ => ab) (lit "{a}{b}") params = lit "xx" /\
  render_route_body (fun _ => reverse ab) (lit "{a}{b}") params = lit "{b}x".
Proof. vm_compute. split; reflexivity. Qed.

(** A content type that contains a line end is written as it is, so that it
    adds header fields of the caller's choosing to the response. *)
Theorem content_type_adds_fields :
  let ct := lit "text/plain" ++ CRLF ++ lit "X-Admin: yes" in
  let run := http_run 1000 map_to_list (take 2 sample_ops ++ [ORespondType 2 200 (Some ct) (Some []) 0 0]) runtime_init in
  last_error (final run) = NetOk /\
  match split_http_headers_and_body (last_sent run) with
  | Ok (h, _) => match parse_http_headers h with Ok (_, hs) => hs !! lit "x-admin" | Err _ => None end
  | Err _ => None
  end = Some (lit "yes").
Proof. vm_compute. split; reflexivity. Qed.
