(* ===== verification/Worklist.v ===== *)
(** The worklist loops of the incremental build: from the elements of a stack,
    follow the edges of a graph and record what was not seen before.

    [impact.rs], [generic_cache.rs] and [frontend_snapshot.rs] contain the loop
    several times, for modules, functions, symbol ids and generic items; they
    differ in the type of the elements, in the order in which the edges of an
    element are followed, and in a guard on what may be recorded.  All are
    instances of [walk].  [walk_exact] says what it finds, [walk_enough] that
    its fuel is enough. *)

From S2P Require Import Prelude.

Section walk.
Context {K : Type} `{Countable K}.
(** The edges of an element, in the order they are followed, and the guard. *)
Context (succ : K -> list K) (admits : K -> bool).

(** [if seen.insert(x) { out.push(x); queue.push(x) }], for each edge.  The
    head of the queue is the element that [pop] takes. *)
Definition visit_edge (s : list K * gset K * list K) (x : K) : list K * gset K * list K :=
  let '(queue, seen, out) := s in
  if admits x && negb (bool_decide (x ∈ seen)) then (x :: queue, {[x]} ∪ seen, out ++ [x]) else s.

Fixpoint walk (fuel : nat) (queue : list K) (seen : gset K) (out : list K) : option (gset K * list K) :=
  match queue with
  | [] => Some (seen, out)
  | x :: queue =>
      match fuel with
      | O => None
      | S fuel =>
          let '(queue, seen, out) := fold_left visit_edge (succ x) (queue, seen, out) in
          walk fuel queue seen out
      end
  end.

(** What a walk finds: the ends of the paths of admitted edges whose elements,
    the first one apart, had not been seen when the walk began. *)
Inductive found (start : list K) (seen0 : gset K) : K -> Prop :=
| found_first x y : x ∈ start -> y ∈ succ x -> admits y = true -> y ∉ seen0 -> found start seen0 y
| found_next x y : found start seen0 x -> y ∈ succ x -> admits y = true -> y ∉ seen0 -> found start seen0 y.

Lemma found_step start seen0 x y :
  x ∈ start \/ found start seen0 x -> y ∈ succ x -> admits y = true -> y ∉ seen0 -> found start seen0 y.
Proof. intros [?|?]; [by eapply found_first|by eapply found_next]. Qed.

(** ** One element *)

Lemma visit_edges_spec xs queue seen out :
  exists new, fold_left visit_edge xs (queue, seen, out) = (reverse new ++ queue, list_to_set new ∪ seen, out ++ new) /\
    NoDup new /\ (forall y, y ∈ new <-> y ∈ xs /\ admits y = true /\ y ∉ seen).
Proof.
  revert queue seen out. induction xs as [|x xs IH]; intros queue seen out; cbn [fold_left].
  { exists []. split; [|split; [constructor|]].
    - cbn. rewrite app_nil_r. by rewrite (left_id_L ∅ (∪)).
    - intros y. split; [by intros ?%elem_of_nil|by intros [?%elem_of_nil _]]. }
  unfold visit_edge at 2. destruct (admits x) eqn:Ea; cbn [andb].
  - destruct (bool_decide (x ∈ seen)) eqn:Es; cbn [negb].
    + apply bool_decide_eq_true in Es. destruct (IH queue seen out) as (new & -> & Hnd & Hn).
      exists new. split; [done|]. split; [done|]. intros y. rewrite Hn, elem_of_cons.
      split; [tauto|]. intros ([->|?] & ? & ?); [done|tauto].
    + apply bool_decide_eq_false in Es. destruct (IH (x :: queue) ({[x]} ∪ seen) (out ++ [x])) as (new & -> & Hnd & Hn).
      exists (x :: new). split; [|split].
      * rewrite reverse_cons, <- !(assoc_L (++)). cbn [app list_to_set].
        f_equal. f_equal. cbn. set_solver.
      * apply NoDup_cons_2; [|done]. intros Hx. apply Hn in Hx as (_ & _ & Hx). set_solver.
      * intros y. rewrite !elem_of_cons, Hn, elem_of_union, elem_of_singleton. destruct (decide (y = x)) as [->|]; tauto.
  - destruct (IH queue seen out) as (new & -> & Hnd & Hn).
    exists new. split; [done|]. split; [done|]. intros y. rewrite Hn, elem_of_cons.
    split; [tauto|]. intros ([->|?] & ? & ?); [by rewrite Ea in *|tauto].
Qed.

(** ** The whole walk *)

Section exact.
Context (start : list K) (seen0 : gset K).

Record walking (queue : list K) (seen : gset K) (new : list K) : Prop := {
  walking_seen : seen = list_to_set new ∪ seen0;
  walking_nodup : NoDup new;
  walking_sound : forall y, y ∈ new -> found start seen0 y;
  walking_queue : forall y, y ∈ queue -> y ∈ start \/ y ∈ new;
  walking_done : forall y, y ∈ start \/ y ∈ new -> y ∈ queue \/ forall z, z ∈ succ y -> admits z = true -> z ∈ seen;
  walking_fresh : forall y, y ∈ new -> y ∉ seen0;
}.

Lemma walking_start : walking start seen0 [].
Proof.
  split; [cbn; set_solver|constructor|by intros ? ?%elem_of_nil|by left|naive_solver set_solver|by intros ? ?%elem_of_nil].
Qed.

Lemma walking_step x queue seen new more :
  walking (x :: queue) seen new -> NoDup more ->
  (forall y, y ∈ more <-> y ∈ succ x /\ admits y = true /\ y ∉ seen) ->
  walking (reverse more ++ queue) (list_to_set more ∪ seen) (new ++ more).
Proof.
  intros [-> Hnd Hs Hq Hd Hf] Hndm Hm.
  assert (x ∈ start \/ found start seen0 x) as Hx.
  { destruct (Hq x) as [|?%Hs]; [by left|by left|by right]. }
  split.
  - rewrite list_to_set_app_L. set_solver.
  - apply NoDup_app. split; [done|]. split; [|done]. intros y Hy (_ & _ & Hn)%Hm. set_solver.
  - intros y [Hy|(? & ? & ?)%Hm]%elem_of_app; [by apply Hs|]. apply (found_step _ _ x); set_solver.
  - intros y. rewrite !elem_of_app, elem_of_reverse. intros [Hy|Hy]; [by right; right|].
    destruct (Hq y) as [|]; [by right|by left|by right; left].
  - intros y. rewrite !elem_of_app, elem_of_reverse. intros Hy.
    assert ((y ∈ start \/ y ∈ new) \/ y ∈ more) as [Hy'|Hy'] by tauto; [|by left; left].
    destruct (Hd y Hy') as [[->|?]%elem_of_cons|Hz]; [right|by left; right|right].
    + intros z Hz Ha. destruct (decide (z ∈ (list_to_set new ∪ seen0 : gset K))); [set_solver|].
      apply elem_of_union_l, elem_of_list_to_set. by apply Hm.
    + intros z Hz' Ha. apply elem_of_union_r. by apply Hz.
  - intros y [Hy|(_ & _ & Hn)%Hm]%elem_of_app; [by apply Hf|]. set_solver.
Qed.

Lemma walk_invariant fuel queue seen new out seen' out' :
  walking queue seen new -> walk fuel queue seen (out ++ new) = Some (seen', out') ->
  exists new', walking [] seen' new' /\ out' = out ++ new'.
Proof.
  revert queue seen new. induction fuel as [|fuel IH]; intros [|x queue] seen new Hw; cbn [walk].
  1,3: intros [= <- <-]; eauto.
  { done. }
  destruct (visit_edges_spec (succ x) queue seen (out ++ new)) as (more & -> & Hnd & Hm).
  rewrite <- (assoc_L (++)). apply IH. by apply (walking_step x).
Qed.
End exact.

(** A finished walk has recorded, once each, exactly what it can find. *)
Theorem walk_exact fuel start seen0 out seen' out' :
  walk fuel start seen0 out = Some (seen', out') ->
  exists new, out' = out ++ new /\ seen' = list_to_set new ∪ seen0 /\ NoDup new /\
    forall y, y ∈ new <-> found start seen0 y.
Proof.
  intros Hw. destruct (walk_invariant start seen0 fuel start seen0 [] out seen' out') as (new & [-> Hnd Hs _ Hd _] & ->).
  { apply walking_start. }
  { by rewrite app_nil_r. }
  exists new. repeat split; [done|apply Hs|].
  assert (forall x z, x ∈ start \/ x ∈ new -> z ∈ succ x -> admits z = true -> z ∉ seen0 -> z ∈ new) as Hc.
  { intros x z Hx Hxz Ha Hn. destruct (Hd x Hx) as [?%elem_of_nil|Hz]; [done|].
    specialize (Hz z Hxz Ha). set_solver. }
  induction 1; eauto.
Qed.

(** ** Fuel

    Each round takes one element off the queue, and each element is put on it
    at most once. *)

Definition walk_fuel (universe : gset K) (queue : list K) : nat := length queue + size universe.

Lemma walk_enough (universe : gset K) fuel queue seen out :
  (forall x y, y ∈ succ x -> y ∈ universe) ->
  (length queue + size (universe ∖ seen) <= fuel)%nat ->
  exists r, walk fuel queue seen out = Some r.
Proof.
  intros Hu. revert queue seen out. induction fuel as [|fuel IH]; intros [|x queue] seen out Hf; cbn [walk]; [eauto| |eauto|].
  { simpl in Hf. lia. }
  destruct (visit_edges_spec (succ x) queue seen out) as (new & -> & Hnd & Hn).
  apply IH. rewrite length_app, length_reverse. simpl in Hf.
  assert (size (universe ∖ seen) = length new + size (universe ∖ (list_to_set new ∪ seen)))%nat as E; [|lia].
  rewrite <- (size_list_to_set (C := gset K) new Hnd), <- size_union by set_solver.
  f_equal. apply set_eq. intros y. rewrite elem_of_union, !elem_of_difference, elem_of_union, elem_of_list_to_set.
  split; [intros [Hy Hs]; destruct (decide (y ∈ new)); tauto|].
  intros [Hy|?]; [|tauto]. apply Hn in Hy as (Hy & _ & Hs). eauto.
Qed.

Lemma walk_fuel_enough (universe : gset K) queue seen out :
  (forall x y, y ∈ succ x -> y ∈ universe) ->
  exists r, walk (walk_fuel universe queue) queue seen out = Some r.
Proof.
  intros Hu. apply (walk_enough universe); [done|]. unfold walk_fuel.
  assert (size (universe ∖ seen) <= size universe)%nat by (apply subseteq_size; set_solver). lia.
Qed.
End walk.

(** The order in which edges are followed changes nothing in the set found. *)
Lemma found_ext {K} `{Countable K} (succ succ' : K -> list K) admits start start' seen0 y :
  (forall x z, z ∈ succ x <-> z ∈ succ' x) -> (forall x, x ∈ start <-> x ∈ start') ->
  found succ admits start seen0 y -> found succ' admits start' seen0 y.
Proof.
  intros Hs Hst. induction 1; [eapply found_first|eapply found_next]; rewrite <- ?Hs, <- ?Hst; eauto.
Qed.

(** A walk from everything seen computes a reflexive and transitive closure. *)
Lemma found_rtc {K} `{Countable K} (succ : K -> list K) admits start (seen0 : gset K) y :
  (forall x, x ∈ start <-> x ∈ seen0) ->
  y ∈ seen0 \/ found succ admits start seen0 y <->
  exists x, x ∈ start /\ rtc (fun x y => y ∈ succ x /\ admits y = true) x y.
Proof.
  intros Hs. split.
  - intros [Hy|Hf]; [exists y; split; [by apply Hs|done]|].
    induction Hf as [x y Hx Hxy Ha _|x y _ (c & Hc & Hr) Hxy Ha _].
    + exists x. split; [done|]. by apply rtc_once.
    + exists c. split; [done|]. by eapply rtc_r.
  - intros (x & Hx & Hr). revert y Hr. apply rtc_ind_r; [left; by apply Hs|].
    intros y z _ [Hxy Ha] IH. destruct (decide (z ∈ seen0)); [by left|right].
    destruct IH as [Hy|Hy]; [|by eapply found_next]. apply Hs in Hy. by eapply found_first.
Qed.
