(* ===== verification/BuildGraph.v ===== *)
(** The build graph of the compiler driver: model_types.rs (fingerprints,
    graph nodes, edit classes), graph_builder.rs, and symbol_intern.rs of
    tools/sgc/src.

    Paths, symbols and keys are strings, hashes 64-bit integers.  A [HashMap]
    is a [gmap] and a [HashSet] a [gset]; where the code goes through one of
    them, the order is that of an instance of [HashOrder], the interface that
    says what the standard library promises: every element once, in some
    order. *)

From S2P Require Import Prelude Strs Sorting Worklist.
From stdpp Require Import pretty.
From Stdlib Require Import String.

#[local] Open Scope string_scope.

(** ** Iteration over hash tables *)

Class HashOrder := {
  iter_set : gset string -> list string;
  iter_ids : gset Z -> list Z;
  iter_set_perm (s : gset string) : iter_set s ≡ₚ elements s;
  iter_ids_perm (s : gset Z) : iter_ids s ≡ₚ elements s;
}.

(** One such order, for evaluation. *)
Definition hash_order_elements : HashOrder := {|
  iter_set s := elements s; iter_ids s := elements s;
  iter_set_perm s := Permutation_refl _; iter_ids_perm s := Permutation_refl _ |}.

(** Another one. *)
Definition hash_order_reversed : HashOrder := {|
  iter_set s := reverse (elements s); iter_ids s := reverse (elements s);
  iter_set_perm s := reverse_Permutation _; iter_ids_perm s := reverse_Permutation _ |}.

Lemma elem_of_iter_set `{HashOrder} (s : gset string) (x : string) : x ∈ iter_set s <-> x ∈ s.
Proof. by rewrite iter_set_perm, elem_of_elements. Qed.
Lemma elem_of_iter_ids `{HashOrder} (s : gset Z) (x : Z) : x ∈ iter_ids s <-> x ∈ s.
Proof. by rewrite iter_ids_perm, elem_of_elements. Qed.
Lemma iter_set_nodup `{HashOrder} (s : gset string) : NoDup (iter_set s).
Proof. rewrite iter_set_perm. apply NoDup_elements. Qed.
Lemma iter_ids_nodup `{HashOrder} (s : gset Z) : NoDup (iter_ids s).
Proof. rewrite iter_ids_perm. apply NoDup_elements. Qed.

(** Collecting into a [HashMap]: a later entry replaces an earlier one. *)
Definition index_by {K V} `{Countable K} (key : V -> K) (l : list V) : gmap K V :=
  fold_left (fun m x => <[key x := x]> m) l ∅.

(** [map.entry(k).or_default().insert(x)] on a map to sets. *)
Definition add_edge_to {K} `{Countable K} (k x : K) (m : gmap K (gset K)) : gmap K (gset K) :=
  <[k := {[x]} ∪ default ∅ (m !! k)]> m.

Definition edge_targets {K} `{Countable K} (m : gmap K (gset K)) : gset K :=
  ⋃ (snd <$> map_to_list m).

Lemma elem_of_edge_targets {K} `{Countable K} (m : gmap K (gset K)) (k x : K) (s : gset K) :
  m !! k = Some s -> x ∈ s -> x ∈ edge_targets m.
Proof.
  intros Hk Hx. apply elem_of_union_list. exists s. split; [|done].
  apply list_elem_of_fmap. exists (k, s). split; [done|]. by apply elem_of_map_to_list.
Qed.

(** ** Fingerprints and graphs *)

Record ModuleFingerprint := mkFingerprint {
  fp_path : string;
  fp_interface_hash : Z;
  fp_hash : Z;
}.

Record FunctionFingerprint := mkFunction {
  fn_symbol : string;
  abi_hash : Z;
  fn_body_hash : Z;
  fn_calls : list string;
  module_imports : list string;
}.

Record GenericItemFingerprint := mkGenericItem {
  stable_item_id : string;
  gi_symbol : string;
  gi_module_id : string;
  gi_kind : string;
  gi_interface_hash : Z;
  gi_body_hash : Z;
  type_param_count : Z;
  gi_calls : list string;
}.

Record GenericInstanceFingerprint := mkGenericInstance {
  item_stable_id : string;
  gn_module_id : string;
  canonical_type_args : list string;
  instance_key : string;
  gn_interface_hash : Z;
  gn_body_hash : Z;
}.

Record BuildGraphNodeV2 := mkNode {
  module_path : string;
  node_interface_hash : Z;
  implementation_hash : Z;
  depends_on : list string;
  node_object_path : option string;
  functions : list FunctionFingerprint;
  generic_items : list GenericItemFingerprint;
  generic_instances : list GenericInstanceFingerprint;
}.

Record BuildGraphV2 := mkGraph {
  schema_version : Z;
  root_module : string;
  nodes : list BuildGraphNodeV2;
}.

Definition BUILD_GRAPH_SCHEMA_VERSION : Z := 4.

Inductive EditClass := Noop | ImplOnly | InterfaceChange.
Inductive ModuleChangeKind := ModuleImplOnly | ModuleInterface.
Inductive FunctionChangeKind := FunctionImplOnly | FunctionInterface.
Inductive IncrementalLinkMode := LinkAuto | LinkOff.
Inductive BuildWorksetPlan := ReusePreviousArtifacts | RebuildImpactedRoot | FullRebuild.

#[export] Instance ModuleFingerprint_eq_dec : EqDecision ModuleFingerprint.
Proof. solve_decision. Defined.
#[export] Instance FunctionFingerprint_eq_dec : EqDecision FunctionFingerprint.
Proof. solve_decision. Defined.
#[export] Instance GenericItemFingerprint_eq_dec : EqDecision GenericItemFingerprint.
Proof. solve_decision. Defined.
#[export] Instance GenericInstanceFingerprint_eq_dec : EqDecision GenericInstanceFingerprint.
Proof. solve_decision. Defined.
#[export] Instance BuildGraphNodeV2_eq_dec : EqDecision BuildGraphNodeV2.
Proof. solve_decision. Defined.
#[export] Instance BuildGraphV2_eq_dec : EqDecision BuildGraphV2.
Proof. solve_decision. Defined.
#[export] Instance EditClass_eq_dec : EqDecision EditClass.
Proof. solve_decision. Defined.
#[export] Instance ModuleChangeKind_eq_dec : EqDecision ModuleChangeKind.
Proof. solve_decision. Defined.
#[export] Instance FunctionChangeKind_eq_dec : EqDecision FunctionChangeKind.
Proof. solve_decision. Defined.
#[export] Instance BuildWorksetPlan_eq_dec : EqDecision BuildWorksetPlan.
Proof. solve_decision. Defined.

Record EditImpact := mkImpact {
  edit_class : EditClass;
  changed_modules : list string;
  impacted_modules : list string;
  changed_functions : list string;
  impacted_functions : list string;
}.

Notation sort_strings := (sort_by String.leb).
Notation sort_dedup_strings := (sort_dedup String.leb).

(** ** Building the graph *)

Section graph_builder.
Context `{HashOrder}.

(** Paths come in canonical form ([canonical_or_lossy]). *)
Definition build_graph_v2_for_source (root : string) (module_fingerprints : list ModuleFingerprint)
    (dependency_edges : gmap string (list string)) (root_object_path : option string)
    (root_interface_hash root_implementation_hash : Z) : BuildGraphV2 :=
  let fingerprint_map : gmap string (Z * Z) :=
    <[root := (root_interface_hash, root_implementation_hash)]>
      (fold_left (fun m fp => <[fp_path fp := (fp_interface_hash fp, fp_hash fp)]> m) module_fingerprints ∅) in
  let all_paths : gset string :=
    {[root]} ∪ list_to_set (fp_path <$> module_fingerprints) ∪ dom dependency_edges ∪
    list_to_set (mjoin (snd <$> map_to_list dependency_edges)) in
  mkGraph BUILD_GRAPH_SCHEMA_VERSION root
    (map (fun path =>
        let '(interface_hash, implementation_hash) := default (0%Z, 0%Z) (fingerprint_map !! path) in
        mkNode path interface_hash implementation_hash
          (sort_dedup_strings (default [] (dependency_edges !! path)))
          (if bool_decide (path = root) then root_object_path else None) [] [] [])
      (sort_strings (iter_set all_paths))).

Definition with_imports (deps : list string) (f : FunctionFingerprint) : FunctionFingerprint :=
  match module_imports f with
  | [] => mkFunction (fn_symbol f) (abi_hash f) (fn_body_hash f) (fn_calls f) deps
  | _ => f
  end.

Definition build_graph_v2_with_function_fingerprints_for_source (root : string)
    (module_fingerprints : list ModuleFingerprint)
    (module_function_fingerprints : gmap string (list FunctionFingerprint))
    (module_generic_items : gmap string (list GenericItemFingerprint))
    (module_generic_instances : gmap string (list GenericInstanceFingerprint))
    (dependency_edges : gmap string (list string)) (root_object_path : option string)
    (root_interface_hash root_implementation_hash : Z) : BuildGraphV2 :=
  let graph := build_graph_v2_for_source root module_fingerprints dependency_edges root_object_path
                 root_interface_hash root_implementation_hash in
  mkGraph (schema_version graph) (root_module graph)
    (map (fun node =>
        mkNode (module_path node) (node_interface_hash node) (implementation_hash node) (depends_on node)
          (node_object_path node)
          (sort_by (fun a b => String.leb (fn_symbol a) (fn_symbol b))
             (map (with_imports (depends_on node)) (default [] (module_function_fingerprints !! module_path node))))
          (dedup_by (fun a b => bool_decide (stable_item_id a = stable_item_id b))
             (sort_by (fun a b => String.leb (stable_item_id a) (stable_item_id b))
                (default [] (module_generic_items !! module_path node))))
          (dedup_by (fun a b => bool_decide (instance_key a = instance_key b))
             (sort_by (fun a b => String.leb (instance_key a) (instance_key b))
                (default [] (module_generic_instances !! module_path node)))))
      (nodes graph)).
End graph_builder.

(** ** The symbol interner *)

Record SymbolInterner := mkSymbols {
  id_by_symbol : gmap string Z;
  symbols : list string;
}.

Definition symbols_default : SymbolInterner := mkSymbols ∅ [].

Definition intern_symbol (symbol : string) (it : SymbolInterner) : Z * SymbolInterner :=
  match id_by_symbol it !! symbol with
  | Some id => (id, it)
  | None =>
      let id := wrap_u 32 (Z.of_nat (List.length (symbols it))) in
      (id, mkSymbols (<[symbol := id]> (id_by_symbol it)) (symbols it ++ [symbol]))
  end.

Definition resolve_symbol (it : SymbolInterner) (id : Z) : string :=
  default EmptyString (symbols it !! Z.to_nat id).
