(* ===== verification/Impact.v ===== *)
(** What an edit changes and reaches: tools/sgc/src/impact.rs.

    [classify_edit_impact] compares the fingerprints of two builds, says
    whether anything changed, only implementations or also interfaces, and
    collects what has to be built again. *)

From S2P Require Import Prelude Strs Sorting Worklist BuildGraph.
From stdpp Require Import pretty.
From Stdlib Require Import Ascii String.

#[local] Open Scope string_scope.

Record ModuleInvalidationStats := mkStats {
  total_modules : Z;
  reused_modules : Z;
  rebuilt_modules : Z;
  interface_changed_modules : Z;
  implementation_only_changed_modules : Z;
}.

Record FunctionNodeState := mkFunctionState {
  fs_module_path : string;
  fs_abi_hash : Z;
  fs_body_hash : Z;
}.

#[export] Instance FunctionNodeState_eq_dec : EqDecision FunctionNodeState.
Proof. solve_decision. Defined.

Section impact.
Context `{HashOrder}.

(** ** Modules *)

Notation fingerprints := (index_by fp_path).

Definition module_stats_step (before after : gmap string ModuleFingerprint) (stats : ModuleInvalidationStats)
    (path : string) : ModuleInvalidationStats :=
  let '(mkStats t r b i m) := stats in
  match before !! path, after !! path with
  | Some old, Some new =>
      if bool_decide (fp_hash old = fp_hash new) && bool_decide (fp_interface_hash old = fp_interface_hash new)
      then mkStats t (r + 1) b i m
      else if negb (bool_decide (fp_interface_hash old = fp_interface_hash new))
      then mkStats t r (b + 1) (i + 1) m
      else mkStats t r (b + 1) i (m + 1)
  | _, _ => mkStats t r (b + 1) (i + 1) m
  end.

Definition module_invalidation_stats (before after : list ModuleFingerprint) : ModuleInvalidationStats :=
  let before_map := fingerprints before in
  let after_map := fingerprints after in
  let all_paths := dom before_map ∪ dom after_map in
  fold_left (module_stats_step before_map after_map) (iter_set all_paths)
    (mkStats (wrap_u 32 (Z.of_nat (size all_paths))) 0 0 0 0).

Definition module_change (old new : option ModuleFingerprint) : option ModuleChangeKind :=
  match old, new with
  | Some old, Some new =>
      if bool_decide (fp_hash old = fp_hash new) && bool_decide (fp_interface_hash old = fp_interface_hash new)
      then None
      else if bool_decide (fp_interface_hash old = fp_interface_hash new) then Some ModuleImplOnly
      else Some ModuleInterface
  | _, _ => Some ModuleInterface
  end.

Definition collect_module_changes (before after : list ModuleFingerprint) : list (string * ModuleChangeKind) :=
  let before_map := fingerprints before in
  let after_map := fingerprints after in
  omap (fun path => (path,.) <$> module_change (before_map !! path) (after_map !! path))
    (iter_set (dom before_map ∪ dom after_map)).

Definition add_reverse_edges (graph : BuildGraphV2) (reverse : gmap string (gset string)) : gmap string (gset string) :=
  fold_left (fun m node => fold_left (fun m dep => add_edge_to dep (module_path node) m) (depends_on node) m)
    (nodes graph) reverse.

(** ** Functions *)

Definition collect_function_state (graph : BuildGraphV2) : gmap string FunctionNodeState :=
  fold_left (fun m node =>
      fold_left (fun m f => <[fn_symbol f := mkFunctionState (module_path node) (abi_hash f) (fn_body_hash f)]> m)
        (functions node) m)
    (nodes graph) ∅.

Definition graph_has_function_state (graph : BuildGraphV2) : bool :=
  existsb (fun node => match functions node with [] => false | _ => true end) (nodes graph).

Definition function_change (known interface_changed : gset string) (prev curr : option FunctionNodeState) :
    option FunctionChangeKind :=
  let one_sided s :=
    if bool_decide (fs_module_path s ∈ known) && negb (bool_decide (fs_module_path s ∈ interface_changed))
    then Some FunctionImplOnly else Some FunctionInterface in
  match prev, curr with
  | Some prev, Some curr =>
      if bool_decide (fs_abi_hash prev = fs_abi_hash curr) && bool_decide (fs_body_hash prev = fs_body_hash curr)
      then None
      else if bool_decide (fs_abi_hash prev = fs_abi_hash curr) then Some FunctionImplOnly
      else Some FunctionInterface
  | Some prev, None => one_sided prev
  | None, Some curr => one_sided curr
  | None, None => Some FunctionInterface
  end.

(** The functions of the previous graph, when it recorded any. *)
Definition previous_functions (previous_graph : option BuildGraphV2) : option (gmap string FunctionNodeState) :=
  match previous_graph with
  | Some graph => if graph_has_function_state graph then Some (collect_function_state graph) else None
  | None => None
  end.

Definition collect_function_changes (previous_graph : option BuildGraphV2) (current_graph : BuildGraphV2)
    (known_modules interface_changed : gset string) : list (string * FunctionChangeKind) :=
  match previous_functions previous_graph with
  | None => []
  | Some previous =>
      let current := collect_function_state current_graph in
      if bool_decide (current = ∅) then []
      else
        sort_by key_leb
          (omap (fun symbol => (symbol,.) <$>
                   function_change known_modules interface_changed (previous !! symbol) (current !! symbol))
             (iter_set (dom previous ∪ dom current)))
  end.

Definition add_reverse_call_edges (graph : BuildGraphV2) (reverse : gmap string (gset string)) :
    gmap string (gset string) :=
  fold_left (fun m node =>
      fold_left (fun m f => fold_left (fun m callee => add_edge_to callee (fn_symbol f) m) (fn_calls f) m)
        (functions node) m)
    (nodes graph) reverse.

(** Edges of both graphs. *)
Definition with_previous (add : BuildGraphV2 -> gmap string (gset string) -> gmap string (gset string))
    (previous_graph : option BuildGraphV2) (current_graph : BuildGraphV2) : gmap string (gset string) :=
  let reverse := add current_graph ∅ in
  match previous_graph with Some g => add g reverse | None => reverse end.

(** The loop over [reverse], from the queue. *)
Definition dependents (reverse : gmap string (gset string)) (x : string) : list string :=
  match reverse !! x with Some parents => sort_strings (iter_set parents) | None => [] end.

Definition propagate (reverse : gmap string (gset string)) (queue impacted : list string) : option (list string) :=
  snd <$> walk (dependents reverse) (fun _ => true) (walk_fuel (edge_targets reverse) queue)
            (List.rev queue) (list_to_set impacted) impacted.

Definition edit_class_label (class : EditClass) : string :=
  match class with Noop => "noop" | ImplOnly => "impl_only" | InterfaceChange => "interface_change" end.

(** ** The classification *)

Section classify.
Context (previous_root_interface_hash previous_root_implementation_hash : Z).
Context (root_interface_hash root_implementation_hash : Z).
Context (before_modules after_modules : list ModuleFingerprint).
Context (previous_graph : option BuildGraphV2) (current_graph : BuildGraphV2).

Definition root_interface_changed : bool :=
  ((previous_root_interface_hash =? 0)%Z && (previous_root_implementation_hash =? 0)%Z &&
   (negb (root_interface_hash =? 0)%Z || negb (root_implementation_hash =? 0)%Z))
  || negb (previous_root_interface_hash =? root_interface_hash)%Z.

Definition root_changes : list (string * ModuleChangeKind) :=
  if root_interface_changed then [(root_module current_graph, ModuleInterface)]
  else if negb (previous_root_implementation_hash =? root_implementation_hash)%Z
  then [(root_module current_graph, ModuleImplOnly)]
  else [].

Definition module_changes : list (string * ModuleChangeKind) :=
  dedup_by (fun a b => bool_decide (a.1 = b.1))
    (sort_by key_leb (root_changes ++ collect_module_changes before_modules after_modules)).

Definition known_modules : gset string :=
  {[root_module current_graph]} ∪ list_to_set (fp_path <$> after_modules) ∪ list_to_set (fp_path <$> before_modules).

(** The modules of the functions of both graphs. *)
Definition function_state_modules : gset string :=
  list_to_set ((fun kv => fs_module_path kv.2) <$> map_to_list (collect_function_state current_graph)) ∪
  match previous_functions previous_graph with
  | Some previous => list_to_set ((fun kv => fs_module_path kv.2) <$> map_to_list previous)
  | None => ∅
  end.

(** The current module of a symbol, else its previous one. *)
Definition function_symbol_to_module : gmap string string :=
  (fs_module_path <$> collect_function_state current_graph) ∪
  match previous_functions previous_graph with Some previous => fs_module_path <$> previous | None => ∅ end.

Definition is_module_interface (c : string * ModuleChangeKind) : bool :=
  match c.2 with ModuleInterface => true | ModuleImplOnly => false end.
Definition is_function_interface (c : string * FunctionChangeKind) : bool :=
  match c.2 with FunctionInterface => true | FunctionImplOnly => false end.

Definition interface_modules (changes : list (string * ModuleChangeKind)) : gset string :=
  list_to_set (fst <$> List.filter is_module_interface changes).

Definition function_changes_for (changes : list (string * ModuleChangeKind)) : list (string * FunctionChangeKind) :=
  collect_function_changes previous_graph current_graph known_modules (interface_modules changes).

(** A module whose functions are known and none of which changed its interface
    is taken to have changed in its implementation only. *)
Definition downgrade_change (interface_function_modules : gset string) (c : string * ModuleChangeKind) :
    string * ModuleChangeKind :=
  if is_module_interface c && bool_decide (c.1 ∈ function_state_modules) &&
     negb (bool_decide (c.1 ∈ interface_function_modules))
  then (c.1, ModuleImplOnly) else c.

Definition interface_function_modules (changes : list (string * FunctionChangeKind)) : gset string :=
  list_to_set (omap (fun c => function_symbol_to_module !! c.1) (List.filter is_function_interface changes)).

Definition final_changes : list (string * ModuleChangeKind) * list (string * FunctionChangeKind) :=
  let changes := module_changes in
  let fchanges := function_changes_for changes in
  if negb (bool_decide (function_state_modules = ∅)) && negb (bool_decide (interface_modules changes = ∅)) then
    let lowered := map (downgrade_change (interface_function_modules fchanges)) changes in
    if bool_decide (lowered = changes) then (changes, fchanges)
    else (lowered, function_changes_for lowered)
  else (changes, fchanges).

Definition class_of (changes : list (string * ModuleChangeKind)) (fchanges : list (string * FunctionChangeKind)) :
    EditClass :=
  match changes, fchanges with
  | [], [] => Noop
  | _, _ => if existsb is_module_interface changes || existsb is_function_interface fchanges
            then InterfaceChange else ImplOnly
  end.

Definition function_to_module : gmap string string :=
  (fs_module_path <$> collect_function_state current_graph) ∪
  match previous_graph with Some g => fs_module_path <$> collect_function_state g | None => ∅ end.

Definition classify_edit_impact : option EditImpact :=
  let '(changes, fchanges) := final_changes in
  let class := class_of changes fchanges in
  let changed_modules := sort_dedup_strings (fst <$> changes) in
  let changed_functions := sort_dedup_strings (fst <$> fchanges) in
  let* (modules, funs) :=
    match class with
    | InterfaceChange =>
        let* modules := propagate (with_previous add_reverse_edges previous_graph current_graph)
                          (fst <$> List.filter is_module_interface changes) changed_modules in
        let* funs := propagate (with_previous add_reverse_call_edges previous_graph current_graph)
                       (fst <$> List.filter is_function_interface fchanges) changed_functions in
        Some (modules, funs)
    | _ => Some (changed_modules, changed_functions)
    end in
  let modules := sort_dedup_strings modules in
  let impacted_functions := sort_dedup_strings funs in
  let impacted_modules :=
    sort_dedup_strings (modules ++ omap (fun symbol => function_to_module !! symbol) impacted_functions) in
  Some (mkImpact class changed_modules impacted_modules changed_functions impacted_functions).
End classify.

(** ** Symbols of one module after an implementation-only change *)

Definition intern_all (names : list string) (it : SymbolInterner) : SymbolInterner :=
  fold_left (fun it name => snd (intern_symbol name it)) names it.

Definition function_names (f : FunctionFingerprint) : list string := fn_symbol f :: fn_calls f.

Definition index_functions (fs : list FunctionFingerprint) (it : SymbolInterner) :
    gmap Z FunctionFingerprint * SymbolInterner :=
  fold_left (fun s f => let '(m, it) := s in let '(id, it) := intern_symbol (fn_symbol f) it in (<[id := f]> m, it))
    fs (∅, it).

(** The changed ids, or [None] when the loop stops for a changed signature. *)
Fixpoint scan_symbols (previous current : gmap Z FunctionFingerprint) (ids : list Z) (changed : list Z) :
    option (list Z) :=
  match ids with
  | [] => Some changed
  | id :: ids =>
      match previous !! id, current !! id with
      | Some p, Some c =>
          if bool_decide (abi_hash p = abi_hash c) && bool_decide (fn_body_hash p = fn_body_hash c)
          then scan_symbols previous current ids changed
          else if bool_decide (abi_hash p = abi_hash c) then scan_symbols previous current ids (changed ++ [id])
          else None
      | _, _ => None
      end
  end.

Definition reverse_calls_of (fs : list FunctionFingerprint) (it : SymbolInterner) :
    gmap Z (gset Z) * SymbolInterner :=
  fold_left (fun s f =>
      let '(m, it) := s in
      let '(caller, it) := intern_symbol (fn_symbol f) it in
      fold_left (fun s callee =>
          let '(m, it) := s in
          let '(id, it) := intern_symbol callee it in (add_edge_to id caller m, it))
        (fn_calls f) (m, it))
    fs (∅, it).

Definition callers_of (reverse : gmap Z (gset Z)) (x : Z) : list Z :=
  match reverse !! x with Some callers => sort_by Z.leb (iter_ids callers) | None => [] end.

Definition SIGNATURE_DRIFT : string := "symbol signature drift detected, escalate to module scope".

Definition collect_impl_only_impacted_symbols_with_fallback (previous_symbols current_symbols : list FunctionFingerprint) :
    option (list string * option string) :=
  let all := (previous_symbols ++ current_symbols)%list in
  let it := intern_all (flat_map function_names all) symbols_default in
  let '(previous_map, it) := index_functions previous_symbols it in
  let '(current_map, it) := index_functions current_symbols it in
  match scan_symbols previous_map current_map (iter_ids (dom previous_map ∪ dom current_map)) [] with
  | None =>
      Some (sort_dedup_strings (map (resolve_symbol it) (iter_ids (dom current_map))), Some SIGNATURE_DRIFT)
  | Some changed =>
      let changed := sort_dedup Z.leb changed in
      match changed with
      | [] => Some ([], None)
      | _ =>
          let '(reverse_calls, it) := reverse_calls_of all it in
          let* (_, impacted) :=
            walk (callers_of reverse_calls) (fun id => bool_decide (id ∈ dom current_map))
              (walk_fuel (edge_targets reverse_calls) changed) (List.rev changed) (list_to_set changed) changed in
          Some (sort_dedup_strings (map (resolve_symbol it) impacted), None)
      end
  end.

Definition collect_impl_only_impacted_symbols (previous_symbols current_symbols : list FunctionFingerprint) :
    option (list string) :=
  fst <$> collect_impl_only_impacted_symbols_with_fallback previous_symbols current_symbols.
End impact.

(** ** Settings and messages *)

Definition lower_char (c : ascii) : ascii :=
  if is_ascii_uppercase c then ascii_of_nat (nat_of_ascii c + 32) else c.
Definition to_lower (s : string) : string :=
  string_of_list_ascii (map lower_char (list_ascii_of_string s)).

(** The value of the variable, [None] when it is not set or not text. *)
Definition incremental_link_mode_from_env (value : option string) : IncrementalLinkMode :=
  match value with
  | Some raw =>
      if bool_decide (to_lower (trim raw) ∈ ["off"; "false"; "0"]) then LinkOff else LinkAuto
  | None => LinkAuto
  end.

Definition IMPACT_SYMBOL_PRINT_LIMIT : nat := 64.

Definition push_truncated_symbol_lines (lines : list string) (label : string) (syms : list string) : list string :=
  if (List.length syms <=? IMPACT_SYMBOL_PRINT_LIMIT)%nat
  then (lines ++ [label +:+ ": " +:+ String.concat ", " syms])%list
  else (lines ++ [label +:+ ": " +:+ String.concat ", " (take IMPACT_SYMBOL_PRINT_LIMIT syms) +:+ " ... (truncated)";
                 label +:+ " total: " +:+ pretty (List.length syms)])%list.

Definition format_edit_impact_lines (impact : EditImpact) : list string :=
  let lines := ["edit classification: " +:+ edit_class_label (edit_class impact)] in
  let join label l lines :=
    match l with [] => lines | _ => (lines ++ [label +:+ ": " +:+ String.concat ", " l])%list end in
  let lines := join "changed modules" (changed_modules impact) lines in
  let lines := join "impacted modules" (impacted_modules impact) lines in
  let lines := match changed_functions impact with
               | [] => lines
               | l => push_truncated_symbol_lines lines "changed functions" l
               end in
  match impacted_functions impact with
  | [] => lines
  | l => push_truncated_symbol_lines lines "impacted functions" l
  end.
