(* ===== verification/ImpactInv.v ===== *)
(** What [classify_edit_impact] computes: that it ends, that hash orders do not
    matter, when it finds nothing, and exactly what it counts as reached. *)

From S2P Require Import Prelude Sorting Worklist BuildGraph Impact.
From Stdlib Require Import String.

#[local] Open Scope string_scope.

(** ** Keyed lists *)

Section keyed.
Context {V : Type}.
Implicit Types l : list (string * V).

Lemma omap_keys_nodup (f : string -> option V) (ks : list string) :
  NoDup ks -> NoDup (omap (fun k => (k,.) <$> f k) ks).*1.
Proof.
  induction 1 as [|k ks Hk Hnd IH]; simpl; [constructor|]. destruct (f k); simpl; [|done].
  apply NoDup_cons_2; [|done]. intros ([k' w] & -> & Hin)%list_elem_of_fmap.
  apply list_elem_of_omap in Hin as (k2 & Hk2 & Hf). destruct (f k2); simplify_eq/=. done.
Qed.

Lemma elem_of_omap_keys (f : string -> option V) (ks : list string) k v :
  (k, v) ∈ omap (fun k => (k,.) <$> f k) ks <-> k ∈ ks /\ f k = Some v.
Proof.
  rewrite list_elem_of_omap. split.
  - intros (k' & Hk & Hf). destruct (f k') eqn:E; simplify_eq/=. done.
  - intros [Hk Hf]. exists k. by rewrite Hf.
Qed.

Lemma omap_keys_perm (f : string -> option V) (ks ks' : list string) :
  NoDup ks -> ks ≡ₚ ks' -> omap (fun k => (k,.) <$> f k) ks ≡ₚ omap (fun k => (k,.) <$> f k) ks'.
Proof.
  intros Hnd Hp. apply NoDup_Permutation.
  - by eapply NoDup_fmap_1, omap_keys_nodup.
  - eapply NoDup_fmap_1, omap_keys_nodup. by rewrite <- Hp.
  - intros [k v]. by rewrite !elem_of_omap_keys, Hp.
Qed.

(** At most one entry has a given key. *)
Lemma unique_key l k : NoDup l.*1 -> exists o, filter (fun x => x.1 = k) l = option_list o.
Proof.
  induction l as [|[k' v] l IH]; intros Hnd; [by exists None|].
  apply NoDup_cons in Hnd as [Hk Hnd]. rewrite filter_cons. simpl in *.
  destruct (decide (k' = k)) as [->|]; [|by apply IH].
  exists (Some (k, v)). simpl. f_equal. apply elem_of_nil_inv. intros [k2 v2] [Hk2 Hin]%list_elem_of_filter.
  simpl in Hk2. subst. apply Hk, list_elem_of_fmap. by exists (k, v2).
Qed.

Lemma unique_key_perm l l' k :
  NoDup l.*1 -> l ≡ₚ l' -> filter (fun x => x.1 = k) l = filter (fun x => x.1 = k) l'.
Proof.
  intros Hnd Hp. assert (NoDup l'.*1) as Hnd' by by rewrite <- Hp.
  destruct (unique_key l k Hnd) as [o Ho], (unique_key l' k Hnd') as [o' Ho'].
  assert (option_list o ≡ₚ option_list o') as Hoo by (by rewrite <- Ho, <- Ho', Hp).
  rewrite Ho, Ho'. destruct o, o'; simpl in *; try done.
  - apply Permutation_singleton_l in Hoo. by simplify_eq.
  - by apply Permutation_nil_r in Hoo.
  - by symmetry in Hoo; apply Permutation_nil_r in Hoo.
Qed.
End keyed.

(** ** The order of hash tables does not matter *)

Section orders.
Context (o1 o2 : HashOrder).

Lemma iter_sets_perm s : @iter_set o1 s ≡ₚ @iter_set o2 s.
Proof. by rewrite !iter_set_perm. Qed.

Lemma module_changes_ordered a b c d before after graph :
  @module_changes o1 a b c d before after graph = @module_changes o2 a b c d before after graph.
Proof.
  apply (sort_dedup_by_ext fst String.leb); eauto using string_leb_total, string_leb_trans, string_leb_antisymm.
  { intros x y. apply bool_decide_eq_true. }
  intros k. rewrite !filter_app. f_equal. f_equal. apply unique_key_perm.
  - apply omap_keys_nodup, iter_set_nodup.
  - apply omap_keys_perm; [apply iter_set_nodup|apply iter_sets_perm].
Qed.

Lemma collect_function_changes_ordered prev curr known changed :
  @collect_function_changes o1 prev curr known changed = @collect_function_changes o2 prev curr known changed.
Proof.
  unfold collect_function_changes. destruct (previous_functions prev); [|done].
  case_match; [done|]. apply sort_keys_unique.
  - apply omap_keys_nodup, iter_set_nodup.
  - apply omap_keys_perm; [apply iter_set_nodup|apply iter_sets_perm].
Qed.

Lemma final_changes_ordered a b c d before after prev curr :
  @final_changes o1 a b c d before after prev curr = @final_changes o2 a b c d before after prev curr.
Proof.
  unfold final_changes, function_changes_for. rewrite module_changes_ordered.
  by rewrite !collect_function_changes_ordered.
Qed.
End orders.

(** ** Edges *)

Lemma fold_nested {A B C M} (g : M -> C -> M) (h : A -> B -> C) (l : A -> list B) (xs : list A) (m : M) :
  fold_left (fun m x => fold_left (fun m y => g m (h x y)) (l x) m) xs m =
  fold_left g (flat_map (fun x => map (h x) (l x)) xs) m.
Proof.
  revert m. induction xs as [|x xs IH]; intros m; simpl; [done|]. rewrite fold_left_app, IH. f_equal.
  clear. revert m. induction (l x); intros m; simpl; [done|]. auto.
Qed.

Lemma add_edges_spec {K} `{Countable K} (es : list (K * K)) (m : gmap K (gset K)) (j z : K) :
  z ∈ default ∅ (fold_left (fun m e => add_edge_to e.1 e.2 m) es m !! j) <-> (j, z) ∈ es \/ z ∈ default ∅ (m !! j).
Proof.
  revert m. induction es as [|[k x] es IH]; intros m; cbn [fold_left fst snd].
  { rewrite elem_of_nil. tauto. }
  rewrite IH, elem_of_cons. unfold add_edge_to. destruct (decide (j = k)) as [->|Hne].
  - rewrite lookup_insert_eq. cbn. rewrite elem_of_union, elem_of_singleton. naive_solver.
  - rewrite lookup_insert_ne by done. naive_solver.
Qed.

Definition graphs_of (previous_graph : option BuildGraphV2) (current_graph : BuildGraphV2) : list BuildGraphV2 :=
  current_graph :: option_list previous_graph.

(** Module [m] imports module [d], and function [f] calls [g], in one of the two
    builds. *)
Definition imported_by prev curr (d m : string) : Prop :=
  exists g node, g ∈ graphs_of prev curr /\ node ∈ nodes g /\ module_path node = m /\ d ∈ depends_on node.
Definition called_by prev curr (callee caller : string) : Prop :=
  exists g node f, g ∈ graphs_of prev curr /\ node ∈ nodes g /\ f ∈ functions node /\
    fn_symbol f = caller /\ callee ∈ fn_calls f.

Definition import_edges (g : BuildGraphV2) : list (string * string) :=
  flat_map (fun node => map (fun dep => (dep, module_path node)) (depends_on node)) (nodes g).
Definition call_edges (g : BuildGraphV2) : list (string * string) :=
  flat_map (fun node => flat_map (fun f => map (fun callee => (callee, fn_symbol f)) (fn_calls f)) (functions node)) (nodes g).

Notation add_edges := (fold_left (fun m e => add_edge_to e.1 e.2 m)).

Lemma add_reverse_edges_list g m : add_reverse_edges g m = add_edges (import_edges g) m.
Proof. apply (fold_nested (fun m e => add_edge_to e.1 e.2 m) (fun node dep => (dep, module_path node))). Qed.

Lemma add_reverse_call_edges_list g m : add_reverse_call_edges g m = add_edges (call_edges g) m.
Proof.
  unfold add_reverse_call_edges, call_edges. revert m. induction (nodes g) as [|node l IH]; intros m; simpl; [done|].
  rewrite fold_left_app, <- IH. f_equal.
  apply (fold_nested (fun m e => add_edge_to e.1 e.2 m) (fun f callee => (callee, fn_symbol f))).
Qed.

Section spec.
Context `{HashOrder}.
Context (prev : option BuildGraphV2) (curr : BuildGraphV2).

Lemma elem_of_dependents reverse x y : y ∈ dependents reverse x <-> y ∈ default ∅ (reverse !! x).
Proof.
  unfold dependents. destruct (reverse !! x); cbn; [|by rewrite elem_of_nil, elem_of_empty].
  by rewrite (sort_by_perm String.leb), elem_of_iter_set.
Qed.

Lemma with_previous_edges add edges x y :
  (forall g m, add g m = add_edges (edges g) m) ->
  y ∈ dependents (with_previous add prev curr) x <-> exists g, g ∈ graphs_of prev curr /\ (x, y) ∈ edges g.
Proof.
  intros Ha. rewrite elem_of_dependents. unfold with_previous, graphs_of.
  destruct prev as [p|]; cbn [option_list]; rewrite !Ha, !add_edges_spec, lookup_empty; cbn [default]; set_solver.
Qed.

Lemma module_dependents x y :
  y ∈ dependents (with_previous add_reverse_edges prev curr) x <-> imported_by prev curr x y.
Proof.
  rewrite (with_previous_edges _ import_edges) by apply add_reverse_edges_list. unfold imported_by, import_edges.
  setoid_rewrite list_elem_of_In. setoid_rewrite in_flat_map. setoid_rewrite in_map_iff. naive_solver.
Qed.

Lemma call_dependents x y :
  y ∈ dependents (with_previous add_reverse_call_edges prev curr) x <-> called_by prev curr x y.
Proof.
  rewrite (with_previous_edges _ call_edges) by apply add_reverse_call_edges_list. unfold called_by, call_edges.
  setoid_rewrite list_elem_of_In. setoid_rewrite in_flat_map. setoid_rewrite in_flat_map. setoid_rewrite in_map_iff.
  naive_solver.
Qed.

(** ** What is reached

    From a start, along edges, through what is not known already. *)
Inductive reached (edge : string -> string -> Prop) (start known : string -> Prop) : string -> Prop :=
| reached_first x y : start x -> edge x y -> ~ known y -> reached edge start known y
| reached_next x y : reached edge start known x -> edge x y -> ~ known y -> reached edge start known y.

Lemma found_reached succ edge start seen (Start Known : string -> Prop) y :
  (forall x z, z ∈ succ x <-> edge x z) -> (forall x, x ∈ start <-> Start x) -> (forall x, x ∈ (seen : gset string) <-> Known x) ->
  found succ (fun _ => true) start seen y <-> reached edge Start Known y.
Proof.
  intros He Hs Hk. split.
  - induction 1; [eapply reached_first|eapply reached_next]; rewrite <- ?He, <- ?Hk; eauto; by apply Hs.
  - induction 1 as [x y Hx Hxy Hn|x y Hx IH Hxy Hn]; rewrite <- Hk in Hn; apply He in Hxy;
      [apply Hs in Hx; by eapply found_first|by eapply found_next].
Qed.

Lemma propagate_spec reverse queue impacted :
  exists new, propagate reverse queue impacted = Some (impacted ++ new)%list /\
    forall y, y ∈ new <-> found (dependents reverse) (fun _ => true) queue (list_to_set impacted) y.
Proof.
  unfold propagate.
  destruct (walk_enough (dependents reverse) (fun _ => true) (edge_targets reverse)
    (walk_fuel (edge_targets reverse) queue) (List.rev queue) (list_to_set impacted) impacted) as [[seen out] Hw].
  { intros x y. rewrite elem_of_dependents. destruct (reverse !! x) eqn:E; cbn; [|set_solver].
    by eapply elem_of_edge_targets. }
  { unfold walk_fuel. rewrite length_rev.
    assert (size (edge_targets reverse ∖ list_to_set impacted) <= size (edge_targets reverse))%nat by (apply subseteq_size; set_solver).
    lia. }
  rewrite Hw. destruct (walk_exact _ _ _ _ _ _ _ _ Hw) as (new & -> & _ & _ & Hn). exists new. split; [done|].
  intros y. rewrite Hn. split; apply found_ext; try done; intros x; rewrite !list_elem_of_In, <- in_rev; done.
Qed.
End spec.

(** ** The classification *)

Section theorems.
Context (previous_root_interface previous_root_implementation root_interface root_implementation : Z).
Context (before after : list ModuleFingerprint) (prev : option BuildGraphV2) (curr : BuildGraphV2).

Notation classify o := (@classify_edit_impact o previous_root_interface previous_root_implementation
  root_interface root_implementation before after prev curr).
Notation changes o := (@final_changes o previous_root_interface previous_root_implementation
  root_interface root_implementation before after prev curr).

(** What the classification lists as changed; [listed_spec] says what that is. *)
Definition listed_module_changed `{HashOrder} (m : string) : Prop := m ∈ (changes _).1.*1.
Definition listed_module_interface_changed `{HashOrder} (m : string) : Prop := (m, ModuleInterface) ∈ (changes _).1.
Definition listed_function_changed `{HashOrder} (f : string) : Prop := f ∈ (changes _).2.*1.
Definition listed_function_interface_changed `{HashOrder} (f : string) : Prop := (f, FunctionInterface) ∈ (changes _).2.

Definition listed_function_reached `{HashOrder} (f : string) : Prop :=
  listed_function_changed f \/ reached (called_by prev curr) listed_function_interface_changed listed_function_changed f.
Definition listed_module_reached `{HashOrder} (m : string) : Prop :=
  listed_module_changed m \/ reached (imported_by prev curr) listed_module_interface_changed listed_module_changed m.

Lemma elem_of_interface_modules (l : list (string * ModuleChangeKind)) m :
  m ∈ fst <$> List.filter is_module_interface l <-> (m, ModuleInterface) ∈ l.
Proof.
  rewrite list_elem_of_fmap. setoid_rewrite list_elem_of_In. setoid_rewrite filter_In. split.
  - intros ([? []] & -> & ? & ?); done.
  - intros Hin. by exists (m, ModuleInterface).
Qed.

Lemma elem_of_interface_functions (l : list (string * FunctionChangeKind)) f :
  f ∈ fst <$> List.filter is_function_interface l <-> (f, FunctionInterface) ∈ l.
Proof.
  rewrite list_elem_of_fmap. setoid_rewrite list_elem_of_In. setoid_rewrite filter_In. split.
  - intros ([? []] & -> & ? & ?); done.
  - intros Hin. by exists (f, FunctionInterface).
Qed.

Lemma not_reached edge (start known : string -> Prop) y : (forall x, ~ start x) -> ~ reached edge start known y.
Proof. intros Hs. induction 1; [by eapply Hs|done]. Qed.

(** No interface changed unless the class says so. *)
Lemma class_of_interface cs fs :
  class_of cs fs <> InterfaceChange -> (forall m, (m, ModuleInterface) ∉ cs) /\ (forall f, (f, FunctionInterface) ∉ fs).
Proof.
  intros Hc. assert (existsb is_module_interface cs || existsb is_function_interface fs = false) as [H1 H2]%orb_false_iff.
  { destruct cs, fs; cbn in Hc |- *; try done; case_match; done. }
  split; intros x Hx; apply list_elem_of_In in Hx.
  - assert (existsb is_module_interface cs = true); [apply existsb_exists; by eexists|congruence].
  - assert (existsb is_function_interface fs = true); [apply existsb_exists; by eexists|congruence].
Qed.

Section one_order.
Context `{HashOrder}.

(** The lists before the last step, for either class. *)
Definition propagated (cs : list (string * ModuleChangeKind)) (fs : list (string * FunctionChangeKind)) :
    option (list string * list string) :=
  let changed_modules := sort_dedup_strings (fst <$> cs) in
  let changed_functions := sort_dedup_strings (fst <$> fs) in
  match class_of cs fs with
  | InterfaceChange =>
      let* modules := propagate (with_previous add_reverse_edges prev curr)
                        (fst <$> List.filter is_module_interface cs) changed_modules in
      let* funs := propagate (with_previous add_reverse_call_edges prev curr)
                     (fst <$> List.filter is_function_interface fs) changed_functions in
      Some (modules, funs)
  | _ => Some (changed_modules, changed_functions)
  end.

Lemma elem_of_sorted (l : list string) x : x ∈ sort_dedup_strings l <-> x ∈ l.
Proof. apply elem_of_sort_dedup; eauto using string_leb_total, string_leb_trans, string_leb_antisymm. Qed.

Lemma propagated_spec :
  exists ms fs, propagated (changes _).1 (changes _).2 = Some (ms, fs) /\
    (forall m, m ∈ ms <-> listed_module_reached m) /\ (forall f, f ∈ fs <-> listed_function_reached f).
Proof.
  unfold propagated, listed_module_reached, listed_function_reached.
  set (cs := (changes _).1). set (fs := (changes _).2).
  destruct (decide (class_of cs fs = InterfaceChange)) as [Hc|Hc].
  - rewrite Hc.
    destruct (propagate_spec (with_previous add_reverse_edges prev curr) (fst <$> List.filter is_module_interface cs)
      (sort_dedup_strings (fst <$> cs))) as (nm & -> & Hm).
    destruct (propagate_spec (with_previous add_reverse_call_edges prev curr) (fst <$> List.filter is_function_interface fs)
      (sort_dedup_strings (fst <$> fs))) as (nf & -> & Hf).
    eexists _, _. split; [done|]. split; intros x; rewrite elem_of_app, elem_of_sorted; apply or_iff_compat_l.
    + rewrite Hm. apply found_reached; [apply module_dependents|apply elem_of_interface_modules|].
      intros y. by rewrite elem_of_list_to_set, elem_of_sorted.
    + rewrite Hf. apply found_reached; [apply call_dependents|apply elem_of_interface_functions|].
      intros y. by rewrite elem_of_list_to_set, elem_of_sorted.
  - assert (match class_of cs fs with InterfaceChange => None | _ => Some (sort_dedup_strings (fst <$> cs), sort_dedup_strings (fst <$> fs)) end
            = Some (sort_dedup_strings (fst <$> cs), sort_dedup_strings (fst <$> fs))) as E by by destruct (class_of cs fs).
    apply class_of_interface in Hc as Hn. destruct Hn as [Hnm Hnf].
    exists (sort_dedup_strings (fst <$> cs)), (sort_dedup_strings (fst <$> fs)).
    split; [by destruct (class_of cs fs)|]. split; intros x; rewrite elem_of_sorted.
    + split; [by left|intros [?|Hr]; [done|]]. by apply not_reached in Hr.
    + split; [by left|intros [?|Hr]; [done|]]. by apply not_reached in Hr.
Qed.

Lemma classify_unfold :
  classify _ =
    let* (modules, funs) := propagated (changes _).1 (changes _).2 in
    let impacted_functions := sort_dedup_strings funs in
    Some (mkImpact (class_of (changes _).1 (changes _).2) (sort_dedup_strings (changes _).1.*1)
            (sort_dedup_strings (sort_dedup_strings modules ++
               omap (fun symbol => function_to_module prev curr !! symbol) impacted_functions)%list)
            (sort_dedup_strings (changes _).2.*1) impacted_functions).
Proof. unfold classify_edit_impact, propagated. by destruct (changes _). Qed.

Lemma classify_spec :
  exists impact, classify _ = Some impact /\
    edit_class impact = class_of (changes _).1 (changes _).2 /\
    (forall m, m ∈ changed_modules impact <-> listed_module_changed m) /\
    (forall f, f ∈ changed_functions impact <-> listed_function_changed f) /\
    (forall f, f ∈ impacted_functions impact <-> listed_function_reached f) /\
    (forall m, m ∈ impacted_modules impact <->
       listed_module_reached m \/ exists f, listed_function_reached f /\ function_to_module prev curr !! f = Some m).
Proof.
  rewrite classify_unfold. destruct propagated_spec as (ms & fs & -> & Hm & Hf).
  eexists. split; [done|]. cbn. split; [done|].
  refine (conj _ (conj _ (conj _ _))); intros x; rewrite ?elem_of_sorted; try done.
  rewrite elem_of_app, elem_of_sorted, list_elem_of_omap, Hm. by setoid_rewrite elem_of_sorted; setoid_rewrite Hf.
Qed.

(** *** Nothing changed *)

Definition hashes (fp : ModuleFingerprint) : Z * Z := (fp_interface_hash fp, fp_hash fp).
Definition function_hashes (s : FunctionNodeState) : Z * Z := (fs_abi_hash s, fs_body_hash s).

Definition same_inputs : Prop :=
  (previous_root_interface = root_interface /\ previous_root_implementation = root_implementation) /\
  (forall p, hashes <$> index_by fp_path before !! p = hashes <$> index_by fp_path after !! p) /\
  match previous_functions prev with
  | None => True
  | Some previous =>
      collect_function_state curr = ∅ \/
      forall f, function_hashes <$> previous !! f = function_hashes <$> collect_function_state curr !! f
  end.

Lemma omap_keys_nil {V} (f : string -> option V) (ks : list string) :
  omap (fun k => (k,.) <$> f k) ks = [] <-> forall k, k ∈ ks -> f k = None.
Proof.
  split.
  - intros Hn k Hk. destruct (f k) eqn:E; [|done]. assert ((k, v) ∈ omap (fun k => (k,.) <$> f k) ks) as Hin by by apply elem_of_omap_keys.
    rewrite Hn in Hin. by apply elem_of_nil in Hin.
  - intros Hf. apply elem_of_nil_inv. intros [k v] [Hk Hv]%elem_of_omap_keys. by rewrite Hf in Hv.
Qed.

Lemma sort_by_nil {A} leb (l : list A) : sort_by leb l = [] <-> l = [].
Proof.
  split; [|by intros ->]. intros Hn. pose proof (sort_by_perm leb l) as Hp. rewrite Hn in Hp.
  by apply Permutation_nil_l in Hp.
Qed.

Lemma module_change_none old new :
  is_Some old \/ is_Some new -> module_change old new = None <-> hashes <$> old = hashes <$> new.
Proof.
  unfold module_change, hashes. destruct old as [o|], new as [n|]; cbn; intros Hs; [|naive_solver..].
  destruct (bool_decide_reflect (fp_hash o = fp_hash n)), (bool_decide_reflect (fp_interface_hash o = fp_interface_hash n));
    cbn; split; congruence.
Qed.

Lemma function_change_none known changed old new :
  is_Some old \/ is_Some new -> function_change known changed old new = None <-> function_hashes <$> old = function_hashes <$> new.
Proof.
  unfold function_change, function_hashes. destruct old as [o|], new as [n|]; cbn; intros Hs; [|repeat case_match; naive_solver..].
  destruct (bool_decide_reflect (fs_abi_hash o = fs_abi_hash n)), (bool_decide_reflect (fs_body_hash o = fs_body_hash n));
    cbn; split; congruence.
Qed.

(** Agreement on the keys of either map is agreement everywhere. *)
Lemma keys_agree {A B} (g : A -> B) (m1 m2 : gmap string A) (P : string -> Prop) :
  (forall k, is_Some (m1 !! k) \/ is_Some (m2 !! k) -> P k <-> g <$> m1 !! k = g <$> m2 !! k) ->
  (forall k, k ∈ iter_set (dom m1 ∪ dom m2) -> P k) <-> (forall k, g <$> m1 !! k = g <$> m2 !! k).
Proof.
  intros HP. setoid_rewrite elem_of_iter_set. setoid_rewrite elem_of_union. setoid_rewrite elem_of_dom. split.
  - intros Hk k. destruct (m1 !! k) eqn:E1; [|destruct (m2 !! k) eqn:E2; [|done]]; rewrite <- E1;
      try rewrite <- E2; apply HP; try apply Hk; rewrite ?E1, ?E2; eauto.
  - intros Hk k Hs. by apply HP.
Qed.

Lemma module_changes_nil :
  module_changes previous_root_interface previous_root_implementation root_interface root_implementation before after curr = []
  <-> (previous_root_interface = root_interface /\ previous_root_implementation = root_implementation) /\
      (forall p, hashes <$> index_by fp_path before !! p = hashes <$> index_by fp_path after !! p).
Proof.
  assert (forall l : list (string * ModuleChangeKind), dedup_by (fun a b => bool_decide (a.1 = b.1)) (sort_by key_leb l) = [] <-> l = []) as Hd.
  { intros l. rewrite <- (sort_by_nil key_leb l). by destruct (sort_by key_leb l). }
  unfold module_changes. rewrite Hd, app_nil.
  unfold collect_module_changes. rewrite omap_keys_nil.
  rewrite (keys_agree hashes) by (intros k; apply module_change_none). apply and_iff_compat_r.
  unfold root_changes, root_interface_changed.
  destruct (Z.eqb_spec previous_root_interface root_interface), (Z.eqb_spec previous_root_implementation root_implementation),
    (Z.eqb_spec previous_root_interface 0), (Z.eqb_spec previous_root_implementation 0),
    (Z.eqb_spec root_interface 0), (Z.eqb_spec root_implementation 0); cbn; naive_solver lia.
Qed.

Lemma function_changes_nil known changed :
  collect_function_changes prev curr known changed = [] <->
  match previous_functions prev with
  | None => True
  | Some previous =>
      collect_function_state curr = ∅ \/
      forall f, function_hashes <$> previous !! f = function_hashes <$> collect_function_state curr !! f
  end.
Proof.
  unfold collect_function_changes. destruct (previous_functions prev) as [previous|]; [|done].
  destruct (bool_decide_reflect (collect_function_state curr = ∅)); [naive_solver|].
  rewrite sort_by_nil, omap_keys_nil, (keys_agree function_hashes) by (intros k; apply function_change_none).
  naive_solver.
Qed.

Lemma noop_spec : class_of (changes _).1 (changes _).2 = Noop <-> same_inputs.
Proof.
  assert (class_of (changes _).1 (changes _).2 = Noop <-> changes _ = ([], [])) as ->.
  { destruct (changes _) as [[|? ?] [|? ?]]; cbn; split; try done; by destruct (_ || _). }
  unfold same_inputs. rewrite (assoc and). rewrite <- module_changes_nil.
  set (ms := module_changes _ _ _ _ _ _ _). unfold final_changes. fold ms. split.
  - intros Hc. assert (ms = [] /\ function_changes_for before after prev curr ms = [] \/
                      exists g l, map g ms = [] /\ function_changes_for before after prev curr (map g ms) = [] /\ l = ms) as Hm.
    { destruct (negb _ && negb _); [|by left; injection Hc].
      case_match; [by left; injection Hc|]. right. eexists _, ms. injection Hc as H1 H2. split; [exact H1|by split; [exact H2|]]. }
    destruct Hm as [[-> Hf]|(g & l & Hg & Hf & _)].
    + split; [done|]. by apply function_changes_nil in Hf.
    + apply map_eq_nil in Hg. rewrite Hg in Hf |- *. split; [done|]. by apply function_changes_nil in Hf.
  - intros [Hm Hf]. rewrite Hm. cbn. rewrite andb_comm. cbn.
    f_equal. by apply function_changes_nil.
Qed.
End one_order.

(** *** The theorems *)

Lemma propagated_sets (o1 o2 : HashOrder) cs fs ms1 fs1 ms2 fs2 :
  changes o1 = (cs, fs) -> changes o2 = (cs, fs) ->
  @propagated o1 cs fs = Some (ms1, fs1) -> @propagated o2 cs fs = Some (ms2, fs2) ->
  (forall m, m ∈ ms1 <-> m ∈ ms2) /\ (forall f, f ∈ fs1 <-> f ∈ fs2).
Proof.
  intros E1 E2 H1 H2.
  destruct (@propagated_spec o1) as (? & ? & P1 & Hm1 & Hf1), (@propagated_spec o2) as (? & ? & P2 & Hm2 & Hf2).
  rewrite E1 in P1. rewrite E2 in P2. cbn [fst snd] in *. rewrite H1 in P1. rewrite H2 in P2. simplify_eq.
  revert Hm1 Hf1 Hm2 Hf2. unfold listed_module_reached, listed_function_reached, listed_module_changed, listed_module_interface_changed,
    listed_function_changed, listed_function_interface_changed. rewrite E1, E2. intros Hm1 Hf1 Hm2 Hf2.
  split; intros y; [by rewrite Hm1, Hm2|by rewrite Hf1, Hf2].
Qed.

(** The classification does not depend on the order in which hash tables
    are traversed: any two orders give the same impact, the lists included. *)
Theorem classification_deterministic (o1 o2 : HashOrder) : classify o1 = classify o2.
Proof.
  rewrite !classify_unfold. pose proof (final_changes_ordered o1 o2 previous_root_interface
    previous_root_implementation root_interface root_implementation before after prev curr) as E.
  destruct (changes o1) as [cs fs] eqn:E1. symmetry in E. rewrite E. cbn [fst snd].
  destruct (@propagated_spec o1) as (ms1 & fs1 & P1 & _), (@propagated_spec o2) as (ms2 & fs2 & P2 & _).
  rewrite E1 in P1. rewrite E in P2. cbn [fst snd] in *. rewrite P1, P2.
  destruct (propagated_sets o1 o2 cs fs ms1 fs1 ms2 fs2) as [Hm Hf]; try done.
  assert (forall l l' : list string, (forall x, x ∈ l <-> x ∈ l') -> sort_dedup_strings l = sort_dedup_strings l') as Hx.
  { intros l l'. apply sort_dedup_ext; eauto using string_leb_total, string_leb_trans, string_leb_antisymm. }
  by rewrite (Hx _ _ Hm), (Hx _ _ Hf).
Qed.

(** *** What changed

    In terms of the fingerprints and function hashes of the two builds.  Where
    a module is listed twice, or a function, its last entry counts. *)
Definition fingerprint_of (l : list ModuleFingerprint) (m : string) : option ModuleFingerprint :=
  last (filter (fun fp => fp_path fp = m) l).

Definition all_functions (g : BuildGraphV2) : list (string * FunctionNodeState) :=
  flat_map (fun node => map (fun fn => (fn_symbol fn, mkFunctionState (module_path node) (abi_hash fn) (fn_body_hash fn)))
    (functions node)) (nodes g).
Definition state_in (g : BuildGraphV2) (f : string) : option FunctionNodeState :=
  snd <$> last (filter (fun x => x.1 = f) (all_functions g)).
Definition old_state (f : string) : option FunctionNodeState := prev ≫= fun g => state_in g f.
Definition new_state (f : string) : option FunctionNodeState := state_in curr f.

(** Functions are compared when both builds recorded some. *)
Definition functions_recorded : Prop :=
  (exists g, prev = Some g /\ all_functions g <> []) /\ all_functions curr <> [].

(** The root has hashes of its own; zeros stand for no previous build. *)
Definition root_differs : Prop :=
  previous_root_interface <> root_interface \/ previous_root_implementation <> root_implementation.
Definition root_interface_differs : Prop :=
  previous_root_interface <> root_interface \/
  (previous_root_interface = 0 /\ previous_root_implementation = 0 /\ root_implementation <> 0)%Z.

(** A module changed when it is the root and the root's hashes differ, or when
    its fingerprint was added, was removed or has other hashes. *)
Definition module_changed (m : string) : Prop :=
  (m = root_module curr /\ root_differs) \/
  hashes <$> fingerprint_of before m <> hashes <$> fingerprint_of after m.

Definition module_interface_differs (m : string) : Prop :=
  (m = root_module curr /\ root_differs -> root_interface_differs) /\
  (~ (m = root_module curr /\ root_differs) ->
   fp_interface_hash <$> fingerprint_of before m <> fp_interface_hash <$> fingerprint_of after m).

Definition function_changed (f : string) : Prop :=
  functions_recorded /\ function_hashes <$> old_state f <> function_hashes <$> new_state f.

Definition known_module (m : string) : Prop :=
  m = root_module curr \/ m ∈ fp_path <$> after \/ m ∈ fp_path <$> before.

(** The signature of a function differs, or the function is in one build only
    and its module, if known, is one of [interface]. *)
Definition signature_differs (interface : string -> Prop) (f : string) : Prop :=
  functions_recorded /\
  match old_state f, new_state f with
  | Some old, Some new => fs_abi_hash old <> fs_abi_hash new
  | Some s, None | None, Some s => known_module (fs_module_path s) -> interface (fs_module_path s)
  | None, None => False
  end.

Definition module_of (f : string) : option string :=
  fs_module_path <$> match new_state f with Some s => Some s | None => old_state f end.
Definition has_functions (m : string) : Prop :=
  exists f s, (old_state f = Some s \/ new_state f = Some s) /\ fs_module_path s = m.

(** Of a module with recorded functions the interface counts as changed only
    if that of one of its functions is. *)
Definition module_interface_changed (m : string) : Prop :=
  module_interface_differs m /\
  (has_functions m -> exists f, signature_differs module_interface_differs f /\ module_of f = Some m).
Definition function_interface_changed (f : string) : Prop := signature_differs module_interface_changed f.

Definition function_reached (f : string) : Prop :=
  function_changed f \/ reached (called_by prev curr) function_interface_changed function_changed f.
Definition module_reached (m : string) : Prop :=
  module_changed m \/ reached (imported_by prev curr) module_interface_changed module_changed m.

(** *** What is listed is what changed *)

Lemma fold_insert_last {A} (key : A -> string) {V} (value : A -> V) (l : list A) (m : gmap string V) k :
  fold_left (fun m x => <[key x := value x]> m) l m !! k =
  match last (filter (fun x => key x = k) l) with Some x => Some (value x) | None => m !! k end.
Proof.
  induction l as [|x l IH] using rev_ind; [done|]. rewrite fold_left_app, filter_app. cbn [fold_left].
  destruct (decide (key x = k)) as [<-|Hne].
  - by rewrite lookup_insert_eq, filter_cons, decide_True, filter_nil, last_snoc.
  - by rewrite lookup_insert_ne, filter_cons, decide_False, filter_nil, app_nil_r, IH.
Qed.

Lemma index_by_path (l : list ModuleFingerprint) m : index_by fp_path l !! m = fingerprint_of l m.
Proof. unfold index_by, fingerprint_of. rewrite (fold_insert_last fp_path (fun x => x)). by destruct (last _). Qed.

Lemma collected_list g : collect_function_state g = fold_left (fun m x => <[x.1 := x.2]> m) (all_functions g) ∅.
Proof.
  unfold collect_function_state, all_functions. symmetry.
  rewrite <- (fold_nested (fun m x => <[x.1 := x.2]> m)
    (fun node fn => (fn_symbol fn, mkFunctionState (module_path node) (abi_hash fn) (fn_body_hash fn))) functions). done.
Qed.

Lemma collected_state g f : collect_function_state g !! f = state_in g f.
Proof. rewrite collected_list, (fold_insert_last fst snd). unfold state_in. by destruct (last _). Qed.

Lemma recorded_nonempty g : graph_has_function_state g = true <-> all_functions g <> [].
Proof.
  unfold graph_has_function_state, all_functions. induction (nodes g) as [|node l IH]; cbn; [done|].
  rewrite orb_true_iff, IH. destruct (functions node); cbn; [naive_solver|]. naive_solver.
Qed.

Lemma collected_empty g : collect_function_state g = ∅ <-> all_functions g = [].
Proof.
  split; [|intros H; by rewrite collected_list, H]. intros He. destruct (all_functions g) as [|[f st] l] eqn:E; [done|].
  assert (state_in g f = None) as Hn by (by rewrite <- collected_state, He).
  unfold state_in in Hn. apply fmap_None, last_None in Hn. rewrite E in Hn.
  apply (filter_nil_not_elem_of _ _ (f, st)) in Hn; [|done]. destruct Hn. by left.
Qed.
Lemma previous_state f : match previous_functions prev with Some p => p !! f | None => None end = old_state f.
Proof.
  unfold previous_functions, old_state. destruct prev as [g|]; [|done]. cbn.
  destruct (graph_has_function_state g) eqn:E; [by rewrite collected_state|].
  destruct (all_functions g) as [|x l] eqn:El; [by unfold state_in; rewrite El|].
  assert (graph_has_function_state g = true) by (apply recorded_nonempty; by rewrite El). congruence.
Qed.

Lemma symbol_module f : function_symbol_to_module prev curr !! f = module_of f.
Proof.
  unfold function_symbol_to_module, module_of. rewrite <- previous_state. unfold new_state. rewrite <- collected_state, lookup_union, lookup_fmap.
  destruct (previous_functions prev) as [p|]; rewrite ?lookup_fmap, ?lookup_empty; [destruct (p !! f)|];
    by destruct (collect_function_state curr !! f).
Qed.

Lemma function_module f : function_to_module prev curr !! f = module_of f.
Proof.
  unfold function_to_module, module_of, old_state, new_state. rewrite lookup_union, lookup_fmap, collected_state.
  destruct prev as [g|]; cbn; rewrite ?lookup_fmap, ?lookup_empty, ?collected_state; [destruct (state_in g f)|];
    by destruct (state_in curr f).
Qed.

Lemma elem_of_modules (m : gmap string FunctionNodeState) x :
  x ∈ ((fun kv => fs_module_path kv.2) <$> map_to_list m) <-> exists f s, m !! f = Some s /\ fs_module_path s = x.
Proof.
  rewrite list_elem_of_fmap. split.
  - intros ([f st] & -> & Hin%elem_of_map_to_list). eauto.
  - intros (f & st & Hin & <-). exists (f, st). split; [done|by apply elem_of_map_to_list].
Qed.

Lemma state_modules m : m ∈ function_state_modules prev curr <-> has_functions m.
Proof.
  unfold function_state_modules, has_functions. rewrite elem_of_union, elem_of_list_to_set, elem_of_modules.
  setoid_rewrite collected_state. setoid_rewrite <- previous_state. unfold new_state.
  destruct (previous_functions prev) as [p|].
  - rewrite elem_of_list_to_set, elem_of_modules. naive_solver.
  - rewrite elem_of_empty. naive_solver.
Qed.

Section listed.
Context `{HashOrder}.
Notation raw := (module_changes previous_root_interface previous_root_implementation root_interface root_implementation before after curr).

Lemma root_changes_shape : let rc := root_changes previous_root_interface previous_root_implementation root_interface root_implementation curr in
  (rc = [] /\ ~ root_differs) \/ exists k, rc = [(root_module curr, k)] /\ root_differs /\ (k = ModuleInterface <-> root_interface_differs).
Proof.
  unfold root_changes, root_interface_changed, root_differs, root_interface_differs.
  destruct (Z.eqb_spec previous_root_interface root_interface), (Z.eqb_spec previous_root_implementation root_implementation),
    (Z.eqb_spec previous_root_interface 0), (Z.eqb_spec previous_root_implementation 0),
    (Z.eqb_spec root_interface 0), (Z.eqb_spec root_implementation 0); cbn;
    first [left; split; [done|lia] | right; eexists; split; [done|]; naive_solver lia].
Qed.

Lemma head_unique (l : list (string * ModuleChangeKind)) m k :
  NoDup l.*1 -> head (filter (fun x => x.1 = m) l) = Some (m, k) <-> (m, k) ∈ l.
Proof.
  intros Hnd. destruct (unique_key l m Hnd) as [o Ho]. rewrite Ho. transitivity ((m, k) ∈ filter (fun x => x.1 = m) l).
  - rewrite Ho. destruct o; cbn; [rewrite list_elem_of_singleton; naive_solver|]. split; [done|by intros ?%elem_of_nil].
  - rewrite list_elem_of_filter. naive_solver.
Qed.

Lemma raw_changes m k : (m, k) ∈ raw <->
  (m = root_module curr /\ root_differs /\ (k = ModuleInterface <-> root_interface_differs)) \/
  (~ (m = root_module curr /\ root_differs) /\ (is_Some (fingerprint_of before m) \/ is_Some (fingerprint_of after m)) /\
   module_change (fingerprint_of before m) (fingerprint_of after m) = Some k).
Proof.
  assert (forall k, (m, k) ∈ collect_module_changes before after <->
    (is_Some (fingerprint_of before m) \/ is_Some (fingerprint_of after m)) /\
    module_change (fingerprint_of before m) (fingerprint_of after m) = Some k) as Hc.
  { intros k'. unfold collect_module_changes. rewrite elem_of_omap_keys, elem_of_iter_set, elem_of_union, !elem_of_dom, !index_by_path. done. }
  unfold module_changes.
  pose proof (elem_of_sort_dedup_by fst String.leb (fun a b : string * ModuleChangeKind => bool_decide (a.1 = b.1))) as Hs.
  unfold sort_dedup_by in Hs. change key_leb with (fun x y : string * ModuleChangeKind => String.leb x.1 y.1). rewrite Hs; clear Hs; eauto using string_leb_total, string_leb_trans, string_leb_antisymm.
  2: { intros x y. apply bool_decide_eq_true. }
  cbn [fst]. rewrite filter_app, <- Hc, <- head_unique by apply omap_keys_nodup, iter_set_nodup.
  destruct root_changes_shape as [[-> Hn]|(k' & -> & Hd & Hk)]; [cbn; naive_solver|].
  rewrite filter_cons. cbn [fst]. destruct (decide (root_module curr = m)) as [<-|Hne]; cbn; [|naive_solver].
  split.
  - intros [= <-]. by left.
  - intros [(_ & _ & Hk2)|[[] _]]; [|done]. do 2 f_equal. destruct k, k'; naive_solver.
Qed.

Lemma module_change_interface old new : is_Some old \/ is_Some new ->
  module_change old new = Some ModuleInterface <-> fp_interface_hash <$> old <> fp_interface_hash <$> new.
Proof.
  unfold module_change. destruct old as [o|], new as [n|]; cbn; intros Hs; [|naive_solver..].
  destruct (bool_decide_reflect (fp_hash o = fp_hash n)), (bool_decide_reflect (fp_interface_hash o = fp_interface_hash n));
    cbn; split; congruence.
Qed.

Lemma differ_some {A B} (g : A -> B) (o n : option A) : g <$> o <> g <$> n -> is_Some o \/ is_Some n.
Proof. destruct o, n; cbn; eauto. by intros []. Qed.

Lemma raw_changed m : m ∈ raw.*1 <-> module_changed m.
Proof.
  unfold module_changed. rewrite list_elem_of_fmap. split.
  - intros ([m' k] & -> & [(-> & Hd & _)|(_ & Hs & Hc)]%raw_changes); [by left|right]. intros He.
    apply module_change_none in He; [|done]. cbn in He. congruence.
  - intros Hm. destruct (decide (m = root_module curr)) as [Hr|Hr], root_changes_shape as [[_ Hn]|(k & _ & Hd & Hk)];
      try (exists (m, k); split; [done|]; apply raw_changes; left; naive_solver).
    all: assert (hashes <$> fingerprint_of before m <> hashes <$> fingerprint_of after m) as He by tauto;
      pose proof (differ_some _ _ _ He) as Hs;
      destruct (module_change (fingerprint_of before m) (fingerprint_of after m)) as [k'|] eqn:E;
        [exists (m, k'); split; [done|]; apply raw_changes; right; tauto|by apply module_change_none in E].
Qed.

Lemma raw_interface m : (m, ModuleInterface) ∈ raw <-> module_interface_differs m.
Proof.
  rewrite raw_changes. unfold module_interface_differs. split.
  - intros [(-> & Hd & Hk)|(Hn & Hs & Hc)]; [tauto|]. split; [tauto|]. intros _. by apply module_change_interface in Hc.
  - intros [H1 H2]. assert ((m = root_module curr /\ root_differs) \/ ~ (m = root_module curr /\ root_differs)) as [Hr|Hr].
    { destruct (decide (m = root_module curr)), root_changes_shape as [[_ ?]|(? & _ & ? & _)]; tauto. }
    + left. tauto.
    + right. specialize (H2 Hr). pose proof (differ_some _ _ _ H2) as Hs. split_and!; [done..|]. by apply module_change_interface.
Qed.

Lemma function_changes_spec (known interface : gset string) f k :
  (f, k) ∈ collect_function_changes prev curr known interface <->
  functions_recorded /\ (is_Some (old_state f) \/ is_Some (new_state f)) /\
  function_change known interface (old_state f) (new_state f) = Some k.
Proof.
  unfold collect_function_changes, functions_recorded. pose proof (previous_state f) as Hp.
  assert ((exists g, prev = Some g /\ all_functions g <> []) <-> is_Some (previous_functions prev)) as ->.
  { unfold previous_functions. destruct prev as [g|]; [|naive_solver].
    pose proof (recorded_nonempty g). destruct (graph_has_function_state g); naive_solver. }
  destruct (previous_functions prev) as [p|]; [|rewrite elem_of_nil; naive_solver].
  pose proof (collected_empty curr) as He. case_bool_decide as Hc; [rewrite elem_of_nil; tauto|].
  rewrite (sort_by_perm key_leb), elem_of_omap_keys, elem_of_iter_set, elem_of_union, !elem_of_dom, Hp, collected_state. unfold new_state. naive_solver.
Qed.

Lemma fchanges_changed (known interface : gset string) f :
  f ∈ (collect_function_changes prev curr known interface).*1 <-> function_changed f.
Proof.
  unfold function_changed. rewrite list_elem_of_fmap. split.
  - intros ([f' k] & -> & (Hr & Hs & Hc)%function_changes_spec). split; [done|]. intros He.
    apply (function_change_none known interface) in He; [|done]. cbn in He. congruence.
  - intros [Hr He]. pose proof (differ_some _ _ _ He) as Hs.
    destruct (function_change known interface (old_state f) (new_state f)) as [k|] eqn:E; [|by apply function_change_none in E].
    exists (f, k). split; [done|]. by apply function_changes_spec.
Qed.

Lemma elem_of_known_modules m : m ∈ known_modules before after curr <-> known_module m.
Proof. unfold known_modules, known_module. set_solver. Qed.

Lemma fchanges_interface (interface : gset string) f :
  (f, FunctionInterface) ∈ collect_function_changes prev curr (known_modules before after curr) interface <->
  signature_differs (fun m => m ∈ interface) f.
Proof.
  rewrite function_changes_spec. unfold signature_differs, function_change. apply and_iff_compat_l.
  assert (forall m, (if bool_decide (m ∈ known_modules before after curr) && negb (bool_decide (m ∈ interface))
    then Some FunctionImplOnly else Some FunctionInterface) = Some FunctionInterface <-> (known_module m -> m ∈ interface)) as Hone.
  { intros m. rewrite <- elem_of_known_modules.
    destruct (bool_decide_reflect (m ∈ known_modules before after curr)), (bool_decide_reflect (m ∈ interface)); cbn; naive_solver. }
  destruct (old_state f) as [o|], (new_state f) as [n|]; rewrite ?Hone; [|naive_solver..].
  destruct (bool_decide_reflect (fs_abi_hash o = fs_abi_hash n)), (bool_decide_reflect (fs_body_hash o = fs_body_hash n)); cbn; naive_solver.
Qed.

Lemma signature_differs_ext (P Q : string -> Prop) f : (forall m, P m <-> Q m) -> signature_differs P f <-> signature_differs Q f.
Proof. intros He. unfold signature_differs. by repeat case_match; rewrite ?He. Qed.

Lemma elem_of_interface (l : list (string * ModuleChangeKind)) m : m ∈ interface_modules l <-> (m, ModuleInterface) ∈ l.
Proof. unfold interface_modules. by rewrite elem_of_list_to_set, elem_of_interface_modules. Qed.

(** The functions are compared under the modules that are listed in the end. *)
Lemma final_functions : (changes _).2 = function_changes_for before after prev curr (changes _).1.
Proof. unfold final_changes. by destruct (negb _ && negb _); [case_bool_decide|]. Qed.

Definition kept_interface (m : string) : Prop :=
  has_functions m -> exists f, signature_differs module_interface_differs f /\ module_of f = Some m.

Lemma raw_functions f : (f, FunctionInterface) ∈ function_changes_for before after prev curr raw <-> signature_differs module_interface_differs f.
Proof.
  unfold function_changes_for. rewrite fchanges_interface. apply signature_differs_ext. intros m. by rewrite elem_of_interface, raw_interface.
Qed.

Lemma elem_of_interface_function_modules m :
  m ∈ interface_function_modules prev curr (function_changes_for before after prev curr raw) <->
  exists f, signature_differs module_interface_differs f /\ module_of f = Some m.
Proof.
  unfold interface_function_modules. rewrite elem_of_list_to_set, list_elem_of_omap. split.
  - intros ([f k] & Hin & Hm). rewrite symbol_module in Hm. exists f. split; [|done]. apply raw_functions.
    apply list_elem_of_In, filter_In in Hin as [Hin Hk]. destruct k; [done|by apply list_elem_of_In].
  - intros (f & Hf%raw_functions & Hm). exists (f, FunctionInterface). rewrite symbol_module. split; [|done].
    apply list_elem_of_In, filter_In. by rewrite <- list_elem_of_In.
Qed.

(** The modules that are listed in the end: the same, some of them lowered. *)
Lemma final_modules : (changes _).1.*1 = raw.*1 /\
  forall m, (m, ModuleInterface) ∈ (changes _).1 <-> (m, ModuleInterface) ∈ raw /\ kept_interface m.
Proof.
  set (lowered := map (downgrade_change prev curr (interface_function_modules prev curr (function_changes_for before after prev curr raw))) raw).
  assert ((changes _).1 = lowered \/ (changes _).1 = raw /\ (function_state_modules prev curr = ∅ \/ interface_modules raw = ∅)) as [->|[-> Hs]].
  { unfold final_changes. fold raw lowered.
    destruct (bool_decide_reflect (function_state_modules prev curr = ∅)); [by right; auto|].
    destruct (bool_decide_reflect (interface_modules raw = ∅)); [by right; auto|]. cbn.
    left. by case_bool_decide as E. }
  - split.
    + unfold lowered. rewrite <- list_fmap_compose. apply list_fmap_ext. intros i [m k] _. unfold downgrade_change. cbn. by case_match.
    + intros m. unfold lowered, kept_interface. rewrite list_elem_of_fmap, <- state_modules, <- elem_of_interface_function_modules. split.
      * intros ([m' k] & Heq & Hin). unfold downgrade_change, is_module_interface in Heq. cbn in Heq. destruct k; [by simplify_eq|].
        repeat case_bool_decide; cbn in Heq; simplify_eq; split; done || naive_solver.
      * intros [Hin Hk]. exists (m, ModuleInterface). split; [|done]. unfold downgrade_change. cbn.
        repeat case_bool_decide; cbn; try done. naive_solver.
  - split; [done|]. intros m. unfold kept_interface. rewrite <- state_modules. destruct Hs as [->|Hs].
    + set_solver.
    + rewrite <- elem_of_interface, Hs. set_solver.
Qed.

Lemma listed_spec :
  (forall m, listed_module_changed m <-> module_changed m) /\
  (forall m, listed_module_interface_changed m <-> module_interface_changed m) /\
  (forall f, listed_function_changed f <-> function_changed f) /\
  (forall f, listed_function_interface_changed f <-> function_interface_changed f).
Proof.
  destruct final_modules as [Hm Hi].
  assert (forall m, listed_module_interface_changed m <-> module_interface_changed m) as Hmi.
  { intros m. unfold listed_module_interface_changed, module_interface_changed. by rewrite Hi, raw_interface. }
  split_and!; [|done|..].
  - intros m. unfold listed_module_changed. by rewrite Hm, raw_changed.
  - intros f. unfold listed_function_changed. rewrite final_functions. apply fchanges_changed.
  - intros f. unfold listed_function_interface_changed. rewrite final_functions. unfold function_changes_for. rewrite fchanges_interface.
    apply signature_differs_ext. intros m. rewrite elem_of_interface. apply Hmi.
Qed.

Lemma reached_ext edge (P P' Q Q' : string -> Prop) y :
  (forall x, P x <-> P' x) -> (forall x, Q x <-> Q' x) -> reached edge P Q y -> reached edge P' Q' y.
Proof. intros HP HQ. induction 1; [eapply reached_first|eapply reached_next]; rewrite <- ?HP, <- ?HQ; eauto. Qed.

Lemma listed_reached :
  (forall m, listed_module_reached m <-> module_reached m) /\ (forall f, listed_function_reached f <-> function_reached f).
Proof.
  destruct listed_spec as (H1 & H2 & H3 & H4). split; intros x.
  - unfold listed_module_reached, module_reached. rewrite H1. split; (intros [?|Hr]; [by left|right]); eapply reached_ext; try exact Hr; done.
  - unfold listed_function_reached, function_reached. rewrite H3. split; (intros [?|Hr]; [by left|right]); eapply reached_ext; try exact Hr; done.
Qed.
End listed.


(** Nothing is reported exactly when nothing is different: an edit is
    classed as no change if and only if the hashes of the root, of every module
    and (where both builds recorded functions) of every function are those of
    the previous build. *)
Theorem noop_exact `{HashOrder} :
  exists impact, classify _ = Some impact /\ (edit_class impact = Noop <-> same_inputs).
Proof.
  destruct classify_spec as (impact & H1 & Hc & _). exists impact. split; [done|]. rewrite Hc. apply noop_spec.
Qed.
End theorems.

(** ** Where the propagation stops *)

Definition three_modules : BuildGraphV2 :=
  mkGraph 4 "c" [mkNode "a" 0 0 [] None [] [] []; mkNode "b" 0 0 ["a"] None [] [] [];
                 mkNode "c" 0 0 ["b"] None [] [] []].

Definition impact_of (before after : list ModuleFingerprint) : option EditImpact :=
  @classify_edit_impact hash_order_elements 7 9 7 9 before after None three_modules.

(** [c] imports [b] imports [a], and the interface of [a] changed: all three
    are impacted. *)
Example interface_change_reaches :
  impacted_modules <$> impact_of [mkFingerprint "a" 1 1; mkFingerprint "b" 1 1] [mkFingerprint "a" 2 1; mkFingerprint "b" 1 1]
  = Some ["a"; "b"; "c"].
Proof. vm_compute. reflexivity. Qed.

(** When the implementation of [b] changed as well, [c] is not impacted any
    more: what changed is marked as seen before the walk, which therefore does
    not go on from it. *)
Theorem changed_module_stops_propagation :
  impacted_modules <$> impact_of [mkFingerprint "a" 1 1; mkFingerprint "b" 1 1] [mkFingerprint "a" 2 1; mkFingerprint "b" 1 2]
  = Some ["a"; "b"].
Proof. vm_compute. reflexivity. Qed.

(** A root that is fingerprinted as a module too is judged by its root hashes
    alone. *)
Theorem root_hashes_win :
  (fun i => (edit_class i, impacted_modules i)) <$>
    @classify_edit_impact hash_order_elements 7 8 7 9 [mkFingerprint "c" 1 1] [mkFingerprint "c" 2 1] None three_modules
  = Some (ImplOnly, ["c"]).
Proof. vm_compute. reflexivity. Qed.
