(* ===== verification/ImpactSymbols.v ===== *)
(** [collect_impl_only_impacted_symbols_with_fallback]: the walk over interned
    ids gives the symbols that a changed body reaches through calls. *)

From S2P Require Import Prelude Sorting Worklist BuildGraph Impact ImpactInv.
From Stdlib Require Import String.

#[local] Open Scope string_scope.

(** ** The interner *)

Definition interned (it : SymbolInterner) (name : string) (id : Z) : Prop := id_by_symbol it !! name = Some id.

Record interner_wf (it : SymbolInterner) : Prop := {
  wf_ids : forall name id, interned it name id -> (0 <= id)%Z /\ symbols it !! Z.to_nat id = Some name;
  wf_small : (Z.of_nat (List.length (symbols it)) <= 2 ^ 32)%Z;
}.

Lemma interned_inj it n1 n2 id : interner_wf it -> interned it n1 id -> interned it n2 id -> n1 = n2.
Proof. intros Hwf [_ H1]%(wf_ids _ Hwf) [_ H2]%(wf_ids _ Hwf). by rewrite H1 in H2; simplify_eq. Qed.

Lemma resolve_interned it name id : interner_wf it -> interned it name id -> resolve_symbol it id = name.
Proof. intros Hwf [_ Hi]%(wf_ids _ Hwf). unfold resolve_symbol. by rewrite Hi. Qed.

Lemma intern_known it name id : interned it name id -> intern_symbol name it = (id, it).
Proof. unfold intern_symbol. by intros ->. Qed.

Lemma intern_symbol_wf name it id it' :
  interner_wf it -> (Z.of_nat (List.length (symbols it)) < 2 ^ 32)%Z -> intern_symbol name it = (id, it') ->
  interner_wf it' /\ interned it' name id /\ (forall n i, interned it n i -> interned it' n i) /\
  (List.length (symbols it') <= S (List.length (symbols it)))%nat.
Proof.
  intros Hwf Hlen. unfold intern_symbol, interned. destruct (id_by_symbol it !! name) as [i|] eqn:E; intros [= <- <-].
  { by auto. }
  rewrite wrap_u_id by (unfold in_u; lia). split; [|split; [|split]]; cbn.
  - split; cbn.
    + intros n i. unfold interned. cbn. rewrite lookup_insert_Some. intros [[<- <-]|[_ Hi]].
      * split; [lia|]. rewrite Nat2Z.id. by apply list_lookup_middle.
      * apply (wf_ids _ Hwf) in Hi as [? Hi]. split; [done|]. by apply lookup_app_l_Some.
    + rewrite length_app. simpl. lia.
  - apply lookup_insert_eq.
  - intros n i Hi. rewrite lookup_insert_ne; [done|]. intros <-. by rewrite Hi in E.
  - rewrite length_app. simpl. lia.
Qed.

Lemma intern_all_wf names it :
  interner_wf it -> (Z.of_nat (List.length (symbols it) + List.length names) <= 2 ^ 32)%Z ->
  interner_wf (intern_all names it) /\
  (forall n, n ∈ names -> exists id, interned (intern_all names it) n id) /\
  (forall n i, interned it n i -> interned (intern_all names it) n i).
Proof.
  revert it. induction names as [|name names IH]; intros it Hwf Hlen; cbn [intern_all fold_left].
  { split; [done|]. split; [by intros ? ?%elem_of_nil|done]. }
  simpl in Hlen. destruct (intern_symbol name it) as [id it'] eqn:E. cbn [snd].
  destruct (intern_symbol_wf _ _ _ _ Hwf ltac:(lia) E) as (Hwf' & Hid & Hold & Hl).
  destruct (IH it' Hwf' ltac:(lia)) as (H1 & H2 & H3). split; [done|]. split.
  - intros n [->|Hn]%elem_of_cons; [|by apply H2]. exists id. by apply H3.
  - intros n i Hi. by apply H3, Hold.
Qed.

Lemma symbols_default_wf : interner_wf symbols_default.
Proof. split; [by intros n id|done]. Qed.

(** ** With every name interned *)

Section interned_names.
Context `{HashOrder} (it : SymbolInterner) (Hwf : interner_wf it).

Definition all_known (names : list string) : Prop := forall n, n ∈ names -> exists id, interned it n id.

(** The map by ids is the map by names. *)
Definition by_ids (m : gmap Z FunctionFingerprint) (n : gmap string FunctionFingerprint) : Prop :=
  (forall name id, interned it name id -> m !! id = n !! name) /\
  (forall id f, m !! id = Some f -> exists name, interned it name id).

Lemma index_functions_ids fs :
  all_known (fn_symbol <$> fs) ->
  exists m, index_functions fs it = (m, it) /\ by_ids m (index_by fn_symbol fs).
Proof.
  unfold index_functions, index_by. intros Hk.
  assert (forall m n, by_ids m n -> exists m', fold_left (fun s f =>
      let '(m, it) := s in let '(id, it) := intern_symbol (fn_symbol f) it in (<[id := f]> m, it)) fs (m, it) = (m', it) /\
    by_ids m' (fold_left (fun m x => <[fn_symbol x := x]> m) fs n)) as Hgen; [|apply Hgen; split; by intros].
  induction fs as [|f fs IH]; intros m n Hb; cbn [fold_left]; [eauto|].
  destruct (Hk (fn_symbol f)) as [id Hid]; [by left|]. rewrite (intern_known _ _ _ Hid).
  apply IH; [intros x Hx; apply Hk; by right|]. destruct Hb as [H1 H2]. split.
  - intros name i Hi. destruct (decide (name = fn_symbol f)) as [->|Hne].
    + unfold interned in *. rewrite Hid in Hi. injection Hi as <-. by rewrite !lookup_insert_eq.
    + rewrite !lookup_insert_ne; [by apply H1|done|]. intros ->. by apply Hne, (interned_inj it _ _ i).
  - intros i g. rewrite lookup_insert_Some. intros [[<- _]|[_ Hg]]; [by exists (fn_symbol f)|by apply H2 in Hg].
Qed.

Lemma elem_of_dom_ids m n name id : by_ids m n -> interned it name id -> id ∈ dom m <-> name ∈ dom n.
Proof. intros [Hb _] Hi. by rewrite !elem_of_dom, (Hb _ _ Hi). Qed.

(** The edges by ids are the calls. *)
Definition sid (name : string) : Z := default 0%Z (id_by_symbol it !! name).

Definition known (name : string) : Prop := exists id, interned it name id.

Lemma known_sid name : known name -> interned it name (sid name).
Proof. intros [id Hid]. unfold sid, interned in *. by rewrite Hid. Qed.

Lemma intern_sid name : known name -> intern_symbol name it = (sid name, it).
Proof. intros Hk. by apply intern_known, known_sid. Qed.

Lemma sid_inj n1 n2 : known n1 -> known n2 -> sid n1 = sid n2 -> n1 = n2.
Proof. intros H1%known_sid H2%known_sid E. rewrite E in H1. by eapply interned_inj. Qed.

Definition call_ids (f : FunctionFingerprint) : list (Z * Z) :=
  map (fun callee => (sid callee, sid (fn_symbol f))) (fn_calls f).

Notation add_edges := (fold_left (fun m e => add_edge_to e.1 e.2 m)).

Lemma callees_ids caller callees m :
  all_known callees ->
  fold_left (fun s callee => let '(m, it) := s in
    let '(id, it) := intern_symbol callee it in (add_edge_to id caller m, it)) callees (m, it) =
  (add_edges (map (fun callee => (sid callee, caller)) callees) m, it).
Proof.
  revert m. induction callees as [|c l IH]; intros m Hk; cbn [fold_left map]; [done|].
  rewrite intern_sid by (apply Hk; by left). apply IH. intros x Hx. apply Hk. by right.
Qed.

Lemma reverse_calls_ids fs :
  all_known (flat_map function_names fs) -> reverse_calls_of fs it = (add_edges (flat_map call_ids fs) ∅, it).
Proof.
  unfold reverse_calls_of. generalize (∅ : gmap Z (gset Z)). induction fs as [|f fs IH]; intros m Hk; cbn [fold_left flat_map]; [done|].
  assert (all_known (function_names f)) as Hf by (intros x Hx; apply Hk, elem_of_app; by left).
  rewrite intern_sid by (apply Hf; by left). rewrite callees_ids by (intros x Hx; apply Hf; by right).
  rewrite fold_left_app. apply IH. intros x Hx. apply Hk, elem_of_app. by right.
Qed.
End interned_names.

(** ** Scanning *)

Definition same_abi (p c : option FunctionFingerprint) : bool :=
  match p, c with Some p, Some c => bool_decide (abi_hash p = abi_hash c) | _, _ => false end.
Definition other_body (p c : option FunctionFingerprint) : bool :=
  match p, c with Some p, Some c => negb (bool_decide (fn_body_hash p = fn_body_hash c)) | _, _ => false end.

Lemma scan_symbols_spec p c ids changed :
  scan_symbols p c ids changed =
    if forallb (fun i => same_abi (p !! i) (c !! i)) ids
    then Some (changed ++ List.filter (fun i => other_body (p !! i) (c !! i)) ids)%list else None.
Proof.
  revert changed. induction ids as [|i ids IH]; intros changed; cbn [scan_symbols forallb List.filter].
  { by rewrite app_nil_r. }
  unfold same_abi at 1, other_body at 1. destruct (p !! i) as [a|], (c !! i) as [b|]; try done.
  destruct (bool_decide (abi_hash a = abi_hash b)); cbn [andb]; [|done].
  destruct (bool_decide (fn_body_hash a = fn_body_hash b)); cbn [negb]; rewrite IH; [done|].
  by rewrite <- (assoc_L (++)).
Qed.

Section symbols.
Context `{HashOrder} (previous current : list FunctionFingerprint).

Notation before := (index_by fn_symbol previous).
Notation now := (index_by fn_symbol current).
Notation all := (previous ++ current)%list.

(** A function was added, removed, or given another signature. *)
Definition signature_drift : Prop := exists s, abi_hash <$> before !! s <> abi_hash <$> now !! s.

Definition body_changed (s : string) : Prop :=
  exists p c, before !! s = Some p /\ now !! s = Some c /\ fn_body_hash p <> fn_body_hash c.

Definition calls_in (callee caller : string) : Prop :=
  exists f, f ∈ all /\ fn_symbol f = caller /\ callee ∈ fn_calls f.

Lemma elem_of_index_dom (l : list FunctionFingerprint) s : s ∈ dom (index_by fn_symbol l) <-> s ∈ fn_symbol <$> l.
Proof.
  unfold index_by. assert (forall m : gmap string FunctionFingerprint,
    s ∈ dom (fold_left (fun m x => <[fn_symbol x := x]> m) l m) <-> s ∈ fn_symbol <$> l \/ s ∈ dom m) as Hg.
  { induction l as [|f l IH]; intros m; cbn [fold_left fmap list_fmap]; [set_solver|].
    rewrite IH, dom_insert, elem_of_union, elem_of_singleton, elem_of_cons. tauto. }
  rewrite Hg, dom_empty. set_solver.
Qed.

Context (it : SymbolInterner) (Hwf : interner_wf it) (Hk : all_known it (flat_map function_names all)).

Lemma known_symbol s : s ∈ dom before ∪ dom now -> known it s.
Proof.
  rewrite elem_of_union, !elem_of_index_dom, !list_elem_of_fmap. intros Hs. apply Hk. apply list_elem_of_In, in_flat_map.
  destruct Hs as [(f & -> & Hf)|(f & -> & Hf)]; exists f; (split; [apply list_elem_of_In, elem_of_app; tauto|by left]).
Qed.

Context (pm cm : gmap Z FunctionFingerprint) (Hp : by_ids it pm before) (Hc : by_ids it cm now).

Lemma elem_of_ids i : i ∈ dom pm ∪ dom cm <-> exists s, s ∈ dom before ∪ dom now /\ interned it s i.
Proof.
  split.
  - intros Hi. assert (exists s, interned it s i) as [s Hs].
    { rewrite elem_of_union, !elem_of_dom in Hi. destruct Hi as [[f Hf]|[f Hf]]; [by eapply Hp|by eapply Hc]. }
    exists s. split; [|done]. apply elem_of_union in Hi. apply elem_of_union.
    by rewrite <- (elem_of_dom_ids it pm before s i), <- (elem_of_dom_ids it cm now s i).
  - intros (s & Hs & Hi). apply elem_of_union in Hs. apply elem_of_union.
    by rewrite (elem_of_dom_ids it pm before s i), (elem_of_dom_ids it cm now s i).
Qed.

Lemma same_abi_names :
  forallb (fun i => same_abi (pm !! i) (cm !! i)) (iter_ids (dom pm ∪ dom cm)) = true <-> ~ signature_drift.
Proof.
  rewrite forallb_forall. setoid_rewrite <- list_elem_of_In. setoid_rewrite elem_of_iter_ids. unfold signature_drift. split.
  - intros Ha (s & Hs). apply Hs. destruct (decide (s ∈ dom before ∪ dom now)) as [Hin|Hin].
    + destruct (known_symbol s Hin) as [i Hi]. specialize (Ha i). rewrite (proj1 Hp s i Hi), (proj1 Hc s i Hi) in Ha.
      assert (i ∈ dom pm ∪ dom cm) as Hd by (apply elem_of_ids; eauto). apply Ha in Hd. unfold same_abi in Hd.
      destruct (before !! s), (now !! s); try done. apply bool_decide_eq_true in Hd. cbn. by rewrite Hd.
    + apply not_elem_of_union in Hin as [H1 H2]. by rewrite (proj1 (not_elem_of_dom _ _) H1), (proj1 (not_elem_of_dom _ _) H2).
  - intros Hn i (s & Hs & Hi)%elem_of_ids. rewrite (proj1 Hp s i Hi), (proj1 Hc s i Hi). unfold same_abi.
    assert (abi_hash <$> before !! s = abi_hash <$> now !! s) as E.
    { destruct (decide (abi_hash <$> before !! s = abi_hash <$> now !! s)); [done|]. destruct Hn. by exists s. }
    rewrite elem_of_union, !elem_of_dom in Hs.
    destruct (before !! s) eqn:E1, (now !! s) eqn:E2; cbn in E; try done; [|by destruct Hs as [[]|[]]].
    apply bool_decide_eq_true. congruence.
Qed.

Lemma elem_of_changed_ids i :
  i ∈ List.filter (fun i => other_body (pm !! i) (cm !! i)) (iter_ids (dom pm ∪ dom cm)) <->
  exists s, body_changed s /\ interned it s i.
Proof.
  rewrite list_elem_of_In, filter_In, <- list_elem_of_In, elem_of_iter_ids, elem_of_ids. split.
  - intros [(s & _ & Hi) Ho]. exists s. split; [|done]. rewrite (proj1 Hp s i Hi), (proj1 Hc s i Hi) in Ho. unfold other_body in Ho.
    destruct (before !! s) eqn:E1, (now !! s) eqn:E2; try done. eexists _, _. split; [done|]. split; [done|].
    by apply negb_true_iff, bool_decide_eq_false in Ho.
  - intros (s & (p & c & E1 & E2 & Hb) & Hi). split.
    + exists s. split; [|done]. apply elem_of_union_l, elem_of_dom. by rewrite E1.
    + rewrite (proj1 Hp s i Hi), (proj1 Hc s i Hi), E1, E2. cbn. by rewrite bool_decide_eq_false_2.
Qed.

(** ** The walk *)

Notation edges := (fold_left (fun m e => add_edge_to e.1 e.2 m) (flat_map (call_ids it) all) ∅).

Lemma elem_of_callers i j :
  j ∈ callers_of edges i <-> exists callee caller, calls_in callee caller /\ interned it callee i /\ interned it caller j.
Proof.
  assert (j ∈ callers_of edges i <-> j ∈ default ∅ (edges !! i)) as ->.
  { unfold callers_of. destruct (edges !! i); cbn; [|by rewrite elem_of_nil, elem_of_empty].
    by rewrite (sort_by_perm Z.leb), elem_of_iter_ids. }
  rewrite add_edges_spec, lookup_empty. cbn [default]. rewrite elem_of_empty, list_elem_of_In, in_flat_map.
  assert (forall f callee, f ∈ all -> callee ∈ fn_calls f -> known it callee /\ known it (fn_symbol f)) as Hkn.
  { intros f callee Hf Hin. split; apply Hk, list_elem_of_In, in_flat_map; exists f;
      (split; [by apply list_elem_of_In|]); [right; by apply list_elem_of_In|by left]. }
  split.
  - intros [(f & Hf & (callee & [= <- <-] & Hin)%in_map_iff)|[]]. apply list_elem_of_In in Hf, Hin.
    destruct (Hkn f callee Hf Hin) as [H1 H2]. exists callee, (fn_symbol f). split; [by exists f|].
    split; by apply known_sid.
  - intros (callee & caller & (f & Hf & <- & Hin) & Hi & Hj). left. exists f. split; [by apply list_elem_of_In|].
    apply in_map_iff. exists callee. split; [|by apply list_elem_of_In]. unfold sid. by rewrite Hi, Hj.
Qed.

(** Without a drift every caller is a current function, and paths of ids are
    chains of calls. *)
Lemma rtc_calls c s i :
  ~ signature_drift -> interned it c i -> body_changed c ->
  (exists j, interned it s j /\ rtc (fun x y => y ∈ callers_of edges x /\ bool_decide (y ∈ dom cm) = true) i j) <->
  rtc calls_in c s.
Proof.
  intros Hd Hi (p & cc & Ep & Ec & _). split.
  - intros (j & Hj & Hr). revert s Hj. pattern j. eapply rtc_ind_r, Hr.
    + intros s Hs. by rewrite (interned_inj it s c i).
    + intros y z _ [Hz _] IH s Hs. apply elem_of_callers in Hz as (callee & caller & Hcall & H1 & H2).
      rewrite (interned_inj it s caller z) by done. eapply rtc_r; [by apply IH|done].
  - intros Hr. pattern s. eapply rtc_ind_r, Hr.
    + by exists i.
    + intros y z _ Hcall (j & Hj & Hrj). destruct Hcall as (f & Hf & <- & Hin).
      assert (fn_symbol f ∈ dom before ∪ dom now) as Hdom.
      { rewrite elem_of_union, !elem_of_index_dom, !list_elem_of_fmap. apply elem_of_app in Hf as [?|?]; eauto. }
      destruct (known_symbol _ Hdom) as [k Hkk]. exists k. split; [done|]. eapply rtc_r; [done|]. split.
      * apply elem_of_callers. exists y, (fn_symbol f). split; [by exists f|done].
      * apply bool_decide_eq_true, (elem_of_dom_ids it cm now (fn_symbol f) k); [done|done|].
        apply elem_of_dom. apply elem_of_union in Hdom as [Hdom|Hdom]; [|by apply elem_of_dom in Hdom].
        apply elem_of_dom in Hdom as [q Hq]. destruct (now !! fn_symbol f) eqn:E; [done|].
        destruct Hd. exists (fn_symbol f). by rewrite Hq, E.
Qed.

Lemma drift_found :
  forallb (fun i => same_abi (pm !! i) (cm !! i)) (iter_ids (dom pm ∪ dom cm)) = false -> signature_drift.
Proof.
  intros Hf. destruct (List.find (fun i => negb (same_abi (pm !! i) (cm !! i))) (iter_ids (dom pm ∪ dom cm))) as [i|] eqn:E.
  - apply List.find_some in E as [Hin Hs]. apply list_elem_of_In, elem_of_iter_ids, elem_of_ids in Hin as (s & Hs' & Hi).
    exists s. apply negb_true_iff in Hs. rewrite (proj1 Hp s i Hi), (proj1 Hc s i Hi) in Hs. unfold same_abi in Hs.
    apply elem_of_union in Hs'. rewrite !elem_of_dom in Hs'.
    destruct (before !! s) eqn:E1, (now !! s) eqn:E2; cbn; try done; [|by destruct Hs' as [[]|[]]].
    apply bool_decide_eq_false in Hs. congruence.
  - enough (forallb (fun i => same_abi (pm !! i) (cm !! i)) (iter_ids (dom pm ∪ dom cm)) = true) by congruence.
    apply forallb_forall. intros i Hi. apply (List.find_none _ _ E) in Hi. by apply negb_false_iff in Hi.
Qed.

Lemma elem_of_resolved (ids : list Z) (P : string -> Prop) s :
  (forall i, i ∈ ids <-> exists n, P n /\ interned it n i) -> (forall n, P n -> known it n) ->
  s ∈ map (resolve_symbol it) ids <-> P s.
Proof.
  intros Hi Hn. rewrite list_elem_of_In, in_map_iff. setoid_rewrite <- list_elem_of_In. split.
  - intros (i & <- & (n & Hp' & Hni)%Hi). by rewrite (resolve_interned it n i).
  - intros Hs. destruct (Hn s Hs) as [i Hsi]. exists i. split; [by apply resolve_interned|]. apply Hi. by exists s.
Qed.

Definition reaches (s : string) : Prop := exists c, body_changed c /\ rtc calls_in c s.

Lemma body_changed_known c : body_changed c -> known it c.
Proof. intros (p & q & E & _). apply known_symbol, elem_of_union_l, elem_of_dom. by rewrite E. Qed.

(** The walk from the changed ids [changed]. *)
Lemma walk_symbols (changed : list Z) :
  ~ signature_drift -> (forall i, i ∈ changed <-> exists s, body_changed s /\ interned it s i) ->
  exists seen impacted,
    walk (callers_of edges) (fun id => bool_decide (id ∈ dom cm)) (walk_fuel (edge_targets edges) changed)
      (List.rev changed) (list_to_set changed) changed = Some (seen, impacted) /\
    forall s, s ∈ map (resolve_symbol it) impacted <-> reaches s.
Proof.
  intros Hd Hch.
  destruct (walk_enough (callers_of edges) (fun id => bool_decide (id ∈ dom cm)) (edge_targets edges)
    (walk_fuel (edge_targets edges) changed) (List.rev changed) (list_to_set changed) changed) as [[seen out] Hw].
  { intros x y. unfold callers_of. destruct (edges !! x) eqn:E; [|by intros ?%elem_of_nil].
    rewrite (sort_by_perm Z.leb), elem_of_iter_ids. by apply elem_of_edge_targets with (k := x). }
  { unfold walk_fuel. rewrite length_rev.
    assert (size (edge_targets edges ∖ list_to_set changed) <= size (edge_targets edges))%nat by (apply subseteq_size; set_solver).
    lia. }
  exists seen, out. split; [done|]. destruct (walk_exact _ _ _ _ _ _ _ _ Hw) as (new & -> & _ & _ & Hn).
  intros s. apply elem_of_resolved.
  - intros j. rewrite elem_of_app, Hn, <- (elem_of_list_to_set (C := gset Z)), found_rtc.
    2: { intros x. by rewrite elem_of_list_to_set, !list_elem_of_In, <- in_rev. }
    split.
    + intros (i & Hi & Hr). rewrite list_elem_of_In, <- in_rev, <- list_elem_of_In in Hi.
      apply Hch in Hi as (c & Hb & Hci).
      assert (exists n, interned it n j) as [n Hnj].
      { destruct (rtc_inv_r _ _ Hr) as [<-|(k & _ & Hk' & _)]; [by exists c|].
        apply elem_of_callers in Hk' as (? & n & _ & _ & Hnj). by exists n. }
      exists n. split; [|done]. exists c. split; [done|]. apply (rtc_calls c n i); [done..|]. by exists j.
    + intros (n & (c & Hb & Hr) & Hnj). destruct (body_changed_known c Hb) as [i Hci].
      exists i. split; [rewrite list_elem_of_In, <- in_rev, <- list_elem_of_In; apply Hch; by exists c|].
      destruct (proj2 (rtc_calls c n i Hd Hci Hb) Hr) as (j' & Hj' & Hr'). unfold interned in *. rewrite Hnj in Hj'. by simplify_eq.
  - intros n (c & Hb & Hr). destruct (body_changed_known c Hb) as [i Hci].
    destruct (proj2 (rtc_calls c n i Hd Hci Hb) Hr) as (j & Hj & _). by exists j.
Qed.
End symbols.

(** After an implementation-only edit of a module, the symbols reported are
    exactly those a changed body reaches: the functions whose body changed and
    their direct and indirect callers in either version.  If a function was
    added or removed or its signature changed, the fallback is reported with
    all current functions instead.  (The ids of the interner are 32 bits
    wide.) *)
Theorem impl_only_symbols_exact `{HashOrder} (previous current : list FunctionFingerprint) :
  (Z.of_nat (List.length (flat_map function_names (previous ++ current))) <= 2 ^ 32)%Z ->
  exists syms reason, collect_impl_only_impacted_symbols_with_fallback previous current = Some (syms, reason) /\
    ((signature_drift previous current /\ reason = Some SIGNATURE_DRIFT /\
      (forall s, s ∈ syms <-> s ∈ fn_symbol <$> current)) \/
     (~ signature_drift previous current /\ reason = None /\
      (forall s, s ∈ syms <-> exists c, body_changed previous current c /\ rtc (calls_in previous current) c s))).
Proof.
  intros Hlen. unfold collect_impl_only_impacted_symbols_with_fallback.
  destruct (intern_all_wf (flat_map function_names (previous ++ current)) symbols_default symbols_default_wf)
    as (Hwf & Hk & _); [simpl; lia|].
  set (it := intern_all _ _) in *.
  assert (forall l, (forall f, f ∈ l -> f ∈ (previous ++ current)%list) -> all_known it (fn_symbol <$> l)) as Hsub.
  { intros l Hl s (f & -> & Hf)%list_elem_of_fmap. apply Hk, list_elem_of_In, in_flat_map. exists f.
    split; [by apply list_elem_of_In, Hl|by left]. }
  destruct (index_functions_ids it Hwf previous) as (pm & -> & Hp); [apply Hsub; set_solver|].
  destruct (index_functions_ids it Hwf current) as (cm & -> & Hc); [apply Hsub; set_solver|].
  rewrite scan_symbols_spec. destruct (forallb _ _) eqn:Hf.
  - assert (~ signature_drift previous current) as Hd by (by eapply same_abi_names).
    set (ids := List.filter _ _).
    assert (forall i, i ∈ sort_dedup Z.leb ids <-> exists s, body_changed previous current s /\ interned it s i) as Hch.
    { intros i. rewrite elem_of_sort_dedup by eauto with sorting. by apply elem_of_changed_ids. }
    cbn [app]. destruct (sort_dedup Z.leb ids) as [|i0 rest] eqn:E.
    + exists [], None. split; [done|]. right. split; [done|]. split; [done|]. intros s.
      split; [by intros ?%elem_of_nil|]. intros (c & Hb & _).
      destruct (body_changed_known previous current it Hk c Hb) as [i Hi].
      assert (i ∈ []) as []%elem_of_nil. apply Hch. by exists c.
    + rewrite reverse_calls_ids by done.
      destruct (walk_symbols previous current it Hwf Hk pm cm Hp Hc (i0 :: rest) Hd Hch) as (seen & out & -> & Ho).
      eexists _, _. split; [done|]. right. split; [done|]. split; [done|]. intros s.
      rewrite elem_of_sort_dedup by eauto with sorting. apply Ho.
  - eexists _, _. split; [done|]. left. split; [by eapply drift_found|]. split; [done|]. intros s.
    rewrite elem_of_sort_dedup by eauto with sorting.
    rewrite <- elem_of_index_dom. apply elem_of_resolved with (it := it) (P := fun n => n ∈ dom (index_by fn_symbol current)); [done| |].
    + intros i. rewrite elem_of_iter_ids. split.
      * intros Hi. pose proof Hi as [f Hff]%elem_of_dom. destruct (proj2 Hc i f Hff) as [n Hn].
        exists n. split; [|done]. by apply (elem_of_dom_ids it cm (index_by fn_symbol current) n i).
      * intros (n & Hn & Hi). by apply (elem_of_dom_ids it cm (index_by fn_symbol current) n i).
    + intros n Hn. apply (known_symbol previous current); [done|]. by apply elem_of_union_r.
Qed.

(** [main] calls [f] calls [g]; the body of [g] changed. *)
Definition old_functions : list FunctionFingerprint :=
  [mkFunction "main" 1 1 ["f"] []; mkFunction "f" 2 2 ["g"] []; mkFunction "g" 3 3 [] []; mkFunction "h" 4 4 ["f"] []].
Definition new_functions : list FunctionFingerprint :=
  [mkFunction "main" 1 1 ["f"] []; mkFunction "f" 2 2 ["g"] []; mkFunction "g" 3 30 [] []; mkFunction "h" 4 4 [] []].

Example reached_symbols :
  @collect_impl_only_impacted_symbols_with_fallback hash_order_reversed old_functions new_functions
  = Some (["f"; "g"; "h"; "main"], None).
Proof. vm_compute. reflexivity. Qed.

Lemma impl_only_symbols_exact_witness :
  exists syms reason,
    @collect_impl_only_impacted_symbols_with_fallback hash_order_elements old_functions new_functions = Some (syms, reason) /\
    ((signature_drift old_functions new_functions /\ reason = Some SIGNATURE_DRIFT /\
      (forall s, s ∈ syms <-> s ∈ fn_symbol <$> new_functions)) \/
     (~ signature_drift old_functions new_functions /\ reason = None /\
      (forall s, s ∈ syms <-> exists c, body_changed old_functions new_functions c /\
                                rtc (calls_in old_functions new_functions) c s))).
Proof. apply (@impl_only_symbols_exact hash_order_elements); vm_compute; discriminate. Defined.
