(* ===== verification/ModuleGraph.v ===== *)
(** The order in which modules are built: [module_dependency_levels] of
    tools/sgc/src/module_graph.rs.

    The levels are computed by counting, for each module, the imports that are
    still to be built.  [levels_total] shows that the loop ends on every graph,
    [levels_topological] that on a graph without dangling imports each module
    appears once, after everything it imports, except for those behind a cycle,
    which form the last level. *)

From S2P Require Import Prelude Sorting BuildGraph.
From Stdlib Require Import String.

#[local] Open Scope string_scope.

(** ** The computation *)

(** The entries of a [BTreeMap], in the order of its keys. *)
Definition btree_items {V} (m : gmap string V) : list (string * V) := sort_by key_leb (map_to_list m).

Section levels.
Context `{HashOrder}.

(** [indegree.entry(dep).or_insert(0); reverse.entry(dep).or_default().push(node)] *)
Definition dep_step (node : string) (s : gmap string nat * gmap string (list string)) (dep : string) :
    gmap string nat * gmap string (list string) :=
  let '(indegree, reverse) := s in
  (match indegree !! dep with Some _ => indegree | None => <[dep := 0%nat]> indegree end,
   <[dep := (default [] (reverse !! dep) ++ [node])%list]> reverse).

Definition edges_step (edges : gmap string (list string)) (s : gmap string nat * gmap string (list string))
    (entry : string * list string) : gmap string nat * gmap string (list string) :=
  let '(indegree, reverse) := s in
  let '(node, deps) := entry in
  let unique := sort_dedup_strings deps in
  let dep_count := List.length (List.filter (fun dep => bool_decide (dep ∈ dom edges)) unique) in
  fold_left (dep_step node) unique (<[node := dep_count]> indegree, reverse).

Definition count_edges (edges : gmap string (list string)) : gmap string nat * gmap string (list string) :=
  let '(indegree, reverse) := fold_left (edges_step edges) (btree_items edges) ((fun _ => 0%nat) <$> edges, ∅) in
  (indegree, (fun l => sort_dedup_strings l) <$> reverse).

(** One dependent of a processed module. *)
Definition dependent_step (processed : gset string) (s : gmap string nat * list string) (dependent : string) :
    gmap string nat * list string :=
  let '(indegree, ready) := s in
  match indegree !! dependent with
  | None => s
  | Some degree =>
      let degree := (degree - 1)%nat in
      (<[dependent := degree]> indegree,
       if (degree =? 0)%nat && negb (bool_decide (dependent ∈ processed)) then (ready ++ [dependent])%list else ready)
  end.

Definition batch_step (reverse : gmap string (list string)) (s : gmap string nat * gset string * list string)
    (node : string) : gmap string nat * gset string * list string :=
  let '(indegree, processed, ready) := s in
  let processed := {[node]} ∪ processed in
  let '(indegree, ready) := fold_left (dependent_step processed) (default [] (reverse !! node)) (indegree, ready) in
  (indegree, processed, ready).

Fixpoint levels_loop (fuel : nat) (reverse : gmap string (list string)) (ready : list string)
    (indegree : gmap string nat) (processed : gset string) (levels : list (list string)) :
    option (list (list string) * gmap string nat * gset string) :=
  match ready with
  | [] => Some (levels, indegree, processed)
  | _ =>
      match fuel with
      | O => None
      | S fuel =>
          let '(indegree, processed, next) := fold_left (batch_step reverse) ready (indegree, processed, []) in
          levels_loop fuel reverse (sort_dedup_strings next) indegree processed (levels ++ [ready])
      end
  end.

Definition initial_ready (indegree : gmap string nat) : list string :=
  sort_dedup_strings (iter_set (dom (filter (fun kv => kv.2 = 0%nat) indegree))).

Definition unresolved (indegree : gmap string nat) (processed : gset string) : list string :=
  sort_strings (iter_set (dom (filter (fun kv => (0 < kv.2)%nat /\ kv.1 ∉ processed) indegree))).

Definition module_dependency_levels (edges : gmap string (list string)) : option (list (list string)) :=
  let '(indegree, reverse) := count_edges edges in
  let* (levels, indegree, processed) :=
    levels_loop (2 * size indegree + 2) reverse (initial_ready indegree) indegree ∅ [] in
  match unresolved indegree processed with
  | [] => Some levels
  | rest => Some (levels ++ [rest])%list
  end.

(** ** The loop ends *)

Lemma elem_of_sorted_strings (l : list string) x : x ∈ sort_dedup_strings l <-> x ∈ l.
Proof. apply elem_of_sort_dedup; eauto with sorting. Qed.

Lemma dependent_step_dom processed s x :
  dom (dependent_step processed s x).1 = dom s.1 /\
  (forall y, y ∈ (dependent_step processed s x).2 -> y ∈ s.2 \/ (y ∈ dom s.1 /\ y ∉ processed)).
Proof.
  destruct s as [ind ready]. cbn. destruct (ind !! x) as [d|] eqn:E; cbn; [|by split; [|left]].
  assert (x ∈ dom ind) as Hx by (apply elem_of_dom; eauto). split; [rewrite dom_insert_L; set_solver|].
  intros y. destruct (_ =? _)%nat; cbn; [|by left]. destruct (bool_decide_reflect (x ∈ processed)); cbn; [by left|].
  rewrite elem_of_app, list_elem_of_singleton. intros [?| ->]; [by left|by right].
Qed.

Lemma dependents_dom processed xs s :
  dom (fold_left (dependent_step processed) xs s).1 = dom s.1 /\
  (forall y, y ∈ (fold_left (dependent_step processed) xs s).2 -> y ∈ s.2 \/ (y ∈ dom s.1 /\ y ∉ processed)).
Proof.
  revert s. induction xs as [|x xs IH]; intros s; cbn [fold_left]; [by split; [|left]|].
  destruct (IH (dependent_step processed s x)) as [H1 H2], (dependent_step_dom processed s x) as [H3 H4].
  rewrite H3 in *. split; [done|]. intros y [?%H4|?]%H2; auto.
Qed.

(** A batch processes its elements and finds only unprocessed ones. *)
Lemma batch_spec reverse batch ind processed ready ind' processed' ready' :
  fold_left (batch_step reverse) batch (ind, processed, ready) = (ind', processed', ready') ->
  dom ind' = dom ind /\ processed' = list_to_set batch ∪ processed /\
  (forall y, y ∈ ready' -> y ∈ ready \/ (y ∈ dom ind /\ y ∉ processed)).
Proof.
  revert ind processed ready. induction batch as [|x batch IH]; intros ind processed ready; cbn [fold_left].
  { intros [= <- <- <-]. split; [done|]. split; [set_solver|by left]. }
  unfold batch_step at 2.
  pose proof (dependents_dom ({[x]} ∪ processed) (default [] (reverse !! x)) (ind, ready)) as [H1 H2].
  destruct (fold_left (dependent_step _) _ _) as [ind1 ready1]. cbn [fst snd] in *.
  intros (Hd & -> & Hr)%IH. rewrite Hd, H1. split; [done|]. split; [set_solver|].
  intros y [[?|[? Hy]]%H2|[? Hy]]%Hr; [by left|right..]; (split; [congruence|set_solver]).
Qed.

Definition rounds_left (ready : list string) (ind : gmap string nat) (processed : gset string) : nat :=
  2 * size (dom ind ∖ processed) + (if bool_decide (Forall (.∈ processed) ready) then 1 else 0).

Lemma levels_loop_total fuel reverse ready ind processed levels :
  (forall y, y ∈ ready -> y ∈ dom ind) -> (rounds_left ready ind processed < fuel)%nat ->
  exists r, levels_loop fuel reverse ready ind processed levels = Some r.
Proof.
  revert ready ind processed levels. induction fuel as [|fuel IH]; intros ready ind processed levels Hr Hf; [lia|].
  cbn [levels_loop]. destruct ready as [|x batch] eqn:Er; [eauto|]. rewrite <- Er in *.
  destruct (fold_left (batch_step reverse) ready (ind, processed, [])) as [[ind' processed'] next] eqn:E.
  apply batch_spec in E as (Hd & -> & Hn).
  assert (forall y, y ∈ sort_dedup_strings next -> y ∈ dom ind /\ y ∉ processed) as Hn'.
  { intros y. rewrite elem_of_sorted_strings. intros [?%elem_of_nil|?]%Hn; done. }
  destruct (sort_dedup_strings next) as [|z zs] eqn:Es; [destruct fuel; cbn; eauto|]. rewrite <- Es in *.
  apply IH; [intros y ?%Hn'; rewrite Hd; tauto|]. revert Hf. unfold rounds_left. rewrite Hd.
  destruct (bool_decide_reflect (Forall (.∈ processed) ready)) as [Hall|Hall].
  - assert (list_to_set ready ∪ processed = processed) as ->.
    { rewrite Forall_forall in Hall. set_solver. }
    rewrite (bool_decide_eq_false_2 (Forall (.∈ processed) (sort_dedup_strings next))); [lia|].
    rewrite Forall_forall. intros Hz. destruct (Hn' z) as [_ []]; [rewrite Es; by left|]. apply Hz. rewrite Es. by left.
  - assert (size (dom ind ∖ (list_to_set ready ∪ processed)) < size (dom ind ∖ processed))%nat; [|case_bool_decide; lia].
    apply subset_size. apply not_Forall_Exists in Hall; [|apply _]. apply Exists_exists in Hall as (y & Hy & Hyp).
    split; [set_solver|]. intros Hs. assert (y ∈ dom ind ∖ processed) as Hy' by (apply elem_of_difference; auto).
    apply Hs in Hy'. set_solver.
Qed.

Lemma levels_return edges : exists ls, module_dependency_levels edges = Some ls.
Proof.
  unfold module_dependency_levels. destruct (count_edges edges) as [ind reverse].
  destruct (levels_loop_total (2 * size ind + 2) reverse (initial_ready ind) ind ∅ []) as [[[ls ind'] p] ->].
  - intros y. unfold initial_ready. rewrite elem_of_sorted_strings, elem_of_iter_set, !elem_of_dom.
    intros [d [Hd _]%map_lookup_filter_Some]. eauto.
  - unfold rounds_left. rewrite difference_empty_L, size_dom. case_bool_decide; lia.
  - destruct (unresolved ind' p); eauto.
Qed.

(** ** Counting on a closed graph *)

Section closed.
Context (edges : gmap string (list string)).

Definition deps (n : string) : gset string := list_to_set (default [] (edges !! n)).

(** Every import is a module of the graph. *)
Definition closed : Prop := forall n d, d ∈ deps n -> d ∈ dom edges.
Context (Hclosed : closed).

Lemma dep_steps_spec node ds ind rev :
  (forall d, d ∈ ds -> d ∈ dom ind) ->
  exists rev', fold_left (dep_step node) ds (ind, rev) = (ind, rev') /\
    forall d m, m ∈ default [] (rev' !! d) <-> m ∈ default [] (rev !! d) \/ (d ∈ ds /\ m = node).
Proof.
  revert rev. induction ds as [|d0 ds IH]; intros rev Hin; cbn [fold_left].
  { exists rev. split; [done|]. intros d m. rewrite elem_of_nil. tauto. }
  unfold dep_step at 2. assert (d0 ∈ dom ind) as [k ->]%elem_of_dom by (apply Hin; by left).
  destruct (IH (<[d0 := (default [] (rev !! d0) ++ [node])%list]> rev)) as (rev' & -> & Hr); [set_solver|].
  exists rev'. split; [done|]. intros d m. rewrite Hr, elem_of_cons. destruct (decide (d = d0)) as [->|Hne].
  - rewrite lookup_insert_eq. cbn. rewrite elem_of_app, list_elem_of_singleton. tauto.
  - rewrite lookup_insert_ne by done. tauto.
Qed.

Lemma unique_count n ds :
  edges !! n = Some ds ->
  List.length (List.filter (fun dep => bool_decide (dep ∈ dom edges)) (sort_dedup_strings ds)) = size (deps n).
Proof.
  intros Hn. assert (NoDup (sort_dedup_strings ds)) as Hnd by (apply sort_dedup_nodup; eauto with sorting).
  assert (List.filter (fun dep => bool_decide (dep ∈ dom edges)) (sort_dedup_strings ds) = sort_dedup_strings ds) as ->.
  { clear Hnd. assert (forall d, d ∈ sort_dedup_strings ds -> d ∈ dom edges) as Hd.
    { intros d. rewrite elem_of_sorted_strings. intros Hd. apply (Hclosed n). unfold deps. rewrite Hn. cbn. set_solver. }
    induction (sort_dedup_strings ds) as [|d l IH]; cbn; [done|]. rewrite bool_decide_eq_true_2 by (apply Hd; by left).
    f_equal. apply IH. intros x Hx. apply Hd. by right. }
  unfold deps. rewrite Hn. cbn. rewrite <- (size_list_to_set (C := gset string)) by done. f_equal.
  apply set_eq. intros x. by rewrite !elem_of_list_to_set, elem_of_sorted_strings.
Qed.

Lemma edges_fold_spec items ind rev :
  dom ind = dom edges -> (forall n ds, (n, ds) ∈ items -> edges !! n = Some ds) ->
  exists ind' rev', fold_left (edges_step edges) items (ind, rev) = (ind', rev') /\ dom ind' = dom edges /\
    (forall n, n ∈ items.*1 -> ind' !! n = Some (size (deps n))) /\
    (forall n, n ∉ items.*1 -> ind' !! n = ind !! n) /\
    (forall d m, m ∈ default [] (rev' !! d) <-> m ∈ default [] (rev !! d) \/ (m ∈ items.*1 /\ d ∈ deps m)).
Proof.
  revert ind rev. induction items as [|[n ds] items IH]; intros ind rev Hdom Hit; cbn [fold_left].
  { exists ind, rev. cbn. split; [done|]. split; [done|]. setoid_rewrite elem_of_nil. repeat split; tauto. }
  assert (edges !! n = Some ds) as Hn by (apply Hit; by left). assert (n ∈ dom edges) as Hnd by (apply elem_of_dom; eauto).
  unfold edges_step at 2. rewrite (unique_count n ds Hn).
  destruct (dep_steps_spec n (sort_dedup_strings ds) (<[n := size (deps n)]> ind) rev) as (rev1 & -> & Hr1).
  { intros d. rewrite elem_of_sorted_strings. intros Hd. rewrite dom_insert, Hdom. apply elem_of_union_r.
    apply (Hclosed n). unfold deps. rewrite Hn. cbn. set_solver. }
  destruct (IH (<[n := size (deps n)]> ind) rev1) as (ind' & rev' & -> & Hd' & H1 & H2 & H3).
  { rewrite dom_insert_L. set_solver. } { intros. apply Hit. by right. }
  exists ind', rev'. split; [done|]. split; [done|]. cbn [fmap list_fmap]. split; [|split].
  - intros m. rewrite elem_of_cons. intros Hm. destruct (decide (m ∈ items.*1)); [by apply H1|].
    destruct Hm as [->|]; [|done]. rewrite H2 by done. apply lookup_insert_eq.
  - intros m. rewrite not_elem_of_cons. intros [? ?]. rewrite H2 by done. by apply lookup_insert_ne.
  - intros d m. rewrite H3, Hr1, elem_of_cons, elem_of_sorted_strings.
    assert (d ∈ ds <-> d ∈ deps n) as Hdn by (unfold deps; rewrite Hn; cbn; set_solver). rewrite Hdn.
    split; [intros [[?|[? ->]]|[? ?]]; tauto|]. intros [?|[[->|?] ?]]; tauto.
Qed.

Lemma count_edges_spec :
  exists ind rev, count_edges edges = (ind, rev) /\ dom ind = dom edges /\
    (forall n, n ∈ dom edges -> ind !! n = Some (size (deps n))) /\
    (forall d, NoDup (default [] (rev !! d))) /\
    (forall d m, m ∈ default [] (rev !! d) <-> m ∈ dom edges /\ d ∈ deps m).
Proof.
  unfold count_edges.
  assert (forall n ds, (n, ds) ∈ btree_items edges <-> edges !! n = Some ds) as Hit.
  { intros n ds. unfold btree_items. by rewrite (sort_by_perm key_leb), elem_of_map_to_list. }
  assert (forall n, n ∈ (btree_items edges).*1 <-> n ∈ dom edges) as Hkeys.
  { intros n. rewrite list_elem_of_fmap, elem_of_dom. split.
    - intros ([? ds] & -> & Hn%Hit). eauto.
    - intros [ds Hn]. exists (n, ds). split; [done|]. by apply Hit. }
  destruct (edges_fold_spec (btree_items edges) ((fun _ => 0%nat) <$> edges) ∅) as (ind & rev & -> & Hd & H1 & _ & H3).
  { apply dom_fmap_L. } { intros. by apply Hit. }
  eexists _, _. split; [done|]. split; [done|]. split; [intros n Hn; by apply H1, Hkeys|]. split.
  - intros d. rewrite lookup_fmap. destruct (rev !! d); cbn; [|constructor]. apply sort_dedup_nodup; eauto with sorting.
  - intros d m. specialize (H3 d m). rewrite lookup_empty in H3. cbn in H3. rewrite elem_of_nil, Hkeys in H3.
    rewrite lookup_fmap. destruct (rev !! d); cbn in *; rewrite ?elem_of_sorted_strings; rewrite H3; tauto.
Qed.

(** ** One batch *)

Implicit Types (P : gset string) (ind : gmap string nat).

Definition counts ind P : Prop :=
  dom ind = dom edges /\ forall n, n ∈ dom edges -> ind !! n = Some (size (deps n ∖ P)).
Definition buildable P (n : string) : Prop := n ∈ dom edges /\ n ∉ P /\ deps n ⊆ P.

Lemma one_less b P m : b ∈ deps m -> b ∉ P -> (size (deps m ∖ P) - 1)%nat = size (deps m ∖ ({[b]} ∪ P)).
Proof.
  intros Hb Hp. assert (deps m ∖ P = {[b]} ∪ (deps m ∖ ({[b]} ∪ P))) as ->.
  { apply set_eq. intros x. destruct (decide (x = b)) as [->|]; set_solver. }
  rewrite size_union, size_singleton by set_solver. lia.
Qed.

Lemma nothing_left P m : size (deps m ∖ P) = 0%nat <-> deps m ⊆ P.
Proof.
  rewrite size_empty_iff. split; [|set_solver]. intros He x Hx. destruct (decide (x ∈ P)); [done|].
  assert (x ∈ deps m ∖ P) as Hin by set_solver. rewrite He in Hin. set_solver.
Qed.

Lemma dependents_spec b P L ind ready ind' ready' :
  b ∉ P -> NoDup L -> (forall m, m ∈ L -> b ∈ deps m /\ ind !! m = Some (size (deps m ∖ P))) ->
  fold_left (dependent_step ({[b]} ∪ P)) L (ind, ready) = (ind', ready') ->
  dom ind' = dom ind /\
  (forall m, m ∈ L -> ind' !! m = Some (size (deps m ∖ ({[b]} ∪ P)))) /\
  (forall m, m ∉ L -> ind' !! m = ind !! m) /\
  (forall m, m ∈ ready' <-> m ∈ ready \/ (m ∈ L /\ deps m ⊆ {[b]} ∪ P /\ m ∉ {[b]} ∪ P)).
Proof.
  intros Hb Hnd. revert ind ready. induction Hnd as [|m0 L Hm0 Hnd IH]; intros ind ready HL; cbn [fold_left].
  { intros [= <- <-]. setoid_rewrite elem_of_nil. repeat split; tauto. }
  destruct (HL m0) as [Hd0 E0]; [by left|]. assert (m0 ∈ dom ind) as Hdom by (apply elem_of_dom; eauto).
  unfold dependent_step at 2. rewrite E0, (one_less b P m0) by done.
  intros (H1 & H2 & H3 & H4)%IH; clear IH.
  2: { intros m Hm. rewrite lookup_insert_ne by (by intros <-). apply HL. by right. }
  split; [rewrite H1, dom_insert_L; set_solver|]. split; [|split].
  - intros m [->|Hm]%elem_of_cons; [|by apply H2]. rewrite H3 by done. apply lookup_insert_eq.
  - intros m [Hne Hm]%not_elem_of_cons. rewrite H3 by done. by apply lookup_insert_ne.
  - intros m. rewrite H4, elem_of_cons.
    destruct (Nat.eqb_spec (size (deps m0 ∖ ({[b]} ∪ P))) 0) as [Hz|Hz]; rewrite nothing_left in Hz; cbn [andb].
    + destruct (bool_decide_reflect (m0 ∈ {[b]} ∪ P)); cbn [negb]; [naive_solver|].
      rewrite elem_of_app, list_elem_of_singleton. naive_solver.
    + naive_solver.
Qed.

Context (rev : gmap string (list string)).
Context (rev_nodup : forall d, NoDup (default [] (rev !! d))).
Context (rev_spec : forall d m, m ∈ default [] (rev !! d) <-> m ∈ dom edges /\ d ∈ deps m).

Record batch_inv (batch : list string) P ind (ready : list string) : Prop := {
  bi_counts : counts ind P;
  bi_nodup : NoDup batch;
  bi_ready : forall n, n ∈ batch \/ n ∈ ready <-> buildable P n;
  bi_disjoint : forall n, n ∈ batch -> n ∉ ready;
}.

Lemma batch_inv_step b batch P ind ready ind' P' ready' :
  batch_inv (b :: batch) P ind ready -> batch_step rev (ind, P, ready) b = (ind', P', ready') ->
  P' = {[b]} ∪ P /\ batch_inv batch P' ind' ready'.
Proof.
  intros [[Hdom Hc] Hnd Hr Hdis]. apply NoDup_cons in Hnd as [Hbb Hnd].
  destruct (proj1 (Hr b)) as (Hb & HbP & Hbd); [by left; left|]. unfold batch_step.
  destruct (fold_left (dependent_step ({[b]} ∪ P)) _ (ind, ready)) as [ind1 ready1] eqn:E. intros [= <- <- <-].
  split; [done|]. apply (dependents_spec b P) in E as (H1 & H2 & H3 & H4); [|done|done|].
  2: { intros m [Hm Hbm]%rev_spec. split; [done|]. by apply Hc. }
  split; [|done| |].
  - split; [congruence|]. intros n Hn. destruct (decide (n ∈ default [] (rev !! b))) as [Hin|Hin]; [by apply H2|].
    rewrite H3, Hc by done. do 2 f_equal. rewrite rev_spec in Hin. apply set_eq. intros x.
    destruct (decide (x = b)) as [->|]; set_solver.
  - intros n. rewrite H4. unfold buildable. split.
    + intros Hn. assert ((n ∈ batch \/ n ∈ ready) \/ (n ∈ default [] (rev !! b) /\ deps n ⊆ {[b]} ∪ P /\ n ∉ {[b]} ∪ P)) as [Hn'|(Hn' & ? & ?)] by tauto.
      * destruct (proj1 (Hr n)) as (? & ? & ?); [rewrite elem_of_cons; tauto|]. split; [done|]. split; [|set_solver].
        assert (n <> b); [|set_solver]. intros ->. destruct Hn' as [?|Hn']; [done|]. by apply (Hdis b); [left|].
      * split; [by apply rev_spec in Hn' as [? _]|done].
    + intros (Hk & HnP & Hd). destruct (decide (b ∈ deps n)) as [Hbn|Hbn].
      * right. right. split; [by apply rev_spec|done].
      * destruct (proj2 (Hr n)) as [[->|?]%elem_of_cons|?]; [split; [done|set_solver]|set_solver|by left|by right; left].
  - intros n Hn. rewrite H4. intros [?|([_ Hbn]%rev_spec & _)]; [by apply (Hdis n); [right|]|].
    destruct (proj1 (Hr n)) as (_ & _ & Hd); [left; by right|]. set_solver.
Qed.

Lemma batch_inv_fold batch P ind ready ind' P' ready' :
  batch_inv batch P ind ready -> fold_left (batch_step rev) batch (ind, P, ready) = (ind', P', ready') ->
  P' = list_to_set batch ∪ P /\ batch_inv [] P' ind' ready'.
Proof.
  revert P ind ready. induction batch as [|b batch IH]; intros P ind ready Hi; cbn [fold_left].
  { intros [= <- <- <-]. split; [set_solver|done]. }
  destruct (batch_step rev (ind, P, ready) b) as [[ind1 P1] ready1] eqn:E.
  apply (batch_inv_step b batch) in E as [-> Hi']; [|done]. intros [-> Hi'']%IH; [|done]. split; [set_solver|done].
Qed.

(** ** The levels *)

Definition after_imports (ls : list (list string)) : Prop :=
  forall i l n d, ls !! i = Some l -> n ∈ l -> d ∈ deps n -> exists j l', (j < i)%nat /\ ls !! j = Some l' /\ d ∈ l'.

Record layered (ls : list (list string)) P : Prop := {
  ly_nodup : NoDup (mjoin ls);
  ly_elems : forall n, n ∈ mjoin ls <-> n ∈ P;
  ly_keys : forall n, n ∈ P -> n ∈ dom edges;
  ly_order : after_imports ls;
}.

Lemma layered_snoc ls P ready :
  layered ls P -> NoDup ready -> (forall n, n ∈ ready -> buildable P n) ->
  layered (ls ++ [ready]) (list_to_set ready ∪ P).
Proof.
  intros [Hnd He Hk Ho] Hr Hb. split.
  - rewrite join_app. cbn. rewrite app_nil_r. apply NoDup_app. split; [done|]. split; [|done].
    intros n Hn%He Hin. by apply Hb in Hin as (_ & ? & _).
  - intros n. rewrite join_app. cbn. rewrite app_nil_r, elem_of_app, He. set_solver.
  - intros n [Hn|Hn]%elem_of_union; [|by apply Hk]. apply elem_of_list_to_set in Hn. by apply Hb in Hn as (? & _).
  - intros i l n d Hi Hn Hd. apply lookup_app_Some in Hi as [Hi|[Hlen Hi]].
    + destruct (Ho i l n d Hi Hn Hd) as (j & l' & ? & Hj & ?). exists j, l'. split; [done|]. split; [|done].
      by apply lookup_app_l_Some.
    + apply list_lookup_singleton_Some in Hi as [Hi <-]. apply Hb in Hn as (_ & _ & Hdeps).
      apply Hdeps, He, list_elem_of_join in Hd as (l' & Hd & Hl'). apply list_elem_of_lookup in Hl' as [j Hj].
      exists j, l'. split; [|split; [by apply lookup_app_l_Some|done]]. apply lookup_lt_Some in Hj. lia.
Qed.

Lemma levels_loop_spec fuel ready ind P ls ls' ind' P' :
  layered ls P -> counts ind P -> NoDup ready -> (forall n, n ∈ ready <-> buildable P n) ->
  levels_loop fuel rev ready ind P ls = Some (ls', ind', P') ->
  layered ls' P' /\ counts ind' P' /\ forall n, ~ buildable P' n.
Proof.
  revert ready ind P ls. induction fuel as [|fuel IH]; intros ready ind P ls Hl Hc Hnd Hr; cbn [levels_loop];
    destruct ready as [|x batch] eqn:Er; try done.
  1,2: intros [= <- <- <-]; split; [done|]; split; [done|]; by intros n ?%Hr%elem_of_nil.
  rewrite <- Er in *. destruct (fold_left (batch_step rev) ready (ind, P, [])) as [[ind1 P1] next] eqn:E.
  apply batch_inv_fold in E as [-> [Hc1 _ Hr1 _]].
  2: { split; [done|done|intros n; rewrite Hr, elem_of_nil; tauto|by intros n _ ?%elem_of_nil]. }
  apply IH; [|done|apply sort_dedup_nodup; eauto with sorting|].
  - apply layered_snoc; [done|done|]. intros n. apply Hr.
  - intros n. rewrite elem_of_sorted_strings, <- Hr1, elem_of_nil. tauto.
Qed.
End closed.

(** Where the loop starts and what is left at its end. *)
Lemma levels_spec edges :
  closed edges ->
  exists ls rest, module_dependency_levels edges = Some (ls ++ match rest with [] => [] | _ => [rest] end)%list /\
    (mjoin ls ++ rest)%list ≡ₚ elements (dom edges) /\ after_imports edges ls /\
    (forall n, n ∈ rest -> exists d, d ∈ deps edges n /\ d ∈ rest).
Proof.
  intros Hcl. unfold module_dependency_levels.
  destruct (count_edges_spec edges Hcl) as (ind & rev & -> & Hdom & Hind & Hnd & Hrev).
  assert (counts edges ind ∅) as Hc by (split; [done|]; intros n Hn; by rewrite difference_empty_L, Hind).
  assert (forall n, n ∈ initial_ready ind <-> buildable edges ∅ n) as Hready.
  { intros n. unfold initial_ready, buildable. rewrite elem_of_sorted_strings, elem_of_iter_set, elem_of_dom. split.
    - intros [d [Hd Hz]%map_lookup_filter_Some]. cbn in Hz. subst d.
      assert (n ∈ dom edges) as Hn by (rewrite <- Hdom; apply elem_of_dom; eauto).
      split; [done|]. split; [set_solver|]. rewrite Hind in Hd by done. injection Hd as Hd. apply size_empty_iff in Hd. set_solver.
    - intros (Hn & _ & Hd). exists 0%nat. apply map_lookup_filter_Some. split; [|done]. rewrite Hind by done. f_equal.
      apply size_empty_iff. set_solver. }
  destruct (levels_loop_total (2 * size ind + 2) rev (initial_ready ind) ind ∅ []) as [[[ls ind'] P] Hloop].
  { intros y Hy%Hready. rewrite Hdom. by destruct Hy. }
  { unfold rounds_left. rewrite difference_empty_L, size_dom. case_bool_decide; lia. }
  rewrite Hloop. apply (levels_loop_spec edges Hcl rev Hnd Hrev) in Hloop as ([Hl1 Hl2 Hl3 Hl4] & [Hd' Hc'] & Hstuck).
  2: { split; [constructor|set_solver|set_solver|done]. } 2: { done. }
  2: { apply sort_dedup_nodup; eauto with sorting. } 2: { done. }
  assert (forall n, n ∈ unresolved ind' P <-> n ∈ dom edges /\ n ∉ P) as Hun.
  { intros n. unfold unresolved. rewrite (sort_by_perm String.leb), elem_of_iter_set, elem_of_dom. split.
    - intros [d [Hn [_ Hp]]%map_lookup_filter_Some]. split; [rewrite <- Hd'; apply elem_of_dom; eauto|done].
    - intros [Hn Hp]. eexists. apply map_lookup_filter_Some. split; [by apply Hc'|]. cbn. split; [|done].
      destruct (decide (size (deps edges n ∖ P) = 0%nat)) as [Hz|]; [|lia]. destruct (Hstuck n). split; [done|]. split; [done|].
      by apply nothing_left. }
  exists ls, (unresolved ind' P). split; [destruct (unresolved ind' P); [by rewrite app_nil_r|done]|]. split; [|split; [done|]].
  - apply NoDup_Permutation; [|apply NoDup_elements|].
    + apply NoDup_app. split; [done|]. split; [intros n Hn%Hl2 [_ ?]%Hun; done|].
      unfold unresolved. rewrite (sort_by_perm String.leb). apply iter_set_nodup.
    + intros n. rewrite elem_of_app, Hl2, Hun, elem_of_elements. destruct (decide (n ∈ P)); naive_solver.
  - intros n [Hn Hp]%Hun. destruct (decide (deps edges n ⊆ P)) as [Hs|Hs]; [by destruct (Hstuck n)|].
    assert (exists d, d ∈ deps edges n ∖ P) as [d Hd].
    { apply set_choose_L. intros He. apply Hs. intros x Hx. destruct (decide (x ∈ P)); [done|].
      assert (x ∈ deps edges n ∖ P) by set_solver. set_solver. }
    exists d. apply elem_of_difference in Hd as [Hd HdP]. split; [done|]. apply Hun. split; [by apply (Hcl n)|done].
Qed.

(** The build order.  The levels are computed for every graph.  When every
    import is a module of the graph, each module is in the levels exactly once;
    in all levels but possibly the last each module comes after everything it
    imports; the last level holds the modules, if any, that wait for each other
    ([rest]); and when imports are not circular there are none. *)
Theorem levels_topological (edges : gmap string (list string)) :
  (exists ls, module_dependency_levels edges = Some ls) /\
  (closed edges ->
   exists ls rest, module_dependency_levels edges = Some (ls ++ match rest with [] => [] | _ => [rest] end)%list /\
     (mjoin ls ++ rest)%list ≡ₚ elements (dom edges) /\ after_imports edges ls /\
     (forall n, n ∈ rest -> exists d, d ∈ deps edges n /\ d ∈ rest) /\
     (forall rank : string -> nat, (forall n d, d ∈ deps edges n -> (rank d < rank n)%nat) -> rest = [])).
Proof.
  split; [apply levels_return|]. intros Hcl. destruct (levels_spec edges Hcl) as (ls & rest & H1 & H2 & H3 & H4).
  exists ls, rest. repeat (split; [done|]). intros rank Hrank. apply elem_of_nil_inv. intros n.
  induction n as [n IH] using (induction_ltof1 _ rank). intros Hn. destruct (H4 n Hn) as (d & Hd & Hdr).
  by apply (IH d); [apply Hrank|].
Qed.
End levels.

Lemma closed_check (edges : gmap string (list string)) :
  forallb (fun kv => forallb (fun d => bool_decide (d ∈ dom edges)) kv.2) (map_to_list edges) = true -> closed edges.
Proof.
  rewrite forallb_forall. intros Hc n d. unfold deps. destruct (edges !! n) as [l|] eqn:E; cbn; [|set_solver].
  intros Hd%elem_of_list_to_set. apply elem_of_map_to_list, list_elem_of_In, Hc in E. rewrite forallb_forall in E.
  by apply list_elem_of_In, E, bool_decide_eq_true in Hd.
Qed.

Definition sample_edges : gmap string (list string) :=
  {[ "app" := ["net"; "util"]; "net" := ["util"]; "util" := [] ]}.

Lemma levels_topological_witness :
  @module_dependency_levels hash_order_elements sample_edges = Some [["util"]; ["net"]; ["app"]] /\
  exists ls rest, @module_dependency_levels hash_order_elements sample_edges
      = Some (ls ++ match rest with [] => [] | _ => [rest] end)%list /\
    (mjoin ls ++ rest)%list ≡ₚ elements (dom sample_edges) /\ after_imports sample_edges ls /\
    (forall n, n ∈ rest -> exists d, d ∈ deps sample_edges n /\ d ∈ rest) /\
    (forall rank : string -> nat, (forall n d, d ∈ deps sample_edges n -> (rank d < rank n)%nat) -> rest = []).
Proof.
  split; [vm_compute; reflexivity|]. apply (@levels_topological hash_order_elements sample_edges).
  apply closed_check. vm_compute. reflexivity.
Defined.

(** An import that is not a module of the graph is not counted, but taken off
    the count all the same: with a missing ["a"], the module ["m"] is placed
    before ["z"], which it imports, and ["n"] is placed twice. *)
Theorem missing_import_breaks_order :
  @module_dependency_levels hash_order_elements
    {[ "m" := ["a"; "z"]; "z" := ["y"]; "y" := []; "n" := ["a"] ]}
  = Some [["a"; "n"; "y"]; ["m"; "n"; "z"]] /\
  @module_dependency_levels hash_order_elements
    {[ "m" := ["a"; "z"]; "z" := ["y"]; "y" := ["x"]; "x" := [] ]}
  = Some [["a"; "x"]; ["m"; "y"]; ["z"]].
Proof. split; vm_compute; reflexivity. Qed.
