(* ===== verification/GenericCache.v ===== *)
(** The cache of generic instances: tools/sgc/src/generic_cache.rs.

    From the graph of this build and the cache of the last one,
    [derive_generic_instance_plan_with_policy] decides which instances of
    generic items are built again and what the next cache holds.  The target
    triple, the compiler's version and the time are parameters. *)

From S2P Require Import Prelude Sorting Worklist BuildGraph.
From stdpp Require Import pretty.
From Stdlib Require Import String.

#[local] Open Scope string_scope.

Record GenericInstancePlanStats := mkPlanStats {
  total_instances : Z;
  cache_hits : Z;
  rebuilt_instances : Z;
  interface_invalidated : Z;
  body_invalidated : Z;
  dependency_invalidated : Z;
  new_instances : Z;
  rebuild_item_ids : list string;
  rebuild_instance_keys : list string;
  reuse_item_ids : list string;
  reuse_instance_keys : list string;
}.

Record GenericInstanceCacheEntry := mkEntry {
  ce_instance_key : string;
  ce_item_stable_id : string;
  ce_module_id : string;
  ce_canonical_type_args : list string;
  ce_interface_hash : Z;
  ce_body_hash : Z;
  last_seen_unix_ms : Z;
}.

Record GenericInstanceCacheMetadata := mkCache {
  gc_schema_version : Z;
  compiler_version : string;
  gc_target_triple : string;
  gc_opt_level : Z;
  gc_feature_flags : list string;
  entries : list GenericInstanceCacheEntry;
}.

Record GenericCacheRetentionPolicy := mkPolicy { max_entries : nat; max_age_ms : Z }.

Definition GENERIC_INSTANCE_CACHE_SCHEMA_VERSION : Z := 1.
Definition DEFAULT_GENERIC_CACHE_MAX_ENTRIES : nat := 8192.
Definition DEFAULT_GENERIC_CACHE_MAX_AGE_DAYS : Z := 14.
Definition MILLIS_PER_DAY : Z := 24 * 60 * 60 * 1000.

(** The two settings of the environment, [None] when they are not set or not
    numbers. *)
Definition retention_policy_from_env (entries_setting : option nat) (days_setting : option Z) : GenericCacheRetentionPolicy :=
  mkPolicy (match entries_setting with Some (S n) => S n | _ => DEFAULT_GENERIC_CACHE_MAX_ENTRIES end)
    (Z.min (2 ^ 64 - 1) (default DEFAULT_GENERIC_CACHE_MAX_AGE_DAYS days_setting * MILLIS_PER_DAY)).

(** ** Keys *)

Definition feature_flags_signature (flags : list string) : string := String.concat "," (sort_dedup_strings flags).

Section plan.
Context `{HashOrder} (version target : string).

Definition canonical_instance_key (instance : GenericInstanceFingerprint) (opt_level : Z) (feature_flags : list string) : string :=
  instance_key instance +:+ "|body=" +:+ pretty (gn_body_hash instance) +:+ "|target=" +:+ target +:+
  "|opt=" +:+ pretty opt_level +:+ "|features=" +:+ feature_flags_signature feature_flags +:+ "|compiler=" +:+ version.

(** ** Items and instances of a graph *)

Definition build_generic_item_map (graph : BuildGraphV2) (keep : option (gset string)) : gmap string GenericItemFingerprint :=
  fold_left (fun m node =>
      fold_left (fun m item =>
          if match keep with Some keep => bool_decide (stable_item_id item ∈ keep) | None => true end
          then <[stable_item_id item := item]> m else m)
        (generic_items node) m)
    (nodes graph) ∅.

Definition build_generic_instances (graph : BuildGraphV2) : list GenericInstanceFingerprint :=
  dedup_by (fun a b => bool_decide (instance_key a = instance_key b))
    (sort_by (fun a b => String.leb (instance_key a) (instance_key b))
       (flat_map generic_instances (nodes graph))).

(** The values of a hash map, in its order. *)
Definition values_of {V} (m : gmap string V) : list V := omap (fun k => m !! k) (iter_set (dom m)).

Definition reverse_generic_call_edges (items : list GenericItemFingerprint) : gmap string (gset string) :=
  let symbol_to_item : gmap string string :=
    fold_left (fun m item => <[gi_symbol item := stable_item_id item]> m) items ∅ in
  fold_left (fun m item =>
      fold_left (fun m callee =>
          match symbol_to_item !! callee with
          | Some target_item => add_edge_to target_item (stable_item_id item) m
          | None => m
          end)
        (gi_calls item) m)
    items ∅.

Definition item_callers (reverse : gmap string (gset string)) (x : string) : list string :=
  match reverse !! x with Some callers => iter_set callers | None => [] end.

Definition dependency_invalidated_items (interface_changed : gset string) (reverse_edges : gmap string (gset string)) :
    option (gset string) :=
  let queue := iter_set interface_changed in
  let* (_, out) := walk (item_callers reverse_edges) (fun _ => true) (walk_fuel (edge_targets reverse_edges) queue)
                     (List.rev queue) interface_changed [] in
  Some (list_to_set out).

(** ** The previous cache *)

Definition header_matches (previous : GenericInstanceCacheMetadata) (opt_level : Z) (feature_flags : list string) : bool :=
  bool_decide (gc_schema_version previous = GENERIC_INSTANCE_CACHE_SCHEMA_VERSION) &&
  bool_decide (compiler_version previous = version) &&
  bool_decide (gc_target_triple previous = target) &&
  bool_decide (gc_opt_level previous = opt_level) &&
  bool_decide (feature_flags_signature (gc_feature_flags previous) = feature_flags_signature feature_flags).

Definition previous_entries_of (previous_cache : option GenericInstanceCacheMetadata) (opt_level : Z)
    (feature_flags : list string) : gmap string GenericInstanceCacheEntry :=
  match previous_cache with
  | Some previous =>
      if header_matches previous opt_level feature_flags then index_by ce_instance_key (entries previous) else ∅
  | None => ∅
  end.

Definition item_of_entry (e : GenericInstanceCacheEntry) : GenericItemFingerprint :=
  mkGenericItem (ce_item_stable_id e) (ce_item_stable_id e) (ce_module_id e) EmptyString (ce_interface_hash e) (ce_body_hash e)
    (wrap_u 32 (Z.of_nat (List.length (ce_canonical_type_args e)))) [].

(** The first entry of an item stands for it. *)
Definition previous_items_of (previous_cache : option GenericInstanceCacheMetadata) (participating : gset string) :
    gmap string GenericItemFingerprint :=
  match previous_cache with
  | Some previous =>
      fold_left (fun m e =>
          if negb (bool_decide (participating = ∅)) && negb (bool_decide (ce_item_stable_id e ∈ participating)) then m
          else match m !! ce_item_stable_id e with
               | Some _ => m
               | None => <[ce_item_stable_id e := item_of_entry e]> m
               end)
        (entries previous) ∅
  | None => ∅
  end.

(** ** What changed *)

Inductive ItemChange := ItemInterface | ItemBody | ItemSame.

Definition item_change (previous : option GenericItemFingerprint) (current : GenericItemFingerprint) : ItemChange :=
  match previous with
  | Some previous =>
      if negb (bool_decide (gi_interface_hash previous = gi_interface_hash current)) then ItemInterface
      else if negb (bool_decide (gi_body_hash previous = gi_body_hash current)) then ItemBody
      else ItemSame
  | None => ItemInterface
  end.

#[local] Instance ItemChange_eq_dec : EqDecision ItemChange.
Proof. solve_decision. Defined.

Definition items_with (kind : ItemChange) (previous_items current_items : gmap string GenericItemFingerprint) : gset string :=
  dom (filter (fun kv => item_change (previous_items !! kv.1) kv.2 = kind) current_items).

(** ** The plan *)

Inductive Verdict := InterfaceInvalidated | DependencyInvalidated | BodyInvalidated | CacheHit | NewInstance.

Definition verdict (interface_changed dependency_changed body_changed : gset string)
    (previous_entries : gmap string GenericInstanceCacheEntry) (item_id key : string) : Verdict :=
  if bool_decide (item_id ∈ interface_changed) then InterfaceInvalidated
  else if bool_decide (item_id ∈ dependency_changed) then DependencyInvalidated
  else if bool_decide (item_id ∈ body_changed) then BodyInvalidated
  else if bool_decide (key ∈ dom previous_entries) then CacheHit
  else NewInstance.

Definition count (v : Verdict) (item_id key : string) (s : GenericInstancePlanStats) : GenericInstancePlanStats :=
  let '(mkPlanStats t h r i b d n ri rk ui uk) := s in
  match v with
  | CacheHit => mkPlanStats t (h + 1) r i b d n ri rk (ui ++ [item_id]) (uk ++ [key])
  | InterfaceInvalidated => mkPlanStats t h (r + 1) (i + 1) b d n (ri ++ [item_id]) (rk ++ [key]) ui uk
  | DependencyInvalidated => mkPlanStats t h (r + 1) i b (d + 1) n (ri ++ [item_id]) (rk ++ [key]) ui uk
  | BodyInvalidated => mkPlanStats t h (r + 1) i (b + 1) d n (ri ++ [item_id]) (rk ++ [key]) ui uk
  | NewInstance => mkPlanStats t h (r + 1) i b d (n + 1) (ri ++ [item_id]) (rk ++ [key]) ui uk
  end.

Definition next_entry (opt_level : Z) (feature_flags : list string) (now : Z) (instance : GenericInstanceFingerprint) :
    GenericInstanceCacheEntry :=
  mkEntry (canonical_instance_key instance opt_level feature_flags) (item_stable_id instance) (gn_module_id instance)
    (canonical_type_args instance) (gn_interface_hash instance) (gn_body_hash instance) now.

Definition sort_stats (s : GenericInstancePlanStats) : GenericInstancePlanStats :=
  let '(mkPlanStats t h r i b d n ri rk ui uk) := s in
  mkPlanStats t h r i b d n (sort_dedup_strings ri) (sort_dedup_strings rk) (sort_dedup_strings ui) (sort_dedup_strings uk).

(** Newest first, then by key. *)
Definition entry_leb (a b : GenericInstanceCacheEntry) : bool :=
  (last_seen_unix_ms b <? last_seen_unix_ms a)%Z ||
  ((last_seen_unix_ms b =? last_seen_unix_ms a)%Z && String.leb (ce_instance_key a) (ce_instance_key b)).

Definition historical_entries (previous_entries : gmap string GenericInstanceCacheEntry) (active_keys : gset string)
    (min_last_seen : Z) : list GenericInstanceCacheEntry :=
  sort_by (fun a b => (last_seen_unix_ms b <=? last_seen_unix_ms a)%Z)
    (List.filter (fun e => negb (bool_decide (ce_instance_key e ∈ active_keys)) && (min_last_seen <=? last_seen_unix_ms e)%Z)
       (values_of previous_entries)).

Definition next_entries_of (previous_entries : gmap string GenericInstanceCacheEntry) (active : list GenericInstanceCacheEntry)
    (policy : GenericCacheRetentionPolicy) (now : Z) : list GenericInstanceCacheEntry :=
  let active_keys : gset string := list_to_set (ce_instance_key <$> active) in
  let min_last_seen := Z.max 0 (now - max_age_ms policy) in
  take (max_entries policy)
    (dedup_by (fun a b => bool_decide (ce_instance_key a = ce_instance_key b))
       (sort_by entry_leb (active ++ historical_entries previous_entries active_keys min_last_seen))).

Definition derive_generic_instance_plan_with_policy (previous_cache : option GenericInstanceCacheMetadata)
    (graph : BuildGraphV2) (opt_level : Z) (feature_flags : list string) (policy : GenericCacheRetentionPolicy) (now : Z) :
    option (GenericInstancePlanStats * GenericInstanceCacheMetadata) :=
  let current_instances := build_generic_instances graph in
  let participating : gset string := list_to_set (item_stable_id <$> current_instances) in
  let current_items := build_generic_item_map graph (if bool_decide (participating = ∅) then None else Some participating) in
  let previous_entries := previous_entries_of previous_cache opt_level feature_flags in
  let previous_items := previous_items_of previous_cache participating in
  let interface_changed := items_with ItemInterface previous_items current_items in
  let body_changed := items_with ItemBody previous_items current_items in
  let reverse_edges := reverse_generic_call_edges (values_of current_items ++ values_of previous_items) in
  let* dependency_changed := dependency_invalidated_items interface_changed reverse_edges in
  let stats :=
    fold_left (fun s instance =>
        let key := canonical_instance_key instance opt_level feature_flags in
        count (verdict interface_changed dependency_changed body_changed previous_entries (item_stable_id instance) key)
          (item_stable_id instance) key s)
      current_instances
      (mkPlanStats (wrap_u 32 (Z.of_nat (List.length current_instances))) 0 0 0 0 0 0 [] [] [] []) in
  let active := map (next_entry opt_level feature_flags now) current_instances in
  Some (sort_stats stats,
        mkCache GENERIC_INSTANCE_CACHE_SCHEMA_VERSION version target opt_level feature_flags
          (next_entries_of previous_entries active policy now)).

Definition derive_generic_instance_plan (previous_cache : option GenericInstanceCacheMetadata) (graph : BuildGraphV2)
    (opt_level : Z) (feature_flags : list string) (entries_setting : option nat) (days_setting : option Z) (now : Z) :
    option (GenericInstancePlanStats * GenericInstanceCacheMetadata) :=
  derive_generic_instance_plan_with_policy previous_cache graph opt_level feature_flags
    (retention_policy_from_env entries_setting days_setting) now.
End plan.
