(* ===== verification/GenericCacheInv.v ===== *)
(** What the plan of generic instances guarantees: which instances are reused,
    that nothing is counted twice, what the next cache keeps, and that a build
    repeated without a change finds everything in it. *)

From stdpp Require Import sorting.
From S2P Require Import Prelude Sorting Worklist BuildGraph GenericCache.
From Stdlib Require Import String.

#[local] Open Scope string_scope.

#[export] Instance Verdict_eq_dec : EqDecision Verdict.
Proof. solve_decision. Defined.

(** ** Counting *)

Section counting.
Context {A : Type} (v : A -> Verdict) (item key : A -> string).

Definition how_many (w : Verdict) (l : list A) : Z := Z.of_nat (List.length (filter (fun x => v x = w) l)).
Definition hits (l : list A) : list A := filter (fun x => v x = CacheHit) l.
Definition misses (l : list A) : list A := filter (fun x => v x <> CacheHit) l.

Lemma how_many_cons w x l : how_many w (x :: l) = ((if decide (v x = w) then 1 else 0) + how_many w l)%Z.
Proof. unfold how_many. rewrite filter_cons. case_decide; cbn [List.length]; lia. Qed.

Lemma count_fold l t h r i b d n ri rk ui uk :
  fold_left (fun s x => count (v x) (item x) (key x) s) l (mkPlanStats t h r i b d n ri rk ui uk) =
  mkPlanStats t (h + how_many CacheHit l)
    (r + (how_many InterfaceInvalidated l + how_many BodyInvalidated l + how_many DependencyInvalidated l + how_many NewInstance l))
    (i + how_many InterfaceInvalidated l) (b + how_many BodyInvalidated l) (d + how_many DependencyInvalidated l)
    (n + how_many NewInstance l)
    (ri ++ map item (misses l)) (rk ++ map key (misses l)) (ui ++ map item (hits l)) (uk ++ map key (hits l)).
Proof.
  revert t h r i b d n ri rk ui uk. induction l as [|x l IH]; intros; cbn [fold_left].
  { unfold how_many. cbn. rewrite !Z.add_0_r, !app_nil_r. done. }
  unfold hits, misses. rewrite !filter_cons, !how_many_cons. fold (hits l) (misses l).
  destruct (v x) eqn:E; cbn [count]; rewrite IH; repeat (case_decide; try congruence); cbn [map];
    rewrite <- ?(assoc_L (++)); cbn [app]; f_equal; lia.
Qed.

Lemma all_counted l :
  (Z.of_nat (List.length l) = how_many CacheHit l +
    (how_many InterfaceInvalidated l + how_many BodyInvalidated l + how_many DependencyInvalidated l + how_many NewInstance l))%Z.
Proof.
  induction l as [|x l IH]; [done|]. rewrite !how_many_cons. cbn [List.length]. destruct (v x); repeat (case_decide; try congruence); lia.
Qed.
End counting.

Section theorems.
Context `{HashOrder} (version target : string).
Context (previous_cache : option GenericInstanceCacheMetadata) (graph : BuildGraphV2) (opt_level : Z) (flags : list string).
Context (policy : GenericCacheRetentionPolicy) (now : Z).

Notation instances := (build_generic_instances graph).
Notation key := (fun x => canonical_instance_key version target x opt_level flags).
Notation plan := (derive_generic_instance_plan_with_policy version target previous_cache graph opt_level flags policy now).

Definition participating : gset string := list_to_set (item_stable_id <$> instances).
Definition current_items : gmap string GenericItemFingerprint :=
  build_generic_item_map graph (if bool_decide (participating = ∅) then None else Some participating).
Definition cached : gmap string GenericInstanceCacheEntry := previous_entries_of version target previous_cache opt_level flags.
Definition cached_items : gmap string GenericItemFingerprint := previous_items_of previous_cache participating.
Definition interface_items : gset string := items_with ItemInterface cached_items current_items.
Definition body_items : gset string := items_with ItemBody cached_items current_items.
Definition call_graph : gmap string (gset string) :=
  reverse_generic_call_edges (values_of current_items ++ values_of cached_items).

(** [caller] calls [callee], as far as both are known. *)
Definition item_called_by (callee caller : string) : Prop := caller ∈ default ∅ (call_graph !! callee).

(** The item's interface changed, or that of something it depends on. *)
Definition item_outdated (id : string) : Prop := exists i, i ∈ interface_items /\ rtc item_called_by i id.

Definition reusable (x : GenericInstanceFingerprint) : Prop :=
  ~ item_outdated (item_stable_id x) /\ item_stable_id x ∉ body_items /\ key x ∈ dom cached.

Lemma elem_of_item_callers reverse x y : y ∈ item_callers reverse x <-> y ∈ default ∅ (reverse !! x).
Proof.
  unfold item_callers. destruct (reverse !! x); cbn; [|by rewrite elem_of_nil, elem_of_empty]. by rewrite elem_of_iter_set.
Qed.

Lemma dependency_spec :
  exists dep, dependency_invalidated_items interface_items call_graph = Some dep /\
    forall id, id ∈ interface_items \/ id ∈ dep <-> item_outdated id.
Proof.
  unfold dependency_invalidated_items.
  destruct (walk_enough (item_callers call_graph) (fun _ => true) (edge_targets call_graph)
    (walk_fuel (edge_targets call_graph) (iter_set interface_items)) (List.rev (iter_set interface_items)) interface_items [])
    as [[seen out] Hw].
  { intros x y. rewrite elem_of_item_callers. destruct (call_graph !! x) eqn:E; cbn; [|set_solver]. by eapply elem_of_edge_targets. }
  { unfold walk_fuel. rewrite length_rev.
    assert (size (edge_targets call_graph ∖ interface_items) <= size (edge_targets call_graph))%nat by (apply subseteq_size; set_solver).
    lia. }
  rewrite Hw. eexists. split; [done|]. destruct (walk_exact _ _ _ _ _ _ _ _ Hw) as (new & -> & _ & _ & Hn).
  assert (forall x, x ∈ List.rev (iter_set interface_items) <-> x ∈ interface_items) as Hq.
  { intros x. by rewrite list_elem_of_In, <- in_rev, <- list_elem_of_In, elem_of_iter_set. }
  intros id. rewrite elem_of_list_to_set. cbn [app]. rewrite Hn, found_rtc by done.
  split; intros (i & Hi & Hr); exists i; (split; [by apply Hq|]).
  - eapply rtc_subrel; [|exact Hr]. intros a b [Hab _]. by apply elem_of_item_callers.
  - eapply rtc_subrel; [|exact Hr]. intros a b Hab. split; [by apply elem_of_item_callers|done].
Qed.

Lemma plan_spec :
  exists dep, dependency_invalidated_items interface_items call_graph = Some dep /\
    (forall id, id ∈ interface_items \/ id ∈ dep <-> item_outdated id) /\
    plan = Some (sort_stats (fold_left (fun s x => count (verdict interface_items dep body_items cached (item_stable_id x) (key x))
                                  (item_stable_id x) (key x) s) instances
                   (mkPlanStats (wrap_u 32 (Z.of_nat (List.length instances))) 0 0 0 0 0 0 [] [] [] [])),
                 mkCache GENERIC_INSTANCE_CACHE_SCHEMA_VERSION version target opt_level flags
                   (next_entries_of cached (map (next_entry version target opt_level flags now) instances) policy now)).
Proof.
  destruct dependency_spec as (dep & Hd & Hs). exists dep. split; [done|]. split; [done|].
  unfold derive_generic_instance_plan_with_policy. fold participating. fold current_items cached cached_items.
  fold interface_items body_items call_graph. by rewrite Hd.
Qed.

Lemma verdict_hit dep x :
  (forall id, id ∈ interface_items \/ id ∈ dep <-> item_outdated id) ->
  verdict interface_items dep body_items cached (item_stable_id x) (key x) = CacheHit <-> reusable x.
Proof.
  intros Hd. unfold reusable. rewrite <- Hd. unfold verdict.
  repeat (case_bool_decide; try (split; [done|tauto])). tauto.
Qed.

(** Which generic instances are reused.  The plan is computed for every
    input; the counts add up; and the keys it reports as reused are exactly
    those of the current instances whose cached entry was made with the same
    key (and so the same body, target, options and compiler), whose item did
    not change its body, and for which no item reached through calls changed
    its interface.  All other instances are rebuilt. *)
Theorem generic_plan_exact :
  (Z.of_nat (List.length instances) < 2 ^ 32)%Z ->
  exists stats cache, plan = Some (stats, cache) /\
    total_instances stats = (cache_hits stats + rebuilt_instances stats)%Z /\
    rebuilt_instances stats = (interface_invalidated stats + body_invalidated stats +
                               dependency_invalidated stats + new_instances stats)%Z /\
    (forall k, k ∈ reuse_instance_keys stats <-> exists x, x ∈ instances /\ key x = k /\ reusable x) /\
    (forall k, k ∈ rebuild_instance_keys stats <-> exists x, x ∈ instances /\ key x = k /\ ~ reusable x).
Proof.
  intros Hlen. destruct plan_spec as (dep & _ & Hd & ->). rewrite count_fold. cbn [sort_stats].
  eexists _, _. split; [done|]. cbn -[how_many Z.add]. rewrite wrap_u_id by (unfold in_u; lia). rewrite !Z.add_0_l.
  split; [apply all_counted|]. split; [done|].
  split; intros k; rewrite elem_of_sort_dedup by eauto with sorting; rewrite list_elem_of_In, in_map_iff;
    setoid_rewrite <- list_elem_of_In; unfold hits, misses; setoid_rewrite list_elem_of_filter;
    setoid_rewrite (verdict_hit dep _ Hd); naive_solver.
Qed.

(** The next cache: within the limit, and nothing in it is older than the
    policy allows. *)
Theorem next_cache_bounded :
  exists stats cache, plan = Some (stats, cache) /\ (List.length (entries cache) <= max_entries policy)%nat /\
    (forall e, e ∈ entries cache -> (Z.max 0 (now - max_age_ms policy) <= last_seen_unix_ms e)%Z \/ last_seen_unix_ms e = now).
Proof.
  destruct plan_spec as (dep & _ & _ & ->). eexists _, _. split; [done|]. cbn. unfold next_entries_of. split; [rewrite length_take; lia|].
  intros e He. assert (e ∈ (map (next_entry version target opt_level flags now) instances ++
    historical_entries cached (list_to_set (ce_instance_key <$> map (next_entry version target opt_level flags now) instances))
      (Z.max 0 (now - max_age_ms policy)))%list) as Hin.
  { eapply elem_of_sublist in He; [|apply sublist_take].
    eapply elem_of_sublist in He; [|apply (dedup_by_sublist (fun a b => bool_decide (ce_instance_key a = ce_instance_key b)))].
    by rewrite (sort_by_perm entry_leb) in He. }
  apply elem_of_app in Hin as [Hin|Hin].
  - right. apply list_elem_of_In, in_map_iff in Hin as (x & <- & _). done.
  - left. unfold historical_entries in Hin. rewrite (sort_by_perm (fun a b => (last_seen_unix_ms b <=? last_seen_unix_ms a)%Z)) in Hin.
    apply list_elem_of_In, filter_In in Hin as [_ Hin]. apply andb_true_iff in Hin as [_ Hin]. lia.
Qed.
End theorems.

(** ** A build repeated *)

Lemma entry_leb_total a b : entry_leb a b \/ entry_leb b a.
Proof.
  unfold entry_leb. rewrite !Is_true_true, !orb_true_iff, !andb_true_iff.
  destruct (string_leb_total (ce_instance_key a) (ce_instance_key b)) as [H|H]; apply Is_true_true in H; rewrite H;
    destruct (Z.lt_total (last_seen_unix_ms a) (last_seen_unix_ms b)) as [|[|]]; lia.
Qed.

Lemma entry_leb_trans a b c : entry_leb a b -> entry_leb b c -> entry_leb a c.
Proof.
  unfold entry_leb. rewrite !Is_true_true, !orb_true_iff, !andb_true_iff. intros [H1|[H1 S1]] [H2|[H2 S2]]; try (left; lia).
  right. split; [lia|]. apply Is_true_true. eapply string_leb_trans; by apply Is_true_true.
Qed.

Lemma entry_leb_newer a b : entry_leb a b -> (last_seen_unix_ms b <= last_seen_unix_ms a)%Z.
Proof. unfold entry_leb. rewrite !Is_true_true, !orb_true_iff, !andb_true_iff. lia. Qed.

Lemma sorted_head {A} (R : relation A) (P : A -> Prop) `{forall x, Decision (P x)} l x :
  StronglySorted R l -> x ∈ l -> P x -> exists y, head (filter P l) = Some y /\ y ∈ l /\ P y /\ (y = x \/ R y x).
Proof.
  induction 1 as [|z l Hs IH Hz]; [by intros ?%elem_of_nil|]. intros Hx HP. rewrite filter_cons.
  case_decide as Hd.
  - exists z. split; [done|]. split; [by left|]. split; [done|]. apply elem_of_cons in Hx as [->|Hx]; [by left|right].
    rewrite Forall_forall in Hz. by apply Hz.
  - apply elem_of_cons in Hx as [->|Hx]; [done|]. destruct (IH Hx HP) as (y & ? & ? & ? & ?). exists y. split; [done|].
    split; [by right|done].
Qed.

(** The first entry of an item in the list stands for it. *)
Lemma previous_items_spec cache part id :
  id ∈ part ->
  previous_items_of (Some cache) part !! id = item_of_entry <$> head (filter (fun e => ce_item_stable_id e = id) (entries cache)).
Proof.
  intros Hid. assert (bool_decide (part = ∅) = false) as Hne by (apply bool_decide_eq_false; set_solver).
  cbn. rewrite Hne. cbn [negb andb].
  assert (forall es (m : gmap string GenericItemFingerprint),
    fold_left (fun m e => if negb (bool_decide (ce_item_stable_id e ∈ part)) then m
        else match m !! ce_item_stable_id e with Some _ => m | None => <[ce_item_stable_id e := item_of_entry e]> m end) es m !! id =
    match m !! id with Some i => Some i | None => item_of_entry <$> head (filter (fun e => ce_item_stable_id e = id) es) end) as Hg.
  { induction es as [|e es IH]; intros m; cbn [fold_left]; [by destruct (m !! id)|]. rewrite filter_cons, IH.
    destruct (decide (ce_item_stable_id e = id)) as [Ei|Ei].
    - rewrite bool_decide_eq_true_2 by congruence. cbn [negb]. rewrite Ei. destruct (m !! id) eqn:E; [by rewrite E|].
      by rewrite lookup_insert_eq.
    - destruct (negb _); [done|]. destruct (m !! ce_item_stable_id e); [done|]. by rewrite lookup_insert_ne. }
  by rewrite Hg, lookup_empty.
Qed.

Lemma index_by_dom {V} (k : V -> string) (l : list V) x : x ∈ l -> k x ∈ dom (index_by k l).
Proof.
  unfold index_by. assert (forall m : gmap string V, x ∈ l \/ k x ∈ dom m -> k x ∈ dom (fold_left (fun m x => <[k x := x]> m) l m)) as Hg.
  { induction l as [|y l IH]; intros m; cbn [fold_left]; [intros [?%elem_of_nil|?]; done|].
    rewrite elem_of_cons. intros Hx. apply IH. rewrite dom_insert. set_solver. }
  auto.
Qed.

Section repeated.
Context `{HashOrder} (version target : string).
Context (cache0 : option GenericInstanceCacheMetadata) (graph : BuildGraphV2) (opt_level : Z) (flags : list string).
Context (policy : GenericCacheRetentionPolicy) (now : Z).

Notation instances := (build_generic_instances graph).
Notation key := (fun x => canonical_instance_key version target x opt_level flags).
Notation active := (map (next_entry version target opt_level flags now) instances).
Notation history := (historical_entries (cached version target cache0 opt_level flags)
  (list_to_set (ce_instance_key <$> active)) (Z.max 0 (now - max_age_ms policy))).
Notation items := (current_items graph).

(** The instances carry the hashes of their items, have keys of their own, fit
    into the cache, and everything in it was last seen before. *)
Record repeatable : Prop := {
  rp_hashes : forall x, x ∈ instances -> exists i, items !! item_stable_id x = Some i /\
    gi_interface_hash i = gn_interface_hash x /\ gi_body_hash i = gn_body_hash x;
  rp_keys : NoDup (key <$> instances);
  rp_fits : (List.length (active ++ history) <= max_entries policy)%nat;
  rp_clock : forall e, e ∈ history -> (last_seen_unix_ms e < now)%Z;
}.

Context (Hrp : repeatable).

Definition written : list GenericInstanceCacheEntry :=
  next_entries_of (cached version target cache0 opt_level flags) active policy now.

Lemma written_eq :
  written = dedup_by (fun a b => bool_decide (ce_instance_key a = ce_instance_key b)) (sort_by entry_leb (active ++ history)).
Proof.
  unfold written, next_entries_of. apply take_ge. etrans; [|apply (rp_fits Hrp)].
  etrans; [apply sublist_length, dedup_by_sublist|].
  by rewrite (Permutation_length (sort_by_perm entry_leb (active ++ history))).
Qed.

Lemma elem_of_written e : e ∈ written -> e ∈ active \/ e ∈ history.
Proof.
  rewrite written_eq. intros He. eapply elem_of_sublist in He; [|apply dedup_by_sublist].
  by rewrite (sort_by_perm entry_leb), elem_of_app in He.
Qed.

Lemma active_written x : x ∈ instances -> next_entry version target opt_level flags now x ∈ written.
Proof.
  intros Hx. assert (next_entry version target opt_level flags now x ∈ active) as Ha.
  { apply list_elem_of_In, in_map_iff. exists x. split; [done|]. by apply list_elem_of_In. }
  destruct (dedup_by_keeps ce_instance_key (sort_by entry_leb (active ++ history)) (next_entry version target opt_level flags now x)) as (y & Hy & Hk).
  { by rewrite (sort_by_perm entry_leb), elem_of_app; left. }
  rewrite <- written_eq in Hy. destruct (elem_of_written y Hy) as [Hin|Hin].
  - apply list_elem_of_In, in_map_iff in Hin as (z & <- & Hz). apply list_elem_of_In in Hz.
    assert (z = x) as ->; [|done]. cbn in Hk. apply list_elem_of_lookup in Hx as [i Hi], Hz as [j Hj].
    assert (j = i) as ->; [|by simplify_eq]. eapply (NoDup_lookup (key <$> instances)); [apply (rp_keys Hrp)| |];
      rewrite list_lookup_fmap; [by rewrite Hj|rewrite Hi]. cbn. by rewrite Hk.
  - exfalso. unfold historical_entries in Hin. rewrite (sort_by_perm (fun a b => (last_seen_unix_ms b <=? last_seen_unix_ms a)%Z)) in Hin.
    apply list_elem_of_In, filter_In in Hin as [_ Hin]. apply andb_true_iff in Hin as [Hn _].
    apply negb_true_iff, bool_decide_eq_false in Hn. apply Hn, elem_of_list_to_set. rewrite Hk. by apply list_elem_of_fmap_2.
Qed.

(** The first entry of an item is one of this build. *)
Lemma first_entry x :
  x ∈ instances -> exists y, y ∈ instances /\ item_stable_id y = item_stable_id x /\
    head (filter (fun e => ce_item_stable_id e = item_stable_id x) written) = Some (next_entry version target opt_level flags now y).
Proof.
  intros Hx. assert (StronglySorted entry_leb written) as Hs.
  { rewrite written_eq. eapply sublist_sorted; [apply dedup_by_sublist|]. apply sort_by_sorted; [apply entry_leb_total|apply entry_leb_trans]. }
  destruct (sorted_head entry_leb (fun e => ce_item_stable_id e = item_stable_id x) written (next_entry version target opt_level flags now x)) as (e & Hh & He & Hi & Hle).
  { done. } { by apply active_written. } { done. }
  destruct (elem_of_written e He) as [Hin|Hin].
  - apply list_elem_of_In, in_map_iff in Hin as (y & <- & Hy). apply list_elem_of_In in Hy. by exists y.
  - apply (rp_clock Hrp) in Hin. assert (now <= last_seen_unix_ms e)%Z; [|lia].
    destruct Hle as [->|Hle]; [done|]. by apply entry_leb_newer in Hle.
Qed.

Definition cache1 : GenericInstanceCacheMetadata :=
  mkCache GENERIC_INSTANCE_CACHE_SCHEMA_VERSION version target opt_level flags written.

Lemma kept_items keep id i : build_generic_item_map graph (Some keep) !! id = Some i -> id ∈ keep.
Proof.
  unfold build_generic_item_map.
  assert (forall ns (m : gmap string GenericItemFingerprint), dom m ⊆ keep ->
    dom (fold_left (fun m node => fold_left (fun m item =>
      if bool_decide (stable_item_id item ∈ keep) then <[stable_item_id item := item]> m else m) (generic_items node) m) ns m) ⊆ keep) as Hg.
  { induction ns as [|node ns IH]; intros m Hm; cbn [fold_left]; [done|]. apply IH. revert m Hm.
    induction (generic_items node) as [|item l IHl]; intros m Hm; cbn [fold_left]; [done|]. apply IHl.
    case_bool_decide; [|done]. rewrite dom_insert. set_solver. }
  intros Hi. apply (Hg (nodes graph) ∅); [set_solver|]. apply elem_of_dom. eauto.
Qed.

(** No item changed with respect to the cache this build wrote. *)
Lemma items_unchanged id i :
  participating graph <> ∅ -> items !! id = Some i ->
  item_change (cached_items (Some cache1) graph !! id) i = ItemSame.
Proof.
  intros Hne Hi. unfold current_items in Hi. rewrite bool_decide_eq_false_2 in Hi by done.
  pose proof (kept_items _ _ _ Hi) as Hp. pose proof Hp as Hp'. unfold participating in Hp.
  apply elem_of_list_to_set, list_elem_of_fmap in Hp as (x & -> & Hx).
  unfold cached_items. rewrite previous_items_spec by done. cbn [entries cache1].
  destruct (first_entry x Hx) as (y & Hy & Hid & ->). cbn.
  destruct (rp_hashes Hrp y Hy) as (i' & Hi' & H1 & H2). unfold current_items in Hi'. rewrite bool_decide_eq_false_2, Hid, Hi in Hi' by done.
  injection Hi' as <-. rewrite H1, H2. by rewrite !bool_decide_eq_true_2.
Qed.

Lemma unchanged_sets kind :
  kind <> ItemSame -> participating graph <> ∅ -> items_with kind (cached_items (Some cache1) graph) items = ∅.
Proof.
  intros Hk Hne. unfold items_with. apply dom_empty_iff_L, map_empty. intros id.
  apply map_lookup_filter_None. right. intros i Hi. cbn. by rewrite items_unchanged.
Qed.

Lemma instances_reusable x :
  x ∈ instances -> reusable version target (Some cache1) graph opt_level flags x.
Proof.
  intros Hx. assert (participating graph <> ∅) as Hne.
  { assert (item_stable_id x ∈ participating graph); [|set_solver]. by apply elem_of_list_to_set, list_elem_of_fmap_2. }
  split; [|split].
  - intros (i & Hi & _). unfold interface_items in Hi. by rewrite unchanged_sets in Hi.
  - unfold body_items. by rewrite unchanged_sets.
  - unfold cached. cbn. assert (header_matches version target cache1 opt_level flags = true) as ->.
    { unfold header_matches. by rewrite !bool_decide_eq_true_2. }
    cbn [entries cache1]. apply (index_by_dom ce_instance_key written (next_entry version target opt_level flags now x)).
    by apply active_written.
Qed.
End repeated.

(** A build that is repeated rebuilds nothing.  After any planned build
    (whatever cache it started from), planning the same graph with the same
    options, target and compiler from the cache it wrote finds every instance
    in it: no instance is rebuilt, whatever the time.  Needed are only that the
    instances carry the hashes of their items and have distinct keys, that the
    cache is large enough, and that its older entries were seen earlier. *)
Theorem repeated_build_hits `{HashOrder} (version target : string) (cache0 : option GenericInstanceCacheMetadata)
    (graph : BuildGraphV2) (opt_level : Z) (flags : list string) (policy : GenericCacheRetentionPolicy) (now : Z) :
  repeatable version target cache0 graph opt_level flags policy now ->
  exists stats cache, derive_generic_instance_plan_with_policy version target cache0 graph opt_level flags policy now
                      = Some (stats, cache) /\
    forall policy' now', exists stats' cache',
      derive_generic_instance_plan_with_policy version target (Some cache) graph opt_level flags policy' now'
      = Some (stats', cache') /\
      rebuilt_instances stats' = 0%Z /\ rebuild_instance_keys stats' = [] /\
      cache_hits stats' = Z.of_nat (List.length (build_generic_instances graph)).
Proof.
  intros Hrp. destruct (plan_spec version target cache0 graph opt_level flags policy now) as (dep & _ & _ & ->).
  eexists _, (cache1 version target cache0 graph opt_level flags policy now). split; [reflexivity|]. intros policy' now'.
  destruct (plan_spec version target (Some (cache1 version target cache0 graph opt_level flags policy now)) graph opt_level flags policy' now')
    as (dep' & _ & Hd' & ->).
  rewrite count_fold. cbn [sort_stats]. eexists _, _. split; [done|]. cbn -[how_many Z.add].
  set (v := fun x => verdict _ _ _ _ _ _).
  assert (forall x, x ∈ build_generic_instances graph -> v x = CacheHit) as Hv.
  { intros x Hx. apply verdict_hit; [done|]. by apply instances_reusable. }
  assert (forall w, w <> CacheHit -> how_many v w (build_generic_instances graph) = 0%Z) as H0.
  { intros w Hw. unfold how_many. rewrite (elem_of_nil_inv (filter _ _)); [done|].
    intros x [Hx Hin]%list_elem_of_filter. rewrite Hv in Hx by done. congruence. }
  rewrite !H0 by done. split; [done|]. split.
  - unfold misses. rewrite (elem_of_nil_inv (filter _ _)); [done|]. intros x [Hx Hin]%list_elem_of_filter. by apply Hx, Hv.
  - pose proof (all_counted v (build_generic_instances graph)) as Ha.
    rewrite (H0 InterfaceInvalidated), (H0 BodyInvalidated), (H0 DependencyInvalidated), (H0 NewInstance) in Ha by done. lia.
Qed.

(** ** On a concrete graph *)

#[local] Open Scope string_scope.

(** A generic function, instantiated twice. *)
Definition id_item : GenericItemFingerprint := mkGenericItem "m::id" "id" "m" "fn" 7 8 1 [].
Definition id_at (ty : string) (body : Z) : GenericInstanceFingerprint :=
  mkGenericInstance "m::id" "m" [ty] ("m::id<" ++ ty ++ ">") 7 body.
Definition id_graph : BuildGraphV2 :=
  mkGraph 4 "m" [mkNode "m" 1 2 [] None [] [id_item] [id_at "i64" 8; id_at "bool" 8]].
Definition two_days : GenericCacheRetentionPolicy := mkPolicy 10 (2 * MILLIS_PER_DAY).

Lemma repeated_build_hits_witness :
  exists stats cache, derive_generic_instance_plan_with_policy (H := hash_order_elements)
      "0.1" "x86_64" None id_graph 2 [] two_days 1000 = Some (stats, cache) /\
    forall policy' now', exists stats' cache',
      derive_generic_instance_plan_with_policy (H := hash_order_elements)
        "0.1" "x86_64" (Some cache) id_graph 2 [] policy' now' = Some (stats', cache') /\
      rebuilt_instances stats' = 0%Z /\ rebuild_instance_keys stats' = [] /\ cache_hits stats' = 2%Z.
Proof.
  apply (@repeated_build_hits hash_order_elements). split.
  - assert (build_generic_instances id_graph = [id_at "bool" 8; id_at "i64" 8]) as -> by (vm_compute; reflexivity).
    intros x Hx. exists id_item.
    repeat (apply elem_of_cons in Hx as [->|Hx]; [split; [vm_compute; reflexivity|split; reflexivity]|]). by apply elem_of_nil in Hx.
  - apply (bool_decide_unpack _). vm_compute. reflexivity.
  - vm_compute. lia.
  - assert (forall l : list GenericInstanceCacheEntry, l = [] -> forall e, e ∈ l -> (last_seen_unix_ms e < 1000)%Z) as Hl.
    { intros l -> e He. by apply elem_of_nil in He. }
    apply Hl. vm_compute. reflexivity.
Defined.

Lemma generic_plan_exact_witness :
  exists stats cache, derive_generic_instance_plan_with_policy (H := hash_order_reversed)
      "0.1" "x86_64" None id_graph 2 [] two_days 1000 = Some (stats, cache) /\
    total_instances stats = (cache_hits stats + rebuilt_instances stats)%Z.
Proof.
  destruct (@generic_plan_exact hash_order_reversed "0.1" "x86_64" None id_graph 2 [] two_days 1000) as (stats & cache & Hp & Ht & _).
  { vm_compute. reflexivity. }
  exists stats, cache. split; [exact Hp|exact Ht].
Defined.
