(* ===== verification/Workset.v ===== *)
(** What is built again: tools/sgc/src/workset.rs and
    commands/workset_optimizations.rs.

    The keys and metadata of the build and run caches, the choice between
    reusing the artifacts of the previous build, building the root again and
    building everything, and the lists of modules and symbols to build.

    The file system is asked two things, whether a path exists and its
    canonical form; they are parameters.  Messages that carry numbers keep
    them. *)

From S2P Require Import Prelude Strs Sorting Worklist BuildGraph Impact GenericCache.
From S2P Require NetBytes.
From stdpp Require Import pretty.
From Stdlib Require Import String.

#[local] Open Scope string_scope.

(** ** Cache keys and metadata *)

Inductive RunEngine := EngineAuto | EngineNative | EngineLli.

Record NativeRuntimeProvenance := mkProvenance {
  runtime_mode : string;
  artifact_provenance : string;
  release_eligible : bool;
  senline_pin_evidence : bool;
  build_manifest_id : option string;
}.

Record RuntimeSourceIdentity := mkIdentity {
  id_path : option string;
  id_fingerprint : option Z;
  id_provenance : NativeRuntimeProvenance;
}.

Record BuildCacheKey := mkBuildKey {
  bk_source_hash : Z;
  bk_module_fingerprints : list ModuleFingerprint;
  bk_opt_level : Z;
  bk_contract_checks : bool;
  bk_debug_info : bool;
  bk_emit_llvm : bool;
  bk_runtime_c : option string;
  bk_runtime_c_fingerprint : option Z;
  bk_runtime_provenance : NativeRuntimeProvenance;
  bk_output_path : string;
}.

Record BuildCacheMetadata := mkBuildMetadata {
  bm_cache_schema_version : Z;
  bm_source_hash : Z;
  bm_root_interface_hash : Z;
  bm_root_implementation_hash : Z;
  bm_module_fingerprints : list ModuleFingerprint;
  bm_opt_level : Z;
  bm_contract_checks : bool;
  bm_debug_info : bool;
  bm_emit_llvm : bool;
  bm_runtime_c : option string;
  bm_runtime_c_fingerprint : option Z;
  bm_runtime_provenance : NativeRuntimeProvenance;
  bm_llvm_ir_path : string;
  bm_output_path : string;
  bm_llvm_ir_hash : Z;
  bm_object_path : option string;
  bm_build_graph : option BuildGraphV2;
}.

Record RunCacheKey := mkRunKey {
  rk_source_hash : Z;
  rk_module_fingerprints : list ModuleFingerprint;
  rk_opt_level : Z;
  rk_contract_checks : bool;
  rk_debug_info : bool;
  rk_requested_engine : RunEngine;
  rk_resolved_engine : RunEngine;
  rk_runtime_c : option string;
  rk_runtime_c_fingerprint : option Z;
  rk_runtime_provenance : NativeRuntimeProvenance;
}.

Record RunCacheMetadata := mkRunMetadata {
  rm_source_hash : Z;
  rm_root_interface_hash : Z;
  rm_root_implementation_hash : Z;
  rm_module_fingerprints : list ModuleFingerprint;
  rm_opt_level : Z;
  rm_contract_checks : bool;
  rm_debug_info : bool;
  rm_requested_engine : RunEngine;
  rm_resolved_engine : RunEngine;
  rm_runtime_c : option string;
  rm_runtime_c_fingerprint : option Z;
  rm_runtime_provenance : NativeRuntimeProvenance;
  rm_llvm_ir_path : string;
  rm_executable_path : option string;
  rm_llvm_ir_hash : Z;
  rm_object_path : option string;
  rm_build_graph : option BuildGraphV2;
}.

#[export] Instance RunEngine_eq_dec : EqDecision RunEngine.
Proof. solve_decision. Defined.
#[export] Instance NativeRuntimeProvenance_eq_dec : EqDecision NativeRuntimeProvenance.
Proof. solve_decision. Defined.

Notation "a ==? b" := (bool_decide (a = b)) (at level 70, no associativity).
Notation "a !=? b" := (negb (bool_decide (a = b))) (at level 70, no associativity).

Definition cache_key (source_hash : Z) (module_fingerprints : list ModuleFingerprint) (opt_level : Z)
    (contract_checks debug_info : bool) (requested resolved : RunEngine) (runtime_c : RuntimeSourceIdentity) : RunCacheKey :=
  mkRunKey source_hash module_fingerprints opt_level contract_checks debug_info requested resolved
    (id_path runtime_c) (id_fingerprint runtime_c) (id_provenance runtime_c).

Definition build_cache_key (source_hash : Z) (module_fingerprints : list ModuleFingerprint) (opt_level : Z)
    (contract_checks debug_info emit_llvm : bool) (runtime_c : RuntimeSourceIdentity) (output_path : string) : BuildCacheKey :=
  mkBuildKey source_hash module_fingerprints opt_level contract_checks debug_info emit_llvm
    (id_path runtime_c) (id_fingerprint runtime_c) (id_provenance runtime_c) output_path.

Definition metadata_matches (m : RunCacheMetadata) (k : RunCacheKey) : bool :=
  (rm_source_hash m ==? rk_source_hash k) && (rm_module_fingerprints m ==? rk_module_fingerprints k) &&
  (rm_opt_level m ==? rk_opt_level k) && (rm_contract_checks m ==? rk_contract_checks k) &&
  (rm_debug_info m ==? rk_debug_info k) && (rm_requested_engine m ==? rk_requested_engine k) &&
  (rm_resolved_engine m ==? rk_resolved_engine k) && (rm_runtime_c m ==? rk_runtime_c k) &&
  (rm_runtime_c_fingerprint m ==? rk_runtime_c_fingerprint k) && (rm_runtime_provenance m ==? rk_runtime_provenance k).

Definition build_metadata_matches (m : BuildCacheMetadata) (k : BuildCacheKey) : bool :=
  (bm_cache_schema_version m ==? BUILD_GRAPH_SCHEMA_VERSION) &&
  (bm_source_hash m ==? bk_source_hash k) && (bm_module_fingerprints m ==? bk_module_fingerprints k) &&
  (bm_opt_level m ==? bk_opt_level k) && (bm_contract_checks m ==? bk_contract_checks k) &&
  (bm_debug_info m ==? bk_debug_info k) && (bm_emit_llvm m ==? bk_emit_llvm k) &&
  (bm_runtime_c m ==? bk_runtime_c k) && (bm_runtime_c_fingerprint m ==? bk_runtime_c_fingerprint k) &&
  (bm_runtime_provenance m ==? bk_runtime_provenance k) && (bm_output_path m ==? bk_output_path k).

(** ** Why a cache is not used *)

Inductive MismatchReason :=
| SchemaChanged (old new : Z)
| SourceChanged
| InterfacesChanged (modules : Z)
| ImplementationsChanged (modules : Z)
| OptLevelChanged (old new : Z)
| ContractChecksChanged (old new : bool)
| DebugInfoChanged (old new : bool)
| EmitModeChanged (old new : bool)
| RequestedEngineChanged (old new : RunEngine)
| ResolvedEngineChanged (old new : RunEngine)
| RuntimePathChanged
| RuntimeSourceChanged
| RuntimeProvenanceChanged
| OutputPathChanged
| MetadataMismatch.

Definition when {A} (b : bool) (a : A) : list A := if b then [a] else [].

Section workset.
Context `{HashOrder}.

Definition fingerprint_reasons (old new : list ModuleFingerprint) : list MismatchReason :=
  if old !=? new then
    let stats := module_invalidation_stats old new in
    when (0 <? interface_changed_modules stats)%Z (InterfacesChanged (interface_changed_modules stats)) ++
    when (0 <? implementation_only_changed_modules stats)%Z (ImplementationsChanged (implementation_only_changed_modules stats))
  else [].

Definition build_cache_mismatch_reasons (m : BuildCacheMetadata) (k : BuildCacheKey) : list MismatchReason :=
  let reasons :=
    (when (bm_cache_schema_version m !=? BUILD_GRAPH_SCHEMA_VERSION)
       (SchemaChanged (bm_cache_schema_version m) BUILD_GRAPH_SCHEMA_VERSION) ++
     when (bm_source_hash m !=? bk_source_hash k) SourceChanged ++
     fingerprint_reasons (bm_module_fingerprints m) (bk_module_fingerprints k) ++
     when (bm_opt_level m !=? bk_opt_level k) (OptLevelChanged (bm_opt_level m) (bk_opt_level k)) ++
     when (bm_contract_checks m !=? bk_contract_checks k) (ContractChecksChanged (bm_contract_checks m) (bk_contract_checks k)) ++
     when (bm_debug_info m !=? bk_debug_info k) (DebugInfoChanged (bm_debug_info m) (bk_debug_info k)) ++
     when (bm_emit_llvm m !=? bk_emit_llvm k) (EmitModeChanged (bm_emit_llvm m) (bk_emit_llvm k)) ++
     when (bm_runtime_c m !=? bk_runtime_c k) RuntimePathChanged ++
     when (bm_runtime_c_fingerprint m !=? bk_runtime_c_fingerprint k) RuntimeSourceChanged ++
     when (bm_runtime_provenance m !=? bk_runtime_provenance k) RuntimeProvenanceChanged ++
     when (bm_output_path m !=? bk_output_path k) OutputPathChanged)%list in
  match reasons with [] => [MetadataMismatch] | _ => reasons end.

Definition cache_mismatch_reasons (m : RunCacheMetadata) (k : RunCacheKey) : list MismatchReason :=
  let reasons :=
    (when (rm_source_hash m !=? rk_source_hash k) SourceChanged ++
     fingerprint_reasons (rm_module_fingerprints m) (rk_module_fingerprints k) ++
     when (rm_opt_level m !=? rk_opt_level k) (OptLevelChanged (rm_opt_level m) (rk_opt_level k)) ++
     when (rm_contract_checks m !=? rk_contract_checks k) (ContractChecksChanged (rm_contract_checks m) (rk_contract_checks k)) ++
     when (rm_debug_info m !=? rk_debug_info k) (DebugInfoChanged (rm_debug_info m) (rk_debug_info k)) ++
     when (rm_requested_engine m !=? rk_requested_engine k)
       (RequestedEngineChanged (rm_requested_engine m) (rk_requested_engine k)) ++
     when (rm_resolved_engine m !=? rk_resolved_engine k)
       (ResolvedEngineChanged (rm_resolved_engine m) (rk_resolved_engine k)) ++
     when (rm_runtime_c m !=? rk_runtime_c k) RuntimePathChanged ++
     when (rm_runtime_c_fingerprint m !=? rk_runtime_c_fingerprint k) RuntimeSourceChanged ++
     when (rm_runtime_provenance m !=? rk_runtime_provenance k) RuntimeProvenanceChanged)%list in
  match reasons with [] => [MetadataMismatch] | _ => reasons end.

(** ** Linking again *)

Section files.
Context (exists_path : string -> bool) (canonical_or_lossy : string -> string).

Definition check_object (previous_object : option string) (object_path : string)
    (previous_graph : option BuildGraphV2) (graph : BuildGraphV2) : result unit string :=
  match previous_object with
  | None => Err "previous object path missing"
  | Some prev_object =>
      if negb (exists_path prev_object) then Err "previous object artifact missing"
      else if canonical_or_lossy prev_object !=? canonical_or_lossy object_path then Err "object path changed"
      else if previous_graph !=? Some graph then Err "build graph changed"
      else Ok tt
  end.

Definition can_use_incremental_link_with_metadata (previous : BuildCacheMetadata) (llvm_ir_hash : Z)
    (object_path output_path : string) (runtime_c : option string) (opt_level : Z) (contract_checks debug_info : bool)
    (graph : BuildGraphV2) : result unit string :=
  if bm_cache_schema_version previous !=? BUILD_GRAPH_SCHEMA_VERSION then Err "cache schema version changed"
  else if bm_emit_llvm previous then Err "previous artifact is LLVM-only"
  else if bm_opt_level previous !=? opt_level then Err "optimization level changed"
  else if bm_contract_checks previous !=? contract_checks then Err "contract runtime checks changed"
  else if bm_debug_info previous !=? debug_info then Err "debug info changed"
  else if bm_output_path previous !=? output_path then Err "output path changed"
  else if bm_runtime_c previous !=? runtime_c then Err "runtime linkage input changed"
  else if bm_llvm_ir_hash previous !=? llvm_ir_hash then Err "LLVM IR changed"
  else check_object (bm_object_path previous) object_path (bm_build_graph previous) graph.

Definition can_use_incremental_link_with_run_metadata (previous : RunCacheMetadata) (llvm_ir_hash : Z)
    (object_path : string) (runtime_c : option string) (opt_level : Z) (contract_checks debug_info : bool)
    (requested resolved : RunEngine) (graph : BuildGraphV2) : result unit string :=
  if rm_opt_level previous !=? opt_level then Err "optimization level changed"
  else if rm_contract_checks previous !=? contract_checks then Err "contract runtime checks changed"
  else if rm_debug_info previous !=? debug_info then Err "debug info changed"
  else if (rm_requested_engine previous !=? requested) || (rm_resolved_engine previous !=? resolved)
  then Err "engine selection changed"
  else if rm_runtime_c previous !=? runtime_c then Err "runtime linkage input changed"
  else if rm_llvm_ir_hash previous !=? llvm_ir_hash then Err "LLVM IR changed"
  else check_object (rm_object_path previous) object_path (rm_build_graph previous) graph.
End files.

Definition resolve_engine (requested : RunEngine) (has_clang has_lli : bool) : result RunEngine string :=
  match requested with
  | EngineAuto =>
      if has_clang then Ok EngineNative else if has_lli then Ok EngineLli
      else Err "unable to run: neither clang (native) nor lli (JIT) was found"
  | EngineNative => if has_clang then Ok EngineNative else Err "compile failed"
  | EngineLli => if has_lli then Ok EngineLli else Err "compile failed"
  end.

(** ** The plan *)

Definition derive_workset_plan_from_impact (impact : option EditImpact) (root : string) : BuildWorksetPlan :=
  match impact with
  | None => FullRebuild
  | Some impact =>
      match edit_class impact with
      | Noop => ReusePreviousArtifacts
      | InterfaceChange => FullRebuild
      | ImplOnly =>
          if existsb (fun m => m ==? root) (changed_modules impact ++ impacted_modules impact)%list
          then RebuildImpactedRoot else ReusePreviousArtifacts
      end
  end.

Definition derive_build_workset_plan (previous : option BuildCacheMetadata) (impact : option EditImpact) (root : string)
    (emit_llvm : bool) (opt_level : Z) (contract_checks debug_info : bool) (output_path : string)
    (runtime_c : option string) : BuildWorksetPlan :=
  match previous with
  | None => FullRebuild
  | Some previous =>
      if (bm_cache_schema_version previous !=? BUILD_GRAPH_SCHEMA_VERSION) || (bm_emit_llvm previous !=? emit_llvm) ||
         (bm_opt_level previous !=? opt_level) || (bm_contract_checks previous !=? contract_checks) ||
         (bm_debug_info previous !=? debug_info) || (bm_output_path previous !=? output_path) ||
         (bm_runtime_c previous !=? runtime_c)
      then FullRebuild else derive_workset_plan_from_impact impact root
  end.

Definition derive_run_workset_plan (previous : option RunCacheMetadata) (impact : option EditImpact) (root : string)
    (opt_level : Z) (contract_checks debug_info : bool) (requested resolved : RunEngine)
    (runtime_c : option string) : BuildWorksetPlan :=
  match previous with
  | None => FullRebuild
  | Some previous =>
      if (rm_opt_level previous !=? opt_level) || (rm_contract_checks previous !=? contract_checks) ||
         (rm_debug_info previous !=? debug_info) ||
         ((rm_requested_engine previous !=? requested) || (rm_resolved_engine previous !=? resolved)) ||
         (rm_runtime_c previous !=? runtime_c)
      then FullRebuild else derive_workset_plan_from_impact impact root
  end.

(** ** The manifest: what code generation builds and what it keeps *)

Record CodegenWorksetManifest := mkManifest {
  mf_schema_version : Z;
  mf_root_module : string;
  mf_plan : BuildWorksetPlan;
  mf_edit_class : option EditClass;
  mf_changed_modules : list string;
  mf_impacted_modules : list string;
  changed_symbols : list string;
  impacted_symbols : list string;
  rebuild_modules : list string;
  reuse_modules : list string;
  rebuild_symbols : list string;
  reuse_symbols : list string;
  generic_total_instances : Z;
  generic_cache_hits : Z;
  generic_rebuilt_instances : Z;
  generic_interface_invalidated : Z;
  generic_body_invalidated : Z;
  generic_dependency_invalidated : Z;
  generic_new_instances : Z;
  generic_rebuild_items : list string;
  generic_rebuild_instance_keys : list string;
  generic_reuse_items : list string;
  generic_reuse_instance_keys : list string;
}.

Definition all_modules_of (graph : BuildGraphV2) : list string :=
  sort_dedup_strings (map module_path (nodes graph) ++ [root_module graph]).

Definition all_symbols_of (graph : BuildGraphV2) : list string :=
  sort_dedup_strings (flat_map (fun node => map fn_symbol (functions node)) (nodes graph)).

Definition root_node (graph : BuildGraphV2) : option BuildGraphNodeV2 :=
  find (fun node => module_path node ==? root_module graph) (nodes graph).

Definition generic_symbol_set (graph : BuildGraphV2) : gset string :=
  list_to_set (flat_map (fun node => map gi_symbol (generic_items node)) (nodes graph)).

(** [GenericInstancePlanStats::default()]. *)
Definition no_stats : GenericInstancePlanStats := mkPlanStats 0 0 0 0 0 0 0 [] [] [] [].

Definition from_impact (f : EditImpact -> list string) (impact : option EditImpact) : list string :=
  sort_dedup_strings (match impact with Some i => f i | None => [] end).

Definition planned_modules (graph : BuildGraphV2) (plan : BuildWorksetPlan) (impacted : list string) : list string :=
  sort_dedup_strings (match plan with
    | ReusePreviousArtifacts => []
    | RebuildImpactedRoot => match impacted with [] => [root_module graph] | _ => impacted end
    | FullRebuild => all_modules_of graph
    end).

Definition planned_symbols (graph : BuildGraphV2) (plan : BuildWorksetPlan) (impacted : list string) : list string :=
  sort_dedup_strings (match plan with
    | ReusePreviousArtifacts => []
    | RebuildImpactedRoot =>
        match impacted with
        | [] => match root_node graph with Some node => map fn_symbol (functions node) | None => [] end
        | _ => impacted
        end
    | FullRebuild => all_symbols_of graph
    end).

(** The generic functions whose instances are all cached are left out. *)
Definition drop_cached_generics (graph : BuildGraphV2) (stats : GenericInstancePlanStats) (rebuild_items symbols : list string) :
    list string :=
  if (0 <? total_instances stats)%Z then
    if (rebuilt_instances stats =? 0)%Z
    then List.filter (fun s => negb (bool_decide (s ∈ generic_symbol_set graph))) symbols
    else match rebuild_items with
         | [] => symbols
         | _ => List.filter (fun s => if bool_decide (s ∈ generic_symbol_set graph)
                                 then bool_decide (s ∈ (list_to_set rebuild_items : gset string)) else true) symbols
         end
  else symbols.

(** [all.filter(|x| !set.contains(x))]. *)
Definition without (all built : list string) : list string :=
  List.filter (fun x => negb (bool_decide (x ∈ (list_to_set built : gset string)))) all.

Definition derive_codegen_workset_manifest (graph : BuildGraphV2) (impact : option EditImpact) (plan : BuildWorksetPlan)
    (generic_stats : option GenericInstancePlanStats) : CodegenWorksetManifest :=
  let impacted_modules := from_impact impacted_modules impact in
  let impacted_symbols := from_impact impacted_functions impact in
  let rebuild_modules := planned_modules graph plan impacted_modules in
  let stats := default no_stats generic_stats in
  let rebuild_items := sort_dedup_strings (rebuild_item_ids stats) in
  let rebuild_symbols := sort_dedup_strings
    (drop_cached_generics graph stats rebuild_items (planned_symbols graph plan impacted_symbols)) in
  mkManifest BUILD_GRAPH_SCHEMA_VERSION (root_module graph) plan (edit_class <$> impact)
    (from_impact changed_modules impact) impacted_modules
    (from_impact changed_functions impact) impacted_symbols
    rebuild_modules (without (all_modules_of graph) rebuild_modules)
    rebuild_symbols (without (all_symbols_of graph) rebuild_symbols)
    (total_instances stats) (cache_hits stats) (rebuilt_instances stats) (interface_invalidated stats)
    (body_invalidated stats) (dependency_invalidated stats) (new_instances stats)
    rebuild_items (sort_dedup_strings (rebuild_instance_keys stats))
    (sort_dedup_strings (reuse_item_ids stats)) (sort_dedup_strings (reuse_instance_keys stats)).

(** *** The manifest file *)

Definition DEFAULT_WORKSET_MANIFEST_MAX_ITEMS : nat := Eval vm_compute in 2048%nat.

Definition truncate_manifest_list (label : string) (max_items : nat) (values : list string) : list string :=
  if (List.length values <=? max_items)%nat then values
  else (take max_items values ++
        ["__truncated__:" +:+ label +:+ " total=" +:+ pretty (Z.of_nat (List.length values)) +:+
         " kept=" +:+ pretty (Z.of_nat max_items)])%list.

Definition compact_manifest_for_serialization (m : CodegenWorksetManifest) (max_items : nat) : CodegenWorksetManifest :=
  match max_items with
  | O => m
  | _ =>
      mkManifest (mf_schema_version m) (mf_root_module m) (mf_plan m) (mf_edit_class m)
        (truncate_manifest_list "changed_modules" max_items (mf_changed_modules m))
        (truncate_manifest_list "impacted_modules" max_items (mf_impacted_modules m))
        (truncate_manifest_list "changed_symbols" max_items (changed_symbols m))
        (truncate_manifest_list "impacted_symbols" max_items (impacted_symbols m))
        (truncate_manifest_list "rebuild_modules" max_items (rebuild_modules m))
        (truncate_manifest_list "reuse_modules" max_items (reuse_modules m))
        (truncate_manifest_list "rebuild_symbols" max_items (rebuild_symbols m))
        (truncate_manifest_list "reuse_symbols" max_items (reuse_symbols m))
        (generic_total_instances m) (generic_cache_hits m) (generic_rebuilt_instances m)
        (generic_interface_invalidated m) (generic_body_invalidated m) (generic_dependency_invalidated m)
        (generic_new_instances m)
        (truncate_manifest_list "generic_rebuild_items" max_items (generic_rebuild_items m))
        (truncate_manifest_list "generic_rebuild_instance_keys" max_items (generic_rebuild_instance_keys m))
        (truncate_manifest_list "generic_reuse_items" max_items (generic_reuse_items m))
        (truncate_manifest_list "generic_reuse_instance_keys" max_items (generic_reuse_instance_keys m))
  end.

(** ** Shortcuts: commands/workset_optimizations.rs and commands/shared.rs *)

Definition DEFAULT_UNREACHABLE_PRUNE_MIN_FUNCTIONS : Z := 20000.
Definition USIZE_MAX : Z := 2 ^ 64 - 1.

(** The environment variable SENGOO_HIR_PRUNE_MIN_FUNCTIONS, when it is set. *)
Definition configured_hir_prune_min_functions (raw : option string) : Z :=
  match raw ≫= (fun raw => NetBytes.parse_unsigned 64 10 (NetBytes.lit raw)) with
  | Some value => if (value =? 0)%Z then USIZE_MAX else value
  | None => DEFAULT_UNREACHABLE_PRUNE_MIN_FUNCTIONS
  end.

Definition parse_large_project_mode_env (raw : string) : option bool :=
  let word := NetBytes.to_ascii_lowercase (NetBytes.trim (NetBytes.lit raw)) in
  let one_of := existsb (fun w => NetBytes.bytes_eqb word (NetBytes.lit w)) in
  if one_of ["1"; "true"; "on"; "yes"; "enable"; "enabled"] then Some true
  else if one_of ["0"; "false"; "off"; "no"; "disable"; "disabled"] then Some false
  else None.

(** The environment variable SENGOO_LARGE_PROJECT_MODE, when it is set. *)
Definition large_project_mode_effectively_enabled (mode : option string) (choice : option bool) : bool :=
  match choice with
  | Some explicit => explicit
  | None => default true (mode ≫= parse_large_project_mode_env)
  end.

Definition root_function_count (graph : BuildGraphV2) : Z :=
  match root_node graph with Some node => Z.of_nat (List.length (functions node)) | None => 0 end.

Definition likely_prunes_unreachable_functions (mode min_functions : option string) (graph : BuildGraphV2)
    (choice : option bool) : bool :=
  if negb (large_project_mode_effectively_enabled mode choice) then false
  else
    let min := configured_hir_prune_min_functions min_functions in
    if (min =? USIZE_MAX)%Z then false else (min <=? root_function_count graph)%Z.

Definition calls_by_symbol (graph : BuildGraphV2) : gmap string (list string) :=
  fold_left (fun m node => fold_left (fun m f => <[fn_symbol f := fn_calls f]> m) (functions node) m) (nodes graph) ∅.

(** The queue of the search; the head is its front.  A symbol is marked when
    it is taken out, so it may be in the queue several times. *)
Fixpoint reach_loop (fuel : nat) (calls : gmap string (list string)) (queue : list string) (reachable : gset string) :
    option (gset string) :=
  match queue with
  | [] => Some reachable
  | symbol :: queue =>
      match fuel with
      | O => None
      | S fuel =>
          if bool_decide (symbol ∈ reachable) then reach_loop fuel calls queue reachable
          else
            let reachable := {[symbol]} ∪ reachable in
            match calls !! symbol with
            | None => reach_loop fuel calls queue reachable
            | Some callees =>
                reach_loop fuel calls (queue ++ List.filter (fun c => bool_decide (c ∈ dom calls)) callees)%list reachable
            end
      end
  end.

(** Every call is queued at most once. *)
Definition reach_fuel (calls : gmap string (list string)) : nat :=
  S (sum_list_with (fun e => List.length e.2) (map_to_list calls)).

(** The outer option is the fuel, which is always enough. *)
Definition reachable_symbols_from_main (graph : BuildGraphV2) : option (option (gset string)) :=
  let calls := calls_by_symbol graph in
  let root_main := root_module graph +:+ "::main" in
  if bool_decide (root_main ∈ dom calls) then Some <$> reach_loop (reach_fuel calls) calls [root_main] ∅ else Some None.

Definition can_reuse_artifacts_for_unreachable_impl_only_changes (mode min_functions : option string)
    (impact : option EditImpact) (graph : BuildGraphV2) (large_project_mode_choice : option bool) : option bool :=
  match impact with
  | None => Some false
  | Some impact =>
      if edit_class impact !=? ImplOnly then Some false
      else match changed_functions impact with
      | [] => Some false
      | _ =>
          if negb (likely_prunes_unreachable_functions mode min_functions graph large_project_mode_choice) then Some false
          else
            let root_prefix := root_module graph +:+ "::" in
            match List.filter (String.prefix root_prefix) (changed_functions impact) with
            | [] => Some false
            | changed_root_functions =>
                match reachable_symbols_from_main graph with
                | None => None
                | Some None => Some false
                | Some (Some reachable) => Some (forallb (fun s => negb (bool_decide (s ∈ reachable))) changed_root_functions)
                end
            end
      end
  end.

Definition can_skip_codegen_via_generic_cache (impact : option EditImpact) (graph : BuildGraphV2)
    (generic_stats : GenericInstancePlanStats) : bool :=
  if (total_instances generic_stats ==? 0%Z) || (rebuilt_instances generic_stats !=? 0%Z) ||
     (new_instances generic_stats !=? 0%Z) || (interface_invalidated generic_stats !=? 0%Z) ||
     (body_invalidated generic_stats !=? 0%Z) || (dependency_invalidated generic_stats !=? 0%Z)
  then false
  else match impact with
  | None => false
  | Some impact =>
      if edit_class impact ==? InterfaceChange then false
      else if generic_symbol_set graph ==? ∅ then false
      else match changed_functions impact, impacted_functions impact with
           | [], _ | _, [] => false
           | changed, impacted =>
               forallb (fun s => bool_decide (s ∈ generic_symbol_set graph)) changed &&
               forallb (fun s => bool_decide (s ∈ generic_symbol_set graph)) impacted
           end
  end.

(** ** The decision of the build command: commands/build.rs

    What is known when the caches have been read: the hashes and fingerprints
    of the sources, the options, the target, what the tool chain and the files
    of the machine give for it, and the plan for the generic instances. *)

(** NativeBuildTarget, by its triple. *)
Definition is_windows_msvc (triple : string) : bool := triple ==? "x86_64-pc-windows-msvc".
Definition object_extension (triple : string) : string := if is_windows_msvc triple then "obj" else "o".
Definition default_output_basename (triple stem : string) : string :=
  stem +:+ (if is_windows_msvc triple then ".exe" else "").

(** What native_build_input_fingerprint hashes: the compiler, the triple, the
    level, whether a library is built, and the fingerprints of the runtime
    bundle, of the commands that compile it and the packages, and of the
    variables that the linker reads. *)
Record NativeInputs := mkNativeInputs {
  ni_compiler : Z;
  ni_triple : string;
  ni_opt_level : Z;
  ni_shared : bool;
  ni_sources : list Z;
}.

(** The standard library's hasher, on these inputs and on pairs of
    fingerprints. *)
Class DefaultHasher := {
  hash_inputs : NativeInputs -> Z;
  hash_pair : option Z -> option Z -> Z;
}.

(** What the build command finds on the machine: the runtime's source, the
    fingerprint of its files, the compiler's, those of the commands and files
    for a triple and a level, and the installed runtime for a triple. *)
Record Machine := mkMachine {
  found_runtime_c : option string;
  runtime_bundle_fingerprint : string -> Z;
  native_compiler_fingerprint : Z;
  native_source_fingerprints : string -> Z -> list Z;
  native_runtime_cache_context : string -> option Z * NativeRuntimeProvenance;
}.

Definition not_linked : NativeRuntimeProvenance := mkProvenance "not-linked" "not-applicable" false false None.

Record BuildRequest := mkRequest {
  rq_root_interface_hash : Z;
  rq_root_implementation_hash : Z;
  rq_module_fingerprints : list ModuleFingerprint;
  rq_graph : BuildGraphV2;
  rq_opt_level : Z;
  rq_contract_checks : bool;
  rq_debug_info : bool;
  rq_emit_llvm : bool;
  rq_low_memory : bool;
  rq_force_rebuild : bool;
  rq_target : string;
  rq_machine : Machine;
  rq_stem : string;
  rq_build_file : string -> string;
  rq_output : option string;
  rq_large_project_mode : option bool;
}.

Definition native_inputs (r : BuildRequest) : NativeInputs :=
  mkNativeInputs (native_compiler_fingerprint (rq_machine r)) (rq_target r) (rq_opt_level r) false
    (native_source_fingerprints (rq_machine r) (rq_target r) (rq_opt_level r)).

Definition combine_runtime_cache_fingerprints `{DefaultHasher} (source installed : option Z) : option Z :=
  match source, installed with
  | None, None => None
  | _, _ => Some (hash_pair source installed)
  end.

Definition runtime_source_cache_identity (runtime_c : option string) (provenance : NativeRuntimeProvenance) : option string :=
  (fun path => if runtime_mode provenance ==? "installed" then "installed:share/sengoo/stdlib/runtime.c" else path)
  <$> runtime_c.

(** The target is looked at for native code only. *)
Definition rq_runtime_c `{DefaultHasher} (r : BuildRequest) : RuntimeSourceIdentity :=
  let machine := rq_machine r in
  let source := if rq_emit_llvm r then runtime_bundle_fingerprint machine <$> found_runtime_c machine
                else Some (hash_inputs (native_inputs r)) in
  let '(installed, provenance) :=
    if rq_emit_llvm r then (None, not_linked) else native_runtime_cache_context machine (rq_target r) in
  mkIdentity (runtime_source_cache_identity (found_runtime_c machine) provenance)
    (combine_runtime_cache_fingerprints source installed) provenance.

Definition rq_output_file (r : BuildRequest) : string :=
  match rq_output r with
  | Some out => out
  | None => rq_build_file r (if rq_emit_llvm r then rq_stem r +:+ ".ll" else default_output_basename (rq_target r) (rq_stem r))
  end.

Definition rq_llvm_ir_path (r : BuildRequest) : string :=
  if rq_emit_llvm r then rq_output_file r else rq_build_file r (rq_stem r +:+ ".ll").

Definition rq_object_path (r : BuildRequest) : option string :=
  if rq_emit_llvm r then None else Some (rq_build_file r (rq_stem r +:+ "." +:+ object_extension (rq_target r))).

(** What a build that compiled leaves in the cache. *)
Definition saved_metadata `{DefaultHasher} (r : BuildRequest) (llvm_ir_hash : Z) : BuildCacheMetadata :=
  mkBuildMetadata BUILD_GRAPH_SCHEMA_VERSION (rq_root_implementation_hash r) (rq_root_interface_hash r)
    (rq_root_implementation_hash r) (rq_module_fingerprints r) (rq_opt_level r) (rq_contract_checks r) (rq_debug_info r)
    (rq_emit_llvm r) (id_path (rq_runtime_c r)) (id_fingerprint (rq_runtime_c r)) (id_provenance (rq_runtime_c r))
    (rq_llvm_ir_path r) (rq_output_file r) llvm_ir_hash (rq_object_path r) (Some (rq_graph r)).

Section decide.
Context `{DefaultHasher}.

Definition request_key (r : BuildRequest) : BuildCacheKey :=
  build_cache_key (rq_root_implementation_hash r) (rq_module_fingerprints r) (rq_opt_level r) (rq_contract_checks r)
    (rq_debug_info r) (rq_emit_llvm r) (rq_runtime_c r) (rq_output_file r).

(** Either the cache is used as it is, or a plan is followed, with the
    metadata it may use and the classified edit. *)
Inductive BuildDecision :=
| UseCache (previous : BuildCacheMetadata)
| FollowPlan (plan : BuildWorksetPlan) (previous : option BuildCacheMetadata) (impact : option EditImpact).

(** The metadata that a plan may use, after the key was compared. *)
Definition usable_metadata (r : BuildRequest) (metadata : BuildCacheMetadata) : option BuildCacheMetadata :=
  if (bm_runtime_c_fingerprint metadata !=? id_fingerprint (rq_runtime_c r)) ||
     (bm_runtime_provenance metadata !=? id_provenance (rq_runtime_c r))
  then None else Some metadata.

Definition plan_for (mode min_functions : option string) (r : BuildRequest) (generic_stats : GenericInstancePlanStats)
    (previous : option BuildCacheMetadata) (impact : option EditImpact) : option BuildWorksetPlan :=
  let plan := derive_build_workset_plan previous impact (root_module (rq_graph r)) (rq_emit_llvm r) (rq_opt_level r)
    (rq_contract_checks r) (rq_debug_info r) (rq_output_file r) (id_path (rq_runtime_c r)) in
  match previous with
  | None => Some plan
  | Some _ =>
      if can_skip_codegen_via_generic_cache impact (rq_graph r) generic_stats then Some ReusePreviousArtifacts
      else match can_reuse_artifacts_for_unreachable_impl_only_changes mode min_functions impact (rq_graph r)
                   (rq_large_project_mode r) with
           | None => None
           | Some true => Some ReusePreviousArtifacts
           | Some false => Some plan
           end
  end.

Definition decide_build (artifact_exists : BuildCacheMetadata -> bool) (mode min_functions : option string) (r : BuildRequest)
    (generic_stats : GenericInstancePlanStats) (seed : option BuildCacheMetadata) : option BuildDecision :=
  let follow previous impact :=
    plan_for mode min_functions r generic_stats previous impact ≫= (fun plan => Some (FollowPlan plan previous impact)) in
  if rq_low_memory r then follow None None
  else if rq_force_rebuild r then follow None None
  else match seed with
  | None => follow None None
  | Some metadata =>
      if build_metadata_matches metadata (request_key r) then
        if artifact_exists metadata then Some (UseCache metadata) else follow (usable_metadata r metadata) None
      else
        classify_edit_impact (bm_root_interface_hash metadata) (bm_root_implementation_hash metadata)
          (rq_root_interface_hash r) (rq_root_implementation_hash r)
          (bm_module_fingerprints metadata) (rq_module_fingerprints r) (bm_build_graph metadata) (rq_graph r)
        ≫= (fun impact => follow (usable_metadata r metadata) (Some impact))
  end.
End decide.
End workset.
