(* ===== verification/WorksetInv.v ===== *)
(** What the build decides is right: [Workset.v].

    - [reachable_exact]: the search from [main] returns, with exactly the
      functions that [main] reaches.
    - [manifest_partition]: every module and every function of the graph is
      built or reused, never both.
    - [build_decision_sound]: the build command always decides, and what is
      reused was built from the same root source with the same recorded
      options and, for native code, for the same target, the two shortcuts
      apart; [emit_llvm_ignores_target]: LLVM text is reused for any target. *)

From S2P Require Import Prelude Strs Sorting Worklist BuildGraph Impact ImpactInv GenericCache Workset.
From Stdlib Require Import String.

#[local] Open Scope string_scope.

(** ** The search from main *)

Section reach.
Context (calls : gmap string (list string)).

Definition calls_known (caller callee : string) : Prop :=
  callee ∈ default [] (calls !! caller) /\ callee ∈ dom calls.

(** What the calls of the functions not yet marked could still add. *)
Definition pending (reachable : gset string) : nat :=
  sum_list_with (fun e => List.length e.2) (map_to_list (filter (fun e => e.1 ∉ reachable) calls)).

#[local] Instance sum_list_with_perm {A} (f : A -> nat) : Proper (Permutation ==> eq) (sum_list_with f).
Proof. intros l l'. induction 1; cbn; lia. Qed.

Lemma filter_marked s (reachable : gset string) :
  filter (fun e : string * list string => e.1 ∉ {[s]} ∪ reachable) calls
  = delete s (filter (fun e => e.1 ∉ reachable) calls).
Proof.
  apply map_eq. intros k. destruct (decide (k = s)) as [->|Hne].
  - rewrite lookup_delete_eq. apply map_lookup_filter_None. right. cbn. set_solver.
  - rewrite lookup_delete_ne by done. apply option_eq. intros v. rewrite !map_lookup_filter_Some. cbn. set_solver.
Qed.

Lemma pending_mark s reachable :
  s ∉ reachable -> pending reachable = (List.length (default [] (calls !! s)) + pending ({[s]} ∪ reachable))%nat.
Proof.
  intros Hs. unfold pending. rewrite filter_marked. set (m := filter _ calls).
  destruct (calls !! s) as [v|] eqn:Hc; cbn.
  - assert (m !! s = Some v) as Hm by (apply map_lookup_filter_Some; done).
    by rewrite <- (map_to_list_delete m s v Hm).
  - assert (m !! s = None) as Hm by (apply map_lookup_filter_None; left; done). by rewrite delete_id.
Qed.

Lemma reach_enough fuel queue reachable :
  (List.length queue + pending reachable <= fuel)%nat -> is_Some (reach_loop fuel calls queue reachable).
Proof.
  revert queue reachable. induction fuel as [|fuel IH]; intros [|s queue] reachable Hf; cbn in *; [done|lia|done|].
  case_bool_decide as Hs; [apply IH; lia|]. rewrite (pending_mark s reachable Hs) in Hf.
  destruct (calls !! s) as [v|]; cbn in Hf; apply IH; [|lia]. rewrite length_app.
  pose proof (List.filter_length_le (fun c => bool_decide (c ∈ dom calls)) v). lia.
Qed.

(** Marked and waiting functions are reached, and what a marked one calls is
    marked or waits. *)
Record reaching (start : string) (queue : list string) (reachable : gset string) : Prop := {
  reaching_start : start ∈ queue \/ start ∈ reachable;
  reaching_sound : forall x, x ∈ queue \/ x ∈ reachable -> rtc calls_known start x;
  reaching_closed : forall x y, x ∈ reachable -> calls_known x y -> y ∈ queue \/ y ∈ reachable;
}.

Lemma elem_of_known_callees v y : y ∈ List.filter (fun c => bool_decide (c ∈ dom calls)) v <-> y ∈ v /\ y ∈ dom calls.
Proof. by rewrite list_elem_of_In, filter_In, bool_decide_eq_true, <- list_elem_of_In. Qed.

Lemma reaching_mark start s queue reachable :
  reaching start (s :: queue) reachable ->
  reaching start (queue ++ List.filter (fun c => bool_decide (c ∈ dom calls)) (default [] (calls !! s)))%list ({[s]} ∪ reachable).
Proof.
  intros [H1 H2 H3]. split.
  - set_solver.
  - intros x. rewrite elem_of_app, elem_of_known_callees. intros [[Hx|Hx]|Hx]; [apply H2; set_solver| |apply H2; set_solver].
    eapply rtc_r; [apply (H2 s); set_solver|exact Hx].
  - intros x y Hx Hxy. rewrite elem_of_app, elem_of_known_callees. apply elem_of_union in Hx as [->%elem_of_singleton|Hx].
    + left. by right.
    + destruct (H3 x y Hx Hxy) as [[->|?]%elem_of_cons|?]; set_solver.
Qed.

Lemma reach_loop_exact start fuel queue reachable r :
  reaching start queue reachable -> reach_loop fuel calls queue reachable = Some r ->
  forall x, x ∈ r <-> rtc calls_known start x.
Proof.
  revert queue reachable. induction fuel as [|fuel IH]; intros [|s queue] reachable Hr Hl; cbn in Hl; simplify_eq.
  1, 2: destruct Hr as [H1 H2 H3]; intros x; split; [intros; apply H2; by right|];
    revert x; apply rtc_ind_r; [set_solver|intros y z _ Hyz Hy; edestruct (H3 y z); set_solver].
  case_bool_decide as Hs.
  - eapply IH, Hl. destruct Hr as [H1 H2 H3]. split; [set_solver|set_solver|].
    intros x y Hx Hxy. destruct (H3 x y Hx Hxy) as [[->|?]%elem_of_cons|?]; set_solver.
  - apply reaching_mark in Hr. destruct (calls !! s); cbn in Hr; [|rewrite app_nil_r in Hr]; by eapply IH.
Qed.
End reach.

Lemma reach_fuel_pending calls : reach_fuel calls = S (pending calls ∅).
Proof. unfold reach_fuel, pending. f_equal. f_equal. f_equal. symmetry. apply map_filter_id. set_solver. Qed.

Lemma reachable_spec graph :
  let main := root_module graph +:+ "::main" in
  if decide (main ∈ dom (calls_by_symbol graph))
  then exists r, reachable_symbols_from_main graph = Some (Some r) /\
         forall x, x ∈ r <-> rtc (calls_known (calls_by_symbol graph)) main x
  else reachable_symbols_from_main graph = Some None.
Proof.
  cbn zeta. unfold reachable_symbols_from_main. case_decide as Hm; [|by rewrite bool_decide_eq_false_2].
  rewrite bool_decide_eq_true_2 by done.
  destruct (reach_enough (calls_by_symbol graph) (reach_fuel (calls_by_symbol graph)) [root_module graph +:+ "::main"] ∅) as [r Hr].
  { rewrite reach_fuel_pending. cbn. lia. }
  rewrite Hr. exists r. split; [done|]. eapply reach_loop_exact; [|exact Hr].
  split; [set_solver| |set_solver]. intros x [->%list_elem_of_singleton|?]; [done|set_solver].
Qed.

(** The search from [main].  For every graph it ends; it finds nothing when
    the root has no [main]; and otherwise it finds exactly the functions that
    are reached from [main] by calls between functions of the graph. *)
Theorem reachable_exact (graph : BuildGraphV2) :
  exists found, reachable_symbols_from_main graph = Some found /\
    (found = None <-> root_module graph +:+ "::main" ∉ dom (calls_by_symbol graph)) /\
    forall r, found = Some r ->
      forall x, x ∈ r <-> rtc (calls_known (calls_by_symbol graph)) (root_module graph +:+ "::main") x.
Proof.
  pose proof (reachable_spec graph) as Hr. cbn zeta in Hr. case_decide as Hm.
  - destruct Hr as (r & Hr & Hx). exists (Some r). split; [done|]. split; [by split|]. by intros ? [= <-].
  - exists None. split; [done|]. by split.
Qed.

(** ** The manifest *)

Lemma elem_of_without all built x : x ∈ without all built <-> x ∈ all /\ x ∉ built.
Proof.
  unfold without. rewrite list_elem_of_In, filter_In, <- list_elem_of_In, negb_true_iff, bool_decide_eq_false.
  by rewrite elem_of_list_to_set.
Qed.

Lemma sorted_nil : sort_dedup String.leb [] = [].
Proof. done. Qed.

Lemma without_self l : without l (sort_dedup String.leb l) = [].
Proof. apply elem_of_nil_inv. intros x Hx%elem_of_without. rewrite elem_of_sorted in Hx. tauto. Qed.

Lemma elem_of_all_modules graph x :
  x ∈ all_modules_of graph <-> x ∈ map module_path (nodes graph) \/ x = root_module graph.
Proof. unfold all_modules_of. by rewrite elem_of_sorted, elem_of_app, list_elem_of_singleton. Qed.

Lemma planned_impacted graph i x :
  x ∈ impacted_modules i -> x ∈ planned_modules graph RebuildImpactedRoot (from_impact impacted_modules (Some i)).
Proof.
  intros Hx. unfold planned_modules. rewrite elem_of_sorted.
  assert (x ∈ from_impact impacted_modules (Some i)) as Hf by by apply elem_of_sorted.
  destruct (from_impact _ _); [by apply elem_of_nil in Hf|done].
Qed.

(** The manifest divides the program.  Whatever the plan and the edit, a
    module is listed as reused if and only if it is a module of the graph (or
    its root) that is not listed to be built, and the same holds for functions.  A full rebuild
    reuses no module, reusing the artifacts builds nothing, and when the
    impacted part is built every impacted module is in it. *)
Theorem manifest_partition (graph : BuildGraphV2) (impact : option EditImpact) (plan : BuildWorksetPlan)
    (stats : option GenericInstancePlanStats) :
  let m := derive_codegen_workset_manifest graph impact plan stats in
  (forall x, x ∈ reuse_modules m <->
     (x ∈ map module_path (nodes graph) \/ x = root_module graph) /\ x ∉ rebuild_modules m) /\
  (forall x, x ∈ reuse_symbols m <->
     x ∈ flat_map (fun node => map fn_symbol (functions node)) (nodes graph) /\ x ∉ rebuild_symbols m) /\
  (plan = FullRebuild -> reuse_modules m = []) /\
  (plan = ReusePreviousArtifacts -> rebuild_modules m = [] /\ rebuild_symbols m = []) /\
  (plan = RebuildImpactedRoot -> forall i, impact = Some i ->
     forall x, x ∈ impacted_modules i -> x ∈ rebuild_modules m).
Proof.
  cbn -[drop_cached_generics planned_modules planned_symbols all_modules_of all_symbols_of]. split; [|split; [|split; [|split]]].
  - intros x. by rewrite elem_of_without, elem_of_all_modules.
  - intros x. rewrite elem_of_without. unfold all_symbols_of. by rewrite elem_of_sorted.
  - intros ->. apply without_self.
  - intros ->. split; [done|]. unfold planned_symbols, drop_cached_generics. rewrite sorted_nil. by repeat case_match.
  - intros -> i ->. apply planned_impacted.
Qed.

(** ** What is reused *)

(** The edit left the root as it was if its classification does not ask for
    the root to be built. *)
Section root.
Context `{HashOrder} (prev_interface prev_implementation interface implementation : Z).
Context (before after : list ModuleFingerprint) (prev : option BuildGraphV2) (curr : BuildGraphV2).

Notation root_same := (prev_interface = interface /\ prev_implementation = implementation).
Notation changes := (final_changes prev_interface prev_implementation interface implementation before after prev curr).

Lemma downgrade_keys ms l : (map (downgrade_change prev curr ms) l).*1 = l.*1.
Proof. induction l as [|c l IH]; [done|]. cbn. f_equal; [|exact IH]. unfold downgrade_change. by case_match. Qed.

Lemma final_change_keys :
  changes.1.*1 = (module_changes prev_interface prev_implementation interface implementation before after curr).*1.
Proof. unfold final_changes. repeat case_match; try done. cbn. apply downgrade_keys. Qed.

Lemma root_listed : root_same \/ root_module curr ∈ changes.1.*1.
Proof.
  rewrite final_change_keys. unfold module_changes.
  set (l := (root_changes _ _ _ _ _ ++ _)%list).
  assert (root_same \/ exists k, (root_module curr, k) ∈ l) as [?|[k Hk]]; [|by left|right].
  { unfold l, root_changes, root_interface_changed.
    destruct (Z.eqb_spec prev_interface interface), (Z.eqb_spec prev_implementation implementation);
      [by left|right..]; cbn [negb]; rewrite ?orb_true_r; repeat case_match; eexists; by left. }
  destruct (dedup_by_keeps fst (sort_by key_leb l) (root_module curr, k)) as ([x k'] & Hx & E).
  { by rewrite (sort_by_perm key_leb). }
  cbn in E. subst x. apply list_elem_of_fmap. by exists (root_module curr, k').
Qed.

Lemma reuse_plan_root impact :
  classify_edit_impact prev_interface prev_implementation interface implementation before after prev curr = Some impact ->
  derive_workset_plan_from_impact (Some impact) (root_module curr) = ReusePreviousArtifacts -> root_same.
Proof.
  intros Hc Hp. destruct (classify_spec prev_interface prev_implementation interface implementation before after prev curr)
    as (i & Hi & Hcl & Hm & _).
  rewrite Hc in Hi. injection Hi as <-. cbn in Hp. destruct (edit_class impact) eqn:E.
  - symmetry in Hcl. apply noop_spec in Hcl as [? _]. done.
  - destruct (existsb _ _) eqn:Ex; [done|]. destruct root_listed as [?|Hr]; [done|]. exfalso.
    assert (root_module curr ∈ changed_modules impact) as Hin by by apply Hm.
    assert (existsb (fun m => m ==? root_module curr) (changed_modules impact ++ impacted_modules impact) = true); [|congruence].
    apply existsb_exists. exists (root_module curr). rewrite bool_decide_eq_true. split; [|done].
    apply list_elem_of_In, elem_of_app. by left.
  - done.
Qed.
End root.

(** ** The decision *)

Section requests.
Context `{DefaultHasher}.

(** The options that the cache records. *)
Definition same_options (m : BuildCacheMetadata) (r : BuildRequest) : Prop :=
  bm_cache_schema_version m = BUILD_GRAPH_SCHEMA_VERSION /\ bm_opt_level m = rq_opt_level r /\
  bm_contract_checks m = rq_contract_checks r /\ bm_debug_info m = rq_debug_info r /\
  bm_emit_llvm m = rq_emit_llvm r /\ bm_output_path m = rq_output_file r /\ bm_runtime_c m = id_path (rq_runtime_c r).

Definition same_runtime (m : BuildCacheMetadata) (r : BuildRequest) : Prop :=
  bm_runtime_c_fingerprint m = id_fingerprint (rq_runtime_c r) /\ bm_runtime_provenance m = id_provenance (rq_runtime_c r).

Definition same_root (m : BuildCacheMetadata) (r : BuildRequest) : Prop :=
  bm_root_interface_hash m = rq_root_interface_hash r /\ bm_root_implementation_hash m = rq_root_implementation_hash r.

(** The two shortcuts: only generic functions are affected and all their
    instances are cached; or only bodies changed, and [main] reaches none of
    the changed functions of the root. *)
Definition only_cached_generics (stats : GenericInstancePlanStats) (r : BuildRequest) (i : EditImpact) : Prop :=
  edit_class i <> InterfaceChange /\ rebuilt_instances stats = 0%Z /\
  forall f, f ∈ changed_functions i \/ f ∈ impacted_functions i -> f ∈ generic_symbol_set (rq_graph r).

Definition only_unreachable (r : BuildRequest) (i : EditImpact) : Prop :=
  edit_class i = ImplOnly /\
  forall f, f ∈ changed_functions i -> String.prefix (root_module (rq_graph r) +:+ "::") f = true ->
    ~ rtc (calls_known (calls_by_symbol (rq_graph r))) (root_module (rq_graph r) +:+ "::main") f.

End requests.

Ltac split_matches :=
  repeat match goal with
  | H : _ && _ = true |- _ => apply andb_true_iff in H as [? ?]
  | H : _ || _ = false |- _ => apply orb_false_iff in H as [? ?]
  | H : (_ ==? _) = true |- _ => apply bool_decide_eq_true in H
  | H : (_ ==? _) = false |- _ => apply bool_decide_eq_false in H
  | H : (_ !=? _) = false |- _ => apply negb_false_iff in H
  end.

Lemma build_matches `{DefaultHasher} m r : build_metadata_matches m (request_key r) = true ->
  bm_source_hash m = rq_root_implementation_hash r /\ bm_module_fingerprints m = rq_module_fingerprints r /\
  same_options m r /\ same_runtime m r.
Proof. unfold build_metadata_matches. cbn. intros Hm. split_matches. unfold same_options, same_runtime. tauto. Qed.

Lemma usable_same `{DefaultHasher} r m m' : usable_metadata r m = Some m' -> m' = m /\ same_runtime m r.
Proof. unfold usable_metadata, same_runtime. case_match; [done|]. split_matches. by intros [= <-]. Qed.

Lemma plan_same_options `{DefaultHasher} r m impact :
  derive_build_workset_plan (Some m) impact (root_module (rq_graph r)) (rq_emit_llvm r) (rq_opt_level r)
    (rq_contract_checks r) (rq_debug_info r) (rq_output_file r) (id_path (rq_runtime_c r)) = ReusePreviousArtifacts ->
  same_options m r /\ derive_workset_plan_from_impact impact (root_module (rq_graph r)) = ReusePreviousArtifacts.
Proof. cbn. case_match; [done|]. split_matches. unfold same_options. tauto. Qed.

Lemma skip_generics impact r stats :
  can_skip_codegen_via_generic_cache impact (rq_graph r) stats = true ->
  exists i, impact = Some i /\ only_cached_generics stats r i.
Proof.
  unfold can_skip_codegen_via_generic_cache, only_cached_generics. case_match eqn:E; [done|]. split_matches.
  destruct impact as [i|]; [|done]. repeat (case_match; try done). intros Hf. split_matches. exists i.
  split; [done|]. split; [done|]. split; [done|].
  intros f. rewrite !list_elem_of_In. repeat match goal with E : _ i = _ |- _ => rewrite E end.
  repeat match goal with H : forallb _ _ = true |- _ => rewrite forallb_forall in H end.
  intros [?|?]; eapply bool_decide_eq_true; eauto.
Qed.

Lemma skip_unreachable mode min_functions impact r :
  exists b, can_reuse_artifacts_for_unreachable_impl_only_changes mode min_functions impact (rq_graph r) (rq_large_project_mode r)
            = Some b /\ (b = true -> exists i, impact = Some i /\ only_unreachable r i).
Proof.
  unfold can_reuse_artifacts_for_unreachable_impl_only_changes, only_unreachable.
  destruct impact as [i|]; [|by exists false].
  case_match eqn:Ec; [by exists false|]. split_matches.
  destruct (changed_functions i) as [|c0 cs] eqn:Ech; [by exists false|]. rewrite <- Ech.
  case_match; [by exists false|].
  destruct (List.filter _ (changed_functions i)) as [|f0 fs] eqn:Ef; [by exists false|]. rewrite <- Ef.
  pose proof (reachable_spec (rq_graph r)) as Hr. cbn zeta in Hr. case_decide; [|rewrite Hr; by exists false].
  destruct Hr as (reachable & -> & Hr). eexists. split; [done|]. intros Hb. exists i. split; [done|]. split; [done|].
  rewrite forallb_forall in Hb. intros f Hf Hp Hreach. apply Hr in Hreach.
  assert (In f (List.filter (String.prefix (root_module (rq_graph r) +:+ "::")) (changed_functions i))) as Hin.
  { apply filter_In. by rewrite <- list_elem_of_In. }
  apply Hb, negb_true_iff, bool_decide_eq_false in Hin. done.
Qed.

Section decision.
Context `{HashOrder} `{DefaultHasher} (artifact_exists : BuildCacheMetadata -> bool) (mode min_functions : option string).
Context (r : BuildRequest) (stats : GenericInstancePlanStats).

(** What a plan may rely on. *)
Definition reuse_justified (seed previous : option BuildCacheMetadata) (impact : option EditImpact) : Prop :=
  exists m i, previous = Some m /\ seed = Some m /\ impact = Some i /\ same_runtime m r /\
    (same_options m r /\ same_root m r \/ only_cached_generics stats r i \/ only_unreachable r i).

(** The edit was classified against the metadata of the seed. *)
Definition classified (seed : option BuildCacheMetadata) (impact : option EditImpact) : Prop :=
  impact = None \/ exists m, seed = Some m /\
    impact = classify_edit_impact (bm_root_interface_hash m) (bm_root_implementation_hash m)
      (rq_root_interface_hash r) (rq_root_implementation_hash r)
      (bm_module_fingerprints m) (rq_module_fingerprints r) (bm_build_graph m) (rq_graph r).

Lemma plan_for_sound seed previous impact :
  (forall m, previous = Some m -> seed = Some m /\ same_runtime m r) -> classified seed impact ->
  exists plan, plan_for mode min_functions r stats previous impact = Some plan /\
    (plan = ReusePreviousArtifacts -> reuse_justified seed previous impact) /\
    (previous = None -> plan = FullRebuild).
Proof.
  intros Hp Hc. unfold plan_for. destruct previous as [m|]; [|by exists FullRebuild].
  destruct (Hp m eq_refl) as [Hs Hrt]. destruct (can_skip_codegen_via_generic_cache _ _ _) eqn:Eg.
  { eexists. split; [done|]. split; [|done]. intros _. destruct (skip_generics _ _ _ Eg) as (i & -> & Hi).
    exists m, i. eauto 10. }
  destruct (skip_unreachable mode min_functions impact r) as ([] & -> & Hb).
  { eexists. split; [done|]. split; [|done]. intros _. destruct (Hb eq_refl) as (i & -> & Hi). exists m, i. eauto 10. }
  eexists. split; [done|]. split; [|done]. intros [Ho Hd]%plan_same_options.
  destruct Hc as [->|(m' & Hm' & Hc)]; [done|]. rewrite Hs in Hm'. injection Hm' as <-.
  destruct impact as [i|]; [|done]. exists m, i. do 4 (split; [done|]). left. split; [done|].
  symmetry in Hc. by apply reuse_plan_root in Hc.
Qed.
End decision.

Lemma decide_build_justified `{HashOrder} `{DefaultHasher} (artifact_exists : BuildCacheMetadata -> bool)
    (mode min_functions : option string) (r : BuildRequest) (stats : GenericInstancePlanStats)
    (seed : option BuildCacheMetadata) :
  exists d, decide_build artifact_exists mode min_functions r stats seed = Some d /\
    (forall m, d = UseCache m -> seed = Some m /\ artifact_exists m = true /\
       bm_source_hash m = rq_root_implementation_hash r /\ bm_module_fingerprints m = rq_module_fingerprints r /\
       same_options m r /\ same_runtime m r) /\
    (forall previous impact, d = FollowPlan ReusePreviousArtifacts previous impact ->
       reuse_justified r stats seed previous impact) /\
    (rq_low_memory r || rq_force_rebuild r = true -> d = FollowPlan FullRebuild None None).
Proof.
  assert (forall previous impact,
    (forall m, previous = Some m -> seed = Some m /\ same_runtime m r) -> classified r seed impact ->
    exists plan, plan_for mode min_functions r stats previous impact = Some plan /\
      (plan = ReusePreviousArtifacts -> reuse_justified r stats seed previous impact) /\ (previous = None -> plan = FullRebuild)) as Hf
    by (intros; by apply plan_for_sound).
  unfold decide_build. destruct (rq_low_memory r) eqn:El, (rq_force_rebuild r) eqn:Er; cbn [orb].
  1-3: by exists (FollowPlan FullRebuild None None).
  destruct seed as [m|]; [|by exists (FollowPlan FullRebuild None None)].
  assert (forall m', usable_metadata r m = Some m' -> Some m = Some m' /\ same_runtime m' r) as Hu.
  { intros m' [-> ?]%usable_same. done. }
  destruct (build_metadata_matches m (request_key r)) eqn:Em; [destruct (artifact_exists m) eqn:Ea|].
  - exists (UseCache m). apply build_matches in Em. naive_solver.
  - destruct (Hf (usable_metadata r m) None) as (plan & -> & Hj & _); [done|by left|]. eexists. split; [done|]. naive_solver.
  - destruct (classify_spec (bm_root_interface_hash m) (bm_root_implementation_hash m) (rq_root_interface_hash r)
      (rq_root_implementation_hash r) (bm_module_fingerprints m) (rq_module_fingerprints r) (bm_build_graph m) (rq_graph r))
      as (i & Hi & _). rewrite Hi. cbn.
    destruct (Hf (usable_metadata r m) (Some i)) as (plan & -> & Hj & _); [done|right; by exists m|].
    eexists. split; [done|]. naive_solver.
Qed.

(** ** The target

    The cache does not record the target.  For native code it is one of the
    inputs of the runtime's fingerprint, so that a change can go unnoticed only
    if two fingerprints collide. *)

Definition with_target (target : string) (r : BuildRequest) : BuildRequest :=
  mkRequest (rq_root_interface_hash r) (rq_root_implementation_hash r) (rq_module_fingerprints r) (rq_graph r)
    (rq_opt_level r) (rq_contract_checks r) (rq_debug_info r) (rq_emit_llvm r) (rq_low_memory r) (rq_force_rebuild r)
    target (rq_machine r) (rq_stem r) (rq_build_file r) (rq_output r) (rq_large_project_mode r).

Section target.
Context `{DefaultHasher}.

(** What the two fingerprints of a native build are made of. *)
Definition runtime_inputs (r : BuildRequest) : option Z * option Z :=
  (Some (hash_inputs (native_inputs r)), (native_runtime_cache_context (rq_machine r) (rq_target r)).1).

Definition fingerprints_collide (a b : BuildRequest) : Prop :=
  native_inputs a <> native_inputs b /\ hash_inputs (native_inputs a) = hash_inputs (native_inputs b) \/
  runtime_inputs a <> runtime_inputs b /\ uncurry hash_pair (runtime_inputs a) = uncurry hash_pair (runtime_inputs b).

Lemma native_identity r : rq_emit_llvm r = false ->
  id_fingerprint (rq_runtime_c r) = Some (uncurry hash_pair (runtime_inputs r)).
Proof. intros He. unfold rq_runtime_c, runtime_inputs. rewrite He. by destruct (native_runtime_cache_context _ _). Qed.

Lemma same_runtime_target a b hash : rq_emit_llvm a = false -> rq_emit_llvm b = false ->
  same_runtime (saved_metadata a hash) b -> rq_target a = rq_target b \/ fingerprints_collide a b.
Proof.
  unfold same_runtime. cbn. intros Ha Hb [Hf _]. rewrite !native_identity in Hf by done. injection Hf as Hf.
  unfold fingerprints_collide. destruct (decide (runtime_inputs a = runtime_inputs b)) as [E|]; [|tauto].
  destruct (decide (rq_target a = rq_target b)) as [|Ht]; [by left|right; left]. injection E as E _.
  split; [|done]. intros En. by apply Ht, (f_equal ni_triple En).
Qed.
End target.

(** C34: the decision of the build command.  It always comes to one.  The cached
    artifact is used as it is only if it exists and its metadata has the
    root source, the modules and the recorded options of the request: the cache's
    schema, the optimisation level, contract checks, debug information,
    --emit-llvm, the output path, and the runtime with its fingerprint and
    provenance.  A plan to reuse the artifacts has metadata for the same
    runtime; and either the options are the same and the root source has not
    changed, or one of the two shortcuts applies.  The target is not recorded; but
    if both the earlier and this build make native code, what is reused was
    built for the same target, or the fingerprints of the two builds
    collide.  (With --emit-llvm it may be any: [emit_llvm_ignores_target].)
    With --low-memory or --force-rebuild all is built. *)
Theorem build_decision_sound `{HashOrder} `{DefaultHasher} (artifact_exists : BuildCacheMetadata -> bool)
    (mode min_functions : option string) (r : BuildRequest) (stats : GenericInstancePlanStats)
    (seed : option BuildCacheMetadata) :
  exists d, decide_build artifact_exists mode min_functions r stats seed = Some d /\
    (forall m, d = UseCache m -> seed = Some m /\ artifact_exists m = true /\
       bm_source_hash m = rq_root_implementation_hash r /\ bm_module_fingerprints m = rq_module_fingerprints r /\
       same_options m r /\ same_runtime m r) /\
    (forall previous impact, d = FollowPlan ReusePreviousArtifacts previous impact ->
       reuse_justified r stats seed previous impact) /\
    (forall earlier hash impact,
       d = UseCache (saved_metadata earlier hash) \/
       d = FollowPlan ReusePreviousArtifacts (Some (saved_metadata earlier hash)) impact ->
       rq_emit_llvm earlier = false -> rq_emit_llvm r = false ->
       rq_target earlier = rq_target r \/ fingerprints_collide earlier r) /\
    (rq_low_memory r || rq_force_rebuild r = true -> d = FollowPlan FullRebuild None None).
Proof.
  destruct (decide_build_justified artifact_exists mode min_functions r stats seed) as (d & Hd & Hc & Hp & Hf).
  exists d. split; [done|]. split; [done|]. split; [done|]. split; [|done].
  intros earlier hash impact Hm He Hr. apply (same_runtime_target _ _ hash He Hr).
  destruct Hm as [Hm|Hm]; [by apply Hc in Hm as (_ & _ & _ & _ & _ & ?)|].
  apply Hp in Hm as (m & i & [= <-] & _ & _ & ? & _). done.
Qed.

(** With --emit-llvm nothing that depends on the target is compared: after a
    build for one target, the text is handed out for every other one. *)
Theorem emit_llvm_ignores_target `{HashOrder} `{DefaultHasher} artifact_exists mode min_functions r stats hash target :
  rq_emit_llvm r = true -> rq_low_memory r = false -> rq_force_rebuild r = false ->
  artifact_exists (saved_metadata r hash) = true ->
  decide_build artifact_exists mode min_functions (with_target target r) stats (Some (saved_metadata r hash))
  = Some (UseCache (saved_metadata r hash)).
Proof.
  intros He Hl Hf Ha. unfold decide_build. cbn [with_target rq_low_memory rq_force_rebuild]. rewrite Hl, Hf.
  assert (request_key (with_target target r) = request_key r) as ->.
  { unfold request_key, rq_runtime_c, rq_output_file. cbn. by rewrite He. }
  assert (build_metadata_matches (saved_metadata r hash) (request_key r) = true) as -> by
    (unfold build_metadata_matches; cbn; by rewrite !bool_decide_eq_true_2).
  by rewrite Ha.
Qed.

(** ** Where the shortcuts go wrong *)

Section shortcuts.
Local Existing Instance hash_order_elements.

Definition fn_of (symbol : string) (body : Z) (callees : list string) : FunctionFingerprint :=
  mkFunction symbol 1 body callees [].
(** [main] calls [used] of an imported module, and not [spare]. *)
Definition two_module_graph (spare_body used_body : Z) : BuildGraphV2 :=
  mkGraph BUILD_GRAPH_SCHEMA_VERSION "root"
    [mkNode "root" 1 spare_body ["lib"] None
       [fn_of "root::main" 1 ["lib::used"]; fn_of "root::spare" spare_body []] [] [];
     mkNode "lib" 1 used_body [] None [fn_of "lib::used" used_body []] [] []].

Definition from_source : NativeRuntimeProvenance :=
  mkProvenance "source-development" "source-cargo-development" false false None.
Definition test_machine : Machine :=
  mkMachine (Some "runtime.c") (fun _ => 3%Z) 4%Z (fun _ _ => [5%Z]) (fun _ => (Some 6%Z, from_source)).
#[local] Instance test_hasher : DefaultHasher := {|
  hash_inputs i := (Z.of_nat (String.length (ni_triple i)) + 100 * ni_opt_level i)%Z;
  hash_pair a b := (default 0 a * 1000 + default 0 b)%Z;
|}.
Definition host : string := "x86_64-unknown-linux-gnu".
Definition request_of (spare_body used_body : Z) (output : string) (emit_llvm : bool) (target : string) : BuildRequest :=
  mkRequest 1 (10 * spare_body + used_body) [mkFingerprint "lib" 1 used_body] (two_module_graph spare_body used_body)
    0 true false emit_llvm false false target test_machine "root" (fun file => "build/" +:+ file) (Some output) (Some true).

Definition native spare_body used_body output : BuildRequest := request_of spare_body used_body output false host.

Definition plan_of (d : BuildDecision) : option BuildWorksetPlan :=
  match d with UseCache _ => None | FollowPlan p _ _ => Some p end.
Definition decide_after (old new : BuildRequest) : option (option BuildWorksetPlan) :=
  plan_of <$> decide_build (fun _ => true) None (Some "2") new no_stats (Some (saved_metadata old 77)).

(** Changing a function that [main] calls rebuilds the program... *)
Example used_change_rebuilds : decide_after (native 1 1 "a.out") (native 1 2 "a.out") = Some (Some RebuildImpactedRoot).
Proof. vm_compute. reflexivity. Qed.

(** ... but not if an unreachable function of the root changed as well: the
    shortcut looks at the changed functions of the root only. *)
Theorem unreachable_shortcut_ignores_imports :
  decide_after (native 1 1 "a.out") (native 2 2 "a.out") = Some (Some ReusePreviousArtifacts).
Proof. vm_compute. reflexivity. Qed.

(** The output path changed, so that the plan is a full rebuild; the shortcut
    replaces it, and nothing is written to the new path. *)
Theorem unreachable_shortcut_ignores_options :
  decide_after (native 1 1 "a.out") (native 2 1 "b.out") = Some (Some ReusePreviousArtifacts) /\
  decide_after (native 1 1 "a.out") (native 1 1 "b.out") = Some (Some FullRebuild).
Proof. split; vm_compute; reflexivity. Qed.

(** Another target: the native program is built again, the LLVM text is not. *)
Example other_target :
  let windows := "x86_64-pc-windows-msvc" in
  decide_after (native 1 1 "a.out") (with_target windows (native 1 1 "a.out")) = Some (Some FullRebuild) /\
  decide_after (request_of 1 1 "a.ll" true host) (request_of 1 1 "a.ll" true windows) = Some None.
Proof. split; vm_compute; reflexivity. Qed.
End shortcuts.
