(* ===== verification/Ast.v ===== *)
(** The abstract syntax tree: compiler/src/ast (mod.rs, expr.rs, stmt.rs,
    op.rs, ty.rs, param.rs, decl.rs) with [Span] of lexer/token.rs.

    The tree is one recursive knot, [Expr] with [Decl]: a block holds
    statements, a statement holds expressions or a declaration, and a
    declaration holds blocks again.  Each struct and enum of the source is a
    type of its own over the expressions [E] and declarations [D] it holds,
    and the knot is tied at the end.  [f64] is its bit pattern, [char] its
    code point.  A pass over expressions is a [Fixpoint] on [Expr] whose
    cases for blocks, statements and arms are separate definitions;
    [Expr_children_ind] is the one-case induction principle that goes with
    it. *)

From S2P Require Import Prelude.

(** ** Positions and names *)

Record Span := mkSpan { span_lo : Z; span_hi : Z }.

Definition span_new (lo hi : Z) : Span := mkSpan lo hi.
Definition span_dummy : Span := mkSpan 0 0.
Definition span_merge (a b : Span) : Span :=
  mkSpan (Z.min (span_lo a) (span_lo b)) (Z.max (span_hi a) (span_hi b)).

#[export] Instance Span_eq_dec : EqDecision Span.
Proof. solve_decision. Defined.

Notation SymbolId := Z (only parsing).

Definition SYMBOL_INVALID : SymbolId := (2 ^ 32 - 1)%Z.

Record Ident := mkIdent { ident_name : string; ident_symbol : SymbolId; ident_span : Span }.

Definition ident_with_symbol (name : string) (symbol : SymbolId) (span : Span) : Ident :=
  mkIdent name symbol span.
Definition ident_new (name : string) (span : Span) : Ident :=
  ident_with_symbol name SYMBOL_INVALID span.

(** [PartialEq] of identifiers ignores the symbol. *)
Definition ident_eqb (a b : Ident) : bool :=
  bool_decide (ident_name a = ident_name b) && bool_decide (ident_span a = ident_span b).

Record Path := mkPath { path_segments : list Ident; path_span : Span }.

Definition is_simple (p : Path) : bool := Nat.eqb (length (path_segments p)) 1.
Definition as_simple (p : Path) : option Ident :=
  if is_simple p then head (path_segments p) else None.
Definition path_from_str (name : string) (span : Span) : Path :=
  mkPath [ident_new name span] span.

Inductive Visibility := Public | Private.

(** ** Literals and operators *)

Inductive Literal :=
| LInt (z : Z)
| LUint (z : Z)
| LFloat (bits : Z)
| LString (s : string)
| LChar (code : Z)
| LBytes (bytes : list Z)
| LBool (b : bool)
| LNull
| LUnit.

Inductive BinOp :=
| BAdd | BSub | BMul | BDiv | BMod
| BBitAnd | BBitOr | BBitXor | BShl | BShr
| BAnd | BOr
| BEq | BNotEq | BLt | BLe | BGt | BGe
| BPipe | BCompose
| BRange | BRangeInclusive.

Inductive UnOp := Plus | Neg | Not | BitNot | Deref | Ref | RefMut | DerefMut.

Inductive AssignOp :=
| AAssign
| AAddAssign | ASubAssign | AMulAssign | ADivAssign | AModAssign
| ABitAndAssign | ABitOrAssign | ABitXorAssign | AShlAssign | AShrAssign
| APipeAssign.

#[export] Instance BinOp_eq_dec : EqDecision BinOp.
Proof. solve_decision. Defined.
#[export] Instance UnOp_eq_dec : EqDecision UnOp.
Proof. solve_decision. Defined.
#[export] Instance AssignOp_eq_dec : EqDecision AssignOp.
Proof. solve_decision. Defined.

Definition is_logical (o : BinOp) : bool := match o with BAnd | BOr => true | _ => false end.

(** Binding strength of a binary operator, larger binds tighter. *)
Definition precedence (o : BinOp) : Z :=
  match o with
  | BRange | BRangeInclusive => 3
  | BOr => 4
  | BAnd => 5
  | BEq | BNotEq | BLt | BLe | BGt | BGe => 6
  | BBitOr => 7
  | BBitXor => 8
  | BBitAnd => 9
  | BShl | BShr => 10
  | BAdd | BSub => 11
  | BMul | BDiv | BMod => 12
  | BPipe | BCompose => 2
  end.

Definition to_binop (o : AssignOp) : option BinOp :=
  match o with
  | AAddAssign => Some BAdd
  | ASubAssign => Some BSub
  | AMulAssign => Some BMul
  | ADivAssign => Some BDiv
  | AModAssign => Some BMod
  | ABitAndAssign => Some BBitAnd
  | ABitOrAssign => Some BBitOr
  | ABitXorAssign => Some BBitXor
  | AShlAssign => Some BShl
  | AShrAssign => Some BShr
  | _ => None
  end.

(** ** Type annotations *)

Record TraitAssocBinding (T : Type) := mkTraitAssocBinding { tab_name : string; tab_ty : T }.

Record TraitBound (T : Type) := mkTraitBound {
  tb_path : Path;
  tb_params : list T;
  tb_assoc_bindings : list (TraitAssocBinding T);
}.

Inductive TypeKind (T : Type) :=
| KSelfType
| KPath (path : Path)
| KPathWithArgs (path : Path) (args : list T)
| KTuple (types : list T)
| KArray (elem : T) (len : Z)
| KSlice (elem : T)
| KPtr (base : T) (is_mut : bool)
| KRef (base : T) (is_mut : bool)
| KFn (params : list T) (ret : option T)
| KNever
| KInfer
| KDyn (bounds : list (TraitBound T))
| KImplTrait (bounds : list (TraitBound T)).

Inductive AstType := mkAstType (kind : TypeKind AstType) (span : Span).

Record TypeParam := mkTypeParam {
  tp_name : Ident;
  tp_bounds : list (TraitBound AstType);
  tp_default : option AstType;
}.

Record Param := mkParam { param_name : Ident; param_ty : AstType; param_is_mut : bool; param_span : Span }.

Inductive SelfParam := Borrowed | BorrowedMut | Owned | OwnedMut.

(** ** Patterns *)

Inductive RangeEnd := Inclusive | Exclusive | HalfOpen.

Record StructPatternField (P : Type) := mkStructPatternField {
  spf_name : Ident;
  spf_pattern : P;
  spf_shorthand : bool;
}.

Inductive PatternKind (P : Type) :=
| PWildcard
| PLiteral (l : Literal)
| PIdent (i : Ident)
| PPath (p : Path)
| PStruct (path : Path) (fields : list (StructPatternField P)) (rest : bool)
| PTupleStruct (path : Path) (patterns : list P)
| PTuple (patterns : list P)
| PSlice (patterns : list P) (rest : option P)
| PRange (lo hi : P) (end_ : RangeEnd)
| POr (patterns : list P).

Inductive Pattern := mkPattern (kind : PatternKind Pattern) (span : Span).

(** ** Statements, blocks and the parts of expressions *)

Inductive StmtKind (E D : Type) :=
| SLet (name : Ident) (ty : option AstType) (value : option E) (is_mut : bool)
| SConst (name : Ident) (ty : AstType) (value : E)
| SExpr (e : E)
| SItem (d : D).

Record Stmt (E D : Type) := mkStmt { stmt_kind : StmtKind E D; stmt_span : Span }.

Record Block (E D : Type) := mkBlock { block_stmts : list (Stmt E D); block_span : Span }.

Inductive FieldName := FieldIdent (i : Ident) | FieldString (s : string).

Record FieldValue (E : Type) := mkFieldValue { fv_name : FieldName; fv_value : E; fv_span : Span }.

Record MatchArm (E : Type) := mkMatchArm {
  arm_patterns : list Pattern;
  arm_guard : option E;
  arm_body : E;
  arm_span : Span;
}.

(** ** Expressions *)

Inductive ExprKind (E D : Type) :=
| ELiteral (l : Literal)
| EIdent (i : Ident)
| EPath (p : Path)
| EBinary (op : BinOp) (left_ right_ : E)
| EUnary (op : UnOp) (operand : E)
| ECall (func : E) (args : list E)
| EMethodCall (receiver : E) (method : Ident) (args : list E)
| EBlock (b : Block E D)
| EIf (cond : E) (then_branch : Block E D) (else_branch : option E)
| EWhile (cond : E) (body : Block E D)
| EFor (pattern : Pattern) (iter : E) (body : Block E D)
| ELoop (body : Block E D)
| EMatch (scrutinee : E) (arms : list (MatchArm E))
| EReturn (value : option E)
| EBreak (value : option E)
| EContinue
| EYield (value : option E)
| EAwait (base : E)
| EAsyncBlock (b : Block E D)
| EParallelBlock (b : Block E D)
| EIndex (base index : E)
| EField (base : E) (field : Ident)
| EArray (elems : list E)
| ETuple (elems : list E)
| EStruct (path : Path) (fields : list (FieldValue E)) (base : option E)
| EAssign (target value : E)
| EAssignOp (op : AssignOp) (target value : E)
| ERange (start end_ : option E) (inclusive : bool)
| ELambda (params : list Ident) (body : E)
| ETry (e : E)
| ETryBlock (b : Block E D)
| ECast (e : E) (ty : AstType)
| EIs (e : E) (ty : AstType)
| EParen (e : E).

(** ** Declarations *)

Record Function_ (E D : Type) := mkFunction {
  fn_vis : Visibility;
  fn_name : Ident;
  fn_type_params : list TypeParam;
  fn_params : list Param;
  fn_self_param : option SelfParam;
  fn_return_type : option AstType;
  fn_precondition : option E;
  fn_postcondition : option E;
  fn_body : Block E D;
  fn_is_async : bool;
  fn_abi : option string;
  fn_is_unsafe : bool;
  fn_no_mangle : bool;
  fn_export_name : option string;
  fn_span : Span;
}.

Record ExternFunction := mkExternFunction {
  xf_vis : Visibility;
  xf_name : Ident;
  xf_type_params : list TypeParam;
  xf_params : list Param;
  xf_return_type : option AstType;
  xf_is_unsafe : bool;
  xf_span : Span;
}.

Record ExternStatic := mkExternStatic {
  xs_vis : Visibility;
  xs_is_mut : bool;
  xs_name : Ident;
  xs_ty : AstType;
  xs_span : Span;
}.

Inductive ExternItem := XFunction (f : ExternFunction) | XStatic (s : ExternStatic).

Record ExternBlock := mkExternBlock {
  xb_abi : string;
  xb_link_name : option string;
  xb_items : list ExternItem;
  xb_span : Span;
}.

Record StructField := mkStructField {
  sf_vis : Visibility;
  sf_name : option Ident;
  sf_ty : AstType;
  sf_span : Span;
}.

Record Struct := mkStruct {
  st_vis : Visibility;
  st_name : Ident;
  st_type_params : list TypeParam;
  st_fields : list StructField;
  st_span : Span;
}.

Inductive VariantField := VNamed (i : Ident) (ty : AstType) | VUnnamed (ty : AstType).

Record EnumVariant (E : Type) := mkEnumVariant {
  ev_name : Ident;
  ev_fields : list VariantField;
  ev_discriminant : option E;
  ev_span : Span;
}.

Record Enum (E : Type) := mkEnum {
  en_vis : Visibility;
  en_name : Ident;
  en_type_params : list TypeParam;
  en_variants : list (EnumVariant E);
  en_span : Span;
}.

Inductive ClassMember (E D : Type) := CMField (f : StructField) | CMMethod (f : Function_ E D).

Record Class_ (E D : Type) := mkClass {
  cl_vis : Visibility;
  cl_name : Ident;
  cl_type_params : list TypeParam;
  cl_extends : option Path;
  cl_implements : list (TraitBound AstType);
  cl_members : list (ClassMember E D);
  cl_span : Span;
}.

Record Const (E : Type) := mkConst {
  co_vis : Visibility;
  co_name : Ident;
  co_ty : AstType;
  co_value : E;
  co_span : Span;
}.

Record AssociatedTypeDecl := mkAssociatedTypeDecl { at_name : Ident; at_span : Span }.

Inductive TraitItem (E D : Type) :=
| TIFunction (f : Function_ E D)
| TIConst (c : Const E)
| TIType (t : AssociatedTypeDecl).

Record Trait (E D : Type) := mkTrait {
  tr_vis : Visibility;
  tr_name : Ident;
  tr_type_params : list TypeParam;
  tr_bounds : list (TraitBound AstType);
  tr_items : list (TraitItem E D);
  tr_span : Span;
}.

Record TypeAlias := mkTypeAlias {
  ta_vis : Visibility;
  ta_name : Ident;
  ta_type_params : list TypeParam;
  ta_ty : AstType;
  ta_span : Span;
}.

Record Impl (E D : Type) := mkImpl {
  im_vis : Visibility;
  im_type_params : list TypeParam;
  im_target_type : AstType;
  im_trait_path : option Path;
  im_trait_args : list AstType;
  im_is_negative : bool;
  im_associated_types : list TypeAlias;
  im_items : list (Function_ E D);
  im_span : Span;
}.

Record Static (E : Type) := mkStatic {
  sc_vis : Visibility;
  sc_is_mut : bool;
  sc_name : Ident;
  sc_ty : AstType;
  sc_value : E;
  sc_span : Span;
}.

Inductive ImportKind := Simple | Wildcard | Selective (names : list Ident).

Record Import_ := mkImport {
  ip_path : Path;
  ip_alias : option Ident;
  ip_kind : ImportKind;
  ip_span : Span;
}.

Record Module_ (D : Type) := mkModule {
  mo_vis : Visibility;
  mo_name : Ident;
  mo_items : list D;
  mo_span : Span;
}.

Inductive DeclKind (E D : Type) :=
| DFunction (f : Function_ E D)
| DStruct (s : Struct)
| DEnum (e : Enum E)
| DClass (c : Class_ E D)
| DTrait (t : Trait E D)
| DImpl (i : Impl E D)
| DTypeAlias (t : TypeAlias)
| DConst (c : Const E)
| DStatic (s : Static E)
| DImport (i : Import_)
| DExternBlock (b : ExternBlock)
| DModule (m : Module_ D).

(** ** The knot *)

Inductive Expr := mkExpr (kind : ExprKind Expr Decl) (span : Span)
with Decl := mkDecl (kind : DeclKind Expr Decl) (span : Span).

Definition expr_kind (e : Expr) : ExprKind Expr Decl := match e with mkExpr k _ => k end.
Definition expr_span (e : Expr) : Span := match e with mkExpr _ s => s end.
Definition decl_kind (d : Decl) : DeclKind Expr Decl := match d with mkDecl k _ => k end.

Notation AStmt := (Stmt Expr Decl) (only parsing).
Notation ABlock := (Block Expr Decl) (only parsing).
Notation AExprKind := (ExprKind Expr Decl) (only parsing).

Record Program := mkProgram { program_decls : list Decl }.

Arguments SLet {E D}.
Arguments SConst {E D}.
Arguments SExpr {E D}.
Arguments SItem {E D}.
Arguments mkStmt {E D}.
Arguments stmt_kind {E D}.
Arguments stmt_span {E D}.
Arguments mkBlock {E D}.
Arguments block_stmts {E D}.
Arguments block_span {E D}.
Arguments mkFieldValue {E}.
Arguments fv_name {E}.
Arguments fv_value {E}.
Arguments fv_span {E}.
Arguments mkMatchArm {E}.
Arguments arm_patterns {E}.
Arguments arm_guard {E}.
Arguments arm_body {E}.
Arguments arm_span {E}.
Arguments ELiteral {E D}.
Arguments EIdent {E D}.
Arguments EPath {E D}.
Arguments EBinary {E D}.
Arguments EUnary {E D}.
Arguments ECall {E D}.
Arguments EMethodCall {E D}.
Arguments EBlock {E D}.
Arguments EIf {E D}.
Arguments EWhile {E D}.
Arguments EFor {E D}.
Arguments ELoop {E D}.
Arguments EMatch {E D}.
Arguments EReturn {E D}.
Arguments EBreak {E D}.
Arguments EContinue {E D}.
Arguments EYield {E D}.
Arguments EAwait {E D}.
Arguments EAsyncBlock {E D}.
Arguments EParallelBlock {E D}.
Arguments EIndex {E D}.
Arguments EField {E D}.
Arguments EArray {E D}.
Arguments ETuple {E D}.
Arguments EStruct {E D}.
Arguments EAssign {E D}.
Arguments EAssignOp {E D}.
Arguments ERange {E D}.
Arguments ELambda {E D}.
Arguments ETry {E D}.
Arguments ETryBlock {E D}.
Arguments ECast {E D}.
Arguments EIs {E D}.
Arguments EParen {E D}.
Arguments DFunction {E D}.
Arguments fn_body {E D}.

(** ** Constructors of [impl Expr] and [impl Stmt] *)

Definition expr_literal (l : Literal) (s : Span) : Expr := mkExpr (ELiteral l) s.
Definition expr_ident (name : string) (s : Span) : Expr := mkExpr (EIdent (ident_new name s)) s.
Definition expr_path (p : Path) : Expr := mkExpr (EPath p) (path_span p).
Definition expr_binary (op : BinOp) (l r : Expr) (s : Span) : Expr := mkExpr (EBinary op l r) s.
Definition expr_unary (op : UnOp) (e : Expr) (s : Span) : Expr := mkExpr (EUnary op e) s.
Definition expr_call (f : Expr) (args : list Expr) (s : Span) : Expr := mkExpr (ECall f args) s.
Definition expr_method_call (r : Expr) (m : Ident) (args : list Expr) (s : Span) : Expr :=
  mkExpr (EMethodCall r m args) s.
Definition expr_block (b : ABlock) : Expr := mkExpr (EBlock b) (block_span b).
Definition expr_if (c : Expr) (t : ABlock) (o : option Expr) (s : Span) : Expr := mkExpr (EIf c t o) s.
Definition expr_while (c : Expr) (b : ABlock) (s : Span) : Expr := mkExpr (EWhile c b) s.
Definition expr_for (p : Pattern) (i : Expr) (b : ABlock) (s : Span) : Expr := mkExpr (EFor p i b) s.
Definition expr_loop (b : ABlock) (s : Span) : Expr := mkExpr (ELoop b) s.
Definition expr_match (x : Expr) (arms : list (MatchArm Expr)) (s : Span) : Expr := mkExpr (EMatch x arms) s.
Definition expr_return (o : option Expr) (s : Span) : Expr := mkExpr (EReturn o) s.
Definition expr_break (o : option Expr) (s : Span) : Expr := mkExpr (EBreak o) s.
Definition expr_continue (s : Span) : Expr := mkExpr EContinue s.
Definition expr_yield (o : option Expr) (s : Span) : Expr := mkExpr (EYield o) s.
Definition expr_await (e : Expr) (s : Span) : Expr := mkExpr (EAwait e) s.
Definition expr_async_block (b : ABlock) (s : Span) : Expr := mkExpr (EAsyncBlock b) s.
Definition expr_parallel_block (b : ABlock) (s : Span) : Expr := mkExpr (EParallelBlock b) s.
Definition expr_index (b i : Expr) (s : Span) : Expr := mkExpr (EIndex b i) s.
Definition expr_field (b : Expr) (f : Ident) (s : Span) : Expr := mkExpr (EField b f) s.
Definition expr_array (es : list Expr) (s : Span) : Expr := mkExpr (EArray es) s.
Definition expr_tuple (es : list Expr) (s : Span) : Expr := mkExpr (ETuple es) s.
Definition expr_struct (p : Path) (fs : list (FieldValue Expr)) (b : option Expr) (s : Span) : Expr :=
  mkExpr (EStruct p fs b) s.
Definition expr_assign (t v : Expr) (s : Span) : Expr := mkExpr (EAssign t v) s.
Definition expr_assign_op (op : AssignOp) (t v : Expr) (s : Span) : Expr := mkExpr (EAssignOp op t v) s.
Definition expr_range (a b : option Expr) (inclusive : bool) (s : Span) : Expr :=
  mkExpr (ERange a b inclusive) s.
Definition expr_try (e : Expr) (s : Span) : Expr := mkExpr (ETry e) s.
Definition expr_try_block (b : ABlock) (s : Span) : Expr := mkExpr (ETryBlock b) s.
Definition expr_cast (e : Expr) (t : AstType) (s : Span) : Expr := mkExpr (ECast e t) s.
Definition expr_is (e : Expr) (t : AstType) (s : Span) : Expr := mkExpr (EIs e t) s.
Definition expr_paren (e : Expr) (s : Span) : Expr := mkExpr (EParen e) s.

Definition stmt_let (name : Ident) (ty : option AstType) (value : option Expr) (s : Span) : AStmt :=
  mkStmt (SLet name ty value false) s.
Definition stmt_const (name : Ident) (ty : AstType) (value : Expr) (s : Span) : AStmt :=
  mkStmt (SConst name ty value) s.
Definition stmt_expr (e : Expr) : AStmt := mkStmt (SExpr e) (expr_span e).

(** ** Direct sub-expressions

    [children k] lists the expressions directly below a node, in source
    order; those of a block are the ones of its statements.  Declarations
    nested in a block are separate functions and not part of the list. *)

Definition opt_exprs (o : option Expr) : list Expr := match o with Some e => [e] | None => [] end.

Definition stmt_exprs (s : AStmt) : list Expr :=
  match stmt_kind s with
  | SLet _ _ v _ => opt_exprs v
  | SConst _ _ v => [v]
  | SExpr e => [e]
  | SItem _ => []
  end.

Definition block_exprs (b : ABlock) : list Expr := flat_map stmt_exprs (block_stmts b).

Definition arm_exprs (a : MatchArm Expr) : list Expr := opt_exprs (arm_guard a) ++ [arm_body a].

Definition expr_children (k : AExprKind) : list Expr :=
  match k with
  | ELiteral _ | EIdent _ | EPath _ | EContinue => []
  | EBinary _ l r | EIndex l r | EAssign l r | EAssignOp _ l r => [l; r]
  | EUnary _ e | EAwait e | EField e _ | ELambda _ e | ETry e | ECast e _ | EIs e _ | EParen e => [e]
  | ECall f args => f :: args
  | EMethodCall r _ args => r :: args
  | EBlock b | ELoop b | EAsyncBlock b | EParallelBlock b | ETryBlock b => block_exprs b
  | EIf c t o => c :: block_exprs t ++ opt_exprs o
  | EWhile c b | EFor _ c b => c :: block_exprs b
  | EMatch s arms => s :: flat_map arm_exprs arms
  | EReturn o | EBreak o | EYield o => opt_exprs o
  | EArray es | ETuple es => es
  | EStruct _ fs o => map fv_value fs ++ opt_exprs o
  | ERange a b _ => opt_exprs a ++ opt_exprs b
  end.

Section Expr_induction.
Context (P : Expr -> Prop).
Context (H : forall k s, Forall P (expr_children k) -> P (mkExpr k s)).

Lemma Expr_children_ind : forall e, P e.
Proof.
  fix IH 1. intros [k s]. apply H.
  assert (Hl : forall l, Forall P l).
  { fix IHl 1. intros [|x l]; constructor; [apply IH|apply IHl]. }
  assert (Hs : forall s, Forall P (stmt_exprs s)).
  { intros [[? ? o ?|? ? e|e|d] sp]; cbn.
    - destruct o; repeat constructor; apply IH.
    - repeat constructor; apply IH.
    - repeat constructor; apply IH.
    - constructor. }
  assert (Hb : forall b, Forall P (block_exprs b)).
  { intros [l sp]. unfold block_exprs; cbn [block_stmts].
    revert l. fix IHl 1. intros [|x l]; cbn [flat_map]; [constructor|].
    apply Forall_app_2; [apply Hs|apply IHl]. }
  assert (Ha : forall l, Forall P (flat_map arm_exprs l)).
  { fix IHl 1. intros [|[ps g bd sp] l]; cbn [flat_map]; [constructor|].
    apply Forall_app_2; [|apply IHl]. unfold arm_exprs; cbn.
    apply Forall_app_2; [destruct g; repeat constructor; apply IH|repeat constructor; apply IH]. }
  assert (Hf : forall l, Forall P (map fv_value l)).
  { fix IHl 1. intros [|[n v sp] l]; cbn; constructor; [apply IH|apply IHl]. }
  destruct k; cbn [expr_children];
    repeat match goal with
      | |- Forall P [] => apply Forall_nil_2
      | |- Forall P (_ :: _) => apply Forall_cons_2; [apply IH|]
      | |- Forall P (_ ++ _) => apply Forall_app_2
      | |- Forall P (block_exprs _) => apply Hb
      | |- Forall P (opt_exprs ?o) => destruct o; repeat constructor; apply IH
      | |- Forall P (flat_map arm_exprs _) => apply Ha
      | |- Forall P (map fv_value _) => apply Hf
      | |- Forall P ?l => is_var l; apply Hl
      end.
Qed.
End Expr_induction.

(** ** All sub-expressions *)

Section subexprs_cases.
Context (rec : Expr -> list Expr).

Definition subexprs_stmt (s : AStmt) : list Expr :=
  match stmt_kind s with
  | SLet _ _ (Some v) _ => rec v
  | SLet _ _ None _ => []
  | SConst _ _ v => rec v
  | SExpr e => rec e
  | SItem _ => []
  end.

Definition subexprs_block (b : ABlock) : list Expr := flat_map subexprs_stmt (block_stmts b).

Definition subexprs_opt (o : option Expr) : list Expr := match o with Some e => rec e | None => [] end.

Definition subexprs_arm (a : MatchArm Expr) : list Expr := subexprs_opt (arm_guard a) ++ rec (arm_body a).
End subexprs_cases.

Fixpoint subexprs (e : Expr) : list Expr :=
  e :: match e with mkExpr k _ =>
    match k with
    | ELiteral _ | EIdent _ | EPath _ | EContinue => []
    | EBinary _ l r | EIndex l r | EAssign l r | EAssignOp _ l r => subexprs l ++ subexprs r
    | EUnary _ x | EAwait x | EField x _ | ELambda _ x | ETry x | ECast x _ | EIs x _ | EParen x => subexprs x
    | ECall f args => subexprs f ++ flat_map subexprs args
    | EMethodCall r _ args => subexprs r ++ flat_map subexprs args
    | EBlock b | ELoop b | EAsyncBlock b | EParallelBlock b | ETryBlock b => subexprs_block subexprs b
    | EIf c t o => subexprs c ++ subexprs_block subexprs t ++ subexprs_opt subexprs o
    | EWhile c b | EFor _ c b => subexprs c ++ subexprs_block subexprs b
    | EMatch s arms => subexprs s ++ flat_map (subexprs_arm subexprs) arms
    | EReturn o | EBreak o | EYield o => subexprs_opt subexprs o
    | EArray es | ETuple es => flat_map subexprs es
    | EStruct _ fs o => flat_map (fun f => subexprs (fv_value f)) fs ++ subexprs_opt subexprs o
    | ERange a b _ => subexprs_opt subexprs a ++ subexprs_opt subexprs b
    end
  end.

Lemma flat_map_flat_map {A B C} (f : A -> list B) (g : B -> list C) (l : list A) :
  flat_map g (flat_map f l) = flat_map (fun x => flat_map g (f x)) l.
Proof. induction l as [|x l IH]; cbn; [done|]. by rewrite flat_map_app, IH. Qed.

Lemma subexprs_opt_spec o : flat_map subexprs (opt_exprs o) = subexprs_opt subexprs o.
Proof. destruct o; cbn; [apply app_nil_r|done]. Qed.

Lemma subexprs_block_spec b : flat_map subexprs (block_exprs b) = subexprs_block subexprs b.
Proof.
  unfold block_exprs, subexprs_block. rewrite flat_map_flat_map. apply flat_map_ext. intros s.
  unfold stmt_exprs, subexprs_stmt. destruct (stmt_kind s) as [? ? [v|] ?|? ? v|v|d]; cbn;
    rewrite ?app_nil_r; done.
Qed.

Lemma subexprs_arms_spec arms :
  flat_map subexprs (flat_map arm_exprs arms) = flat_map (subexprs_arm subexprs) arms.
Proof.
  rewrite flat_map_flat_map. apply flat_map_ext. intros a. unfold arm_exprs, subexprs_arm.
  rewrite flat_map_app, subexprs_opt_spec. cbn. by rewrite app_nil_r.
Qed.

(** The sub-expressions of a node are the node and those of its children. *)
Lemma subexprs_eq k s :
  subexprs (mkExpr k s) = mkExpr k s :: flat_map subexprs (expr_children k).
Proof.
  cbn [subexprs]. f_equal. destruct k; cbn [expr_children flat_map];
    rewrite ?flat_map_app, ?subexprs_opt_spec, ?subexprs_block_spec, ?subexprs_arms_spec, ?app_nil_r;
    try done.
  f_equal. induction fields as [|f fs IH]; cbn; [done|]. by rewrite IH.
Qed.

(** A test on every sub-expression. *)
Definition all_nodes (P : Expr -> bool) (e : Expr) : bool := forallb P (subexprs e).

Lemma all_nodes_inv P k s :
  all_nodes P (mkExpr k s) = true ->
  P (mkExpr k s) = true /\ Forall (fun c => all_nodes P c = true) (expr_children k).
Proof.
  unfold all_nodes. rewrite subexprs_eq. cbn [forallb]. rewrite andb_true_iff. intros [H1 H2].
  split; [done|]. apply Forall_forall. intros c Hc. rewrite forallb_forall in H2.
  apply forallb_forall. intros x Hx. apply H2, in_flat_map. exists c.
  split; [by apply list_elem_of_In|done].
Qed.

Lemma Forall_impl_and {A} (P Q : A -> Prop) (l : list A) :
  Forall (fun x => P x -> Q x) l -> Forall P l -> Forall Q l.
Proof. induction 1; intros HP; inversion HP; subst; constructor; auto. Qed.

(** The order of traversal: folding over the parts of a block, of match arms
    and of struct fields is folding over their expressions. *)
Lemma fold_left_flat_map {A B S} (f : S -> B -> S) (g : A -> list B) (l : list A) (s : S) :
  fold_left f (flat_map g l) s = fold_left (fun s x => fold_left f (g x) s) l s.
Proof. revert s. induction l as [|x l IH]; intros s; cbn; [done|]. by rewrite fold_left_app, IH. Qed.

Lemma fold_left_ext {A S} (f g : S -> A -> S) (l : list A) (s : S) :
  (forall s x, f s x = g s x) -> fold_left f l s = fold_left g l s.
Proof. intros H. revert s. induction l as [|x l IH]; intros s; cbn; [done|]. by rewrite H, IH. Qed.
