(* ===== verification/Token.v ===== *)
(** Tokens, symbols and parse errors: lexer/token.rs, symbol.rs and the errors
    of error.rs the parser raises.

    The parser is modelled over the tokens the scanner hands over.  A
    token kind compares as its tag where the parser compares with a kind that
    has no payload. *)

From S2P Require Import Prelude Ast.

(** ** Tokens *)

Record FStringLiteral := mkFString { fs_template : string; fs_interpolations : list Span }.

Inductive TokenKind :=
| TkDefKw | TkFnKw | TkClassKw | TkStructKw | TkEnumKw | TkImplKw | TkTraitKw | TkDynKw | TkTypeKw | TkConstKw
| TkStaticKw | TkLetKw | TkIfKw | TkElifKw | TkElseKw | TkMatchKw | TkCaseKw | TkDefaultKw | TkForKw
| TkWhileKw | TkLoopKw | TkBreakKw | TkContinueKw | TkReturnKw | TkYieldKw | TkAwaitKw | TkAsyncKw
| TkParallelKw | TkImportKw | TkFromKw | TkAsKw | TkExportKw | TkExternKw | TkUnsafeKw | TkTryKw | TkExceptKw
| TkFinallyKw | TkRaiseKw | TkThrowKw | TkPubKw | TkPrivKw | TkMutKw | TkWhereKw | TkRequiresKw | TkEnsuresKw
| TkSelfKw | TkSelfLowerKw | TkTrueKw | TkFalseKw | TkNoneKw | TkNullKw | TkInKw | TkIsKw | TkNotKw | TkAndKw
| TkOrKw | TkPassKw | TkPlus | TkMinus | TkStar | TkSlash | TkPercent | TkBitAnd | TkBitOr | TkBitXor | TkShl
| TkShr | TkBitNot | TkAnd | TkOr | TkNot | TkEq | TkNotEq | TkLt | TkGt | TkLe | TkGe | TkAssign
| TkAddAssign | TkSubAssign | TkMulAssign | TkDivAssign | TkModAssign | TkBitAndAssign | TkBitOrAssign
| TkBitXorAssign | TkShlAssign | TkShrAssign | TkLParen | TkRParen | TkLBrace | TkRBrace | TkLBracket
| TkRBracket | TkColon | TkColonColon | TkSemicolon | TkComma | TkDot | TkDotDot | TkDotDotDot | TkArrow
| TkFatArrow | TkAt | TkQuestion | TkDollar | TkHash | TkUnderscore | TkIdent
| TkInt (v : option Z)
| TkFloat (v : option Z)
| TkInvalidNumber (v : string)
| TkString (v : option string)
| TkRawString (v : option string)
| TkBytes (v : option (list Z))
| TkChar (v : option Z)
| TkFString (v : option FStringLiteral).

Definition token_tag (k : TokenKind) : nat :=
  match k with
  | TkDefKw => 0 | TkFnKw => 1 | TkClassKw => 2 | TkStructKw => 3 | TkEnumKw => 4 | TkImplKw => 5
  | TkTraitKw => 6 | TkDynKw => 7 | TkTypeKw => 8 | TkConstKw => 9 | TkStaticKw => 10 | TkLetKw => 11
  | TkIfKw => 12 | TkElifKw => 13 | TkElseKw => 14 | TkMatchKw => 15 | TkCaseKw => 16 | TkDefaultKw => 17
  | TkForKw => 18 | TkWhileKw => 19 | TkLoopKw => 20 | TkBreakKw => 21 | TkContinueKw => 22 | TkReturnKw => 23
  | TkYieldKw => 24 | TkAwaitKw => 25 | TkAsyncKw => 26 | TkParallelKw => 27 | TkImportKw => 28 | TkFromKw => 29
  | TkAsKw => 30 | TkExportKw => 31 | TkExternKw => 32 | TkUnsafeKw => 33 | TkTryKw => 34 | TkExceptKw => 35
  | TkFinallyKw => 36 | TkRaiseKw => 37 | TkThrowKw => 38 | TkPubKw => 39 | TkPrivKw => 40 | TkMutKw => 41
  | TkWhereKw => 42 | TkRequiresKw => 43 | TkEnsuresKw => 44 | TkSelfKw => 45 | TkSelfLowerKw => 46
  | TkTrueKw => 47 | TkFalseKw => 48 | TkNoneKw => 49 | TkNullKw => 50 | TkInKw => 51 | TkIsKw => 52
  | TkNotKw => 53 | TkAndKw => 54 | TkOrKw => 55 | TkPassKw => 56 | TkPlus => 57 | TkMinus => 58 | TkStar => 59
  | TkSlash => 60 | TkPercent => 61 | TkBitAnd => 62 | TkBitOr => 63 | TkBitXor => 64 | TkShl => 65
  | TkShr => 66 | TkBitNot => 67 | TkAnd => 68 | TkOr => 69 | TkNot => 70 | TkEq => 71 | TkNotEq => 72
  | TkLt => 73 | TkGt => 74 | TkLe => 75 | TkGe => 76 | TkAssign => 77 | TkAddAssign => 78 | TkSubAssign => 79
  | TkMulAssign => 80 | TkDivAssign => 81 | TkModAssign => 82 | TkBitAndAssign => 83 | TkBitOrAssign => 84
  | TkBitXorAssign => 85 | TkShlAssign => 86 | TkShrAssign => 87 | TkLParen => 88 | TkRParen => 89
  | TkLBrace => 90 | TkRBrace => 91 | TkLBracket => 92 | TkRBracket => 93 | TkColon => 94 | TkColonColon => 95
  | TkSemicolon => 96 | TkComma => 97 | TkDot => 98 | TkDotDot => 99 | TkDotDotDot => 100 | TkArrow => 101
  | TkFatArrow => 102 | TkAt => 103 | TkQuestion => 104 | TkDollar => 105 | TkHash => 106 | TkUnderscore => 107
  | TkIdent => 108 | TkInt _ => 109 | TkFloat _ => 110 | TkInvalidNumber _ => 111 | TkString _ => 112
  | TkRawString _ => 113 | TkBytes _ => 114 | TkChar _ => 115 | TkFString _ => 116
  end.

(** Equality with a kind without payload. *)
Definition kind_is (k : TokenKind) (t : TokenKind) : bool := Nat.eqb (token_tag t) (token_tag k).

Record Token := mkToken { tok_kind : TokenKind; tok_span : Span }.

(** ** Symbols *)

Record SymbolInterner := mkSymbols { id_by_symbol : gmap string SymbolId; symbols : list string }.

Definition symbols_empty : SymbolInterner := mkSymbols ∅ [].

Definition symbol_intern (s : string) (t : SymbolInterner) : SymbolId * SymbolInterner :=
  match id_by_symbol t !! s with
  | Some id => (id, t)
  | None =>
      let id := wrap_u 32 (Z.of_nat (length (symbols t))) in
      (id, mkSymbols (<[s := id]> (id_by_symbol t)) (symbols t ++ [s]))
  end.

Definition symbol_resolve (t : SymbolInterner) (id : SymbolId) : option string :=
  if Z.eqb id SYMBOL_INVALID then None else symbols t !! Z.to_nat id.

(** ** Errors *)

Inductive ParseError :=
| UnexpectedToken (expected : TokenKind) (found : option TokenKind) (span : Span)
| InvalidPattern (message : string)
| InvalidPatternAt (message : string) (span : Span)
| InvalidStructField (found : TokenKind) (span : Span)
| InvalidStructFieldShorthand (span : Span)
| UnsupportedAttribute (message : string) (span : Span)
| UnexpectedEof.

Inductive CompileError :=
| CParse (e : ParseError)
| CInvalidNumber (raw : string)
| CNumberRange (raw type : string)
| CHirLower (message : string).

Definition with_span (e : ParseError) (span : Span) : ParseError :=
  match e with
  | InvalidPattern message => InvalidPatternAt message span
  | other => other
  end.

Definition invalid (message : string) : CompileError := CParse (InvalidPattern message).

#[local] Open Scope string_scope.

Definition expected_declaration : CompileError := invalid "expected declaration".
Definition expected_trait_item : CompileError := invalid "expected trait item".
Definition expected_trait_path_in_impl : CompileError := invalid "expected trait path in impl declaration".
Definition unexpected_token_in_expression : CompileError := invalid "unexpected token in expression".
Definition unexpected_token_in_pattern : CompileError := invalid "unexpected token in pattern".
Definition unexpected_token_in_infix : CompileError := invalid "unexpected token in infix position".
Definition expected_identifier : CompileError := invalid "expected identifier".
Definition expected_array_length : CompileError := invalid "expected array length".
Definition expected_type : CompileError := invalid "expected type".
