(* ===== verification/Parser.v ===== *)
(** The parser: parser/mod.rs, expr.rs, expr/aggregates.rs,
    expr/control_flow.rs, stmt.rs, pat.rs, fstring.rs and the trait bounds of
    decl.rs (compiler/src/parser); declarations are in ParserDecl.

    A [Parser] is the tokens ahead with the rest of the struct's fields; the
    scanner is called as needed by the code, which the tokens being there
    already represents, and [p_end] is where the last token of the stream ends.
    A parsing function is a value of the monad [P]: it changes the parser also
    when it fails, and [None] is out of fuel.  Fuel counts the nesting of the
    recursive functions ([Rec], tied by [parser_at]); loops run on a count of
    their own, two more than the tokens ahead, since every round consumes one.
    The text between the braces of an f-string is scanned again by a parser of
    its own: the scanner [lex] is a parameter. *)

From S2P Require Import Prelude Strs Ast Token.
From Stdlib Require Import Ascii String.
From stdpp Require Import pretty.

#[local] Open Scope string_scope.
#[local] Open Scope list_scope.

(** ** State *)

Record Parser := mkParser {
  p_tokens : list Token;
  p_end : Z;
  p_source : string;
  p_errors : list ParseError;
  in_condition_context : bool;
  pending_type_arg_gt : nat;
  p_interner : SymbolInterner;
  target_pointer_width : Z;
}.

Definition set_tokens (l : list Token) (st : Parser) : Parser :=
  mkParser l (p_end st) (p_source st) (p_errors st) (in_condition_context st) (pending_type_arg_gt st)
    (p_interner st) (target_pointer_width st).
Definition set_errors (l : list ParseError) (st : Parser) : Parser :=
  mkParser (p_tokens st) (p_end st) (p_source st) l (in_condition_context st) (pending_type_arg_gt st)
    (p_interner st) (target_pointer_width st).
Definition set_condition (b : bool) (st : Parser) : Parser :=
  mkParser (p_tokens st) (p_end st) (p_source st) (p_errors st) b (pending_type_arg_gt st)
    (p_interner st) (target_pointer_width st).
Definition set_pending (n : nat) (st : Parser) : Parser :=
  mkParser (p_tokens st) (p_end st) (p_source st) (p_errors st) (in_condition_context st) n
    (p_interner st) (target_pointer_width st).
Definition set_interner (t : SymbolInterner) (st : Parser) : Parser :=
  mkParser (p_tokens st) (p_end st) (p_source st) (p_errors st) (in_condition_context st) (pending_type_arg_gt st)
    t (target_pointer_width st).

Definition new_with_pointer_width (tokens : list Token) (source : string) (width : Z) : Parser :=
  mkParser tokens (match last tokens with Some t => span_hi (tok_span t) | None => 0%Z end) source [] false 0
    symbols_empty width.

(** The pointer width of the machine the compiler runs on. *)
Definition USIZE_BITS : Z := 64.

Definition parser_new (tokens : list Token) (source : string) : Parser :=
  new_with_pointer_width tokens source USIZE_BITS.

(** ** The monad *)

Definition P (A : Type) : Type := Parser -> option (result A CompileError * Parser).

Definition ret {A} (a : A) : P A := fun st => Some (Ok a, st).

Definition pbind {A B} (m : P A) (f : A -> P B) : P B := fun st =>
  match m st with
  | None => None
  | Some (Err e, st') => Some (Err e, st')
  | Some (Ok a, st') => f a st'
  end.

Notation "'let!' x := m 'in' k" := (pbind m (fun x => k))
  (at level 10, x binder, m at level 200, k at level 200) : sengoo_scope.

Definition fail {A} (e : CompileError) : P A := fun st => Some (Err e, st).
Definition starved {A} : P A := fun _ => None.
Definition get {A} (f : Parser -> A) : P A := fun st => Some (Ok (f st), st).
Definition modify (f : Parser -> Parser) : P unit := fun st => Some (Ok tt, f st).

(** A loop whose rounds go on with [inl] and end with [inr]. *)
Fixpoint loop_n {S A} (n : nat) (body : S -> P (S + A)) (s : S) : P A :=
  match n with
  | 0 => starved
  | S n' => let! r := body s in match r with inl s' => loop_n n' body s' | inr a => ret a end
  end.

Definition loop {S A} (body : S -> P (S + A)) (s : S) : P A :=
  fun st => loop_n (2 + List.length (p_tokens st)) body s st.

(** ** Tokens ahead *)

Definition current : P (option Token) := get (fun st => head (p_tokens st)).
Definition peek (n : nat) : P (option Token) := get (fun st => p_tokens st !! n).
Definition is_eof : P bool := get (fun st => match p_tokens st with [] => true | _ => false end).

Definition advance : P (option Token) := fun st =>
  match p_tokens st with
  | [] => Some (Ok None, st)
  | t :: l => Some (Ok (Some t), set_tokens l st)
  end.

Definition token_is (k : TokenKind) (o : option Token) : bool :=
  match o with Some t => kind_is k (tok_kind t) | None => false end.

Definition check (k : TokenKind) : P bool := get (fun st => token_is k (head (p_tokens st))).
Definition check_peek (k : TokenKind) : P bool := get (fun st => token_is k (p_tokens st !! 1)).

Definition consume (k : TokenKind) : P (option Token) :=
  let! c := check k in if c then advance else ret None.

(** [consume(k).is_some()] *)
Definition consumed (k : TokenKind) : P bool := let! o := consume k in ret (is_some o).

Definition expect (k : TokenKind) : P Token :=
  let! o := consume k in
  match o with
  | Some t => ret t
  | None =>
      let! c := current in
      match c with
      | Some t => fail (CParse (UnexpectedToken k (Some (tok_kind t)) (tok_span t)))
      | None => fail (CParse (UnexpectedToken k None span_dummy))
      end
  end.

Definition current_span_of (st : Parser) : Span :=
  match p_tokens st with
  | t :: _ => tok_span t
  | [] => span_new (p_end st) (p_end st)
  end.
Definition current_span : P Span := get current_span_of.
Definition span_at (lo : Z) : P Span := get (fun st => span_new lo (span_hi (current_span_of st))).

(** ** Source text and identifiers *)

Definition slice (s : string) (span : Span) : string :=
  substring (Z.to_nat (span_lo span)) (Z.to_nat (span_hi span - span_lo span)) s.

Definition source_slice (st : Parser) (span : Span) : string :=
  if (span_hi span <=? Z.of_nat (String.length (p_source st)))%Z then slice (p_source st) span else EmptyString.

Definition intern_named_ident (name : string) (span : Span) : P Ident := fun st =>
  let '(symbol, t) := symbol_intern name (p_interner st) in
  Some (Ok (ident_with_symbol name symbol span), set_interner t st).

Definition intern_ident (span : Span) : P Ident := fun st =>
  intern_named_ident (source_slice st span) span st.

Definition expect_ident : P Ident :=
  let! c := current in
  match c with
  | Some (mkToken TkIdent span) | Some (mkToken TkSelfLowerKw span) => let! _ := advance in intern_ident span
  | Some (mkToken TkDefaultKw span) => let! _ := advance in intern_named_ident "default" span
  | _ => fail expected_identifier
  end.

(** One segment of a path; [None] ends it. *)
Definition path_segment : P (option Ident) :=
  let! c := current in
  match c with
  | Some (mkToken TkIdent span) => let! _ := advance in let! i := intern_ident span in ret (Some i)
  | Some (mkToken TkAsyncKw span) => let! _ := advance in let! i := intern_named_ident "async" span in ret (Some i)
  | Some (mkToken TkDefaultKw span) => let! _ := advance in let! i := intern_named_ident "default" span in ret (Some i)
  | Some (mkToken TkSelfKw span) => let! _ := advance in let! i := intern_named_ident "Self" span in ret (Some i)
  | _ => ret None
  end.

Definition parse_path : P Path :=
  let! sp := current_span in
  let! segments := loop (fun segments =>
    let! o := path_segment in
    match o with
    | None => ret (inr segments)
    | Some i =>
        let! more := consumed TkColonColon in
        ret (if more then inl (segments ++ [i]) else inr (segments ++ [i]))
    end) [] in
  match segments with
  | [] => fail expected_identifier
  | _ => let! s := span_at (span_lo sp) in ret (mkPath segments s)
  end.

(** Items up to a closing token or the end of the input. *)
Definition until {A} (close : TokenKind) (item : P A) : P (list A) :=
  loop (fun acc =>
    let! eof := is_eof in
    if eof then ret (inr acc) else
    let! closed := consumed close in
    if closed then ret (inr acc) else
    let! x := item in ret (inl (acc ++ [x]))) [].

(** An item and an optional comma after it. *)
Definition with_comma {A} (item : P A) : P A := let! x := item in let! _ := consume TkComma in ret x.

(** The elements after the first comma of a tuple or parenthesised list. *)
Definition tuple_rest {A} (item : P A) (first : list A) : P (list A) :=
  loop (fun acc =>
    let! eof := is_eof in
    if eof then ret (inr acc) else
    let! closed := consumed TkRParen in
    if closed then ret (inr acc) else
    let! x := item in
    let! more := consumed TkComma in
    if more then ret (inl (acc ++ [x])) else
    let! _ := expect TkRParen in ret (inr (acc ++ [x]))) first.

(** ** Numbers *)

Definition ends_with (s suffix : string) : bool :=
  Nat.leb (String.length suffix) (String.length s) &&
  bool_decide (substring (String.length s - String.length suffix) (String.length suffix) s = suffix).

Definition NUMERIC_SUFFIXES : list string :=
  ["isize"; "usize"; "i64"; "i32"; "i16"; "i8"; "u64"; "u32"; "u16"; "u8"; "f64"; "f32"].

(** [source.get(lo..hi)] *)
Definition source_get (st : Parser) (span : Span) : option string :=
  if (span_lo span <=? span_hi span)%Z && (span_hi span <=? Z.of_nat (String.length (p_source st)))%Z
  then Some (slice (p_source st) span) else None.

Definition numeric_literal_suffix (st : Parser) (span : Span) : option string :=
  match source_get st span with
  | None => None
  | Some raw => find (ends_with raw) NUMERIC_SUFFIXES
  end.

(** The name, signedness and width a suffix stands for. *)
Definition suffix_type (width : Z) (suffix : option string) : option (string * bool * Z) :=
  match suffix with
  | None => Some ("i64", true, 64%Z)
  | Some s =>
      if bool_decide (s = "i8") then Some ("i8", true, 8%Z)
      else if bool_decide (s = "i16") then Some ("i16", true, 16%Z)
      else if bool_decide (s = "i32") then Some ("i32", true, 32%Z)
      else if bool_decide (s = "i64") then Some ("i64", true, 64%Z)
      else if bool_decide (s = "isize") then Some ("isize", true, width)
      else if bool_decide (s = "u8") then Some ("u8", false, 8%Z)
      else if bool_decide (s = "u16") then Some ("u16", false, 16%Z)
      else if bool_decide (s = "u32") then Some ("u32", false, 32%Z)
      else if bool_decide (s = "u64") then Some ("u64", false, 64%Z)
      else if bool_decide (s = "usize") then Some ("usize", false, width)
      else None
  end.

Definition literal_max (signed negative : bool) (bits : Z) : Z :=
  if signed then (if negative then 2 ^ (bits - 1) else 2 ^ (bits - 1) - 1)%Z else (2 ^ bits - 1)%Z.

Definition validate_integer_literal_range (st : Parser) (value : Z) (suffix : option string) (negative : bool)
  (span : Span) : result unit CompileError :=
  match suffix_type (target_pointer_width st) suffix with
  | None => Ok tt
  | Some (display, signed, bits) =>
      if (value <=? literal_max signed negative bits)%Z then Ok tt
      else Err (CNumberRange (default "<numeric literal>" (source_get st span)) display)
  end.

Definition type_simple (name : string) (span : Span) : AstType := mkAstType (KPath _ (path_from_str name span)) span.

Definition numeric_literal_expr_with_suffix (literal : Literal) (span : Span) (suffix : option string) : Expr :=
  let expr := mkExpr (ELiteral literal) span in
  match suffix with
  | None => expr
  | Some s =>
      let suffix_span := span_new (span_hi span - Z.of_nat (String.length s)) (span_hi span) in
      expr_cast expr (type_simple s suffix_span) span
  end.

Definition numeric_literal_expr (literal : Literal) (span : Span) : P Expr :=
  get (fun st => numeric_literal_expr_with_suffix literal span (numeric_literal_suffix st span)).

Definition UNSIGNED_SUFFIXES : list string := ["usize"; "u64"; "u32"; "u16"; "u8"].

Definition suffix_in (l : list string) (suffix : option string) : bool :=
  match suffix with Some s => bool_decide (s ∈ l) | None => false end.

Definition integer_literal_expr (value : Z) (span : Span) : P Expr := fun st =>
  let suffix := numeric_literal_suffix st span in
  match validate_integer_literal_range st value suffix false span with
  | Err e => Some (Err e, st)
  | Ok _ =>
      if suffix_in UNSIGNED_SUFFIXES suffix
      then Some (Ok (numeric_literal_expr_with_suffix (LUint value) span suffix), st)
      else if (2 ^ 63 <=? value)%Z
      then Some (Err (CParse (InvalidPatternAt
             "integer literal exceeds i64; add an unsigned suffix such as `u64` or `usize`" span)), st)
      else Some (Ok (numeric_literal_expr_with_suffix (LInt value) span suffix), st)
  end.

Definition parse_negative_integer_literal : P (option Expr) := fun st =>
  match head (p_tokens st) with
  | Some (mkToken (TkInt (Some value)) span) =>
      let suffix := numeric_literal_suffix st span in
      if suffix_in (UNSIGNED_SUFFIXES ++ ["f32"; "f64"]) suffix then Some (Ok None, st)
      else match validate_integer_literal_range st value suffix true span with
      | Err e => Some (Err e, st)
      | Ok _ => Some (Ok (Some (numeric_literal_expr_with_suffix (LInt (- value)) span suffix)),
                      set_tokens (tail (p_tokens st)) st)
      end
  | _ => Some (Ok None, st)
  end.

Definition invalid_numeric_literal_error (t : Token) : P Expr := fun st =>
  Some (Err (CInvalidNumber (default "<numeric literal>" (source_get st (tok_span t)))), st).

(** ** Precedences *)

Definition PREC_ASSIGN : nat := 1.
Definition PREC_OR : nat := 2.
Definition PREC_AND : nat := 3.
Definition PREC_COMPARE : nat := 4.
Definition PREC_BIT_OR : nat := 5.
Definition PREC_BIT_XOR : nat := 6.
Definition PREC_BIT_AND : nat := 7.
Definition PREC_SHIFT : nat := 8.
Definition PREC_ADD : nat := 9.
Definition PREC_MUL : nat := 10.
Definition PREC_CAST : nat := 11.
Definition PREC_UNARY : nat := 11.
Definition PREC_CALL : nat := 12.
Definition PREC_POSTFIX : nat := 13.

Definition get_infix_precedence (k : TokenKind) : nat :=
  match k with
  | TkAssign | TkAddAssign | TkSubAssign | TkMulAssign | TkDivAssign | TkModAssign => PREC_ASSIGN
  | TkOr | TkOrKw => PREC_OR
  | TkAnd | TkAndKw => PREC_AND
  | TkEq | TkNotEq | TkLt | TkLe | TkGt | TkGe => PREC_COMPARE
  | TkBitOr => PREC_BIT_OR
  | TkBitXor => PREC_BIT_XOR
  | TkBitAnd => PREC_BIT_AND
  | TkShl | TkShr => PREC_SHIFT
  | TkPlus | TkMinus => PREC_ADD
  | TkStar | TkSlash | TkPercent => PREC_MUL
  | TkDot | TkLBracket | TkLParen => PREC_CALL
  | TkQuestion => PREC_POSTFIX
  | TkAsKw => PREC_CAST
  | TkDotDot => PREC_OR
  | _ => 0
  end.

(** Can the token start the value of a return, break or yield, or the end of a
    range? *)
Definition starts_expr (k : TokenKind) : bool :=
  match k with
  | TkInt _ | TkFloat _ | TkString _ | TkChar _ | TkTrueKw | TkFalseKw | TkNullKw | TkIdent | TkSelfLowerKw
  | TkLParen | TkLBrace | TkLBracket | TkIfKw | TkWhileKw | TkForKw | TkLoopKw | TkMatchKw | TkReturnKw
  | TkBreakKw | TkContinueKw | TkYieldKw | TkAwaitKw | TkAsyncKw | TkParallelKw | TkMinus | TkNot | TkNotKw
  | TkBitNot | TkAnd | TkStar => true
  | _ => false
  end.

Definition check_expr : P bool :=
  get (fun st => match p_tokens st with t :: _ => starts_expr (tok_kind t) | [] => false end).

(** The binary operator and the compound assignment an infix token stands for. *)
Definition binop_of (k : TokenKind) : option BinOp :=
  match k with
  | TkPlus => Some BAdd | TkMinus => Some BSub | TkStar => Some BMul | TkSlash => Some BDiv | TkPercent => Some BMod
  | TkBitAnd => Some BBitAnd | TkBitOr => Some BBitOr | TkBitXor => Some BBitXor | TkShl => Some BShl
  | TkShr => Some BShr | TkAnd | TkAndKw => Some BAnd | TkOr | TkOrKw => Some BOr | TkEq => Some BEq
  | TkNotEq => Some BNotEq | TkLt => Some BLt | TkLe => Some BLe | TkGt => Some BGt | TkGe => Some BGe
  | _ => None
  end.

Definition assign_op_of (k : TokenKind) : option AssignOp :=
  match k with
  | TkAddAssign => Some AAddAssign | TkSubAssign => Some ASubAssign | TkMulAssign => Some AMulAssign
  | TkDivAssign => Some ADivAssign | TkModAssign => Some AModAssign
  | _ => None
  end.

(** ** The recursive functions *)

Record Rec := mkRec {
  rec_expr : nat -> P Expr;
  rec_simple : nat -> P Expr;
  rec_if : P Expr;
  rec_type : P AstType;
  rec_pattern : nat -> P Pattern;
  rec_primary : P (PatternKind Pattern);
}.

Definition rec_starved : Rec :=
  mkRec (fun _ => starved) (fun _ => starved) starved starved (fun _ => starved) starved.

Section functions.
Context (lex : string -> list Token) (r : Rec).

Definition parse_expr : P Expr := rec_expr r 0.
Definition parse_simple_expr : P Expr := rec_simple r 0.
Definition parse_pattern : P Pattern := rec_pattern r 0.

(** *** Types *)

Definition consume_type_arg_end : P bool := fun st =>
  match pending_type_arg_gt st with
  | S n => Some (Ok true, set_pending n st)
  | 0 =>
      (let! gt := consumed TkGt in
       if gt then ret true
       else let! shr := consumed TkShr in
            if shr then let! _ := modify (fun st => set_pending (S (pending_type_arg_gt st)) st) in ret true
            else ret false) st
  end.

Definition parse_type_args : P (list AstType) :=
  let! done := consume_type_arg_end in
  if done then ret []
  else loop (fun args =>
    let! t := rec_type r in
    let! done := consume_type_arg_end in
    if done then ret (inr (args ++ [t])) else
    let! more := consumed TkComma in
    if more then ret (inl (args ++ [t])) else fail expected_type) [].

Definition bound_new (p : Path) : TraitBound AstType := mkTraitBound _ p [] [].

(** A type argument of a trait bound: [Name = T], [Name == T] or a type. *)
Definition bound_arg : P (TraitAssocBinding AstType + AstType) :=
  let! is_ident := check TkIdent in
  let! assign := check_peek TkAssign in
  let! eq := check_peek TkEq in
  if is_ident && (assign || eq) then
    let! name := expect_ident in
    let! a := consumed TkAssign in
    let! e := (if a then ret true else consumed TkEq) in
    if negb e then fail expected_type
    else let! t := rec_type r in ret (inl (mkTraitAssocBinding _ (ident_name name) t))
  else let! t := rec_type r in ret (inr t).

Definition parse_trait_bound : P (TraitBound AstType) :=
  let! path := parse_path in
  let! lt := consumed TkLt in
  if negb lt then ret (bound_new path) else
  let! done := consume_type_arg_end in
  if done then ret (bound_new path) else
  loop (fun acc =>
    let! x := bound_arg in
    let acc' := match x with inl b => (acc.1, acc.2 ++ [b]) | inr t => (acc.1 ++ [t], acc.2) end in
    let! more := consumed TkComma in
    if more then ret (inl acc') else
    let! done := consume_type_arg_end in
    if done then ret (inr (mkTraitBound _ path acc'.1 acc'.2)) else fail expected_type) ([], []).

Definition parse_trait_bounds : P (list (TraitBound AstType)) :=
  loop (fun bounds =>
    let! b := parse_trait_bound in
    let! more := consumed TkPlus in
    ret (if more then inl (bounds ++ [b]) else inr (bounds ++ [b]))) [].

Definition array_length : P Z :=
  let! c := current in
  match c with
  | Some (mkToken (TkInt (Some n)) _) => let! _ := advance in ret n
  | Some _ => fail expected_array_length
  | None => fail (CParse UnexpectedEof)
  end.

Definition parse_type_primary : P (TypeKind AstType) :=
  let! c := current in
  match c with
  | None => fail (CParse UnexpectedEof)
  | Some t =>
      match tok_kind t with
      | TkLParen => let! _ := advance in let! types := tuple_rest (rec_type r) [] in ret (KTuple _ types)
      | TkLBracket =>
          let! _ := advance in
          let! elem := rec_type r in
          let! semi := consumed TkSemicolon in
          if semi then
            let! len := array_length in let! _ := expect TkRBracket in ret (KArray _ elem len)
          else let! _ := expect TkRBracket in ret (KSlice _ elem)
      | TkStar =>
          let! _ := advance in
          let! is_mut := consumed TkMutKw in
          let! _ := consume TkConstKw in
          let! base := rec_type r in ret (KPtr _ base is_mut)
      | TkBitAnd =>
          let! _ := advance in let! is_mut := consumed TkMutKw in let! base := rec_type r in ret (KRef _ base is_mut)
      | TkFnKw =>
          let! _ := advance in
          let! _ := expect TkLParen in
          let! params := until TkRParen (with_comma (rec_type r)) in
          let! arrow := consumed TkArrow in
          if arrow then let! t := rec_type r in ret (KFn _ params (Some t)) else ret (KFn _ params None)
      | TkDynKw => let! _ := advance in let! bounds := parse_trait_bounds in ret (KDyn _ bounds)
      | TkNot => let! _ := advance in ret (KNever _)
      | TkUnderscore => let! _ := advance in ret (KInfer _)
      | TkSelfKw =>
          let! qualified := check_peek TkColonColon in
          if qualified then let! p := parse_path in ret (KPath _ p) else let! _ := advance in ret (KSelfType _)
      | TkIdent => let! p := parse_path in ret (KPath _ p)
      | _ => fail expected_type
      end
  end.

Definition parse_type : P AstType :=
  let! sp := current_span in
  let! kind := parse_type_primary in
  let! lt := consumed TkLt in
  let! kind := (if negb lt then ret kind
          else match kind with
               | KPath _ path => let! args := parse_type_args in ret (KPathWithArgs _ path args)
               | _ => fail expected_type
               end) in
  let! s := span_at (span_lo sp) in ret (mkAstType kind s).

(** *** Patterns *)

Definition range_end (inclusive : bool) : RangeEnd := if inclusive then Inclusive else Exclusive.

Definition struct_pattern_field : P (StructPatternField Pattern) :=
  let! name := expect_ident in
  let! colon := consumed TkColon in
  let! f := (if colon then let! p := parse_pattern in ret (mkStructPatternField _ name p false)
       else ret (mkStructPatternField _ name (mkPattern (PIdent _ name) (ident_span name)) true)) in
  let! _ := consume TkComma in ret f.

Definition parse_struct_pattern (path : Path) : P (PatternKind Pattern) :=
  let! _ := expect TkLBrace in
  let! res := loop (fun fields =>
    let! eof := is_eof in
    if eof then ret (inr (fields, false)) else
    let! closed := consumed TkRBrace in
    if closed then ret (inr (fields, false)) else
    let! rest := consumed TkDotDot in
    if rest then let! _ := consume TkRBrace in ret (inr (fields, true)) else
    let! f := struct_pattern_field in ret (inl (fields ++ [f]))) [] in
  ret (PStruct _ path res.1 res.2).

Definition parse_tuple_struct_pattern (path : Path) : P (PatternKind Pattern) :=
  let! _ := expect TkLParen in
  let! patterns := until TkRParen (with_comma parse_pattern) in
  ret (PTupleStruct _ path patterns).

Definition parse_tuple_pattern : P (PatternKind Pattern) :=
  let! _ := advance in
  let! patterns := until TkRParen (with_comma parse_pattern) in
  ret (PTuple _ patterns).

Definition slice_rest : P (option Pattern) :=
  let! c := current in
  match c with
  | Some (mkToken TkIdent span) => let! _ := advance in let! i := intern_ident span in ret (Some (mkPattern (PIdent _ i) span))
  | _ => ret None
  end.

Definition parse_slice_pattern : P (PatternKind Pattern) :=
  let! _ := advance in
  let! res := loop (fun patterns =>
    let! eof := is_eof in
    if eof then ret (inr (patterns, None)) else
    let! closed := consumed TkRBracket in
    if closed then ret (inr (patterns, None)) else
    let! rest := consumed TkDotDot in
    if rest then let! o := slice_rest in let! _ := consume TkRBracket in ret (inr (patterns, o)) else
    let! p := with_comma parse_pattern in ret (inl (patterns ++ [p]))) [] in
  ret (PSlice _ res.1 res.2).

Definition parse_range_pattern : P (PatternKind Pattern) :=
  let! _ := expect TkDotDot in
  let! inclusive := consumed TkEq in
  let! end_ := rec_primary r in
  let! span := current_span in
  ret (PRange _ (mkPattern (PWildcard _) span) (mkPattern end_ span) (range_end inclusive)).

Definition literal_pattern (l : Literal) : P (PatternKind Pattern) := let! _ := advance in ret (PLiteral _ l).

Definition parse_pattern_primary : P (PatternKind Pattern) :=
  let! c := current in
  match c with
  | None => fail (CParse UnexpectedEof)
  | Some t =>
      match tok_kind t with
      | TkUnderscore => let! _ := advance in ret (PWildcard _)
      | TkInt (Some n) =>
          let! _ := advance in
          if (2 ^ 63 <=? n)%Z then fail (CParse (InvalidPatternAt "integer pattern exceeds i64" (tok_span t)))
          else ret (PLiteral _ (LInt n))
      | TkFloat (Some f) => literal_pattern (LFloat f)
      | TkString (Some s) => literal_pattern (LString s)
      | TkChar (Some c) => literal_pattern (LChar c)
      | TkTrueKw => literal_pattern (LBool true)
      | TkFalseKw => literal_pattern (LBool false)
      | TkNullKw => literal_pattern LNull
      | TkIdent =>
          let! path := parse_path in
          let! brace := check TkLBrace in
          let! paren := check TkLParen in
          if brace then parse_struct_pattern path
          else if paren then parse_tuple_struct_pattern path
          else match as_simple path with
               | Some i => ret (PIdent _ i)
               | None => ret (PPath _ path)
               end
      | TkLParen => parse_tuple_pattern
      | TkLBracket => parse_slice_pattern
      | TkDotDot => parse_range_pattern
      | _ => fail unexpected_token_in_pattern
      end
  end.

Definition parse_pattern_impl (precedence : nat) : P Pattern :=
  let! sp := current_span in
  let lo := span_lo sp in
  let! kind := parse_pattern_primary in
  let! range := consumed TkDotDot in
  let! kind := (if range then
            let! inclusive := consumed TkEq in
            let! end_ := parse_pattern_primary in
            let! start_span := span_at lo in
            let! end_span := current_span in
            ret (PRange _ (mkPattern kind start_span) (mkPattern end_ end_span) (range_end inclusive))
          else ret kind) in
  let! kind := (if Nat.ltb precedence 1 then
            loop (fun kind =>
              let! bar := consumed TkBitOr in
              if negb bar then ret (inr kind) else
              let! other := rec_pattern r 1 in
              let! span := span_at lo in
              ret (inl (POr _ [mkPattern kind span; other]))) kind
          else ret kind) in
  let! span := span_at lo in ret (mkPattern kind span).
(** *** Statements and blocks *)

Definition block_opt (lo : Z) (stmts : list AStmt) (closed : option Z) : P ABlock :=
  match closed with
  | Some hi => ret (mkBlock stmts (span_new lo hi))
  | None => let! sp := current_span in ret (mkBlock stmts (span_new lo (span_hi sp)))
  end.

Definition parse_let : P (StmtKind Expr Decl) :=
  let! _ := advance in
  let! is_mut := consumed TkMutKw in
  let! name := expect_ident in
  let! colon := consumed TkColon in
  let! ty := (if colon then let! t := rec_type r in ret (Some t) else ret None) in
  let! assign := consumed TkAssign in
  let! value := (if assign then let! e := parse_expr in ret (Some e) else ret None) in
  let! _ := consume TkSemicolon in
  ret (SLet name ty value is_mut).

Definition parse_const : P (StmtKind Expr Decl) :=
  let! _ := advance in
  let! name := expect_ident in
  let! _ := expect TkColon in
  let! ty := rec_type r in
  let! _ := expect TkAssign in
  let! value := parse_expr in
  let! _ := consume TkSemicolon in
  ret (SConst name ty value).

Definition parse_stmt : P AStmt :=
  let! sp := current_span in
  let! c := current in
  let! kind := match c with
         | None => fail (CParse UnexpectedEof)
         | Some (mkToken TkLetKw _) => parse_let
         | Some (mkToken TkConstKw _) => parse_const
         | Some _ => let! e := parse_expr in let! _ := consume TkSemicolon in ret (SExpr e)
         end in
  let! s := span_at (span_lo sp) in ret (mkStmt kind s).

Definition parse_block : P ABlock :=
  let! sp := current_span in
  let! _ := expect TkLBrace in
  let! res := loop (fun stmts =>
    let! eof := is_eof in
    if eof then ret (inr (stmts, None)) else
    let! o := consume TkRBrace in
    match o with
    | Some rbrace => ret (inr (stmts, Some (span_hi (tok_span rbrace))))
    | None => let! s := parse_stmt in ret (inl (stmts ++ [s]))
    end) [] in
  block_opt (span_lo sp) res.1 res.2.

(** *** Aggregates *)

Definition parse_array_expr : P Expr :=
  let! sp := current_span in
  let! _ := expect TkLBracket in
  let! elements := until TkRBracket (with_comma parse_expr) in
  let! s := span_at (span_lo sp) in ret (mkExpr (EArray elements) s).

Definition parse_call_or_tuple_expr (path : Path) : P Expr :=
  let! _ := expect TkLParen in
  let! args := until TkRParen (with_comma parse_expr) in
  let! s := span_at (span_lo (path_span path)) in
  ret (mkExpr (ECall (mkExpr (EPath path) (path_span path)) args) s).

Definition struct_field_name : P (FieldName * Span) :=
  let! c := current in
  match c with
  | Some (mkToken TkIdent span) => let! _ := advance in let! i := intern_ident span in ret (FieldIdent i, span)
  | Some (mkToken (TkString (Some s)) span) => let! _ := advance in ret (FieldString s, span)
  | Some t => fail (CParse (InvalidStructField (tok_kind t) (tok_span t)))
  | None => fail (CParse UnexpectedEof)
  end.

Definition struct_field : P (FieldValue Expr) :=
  let! n := struct_field_name in
  let! colon := consumed TkColon in
  let! f := (if colon then let! value := parse_expr in let! sp := current_span in ret (mkFieldValue n.1 value sp)
       else match n.1 with
            | FieldIdent i => let! sp := current_span in ret (mkFieldValue (FieldIdent i) (mkExpr (EIdent i) (ident_span i)) sp)
            | FieldString _ => fail (CParse (InvalidStructFieldShorthand n.2))
            end) in
  let! _ := consume TkComma in ret f.

Definition parse_struct_expr (path : Path) : P Expr :=
  let! _ := expect TkLBrace in
  let! res := loop (fun fields =>
    let! eof := is_eof in
    if eof then ret (inr (fields, None)) else
    let! closed := consumed TkRBrace in
    if closed then ret (inr (fields, None)) else
    let! update := consumed TkDotDot in
    if update then let! base := parse_expr in let! _ := consume TkRBrace in ret (inr (fields, Some base)) else
    let! f := struct_field in ret (inl (fields ++ [f]))) [] in
  let! s := span_at (span_lo (path_span path)) in
  ret (mkExpr (EStruct path res.1 res.2) s).

(** *** Control flow *)

(** Parse a condition, in which a brace after a path opens a block. *)
Definition condition : P Expr :=
  let! prev := get in_condition_context in
  let! _ := modify (set_condition true) in
  let! e := parse_expr in
  let! _ := modify (set_condition prev) in
  ret e.

Definition parse_block_expr : P Expr :=
  let! sp := current_span in let! b := parse_block in let! s := span_at (span_lo sp) in ret (mkExpr (EBlock b) s).

Definition parse_if_expr : P Expr :=
  let! sp := current_span in
  let! _ := expect TkIfKw in
  let! cond := condition in
  let! then_branch := parse_block in
  let! has_else := consumed TkElseKw in
  let! else_branch := (if has_else then
                   let! elif := check TkIfKw in
                   if elif then let! e := rec_if r in ret (Some e) else let! e := parse_block_expr in ret (Some e)
                 else ret None) in
  let! s := span_at (span_lo sp) in ret (mkExpr (EIf cond then_branch else_branch) s).

Definition parse_while_expr : P Expr :=
  let! sp := current_span in
  let! _ := expect TkWhileKw in
  let! cond := condition in
  let! body := parse_block in
  let! s := span_at (span_lo sp) in ret (mkExpr (EWhile cond body) s).

Definition parse_for_expr : P Expr :=
  let! sp := current_span in
  let! _ := expect TkForKw in
  let! pattern := parse_pattern in
  let! _ := expect TkInKw in
  let! iter := parse_simple_expr in
  let! body := parse_block in
  let! s := span_at (span_lo sp) in ret (mkExpr (EFor pattern iter body) s).

(** A keyword and a block. *)
Definition keyword_block (k : TokenKind) (mk : ABlock -> AExprKind) : P Expr :=
  let! sp := current_span in
  let! _ := expect k in
  let! b := parse_block in
  let! s := span_at (span_lo sp) in ret (mkExpr (mk b) s).

Definition parse_loop_expr : P Expr := keyword_block TkLoopKw ELoop.
Definition parse_try_block_expr : P Expr := keyword_block TkTryKw ETryBlock.
Definition parse_async_block : P Expr := keyword_block TkAsyncKw EAsyncBlock.
Definition parse_parallel_block : P Expr := keyword_block TkParallelKw EParallelBlock.

Definition match_arm : P (MatchArm Expr) :=
  let! first := parse_pattern in
  let! patterns := loop (fun ps =>
    let! bar := consumed TkBitOr in
    if negb bar then ret (inr ps) else let! p := parse_pattern in ret (inl (ps ++ [p]))) [first] in
  let! has_guard := consumed TkIfKw in
  let! guard := (if has_guard then let! e := parse_expr in ret (Some e) else ret None) in
  let! _ := expect TkFatArrow in
  let! body := parse_expr in
  let! _ := consume TkComma in
  let! sp := current_span in
  ret (mkMatchArm patterns guard body sp).

Definition parse_match_expr : P Expr :=
  let! sp := current_span in
  let! _ := expect TkMatchKw in
  let! scrutinee := condition in
  let! _ := expect TkLBrace in
  let! arms := until TkRBrace match_arm in
  let! s := span_at (span_lo sp) in ret (mkExpr (EMatch scrutinee arms) s).

Definition parse_lambda_expr : P Expr :=
  let! sp := current_span in
  let! _ := expect TkBitOr in
  let! params := until TkBitOr (with_comma expect_ident) in
  let! body := parse_expr in
  let! s := span_at (span_lo sp) in ret (mkExpr (ELambda params body) s).

(** *** Interpolated strings *)

Definition spaces (n : nat) : string := string_of_list_ascii (replicate n " "%char).

Definition interpolation_error (span : Span) (e : CompileError) : CompileError :=
  match e with
  | CParse UnexpectedEof => CParse (InvalidPatternAt "incomplete expression in f-string interpolation" span)
  | CParse other => CParse (with_span other span)
  | other => other
  end.

Definition parse_interpolation_expr (span : Span) : P Expr := fun st =>
  let text := source_slice st span in
  if bool_decide (trim text = EmptyString)
  then Some (Err (CParse (InvalidPatternAt "f-string interpolation `{}` is empty" span)), st)
  else
    let padded := spaces (Z.to_nat (span_lo span)) +:+ text in
    let sub := set_interner (p_interner st) (parser_new (lex padded) padded) in
    match parse_expr sub with
    | None => None
    | Some (res, sub') =>
        let st' := set_interner (p_interner sub') st in
        match res, p_tokens sub' with
        | Ok e, [] => Some (Ok e, st')
        | Ok _, _ :: _ =>
            Some (Err (CParse (InvalidPatternAt "unexpected token in f-string interpolation"
                                 (current_span_of sub'))), st')
        | Err e, _ => Some (Err (interpolation_error span e), st')
        end
    end.

Fixpoint parse_interpolations (lo : Z) (l : list Span) : P (list Expr) :=
  match l with
  | [] => ret []
  | rel :: l' =>
      let! e := parse_interpolation_expr (span_new (lo + span_lo rel) (lo + span_hi rel)) in
      let! es := parse_interpolations lo l' in
      ret (e :: es)
  end.

Definition parse_fstring_expr (span : Span) (payload : option FStringLiteral) : P Expr :=
  match payload with
  | None => fail (CParse (InvalidPatternAt "unterminated f-string literal" span))
  | Some literal =>
      let! args := parse_interpolations (span_lo span) (fs_interpolations literal) in
      let! func := intern_named_ident "format" span in
      ret (expr_call (mkExpr (EPath (mkPath [func] span)) span)
             (mkExpr (ELiteral (LString (fs_template literal))) span :: args) span)
  end.

(** *** Prefix expressions *)

(** The parts of [parse_prefix] and [parse_simple_prefix] that differ only in
    the function they call for operands. *)
Section operands.
Context (expr_prec : nat -> P Expr).

Definition unary (op : UnOp) : P AExprKind := let! _ := advance in let! e := expr_prec PREC_UNARY in ret (EUnary op e).

Definition reference : P AExprKind :=
  let! _ := advance in
  let! is_mut := consumed TkMutKw in
  let! e := expr_prec PREC_UNARY in
  ret (EUnary (if is_mut then RefMut else Ref) e).

Definition parenthesised (lo : Z) : P Expr :=
  let! _ := advance in
  let! empty := consumed TkRParen in
  if empty then let! s := span_at lo in ret (mkExpr (ETuple []) s) else
  let! e := expr_prec 0 in
  let! comma := consumed TkComma in
  if comma then
    let! elements := tuple_rest (expr_prec 0) [e] in let! s := span_at lo in ret (mkExpr (ETuple elements) s)
  else let! _ := expect TkRParen in let! s := span_at lo in ret (mkExpr (EParen e) s).

Definition negation (lo : Z) : P Expr :=
  let! _ := advance in
  let! o := parse_negative_integer_literal in
  match o with
  | Some negative => ret negative
  | None => let! e := expr_prec PREC_UNARY in let! s := span_at lo in ret (mkExpr (EUnary Neg e) s)
  end.
End operands.

(** Finish an expression that began at [lo]. *)
Definition spanned (lo : Z) (m : P AExprKind) : P Expr :=
  let! k := m in let! s := span_at lo in ret (mkExpr k s).

Definition literal (l : Literal) : P AExprKind := let! _ := advance in ret (ELiteral l).

Definition optional_value : P (option Expr) :=
  let! c := check_expr in if c then let! e := parse_expr in ret (Some e) else ret None.

(** A path, a call or, outside conditions, a struct literal. *)
Definition path_expr (lo : Z) : P Expr :=
  let! path := parse_path in
  let! cond := get in_condition_context in
  let! brace := check TkLBrace in
  let! paren := check TkLParen in
  if brace && negb cond then parse_struct_expr path
  else if paren then parse_call_or_tuple_expr path
  else let! s := span_at lo in ret (mkExpr (EPath path) s).

Definition parse_prefix : P Expr :=
  let! sp := current_span in
  let lo := span_lo sp in
  let! c := current in
  match c with
  | None => fail (CParse UnexpectedEof)
  | Some t =>
      match tok_kind t with
      | TkInt (Some n) => let! _ := advance in integer_literal_expr n (tok_span t)
      | TkInt None | TkInvalidNumber _ => invalid_numeric_literal_error t
      | TkFloat (Some f) => let! _ := advance in numeric_literal_expr (LFloat f) (tok_span t)
      | TkString (Some s) => spanned lo (literal (LString s))
      | TkChar (Some c) => spanned lo (literal (LChar c))
      | TkFString payload => let! _ := advance in parse_fstring_expr (tok_span t) payload
      | TkTrueKw => spanned lo (literal (LBool true))
      | TkFalseKw => spanned lo (literal (LBool false))
      | TkNullKw => spanned lo (literal LNull)
      | TkMinus => negation (rec_expr r) lo
      | TkNot | TkNotKw => spanned lo (unary (rec_expr r) Not)
      | TkBitNot => spanned lo (unary (rec_expr r) BitNot)
      | TkBitAnd => spanned lo (reference (rec_expr r))
      | TkStar => spanned lo (unary (rec_expr r) Deref)
      | TkAwaitKw => spanned lo (let! _ := advance in let! e := rec_expr r PREC_UNARY in ret (EAwait e))
      | TkLParen => parenthesised (rec_expr r) lo
      | TkLBracket => parse_array_expr
      | TkLBrace => parse_block_expr
      | TkIfKw => parse_if_expr
      | TkWhileKw => parse_while_expr
      | TkForKw => parse_for_expr
      | TkLoopKw => parse_loop_expr
      | TkMatchKw => parse_match_expr
      | TkTryKw => parse_try_block_expr
      | TkBitOr => parse_lambda_expr
      | TkReturnKw => spanned lo (let! _ := advance in let! o := optional_value in ret (EReturn o))
      | TkBreakKw => spanned lo (let! _ := advance in let! o := optional_value in ret (EBreak o))
      | TkContinueKw => spanned lo (let! _ := advance in ret EContinue)
      | TkYieldKw => spanned lo (let! _ := advance in let! o := optional_value in ret (EYield o))
      | TkAsyncKw => parse_async_block
      | TkParallelKw => parse_parallel_block
      | TkIdent => path_expr lo
      | TkSelfLowerKw => spanned lo (let! _ := advance in let! i := intern_ident (tok_span t) in ret (EIdent i))
      | _ => fail unexpected_token_in_expression
      end
  end.

Definition parse_simple_prefix : P Expr :=
  let! sp := current_span in
  let lo := span_lo sp in
  let! c := current in
  match c with
  | None => fail (CParse UnexpectedEof)
  | Some t =>
      match tok_kind t with
      | TkInt (Some n) => let! _ := advance in integer_literal_expr n (tok_span t)
      | TkInt None | TkInvalidNumber _ => invalid_numeric_literal_error t
      | TkFloat (Some f) => let! _ := advance in numeric_literal_expr (LFloat f) (tok_span t)
      | TkString (Some s) => spanned lo (literal (LString s))
      | TkChar (Some c) => spanned lo (literal (LChar c))
      | TkFString payload => let! _ := advance in parse_fstring_expr (tok_span t) payload
      | TkTrueKw => spanned lo (literal (LBool true))
      | TkFalseKw => spanned lo (literal (LBool false))
      | TkNullKw => spanned lo (literal LNull)
      | TkNot | TkNotKw => spanned lo (unary (rec_simple r) Not)
      | TkMinus => negation (rec_simple r) lo
      | TkBitAnd => spanned lo (reference (rec_simple r))
      | TkStar => spanned lo (unary (rec_simple r) Deref)
      | TkAwaitKw => spanned lo (let! _ := advance in let! e := rec_simple r PREC_UNARY in ret (EAwait e))
      | TkLParen => parenthesised (rec_simple r) lo
      | TkLBracket => parse_array_expr
      | TkLBrace => parse_block_expr
      | TkIdent => spanned lo (let! p := parse_path in ret (EPath p))
      | TkSelfLowerKw => spanned lo (let! _ := advance in let! i := intern_ident (tok_span t) in ret (EIdent i))
      | _ => fail unexpected_token_in_expression
      end
  end.

(** *** Infix expressions *)

Definition field_or_method (left_ : Expr) : P AExprKind :=
  let! c := current in
  let! field := match c with
          | Some (mkToken (TkInt (Some n)) span) =>
              let! _ := advance in intern_named_ident (pretty (Z.to_N n)) span
          | _ => expect_ident
          end in
  let! paren := check TkLParen in
  if paren then
    let! _ := expect TkLParen in
    let! args := until TkRParen (with_comma parse_expr) in
    ret (EMethodCall left_ field args)
  else ret (EField left_ field).

Definition infix_kind (left_ : Expr) (k : TokenKind) (precedence : nat) : P AExprKind :=
  match binop_of k with
  | Some op => let! e := rec_expr r precedence in ret (EBinary op left_ e)
  | None =>
      match assign_op_of k with
      | Some op => let! e := rec_expr r (PREC_ASSIGN - 1) in ret (EAssignOp op left_ e)
      | None =>
          match k with
          | TkAssign => let! e := rec_expr r (PREC_ASSIGN - 1) in ret (EAssign left_ e)
          | TkDotDot =>
              let! inclusive := consumed TkEq in
              let! more := check_expr in
              if more then let! e := rec_expr r PREC_OR in ret (ERange (Some left_) (Some e) inclusive)
              else ret (ERange (Some left_) None inclusive)
          | TkDot => field_or_method left_
          | TkLBracket => let! index := parse_expr in let! _ := expect TkRBracket in ret (EIndex left_ index)
          | TkQuestion => ret (ETry left_)
          | TkAsKw => let! ty := rec_type r in ret (ECast left_ ty)
          | _ => fail unexpected_token_in_infix
          end
      end
  end.

Definition parse_infix (left_ : Expr) (precedence : nat) (t : Token) : P Expr :=
  let! _ := advance in
  spanned (span_lo (expr_span left_)) (infix_kind left_ (tok_kind t) precedence).

(** One round of the loop of [parse_expr_prec]. *)
Definition infix_round (precedence : nat) (left_ : Expr) : P (Expr + Expr) :=
  let! c := current in
  match c with
  | None => ret (inr left_)
  | Some t =>
      let next_prec := get_infix_precedence (tok_kind t) in
      if Nat.leb next_prec precedence then ret (inr left_)
      else let! e := parse_infix left_ next_prec t in ret (inl e)
  end.

Definition parse_expr_prec (precedence : nat) : P Expr :=
  let! left_ := parse_prefix in loop (infix_round precedence) left_.

Definition parse_simple_expr_prec (precedence : nat) : P Expr :=
  let! left_ := parse_simple_prefix in loop (infix_round precedence) left_.

Definition step : Rec :=
  mkRec parse_expr_prec parse_simple_expr_prec parse_if_expr parse_type parse_pattern_impl parse_pattern_primary.
End functions.

(** ** The parser at a nesting depth *)

Fixpoint parser_at (lex : string -> list Token) (fuel : nat) : Rec :=
  match fuel with
  | 0 => rec_starved
  | S n => step lex (parser_at lex n)
  end.
