(* ===== verification/ParserDecl.v ===== *)
(** Declarations and whole programs: parser/decl.rs, decl/simple.rs,
    decl/ffi.rs, decl/data_declarations.rs, decl/object_declarations.rs and
    [parse_program] of parser/mod.rs. *)

From Stdlib Require Import Ascii String.
From stdpp Require Import pretty.
From S2P Require Import Prelude Strs Ast Token Parser.

#[local] Open Scope string_scope.
#[local] Open Scope list_scope.

Section declarations.
Context (lex : string -> list Token) (r : Rec).

(** ** Parts of declarations *)

Definition parse_visibility : P Visibility :=
  let! pub := consumed TkPubKw in
  if pub then ret Public else let! _ := consume TkPrivKw in ret Private.

Definition check_self_param : P bool :=
  get (fun st =>
    match p_tokens st with
    | mkToken TkSelfLowerKw _ :: _ => true
    | mkToken TkMutKw _ :: t :: _ => kind_is TkSelfLowerKw (tok_kind t)
    | mkToken TkBitAnd _ :: t :: _ => kind_is TkSelfLowerKw (tok_kind t) || kind_is TkMutKw (tok_kind t)
    | _ => false
    end).

Definition parse_self_param : P SelfParam :=
  let! amp := consumed TkBitAnd in
  let! is_mut := consumed TkMutKw in
  let! _ := expect TkSelfLowerKw in
  ret (match amp, is_mut with
       | true, true => BorrowedMut | true, false => Borrowed | false, true => OwnedMut | false, false => Owned
       end).

Definition parse_param : P Param :=
  let! sp := current_span in
  let! is_mut := consumed TkMutKw in
  let! name := expect_ident in
  let! _ := expect TkColon in
  let! ty := rec_type r in
  let! s := span_at (span_lo sp) in
  ret (mkParam name ty is_mut s).

Definition parse_type_param : P TypeParam :=
  let! name := expect_ident in
  let! colon := consumed TkColon in
  let! bounds := (if colon then parse_trait_bounds r else ret []) in
  let! a := consumed TkAssign in
  let! e := (if a then ret true else consumed TkEq) in
  let! d := (if e then let! t := rec_type r in ret (Some t) else ret None) in
  let! _ := consume TkComma in
  ret (mkTypeParam name bounds d).

Definition parse_type_params : P (list TypeParam) :=
  loop (fun params =>
    let! eof := is_eof in
    if eof then ret (inr params) else
    let! gt := check TkGt in
    let! shr := check TkShr in
    if gt || shr then ret (inr params) else
    let! p := parse_type_param in ret (inl (params ++ [p]))) [].

(** The type parameters of a declaration, if it has any. *)
Definition optional_type_params : P (list TypeParam) :=
  let! lt := consumed TkLt in
  if lt then let! params := parse_type_params in let! _ := expect TkGt in ret params else ret [].

Definition check_any (kinds : list TokenKind) : P bool :=
  get (fun st => existsb (fun k => token_is k (head (p_tokens st))) kinds).

Fixpoint merge_where_bounds (params : list TypeParam) (name : Ident) (bounds : list (TraitBound AstType)) :
  option (list TypeParam) :=
  match params with
  | [] => None
  | p :: params' =>
      if bool_decide (ident_name (tp_name p) = ident_name name)
      then Some (mkTypeParam (tp_name p) (tp_bounds p ++ bounds) (tp_default p) :: params')
      else match merge_where_bounds params' name bounds with Some l => Some (p :: l) | None => None end
  end.

Definition parse_optional_where_clause (params : list TypeParam) (terminators : list TokenKind) :
  P (list TypeParam) :=
  let! has := consumed TkWhereKw in
  if negb has then ret params else
  let! params := loop (fun params =>
    let! eof := is_eof in
    let! stop := check_any terminators in
    if eof || stop then ret (inr params) else
    let! name := expect_ident in
    let! _ := expect TkColon in
    let! bounds := parse_trait_bounds r in
    match merge_where_bounds params name bounds with
    | None => fail (invalid ("invalid where clause: unknown type parameter `" +:+ ident_name name +:+ "`"))
    | Some params' =>
        let! comma := consumed TkComma in
        ret (if comma then inl params' else inr params')
    end) params in
  let! stop := check_any terminators in
  if stop then ret params else fail (invalid "invalid where clause: expected declaration body").

(** *** Contracts *)

Definition ends_clause (t : Token) : bool :=
  match tok_kind t with TkRequiresKw | TkEnsuresKw | TkLBrace => true | _ => false end.

Fixpoint drop_semicolons (rev : list ascii) : list ascii :=
  match rev with c :: l => if Ascii.eqb c ";"%char then drop_semicolons l else rev | [] => [] end.

Definition trim_end_semicolons (s : string) : string :=
  string_of_list_ascii (reverse (drop_semicolons (reverse (list_ascii_of_string s)))).

Fixpoint skip_to_clause_end (l : list Token) : list Token :=
  match l with
  | t :: l' => if ends_clause t then l else skip_to_clause_end l'
  | [] => []
  end.

(** The clause is the source text up to the next clause or brace, parsed by a
    parser of its own. *)
Definition parse_contract_clause_expr (keyword_span : Span) (clause_name : string) : P Expr := fun st =>
  let rest := skip_to_clause_end (p_tokens st) in
  let clause_end := match rest with
                    | t :: _ => span_lo (tok_span t)
                    | [] => Z.of_nat (String.length (p_source st))
                    end in
  let snippet := trim (trim_end_semicolons (trim (slice (p_source st) (span_new (span_hi keyword_span) clause_end)))) in
  if bool_decide (snippet = EmptyString) then Some (Err (invalid (clause_name +:+ " clause requires an expression")), st)
  else match parse_expr r (parser_new (lex snippet) snippet) with
       | None => None
       | Some (Err e, _) => Some (Err e, st)
       | Some (Ok e, sub) =>
           match p_tokens sub with
           | [] => Some (Ok e, set_tokens rest st)
           | _ => Some (Err (invalid ("invalid expression in " +:+ clause_name +:+ " clause")), st)
           end
       end.

Definition parse_optional_contract_clauses : P (option Expr * option Expr) :=
  loop (fun acc =>
    let! req := consume TkRequiresKw in
    match req with
    | Some k =>
        if is_some acc.1 then fail (invalid "duplicate requires clause")
        else let! e := parse_contract_clause_expr (tok_span k) "requires" in ret (inl (Some e, acc.2))
    | None =>
        let! ens := consume TkEnsuresKw in
        match ens with
        | Some k =>
            if is_some acc.2 then fail (invalid "duplicate ensures clause")
            else let! e := parse_contract_clause_expr (tok_span k) "ensures" in ret (inl (acc.1, Some e))
        | None => ret (inr acc)
        end
    end) (None, None).

(** ** Functions *)

Definition optional_self_param : P (option SelfParam) :=
  let! c := check_self_param in
  if c then let! s := parse_self_param in let! _ := consume TkComma in ret (Some s) else ret None.

Definition optional_return_type : P (option AstType) :=
  let! arrow := consumed TkArrow in
  if arrow then let! t := rec_type r in ret (Some t) else ret None.

(** A function after its [def]: its name, parameters, contract and body. *)
Definition parse_function (vis : Visibility) (is_async : bool) : P (Function_ Expr Decl) :=
  let! name := expect_ident in
  let! type_params := optional_type_params in
  let! _ := expect TkLParen in
  let! self_param := optional_self_param in
  let! params := until TkRParen (with_comma parse_param) in
  let! return_type := optional_return_type in
  let! type_params := parse_optional_where_clause type_params [TkLBrace] in
  let! contract := parse_optional_contract_clauses in
  let! body := parse_block r in
  let! span := current_span in
  ret (mkFunction _ _ vis name type_params params self_param return_type contract.1 contract.2 body is_async
         None false false None span).

(** ** Simple declarations *)

(** [=] or [==], with the error of [=] when there is neither. *)
Definition expect_assign : P unit :=
  let! a := consumed TkAssign in
  if a then ret tt else
  let! e := consumed TkEq in
  if e then ret tt else let! _ := expect TkAssign in ret tt.

Definition parse_type_alias_decl (vis : Visibility) : P (DeclKind Expr Decl) :=
  let! name := expect_ident in
  let! type_params := optional_type_params in
  let! type_params := parse_optional_where_clause type_params [TkAssign; TkEq] in
  let! _ := expect_assign in
  let! ty := rec_type r in
  let! _ := expect TkSemicolon in
  let! span := current_span in
  ret (DTypeAlias _ _ (mkTypeAlias vis name type_params ty span)).

Definition parse_const_decl (vis : Visibility) : P (DeclKind Expr Decl) :=
  let! name := expect_ident in
  let! _ := expect TkColon in
  let! ty := rec_type r in
  let! _ := expect TkEq in
  let! value := parse_expr r in
  let! _ := expect TkSemicolon in
  let! span := current_span in
  ret (DConst _ _ (mkConst _ vis name ty value span)).

Definition parse_static_decl (vis : Visibility) : P (DeclKind Expr Decl) :=
  let! is_mut := consumed TkMutKw in
  let! name := expect_ident in
  let! _ := expect TkColon in
  let! ty := rec_type r in
  let! _ := expect TkEq in
  let! value := parse_expr r in
  let! _ := expect TkSemicolon in
  let! span := current_span in
  ret (DStatic _ _ (mkStatic _ vis is_mut name ty value span)).

Definition import_tail : P (ImportKind * option Ident) :=
  let! as_ := consumed TkAsKw in
  if as_ then let! i := expect_ident in ret (Simple, Some i) else
  let! brace := consumed TkLBrace in
  if brace then let! names := until TkRBrace (with_comma expect_ident) in ret (Selective names, None) else
  let! star := consumed TkStar in
  if star then let! _ := expect TkFromKw in ret (Wildcard, None) else ret (Simple, None).

Definition parse_import_decl : P (DeclKind Expr Decl) :=
  let! path := parse_path in
  let! t := import_tail in
  let! _ := expect TkSemicolon in
  let! span := current_span in
  ret (DImport _ _ (mkImport path t.2 t.1 span)).

(** ** Structs and enums *)

Definition named_field (vis : Visibility) : P StructField :=
  let! name := expect_ident in
  let! _ := expect TkColon in
  let! ty := rec_type r in
  let! span := current_span in
  let! _ := consume TkComma in
  ret (mkStructField vis (Some name) ty span).

Definition unnamed_field : P StructField :=
  let! ty := rec_type r in let! span := current_span in let! _ := consume TkComma in ret (mkStructField Private None ty span).

Definition struct_fields : P (list StructField) :=
  let! brace := consumed TkLBrace in
  if brace then until TkRBrace (let! vis := parse_visibility in named_field vis) else
  let! paren := consumed TkLParen in
  if paren then let! fields := until TkRParen unnamed_field in let! _ := consume TkSemicolon in ret fields
  else let! _ := expect TkSemicolon in ret [].

Definition parse_struct_decl (vis : Visibility) : P (DeclKind Expr Decl) :=
  let! name := expect_ident in
  let! type_params := optional_type_params in
  let! type_params := parse_optional_where_clause type_params [TkLBrace; TkLParen; TkSemicolon] in
  let! fields := struct_fields in
  let! span := current_span in
  ret (DStruct _ _ (mkStruct vis name type_params fields span)).

Definition variant_field (f : StructField) : VariantField :=
  match sf_name f with Some name => VNamed name (sf_ty f) | None => VUnnamed (sf_ty f) end.

Definition variant_payload : P (list VariantField * option Expr) :=
  let! brace := consumed TkLBrace in
  if brace then let! fields := until TkRBrace (named_field Private) in ret (map variant_field fields, None) else
  let! paren := consumed TkLParen in
  if paren then let! types := until TkRParen (with_comma (rec_type r)) in ret (map VUnnamed types, None) else
  let! eq := consumed TkEq in
  if eq then let! value := parse_expr r in let! _ := consume TkComma in ret ([], Some value)
  else let! _ := consume TkComma in ret ([], None).

Definition enum_variant : P (EnumVariant Expr) :=
  let! name := expect_ident in
  let! payload := variant_payload in
  let! _ := consume TkComma in
  let! span := current_span in
  ret (mkEnumVariant _ name payload.1 payload.2 span).

Definition parse_enum_decl (vis : Visibility) : P (DeclKind Expr Decl) :=
  let! name := expect_ident in
  let! type_params := optional_type_params in
  let! type_params := parse_optional_where_clause type_params [TkLBrace] in
  let! _ := expect TkLBrace in
  let! variants := until TkRBrace enum_variant in
  let! span := current_span in
  ret (DEnum _ _ (mkEnum _ vis name type_params variants span)).

(** ** Classes, traits and impls *)

Definition class_header : P (option Path * list (TraitBound AstType)) :=
  let! colon := consumed TkColon in
  if negb colon then ret (None, []) else
  let! first := parse_path in
  let! extra := loop (fun acc =>
    let! comma := consumed TkComma in
    if negb comma then ret (inr acc) else let! p := parse_path in ret (inl (acc ++ [p]))) [] in
  ret (Some first, map bound_new extra).

Definition class_member : P (ClassMember Expr Decl) :=
  let! vis := parse_visibility in
  let! is_async := consumed TkAsyncKw in
  let! def := consumed TkDefKw in
  if def then let! f := parse_function vis is_async in ret (CMMethod _ _ f) else
  let! name := expect_ident in
  let! _ := expect TkColon in
  let! ty := rec_type r in
  let! _ := consume TkSemicolon in
  if is_async then fail (invalid "`async` is only supported on class methods") else
  let! span := current_span in
  ret (CMField _ _ (mkStructField vis (Some name) ty span)).

Definition parse_class_decl (vis : Visibility) : P (DeclKind Expr Decl) :=
  let! name := expect_ident in
  let! type_params := optional_type_params in
  let! header := class_header in
  let! type_params := parse_optional_where_clause type_params [TkLBrace] in
  let! _ := expect TkLBrace in
  let! members := until TkRBrace class_member in
  let! span := current_span in
  ret (DClass _ _ (mkClass _ _ vis name type_params header.1 header.2 members span)).

Definition trait_supers : P (list (TraitBound AstType)) :=
  let! colon := consumed TkColon in
  if negb colon then ret [] else
  loop (fun bounds =>
    let! brace := check TkLBrace in
    if brace then ret (inr bounds) else
    let! path := parse_path in let! _ := consume TkComma in ret (inl (bounds ++ [bound_new path]))) [].

Definition trait_const : P (TraitItem Expr Decl) :=
  let! name := expect_ident in
  let! _ := expect TkColon in
  let! ty := rec_type r in
  let! _ := expect TkEq in
  let! value := parse_expr r in
  let! _ := consume TkSemicolon in
  let! span := current_span in
  ret (TIConst _ _ (mkConst _ Private name ty value span)).

Definition trait_item : P (TraitItem Expr Decl) :=
  let! is_async := consumed TkAsyncKw in
  let! def := consumed TkDefKw in
  if def then let! f := parse_function Private is_async in ret (TIFunction _ _ f) else
  let! const := consumed TkConstKw in
  if const then
    if is_async then fail (invalid "`async` is only supported on trait methods") else trait_const
  else
  let! type := consumed TkTypeKw in
  if type then
    if is_async then fail (invalid "`async` is only supported on trait methods") else
    let! name := expect_ident in
    let! _ := expect TkSemicolon in
    let! span := current_span in
    ret (TIType _ _ (mkAssociatedTypeDecl name span))
  else fail expected_trait_item.

Definition parse_trait_decl (vis : Visibility) : P (DeclKind Expr Decl) :=
  let! name := expect_ident in
  let! type_params := optional_type_params in
  let! bounds := trait_supers in
  let! type_params := parse_optional_where_clause type_params [TkLBrace] in
  let! _ := expect TkLBrace in
  let! items := until TkRBrace trait_item in
  let! span := current_span in
  ret (DTrait _ _ (mkTrait _ _ vis name type_params bounds items span)).

(** The target of an impl and the trait it implements. *)
Definition impl_target (first : AstType) : P (AstType * option Path * list AstType) :=
  let! for_ := consumed TkForKw in
  if negb for_ then ret (first, None, []) else
  let! target := rec_type r in
  match first with
  | mkAstType (KPath _ path) _ => ret (target, Some path, [])
  | mkAstType (KPathWithArgs _ path args) _ => ret (target, Some path, args)
  | _ => fail expected_trait_path_in_impl
  end.

Definition impl_item : P (TypeAlias + Function_ Expr Decl) :=
  let! _ := consume TkPubKw in
  let! is_async := consumed TkAsyncKw in
  let! type := consumed TkTypeKw in
  if type then
    if is_async then fail (invalid "`async` is only supported on impl methods") else
    let! name := expect_ident in
    let! _ := expect_assign in
    let! ty := rec_type r in
    let! _ := expect TkSemicolon in
    let! span := current_span in
    ret (inl (mkTypeAlias Private name [] ty span))
  else
  let! _ := expect TkDefKw in
  let! f := parse_function Private is_async in ret (inr f).

Definition lefts {A B} (l : list (A + B)) : list A := omap (fun x => match x with inl a => Some a | inr _ => None end) l.
Definition rights {A B} (l : list (A + B)) : list B := omap (fun x => match x with inl _ => None | inr b => Some b end) l.

Definition parse_impl_decl (vis : Visibility) : P (DeclKind Expr Decl) :=
  let! type_params := optional_type_params in
  let! is_negative := consumed TkNot in
  let! first := rec_type r in
  let! target := impl_target first in
  if is_negative && negb (is_some target.1.2)
  then fail (invalid "negative impl syntax requires `impl !Trait for Type {}`") else
  let! type_params := parse_optional_where_clause type_params [TkLBrace] in
  let! _ := expect TkLBrace in
  let! items := until TkRBrace impl_item in
  let! span := current_span in
  ret (DImpl _ _ (mkImpl _ _ vis type_params target.1.1 target.1.2 target.2 is_negative (lefts items) (rights items)
         span)).

(** ** Attributes and foreign declarations *)

Record ParsedFfiAttrs := mkAttrs { at_no_mangle : bool; at_export_name : option string; at_link_name : option string }.

Definition attrs_default : ParsedFfiAttrs := mkAttrs false None None.
Definition has_export_attrs (a : ParsedFfiAttrs) : bool := at_no_mangle a || is_some (at_export_name a).
Definition has_any (a : ParsedFfiAttrs) : bool := has_export_attrs a || is_some (at_link_name a).

(** A text in double quotes. *)
Definition quoted (s : string) : string := String "034"%char (s +:+ String "034"%char EmptyString).

Definition consume_attribute_assign : P bool :=
  let! a := consumed TkAssign in if a then ret true else consumed TkEq.

Definition expect_string_literal (context : string) : P string :=
  let! c := current in
  match c with
  | Some (mkToken (TkString (Some value)) _) => let! _ := advance in ret value
  | Some _ => fail (invalid (context +:+ " requires a string literal"))
  | None => fail (CParse UnexpectedEof)
  end.

Definition parse_attribute (attrs : ParsedFfiAttrs) : P ParsedFfiAttrs :=
  let! _ := expect TkLBracket in
  let! name := expect_ident in
  let! attrs := (if bool_decide (ident_name name = "no_mangle")
           then ret (mkAttrs true (at_export_name attrs) (at_link_name attrs))
           else if bool_decide (ident_name name = "export_name") then
             let! assign := consume_attribute_assign in
             if negb assign then fail (invalid "export_name attribute requires `=`") else
             let! value := expect_string_literal "export_name attribute" in
             ret (mkAttrs (at_no_mangle attrs) (Some value) (at_link_name attrs))
           else if bool_decide (ident_name name = "link") then
             let! _ := expect TkLParen in
             let! key := expect_ident in
             if negb (bool_decide (ident_name key = "name"))
             then fail (invalid ("link attribute only supports `name = " +:+ quoted "..." +:+ "`")) else
             let! assign := consume_attribute_assign in
             if negb assign then fail (invalid "link attribute requires `=`") else
             let! value := expect_string_literal "link attribute" in
             let! _ := expect TkRParen in
             ret (mkAttrs (at_no_mangle attrs) (at_export_name attrs) (Some value))
           else fail (invalid ("unsupported attribute `" +:+ ident_name name +:+ "`"))) in
  let! _ := expect TkRBracket in
  ret attrs.

Definition parse_outer_attributes : P ParsedFfiAttrs :=
  loop (fun attrs =>
    let! hash := consumed TkHash in
    if negb hash then ret (inr attrs) else let! attrs := parse_attribute attrs in ret (inl attrs)) attrs_default.

Definition extern_function (vis : Visibility) (is_unsafe : bool) : P ExternItem :=
  let! kw := expect TkFnKw in
  let! name := expect_ident in
  let! type_params := optional_type_params in
  let! _ := expect TkLParen in
  let! params := until TkRParen (with_comma parse_param) in
  let! return_type := optional_return_type in
  let! _ := expect TkSemicolon in
  let! s := span_at (span_lo (tok_span kw)) in
  ret (XFunction (mkExternFunction vis name type_params params return_type is_unsafe s)).

Definition extern_static (vis : Visibility) : P ExternItem :=
  let! is_mut := consumed TkMutKw in
  let! name := expect_ident in
  let! _ := expect TkColon in
  let! ty := rec_type r in
  let! _ := expect TkSemicolon in
  let! span := current_span in
  ret (XStatic (mkExternStatic vis is_mut name ty span)).

(** An item of a foreign block, with the library name of its attributes. *)
Definition extern_item : P (ExternItem * option string) :=
  let! attrs := parse_outer_attributes in
  let! vis := parse_visibility in
  let! is_unsafe := consumed TkUnsafeKw in
  if has_export_attrs attrs
  then fail (invalid "no_mangle/export_name cannot be used inside extern blocks") else
  let! fn := check TkFnKw in
  if fn then let! i := extern_function vis is_unsafe in ret (i, at_link_name attrs) else
  let! static := consumed TkStaticKw in
  if static then let! i := extern_static vis in ret (i, at_link_name attrs)
  else fail (invalid "expected `fn` or `static` in extern block").

Definition first_some {A} (l : list (option A)) : option A := head (omap id l).

Definition parse_extern_block_decl (abi : string) (attrs : ParsedFfiAttrs) (leading_unsafe : bool) :
  P (DeclKind Expr Decl) :=
  if leading_unsafe
  then fail (invalid "`unsafe extern` block is not supported; mark extern items unsafe instead")
  else if has_export_attrs attrs
  then fail (invalid "no_mangle/export_name only apply to extern function definitions") else
  let! _ := expect TkLBrace in
  let! items := until TkRBrace extern_item in
  let! span := current_span in
  ret (DExternBlock _ _ (mkExternBlock abi (first_some (at_link_name attrs :: map snd items)) (map fst items) span)).

Definition parse_extern_fn_decl (vis : Visibility) (abi : string) (attrs : ParsedFfiAttrs) (leading_unsafe : bool) :
  P (DeclKind Expr Decl) :=
  if is_some (at_link_name attrs) then fail (invalid "link(name = ...) only applies to extern blocks") else
  let! sp := current_span in
  let! u := consumed TkUnsafeKw in
  let! _ := expect TkFnKw in
  let! name := expect_ident in
  let! type_params := optional_type_params in
  let! _ := expect TkLParen in
  let! params := until TkRParen (with_comma parse_param) in
  let! return_type := optional_return_type in
  let! type_params := parse_optional_where_clause type_params [TkLBrace] in
  let! body := parse_block r in
  let! s := span_at (span_lo sp) in
  ret (DFunction (mkFunction _ _ vis name type_params params None return_type None None body false (Some abi)
         (leading_unsafe || u) (at_no_mangle attrs) (at_export_name attrs) s)).

Definition parse_extern_decl (vis : Visibility) (attrs : ParsedFfiAttrs) (leading_unsafe : bool) :
  P (DeclKind Expr Decl) :=
  let! abi := expect_string_literal "extern ABI" in
  let! brace := check TkLBrace in
  let! fn := check TkFnKw in
  let! unsafe := check TkUnsafeKw in
  if brace then parse_extern_block_decl abi attrs leading_unsafe
  else if fn || unsafe then parse_extern_fn_decl vis abi attrs leading_unsafe
  else fail (invalid ("expected `fn` or `{` after `extern " +:+ quoted "..." +:+ "`")).

(** ** Declarations *)

Definition plain_decl (leading_unsafe : bool) (attrs : ParsedFfiAttrs) (message : string)
  (m : P (DeclKind Expr Decl)) : P (DeclKind Expr Decl) :=
  if leading_unsafe || has_any attrs then fail (invalid message) else let! _ := advance in m.

Definition decl_kind_of (vis : Visibility) (attrs : ParsedFfiAttrs) (leading_unsafe leading_async : bool)
  (k : option TokenKind) : P (DeclKind Expr Decl) :=
  match k with
  | Some TkExternKw => let! _ := advance in parse_extern_decl vis attrs leading_unsafe
  | Some TkDefKw =>
      if leading_unsafe then fail (invalid "`unsafe` is only supported with `extern` declarations")
      else if has_any attrs then fail (invalid "attributes are only supported on extern declarations")
      else let! _ := advance in let! f := parse_function vis leading_async in ret (DFunction f)
  | _ =>
      if leading_async then fail (invalid "`async` is only supported on function declarations")
      else match k with
      | Some TkStructKw =>
          plain_decl leading_unsafe attrs "unsafe is not supported on struct declarations" (parse_struct_decl vis)
      | Some TkEnumKw =>
          plain_decl leading_unsafe attrs "unsafe is not supported on enum declarations" (parse_enum_decl vis)
      | Some TkClassKw =>
          plain_decl leading_unsafe attrs "unsafe is not supported on class declarations" (parse_class_decl vis)
      | Some TkTraitKw =>
          plain_decl leading_unsafe attrs "unsafe is not supported on trait declarations" (parse_trait_decl vis)
      | Some TkImplKw =>
          plain_decl leading_unsafe attrs "unsafe is not supported on impl declarations" (parse_impl_decl vis)
      | Some TkTypeKw =>
          plain_decl leading_unsafe attrs "attributes/unsafe are not supported on type alias declarations"
            (parse_type_alias_decl vis)
      | Some TkConstKw =>
          plain_decl leading_unsafe attrs "unsafe is not supported on const declarations" (parse_const_decl vis)
      | Some TkStaticKw =>
          plain_decl leading_unsafe attrs "attributes/unsafe are not supported on static declarations"
            (parse_static_decl vis)
      | Some TkImportKw =>
          plain_decl leading_unsafe attrs "attributes/unsafe are not supported on import declarations"
            parse_import_decl
      | _ => fail expected_declaration
      end
  end.

Definition parse_decl : P Decl :=
  let! sp := current_span in
  let! attrs := parse_outer_attributes in
  let! vis := parse_visibility in
  let! leading_unsafe := consumed TkUnsafeKw in
  let! leading_async := consumed TkAsyncKw in
  let! c := current in
  let! kind := decl_kind_of vis attrs leading_unsafe leading_async (tok_kind <$> c) in
  let! s := span_at (span_lo sp) in ret (mkDecl kind s).

(** ** Programs *)

Definition starts_decl (k : TokenKind) : bool :=
  match k with
  | TkDefKw | TkExternKw | TkStructKw | TkEnumKw | TkClassKw | TkTraitKw | TkImplKw | TkTypeKw | TkConstKw
  | TkStaticKw | TkImportKw | TkUnsafeKw | TkHash => true
  | _ => false
  end.

Fixpoint recover_tokens (l : list Token) : list Token :=
  match l with
  | [] => []
  | t :: l' =>
      if starts_decl (tok_kind t) then l
      else if kind_is TkSemicolon (tok_kind t) then l'
      else recover_tokens l'
  end.

Definition recover_to_decl : P unit := modify (fun st => set_tokens (recover_tokens (p_tokens st)) st).

(** One declaration; after a parse error, the error is recorded with a position
    and the tokens up to the next declaration are skipped. *)
Definition program_round (decls : list Decl) : P (list Decl + list Decl) := fun st =>
  match p_tokens st with
  | [] => Some (Ok (inr decls), st)
  | _ =>
      match parse_decl st with
      | None => None
      | Some (Ok d, st') => Some (Ok (inl (decls ++ [d])), st')
      | Some (Err (CParse e), st') =>
          let st1 := set_errors (p_errors st' ++ [with_span e (current_span_of st')]) st' in
          (let! _ := recover_to_decl in ret (inl decls)) st1
      | Some (Err e, st') => Some (Err e, st')
      end
  end.

Definition parse_program : P Program :=
  let! decls := loop program_round [] in
  let! errors := get p_errors in
  match errors with
  | e :: _ => fail (CParse e)
  | [] => ret (mkProgram decls)
  end.
End declarations.
