(* ===== verification/ParserInv.v ===== *)
(** The parser always comes to an end: every function of Parser and
    ParserDecl returns a result or an error, without running out of fuel, when
    the fuel exceeds the number of tokens, and a function that succeeds has
    consumed a token ([expression_parser_total], [program_parser_total]).

    The proofs run the functions on states of which only the number of tokens
    ahead is known, by the rules of [wp]. *)

From Stdlib Require Import Ascii String.
From stdpp Require Import pretty.
From S2P Require Import Prelude Strs Ast Token Parser ParserDecl.

#[local] Open Scope list_scope.

(** Tokens whose text is not scanned again. *)
Definition plain_kind (k : TokenKind) : bool :=
  match k with TkFString _ | TkRequiresKw | TkEnsuresKw => false | _ => true end.

Definition plain (st : Parser) : Prop := Forall (fun t => plain_kind (tok_kind t) = true) (p_tokens st).

Notation ahead st := (List.length (p_tokens st)).

(** [st'] is [st] with some of its tokens consumed. *)
Definition past (st st' : Parser) : Prop :=
  plain st' /\ ahead st' <= ahead st /\ p_tokens st' `suffix_of` p_tokens st.

Lemma past_refl st : plain st -> past st st.
Proof. intros. unfold past. by split_and!. Qed.

Lemma past_eq st st' : plain st -> p_tokens st' = p_tokens st -> past st st'.
Proof. unfold past, plain. intros Hp ->. by split_and!. Qed.

Lemma past_trans st1 st2 st3 : past st1 st2 -> past st2 st3 -> past st1 st3.
Proof. intros (? & ? & ?) (? & ? & ?). split_and!; [done|lia|by etrans]. Qed.

Lemma past_tokens st l' st' : plain st -> p_tokens st = l' ++ p_tokens st' -> past st st'.
Proof.
  unfold past, plain. intros Hp E. rewrite E in *. apply Forall_app in Hp as [_ Hp]. rewrite length_app.
  split_and!; [done|lia|by exists l'].
Qed.

(** [m] returns from [st] with some tokens consumed, and a result in [Q]. *)
Definition wp {A} (m : P A) (Q : A -> Parser -> Prop) (st : Parser) : Prop :=
  exists res st', m st = Some (res, st') /\ past st st' /\ match res with Ok a => Q a st' | Err _ => True end.

(** ** Rules *)

Lemma wp_eq {A} (m : P A) (Q : A -> Parser -> Prop) st res st' :
  m st = Some (res, st') -> past st st' -> match res with Ok a => Q a st' | Err _ => True end -> wp m Q st.
Proof. intros. by exists res, st'. Qed.

Lemma wp_ret {A} (a : A) (Q : A -> Parser -> Prop) st : plain st -> Q a st -> wp (ret a) Q st.
Proof. intros. by eapply wp_eq; [|apply past_refl|]. Qed.

Lemma wp_fail {A} (e : CompileError) (Q : A -> Parser -> Prop) st : plain st -> wp (fail e) Q st.
Proof. intros. by eapply wp_eq; [|apply past_refl|]. Qed.

Lemma wp_get {A} (f : Parser -> A) (Q : A -> Parser -> Prop) st : plain st -> Q (f st) st -> wp (get f) Q st.
Proof. intros. by eapply wp_eq; [|apply past_refl|]. Qed.

Lemma wp_modify (f : Parser -> Parser) (Q : unit -> Parser -> Prop) st :
  plain st -> p_tokens (f st) = p_tokens st -> Q tt (f st) -> wp (modify f) Q st.
Proof. intros. by eapply wp_eq; [|apply past_eq|]. Qed.

Lemma wp_bind {A B} (m : P A) (f : A -> P B) Q st :
  wp m (fun a st' => wp (f a) Q st') st -> wp (pbind m f) Q st.
Proof.
  intros (res & st1 & E & Hp & HQ). unfold wp, pbind. rewrite E. destruct res as [a|e].
  - destruct HQ as (res & st2 & E2 & Hp2 & HQ2). exists res, st2. split_and!; [done|by eapply past_trans|done].
  - exists (Err e), st1. by split_and!.
Qed.

Lemma wp_conseq {A} (m : P A) (Q Q' : A -> Parser -> Prop) st :
  wp m Q' st -> (forall a st', plain st' -> ahead st' <= ahead st -> Q' a st' -> Q a st') -> wp m Q st.
Proof.
  intros (res & st1 & E & Hp & HQ) Hc. exists res, st1. split_and!; [done..|]. destruct Hp as (? & ? & ?).
  destruct res; auto.
Qed.

Lemma wp_loop_n {S A} (I : S -> Parser -> Prop) (body : S -> P (S + A)) Q b :
  (forall s st1, plain st1 -> ahead st1 <= b -> I s st1 ->
     wp (body s) (fun x st2 => match x with
                               | inl s' => ahead st2 < ahead st1 /\ I s' st2
                               | inr a => Q a st2
                               end) st1) ->
  forall n s st, plain st -> ahead st <= b -> I s st -> ahead st < n -> wp (loop_n n body s) Q st.
Proof.
  intros Hb n. induction n as [|n IH]; intros s st1 Hp Hl HI Hn; [lia|]. simpl. apply wp_bind.
  eapply wp_conseq; [by apply Hb|]. intros [s'|a] st2 Hp2 Hl2 HQ; simpl in HQ.
  - destruct HQ. apply IH; [done|lia|done|lia].
  - by apply wp_ret.
Qed.

Lemma wp_loop {S A} (I : S -> Parser -> Prop) (body : S -> P (S + A)) (s : S) Q st :
  plain st -> I s st ->
  (forall s st1, plain st1 -> ahead st1 <= ahead st -> I s st1 ->
     wp (body s) (fun x st2 => match x with
                               | inl s' => ahead st2 < ahead st1 /\ I s' st2
                               | inr a => Q a st2
                               end) st1) ->
  wp (loop body s) Q st.
Proof. intros Hp HI Hb. apply (wp_loop_n I _ _ (ahead st)); [done|done|lia|done|lia]. Qed.

Lemma wp_current (Q : option Token -> Parser -> Prop) st :
  plain st -> (0 < ahead st -> forall t, plain_kind (tok_kind t) = true -> Q (Some t) st) ->
  (ahead st = 0 -> Q None st) -> wp current Q st.
Proof.
  intros Hp H1 H2. apply wp_get; [done|]. destruct (p_tokens st) eqn:E; simpl; [by apply H2|].
  apply H1; [simpl; lia|]. unfold plain in Hp. rewrite E in Hp. by apply Forall_cons in Hp as [? _].
Qed.

Lemma wp_advance (Q : option Token -> Parser -> Prop) st :
  plain st -> 0 < ahead st -> (forall o st', plain st' -> S (ahead st') = ahead st -> Q o st') -> wp advance Q st.
Proof.
  intros Hp Hl HQ. destruct (p_tokens st) as [|t l] eqn:E; [simpl in Hl; lia|].
  assert (Hp' : past st (set_tokens l st)) by (by apply (past_tokens _ [t])).
  eapply wp_eq; [unfold advance; by rewrite E|done|]. apply HQ; [apply Hp'|done].
Qed.

Lemma wp_consume (k : TokenKind) (Q : option Token -> Parser -> Prop) st :
  plain st -> (plain_kind k = true -> forall t st', plain st' -> S (ahead st') = ahead st -> Q (Some t) st') ->
  Q None st -> wp (consume k) Q st.
Proof.
  intros Hp H1 H2. unfold consume. apply wp_bind, wp_get; [done|].
  destruct (p_tokens st) as [|t l] eqn:E; simpl; [by apply wp_ret|].
  destruct (kind_is k (tok_kind t)) eqn:Hk; [|by apply wp_ret].
  assert (Hp' : past st (set_tokens l st)) by (by apply (past_tokens _ [t])).
  eapply wp_eq; [unfold advance; by rewrite E|done|]. apply H1; [|apply Hp'|done].
  unfold plain in Hp. rewrite E in Hp. apply Forall_cons in Hp as [Ht _].
  apply Nat.eqb_eq in Hk. destruct k, (tok_kind t); try done; discriminate Hk.
Qed.

Lemma wp_consumed (k : TokenKind) (Q : bool -> Parser -> Prop) st :
  plain st -> (forall st', plain st' -> S (ahead st') = ahead st -> Q true st') -> Q false st ->
  wp (consumed k) Q st.
Proof.
  intros Hp H1 H2. apply wp_bind, wp_consume; [done| |].
  - intros _ t st' Hp' Hl. apply wp_ret; [done|]. by apply H1.
  - by apply wp_ret.
Qed.

Lemma wp_expect (k : TokenKind) (Q : Token -> Parser -> Prop) st :
  plain st -> (forall t st', plain st' -> S (ahead st') = ahead st -> Q t st') -> wp (expect k) Q st.
Proof.
  intros Hp HQ. apply wp_bind, wp_consume; [done| |].
  - intros _ t st' Hp' Hl. apply wp_ret; [done|]. by apply HQ.
  - apply wp_bind, wp_get; [done|]. destruct (head _); by apply wp_fail.
Qed.

Lemma wp_intern_named (name : string) (span : Span) (Q : Ident -> Parser -> Prop) st :
  plain st -> (forall i st', plain st' -> ahead st' = ahead st -> Q i st') -> wp (intern_named_ident name span) Q st.
Proof.
  intros Hp HQ. destruct (symbol_intern name (p_interner st)) as [sym t] eqn:E.
  eapply wp_eq; [unfold intern_named_ident; by rewrite E|by apply past_eq|]. by apply HQ.
Qed.

Lemma wp_intern (span : Span) (Q : Ident -> Parser -> Prop) st :
  plain st -> (forall i st', plain st' -> ahead st' = ahead st -> Q i st') -> wp (intern_ident span) Q st.
Proof. intros. unfold intern_ident. by apply (wp_intern_named (source_slice st span) span). Qed.
(** A loop whose rounds each consume a token. *)
Lemma wp_rounds {S A} (body : S -> P (S + A)) (s : S) Q st :
  plain st ->
  (forall s st1, plain st1 -> ahead st1 <= ahead st ->
     wp (body s) (fun x st2 => match x with inl _ => ahead st2 < ahead st1 | inr a => Q a st2 end) st1) ->
  wp (loop body s) Q st.
Proof.
  intros Hp Hb. apply (wp_loop (fun _ _ => True)); [done|done|]. intros s1 st1 Hp1 Hl1 _.
  eapply wp_conseq; [by apply Hb|]. intros [] ? ? ? ?; [by split|done].
Qed.


(** ** Running a function by the rules

    [consumes m st]: [m] returns from [st], and has consumed a token when it
    succeeds; [returns m st]: it returns. *)

Notation consumes m st := (wp m (fun _ st' => ahead st' < ahead st) st).
Notation returns m st := (wp m (fun _ _ => True) st).

Create HintDb parser.
#[export] Hint Extern 1 (_ < _)%nat => lia : parser.
#[export] Hint Extern 1 (_ <= _)%nat => lia : parser.
#[export] Hint Extern 1 (_ /\ _) => lia : parser.

(** Apply the lemma of the function called. *)
Ltac wp_call := eapply wp_conseq; [solve [eauto 4 with parser nocore]|cbn beta; intros].

Ltac wp_step :=
  match goal with
  | |- wp (pbind _ _) _ _ => apply wp_bind
  | |- wp (ret _) _ _ => apply wp_ret; [assumption|]
  | |- wp (fail _) _ _ => apply wp_fail; assumption
  | |- wp (get _) _ _ => apply wp_get; [assumption|]
  | |- wp (modify _) _ _ => apply wp_modify; [assumption|reflexivity|]
  | |- wp current _ _ => apply wp_current; [assumption|intros ? [? ?] ?|intros]; cbn [tok_kind] in *
  | |- wp advance _ _ => apply wp_advance; [assumption|lia|intros]
  | |- wp (consume _) _ _ => apply wp_consume; [assumption|intros|]
  | |- wp (consumed _) _ _ => apply wp_consumed; [assumption|intros|]
  | |- wp (expect _) _ _ => apply wp_expect; [assumption|intros]
  | |- wp (intern_named_ident _ _) _ _ => apply wp_intern_named; [assumption|intros]
  | |- wp (intern_ident _) _ _ => apply wp_intern; [assumption|intros]
  | |- wp current_span _ _ => apply wp_get; [assumption|]
  | |- wp (span_at _) _ _ => apply wp_get; [assumption|]
  | |- wp is_eof _ _ => apply wp_get; [assumption|]
  | |- wp (check _) _ _ => apply wp_get; [assumption|]
  | |- wp (check_peek _) _ _ => apply wp_get; [assumption|]
  | |- wp (match ?x with _ => _ end) _ _ => destruct x; try discriminate
  | |- wp (loop _ _) _ _ => apply wp_rounds; [assumption|intros ? ? ? ?]
  | |- wp (spanned _ _) _ _ => unfold spanned
  | |- wp _ _ _ => progress (cbn beta iota zeta; cbn [tok_kind tok_span fst snd negb])
  | |- wp _ _ _ => wp_call
  end.

Ltac wp_run := cbn beta; repeat wp_step; cbn beta iota in *; try solve [auto with parser].

Lemma wp_expect_ident st : plain st -> consumes expect_ident st.
Proof. intros. unfold expect_ident. wp_run. Qed.
#[export] Hint Resolve wp_expect_ident : parser.

(** ** Paths and lists *)

Lemma wp_path_segment st : plain st -> wp path_segment (fun o st' => o <> None -> ahead st' < ahead st) st.
Proof. intros. unfold path_segment. wp_run; intros; (done || lia). Qed.

Lemma wp_parse_path st : plain st -> consumes parse_path st.
Proof.
  intros. unfold parse_path. apply wp_bind, wp_get; [done|].
  apply wp_bind, (wp_loop (fun segments st' => segments <> [] -> ahead st' < ahead st)); [done|done|].
  intros segments st1 Hp Hl HI. apply wp_bind. eapply wp_conseq; [by apply wp_path_segment|].
  intros [i|] st2 Hp2 Hl2 HQ; simpl in HQ.
  - assert (ahead st2 < ahead st1) by (by apply HQ). wp_run.
  - wp_run. assert (ahead st1 < ahead st) by (by apply HI). lia.
Qed.
#[export] Hint Resolve wp_parse_path : parser.

Lemma wp_until {A} (close : TokenKind) (item : P A) st :
  plain st -> (forall st1, plain st1 -> ahead st1 <= ahead st -> consumes item st1) -> returns (until close item) st.
Proof. intros Hp Hi. unfold until.  wp_run. Qed.

Lemma wp_with_comma {A} (item : P A) st : consumes item st -> consumes (with_comma item) st.
Proof. intros Hi. unfold with_comma. wp_run. Qed.

Lemma wp_tuple_rest {A} (item : P A) (first : list A) st :
  plain st -> (forall st1, plain st1 -> ahead st1 <= ahead st -> consumes item st1) -> returns (tuple_rest item first) st.
Proof. intros Hp Hi. unfold tuple_rest.  wp_run. Qed.
#[export] Hint Resolve wp_until wp_with_comma wp_tuple_rest : parser.

(** ** The recursive functions *)

(** With [n] levels of fuel, a function returns on fewer than [n] tokens. *)
Definition rec_ok (n : nat) (r : Rec) : Prop :=
  forall st, plain st -> ahead st < n ->
    (forall p, consumes (rec_expr r p) st) /\ (forall p, consumes (rec_simple r p) st) /\ consumes (rec_if r) st /\
    consumes (rec_type r) st /\ (forall p, consumes (rec_pattern r p) st) /\ consumes (rec_primary r) st.

Section totality.
Context (lex : string -> list Token) (n : nat) (r : Rec) (Hr : rec_ok n r).

Lemma wp_rec_expr p st : plain st -> ahead st < n -> consumes (rec_expr r p) st.
Proof. intros. by apply Hr. Qed.
Lemma wp_parse_expr st : plain st -> ahead st < n -> consumes (parse_expr r) st.
Proof. intros. by apply Hr. Qed.
Lemma wp_rec_simple p st : plain st -> ahead st < n -> consumes (rec_simple r p) st.
Proof. intros. by apply Hr. Qed.
Lemma wp_parse_simple_expr st : plain st -> ahead st < n -> consumes (parse_simple_expr r) st.
Proof. intros. by apply Hr. Qed.
Lemma wp_rec_if st : plain st -> ahead st < n -> consumes (rec_if r) st.
Proof. intros. by apply Hr. Qed.
Lemma wp_rec_type st : plain st -> ahead st < n -> consumes (rec_type r) st.
Proof. intros. by apply Hr. Qed.
Lemma wp_rec_pattern p st : plain st -> ahead st < n -> consumes (rec_pattern r p) st.
Proof. intros. by apply Hr. Qed.
Lemma wp_parse_pattern st : plain st -> ahead st < n -> consumes (parse_pattern r) st.
Proof. intros. by apply Hr. Qed.
Lemma wp_rec_primary st : plain st -> ahead st < n -> consumes (rec_primary r) st.
Proof. intros. by apply Hr. Qed.
#[local] Hint Resolve wp_rec_expr wp_parse_expr wp_rec_simple wp_parse_simple_expr wp_rec_if wp_rec_type
  wp_rec_pattern wp_parse_pattern wp_rec_primary : parser.

(** *** Types *)

Lemma wp_consume_type_arg_end st : plain st -> returns consume_type_arg_end st.
Proof.
  intros Hp. unfold wp, consume_type_arg_end. destruct (pending_type_arg_gt st).
  - match goal with |- exists res st', ?m st = _ /\ _ => change (returns m st) end. wp_run.
  - eexists _, _. split; [reflexivity|]. split; [by apply past_eq|done].
Qed.
#[local] Hint Resolve wp_consume_type_arg_end : parser.

Lemma wp_parse_type_args st : plain st -> ahead st < n -> returns (parse_type_args r) st.
Proof. intros. unfold parse_type_args. wp_run. Qed.
#[local] Hint Resolve wp_parse_type_args : parser.

Lemma wp_bound_arg st : plain st -> ahead st < n -> consumes (bound_arg r) st.
Proof. intros. unfold bound_arg. wp_run. Qed.
#[local] Hint Resolve wp_bound_arg : parser.

Lemma wp_parse_trait_bound st : plain st -> ahead st <= n -> consumes (parse_trait_bound r) st.
Proof. intros. unfold parse_trait_bound. wp_run. Qed.
#[local] Hint Resolve wp_parse_trait_bound : parser.

Lemma wp_parse_trait_bounds st : plain st -> ahead st <= n -> consumes (parse_trait_bounds r) st.
Proof. intros. unfold parse_trait_bounds. wp_run. Qed.
#[local] Hint Resolve wp_parse_trait_bounds : parser.

Lemma wp_array_length st : plain st -> returns array_length st.
Proof. intros. unfold array_length. wp_run. Qed.
#[local] Hint Resolve wp_array_length : parser.

Lemma wp_parse_type_primary st : plain st -> ahead st <= n -> consumes (parse_type_primary r) st.
Proof. intros. unfold parse_type_primary. wp_run. Qed.
#[local] Hint Resolve wp_parse_type_primary : parser.

Lemma wp_parse_type st : plain st -> ahead st <= n -> consumes (parse_type r) st.
Proof. intros. unfold parse_type. wp_run. Qed.
#[local] Hint Resolve wp_parse_type : parser.

(** *** Patterns *)

Lemma wp_struct_pattern_field st : plain st -> ahead st <= n -> consumes (struct_pattern_field r) st.
Proof. intros. unfold struct_pattern_field. wp_run. Qed.
#[local] Hint Resolve wp_struct_pattern_field : parser.

Lemma wp_parse_struct_pattern path st : plain st -> ahead st <= n -> consumes (parse_struct_pattern r path) st.
Proof. intros. unfold parse_struct_pattern. wp_run. Qed.
#[local] Hint Resolve wp_parse_struct_pattern : parser.

Lemma wp_parse_tuple_struct_pattern path st :
  plain st -> ahead st <= n -> consumes (parse_tuple_struct_pattern r path) st.
Proof. intros. unfold parse_tuple_struct_pattern. wp_run. Qed.
#[local] Hint Resolve wp_parse_tuple_struct_pattern : parser.

Lemma wp_parse_tuple_pattern st : plain st -> 0 < ahead st <= n -> consumes (parse_tuple_pattern r) st.
Proof. intros. unfold parse_tuple_pattern. wp_run. Qed.
#[local] Hint Resolve wp_parse_tuple_pattern : parser.

Lemma wp_slice_rest st : plain st -> returns slice_rest st.
Proof. intros. unfold slice_rest. wp_run. Qed.
#[local] Hint Resolve wp_slice_rest : parser.

Lemma wp_parse_slice_pattern st : plain st -> 0 < ahead st <= n -> consumes (parse_slice_pattern r) st.
Proof. intros. unfold parse_slice_pattern. wp_run. Qed.
#[local] Hint Resolve wp_parse_slice_pattern : parser.

Lemma wp_parse_range_pattern st : plain st -> ahead st <= n -> consumes (parse_range_pattern r) st.
Proof. intros. unfold parse_range_pattern. wp_run. Qed.
#[local] Hint Resolve wp_parse_range_pattern : parser.

Lemma wp_literal_pattern l st : plain st -> 0 < ahead st -> consumes (literal_pattern l) st.
Proof. intros. unfold literal_pattern. wp_run. Qed.
#[local] Hint Resolve wp_literal_pattern : parser.

Lemma wp_parse_pattern_primary st : plain st -> ahead st <= n -> consumes (parse_pattern_primary r) st.
Proof. intros. unfold parse_pattern_primary. wp_run. Qed.
#[local] Hint Resolve wp_parse_pattern_primary : parser.

Lemma wp_parse_pattern_impl p st : plain st -> ahead st <= n -> consumes (parse_pattern_impl r p) st.
Proof. intros. unfold parse_pattern_impl. wp_run. Qed.

(** *** Statements and blocks *)

Lemma wp_parse_let st : plain st -> 0 < ahead st <= n -> consumes (parse_let r) st.
Proof. intros. unfold parse_let. wp_run. Qed.
Lemma wp_parse_const st : plain st -> 0 < ahead st <= n -> consumes (parse_const r) st.
Proof. intros. unfold parse_const. wp_run. Qed.
#[local] Hint Resolve wp_parse_let wp_parse_const : parser.

Lemma wp_parse_stmt st : plain st -> ahead st < n -> consumes (parse_stmt r) st.
Proof. intros. unfold parse_stmt. wp_run. Qed.
#[local] Hint Resolve wp_parse_stmt : parser.

Lemma wp_block_opt lo stmts closed st : plain st -> returns (block_opt lo stmts closed) st.
Proof. intros. unfold block_opt. wp_run. Qed.
#[local] Hint Resolve wp_block_opt : parser.

Lemma wp_parse_block st : plain st -> ahead st <= n -> consumes (parse_block r) st.
Proof. intros. unfold parse_block. wp_run. Qed.
#[local] Hint Resolve wp_parse_block : parser.

(** *** Aggregates *)

Lemma wp_parse_array_expr st : plain st -> ahead st <= n -> consumes (parse_array_expr r) st.
Proof. intros. unfold parse_array_expr. wp_run. Qed.
Lemma wp_parse_call_or_tuple_expr path st : plain st -> ahead st <= n -> consumes (parse_call_or_tuple_expr r path) st.
Proof. intros. unfold parse_call_or_tuple_expr. wp_run. Qed.
#[local] Hint Resolve wp_parse_array_expr wp_parse_call_or_tuple_expr : parser.

Lemma wp_struct_field_name st : plain st -> consumes struct_field_name st.
Proof. intros. unfold struct_field_name. wp_run. Qed.
#[local] Hint Resolve wp_struct_field_name : parser.

Lemma wp_struct_field st : plain st -> ahead st <= n -> consumes (struct_field r) st.
Proof. intros. unfold struct_field. wp_run. Qed.
#[local] Hint Resolve wp_struct_field : parser.

Lemma wp_parse_struct_expr path st : plain st -> ahead st <= n -> consumes (parse_struct_expr r path) st.
Proof. intros. unfold parse_struct_expr. wp_run. Qed.
#[local] Hint Resolve wp_parse_struct_expr : parser.

(** *** Control flow *)

Lemma wp_condition st : plain st -> ahead st < n -> consumes (condition r) st.
Proof. intros. unfold condition. wp_run. Qed.
Lemma wp_parse_block_expr st : plain st -> ahead st <= n -> consumes (parse_block_expr r) st.
Proof. intros. unfold parse_block_expr. wp_run. Qed.
#[local] Hint Resolve wp_condition wp_parse_block_expr : parser.

Lemma wp_parse_if_expr st : plain st -> ahead st <= n -> consumes (parse_if_expr r) st.
Proof. intros. unfold parse_if_expr. wp_run. Qed.
Lemma wp_parse_while_expr st : plain st -> ahead st <= n -> consumes (parse_while_expr r) st.
Proof. intros. unfold parse_while_expr. wp_run. Qed.
Lemma wp_parse_for_expr st : plain st -> ahead st <= n -> consumes (parse_for_expr r) st.
Proof. intros. unfold parse_for_expr. wp_run. Qed.
Lemma wp_keyword_block k mk st : plain st -> ahead st <= n -> consumes (keyword_block r k mk) st.
Proof. intros. unfold keyword_block. wp_run. Qed.

Lemma wp_match_arm st : plain st -> ahead st < n -> consumes (match_arm r) st.
Proof. intros. unfold match_arm. wp_run. Qed.
#[local] Hint Resolve wp_match_arm : parser.

Lemma wp_parse_match_expr st : plain st -> ahead st <= n -> consumes (parse_match_expr r) st.
Proof. intros. unfold parse_match_expr. wp_run. Qed.
Lemma wp_parse_lambda_expr st : plain st -> ahead st <= n -> consumes (parse_lambda_expr r) st.
Proof. intros. unfold parse_lambda_expr. wp_run. Qed.
#[local] Hint Resolve wp_parse_if_expr wp_parse_while_expr wp_parse_for_expr wp_keyword_block wp_parse_match_expr
  wp_parse_lambda_expr : parser.

(** *** Prefix expressions *)

Lemma wp_integer_literal_expr v span st : plain st -> returns (integer_literal_expr v span) st.
Proof.
  intros Hp. unfold wp, integer_literal_expr. destruct (validate_integer_literal_range _ _ _ _ _).
  - destruct (suffix_in _ _); [|destruct (2 ^ 63 <=? v)%Z]; eexists _, _; (split; [reflexivity|by split; [apply past_refl|]]).
  - eexists _, _. split; [reflexivity|by split; [apply past_refl|]].
Qed.

Lemma wp_numeric_literal_expr l span st : plain st -> returns (numeric_literal_expr l span) st.
Proof. intros. unfold numeric_literal_expr. wp_run. Qed.

Lemma wp_invalid_numeric t st : plain st -> consumes (invalid_numeric_literal_error t) st.
Proof. intros. eexists _, _. split; [reflexivity|by split; [apply past_refl|]]. Qed.

Lemma wp_parse_negative_integer_literal st : plain st -> returns parse_negative_integer_literal st.
Proof.
  intros Hp. assert (Hd : returns (ret (A := option Expr) None) st) by (by apply wp_ret).
  unfold wp, parse_negative_integer_literal. destruct (head (p_tokens st)) as [[k s]|]; [|exact Hd].
  destruct k; try exact Hd. destruct v; [|exact Hd].
  destruct (suffix_in _ _); [exact Hd|]. destruct (validate_integer_literal_range _ _ _ _ _).
  - eexists _, _. split; [reflexivity|]. split; [|done]. destruct (p_tokens st) as [|t l] eqn:E; [by apply past_eq|].
    by apply (past_tokens _ [t]).
  - eexists _, _. split; [reflexivity|by split; [apply past_refl|]].
Qed.
#[local] Hint Resolve wp_integer_literal_expr wp_numeric_literal_expr wp_invalid_numeric
  wp_parse_negative_integer_literal : parser.

Lemma wp_unary f op st :
  (forall st1, plain st1 -> ahead st1 < n -> consumes (f PREC_UNARY) st1) -> plain st -> 0 < ahead st <= n ->
  consumes (unary f op) st.
Proof. intros. unfold unary. wp_run. Qed.

Lemma wp_reference f st :
  (forall st1, plain st1 -> ahead st1 < n -> consumes (f PREC_UNARY) st1) -> plain st -> 0 < ahead st <= n ->
  consumes (reference f) st.
Proof. intros. unfold reference. wp_run. Qed.

Lemma wp_parenthesised f lo st :
  (forall st1, plain st1 -> ahead st1 < n -> consumes (f 0) st1) -> plain st -> 0 < ahead st <= n ->
  consumes (parenthesised f lo) st.
Proof. intros. unfold parenthesised. wp_run. Qed.

Lemma wp_negation f lo st :
  (forall st1, plain st1 -> ahead st1 < n -> consumes (f PREC_UNARY) st1) -> plain st -> 0 < ahead st <= n ->
  consumes (negation f lo) st.
Proof. intros. unfold negation. wp_run. Qed.
#[local] Hint Resolve wp_unary wp_reference wp_parenthesised wp_negation : parser.

Lemma wp_literal l st : plain st -> 0 < ahead st -> consumes (literal l) st.
Proof. intros. unfold literal. wp_run. Qed.
Lemma wp_optional_value st : plain st -> ahead st < n -> returns (optional_value r) st.
Proof. intros. unfold optional_value, check_expr. wp_run. Qed.
Lemma wp_path_expr lo st : plain st -> ahead st <= n -> consumes (path_expr r lo) st.
Proof. intros. unfold path_expr. wp_run. Qed.
#[local] Hint Resolve wp_literal wp_optional_value wp_path_expr : parser.

Lemma wp_parse_prefix st : plain st -> ahead st <= n -> consumes (parse_prefix lex r) st.
Proof.
  intros. unfold parse_prefix, parse_loop_expr, parse_try_block_expr, parse_async_block, parse_parallel_block. wp_run.
Qed.
Lemma wp_parse_simple_prefix st : plain st -> ahead st <= n -> consumes (parse_simple_prefix lex r) st.
Proof. intros. unfold parse_simple_prefix. wp_run. Qed.
#[local] Hint Resolve wp_parse_prefix wp_parse_simple_prefix : parser.

(** *** Infix expressions *)

Lemma wp_field_or_method e st : plain st -> ahead st <= n -> returns (field_or_method r e) st.
Proof. intros. unfold field_or_method. wp_run. Qed.
#[local] Hint Resolve wp_field_or_method : parser.

Lemma wp_infix_kind e k p st : plain st -> ahead st < n -> returns (infix_kind r e k p) st.
Proof. intros. unfold infix_kind, check_expr. wp_run. Qed.
#[local] Hint Resolve wp_infix_kind : parser.

Lemma wp_infix_round p e st : plain st -> ahead st <= n ->
  wp (infix_round r p e) (fun x st' => match x with inl _ => ahead st' < ahead st | inr _ => True end) st.
Proof. intros. unfold infix_round, parse_infix. wp_run. Qed.

Lemma wp_infix_loop p e st : plain st -> ahead st <= n -> returns (loop (infix_round r p) e) st.
Proof. intros. apply wp_rounds; [done|]. intros. apply wp_infix_round; [done|lia]. Qed.
#[local] Hint Resolve wp_infix_loop : parser.

Lemma wp_parse_expr_prec p st : plain st -> ahead st <= n -> consumes (parse_expr_prec lex r p) st.
Proof. intros. apply wp_bind. wp_call. wp_call. lia. Qed.
Lemma wp_parse_simple_expr_prec p st : plain st -> ahead st <= n -> consumes (parse_simple_expr_prec lex r p) st.
Proof. intros. apply wp_bind. wp_call. wp_call. lia. Qed.

Lemma step_ok : rec_ok (S n) (step lex r).
Proof.
  intros st Hp Hl. assert (ahead st <= n) by lia.
  split_and!; simpl; intros; auto using wp_parse_expr_prec, wp_parse_simple_expr_prec, wp_parse_if_expr,
    wp_parse_type, wp_parse_pattern_impl, wp_parse_pattern_primary.
Qed.

(** *** Declarations *)

Lemma wp_parse_visibility st : plain st -> returns parse_visibility st.
Proof. intros. unfold parse_visibility. wp_run. Qed.
Lemma wp_parse_self_param st : plain st -> returns parse_self_param st.
Proof. intros. unfold parse_self_param. wp_run. Qed.
#[local] Hint Resolve wp_parse_visibility wp_parse_self_param : parser.

Lemma wp_parse_param st : plain st -> ahead st < n -> consumes (parse_param r) st.
Proof. intros. unfold parse_param. wp_run. Qed.
Lemma wp_parse_type_param st : plain st -> ahead st < n -> consumes (parse_type_param r) st.
Proof. intros. unfold parse_type_param. wp_run. Qed.
#[local] Hint Resolve wp_parse_param wp_parse_type_param : parser.

Lemma wp_parse_type_params st : plain st -> ahead st < n -> returns (parse_type_params r) st.
Proof. intros. unfold parse_type_params. wp_run. Qed.
#[local] Hint Resolve wp_parse_type_params : parser.

Lemma wp_optional_type_params st : plain st -> ahead st < n -> returns (optional_type_params r) st.
Proof. intros. unfold optional_type_params. wp_run. Qed.
#[local] Hint Resolve wp_optional_type_params : parser.

Lemma wp_parse_optional_where_clause params terminators st :
  plain st -> ahead st < n -> returns (parse_optional_where_clause r params terminators) st.
Proof. intros. unfold parse_optional_where_clause, check_any. wp_run. Qed.
#[local] Hint Resolve wp_parse_optional_where_clause : parser.

Lemma wp_parse_optional_contract_clauses st : plain st -> returns (parse_optional_contract_clauses lex r) st.
Proof. intros. unfold parse_optional_contract_clauses. wp_run. Qed.
#[local] Hint Resolve wp_parse_optional_contract_clauses : parser.

Lemma wp_optional_self_param st : plain st -> returns optional_self_param st.
Proof. intros. unfold optional_self_param, check_self_param. wp_run. Qed.
Lemma wp_optional_return_type st : plain st -> ahead st < n -> returns (optional_return_type r) st.
Proof. intros. unfold optional_return_type. wp_run. Qed.
#[local] Hint Resolve wp_optional_self_param wp_optional_return_type : parser.

Lemma wp_parse_function vis is_async st : plain st -> ahead st < n -> consumes (parse_function lex r vis is_async) st.
Proof. intros. unfold parse_function. wp_run. Qed.
Lemma wp_expect_assign st : plain st -> returns expect_assign st.
Proof. intros. unfold expect_assign. wp_run. Qed.
#[local] Hint Resolve wp_parse_function wp_expect_assign : parser.

Lemma wp_parse_type_alias_decl vis st : plain st -> ahead st < n -> returns (parse_type_alias_decl r vis) st.
Proof. intros. unfold parse_type_alias_decl. wp_run. Qed.
Lemma wp_parse_const_decl vis st : plain st -> ahead st < n -> returns (parse_const_decl r vis) st.
Proof. intros. unfold parse_const_decl. wp_run. Qed.
Lemma wp_parse_static_decl vis st : plain st -> ahead st < n -> returns (parse_static_decl r vis) st.
Proof. intros. unfold parse_static_decl. wp_run. Qed.
Lemma wp_import_tail st : plain st -> returns import_tail st.
Proof. intros. unfold import_tail. wp_run. Qed.
#[local] Hint Resolve wp_parse_type_alias_decl wp_parse_const_decl wp_parse_static_decl wp_import_tail : parser.

Lemma wp_parse_import_decl st : plain st -> returns parse_import_decl st.
Proof. intros. unfold parse_import_decl. wp_run. Qed.
Lemma wp_named_field vis st : plain st -> ahead st < n -> consumes (named_field r vis) st.
Proof. intros. unfold named_field. wp_run. Qed.
Lemma wp_visible_field st : plain st -> ahead st < n ->
  consumes (let! vis := parse_visibility in named_field r vis) st.
Proof. intros. apply wp_bind. wp_call. eapply wp_conseq; [apply wp_named_field; [done|lia]|]. intros; simpl in *; lia. Qed.
Lemma wp_unnamed_field st : plain st -> ahead st < n -> consumes (unnamed_field r) st.
Proof. intros. unfold unnamed_field. wp_run. Qed.
#[local] Hint Resolve wp_parse_import_decl wp_named_field wp_visible_field wp_unnamed_field : parser.

Lemma wp_struct_fields st : plain st -> ahead st < n -> returns (struct_fields r) st.
Proof. intros. unfold struct_fields. wp_run. Qed.
#[local] Hint Resolve wp_struct_fields : parser.

Lemma wp_parse_struct_decl vis st : plain st -> ahead st < n -> returns (parse_struct_decl r vis) st.
Proof. intros. unfold parse_struct_decl. wp_run. Qed.
Lemma wp_variant_payload st : plain st -> ahead st < n -> returns (variant_payload r) st.
Proof. intros. unfold variant_payload. wp_run. Qed.
#[local] Hint Resolve wp_parse_struct_decl wp_variant_payload : parser.

Lemma wp_enum_variant st : plain st -> ahead st < n -> consumes (enum_variant r) st.
Proof. intros. unfold enum_variant. wp_run. Qed.
#[local] Hint Resolve wp_enum_variant : parser.

Lemma wp_parse_enum_decl vis st : plain st -> ahead st < n -> returns (parse_enum_decl r vis) st.
Proof. intros. unfold parse_enum_decl. wp_run. Qed.
Lemma wp_class_header st : plain st -> returns class_header st.
Proof. intros. unfold class_header. wp_run. Qed.
Lemma wp_class_member st : plain st -> ahead st < n -> consumes (class_member lex r) st.
Proof. intros. unfold class_member. wp_run. Qed.
#[local] Hint Resolve wp_parse_enum_decl wp_class_header wp_class_member : parser.

Lemma wp_parse_class_decl vis st : plain st -> ahead st < n -> returns (parse_class_decl lex r vis) st.
Proof. intros. unfold parse_class_decl. wp_run. Qed.
Lemma wp_trait_supers st : plain st -> returns trait_supers st.
Proof. intros. unfold trait_supers. wp_run. Qed.
Lemma wp_trait_const st : plain st -> ahead st < n -> consumes (trait_const r) st.
Proof. intros. unfold trait_const. wp_run. Qed.
#[local] Hint Resolve wp_parse_class_decl wp_trait_supers wp_trait_const : parser.

Lemma wp_trait_item st : plain st -> ahead st < n -> consumes (trait_item lex r) st.
Proof. intros. unfold trait_item. wp_run. Qed.
#[local] Hint Resolve wp_trait_item : parser.

Lemma wp_parse_trait_decl vis st : plain st -> ahead st < n -> returns (parse_trait_decl lex r vis) st.
Proof. intros. unfold parse_trait_decl. wp_run. Qed.
Lemma wp_impl_target first st : plain st -> ahead st < n -> returns (impl_target r first) st.
Proof. intros. unfold impl_target. wp_run. Qed.
Lemma wp_impl_item st : plain st -> ahead st < n -> consumes (impl_item lex r) st.
Proof. intros. unfold impl_item. wp_run. Qed.
#[local] Hint Resolve wp_parse_trait_decl wp_impl_target wp_impl_item : parser.

Lemma wp_parse_impl_decl vis st : plain st -> ahead st < n -> returns (parse_impl_decl lex r vis) st.
Proof. intros. unfold parse_impl_decl. wp_run. Qed.
#[local] Hint Resolve wp_parse_impl_decl : parser.

(** *** Attributes and foreign declarations *)

Lemma wp_consume_attribute_assign st : plain st -> returns consume_attribute_assign st.
Proof. intros. unfold consume_attribute_assign. wp_run. Qed.
Lemma wp_expect_string_literal context st : plain st -> consumes (expect_string_literal context) st.
Proof. intros. unfold expect_string_literal. wp_run. Qed.
#[local] Hint Resolve wp_consume_attribute_assign wp_expect_string_literal : parser.

Lemma wp_parse_attribute attrs st : plain st -> consumes (parse_attribute attrs) st.
Proof. intros. unfold parse_attribute. wp_run. Qed.
#[local] Hint Resolve wp_parse_attribute : parser.

Lemma wp_parse_outer_attributes st : plain st -> returns parse_outer_attributes st.
Proof. intros. unfold parse_outer_attributes. wp_run. Qed.
#[local] Hint Resolve wp_parse_outer_attributes : parser.

Lemma wp_extern_function vis u st : plain st -> ahead st < n -> consumes (extern_function r vis u) st.
Proof. intros. unfold extern_function. wp_run. Qed.
Lemma wp_extern_static vis st : plain st -> ahead st < n -> consumes (extern_static r vis) st.
Proof. intros. unfold extern_static. wp_run. Qed.
#[local] Hint Resolve wp_extern_function wp_extern_static : parser.

Lemma wp_extern_item st : plain st -> ahead st < n -> consumes (extern_item r) st.
Proof. intros. unfold extern_item. wp_run. Qed.
#[local] Hint Resolve wp_extern_item : parser.

Lemma wp_parse_extern_block_decl abi attrs u st :
  plain st -> ahead st < n -> returns (parse_extern_block_decl r abi attrs u) st.
Proof. intros. unfold parse_extern_block_decl. wp_run. Qed.
Lemma wp_parse_extern_fn_decl vis abi attrs u st :
  plain st -> ahead st < n -> returns (parse_extern_fn_decl r vis abi attrs u) st.
Proof. intros. unfold parse_extern_fn_decl. wp_run. Qed.
#[local] Hint Resolve wp_parse_extern_block_decl wp_parse_extern_fn_decl : parser.

Lemma wp_parse_extern_decl vis attrs u st : plain st -> ahead st < n -> returns (parse_extern_decl r vis attrs u) st.
Proof. intros. unfold parse_extern_decl. wp_run. Qed.
#[local] Hint Resolve wp_parse_extern_decl : parser.

(** *** Programs *)

Lemma wp_plain_decl u attrs message m st :
  plain st -> 0 < ahead st < n -> (forall st1, plain st1 -> ahead st1 < n -> returns m st1) ->
  consumes (plain_decl u attrs message m) st.
Proof. intros Hp Hl Hm. unfold plain_decl. wp_run. Qed.
#[local] Hint Resolve wp_plain_decl : parser.

Lemma wp_decl_kind_of vis attrs u a o st :
  plain st -> ahead st < n -> (o <> None -> 0 < ahead st) -> consumes (decl_kind_of lex r vis attrs u a o) st.
Proof.
  intros Hp Hl Ho. unfold decl_kind_of. destruct o as [k|]; [specialize (Ho ltac:(done))|]; wp_run.
Qed.

(** What follows the modifiers of a declaration. *)
Definition decl_tail (lo : Z) (vis : Visibility) (attrs : ParsedFfiAttrs) (u a : bool) : P Decl :=
  let! c := current in
  let! kind := decl_kind_of lex r vis attrs u a (tok_kind <$> c) in
  let! s := span_at lo in ret (mkDecl kind s).

Lemma wp_decl_tail lo vis attrs u a st : plain st -> ahead st < n -> consumes (decl_tail lo vis attrs u a) st.
Proof.
  intros Hp Hl. unfold decl_tail. apply wp_bind, wp_current; [done|intros H0 t Ht|intros H0]; apply wp_bind;
    (eapply wp_conseq; [apply wp_decl_kind_of; [done|done|done]|]); intros; wp_run.
Qed.
#[local] Hint Resolve wp_decl_tail : parser.

Lemma parse_decl_eq : parse_decl lex r =
  let! sp := current_span in
  let! attrs := parse_outer_attributes in
  let! vis := parse_visibility in
  let! u := consumed TkUnsafeKw in
  let! a := consumed TkAsyncKw in decl_tail (span_lo sp) vis attrs u a.
Proof. reflexivity. Qed.

Lemma wp_parse_decl st : plain st -> ahead st < n -> consumes (parse_decl lex r) st.
Proof. intros. rewrite parse_decl_eq. wp_run. Qed.
#[local] Hint Resolve wp_parse_decl : parser.

(** [m] has consumed a token when it returns, also when it fails. *)
Definition advances {A} (m : P A) (st : Parser) : Prop :=
  exists res st', m st = Some (res, st') /\ plain st' /\ ahead st' < ahead st.

Lemma advances_bind {A B} (m : P A) (f : A -> P B) st :
  advances m st -> (forall a st', plain st' -> ahead st' < ahead st -> returns (f a) st') -> advances (pbind m f) st.
Proof.
  intros (res & st1 & E & Hp & Hl) Hf. unfold advances, pbind. rewrite E. destruct res as [a|e].
  - destruct (Hf a st1 Hp Hl) as (res & st2 & E2 & (Hp2 & Hl2 & _) & _). exists res, st2. split_and!; [done|done|lia].
  - by exists (Err e), st1.
Qed.

Lemma advances_stay {A B} (m : P A) (f : A -> P B) a st :
  m st = Some (Ok a, st) -> advances (f a) st -> advances (pbind m f) st.
Proof. intros E Hf. unfold advances, pbind. by rewrite E. Qed.

Lemma advances_advance st : plain st -> 0 < ahead st -> advances advance st.
Proof.
  intros Hp Hl. destruct (wp_advance (fun _ st' => ahead st' < ahead st) st) as (res & st' & E & (Hp' & _) & H);
    [done|done|intros; lia|]. exists res, st'. split_and!; [done|done|]. destruct res; [done|].
  unfold advance in E. by destruct (p_tokens st).
Qed.

Lemma consumed_other k st : token_is k (head (p_tokens st)) = false -> consumed k st = Some (Ok false, st).
Proof. intros E. unfold consumed, consume, check, pbind, get. by rewrite E. Qed.

Lemma consumed_this k st : plain st -> token_is k (head (p_tokens st)) = true -> advances (consumed k) st.
Proof.
  intros Hp E. apply advances_bind; [|intros; wp_run]. apply (advances_stay _ _ true); [by unfold check, get; rewrite E|].
  apply advances_advance; [done|]. destruct (p_tokens st); [done|simpl; lia].
Qed.

Lemma loop_n_S {S A} k (body : S -> P (S + A)) s :
  loop_n (Datatypes.S k) body s =
  let! r := body s in match r with inl s' => loop_n k body s' | inr a => ret a end.
Proof. reflexivity. Qed.

Lemma attributes_none st :
  token_is TkHash (head (p_tokens st)) = false -> parse_outer_attributes st = Some (Ok attrs_default, st).
Proof. intros E. unfold parse_outer_attributes, loop. simpl. unfold pbind at 1 2. by rewrite consumed_other. Qed.

Lemma attributes_advance st :
  plain st -> token_is TkHash (head (p_tokens st)) = true -> advances parse_outer_attributes st.
Proof.
  intros Hp E. unfold parse_outer_attributes, loop, advances. rewrite (loop_n_S (S (ahead st))).
  match goal with |- exists res st', ?m st = _ /\ _ => change (advances m st) end.
  apply advances_bind.
  - apply advances_bind; [by apply consumed_this|]. intros. wp_run.
  - intros [attrs|attrs] st' Hp' Hl; [|wp_run].
    apply (wp_loop_n (fun _ _ => True) _ _ (ahead st)); [|done|lia|done|lia].
    intros. wp_run.
Qed.

(** A declaration that starts with one of the tokens recovery stops at consumes
    it. *)
Lemma decl_advances st t l :
  p_tokens st = t :: l -> starts_decl (tok_kind t) = true -> plain st -> ahead st < n -> advances (parse_decl lex r) st.
Proof.
  intros E Hs Hp Hn. assert (Hl : 0 < ahead st) by (rewrite E; simpl; lia).
  rewrite parse_decl_eq. eapply advances_stay; [reflexivity|].
  destruct (token_is TkHash (head (p_tokens st))) eqn:Eh.
  { apply advances_bind; [by apply attributes_advance|]. intros. wp_run. }
  eapply advances_stay; [by apply attributes_none|]. 
  eapply advances_stay.
  { unfold parse_visibility, pbind. rewrite consumed_other; [|rewrite E; simpl; by destruct (tok_kind t)].
    unfold consume, check, pbind, get. rewrite E. simpl. destruct (tok_kind t); try discriminate; reflexivity. }
  destruct (token_is TkUnsafeKw (head (p_tokens st))) eqn:Eu.
  { apply advances_bind; [by apply consumed_this|]. intros. wp_run. }
  eapply advances_stay; [by apply consumed_other|].
  eapply advances_stay; [apply consumed_other; rewrite E; simpl; by destruct (tok_kind t)|].
  unfold decl_tail. eapply advances_stay; [reflexivity|].
  apply advances_bind; [|intros; wp_run]. cbn beta. rewrite E in Eh, Eu. rewrite E. simpl in Eh, Eu |- *.
  destruct (tok_kind t); try discriminate; cbn;
    (apply advances_bind; [by apply advances_advance|intros; wp_run]).
Qed.

Lemma recover_tokens_le l : List.length (recover_tokens l) <= List.length l.
Proof. induction l as [|t l IH]; simpl; [lia|]. destruct (starts_decl _); [simpl; lia|]. destruct (kind_is _ _); lia. Qed.

Lemma recover_tokens_suffix l : recover_tokens l `suffix_of` l.
Proof.
  induction l as [|t l IH]; simpl; [done|]. destruct (starts_decl _); [done|].
  destruct (kind_is _ _); [by exists [t]|by apply suffix_cons_r].
Qed.

Lemma recover_tokens_lt t l : starts_decl (tok_kind t) = false -> List.length (recover_tokens (t :: l)) <= List.length l.
Proof. intros E. simpl. rewrite E. destruct (kind_is _ _); [done|apply recover_tokens_le]. Qed.

Lemma wp_program_round decls st :
  plain st -> ahead st < n ->
  wp (program_round lex r decls) (fun x st' => match x with inl _ => ahead st' < ahead st | inr _ => p_tokens st' = [] end) st.
Proof.
  intros Hp Hn. unfold wp, program_round. destruct (p_tokens st) as [|t l] eqn:E.
  { eexists _, _. split; [reflexivity|]. split; [by apply past_refl|done]. }
  rewrite <- E in *. destruct (wp_parse_decl st Hp Hn) as (res & st' & Ed & Hp' & HQ). rewrite Ed.
  destruct res as [d|[e|raw|raw ty|msg]]; try (eexists _, _; split; [reflexivity|by split]).
  eexists _, _. split; [reflexivity|]. simpl. split.
  - eapply past_trans; [done|]. destruct (recover_tokens_suffix (p_tokens st')) as [l' El].
    apply (past_tokens _ l'); [apply Hp'|exact El].
  - destruct Hp' as (Hp' & Hl & Hs). pose proof (recover_tokens_le (p_tokens st')).
    destruct (decide (ahead st' < ahead st)); [lia|]. destruct (starts_decl (tok_kind t)) eqn:Es.
    + destruct (decl_advances st t l E Es Hp Hn) as (res & st2 & E2 & _ & Hl2). rewrite Ed in E2. simplify_eq. lia.
    + apply suffix_length_eq in Hs; [|lia]. rewrite Hs, E. pose proof (recover_tokens_lt t l Es). simpl in *. lia.
Qed.

Lemma wp_parse_program st :
  plain st -> ahead st < n -> wp (parse_program lex r) (fun _ st' => p_tokens st' = [] /\ p_errors st' = []) st.
Proof.
  intros Hp Hn. unfold parse_program. apply wp_bind.
  apply (wp_conseq _ _ (fun _ st' => p_tokens st' = [])).
  { apply wp_rounds; [done|]. intros. apply wp_program_round; [done|lia]. }
  intros decls st' Hp' _ E. apply wp_bind, wp_get; [done|]. destruct (p_errors st') eqn:Ee; [|by apply wp_fail].
  by apply wp_ret.
Qed.
End totality.

Lemma parser_at_ok (lex : string -> list Token) (n : nat) : rec_ok n (parser_at lex n).
Proof. induction n as [|n IH]; [intros st _ Hl; lia|by apply step_ok]. Qed.

(** ** The parser comes to an end *)

(** The tokens of a small program. *)
Definition tok (k : TokenKind) (lo hi : Z) : Token := mkToken k (span_new lo hi).
Definition sample_source : string := "def f() { g(1 + 2, x) }".
Definition sample_tokens : list Token :=
  [tok TkDefKw 0 3; tok TkIdent 4 5; tok TkLParen 5 6; tok TkRParen 6 7; tok TkLBrace 8 9; tok TkIdent 10 11;
   tok TkLParen 11 12; tok (TkInt (Some 1%Z)) 12 13; tok TkPlus 14 15; tok (TkInt (Some 2%Z)) 16 17; tok TkComma 17 18;
   tok TkIdent 19 20; tok TkRParen 20 21; tok TkRBrace 22 23].

(** On any stream of tokens without f-strings and contract clauses, the
    expression parser returns, with an expression or an error, once its fuel
    exceeds the number of tokens; it leaves a suffix of the stream, and a
    parsed expression has consumed at least one token. *)
Theorem expression_parser_total (lex : string -> list Token) (n p : nat) (st : Parser) :
  plain st -> ahead st < n ->
  exists res st', rec_expr (parser_at lex n) p st = Some (res, st') /\ p_tokens st' `suffix_of` p_tokens st /\
    (forall e, res = Ok e -> ahead st' < ahead st).
Proof.
  intros Hp Hn. destruct (parser_at_ok lex n st Hp Hn) as (He & _). destruct (He p) as (res & st' & E & Hp' & HQ).
  exists res, st'. split_and!; [done|apply Hp'|]. by intros e ->.
Qed.

Lemma expression_parser_total_witness :
  exists res st', rec_expr (parser_at (fun _ => []) 15) 0 (parser_new (drop 5 sample_tokens) sample_source) =
    Some (res, st') /\ p_tokens st' `suffix_of` drop 5 sample_tokens /\ (forall e, res = Ok e -> ahead st' < 9).
Proof.
  apply (expression_parser_total (fun _ => []) 15 0 (parser_new (drop 5 sample_tokens) sample_source)).
  - by repeat constructor.
  - simpl. lia.
Defined.

(** C36: On any stream of tokens without f-strings and contract clauses, the
    parser of a program returns once its fuel exceeds the number of tokens:
    recovery from errors always makes progress.  A program that is accepted was
    read to the last token and no error was recorded. *)
Theorem program_parser_total (lex : string -> list Token) (n : nat) (st : Parser) :
  plain st -> ahead st < n ->
  exists res st', parse_program lex (parser_at lex n) st = Some (res, st') /\
    (forall prog, res = Ok prog -> p_tokens st' = [] /\ p_errors st' = []).
Proof.
  intros Hp Hn. destruct (wp_parse_program lex n _ (parser_at_ok lex n) st Hp Hn) as (res & st' & E & _ & HQ).
  exists res, st'. split; [done|]. by intros prog ->.
Qed.

Lemma program_parser_total_witness :
  exists res st', parse_program (fun _ => []) (parser_at (fun _ => []) 15) (parser_new sample_tokens sample_source) =
    Some (res, st') /\ (forall prog, res = Ok prog -> p_tokens st' = [] /\ p_errors st' = []).
Proof.
  apply (program_parser_total (fun _ => []) 15 (parser_new sample_tokens sample_source)).
  - by repeat constructor.
  - simpl. lia.
Defined.
