(* ===== verification/ParserPratt.v ===== *)
(** Operator precedence: what the expression parser reads back.

    [sx] is the surface syntax of operator expressions (literals, paths, calls,
    method calls, fields, indices, arrays, parentheses, prefix and postfix
    operators, binary operators and assignments), [print] its tokens, and
    [denotes x e] says that the expression [e] of the parser has the structure
    of [x].  [canonical x] says that [x] has parentheses where the levels of its
    operators need them, and [parenthesize] adds them.  A canonical expression
    is read back as itself ([expressions_read_back]), so that no two of them
    have the same tokens ([operator_grammar_unambiguous]); every expression can
    be written ([every_expression_writable]).  Forms that are read otherwise
    than the language reference says are at the end. *)

From Stdlib Require Import Ascii String.
From stdpp Require Import pretty.
From S2P Require Import Prelude Strs Ast Token Parser ParserDecl ParserInv.

#[local] Open Scope string_scope.
#[local] Open Scope list_scope.

(** ** Surface syntax *)

Inductive infix_op := OBin (op : BinOp) | OAssign | OCompound (op : AssignOp).

Inductive sx :=
| XInt (n : Z)
| XNegInt (n : Z)
| XBool (b : bool)
| XNull
| XString (s : string)
| XSelf
| XPath (names : list string)
| XParen (x : sx)
| XArray (xs : list sx)
| XCall (names : list string) (args : list sx)
| XUnary (op : UnOp) (x : sx)
| XAwait (x : sx)
| XInfix (o : infix_op) (l r : sx)
| XField (x : sx) (name : string)
| XMethod (x : sx) (name : string) (args : list sx)
| XIndex (x i : sx)
| XTry (x : sx).

(** The tokens of an operator and its level: from the loosest, assignments, over
    [||], [&&], comparisons, [|], [^], [&], shifts, sums and products to prefix
    operators (11), postfix ones (12) and [?]. *)
Definition op_token (o : infix_op) : option (TokenKind * nat) :=
  match o with
  | OAssign => Some (TkAssign, 1)
  | OCompound AAddAssign => Some (TkAddAssign, 1)
  | OCompound ASubAssign => Some (TkSubAssign, 1)
  | OCompound AMulAssign => Some (TkMulAssign, 1)
  | OCompound ADivAssign => Some (TkDivAssign, 1)
  | OCompound AModAssign => Some (TkModAssign, 1)
  | OCompound _ => None
  | OBin BOr => Some (TkOr, 2)
  | OBin BAnd => Some (TkAnd, 3)
  | OBin BEq => Some (TkEq, 4) | OBin BNotEq => Some (TkNotEq, 4) | OBin BLt => Some (TkLt, 4)
  | OBin BLe => Some (TkLe, 4) | OBin BGt => Some (TkGt, 4) | OBin BGe => Some (TkGe, 4)
  | OBin BBitOr => Some (TkBitOr, 5)
  | OBin BBitXor => Some (TkBitXor, 6)
  | OBin BBitAnd => Some (TkBitAnd, 7)
  | OBin BShl => Some (TkShl, 8) | OBin BShr => Some (TkShr, 8)
  | OBin BAdd => Some (TkPlus, 9) | OBin BSub => Some (TkMinus, 9)
  | OBin BMul => Some (TkStar, 10) | OBin BDiv => Some (TkSlash, 10) | OBin BMod => Some (TkPercent, 10)
  | _ => None
  end.

Definition unary_tokens (op : UnOp) : option (list TokenKind) :=
  match op with
  | Neg => Some [TkMinus] | Not => Some [TkNot] | BitNot => Some [TkBitNot] | Deref => Some [TkStar]
  | Ref => Some [TkBitAnd] | RefMut => Some [TkBitAnd; TkMutKw]
  | _ => None
  end.

(** A token to print: its kind and what its text in the source has to be. *)
Inductive text := TAny | TName (s : string) | TNumber.
Notation item := (TokenKind * text)%type.

Definition sign (k : TokenKind) : item := (k, TAny).

Fixpoint sep_by (sep : item) (ls : list (list item)) : list item :=
  match ls with [] => [] | [l] => l | l :: ls' => l ++ sep :: sep_by sep ls' end.

Definition print_path (names : list string) : list item :=
  sep_by (sign TkColonColon) (map (fun s => [(TkIdent, TName s)]) names).

(** The words [and], [or] and [not] stand for [&&], [||] and [!]. *)
Definition in_words (words : bool) (k : TokenKind) : TokenKind :=
  if words then match k with TkAnd => TkAndKw | TkOr => TkOrKw | TkNot => TkNotKw | _ => k end else k.

Section spelling.
Context (words : bool).

Fixpoint print (x : sx) : list item :=
  match x with
  | XInt n => [(TkInt (Some n), TNumber)]
  | XNegInt n => [sign TkMinus; (TkInt (Some n), TNumber)]
  | XBool b => [sign (if b then TkTrueKw else TkFalseKw)]
  | XNull => [sign TkNullKw]
  | XString s => [sign (TkString (Some s))]
  | XSelf => [(TkSelfLowerKw, TName "self")]
  | XPath names => print_path names
  | XParen y => sign TkLParen :: print y ++ [sign TkRParen]
  | XArray xs => sign TkLBracket :: sep_by (sign TkComma) (map print xs) ++ [sign TkRBracket]
  | XCall names args =>
      print_path names ++ sign TkLParen :: sep_by (sign TkComma) (map print args) ++ [sign TkRParen]
  | XUnary op y => map (fun k => sign (in_words words k)) (default [] (unary_tokens op)) ++ print y
  | XAwait y => sign TkAwaitKw :: print y
  | XInfix o l r => print l ++ map (fun k => sign (in_words words k)) (option_list (fst <$> op_token o)) ++ print r
  | XField y name => print y ++ [sign TkDot; (TkIdent, TName name)]
  | XMethod y name args =>
      print y ++ sign TkDot :: (TkIdent, TName name) :: sign TkLParen ::
      sep_by (sign TkComma) (map print args) ++ [sign TkRParen]
  | XIndex y i => print y ++ sign TkLBracket :: print i ++ [sign TkRBracket]
  | XTry y => print y ++ [sign TkQuestion]
  end.

(** ** Levels

    [ledge x] is the loosest operator on the left edge of [x]: [x] is read as a
    whole where operators looser than that are left for later.  [redge x] is the
    level an operator after [x] must not exceed, since the operand at the right
    edge of [x] would take it. *)

Definition op_level (o : infix_op) : nat := match op_token o with Some (_, q) => q | None => 0 end.
(** Binary operators associate to the left, assignments to the right. *)
Definition right_level (o : infix_op) : nat := match o with OBin _ => op_level o | _ => 0 end.

Definition TOP : nat := 100.

Fixpoint ledge (x : sx) : nat :=
  match x with
  | XInfix o l _ => Nat.min (op_level o) (ledge l)
  | XField y _ | XMethod y _ _ | XIndex y _ => Nat.min 12 (ledge y)
  | XTry y => Nat.min 13 (ledge y)
  | _ => TOP
  end.

Fixpoint redge (x : sx) : nat :=
  match x with
  | XInfix o _ r => Nat.min (right_level o) (redge r)
  | XUnary _ y | XAwait y => Nat.min 11 (redge y)
  | _ => TOP
  end.

Fixpoint starts_with_int (x : sx) : bool :=
  match x with
  | XInt _ => true
  | XInfix _ y _ | XField y _ | XMethod y _ _ | XIndex y _ | XTry y => starts_with_int y
  | _ => false
  end.

Fixpoint canonical (x : sx) : bool :=
  match x with
  | XInt n => (0 <=? n)%Z && (n <? 2 ^ 63)%Z
  | XNegInt n => (0 <? n)%Z && (n <=? 2 ^ 63)%Z
  | XBool _ | XNull | XString _ | XSelf => true
  | XPath names => negb (bool_decide (names = []))
  | XParen y => canonical y
  | XArray xs => forallb canonical xs
  | XCall names args => negb (bool_decide (names = [])) && forallb canonical args
  | XUnary op y =>
      is_some (unary_tokens op) && Nat.ltb 11 (ledge y) && canonical y &&
      negb (bool_decide (op = Neg) && starts_with_int y)
  | XAwait y => Nat.ltb 11 (ledge y) && canonical y
  | XInfix o l r =>
      is_some (op_token o) && Nat.leb (op_level o) (redge l) && Nat.ltb (right_level o) (ledge r) &&
      canonical l && canonical r
  | XField y _ => Nat.leb 12 (redge y) && canonical y
  | XMethod y _ args => Nat.leb 12 (redge y) && canonical y && forallb canonical args
  | XIndex y i => Nat.leb 12 (redge y) && canonical y && canonical i
  | XTry y => Nat.leb 13 (redge y) && canonical y
  end.

(** ** What the parser's expressions stand for *)

Definition path_names (p : Path) : list string := map ident_name (path_segments p).

Fixpoint denotes (x : sx) (e : Expr) : Prop :=
  let fix all (xs : list sx) (es : list Expr) : Prop :=
    match xs, es with
    | [], [] => True
    | x :: xs', e :: es' => denotes x e /\ all xs' es'
    | _, _ => False
    end in
  match x, expr_kind e with
  | XInt n, ELiteral (LInt m) => m = n
  | XNegInt n, ELiteral (LInt m) => m = (- n)%Z
  | XBool b, ELiteral (LBool c) => c = b
  | XNull, ELiteral LNull => True
  | XString s, ELiteral (LString t) => t = s
  | XSelf, EIdent i => ident_name i = "self"
  | XPath names, EPath p => path_names p = names
  | XParen y, EParen f => denotes y f
  | XArray xs, EArray es => all xs es
  | XCall names xs, ECall f es =>
      match expr_kind f with EPath p => path_names p = names | _ => False end /\ all xs es
  | XUnary op y, EUnary op' f => op' = op /\ denotes y f
  | XAwait y, EAwait f => denotes y f
  | XInfix (OBin op) l r, EBinary op' f g => op' = op /\ denotes l f /\ denotes r g
  | XInfix OAssign l r, EAssign f g => denotes l f /\ denotes r g
  | XInfix (OCompound op) l r, EAssignOp op' f g => op' = op /\ denotes l f /\ denotes r g
  | XField y name, EField f i => ident_name i = name /\ denotes y f
  | XMethod y name xs, EMethodCall f i es => ident_name i = name /\ denotes y f /\ all xs es
  | XIndex y i, EIndex f g => denotes y f /\ denotes i g
  | XTry y, ETry f => denotes y f
  | _, _ => False
  end.

(** The tokens are those printed, where they are in the source: a name has its
    text there, and a number no suffix. *)
Definition text_ok (x : text) (s : string) : Prop :=
  match x with TAny => True | TName name => s = name | TNumber => existsb (ends_with s) NUMERIC_SUFFIXES = false end.

Definition item_ok (source : string) (t : Token) (i : item) : Prop :=
  tok_kind t = i.1 /\
  (i.2 <> TAny -> (span_lo (tok_span t) <= span_hi (tok_span t) <= Z.of_nat (String.length source))%Z) /\
  text_ok i.2 (slice source (tok_span t)).

Definition spells (source : string) (ts : list Token) (l : list item) : Prop := Forall2 (item_ok source) ts l.

(** The token after an expression: not a level the right edge of the expression
    would take, nor a token that goes on with a name. *)
Definition follows (rest : list Token) (q : nat) : Prop :=
  match rest with
  | [] => True
  | t :: _ =>
      get_infix_precedence (tok_kind t) <= q /\
      kind_is TkLParen (tok_kind t) = false /\ kind_is TkLBrace (tok_kind t) = false /\
      kind_is TkColonColon (tok_kind t) = false
  end.

(** ** Runs of the parser *)

#[local] Arguments Nat.min : simpl never.
#[local] Arguments Nat.leb : simpl never.
#[local] Arguments Nat.ltb : simpl never.

Section reading.
Context (lex : string -> list Token).

(** [m] reads the tokens of [l] from [st] and leaves the rest. *)
Definition runs {A} (m : P A) (st : Parser) (rest : list Token) (Q : A -> Prop) : Prop :=
  exists a st', m st = Some (Ok a, st') /\ p_tokens st' = rest /\ p_source st' = p_source st /\ Q a.

Lemma runs_ret {A} (a : A) st rest (Q : A -> Prop) : p_tokens st = rest -> Q a -> runs (ret a) st rest Q.
Proof. intros. by exists a, st. Qed.

Lemma runs_get {A} (f : Parser -> A) st rest (Q : A -> Prop) : p_tokens st = rest -> Q (f st) -> runs (get f) st rest Q.
Proof. intros. by exists (f st), st. Qed.

Lemma runs_bind {A B} (m : P A) (f : A -> P B) st mid rest Q R :
  runs m st mid Q ->
  (forall a st', p_tokens st' = mid -> p_source st' = p_source st -> Q a -> runs (f a) st' rest R) ->
  runs (pbind m f) st rest R.
Proof.
  intros (a & st1 & E & Ht & Hs & HQ) Hf. destruct (Hf a st1 Ht Hs HQ) as (b & st2 & E2 & Ht2 & Hs2 & HR).
  exists b, st2. unfold pbind. rewrite E, Hs2. by split_and!.
Qed.

(** A step that leaves the tokens alone. *)
Lemma runs_look {A B} (m : P A) (f : A -> P B) st rest a R :
  m st = Some (Ok a, st) -> runs (f a) st rest R -> runs (pbind m f) st rest R.
Proof. intros E Hf. unfold runs, pbind. by rewrite E. Qed.

Lemma runs_conseq {A} (m : P A) st rest (Q R : A -> Prop) :
  runs m st rest Q -> (forall a, Q a -> R a) -> runs m st rest R.
Proof. intros (a & st1 & E & Ht & Hs & HQ) HR. exists a, st1. split_and!; auto. Qed.

Lemma runs_advance st t rest : p_tokens st = t :: rest -> runs advance st rest (fun o => o = Some t).
Proof. intros E. unfold runs, advance. rewrite E. by exists (Some t), (set_tokens rest st). Qed.

Lemma check_run k st : check k st = Some (Ok (token_is k (head (p_tokens st))), st).
Proof. reflexivity. Qed.

Lemma runs_consumed_yes k st t rest :
  p_tokens st = t :: rest -> kind_is k (tok_kind t) = true -> runs (consumed k) st rest (fun b => b = true).
Proof.
  intros E Hk. unfold consumed, consume. eapply runs_bind; [|intros o st' Ht Hs Ho; by apply runs_ret; [|apply Ho]].
  eapply runs_look; [apply check_run|]. rewrite E. simpl. rewrite Hk.
  eapply runs_conseq; [by apply runs_advance|]. by intros ? ->.
Qed.

Lemma runs_expect k st t rest :
  p_tokens st = t :: rest -> kind_is k (tok_kind t) = true -> runs (expect k) st rest (fun _ => True).
Proof.
  intros E Hk. unfold expect, consume. eapply (runs_bind _ _ _ rest _ (fun o => o = Some t)).
  - eapply runs_look; [apply check_run|]. rewrite E. simpl. rewrite Hk. by apply runs_advance.
  - intros o st' Ht Hs ->. by apply runs_ret.
Qed.

Lemma runs_intern_named name span st rest :
  p_tokens st = rest -> runs (intern_named_ident name span) st rest (fun i => ident_name i = name).
Proof.
  intros E. unfold runs, intern_named_ident. destruct (symbol_intern name (p_interner st)) as [sym t].
  eexists _, _. split; [reflexivity|]. by split_and!.
Qed.

Lemma runs_intern t text k st rest :
  item_ok (p_source st) t (k, TName text) -> p_tokens st = rest ->
  runs (intern_ident (tok_span t)) st rest (fun i => ident_name i = text).
Proof.
  intros (_ & Hb & Hsl) E. destruct Hb as [_ Hhi]; [done|]. simpl in Hsl. unfold runs, intern_ident.
  replace (source_slice st (tok_span t)) with text.
  - destruct (runs_intern_named text (tok_span t) st rest E) as (i & st' & ?). by exists i, st'.
  - unfold source_slice. rewrite (proj2 (Z.leb_le _ _)); [by rewrite Hsl|done].
Qed.

(** *** Names and paths *)

Lemma runs_expect_ident t text st rest :
  item_ok (p_source st) t (TkIdent, TName text) -> p_tokens st = t :: rest ->
  runs expect_ident st rest (fun i => ident_name i = text).
Proof.
  intros Hi E. unfold expect_ident, current. eapply runs_look; [reflexivity|]. rewrite E. simpl.
  destruct t as [k span]. pose proof Hi as [Hk _]. simpl in Hk. subst k.
  eapply runs_bind; [by apply runs_advance|]. intros _ st' Ht Hs _. rewrite <- Hs in Hi.
  by apply (runs_intern (mkToken TkIdent span) text TkIdent).
Qed.

Lemma runs_path_segment t text st rest :
  item_ok (p_source st) t (TkIdent, TName text) -> p_tokens st = t :: rest ->
  runs path_segment st rest (fun o => exists i, o = Some i /\ ident_name i = text).
Proof.
  intros Hi E. unfold path_segment, current. eapply runs_look; [reflexivity|]. rewrite E. simpl.
  destruct t as [k span]. pose proof Hi as [Hk _]. simpl in Hk. subst k.
  eapply runs_bind; [by apply runs_advance|]. intros _ st' Ht Hs _. rewrite <- Hs in Hi.
  eapply runs_bind; [by apply (runs_intern (mkToken TkIdent span) text TkIdent)|]. intros i st2 Ht2 Hs2 Hn.
  apply runs_ret; [done|]. by exists i.
Qed.

Lemma runs_loop {S A} (body : S -> P (S + A)) (s : S) st rest Q :
  runs (loop_n (2 + ahead st) body s) st rest Q -> runs (loop body s) st rest Q.
Proof. done. Qed.

(** One more round of a loop. *)
Lemma runs_round {S A} k (body : S -> P (S + A)) (s s' : S) st st1 rest Q :
  body s st = Some (Ok (inl s'), st1) -> p_source st1 = p_source st -> runs (loop_n k body s') st1 rest Q ->
  runs (loop_n (Datatypes.S k) body s) st rest Q.
Proof.
  intros E Hs (a & st2 & E2 & Ht2 & Hs2 & HQ). exists a, st2. simpl. unfold pbind. rewrite E, Hs2. by split_and!.
Qed.

Lemma runs_exit {S A} k (body : S -> P (S + A)) (s : S) st rest (Q : A -> Prop) :
  runs (body s) st rest (fun x => exists a, x = inr a /\ Q a) -> runs (loop_n (Datatypes.S k) body s) st rest Q.
Proof. intros H. simpl. eapply runs_bind; [exact H|]. intros x st' Ht Hs (a & -> & HQ). by apply runs_ret. Qed.

Definition no_path (rest : list Token) : Prop := token_is TkColonColon (head rest) = false.

Definition path_round (segments : list Ident) : P (list Ident + list Ident) :=
  let! o := path_segment in
  match o with
  | None => ret (inr segments)
  | Some i => let! more := consumed TkColonColon in ret (if more then inl (segments ++ [i]) else inr (segments ++ [i]))
  end.

Lemma runs_path_loop names : forall k acc st toks rest,
  names <> [] -> spells (p_source st) toks (print_path names) -> p_tokens st = toks ++ rest -> no_path rest ->
  List.length names <= k ->
  runs (loop_n k path_round acc) st rest (fun segs => map ident_name segs = map ident_name acc ++ names).
Proof.
  induction names as [|s names IH]; intros k acc st toks rest Hne Hsp Et Hr Hk; [done|]. destruct k as [|k]; [simpl in Hk; lia|].
  destruct names as [|s2 names].
  - unfold print_path in Hsp. simpl in Hsp. apply Forall2_cons_inv_r in Hsp as (t & toks' & Hi & Hnil & ->).
    apply Forall2_nil_inv_r in Hnil as ->. apply runs_exit. unfold path_round.
    eapply runs_bind; [by eapply runs_path_segment|]. intros o st' Ht Hs (i & -> & Hn). simpl in Ht.
    eapply runs_look; [apply consumed_other; by rewrite Ht|]. apply runs_ret; [done|]. eexists. split; [done|].
    by rewrite map_app, <- Hn.
  - change (print_path (s :: s2 :: names)) with ((TkIdent, TName s) :: sign TkColonColon :: print_path (s2 :: names)) in Hsp.
    apply Forall2_cons_inv_r in Hsp as (t & toks1 & Hi & Hsp & ->).
    apply Forall2_cons_inv_r in Hsp as (c & toks' & Hc & Hsp & ->).
    assert (Hround : runs (path_round acc) st (toks' ++ rest) (fun x => exists i, x = inl (acc ++ [i]) /\ ident_name i = s)).
    { unfold path_round. eapply runs_bind; [by eapply runs_path_segment|]. intros o st' Ht Hs (i & -> & Hn). simpl in Ht.
      eapply runs_bind; [eapply runs_consumed_yes; [exact Ht|]; destruct Hc as [-> _]; done|].
      intros b st2 Ht2 Hs2 ->. apply runs_ret; [done|]. by exists i. }
    destruct Hround as (x & st1 & E & Ht & Hs & i & -> & Hn).
    eapply runs_round; [exact E|done|].
    destruct (IH k (acc ++ [i]) st1 toks' rest) as (a & st2 & E2 & Ht2 & Hs2 & HQ);
      [done|by rewrite Hs|done|done|simpl in *; lia|].
    exists a, st2. split_and!; [done..|]. rewrite HQ, map_app, <- Hn, <- app_assoc. done.
Qed.

Lemma spells_length src ts l : spells src ts l -> List.length ts = List.length l.
Proof. apply Forall2_length. Qed.

Lemma print_path_length names : List.length names <= List.length (print_path names).
Proof.
  induction names as [|s [|s2 names] IH]; simpl; [lia|lia|]. unfold print_path in *. simpl in *. lia.
Qed.

Lemma runs_path names st toks rest :
  names <> [] -> spells (p_source st) toks (print_path names) -> p_tokens st = toks ++ rest -> no_path rest ->
  runs parse_path st rest (fun p => path_names p = names).
Proof.
  intros Hne Hsp Et Hr. unfold parse_path. eapply runs_look; [reflexivity|]. eapply runs_bind.
  - apply runs_loop. eapply (runs_path_loop names _ []); [done..|]. rewrite Et, length_app.
    pose proof (print_path_length names). apply spells_length in Hsp. lia.
  - intros segs st' Ht Hs Hn. simpl in Hn. destruct segs as [|i segs]; [by subst names|].
    eapply runs_look; [reflexivity|]. by apply runs_ret.
Qed.

(** *** Operands and argument lists *)

Lemma op_level_pos o : is_some (op_token o) = true -> 0 < op_level o.
Proof. unfold op_level. destruct o as [[]| |[]]; simpl; intros; (done || lia). Qed.

Lemma ledge_pos x : canonical x = true -> 0 < ledge x.
Proof.
  induction x; simpl; intros H; rewrite ?andb_true_iff in H; destruct_and?;
    repeat match goal with IH : canonical ?y = true -> _, H : canonical ?y = true |- _ => specialize (IH H) end;
    try (unfold TOP; lia).
  match goal with H : is_some _ = true |- _ => apply op_level_pos in H end. lia.
Qed.

(** The first token of an expression closes nothing. *)
Definition opens (k : TokenKind) : bool := negb (kind_is TkRParen k || kind_is TkRBracket k || kind_is TkMutKw k).

Lemma print_path_opens names : names <> [] -> exists s l, print_path names = (TkIdent, TName s) :: l.
Proof. destruct names as [|s [|s2 names]]; [done|by eexists _, _..]. Qed.

Lemma print_opens x : canonical x = true -> exists i l, print x = i :: l /\ opens i.1 = true.
Proof.
  induction x; simpl; intros H; rewrite ?andb_true_iff in H; destruct_and?;
    try (match goal with IH : _ -> exists i l, print ?y = _ /\ _ |- _ =>
           match goal with |- exists i l, print y ++ _ = _ /\ _ =>
             destruct IH as (i & l & -> & Ho); [done|by eexists _, _] end end);
    try (by eexists _, _).
  - destruct b; by eexists _, _.
  - destruct (print_path_opens names) as (s & l & ->); [by apply negb_true_iff, bool_decide_eq_false in H|]. by eexists _, _.
  - match goal with H : negb (bool_decide (names = [])) = true |- _ => apply negb_true_iff, bool_decide_eq_false in H end.
    destruct (print_path_opens names) as (s & l & ->); [done|]. by eexists _, _.
  - destruct op; try done; destruct words; by eexists _, _.
Qed.

Lemma print_starts x i l : canonical x = true -> print x = i :: l -> starts_with_int x = false ->
  match i.1 with TkInt _ => False | _ => True end.
Proof.
  revert i l. induction x; simpl; intros i l H E Hs; rewrite ?andb_true_iff in H; destruct_and?; try done;
    try (match goal with IH : forall i l, _ -> print ?y = _ -> _, H : print ?y ++ _ = _ |- _ =>
           destruct (print_opens y) as (j & l' & Ej & _); [done|]; rewrite Ej in H; simplify_eq/=; by eapply IH end);
    try (by simplify_eq).
  - destruct b; by simplify_eq.
  - destruct (print_path_opens names) as (s & l' & E'); [by apply negb_true_iff, bool_decide_eq_false in H|]. rewrite E' in E. by simplify_eq/=.
  - match goal with H : negb (bool_decide (names = [])) = true |- _ => apply negb_true_iff, bool_decide_eq_false in H end.
    destruct (print_path_opens names) as (s & l' & E'); [done|]. rewrite E' in E. by simplify_eq/=.
  - destruct op; try done; destruct words; simpl in E; by inversion E.
Qed.

Lemma follows_mono rest q q' : q <= q' -> follows rest q -> follows rest q'.
Proof. unfold follows. destruct rest; [done|]. intros Hq (? & ?). split; [lia|done]. Qed.

(** The tokens that end an operand. *)
Definition ends (k : TokenKind) : bool :=
  kind_is TkRParen k || kind_is TkRBracket k || kind_is TkComma k.

Lemma follows_ends t rest q : ends (tok_kind t) = true -> follows (t :: rest) q.
Proof. unfold follows. destruct (tok_kind t); try done; intros _; simpl; (split_and!; [lia|done..]). Qed.

(** [f] reads the expression [x], at any level that takes all of it. *)
Definition operand (f : nat -> P Expr) (x : sx) : Prop :=
  forall p st toks rest, p_tokens st = toks ++ rest -> spells (p_source st) toks (print x) ->
    p < ledge x -> follows rest (Nat.min p (redge x)) -> runs (f p) st rest (denotes x).

Lemma operand_at_0 f x st toks t rest :
  operand f x -> canonical x = true -> p_tokens st = toks ++ t :: rest -> spells (p_source st) toks (print x) ->
  ends (tok_kind t) = true -> runs (f 0) st (t :: rest) (denotes x).
Proof. intros Hf Hc Et Hsp He. eapply Hf; [done|done|by apply ledge_pos|by apply follows_ends]. Qed.

Lemma spells_head_opens src x toks :
  canonical x = true -> spells src toks (print x) -> exists t l, toks = t :: l /\ opens (tok_kind t) = true.
Proof.
  intros Hc Hsp. destruct (print_opens x Hc) as (i & l & E & Ho). unfold spells in Hsp. rewrite E in Hsp.
  apply Forall2_cons_inv_r in Hsp as (t & l' & [Hk _] & _ & ->). exists t, l'. by rewrite Hk.
Qed.

Definition args_round (r : Rec) (close : TokenKind) (acc : list Expr) : P (list Expr + list Expr) :=
  let! eof := is_eof in
  if eof then ret (inr acc) else
  let! closed := consumed close in
  if closed then ret (inr acc) else
  let! x := with_comma (parse_expr r) in ret (inl (acc ++ [x])).

Lemma sep_by_cons sep l ls : sep_by sep (l :: ls) = l ++ match ls with [] => [] | _ => sep :: sep_by sep ls end.
Proof. destruct ls; simpl; [by rewrite app_nil_r|done]. Qed.

Lemma args_round_item r close x acc st toks t rest :
  operand (rec_expr r) x -> canonical x = true -> close = TkRParen \/ close = TkRBracket ->
  p_tokens st = toks ++ t :: rest -> spells (p_source st) toks (print x) -> ends (tok_kind t) = true ->
  runs (args_round r close acc) st (if kind_is TkComma (tok_kind t) then rest else t :: rest)
    (fun y => exists e, y = inl (acc ++ [e]) /\ denotes x e).
Proof.
  intros Hf Hc Hcl Et Hsp He. destruct (spells_head_opens _ _ _ Hc Hsp) as (u & l & -> & Ho).
  unfold args_round. eapply runs_look; [reflexivity|]. rewrite Et. simpl.
  eapply runs_look.
  { apply consumed_other. rewrite Et. simpl. unfold opens in Ho. apply negb_true_iff, orb_false_elim in Ho as [Ho _].
    apply orb_false_elim in Ho. destruct Hcl; subst; apply Ho. }
  unfold with_comma. eapply (runs_bind _ _ _ (if kind_is TkComma (tok_kind t) then rest else t :: rest) _ (denotes x)).
  - eapply runs_bind; [by eapply operand_at_0|]. intros e st' Ht Hs He'. cbn beta. unfold consume.
    eapply (runs_bind _ _ _ (if kind_is TkComma (tok_kind t) then rest else t :: rest) _ (fun _ => True)); [|intros; by apply runs_ret].
    eapply runs_look; [apply check_run|]. rewrite Ht. simpl. destruct (kind_is TkComma (tok_kind t)).
    + eapply runs_conseq; [by apply runs_advance|done].
    + by apply runs_ret.
  - intros e st' Ht Hs He'. apply runs_ret; [done|]. by exists e.
Qed.

Lemma runs_args_loop r close xs : forall k acc st toks c rest,
  close = TkRParen \/ close = TkRBracket -> tok_kind c = close ->
  Forall (operand (rec_expr r)) xs -> forallb canonical xs = true ->
  p_tokens st = toks ++ c :: rest -> spells (p_source st) toks (sep_by (sign TkComma) (map print xs)) ->
  List.length xs < k ->
  runs (loop_n k (args_round r close) acc) st rest (fun es => exists es', es = acc ++ es' /\ Forall2 denotes xs es').
Proof.
  induction xs as [|x xs IH]; intros k acc st toks c rest Hcl Hc Hf Hcan Et Hsp Hk; (destruct k as [|k]; [simpl in Hk; lia|]).
  - apply Forall2_nil_inv_r in Hsp as ->. apply runs_exit. unfold args_round. eapply runs_look; [reflexivity|].
    rewrite Et. simpl. eapply runs_bind; [eapply runs_consumed_yes; [exact Et|by subst close; unfold kind_is; rewrite Nat.eqb_refl]|].
    intros b st' Ht Hs ->. apply runs_ret; [done|]. exists acc. split; [done|]. exists []. by rewrite app_nil_r.
  - apply Forall_cons in Hf as [Hx Hf]. simpl in Hcan. apply andb_true_iff in Hcan as [Hcx Hcan].
    rewrite map_cons, sep_by_cons in Hsp. apply Forall2_app_inv_r in Hsp as (tx & ts & Hsx & Hst & ->).
    assert (He : ends (tok_kind c) = true) by (subst; destruct Hcl as [->| ->]; done).
    assert (exists t rest1 toks1 b, ts ++ c :: rest = t :: rest1 /\ ends (tok_kind t) = true /\
      b = (if kind_is TkComma (tok_kind t) then rest1 else t :: rest1) /\ b = toks1 ++ c :: rest /\
      spells (p_source st) toks1 (sep_by (sign TkComma) (map print xs)))
      as (t & rest1 & toks1 & b & E1 & Het & Eb & Eb' & Hs1).
    { destruct xs as [|x2 xs]; simpl in Hst.
      - apply Forall2_nil_inv_r in Hst as ->. exists c, rest, [], (c :: rest). split_and!; [done|done| |done|by constructor].
        subst close. by destruct Hcl as [->| ->].
      - apply Forall2_cons_inv_r in Hst as (t & toks1 & [Hk1 _] & Hst & ->). simpl in Hk1.
        exists t, (toks1 ++ c :: rest), toks1, (toks1 ++ c :: rest). rewrite Hk1. by split_and!. }
    destruct (args_round_item r close x acc st tx t rest1 Hx Hcx Hcl) as (y & st1 & E & Ht & Hs & e & -> & He1);
      [by rewrite Et, <- app_assoc, E1|done|done|].
    eapply runs_round; [exact E|done|].
    destruct (IH k (acc ++ [e]) st1 toks1 c rest) as (es & st2 & E2 & Ht2 & Hs2 & es' & -> & HF);
      [done|done|done|done|by rewrite Ht, <- Eb|by rewrite Hs|simpl in Hk; lia|].
    eexists _, st2. split_and!; [exact E2|done|done|]. exists (e :: es'). rewrite <- app_assoc. by split; [|constructor].
Qed.

Lemma args_length xs :
  forallb canonical xs = true -> List.length xs <= List.length (sep_by (sign TkComma) (map print xs)).
Proof.
  induction xs as [|x xs IH]; intros Hc; [simpl; lia|]. simpl in Hc. apply andb_true_iff in Hc as [Hx Hc].
  specialize (IH Hc). destruct (print_opens x Hx) as (i & l & E & _). rewrite map_cons, sep_by_cons, E, length_app.
  destruct xs; simpl in *; lia.
Qed.

Lemma runs_args r close xs st toks c rest :
  close = TkRParen \/ close = TkRBracket -> tok_kind c = close ->
  Forall (operand (rec_expr r)) xs -> forallb canonical xs = true ->
  p_tokens st = toks ++ c :: rest -> spells (p_source st) toks (sep_by (sign TkComma) (map print xs)) ->
  runs (until close (with_comma (parse_expr r))) st rest (Forall2 denotes xs).
Proof.
  intros Hcl Hc Hf Hcan Et Hsp. apply runs_loop. eapply runs_conseq.
  - eapply (runs_args_loop r close xs _ []); [done..|]. pose proof (args_length xs Hcan). apply spells_length in Hsp.
    rewrite Et, length_app. lia.
  - by intros es (es' & -> & HF).
Qed.

Lemma denotes_all xs es : Forall2 denotes xs es ->
  (fix all (xs : list sx) (es : list Expr) : Prop :=
    match xs, es with
    | [], [] => True
    | x :: xs', e :: es' => denotes x e /\ all xs' es'
    | _, _ => False
    end) xs es.
Proof. by induction 1. Qed.

(** *** Prefixes and the operators after them

    [x] is read by [parse_prefix] and some rounds of the loop of operators. *)
Definition reads (r : Rec) (x : sx) : Prop :=
  forall p st toks rest, p_tokens st = toks ++ rest -> spells (p_source st) toks (print x) ->
    p < ledge x -> follows rest (redge x) ->
    exists l st1 m e st', parse_prefix lex r st = Some (Ok l, st1) /\
      (forall k, loop_n (m + k) (infix_round r p) l st1 = loop_n k (infix_round r p) e st') /\
      m + List.length rest <= ahead st1 /\ p_tokens st' = rest /\ p_source st' = p_source st /\ denotes x e.

Lemma round_stops r p e st rest : p_tokens st = rest -> follows rest p -> infix_round r p e st = Some (Ok (inr e), st).
Proof.
  intros E Hf. unfold infix_round, current, pbind, get. rewrite E. destruct rest as [|t rest]; [done|]. simpl.
  destruct Hf as [Hq _]. by rewrite (proj2 (Nat.leb_le _ _)).
Qed.

Lemma reads_operand r x : reads r x -> operand (parse_expr_prec lex r) x.
Proof.
  intros Hr p st toks rest Et Hsp Hp Hf.
  destruct (Hr p st toks rest Et Hsp Hp) as (l & st1 & m & e & st' & Ep & Hl & Hm & Ht & Hs & He).
  { eapply follows_mono; [|exact Hf]. lia. }
  exists e, st'. split_and!; [|done..]. unfold parse_expr_prec, pbind, loop. rewrite Ep.
  replace (2 + ahead st1) with (m + S (1 + (ahead st1 - m))) by lia. rewrite Hl. simpl. unfold pbind.
  rewrite (round_stops _ _ _ _ rest); [done|done|]. eapply follows_mono; [|exact Hf]. lia.
Qed.

Lemma reads_atom r x :
  (forall st toks rest, p_tokens st = toks ++ rest -> spells (p_source st) toks (print x) -> follows rest (redge x) ->
     runs (parse_prefix lex r) st rest (denotes x)) -> reads r x.
Proof.
  intros H p st toks rest Et Hsp _ Hf. destruct (H st toks rest Et Hsp Hf) as (e & st' & E & Ht & Hs & He).
  exists e, st', 0, e, st'. split_and!; [done|done|by rewrite Ht|done..].
Qed.

(** An operator of level [q] after [y]. *)
Definition goes_on (k : TokenKind) : bool := kind_is TkLParen k || kind_is TkLBrace k || kind_is TkColonColon k.

Lemma reads_extend r y x i its q :
  reads r y -> print x = print y ++ i :: its -> ledge x <= q -> ledge x <= ledge y -> q <= redge y ->
  get_infix_precedence i.1 = q -> goes_on i.1 = false ->
  (forall st t toks rest f, p_tokens st = t :: toks ++ rest -> tok_kind t = i.1 -> spells (p_source st) toks its ->
     follows rest (redge x) -> denotes y f -> runs (parse_infix r f q t) st rest (denotes x)) ->
  reads r x.
Proof.
  intros Hy Ex Hq Hle Hqy Hi Hg Hop p st toks rest Et Hsp Hp Hf. unfold spells in Hsp. rewrite Ex in Hsp.
  apply Forall2_app_inv_r in Hsp as (ty & ts & Hsy & Hst & ->). rewrite <- app_assoc in Et.
  apply Forall2_cons_inv_r in Hst as (t & ts' & [Hk _] & Hst & ->).
  apply orb_false_elim in Hg as [Hg1 Hg3]. apply orb_false_elim in Hg1 as [Hg1 Hg2].
  destruct (Hy p st ty ((t :: ts') ++ rest) Et Hsy) as (l & st1 & m & f & st2 & Ep & Hl & Hm & Ht & Hs & Hd); [lia| |].
  { simpl. rewrite Hk. by split_and!; [lia|..]. }
  destruct (Hop st2 t ts' rest f) as (e & st3 & E3 & Ht3 & Hs3 & He); [done|done|by rewrite Hs|done|done|].
  exists l, st1, (S m), e, st3. split_and!; [done| |simpl in Hm; rewrite length_app in Hm; lia|done|by rewrite Hs3|done].
  intros k. replace (S m + k) with (m + S k) by lia. rewrite Hl. simpl. unfold pbind at 1. unfold infix_round at 1, current.
  unfold pbind at 1, get. rewrite Ht. simpl. rewrite Hk, Hi, (proj2 (Nat.leb_gt _ _)) by lia. unfold pbind. by rewrite E3.
Qed.

(** *** Each form *)

Lemma runs_spanned lo m st rest (Q : AExprKind -> Prop) (R : Expr -> Prop) :
  runs m st rest Q -> (forall k s, Q k -> R (mkExpr k s)) -> runs (spanned lo m) st rest R.
Proof.
  intros Hm HR. unfold spanned. eapply runs_bind; [exact Hm|]. intros k st' Ht Hs HQ.
  eapply runs_look; [reflexivity|]. apply runs_ret; auto.
Qed.

Lemma runs_literal l st t rest : p_tokens st = t :: rest -> runs (literal l) st rest (fun k => k = ELiteral l).
Proof. intros E. unfold literal. eapply runs_bind; [by apply runs_advance|]. intros. by apply runs_ret. Qed.

(** Take the spelling of one token off. *)
Tactic Notation "spell_cons" ident(H) ident(t) ident(toks) simple_intropattern(Hi) :=
  unfold spells in H; cbn [print app map] in H; apply Forall2_cons_inv_r in H as (t & toks & Hi & H & ->).
Ltac spell_nil H := apply Forall2_nil_inv_r in H as ->.

Ltac on_prefix Et Hk :=
  unfold parse_prefix; eapply runs_look; [reflexivity|]; eapply runs_look; [reflexivity|];
  rewrite Et; cbn [head app]; rewrite Hk; cbn [fst sign].

Lemma item_suffix st t k : item_ok (p_source st) t (k, TNumber) -> numeric_literal_suffix st (tok_span t) = None.
Proof.
  intros (_ & Hb & Hsuf). destruct Hb as [Hlo Hhi]; [done|]. cbn [snd text_ok] in Hsuf.
  unfold numeric_literal_suffix, source_get. rewrite (proj2 (Z.leb_le _ _)), (proj2 (Z.leb_le _ _)) by done. cbn [andb].
  destruct (find (ends_with (slice (p_source st) (tok_span t))) NUMERIC_SUFFIXES) as [s|] eqn:E; [|done].
  apply find_some in E as [Hin Hs]. rewrite (proj2 (existsb_exists _ _)) in Hsuf; [done|by exists s].
Qed.

Lemma reads_int r n : canonical (XInt n) = true -> reads r (XInt n).
Proof.
  intros Hc. apply reads_atom. intros st toks rest Et Hsp _. spell_cons Hsp t l Hi. spell_nil Hsp. simpl in Hc. apply andb_true_iff in Hc as [Hc0 Hc].
  pose proof Hi as [Hk _]. on_prefix Et Hk. eapply runs_bind; [by apply runs_advance|]. intros _ st' Ht Hs _.
  rewrite <- Hs in Hi. pose proof (item_suffix st' _ _ Hi) as E.
  unfold runs, integer_literal_expr, validate_integer_literal_range. rewrite E. cbn [suffix_type literal_max].
  rewrite (proj2 (Z.leb_le n (2 ^ (64 - 1) - 1))) by lia. cbn [suffix_in]. rewrite (proj2 (Z.leb_gt (2 ^ 63) n)) by lia.
  eexists _, st'. by split_and!.
Qed.

Lemma reads_neg_int r n : canonical (XNegInt n) = true -> reads r (XNegInt n).
Proof.
  intros Hc. apply reads_atom. intros st toks rest Et Hsp _. spell_cons Hsp t l [Hk _]. spell_cons Hsp u l' Hi.
  spell_nil Hsp. simpl in Hc. apply andb_true_iff in Hc as [Hc0 Hc]. on_prefix Et Hk. unfold negation. eapply runs_bind; [by apply runs_advance|].
  intros _ st' Ht Hs _. rewrite <- Hs in Hi. pose proof (item_suffix st' _ _ Hi) as E.
  eapply (runs_bind _ _ _ rest _ (fun o => exists e, o = Some e /\ denotes (XNegInt n) e)).
  - unfold runs, parse_negative_integer_literal. destruct u as [k span]. destruct Hi as [Hku _]. simpl in Hku, E. subst k.
    rewrite Ht. cbn [head app tail]. rewrite E. cbn [suffix_in]. unfold validate_integer_literal_range.
    cbn [suffix_type literal_max]. rewrite (proj2 (Z.leb_le n (2 ^ (64 - 1)))) by lia.
    eexists _, _. split; [reflexivity|]. split_and!; [done|done|]. by eexists.
  - intros o st2 Ht2 Hs2 (e & -> & He). by apply runs_ret.
Qed.

Definition literal_of (k : TokenKind) : option Literal :=
  match k with
  | TkString (Some s) => Some (LString s)
  | TkTrueKw => Some (LBool true)
  | TkFalseKw => Some (LBool false)
  | TkNullKw => Some LNull
  | _ => None
  end.

Lemma prefix_literal r st t rest l :
  p_tokens st = t :: rest -> literal_of (tok_kind t) = Some l ->
  parse_prefix lex r st = spanned (span_lo (current_span_of st)) (literal l) st.
Proof.
  intros Et Hl. unfold parse_prefix, pbind at 1, current_span, get at 1, pbind at 1, current, get at 1. rewrite Et. simpl.
  destruct (tok_kind t); simplify_eq/=; try done. by destruct v; simplify_eq/=.
Qed.

Lemma reads_literal r x k l :
  print x = [sign k] -> literal_of k = Some l -> (forall s, denotes x (mkExpr (ELiteral l) s)) -> reads r x.
Proof.
  intros Hp Hl Hd. apply reads_atom. intros st toks rest Et Hsp _. unfold spells in Hsp. rewrite Hp in Hsp.
  apply Forall2_cons_inv_r in Hsp as (t & l' & [Hk _] & Hsp & ->). spell_nil Hsp.
  unfold runs. rewrite (prefix_literal r st t rest l Et) by (by rewrite Hk).
  eapply (runs_spanned _ _ st rest (fun k => k = ELiteral l)); [by eapply runs_literal|]. by intros ? ? ->.
Qed.

Lemma reads_bool r b : reads r (XBool b).
Proof. by apply (reads_literal r _ (if b then TkTrueKw else TkFalseKw) (LBool b)); destruct b. Qed.

Lemma reads_null r : reads r XNull.
Proof. by apply (reads_literal r _ TkNullKw LNull). Qed.

Lemma reads_string r s : reads r (XString s).
Proof. by apply (reads_literal r _ (TkString (Some s)) (LString s)). Qed.

Lemma reads_self r : reads r XSelf.
Proof.
  apply reads_atom. intros st toks rest Et Hsp _. spell_cons Hsp t l Hi. spell_nil Hsp. pose proof Hi as [Hk _].
  on_prefix Et Hk. eapply (runs_spanned _ _ _ _ (fun k => exists i, k = EIdent i /\ ident_name i = "self")).
  - eapply runs_bind; [by apply runs_advance|]. intros _ st' Ht Hs _. rewrite <- Hs in Hi.
    eapply runs_bind; [by eapply runs_intern|]. intros i st2 Ht2 Hs2 Hn. apply runs_ret; [done|]. by exists i.
  - by intros k s (i & -> & Hn).
Qed.

Lemma follows_no rest q k :
  follows rest q -> k = TkLParen \/ k = TkLBrace \/ k = TkColonColon -> token_is k (head rest) = false.
Proof. destruct rest; [done|]. intros (_ & ? & ? & ?) [->|[->| ->]]; done. Qed.

Lemma prefix_is_path r st t rest :
  p_tokens st = t :: rest -> tok_kind t = TkIdent ->
  parse_prefix lex r st = path_expr r (span_lo (current_span_of st)) st.
Proof.
  intros Et Hk. unfold parse_prefix, pbind at 1, current_span, get at 1, pbind at 1, current, get at 1. rewrite Et. simpl.
  by rewrite Hk.
Qed.

Lemma names_head names st toks rest :
  names <> [] -> spells (p_source st) toks (print_path names) -> p_tokens st = toks ++ rest ->
  exists t l, p_tokens st = t :: l /\ tok_kind t = TkIdent.
Proof.
  intros Hne Hsp Et. destruct (print_path_opens names Hne) as (s & l & E). unfold spells in Hsp. rewrite E in Hsp.
  apply Forall2_cons_inv_r in Hsp as (t & l' & [Hk _] & _ & ->). by exists t, (l' ++ rest).
Qed.

Lemma reads_path r names : canonical (XPath names) = true -> reads r (XPath names).
Proof.
  intros Hc. simpl in Hc. apply negb_true_iff, bool_decide_eq_false in Hc.
  apply reads_atom. intros st toks rest Et Hsp Hf. destruct (names_head names st toks rest Hc Hsp Et) as (t & l & El & Hk).
  unfold runs. rewrite (prefix_is_path r st t l El Hk). unfold path_expr.
  eapply (runs_bind parse_path); [eapply runs_path; [done..|]; unfold no_path; eapply follows_no; [done|by auto]|].
  intros p st' Ht Hs Hn. do 3 (eapply runs_look; [reflexivity|]). rewrite Ht.
  rewrite !(follows_no rest _ _ Hf) by auto. simpl. eapply runs_look; [reflexivity|]. by apply runs_ret.
Qed.

Lemma reads_call r names args :
  canonical (XCall names args) = true -> Forall (operand (rec_expr r)) args -> reads r (XCall names args).
Proof.
  intros Hc Ha. simpl in Hc. apply andb_true_iff in Hc as [Hc Hca]. apply negb_true_iff, bool_decide_eq_false in Hc.
  apply reads_atom. intros st toks rest Et Hsp Hf. apply Forall2_app_inv_r in Hsp as (tp & ta & Hsp & Hsa & ->).
  apply Forall2_cons_inv_r in Hsa as (o & ta' & [Ho _] & Hsa & ->).
  apply Forall2_app_inv_r in Hsa as (ts & tc & Hsa & Hsc & ->).
  apply Forall2_cons_inv_r in Hsc as (c & ? & [Hcl _] & Hnil & ->). apply Forall2_nil_inv_r in Hnil as ->.
  rewrite <- !app_assoc in Et. simpl in Et, Ho, Hcl. rewrite <- app_assoc in Et. simpl in Et.
  destruct (names_head names st tp _ Hc Hsp Et) as (t & l & El & Hk).
  unfold runs. rewrite (prefix_is_path r st t l El Hk). unfold path_expr.
  eapply (runs_bind parse_path); [eapply runs_path; [done..|]; unfold no_path; simpl; by rewrite Ho|].
  intros p st' Ht Hs Hn. do 3 (eapply runs_look; [reflexivity|]). rewrite Ht. simpl. rewrite Ho. simpl.
  unfold parse_call_or_tuple_expr. eapply runs_bind; [eapply runs_expect; [exact Ht|by rewrite Ho]|].
  intros _ st2 Ht2 Hs2 _. eapply runs_bind; [eapply runs_args; [by left|exact Hcl|exact Ha|done|exact Ht2|by rewrite Hs2, Hs]|].
  intros es st3 Ht3 Hs3 HF. eapply runs_look; [reflexivity|]. apply runs_ret; [done|]. simpl. split; [done|].
  by apply denotes_all.
Qed.

Lemma reads_array r xs : canonical (XArray xs) = true -> Forall (operand (rec_expr r)) xs -> reads r (XArray xs).
Proof.
  intros Hc Ha. simpl in Hc. apply reads_atom. intros st toks rest Et Hsp Hf. spell_cons Hsp o l [Ho _].
  apply Forall2_app_inv_r in Hsp as (ts & tc & Hsa & Hsc & ->). spell_cons Hsc c l [Hcl _]. spell_nil Hsc.
  simpl in Et. rewrite <- app_assoc in Et. on_prefix Et Ho. unfold parse_array_expr. eapply runs_look; [reflexivity|].
  eapply runs_bind; [eapply runs_expect; [exact Et|by rewrite Ho]|]. intros _ st2 Ht2 Hs2 _.
  eapply runs_bind; [eapply runs_args; [by right|exact Hcl|exact Ha|done|exact Ht2|by rewrite Hs2]|].
  intros es st3 Ht3 Hs3 HF. eapply runs_look; [reflexivity|]. apply runs_ret; [done|]. simpl. by apply denotes_all.
Qed.

Lemma reads_paren r x : canonical x = true -> operand (rec_expr r) x -> reads r (XParen x).
Proof.
  intros Hc Hx. apply reads_atom. intros st toks rest Et Hsp Hf. spell_cons Hsp o l [Ho _].
  apply Forall2_app_inv_r in Hsp as (ts & tc & Hsa & Hsc & ->). spell_cons Hsc c l [Hcl _]. spell_nil Hsc.
  simpl in Et, Hcl. rewrite <- app_assoc in Et. simpl in Et. on_prefix Et Ho. unfold parenthesised.
  eapply runs_bind; [by apply runs_advance|]. intros _ st2 Ht2 Hs2 _. rewrite <- Hs2 in Hsa.
  destruct (spells_head_opens _ _ _ Hc Hsa) as (u & l & -> & Hop).
  eapply runs_look.
  { apply consumed_other. rewrite Ht2. simpl. unfold opens in Hop. by destruct (kind_is TkRParen (tok_kind u)). }
  cbn iota. eapply runs_bind; [eapply operand_at_0; [exact Hx|done|exact Ht2|done|by rewrite Hcl]|].
  intros e st3 Ht3 Hs3 He. eapply runs_look; [apply consumed_other; rewrite Ht3; simpl; by rewrite Hcl|]. cbn iota.
  eapply runs_bind; [eapply runs_expect; [exact Ht3|by rewrite Hcl]|]. intros _ st4 Ht4 Hs4 _.
  eapply runs_look; [reflexivity|]. by apply runs_ret.
Qed.

Lemma runs_unary f op y st t toks rest :
  operand f y -> p_tokens st = t :: toks ++ rest -> spells (p_source st) toks (print y) -> 11 < ledge y ->
  follows rest (Nat.min 11 (redge y)) ->
  runs (unary f op) st rest (fun k => exists e, k = EUnary op e /\ denotes y e).
Proof.
  intros Hf Et Hsp Hl Hfo. unfold unary. eapply runs_bind; [by apply runs_advance|]. intros _ st' Ht Hs _.
  rewrite <- Hs in Hsp. eapply runs_bind; [by eapply Hf|]. intros e st2 Ht2 Hs2 He. apply runs_ret; [done|]. by exists e.
Qed.

Lemma runs_reference f (m : bool) y st t toks rest :
  operand f y -> canonical y = true -> p_tokens st = t :: toks ++ rest ->
  spells (p_source st) toks (map sign (if m then [TkMutKw] else []) ++ print y) -> 11 < ledge y ->
  follows rest (Nat.min 11 (redge y)) ->
  runs (reference f) st rest (fun k => exists e, k = EUnary (if m then RefMut else Ref) e /\ denotes y e).
Proof.
  intros Hf Hc Et Hsp Hl Hfo. unfold reference. eapply runs_bind; [by apply runs_advance|]. intros _ st' Ht Hs _.
  rewrite <- Hs in Hsp. destruct m.
  - simpl in Hsp. spell_cons Hsp u l [Hk _]. eapply runs_bind; [eapply runs_consumed_yes; [exact Ht|by rewrite Hk]|].
    intros b st2 Ht2 Hs2 ->. rewrite <- Hs2 in Hsp. eapply runs_bind; [by eapply Hf|]. intros e st3 Ht3 Hs3 He.
    apply runs_ret; [done|]. by exists e.
  - simpl in Hsp. destruct (spells_head_opens _ _ _ Hc Hsp) as (u & l & -> & Ho). eapply runs_look.
    { apply consumed_other. rewrite Ht. simpl. unfold opens in Ho. destruct (kind_is TkMutKw (tok_kind u)); [|done].
      by rewrite orb_true_r in Ho. }
    eapply runs_bind; [by eapply Hf|]. intros e st3 Ht3 Hs3 He. apply runs_ret; [done|]. by exists e.
Qed.

Lemma no_negative_literal y st toks rest :
  canonical y = true -> starts_with_int y = false -> p_tokens st = toks ++ rest -> spells (p_source st) toks (print y) ->
  parse_negative_integer_literal st = Some (Ok None, st).
Proof.
  intros Hc Hn Et Hsp. destruct (print_opens y Hc) as (i & l & E & _). pose proof (print_starts y i l Hc E Hn) as Hi.
  unfold spells in Hsp. rewrite E in Hsp. apply Forall2_cons_inv_r in Hsp as ([k s] & l' & [Hk _] & _ & ->). simpl in Hk. subst k.
  unfold parse_negative_integer_literal. rewrite Et. simpl. destruct i as [[] ?]; try done.
Qed.

Lemma in_words_id k : in_words true k = k -> in_words words k = k.
Proof. by destruct words. Qed.

Ltac plain_words H := repeat match type of H with context [in_words words ?k] => rewrite (in_words_id k eq_refl) in H end.

Lemma reads_unary r op y :
  canonical (XUnary op y) = true -> operand (rec_expr r) y -> reads r (XUnary op y).
Proof.
  intros Hc Hf. simpl in Hc. rewrite !andb_true_iff in Hc. destruct Hc as [[[Hop Hl] Hcy] Hint]. apply Nat.ltb_lt in Hl.
  apply reads_atom. intros st toks rest Et Hsp Hfo.
  assert (Hden : forall k s, (exists e, k = EUnary op e /\ denotes y e) -> denotes (XUnary op y) (mkExpr k s))
    by (intros ? ? (e & -> & ?); done).
  destruct op; try discriminate Hop; simpl in Hsp; plain_words Hsp; spell_cons Hsp t l [Hk _];
    try match type of Hk with context [TkNot] => destruct words end; on_prefix Et Hk;
    try (eapply runs_spanned; [|exact Hden]; by eapply runs_unary).
  - unfold negation. eapply runs_bind; [by apply runs_advance|]. intros _ st' Ht Hs _. rewrite <- Hs in Hsp.
    eapply runs_look; [eapply no_negative_literal; [done|by destruct (starts_with_int y)|exact Ht|done]|].
    eapply runs_bind; [by eapply Hf|]. intros e st2 Ht2 Hs2 He. eapply runs_look; [reflexivity|]. by apply runs_ret.
  - eapply runs_spanned; [|exact Hden]. by eapply (runs_reference _ false).
  - eapply runs_spanned; [|exact Hden]. by eapply (runs_reference _ true).
Qed.

Lemma reads_await r y : canonical (XAwait y) = true -> operand (rec_expr r) y -> reads r (XAwait y).
Proof.
  intros Hc Hf. simpl in Hc. apply andb_true_iff in Hc as [Hl Hcy]. apply Nat.ltb_lt in Hl.
  apply reads_atom. intros st toks rest Et Hsp Hfo. spell_cons Hsp t l [Hk _]. on_prefix Et Hk.
  eapply (runs_spanned _ _ _ _ (fun k => exists e, k = EAwait e /\ denotes y e)); [|by intros ? ? (e & -> & ?)].
  eapply runs_bind; [by apply runs_advance|]. intros _ st' Ht Hs _. rewrite <- Hs in Hsp.
  eapply runs_bind; [by eapply Hf|]. intros e st2 Ht2 Hs2 He. apply runs_ret; [done|]. by exists e.
Qed.

(** *** Operators after an expression *)

Lemma runs_infix r f q t st toks rest Q R :
  p_tokens st = t :: toks ->
  (forall st', p_tokens st' = toks -> p_source st' = p_source st -> runs (infix_kind r f (tok_kind t) q) st' rest Q) ->
  (forall k s, Q k -> R (mkExpr k s)) -> runs (parse_infix r f q t) st rest R.
Proof.
  intros Et H HR. unfold parse_infix. eapply runs_bind; [by apply runs_advance|]. intros _ st' Ht Hs _.
  eapply runs_spanned; [by apply H|exact HR].
Qed.

Lemma op_token_level o k q : op_token o = Some (k, q) ->
  get_infix_precedence (in_words words k) = q /\ goes_on (in_words words k) = false /\ right_level o <= op_level o.
Proof.
  unfold right_level, op_level. destruct o as [[]| |[]]; intros [= <- <-]; (split_and!; [by destruct words..|simpl; lia]).
Qed.

(** The expression an operator token builds. *)
Definition infix_expr (o : infix_op) (f g : Expr) : AExprKind :=
  match o with OBin op => EBinary op f g | OAssign => EAssign f g | OCompound op => EAssignOp op f g end.

Lemma infix_kind_op r o k q f : op_token o = Some (k, q) ->
  infix_kind r f (in_words words k) q = (let! e := rec_expr r (right_level o) in ret (infix_expr o f e)).
Proof. destruct o as [[]| |[]]; intros [= <- <-]; destruct words; reflexivity. Qed.

Lemma reads_infix r o x y :
  canonical (XInfix o x y) = true -> reads r x -> operand (rec_expr r) y -> reads r (XInfix o x y).
Proof.
  intros Hc Hx Hy. simpl in Hc. rewrite !andb_true_iff in Hc. destruct Hc as [[[[Ho Hl] Hr] Hcx] Hcy].
  apply Nat.leb_le in Hl. apply Nat.ltb_lt in Hr. destruct (op_token o) as [[k q]|] eqn:E; [|done].
  assert (El : op_level o = q) by (unfold op_level; by rewrite E). destruct (op_token_level o k q E) as (Hk & Hg & Hle).
  apply (reads_extend r x _ (sign (in_words words k)) (print y) q); [done|simpl; by rewrite E|simpl; lia|simpl; lia|lia|done|done|].
  intros st t toks rest f Et Hkt Hsp Hfo Hf. eapply (runs_infix r f q t st (toks ++ rest) _
    (fun k => exists e, k = infix_expr o f e /\ denotes y e)); [done| |].
  - intros st' Ht Hs. rewrite Hkt. cbn [fst sign]. rewrite (infix_kind_op r o k q f E). rewrite <- Hs in Hsp.
    eapply runs_bind; [by eapply Hy|]. intros e st2 Ht2 Hs2 He. apply runs_ret; [done|]. by exists e.
  - intros ? s (e & -> & He). by destruct o.
Qed.

Lemma reads_field r y name : canonical (XField y name) = true -> reads r y -> reads r (XField y name).
Proof.
  intros Hc Hy. simpl in Hc. apply andb_true_iff in Hc as [Hl Hcy]. apply Nat.leb_le in Hl.
  apply (reads_extend r y _ (sign TkDot) [(TkIdent, TName name)] 12); [done|done|simpl; lia|simpl; lia|done|done|done|].
  intros st t toks rest f Et Hkt Hsp Hfo Hf. spell_cons Hsp u l Hi. spell_nil Hsp. simpl in Et.
  eapply (runs_infix r f 12 t st _ rest (fun k => exists i, k = EField f i /\ ident_name i = name)); [exact Et| |].
  - intros st' Ht Hs. rewrite Hkt. rewrite <- Hs in Hi. cbn [fst sign]. unfold infix_kind, binop_of, assign_op_of, field_or_method.
    eapply runs_look; [reflexivity|]. rewrite Ht. pose proof Hi as [Hku _]. destruct u as [k s]. simpl in Hku. subst k. simpl.
    eapply runs_bind; [by eapply runs_expect_ident|]. intros i st2 Ht2 Hs2 Hn.
    eapply runs_look; [apply check_run|]. rewrite Ht2, (follows_no rest _ _ Hfo) by auto. apply runs_ret; [done|]. by exists i.
  - by intros k s (i & -> & Hn).
Qed.

Lemma reads_method r y name args :
  canonical (XMethod y name args) = true -> reads r y -> Forall (operand (rec_expr r)) args -> reads r (XMethod y name args).
Proof.
  intros Hc Hy Ha. simpl in Hc. rewrite !andb_true_iff in Hc. destruct Hc as [[Hl Hcy] Hca]. apply Nat.leb_le in Hl.
  eapply (reads_extend r y _ (sign TkDot) _ 12); [done|reflexivity|simpl; lia|simpl; lia|done|done|done|].
  intros st t toks rest f Et Hkt Hsp Hfo Hf. spell_cons Hsp u l Hi. spell_cons Hsp o l2 [Ho _].
  apply Forall2_app_inv_r in Hsp as (ts & tc & Hsa & Hsc & ->). spell_cons Hsc c l3 [Hcl _]. spell_nil Hsc.
  simpl in Et, Ho, Hcl. rewrite <- app_assoc in Et. simpl in Et.
  eapply (runs_infix r f 12 t st _ rest
    (fun k => exists i es, k = EMethodCall f i es /\ ident_name i = name /\ Forall2 denotes args es)); [exact Et| |].
  - intros st' Ht Hs. rewrite Hkt. rewrite <- Hs in Hi. cbn [fst sign]. unfold infix_kind, binop_of, assign_op_of, field_or_method.
    eapply runs_look; [reflexivity|]. rewrite Ht. pose proof Hi as [Hku _]. destruct u as [k s]. simpl in Hku. subst k. simpl.
    eapply runs_bind; [by eapply runs_expect_ident|]. intros i st2 Ht2 Hs2 Hn.
    eapply runs_look; [apply check_run|]. rewrite Ht2. simpl. rewrite Ho. simpl.
    eapply runs_bind; [eapply runs_expect; [exact Ht2|by rewrite Ho]|]. intros _ st3 Ht3 Hs3 _.
    eapply runs_bind; [eapply runs_args; [by left|exact Hcl|exact Ha|done|exact Ht3|by rewrite Hs3, Hs2, Hs]|].
    intros es st4 Ht4 Hs4 HF. apply runs_ret; [done|]. by exists i, es.
  - intros k s (i & es & -> & Hn & HF). simpl. split_and!; [done|done|by apply denotes_all].
Qed.

Lemma reads_index r y i :
  canonical (XIndex y i) = true -> reads r y -> operand (rec_expr r) i -> reads r (XIndex y i).
Proof.
  intros Hc Hy Hi. simpl in Hc. rewrite !andb_true_iff in Hc. destruct Hc as [[Hl Hcy] Hci]. apply Nat.leb_le in Hl.
  eapply (reads_extend r y _ (sign TkLBracket) _ 12); [done|reflexivity|simpl; lia|simpl; lia|done|done|done|].
  intros st t toks rest f Et Hkt Hsp Hfo Hf. apply Forall2_app_inv_r in Hsp as (ts & tc & Hsi & Hsc & ->).
  spell_cons Hsc c l [Hcl _]. spell_nil Hsc. simpl in Et, Hcl. rewrite <- app_assoc in Et. simpl in Et.
  eapply (runs_infix r f 12 t st _ rest (fun k => exists e, k = EIndex f e /\ denotes i e)); [exact Et| |].
  - intros st' Ht Hs. rewrite Hkt. rewrite <- Hs in Hsi. cbn [fst sign]. unfold infix_kind, binop_of, assign_op_of, parse_expr.
    eapply runs_bind; [eapply operand_at_0; [exact Hi|done|exact Ht|done|by rewrite Hcl]|]. intros e st2 Ht2 Hs2 He.
    eapply runs_bind; [eapply runs_expect; [exact Ht2|by rewrite Hcl]|]. intros _ st3 Ht3 Hs3 _.
    apply runs_ret; [done|]. by exists e.
  - by intros k s (e & -> & He).
Qed.

Lemma reads_try r y : canonical (XTry y) = true -> reads r y -> reads r (XTry y).
Proof.
  intros Hc Hy. simpl in Hc. apply andb_true_iff in Hc as [Hl Hcy]. apply Nat.leb_le in Hl.
  apply (reads_extend r y _ (sign TkQuestion) [] 13); [done|done|simpl; lia|simpl; lia|done|done|done|].
  intros st t toks rest f Et Hkt Hsp Hfo Hf. spell_nil Hsp. simpl in Et.
  eapply (runs_infix r f 13 t st _ rest (fun k => k = ETry f)); [exact Et| |by intros ? ? ->].
  intros st' Ht Hs. rewrite Hkt. by apply runs_ret.
Qed.

(** *** All forms *)

Lemma sep_by_item_length x xs :
  x ∈ xs -> List.length (print x) <= List.length (sep_by (sign TkComma) (map print xs)).
Proof.
  induction xs as [|y xs IH]; intros Hin; [by apply elem_of_nil in Hin|]. rewrite map_cons, sep_by_cons, length_app.
  apply elem_of_cons in Hin as [->|Hin]; [lia|]. specialize (IH Hin). destruct xs; [by apply elem_of_nil in Hin|].
  simpl in *. lia.
Qed.

Lemma forallb_elem {A} (f : A -> bool) xs x : forallb f xs = true -> x ∈ xs -> f x = true.
Proof. intros H Hin. apply (proj1 (forallb_forall _ _) H). by apply list_elem_of_In. Qed.

Lemma print_nonempty x : canonical x = true -> 1 <= List.length (print x).
Proof. intros Hc. destruct (print_opens x Hc) as (i & l & -> & _). simpl. lia. Qed.

Lemma unary_tokens_nonempty op : is_some (unary_tokens op) = true -> 1 <= List.length (default [] (unary_tokens op)).
Proof. destruct op; simpl; intros; (done || lia). Qed.

Lemma all_read k : forall x n, List.length (print x) <= k -> k <= n -> canonical x = true -> reads (parser_at lex n) x.
Proof.
  induction k as [|k IH]; intros x n Hx Hn Hc; [pose proof (print_nonempty x Hc); lia|].
  destruct n as [|n]; [lia|].
  assert (Hop : forall y, List.length (print y) <= k -> canonical y = true -> operand (rec_expr (parser_at lex (S n))) y)
    by (intros y Hy Hcy; apply reads_operand, IH; [done|lia|done]).
  assert (Hargs : forall ys, List.length (sep_by (sign TkComma) (map print ys)) <= k -> forallb canonical ys = true ->
    Forall (operand (rec_expr (parser_at lex (S n)))) ys).
  { intros ys Hys Hcy. apply Forall_forall. intros y Hy. pose proof (sep_by_item_length y ys Hy).
    apply Hop; [lia|by eapply forallb_elem]. }
  assert (Hsub : forall y, List.length (print y) <= k -> canonical y = true -> reads (parser_at lex (S n)) y)
    by (intros y Hy Hcy; apply IH; [done|lia|done]).
  pose proof Hc as Hc0.
  destruct x; simpl in Hx, Hc; rewrite ?length_app in Hx; simpl in Hx; rewrite ?length_app in Hx; simpl in Hx;
    rewrite ?andb_true_iff in Hc; destruct_and?.
  - by apply reads_int.
  - by apply reads_neg_int.
  - apply reads_bool.
  - apply reads_null.
  - apply reads_string.
  - apply reads_self.
  - by apply reads_path.
  - apply reads_paren; [done|]. apply Hop; [lia|done].
  - apply reads_array; [done|]. apply Hargs; [lia|done].
  - apply reads_call; [done|]. apply Hargs; [lia|done].
  - apply reads_unary; [done|]. rewrite length_map in Hx. pose proof (unary_tokens_nonempty op ltac:(done)).
    apply Hop; [lia|done].
  - apply reads_await; [done|]. apply Hop; [lia|done].
  - assert (1 <= List.length (map (fun k => sign (in_words words k)) (option_list (fst <$> op_token o)))) by (by destruct (op_token o) as [[]|]; simpl; [lia|]).
    apply reads_infix; [done|apply Hsub; [lia|done]|apply Hop; [lia|done]].
  - apply reads_field; [done|]. apply Hsub; [lia|done].
  - apply reads_method; [done|apply Hsub; [lia|done]|apply Hargs; [lia|done]].
  - apply reads_index; [done|apply Hsub; [lia|done]|apply Hop; [lia|done]].
  - apply reads_try; [done|]. apply Hsub; [lia|done].
Qed.
End reading.
End spelling.

(** ** Structure is determined by the parser's expression *)

Lemma denotes_all_inv xs es :
  (fix all (xs : list sx) (es : list Expr) : Prop :=
    match xs, es with
    | [], [] => True
    | x :: xs', e :: es' => denotes x e /\ all xs' es'
    | _, _ => False
    end) xs es -> Forall2 denotes xs es.
Proof. revert es. induction xs as [|x xs IH]; intros [|e es]; try done. intros [? ?]. constructor; auto. Qed.

Lemma denotes_list_inj (xs ys : list sx) es :
  (forall x y e, x ∈ xs -> y ∈ ys -> denotes x e -> denotes y e -> x = y) ->
  Forall2 denotes xs es -> Forall2 denotes ys es -> xs = ys.
Proof.
  intros H Hx. revert ys H. induction Hx as [|x e xs es Hd Hx IH]; intros ys H Hy.
  - by apply Forall2_nil_inv_r in Hy.
  - apply Forall2_cons_inv_r in Hy as (y & ys' & Hdy & Hy & ->). f_equal.
    + eapply H; [by left|by left|done|done].
    + apply IH; [|done]. intros x' y' e' Hx' Hy'. apply H; by right.
Qed.

Section sx_induction.
Context (Q : sx -> Prop).
Context (HInt : forall n, Q (XInt n)) (HNegInt : forall n, Q (XNegInt n)) (HBool : forall b, Q (XBool b))
  (HNull : Q XNull) (HString : forall s, Q (XString s)) (HSelf : Q XSelf) (HPath : forall names, Q (XPath names))
  (HParen : forall x, Q x -> Q (XParen x)) (HArray : forall xs, Forall Q xs -> Q (XArray xs))
  (HCall : forall names args, Forall Q args -> Q (XCall names args))
  (HUnary : forall op x, Q x -> Q (XUnary op x)) (HAwait : forall x, Q x -> Q (XAwait x))
  (HInfix : forall o l r, Q l -> Q r -> Q (XInfix o l r)) (HField : forall x name, Q x -> Q (XField x name))
  (HMethod : forall x name args, Q x -> Forall Q args -> Q (XMethod x name args))
  (HIndex : forall x i, Q x -> Q i -> Q (XIndex x i)) (HTry : forall x, Q x -> Q (XTry x)).

Lemma sx_nested_ind : forall x, Q x.
Proof.
  fix IH 1. intros [n|n|b| |s| |names|x|xs|names args|op x|x|o l r|x name|x name args|x i|x].
  - apply HInt.
  - apply HNegInt.
  - apply HBool.
  - apply HNull.
  - apply HString.
  - apply HSelf.
  - apply HPath.
  - apply HParen, IH.
  - apply HArray. induction xs; constructor; [apply IH|done].
  - apply HCall. induction args; constructor; [apply IH|done].
  - apply HUnary, IH.
  - apply HAwait, IH.
  - apply HInfix; apply IH.
  - apply HField, IH.
  - apply HMethod; [apply IH|]. induction args; constructor; [apply IH|done].
  - apply HIndex; apply IH.
  - apply HTry, IH.
Qed.
End sx_induction.

Definition determined (x : sx) : Prop :=
  canonical x = true -> forall y e, canonical y = true -> denotes x e -> denotes y e -> x = y.

Lemma determined_list xs ys es :
  Forall determined xs -> forallb canonical xs = true -> forallb canonical ys = true ->
  Forall2 denotes xs es -> Forall2 denotes ys es -> xs = ys.
Proof.
  intros HF Hx Hy. apply denotes_list_inj. intros x y e Hin Hin' Hd Hd'. rewrite Forall_forall in HF.
  apply (HF x Hin) with (e := e); [by apply (forallb_elem canonical xs)|by apply (forallb_elem canonical ys)|done|done].
Qed.

(** Two canonical expressions that denote the same are the same. *)
Lemma denotes_inj x : determined x.
Proof.
  induction x using sx_nested_ind; intros Hc y [k span] Hcy Hx Hy; destruct k; simpl in Hx; try contradiction;
    destruct y; simpl in Hy; try contradiction.
  all: repeat match goal with H : match ?l with _ => _ end |- _ => is_var l; destruct l; try contradiction end.
  all: simpl in Hc, Hcy; rewrite ?andb_true_iff in Hc; rewrite ?andb_true_iff in Hcy; destruct_and?; subst.
  all: try solve [done | lia | f_equal; lia | f_equal; eauto].
  - f_equal. eapply determined_list; [done..|by apply denotes_all_inv|by apply denotes_all_inv].
  - destruct (expr_kind func); try contradiction. f_equal; [congruence|].
    eapply determined_list; [done..|by apply denotes_all_inv|by apply denotes_all_inv].
  - f_equal; [by eauto|]. eapply determined_list; [done..|by apply denotes_all_inv|by apply denotes_all_inv].
Qed.

(** ** Parentheses *)

(** [x] as it is where it fits, else in parentheses. *)
Definition wrap (fits : bool) (x : sx) : sx := if fits then x else XParen x.

Fixpoint parenthesize (x : sx) : sx :=
  match x with
  | XParen y => XParen (parenthesize y)
  | XArray xs => XArray (map parenthesize xs)
  | XCall names args => XCall names (map parenthesize args)
  | XUnary op y =>
      let y' := parenthesize y in
      XUnary op (wrap (Nat.ltb 11 (ledge y') && negb (bool_decide (op = Neg) && starts_with_int y')) y')
  | XAwait y => let y' := parenthesize y in XAwait (wrap (Nat.ltb 11 (ledge y')) y')
  | XInfix o l r =>
      let l' := parenthesize l in
      let r' := parenthesize r in
      XInfix o (wrap (Nat.leb (op_level o) (redge l')) l') (wrap (Nat.ltb (right_level o) (ledge r')) r')
  | XField y name => let y' := parenthesize y in XField (wrap (Nat.leb 12 (redge y')) y') name
  | XMethod y name args =>
      let y' := parenthesize y in XMethod (wrap (Nat.leb 12 (redge y')) y') name (map parenthesize args)
  | XIndex y i => let y' := parenthesize y in XIndex (wrap (Nat.leb 12 (redge y')) y') (parenthesize i)
  | XTry y => let y' := parenthesize y in XTry (wrap (Nat.leb 13 (redge y')) y')
  | _ => x
  end.

(** The structure without parentheses. *)
Fixpoint structure (x : sx) : sx :=
  match x with
  | XParen y => structure y
  | XArray xs => XArray (map structure xs)
  | XCall names args => XCall names (map structure args)
  | XUnary op y => XUnary op (structure y)
  | XAwait y => XAwait (structure y)
  | XInfix o l r => XInfix o (structure l) (structure r)
  | XField y name => XField (structure y) name
  | XMethod y name args => XMethod (structure y) name (map structure args)
  | XIndex y i => XIndex (structure y) (structure i)
  | XTry y => XTry (structure y)
  | _ => x
  end.

(** Operators that have tokens, literals in range and paths with names; nothing
    about levels. *)
Fixpoint writable (x : sx) : bool :=
  match x with
  | XInt n => (0 <=? n)%Z && (n <? 2 ^ 63)%Z
  | XNegInt n => (0 <? n)%Z && (n <=? 2 ^ 63)%Z
  | XBool _ | XNull | XString _ | XSelf => true
  | XPath names => negb (bool_decide (names = []))
  | XParen y | XAwait y | XField y _ | XTry y => writable y
  | XArray xs => forallb writable xs
  | XCall names args => negb (bool_decide (names = [])) && forallb writable args
  | XUnary op y => is_some (unary_tokens op) && writable y
  | XInfix o l r => is_some (op_token o) && writable l && writable r
  | XMethod y _ args => writable y && forallb writable args
  | XIndex y i => writable y && writable i
  end.

Lemma wrap_canonical b x : canonical (wrap b x) = canonical x.
Proof. by destruct b. Qed.

Lemma wrap_structure b x : structure (wrap b x) = structure x.
Proof. by destruct b. Qed.

Lemma wrap_ledge q x : q < TOP -> Nat.ltb q (ledge (wrap (Nat.ltb q (ledge x)) x)) = true.
Proof. intros Hq. destruct (Nat.ltb q (ledge x)) eqn:E; simpl; [done|]. by apply Nat.ltb_lt. Qed.

Lemma wrap_redge q x : q <= TOP -> Nat.leb q (redge (wrap (Nat.leb q (redge x)) x)) = true.
Proof. intros Hq. destruct (Nat.leb q (redge x)) eqn:E; simpl; [done|]. by apply Nat.leb_le. Qed.

Lemma op_level_top o : op_level o < TOP.
Proof. unfold TOP, op_level. destruct o as [[]| |[]]; simpl; lia. Qed.

Lemma right_level_top o : right_level o < TOP.
Proof. pose proof (op_level_top o). unfold right_level. destruct o; [done|unfold TOP; lia..]. Qed.

Lemma forallb_parenthesize xs :
  Forall (fun x => writable x = true -> canonical (parenthesize x) = true) xs -> forallb writable xs = true ->
  forallb canonical (map parenthesize xs) = true.
Proof.
  induction 1 as [|x xs Hx HF IH]; simpl; [done|]. rewrite !andb_true_iff. intros [? ?]. split; auto.
Qed.

Lemma parenthesized_canonical x : writable x = true -> canonical (parenthesize x) = true.
Proof.
  induction x using sx_nested_ind; cbn [writable parenthesize canonical]; intros Hw; try done; cbv zeta;
    rewrite ?andb_true_iff, ?wrap_canonical in *; destruct_and?.
  all: try (split_and!; auto using forallb_parenthesize; try (apply wrap_redge; unfold TOP; lia);
    try (apply wrap_ledge; unfold TOP; lia)).
  all: try (apply wrap_redge; pose proof (op_level_top o); lia).
  all: try (apply wrap_ledge, right_level_top).
  all: try (by apply forallb_parenthesize).
  1: auto.
  all: destruct (Nat.ltb 11 (ledge (parenthesize x))) eqn:El; simpl; [|by rewrite ?andb_false_r].
  all: destruct (bool_decide (op = Neg) && starts_with_int (parenthesize x)) eqn:Es; simpl;
    [by rewrite ?andb_false_r|by rewrite ?Es].
Qed.

Lemma parenthesized_structure x : structure (parenthesize x) = structure x.
Proof.
  induction x using sx_nested_ind; cbn [structure parenthesize]; cbv zeta; rewrite ?wrap_structure; try congruence; try done.
  all: f_equal; try done; rewrite map_map; apply map_ext_Forall; assumption.
Qed.

(** ** Tokens of a text, for concrete inputs

    [layout] puts the texts of tokens after each other with a space between. *)
Fixpoint layout (at_ : Z) (l : list (TokenKind * string)) : list Token :=
  match l with
  | [] => []
  | (k, s) :: l' =>
      let hi := (at_ + Z.of_nat (String.length s))%Z in mkToken k (span_new at_ hi) :: layout (hi + 1) l'
  end.

Definition text_of (l : list (TokenKind * string)) : string := String.concat " " (map snd l).

Definition name_token (s : string) : TokenKind * string := (TkIdent, s).

Definition parser_of (l : list (TokenKind * string)) : Parser := parser_new (layout 0 l) (text_of l).

Definition text_okb (source : string) (t : Token) (x : text) : bool :=
  (span_lo (tok_span t) <=? span_hi (tok_span t))%Z && (span_hi (tok_span t) <=? Z.of_nat (String.length source))%Z &&
  match x with
  | TAny => true
  | TName name => String.eqb (slice source (tok_span t)) name
  | TNumber => negb (existsb (ends_with (slice source (tok_span t))) NUMERIC_SUFFIXES)
  end.

Lemma spells_checked source ts l :
  map tok_kind ts = map fst l -> forallb (fun p => text_okb source p.1 p.2) (zip ts (map snd l)) = true ->
  spells source ts l.
Proof.
  revert l. induction ts as [|t ts IH]; intros [|i l]; try done; [intros; constructor|].
  intros Hk Hb. simpl in Hk. injection Hk as Hk1 Hk. simpl in Hb. apply andb_true_iff in Hb as [Hi Hb].
  constructor; [|by apply IH]. unfold text_okb in Hi. rewrite !andb_true_iff in Hi. destruct Hi as [[Hlo Hhi] Ht].
  split; [done|]. split; [intros _; lia|]. destruct (i.2); simpl; [done|by apply String.eqb_eq|by apply negb_true_iff].
Qed.

(** ** What is read back *)

Lemma reads_back (words : bool) (lex : string -> list Token) (n : nat) (x : sx) (st : Parser) (ts rest : list Token) :
  canonical x = true -> p_tokens st = ts ++ rest -> spells (p_source st) ts (print words x) -> follows rest 0 ->
  List.length ts < n ->
  exists e st', rec_expr (parser_at lex n) 0 st = Some (Ok e, st') /\ p_tokens st' = rest /\ denotes x e.
Proof.
  intros Hc Et Hsp Hf Hn. destruct n as [|n]; [lia|]. pose proof (spells_length _ _ _ Hsp).
  assert (Hr : reads words lex (parser_at lex n) x) by (apply (all_read words lex n); [lia|lia|done]).
  destruct (reads_operand words lex _ x Hr 0 st ts rest Et Hsp) as (e & st' & E & Ht & Hs & He); [by apply ledge_pos|done|].
  by exists e, st'.
Qed.

(** C3: An operator expression with the parentheses its levels need, written as
    tokens, is parsed to an expression of exactly its structure, and of no other
    canonical expression's: prefix, postfix and binary operators bind by their
    levels, binary operators to the left and assignments to the right, argument
    lists are read to their end, and parsing stops before the token that
    follows.  The logical operators may be written as signs or as words. *)
Theorem expressions_read_back (words : bool) (lex : string -> list Token) (n : nat) (x : sx) (st : Parser) (ts rest : list Token) :
  canonical x = true -> p_tokens st = ts ++ rest -> spells (p_source st) ts (print words x) -> follows rest 0 ->
  List.length ts < n ->
  exists e st', rec_expr (parser_at lex n) 0 st = Some (Ok e, st') /\ p_tokens st' = rest /\ denotes x e /\
    (forall y, canonical y = true -> denotes y e -> y = x).
Proof.
  intros Hc Et Hsp Hf Hn. destruct (reads_back words lex n x st ts rest Hc Et Hsp Hf Hn) as (e & st' & E & Ht & He).
  exists e, st'. split_and!; [done..|]. intros y Hy Hd. by eapply denotes_inj.
Qed.

(** [a.f(1, x) + b * - c [ 2 ] ?  =  ! d]: an assignment whose target is a sum. *)
Definition sample_sx : sx :=
  XInfix OAssign
    (XInfix (OBin BAdd) (XMethod (XPath ["a"]) "f" [XInt 1; XPath ["m"; "x"]])
       (XInfix (OBin BMul) (XPath ["b"]) (XUnary Neg (XTry (XIndex (XPath ["c"]) (XInt 2))))))
    (XUnary Not (XParen (XInfix (OBin BOr) (XPath ["d"]) (XBool true)))).

Definition sample_texts : list (TokenKind * string) :=
  [name_token "a"; (TkDot, "."); name_token "f"; (TkLParen, "("); (TkInt (Some 1%Z), "1"); (TkComma, ",");
   name_token "m"; (TkColonColon, "::"); name_token "x"; (TkRParen, ")"); (TkPlus, "+"); name_token "b"; (TkStar, "*");
   (TkMinus, "-"); name_token "c"; (TkLBracket, "["); (TkInt (Some 2%Z), "2"); (TkRBracket, "]"); (TkQuestion, "?");
   (TkAssign, "="); (TkNot, "!"); (TkLParen, "("); name_token "d"; (TkOr, "||"); (TkTrueKw, "true"); (TkRParen, ")")].

Lemma expressions_read_back_witness :
  exists e st', rec_expr (parser_at (fun _ => []) 30) 0 (parser_of sample_texts) = Some (Ok e, st') /\ p_tokens st' = [] /\
    denotes sample_sx e /\ (forall y, canonical y = true -> denotes y e -> y = sample_sx).
Proof.
  apply (expressions_read_back false (fun _ => []) 30 sample_sx (parser_of sample_texts) (layout 0 sample_texts) []).
  - vm_compute. reflexivity.
  - reflexivity.
  - by apply spells_checked; vm_compute.
  - exact I.
  - vm_compute. lia.
Defined.

(** The grammar of canonical operator expressions is unambiguous: two of
    them written with the same tokens are the same. *)
Theorem operator_grammar_unambiguous (words : bool) (source : string) (ts : list Token) (x y : sx) :
  canonical x = true -> canonical y = true -> spells source ts (print words x) -> spells source ts (print words y) -> x = y.
Proof.
  intros Hx Hy Hsx Hsy. set (st := new_with_pointer_width ts source 64).
  assert (Hr : forall z, canonical z = true -> spells source ts (print words z) ->
    runs (parse_expr_prec (fun _ => []) (parser_at (fun _ => []) (List.length ts)) 0) st [] (denotes z)).
  { intros z Hz Hs. eapply (reads_operand words); [|by rewrite app_nil_r|done|by apply ledge_pos|done].
    apply (all_read words _ (List.length ts)); [by rewrite (spells_length _ _ _ Hs)|done|done]. }
  destruct (Hr x Hx Hsx) as (e & st1 & E1 & _ & _ & Hd1), (Hr y Hy Hsy) as (e2 & st2 & E2 & _ & _ & Hd2).
  rewrite E1 in E2. simplify_eq. by eapply denotes_inj.
Qed.

Lemma operator_grammar_unambiguous_witness : sample_sx = sample_sx.
Proof.
  apply (operator_grammar_unambiguous false (text_of sample_texts) (layout 0 sample_texts)).
  - vm_compute. reflexivity.
  - vm_compute. reflexivity.
  - by apply spells_checked; vm_compute.
  - by apply spells_checked; vm_compute.
Defined.

(** Every operator expression can be written: adding parentheses where the
    levels need them makes it canonical without changing its structure. *)
Theorem every_expression_writable (x : sx) :
  writable x = true -> canonical (parenthesize x) = true /\ structure (parenthesize x) = structure x.
Proof. intros Hw. split; [by apply parenthesized_canonical|apply parenthesized_structure]. Qed.

Lemma every_expression_writable_witness :
  let x := XInfix (OBin BMul) (XInfix (OBin BAdd) (XPath ["a"]) (XPath ["b"])) (XInfix OAssign (XPath ["c"]) (XInt 1)) in
  canonical (parenthesize x) = true /\ structure (parenthesize x) = structure x.
Proof. apply every_expression_writable. reflexivity. Defined.

(** ** Forms the parser reads differently from the language reference *)

Definition no_lex (s : string) : list Token := [].
Definition int_token (n : Z) (s : string) : TokenKind * string := (TkInt (Some n), s).

(** Parse an expression, or a program, from the texts of its tokens. *)
Definition read_expr (l : list (TokenKind * string)) : option (result Expr CompileError * Parser) :=
  rec_expr (parser_at no_lex (1 + List.length l)) 0 (parser_of l).
Definition read_program (l : list (TokenKind * string)) : option (result Program CompileError * Parser) :=
  parse_program no_lex (parser_at no_lex (1 + List.length l)) (parser_of l).

(** [0..=5] is read as the assignment of [5] to [0..]. *)
Theorem inclusive_range_is_assignment :
  match read_expr [int_token 0 "0"; (TkDotDot, ".."); (TkAssign, "="); int_token 5 "5"] with
  | Some (Ok (mkExpr (EAssign (mkExpr (ERange (Some _) None false) _) (mkExpr (ELiteral (LInt 5)) _)) _), _) => True
  | _ => False
  end.
Proof. vm_compute. exact I. Qed.

(** The end of the range of a [for] takes the body's brace for a struct literal,
    and the loop is rejected. *)
Theorem for_range_end_is_struct_literal :
  match read_expr [(TkForKw, "for"); name_token "i"; (TkInKw, "in"); int_token 0 "0"; (TkDotDot, ".."); name_token "n";
                   (TkLBrace, "{"); (TkRBrace, "}")] with
  | Some (Err (CParse (UnexpectedToken TkLBrace None _)), _) => True
  | _ => False
  end.
Proof. vm_compute. exact I. Qed.

(** [return &x] is read as [(return) & x]. *)
Theorem return_reference_is_bit_and :
  match read_expr [(TkReturnKw, "return"); (TkBitAnd, "&"); name_token "x"] with
  | Some (Ok (mkExpr (EBinary BBitAnd (mkExpr (EReturn None) _) _) _), _) => True
  | _ => False
  end.
Proof. vm_compute. exact I. Qed.

(** [a &= b] is not an assignment: the expression ends before [&=]. *)
Theorem bit_assignment_not_read :
  match read_expr [name_token "a"; (TkBitAndAssign, "&="); name_token "b"] with
  | Some (Ok (mkExpr (EPath _) _), st) => List.length (p_tokens st) = 2
  | _ => False
  end.
Proof. vm_compute. reflexivity. Qed.

(** A constant declared with [=] is rejected; with [==] it is accepted. *)
Theorem const_needs_double_equal :
  let decl eq := [(TkConstKw, "const"); name_token "MAX"; (TkColon, ":"); name_token "i32"; eq; int_token 100 "100";
                  (TkSemicolon, ";")] in
  match read_program (decl (TkAssign, "=")), read_program (decl (TkEq, "==")) with
  | Some (Err _, _), Some (Ok (mkProgram [mkDecl (DConst _ _ _) _]), _) => True
  | _, _ => False
  end.
Proof. vm_compute. exact I. Qed.

(** A program that ends inside a block is accepted. *)
Theorem unclosed_block_accepted :
  match read_program [(TkDefKw, "def"); name_token "f"; (TkLParen, "("); (TkRParen, ")"); (TkLBrace, "{"); name_token "x"] with
  | Some (Ok (mkProgram [_]), _) => True
  | _ => False
  end.
Proof. vm_compute. exact I. Qed.
