(* ===== verification/Scanner.v ===== *)
(** The scanner: compiler/src/lexer/mod.rs and token.rs, with the literal
    scanner of parser/fstring_scan.rs that the text expanders share.

    The scanner is generated by the logos crate from the patterns on
    [TokenKind].  What is used of that crate is its documented rule: at each
    position the longest match of any pattern is taken, among equally long ones
    that of the highest priority, and a callback may take more.  Where no
    pattern matches, logos skips ahead by a rule that is not documented, and
    [tokenize] has no result.  Ties arise only between patterns whose priority
    is explicit or that of a fixed token, twice its length.

    Text is a list of bytes.  Each pattern matches at most one length at a
    position, or its longest one is given by a deterministic search.  The
    conversion of decimals to [f64] is a parameter. *)

From S2P Require Import Prelude Strs Ast Token.
From Stdlib Require Import Ascii String.

#[local] Open Scope string_scope.
#[local] Open Scope list_scope.

Notation chars := list_ascii_of_string (only parsing).

(** ** UTF-8 *)

Definition byte_of (c : ascii) : Z := Z.of_nat (Ascii.nat_of_ascii c).
Definition of_byte (b : Z) : ascii := Ascii.ascii_of_nat (Z.to_nat b).

Definition is_continuation (c : ascii) : bool := in_range 128 191 c.

(** The characters of a text, each as its bytes; before them the bytes that
    belong to no character. *)
Fixpoint split_chars (s : list ascii) : list ascii * list (list ascii) :=
  match s with
  | [] => ([], [])
  | c :: r => let '(k, cs) := split_chars r in if is_continuation c then (c :: k, cs) else ([], (c :: k) :: cs)
  end.
Definition chars_of (s : list ascii) : list (list ascii) := (split_chars s).2.

(** The code point of a character. *)
Definition code_point (c : list ascii) : Z :=
  match map byte_of c with
  | [a] => a
  | [a; b] => Z.lor (Z.shiftl (Z.land a 31) 6) (Z.land b 63)
  | [a; b; d] => Z.lor (Z.shiftl (Z.land a 15) 12) (Z.lor (Z.shiftl (Z.land b 63) 6) (Z.land d 63))
  | [a; b; d; e] =>
      Z.lor (Z.shiftl (Z.land a 7) 18) (Z.lor (Z.shiftl (Z.land b 63) 12) (Z.lor (Z.shiftl (Z.land d 63) 6) (Z.land e 63)))
  | _ => 0
  end.

Definition cont (code : Z) (shift : Z) : ascii := of_byte (128 + Z.land (Z.shiftr code shift) 63).
Definition encode_char (code : Z) : list ascii :=
  (if code <? 128 then [of_byte code]
   else if code <? 2048 then [of_byte (192 + Z.shiftr code 6); cont code 0]
   else if code <? 65536 then [of_byte (224 + Z.shiftr code 12); cont code 6; cont code 0]
   else [of_byte (240 + Z.shiftr code 18); cont code 12; cont code 6; cont code 0])%Z.

(** [char::from_u32] *)
Definition char_from_u32 (code : Z) : option (list ascii) :=
  if ((code <? 55296) || (57344 <=? code) && (code <? 1114112))%Z then Some (encode_char code) else None.

(** [String::from_utf8_lossy]: what is no character becomes U+FFFD, once for the
    longest beginning of a character. *)
Definition second_range (lead : Z) : Z * Z :=
  (if lead =? 224 then (160, 191) else if lead =? 237 then (128, 159) else if lead =? 240 then (144, 191)
   else if lead =? 244 then (128, 143) else (128, 191))%Z.
Definition width_of (lead : Z) : nat :=
  if (lead <? 128)%Z then 1%nat else if ((194 <=? lead) && (lead <=? 223))%Z then 2%nat
  else if ((224 <=? lead) && (lead <=? 239))%Z then 3%nat else if ((240 <=? lead) && (lead <=? 244))%Z then 4%nat else O.
Fixpoint continuation_run (n : nat) (lo hi : Z) (s : list Z) : nat :=
  match n, s with
  | S n, b :: s => if ((lo <=? b) && (b <=? hi))%Z then S (continuation_run n 128 191 s) else O
  | _, _ => O
  end.
Fixpoint utf8_lossy (fuel : nat) (s : list Z) : list ascii :=
  match fuel, s with
  | S fuel, b :: r =>
      let w := width_of b in
      let '(lo, hi) := second_range b in
      let k := continuation_run (w - 1) lo hi r in
      (if (0 <? w)%nat && (k =? w - 1)%nat then map of_byte (b :: take k r) else map of_byte [239; 191; 189]%Z)
        ++ utf8_lossy fuel (drop k r)
  | _, _ => []
  end.

(** ** Numbers *)

Definition digit_of (c : ascii) : option Z :=
  if is_ascii_digit c then Some (byte_of c - 48)%Z
  else if is_ascii_lowercase c then Some (byte_of c - 87)%Z
  else if is_ascii_uppercase c then Some (byte_of c - 55)%Z
  else None.

(** [from_str_radix] of an unsigned type of [bits] bits. *)
Fixpoint radix_digits (radix bits acc : Z) (s : list ascii) : option Z :=
  match s with
  | [] => Some acc
  | c :: s =>
      match digit_of c with
      | Some d =>
          if (d <? radix)%Z
          then let acc := (acc * radix + d)%Z in if (acc <? 2 ^ bits)%Z then radix_digits radix bits acc s else None
          else None
      | None => None
      end
  end.
Definition from_str_radix (radix bits : Z) (s : list ascii) : option Z :=
  match s with
  | [] => None
  | [c] => radix_digits radix bits 0 [c]
  | c :: r => if Ascii.eqb c "+" then radix_digits radix bits 0 r else radix_digits radix bits 0 s
  end.

Fixpoint starts (p s : list ascii) : bool :=
  match p, s with
  | [], _ => true
  | a :: p, b :: s => Ascii.eqb a b && starts p s
  | _ :: _, [] => false
  end.
Definition strip_prefix (p s : list ascii) : option (list ascii) := if starts p s then Some (drop (List.length p) s) else None.
Definition strip_suffix (s p : list ascii) : option (list ascii) :=
  if starts (rev p) (rev s) then Some (take (List.length s - List.length p) s) else None.

Definition without_underscores (s : list ascii) : list ascii := List.filter (fun c => negb (Ascii.eqb c "_")) s.

Definition SUFFIXES : list string := ["isize"; "usize"; "i64"; "i32"; "i16"; "i8"; "u64"; "u32"; "u16"; "u8"].

Definition parse_int_literal (slice : list ascii) : option Z :=
  let digits := default slice (head (omap (fun suffix => strip_suffix slice (chars suffix)) SUFFIXES)) in
  let normalized := without_underscores digits in
  match strip_prefix (chars "0b") normalized with
  | Some rest => from_str_radix 2 64 rest
  | None =>
      match strip_prefix (chars "0o") normalized with
      | Some rest => from_str_radix 8 64 rest
      | None =>
          match strip_prefix (chars "0x") normalized with
          | Some rest => from_str_radix 16 64 rest
          | None => from_str_radix 10 64 normalized
          end
      end
  end.

(** ** Escapes *)

Inductive escape := Plain | Code (digits : list ascii).

Definition code_char (digits : list ascii) : list ascii :=
  default [] (from_str_radix 16 32 digits ≫= char_from_u32).

Definition is_char (c : ascii) (x : list ascii) : bool := bool_decide (x = [c]).
Definition QUOTE : ascii := "034".
Definition NEWLINE : ascii := "010".

(** [unescape_string] over the characters of a text; inside [\u{ }] the digits
    so far are collected. *)
Fixpoint unescape_chars (mode : escape) (cs : list (list ascii)) : list ascii :=
  match mode, cs with
  | Code digits, [] => code_char digits
  | Code digits, c :: cs =>
      if is_char "}" c then code_char digits ++ unescape_chars Plain cs else unescape_chars (Code (digits ++ c)) cs
  | Plain, [] => []
  | Plain, c :: cs =>
      if is_char "\" c then
        match cs with
        | [] => ["\"%char]
        | e :: cs =>
            if is_char "n" e then NEWLINE :: unescape_chars Plain cs
            else if is_char "t" e then "009"%char :: unescape_chars Plain cs
            else if is_char "r" e then "013"%char :: unescape_chars Plain cs
            else if is_char "0" e then "000"%char :: unescape_chars Plain cs
            else if is_char "\" e || is_char QUOTE e || is_char "'" e then e ++ unescape_chars Plain cs
            else if is_char "x" e then
              match cs with
              | h1 :: h2 :: cs => encode_char (default 0%Z (from_str_radix 16 8 (h1 ++ h2))) ++ unescape_chars Plain cs
              | [h1] => encode_char (default 0%Z (from_str_radix 16 8 (h1 ++ ["0"%char]))) ++ []
              | [] => encode_char 0
              end
            else if is_char "u" e then
              match cs with
              | [] => []
              | b :: cs => if is_char "{" b then unescape_chars (Code []) cs else unescape_chars Plain cs
              end
            else "\"%char :: e ++ unescape_chars Plain cs
        end
      else c ++ unescape_chars Plain cs
  end.
Definition unescape_string (s : list ascii) : list ascii := unescape_chars Plain (chars_of s).

Definition parse_char (s : list ascii) : Z :=
  let first := match chars_of s with c :: _ => code_point c | [] => 0%Z end in
  match chars_of s with
  | c :: e :: _ =>
      if is_char "\" c then
        if is_char "n" e then 10%Z
        else if is_char "t" e then 9%Z
        else if is_char "r" e then 13%Z
        else if is_char "0" e then 0%Z
        else if is_char "\" e || is_char "'" e || is_char QUOTE e then code_point e
        else first
      else first
  | _ => first
  end.

(** ** Strings over several lines *)

Fixpoint find_text (p s : list ascii) : option nat :=
  if starts p s then Some O else match s with [] => None | _ :: s => S <$> find_text p s end.

(** [str::lines] *)
Definition strip_cr (l : list ascii) : list ascii := default l (strip_suffix l ["013"%char]).
Definition lines (s : list ascii) : list (list ascii) :=
  let parts := split_on 10 s in
  map strip_cr (match last parts with Some [] => removelast parts | _ => parts end).

Definition blank (l : list ascii) : bool := bool_decide (trim (string_of_list_ascii l) = EmptyString).

Fixpoint drop_while {A} (P : A -> bool) (l : list A) : list A :=
  match l with x :: l' => if P x then drop_while P l' else l | [] => [] end.
Fixpoint take_while {A} (P : A -> bool) (l : list A) : list A :=
  match l with x :: l' => if P x then x :: take_while P l' else [] | [] => [] end.

Definition indent_of (l : list ascii) : nat :=
  List.length (take_while (fun c => is_char " " c || is_char "009" c) (chars_of l)).

Definition min_of (l : list nat) : nat := match l with [] => O | x :: l => fold_left Nat.min l x end.

Fixpoint join_lines (l : list (list ascii)) : list ascii :=
  match l with [] => [] | [x] => x | x :: l => x ++ NEWLINE :: join_lines l end.

Definition strip_multiline_indent (raw : list ascii) : list ascii :=
  let ls := rev (drop_while blank (rev (drop_while blank (lines raw)))) in
  let indent := min_of (map indent_of (List.filter (fun l => negb (blank l)) ls)) in
  join_lines (map (fun l => List.concat (drop indent (chars_of l))) ls).

Definition triple_quote : list ascii := [QUOTE; QUOTE; QUOTE].

(** The callback for three quotes: the payload, and how much more it takes. *)
Definition lex_multiline_string (remainder : list ascii) : option (list ascii) * nat :=
  match find_text triple_quote remainder with
  | Some end_ => (Some (strip_multiline_indent (take end_ remainder)), (end_ + 3)%nat)
  | None => (None, O)
  end.

(** ** F-strings

    The loops of [scan_fstring_body], [scan_interpolation_end] and
    [skip_fstring_quoted] over one cursor [i]: in the text, in an interpolation
    that began at [lo] with [depth] braces open, or in a quoted literal inside
    one. *)

Inductive fmode := FText | FInterp (lo depth : nat) | FQuoted (lo depth : nat) (quote : ascii).

Definition FSTRING_PREFIX_LEN : nat := 2.

Definition interpolation_span (lo hi : nat) : Span :=
  mkSpan (wrap_u 32 (Z.of_nat (lo + FSTRING_PREFIX_LEN))) (wrap_u 32 (Z.of_nat (hi + FSTRING_PREFIX_LEN))).

Definition is_quote (c : ascii) : bool := Ascii.eqb c QUOTE || Ascii.eqb c "'".
Definition next_is (c : ascii) (s : list ascii) : bool := match s with d :: _ => Ascii.eqb d c | [] => false end.

Fixpoint scan_fstring_body (mode : fmode) (i : nat) (raw_template : list ascii) (interpolations : list Span)
    (s : list ascii) : option (FStringLiteral * nat) :=
  match mode, s with
  | _, [] => None
  | FText, c :: r =>
      if Ascii.eqb c QUOTE then
        Some (mkFString (string_of_list_ascii (unescape_string raw_template)) interpolations, S i)
      else if Ascii.eqb c NEWLINE then None
      else if Ascii.eqb c "\" then
        match r with
        | d :: r' => scan_fstring_body FText (S (S i)) (raw_template ++ ["\"%char; d]) interpolations r'
        | [] => None
        end
      else if (Ascii.eqb c "{" || Ascii.eqb c "}") && next_is c r then
        match r with
        | _ :: r' => scan_fstring_body FText (S (S i)) (raw_template ++ [c; c]) interpolations r'
        | [] => None
        end
      else if Ascii.eqb c "{" then
        scan_fstring_body (FInterp (S i) 0) (S i) (raw_template ++ ["{"%char; "}"%char]) interpolations r
      else scan_fstring_body FText (S i) (raw_template ++ [c]) interpolations r
  | FInterp lo depth, c :: r =>
      if Ascii.eqb c "}" then
        match depth with
        | O => scan_fstring_body FText (S i) raw_template (interpolations ++ [interpolation_span lo i]) r
        | S depth => scan_fstring_body (FInterp lo depth) (S i) raw_template interpolations r
        end
      else if Ascii.eqb c "{" then scan_fstring_body (FInterp lo (S depth)) (S i) raw_template interpolations r
      else if is_quote c then scan_fstring_body (FQuoted lo depth c) (S i) raw_template interpolations r
      else if Ascii.eqb c NEWLINE then None
      else scan_fstring_body (FInterp lo depth) (S i) raw_template interpolations r
  | FQuoted lo depth quote, c :: r =>
      if Ascii.eqb c "\" then
        match r with
        | _ :: r' => scan_fstring_body (FQuoted lo depth quote) (S (S i)) raw_template interpolations r'
        | [] => None
        end
      else if Ascii.eqb c NEWLINE then None
      else if Ascii.eqb c quote then scan_fstring_body (FInterp lo depth) (S i) raw_template interpolations r
      else scan_fstring_body (FQuoted lo depth quote) (S i) raw_template interpolations r
  end.

Definition line_end (s : list ascii) : nat := default (List.length s) (find_text [NEWLINE] s).

Definition lex_fstring (remainder : list ascii) : option FStringLiteral * nat :=
  match scan_fstring_body FText 0 [] [] remainder with
  | Some (literal, consumed) => (Some literal, consumed)
  | None => (None, line_end remainder)
  end.

(** The same literal as the text expanders skip it (parser/fstring_scan.rs),
    with the same three loops. *)
Fixpoint skip_fstring (mode : fmode) (i : nat) (s : list ascii) : option nat :=
  match mode, s with
  | _, [] => None
  | FText, c :: r =>
      if Ascii.eqb c QUOTE then Some (S i)
      else if Ascii.eqb c NEWLINE then None
      else if Ascii.eqb c "\" then match r with _ :: r' => skip_fstring FText (S (S i)) r' | [] => None end
      else if Ascii.eqb c "{" && next_is "{" r then
        match r with _ :: r' => skip_fstring FText (S (S i)) r' | [] => None end
      else if Ascii.eqb c "{" then skip_fstring (FInterp (S i) 0) (S i) r
      else skip_fstring FText (S i) r
  | FInterp lo depth, c :: r =>
      if Ascii.eqb c "}" then
        match depth with
        | O => skip_fstring FText (S i) r
        | S depth => skip_fstring (FInterp lo depth) (S i) r
        end
      else if Ascii.eqb c "{" then skip_fstring (FInterp lo (S depth)) (S i) r
      else if is_quote c then skip_fstring (FQuoted lo depth c) (S i) r
      else if Ascii.eqb c NEWLINE then None
      else skip_fstring (FInterp lo depth) (S i) r
  | FQuoted lo depth quote, c :: r =>
      if Ascii.eqb c "\" then match r with _ :: r' => skip_fstring (FQuoted lo depth quote) (S (S i)) r' | [] => None end
      else if Ascii.eqb c NEWLINE then None
      else if Ascii.eqb c quote then skip_fstring (FInterp lo depth) (S i) r
      else skip_fstring (FQuoted lo depth quote) (S i) r
  end.

Definition is_ident_continue (c : ascii) : bool := is_ascii_alphanumeric c || Ascii.eqb c "_".

Definition skip_fstring_literal (bytes : list ascii) (start : nat) : option nat :=
  match bytes !! start, bytes !! S start with
  | Some f, Some q =>
      if Ascii.eqb f "f" && Ascii.eqb q QUOTE &&
         negb (match start with O => false | S p => match bytes !! p with Some c => is_ident_continue c | None => false end end)
      then skip_fstring FText (start + 2) (drop (start + 2) bytes) else None
  | _, _ => None
  end.

(** ** Patterns *)

Definition word_tokens : list (string * TokenKind) := [
  ("def", TkDefKw); ("fn", TkFnKw); ("class", TkClassKw); ("struct", TkStructKw); ("enum", TkEnumKw); ("impl", TkImplKw);
  ("trait", TkTraitKw); ("dyn", TkDynKw); ("type", TkTypeKw); ("const", TkConstKw); ("static", TkStaticKw); ("let", TkLetKw);
  ("if", TkIfKw); ("elif", TkElifKw); ("else", TkElseKw); ("match", TkMatchKw); ("case", TkCaseKw); ("default", TkDefaultKw);
  ("for", TkForKw); ("while", TkWhileKw); ("loop", TkLoopKw); ("break", TkBreakKw); ("continue", TkContinueKw);
  ("return", TkReturnKw); ("yield", TkYieldKw); ("await", TkAwaitKw); ("async", TkAsyncKw); ("parallel", TkParallelKw);
  ("import", TkImportKw); ("from", TkFromKw); ("as", TkAsKw); ("export", TkExportKw); ("extern", TkExternKw);
  ("unsafe", TkUnsafeKw); ("try", TkTryKw); ("except", TkExceptKw); ("finally", TkFinallyKw); ("raise", TkRaiseKw);
  ("throw", TkThrowKw); ("pub", TkPubKw); ("priv", TkPrivKw); ("mut", TkMutKw); ("where", TkWhereKw);
  ("requires", TkRequiresKw); ("ensures", TkEnsuresKw); ("Self", TkSelfKw); ("self", TkSelfLowerKw); ("true", TkTrueKw);
  ("false", TkFalseKw); ("none", TkNoneKw); ("null", TkNullKw); ("in", TkInKw); ("is", TkIsKw); ("not", TkNotKw);
  ("and", TkAndKw); ("or", TkOrKw); ("pass", TkPassKw)].

Definition sign_tokens : list (string * TokenKind) := [
  ("+", TkPlus); ("-", TkMinus); ("*", TkStar); ("/", TkSlash); ("%", TkPercent); ("&", TkBitAnd); ("|", TkBitOr);
  ("^", TkBitXor); ("<<", TkShl); (">>", TkShr); ("~", TkBitNot); ("&&", TkAnd); ("||", TkOr); ("!", TkNot); ("==", TkEq);
  ("!=", TkNotEq); ("<", TkLt); (">", TkGt); ("<=", TkLe); (">=", TkGe); ("=", TkAssign); ("+=", TkAddAssign);
  ("-=", TkSubAssign); ("*=", TkMulAssign); ("/=", TkDivAssign); ("%=", TkModAssign); ("&=", TkBitAndAssign);
  ("|=", TkBitOrAssign); ("^=", TkBitXorAssign); ("<<=", TkShlAssign); (">>=", TkShrAssign); ("(", TkLParen); (")", TkRParen);
  ("{", TkLBrace); ("}", TkRBrace); ("[", TkLBracket); ("]", TkRBracket); (":", TkColon); ("::", TkColonColon);
  (";", TkSemicolon); (",", TkComma); (".", TkDot); ("..", TkDotDot); ("...", TkDotDotDot); ("->", TkArrow);
  ("=>", TkFatArrow); ("@", TkAt); ("?", TkQuestion); ("$", TkDollar); ("#", TkHash)].

(** What a match stands for. *)
Inductive lexeme := LSkip | LToken (k : TokenKind) | LMultiline | LFString.

Definition is_ident_start (c : ascii) : bool := is_ascii_alphabetic c || Ascii.eqb c "_".

Fixpoint run_length (P : ascii -> bool) (s : list ascii) : nat :=
  match s with c :: s => if P c then S (run_length P s) else O | [] => O end.

(** A first byte in [P], then a run of bytes in [Q]. *)
Definition first_then (P Q : ascii -> bool) (s : list ascii) : nat :=
  match s with c :: r => if P c then S (run_length Q r) else O | [] => O end.

(** Digits in groups separated by single underscores. *)
Fixpoint groups_from (D : ascii -> bool) (s : list ascii) : nat :=
  match s with
  | [] => O
  | c :: r =>
      if D c then S (groups_from D r)
      else if Ascii.eqb c "_" && match r with d :: _ => D d | [] => false end then S (groups_from D r)
      else O
  end.
Definition groups (D : ascii -> bool) (s : list ascii) : nat :=
  match s with c :: _ => if D c then groups_from D s else O | [] => O end.

Definition suffix_length (suffixes : list string) (s : list ascii) : nat :=
  match List.find (fun p => starts (chars p) s) suffixes with Some p => String.length p | None => O end.

Definition INT_SUFFIXES : list string := ["i8"; "i16"; "i32"; "i64"; "isize"; "u8"; "u16"; "u32"; "u64"; "usize"].

(** A prefix, digits and a suffix. *)
Definition int_length (prefix : string) (D : ascii -> bool) (s : list ascii) : nat :=
  if starts (chars prefix) s then
    let digits := drop (String.length prefix) s in
    match groups D digits with
    | O => O
    | n => (String.length prefix + n + suffix_length INT_SUFFIXES (drop n digits))%nat
    end
  else O.

Definition is_hex (c : ascii) : bool := is_ascii_digit c || in_range 97 102 c || in_range 65 70 c.

Definition exponent_length (s : list ascii) : nat :=
  match s with
  | e :: r =>
      if Ascii.eqb e "e" || Ascii.eqb e "E" then
        let sign := match r with c :: _ => if Ascii.eqb c "+" || Ascii.eqb c "-" then 1%nat else O | [] => O end in
        match groups is_ascii_digit (drop sign r) with O => O | n => S (sign + n) end
      else O
  | [] => O
  end.

Definition float_length (s : list ascii) : nat :=
  match groups is_ascii_digit s with
  | O => O
  | a =>
      match drop a s with
      | dot :: r =>
          if Ascii.eqb dot "." then
            match groups is_ascii_digit r with
            | O => O
            | b =>
                let r := drop b r in
                let e := exponent_length r in
                (a + 1 + b + e + suffix_length ["f32"; "f64"] (drop e r))%nat
            end
          else O
      | [] => O
      end
  end.

(** The rest of a quoted literal: bytes other than the quote and the
    backslash, pairs of a backslash and anything but a newline, the quote. *)
Fixpoint quoted_rest (q : ascii) (s : list ascii) : option nat :=
  match s with
  | [] => None
  | c :: r =>
      if Ascii.eqb c q then Some 1%nat
      else if Ascii.eqb c "\" then
        match r with
        | d :: r' => if Ascii.eqb d NEWLINE then None else (fun n => S (S n)) <$> quoted_rest q r'
        | [] => None
        end
      else S <$> quoted_rest q r
  end.
Definition quoted_length (prefix : list ascii) (q : ascii) (s : list ascii) : nat :=
  if starts (prefix ++ [q]) s
  then match quoted_rest q (drop (S (List.length prefix)) s) with Some n => (S (List.length prefix) + n)%nat | None => O end
  else O.

(** The rest of a comment: bytes other than the star, pairs of a star and
    anything but a slash, then star and slash. *)
Fixpoint comment_rest (s : list ascii) : option nat :=
  match s with
  | [] => None
  | c :: r =>
      if Ascii.eqb c "*" then
        match r with
        | d :: r' => if Ascii.eqb d "/" then Some 2%nat else (fun n => S (S n)) <$> comment_rest r'
        | [] => None
        end
      else S <$> comment_rest r
  end.
Definition comment_length (s : list ascii) : nat :=
  if starts (chars "/*") s then match comment_rest (drop 2 s) with Some n => (2 + n)%nat | None => O end else O.
Definition line_comment_length (s : list ascii) : nat :=
  if starts (chars "//") s then (2 + run_length (fun c => negb (Ascii.eqb c NEWLINE)) (drop 2 s))%nat else O.

Definition is_blank (c : ascii) : bool :=
  Ascii.eqb c " " || Ascii.eqb c "009" || Ascii.eqb c "013" || Ascii.eqb c "012".

Section scanner.
Context (parse_f64 : list ascii -> option Z).

Definition parse_float_literal (slice : list ascii) : option Z :=
  let digits := match strip_suffix slice (chars "f32") with
                | Some d => d
                | None => default slice (strip_suffix slice (chars "f64"))
                end in
  parse_f64 (without_underscores digits).

Definition fixed_match (priority : string -> nat) (s : list ascii) (t : string * TokenKind) : option (nat * nat * lexeme) :=
  if starts (chars t.1) s then Some (String.length t.1, priority t.1, LToken t.2) else None.

Definition regex_match (n priority : nat) (l : lexeme) : option (nat * nat * lexeme) :=
  match n with O => None | _ => Some (n, priority, l) end.

Definition inner (prefix n : nat) (s : list ascii) : list ascii := drop prefix (take (n - 1) s).
Definition number_token (n : nat) (s : list ascii) : lexeme := LToken (TkInt (parse_int_literal (take n s))).

(** The matches at a position: length, priority and what they stand for. *)
Definition token_matches (s : list ascii) : list (nat * nat * lexeme) :=
  let b := int_length "0b" (in_range 48 49) s in
  let o := int_length "0o" (in_range 48 55) s in
  let x := int_length "0x" is_hex s in
  let d := int_length EmptyString is_ascii_digit s in
  let f := float_length s in
  let i := first_then is_ascii_digit is_ident_continue s in
  let str := quoted_length [] QUOTE s in
  let raw := quoted_length ["r"%char] QUOTE s in
  let bytes := quoted_length ["b"%char] QUOTE s in
  let chr := quoted_length [] "'" s in
  omap (fixed_match (fun t => (2 * String.length t)%nat) s) (word_tokens ++ sign_tokens) ++
  omap (fun m => m)
    [fixed_match (fun _ => 10%nat) s ("_", TkUnderscore);
     regex_match (line_comment_length s) 2 LSkip;
     regex_match (comment_length s) 2 LSkip;
     regex_match (run_length is_blank s) 2 LSkip;
     regex_match (if next_is NEWLINE s then 1 else 0)%nat 2 LSkip;
     regex_match (first_then is_ident_start is_ident_continue s) 1 (LToken TkIdent);
     regex_match b 3 (number_token b s);
     regex_match o 3 (number_token o s);
     regex_match x 3 (number_token x s);
     regex_match d 3 (number_token d s);
     regex_match f 3 (LToken (TkFloat (parse_float_literal (take f s))));
     regex_match i 1 (LToken (TkInvalidNumber (string_of_list_ascii (take i s))));
     regex_match (if starts triple_quote s then 3 else 0)%nat 6 LMultiline;
     regex_match str 2 (LToken (TkString (Some (string_of_list_ascii (unescape_string (inner 1 str s))))));
     regex_match raw 2 (LToken (TkRawString (Some (string_of_list_ascii (inner 2 raw s)))));
     regex_match bytes 2 (LToken (TkBytes (Some (map byte_of (inner 2 bytes s)))));
     regex_match chr 2 (LToken (TkChar (Some (parse_char (inner 1 chr s)))));
     regex_match (if starts (chars "f" ++ [QUOTE]) s then 2 else 0)%nat 4 LFString].

Definition better (a b : nat * nat * lexeme) : bool :=
  let '(n, p, _) := a in
  let '(m, q, _) := b in
  Nat.ltb m n || Nat.eqb m n && Nat.ltb q p.

Definition pick (best : option (nat * nat * lexeme)) (m : nat * nat * lexeme) : option (nat * nat * lexeme) :=
  match best with Some b => if better m b then Some m else best | None => Some m end.
Definition best_match (s : list ascii) : option (nat * nat * lexeme) := fold_left pick (token_matches s) None.

(** One step: how much is taken, and the token if it is none to skip. *)
Definition next_token (s : list ascii) : option (nat * option TokenKind) :=
  match best_match s with
  | None => None
  | Some (n, _, LSkip) => Some (n, None)
  | Some (n, _, LToken k) => Some (n, Some k)
  | Some (n, _, LMultiline) =>
      let '(payload, more) := lex_multiline_string (drop n s) in
      Some ((n + more)%nat, Some (TkString (string_of_list_ascii <$> payload)))
  | Some (n, _, LFString) =>
      let '(payload, more) := lex_fstring (drop n s) in Some ((n + more)%nat, Some (TkFString payload))
  end.

Definition token_with_span (k : TokenKind) (lo hi : nat) : Token :=
  mkToken k (mkSpan (wrap_u 32 (Z.of_nat lo)) (wrap_u 32 (Z.of_nat hi))).

Fixpoint tokens_from (fuel pos : nat) (s : list ascii) : option (list Token) :=
  match s, fuel with
  | [], _ => Some []
  | _, O => None
  | _, S fuel =>
      let* step := next_token s in
      let '(n, k) := step in
      let* rest := tokens_from fuel (pos + n) (drop n s) in
      Some (match k with Some k => token_with_span k pos (pos + n) :: rest | None => rest end)
  end.

(** [Lexer::tokenize]. *)
Definition tokenize (source : string) : option (list Token) :=
  tokens_from (String.length source) 0 (chars source).
End scanner.
