(* ===== verification/ScannerInv.v ===== *)
(** What the scanner keeps: it ends, its tokens are in order and inside the
    text ([tokens_in_order]); which token a word, a number, a string or a sign
    becomes, depending on what follows; and the two scanners of f-strings agree
    ([fstring_scanners_agree]). *)

From S2P Require Import Prelude Strs Ast Token Scanner.
From Stdlib Require Import Ascii String.

#[local] Open Scope string_scope.
#[local] Open Scope list_scope.

(** ** Lengths *)

Lemma run_length_le P s : run_length P s <= List.length s.
Proof. induction s as [|c s IH]; simpl; [done|]. destruct (P c); simpl; lia. Qed.

Lemma first_then_le P Q s : first_then P Q s <= List.length s.
Proof. destruct s as [|c s]; simpl; [done|]. pose proof (run_length_le Q s). destruct (P c); simpl; lia. Qed.

Lemma groups_from_le D s : groups_from D s <= List.length s.
Proof. induction s as [|c s IH]; cbn [groups_from List.length]; [done|]. destruct (D c); [lia|]. destruct (_ && _); lia. Qed.

Lemma groups_le D s : groups D s <= List.length s.
Proof. unfold groups. destruct s as [|c s]; [done|]. pose proof (groups_from_le D (c :: s)). destruct (D c); simpl in *; lia. Qed.

Lemma starts_spec p s : starts p s = true <-> exists r, s = p ++ r.
Proof.
  revert s. induction p as [|a p IH]; intros [|b s]; simpl; try (split; [eauto|done]).
  - split; [done|]. by intros [r ?].
  - rewrite andb_true_iff, Ascii.eqb_eq, IH. split; [intros [-> [r ->]]; by exists r|intros [r [= -> ->]]; eauto].
Qed.

Lemma starts_le p s : starts p s = true -> List.length p <= List.length s.
Proof. intros [r ->]%starts_spec. rewrite length_app. lia. Qed.

Lemma length_chars s : List.length (list_ascii_of_string s) = String.length s.
Proof. induction s; simpl; congruence. Qed.

Lemma suffix_length_le l s : suffix_length l s <= List.length s.
Proof.
  unfold suffix_length. destruct (List.find _ l) as [p|] eqn:E; [|lia]. apply find_some in E as [_ E].
  apply starts_le in E. by rewrite length_chars in E.
Qed.

Lemma int_length_le prefix D s : int_length prefix D s <= List.length s.
Proof.
  unfold int_length. destruct (starts _ s) eqn:E; [|lia]. apply starts_le in E. rewrite length_chars in E.
  set (r := drop (String.length prefix) s). pose proof (groups_le D r) as Hg. pose proof (suffix_length_le INT_SUFFIXES (drop (groups D r) r)) as Hs.
  rewrite length_drop in Hs. assert (List.length r = List.length s - String.length prefix) by apply length_drop.
  destruct (groups D r); lia.
Qed.

Lemma exponent_length_le s : exponent_length s <= List.length s.
Proof.
  unfold exponent_length. destruct s as [|e r]; [done|]. case_match; [|lia].
  set (sign := match r with c :: _ => _ | [] => _ end). pose proof (groups_le is_ascii_digit (drop sign r)) as Hg. rewrite length_drop in Hg.
  assert (sign <= List.length r) by (subst sign; destruct r; simpl; [lia|case_match; lia]).
  destruct (groups _ _); simpl; lia.
Qed.

Lemma float_length_le s : float_length s <= List.length s.
Proof.
  unfold float_length. pose proof (groups_le is_ascii_digit s) as Ha. destruct (groups is_ascii_digit s) as [|a]; [lia|].
  destruct (drop (S a) s) as [|dot r] eqn:Ed; [lia|]. assert (List.length s = S a + S (List.length r)) as Hl.
  { pose proof (f_equal List.length Ed) as E. rewrite length_drop in E. simpl in E. lia. }
  case_match; [|lia]. pose proof (groups_le is_ascii_digit r) as Hb. destruct (groups is_ascii_digit r) as [|b]; [lia|].
  set (t := drop (S b) r). pose proof (exponent_length_le t) as He. pose proof (suffix_length_le ["f32"; "f64"] (drop (exponent_length t) t)) as Hs.
  rewrite length_drop in Hs. assert (List.length t = List.length r - S b) by apply length_drop. lia.
Qed.

Lemma quoted_rest_le q n : forall s k, List.length s <= n -> quoted_rest q s = Some k -> 0 < k <= List.length s.
Proof.
  induction n as [|n IH]; intros [|c s] k Hn; cbn [quoted_rest List.length] in *; try done; [lia|].
  case_match; [intros [= <-]; lia|]. case_match.
  - destruct s as [|d s]; [done|]. case_match; [done|]. destruct (quoted_rest q s) eqn:E; [|done]. intros [= <-].
    apply IH in E; simpl in *; lia.
  - destruct (quoted_rest q s) eqn:E; [|done]. intros [= <-]. apply IH in E; simpl in *; lia.
Qed.

Lemma quoted_length_le p q s : quoted_length p q s <= List.length s.
Proof.
  unfold quoted_length. destruct (starts _ s) eqn:E; [|lia]. apply starts_le in E. rewrite length_app in E. simpl in E.
  destruct (quoted_rest q _) eqn:Eq; [|lia]. eapply quoted_rest_le in Eq; [|reflexivity]. rewrite length_drop in Eq. lia.
Qed.

Lemma comment_rest_le n : forall s k, List.length s <= n -> comment_rest s = Some k -> k <= List.length s.
Proof.
  induction n as [|n IH]; intros [|c s] k Hn; cbn [comment_rest List.length] in *; try done; [lia|]. case_match.
  - destruct s as [|d s]; [done|]. case_match; [intros [= <-]; simpl; lia|]. destruct (comment_rest s) eqn:E; [|done].
    intros [= <-]. apply IH in E; simpl in *; lia.
  - destruct (comment_rest s) eqn:E; [|done]. intros [= <-]. apply IH in E; simpl in *; lia.
Qed.

Lemma comment_length_le s : comment_length s <= List.length s.
Proof.
  unfold comment_length. destruct (starts _ s) eqn:E; [|lia]. apply starts_le in E. simpl in E.
  destruct (comment_rest _) eqn:Ec; [|lia]. eapply comment_rest_le in Ec; [|reflexivity]. rewrite length_drop in Ec. lia.
Qed.

Lemma line_comment_length_le s : line_comment_length s <= List.length s.
Proof.
  unfold line_comment_length. destruct (starts _ s) eqn:E; [|lia]. apply starts_le in E. simpl in E.
  pose proof (run_length_le (fun c => negb (Ascii.eqb c NEWLINE)) (drop 2 s)) as H. rewrite length_drop in H. lia.
Qed.

Lemma find_text_le p s n : find_text p s = Some n -> n + List.length p <= List.length s.
Proof.
  revert n. induction s as [|c s IH]; intros n; cbn [find_text].
  - destruct (starts p []) eqn:E; [|done]. intros [= <-]. by apply starts_le in E.
  - destruct (starts p (c :: s)) eqn:E; [intros [= <-]; by apply starts_le in E|].
    destruct (find_text p s) as [m|]; [|done]. intros [= <-]. specialize (IH m eq_refl). simpl. lia.
Qed.

(** ** The best match *)

Lemma better_irrefl a : better a a = false.
Proof. destruct a as [[n p] l]. simpl. by rewrite !Nat.ltb_irrefl, andb_false_r. Qed.

Lemma better_asym a b : better a b = true -> better b a = false.
Proof.
  destruct a as [[n p] l], b as [[m q] l']. simpl. rewrite orb_true_iff, andb_true_iff, Nat.eqb_eq, !Nat.ltb_lt.
  intros H. apply orb_false_iff. rewrite andb_false_iff, !Nat.ltb_ge, Nat.eqb_neq. lia.
Qed.

Lemma pick_in l b m : fold_left pick l b = Some m -> b = Some m \/ m ∈ l.
Proof.
  revert b. induction l as [|x l IH]; intros b; simpl; [by left|]. intros [Hp|?]%IH; [|right; by right].
  destruct b as [b|]; simpl in Hp; [destruct (better x b)|]; simplify_eq; try (right; by left). by left.
Qed.

Lemma pick_keeps l m : (forall x, x ∈ l -> x = m \/ better m x = true) -> fold_left pick l (Some m) = Some m.
Proof.
  induction l as [|x l IH]; simpl; intros H; [done|]. assert (better x m = false) as ->.
  { destruct (H x) as [->|E]; [by left|apply better_irrefl|by apply better_asym]. }
  apply IH. intros y Hy. apply H. by right.
Qed.

(** A match that is better than every other one is the best. *)
Lemma pick_best l b m :
  m ∈ l -> (forall x, x ∈ l \/ b = Some x -> x = m \/ better m x = true) -> fold_left pick l b = Some m.
Proof.
  intros (l1 & l2 & ->)%list_elem_of_split Hl. rewrite fold_left_app. cbn [fold_left].
  assert (pick (fold_left pick l1 b) m = Some m) as ->; [|apply pick_keeps; intros x Hx; apply Hl; set_solver].
  destruct (fold_left pick l1 b) as [y|] eqn:E; [|done]. simpl. apply pick_in in E.
  destruct (Hl y) as [->|E2]; [set_solver|by rewrite better_irrefl|by rewrite E2].
Qed.

Section matches.
Context (parse_f64 : list ascii -> option Z).
Notation token_matches := (token_matches parse_f64).
Notation best_match := (best_match parse_f64).
Notation next_token := (next_token parse_f64).

Lemma best_match_eq s : best_match s = fold_left pick (token_matches s) None.
Proof. reflexivity. Qed.

Lemma best_match_in s m : best_match s = Some m -> m ∈ token_matches s.
Proof. rewrite best_match_eq. intros H. apply pick_in in H. destruct H as [H|H]; [discriminate H|exact H]. Qed.

Lemma best_match_is s m :
  m ∈ token_matches s -> (forall x, x ∈ token_matches s -> x = m \/ better m x = true) -> best_match s = Some m.
Proof.
  intros Hm Hx. rewrite best_match_eq. apply pick_best; [exact Hm|].
  intros x [Hin|Hn]; [apply Hx, Hin|discriminate Hn].
Qed.

Lemma regex_match_Some n p l m : regex_match n p l = Some m -> m = (n, p, l) /\ 0 < n.
Proof. destruct n; [done|]. intros [= <-]. split; [done|lia]. Qed.

Lemma fixed_match_Some f s t m :
  fixed_match f s t = Some m -> m = (String.length t.1, f t.1, LToken t.2) /\ starts (list_ascii_of_string t.1) s = true.
Proof. unfold fixed_match. destruct (starts _ s); [|done]. by intros [= <-]. Qed.

(** Every match is one of a fixed token or of one of the patterns. *)
Inductive matched (s : list ascii) : nat -> nat -> lexeme -> Prop :=
| MWord t : t ∈ word_tokens -> starts (list_ascii_of_string t.1) s = true ->
    matched s (String.length t.1) (2 * String.length t.1) (LToken t.2)
| MSign t : t ∈ sign_tokens -> starts (list_ascii_of_string t.1) s = true ->
    matched s (String.length t.1) (2 * String.length t.1) (LToken t.2)
| MUnderscore : starts ["_"%char] s = true -> matched s 1 10 (LToken TkUnderscore)
| MLineComment : matched s (line_comment_length s) 2 LSkip
| MComment : matched s (comment_length s) 2 LSkip
| MBlank : matched s (run_length is_blank s) 2 LSkip
| MNewline : next_is NEWLINE s = true -> matched s 1 2 LSkip
| MIdent : matched s (first_then is_ident_start is_ident_continue s) 1 (LToken TkIdent)
| MBased c D : c ∈ ["b"; "o"; "x"]%char -> 
    matched s (int_length (String "0" (String c EmptyString)) D s) 3 (number_token (int_length (String "0" (String c EmptyString)) D s) s)
| MInt : matched s (int_length EmptyString is_ascii_digit s) 3 (number_token (int_length EmptyString is_ascii_digit s) s)
| MFloat l : matched s (float_length s) 3 l
| MInvalid l : matched s (first_then is_ascii_digit is_ident_continue s) 1 l
| MTriple : starts triple_quote s = true -> matched s 3 6 LMultiline
| MString : matched s (quoted_length [] QUOTE s) 2
    (LToken (TkString (Some (string_of_list_ascii (unescape_string (inner 1 (quoted_length [] QUOTE s) s))))))
| MPrefixed c l : c ∈ ["r"; "b"]%char -> matched s (quoted_length [c] QUOTE s) 2 l
| MChar l : matched s (quoted_length [] "'" s) 2 l
| MFString : starts ["f"%char; QUOTE] s = true -> matched s 2 4 LFString.

Lemma fixed_nonempty t : t ∈ word_tokens ++ sign_tokens -> 0 < String.length t.1.
Proof.
  assert (forallb (fun t => Nat.ltb 0 (String.length t.1)) (word_tokens ++ sign_tokens) = true) as H by (vm_compute; reflexivity).
  rewrite forallb_forall in H. intros Ht. apply Nat.ltb_lt, H, list_elem_of_In, Ht.
Qed.

Lemma token_matches_inv s n p l : (n, p, l) ∈ token_matches s -> 0 < n /\ matched s n p l.
Proof.
  unfold Scanner.token_matches. cbv zeta. rewrite elem_of_app, !list_elem_of_omap.
  intros [(t & Ht & Hm)|(o & Ho & Hm)].
  { apply fixed_match_Some in Hm as [[= -> -> ->] Hs]. split; [by apply fixed_nonempty|].
    apply elem_of_app in Ht as [?|?]; by constructor. }
  subst o. repeat (apply elem_of_cons in Ho as [Ho|Ho]); [..|by apply elem_of_nil in Ho]; symmetry in Ho.
  1: apply fixed_match_Some in Ho as [[= -> -> ->] Hs]; split; [simpl; lia|by constructor].
  all: apply regex_match_Some in Ho as [[= -> -> ->] Hn]; (split; [exact Hn|]).
  all: try (by econstructor).
  all: try (destruct (next_is NEWLINE s) eqn:E; [by constructor|lia]).
  all: try (destruct (starts _ s) eqn:E; [by constructor|lia]).
  4: change (matched s (if starts triple_quote s then 3 else 0) 6 LMultiline); change (0 < (if starts triple_quote s then 3 else 0)) in Hn;
     destruct (starts triple_quote s) eqn:E; [by apply MTriple|lia].
  6: change (matched s (if starts ["f"%char; QUOTE] s then 2 else 0) 4 LFString); change (0 < (if starts ["f"%char; QUOTE] s then 2 else 0)) in Hn;
     destruct (starts ["f"%char; QUOTE] s) eqn:E; [by apply MFString|lia].
  1: apply (MBased s "b"). 2: apply (MBased s "o"). 3: apply (MBased s "x"). 4: apply (MPrefixed s "r"). 5: apply (MPrefixed s "b").
  all: set_solver.
Qed.

Lemma matched_le s n p l : matched s n p l -> n <= List.length s.
Proof.
  destruct 1; try (match goal with H : starts _ s = true |- _ => apply starts_le in H; rewrite ?length_chars in H; simpl in H; lia end).
  - apply line_comment_length_le.
  - apply comment_length_le.
  - apply run_length_le.
  - destruct s; [done|simpl; lia].
  - apply first_then_le.
  - apply int_length_le.
  - apply int_length_le.
  - apply float_length_le.
  - apply first_then_le.
  - apply quoted_length_le.
  - apply quoted_length_le.
  - apply quoted_length_le.
Qed.

Lemma scan_fstring_le n : forall mode i t sp s f k, List.length s <= n ->
  scan_fstring_body mode i t sp s = Some (f, k) -> i < k <= i + List.length s.
Proof.
  induction n as [|n IH]; intros mode i t sp [|c s] f k Hn; cbn [List.length] in *; try (destruct mode; done); [lia|].
  assert (forall mode i' t sp s', List.length s' < S n -> scan_fstring_body mode i' t sp s' = Some (f, k) ->
    i < i' <= i + S (List.length s) - List.length s' -> i < k <= i + S (List.length s)) as H.
  { intros mode' i' t' sp' s' Hl Hs Hi. apply IH in Hs; lia. }
  destruct mode; cbn [scan_fstring_body]; repeat case_match; try done; intros Hs;
    first [by simplify_eq; lia|eapply H; [|exact Hs|]; simpl in *; lia].
Qed.

Lemma next_token_le s n k : next_token s = Some (n, k) -> 0 < n <= List.length s.
Proof.
  unfold Scanner.next_token. destruct (best_match s) as [[[m p] l]|] eqn:E; [|done].
  apply best_match_in, token_matches_inv in E as [Hm E]. apply matched_le in E.
  destruct l as [|k'| |]; [by intros [= <- _]..| |].
  - unfold lex_multiline_string. destruct (find_text _ _) as [e|] eqn:Ef; intros [= <- _]; [|lia].
    apply find_text_le in Ef. rewrite length_drop in Ef. change (List.length triple_quote) with 3 in Ef. lia.
  - unfold lex_fstring. destruct (scan_fstring_body _ _ _ _ _) as [[f c]|] eqn:Ef; intros [= <- _].
    + eapply scan_fstring_le in Ef; [|reflexivity]. rewrite length_drop in Ef. lia.
    + unfold line_end. destruct (find_text _ _) as [e|] eqn:El; simpl; [apply find_text_le in El|]; rewrite length_drop in *; lia.
Qed.

(** ** The whole text *)

Notation tokens_from := (tokens_from parse_f64).

Lemma tokens_from_eq fuel pos s :
  tokens_from (S fuel) pos s =
    match s with
    | [] => Some []
    | _ =>
        let* step := next_token s in
        let* rest := tokens_from fuel (pos + step.1) (drop step.1 s) in
        Some (match step.2 with Some k => token_with_span k pos (pos + step.1) :: rest | None => rest end)
    end.
Proof. destruct s as [|c s]; [done|]. cbn [Scanner.tokens_from]. by destruct (next_token (c :: s)) as [[]|]. Qed.

(** More fuel does not matter. *)
Lemma tokens_from_fuel fuel1 fuel2 pos s :
  List.length s <= fuel1 -> List.length s <= fuel2 -> tokens_from fuel1 pos s = tokens_from fuel2 pos s.
Proof.
  revert fuel2 pos s. induction fuel1 as [|fuel1 IH]; intros fuel2 pos s H1 H2; [destruct s, fuel2; simpl in *; done || lia|].
  destruct fuel2 as [|fuel2]; [destruct s; simpl in *; [done|lia]|]. rewrite !tokens_from_eq. destruct s as [|c s]; [done|].
  destruct (next_token (c :: s)) as [[n k]|] eqn:E; [|done]. cbn [mbind option_bind fst snd]. apply next_token_le in E.
  rewrite (IH fuel2); [done|rewrite length_drop; lia..].
Qed.

(** Tokens from [lo] on, up to [hi]. *)
Inductive in_order : Z -> Z -> list Token -> Prop :=
| in_order_nil lo hi : (lo <= hi)%Z -> in_order lo hi []
| in_order_cons lo hi t ts :
    (lo <= span_lo (tok_span t) < span_hi (tok_span t))%Z -> in_order (span_hi (tok_span t)) hi ts -> in_order lo hi (t :: ts).

Lemma in_order_weaken lo lo' hi ts : (lo' <= lo)%Z -> in_order lo hi ts -> in_order lo' hi ts.
Proof. intros Hl H. destruct H; constructor; try done; lia. Qed.

Lemma tokens_from_order fuel pos s ts :
  (Z.of_nat (pos + List.length s) < 2 ^ 32)%Z -> tokens_from fuel pos s = Some ts ->
  in_order (Z.of_nat pos) (Z.of_nat (pos + List.length s)) ts.
Proof.
  revert pos s ts. induction fuel as [|fuel IH]; intros pos s ts Hb H.
  { destruct s; [|done]. injection H as <-. constructor. lia. }
  rewrite tokens_from_eq in H. destruct s as [|c s]; [injection H as <-; constructor; lia|]. remember (c :: s) as s' eqn:Es. clear Es c s.
  destruct (next_token s') as [[n k]|] eqn:E; [|done]. cbn [mbind option_bind fst snd] in H. apply next_token_le in E.
  destruct (tokens_from fuel (pos + n) (drop n s')) as [rest|] eqn:Er; [|done]. injection H as <-.
  apply IH in Er; [|rewrite length_drop; lia]. rewrite length_drop in Er.
  replace (pos + n + (List.length s' - n)) with (pos + List.length s') in Er by lia.
  destruct k as [k|]; [|eapply in_order_weaken; [|exact Er]; lia].
  constructor; simpl; rewrite !wrap_u_id by (unfold in_u; lia); [lia|exact Er].
Qed.
End matches.

(** C9: Tokens do not overlap, are not empty, come in the order of the text and lie
    inside it. *)
Theorem tokens_in_order (parse_f64 : list ascii -> option Z) (source : string) (ts : list Token) :
  (Z.of_nat (String.length source) < 2 ^ 32)%Z -> tokenize parse_f64 source = Some ts ->
  in_order 0 (Z.of_nat (String.length source)) ts.
Proof.
  intros Hl H. apply tokens_from_order in H; rewrite length_chars in *; simpl in *; done.
Qed.

(** ** Matches by their first byte *)

(** A property of bytes is decided by trying them all. *)
Lemma all_bytes (P : ascii -> bool) : forallb P (map Ascii.ascii_of_nat (seq 0 256)) = true -> forall c, P c = true.
Proof.
  rewrite forallb_forall. intros H c. apply H, in_map_iff. exists (Ascii.nat_of_ascii c).
  split; [apply ascii_nat_embedding|]. apply in_seq. pose proof (nat_ascii_bounded c). lia.
Qed.

Ltac by_bytes := match goal with |- forall c : ascii, @?P c = true => apply (all_bytes P); vm_compute; reflexivity end.

Definition is_sign (c : ascii) : bool := existsb (fun t => next_is c (list_ascii_of_string t.1)) sign_tokens.

(** What a byte begins: a word, a number, a literal in quotes, blanks, a sign. *)
Inductive byte_class := CWord | CDigit | CQuote | CApostrophe | CBlank | CNewline | CSign | COther.
#[export] Instance byte_class_eq_dec : EqDecision byte_class.
Proof. solve_decision. Defined.

Definition class_of_byte (c : ascii) : byte_class :=
  if is_ident_start c then CWord else if is_ascii_digit c then CDigit else if Ascii.eqb c QUOTE then CQuote
  else if Ascii.eqb c "'" then CApostrophe else if is_blank c then CBlank else if Ascii.eqb c NEWLINE then CNewline
  else if is_sign c then CSign else COther.

Lemma class_word c : is_ident_start c = true -> class_of_byte c = CWord.
Proof. unfold class_of_byte. by intros ->. Qed.
Lemma class_digit c : is_ascii_digit c = true -> class_of_byte c = CDigit.
Proof.
  assert (forall c, implb (is_ascii_digit c) (bool_decide (class_of_byte c = CDigit)) = true) as H by by_bytes.
  intros E. specialize (H c). rewrite E in H. by apply bool_decide_eq_true in H.
Qed.
Lemma class_blank c : is_blank c = true -> class_of_byte c = CBlank.
Proof.
  assert (forall c, implb (is_blank c) (bool_decide (class_of_byte c = CBlank)) = true) as H by by_bytes.
  intros E. specialize (H c). rewrite E in H. by apply bool_decide_eq_true in H.
Qed.
Lemma class_sign c : is_sign c = true -> class_of_byte c = CSign.
Proof.
  assert (forall c, implb (is_sign c) (bool_decide (class_of_byte c = CSign)) = true) as H by by_bytes.
  intros E. specialize (H c). rewrite E in H. by apply bool_decide_eq_true in H.
Qed.

(** The matches at a text that begins with [c]. *)
Inductive headed (c : ascii) (s : list ascii) : nat -> nat -> lexeme -> Prop :=
| HWord t : class_of_byte c = CWord -> t ∈ word_tokens -> starts (list_ascii_of_string t.1) (c :: s) = true ->
    headed c s (String.length t.1) (2 * String.length t.1) (LToken t.2)
| HSign t : class_of_byte c = CSign -> t ∈ sign_tokens -> starts (list_ascii_of_string t.1) (c :: s) = true ->
    headed c s (String.length t.1) (2 * String.length t.1) (LToken t.2)
| HUnderscore : c = "_"%char -> headed c s 1 10 (LToken TkUnderscore)
| HComment n : c = "/"%char -> next_is "/" s = true \/ next_is "*" s = true -> headed c s n 2 LSkip
| HBlank : class_of_byte c = CBlank -> headed c s (S (run_length is_blank s)) 2 LSkip
| HNewline : c = NEWLINE -> headed c s 1 2 LSkip
| HIdent : class_of_byte c = CWord -> headed c s (S (run_length is_ident_continue s)) 1 (LToken TkIdent)
| HBased n l d : c = "0"%char -> d ∈ ["b"; "o"; "x"]%char -> next_is d s = true -> headed c s n 3 l
| HInt : class_of_byte c = CDigit ->
    headed c s (int_length EmptyString is_ascii_digit (c :: s)) 3 (number_token (int_length EmptyString is_ascii_digit (c :: s)) (c :: s))
| HFloat l : class_of_byte c = CDigit -> headed c s (float_length (c :: s)) 3 l
| HInvalid l : class_of_byte c = CDigit -> headed c s (S (run_length is_ident_continue s)) 1 l
| HTriple : c = QUOTE -> starts triple_quote (c :: s) = true -> headed c s 3 6 LMultiline
| HString : c = QUOTE -> headed c s (quoted_length [] QUOTE (c :: s)) 2
    (LToken (TkString (Some (string_of_list_ascii (unescape_string (inner 1 (quoted_length [] QUOTE (c :: s)) (c :: s)))))))
| HPrefixed n p l : class_of_byte c = CWord -> next_is QUOTE s = true -> headed c s n p l
| HChar n l : c = "'"%char -> headed c s n 2 l.

Lemma starts_first a p c s : starts (a :: p) (c :: s) = true -> a = c /\ starts p s = true.
Proof. simpl. by intros [->%Ascii.eqb_eq ?]%andb_true_iff. Qed.

Lemma starts_next a b p c s : starts (a :: b :: p) (c :: s) = true -> a = c /\ next_is b s = true.
Proof.
  intros [-> H]%starts_first. split; [done|]. destruct s as [|d s]; [done|]. apply starts_first in H as [-> _]. simpl. by apply Ascii.eqb_eq.
Qed.

Lemma starts_head t c s : starts (list_ascii_of_string t) (c :: s) = true -> t <> EmptyString -> next_is c (list_ascii_of_string t) = true.
Proof. destruct t as [|a t]; [done|]. intros [-> _]%starts_first _. simpl. by apply Ascii.eqb_eq. Qed.

Lemma word_tokens_words t : t ∈ word_tokens -> forallb is_ident_continue (list_ascii_of_string t.1) = true /\
  match list_ascii_of_string t.1 with c :: _ => is_ident_start c = true | [] => False end.
Proof.
  assert (forallb (fun t : string * TokenKind => forallb is_ident_continue (list_ascii_of_string t.1) &&
    match list_ascii_of_string t.1 with c :: _ => is_ident_start c | [] => false end) word_tokens = true) as H by (vm_compute; reflexivity).
  rewrite forallb_forall in H. intros Ht. apply list_elem_of_In, H, andb_true_iff in Ht as [H1 H2]. split; [done|]. by destruct (list_ascii_of_string _).
Qed.

Lemma sign_head t c s : t ∈ sign_tokens -> starts (list_ascii_of_string t.1) (c :: s) = true -> is_sign c = true.
Proof.
  intros Ht Hs. unfold is_sign. apply existsb_exists. exists t. split; [by apply list_elem_of_In|]. apply starts_head in Hs; [done|].
  intros E. assert (0 < String.length t.1) as H by (apply fixed_nonempty, elem_of_app; by right). rewrite E in H. simpl in H. lia.
Qed.

Lemma matched_headed c s n p l : 0 < n -> matched (c :: s) n p l -> headed c s n p l.
Proof.
  intros Hn H. destruct H.
  - apply HWord; [|done..]. apply class_word. destruct (word_tokens_words t H) as [_ Hw]. destruct (list_ascii_of_string t.1); [done|].
    by apply starts_first in H0 as [-> _].
  - apply HSign; [|done..]. by eapply class_sign, sign_head.
  - apply starts_first in H as [<- _]. by apply HUnderscore.
  - unfold line_comment_length in *. destruct (starts (list_ascii_of_string "//") (c :: s)) eqn:E; [|lia].
    apply starts_next in E as [<- E]. apply HComment; [done|by left].
  - unfold comment_length in *. destruct (starts (list_ascii_of_string "/*") (c :: s)) eqn:E; [|lia].
    apply starts_next in E as [<- E]. apply HComment; [done|by right].
  - cbn [run_length] in *. destruct (is_blank c) eqn:E; [|lia]. by apply HBlank, class_blank.
  - simpl in H. apply Ascii.eqb_eq in H as ->. by apply HNewline.
  - cbn [first_then] in *. destruct (is_ident_start c) eqn:E; [|lia]. by apply HIdent, class_word.
  - unfold int_length in Hn. destruct (starts _ (c :: s)) eqn:E; [|lia]. apply starts_next in E as [<- E]. by eapply HBased.
  - apply HInt. unfold int_length, groups in Hn. simpl in Hn. destruct (is_ascii_digit c) eqn:E; [by apply class_digit|lia].
  - apply HFloat. unfold float_length, groups in Hn. destruct (is_ascii_digit c) eqn:E; [by apply class_digit|lia].
  - cbn [first_then] in *. destruct (is_ascii_digit c) eqn:E; [|lia]. by apply HInvalid, class_digit.
  - pose proof H as E. apply starts_first in E as [<- _]. by apply HTriple.
  - apply HString. unfold quoted_length in Hn. destruct (starts ([] ++ [QUOTE]) (c :: s)) eqn:E; [|lia]. by apply starts_first in E as [<- _].
  - unfold quoted_length in Hn. destruct (starts ([c0] ++ [QUOTE]) (c :: s)) eqn:E; [|lia]. apply starts_next in E as [<- E].
    apply HPrefixed; [|done]. apply class_word. repeat (apply elem_of_cons in H as [->|H]; [reflexivity|]). by apply elem_of_nil in H.
  - apply HChar. unfold quoted_length in Hn. destruct (starts ([] ++ ["'"%char]) (c :: s)) eqn:E; [|lia]. by apply starts_first in E as [<- _].
  - apply starts_next in H as [<- E]. by apply HPrefixed.
Qed.

(** ** Words *)

Definition word_kind (w : string) : TokenKind :=
  match List.find (fun t => String.eqb t.1 w) word_tokens with
  | Some t => t.2
  | None => if String.eqb w "_" then TkUnderscore else TkIdent
  end.

(** A word ends before this text. *)
Definition word_stops (rest : list ascii) : bool :=
  match rest with d :: _ => negb (is_ident_continue d) && negb (Ascii.eqb d QUOTE) | [] => true end.

Lemma run_length_app P w rest :
  forallb P w = true -> match rest with d :: _ => P d = false | [] => True end -> run_length P (w ++ rest) = List.length w.
Proof.
  induction w as [|c w IH]; simpl; [destruct rest; simpl; [done|by intros _ ->]|]. intros [-> Hw]%andb_true_iff Hr. by rewrite IH.
Qed.

Lemma starts_app_le p w rest Q :
  forallb Q p = true -> match rest with d :: _ => Q d = false | [] => True end -> starts p (w ++ rest) = true ->
  exists v, w = p ++ v.
Proof.
  intros Hp Hr. revert w. induction p as [|a p IH]; intros w H; [by exists w|]. cbn in Hp. apply andb_true_iff in Hp as [Ha Hp].
  destruct w as [|b w]; simpl in H.
  - destruct rest as [|d rest]; [done|]. apply andb_true_iff in H as [->%Ascii.eqb_eq _]. congruence.
  - apply andb_true_iff in H as [->%Ascii.eqb_eq H]. destruct (IH Hp w H) as [v ->]. by exists v.
Qed.

Lemma string_of_chars w : string_of_list_ascii (list_ascii_of_string w) = w.
Proof. apply string_of_list_ascii_of_string. Qed.
Lemma chars_of_string w : list_ascii_of_string (string_of_list_ascii w) = w.
Proof. apply list_ascii_of_string_of_list_ascii. Qed.

Lemma fst_unique {A B} (l : list (A * B)) t t' : NoDup (map fst l) -> t ∈ l -> t' ∈ l -> t.1 = t'.1 -> t = t'.
Proof.
  intros Hnd [i Hi]%list_elem_of_lookup [j Hj]%list_elem_of_lookup E.
  assert (i = j) as ->; [|congruence]. eapply NoDup_lookup; [exact Hnd| |].
  - change (map fst l) with (fst <$> l). rewrite list_lookup_fmap, Hi. done.
  - change (map fst l) with (fst <$> l). rewrite list_lookup_fmap, Hj. simpl. by rewrite E.
Qed.
Lemma word_tokens_unique t t' : t ∈ word_tokens -> t' ∈ word_tokens -> t.1 = t'.1 -> t = t'.
Proof. apply fst_unique. apply (bool_decide_eq_true_1 (NoDup (map fst word_tokens))). vm_compute. reflexivity. Qed.
Lemma sign_tokens_unique t t' : t ∈ sign_tokens -> t' ∈ sign_tokens -> t.1 = t'.1 -> t = t'.
Proof. apply fst_unique. apply (bool_decide_eq_true_1 (NoDup (map fst sign_tokens))). vm_compute. reflexivity. Qed.

(** Heads of another class are excluded. *)
Ltac other_head :=
  exfalso; subst;
  match goal with
  | H : class_of_byte ?c = _, H' : class_of_byte ?c = _ |- _ => rewrite H in H'; discriminate H'
  | H : class_of_byte _ = _ |- _ => vm_compute in H; discriminate H
  | H : Ascii _ _ _ _ _ _ _ _ = _ |- _ => vm_compute in H; discriminate H
  | H : QUOTE = _ |- _ => vm_compute in H; discriminate H
  end.

Section next.
Context (parse_f64 : list ascii -> option Z).
Notation token_matches := (token_matches parse_f64).
Notation next_token := (next_token parse_f64).

(** The match to take, and what the others are. *)
Lemma next_is_best c s n p l :
  (n, p, l) ∈ token_matches (c :: s) ->
  (forall m q l', headed c s m q l' -> m < n \/ m = n /\ q < p \/ (m, q, l') = (n, p, l)) ->
  best_match parse_f64 (c :: s) = Some (n, p, l).
Proof.
  intros Hin H. apply best_match_is; [done|]. intros [[m q] l'] Hm. apply token_matches_inv in Hm as [Hm0 Hm].
  apply matched_headed in Hm; [|done]. destruct (H _ _ _ Hm) as [Hl|[[-> Hq]|E] ]; [right..|by left]; simpl.
  - by rewrite (proj2 (Nat.ltb_lt m n) Hl).
  - rewrite Nat.eqb_refl, (proj2 (Nat.ltb_lt q p) Hq). by rewrite orb_true_r.
Qed.

Lemma fixed_in t s : t ∈ word_tokens ++ sign_tokens -> starts (list_ascii_of_string t.1) s = true ->
  (String.length t.1, 2 * String.length t.1, LToken t.2) ∈ token_matches s.
Proof.
  intros Ht Hs. unfold Scanner.token_matches. cbv zeta. apply elem_of_app. left. apply list_elem_of_omap. exists t. split; [done|].
  unfold fixed_match. by rewrite Hs.
Qed.

Lemma other_in s o m : o ∈ [fixed_match (fun _ => 10) s ("_", TkUnderscore);
     regex_match (run_length is_blank s) 2 LSkip;
     regex_match (first_then is_ident_start is_ident_continue s) 1 (LToken TkIdent);
     regex_match (int_length EmptyString is_ascii_digit s) 3 (number_token (int_length EmptyString is_ascii_digit s) s);
     regex_match (quoted_length [] QUOTE s) 2
       (LToken (TkString (Some (string_of_list_ascii (unescape_string (inner 1 (quoted_length [] QUOTE s) s))))))] ->
  o = Some m -> m ∈ token_matches s.
Proof.
  intros Ho ->. unfold Scanner.token_matches. cbv zeta. apply elem_of_app. right. apply list_elem_of_omap. exists (Some m). split; [|done].
  repeat (apply elem_of_cons in Ho as [Ho|Ho]; [rewrite Ho; set_solver|]). by apply elem_of_nil in Ho.
Qed.

Lemma next_word c w rest :
  is_ident_start c = true -> forallb is_ident_continue w = true -> word_stops rest = true ->
  next_token (c :: w ++ rest) = Some (S (List.length w), Some (word_kind (string_of_list_ascii (c :: w)))).
Proof.
  intros Hc Hw Hr. pose proof (class_word c Hc) as Hcl.
  assert (match rest with d :: _ => is_ident_continue d = false | [] => True end) as Hstop.
  { destruct rest; [done|]. simpl in Hr. apply andb_true_iff in Hr as [Hr _]. by apply negb_true_iff in Hr. }
  assert (Hc' : is_ident_continue c = true).
  { assert (forall c, implb (is_ident_start c) (is_ident_continue c) = true) as H by by_bytes. specialize (H c). by rewrite Hc in H. }
  assert (Hrun : run_length is_ident_continue (w ++ rest) = List.length w) by by apply run_length_app.
  assert (Hq : next_is QUOTE (w ++ rest) = false).
  { destruct w as [|d w]; simpl.
    - destruct rest as [|d rest]; [done|]. simpl in Hr. apply andb_true_iff in Hr as [_ Hr]. by apply negb_true_iff in Hr.
    - apply andb_true_iff in Hw as [Hd _]. destruct (Ascii.eqb_spec d QUOTE) as [->|]; [by vm_compute in Hd|done]. }
  assert (Hword : forall t, t ∈ word_tokens -> starts (list_ascii_of_string t.1) (c :: w ++ rest) = true ->
    exists v, c :: w = list_ascii_of_string t.1 ++ v).
  { intros t Ht Hs. apply (starts_app_le _ (c :: w) rest is_ident_continue); [by apply word_tokens_words|done|exact Hs]. }
  assert (Hlen : forall v (x : string), c :: w = list_ascii_of_string x ++ v -> String.length x + List.length v = S (List.length w)).
  { intros v x E. apply (f_equal List.length) in E. rewrite length_app, length_chars in E. simpl in E. lia. }
  unfold Scanner.next_token, word_kind. destruct (List.find _ word_tokens) as [t|] eqn:Ef.
  - apply find_some in Ef as [Ht%list_elem_of_In E%String.eqb_eq].
    assert (Et : list_ascii_of_string t.1 = c :: w) by (by rewrite E, chars_of_string).
    assert (Hl : String.length t.1 = S (List.length w)) by (by rewrite <- length_chars, Et).
    rewrite (next_is_best c (w ++ rest) (String.length t.1) (2 * String.length t.1) (LToken t.2)); [by rewrite Hl| |].
    { apply fixed_in; [apply elem_of_app; by left|]. rewrite Et. apply starts_spec. by exists rest. }
    intros m q l' H. destruct H; try other_head.
    + destruct (Hword t0 H0 H1) as [v Hv]. pose proof (Hlen v _ Hv). destruct v as [|d v]; [|simpl in *; lia].
      rewrite app_nil_r in Hv. right. right. assert (t0 = t) as ->; [|done]. apply word_tokens_unique; [done..|].
      by rewrite <- (string_of_chars t0.1), <- Hv, <- Et, string_of_chars.
    + destruct w as [|d w]; [|simpl in *; lia]. subst c. exfalso. assert (forallb (fun t => negb (String.eqb t.1 "_")) word_tokens = true) as Hno by reflexivity.
      rewrite forallb_forall in Hno. apply list_elem_of_In, Hno in Ht. by rewrite E in Ht.
    + rewrite Hrun. right. left. lia.
    + congruence.
  - assert (Hno : forall t, t ∈ word_tokens -> t.1 <> string_of_list_ascii (c :: w)).
    { intros t Ht E. apply list_elem_of_In in Ht. apply (find_none _ _ Ef) in Ht. simpl in Ht. by apply String.eqb_neq in Ht. }
    assert (Hshort : forall t, t ∈ word_tokens -> starts (list_ascii_of_string t.1) (c :: w ++ rest) = true -> String.length t.1 < S (List.length w)).
    { intros t Ht Hs. destruct (Hword t Ht Hs) as [v Hv]. pose proof (Hlen v _ Hv). destruct v as [|d v]; [|simpl in *; lia].
      rewrite app_nil_r in Hv. exfalso. apply (Hno t Ht). by rewrite Hv, string_of_chars. }
    destruct (String.eqb_spec (string_of_list_ascii (c :: w)) "_") as [E|E].
    + simpl in E. injection E as -> E. destruct w as [|? ?]; [|done]. cbn [app List.length] in *.
      rewrite (next_is_best "_" rest 1 10 (LToken TkUnderscore)); [done| |].
      { eapply other_in; [by left|]. done. }
      intros m q l' H. destruct H; try other_head; [|by right; right| |congruence].
      * apply Hshort in H1; [|done]. by left.
      * rewrite Hrun. right. left. lia.
    + rewrite (next_is_best c (w ++ rest) (S (List.length w)) 1 (LToken TkIdent)); [done| |].
      { eapply other_in; [do 2 right; left; reflexivity|]. cbn [first_then]. by rewrite Hc, Hrun. }
      intros m q l' H. destruct H; try other_head; [|destruct w; [|simpl; lia]| |congruence].
      * apply Hshort in H1; [|done]. by left.
      * subst c. by destruct E.
      * rewrite Hrun. by right; right.
Qed.
(** ** Blanks and signs *)

Lemma next_blank rest :
  match rest with d :: _ => is_blank d = false | [] => True end -> next_token (" "%char :: rest) = Some (1, None).
Proof.
  intros Hr. assert (Hrun : run_length is_blank rest = 0) by (destruct rest; simpl; [done|by rewrite Hr]).
  unfold Scanner.next_token. rewrite (next_is_best " " rest 1 2 LSkip); [done| |].
  - eapply other_in; [by right; left|]. change (run_length is_blank (" "%char :: rest)) with (S (run_length is_blank rest)). by rewrite Hrun.
  - intros m q l H. destruct H; try other_head. rewrite Hrun. by right; right.
Qed.

Definition COMMENT_SIGNS : list string := ["//"; "/*"].

(** Some longer sign, or the start of a comment, begins with [t] and [d]. *)
Definition extended (t : string) (d : ascii) : bool :=
  existsb (fun u => starts (list_ascii_of_string t ++ [d]) (list_ascii_of_string u)) (map fst sign_tokens ++ COMMENT_SIGNS).
Definition sign_stops (t : string) (rest : list ascii) : bool := match rest with d :: _ => negb (extended t d) | [] => true end.

Lemma starts_longer u t rest :
  starts u (t ++ rest) = true -> List.length t < List.length u ->
  exists d r, rest = d :: r /\ starts (t ++ [d]) u = true.
Proof.
  revert u. induction t as [|a t IH]; intros [|b u] H Hl; simpl in Hl; try lia.
  - destruct rest as [|d r]; [done|]. apply starts_first in H as [-> _]. exists d, r. split; [done|]. simpl. by rewrite Ascii.eqb_refl.
  - apply starts_first in H as [-> H]. destruct (IH u H) as (d & r & -> & Hs); [lia|]. exists d, r. split; [done|]. simpl. by rewrite Ascii.eqb_refl.
Qed.

Lemma starts_same_length u t rest : starts u (t ++ rest) = true -> List.length u = List.length t -> u = t.
Proof.
  revert u. induction t as [|a t IH]; intros [|b u] H Hl; simpl in Hl; try lia; [done|].
  apply starts_first in H as [-> H]. f_equal. apply IH; [done|lia].
Qed.

Lemma not_extended t rest u : sign_stops t rest = true -> u ∈ map fst sign_tokens ++ COMMENT_SIGNS ->
  starts (list_ascii_of_string u) (list_ascii_of_string t ++ rest) = true -> String.length u <= String.length t.
Proof.
  intros Hs Hu Hp. destruct (Nat.leb_spec (String.length u) (String.length t)) as [|Hl]; [done|]. exfalso.
  apply starts_longer in Hp as (d & r & -> & Hd); [|by rewrite !length_chars]. simpl in Hs. apply negb_true_iff in Hs.
  enough (extended t d = true) by congruence. apply existsb_exists. exists u. split; [by apply list_elem_of_In|done].
Qed.

Lemma next_sign t rest : t ∈ sign_tokens -> sign_stops t.1 rest = true ->
  next_token (list_ascii_of_string t.1 ++ rest) = Some (String.length t.1, Some t.2).
Proof.
  intros Ht Hs. pose proof (fixed_nonempty t) as Hn. rewrite elem_of_app in Hn. specialize (Hn (or_intror Ht)).
  assert (Hst : starts (list_ascii_of_string t.1) (list_ascii_of_string t.1 ++ rest) = true) by (apply starts_spec; by exists rest).
  assert (Hl : forall u, u ∈ map fst sign_tokens ++ COMMENT_SIGNS ->
    starts (list_ascii_of_string u) (list_ascii_of_string t.1 ++ rest) = true -> String.length u <= String.length t.1)
    by (intros u; by apply not_extended).
  remember (list_ascii_of_string t.1 ++ rest) as s eqn:Es. destruct s as [|c s].
  { apply (f_equal List.length) in Es. rewrite length_app, length_chars in Es. simpl in Es. lia. }
  pose proof (class_sign c (sign_head t c s Ht Hst)) as Hc.
  unfold Scanner.next_token. rewrite (next_is_best c s (String.length t.1) (2 * String.length t.1) (LToken t.2)); [done| |].
  { apply fixed_in; [apply elem_of_app; by right|done]. }
  intros m q l H. destruct H as [|t' _ Ht' Hs'| | | | | | | | | | | | |]; try other_head.
  - assert (t'.1 ∈ map fst sign_tokens ++ COMMENT_SIGNS) as Hin.
    { apply elem_of_app. left. apply list_elem_of_In, in_map_iff. exists t'. split; [done|by apply list_elem_of_In]. }
    pose proof (Hl _ Hin Hs') as Hle. apply Nat.lt_eq_cases in Hle as [|He]; [by left|]. right; right.
    rewrite Es in Hs'. apply starts_same_length in Hs'; [|by rewrite !length_chars].
    assert (t' = t) as ->; [|done]. apply sign_tokens_unique; [done..|]. by rewrite <- (string_of_chars t'.1), Hs', string_of_chars.
  - exfalso. subst c. assert (2 <= String.length t.1) as H2.
    { destruct s as [|d s]; [by destruct H0|]. destruct H0 as [H0|H0]; simpl in H0; apply Ascii.eqb_eq in H0 as ->.
      - apply (Hl "//"); [|reflexivity]. apply elem_of_app. right. by left.
      - apply (Hl "/*"); [|reflexivity]. apply elem_of_app. right. right. by left. }
    clear Hl Hs Hst Hn. assert (forallb (fun t : string * TokenKind => match list_ascii_of_string t.1 with
      | a :: b :: _ => negb (Ascii.eqb a "/") || negb (is_char "/" [b] || is_char "*" [b]) | _ => true end) sign_tokens = true) as Hno by reflexivity.
    rewrite forallb_forall in Hno. apply list_elem_of_In in Ht. apply Hno in Ht.
    destruct (list_ascii_of_string t.1) as [|a [|b w]] eqn:Et; [apply (f_equal List.length) in Et; rewrite length_chars in Et; simpl in Et; lia..|].
    simpl in Es. injection Es as <- ->. simpl in H0. destruct H0 as [H0|H0]; apply Ascii.eqb_eq in H0 as ->; by vm_compute in Ht.
Qed.
End next.

(** ** Decimal numbers *)

Definition value_from (acc : Z) (ds : list ascii) : Z := fold_left (fun acc c => (acc * 10 + (byte_of c - 48))%Z) ds acc.
Definition decimal_value (ds : list ascii) : Z := value_from 0 ds.

Lemma digit_byte c : is_ascii_digit c = true -> digit_of c = Some (byte_of c - 48)%Z /\ (0 <= byte_of c - 48 < 10)%Z.
Proof.
  assert (forall c, implb (is_ascii_digit c) (bool_decide (digit_of c = Some (byte_of c - 48)%Z) &&
    ((0 <=? byte_of c - 48) && (byte_of c - 48 <? 10))%Z) = true) as H by by_bytes.
  intros E. specialize (H c). rewrite E in H. simpl in H. rewrite !andb_true_iff, bool_decide_eq_true, Z.leb_le, Z.ltb_lt in H. tauto.
Qed.

Lemma value_from_ge ds acc : forallb is_ascii_digit ds = true -> (0 <= acc)%Z -> (acc <= value_from acc ds)%Z.
Proof.
  revert acc. induction ds as [|c ds IH]; intros acc; simpl; [lia|]. intros [Hc Hd]%andb_true_iff Ha.
  destruct (digit_byte c Hc) as [_ Hb]. etransitivity; [|apply IH]; [|done|]; lia.
Qed.

Lemma radix_decimal ds acc :
  forallb is_ascii_digit ds = true -> (0 <= acc)%Z -> (value_from acc ds < 2 ^ 64)%Z ->
  radix_digits 10 64 acc ds = Some (value_from acc ds).
Proof.
  revert acc. induction ds as [|c ds IH]; intros acc; [done|]. cbn [forallb radix_digits]. intros [Hc Hd]%andb_true_iff Ha Hv.
  destruct (digit_byte c Hc) as [-> Hb]. rewrite (proj2 (Z.ltb_lt _ _)) by lia. cbv zeta.
  assert (acc * 10 + (byte_of c - 48) <= value_from acc (c :: ds))%Z by (simpl; apply value_from_ge; [done|lia]).
  rewrite (proj2 (Z.ltb_lt _ _)) by lia. apply IH; [done|lia|done].
Qed.

Lemma starts_all P p s : forallb P s = true -> starts p s = true -> forallb P p = true.
Proof. intros Hs [r ->]%starts_spec. rewrite forallb_app in Hs. by apply andb_true_iff in Hs as [? _]. Qed.

Lemma forallb_rev {A} (P : A -> bool) l : forallb P (rev l) = forallb P l.
Proof. induction l as [|x l IH]; simpl; [done|]. rewrite forallb_app, IH. simpl. rewrite andb_true_r. apply andb_comm. Qed.

Lemma digits_continue ds : forallb is_ascii_digit ds = true -> forallb is_ident_continue ds = true.
Proof.
  assert (forall c, implb (is_ascii_digit c) (is_ident_continue c) = true) as H by by_bytes.
  rewrite !forallb_forall. intros Hd c Hc. specialize (H c). by rewrite (Hd c Hc) in H.
Qed.

Lemma decimal_not_other p ds : forallb is_ascii_digit ds = true -> forallb is_ascii_digit p = false ->
  starts p ds = false /\ strip_suffix ds p = None.
Proof.
  intros Hd Hp. split.
  - destruct (starts p ds) eqn:E; [|done]. eapply starts_all in E; [|done]. congruence.
  - unfold strip_suffix. destruct (starts (rev p) (rev ds)) eqn:E; [|done].
    eapply (starts_all is_ascii_digit) in E; [|by rewrite forallb_rev]. rewrite forallb_rev in E. congruence.
Qed.

Lemma without_underscores_digits ds : forallb is_ascii_digit ds = true -> without_underscores ds = ds.
Proof.
  assert (forall c, implb (is_ascii_digit c) (negb (Ascii.eqb c "_")) = true) as H by by_bytes.
  unfold without_underscores. induction ds as [|c ds IH]; [done|]. cbn [forallb List.filter]. intros [Hc Hd]%andb_true_iff.
  specialize (H c). rewrite Hc in H. simpl in H. rewrite H. by rewrite IH.
Qed.

Lemma int_literal_decimal ds : ds <> [] -> forallb is_ascii_digit ds = true -> (decimal_value ds < 2 ^ 64)%Z ->
  parse_int_literal ds = Some (decimal_value ds).
Proof.
  intros Hn Hd Hv. unfold parse_int_literal.
  assert (omap (fun suffix => strip_suffix ds (list_ascii_of_string suffix)) SUFFIXES = []) as ->.
  { assert (forall suffix, suffix ∈ SUFFIXES -> strip_suffix ds (list_ascii_of_string suffix) = None) as H.
    { intros suffix Hs. apply decimal_not_other; [done|]. assert (forallb (fun x => negb (forallb is_ascii_digit (list_ascii_of_string x))) SUFFIXES = true) as Hf by reflexivity.
      rewrite forallb_forall in Hf. by apply negb_true_iff, Hf, list_elem_of_In. }
    revert H. generalize SUFFIXES as l. induction l as [|x l IH]; intros H; [done|]. cbn [omap list_omap]. rewrite (H x) by set_solver. apply IH. set_solver. }
  cbn [head default]. cbv zeta. change (default ds (head [])) with ds. rewrite without_underscores_digits by done.
  unfold strip_prefix. rewrite (proj1 (decimal_not_other (list_ascii_of_string "0b") ds Hd eq_refl)),
    (proj1 (decimal_not_other (list_ascii_of_string "0o") ds Hd eq_refl)), (proj1 (decimal_not_other (list_ascii_of_string "0x") ds Hd eq_refl)).
  destruct ds as [|c [|d ds]]; [done| |]; unfold from_str_radix.
  - by apply radix_decimal.
  - destruct (Ascii.eqb_spec c "+") as [->|]; [done|]. by apply radix_decimal.
Qed.

(** A number ends before this text. *)
Definition number_stops (rest : list ascii) : bool :=
  match rest with
  | [] => true
  | c :: r => negb (is_ident_continue c) && (negb (Ascii.eqb c ".") || match r with d :: _ => negb (is_ascii_digit d) | [] => true end)
  end.

Lemma groups_from_digits ds rest : forallb is_ascii_digit ds = true ->
  match rest with d :: _ => is_ident_continue d = false | [] => True end -> groups_from is_ascii_digit (ds ++ rest) = List.length ds.
Proof.
  intros Hd Hr. induction ds as [|c ds IH]; cbn [app List.length].
  - destruct rest as [|d r]; [done|]. cbn [groups_from]. unfold is_ident_continue, is_ascii_alphanumeric in Hr.
    rewrite !orb_false_iff in Hr. destruct Hr as [[_ Hr] Hr2]. by rewrite Hr, Hr2.
  - cbn [forallb] in Hd. apply andb_true_iff in Hd as [Hc Hd]. cbn [groups_from]. by rewrite Hc, IH.
Qed.

Lemma suffix_stops l rest : match rest with d :: _ => is_ident_continue d = false | [] => True end ->
  forallb (fun s => match list_ascii_of_string s with c :: _ => is_ident_continue c | [] => false end) l = true ->
  suffix_length l rest = 0.
Proof.
  intros Hr. unfold suffix_length. induction l as [|s l IH]; [done|]. simpl. intros [Hs Hl]%andb_true_iff.
  destruct (list_ascii_of_string s) as [|c w] eqn:E; [done|]. destruct rest as [|d rest]; simpl; [by apply IH|].
  destruct (Ascii.eqb_spec c d) as [->|]; [congruence|]. by apply IH.
Qed.

Section literals.
Context (parse_f64 : list ascii -> option Z).
Notation next_token := (next_token parse_f64).

Lemma next_int ds rest :
  ds <> [] -> forallb is_ascii_digit ds = true -> (decimal_value ds < 2 ^ 64)%Z -> number_stops rest = true ->
  next_token (ds ++ rest) = Some (List.length ds, Some (TkInt (Some (decimal_value ds)))).
Proof.
  intros Hn Hd Hv Hr. destruct ds as [|c ds]; [done|]. pose proof Hd as Hd'. cbn [forallb] in Hd'. apply andb_true_iff in Hd' as [Hc Hds].
  assert (Hstop : match rest with d :: _ => is_ident_continue d = false | [] => True end).
  { destruct rest; [done|]. simpl in Hr. by apply andb_true_iff in Hr as [Hr%negb_true_iff _]. }
  assert (Hg : groups is_ascii_digit ((c :: ds) ++ rest) = S (List.length ds)).
  { change (groups is_ascii_digit ((c :: ds) ++ rest)) with
      (if is_ascii_digit c then groups_from is_ascii_digit ((c :: ds) ++ rest) else 0). by rewrite Hc, groups_from_digits. }
  assert (Hdrop : drop (S (List.length ds)) ((c :: ds) ++ rest) = rest) by (by rewrite drop_app_length').
  assert (Hi : int_length EmptyString is_ascii_digit ((c :: ds) ++ rest) = S (List.length ds)).
  { unfold int_length. change (starts (list_ascii_of_string EmptyString) ((c :: ds) ++ rest)) with true. cbv iota zeta.
    change (drop (String.length EmptyString) ((c :: ds) ++ rest)) with ((c :: ds) ++ rest). rewrite Hg, Hdrop.
    rewrite suffix_stops by done. simpl. lia. }
  assert (Hf : float_length ((c :: ds) ++ rest) = 0).
  { unfold float_length. rewrite Hg, Hdrop. destruct rest as [|d r]; [done|]. destruct (Ascii.eqb_spec d ".") as [->|]; [|done].
    simpl in Hr. destruct r as [|e r]; [done|]. apply negb_true_iff in Hr. unfold groups. by rewrite Hr. }
  assert (Hrun : run_length is_ident_continue (ds ++ rest) = List.length ds) by (apply run_length_app; [by apply digits_continue|done]).
  unfold Scanner.next_token. change ((c :: ds) ++ rest) with (c :: ds ++ rest) in *.
  rewrite (next_is_best parse_f64 c (ds ++ rest) (S (List.length ds)) 3 (number_token (S (List.length ds)) (c :: ds ++ rest))).
  - unfold number_token. change (c :: ds ++ rest) with ((c :: ds) ++ rest). rewrite take_app_length' by done. by rewrite int_literal_decimal.
  - eapply other_in; [do 3 right; left; reflexivity|]. by rewrite Hi.
  - pose proof (class_digit c Hc) as Hcl. intros m q l H. destruct H; try other_head.
    + exfalso. destruct ds as [|e ds]; simpl in H1.
      * destruct rest as [|e r]; [done|]. simpl in H1. apply Ascii.eqb_eq in H1 as ->. repeat (apply elem_of_cons in H0 as [->|H0]; [done|]). by apply elem_of_nil in H0.
      * apply Ascii.eqb_eq in H1 as ->. cbn [forallb] in Hds. apply andb_true_iff in Hds as [Hds _].
        repeat (apply elem_of_cons in H0 as [->|H0]; [done|]). by apply elem_of_nil in H0.
    + rewrite Hi. by right; right.
    + rewrite Hf. left. lia.
    + rewrite Hrun. right; left. lia.
Qed.

(** ** Strings *)

(** The text of a literal as it is between the quotes. *)
Definition quoted_body (w : list ascii) : bool :=
  match quoted_rest QUOTE (w ++ [QUOTE]) with Some n => Nat.eqb n (S (List.length w)) | None => false end.

Lemma quoted_rest_app w rest : forall n, List.length w <= n ->
  quoted_rest QUOTE (w ++ [QUOTE]) = Some (S (List.length w)) -> quoted_rest QUOTE (w ++ QUOTE :: rest) = Some (S (List.length w)).
Proof.
  intros n. revert w. induction n as [|n IH]; intros [|c w] Hn; cbn [List.length] in *; try done; [lia|].
  cbn [app quoted_rest]. destruct (Ascii.eqb c QUOTE); [done|]. destruct (Ascii.eqb c "\").
  - destruct w as [|d w]; [by vm_compute|]. cbn [app List.length] in *. destruct (Ascii.eqb d NEWLINE); [done|].
    destruct (quoted_rest QUOTE (w ++ [QUOTE])) as [k|] eqn:E; [|done]. intros [= ->]. rewrite IH; [done|lia|done].
  - destruct (quoted_rest QUOTE (w ++ [QUOTE])) as [k|] eqn:E; [|done]. intros [= ->]. by rewrite IH; [|lia|].
Qed.

Lemma next_string w rest : quoted_body w = true -> next_is QUOTE rest = false ->
  next_token (QUOTE :: w ++ QUOTE :: rest) =
    Some (2 + List.length w, Some (TkString (Some (string_of_list_ascii (unescape_string w))))).
Proof.
  intros Hw Hr. assert (Hq : quoted_rest QUOTE (w ++ QUOTE :: rest) = Some (S (List.length w))).
  { apply quoted_rest_app with (List.length w); [done|]. unfold quoted_body in Hw. destruct (quoted_rest _ _); [|done].
    by apply Nat.eqb_eq in Hw as ->. }
  assert (Hl : quoted_length [] QUOTE (QUOTE :: w ++ QUOTE :: rest) = 2 + List.length w).
  { unfold quoted_length. change (starts ([] ++ [QUOTE]) (QUOTE :: w ++ QUOTE :: rest)) with true. cbv iota.
    change (drop (S (List.length (A:=ascii) [])) (QUOTE :: w ++ QUOTE :: rest)) with (w ++ QUOTE :: rest). by rewrite Hq. }
  assert (Hin : inner 1 (2 + List.length w) (QUOTE :: w ++ QUOTE :: rest) = w).
  { unfold inner. replace (2 + List.length w - 1) with (S (List.length w)) by lia. cbn [take drop]. by rewrite take_app_length. }
  unfold Scanner.next_token.
  rewrite (next_is_best parse_f64 QUOTE (w ++ QUOTE :: rest) (2 + List.length w) 2
    (LToken (TkString (Some (string_of_list_ascii (unescape_string w)))))); [done| |].
  - eapply other_in; [do 4 right; left; reflexivity|]. rewrite Hl, Hin. reflexivity.
  - intros m q l H. destruct H; try other_head.
    + exfalso. match goal with H : starts triple_quote _ = true |- _ => apply starts_first in H as [_ H0] end. destruct w as [|d w]; cbn [app] in H0.
      * apply starts_first in H0 as [_ H0]. destruct rest as [|d rest]; [done|]. by apply starts_first in H0 as [<- _].
      * apply starts_first in H0 as [<- _]. by vm_compute in Hw.
    + rewrite Hl, Hin. by right; right.
Qed.
End literals.

(** ** F-strings *)

(** The expanders skip an f-string exactly as far as the scanner reads it. *)
Lemma fstring_scanners_agree_at n : forall mode i t sp s, List.length s <= n ->
  skip_fstring mode i s = snd <$> scan_fstring_body mode i t sp s.
Proof.
  induction n as [|n IH]; intros mode i t sp [|c s] Hn; cbn [List.length] in *; try (by destruct mode); [lia|].
  destruct mode; cbn [skip_fstring scan_fstring_body].
  - destruct (Ascii.eqb c QUOTE); [done|]. destruct (Ascii.eqb c NEWLINE); [done|]. destruct (Ascii.eqb c "\").
    { destruct s; [done|]. apply IH. simpl in *. lia. }
    destruct (Ascii.eqb_spec c "{") as [->|Hc]; cbn [orb andb].
    + destruct (next_is "{" s) eqn:En; [|apply IH; lia]. destruct s; [done|]. apply IH. simpl in *. lia.
    + destruct (Ascii.eqb_spec c "}") as [->|Hc2]; cbn [orb andb]; [|apply IH; lia].
      destruct (next_is "}" s) eqn:En; [|apply IH; lia]. destruct s as [|d s]; [done|]. simpl in En.
      apply Ascii.eqb_eq in En as ->. destruct n as [|n]; [simpl in *; lia|].
      transitivity (skip_fstring FText (S (S i)) s); [done|]. apply IH. simpl in *. lia.
  - destruct (Ascii.eqb c "}"); [destruct depth; apply IH; lia|]. destruct (Ascii.eqb c "{"); [apply IH; lia|].
    destruct (is_quote c); [apply IH; lia|]. destruct (Ascii.eqb c NEWLINE); [done|]. apply IH. lia.
  - destruct (Ascii.eqb c "\"); [destruct s; [done|]; apply IH; simpl in *; lia|]. destruct (Ascii.eqb c NEWLINE); [done|].
    destruct (Ascii.eqb c quote); apply IH; lia.
Qed.

(** The cursor only moves the result; where an interpolation began does not
    matter. *)
Definition same_mode (m m' : fmode) : Prop :=
  match m, m' with
  | FText, FText => True
  | FInterp _ d, FInterp _ d' => d = d'
  | FQuoted _ d q, FQuoted _ d' q' => d = d' /\ q = q'
  | _, _ => False
  end.

Lemma skip_fstring_shift a n : forall m m' i s, List.length s <= n -> same_mode m m' ->
  skip_fstring m (a + i) s = Nat.add a <$> skip_fstring m' i s.
Proof.
  induction n as [|n IH]; intros m m' i [|c s] Hn Hm; cbn [List.length] in *; try (by destruct m, m'); [lia|].
  assert (forall m m' i s, List.length s <= n -> same_mode m m' -> skip_fstring m (S (a + i)) s = Nat.add a <$> skip_fstring m' (S i) s) as IH1.
  { intros. rewrite <- Nat.add_succ_r. by apply IH. }
  assert (forall m m' i s, List.length s <= n -> same_mode m m' -> skip_fstring m (S (S (a + i))) s = Nat.add a <$> skip_fstring m' (S (S i)) s) as IH2.
  { intros. rewrite <- !Nat.add_succ_r. by apply IH. }
  destruct m, m'; simpl in Hm; try done; destruct_and?; subst; cbn [skip_fstring];
    repeat case_match; try done; try (simpl in *; rewrite ?Nat.add_succ_r; done); subst;
    first [apply IH1|apply IH2]; simpl in *; first [done|lia].
Qed.

Lemma next_fstring parse_f64 s :
  next_token parse_f64 ("f"%char :: QUOTE :: s) =
    Some (2 + (lex_fstring s).2, Some (TkFString (lex_fstring s).1)).
Proof.
  unfold Scanner.next_token. rewrite (best_match_is parse_f64 _ (2, 4, LFString)).
  - change (drop 2 ("f"%char :: QUOTE :: s)) with s. by destruct (lex_fstring s).
  - unfold Scanner.token_matches. cbv zeta. apply elem_of_app. right. apply list_elem_of_omap. eexists. split; [|reflexivity].
    repeat (first [apply list_elem_of_here|apply list_elem_of_further]).
  - intros [[m q] l] Hm. apply token_matches_inv in Hm as [Hm0 Hm].
    destruct Hm as [t Ht Hs|t Ht Hs|H| | | |H| |c D Hc| | | |H| |c ? Hc| |]; try (exfalso; vm_compute in Hm0; lia); try (exfalso; vm_compute in H; discriminate H).
    + right. apply (starts_app_le _ ["f"%char] (QUOTE :: s) is_ident_continue) in Hs as [v Hv]; [|by apply word_tokens_words|done].
      apply (f_equal List.length) in Hv. rewrite length_app, length_chars in Hv. simpl in Hv. cbn [better].
      rewrite orb_true_iff. left. apply Nat.ltb_lt. lia.
    + apply sign_head in Hs; [|done]. by vm_compute in Hs.
    + right. vm_compute. done.
    + exfalso. repeat (apply elem_of_cons in Hc as [->|Hc]; [vm_compute in Hm0; lia|]). by apply elem_of_nil in Hc.
    + by left.
Qed.

Lemma drop_two {A} (l : list A) i x y : l !! i = Some x -> l !! S i = Some y -> drop i l = x :: y :: drop (i + 2) l.
Proof.
  intros Hx Hy. rewrite (drop_S _ _ _ Hx), (drop_S _ _ _ Hy). by replace (i + 2) with (S (S i)) by lia.
Qed.

(** C10: The expanders of macros and attributes skip an f-string exactly as far as
    the scanner takes it, and give up exactly where the scanner reports it as
    malformed. *)
Theorem fstring_scanners_agree (parse_f64 : list ascii -> option Z) (bytes : list ascii) (start : nat) :
  bytes !! start = Some "f"%char -> bytes !! S start = Some QUOTE ->
  match start with O => True | S p => default false (is_ident_continue <$> bytes !! p) = false end ->
  match skip_fstring_literal bytes start with
  | Some e => exists f, start < e /\ next_token parse_f64 (drop start bytes) = Some (e - start, Some (TkFString (Some f)))
  | None => exists n, next_token parse_f64 (drop start bytes) = Some (n, Some (TkFString None))
  end.
Proof.
  intros Hf Hq Hb. unfold skip_fstring_literal. rewrite Hf, Hq, !Ascii.eqb_refl.
  replace (negb _) with true by (destruct start as [|p]; [done|]; destruct (bytes !! p); simpl in *; by rewrite ?Hb).
  cbn [andb]. rewrite (drop_two _ _ _ _ Hf Hq), next_fstring. set (r := drop (start + 2) bytes).
  replace (start + 2) with (start + 2 + 0) by lia. rewrite (skip_fstring_shift (start + 2) (List.length r) FText FText 0 r) by done.
  rewrite (fstring_scanners_agree_at (List.length r) FText 0 [] [] r) by done. unfold lex_fstring.
  destruct (scan_fstring_body FText 0 [] [] r) as [[f k]|]; cbn [fmap option_fmap option_map snd fst]; [|by eexists].
  exists f. split; [lia|]. by replace (start + 2 + k - start) with (2 + k) by lia.
Qed.

(** [f"{x["}"]}!" b] *)
Definition fstring_source : list ascii := chars "f" ++ [QUOTE] ++ chars "{x[" ++ [QUOTE] ++ chars "}" ++ [QUOTE] ++ chars "]}!" ++ [QUOTE] ++ chars " b".

Lemma fstring_scanners_agree_witness :
  exists f, 0 < 12 /\ next_token (fun _ => None) (drop 0 fstring_source) = Some (12 - 0, Some (TkFString (Some f))).
Proof. apply (fstring_scanners_agree (fun _ => None) fstring_source 0); [reflexivity|reflexivity|exact I]. Defined.

Lemma tokens_in_order_witness :
  match tokenize (fun _ => None) "let x1 = (a+2) // done" with
  | Some ts => List.length ts = 8 /\ in_order 0 22 ts
  | None => False
  end.
Proof. vm_compute tokenize. split; [reflexivity|]. apply (tokens_in_order (fun _ => None) "let x1 = (a+2) // done"); vm_compute; reflexivity. Defined.
