(* ===== verification/ExpandText.v ===== *)
(** What the text expanders share (compiler/src/parser/macro_expander.rs,
    attribute_expander.rs and derive_expander.rs, each of which has its own
    identical copy of these functions): cursors over the bytes of a source text,
    which step over quoted literals and comments.

    A [while i < bytes.len()] is [while_bytes]: a step either moves the cursor or
    leaves the loop.  It is run for the distance to the end of the text, which
    is enough for steps that move the cursor on ([while_bytes_eq]). *)

From S2P Require Import Prelude Strs Proto Ast Token Scanner.
From Stdlib Require Import Ascii String.

#[local] Open Scope string_scope.
#[local] Open Scope list_scope.

#[local] Notation text := (list ascii) (only parsing).

Definition parse_error : string -> CompileError := invalid.

(** [String::from_utf8] *)
Definition from_utf8 (s : text) : bool := utf8_valid (map byte_of s).

(** [bytes[a..b]] *)
Definition sub_text (a b : nat) (s : text) : text := take (b - a) (drop a s).

(** ** Loops over a text *)

Section loops.
Context {A R : Type} (len : nat) (step : nat -> A -> (nat * A) + R) (exit : nat -> A -> R).

Fixpoint run_while (fuel i : nat) (a : A) : R :=
  match fuel with
  | O => exit i a
  | S fuel =>
      if Nat.leb len i then exit i a
      else match step i a with inl (i', a') => run_while fuel i' a' | inr r => r end
  end.

Definition while_bytes (i : nat) (a : A) : R := run_while (len - i) i a.
End loops.

(** ** White space, comments and quoted literals *)

(** [u8::is_ascii_whitespace] *)
Definition is_ws (c : ascii) : bool := is_blank c || Ascii.eqb c NEWLINE.

Definition skip_ws (bytes : text) (i : nat) : nat := i + run_length is_ws (drop i bytes).

Definition skip_comment (bytes : text) (start : nat) : option nat :=
  match bytes !! start with
  | Some "/"%char =>
      match bytes !! S start with
      | Some "/"%char => Some (start + 2 + run_length (fun c => negb (Ascii.eqb c NEWLINE)) (drop (start + 2) bytes))
      | Some "*"%char =>
          Some (match find_text (chars "*/") (drop (start + 2) bytes) with
                | Some k => start + 2 + k + 2
                | None => List.length bytes
                end)
      | _ => None
      end
  | _ => None
  end.

Definition skip_ws_and_comments (bytes : text) (i : nat) : nat :=
  while_bytes (List.length bytes)
    (fun i _ => match skip_comment bytes (skip_ws bytes i) with
                | Some next => inl (next, tt)
                | None => inr (skip_ws bytes i)
                end)
    (fun i _ => i) i tt.

(** From behind the quote to behind the closing one. *)
Fixpoint quoted_skip (quote : ascii) (s : text) : nat :=
  match s with
  | [] => 0
  | c :: r =>
      if Ascii.eqb c "\" then match r with _ :: r' => S (S (quoted_skip quote r')) | [] => 1 end
      else if Ascii.eqb c quote then 1 else S (quoted_skip quote r)
  end.

Definition skip_quoted_literal (bytes : text) (start : nat) : option nat :=
  match skip_fstring_literal bytes start with
  | Some next => Some next
  | None =>
      match bytes !! start with
      | Some quote => if is_quote quote then Some (S start + quoted_skip quote (drop (S start) bytes)) else None
      | None => None
      end
  end.

(** What the scanning loops step over. *)
Definition skip_trivia (bytes : text) (i : nat) : option nat :=
  match skip_quoted_literal bytes i with Some next => Some next | None => skip_comment bytes i end.

(** ** Names *)

Definition parse_ident_range (bytes : text) (start : nat) : option (nat * nat) :=
  match drop start bytes with
  | c :: r => if is_ident_start c then Some (start, S start + run_length is_ident_continue r) else None
  | [] => None
  end.

Definition is_ident (value : text) : bool :=
  match parse_ident_range value 0 with Some (_, end_) => Nat.eqb end_ (List.length value) | None => false end.

(** ** Delimiters *)

(** The bounds of what is between the delimiters, and the position behind. *)
Definition parse_balanced (message : string) (bytes : text) (start : nat) (open close : ascii) :
    result (nat * nat * nat) CompileError :=
  if negb (bool_decide (bytes !! start = Some open)) then Err (parse_error "expected opening delimiter") else
  while_bytes (List.length bytes)
    (fun i depth =>
       match skip_trivia bytes i with
       | Some next => inl (next, depth)
       | None =>
           if bool_decide (bytes !! i = Some open) then inl (S i, S depth)
           else if bool_decide (bytes !! i = Some close) then
             match depth with
             | S (S _) => inl (S i, pred depth)
             | _ => inr (Ok (S start, i, S i))
             end
           else inl (S i, depth)
       end)
    (fun _ _ => Err (parse_error message)) (S start) 1.
