(* ===== verification/MacroExpander.v ===== *)
(** Declarative macros: compiler/src/parser/macro_expander.rs.

    The text of a program is rewritten before it is scanned: definitions are cut
    out, and invocations replaced until a pass changes nothing.  A [HashMap] of
    macros or of captures is a finite map; it is only looked up. *)

From S2P Require Import Prelude Strs Ast Token Scanner ExpandText.
From Stdlib Require Import Ascii String.
From stdpp Require Import pretty.

#[local] Open Scope string_scope.
#[local] Open Scope list_scope.

#[local] Notation text := (list ascii) (only parsing).
#[local] Notation str := string_of_list_ascii (only parsing).

Definition MAX_EXPANSION_PASSES : nat := 16.
Definition MACRO_RULES_PREFIX : text := chars "macro_rules!".

Record PatternParam := mkPatternParam { pp_name : text; pp_fragment : text }.
Record MacroArm := mkMacroArm { ma_params : list PatternParam; ma_template : text }.
Record DeclarativeMacro := mkDeclarativeMacro { dm_arms : list MacroArm }.
Definition Macros := gmap text DeclarativeMacro.

Definition macro_balanced : text -> nat -> ascii -> ascii -> result (nat * nat * nat) CompileError :=
  parse_balanced "unbalanced delimiters in macro definition/invocation".
Definition quoted_name (before : string) (name : text) (after : string) : string := before +:+ "`" +:+ str name +:+ "`" +:+ after.

Definition matching_delim (open : ascii) : option ascii :=
  match open with
  | "("%char => Some ")"%char
  | "{"%char => Some "}"%char
  | "["%char => Some "]"%char
  | "<"%char => Some ">"%char
  | _ => None
  end.

(** [bytes[i]], where it is compared with what is no zero byte. *)
Definition byte_at (bytes : text) (i : nat) : ascii := default "000"%char (bytes !! i).
Definition byte_is (bytes : text) (i : nat) (c : ascii) : bool := bool_decide (bytes !! i = Some c).

(** ** Splitting arguments and patterns *)

Record Depths := mkDepths { d_paren : Z; d_brace : Z; d_bracket : Z; d_angle : Z }.

Definition at_top (d : Depths) : bool :=
  ((d_paren d =? 0) && (d_brace d =? 0) && (d_bracket d =? 0) && (d_angle d =? 0))%Z.

Definition deeper (c : ascii) (d : Depths) : Depths :=
  let '(mkDepths p b k a) := d in
  match c with
  | "("%char => mkDepths (p + 1) b k a
  | ")"%char => mkDepths (p - 1) b k a
  | "{"%char => mkDepths p (b + 1) k a
  | "}"%char => mkDepths p (b - 1) k a
  | "["%char => mkDepths p b (k + 1) a
  | "]"%char => mkDepths p b (k - 1) a
  | "<"%char => mkDepths p b k (a + 1)
  | ">"%char => mkDepths p b k (a - 1)
  | _ => d
  end.

Definition split_top_level (input : text) : result (list text) CompileError :=
  while_bytes (List.length input)
    (fun i '(parts, start, depths) =>
       match skip_trivia input i with
       | Some next => inl (next, (parts, start, depths))
       | None =>
           let c := byte_at input i in
           if Ascii.eqb c "," && at_top depths
           then inl (S i, (parts ++ [sub_text start i input], S i, depths))
           else inl (S i, (parts, start, deeper c depths))
       end)
    (fun _ '(parts, start, depths) =>
       if at_top depths then Ok (parts ++ [drop start input])
       else Err (parse_error "unbalanced delimiters while splitting macro arguments/pattern"))
    0 ([], 0, mkDepths 0 0 0 0).

(** ** Definitions *)

Definition trimmed (s : text) : text := chars (trim (str s)).

(** [str::split_once] at a byte. *)
Fixpoint split_once_at (c : ascii) (s : text) : option (text * text) :=
  match s with
  | [] => None
  | d :: s => if Ascii.eqb c d then Some ([], s) else
              match split_once_at c s with Some (a, b) => Some (d :: a, b) | None => None end
  end.

Definition parse_pattern_param (trimmed_item : text) : result PatternParam CompileError :=
  if negb (next_is "$" trimmed_item) then
    Err (parse_error "macro pattern currently supports only `$name:fragment` placeholders")
  else
    match split_once_at ":" (drop 1 trimmed_item) with
    | None => Err (parse_error "invalid macro placeholder, expected `$name:fragment`")
    | Some (name, fragment) =>
        let name := trimmed name in
        let fragment := trimmed fragment in
        if negb (is_ident name) then Err (parse_error (quoted_name "invalid macro capture name " name " in pattern"))
        else if negb (is_ident fragment) then Err (parse_error (quoted_name "invalid macro fragment kind " fragment " in pattern"))
        else Ok (mkPatternParam name fragment)
    end.

Fixpoint pattern_params (items : list text) : result (list PatternParam) CompileError :=
  match items with
  | [] => Ok []
  | item :: items =>
      match trimmed item with
      | [] => pattern_params items
      | t => let? param := parse_pattern_param t in let? params := pattern_params items in Ok (param :: params)
      end
  end.
Definition parse_pattern_params (pattern : text) : result (list PatternParam) CompileError :=
  let? items := split_top_level pattern in pattern_params items.

Definition invalid_arm (macro_name : text) (what : string) : CompileError :=
  parse_error (quoted_name "invalid macro arm in " macro_name (": expected " +:+ what)).

(** An arm at [i], which is no white space, and where the next one begins. *)
Definition parse_macro_arm (body macro_name : text) (i : nat) : result (MacroArm * nat) CompileError :=
  match matching_delim (byte_at body i) with
  | None => Err (invalid_arm macro_name "pattern delimiter")
  | Some pattern_close =>
      let? pattern := macro_balanced body i (byte_at body i) pattern_close in
      let '(pattern_start, pattern_end, after_pattern) := pattern in
      if negb (from_utf8 (sub_text pattern_start pattern_end body)) then Err (parse_error "macro pattern contains invalid utf-8") else
      let i := skip_ws body after_pattern in
      if negb (byte_is body i "=" && byte_is body (S i) ">") then Err (invalid_arm macro_name "`=>` after pattern") else
      let i := skip_ws body (i + 2) in
      match matching_delim (byte_at body i) with
      | None => Err (invalid_arm macro_name "expansion delimiters")
      | Some template_close =>
          let? template := macro_balanced body i (byte_at body i) template_close in
          let '(template_start, template_end, after_template) := template in
          if negb (from_utf8 (sub_text template_start template_end body)) then Err (parse_error "macro template contains invalid utf-8") else
          let? params := parse_pattern_params (sub_text pattern_start pattern_end body) in
          let i := skip_ws body after_template in
          Ok (mkMacroArm params (sub_text template_start template_end body), if byte_is body i ";" then S i else i)
      end
  end.

Definition parse_macro_arms (body macro_name : text) : result (list MacroArm) CompileError :=
  let? arms :=
    while_bytes (List.length body)
      (fun i arms =>
         let i := skip_ws body i in
         if Nat.leb (List.length body) i then inr (Ok arms)
         else match parse_macro_arm body macro_name i with
              | Ok (arm, next) => inl (next, arms ++ [arm])
              | Err e => inr (Err e)
              end)
      (fun _ arms => Ok arms) 0 [] in
  match arms with
  | [] => Err (parse_error (quoted_name "macro " macro_name " must define at least one arm"))
  | _ => Ok arms
  end.

Definition parse_macro_definition (bytes : text) (start : nat) : result (text * DeclarativeMacro * nat) CompileError :=
  let cursor := skip_ws bytes (start + List.length MACRO_RULES_PREFIX) in
  match parse_ident_range bytes cursor with
  | None => Err (parse_error "expected macro name after `macro_rules!`")
  | Some (name_start, name_end) =>
      let name := sub_text name_start name_end bytes in
      let cursor := skip_ws bytes name_end in
      if negb (byte_is bytes cursor "{") then
        Err (parse_error (quoted_name "expected `{` after macro name " name " in `macro_rules!`"))
      else
        let? body := macro_balanced bytes cursor "{" "}" in
        let '(body_start, body_end, next) := body in
        let? arms := parse_macro_arms (sub_text body_start body_end bytes) name in
        Ok (name, mkDeclarativeMacro arms, next)
  end.

Definition is_macro_rules_at (bytes : text) (index : nat) : bool :=
  starts MACRO_RULES_PREFIX (drop index bytes) &&
  match index with O => true | S before => negb (default false (is_ident_continue <$> bytes !! before)) end.

Definition extract_macro_definitions (bytes : text) : result (text * Macros) CompileError :=
  while_bytes (List.length bytes)
    (fun i '(output, macros, last_copy) =>
       if is_macro_rules_at bytes i then
         match parse_macro_definition bytes i with
         | Err e => inr (Err e)
         | Ok (name, definition, next) =>
             match macros !! name with
             | Some _ => inr (Err (parse_error (quoted_name "duplicate macro definition " name EmptyString)))
             | None => inl (next, (output ++ sub_text last_copy i bytes, <[name := definition]> macros, next))
             end
         end
       else inl (S i, (output, macros, last_copy)))
    (fun _ '(output, macros, last_copy) =>
       let output := output ++ drop last_copy bytes in
       if from_utf8 output then Ok (output, macros) else Err (parse_error "expanded source contains invalid utf-8"))
    0 ([], ∅ : Macros, 0).

(** ** Invocations *)

Definition fragment_accepts (fragment arg : text) : bool :=
  let t := trimmed arg in
  match t with
  | [] => false
  | c :: _ =>
      let f := str fragment in
      if String.eqb f "ident" then is_ident t
      else if String.eqb f "literal" then is_quote c || is_ascii_digit c
      else if String.eqb f "block" then Ascii.eqb c "{" && is_some (Scanner.strip_suffix t ["}"%char])
      else existsb (String.eqb f) ["expr"; "ty"; "path"; "stmt"; "tt"; "pat"]
  end.

Definition apply_template (template : text) (captures : gmap text text) : text :=
  let output :=
    while_bytes (List.length template)
      (fun i output =>
         let copied := inl (S i, output ++ [byte_at template i]) in
         if byte_is template i "$" then
           match parse_ident_range template (S i) with
           | Some (name_start, name_end) =>
               match captures !! sub_text name_start name_end template with
               | Some value => inl (name_end, output ++ value)
               | None => copied
               end
           | None => copied
           end
         else copied)
      (fun _ output => output) 0 [] in
  if from_utf8 output then output else [].

Definition captures_of (params : list PatternParam) (args : list text) : gmap text text :=
  fold_left (fun m '(param, value) => <[pp_name param := value]> m) (zip params args) ∅.

Definition arm_accepts (args : list text) (arm : MacroArm) : bool :=
  Nat.eqb (List.length (ma_params arm)) (List.length args) &&
  forallb (fun '(param, arg) => fragment_accepts (pp_fragment param) arg) (zip (ma_params arm) args).

Definition expand_single_invocation (name : text) (definition : DeclarativeMacro) (args : text) : result text CompileError :=
  let? parts := split_top_level args in
  let args := List.filter (fun value => negb (bool_decide (value = []))) (map trimmed parts) in
  match List.find (arm_accepts args) (dm_arms definition) with
  | Some arm => Ok (apply_template (ma_template arm) (captures_of (ma_params arm) args))
  | None =>
      Err (parse_error (quoted_name "no matching macro arm for " name (" with " +:+ pretty (List.length args) +:+ " argument(s)")))
  end.

(** An invocation whose name ends at [name_end]: the opening delimiter. *)
Definition invocation_at (bytes : text) (name_end : nat) : option (nat * ascii) :=
  let cursor := skip_ws bytes name_end in
  if byte_is bytes cursor "!" then
    let cursor := skip_ws bytes (S cursor) in
    match bytes !! cursor with
    | Some open => match matching_delim open with Some close => Some (cursor, close) | None => None end
    | None => None
    end
  else None.

(** One pass: the text it makes and whether it changed anything. *)
Definition expand_pass (macros : Macros) (bytes : text) : result (text * bool) CompileError :=
  while_bytes (List.length bytes)
    (fun i '(output, changed) =>
       match skip_trivia bytes i with
       | Some next => inl (next, (output ++ sub_text i next bytes, changed))
       | None =>
           match parse_ident_range bytes i with
           | None => inl (S i, (output ++ [byte_at bytes i], changed))
           | Some (name_start, name_end) =>
               match invocation_at bytes name_end with
               | None => inl (name_end, (output ++ sub_text i name_end bytes, changed))
               | Some (cursor, close) =>
                   match macro_balanced bytes cursor (byte_at bytes cursor) close with
                   | Err e => inr (Err e)
                   | Ok (arg_start, arg_end, after_invocation) =>
                       let macro_name := sub_text name_start name_end bytes in
                       match macros !! macro_name with
                       | None => inr (Err (parse_error (quoted_name "unknown macro " macro_name EmptyString)))
                       | Some definition =>
                           match expand_single_invocation macro_name definition (sub_text arg_start arg_end bytes) with
                           | Err e => inr (Err e)
                           | Ok expansion => inl (after_invocation, (output ++ expansion, true))
                           end
                       end
                   end
               end
           end
       end)
    (fun _ '(output, changed) =>
       if from_utf8 output then Ok (output, changed) else Err (parse_error "expanded source contains invalid utf-8"))
    0 ([], false).

(** [passes] more passes may be made. *)
Fixpoint expand_passes (macros : Macros) (passes : nat) (expanded : text) : result text CompileError :=
  match passes with
  | O => Ok expanded
  | S passes =>
      let? pass := expand_pass macros expanded in
      let '(next, changed) := pass in
      if negb changed then Ok next
      else match passes with
           | O => Err (parse_error "macro expansion exceeded recursion/pass limit")
           | _ => expand_passes macros passes next
           end
  end.
Definition expand_macro_invocations (source : text) (macros : Macros) : result text CompileError :=
  expand_passes macros MAX_EXPANSION_PASSES source.

Definition contains (pattern s : text) : bool := is_some (find_text pattern s).

Definition expand_declarative_macros (source : text) : result text CompileError :=
  if negb (contains MACRO_RULES_PREFIX source) then Ok source else
  let? extracted := extract_macro_definitions source in
  let '(without_definitions, macros) := extracted in
  if bool_decide (macros = ∅) then Ok source else expand_macro_invocations without_definitions macros.
