(* ===== verification/AttributeExpander.v ===== *)
(** Attributes: compiler/src/parser/attribute_expander.rs.

    Before it is scanned, the text of a program loses the declarations whose
    [cfg] predicate is false, [cfg] and [deprecated] attributes are blanked, and
    what [deprecated] says is recorded.  The two thread-local variables are
    arguments: the selected features, and the record.  [None] is a panic. *)

From S2P Require Import Prelude Strs Ast Token Scanner ExpandText MacroExpander.
From Stdlib Require Import Ascii String.

#[local] Open Scope string_scope.
#[local] Open Scope list_scope.

#[local] Notation text := (list ascii) (only parsing).
#[local] Notation str := string_of_list_ascii (only parsing).

Inductive SurfaceDeclKind := DkStruct | DkEnum | DkClass | DkTrait | DkImpl | DkFunction | DkConst | DkOther.
#[export] Instance SurfaceDeclKind_eq_dec : EqDecision SurfaceDeclKind.
Proof. solve_decision. Defined.

Record DeprecatedDecl := mkDeprecatedDecl {
  dd_name : text; dd_kind : string; dd_message : option text; dd_replacement : option text; dd_removal : option text }.
Record DeprecatedMetadata := mkMetadata { md_message : option text; md_replacement : option text; md_removal : option text }.
Definition no_metadata : DeprecatedMetadata := mkMetadata None None None.

(** [ATTRIBUTE_STATE] *)
Definition AttributeState := option (list DeprecatedDecl).
Definition reset_state : AttributeState := Some [].
Definition take_deprecated_decls (state : AttributeState) : list DeprecatedDecl * AttributeState :=
  match state with Some deprecated => (deprecated, Some []) | None => ([], None) end.

(** The closure runs with the features given, and the previous ones are back
    when it is done. *)
Definition with_cfg_features {R} (features : list text) (f : list text -> R) (previous : list text) : R * list text :=
  (f features, previous).

Inductive CfgPredicate :=
| CfgTargetOs (value : text)
| CfgTargetFamily (value : text)
| CfgFeature (value : text)
| CfgAll (predicates : list CfgPredicate)
| CfgAny (predicates : list CfgPredicate)
| CfgNot (predicate : CfgPredicate).

Inductive ParsedAttribute :=
| PaDerive
| PaCfg (predicate : CfgPredicate)
| PaDeprecated (metadata : DeprecatedMetadata)
| PaUnsupported (name : text) (span_start : nat).
Definition ParsedAttributeSpan : Type := nat * nat * ParsedAttribute.

Inductive AttributeAction := Keep (mask_ranges : list (nat * nat)) | Remove.

Definition attribute_balanced : text -> nat -> ascii -> ascii -> result (nat * nat * nat) CompileError :=
  parse_balanced "unbalanced delimiters in attribute".

Definition attribute_error (start : nat) (message : string) : CompileError :=
  CParse (UnsupportedAttribute message (mkSpan (Z.of_nat start) (Z.of_nat start + 1))).
Definition attribute_parse_error (start : nat) (err : CompileError) : CompileError :=
  match err with CParse (InvalidPattern message) => attribute_error start message | other => other end.

(** ** Kinds of declarations *)

Definition allows_derive (kind : SurfaceDeclKind) : bool := match kind with DkStruct | DkEnum | DkClass => true | _ => false end.
Definition allows_cfg (kind : SurfaceDeclKind) : bool := match kind with DkOther => false | _ => true end.
Definition allows_deprecated (kind : SurfaceDeclKind) : bool := match kind with DkImpl | DkOther => false | _ => true end.

Definition decl_kind_label (kind : SurfaceDeclKind) : string :=
  match kind with
  | DkStruct => "struct" | DkEnum => "enum" | DkClass => "class" | DkTrait => "trait" | DkImpl => "impl" | DkFunction => "fn"
  | DkConst => "const" | DkOther => "declaration"
  end.

(** ** Predicates *)

(** The system the compiler itself was built for. *)
Inductive HostOs := HostWindows | HostLinux | HostMacos | HostUnknown.
Definition current_target_os (host : HostOs) : string :=
  match host with HostWindows => "windows" | HostLinux => "linux" | HostMacos => "macos" | HostUnknown => "unknown" end.
Definition current_target_family (host : HostOs) : string :=
  match host with HostWindows => "windows" | HostLinux | HostMacos => "unix" | HostUnknown => "unknown" end.

Definition supported_target_os (value : text) : bool := existsb (String.eqb (str value)) ["windows"; "linux"; "macos"].
Definition supported_target_family (value : text) : bool := existsb (String.eqb (str value)) ["windows"; "unix"].

Section predicates.
Context (host : HostOs) (features : list text).

Definition cfg_feature_enabled (value : text) : bool := existsb (fun feature => bool_decide (feature = value)) features.

Fixpoint cfg_predicate_matches (predicate : CfgPredicate) : bool :=
  match predicate with
  | CfgTargetOs value => String.eqb (current_target_os host) (str value)
  | CfgTargetFamily value => String.eqb (current_target_family host) (str value)
  | CfgFeature value => cfg_feature_enabled value
  | CfgAll predicates => forallb cfg_predicate_matches predicates
  | CfgAny predicates => existsb cfg_predicate_matches predicates
  | CfgNot predicate => negb (cfg_predicate_matches predicate)
  end.
End predicates.

(** The position of the closing quote. *)
Fixpoint closing_quote (s : text) : option nat :=
  match s with
  | [] => None
  | c :: r =>
      if Ascii.eqb c "\" then match r with _ :: r' => (fun k => S (S k)) <$> closing_quote r' | [] => None end
      else if Ascii.eqb c QUOTE then Some 0
      else S <$> closing_quote r
  end.

(** [CfgPredicateParser] over the text [bytes]; a function takes the cursor and
    returns it. *)
Section cfg_parser.
Context (bytes : text).

Definition parse_string_literal (cursor : nat) : result (text * nat) CompileError :=
  if negb (byte_is bytes cursor QUOTE) then Err (parse_error "expected string literal") else
  match closing_quote (drop (S cursor) bytes) with
  | Some k => Ok (sub_text (S cursor) (S cursor + k) bytes, S cursor + k + 1)
  | None => Err (parse_error "unclosed string literal in cfg predicate")
  end.

Definition parse_key_value_string (key : string) (cursor : nat) : result (text * nat) CompileError :=
  let cursor := skip_ws bytes cursor in
  if negb (byte_is bytes cursor "=") then
    Err (parse_error ("cfg(" +:+ key +:+ ") requires `" +:+ key +:+ " = " +:+ str [QUOTE] +:+ "..." +:+ str [QUOTE] +:+ "` syntax"))
  else parse_string_literal (skip_ws bytes (S cursor)).

Section predicate_list.
Context (predicate : nat -> option (result (CfgPredicate * nat) CompileError)) (name : string).

(** The predicates from the opening parenthesis on. *)
Fixpoint predicate_list_loop (fuel cursor : nat) (predicates : list CfgPredicate) : option (result (list CfgPredicate * nat) CompileError) :=
  match fuel with
  | O => None
  | S fuel =>
      let cursor := skip_ws bytes cursor in
      if byte_is bytes cursor ")" then Some (Ok (predicates, S cursor)) else
      match predicate cursor with
      | None => None
      | Some (Err e) => Some (Err e)
      | Some (Ok (p, cursor)) =>
          let cursor := skip_ws bytes cursor in
          if byte_is bytes cursor "," then predicate_list_loop fuel (S cursor) (predicates ++ [p])
          else if byte_is bytes cursor ")" then Some (Ok (predicates ++ [p], S cursor))
          else Some (Err (parse_error ("cfg " +:+ name +:+ "(...) expects predicates separated by commas")))
      end
  end.

Definition parse_predicate_list (fuel cursor : nat) : option (result (list CfgPredicate * nat) CompileError) :=
  let cursor := skip_ws bytes cursor in
  if negb (byte_is bytes cursor "(") then Some (Err (parse_error ("cfg " +:+ name +:+ "(...) requires parentheses"))) else
  match predicate_list_loop fuel (S cursor) [] with
  | Some (Ok ([], _)) => Some (Err (parse_error ("cfg " +:+ name +:+ "(...) requires at least one predicate")))
  | other => other
  end.
End predicate_list.

Fixpoint parse_predicate (fuel cursor : nat) : option (result (CfgPredicate * nat) CompileError) :=
  match fuel with
  | O => None
  | S fuel =>
      let cursor := skip_ws bytes cursor in
      match parse_ident_range bytes cursor with
      | None => Some (Err (parse_error "expected cfg predicate"))
      | Some (ident_start, ident_end) =>
          let ident := str (sub_text ident_start ident_end bytes) in
          let cursor := skip_ws bytes ident_end in
          let list_of name := parse_predicate_list (parse_predicate fuel) name fuel cursor in
          if String.eqb ident "target_os" then Some (
            let? parsed := parse_key_value_string "target_os" cursor in
            let '(value, cursor) := parsed in
            if supported_target_os value then Ok (CfgTargetOs value, cursor)
            else Err (parse_error (quoted_name "unsupported cfg target_os " value "; supported: windows, linux, macos")))
          else if String.eqb ident "target_family" then Some (
            let? parsed := parse_key_value_string "target_family" cursor in
            let '(value, cursor) := parsed in
            if supported_target_family value then Ok (CfgTargetFamily value, cursor)
            else Err (parse_error (quoted_name "unsupported cfg target_family " value "; supported: windows, unix")))
          else if String.eqb ident "feature" then Some (
            let? parsed := parse_key_value_string "feature" cursor in
            let '(value, cursor) := parsed in
            match value with
            | [] => Err (parse_error "cfg feature name must not be empty")
            | _ => Ok (CfgFeature value, cursor)
            end)
          else if String.eqb ident "all" then
            match list_of "all" with
            | None => None | Some (Err e) => Some (Err e)
            | Some (Ok (predicates, cursor)) => Some (Ok (CfgAll predicates, cursor))
            end
          else if String.eqb ident "any" then
            match list_of "any" with
            | None => None | Some (Err e) => Some (Err e)
            | Some (Ok (predicates, cursor)) => Some (Ok (CfgAny predicates, cursor))
            end
          else if String.eqb ident "not" then
            match list_of "not" with
            | None => None | Some (Err e) => Some (Err e)
            | Some (Ok ([predicate], cursor)) => Some (Ok (CfgNot predicate, cursor))
            | Some (Ok _) => Some (Err (parse_error "cfg not(...) requires exactly one predicate"))
            end
          else Some (Err (parse_error (quoted_name "unsupported cfg predicate " (sub_text ident_start ident_end bytes)
                            "; supported: target_os, target_family, feature, all, any, not")))
      end
  end.
End cfg_parser.

(** Every nested predicate begins behind a name, so the length of the text is
    enough fuel. *)
Definition parse_cfg_predicate (inner : text) : option (result CfgPredicate CompileError) :=
  match parse_predicate inner (S (List.length inner)) 0 with
  | None => None
  | Some (Err e) => Some (Err e)
  | Some (Ok (predicate, cursor)) =>
      if Nat.leb (List.length inner) (skip_ws inner cursor) then Some (Ok predicate)
      else Some (Err (parse_error "malformed cfg predicate"))
  end.

(** ** What [deprecated] says *)

Definition parse_string_literal_token (value : text) : result text CompileError :=
  if next_is QUOTE value && next_is QUOTE (rev value) && Nat.leb 2 (List.length value)
  then Ok (sub_text 1 (List.length value - 1) value)
  else Err (parse_error "expected string literal").

(** [\u{5c}] skips a byte inside a string. *)
Definition split_deprecated_entries (value : text) : result (list text) CompileError :=
  while_bytes (List.length value)
    (fun cursor '(entries, start, quoted) =>
       let c := byte_at value cursor in
       if Ascii.eqb c "\" && quoted then inl (cursor + 2, (entries, start, quoted))
       else if Ascii.eqb c QUOTE then inl (S cursor, (entries, start, negb quoted))
       else if Ascii.eqb c "," && negb quoted then
         match trimmed (sub_text start cursor value) with
         | [] => inr (Err (parse_error "empty deprecated metadata entry"))
         | entry => inl (S cursor, (entries ++ [entry], S cursor, quoted))
         end
       else inl (S cursor, (entries, start, quoted)))
    (fun _ '(entries, start, quoted) =>
       if quoted : bool then Err (parse_error "unclosed string literal in deprecated metadata")
       else match trimmed (drop start value) with
            | [] => Err (parse_error "deprecated metadata cannot be empty")
            | entry => Ok (entries ++ [entry])
            end)
    0 ([], 0, false).

(** Set the field of a key; the result says whether it was set before. *)
Definition set_slot (key : string) (value : text) (m : DeprecatedMetadata) : option (DeprecatedMetadata * bool) :=
  if String.eqb key "note" || String.eqb key "message"
  then Some (mkMetadata (Some value) (md_replacement m) (md_removal m), is_some (md_message m))
  else if String.eqb key "replacement" then Some (mkMetadata (md_message m) (Some value) (md_removal m), is_some (md_replacement m))
  else if String.eqb key "removal" then Some (mkMetadata (md_message m) (md_replacement m) (Some value), is_some (md_removal m))
  else None.

Fixpoint metadata_entries (entries : list text) (metadata : DeprecatedMetadata) : result DeprecatedMetadata CompileError :=
  match entries with
  | [] => Ok metadata
  | entry :: entries =>
      match split_once_at "=" entry with
      | None => Err (parse_error ("deprecated metadata requires `key = " +:+ str [QUOTE] +:+ "value" +:+ str [QUOTE] +:+ "` entries"))
      | Some (key, value) =>
          let key := trimmed key in
          let? value := parse_string_literal_token (trimmed value) in
          match set_slot (str key) value metadata with
          | None => Err (parse_error (quoted_name "unsupported deprecated metadata key " key EmptyString))
          | Some (_, true) => Err (parse_error (quoted_name "duplicate deprecated metadata key " key EmptyString))
          | Some (metadata, false) => metadata_entries entries metadata
          end
      end
  end.

Definition parse_deprecated_metadata (inner : text) : result DeprecatedMetadata CompileError :=
  let inner := trimmed inner in
  if next_is QUOTE inner then let? message := parse_string_literal_token inner in Ok (mkMetadata (Some message) None None) else
  let? entries := split_deprecated_entries inner in
  let? metadata := metadata_entries entries no_metadata in
  match md_replacement metadata, md_removal metadata with
  | Some _, Some _ => Ok metadata
  | _, _ => Err (parse_error "structured deprecated metadata requires `replacement` and `removal`")
  end.

(** ** The attributes of a declaration *)

(** An attribute, and the position behind it. *)
Definition parse_surface_attribute (bytes : text) (start : nat) : option (result (ParsedAttribute * nat) CompileError) :=
  if negb (byte_is bytes start "#") then Some (Err (parse_error "expected `#` at attribute start")) else
  let cursor := skip_ws bytes (S start) in
  if negb (byte_is bytes cursor "[") then Some (Err (parse_error "attribute requires `[` after `#`")) else
  match parse_ident_range bytes (skip_ws bytes (S cursor)) with
  | None => Some (Err (parse_error "attribute name expected after `#`"))
  | Some (name_start, name_end) =>
      let name := sub_text name_start name_end bytes in
      let close (attr : ParsedAttribute) (cursor : nat) : result (ParsedAttribute * nat) CompileError :=
        let cursor := skip_ws bytes cursor in
        if byte_is bytes cursor "]" then Ok (attr, S cursor) else Err (parse_error "attribute is missing closing `]`") in
      if String.eqb (str name) "derive" then Some (
        let cursor := skip_ws bytes name_end in
        if negb (byte_is bytes cursor "(") then Err (parse_error "`#[derive(...)]` requires parentheses") else
        let? list := attribute_balanced bytes cursor "(" ")" in close PaDerive list.2)
      else if String.eqb (str name) "cfg" then
        let cursor := skip_ws bytes name_end in
        if negb (byte_is bytes cursor "(") then Some (Err (parse_error "`#[cfg(...)]` requires parentheses")) else
        match attribute_balanced bytes cursor "(" ")" with
        | Err e => Some (Err e)
        | Ok (inner_start, inner_end, after) =>
            match parse_cfg_predicate (sub_text inner_start inner_end bytes) with
            | None => None
            | Some (Err e) => Some (Err (attribute_parse_error name_start e))
            | Some (Ok predicate) => Some (close (PaCfg predicate) after)
            end
        end
      else if String.eqb (str name) "deprecated" then Some (
        if byte_is bytes name_end "(" then
          let? inner := attribute_balanced bytes name_end "(" ")" in
          let '(inner_start, inner_end, after) := inner in
          let? metadata := parse_deprecated_metadata (sub_text inner_start inner_end bytes) in
          close (PaDeprecated metadata) after
        else close (PaDeprecated no_metadata) name_end)
      else Some (close (PaUnsupported name name_start) name_end)
  end.

Definition collect_leading_attributes (bytes : text) (start : nat) : option (result (list ParsedAttributeSpan * nat) CompileError) :=
  while_bytes (List.length bytes)
    (fun cursor attrs =>
       let cursor := skip_ws_and_comments bytes cursor in
       if negb (byte_is bytes cursor "#") then inr (Some (Ok (attrs, cursor))) else
       match parse_surface_attribute bytes cursor with
       | None => inr None
       | Some (Err e) => inr (Some (Err e))
       | Some (Ok (attr, attr_end)) => inl (attr_end, attrs ++ [(cursor, attr_end, attr)])
       end)
    (fun cursor attrs => Some (Ok (attrs, cursor))) start [].

Definition skip_attribute_regions (bytes : text) (start : nat) : nat :=
  while_bytes (List.length bytes)
    (fun start _ =>
       let start := skip_ws_and_comments bytes start in
       if negb (byte_is bytes start "#") then inr start else
       let start := skip_ws bytes (S start) in
       if byte_is bytes start "[" then
         match attribute_balanced bytes start "[" "]" with Ok (_, _, after) => inl (after, tt) | Err _ => inr start end
       else inr start)
    (fun start _ => start) start tt.

(** ** Declarations *)

Definition starts_with_keyword (bytes : text) (cursor : nat) (keyword : string) : bool :=
  starts (chars keyword) (drop cursor bytes) &&
  negb (default false (is_ident_continue <$> bytes !! (cursor + String.length keyword))).

Definition skip_keyword (bytes : text) (cursor : nat) (keyword : string) : nat :=
  let pos := skip_ws_and_comments bytes cursor in
  if starts_with_keyword bytes pos keyword then skip_ws_and_comments bytes (pos + String.length keyword) else pos.

Definition skip_visibility (bytes : text) (cursor : nat) : nat :=
  while_bytes (List.length bytes)
    (fun cursor _ =>
       let cursor := skip_ws_and_comments bytes cursor in
       match parse_ident_range bytes cursor with
       | None => inr cursor
       | Some (start, end_) =>
           let keyword := str (sub_text start end_ bytes) in
           if String.eqb keyword "pub" || String.eqb keyword "priv" then
             if byte_is bytes end_ "(" then
               match attribute_balanced bytes end_ "(" ")" with Ok (_, _, after) => inl (after, tt) | Err _ => inl (end_, tt) end
             else inl (end_, tt)
           else inr cursor
       end)
    (fun cursor _ => cursor) cursor tt.

Definition skip_ident (bytes : text) (cursor : nat) : nat :=
  match parse_ident_range bytes cursor with Some (_, end_) => end_ | None => cursor end.

Definition find_declaration_end (bytes : text) (start : nat) : result nat CompileError :=
  while_bytes (List.length bytes)
    (fun i _ =>
       match skip_trivia bytes i with
       | Some next => inl (next, tt)
       | None =>
           if byte_is bytes i "{" then
             inr (match attribute_balanced bytes i "{" "}" with Ok (_, _, after) => Ok after | Err e => Err e end)
           else if byte_is bytes i "(" then
             match attribute_balanced bytes i "(" ")" with
             | Err e => inr (Err e)
             | Ok (_, _, after_paren) =>
                 let after := skip_ws_and_comments bytes after_paren in
                 if byte_is bytes after ";" then inr (Ok (S after)) else inl (after_paren, tt)
             end
           else if byte_is bytes i ";" then inr (Ok (S i))
           else inl (S i, tt)
       end)
    (fun _ _ => Err (parse_error "failed to locate end of declaration for attributes")) start tt.

Definition kind_of_keyword (keyword : string) : option SurfaceDeclKind :=
  if String.eqb keyword "struct" then Some DkStruct else if String.eqb keyword "enum" then Some DkEnum
  else if String.eqb keyword "class" then Some DkClass else if String.eqb keyword "trait" then Some DkTrait
  else if String.eqb keyword "impl" then Some DkImpl else if String.eqb keyword "const" then Some DkConst
  else if existsb (String.eqb keyword) ["static"; "type"; "import"] then Some DkOther
  else None.

Definition locate_top_level_decl (bytes : text) (start : nat) : result (option (SurfaceDeclKind * text * nat)) CompileError :=
  if starts_with_keyword bytes start "extern" then
    let? decl_end := find_declaration_end bytes start in Ok (Some (DkOther, chars "extern", decl_end))
  else if starts_with_keyword bytes start "def" then
    let cursor := skip_ws_and_comments bytes (skip_ident bytes start) in
    match parse_ident_range bytes cursor with
    | None => Err (parse_error "expected function name after `def`")
    | Some (name_start, name_end) =>
        let? decl_end := find_declaration_end bytes cursor in Ok (Some (DkFunction, sub_text name_start name_end bytes, decl_end))
    end
  else
    match parse_ident_range bytes start with
    | None => Ok None
    | Some (kw_start, kw_end) =>
        let keyword := sub_text kw_start kw_end bytes in
        match kind_of_keyword (str keyword) with
        | None => Ok None
        | Some kind =>
            let cursor := skip_ws_and_comments bytes kw_end in
            let? name :=
              (if decide (kind = DkImpl) then Ok (chars "impl")
               else match parse_ident_range bytes cursor with
                    | Some (name_start, name_end) => Ok (sub_text name_start name_end bytes)
                    | None => Err (parse_error (quoted_name "expected name after " keyword EmptyString))
                    end) in
            let? decl_end := find_declaration_end bytes kw_start in Ok (Some (kind, name, decl_end))
        end
    end.

(** ** Evaluating attributes *)

Definition record_deprecated (kind : SurfaceDeclKind) (name : text) (metadata : DeprecatedMetadata) (state : AttributeState) :
    AttributeState :=
  (fun deprecated => deprecated ++ [mkDeprecatedDecl name (decl_kind_label kind) (md_message metadata) (md_replacement metadata)
                                      (md_removal metadata)]) <$> state.

Section expander.
Context (host : HostOs) (features : list text).

(** The attributes in order: is [cfg] true, the ranges to blank, the record. *)
Fixpoint evaluate_loop (attrs : list ParsedAttributeSpan) (decl_kind : SurfaceDeclKind) (decl_name : text) (decl_start : nat)
    (cfg_enabled : bool) (mask_ranges : list (nat * nat)) (state : AttributeState) :
    result (bool * list (nat * nat)) CompileError * AttributeState :=
  match attrs with
  | [] => (Ok (cfg_enabled, mask_ranges), state)
  | (start, end_, attr) :: attrs =>
      let range := (start - decl_start, end_ - decl_start) in
      match attr with
      | PaDerive =>
          if negb (allows_derive decl_kind)
          then (Err (attribute_error start "derive attribute is only supported on struct/enum/class declarations"), state)
          else evaluate_loop attrs decl_kind decl_name decl_start cfg_enabled mask_ranges state
      | PaCfg predicate =>
          if negb (allows_cfg decl_kind)
          then (Err (attribute_error start ("cfg attribute is not supported on `" +:+ decl_kind_label decl_kind +:+ "` declarations")), state)
          else evaluate_loop attrs decl_kind decl_name decl_start (cfg_enabled && cfg_predicate_matches host features predicate)
                 (mask_ranges ++ [range]) state
      | PaDeprecated metadata =>
          if negb (allows_deprecated decl_kind)
          then (Err (attribute_error start ("deprecated attribute is not supported on `" +:+ decl_kind_label decl_kind +:+ "` declarations")), state)
          else evaluate_loop attrs decl_kind decl_name decl_start cfg_enabled (mask_ranges ++ [range])
                 (record_deprecated decl_kind decl_name metadata state)
      | PaUnsupported name span_start =>
          (Err (attribute_error span_start (quoted_name "unsupported attribute " name EmptyString)), state)
      end
  end.

Definition evaluate_attributes (attrs : list ParsedAttributeSpan) (decl_kind : SurfaceDeclKind) (decl_name : text)
    (decl_start : nat) (state : AttributeState) : result AttributeAction CompileError * AttributeState :=
  let '(r, state) := evaluate_loop attrs decl_kind decl_name decl_start true [] state in
  (let? evaluated := r in
   let '(cfg_enabled, mask_ranges) := evaluated in Ok (if cfg_enabled : bool then Keep mask_ranges else Remove), state).

Definition masked_byte (c : ascii) : ascii := if Ascii.eqb c NEWLINE || Ascii.eqb c "013" then c else " "%char.

(** The ranges from [pos] on. *)
Fixpoint masked_from (decl_slice : text) (pos : nat) (mask_ranges : list (nat * nat)) : text :=
  match mask_ranges with
  | [] => drop pos decl_slice
  | (start, end_) :: ranges =>
      sub_text pos start decl_slice ++ map masked_byte (sub_text start end_ decl_slice) ++ masked_from decl_slice end_ ranges
  end.
Definition append_decl_with_masked_attrs (output decl_slice : text) (mask_ranges : list (nat * nat)) : text :=
  output ++ masked_from decl_slice 0 mask_ranges.

(** One declaration, from a position behind white space and comments. *)
Definition attribute_step (bytes : text) (decl_start : nat) (output : text) (state : AttributeState) :
    option (result (nat * text) CompileError * AttributeState) :=
  let decl_cursor := skip_visibility bytes (skip_attribute_regions bytes decl_start) in
  let decl_cursor := skip_keyword bytes (skip_keyword bytes decl_cursor "unsafe") "async" in
  if starts_with_keyword bytes decl_cursor "extern" then
    match find_declaration_end bytes decl_cursor with
    | Err e => Some (Err e, state)
    | Ok decl_end => Some (Ok (decl_end, output ++ sub_text decl_start decl_end bytes), state)
    end
  else
    match collect_leading_attributes bytes decl_start with
    | None => None
    | Some (Err e) => Some (Err e, state)
    | Some (Ok (attrs, cursor)) =>
        let cursor := skip_keyword bytes (skip_keyword bytes (skip_visibility bytes cursor) "unsafe") "async" in
        match locate_top_level_decl bytes cursor with
        | Err e => Some (Err e, state)
        | Ok None =>
            match bytes !! cursor with
            | Some c => Some (Ok (S cursor, output ++ [c]), state)
            | None => None
            end
        | Ok (Some (decl_kind, name, decl_end)) =>
            if decide (decl_kind = DkOther) then Some (Ok (decl_end, output ++ sub_text decl_start decl_end bytes), state) else
            match evaluate_attributes attrs decl_kind name decl_start state with
            | (Err e, state) => Some (Err e, state)
            | (Ok (Keep mask_ranges), state) =>
                Some (Ok (decl_end, append_decl_with_masked_attrs output (sub_text decl_start decl_end bytes) mask_ranges), state)
            | (Ok Remove, state) => Some (Ok (decl_end, output), state)
            end
        end
    end.

Definition process_surface_attributes (bytes : text) (state : AttributeState) : option (result text CompileError * AttributeState) :=
  if negb (contains ["#"%char] bytes) then Some (Ok bytes, state) else
  let finish (output : text) (emitted_to : nat) (state : AttributeState) :=
    let output := if Nat.ltb emitted_to (List.length bytes) then output ++ drop emitted_to bytes else output in
    Some (if from_utf8 output then Ok output else Err (parse_error "attribute expansion produced invalid utf-8"), state) in
  while_bytes (List.length bytes)
    (fun ws_start '(output, emitted_to, state) =>
       let cursor := skip_ws_and_comments bytes ws_start in
       if Nat.leb (List.length bytes) cursor then inr (finish (output ++ drop emitted_to bytes) emitted_to state) else
       let output := output ++ sub_text emitted_to ws_start bytes ++ sub_text ws_start cursor bytes in
       match attribute_step bytes cursor output state with
       | None => inr None
       | Some (Err e, state) => inr (Some (Err e, state))
       | Some (Ok (next, output), state) => inl (next, (output, next, state))
       end)
    (fun _ '(output, emitted_to, state) => finish output emitted_to state)
    0 ([], 0, reset_state).
End expander.
