(* ===== verification/DeriveExpander.v ===== *)
(** Derives: compiler/src/parser/derive_expander.rs.

    [derive] attributes are blanked, and what they generate is inserted behind
    the declaration.  The environment and the commands it names are parameters,
    and so is the scanner for texts that no pattern matches. *)

From S2P Require Import Prelude Strs Sorting Ast Token Parser ParserDecl Scanner ExpandText MacroExpander AttributeExpander.
From Stdlib Require Import Ascii String.

#[local] Open Scope string_scope.
#[local] Open Scope list_scope.

#[local] Notation text := (list ascii) (only parsing).
#[local] Notation chars := list_ascii_of_string (only parsing).
#[local] Notation str := string_of_list_ascii (only parsing).

Inductive DeriveTargetKind := TkdStruct | TkdEnum | TkdClass.
#[export] Instance DeriveTargetKind_eq_dec : EqDecision DeriveTargetKind.
Proof. solve_decision. Defined.
Definition target_kind_str (kind : DeriveTargetKind) : string :=
  match kind with TkdStruct => "struct" | TkdEnum => "enum" | TkdClass => "class" end.

Record DeriveField := mkDeriveField { df_name : string; df_ty : string }.
Record DeriveTarget := mkDeriveTarget {
  dt_name : string; dt_kind : DeriveTargetKind; dt_insert_after : nat; dt_fields : list DeriveField }.
Record DeriveInvocation := mkDeriveInvocation { di_derives : list string; di_target : DeriveTarget }.

Definition derive_balanced : text -> nat -> ascii -> ascii -> result (nat * nat * nat) CompileError :=
  parse_balanced "unbalanced delimiters in derive attribute".

(** ** Paths *)

Fixpoint split_path (segment s : text) : list text :=
  match s with
  | ":"%char :: ":"%char :: r => segment :: split_path [] r
  | c :: r => split_path (segment ++ [c]) r
  | [] => [segment]
  end.
Definition is_path (value : text) : bool := forallb is_ident (split_path [] value).

(** What comes behind the last [::]. *)
Definition last_segment (path : string) : string :=
  match find_text (chars "::") (rev (chars path)) with
  | Some k => str (rev (take k (rev (chars path))))
  | None => path
  end.

(** ** Attributes *)

Fixpoint derive_items (items : list text) : result (list string) CompileError :=
  match items with
  | [] => Ok []
  | item :: items =>
      match trimmed item with
      | [] => derive_items items
      | t =>
          if negb (is_path t) then
            Err (parse_error (quoted_name "invalid derive macro path " t "; expected identifiers separated by `::`"))
          else let? derives := derive_items items in Ok (str t :: derives)
      end
  end.
Definition parse_derive_list (value : text) : result (list string) CompileError :=
  let? derives := derive_items (split_on 44 value) in
  match derives with [] => Err (parse_error "derive attribute requires at least one macro") | _ => Ok derives end.

Definition parse_derive_attribute (bytes : text) (start : nat) : result (option (list string * nat)) CompileError :=
  if negb (byte_is bytes start "#") then Ok None else
  let cursor := skip_ws bytes (S start) in
  if negb (byte_is bytes cursor "[") then Ok None else
  match parse_ident_range bytes (skip_ws bytes (S cursor)) with
  | None => Ok None
  | Some (name_start, name_end) =>
      if negb (String.eqb (str (sub_text name_start name_end bytes)) "derive") then Ok None else
      let cursor := skip_ws bytes name_end in
      if negb (byte_is bytes cursor "(") then Err (parse_error "`#[derive(...)]` requires parentheses") else
      let? list := derive_balanced bytes cursor "(" ")" in
      let '(list_start, list_end, after_list) := list in
      let? derives := parse_derive_list (sub_text list_start list_end bytes) in
      let cursor := skip_ws bytes after_list in
      if negb (byte_is bytes cursor "]") then Err (parse_error "`#[derive(...)]` is missing closing `]`")
      else Ok (Some (derives, S cursor))
  end.

(** ** Targets *)

Definition find_derive_declaration_end (bytes : text) (start : nat) : result nat CompileError :=
  while_bytes (List.length bytes)
    (fun i _ =>
       match skip_trivia bytes i with
       | Some next => inl (next, tt)
       | None =>
           if byte_is bytes i "{" then
             inr (match derive_balanced bytes i "{" "}" with Ok (_, _, after) => Ok after | Err e => Err e end)
           else if byte_is bytes i "(" then
             inr (match derive_balanced bytes i "(" ")" with
                  | Err e => Err e
                  | Ok (_, _, after_paren) =>
                      let after := skip_ws_and_comments bytes after_paren in
                      Ok (if byte_is bytes after ";" then S after else after_paren)
                  end)
           else if byte_is bytes i ";" then inr (Ok (S i))
           else inl (S i, tt)
       end)
    (fun _ _ => Err (parse_error "failed to locate end of declaration for derive target")) start tt.

Definition split_top_level_commas (value : text) : list text :=
  while_bytes (List.length value)
    (fun i '(parts, start, depth) =>
       match skip_quoted_literal value i with
       | Some next => inl (next, (parts, start, depth))
       | None =>
           let c := byte_at value i in
           if existsb (Ascii.eqb c) ["<"; "("; "["; "{"]%char then inl (S i, (parts, start, S depth))
           else if existsb (Ascii.eqb c) [">"; ")"; "]"; "}"]%char then inl (S i, (parts, start, pred depth))
           else if Ascii.eqb c "," && Nat.eqb depth 0 then inl (S i, (parts ++ [sub_text start i value], S i, depth))
           else inl (S i, (parts, start, depth))
       end)
    (fun _ '(parts, start, _) => parts ++ [drop start value]) 0 ([], 0, 0).

(** [trim_start] *)
Definition trimmed_left (s : text) : text := map Ascii.ascii_of_nat (trim_start (map Ascii.nat_of_ascii s)).

Definition derive_field (raw_field : text) : option DeriveField :=
  match trimmed raw_field with
  | [] => None
  | t =>
      let field := trimmed_left (default t (strip_prefix (chars "pub ") t)) in
      match split_once_at ":" field with
      | None => None
      | Some (name, ty) => if is_ident (trimmed name) then Some (mkDeriveField (str (trimmed name)) (str (trimmed ty))) else None
      end
  end.

Definition parse_struct_fields (bytes : text) (from : nat) : result (list DeriveField) CompileError :=
  let cursor := skip_ws_and_comments bytes from in
  let? cursor :=
    (if byte_is bytes cursor "<"
     then let? generics := derive_balanced bytes cursor "<" ">" in Ok (skip_ws_and_comments bytes generics.2)
     else Ok cursor) in
  if negb (byte_is bytes cursor "{") then Ok [] else
  let? body := derive_balanced bytes cursor "{" "}" in
  let '(body_start, body_end, _) := body in
  Ok (omap derive_field (split_top_level_commas (sub_text body_start body_end bytes))).

(** Over further attributes. *)
Definition skip_attributes (bytes : text) (from : nat) : result nat CompileError :=
  while_bytes (List.length bytes)
    (fun cursor _ =>
       if negb (byte_is bytes cursor "#") then inr (Ok cursor) else
       let attr := skip_ws bytes (S cursor) in
       if negb (byte_is bytes attr "[") then inr (Ok cursor) else
       match derive_balanced bytes attr "[" "]" with
       | Err e => inr (Err e)
       | Ok (_, _, after_attr) => inl (skip_ws_and_comments bytes after_attr, tt)
       end)
    (fun cursor _ => Ok cursor) (skip_ws_and_comments bytes from) tt.

Definition skip_pub (bytes : text) (cursor : nat) : result nat CompileError :=
  match parse_ident_range bytes cursor with
  | Some (kw_start, kw_end) =>
      if String.eqb (str (sub_text kw_start kw_end bytes)) "pub" then
        let cursor := skip_ws_and_comments bytes kw_end in
        if byte_is bytes cursor "(" then
          let? vis := derive_balanced bytes cursor "(" ")" in Ok (skip_ws_and_comments bytes vis.2)
        else Ok cursor
      else Ok cursor
  | None => Ok cursor
  end.

Definition find_derive_target (bytes : text) (from : nat) : result DeriveTarget CompileError :=
  let? cursor := skip_attributes bytes from in
  let? cursor := skip_pub bytes cursor in
  match parse_ident_range bytes cursor with
  | None => Err (parse_error "derive attribute must be followed by a declaration")
  | Some (kind_start, kind_end) =>
      let found := sub_text kind_start kind_end bytes in
      let? kind :=
        (if String.eqb (str found) "struct" then Ok TkdStruct
         else if String.eqb (str found) "enum" then Ok TkdEnum
         else if String.eqb (str found) "class" then Ok TkdClass
         else Err (parse_error (quoted_name "derive attribute is only supported on struct/enum/class declarations, found " found EmptyString))) in
      match parse_ident_range bytes (skip_ws_and_comments bytes kind_end) with
      | None => Err (parse_error "failed to resolve derive target type name")
      | Some (name_start, name_end) =>
          let? insert_after := find_derive_declaration_end bytes kind_start in
          let? fields := (if decide (kind = TkdStruct) then parse_struct_fields bytes name_end else Ok []) in
          Ok (mkDeriveTarget (str (sub_text name_start name_end bytes)) kind insert_after fields)
      end
  end.

Definition mask_removed_attribute : text -> text := map masked_byte.

Definition collect_derive_invocations (bytes : text) : result (text * list DeriveInvocation) CompileError :=
  while_bytes (List.length bytes)
    (fun i '(output, invocations, last_copy) =>
       let on := inl (S i, (output, invocations, last_copy)) in
       if byte_is bytes i "#" then
         match parse_derive_attribute bytes i with
         | Err e => inr (Err e)
         | Ok None => on
         | Ok (Some (derives, attr_end)) =>
             match find_derive_target bytes attr_end with
             | Err e => inr (Err e)
             | Ok target =>
                 inl (attr_end, (output ++ sub_text last_copy i bytes ++ mask_removed_attribute (sub_text i attr_end bytes),
                                 invocations ++ [mkDeriveInvocation derives target], attr_end))
             end
         end
       else on)
    (fun _ '(output, invocations, last_copy) =>
       let output := output ++ drop last_copy bytes in
       if from_utf8 output then Ok (output, invocations) else Err (parse_error "derive expansion produced invalid utf-8"))
    0 ([], [], 0).

(** ** What a derive generates *)

Definition nl : string := String NEWLINE EmptyString.
Definition join_lines_of : list string -> string := String.concat nl.

Definition INTEGER_NAMES : list string :=
  ["i8"; "i16"; "i32"; "i64"; "i128"; "isize"; "u8"; "u16"; "u32"; "u64"; "u128"; "usize"].
Definition is_one_of (names : list string) (s : string) : bool := existsb (String.eqb s) names.

Definition type_is_copy_scalar (ty : string) : bool := is_one_of (["bool"; "char"; "f64"; "f32"] ++ INTEGER_NAMES) (trim ty).

Definition clone_expr_for_field (field : DeriveField) : string :=
  if type_is_copy_scalar (df_ty field) then "self." +:+ df_name field else "self." +:+ df_name field +:+ ".clone()".

Definition default_expr_for_type (ty : string) : string :=
  let ty := trim ty in
  if String.eqb ty "bool" then "false"
  else if is_one_of ["f64"; "f32"] ty then "0.0"
  else if String.eqb ty "char" then "'\0'"
  else if is_one_of INTEGER_NAMES ty then "0"
  else if is_ident (chars ty) then ty +:+ "::default()"
  else "0".

Definition lexicographic_compare_body (fields : list DeriveField) : string :=
  match fields with
  | [] => "        0"
  | _ =>
      join_lines_of
        (flat_map (fun field =>
           ["        if self." +:+ df_name field +:+ " < other." +:+ df_name field +:+ " {";
            "            return -1;"; "        }";
            "        if self." +:+ df_name field +:+ " > other." +:+ df_name field +:+ " {";
            "            return 1;"; "        }"]) fields ++ ["        0"])
  end.

Definition hash_into_body (fields : list DeriveField) : string :=
  match fields with
  | [] => "        h.write_i64(0);"
  | _ =>
      join_lines_of
        (map (fun field =>
           let ty := trim (df_ty field) in
           if String.eqb ty "bool" then "        h.write_bool(self." +:+ df_name field +:+ ");"
           else if is_one_of ("char" :: INTEGER_NAMES) ty then "        h.write_i64(self." +:+ df_name field +:+ ");"
           else "        self." +:+ df_name field +:+ ".hash_into(h);") fields)
  end.

Definition hash_expr_for_field (field : DeriveField) : string :=
  let ty := trim (df_ty field) in
  if String.eqb ty "bool" then "if self." +:+ df_name field +:+ " { 1 } else { 0 }"
  else if is_one_of ("char" :: INTEGER_NAMES) ty then "self." +:+ df_name field
  else "self." +:+ df_name field +:+ ".hash()".

Definition hash_body (fields : list DeriveField) : string :=
  join_lines_of
    ("        let mut h = 1469598103934665603;" ::
     map (fun field => "        h = (h * 1099511628211) + " +:+ hash_expr_for_field field +:+ ";") fields ++ ["        h"]).

Definition core_derive_trait_name (derive : string) : option string :=
  let name := last_segment derive in
  if is_one_of ["Clone"; "Copy"; "PartialEq"; "Eq"; "PartialOrd"; "Ord"; "Hash"; "Debug"; "Default"] name then Some name else None.

(** Over the bytes; every character that is not ASCII becomes underscores, and
    runs of underscores become one. *)
Definition to_lower (c : ascii) : ascii := if is_ascii_uppercase c then of_byte (byte_of c + 32) else c.
Definition to_upper (c : ascii) : ascii := if is_ascii_lowercase c then of_byte (byte_of c - 32) else c.
Fixpoint collapse (prev_underscore : bool) (s : text) : text :=
  match s with
  | [] => []
  | c :: s =>
      if Ascii.eqb c "_" then if prev_underscore then collapse true s else c :: collapse true s
      else c :: collapse false s
  end.
Definition sanitize_ident (value : string) : string :=
  let result := map (fun c => if is_ascii_alphanumeric c then to_lower c else "_"%char) (chars value) in
  let is_underscore := Ascii.eqb "_" in
  let sanitized := rev (drop_while is_underscore (rev (drop_while is_underscore (collapse false result)))) in
  match sanitized with
  | [] => "derived"
  | c :: _ => if is_ident_start c then str sanitized else "d" +:+ str sanitized
  end.
Definition to_env_macro_key (value : string) : string :=
  str (map (fun c => if is_ascii_alphanumeric c then to_upper c else "_"%char) (chars value)).

Definition derive_clone (target : DeriveTarget) : string :=
  let name := dt_name target in
  let fields := String.concat ", " (map (fun field => df_name field +:+ ": " +:+ clone_expr_for_field field) (dt_fields target)) in
  join_lines_of ["impl Clone for " +:+ name +:+ " {"; "}"; "impl " +:+ name +:+ " {"; "    def clone(&self) -> " +:+ name +:+ " {";
    "        " +:+ name +:+ " { " +:+ fields +:+ " }"; "    }"; "}"].

Definition derive_partial_eq (target : DeriveTarget) : string :=
  let name := dt_name target in
  let body := match dt_fields target with
              | [] => "true"
              | fields => String.concat " && " (map (fun field => "self." +:+ df_name field +:+ " == other." +:+ df_name field) fields)
              end in
  join_lines_of ["impl PartialEq for " +:+ name +:+ " {"; "}"; "impl " +:+ name +:+ " {";
    "    def eq(&self, other: &" +:+ name +:+ ") -> bool {"; "        " +:+ body; "    }"; "}"].

Definition derive_ordering (derive_name : string) (target : DeriveTarget) (derives : list string) : string :=
  let name := dt_name target in
  let has_partial_ord := existsb (fun item => String.eqb (last_segment item) "PartialOrd") derives in
  if String.eqb derive_name "Ord" && has_partial_ord then join_lines_of ["impl Ord for " +:+ name +:+ " {"; "}"] else
  let impls := if String.eqb derive_name "PartialOrd" then "impl PartialOrd for " +:+ name +:+ " {" else "impl Ord for " +:+ name +:+ " {" in
  let method op sign := ["    def " +:+ op +:+ "(&self, other: &" +:+ name +:+ ") -> bool {";
                         "        self.compare(other) " +:+ sign +:+ " 0"; "    }"] in
  join_lines_of ([impls; "}"; "impl " +:+ name +:+ " {"; "    def compare(&self, other: &" +:+ name +:+ ") -> i64 {";
                  lexicographic_compare_body (dt_fields target); "    }"] ++
                 method "lt" "<" ++ method "le" "<=" ++ method "gt" ">" ++ method "ge" ">=" ++ ["}"]).

Definition derive_hash (target : DeriveTarget) (hasher_in_scope : bool) : string :=
  let name := dt_name target in
  if hasher_in_scope then
    join_lines_of ["impl Hash for " +:+ name +:+ " {"; "    def hash_into(&self, h: &mut Hasher) {"; hash_into_body (dt_fields target);
      "    }"; "}"; "impl " +:+ name +:+ " {"; "    def hash(&self) -> i64 {"; "        let mut __hasher = hasher_new();";
      "        self.hash_into(&mut __hasher);"; "        __hasher.finish()"; "    }"; "}"]
  else
    join_lines_of ["impl Hash for " +:+ name +:+ " {"; "    def hash(&self) -> i64 {"; hash_body (dt_fields target); "    }"; "}";
      "impl " +:+ name +:+ " {"; "    def hash(&self) -> i64 {"; hash_body (dt_fields target); "    }"; "}"].

Definition derive_default (target : DeriveTarget) : string :=
  let name := dt_name target in
  let fields := String.concat ", " (map (fun field => df_name field +:+ ": " +:+ default_expr_for_type (df_ty field)) (dt_fields target)) in
  join_lines_of ["impl Default for " +:+ name +:+ " {"; "}"; "impl " +:+ name +:+ " {"; "    def default() -> " +:+ name +:+ " {";
    "        " +:+ name +:+ " { " +:+ fields +:+ " }"; "    }"; "}"].

Definition generate_builtin_derive (derive : string) (target : DeriveTarget) (derives : list string) (hasher_in_scope : bool) : string :=
  let segment := last_segment derive in
  let name := dt_name target in
  let is_struct := bool_decide (dt_kind target = TkdStruct) in
  if String.eqb segment "Clone" && is_struct then derive_clone target
  else if String.eqb segment "PartialEq" && is_struct then derive_partial_eq target
  else if is_one_of ["PartialOrd"; "Ord"] segment && is_struct then derive_ordering segment target derives
  else if String.eqb segment "Hash" && is_struct then derive_hash target hasher_in_scope
  else if String.eqb segment "Default" && is_struct then derive_default target
  else if String.eqb segment "Debug" then
    join_lines_of ["impl Debug for " +:+ name +:+ " {"; "    def __derived_debug_marker(&self) -> i64 {"; "        1"; "    }"; "}"]
  else
    match core_derive_trait_name derive with
    | Some trait_name => join_lines_of ["impl " +:+ trait_name +:+ " for " +:+ name +:+ " {"; "}"]
    | None =>
        join_lines_of ["impl " +:+ name +:+ " {"; "    def __derive_" +:+ sanitize_ident derive +:+ "(self) -> i64 {"; "        1"; "    }"; "}"]
    end.

(** ** Expansion *)

Definition source_provides_hasher (source : text) : bool :=
  contains (chars "struct Hasher") source || contains (chars "def hasher_new") source || contains (chars "import std::string") source.

(** How a command ended: it could not be run, or it wrote this. *)
Inductive CommandOutcome := CouldNotRun (e : string) | Ran (success : bool) (stdout stderr : list Z).

Section derives.
Context (env : string -> option string) (command_outcome : string -> string -> DeriveTarget -> CommandOutcome).

Definition is_blank_text (s : string) : bool := String.eqb (trim s) EmptyString.

Definition run_external_derive (command derive : string) (target : DeriveTarget) : result string CompileError :=
  match command_outcome command derive target with
  | CouldNotRun e => Err (parse_error ("failed to execute derive macro command `" +:+ command +:+ "` for `" +:+ derive +:+ "`: " +:+ e))
  | Ran false _ stderr =>
      Err (parse_error ("derive macro command `" +:+ command +:+ "` failed for `" +:+ derive +:+ "`: " +:+
                        str (utf8_lossy (List.length stderr) stderr)))
  | Ran true stdout _ =>
      let generated := map of_byte stdout in
      if negb (from_utf8 generated) then Err (parse_error ("derive macro `" +:+ derive +:+ "` output is not valid utf-8"))
      else if is_blank_text (str generated) then
        Err (parse_error ("derive macro `" +:+ derive +:+ "` command `" +:+ command +:+ "` returned empty output"))
      else Ok (str generated)
  end.

Definition execute_derive_macro (derive : string) (target : DeriveTarget) (derives : list string) (hasher_in_scope : bool) :
    result string CompileError :=
  match env ("SENGOO_DERIVE_" +:+ to_env_macro_key derive) with
  | Some command =>
      if is_blank_text command then Ok (generate_builtin_derive derive target derives hasher_in_scope)
      else run_external_derive command derive target
  | None => Ok (generate_builtin_derive derive target derives hasher_in_scope)
  end.

Fixpoint insertions_of (derives all : list string) (target : DeriveTarget) (hasher_in_scope : bool) :
    result (list (nat * text)) CompileError :=
  match derives with
  | [] => Ok []
  | derive :: derives =>
      let? generated := execute_derive_macro derive target all hasher_in_scope in
      if is_blank_text generated then
        Err (parse_error ("derive macro `" +:+ derive +:+ "` generated empty output for " +:+ target_kind_str (dt_kind target) +:+
                          " `" +:+ dt_name target +:+ "`"))
      else
        let? insertions := insertions_of derives all target hasher_in_scope in
        Ok ((dt_insert_after target, NEWLINE :: chars generated ++ [NEWLINE]) :: insertions)
  end.
Fixpoint all_insertions (invocations : list DeriveInvocation) (hasher_in_scope : bool) : result (list (nat * text)) CompileError :=
  match invocations with
  | [] => Ok []
  | invocation :: invocations =>
      let? insertions := insertions_of (di_derives invocation) (di_derives invocation) (di_target invocation) hasher_in_scope in
      let? rest := all_insertions invocations hasher_in_scope in
      Ok (insertions ++ rest)
  end.

Fixpoint insert_snippets (insertions : list (nat * text)) (offset : nat) (expanded : text) : result text CompileError :=
  match insertions with
  | [] => Ok expanded
  | (pos, snippet) :: insertions =>
      let insert_at := pos + offset in
      if Nat.ltb (List.length expanded) insert_at then Err (parse_error "internal derive expansion error: insertion index out of bounds")
      else insert_snippets insertions (offset + List.length snippet) (take insert_at expanded ++ snippet ++ drop insert_at expanded)
  end.

Context (lex : string -> list Token).

(** [Parser::new] and [parse_program].  The tokens are enough fuel for a parser
    that reads each once; the texts of f-strings and contracts, which are scanned
    again, lie within the source. *)
Definition parse_text (source : string) (width : Z) : option (result Program CompileError * Parser) :=
  let ts := lex source in
  parse_program lex (parser_at lex (S (List.length ts + String.length source))) (new_with_pointer_width ts source width).

Definition validate_expanded_source (source : string) : option (result unit CompileError) :=
  match parse_text source USIZE_BITS with
  | None => None
  | Some (Err e, _) => Some (Err e)
  | Some (Ok _, parser) =>
      match p_errors parser with
      | _ :: _ => Some (Err (parse_error "post-expansion validation failed for derive output"))
      | [] => Some (Ok tt)
      end
  end.

Definition expand_derive_macros (source : text) : option (result text CompileError) :=
  if negb (contains ["#"%char] source) then Some (Ok source) else
  match collect_derive_invocations source with
  | Err e => Some (Err e)
  | Ok (_, []) => Some (Ok source)
  | Ok (without_attributes, invocations) =>
      let expanded :=
        let? insertions := all_insertions invocations (source_provides_hasher source) in
        insert_snippets (sort_by (fun a b => Nat.leb a.1 b.1) insertions) 0 without_attributes in
      match expanded with
      | Err e => Some (Err e)
      | Ok expanded =>
          match validate_expanded_source (str expanded) with
          | None => None
          | Some (Err e) => Some (Err e)
          | Some (Ok _) => Some (Ok expanded)
          end
      end
  end.
End derives.
