(* ===== verification/Frontend.v ===== *)
(** From a text to a program: [Parser::parse] (compiler/src/parser/mod.rs) with
    the two passes over the parsed program (formatter_protocol.rs and
    hasher_protocol.rs).

    Macros are expanded, attributes processed, derives expanded, the text is
    scanned and parsed, and methods are added to some impls.  [None] is a panic,
    or fuel of the parser that was not enough. *)

From S2P Require Import Prelude Strs Ast Token Parser ParserDecl Scanner ExpandText MacroExpander AttributeExpander DeriveExpander.
From Stdlib Require Import Ascii String.

#[local] Open Scope string_scope.
#[local] Open Scope list_scope.

#[local] Notation text := (list ascii) (only parsing).
#[local] Notation chars := list_ascii_of_string (only parsing).
#[local] Notation str := string_of_list_ascii (only parsing).

(** ** Protocols *)

Definition SYNTH_TO_STRING_SNIPPET : string :=
  join_lines_of [EmptyString; "impl Display for __FormatterProtocolTarget {"; "    def to_string(&self) -> String {";
    "        let mut __formatter = formatter_new();"; "        self.fmt(&mut __formatter);"; "        __formatter.finish()"; "    }"; "}";
    EmptyString].
Definition SYNTH_HASH_SNIPPET : string :=
  join_lines_of [EmptyString; "impl Hash for __HasherProtocolTarget {"; "    def hash(&self) -> i64 {";
    "        let mut __hasher = hasher_new();"; "        self.hash_into(&mut __hasher);"; "        __hasher.finish()"; "    }"; "}";
    EmptyString].

#[local] Arguments im_items {E D}.
#[local] Arguments im_trait_path {E D}.
#[local] Arguments im_target_type {E D}.
#[local] Arguments im_trait_args {E D}.
#[local] Arguments im_associated_types {E D}.
#[local] Arguments fn_name {E D}.
#[local] Arguments fn_self_param {E D}.
#[local] Notation AFunction := (Function_ Expr Decl).
#[local] Notation AImpl := (Impl Expr Decl).

Section frontend.
Context (lex : string -> list Token).

(** The first function of the first impl of [decls] that has one. *)
Definition first_impl_function (decls : list Decl) : option AFunction :=
  head (omap (fun d => match decl_kind d with DImpl _ _ i => head (im_items i) | _ => None end) decls).

Definition parse_synth (snippet internal_error : string) : option (result AFunction CompileError) :=
  match parse_text lex snippet USIZE_BITS with
  | None => None
  | Some (Err e, _) => Some (Err e)
  | Some (Ok program, _) =>
      match first_impl_function (program_decls program) with
      | Some f => Some (Ok f)
      | None => Some (Err (CHirLower internal_error))
      end
  end.
Definition parse_synth_to_string : option (result AFunction CompileError) :=
  parse_synth SYNTH_TO_STRING_SNIPPET "internal error: formatter protocol to_string template failed to parse".
Definition parse_synth_hash : option (result AFunction CompileError) :=
  parse_synth SYNTH_HASH_SNIPPET "internal error: hasher protocol hash template failed to parse".

Section protocol.
Context (traits : list string) (has lacks : string) (template : option (result AFunction CompileError)).

(** The impl is of one of the traits, has the one method and lacks the other. *)
Definition wants (i : AImpl) : bool :=
  match im_trait_path i ≫= as_simple with
  | Some ident =>
      is_one_of traits (ident_name ident) &&
      existsb (fun item => String.eqb (ident_name (fn_name item)) has && is_some (fn_self_param item)) (im_items i) &&
      negb (existsb (fun item => String.eqb (ident_name (fn_name item)) lacks) (im_items i))
  | None => false
  end.

Definition add_item (i : AImpl) (f : AFunction) : AImpl :=
  mkImpl _ _ (im_vis _ _ i) (im_type_params _ _ i) (im_target_type i) (im_trait_path i) (im_trait_args i) (im_is_negative _ _ i)
    (im_associated_types i) (im_items i ++ [f]) (im_span _ _ i).

Fixpoint synthesize (decls : list Decl) : option (result (list Decl) CompileError) :=
  match decls with
  | [] => Some (Ok [])
  | d :: decls =>
      let go (d : Decl) :=
        match synthesize decls with
        | Some (Ok rest) => Some (Ok (d :: rest))
        | other => other
        end in
      match d with
      | mkDecl (DImpl _ _ i) span =>
          if wants i then
            match template with
            | None => None
            | Some (Err e) => Some (Err e)
            | Some (Ok f) => go (mkDecl (DImpl _ _ (add_item i f)) span)
            end
          else go d
      | _ => go d
      end
  end.
End protocol.

Definition synthesize_formatter_to_string : list Decl -> option (result (list Decl) CompileError) :=
  synthesize ["Display"; "Debug"] "fmt" "to_string" parse_synth_to_string.
Definition synthesize_hash_from_hash_into : list Decl -> option (result (list Decl) CompileError) :=
  synthesize ["Hash"] "hash_into" "hash" parse_synth_hash.

(** ** Parsing *)

Context (env : string -> option string) (command_outcome : string -> string -> DeriveTarget -> CommandOutcome).
Context (host : HostOs) (features : list text).

Definition parse_expanded (source : string) (width : Z) : option (result Program CompileError) :=
  match parse_text lex source width with
  | None => None
  | Some (Err e, _) => Some (Err e)
  | Some (Ok program, parser) =>
      match p_errors parser with
      | e :: _ => Some (Err (CParse e))
      | [] =>
          match synthesize_formatter_to_string (program_decls program) with
          | None => None
          | Some (Err e) => Some (Err e)
          | Some (Ok decls) =>
              match synthesize_hash_from_hash_into decls with
              | None => None
              | Some (Err e) => Some (Err e)
              | Some (Ok decls) => Some (Ok (mkProgram decls))
              end
          end
      end
  end.

Definition parse_with_pointer_width (source : string) (width : Z) (state : AttributeState) :
    option (result Program CompileError * AttributeState) :=
  if negb ((width =? 32)%Z || (width =? 64)%Z) then
    Some (Err (CInvalidNumber ("unsupported target pointer width `" +:+ pretty.pretty width +:+ "`")), state)
  else
    match expand_declarative_macros (chars source) with
    | Err e => Some (Err e, state)
    | Ok macro_expanded =>
        match process_surface_attributes host features macro_expanded state with
        | None => None
        | Some (Err e, state) => Some (Err e, state)
        | Some (Ok attr_filtered, state) =>
            match expand_derive_macros env command_outcome lex attr_filtered with
            | None => None
            | Some (Err e) => Some (Err e, state)
            | Some (Ok expanded) =>
                match parse_expanded (str expanded) width with
                | None => None
                | Some r => Some (r, state)
                end
            end
        end
    end.

Definition parse (source : string) (state : AttributeState) : option (result Program CompileError * AttributeState) :=
  parse_with_pointer_width source USIZE_BITS state.
End frontend.
