(* ===== verification/ExpandInv.v ===== *)
(** What the text expanders keep: every loop moves its cursor on, a macro
    expansion leaves no invocation ([macro_expansion_stable]) and a template is
    filled in exactly ([template_filled_in]), and [cfg] predicates are read as
    they are written ([cfg_predicate_read_back]).  Derives are in DeriveInv.v.
    Texts that are changed otherwise than their
    author can mean are at the end. *)

From S2P Require Import Prelude Strs Sorting Ast Token Parser ParserDecl Scanner ScannerInv ExpandText MacroExpander AttributeExpander DeriveExpander Frontend.
From Stdlib Require Import Ascii String Sorted.

#[local] Open Scope string_scope.
#[local] Open Scope list_scope.

#[local] Notation text := (list ascii) (only parsing).
#[local] Notation chars := list_ascii_of_string (only parsing).
#[local] Notation str := string_of_list_ascii (only parsing).

(** ** Loops *)

Section while_facts.
Context {A R : Type} (len : nat) (step : nat -> A -> (nat * A) + R) (exit : nat -> A -> R).

Definition advances : Prop := forall i a i' a', i < len -> step i a = inl (i', a') -> i < i'.

Lemma run_while_fuel f1 f2 i a : advances -> len - i <= f1 -> len - i <= f2 ->
  run_while len step exit f1 i a = run_while len step exit f2 i a.
Proof.
  intros Ha. revert f2 i a. induction f1 as [|f1 IH]; intros [|f2] i a H1 H2; cbn [run_while]; try done;
    destruct (Nat.leb_spec len i) as [|Hi]; try done; try lia.
  destruct (step i a) as [[i' a']|r] eqn:E; [|done]. apply Ha in E; [|done]. apply IH; lia.
Qed.

Lemma while_bytes_eq i a : advances ->
  while_bytes len step exit i a =
    if Nat.leb len i then exit i a else match step i a with inl (i', a') => while_bytes len step exit i' a' | inr r => r end.
Proof.
  intros Ha. unfold while_bytes at 1. destruct (Nat.leb_spec len i) as [Hi|Hi].
  - by replace (len - i) with 0 by lia.
  - replace (len - i) with (S (len - S i)) by lia. cbn [run_while]. rewrite (proj2 (Nat.leb_gt len i)) by done.
    destruct (step i a) as [[i' a']|r] eqn:E; [|done]. apply Ha in E; [|done]. apply run_while_fuel; [done|lia|lia].
Qed.

(** An invariant of the loop. *)
Lemma while_ind (P : nat -> A -> Prop) (Q : R -> Prop) i a :
  (forall i a, len <= i -> P i a -> Q (exit i a)) ->
  (forall i a, i < len -> P i a -> match step i a with inl (i', a') => i < i' /\ P i' a' | inr r => Q r end) ->
  P i a -> Q (while_bytes len step exit i a).
Proof.
  intros He Hs. unfold while_bytes. remember (len - i) as f eqn:Ef. assert (len - i <= f) as Hf by lia. clear Ef. revert i a Hf.
  induction f as [|f IH]; intros i a Hf HP; cbn [run_while]; [apply He; [lia|done]|].
  destruct (Nat.leb_spec len i) as [|Hi]; [by apply He|]. specialize (Hs i a Hi HP).
  destruct (step i a) as [[i' a']|r]; [|done]. destruct Hs as [Hlt HP']. apply IH; [lia|done].
Qed.
End while_facts.

(** ** Cursors *)

Lemma sub_text_take a b s : a <= b -> take a s ++ sub_text a b s = take b s.
Proof. intros Hab. unfold sub_text. rewrite take_take_drop. f_equal. lia. Qed.

Lemma take_S_byte i (s : text) : i < List.length s -> take i s ++ [byte_at s i] = take (S i) s.
Proof.
  intros Hi. destruct (lookup_lt_is_Some_2 s i Hi) as [c Hc]. unfold byte_at. rewrite Hc. by rewrite (take_S_r _ _ _ Hc).
Qed.

Lemma skip_ws_le bytes i : i <= skip_ws bytes i /\ (i <= List.length bytes -> skip_ws bytes i <= List.length bytes).
Proof. unfold skip_ws. pose proof (run_length_le is_ws (drop i bytes)) as H. rewrite length_drop in H. lia. Qed.

Lemma skip_comment_le bytes i next : skip_comment bytes i = Some next -> i + 2 <= next <= List.length bytes.
Proof.
  unfold skip_comment. destruct (bytes !! i) as [c|] eqn:Ec; [|done]. destruct (bytes !! S i) as [d|] eqn:Ed; [|by repeat case_match].
  apply lookup_lt_Some in Ed. repeat case_match; try done; intros [= <-]; try lia.
  - match goal with |- context [run_length ?P ?s] => pose proof (run_length_le P s) as Hr end. rewrite length_drop in Hr. lia.
  - match goal with H : find_text _ _ = Some _ |- _ => apply find_text_le in H; rewrite length_drop in H; simpl in H end. lia.
Qed.

Lemma quoted_skip_le q n : forall s, List.length s <= n -> quoted_skip q s <= List.length s.
Proof.
  induction n as [|n IH]; intros [|c s] Hn; cbn [quoted_skip List.length] in *; try lia.
  repeat case_match; cbn [List.length] in *; try lia.
  - specialize (IH l). lia.
  - specialize (IH s). lia.
Qed.

Lemma skip_fstring_literal_le bytes i next : skip_fstring_literal bytes i = Some next -> i < next <= List.length bytes.
Proof.
  unfold skip_fstring_literal. destruct (bytes !! i); [|done]. destruct (bytes !! S i) eqn:E; [|done]. apply lookup_lt_Some in E.
  case_match; [|done]. replace (i + 2) with (i + 2 + 0) at 1 by lia.
  rewrite (skip_fstring_shift (i + 2) (List.length (drop (i + 2) bytes)) FText FText) by done.
  rewrite (fstring_scanners_agree_at (List.length (drop (i + 2) bytes)) FText 0 [] []) by done.
  destruct (scan_fstring_body _ _ _ _ _) as [[f k]|] eqn:Ef; [|done]. intros [= <-].
  eapply scan_fstring_le in Ef; [|reflexivity]. rewrite length_drop in Ef. simpl. lia.
Qed.

Lemma skip_quoted_le bytes i next : skip_quoted_literal bytes i = Some next -> i < next <= List.length bytes.
Proof.
  unfold skip_quoted_literal. destruct (skip_fstring_literal bytes i) as [n|] eqn:E; [intros [= <-]; by apply skip_fstring_literal_le|].
  destruct (bytes !! i) as [q|] eqn:Eq; [|done]. apply lookup_lt_Some in Eq. case_match; [|done]. intros [= <-].
  pose proof (quoted_skip_le q _ (drop (S i) bytes) (le_n _)) as H'. rewrite length_drop in H'. lia.
Qed.

Lemma skip_trivia_le bytes i next : skip_trivia bytes i = Some next -> i < next <= List.length bytes.
Proof.
  unfold skip_trivia. destruct (skip_quoted_literal bytes i) eqn:E; [intros [= <-]; by apply skip_quoted_le|].
  intros H%skip_comment_le. lia.
Qed.

Lemma skip_ws_and_comments_le bytes i : i <= skip_ws_and_comments bytes i /\
  (i <= List.length bytes -> skip_ws_and_comments bytes i <= List.length bytes).
Proof.
  unfold skip_ws_and_comments.
  apply (while_ind _ _ _ (fun j _ => i <= j /\ (i <= List.length bytes -> j <= List.length bytes))
    (fun r => i <= r /\ (i <= List.length bytes -> r <= List.length bytes))); [done| |lia].
  intros j [] Hj [H1 H2]. pose proof (skip_ws_le bytes j). destruct (skip_comment bytes (skip_ws bytes j)) eqn:E; [|lia].
  apply skip_comment_le in E. lia.
Qed.

Lemma parse_ident_range_le bytes i s e : parse_ident_range bytes i = Some (s, e) -> s = i /\ i < e <= List.length bytes.
Proof.
  unfold parse_ident_range. destruct (drop i bytes) as [|c r] eqn:E; [done|]. case_match; [|done]. intros [= <- <-].
  pose proof (run_length_le is_ident_continue r). apply (f_equal List.length) in E. rewrite length_drop in E. simpl in E. lia.
Qed.

Lemma parse_balanced_le m bytes start o c a e n : parse_balanced m bytes start o c = Ok (a, e, n) ->
  a = S start /\ S start <= e /\ n = S e /\ e < List.length bytes /\ bytes !! e = Some c.
Proof.
  unfold parse_balanced. destruct (negb _); [done|]. revert a e n.
  apply (while_ind _ _ _ (fun j _ => S start <= j) (fun r => forall a e n, r = Ok (a, e, n) ->
    a = S start /\ S start <= e /\ n = S e /\ e < List.length bytes /\ bytes !! e = Some c)); [done| |lia].
  intros i d Hi HP. destruct (skip_trivia bytes i) as [k|] eqn:Et; [apply skip_trivia_le in Et; lia|].
  case_bool_decide; [lia|]. case_bool_decide as Hc; [|lia]. destruct d as [|[|d]]; [| |lia]; intros a e n [= <- <- <-]; by split_and!.
Qed.

(** ** Macros *)

(** A pass that replaces nothing writes the text it reads. *)
Lemma expand_pass_unchanged macros bytes out : expand_pass macros bytes = Ok (out, false) -> out = bytes.
Proof.
  unfold expand_pass. revert out.
  apply (while_ind _ _ _ (fun i '(output, changed) => changed = false -> output = take i bytes)
    (fun r => forall out, r = Ok (out, false) -> out = bytes)); [| |done].
  - intros i [output changed] Hi HP out. case_match; [|done]. intros [= <- ->]. rewrite HP by done. by apply take_ge.
  - intros i [output changed] Hi HP. destruct (skip_trivia bytes i) as [k|] eqn:Et.
    { apply skip_trivia_le in Et. split; [lia|]. intros ->. rewrite HP by done. apply sub_text_take. lia. }
    destruct (parse_ident_range bytes i) as [[s e]|] eqn:Ei.
    2: { split; [lia|]. intros ->. rewrite HP by done. by apply take_S_byte. }
    apply parse_ident_range_le in Ei as [-> Ei]. unfold invocation_at. repeat case_match; simplify_eq; try by intros ? ?.
    all: try (split; [lia|]; intros ->; rewrite HP by done; apply sub_text_take; lia).
    split; [|done]. match goal with H : macro_balanced _ _ _ _ = Ok _ |- _ => apply parse_balanced_le in H end.
    pose proof (skip_ws_le bytes e). pose proof (skip_ws_le bytes (S (skip_ws bytes e))). lia.
Qed.

Lemma expand_passes_fixed macros passes : forall source out,
  expand_passes macros (S passes) source = Ok out -> expand_pass macros out = Ok (out, false).
Proof.
  induction passes as [|passes IH]; intros source out; cbn [expand_passes]; destruct (expand_pass macros source) as [[next []]|] eqn:E;
    cbn -[expand_passes]; try done.
  - intros [= <-]. by rewrite (expand_pass_unchanged _ _ _ E) in E |- *.
  - intros H. by eapply IH.
  - intros [= <-]. by rewrite (expand_pass_unchanged _ _ _ E) in E |- *.
Qed.

(** C12: when the invocations of a text are expanded without an error, the
    result holds no invocation any more: expanding it again, with the same
    macros, gives the same text.  (The expansion makes at most sixteen passes and
    ends with one that changes nothing.) *)
Theorem macro_expansion_stable (source out : text) (macros : Macros) :
  expand_macro_invocations source macros = Ok out -> expand_macro_invocations out macros = Ok out.
Proof.
  intros H%expand_passes_fixed. unfold expand_macro_invocations. cbn [expand_passes MAX_EXPANSION_PASSES]. by rewrite H.
Qed.

Definition twice_macros : Macros :=
  match extract_macro_definitions (chars "macro_rules! twice { ($x:expr) => { once!($x) + once!($x) }; }
macro_rules! once { ($y:expr) => { ($y) }; }
") with Ok (_, macros) => macros | Err _ => ∅ end.

Lemma macro_expansion_stable_witness :
  expand_macro_invocations (chars "let a = twice!(1 /* , */);") twice_macros = Ok (chars "let a =   (1 /* , */)  +  (1 /* , */)  ;") /\
  expand_macro_invocations (chars "let a =   (1 /* , */)  +  (1 /* , */)  ;") twice_macros =
    Ok (chars "let a =   (1 /* , */)  +  (1 /* , */)  ;").
Proof.
  assert (expand_macro_invocations (chars "let a = twice!(1 /* , */);") twice_macros =
    Ok (chars "let a =   (1 /* , */)  +  (1 /* , */)  ;")) as H by (vm_compute; reflexivity).
  split; [exact H|]. exact (macro_expansion_stable _ _ _ H).
Defined.

(** *** Templates *)

Lemma drop_app_at {A} (i : nat) (s a r : list A) : drop i s = a ++ r -> drop (i + List.length a) s = r.
Proof. intros H. rewrite <- drop_drop, H. by rewrite drop_app_length. Qed.

Lemma drop_cons_at {A} (i : nat) (s : list A) c r : drop i s = c :: r -> drop (S i) s = r /\ s !! i = Some c /\ i < List.length s.
Proof.
  intros H. assert (s !! i = Some c) as Hc by (by rewrite <- (Nat.add_0_r i), <- lookup_drop, H). split_and!; [|done|by apply lookup_lt_Some in Hc].
  replace (S i) with (i + List.length [c]) by (simpl; lia). by apply drop_app_at.
Qed.

Lemma sub_text_at i (s a r : text) : drop i s = a ++ r -> sub_text i (i + List.length a) s = a.
Proof. intros H. unfold sub_text. rewrite H. replace (i + List.length a - i) with (List.length a) by lia. apply take_app_length. Qed.

Definition stops (P : ascii -> bool) (rest : text) : Prop := match rest with c :: _ => P c = false | [] => True end.

Lemma is_ident_cons name : is_ident name = true -> exists c w, name = c :: w /\ is_ident_start c = true /\ forallb is_ident_continue w = true.
Proof.
  unfold is_ident, parse_ident_range. destruct name as [|c w]; [done|]. cbn [drop].
  destruct (is_ident_start c) eqn:Hc; [|done]. intros H'%Nat.eqb_eq. exists c, w. do 2 (split; [done|]). simpl in H'.
  assert (run_length is_ident_continue w = List.length w) as Hw by lia. clear -Hw. induction w as [|d w IH]; [done|]. simpl in *.
  destruct (is_ident_continue d); [|done]. apply IH. lia.
Qed.

Lemma parse_ident_range_at i (s name rest : text) : drop i s = name ++ rest -> is_ident name = true -> stops is_ident_continue rest ->
  parse_ident_range s i = Some (i, i + List.length name).
Proof.
  intros Hd (c & w & -> & Hc & Hw)%is_ident_cons Hr. unfold parse_ident_range. rewrite Hd. simpl. rewrite Hc, run_length_app by done.
  do 2 f_equal. lia.
Qed.

Inductive TemplatePiece := TpChar (c : ascii) | TpCapture (name : text).

Definition piece_text (p : TemplatePiece) : text := match p with TpChar c => [c] | TpCapture name => "$"%char :: name end.
Definition pieces_text (ps : list TemplatePiece) : text := flat_map piece_text ps.
Definition piece_value (captures : gmap text text) (p : TemplatePiece) : text :=
  match p with TpChar c => [c] | TpCapture name => default [] (captures !! name) end.

(** The names are captured and what stands behind one does not extend it. *)
Fixpoint pieces_ok (captures : gmap text text) (ps : list TemplatePiece) : Prop :=
  match ps with
  | [] => True
  | TpChar c :: ps => c <> "$"%char /\ pieces_ok captures ps
  | TpCapture name :: ps =>
      is_ident name = true /\ is_Some (captures !! name) /\ stops is_ident_continue (pieces_text ps) /\ pieces_ok captures ps
  end.

Definition template_step (template : text) (captures : gmap text text) (i : nat) (output : text) : (nat * text) + text :=
  let copied := inl (S i, output ++ [byte_at template i]) in
  if byte_is template i "$" then
    match parse_ident_range template (S i) with
    | Some (name_start, name_end) =>
        match captures !! sub_text name_start name_end template with
        | Some value => inl (name_end, output ++ value)
        | None => copied
        end
    | None => copied
    end
  else copied.

Lemma template_step_advances template captures : advances (R := text) (List.length template) (template_step template captures).
Proof.
  intros i output i' output' Hi. unfold template_step. repeat case_match; intros [= <- <-]; try lia.
  match goal with H : parse_ident_range _ _ = Some _ |- _ => apply parse_ident_range_le in H as [-> ?] end. lia.
Qed.

Lemma template_filled_from template captures ps : forall i output, pieces_ok captures ps -> drop i template = pieces_text ps ->
  while_bytes (List.length template) (template_step template captures) (fun _ output => output) i output =
    output ++ flat_map (piece_value captures) ps.
Proof.
  induction ps as [|[c|name] ps IH]; intros i output Hok Hd; rewrite while_bytes_eq by apply template_step_advances; simpl in Hok, Hd.
  - apply (f_equal List.length) in Hd. rewrite length_drop in Hd. simpl in Hd. rewrite (proj2 (Nat.leb_le _ _)) by lia. by rewrite app_nil_r.
  - destruct Hok as [Hc Hok]. apply drop_cons_at in Hd as (Hd & Hi & Hlt). rewrite (proj2 (Nat.leb_gt _ _)) by done.
    unfold template_step at 1, byte_is, byte_at. rewrite Hi, bool_decide_false by congruence. cbn [default]. rewrite IH by done.
    by rewrite <- app_assoc.
  - destruct Hok as (Hn & [value Hv] & Hs & Hok). apply drop_cons_at in Hd as (Hd & Hi & Hlt). rewrite (proj2 (Nat.leb_gt _ _)) by done.
    unfold template_step at 1, byte_is. rewrite Hi, bool_decide_true, (parse_ident_range_at _ _ _ _ Hd), (sub_text_at _ _ _ _ Hd), Hv by done.
    rewrite IH by (try done; by apply drop_app_at in Hd). simpl. rewrite Hv. simpl. by rewrite <- app_assoc.
Qed.

(** A template is filled in exactly: each [$name] of a capture becomes the
    text captured and every other byte is copied.  (A result that is not UTF-8
    would become the empty text.) *)
Theorem template_filled_in (captures : gmap text text) (ps : list TemplatePiece) :
  pieces_ok captures ps ->
  apply_template (pieces_text ps) captures =
    if from_utf8 (flat_map (piece_value captures) ps) then flat_map (piece_value captures) ps else [].
Proof.
  intros Hok. pose proof (template_filled_from (pieces_text ps) captures ps 0 [] Hok eq_refl) as H. unfold apply_template.
  unfold template_step in H. by rewrite H.
Qed.

Lemma template_filled_in_witness :
  apply_template (chars "max($a, $b2);") (<[chars "a" := chars "1 + 2"]> {[chars "b2" := chars "f(x)"]}) = chars "max(1 + 2, f(x));".
Proof.
  exact (template_filled_in (<[chars "a" := chars "1 + 2"]> {[chars "b2" := chars "f(x)"]})
    (map TpChar (chars "max(") ++ TpCapture (chars "a") :: map TpChar (chars ", ") ++ TpCapture (chars "b2") :: map TpChar (chars ");"))
    ltac:(cbn; repeat split; try done; by eexists)).
Defined.

(** ** Predicates *)

(** How a predicate is written. *)
Definition quote_text (value : text) : text := QUOTE :: value ++ [QUOTE].
Fixpoint predicate_text (p : CfgPredicate) : text :=
  let fix list_text (ps : list CfgPredicate) : text :=
    match ps with
    | [] => []
    | [p] => predicate_text p
    | p :: ps => predicate_text p ++ chars ", " ++ list_text ps
    end in
  match p with
  | CfgTargetOs value => chars "target_os = " ++ quote_text value
  | CfgTargetFamily value => chars "target_family = " ++ quote_text value
  | CfgFeature value => chars "feature = " ++ quote_text value
  | CfgAll ps => chars "all(" ++ list_text ps ++ [")"%char]
  | CfgAny ps => chars "any(" ++ list_text ps ++ [")"%char]
  | CfgNot p => chars "not(" ++ predicate_text p ++ [")"%char]
  end.
Fixpoint predicates_text (ps : list CfgPredicate) : text :=
  match ps with
  | [] => []
  | [p] => predicate_text p
  | p :: ps => predicate_text p ++ chars ", " ++ predicates_text ps
  end.

(** The strings are supported, and no list is empty. *)
Fixpoint predicate_ok (p : CfgPredicate) : bool :=
  match p with
  | CfgTargetOs value => supported_target_os value
  | CfgTargetFamily value => supported_target_family value
  | CfgFeature value => negb (bool_decide (value = [])) && forallb (fun c => negb (Ascii.eqb c QUOTE) && negb (Ascii.eqb c "\")) value
  | CfgAll ps | CfgAny ps => negb (Nat.eqb (List.length ps) 0) && forallb predicate_ok ps
  | CfgNot p => predicate_ok p
  end.

Section predicate_induction.
Context (P : CfgPredicate -> Prop).
Context (Hos : forall v, P (CfgTargetOs v)) (Hfamily : forall v, P (CfgTargetFamily v)) (Hfeature : forall v, P (CfgFeature v)).
Context (Hall : forall ps, Forall P ps -> P (CfgAll ps)) (Hany : forall ps, Forall P ps -> P (CfgAny ps)) (Hnot : forall p, P p -> P (CfgNot p)).

Fixpoint predicate_ind' (p : CfgPredicate) : P p :=
  let fix list_ind (ps : list CfgPredicate) : Forall P ps :=
    match ps with [] => Forall_nil_2 P | p :: ps => Forall_cons_2 P p ps (predicate_ind' p) (list_ind ps) end in
  match p with
  | CfgTargetOs v => Hos v
  | CfgTargetFamily v => Hfamily v
  | CfgFeature v => Hfeature v
  | CfgAll ps => Hall ps (list_ind ps)
  | CfgAny ps => Hany ps (list_ind ps)
  | CfgNot p => Hnot p (predicate_ind' p)
  end.
End predicate_induction.

Lemma predicate_text_all ps : predicate_text (CfgAll ps) = chars "all(" ++ predicates_text ps ++ [")"%char].
Proof. reflexivity. Qed.
Lemma predicate_text_any ps : predicate_text (CfgAny ps) = chars "any(" ++ predicates_text ps ++ [")"%char].
Proof. reflexivity. Qed.

Section written.
Context (bytes : text).

Lemma skip_ws_none i r : drop i bytes = r -> stops is_ws r -> skip_ws bytes i = i.
Proof. intros Hd Hs. unfold skip_ws. rewrite Hd. destruct r as [|c r]; simpl in *; [lia|]. rewrite Hs. lia. Qed.

Lemma skip_ws_space i r : drop i bytes = " "%char :: r -> stops is_ws r -> skip_ws bytes i = S i.
Proof. intros Hd Hs. unfold skip_ws. rewrite Hd. destruct r as [|c r]; simpl in *; [lia|]. rewrite Hs. lia. Qed.

Lemma byte_is_at i c d r : drop i bytes = c :: r -> byte_is bytes i d = Ascii.eqb c d.
Proof.
  intros (_ & Hi & _)%drop_cons_at. unfold byte_is. rewrite Hi. destruct (Ascii.eqb_spec c d) as [->|].
  - by rewrite bool_decide_true. - by rewrite bool_decide_false by congruence.
Qed.

Lemma closing_quote_plain value r : forallb (fun c => negb (Ascii.eqb c QUOTE) && negb (Ascii.eqb c "\")) value = true ->
  closing_quote (value ++ QUOTE :: r) = Some (List.length value).
Proof.
  induction value as [|c value IH]; [done|]. simpl. intros ((->%negb_true_iff & ->%negb_true_iff)%andb_true_iff & H)%andb_true_iff.
  by rewrite IH.
Qed.

Lemma parse_key_value_at key i value r : drop i bytes = chars " = " ++ quote_text value ++ r ->
  forallb (fun c => negb (Ascii.eqb c QUOTE) && negb (Ascii.eqb c "\")) value = true ->
  forall j, j = skip_ws bytes i -> parse_key_value_string bytes key j = Ok (value, i + 3 + List.length (quote_text value)).
Proof.
  intros Hd Hv j ->. simpl in Hd. rewrite (skip_ws_space _ _ Hd) by done. apply drop_cons_at in Hd as (Hd1 & _ & _).
  unfold parse_key_value_string. rewrite (skip_ws_none _ _ Hd1) by done. rewrite (byte_is_at _ _ _ _ Hd1). cbn [negb Ascii.eqb Bool.eqb].
  apply drop_cons_at in Hd1 as (Hd2 & _ & _). rewrite (skip_ws_space _ _ Hd2) by done. apply drop_cons_at in Hd2 as (Hd3 & _ & _).
  unfold parse_string_literal. rewrite (byte_is_at _ _ _ _ Hd3). cbn [negb Ascii.eqb Bool.eqb QUOTE].
  apply drop_cons_at in Hd3 as (Hd4 & _ & _). rewrite <- app_assoc in Hd4. cbn [app] in Hd4.
  rewrite Hd4, closing_quote_plain by done.
  rewrite (sub_text_at _ _ _ _ Hd4). unfold quote_text. simpl. rewrite length_app. simpl. do 2 f_equal. lia.
Qed.

Lemma predicate_starts p r : stops (fun c => is_ws c || Ascii.eqb c ")") (predicate_text p ++ r).
Proof. by destruct p. Qed.
Lemma predicates_start p ps r : stops (fun c => is_ws c || Ascii.eqb c ")") (predicates_text (p :: ps) ++ r).
Proof. destruct ps; [apply predicate_starts|]. cbn [predicates_text]. rewrite <- app_assoc. apply predicate_starts. Qed.
Lemma predicates_text_cons p q ps : predicates_text (p :: q :: ps) = predicate_text p ++ chars ", " ++ predicates_text (q :: ps).
Proof. reflexivity. Qed.
Lemma stops_or P Q r : stops (fun c => P c || Q c) r -> stops P r /\ stops Q r.
Proof. destruct r; [done|]. apply orb_false_iff. Qed.

Definition reads (predicate : nat -> option (result (CfgPredicate * nat) CompileError)) (p : CfgPredicate) : Prop :=
  forall i r, drop i bytes = predicate_text p ++ r -> predicate i = Some (Ok (p, i + List.length (predicate_text p))).

Lemma predicate_list_at predicate name p ps : forall cursor i r fuel acc, Forall (reads predicate) (p :: ps) ->
  skip_ws bytes cursor = i -> drop i bytes = predicates_text (p :: ps) ++ ")"%char :: r -> List.length ps < fuel ->
  predicate_list_loop bytes predicate name fuel cursor acc = Some (Ok (acc ++ p :: ps, S (i + List.length (predicates_text (p :: ps))))).
Proof.
  revert p. induction ps as [|q ps IH]; intros p cursor i r [|fuel] acc HF Hc Hd Hf; try (simpl in Hf; lia); cbn [predicate_list_loop];
    rewrite Hc; inversion HF as [|? ? Hp HF']; subst;
    match type of Hd with drop ?i bytes = ?t ++ ?r => destruct (stops_or _ _ _ (predicates_start p _ r : stops _ (t ++ r))) as [_ Hn];
      destruct (t ++ r) as [|c r0] eqn:Er; [by destruct p|]; rewrite (byte_is_at _ _ _ _ Hd); simpl in Hn; rewrite Hn; rewrite <- Er in Hd end.
  - cbn [predicates_text] in Hd |- *. rewrite (Hp _ _ Hd). apply drop_app_at in Hd. rewrite (skip_ws_none _ _ Hd) by done.
    rewrite !(byte_is_at _ _ _ _ Hd). reflexivity.
  - rewrite predicates_text_cons in Hd |- *. rewrite <- app_assoc in Hd. rewrite (Hp _ _ Hd). apply drop_app_at in Hd.
    rewrite (skip_ws_none _ _ Hd) by done. rewrite !(byte_is_at _ _ _ _ Hd). cbn [Ascii.eqb Bool.eqb]. apply drop_cons_at in Hd as (Hd & _ & _).
    pose proof (drop_cons_at _ _ _ _ Hd) as (Hd' & _ & _).
    erewrite IH; [|exact HF'| |exact Hd'|simpl in Hf; lia].
    + rewrite <- app_assoc. do 3 f_equal. rewrite !length_app. simpl. lia.
    + eapply skip_ws_space; [exact Hd|]. by apply (stops_or is_ws (fun c => Ascii.eqb c ")")), predicates_start.
Qed.

Lemma name_at name i rest : drop i bytes = chars name ++ rest -> stops is_ws (chars name) -> is_ident (chars name) = true ->
  stops is_ident_continue rest ->
  skip_ws bytes i = i /\ parse_ident_range bytes i = Some (i, i + String.length name) /\
  str (sub_text i (i + String.length name) bytes) = name /\ drop (i + String.length name) bytes = rest.
Proof.
  intros Hd Hs Hi Hr. rewrite <- length_chars. split_and!.
  - apply (skip_ws_none _ _ Hd). apply is_ident_cons in Hi as (c & w & E & _). rewrite E in Hs |- *. apply Hs.
  - by eapply parse_ident_range_at.
  - rewrite (sub_text_at _ _ _ _ Hd). apply string_of_list_ascii_of_string.
  - by apply drop_app_at.
Qed.

Lemma supported_plain values value : existsb (String.eqb (str value)) values = true ->
  forallb (fun v => forallb (fun c => negb (Ascii.eqb c QUOTE) && negb (Ascii.eqb c "\")) (chars v)) values = true ->
  forallb (fun c => negb (Ascii.eqb c QUOTE) && negb (Ascii.eqb c "\")) value = true.
Proof.
  intros (v & Hv & <-%String.eqb_eq)%existsb_exists Hp. rewrite forallb_forall in Hp. apply Hp in Hv.
  by rewrite list_ascii_of_string_of_list_ascii in Hv.
Qed.

Lemma length_predicates p ps : List.length ps < List.length (predicates_text (p :: ps)).
Proof.
  revert p. induction ps as [|q ps IH]; intros p; [destruct p; simpl; lia|]. rewrite predicates_text_cons, !length_app. specialize (IH q).
  simpl in *. lia.
Qed.

Lemma list_reads fuel p ps : forallb predicate_ok (p :: ps) = true -> List.length (predicates_text (p :: ps)) <= fuel ->
  Forall (fun p => predicate_ok p = true -> forall fuel, List.length (predicate_text p) <= fuel -> reads (parse_predicate bytes fuel) p)
    (p :: ps) ->
  Forall (reads (parse_predicate bytes fuel)) (p :: ps).
Proof.
  revert p. induction ps as [|q ps IH]; intros p [Hp Hps]%andb_true_iff Hf HF; inversion HF as [|? ? H1 H2]; subst.
  - constructor; [by apply H1|done].
  - rewrite predicates_text_cons, !length_app in Hf. constructor; [apply H1; [done|lia]|]. apply IH; [done|lia|done].
Qed.

(** A predicate behind its name. *)
Lemma list_at fuel name i p ps r : drop i bytes = "("%char :: predicates_text (p :: ps) ++ [")"%char] ++ r ->
  forallb predicate_ok (p :: ps) = true -> List.length (predicates_text (p :: ps)) <= fuel ->
  Forall (fun p => predicate_ok p = true -> forall fuel, List.length (predicate_text p) <= fuel -> reads (parse_predicate bytes fuel) p)
    (p :: ps) ->
  parse_predicate_list bytes (parse_predicate bytes fuel) name fuel (skip_ws bytes i) =
    Some (Ok (p :: ps, i + List.length ("("%char :: predicates_text (p :: ps) ++ [")"%char]))).
Proof.
  intros Hd Hok Hf HF. unfold parse_predicate_list. rewrite !(skip_ws_none _ _ Hd), (byte_is_at _ _ _ _ Hd) by done. cbn [negb Ascii.eqb Bool.eqb].
  apply drop_cons_at in Hd as (Hd & _ & _). pose proof (length_predicates p ps).
  erewrite predicate_list_at; [|by apply list_reads| |exact Hd|lia].
  - cbn [app]. do 4 f_equal. simpl. rewrite length_app. simpl. lia.
  - apply (skip_ws_none _ _ Hd). by apply (stops_or is_ws (fun c => Ascii.eqb c ")")), predicates_start.
Qed.

#[local] Ltac lengths := unfold quote_text; simpl; rewrite ?length_app; cbn [List.length]; rewrite ?length_app; simpl; lia.
#[local] Ltac read_name name rest Hd Hrest :=
  rewrite <- !app_assoc in Hd; destruct (name_at name _ rest Hd) as (-> & -> & -> & Hrest); [done..|];
  cbn [String.eqb Ascii.eqb Bool.eqb]; let n := eval vm_compute in (String.length name) in change (String.length name) with n in *.
#[local] Ltac read_value v Hok Hd r name :=
  cbn [predicate_text] in Hd |- *; let Hrest := fresh in read_name name (chars " = " ++ quote_text v ++ r) Hd Hrest;
  erewrite (parse_key_value_at _ _ _ _ Hrest); [simpl in Hok |- *; rewrite Hok; do 3 f_equal; lengths|by eapply supported_plain|done].
#[local] Ltac read_list ps Hd Hf r name :=
  let Hrest := fresh in read_name name ("("%char :: predicates_text ps ++ [")"%char] ++ r) Hd Hrest; rewrite !length_app in Hf;
  rewrite (list_at _ _ _ _ _ _ Hrest); [do 3 f_equal; lengths| |simpl in *; lia|first [done|by repeat constructor]].

Lemma predicate_at p : predicate_ok p = true -> forall fuel, List.length (predicate_text p) <= fuel -> reads (parse_predicate bytes fuel) p.
Proof.
  induction p as [v|v|v|ps IH|ps IH|p IH] using predicate_ind'; intros Hok [|fuel] Hf i r Hd; try (simpl in Hf; lia); cbn [parse_predicate].
  - read_value v Hok Hd r "target_os".
  - read_value v Hok Hd r "target_family".
  - cbn [predicate_text] in Hd |- *. read_name "feature" (chars " = " ++ quote_text v ++ r) Hd Hrest. simpl in Hok.
    apply andb_true_iff in Hok as [Hv Hp]. erewrite (parse_key_value_at _ _ _ _ Hrest); [|done|done]. destruct v; [done|]. simpl. do 3 f_equal. lengths.
  - destruct ps as [|p ps]; [done|]. rewrite predicate_text_all in Hd, Hf |- *. by read_list (p :: ps) Hd Hf r "all".
  - destruct ps as [|p ps]; [done|]. rewrite predicate_text_any in Hd, Hf |- *. by read_list (p :: ps) Hd Hf r "any".
  - cbn [predicate_text] in Hd, Hf |- *. read_list [p] Hd Hf r "not". simpl. by rewrite andb_true_r.
Qed.
End written.

(** *** Any text *)

Section any_text.
Context (bytes : text).

Lemma string_literal_moves cursor value next : parse_string_literal bytes cursor = Ok (value, next) -> cursor < next.
Proof. unfold parse_string_literal. repeat case_match; try done. intros [= _ <-]. lia. Qed.

Lemma key_value_moves key cursor value next : parse_key_value_string bytes key cursor = Ok (value, next) -> cursor < next.
Proof.
  unfold parse_key_value_string. case_match; [done|]. intros H'%string_literal_moves. pose proof (skip_ws_le bytes cursor).
  pose proof (skip_ws_le bytes (S (skip_ws bytes cursor))). lia.
Qed.

Section list_total.
Context (predicate : nat -> option (result (CfgPredicate * nat) CompileError)) (name : string) (low : nat).
Context (Hmoves : forall c p c', predicate c = Some (Ok (p, c')) -> c < List.length bytes /\ c < c').
Context (Htotal : forall c, low <= c -> predicate c <> None).

Lemma predicate_list_loop_total fuel : forall cursor acc, low <= cursor -> List.length bytes - cursor < fuel ->
  predicate_list_loop bytes predicate name fuel cursor acc <> None.
Proof.
  induction fuel as [|fuel IH]; intros cursor acc Hc Hf; [lia|]. cbn [predicate_list_loop]. case_match; [done|].
  pose proof (skip_ws_le bytes cursor). destruct (predicate _) as [[[p c']|]|] eqn:E; [|done|by apply Htotal in E; [|lia]].
  apply Hmoves in E as [H1 H2]. pose proof (skip_ws_le bytes c'). case_match; [apply IH; lia|by case_match].
Qed.

Lemma predicate_list_loop_moves fuel : forall cursor acc ps next,
  predicate_list_loop bytes predicate name fuel cursor acc = Some (Ok (ps, next)) -> cursor < next.
Proof.
  induction fuel as [|fuel IH]; intros cursor acc ps next; [done|]. cbn [predicate_list_loop]. pose proof (skip_ws_le bytes cursor).
  case_match; [intros [= _ <-]; lia|]. destruct (predicate _) as [[[p c']|]|] eqn:E; [|done..].
  apply Hmoves in E as [H1 H2]. pose proof (skip_ws_le bytes c'). case_match; [intros H'%IH; lia|]. case_match; [intros [= _ <-]; lia|done].
Qed.

Lemma predicate_list_total fuel cursor : low <= cursor -> List.length bytes - cursor < fuel ->
  parse_predicate_list bytes predicate name fuel cursor <> None.
Proof.
  intros Hc Hf. unfold parse_predicate_list. case_match; [done|]. pose proof (skip_ws_le bytes cursor).
  destruct (predicate_list_loop _ _ _ _ _ _) as [[[[|p ps] c']|]|] eqn:E; try done. by apply predicate_list_loop_total in E; [| |lia]; try lia.
Qed.

Lemma predicate_list_moves fuel cursor ps next : parse_predicate_list bytes predicate name fuel cursor = Some (Ok (ps, next)) -> cursor < next.
Proof.
  unfold parse_predicate_list. case_match; [done|]. pose proof (skip_ws_le bytes cursor).
  destruct (predicate_list_loop _ _ _ _ _ _) as [[[[|p qs] c']|]|] eqn:E; try done. intros [= _ <-].
  apply predicate_list_loop_moves in E. lia.
Qed.
End list_total.

Lemma parse_predicate_moves fuel : forall cursor p next, parse_predicate bytes fuel cursor = Some (Ok (p, next)) ->
  cursor < List.length bytes /\ cursor < next.
Proof.
  induction fuel as [|fuel IH]; intros cursor p next; [done|]. cbn [parse_predicate]. pose proof (skip_ws_le bytes cursor).
  destruct (parse_ident_range _ _) as [[s e]|] eqn:Ei; [|done]. apply parse_ident_range_le in Ei as [-> Ei]. pose proof (skip_ws_le bytes e).
  intros E. split; [lia|]. revert E.
  repeat case_match; try done; intros [= _ <-];
    match goal with
    | H : parse_key_value_string _ _ _ = _ |- _ => apply key_value_moves in H
    | H : parse_predicate_list _ _ _ _ _ = _ |- _ => apply (predicate_list_moves _ _ IH) in H
    end; lia.
Qed.

Lemma parse_predicate_total fuel : forall cursor, List.length bytes - cursor < fuel -> parse_predicate bytes fuel cursor <> None.
Proof.
  induction fuel as [|fuel IH]; intros cursor Hf; [lia|]. cbn [parse_predicate]. pose proof (skip_ws_le bytes cursor).
  destruct (parse_ident_range _ _) as [[s e]|] eqn:Ei; [|done]. apply parse_ident_range_le in Ei as [-> Ei]. pose proof (skip_ws_le bytes e).
  assert (forall name, parse_predicate_list bytes (parse_predicate bytes fuel) name fuel (skip_ws bytes e) <> None) as Hl.
  { intros name. apply (predicate_list_total _ _ e); [apply parse_predicate_moves| |lia|lia]. intros c Hc. apply IH. lia. }
  repeat case_match; try done; by edestruct Hl.
Qed.
End any_text.

Lemma parse_cfg_predicate_total inner : parse_cfg_predicate inner <> None.
Proof.
  unfold parse_cfg_predicate. destruct (parse_predicate _ _ _) as [[[]|]|] eqn:E; [by case_match|done|]. apply parse_predicate_total in E; [done|lia].
Qed.

(** A [cfg] predicate is read as it is written: supported names and families,
    feature names of any bytes but quotes and backslashes, and [all], [any] and
    [not] nested to any depth.  (For every other text, too, the fuel of the reader
    is enough: [parse_cfg_predicate_total].) *)
Theorem cfg_predicate_read_back (p : CfgPredicate) : predicate_ok p = true -> parse_cfg_predicate (predicate_text p) = Some (Ok p).
Proof.
  intros Hok. unfold parse_cfg_predicate. erewrite (predicate_at _ _ Hok _ _ 0 []); [|by rewrite app_nil_r]. cbn [Nat.add].
  rewrite (skip_ws_none _ _ []) by (try done; apply drop_all). by rewrite (proj2 (Nat.leb_le _ _)).
  Unshelve. lia.
Qed.

Definition gated : CfgPredicate :=
  CfgAll [CfgTargetOs (chars "linux"); CfgNot (CfgAny [CfgFeature (chars "no-simd"); CfgTargetFamily (chars "windows")])].

Lemma cfg_predicate_read_back_witness :
  predicate_text gated = chars "all(target_os = " ++ quote_text (chars "linux") ++ chars ", not(any(feature = " ++
    quote_text (chars "no-simd") ++ chars ", target_family = " ++ quote_text (chars "windows") ++ chars ")))" /\
  parse_cfg_predicate (predicate_text gated) = Some (Ok gated).
Proof. split; [reflexivity|]. apply (cfg_predicate_read_back gated). reflexivity. Defined.

(** The scanner, for texts without float literals. *)
Definition scan (source : string) : list Token := default [] (Scanner.tokenize (fun _ => None) source).
Definition no_env : string -> option string := fun _ => None.
Definition no_command : string -> string -> DeriveTarget -> CommandOutcome := fun _ _ _ => CouldNotRun "not found".

(** ** Protocols *)

#[local] Notation AFunction := (Function_ Expr Decl).

(** What a pass does to a declaration, with the method of its template. *)
Definition completed (traits : list string) (has lacks : string) (method : AFunction) (d : Decl) : Decl :=
  match d with
  | mkDecl (DImpl _ _ i) span => if wants traits has lacks i then mkDecl (DImpl _ _ (add_item i method)) span else d
  | _ => d
  end.

Section protocols.
Context (traits : list string) (has lacks : string) (method : AFunction).

Lemma synthesize_map decls : synthesize traits has lacks (Some (Ok method)) decls = Some (Ok (map (completed traits has lacks method) decls)).
Proof. induction decls as [|[k span] decls IH]; [done|]. cbn [synthesize map completed]. destruct k; rewrite ?IH; try done. by case_match. Qed.

Context (Hname : ident_name (fn_name _ _ method) = lacks).

Lemma wants_added i : wants traits has lacks (add_item i method) = false.
Proof.
  unfold wants, add_item. cbn. case_match; [|done]. rewrite !(existsb_app _ _ [method]). cbn. rewrite Hname, String.eqb_refl.
  by rewrite orb_true_r, andb_false_r.
Qed.

Lemma completed_idempotent d : completed traits has lacks method (completed traits has lacks method d) = completed traits has lacks method d.
Proof. destruct d as [[] span]; try done. cbn. destruct (wants _ _ _ _) eqn:E; cbn; [by rewrite wants_added|by rewrite E]. Qed.
End protocols.

Definition method_of (r : option (result AFunction CompileError)) : option AFunction := match r with Some (Ok f) => Some f | _ => None end.

(** Both protocol passes do their work, once.  The templates parse, so the
    internal errors do not occur; an impl of [Display] or [Debug] with a method
    [fmt] gets [to_string], one of [Hash] with [hash_into] gets [hash], when it
    lacks them; everything else stays; and a second pass changes nothing. *)
Theorem protocol_methods_added_once :
  exists to_string hash,
    ident_name (fn_name _ _ to_string) = "to_string" /\ fn_self_param _ _ to_string = Some Borrowed /\
    ident_name (fn_name _ _ hash) = "hash" /\ fn_self_param _ _ hash = Some Borrowed /\
    forall decls,
      let formatted := map (completed ["Display"; "Debug"] "fmt" "to_string" to_string) decls in
      let hashed := map (completed ["Hash"] "hash_into" "hash" hash) decls in
      synthesize_formatter_to_string scan decls = Some (Ok formatted) /\
      synthesize_formatter_to_string scan formatted = Some (Ok formatted) /\
      synthesize_hash_from_hash_into scan decls = Some (Ok hashed) /\
      synthesize_hash_from_hash_into scan hashed = Some (Ok hashed).
Proof.
  unfold synthesize_formatter_to_string, synthesize_hash_from_hash_into.
  destruct (parse_synth_to_string scan) as [[to_string|]|] eqn:Et; [|by vm_compute in Et..].
  destruct (parse_synth_hash scan) as [[hash|]|] eqn:Eh; [|by vm_compute in Eh..].
  exists to_string, hash.
  vm_compute in Et. injection Et as <-. vm_compute in Eh. injection Eh as <-. do 4 (split; [reflexivity|]).
  intros decls. cbv zeta. rewrite !synthesize_map, !map_map.
  split_and!; try reflexivity; do 2 f_equal; apply map_ext; intros d; by apply completed_idempotent.
Qed.
