(* ===== verification/DeriveInv.v ===== *)
(** Derives are expanded exactly: [DeriveExpander.v].

    What a source text holds is said without the expander's loops: which bytes
    are code ([passes]), which bracket closes which ([closes]), where a
    declaration ends ([declaration_end]), what a derive attribute is
    ([attribute_text], [derive_starts]) and what it stands before ([stands_before]).
    [derives_inserted_exactly] relates the result of the expansion to that. *)

From S2P Require Import Prelude Strs Sorting Ast Token Parser ParserDecl Scanner ScannerInv ExpandText MacroExpander AttributeExpander DeriveExpander Frontend ExpandInv.
From stdpp Require Import sorting.
From Stdlib Require Import Ascii String Sorted.

#[local] Open Scope string_scope.
#[local] Open Scope list_scope.

#[local] Notation text := (list ascii) (only parsing).
#[local] Notation chars := list_ascii_of_string (only parsing).
#[local] Notation str := string_of_list_ascii (only parsing).

(** ** What is in a text *)

Section written.
Context (s : text).

(** A byte of code: no literal and no comment starts at it. *)
Definition code_at (p : nat) (c : ascii) : Prop := s !! p = Some c /\ skip_trivia s p = None.

(** From [i] to [j], over literals and comments, stand the bytes of code [l]. *)
Inductive passes (i : nat) : text -> nat -> Prop :=
| passes_nil : passes i [] i
| passes_trivia l j n : passes i l j -> skip_trivia s j = Some n -> passes i l n
| passes_code l j c : passes i l j -> code_at j c -> passes i (l ++ [c]) (S j).

Definition count (c : ascii) (l : text) : nat := List.length (List.filter (Ascii.eqb c) l).

(** The bracket at [q] closes the one at [p]: the code between them opens as
    often as it closes, and never closes more than it has opened. *)
Definition closes (o c : ascii) (p q : nat) : Prop :=
  s !! p = Some o /\ code_at q c /\
  exists l, passes (S p) l q /\ count o l = count c l /\ forall k, count c (take k l) <= count o (take k l).

(** White space, and white space or a comment. *)
Definition ws_step (i j : nat) : Prop := exists c, s !! i = Some c /\ is_ws c = true /\ j = S i.
Definition blank_step (i j : nat) : Prop := ws_step i j \/ skip_comment s i = Some j.

(** [j] is the first position from [i] on that is not blank. *)
Definition first_behind (i j : nat) : Prop := rtc blank_step i j /\ forall n, ~ blank_step j n.

(** A declaration ends with the first semicolon of its code, or with the brace
    that closes its body if that starts before, or, if a list in
    parentheses does, with the semicolon behind it or else with it. *)
Definition header (l : text) : Prop := Forall (fun c => c <> ";"%char /\ c <> "{"%char /\ c <> "("%char) l.

Inductive declaration_end (from : nat) : nat -> Prop :=
| ends_semicolon l p : passes from l p -> header l -> code_at p ";" -> declaration_end from (S p)
| ends_braces l p q : passes from l p -> header l -> code_at p "{" -> closes "{" "}" p q -> declaration_end from (S q)
| ends_list l p q r : passes from l p -> header l -> code_at p "(" -> closes "(" ")" p q -> first_behind (S q) r ->
    declaration_end from (if byte_is s r ";" then S r else S q).

(** The word [w] stands at [i]. *)
Definition word_at (i : nat) (w : text) : Prop := is_ident w = true /\ exists r, drop i s = w ++ r /\ stops is_ident_continue r.

(** An attribute of any name. *)
Definition other_attribute (i j : nat) : Prop :=
  exists p q, s !! i = Some "#"%char /\ rtc ws_step (S i) p /\ closes "[" "]" p q /\ j = S q.

(** The keyword of a declaration stands behind [i], blanks, attributes and a
    visibility. *)
Definition visibility (i k : nat) : Prop :=
  k = i \/ exists j, word_at i (chars "pub") /\ rtc blank_step (i + 3) j /\
    (k = j \/ exists q, closes "(" ")" j q /\ rtc blank_step (S q) k).
Definition leads_to (i k : nat) : Prop :=
  exists j, rtc (fun a b => blank_step a b \/ other_attribute a b) i j /\ visibility j k.

(** What a derive attribute that ends at [i] stands before. *)
Definition stands_before (i : nat) (target : DeriveTarget) : Prop :=
  exists k n, leads_to i k /\ word_at k (chars (target_kind_str (dt_kind target))) /\
    rtc blank_step (k + String.length (target_kind_str (dt_kind target))) n /\ word_at n (chars (dt_name target)) /\
    declaration_end k (dt_insert_after target).

(** A derive attribute, from [a] to [b], with the names in its list. *)
Definition blank_text (w : text) : Prop := Forall (fun c => is_ws c = true) w.
Definition named (inner : text) : list string := map str (List.filter (fun t => negb (bool_decide (t = []))) (map trimmed (split_on 44 inner))).

Definition attribute_text (a b : nat) (derives : list string) : Prop :=
  exists w1 w2 w3 inner w4, blank_text w1 /\ blank_text w2 /\ blank_text w3 /\ blank_text w4 /\
    let opening := "#"%char :: w1 ++ "["%char :: w2 ++ chars "derive" ++ w3 in
    sub_text a b s = opening ++ "("%char :: inner ++ ")"%char :: w4 ++ ["]"%char] /\
    List.length (sub_text a b s) = b - a /\ a < b /\
    closes "(" ")" (a + List.length opening) (S (a + List.length opening) + List.length inner) /\
    derives = named inner /\ derives <> [].

(** One starts at [i], well formed or not. *)
Definition derive_starts (i : nat) : Prop :=
  exists w1 w2 r, blank_text w1 /\ blank_text w2 /\ drop i s = "#"%char :: w1 ++ "["%char :: w2 ++ chars "derive" ++ r /\
    stops is_ident_continue r.

(** ** The cursors find it *)

Lemma count_snoc c l x : count c (l ++ [x]) = count c l + (if Ascii.eqb c x then 1 else 0).
Proof. unfold count. rewrite List.filter_app, length_app. simpl. by case_match. Qed.

Lemma parse_balanced_closes m start o c a e n : o <> c -> parse_balanced m s start o c = Ok (a, e, n) ->
  a = S start /\ n = S e /\ closes o c start e.
Proof.
  intros Hoc. unfold parse_balanced. destruct (bool_decide (s !! start = Some o)) eqn:Ho; [|done]. apply bool_decide_eq_true in Ho.
  cbn [negb]. revert a e n.
  apply (while_ind _ _ _
    (fun i d => exists l, passes (S start) l i /\ (0 < d /\ d + count c l = S (count o l)) /\ forall k, count c (take k l) <= count o (take k l))
    (fun r => forall a e n, r = Ok (a, e, n) -> a = S start /\ n = S e /\ closes o c start e)); [done| |].
  2: { exists []. split; [constructor|]. split; [unfold count; simpl; lia|]. intros k. by destruct k. }
  intros i d Hi (l & Hp & Hd & Hk). destruct (skip_trivia s i) as [k|] eqn:Et.
  { pose proof (skip_trivia_le _ _ _ Et). split; [lia|]. exists l. split; [by eapply passes_trivia|done]. }
  assert (forall x, s !! i = Some x -> count c (l ++ [x]) <= count o (l ++ [x]) -> forall k, count c (take k (l ++ [x])) <= count o (take k (l ++ [x]))) as Hsnoc.
  { intros x _ Hx k. destruct (decide (k <= List.length l)) as [Hl|Hl]; [by rewrite take_app_le|]. rewrite take_ge; [done|].
    rewrite length_app. simpl. lia. }
  destruct (lookup_lt_is_Some_2 s i Hi) as [x Hx]. rewrite Hx.
  assert (Ascii.eqb o c = false /\ Ascii.eqb c o = false) as [E1 E2] by (split; by apply Ascii.eqb_neq).
  assert (passes (S start) (l ++ [x]) (S i)) as Hp' by (constructor; [done|by split]).
  case_bool_decide as Ex; [|case_bool_decide as Ec].
  - injection Ex as ->. split; [lia|]. exists (l ++ [o]). rewrite !count_snoc, Ascii.eqb_refl, E2. split; [done|]. split; [lia|].
    apply (Hsnoc _ Hx). rewrite !count_snoc, Ascii.eqb_refl, E2. lia.
  - injection Ec as ->. destruct d as [|[|d]]; [lia| |].
    + intros a e n [= <- <- <-]. do 2 (split; [done|]). split; [done|]. split; [by split|]. exists l. split; [done|]. split; [lia|done].
    + split; [lia|]. exists (l ++ [c]). rewrite !count_snoc, Ascii.eqb_refl, E1. split; [done|]. split; [simpl; lia|].
      apply (Hsnoc _ Hx). rewrite !count_snoc, Ascii.eqb_refl, E1. lia.
  - split; [lia|]. exists (l ++ [x]). rewrite !count_snoc. destruct (Ascii.eqb_spec c x); [congruence|]. destruct (Ascii.eqb_spec o x); [congruence|].
    split; [done|]. split; [lia|]. apply (Hsnoc _ Hx). rewrite !count_snoc. destruct (Ascii.eqb_spec c x), (Ascii.eqb_spec o x); try congruence; lia.
Qed.

Lemma skip_ws_steps i : rtc ws_step i (skip_ws s i) /\ blank_text (sub_text i (skip_ws s i) s) /\
  (forall c, s !! skip_ws s i = Some c -> is_ws c = false).
Proof.
  unfold skip_ws, sub_text. replace (i + run_length is_ws (drop i s) - i) with (run_length is_ws (drop i s)) by lia.
  remember (drop i s) as r eqn:Er. symmetry in Er. revert i Er. induction r as [|c r IH]; intros i Er; cbn [run_length].
  { rewrite Nat.add_0_r. split; [constructor|]. split; [constructor|]. intros c Hc. apply lookup_lt_Some in Hc.
    apply (f_equal List.length) in Er. rewrite length_drop in Er. simpl in Er. lia. }
  destruct (drop_cons_at _ _ _ _ Er) as (Er' & Hc & _). destruct (is_ws c) eqn:Ew.
  - destruct (IH _ Er') as (H1 & H2 & H3). rewrite Nat.add_succ_r. split; [|split; [by constructor|exact H3]].
    eapply rtc_l; [|exact H1]. by exists c.
  - rewrite Nat.add_0_r. split; [constructor|]. split; [constructor|]. intros d Hd. congruence.
Qed.

Lemma ws_blank i j : rtc ws_step i j -> rtc blank_step i j.
Proof. apply rtc_subrel. by left. Qed.

Lemma skip_ws_and_comments_first i : first_behind i (skip_ws_and_comments s i).
Proof.
  unfold skip_ws_and_comments.
  apply (while_ind _ _ _ (fun j _ => rtc blank_step i j) (fun r => first_behind i r)); [| |constructor].
  - intros j [] Hj Hr. split; [done|]. intros n [(c & Hc & _)|Hc]; [by apply lookup_lt_Some in Hc; lia|].
    unfold skip_comment in Hc. by rewrite lookup_ge_None_2 in Hc.
  - intros j [] Hj Hr. destruct (skip_ws_steps j) as (Hw & _ & Hn). destruct (skip_comment s (skip_ws s j)) as [next|] eqn:E.
    + pose proof (skip_comment_le _ _ _ E). pose proof (skip_ws_le s j). split; [lia|]. eapply rtc_r; [|right; exact E].
      etrans; [exact Hr|by apply ws_blank].
    + split; [etrans; [exact Hr|by apply ws_blank]|]. intros n [(c & Hc & Hw' & _)|Hc]; [|congruence]. apply Hn in Hc. congruence.
Qed.
Lemma skip_blanks i : rtc blank_step i (skip_ws_and_comments s i).
Proof. apply skip_ws_and_comments_first. Qed.

Lemma byte_is_some i c : byte_is s i c = true -> s !! i = Some c.
Proof. apply bool_decide_eq_true. Qed.

Lemma run_length_stops P (l : text) : stops P (drop (run_length P l) l).
Proof. induction l as [|c l IH]; [done|]. cbn [run_length]. destruct (P c) eqn:E; [exact IH|exact E]. Qed.

Lemma parse_ident_word i a e : parse_ident_range s i = Some (a, e) ->
  a = i /\ word_at i (sub_text a e s) /\ List.length (sub_text a e s) = e - i /\ i <= e.
Proof.
  intros E. pose proof (parse_ident_range_le _ _ _ _ E) as [-> He]. split; [done|].
  assert (List.length (sub_text i e s) = e - i) as Hl by (unfold sub_text; rewrite length_take, length_drop; lia).
  split; [|split; [done|lia]].
  unfold parse_ident_range in E. destruct (drop i s) as [|c r] eqn:Ed; [done|]. destruct (is_ident_start c) eqn:Ec; [|done].
  injection E as <-. unfold sub_text in *. rewrite Ed in *.
  assert (S (i + run_length is_ident_continue r) - i = S (run_length is_ident_continue r)) as Hn by lia. rewrite Hn in Hl |- *. clear Hn. cbn [take] in *. split.
  - unfold is_ident, parse_ident_range. cbn -[is_ident_start is_ident_continue run_length]. rewrite Ec. apply Nat.eqb_eq. f_equal.
    injection Hl as Hl. rewrite Hl.
    assert (forall P (l : text), run_length P (take (run_length P l) l) = run_length P l) as H.
    { intros P l. induction l as [|x l IH]; [done|]. cbn [run_length]. destruct (P x) eqn:Ex; cbn [take run_length]; rewrite ?Ex; congruence. }
    apply H.
  - exists (drop (run_length is_ident_continue r) r). split; [|apply run_length_stops]. simpl. by rewrite take_drop.
Qed.

Lemma declaration_end_found start next : find_derive_declaration_end s start = Ok next -> declaration_end start next.
Proof.
  unfold find_derive_declaration_end. revert next.
  apply (while_ind _ _ _ (fun i _ => exists l, passes start l i /\ header l) (fun r => forall next, r = Ok next -> declaration_end start next)); [done| |].
  2: { exists []. split; constructor. }
  intros i _ Hi (l & Hp & Hh). destruct (skip_trivia s i) eqn:Et.
  { pose proof (skip_trivia_le _ _ _ Et). split; [lia|]. exists l. split; [by eapply passes_trivia|done]. }
  destruct (byte_is s i "{") eqn:E1.
  { intros next. destruct (derive_balanced _ _ _ _) as [[[a z] n']|] eqn:Eb; [|done]. apply parse_balanced_closes in Eb as (_ & -> & Hc); [|done].
    intros [= <-]. eapply ends_braces; [done..| |done]. split; [by apply byte_is_some|done]. }
  destruct (byte_is s i "(") eqn:E2.
  { intros next. destruct (derive_balanced _ _ _ _) as [[[a z] n']|] eqn:Eb; [|done]. apply parse_balanced_closes in Eb as (_ & -> & Hc); [|done].
    intros [= <-]. eapply ends_list; [done..| |done|apply skip_ws_and_comments_first]. split; [by apply byte_is_some|done]. }
  destruct (byte_is s i ";") eqn:E3.
  { intros next [= <-]. eapply ends_semicolon; [done..|]. split; [by apply byte_is_some|done]. }
  destruct (lookup_lt_is_Some_2 s i Hi) as [x Hx]. split; [lia|]. exists (l ++ [x]). split; [by constructor|].
  apply Forall_app. split; [done|]. constructor; [|constructor]. unfold byte_is in *. rewrite Hx in *.
  apply bool_decide_eq_false in E1, E2, E3. split_and!; congruence.
Qed.

Lemma skip_attributes_steps i j : skip_attributes s i = Ok j -> rtc (fun a b => blank_step a b \/ other_attribute a b) i j.
Proof.
  assert (forall a b, rtc blank_step a b -> rtc (fun a b => blank_step a b \/ other_attribute a b) a b) as Hb
    by (intros a b; apply rtc_subrel; by left).
  unfold skip_attributes. revert j.
  apply (while_ind _ _ _ (fun k _ => rtc (fun a b => blank_step a b \/ other_attribute a b) i k)
    (fun r => forall j, r = Ok j -> rtc (fun a b => blank_step a b \/ other_attribute a b) i j)).
  - intros k [] _ Hr j [= <-]. done.
  - intros k [] Hk Hr. destruct (byte_is s k "#") eqn:E1; [|by intros j [= <-]].
    cbn [negb]. destruct (byte_is s (skip_ws s (S k)) "[") eqn:E2; [|by intros j [= <-]]. cbn [negb].
    destruct (derive_balanced _ _ _ _) as [[[a z] n]|] eqn:Eb; [|done]. pose proof (parse_balanced_le _ _ _ _ _ _ _ _ Eb) as Hle.
    apply parse_balanced_closes in Eb as (_ & -> & Hc); [|done].
    pose proof (skip_ws_le s (S k)). pose proof (skip_ws_and_comments_le s (S z)). split; [lia|]. etrans; [|apply Hb, skip_blanks].
    eapply rtc_r; [exact Hr|right]. exists (skip_ws s (S k)), z. split; [by apply byte_is_some|]. split; [apply skip_ws_steps|done].
  - apply Hb, skip_blanks.
Qed.

Lemma skip_pub_visibility i k : skip_pub s i = Ok k -> visibility i k.
Proof.
  unfold skip_pub, visibility. destruct (parse_ident_range s i) as [[a e]|] eqn:E; [|intros [= <-]; by left].
  apply parse_ident_word in E as (-> & Hw & Hl & He). destruct (String.eqb_spec (str (sub_text i e s)) "pub") as [Ep|]; [|intros [= <-]; by left].
  assert (sub_text i e s = chars "pub") as Et by (by rewrite <- Ep, list_ascii_of_string_of_list_ascii).
  rewrite Et in Hw, Hl. simpl in Hl. replace e with (i + 3) by lia. intros H. right. exists (skip_ws_and_comments s (i + 3)).
  split; [done|]. split; [apply skip_blanks|]. destruct (byte_is s _ "("); [|injection H as <-; by left]. right.
  destruct (derive_balanced _ _ _ _) as [[[a' z] n]|] eqn:Eb; [|done]. apply parse_balanced_closes in Eb as (_ & -> & Hc); [|done].
  injection H as <-. exists z. split; [done|apply skip_blanks].
Qed.

Lemma derive_target_found i target : find_derive_target s i = Ok target -> stands_before i target.
Proof.
  unfold find_derive_target. destruct (skip_attributes s i) as [j|] eqn:Ea; [|done]. cbn beta iota.
  destruct (skip_pub s j) as [k|] eqn:Ep; [|done]. cbn beta iota. destruct (parse_ident_range s k) as [[a e]|] eqn:E; [|done].
  apply parse_ident_word in E as (-> & Hw & Hl & He).
  match goal with |- context [let? kind := ?X in _] => destruct X as [kind|] eqn:Ek; [|done] end. cbn beta iota.
  assert (sub_text k e s = chars (target_kind_str kind)) as Et.
  { rewrite <- (list_ascii_of_string_of_list_ascii (sub_text k e s)). f_equal.
    repeat match type of Ek with context [String.eqb ?x ?y] => destruct (String.eqb_spec x y) as [->|]; [by injection Ek as <-|] end. done. }
  destruct (parse_ident_range s (skip_ws_and_comments s e)) as [[a' e']|] eqn:E; [|done]. apply parse_ident_word in E as (-> & Hw' & _ & _).
  destruct (find_derive_declaration_end s k) as [next|] eqn:En; [|done]. cbn beta iota.
  match goal with |- context [let? fields := ?X in _] => destruct X as [fields|]; [|done] end. intros [= <-].
  assert (e = k + String.length (target_kind_str kind)) as Hke by (rewrite Et, length_chars in Hl; lia).
  exists k, (skip_ws_and_comments s e). cbn. rewrite list_ascii_of_string_of_list_ascii, <- Et, <- Hke.
  split; [exists j; split; [by apply skip_attributes_steps|by apply skip_pub_visibility]|].
  split; [done|]. split; [apply skip_blanks|]. split; [done|]. by apply declaration_end_found.
Qed.

(** *** Attributes *)

Lemma sub_text_app a b c : a <= b -> b <= c -> sub_text a c s = sub_text a b s ++ sub_text b c s.
Proof.
  intros H1 H2. unfold sub_text. replace (c - a) with (b - a + (c - b)) by lia. rewrite <- take_take_drop. f_equal.
  rewrite drop_drop. do 2 f_equal. lia.
Qed.

Lemma sub_text_byte i c : s !! i = Some c -> sub_text i (S i) s = [c].
Proof. intros Hc. unfold sub_text. rewrite (drop_S _ _ _ Hc). by replace (S i - i) with 1 by lia. Qed.

Lemma length_sub_text a b : a <= b -> b <= List.length s -> List.length (sub_text a b s) = b - a.
Proof. intros. unfold sub_text. rewrite length_take, length_drop. lia. Qed.

Lemma derive_items_named items derives : derive_items items = Ok derives ->
  derives = map str (List.filter (fun t => negb (bool_decide (t = []))) (map trimmed items)).
Proof.
  revert derives. induction items as [|item items IH]; intros derives; cbn [derive_items]; [by intros [= <-]|]. cbn [map List.filter].
  destruct (trimmed item) as [|c t] eqn:Et; [exact (IH derives)|]. rewrite bool_decide_eq_false_2 by done. cbn [negb].
  case_match; [done|]. destruct (derive_items items); [|done]. intros [= <-]. cbn [map]. f_equal. by apply IH.
Qed.

Lemma parse_derive_list_named inner derives : parse_derive_list inner = Ok derives -> derives = named inner /\ derives <> [].
Proof.
  unfold parse_derive_list. destruct (derive_items _) as [[|d ds]|] eqn:E; try done. intros [= <-]. split; [by apply derive_items_named|done].
Qed.

(** An attribute that is read stands in the text. *)
Lemma derive_attribute_found i derives next : parse_derive_attribute s i = Ok (Some (derives, next)) ->
  attribute_text i next derives /\ i < next <= List.length s.
Proof.
  unfold parse_derive_attribute. destruct (byte_is s i "#") eqn:E1; [|done]. cbn [negb]. apply byte_is_some in E1.
  destruct (skip_ws_steps (S i)) as (_ & Hb1 & _). pose proof (skip_ws_le s (S i)) as [L1 _]. set (p1 := skip_ws s (S i)) in *.
  destruct (byte_is s p1 "[") eqn:E2; [|done]. cbn [negb]. apply byte_is_some in E2.
  destruct (skip_ws_steps (S p1)) as (_ & Hb2 & _). pose proof (skip_ws_le s (S p1)) as [L2 _]. set (p2 := skip_ws s (S p1)) in *.
  destruct (parse_ident_range s p2) as [[a e]|] eqn:Ei; [|done]. apply parse_ident_word in Ei as (-> & _ & Hl & He).
  destruct (String.eqb_spec (str (sub_text p2 e s)) "derive") as [Ed|]; [|done]. cbn [negb].
  assert (sub_text p2 e s = chars "derive") as Et by (by rewrite <- Ed, list_ascii_of_string_of_list_ascii).
  destruct (skip_ws_steps e) as (_ & Hb3 & _). pose proof (skip_ws_le s e) as [L3 _]. set (p3 := skip_ws s e) in *.
  destruct (byte_is s p3 "("); [|done]. cbn [negb]. destruct (derive_balanced _ _ _ _) as [[[a' z] n]|] eqn:Eb; [|done]. cbn beta iota.
  pose proof (parse_balanced_le _ _ _ _ _ _ _ _ Eb) as (_ & Hz & _ & Hzl & _).
  apply parse_balanced_closes in Eb as (-> & -> & Hc); [|done].
  destruct (parse_derive_list _) as [ds|] eqn:Ep; [|done]. cbn beta iota. apply parse_derive_list_named in Ep as [Ep Hne].
  destruct (skip_ws_steps (S z)) as (_ & Hb4 & _). pose proof (skip_ws_le s (S z)) as [L4 _]. set (p4 := skip_ws s (S z)) in *.
  destruct (byte_is s p4 "]") eqn:E5; [|done]. cbn [negb]. apply byte_is_some in E5. pose proof (lookup_lt_Some _ _ _ E5) as Hp4.
  intros [= <- <-]. split; [|lia].
  exists (sub_text (S i) p1 s), (sub_text (S p1) p2 s), (sub_text e p3 s), (sub_text (S p3) z s), (sub_text (S z) p4 s).
  do 4 (split; [done|]). cbv zeta.
  assert (i + List.length ("#"%char :: sub_text (S i) p1 s ++ "["%char :: sub_text (S p1) p2 s ++ chars "derive" ++ sub_text e p3 s) = p3) as Hop.
  { rewrite <- Et. cbn [List.length]. rewrite length_app. cbn [List.length]. rewrite !length_app, !length_sub_text by lia. lia. }
  rewrite Hop. rewrite !length_sub_text by lia. replace (S p3 + (z - S p3)) with z by lia.
  split; [|split; [done|split; [lia|done]]].
  pose proof Hc as (E3 & [E4 _] & _).
  rewrite <- Et, (sub_text_app i (S i)), (sub_text_byte _ _ E1), (sub_text_app (S i) p1), (sub_text_app p1 (S p1)), (sub_text_byte _ _ E2),
    (sub_text_app (S p1) p2), (sub_text_app p2 e), (sub_text_app e p3), (sub_text_app p3 (S p3)), (sub_text_byte _ _ E3),
    (sub_text_app (S p3) z), (sub_text_app z (S z)), (sub_text_byte _ _ E4), (sub_text_app (S z) p4), (sub_text_byte _ _ E5) by lia.
  cbn [app]. by rewrite <- !app_assoc; cbn [app]; rewrite <- !app_assoc.
Qed.

Lemma skip_ws_over i w r : drop i s = w ++ r -> blank_text w -> stops is_ws r -> skip_ws s i = i + List.length w.
Proof. intros Hd Hw Hr. unfold skip_ws. rewrite Hd, run_length_app; [done| |done].
  clear Hd. induction Hw as [|c w Hc _ IH]; [done|]. cbn [forallb]. by rewrite Hc, IH.
Qed.

(** None is overlooked. *)
Lemma derive_attribute_none i : parse_derive_attribute s i = Ok None -> ~ derive_starts i.
Proof.
  intros Hp (w1 & w2 & r & H1 & H2 & Hd & Hr). revert Hp. unfold parse_derive_attribute.
  pose proof (drop_cons_at _ _ _ _ Hd) as (Hd1 & Hi & _). unfold byte_is at 1. rewrite Hi, bool_decide_eq_true_2 by done. cbn [negb].
  rewrite (skip_ws_over _ _ _ Hd1) by done. apply drop_app_at in Hd1. pose proof (drop_cons_at _ _ _ _ Hd1) as (Hd2 & Hi2 & _).
  unfold byte_is at 1. rewrite Hi2, bool_decide_eq_true_2 by done. cbn [negb].
  rewrite (skip_ws_over _ _ _ Hd2) by done. apply drop_app_at in Hd2.
  rewrite (parse_ident_range_at _ _ _ _ Hd2), (sub_text_at _ _ _ _ Hd2) by done. cbn [String.eqb].
  rewrite string_of_list_ascii_of_string. cbn [negb String.eqb Ascii.eqb Bool.eqb]. by repeat case_match.
Qed.

(** *** The attributes of a text *)

(** Line ends stay, every other byte becomes a blank. *)
Definition blanked (c : ascii) : ascii := if bool_decide (c = "010"%char \/ c = "013"%char) then c else " "%char.
Definition within (ranges : list (nat * nat)) (i : nat) : bool := existsb (fun r => Nat.leb r.1 i && Nat.ltb i r.2) ranges.

Definition blanked_in (ranges : list (nat * nat)) (masked : text) : Prop :=
  List.length masked = List.length s /\
  forall i c, s !! i = Some c -> masked !! i = Some (if within ranges i then blanked c else c).

Definition attributes_of (ranges : list (nat * nat)) (invocations : list DeriveInvocation) : Prop :=
  Forall2 (fun r i => attribute_text r.1 r.2 (di_derives i) /\ stands_before r.2 (di_target i)) ranges invocations /\
  StronglySorted (fun a b => a.2 <= b.1) ranges /\
  forall i, derive_starts i -> within ranges i = true.

Lemma masked_blanked c : masked_byte c = blanked c.
Proof.
  unfold masked_byte, blanked, NEWLINE. destruct (Ascii.eqb_spec c "010"), (Ascii.eqb_spec c "013"); cbn [orb];
    repeat case_bool_decide; naive_solver.
Qed.

Lemma within_snoc ranges a b i : within (ranges ++ [(a, b)]) i = within ranges i || (Nat.leb a i && Nat.ltb i b).
Proof. unfold within. rewrite existsb_app. cbn. by rewrite orb_false_r. Qed.

Lemma within_after ranges n i : Forall (fun r : nat * nat => r.2 <= n) ranges -> n <= i -> within ranges i = false.
Proof.
  intros HF Hi. apply not_true_iff_false. intros ([a b] & Hr & Hab)%existsb_exists. rewrite Forall_forall in HF.
  specialize (HF _ (proj2 (list_elem_of_In _ _) Hr)). cbn in *. apply andb_true_iff in Hab as [_ ?%Nat.ltb_lt]. lia.
Qed.

Lemma lookup_sub_text a b i : a <= i < b -> sub_text a b s !! (i - a) = s !! i.
Proof. intros Hi. unfold sub_text. rewrite lookup_take_lt, lookup_drop by lia. f_equal. lia. Qed.

(** What is known at [i], with [output] for the text before [last_copy]. *)
Definition collected_to (i : nat) (ranges : list (nat * nat)) (output : text) (invocations : list DeriveInvocation) (last_copy : nat) : Prop :=
  last_copy <= i <= List.length s /\ List.length output = last_copy /\
  (forall j c, j < last_copy -> s !! j = Some c -> output !! j = Some (if within ranges j then blanked c else c)) /\
  Forall2 (fun r i => attribute_text r.1 r.2 (di_derives i) /\ stands_before r.2 (di_target i)) ranges invocations /\
  StronglySorted (fun a b : nat * nat => a.2 <= b.1) ranges /\ Forall (fun r : nat * nat => r.2 <= last_copy) ranges /\
  (forall j, j < i -> derive_starts j -> within ranges j = true).

Lemma collected_attribute i ranges output invocations last_copy derives next target :
  collected_to i ranges output invocations last_copy -> i < List.length s ->
  parse_derive_attribute s i = Ok (Some (derives, next)) -> find_derive_target s next = Ok target ->
  i < next /\ collected_to next (ranges ++ [(i, next)])
    (output ++ sub_text last_copy i s ++ mask_removed_attribute (sub_text i next s)) (invocations ++ [mkDeriveInvocation derives target]) next.
Proof.
  intros (Hl & Ho & Hm & HF & Hs & Hr & Hd) Hi [Ha Hn]%derive_attribute_found Ht%derive_target_found. split; [lia|]. unfold collected_to.
  assert (List.length (sub_text last_copy i s) = i - last_copy) as L1 by (apply length_sub_text; lia).
  assert (List.length (sub_text i next s) = next - i) as L2 by (apply length_sub_text; lia).
  split; [lia|]. split.
  { unfold mask_removed_attribute. rewrite !length_app, length_map. lia. }
  split; [|split; [|split; [|split]]].
  - intros j c Hj Hc. rewrite within_snoc. destruct (decide (j < last_copy)) as [Hjl|Hjl].
    { rewrite lookup_app_l by lia. rewrite (Hm _ _ Hjl Hc). by rewrite (proj2 (Nat.leb_gt i j)), andb_false_l, orb_false_r by lia. }
    rewrite (within_after _ last_copy) by (done || lia). rewrite lookup_app_r by lia. rewrite Ho.
    destruct (decide (j < i)) as [Hji|Hji].
    { rewrite lookup_app_l by lia. rewrite (lookup_sub_text last_copy i j), Hc by lia. by rewrite (proj2 (Nat.leb_gt i j)) by lia. }
    rewrite lookup_app_r by lia. rewrite L1. replace (j - last_copy - (i - last_copy)) with (j - i) by lia. unfold mask_removed_attribute.
    rewrite list_lookup_fmap, (lookup_sub_text i next j), Hc by lia.
    rewrite (proj2 (Nat.leb_le i j)), (proj2 (Nat.ltb_lt j next)) by lia. cbn. by rewrite masked_blanked.
  - apply Forall2_app; [done|]. constructor; [done|constructor].
  - apply StronglySorted_app_2; [|done|by repeat constructor]. intros r x Hx ->%list_elem_of_singleton. rewrite Forall_forall in Hr.
    apply Hr in Hx. cbn. lia.
  - apply Forall_app. split; [|by repeat constructor]. eapply Forall_impl; [exact Hr|]. intros r ?. cbn in *. lia.
  - intros j Hj Hst. rewrite within_snoc. destruct (decide (j < i)); [by rewrite Hd by done|].
    rewrite (proj2 (Nat.leb_le i j)), (proj2 (Nat.ltb_lt j next)) by lia. by rewrite orb_true_r.
Qed.

Lemma collected output invocations : collect_derive_invocations s = Ok (output, invocations) ->
  exists ranges, attributes_of ranges invocations /\ blanked_in ranges output.
Proof.
  unfold collect_derive_invocations. revert output invocations.
  apply (while_ind _ _ _ (fun i '(output, invocations, last_copy) => exists ranges, collected_to i ranges output invocations last_copy)
    (fun r => forall output invocations, r = Ok (output, invocations) ->
       exists ranges, attributes_of ranges invocations /\ blanked_in ranges output)).
  - intros i [[output invs] last_copy] Hi (ranges & Hl & Ho & Hm & HF & Hs & Hr & Hd) out vs. case_match; [|done]. intros [= <- <-].
    exists ranges. split; [split; [done|split; [done|]]|split].
    + intros j Hj. apply Hd; [|done]. destruct Hj as (w1 & w2 & r & _ & _ & Hj & _). apply drop_cons_at in Hj as (_ & _ & ?). lia.
    + rewrite length_app, length_drop. lia.
    + intros j c Hc. destruct (decide (j < last_copy)); [by rewrite lookup_app_l by lia; apply Hm|].
      rewrite lookup_app_r by lia. rewrite lookup_drop, Ho. replace (last_copy + (j - last_copy)) with j by lia.
      by rewrite (within_after _ last_copy) by (done || lia).
  - intros i [[output invs] last_copy] Hi (ranges & HC).
    assert (~ derive_starts i -> i < S i /\ exists ranges, collected_to (S i) ranges output invs last_copy) as Hon.
    { intros Hn. split; [lia|]. exists ranges. destruct HC as (Hl & Ho & Hm & HF & Hs & Hr & Hd). do 6 (split; [done || lia|]).
      intros j Hj Hst. destruct (decide (j = i)) as [->|]; [done|]. apply Hd; [lia|done]. }
    destruct (byte_is s i "#") eqn:Eb.
    2: { apply Hon. intros (w1 & w2 & r & _ & _ & Hj & _). apply drop_cons_at in Hj as (_ & Hj & _). unfold byte_is in Eb.
         apply bool_decide_eq_false in Eb. done. }
    destruct (parse_derive_attribute s i) as [[[derives next]|]|] eqn:Ea; [|by apply Hon, derive_attribute_none|by intros ? ?].
    destruct (find_derive_target s next) as [target|] eqn:Et; [|by intros ? ?].
    destruct (collected_attribute _ _ _ _ _ _ _ _ HC Hi Ea Et) as [Hn HC']. split; [done|]. by exists (ranges ++ [(i, next)]).
  - exists []. unfold collected_to. split_and!; first [constructor|intros; lia|simpl; lia].
Qed.

End written.

(** The text with snippets at positions of it, from position [p] on. *)
Fixpoint woven (p : nat) (insertions : list (nat * text)) (s : text) : text :=
  match insertions with
  | [] => drop p s
  | (q, snippet) :: insertions => sub_text p q s ++ snippet ++ woven q insertions s
  end.

Lemma insert_snippets_woven insertions : forall offset p pre s,
  StronglySorted (fun a b : nat * text => a.1 <= b.1) insertions -> Forall (fun a => p <= a.1 <= List.length s) insertions ->
  List.length pre = p + offset ->
  insert_snippets insertions offset (pre ++ drop p s) = Ok (pre ++ woven p insertions s).
Proof.
  induction insertions as [|[q snippet] insertions IH]; intros offset p pre s Hs HF Hp; cbn [insert_snippets woven]; [done|].
  inversion Hs as [|? ? Hs' Hq]; inversion HF as [|? ? Hq' HF']; subst. simpl in Hq'.
  rewrite (proj2 (Nat.ltb_ge _ _)) by (rewrite length_app, length_drop; lia).
  assert (drop p s = sub_text p q s ++ drop q s) as Hd.
  { unfold sub_text. rewrite <- (take_drop (q - p) (drop p s)) at 1. by rewrite drop_drop, Nat.add_comm, Nat.sub_add by lia. }
  assert (List.length (pre ++ sub_text p q s) = q + offset) as Hl.
  { unfold sub_text. rewrite length_app, length_take, length_drop. lia. }
  replace (pre ++ drop p s) with ((pre ++ sub_text p q s) ++ drop q s) by (by rewrite <- app_assoc, <- Hd).
  rewrite <- Hl, take_app_length, drop_app_length.
  rewrite app_assoc, IH; [by rewrite <- !app_assoc|done| |rewrite (length_app _ snippet); lia].
  rewrite Forall_forall in Hq, HF' |- *. intros a Ha. specialize (Hq a Ha). specialize (HF' a Ha). simpl in *. lia.
Qed.

(** ** What is inserted *)

Section expansion.
Context (env : string -> option string) (command_outcome : string -> string -> DeriveTarget -> CommandOutcome) (lex : string -> list Token).

(** What one derive of an invocation gives, on lines of its own behind the
    declaration. *)
Definition snippet_of (hasher : bool) (i : DeriveInvocation) (derive : string) (snippet : nat * text) : Prop :=
  exists generated, execute_derive_macro env command_outcome derive (di_target i) (di_derives i) hasher = Ok generated /\
    is_blank_text generated = false /\ snippet = (dt_insert_after (di_target i), NEWLINE :: chars generated ++ [NEWLINE]).

Definition snippets_of (hasher : bool) (invocations : list DeriveInvocation) (insertions : list (nat * text)) : Prop :=
  Forall2 (fun d s => snippet_of hasher d.1 d.2 s) (flat_map (fun i => map (pair i) (di_derives i)) invocations) insertions.

Lemma insertions_of_snippets i derives hasher insertions :
  insertions_of env command_outcome derives (di_derives i) (di_target i) hasher = Ok insertions ->
  Forall2 (fun d s => snippet_of hasher d.1 d.2 s) (map (pair i) derives) insertions.
Proof.
  revert insertions. induction derives as [|derive derives IH]; intros insertions; cbn [insertions_of]; [by intros [= <-]|].
  destruct (execute_derive_macro _ _ _ _ _ _) as [g|] eqn:Eg; [|done]. cbn beta iota. case_match eqn:Eb; [done|].
  destruct (insertions_of _ _ _ _ _ _); [|done]. intros [= <-]. constructor; [|by apply IH]. by exists g.
Qed.

Lemma all_insertions_snippets invocations hasher insertions :
  all_insertions env command_outcome invocations hasher = Ok insertions -> snippets_of hasher invocations insertions.
Proof.
  revert insertions. induction invocations as [|i invocations IH]; intros insertions; cbn [all_insertions]; [intros [= <-]; constructor|].
  destruct (insertions_of _ _ _ _ _ _) eqn:E; [|done]. cbn beta iota. destruct (all_insertions _ _ _ _); [|done]. intros [= <-].
  apply Forall2_app; [by apply insertions_of_snippets|by apply IH].
Qed.

Lemma declaration_end_le (s : text) from e : declaration_end s from e -> e <= List.length s.
Proof.
  intros [l p _ _ [H _]|l p q _ _ _ (_ & [H _] & _)|l p q r _ _ _ (_ & [H _] & _) _]; apply lookup_lt_Some in H; [lia..|].
  destruct (byte_is s r ";") eqn:E; [|lia]. apply byte_is_some, lookup_lt_Some in E. lia.
Qed.

Lemma snippets_positions (s : text) ranges invocations hasher insertions :
  attributes_of s ranges invocations -> snippets_of hasher invocations insertions -> Forall (fun a => a.1 <= List.length s) insertions.
Proof.
  intros (HF & _) Hs. unfold snippets_of in Hs.
  assert (Forall (fun i => dt_insert_after (di_target i) <= List.length s) invocations) as Hi.
  { clear Hs. induction HF as [|r i ranges invocations [_ Hd] _ IH]; constructor; [|done].
    destruct Hd as (k & n & _ & _ & _ & _ & Hd). by apply declaration_end_le in Hd. }
  clear HF. revert insertions Hs. induction Hi as [|i invocations Hi _ IH]; intros insertions Hs; cbn [flat_map] in Hs; [by inversion Hs|].
  apply Forall2_app_inv_l in Hs as (l1 & l2 & H1 & H2 & ->). apply Forall_app. split; [|by apply IH]. clear -Hi H1.
  remember (di_derives i) as derives eqn:E. clear E. revert l1 H1.
  induction derives as [|d derives IH]; intros l1 H1; cbn [map] in H1; inversion H1 as [|? ? ? ? (g & _ & _ & ->)]; subst; constructor; [done|by apply IH].
Qed.

Definition by_position : list (nat * text) -> list (nat * text) := sort_by (fun a b => Nat.leb a.1 b.1).

Lemma by_position_sorted insertions : StronglySorted (fun a b : nat * text => a.1 <= b.1) (by_position insertions).
Proof.
  assert (StronglySorted (fun a b : nat * text => Nat.leb a.1 b.1) (by_position insertions)) as H.
  { apply sort_by_sorted; intros *; rewrite !Is_true_true, !Nat.leb_le; lia. }
  induction H as [|a l _ IH HF]; constructor; [done|]. eapply Forall_impl; [exact HF|]. intros b. by rewrite Is_true_true, Nat.leb_le.
Qed.

(** The snippets in the order of the text: by position, and at one position in
    the order in which they were generated. *)
Definition ordered (insertions in_order : list (nat * text)) : Prop :=
  in_order ≡ₚ insertions /\ StronglySorted (fun a b : nat * text => a.1 <= b.1) in_order /\
  forall p, filter (fun a => a.1 = p) in_order = filter (fun a => a.1 = p) insertions.

Lemma by_position_ordered insertions : ordered insertions (by_position insertions).
Proof.
  split; [apply sort_by_perm|]. split; [apply by_position_sorted|]. intros p.
  apply (sort_by_stable fst Nat.leb); intros *; rewrite !Is_true_true, !Nat.leb_le; lia.
Qed.

(** C11: derives are inserted exactly.  Each invocation that is collected belongs
    to a derive attribute of the text ([attribute_text]), with the names in its
    list; every place where a derive attribute starts lies in one of them; and the
    invocation's target is the declaration behind it, by keyword, name and end
    ([stands_before]).  The text keeps its length; the bytes of the attributes, and no
    others, become blanks (line ends stay, so positions keep their line and
    column).  Each derive of each invocation gives one snippet, what it generates
    on lines of its own, placed where the declaration ends: behind the brace that
    closes its body, or its semicolon, or its list.  The snippets are woven into
    the blanked text by position, and at one position in the order of the
    derives.  The offsets the code keeps are right, so its internal error does not
    occur; the result is returned when it parses. *)
Theorem derives_inserted_exactly (source masked : text) (invocations : list DeriveInvocation) (insertions : list (nat * text)) :
  contains ["#"%char] source = true -> collect_derive_invocations source = Ok (masked, invocations) -> invocations <> [] ->
  all_insertions env command_outcome invocations (source_provides_hasher source) = Ok insertions ->
  (exists ranges, attributes_of source ranges invocations /\ blanked_in source ranges masked) /\
  snippets_of (source_provides_hasher source) invocations insertions /\
  exists in_order, ordered insertions in_order /\
    let expanded := woven 0 in_order masked in
    expand_derive_macros env command_outcome lex source =
      match validate_expanded_source lex (str expanded) with
      | None => None
      | Some (Err e) => Some (Err e)
      | Some (Ok _) => Some (Ok expanded)
      end.
Proof.
  intros Hc Hcol Hne Hins. destruct (collected _ _ _ Hcol) as (ranges & Ha & Hb). pose proof (all_insertions_snippets _ _ _ Hins) as Hs.
  pose proof (snippets_positions _ _ _ _ _ Ha Hs) as Hp.
  split; [by exists ranges|]. split; [done|]. exists (by_position insertions). split; [apply by_position_ordered|].
  cbv zeta. unfold expand_derive_macros. rewrite Hc, Hcol, Hins. cbn [negb]. destruct invocations; [done|].
  fold (by_position insertions). change masked with ([] ++ drop 0 masked) at 1.
  rewrite insert_snippets_woven; [done|apply by_position_sorted| |done].
  unfold by_position. rewrite sort_by_perm, (proj1 Hb). eapply Forall_impl; [exact Hp|]. intros a ?. simpl in *. lia.
Qed.
End expansion.

Definition two_derives : text := chars "#[derive(Clone)] struct A { x: i64 }
#[derive(Debug)] enum B { C }
".
Definition two_derives_collected : text * list DeriveInvocation :=
  match collect_derive_invocations two_derives with Ok r => r | Err _ => ([], []) end.
Definition two_derives_insertions : list (nat * text) :=
  match all_insertions no_env no_command two_derives_collected.2 false with Ok r => r | Err _ => [] end.

Lemma derives_inserted_exactly_witness :
  (exists ranges, attributes_of two_derives ranges two_derives_collected.2 /\ blanked_in two_derives ranges two_derives_collected.1) /\
  snippets_of no_env no_command false two_derives_collected.2 two_derives_insertions /\
  (exists in_order, ordered two_derives_insertions in_order) /\
  expand_derive_macros no_env no_command scan two_derives = Some (Ok (chars
"                 struct A { x: i64 }
impl Clone for A {
}
impl A {
    def clone(&self) -> A {
        A { x: self.x }
    }
}

                 enum B { C }
impl Debug for B {
    def __derived_debug_marker(&self) -> i64 {
        1
    }
}

")).
Proof.
  destruct (derives_inserted_exactly no_env no_command scan two_derives two_derives_collected.1 two_derives_collected.2 two_derives_insertions
    ltac:(vm_compute; reflexivity) ltac:(vm_compute; reflexivity) ltac:(vm_compute; discriminate) ltac:(vm_compute; reflexivity)) as (H1 & H2 & in_order & H3 & _).
  split; [exact H1|]. split; [exact H2|]. split; [by exists in_order|]. vm_compute. reflexivity.
Defined.
