(* ===== verification/ExpandExamples.v ===== *)
(** Texts the expanders change otherwise than their author can mean, each run
    through the definitions. *)

From S2P Require Import Prelude Strs Ast Token Parser ParserDecl Scanner ExpandText MacroExpander AttributeExpander DeriveExpander Frontend ExpandInv.
From Stdlib Require Import Ascii String.

#[local] Open Scope string_scope.
#[local] Open Scope list_scope.

#[local] Notation chars := list_ascii_of_string (only parsing).
#[local] Notation str := string_of_list_ascii (only parsing).

Definition macros_of (source : string) : result string CompileError :=
  match expand_declarative_macros (chars source) with Ok t => Ok (str t) | Err e => Err e end.
Definition attributes_of (source : string) : option (result string CompileError * AttributeState) :=
  match process_surface_attributes HostLinux [] (chars source) None with
  | Some (Ok t, state) => Some (Ok (str t), state)
  | Some (Err e, state) => Some (Err e, state)
  | None => None
  end.
Definition derives_of (source : string) : option (result string CompileError) :=
  match expand_derive_macros no_env no_command scan (chars source) with
  | Some (Ok t) => Some (Ok (str t))
  | Some (Err e) => Some (Err e)
  | None => None
  end.

Definition is_ok_result {A E B} (r : option (result A E * B)) : bool := match r with Some (Ok _, _) => true | _ => false end.

(** ** Macros *)

(** A capture is pasted as text: it is taken apart by the precedence of what is
    around it. *)
Theorem captures_are_not_grouped :
  macros_of "macro_rules! double { ($x:expr) => { $x * 2 } } def f() -> i64 { double!(1 + 2) }" =
    Ok " def f() -> i64 {  1 + 2 * 2  }".
Proof. vm_compute. reflexivity. Qed.

(** Angle brackets count as delimiters, in expressions too. *)
Theorem comparison_is_no_argument :
  macros_of "macro_rules! id { ($x:expr) => { $x } } def f() -> bool { id!(a < b) }" =
    Err (parse_error "unbalanced delimiters while splitting macro arguments/pattern").
Proof. vm_compute. reflexivity. Qed.

(** In a file with macros, a keyword before a negation is an invocation. *)
Theorem negation_is_invocation :
  macros_of "macro_rules! id { ($x:expr) => { $x } } def f() -> bool { return !(b) }" = Err (parse_error "unknown macro `return`") /\
  macros_of "def f() -> bool { return !(b) }" = Ok "def f() -> bool { return !(b) }".
Proof. split; vm_compute; reflexivity. Qed.

(** Definitions are looked for in comments and strings. *)
Theorem definitions_in_comments :
  macros_of "// macro_rules! are described in the manual
def f() { }" = Err (parse_error "expected `{` after macro name `are` in `macro_rules!`").
Proof. vm_compute. reflexivity. Qed.

(** ** Attributes *)

(** An attribute at the end of a file is indexed past the end. *)
Theorem attribute_at_end_panics : attributes_of "#[deprecated]" = None.
Proof. vm_compute. reflexivity. Qed.

(** What stands behind the last declaration is written twice. *)
Theorem rest_written_twice :
  attributes_of "def f() { } // #1" = Some (Ok "def f() { } // #1 // #1", Some []).
Proof. vm_compute. reflexivity. Qed.

(** A tuple struct needs no semicolon, but its end is looked for up to one or up
    to a block: a [cfg] that is false takes the next declaration with it. *)
Theorem cfg_removes_next_declaration :
  attributes_of (String.concat EmptyString ["#[cfg(feature = "; str [QUOTE]; "x"; str [QUOTE]; ")] struct P(i64) def f() -> i64 { 1 } def g() { }"]) =
    Some (Ok " def g() { }", Some []) /\
  is_ok_result (parse_text scan "struct P(i64) def f() -> i64 { 1 } def g() { }" 64) = true.
Proof. split; vm_compute; reflexivity. Qed.

(** A message and further entries: all of them become the message. *)
Theorem deprecated_message_keeps_quotes :
  let q := str [QUOTE] in
  parse_deprecated_metadata (chars (String.concat EmptyString [q; "old"; q; ", replacement = "; q; "f"; q])) =
    Ok (mkMetadata (Some (chars (String.concat EmptyString ["old"; q; ", replacement = "; q; "f"]))) None None).
Proof. vm_compute. reflexivity. Qed.

(** ** Derives *)

(** A field behind a comment, or behind one without a comma (both are read by
    the parser), is left out of what is derived. *)
Theorem commented_field_not_compared :
  derives_of "#[derive(PartialEq)] struct P { x: i64, // the other
 y: i64 }
" = Some (Ok "                     struct P { x: i64, // the other
 y: i64 }
impl PartialEq for P {
}
impl P {
    def eq(&self, other: &P) -> bool {
        self.x == other.x
    }
}

").
Proof. vm_compute. reflexivity. Qed.

(** Attributes in comments are expanded, and have to be followed by a
    declaration. *)
Theorem derive_in_comment :
  derives_of "// #[derive(Copy)]
struct P { x: i64 }
" = Some (Ok "//                
struct P { x: i64 }
impl Copy for P {
}

") /\
  derives_of "// #[derive(Copy)] was here
struct P { x: i64 }
" = Some (Err (parse_error "derive attribute is only supported on struct/enum/class declarations, found `was`")).
Proof. split; vm_compute; reflexivity. Qed.
