(* ===== verification/TypeEnv.v ===== *)
(** The type environment: compiler/src/typeck/env.rs, with [type_key] of
    typeck/trait.rs.

    The environment is an arena of scopes linked by parent indices, the
    counters and the shared interner, the struct layouts and the drop-owned
    keys of ownership analysis, and the answers the checker records per call
    site.  [scope_stack] is what the arena stands for, a stack of maps, and
    the first part of the theorems shows that the operations implement that
    stack.  The search through struct layouts carries a set of the names it
    is inside of; the bound [size layouts] on its depth is enough, since
    each level adds a name. *)

From S2P Require Import Prelude Ast Ty Interner.
From stdpp Require Import pretty fin_sets.

#[local] Open Scope string_scope.

(** ** Names of types *)

Definition int_kind_name (k : IntKind) : string :=
  match k with
  | I8 => "i8" | I16 => "i16" | I32 => "i32" | I64 => "i64" | I128 => "i128" | ISize => "isize"
  | U8 => "u8" | U16 => "u16" | U32 => "u32" | U64 => "u64" | U128 => "u128" | USize => "usize"
  end.

Definition float_kind_name (k : FloatKind) : string := match k with F32 => "f32" | F64 => "f64" end.

Fixpoint type_key (ty : Ty) : string :=
  match ty with mkTy _ k =>
    match k with
    | TUnit => "()"
    | TBool => "bool"
    | TInt k => int_kind_name k
    | TFloat k => float_kind_name k
    | TStr => "str"
    | TChar => "char"
    | TAdt name args =>
        match args with
        | [] => name
        | _ => name +:+ "<" +:+ String.concat "," (map type_key args) +:+ ">"
        end
    | TAssocProjection base trait_name name =>
        "<" +:+ type_key base +:+ " as " +:+ trait_name +:+ ">::" +:+ name
    | TRef _ inner => "&" +:+ type_key inner
    | TPtr inner => "*" +:+ type_key inner
    | TArray elem len => "[" +:+ type_key elem +:+ "; " +:+ pretty len +:+ "]"
    | TSlice elem => "[" +:+ type_key elem +:+ "]"
    | TTuple types =>
        match types with
        | [] => "()"
        | _ => "(" +:+ String.concat ", " (map type_key types) +:+ ")"
        end
    | TFn _ _ _ => "fn"
    | TNever => "!"
    | TVar _ | TError => "?"
    | _ => "<unknown>"
    end
  end.

(** ** Symbols and scopes *)

Inductive SymbolKind :=
| SymVar (ty : Ty) (is_mut : bool)
| SymFunction (ty : Ty)
| SymType (ty : Ty)
| SymTrait (name : string)
| SymConst (ty : Ty)
| SymStatic (ty : Ty) (is_mut : bool)
| SymModule (name : string)
| SymTypeParam (name : string)
| SymLifetimeParam (name : string).

Record Symbol := mkSymbol { sym_name : string; sym_kind : SymbolKind }.

Definition symbol_var_with_mutability (name : string) (ty : Ty) (is_mut : bool) : Symbol :=
  mkSymbol name (SymVar ty is_mut).
Definition symbol_var (name : string) (ty : Ty) : Symbol := symbol_var_with_mutability name ty false.
Definition symbol_function (name : string) (ty : Ty) : Symbol := mkSymbol name (SymFunction ty).
Definition type_symbol (name : string) (ty : Ty) : Symbol := mkSymbol name (SymType ty).

Definition get_ty (s : Symbol) : option Ty :=
  match sym_kind s with
  | SymVar ty _ | SymFunction ty | SymType ty | SymConst ty | SymStatic ty _ => Some ty
  | _ => None
  end.

Record Scope := mkScope { symbols : gmap string Symbol; parent : option nat }.

Definition scope_new (parent : option nat) : Scope := mkScope ∅ parent.
Definition scope_insert (name : string) (s : Symbol) (sc : Scope) : Scope :=
  mkScope (<[name := s]> (symbols sc)) (parent sc).
Definition scope_get (name : string) (sc : Scope) : option Symbol := symbols sc !! name.

Record StructFieldTypes := mkStructFieldTypes {
  type_params : list TyVarId;
  fields : list (string * Ty);
}.

Record TypeEnv := mkTypeEnv {
  scopes : list Scope;
  current : nat;
  next_ty_id : nat;
  next_ty_var_id : nat;
  env_interner : TyInterner;
  owned_string_ty : option Ty;
  drop_owned_type_keys : gset string;
  struct_field_types : gmap string StructFieldTypes;
  resolved_method_return_types : gmap (Z * Z) Ty;
  resolved_call_return_types : gmap Z Ty;
  resolved_struct_literal_types : gmap (Z * Z) Ty;
  resolved_associated_functions : gmap Z string;
}.

Definition set_scopes (ss : list Scope) (cur : nat) (e : TypeEnv) : TypeEnv :=
  mkTypeEnv ss cur (next_ty_id e) (next_ty_var_id e) (env_interner e) (owned_string_ty e)
    (drop_owned_type_keys e) (struct_field_types e) (resolved_method_return_types e)
    (resolved_call_return_types e) (resolved_struct_literal_types e) (resolved_associated_functions e).

Definition set_types (ni nv : nat) (i : TyInterner) (e : TypeEnv) : TypeEnv :=
  mkTypeEnv (scopes e) (current e) ni nv i (owned_string_ty e)
    (drop_owned_type_keys e) (struct_field_types e) (resolved_method_return_types e)
    (resolved_call_return_types e) (resolved_struct_literal_types e) (resolved_associated_functions e).

Definition set_ownership (o : option Ty) (d : gset string) (f : gmap string StructFieldTypes)
  (e : TypeEnv) : TypeEnv :=
  mkTypeEnv (scopes e) (current e) (next_ty_id e) (next_ty_var_id e) (env_interner e) o d f
    (resolved_method_return_types e) (resolved_call_return_types e) (resolved_struct_literal_types e)
    (resolved_associated_functions e).

Definition set_resolved (m : gmap (Z * Z) Ty) (c : gmap Z Ty) (l : gmap (Z * Z) Ty) (a : gmap Z string)
  (e : TypeEnv) : TypeEnv :=
  mkTypeEnv (scopes e) (current e) (next_ty_id e) (next_ty_var_id e) (env_interner e)
    (owned_string_ty e) (drop_owned_type_keys e) (struct_field_types e) m c l a.

(** ** Scopes *)

Definition push_scope (e : TypeEnv) : TypeEnv :=
  let parent := match scopes e with [] => None | _ => Some (current e) end in
  set_scopes (scopes e ++ [scope_new parent]) (length (scopes e)) e.

Definition pop_scope (e : TypeEnv) : bool * TypeEnv :=
  if Nat.eqb (current e) 0 then (false, e)
  else match scopes e !! current e with
       | Some sc => match parent sc with
                    | Some p => (true, set_scopes (scopes e) p e)
                    | None => (false, e)
                    end
       | None => (false, e)
       end.

Definition env_insert (name : string) (s : Symbol) (e : TypeEnv) : TypeEnv :=
  match scopes e !! current e with
  | Some sc => set_scopes (<[current e := scope_insert name s sc]> (scopes e)) (current e) e
  | None => e
  end.

Definition insert_var (name : string) (ty : Ty) : TypeEnv -> TypeEnv :=
  env_insert name (symbol_var name ty).
Definition insert_var_with_mutability (name : string) (ty : Ty) (is_mut : bool) : TypeEnv -> TypeEnv :=
  env_insert name (symbol_var_with_mutability name ty is_mut).
Definition insert_fn (name : string) (ty : Ty) : TypeEnv -> TypeEnv :=
  env_insert name (symbol_function name ty).
Definition insert_type (name : string) (ty : Ty) : TypeEnv -> TypeEnv :=
  env_insert name (type_symbol name ty).

(** The loops of [lookup] and [depth] follow parent links; [n] bounds their
    steps and [S current] is enough because a parent has a smaller index. *)
Fixpoint lookup_from (n : nat) (ss : list Scope) (cur : nat) (name : string) : option Symbol :=
  match n with
  | 0 => None
  | S n' =>
      match ss !! cur with
      | None => None
      | Some sc =>
          match scope_get name sc with
          | Some s => Some s
          | None => match parent sc with
                    | Some p => lookup_from n' ss p name
                    | None => None
                    end
          end
      end
  end.

Definition lookup (name : string) (e : TypeEnv) : option Symbol :=
  lookup_from (S (current e)) (scopes e) (current e) name.

Definition lookup_in_current (name : string) (e : TypeEnv) : option Symbol :=
  match scopes e !! current e with Some sc => scope_get name sc | None => None end.

Definition contains (name : string) (e : TypeEnv) : bool := is_some (lookup name e).

Fixpoint depth_from (n : nat) (ss : list Scope) (cur : nat) : nat :=
  match n with
  | 0 => 0
  | S n' =>
      match ss !! cur with
      | None => 0
      | Some sc => S match parent sc with Some p => depth_from n' ss p | None => 0 end
      end
  end.

Definition depth (e : TypeEnv) : nat := depth_from (S (current e)) (scopes e) (current e).

(** ** Making types *)

Definition fresh_ty_id (e : TypeEnv) : nat * TypeEnv :=
  (next_ty_id e, set_types (S (next_ty_id e)) (next_ty_var_id e) (env_interner e) e).

Definition fresh_ty_var_id (e : TypeEnv) : nat * TypeEnv :=
  (next_ty_var_id e, set_types (next_ty_id e) (S (next_ty_var_id e)) (env_interner e) e).

Definition env_new_ty (kind : TyKind) (e : TypeEnv) : Ty * TypeEnv :=
  let '(id, e1) := fresh_ty_id e in
  let ty := mkTy id kind in
  (ty, set_types (next_ty_id e1) (next_ty_var_id e1) (intern_ty ty (env_interner e1)).2 e1).

Definition env_new_ty_var (e : TypeEnv) : Ty * TypeEnv :=
  let '(v, e1) := fresh_ty_var_id e in env_new_ty (TVar v) e1.

Definition env_error_ty : TypeEnv -> Ty * TypeEnv := env_new_ty TError.

(** The type of a builtin name if it has one, else a new type of the kind. *)
Definition named_or_new (name : string) (kind : TyKind) (e : TypeEnv) : Ty * TypeEnv :=
  match lookup name e with
  | Some s => match get_ty s with Some ty => (ty, e) | None => env_new_ty kind e end
  | None => env_new_ty kind e
  end.

Definition unit_ty : TypeEnv -> Ty * TypeEnv := named_or_new "()" TUnit.
Definition never_ty : TypeEnv -> Ty * TypeEnv := named_or_new "!" TNever.
Definition bool_ty : TypeEnv -> Ty * TypeEnv := named_or_new "bool" TBool.
Definition int_ty (k : IntKind) : TypeEnv -> Ty * TypeEnv := named_or_new (int_kind_name k) (TInt k).
Definition float_ty (k : FloatKind) : TypeEnv -> Ty * TypeEnv :=
  named_or_new (float_kind_name k) (TFloat k).
Definition str_ty : TypeEnv -> Ty * TypeEnv := named_or_new "str" TStr.
Definition ref_ty (m : bool) (inner : Ty) : TypeEnv -> Ty * TypeEnv := env_new_ty (TRef m inner).
Definition fn_ty (params : list Ty) (ret : Ty) : TypeEnv -> Ty * TypeEnv :=
  env_new_ty (TFn params ret false).
Definition tuple_ty (types : list Ty) : TypeEnv -> Ty * TypeEnv :=
  env_new_ty match types with [] => TUnit | _ => TTuple types end.
Definition array_ty (elem : Ty) (len : nat) : TypeEnv -> Ty * TypeEnv := env_new_ty (TArray elem len).
Definition slice_ty (elem : Ty) : TypeEnv -> Ty * TypeEnv := env_new_ty (TSlice elem).

Definition declare_fn (name : string) (params : list Ty) (ret : Ty) (e : TypeEnv) : TypeEnv :=
  let '(ty, e1) := fn_ty params ret e in insert_fn name ty e1.

Definition env_intern_ty (ty : Ty) (e : TypeEnv) : InternedTyId * TypeEnv :=
  let '(id, i) := intern_ty ty (env_interner e) in
  (id, set_types (next_ty_id e) (next_ty_var_id e) i e).

Definition symbol_ty_id (name : string) (e : TypeEnv) : option InternedTyId * TypeEnv :=
  match lookup name e with
  | Some s => match get_ty s with
              | Some ty => let '(id, e1) := env_intern_ty ty e in (Some id, e1)
              | None => (None, e)
              end
  | None => (None, e)
  end.

(** ** The initial environment *)

(** The builtin kinds in the order they are created; a name of [None] is
    interned but not bound. *)
Definition builtin_kinds : list (option string * TyKind) :=
  [ (Some "()", TUnit); (Some "!", TNever); (Some "bool", TBool); (Some "char", TChar);
    (Some "str", TStr); (Some "u8", TByte); (Some "[u8]", TBytes);
    (Some "i8", TInt I8); (Some "i16", TInt I16); (Some "i32", TInt I32); (Some "i64", TInt I64);
    (Some "i128", TInt I128); (Some "isize", TInt ISize); (None, TInt U8);
    (Some "u16", TInt U16); (Some "u32", TInt U32); (Some "u64", TInt U64); (Some "u128", TInt U128);
    (Some "usize", TInt USize); (Some "f32", TFloat F32); (Some "f64", TFloat F64) ].

Definition insert_builtin_types (e : TypeEnv) : TypeEnv :=
  let '(tys, e1) := traverse (fun nk e => let '(ty, e') := env_new_ty nk.2 e in ((nk.1, ty), e'))
                      builtin_kinds e in
  fold_left (fun e nt => match nt.1 with Some name => insert_type name nt.2 e | None => e end) tys e1.

Definition insert_builtin_functions (e : TypeEnv) : TypeEnv :=
  let '(unit, e1) := unit_ty e in
  let '(i64, e2) := int_ty I64 e1 in
  let '(str, e3) := str_ty e2 in
  let '(str_ref, e4) := ref_ty false str e3 in
  let e5 := declare_fn "print" [str_ref] unit e4 in
  (fn_ty [i64] unit e5).2.

Definition env_empty : TypeEnv :=
  mkTypeEnv [] 0 0 0 interner_new None ∅ ∅ ∅ ∅ ∅ ∅.

Definition env_new : TypeEnv :=
  insert_builtin_functions (insert_builtin_types (push_scope env_empty)).

(** ** Answers recorded per call site *)

Definition span_key (s : Span) : Z * Z := (span_lo s, span_hi s).

Definition record_method_return_type (s : Span) (ty : Ty) (e : TypeEnv) : TypeEnv :=
  set_resolved (<[span_key s := ty]> (resolved_method_return_types e)) (resolved_call_return_types e)
    (resolved_struct_literal_types e) (resolved_associated_functions e) e.
Definition resolved_method_return_type (s : Span) (e : TypeEnv) : option Ty :=
  resolved_method_return_types e !! span_key s.

Definition record_call_return_type (site : Z) (ty : Ty) (e : TypeEnv) : TypeEnv :=
  set_resolved (resolved_method_return_types e) (<[site := ty]> (resolved_call_return_types e))
    (resolved_struct_literal_types e) (resolved_associated_functions e) e.
Definition resolved_call_return_type (site : Z) (e : TypeEnv) : option Ty :=
  resolved_call_return_types e !! site.

Definition record_struct_literal_type (s : Span) (ty : Ty) (e : TypeEnv) : TypeEnv :=
  set_resolved (resolved_method_return_types e) (resolved_call_return_types e)
    (<[span_key s := ty]> (resolved_struct_literal_types e)) (resolved_associated_functions e) e.
Definition resolved_struct_literal_type (s : Span) (e : TypeEnv) : option Ty :=
  resolved_struct_literal_types e !! span_key s.

Definition record_associated_function (site : Z) (name : string) (e : TypeEnv) : TypeEnv :=
  set_resolved (resolved_method_return_types e) (resolved_call_return_types e)
    (resolved_struct_literal_types e) (<[site := name]> (resolved_associated_functions e)) e.
Definition resolved_associated_function (site : Z) (e : TypeEnv) : option string :=
  resolved_associated_functions e !! site.

(** ** Ownership of types *)

Definition mark_drop_owned_type (ty : Ty) (e : TypeEnv) : TypeEnv :=
  if is_copy_value ty then e
  else set_ownership (owned_string_ty e) ({[type_key ty]} ∪ drop_owned_type_keys e)
         (struct_field_types e) e.

Definition is_drop_owned_type (e : TypeEnv) (ty : Ty) : bool :=
  negb (is_copy_value ty) && bool_decide (type_key ty ∈ drop_owned_type_keys e).

Definition register_struct_field_types (name : string) (tps : list TyVarId) (fs : list (string * Ty))
  (e : TypeEnv) : TypeEnv :=
  set_ownership (owned_string_ty e) (drop_owned_type_keys e)
    (<[name := mkStructFieldTypes tps fs]> (struct_field_types e)) e.

Fixpoint substitute_ty_vars (subst : gmap TyVarId Ty) (ty : Ty) : Ty :=
  match ty with mkTy id k =>
    match k with
    | TVar v => match subst !! v with Some t => t | None => ty end
    | TTuple types => mkTy id (TTuple (map (substitute_ty_vars subst) types))
    | TArray elem len => mkTy id (TArray (substitute_ty_vars subst elem) len)
    | TSlice elem => mkTy id (TSlice (substitute_ty_vars subst elem))
    | TRef m inner => mkTy id (TRef m (substitute_ty_vars subst inner))
    | TPtr inner => mkTy id (TPtr (substitute_ty_vars subst inner))
    | TFn params ret v =>
        mkTy id (TFn (map (substitute_ty_vars subst) params) (substitute_ty_vars subst ret) v)
    | TAdt name args => mkTy id (TAdt name (map (substitute_ty_vars subst) args))
    | TAssocProjection base tr name =>
        mkTy id (TAssocProjection (substitute_ty_vars subst base) tr name)
    | TFuture inner => mkTy id (TFuture (substitute_ty_vars subst inner))
    | _ => ty
    end
  end.

(** [zip(...).collect::<HashMap>()]: a repeated parameter keeps the last
    argument. *)
Definition layout_subst (layout : StructFieldTypes) (args : list Ty) : gmap TyVarId Ty :=
  fold_left (fun m p => <[p.1 := p.2]> m) (zip (type_params layout) args) ∅.

Definition struct_field_type (e : TypeEnv) (owner : Ty) (field_name : string) : option Ty :=
  match ty_kind owner with
  | TAdt name args =>
      let* layout := struct_field_types e !! name in
      let* f := find (fun f => bool_decide (f.1 = field_name)) (fields layout) in
      Some (substitute_ty_vars (layout_subst layout args) f.2)
  | _ => None
  end.

Definition struct_field_types_for (e : TypeEnv) (owner : Ty) : option (list (string * Ty)) :=
  match ty_kind owner with
  | TAdt name args =>
      let* layout := struct_field_types e !! name in
      Some (map (fun f => (f.1, substitute_ty_vars (layout_subst layout args) f.2)) (fields layout))
  | _ => None
  end.

Definition is_legacy_idempotent_handle_type (ty : Ty) : bool :=
  match ty_kind ty with
  | TAdt name _ => bool_decide (name ∈
      ["Buffer"; "Vec"; "JsonDoc"; "ProcessCommand"; "ProcessOutput"; "ProcessHandle"; "TcpStream";
       "UdpSocket"; "HttpClient"; "HttpServer"; "HttpServerRequest"; "WsClient"; "HashMap";
       "HashMapIter"; "VecIter"; "TextList"; "TextListIter"; "StringMapI64"; "StringMapBool";
       "StringMapKeyIter"; "StringMapString"; "StringMapStringKeyIter"; "VecStringIter"])
  | _ => false
  end.

(** [n] bounds the nesting of struct layouts; [visiting] holds the names of
    the structs the search is inside of. *)
Fixpoint type_contains_drop_owned_value_inner (n : nat) (e : TypeEnv) : gset string -> Ty -> bool :=
  fix go (visiting : gset string) (ty : Ty) {struct ty} : bool :=
    match ty with mkTy _ k =>
      if is_copy_value ty then false
      else if is_drop_owned_type e ty then true
      else match k with
      | TTuple types => existsb (go visiting) types
      | TArray elem _ => go visiting elem
      | TAdt name _ =>
          match struct_field_types e !! name with
          | None => false
          | Some layout =>
              if bool_decide (name ∈ visiting) then false
              else match n with
                   | 0 => false
                   | S n' => existsb (fun f =>
                       match struct_field_type e ty f.1 with
                       | Some field => type_contains_drop_owned_value_inner n' e ({[name]} ∪ visiting) field
                       | None => false
                       end) (fields layout)
                   end
          end
      | _ => false
      end
    end.

Definition type_contains_drop_owned_value (e : TypeEnv) (ty : Ty) : bool :=
  type_contains_drop_owned_value_inner (size (struct_field_types e)) e ∅ ty.

(** ** The arena of scopes is a stack

    A well-formed arena has a global scope at index 0 and parents that point
    down. *)

Record env_wf (e : TypeEnv) : Prop := {
  wf_current : current e < length (scopes e);
  wf_parent : forall i sc, scopes e !! i = Some sc ->
    match parent sc with Some p => p < i | None => i = 0 end;
}.

Fixpoint stack_from (n : nat) (ss : list Scope) (cur : nat) : list (gmap string Symbol) :=
  match n with
  | 0 => []
  | S n' =>
      match ss !! cur with
      | None => []
      | Some sc => symbols sc :: match parent sc with Some p => stack_from n' ss p | None => [] end
      end
  end.

(** The maps visible from the current scope, innermost first. *)
Definition scope_stack (e : TypeEnv) : list (gmap string Symbol) :=
  stack_from (S (current e)) (scopes e) (current e).

(** The reference: a lexical scope stack. *)
Fixpoint stack_lookup (name : string) (st : list (gmap string Symbol)) : option Symbol :=
  match st with
  | [] => None
  | m :: st' => match m !! name with Some s => Some s | None => stack_lookup name st' end
  end.

Definition stack_insert (name : string) (s : Symbol) (st : list (gmap string Symbol)) :=
  match st with [] => [] | m :: st' => <[name := s]> m :: st' end.

Definition parents_down (ss : list Scope) : Prop :=
  forall i sc, ss !! i = Some sc -> match parent sc with Some p => p < i | None => i = 0 end.

Lemma stack_from_fuel (ss : list Scope) (n m cur : nat) :
  parents_down ss -> cur < n -> cur < m -> stack_from n ss cur = stack_from m ss cur.
Proof.
  intros Hp. revert m cur. induction n as [|n IH]; intros [|m] cur Hn Hm; try lia.
  cbn [stack_from]. destruct (ss !! cur) as [sc|] eqn:E; [|done].
  specialize (Hp _ _ E). destruct (parent sc) as [p|]; [|done]. f_equal. apply IH; lia.
Qed.

Lemma stack_from_unfold (ss : list Scope) (n cur : nat) (sc : Scope) :
  parents_down ss -> cur < n -> ss !! cur = Some sc ->
  stack_from n ss cur =
    symbols sc :: match parent sc with Some p => stack_from (S p) ss p | None => [] end.
Proof.
  intros Hp Hn E. rewrite (stack_from_fuel ss n (S cur) cur) by (done || lia).
  change (stack_from (S cur) ss cur) with
    (match ss !! cur with
     | None => []
     | Some sc => symbols sc :: match parent sc with Some p => stack_from cur ss p | None => [] end
     end).
  rewrite E. pose proof (Hp _ _ E) as H. destruct (parent sc) as [p|]; [|done].
  f_equal. apply stack_from_fuel; [done|lia|lia].
Qed.

(** Only the scopes at or below an index matter to the stack seen from it. *)
Lemma stack_from_agree (ss ss' : list Scope) (n cur : nat) :
  parents_down ss -> (forall i, i <= cur -> ss !! i = ss' !! i) ->
  stack_from n ss cur = stack_from n ss' cur.
Proof.
  intros Hp. revert cur. induction n as [|n IH]; intros cur H; [done|]. cbn [stack_from].
  rewrite <- (H cur) by lia. destruct (ss !! cur) as [sc|] eqn:E; [|done].
  specialize (Hp _ _ E). destruct (parent sc) as [p|]; [|done].
  f_equal. apply IH. intros i Hi. apply H. lia.
Qed.

Lemma lookup_from_stack (ss : list Scope) (name : string) (n cur : nat) :
  lookup_from n ss cur name = stack_lookup name (stack_from n ss cur).
Proof.
  revert cur. induction n as [|n IH]; intros cur; [done|]. cbn [lookup_from stack_from].
  destruct (ss !! cur) as [sc|]; [|done]. cbn [stack_lookup]. unfold scope_get.
  destruct (symbols sc !! name); [done|]. destruct (parent sc); [apply IH|done].
Qed.

Lemma depth_from_stack (ss : list Scope) (n cur : nat) :
  depth_from n ss cur = length (stack_from n ss cur).
Proof.
  revert cur. induction n as [|n IH]; intros cur; [done|]. cbn [depth_from stack_from].
  destruct (ss !! cur) as [sc|]; [|done]. cbn. destruct (parent sc); [by rewrite IH|done].
Qed.

Lemma push_scope_wf (e : TypeEnv) :
  env_wf e \/ scopes e = [] -> env_wf (push_scope e).
Proof.
  intros H. unfold push_scope. constructor; cbn.
  - rewrite length_app. cbn. lia.
  - intros i sc. rewrite lookup_app_Some. intros [Hi|[Hi Hx]].
    + destruct H as [H|H]; [by apply (wf_parent e H)|by rewrite H in Hi].
    + apply list_lookup_singleton_Some in Hx as [Hx <-]. cbn.
      destruct H as [H|H].
      * pose proof (wf_current e H). destruct (scopes e); cbn in *; lia.
      * rewrite H in *. cbn in *. lia.
Qed.

Lemma push_scope_stack (e : TypeEnv) :
  env_wf e -> scope_stack (push_scope e) = ∅ :: scope_stack e.
Proof.
  intros H. pose proof (push_scope_wf e (or_introl H)) as [_ Hp].
  pose proof (wf_current e H) as Hc.
  unfold scope_stack, push_scope in *. cbn [set_scopes scopes current] in *.
  erewrite stack_from_unfold; [|exact Hp|lia|apply list_lookup_middle; done].
  cbn [scope_new symbols parent]. f_equal.
  destruct (scopes e) as [|s0 ss] eqn:E; [cbn in Hc; lia|]. rewrite <- E in *.
  symmetry. apply stack_from_agree; [exact (wf_parent e H)|].
  intros i Hi. rewrite lookup_app_l; [done|lia].
Qed.

Lemma scope_stack_cons (e : TypeEnv) :
  env_wf e -> exists sc, scopes e !! current e = Some sc /\
  scope_stack e = symbols sc :: match parent sc with
                                | Some p => stack_from (S p) (scopes e) p | None => [] end.
Proof.
  intros H. destruct (lookup_lt_is_Some_2 (scopes e) (current e) (wf_current e H)) as [sc E].
  exists sc. split; [done|]. apply stack_from_unfold; [exact (wf_parent e H)|lia|done].
Qed.

Lemma pop_scope_stack (e : TypeEnv) (st : list (gmap string Symbol)) m :
  env_wf e -> scope_stack e = m :: st ->
  (pop_scope e).1 = negb (bool_decide (st = [])) /\
  scope_stack (pop_scope e).2 = (if bool_decide (st = []) then scope_stack e else st) /\
  env_wf (pop_scope e).2.
Proof.
  intros H Hst. destruct (scope_stack_cons e H) as (sc & E & Es).
  pose proof (wf_parent e H _ _ E) as Hp. rewrite Hst in Es. injection Es as -> ->.
  unfold pop_scope. destruct (Nat.eqb_spec (current e) 0) as [H0|H0].
  - destruct (parent sc); [lia|]. rewrite bool_decide_true by done. done.
  - rewrite E. destruct (parent sc) as [p|]; [|lia].
    assert (Hlt : p < length (scopes e)) by (pose proof (wf_current e H); lia).
    destruct (lookup_lt_is_Some_2 _ _ Hlt) as [sc' E'].
    rewrite bool_decide_false.
    + split_and!; [done|done|]. constructor; [done|exact (wf_parent e H)].
    + cbn [stack_from]. by rewrite E'.
Qed.

Lemma env_insert_stack (e : TypeEnv) name s :
  env_wf e ->
  scope_stack (env_insert name s e) = stack_insert name s (scope_stack e) /\
  env_wf (env_insert name s e).
Proof.
  intros H. destruct (scope_stack_cons e H) as (sc & E & Es).
  assert (W : env_wf (env_insert name s e)).
  { unfold env_insert. rewrite E. constructor; cbn.
    - rewrite length_insert. apply (wf_current e H).
    - intros i sc'. rewrite list_lookup_insert_Some. intros [(<- & <- & _)|[_ Hi]].
      + apply (wf_parent e H _ _ E).
      + by apply (wf_parent e H). }
  split; [|done]. rewrite Es. unfold scope_stack at 1.
  erewrite stack_from_unfold; [|exact (wf_parent _ W)|lia|].
  2:{ unfold env_insert. rewrite E. cbn. apply list_lookup_insert_eq. apply (wf_current e H). }
  cbn [stack_insert scope_insert symbols parent]. f_equal.
  pose proof (wf_parent e H _ _ E) as Hp. destruct (parent sc) as [p|]; [|done].
  symmetry. apply stack_from_agree; [exact (wf_parent e H)|].
  intros i Hi. unfold env_insert. rewrite E. cbn. rewrite list_lookup_insert_ne; [done|lia].
Qed.

(** ** The depth of the search through struct layouts *)

Definition unvisited (e : TypeEnv) (visiting : gset string) : nat :=
  size (dom (struct_field_types e) ∖ visiting).

Lemma unvisited_step (e : TypeEnv) visiting name layout :
  struct_field_types e !! name = Some layout -> name ∉ visiting ->
  S (unvisited e ({[name]} ∪ visiting)) <= unvisited e visiting.
Proof.
  intros E Hv. unfold unvisited. apply elem_of_dom_2 in E.
  apply subset_size. set_solver.
Qed.

Lemma unvisited_pos (e : TypeEnv) visiting name layout :
  struct_field_types e !! name = Some layout -> name ∉ visiting -> 0 < unvisited e visiting.
Proof. intros E Hv. pose proof (unvisited_step e visiting name layout E Hv). lia. Qed.

Lemma existsb_ext_in {A} (f g : A -> bool) (l : list A) :
  Forall (fun x => f x = g x) l -> existsb f l = existsb g l.
Proof. induction 1 as [|x l H _ IH]; cbn; [done|]. by rewrite H, IH. Qed.

Lemma Forall_all {A} (P : A -> Prop) (l : list A) : (forall x, P x) -> Forall P l.
Proof. intros H. by apply Forall_forall. Qed.

Lemma contains_drop_owned_fuel (e : TypeEnv) (n m : nat) (visiting : gset string) (ty : Ty) :
  unvisited e visiting <= n -> unvisited e visiting <= m ->
  type_contains_drop_owned_value_inner n e visiting ty
    = type_contains_drop_owned_value_inner m e visiting ty.
Proof.
  revert m visiting ty. induction n as [|n IHn]; intros m visiting ty Hn Hm;
    induction ty as [id k IH] using Ty_children_ind; destruct m as [|m];
    cbn [type_contains_drop_owned_value_inner];
    destruct (is_copy_value _); try done; destruct (is_drop_owned_type _ _); try done;
    destruct k; cbn [children] in IH; try done; forall_split;
    try (by apply existsb_ext_in); try done;
    destruct (struct_field_types e !! name) as [layout|] eqn:E; try done;
    destruct (decide (name ∈ visiting)) as [Hv|Hv];
    rewrite ?(bool_decide_true _ Hv), ?(bool_decide_false _ Hv); try done;
    try (pose proof (unvisited_pos e visiting name layout E Hv); lia).
  apply existsb_ext_in, Forall_all. intros f.
  destruct (struct_field_type e _ f.1) as [field|]; [|done].
  pose proof (unvisited_step e visiting name layout E Hv). apply IHn; lia.
Qed.

(** What the search means to decide: a value of the type holds, through
    tuples, arrays and struct fields, a value whose type is drop-owned. *)
Inductive holds_drop_owned (e : TypeEnv) : Ty -> Prop :=
| holds_self ty : is_drop_owned_type e ty = true -> holds_drop_owned e ty
| holds_tuple id types ty :
    ty ∈ types -> holds_drop_owned e ty -> holds_drop_owned e (mkTy id (TTuple types))
| holds_array id elem len :
    holds_drop_owned e elem -> holds_drop_owned e (mkTy id (TArray elem len))
| holds_field ty name field :
    struct_field_type e ty name = Some field -> holds_drop_owned e field -> holds_drop_owned e ty.

Lemma existsb_elem {A} (f : A -> bool) (l : list A) :
  existsb f l = true -> exists x, x ∈ l /\ f x = true.
Proof.
  rewrite existsb_exists. intros (x & Hx & H). exists x. split; [by apply list_elem_of_In|done].
Qed.

Lemma contains_drop_owned_sound (e : TypeEnv) n visiting ty :
  type_contains_drop_owned_value_inner n e visiting ty = true -> holds_drop_owned e ty.
Proof.
  revert visiting ty. induction n as [|n IHn]; intros visiting ty;
    induction ty as [id k IH] using Ty_children_ind;
    cbn [type_contains_drop_owned_value_inner];
    destruct (is_copy_value _); try done;
    destruct (is_drop_owned_type _ _) eqn:Ed; try (intros _; by apply holds_self);
    destruct k; cbn [children] in IH; try done; forall_split;
    try (intros (ty & Hin & H)%existsb_elem; eapply holds_tuple; [exact Hin|];
         rewrite Forall_forall in IH; by apply IH);
    try (intros; apply holds_array; auto);
    destruct (struct_field_types e !! name) as [layout|]; try done;
    case_bool_decide; try done.
  intros (f & _ & Hf)%existsb_elem.
  destruct (struct_field_type e _ f.1) as [field|] eqn:Ef; [|done].
  eapply holds_field; eauto.
Qed.

(** ** Theorems *)

(** C17: The arena of scopes with parent links implements a lexical scope
    stack: pushing adds an empty map, popping removes the innermost one and is
    refused exactly at the global scope, an insertion changes the innermost
    map only, a lookup finds the innermost binding, the depth is the length of
    the stack; and every operation keeps the arena well-formed. *)
Theorem type_env_refines_stack (e : TypeEnv) (m : gmap string Symbol) st :
  env_wf e -> scope_stack e = m :: st ->
  (scope_stack (push_scope e) = ∅ :: m :: st /\ env_wf (push_scope e)) /\
  ((pop_scope e).1 = negb (bool_decide (st = [])) /\
   scope_stack (pop_scope e).2 = (if bool_decide (st = []) then m :: st else st) /\
   env_wf (pop_scope e).2) /\
  (forall name s, scope_stack (env_insert name s e) = <[name := s]> m :: st /\
                  env_wf (env_insert name s e)) /\
  (forall name, lookup name e = stack_lookup name (m :: st)) /\
  (forall name, lookup_in_current name e = m !! name) /\
  depth e = length (m :: st).
Proof.
  intros H Hst. split_and!.
  - by rewrite push_scope_stack, Hst.
  - apply push_scope_wf. by left.
  - by apply (pop_scope_stack e st m).
  - rewrite <- Hst. by apply (pop_scope_stack e st m).
  - by apply (pop_scope_stack e st m).
  - intros name s. destruct (env_insert_stack e name s H) as [E W]. by rewrite E, Hst.
  - intros name. rewrite <- Hst. apply lookup_from_stack.
  - intros name. destruct (scope_stack_cons e H) as (sc & E & Es). rewrite Hst in Es.
    injection Es as -> _. unfold lookup_in_current. by rewrite E.
  - rewrite <- Hst. apply depth_from_stack.
Qed.

(** The search for drop-owned parts of a type ends: every depth bound from
    the number of struct layouts on gives the same answer, and a positive
    answer is right. *)
Theorem drop_owned_search_total (e : TypeEnv) (ty : Ty) (n : nat) :
  size (struct_field_types e) <= n ->
  type_contains_drop_owned_value_inner n e ∅ ty = type_contains_drop_owned_value e ty /\
  (type_contains_drop_owned_value e ty = true -> holds_drop_owned e ty).
Proof.
  intros Hn. split; [|apply contains_drop_owned_sound].
  assert (Hs : unvisited e ∅ = size (struct_field_types e)).
  { unfold unvisited. rewrite difference_empty_L. apply size_dom. }
  apply contains_drop_owned_fuel; lia.
Qed.

(** A layout [Wrap<T> { inner: T }] and a drop-owned [String]. *)
Definition string_ty : Ty := mkTy 0 (TAdt "String" []).
Definition wrap_ty (t : Ty) : Ty := mkTy 0 (TAdt "Wrap" [t]).
Definition wrap_env : TypeEnv :=
  register_struct_field_types "Wrap" [0] [("inner", mkTy 0 (TVar 0))]
    (mark_drop_owned_type string_ty env_new).

(** A struct nested in itself through a type argument is skipped:
    [Wrap<String>] is found to own its string, [Wrap<Wrap<String>>], which owns
    the same string, is not. *)
Theorem nested_wrapper_missed :
  type_contains_drop_owned_value wrap_env (wrap_ty string_ty) = true /\
  type_contains_drop_owned_value wrap_env (wrap_ty (wrap_ty string_ty)) = false /\
  holds_drop_owned wrap_env (wrap_ty (wrap_ty string_ty)).
Proof.
  split_and!; [by vm_compute|by vm_compute|].
  eapply (holds_field _ _ "inner"); [by vm_compute|].
  eapply (holds_field _ _ "inner"); [by vm_compute|].
  apply holds_self. by vm_compute.
Qed.

Lemma type_env_refines_stack_witness :
  scope_stack (push_scope (push_scope env_empty)) = [∅; ∅] /\
  lookup "x" (env_insert "x" (symbol_var "x" string_ty) (push_scope env_empty)) =
    Some (symbol_var "x" string_ty).
Proof.
  destruct (type_env_refines_stack (push_scope env_empty) ∅ []
    (push_scope_wf env_empty (or_intror eq_refl)) eq_refl) as ((E & _) & _ & Hi & _).
  split; [exact E|].
  destruct (Hi "x" (symbol_var "x" string_ty)) as [Es W].
  destruct (type_env_refines_stack _ _ _ W Es) as (_ & _ & _ & Hl & _).
  by rewrite (Hl "x").
Defined.

Lemma drop_owned_search_total_witness :
  type_contains_drop_owned_value_inner 9 wrap_env ∅ (wrap_ty string_ty) = true /\
  holds_drop_owned wrap_env (wrap_ty string_ty).
Proof.
  destruct (drop_owned_search_total wrap_env (wrap_ty string_ty) 9 ltac:(vm_compute; lia)) as [E H].
  split; [by vm_compute|apply H; by vm_compute].
Defined.
