(* ===== verification/Borrow.v ===== *)
(** The borrow checker: compiler/src/typeck/borrow.rs.

    A pass over the AST that tracks moved paths, active borrows and the names
    that alias a borrowed owner, and collects errors.  [BorrowChecker] is the
    source's struct without the type environment, which the pass only reads
    and which is the parameter [env].  A method of [&mut self] maps a state to
    a state.  The cases of [check_expr] that are long in the source are
    definitions over the recursive call [rec], and the [Fixpoint] passes
    itself to them.

    Hash maps and sets are [gmap] and [gset].  Where the source takes the
    first hit of an iteration over a hash map, which hit that is is not
    determined there; here it is the first in the order of the finite map.  It
    only shows in which of several errors is reported. *)

From S2P Require Import Prelude Ast Ty TypeEnv.

#[local] Open Scope string_scope.

(** ** Paths *)

Record MovePath := mkMovePath { mp_root : string; mp_fields : list string }.

#[export] Instance MovePath_eq_dec : EqDecision MovePath.
Proof. solve_decision. Defined.

#[export] Program Instance MovePath_countable : Countable MovePath :=
  inj_countable' (fun p => (mp_root p, mp_fields p)) (fun x => mkMovePath x.1 x.2) _.
Next Obligation. by intros []. Qed.

Definition root_path (name : string) : MovePath := mkMovePath name [].

Definition child (p : MovePath) (field : string) : MovePath :=
  mkMovePath (mp_root p) (mp_fields p ++ [field])%list.

Definition is_prefix_of (p other : MovePath) : bool :=
  bool_decide (mp_root p = mp_root other) &&
  (length (mp_fields p) <=? length (mp_fields other))%nat &&
  forallb (fun lr => bool_decide (lr.1 = lr.2)) (zip (mp_fields p) (mp_fields other)).

Definition display (p : MovePath) : string :=
  match mp_fields p with
  | [] => mp_root p
  | _ => mp_root p +:+ "." +:+ String.concat "." (mp_fields p)
  end.

(** The test the source writes out at every lookup of overlapping borrows. *)
Definition overlaps (p q : MovePath) : bool := is_prefix_of p q || is_prefix_of q p.

Fixpoint expr_move_path (e : Expr) : option MovePath :=
  match e with mkExpr k _ =>
    match k with
    | EIdent i => Some (root_path (ident_name i))
    | EPath p => match as_simple p with Some i => Some (root_path (ident_name i)) | None => None end
    | EField base field =>
        match expr_move_path base with Some p => Some (child p (ident_name field)) | None => None end
    | EParen inner => expr_move_path inner
    | _ => None
    end
  end.

(** ** Borrows and errors *)

Inductive BorrowKind := Immutable | Mutable.

#[export] Instance BorrowKind_eq_dec : EqDecision BorrowKind.
Proof. solve_decision. Defined.

Record Borrow := mkBorrow { b_kind : BorrowKind; b_lifetime : nat; b_span : Z * Z }.

Inductive BorrowError :=
| MultipleMutableBorrows (var : string) (first_span second_span : Z * Z)
| MutableWithOtherBorrows (var : string) (mutable_span other_span : Z * Z)
| CannotMoveBorrowed (var : string) (borrow_span move_span : Z * Z)
| BorrowEscapesScope (var : string) (borrow_span escape_span : Z * Z)
| UseAfterMove (var : string) (use_span move_span : Z * Z)
| UseAfterPartialMove (var : string) (use_span move_span : Z * Z).

Record BorrowChecker := mkChecker {
  borrows : gmap MovePath (list Borrow);
  borrow_stack : list (gmap MovePath (list Borrow));
  lifetime_counter : nat;
  errors : list BorrowError;
  moved : gset MovePath;
  moved_stack : list (gset MovePath);
  move_spans : gmap MovePath (Z * Z);
  remaining_ident_uses : gmap string nat;
  active_loop_uses : list (gset string);
  borrow_aliases : gmap string MovePath;
  borrow_alias_stack : list (gmap string MovePath);
}.

Definition checker_new : BorrowChecker := mkChecker ∅ [] 0 [] ∅ [] ∅ ∅ [] ∅ [].

Definition set_borrows (b : gmap MovePath (list Borrow)) (n : nat) (st : BorrowChecker) : BorrowChecker :=
  mkChecker b (borrow_stack st) n (errors st) (moved st) (moved_stack st) (move_spans st)
    (remaining_ident_uses st) (active_loop_uses st) (borrow_aliases st) (borrow_alias_stack st).

Definition set_moved (m : gset MovePath) (s : gmap MovePath (Z * Z)) (st : BorrowChecker) : BorrowChecker :=
  mkChecker (borrows st) (borrow_stack st) (lifetime_counter st) (errors st) m (moved_stack st) s
    (remaining_ident_uses st) (active_loop_uses st) (borrow_aliases st) (borrow_alias_stack st).

Definition set_aliases (a : gmap string MovePath) (st : BorrowChecker) : BorrowChecker :=
  mkChecker (borrows st) (borrow_stack st) (lifetime_counter st) (errors st) (moved st) (moved_stack st)
    (move_spans st) (remaining_ident_uses st) (active_loop_uses st) a (borrow_alias_stack st).

Definition set_uses (u : gmap string nat) (l : list (gset string)) (st : BorrowChecker) : BorrowChecker :=
  mkChecker (borrows st) (borrow_stack st) (lifetime_counter st) (errors st) (moved st) (moved_stack st)
    (move_spans st) u l (borrow_aliases st) (borrow_alias_stack st).

Definition set_stacks (b : list (gmap MovePath (list Borrow))) (m : list (gset MovePath))
  (a : list (gmap string MovePath)) (st : BorrowChecker) : BorrowChecker :=
  mkChecker (borrows st) b (lifetime_counter st) (errors st) (moved st) m
    (move_spans st) (remaining_ident_uses st) (active_loop_uses st) (borrow_aliases st) a.

Definition push_errors (es : list BorrowError) (st : BorrowChecker) : BorrowChecker :=
  mkChecker (borrows st) (borrow_stack st) (lifetime_counter st) (errors st ++ es)%list (moved st)
    (moved_stack st) (move_spans st) (remaining_ident_uses st) (active_loop_uses st) (borrow_aliases st)
    (borrow_alias_stack st).

Definition push_error (e : BorrowError) : BorrowChecker -> BorrowChecker := push_errors [e].

Definition insert_borrows (p : MovePath) (l : list Borrow) (st : BorrowChecker) : BorrowChecker :=
  set_borrows (<[p := l]> (borrows st)) (lifetime_counter st) st.

Definition remove_borrows (p : MovePath) (st : BorrowChecker) : BorrowChecker :=
  set_borrows (delete p (borrows st)) (lifetime_counter st) st.

Definition filter_borrows (P : MovePath -> bool) (st : BorrowChecker) : BorrowChecker :=
  set_borrows (filter (fun pb => P pb.1 = true) (borrows st)) (lifetime_counter st) st.

Definition finish (st : BorrowChecker) : result unit (list BorrowError) * BorrowChecker :=
  match errors st with
  | [] => (Ok tt, st)
  | es => (Err es, mkChecker (borrows st) (borrow_stack st) (lifetime_counter st) [] (moved st)
            (moved_stack st) (move_spans st) (remaining_ident_uses st) (active_loop_uses st)
            (borrow_aliases st) (borrow_alias_stack st))
  end.

(** ** Scopes of the checker *)

Definition push_scope (st : BorrowChecker) : BorrowChecker :=
  set_stacks (borrows st :: borrow_stack st) (moved st :: moved_stack st)
    (borrow_aliases st :: borrow_alias_stack st) st.

(** One iteration of the loop over the moved paths of the scope that ends;
    the pair is the parent's moved set and the move sites. *)
Definition pop_moved_path (merge_moves : bool) (path : MovePath)
  (ms : gset MovePath * gmap MovePath (Z * Z)) : gset MovePath * gmap MovePath (Z * Z) :=
  let '(prev_moved, spans) := ms in
  if merge_moves then
    match spans !! path with
    | Some span => ({[path]} ∪ prev_moved, <[path := span]> (delete path spans))
    | None => (prev_moved, spans)
    end
  else if negb (bool_decide (path ∈ prev_moved)) then (prev_moved, delete path spans)
  else (prev_moved, spans).

Definition pop_borrows (st : BorrowChecker) : BorrowChecker :=
  match borrow_stack st with
  | prev :: rest =>
      set_borrows prev (lifetime_counter st) (set_stacks rest (moved_stack st) (borrow_alias_stack st) st)
  | [] => st
  end.

Definition pop_moved (merge_moves : bool) (st : BorrowChecker) : BorrowChecker :=
  match moved_stack st with
  | prev_moved :: rest =>
      let '(m, spans) := foldr (pop_moved_path merge_moves) (prev_moved, move_spans st)
                           (elements (moved st)) in
      set_moved m spans (set_stacks (borrow_stack st) rest (borrow_alias_stack st) st)
  | [] => st
  end.

Definition pop_aliases (st : BorrowChecker) : BorrowChecker :=
  match borrow_alias_stack st with
  | prev :: rest => set_aliases prev (set_stacks (borrow_stack st) (moved_stack st) rest st)
  | [] => st
  end.

Definition pop_scope (merge_moves : bool) (st : BorrowChecker) : BorrowChecker :=
  pop_aliases (pop_moved merge_moves (pop_borrows st)).

(** ** Uses that are still to come *)

Definition record_ident_use (name : string) (uses : gmap string nat) : gmap string nat :=
  <[name := S (default 0 (uses !! name))]> uses.

Section collect.
Context (rec : Expr -> gmap string nat -> gmap string nat).

Definition collect_list (es : list Expr) (uses : gmap string nat) : gmap string nat :=
  fold_left (fun u e => rec e u) es uses.

Definition collect_opt (o : option Expr) (uses : gmap string nat) : gmap string nat :=
  match o with Some e => rec e uses | None => uses end.

Definition collect_stmt_with (s : AStmt) (uses : gmap string nat) : gmap string nat :=
  match stmt_kind s with
  | SLet _ _ value _ => collect_opt value uses
  | SConst _ _ value | SExpr value => rec value uses
  | SItem _ => uses
  end.

Definition collect_block_with (b : ABlock) (uses : gmap string nat) : gmap string nat :=
  fold_left (fun u s => collect_stmt_with s u) (block_stmts b) uses.

Definition collect_arm (a : MatchArm Expr) (uses : gmap string nat) : gmap string nat :=
  rec (arm_body a) (collect_opt (arm_guard a) uses).
End collect.

Fixpoint collect_expr_ident_uses (e : Expr) (uses : gmap string nat) : gmap string nat :=
  match e with mkExpr k _ =>
    match k with
    | EIdent i => record_ident_use (ident_name i) uses
    | EPath p => match as_simple p with
                 | Some i => record_ident_use (ident_name i) uses
                 | None => uses
                 end
    | EUnary _ operand | ECast operand _ | EIs operand _ | ETry operand | EAwait operand
    | EParen operand | ELambda _ operand => collect_expr_ident_uses operand uses
    | EBinary _ l r | EAssignOp _ l r | EIndex l r =>
        collect_expr_ident_uses r (collect_expr_ident_uses l uses)
    | EAssign _ value => collect_expr_ident_uses value uses
    | ECall func args =>
        collect_list collect_expr_ident_uses args (collect_expr_ident_uses func uses)
    | EMethodCall receiver _ args =>
        collect_list collect_expr_ident_uses args (collect_expr_ident_uses receiver uses)
    | EField base _ => collect_expr_ident_uses base uses
    | EArray elems | ETuple elems => collect_list collect_expr_ident_uses elems uses
    | EStruct _ fields base =>
        collect_opt collect_expr_ident_uses base
          (fold_left (fun u f => collect_expr_ident_uses (fv_value f) u) fields uses)
    | EIf cond then_branch else_branch =>
        collect_opt collect_expr_ident_uses else_branch
          (collect_block_with collect_expr_ident_uses then_branch (collect_expr_ident_uses cond uses))
    | EBlock b | ETryBlock b | EAsyncBlock b | EParallelBlock b | ELoop b =>
        collect_block_with collect_expr_ident_uses b uses
    | EWhile cond body | EFor _ cond body =>
        collect_block_with collect_expr_ident_uses body (collect_expr_ident_uses cond uses)
    | EMatch scrutinee arms =>
        fold_left (fun u a => collect_arm collect_expr_ident_uses a u) arms
          (collect_expr_ident_uses scrutinee uses)
    | ERange start end_ _ =>
        collect_opt collect_expr_ident_uses end_ (collect_opt collect_expr_ident_uses start uses)
    | EReturn value | EBreak value | EYield value => collect_opt collect_expr_ident_uses value uses
    | EContinue | ELiteral _ => uses
    end
  end.

Definition collect_stmt_ident_uses : AStmt -> gmap string nat -> gmap string nat :=
  collect_stmt_with collect_expr_ident_uses.
Definition collect_block_ident_uses : ABlock -> gmap string nat -> gmap string nat :=
  collect_block_with collect_expr_ident_uses.

Definition remaining_uses_ident (name : string) (st : BorrowChecker) : bool :=
  (0 <? default 0 (remaining_ident_uses st !! name))%nat.

Definition loop_keeps_ident_live (name : string) (st : BorrowChecker) : bool :=
  existsb (fun uses => bool_decide (name ∈ uses)) (active_loop_uses st).

Definition prepare_remaining_uses (b : ABlock) (st : BorrowChecker) : BorrowChecker :=
  set_uses (collect_block_ident_uses b ∅) [] st.

Definition push_active_loop_uses (condition : option Expr) (body : ABlock) (st : BorrowChecker) :
  BorrowChecker :=
  let counts := collect_block_ident_uses body (collect_opt collect_expr_ident_uses condition ∅) in
  set_uses (remaining_ident_uses st) (dom counts :: active_loop_uses st) st.

Definition pop_active_loop_uses (st : BorrowChecker) : BorrowChecker :=
  set_uses (remaining_ident_uses st) (tail (active_loop_uses st)) st.

Definition consume_ident_use (name : string) (st : BorrowChecker) : BorrowChecker :=
  match remaining_ident_uses st !! name with
  | None => st
  | Some remaining =>
      let remaining' := (remaining - 1)%nat in
      set_uses (if Nat.eqb remaining' 0 then delete name (remaining_ident_uses st)
                else <[name := remaining']> (remaining_ident_uses st)) (active_loop_uses st) st
  end.

(** ** What the environment says about a path *)

Section env.
Context (env : TypeEnv).

Definition var_ty (name : string) : option Ty :=
  match lookup name env with
  | Some symbol => match sym_kind symbol with SymVar ty _ => Some ty | _ => None end
  | None => None
  end.

Fixpoint field_path_ty (ty : Ty) (fields : list string) : option Ty :=
  match fields with
  | [] => Some ty
  | field :: rest => let* t := struct_field_type env ty field in field_path_ty t rest
  end.

Definition move_path_ty (path : MovePath) : option Ty :=
  let* ty := var_ty (mp_root path) in field_path_ty ty (mp_fields path).

Definition adt_named (names : list string) (ty : Ty) : bool :=
  match ty_kind ty with TAdt name _ => bool_decide (name ∈ names) | _ => false end.

(** [canonical.kind == ty.kind]: derived equality of kinds. *)
Definition same_kind (a b : Ty) : bool := ty_eqb (mkTy 0 (ty_kind a)) (mkTy 0 (ty_kind b)).

Definition ty_is_movable_owning_value (ty : Ty) : bool :=
  if is_copy_value ty then false
  else if adt_named ["Mutex"; "RwLock"] ty then true
  else if adt_named ["Rc"] ty then true
  else if is_legacy_idempotent_handle_type ty then false
  else type_contains_drop_owned_value env ty ||
       match owned_string_ty env with Some canonical => same_kind canonical ty | None => false end.

Definition move_path_is_movable_owning_value (path : MovePath) : bool :=
  match move_path_ty path with Some ty => ty_is_movable_owning_value ty | None => false end.

Fixpoint type_has_scope_bound_borrow (ty : Ty) : bool :=
  match ty with mkTy _ k =>
    match k with
    | TAdt name args =>
        bool_decide (name ∈ ["MutexGuard"; "MutexGuardI64"; "RwLockReadGuard"; "RwLockReadGuardI64";
          "RwLockWriteGuard"; "RwLockWriteGuardI64"; "RawVecIter"; "RawMapKeyIter"]) ||
        existsb type_has_scope_bound_borrow args
    | TTuple items => existsb type_has_scope_bound_borrow items
    | TArray item _ | TSlice item | TFuture item => type_has_scope_bound_borrow item
    | _ => false
    end
  end.

(** [n] bounds the nesting of struct layouts, as in
    [type_contains_drop_owned_value_inner]. *)
Fixpoint type_can_escape_borrow_inner (n : nat) : gset string -> Ty -> bool :=
  fix go (visiting : gset string) (ty : Ty) {struct ty} : bool :=
    match ty with mkTy _ k =>
      if type_has_scope_bound_borrow ty then true
      else match k with
      | TRef _ _ | TVar _ | TAssocProjection _ _ _ => true
      | TTuple items => existsb (go visiting) items
      | TArray item _ | TSlice item | TFuture item => go visiting item
      | TAdt name args =>
          if existsb (go visiting) args then true
          else if bool_decide (name ∈ visiting) then true
          else match struct_field_types_for env ty with
               | None => true
               | Some fields =>
                   match n with
                   | 0 => true
                   | S n' => existsb (fun f => type_can_escape_borrow_inner n' ({[name]} ∪ visiting) f.2) fields
                   end
               end
      | _ => false
      end
    end.

Definition type_can_escape_borrow (ty : Ty) : bool :=
  type_can_escape_borrow_inner (size (struct_field_types env)) ∅ ty.

Definition alias_requires_scope_end (name : string) : bool :=
  match var_ty name with Some ty => type_has_scope_bound_borrow ty | None => false end.

Definition receiver_is_vec (receiver : Expr) : bool :=
  match expr_move_path receiver with
  | None => false
  | Some path =>
      match move_path_ty path with
      | Some ty => adt_named ["Vec"; "VecDeque"; "HashMap"; "BTreeMap"; "BTreeSet"] ty
      | None => false
      end
  end.

Definition method_call_returns_ref (call : Expr) : bool :=
  match resolved_method_return_type (expr_span call) env with
  | Some ty => is_ref ty
  | None => false
  end.

Definition method_call_returns_borrowing_iter (call : Expr) : bool :=
  match resolved_method_return_type (expr_span call) env with
  | Some ty => adt_named ["RawVecIter"; "RawMapKeyIter"] ty
  | None => false
  end.

(** The receiver of this method call is borrowed by its result. *)
Definition method_borrows_receiver (call receiver : Expr) (method : string) : bool :=
  bool_decide (method ∈ ["borrow"; "as_str"]) ||
  (bool_decide (method = "get") && receiver_is_vec receiver && method_call_returns_ref call) ||
  (bool_decide (method ∈ ["iter"; "iter_keys"]) && method_call_returns_borrowing_iter call).

(** ** Borrows *)

Definition pair_span (s : Span) : Z * Z := (span_lo s, span_hi s).

Definition borrow_conflict (kind : BorrowKind) (path : MovePath) (span : Z * Z) (b : Borrow) :
  list BorrowError :=
  match kind, b_kind b with
  | Mutable, Mutable => [MultipleMutableBorrows (display path) (b_span b) span]
  | Mutable, Immutable | Immutable, Mutable => [MutableWithOtherBorrows (display path) span (b_span b)]
  | _, _ => []
  end.

Definition add_borrow (e : Expr) (kind : BorrowKind) (st : BorrowChecker) : BorrowChecker :=
  match expr_move_path e with
  | None => st
  | Some path =>
      let span := pair_span (expr_span e) in
      if existsb (fun b => bool_decide (b_kind b = kind) && bool_decide (b_span b = span))
           (default [] (borrows st !! path))
      then st
      else
        let lifetime := lifetime_counter st in
        let es := flat_map (fun pb => if overlaps pb.1 path
                                      then flat_map (borrow_conflict kind path span) pb.2 else [])
                    (map_to_list (borrows st)) in
        let entry := (default [] (borrows st !! path) ++ [mkBorrow kind lifetime span])%list in
        set_borrows (<[path := entry]> (borrows st)) (S lifetime) (push_errors es st)
  end.

Definition record_borrow_alias (alias : string) (owner : MovePath) (st : BorrowChecker) : BorrowChecker :=
  set_aliases (<[alias := owner]> (borrow_aliases st)) st.

Definition remove_alias (name : string) (st : BorrowChecker) : BorrowChecker :=
  set_aliases (delete name (borrow_aliases st)) st.

Definition borrow_op (op : UnOp) : option BorrowKind :=
  match op with Ref => Some Immutable | RefMut => Some Mutable | _ => None end.

(** Borrow [owner_expr] and let [target] hold the borrows of its path; the
    flag is false when there is no path or no borrow to copy. *)
Definition borrow_into (target : MovePath) (owner_expr : Expr) (kind : BorrowKind) (st : BorrowChecker) :
  bool * BorrowChecker :=
  let st1 := add_borrow owner_expr kind st in
  match expr_move_path owner_expr with
  | Some source =>
      match borrows st1 !! source with
      | Some existing =>
          (true, record_borrow_alias (mp_root target) source (insert_borrows target existing st1))
      | None => (false, st1)
      end
  | None => (false, st1)
  end.

(** The end of [track_borrow_alias_for_path], where the value is a plain
    path or nothing that borrows. *)
Definition rebind_alias (target : MovePath) (e : Expr) (st : BorrowChecker) : BorrowChecker :=
  match expr_move_path e with
  | None => remove_borrows target st
  | Some source =>
      match borrows st !! source with
      | Some existing =>
          let st1 := insert_borrows target existing st in
          match borrow_aliases st1 !! mp_root source with
          | Some owner => record_borrow_alias (mp_root target) owner st1
          | None =>
              if negb (bool_decide (mp_fields source = [])) || is_some (borrows st1 !! source)
              then record_borrow_alias (mp_root target) source st1 else st1
          end
      | None => remove_borrows target st
      end
  end.

Fixpoint track_borrow_alias_for_path (target : MovePath) (e : Expr) (st : BorrowChecker) : BorrowChecker :=
  match e with mkExpr k _ =>
    match k with
    | EUnary op operand =>
        match borrow_op op with
        | Some kind =>
            let '(done, st1) := borrow_into target operand kind st in
            if done : bool then st1 else rebind_alias target e st1
        | None => rebind_alias target e st
        end
    | EMethodCall receiver method _ =>
        if bool_decide (ident_name method ∈ ["borrow"; "as_str"]) then
          let '(done, st1) := borrow_into target receiver Immutable st in
          if done : bool then st1 else rebind_alias target e st1
        else rebind_alias target e st
    | EParen inner | ETry inner | EAwait inner => track_borrow_alias_for_path target inner st
    | _ => rebind_alias target e st
    end
  end.

Definition track_borrow_alias (name : string) (e : Expr) (st : BorrowChecker) : BorrowChecker :=
  track_borrow_alias_for_path (root_path name) e st.

Fixpoint track_borrows_in_expr (name : string) (e : Expr) (st : BorrowChecker) : BorrowChecker :=
  match e with mkExpr k span =>
    match k with
    | EUnary op operand =>
        match borrow_op op with
        | Some kind => (borrow_into (root_path name) operand kind st).2
        | None => st
        end
    | EBinary _ l r => track_borrows_in_expr name r (track_borrows_in_expr name l st)
    | ECall func args =>
        if match resolved_call_return_type (span_lo span) env with
           | Some ty => type_can_escape_borrow ty | None => false end
        then fold_left (fun st a => track_borrows_in_expr name a st) args (track_borrows_in_expr name func st)
        else st
    | EMethodCall receiver method args =>
        let st1 := if method_borrows_receiver e receiver (ident_name method)
                   then (borrow_into (root_path name) receiver Immutable st).2 else st in
        if match resolved_method_return_type span env with
           | Some ty => type_can_escape_borrow ty | None => true end
        then fold_left (fun st a => track_borrows_in_expr name a st) args st1
        else st1
    | EAssign target value | EAssignOp _ target value =>
        track_borrows_in_expr name value (track_borrows_in_expr name target st)
    | ETuple elems | EArray elems => fold_left (fun st a => track_borrows_in_expr name a st) elems st
    | EStruct _ fields _ => fold_left (fun st f => track_borrows_in_expr name (fv_value f) st) fields st
    | EParen inner | ETry inner | EAwait inner => track_borrows_in_expr name inner st
    | EIdent _ | EPath _ | EField _ _ => track_borrow_alias name e st
    | _ => st
    end
  end.

Definition alias_is_live (name : string) (st : BorrowChecker) : bool :=
  remaining_uses_ident name st || loop_keeps_ident_live name st || alias_requires_scope_end name.

(** One alias of [end_borrows_with_no_remaining_uses]. *)
Definition end_alias (st : BorrowChecker) (alias : string * MovePath) : BorrowChecker :=
  let '(name, owner) := alias in
  if alias_is_live name st then st
  else
    let st1 := remove_alias name (remove_borrows (root_path name) st) in
    let still_aliased := existsb (fun na => overlaps na.2 owner) (map_to_list (borrow_aliases st1)) in
    if still_aliased then st1 else filter_borrows (fun p => negb (overlaps p owner)) st1.

Definition end_borrows_with_no_remaining_uses (st : BorrowChecker) : BorrowChecker :=
  let st1 := fold_left end_alias (map_to_list (borrow_aliases st)) st in
  let aliases := map_to_list (borrow_aliases st1) in
  filter_borrows (fun path =>
    existsb (fun na => bool_decide (root_path na.1 = path)) aliases ||
    existsb (fun na => overlaps na.2 path) aliases) st1.

Definition end_last_use_borrows_for_path (owner : MovePath) (st : BorrowChecker) : BorrowChecker :=
  if negb (existsb (fun pb => overlaps pb.1 owner) (map_to_list (borrows st))) then st
  else
    let alias_names := map fst (List.filter (fun na => overlaps na.2 owner)
                                  (map_to_list (borrow_aliases st))) in
    match alias_names with
    | [] => st
    | _ =>
        if existsb (fun name => alias_is_live name st) alias_names then st
        else fold_left (fun st name => remove_alias name (remove_borrows (root_path name) st)) alias_names
               (filter_borrows (fun p => negb (overlaps p owner)) st)
    end.

(** [self.borrows.iter().find(overlapping).and_then(first)] *)
Definition first_overlapping (path : MovePath) (st : BorrowChecker) : option Borrow :=
  match find (fun pb => overlaps pb.1 path) (map_to_list (borrows st)) with
  | Some pb => head pb.2
  | None => None
  end.

Definition check_vec_borrow_invalidation (receiver : Expr) (method_name : string) (st : BorrowChecker) :
  BorrowChecker :=
  if negb (receiver_is_vec receiver) ||
     negb (bool_decide (method_name ∈ ["push"; "set"; "insert"; "pop"; "remove"; "clear"; "free"; "drop";
                                       "push_front"; "push_back"; "pop_front"; "pop_back"]))
  then st
  else match expr_move_path receiver with
       | None => st
       | Some path =>
           match first_overlapping path st with
           | None => st
           | Some active =>
               push_error (CannotMoveBorrowed (display path) (b_span active)
                             (pair_span (expr_span receiver))) st
           end
       end.

Definition end_borrow (var : string) (lifetime : nat) (st : BorrowChecker) : BorrowChecker :=
  match borrows st !! root_path var with
  | Some l => insert_borrows (root_path var)
                (List.filter (fun b => negb (Nat.eqb (b_lifetime b) lifetime)) l) st
  | None => st
  end.

(** ** Moves *)

Definition mark_moved (path : MovePath) (span : Span) (st : BorrowChecker) : BorrowChecker :=
  let move_span := pair_span span in
  let st1 := end_last_use_borrows_for_path path st in
  match first_overlapping path st1 with
  | Some active => push_error (CannotMoveBorrowed (display path) (b_span active) move_span) st1
  | None => set_moved ({[path]} ∪ moved st1) (<[path := move_span]> (move_spans st1)) st1
  end.

(** Move the value of an expression if it is a path whose type moves. *)
Definition maybe_move_string_arg (arg : Expr) (st : BorrowChecker) : BorrowChecker :=
  match expr_move_path arg with
  | Some path =>
      if move_path_is_movable_owning_value path then mark_moved path (expr_span arg) st else st
  | None => st
  end.

Definition maybe_move_assignment_value (target value : Expr) (st : BorrowChecker) : BorrowChecker :=
  let target_path := expr_move_path target in
  let value_path := expr_move_path value in
  if is_some target_path && bool_decide (target_path = value_path) then st
  else maybe_move_string_arg value st.

Definition span_of_move (m : MovePath) (use_span : Z * Z) (st : BorrowChecker) : Z * Z :=
  default use_span (move_spans st !! m).

Definition check_move_path_use (path : MovePath) (span : Span) (st : BorrowChecker) : BorrowChecker :=
  let use_span := pair_span span in
  match find (fun m => is_prefix_of m path) (elements (moved st)) with
  | Some m => push_error (UseAfterMove (display m) use_span (span_of_move m use_span st)) st
  | None =>
      match find (fun m => is_prefix_of path m) (elements (moved st)) with
      | Some m => push_error (UseAfterPartialMove (display path) use_span (span_of_move m use_span st)) st
      | None => st
      end
  end.

Definition check_owned_string_invalidation (receiver : Expr) (method_name : string) (st : BorrowChecker) :
  BorrowChecker :=
  if negb (bool_decide (method_name ∈ ["push_str"; "clear"; "drop"])) then st
  else match expr_move_path receiver with
       | Some path => check_move_path_use path (expr_span receiver) st
       | None => st
       end.

Definition reinitialize_move_path (path : MovePath) (st : BorrowChecker) : BorrowChecker :=
  set_moved (filter (fun m => is_prefix_of path m = false) (moved st))
    (foldr delete (move_spans st) (elements (filter (fun m => is_prefix_of path m = true) (moved st)))) st.

(** ** Borrows that leave the function *)

Definition path_var (o : option MovePath) : string :=
  match o with Some p => display p | None => "<temporary>" end.

(** A reference taken in tail or return position. *)
Definition check_escaping_ref (e operand : Expr) (st : BorrowChecker) : BorrowChecker :=
  let path := match expr_move_path operand with
              | Some p => Some (default p (borrow_aliases st !! mp_root p))
              | None => None
              end in
  if match path with
     | Some p => match var_ty (mp_root p) with Some ty => is_ref ty | None => false end
     | None => false
     end
  then st
  else push_error (BorrowEscapesScope (path_var path) (pair_span (expr_span operand))
                     (pair_span (expr_span e))) st.

(** A plain path in tail or return position. *)
Definition check_escaping_path (e : Expr) (st : BorrowChecker) : BorrowChecker :=
  match expr_move_path e with
  | None => st
  | Some full_path =>
      if match move_path_ty full_path with Some ty => negb (type_can_escape_borrow ty) | None => false end
      then st
      else
        let path := root_path (mp_root full_path) in
        match find (fun b => bool_decide (b_kind b = Immutable)) (default [] (borrows st !! path)) with
        | Some active =>
            push_error (BorrowEscapesScope (display path) (b_span active) (pair_span (expr_span e))) st
        | None => st
        end
  end.

Definition is_return (e : Expr) : bool := match expr_kind e with EReturn _ => true | _ => false end.

Section escape.
Context (rec : Expr -> BorrowChecker -> BorrowChecker).

Fixpoint escape_tail (stmts : list AStmt) (st : BorrowChecker) : BorrowChecker :=
  match stmts with
  | [] => st
  | [s] => match stmt_kind s with
           | SExpr e => if negb (is_return e) then rec e st else st
           | _ => st
           end
  | _ :: rest => escape_tail rest st
  end.

Definition escape_block_tail_with (b : ABlock) : BorrowChecker -> BorrowChecker :=
  escape_tail (block_stmts b).
End escape.

Fixpoint check_borrow_escape_expr (e : Expr) (st : BorrowChecker) : BorrowChecker :=
  match e with mkExpr k _ =>
    match k with
    | EUnary Ref operand | EUnary RefMut operand => check_escaping_ref e operand st
    | EParen inner => check_borrow_escape_expr inner st
    | ETuple elems | EArray elems => fold_left (fun st x => check_borrow_escape_expr x st) elems st
    | EStruct _ fields _ => fold_left (fun st f => check_borrow_escape_expr (fv_value f) st) fields st
    | EIf _ then_branch else_branch =>
        let st1 := escape_block_tail_with check_borrow_escape_expr then_branch st in
        match else_branch with Some x => check_borrow_escape_expr x st1 | None => st1 end
    | EBlock b => escape_block_tail_with check_borrow_escape_expr b st
    | EMatch _ arms => fold_left (fun st a => check_borrow_escape_expr (arm_body a) st) arms st
    | EMethodCall receiver method _ =>
        if method_borrows_receiver e receiver (ident_name method)
        then push_error (BorrowEscapesScope (path_var (expr_move_path receiver))
                           (pair_span (expr_span receiver)) (pair_span (expr_span e))) st
        else check_escaping_path e st
    | _ => check_escaping_path e st
    end
  end.

Definition check_borrow_escape_block_tail : ABlock -> BorrowChecker -> BorrowChecker :=
  escape_block_tail_with check_borrow_escape_expr.

(** ** The walk *)

Definition block_has_unconditional_return_stmt (b : ABlock) : bool :=
  existsb (fun s => match stmt_kind s with SExpr e => is_return e | _ => false end) (block_stmts b).

Fixpoint expr_has_unconditional_return (e : Expr) : bool :=
  match e with mkExpr k _ =>
    match k with
    | EReturn _ => true
    | EBlock b => block_has_unconditional_return_stmt b
    | EIf _ then_branch else_branch =>
        block_has_unconditional_return_stmt then_branch &&
        match else_branch with Some x => expr_has_unconditional_return x | None => false end
    | _ => false
    end
  end.

(** Merge the moves of a fallthrough else branch into the state. *)
Definition merge_else_moves (else_moved : gset MovePath) (else_spans : gmap MovePath (Z * Z))
  (st : BorrowChecker) : BorrowChecker :=
  fold_left (fun st path =>
      match else_spans !! path with
      | Some span =>
          set_moved ({[path]} ∪ moved st)
            (match move_spans st !! path with
             | Some _ => move_spans st
             | None => <[path := span]> (move_spans st)
             end) st
      | None => st
      end) (elements else_moved) st.

Definition borrow_receiver (e receiver : Expr) (method : string) (st : BorrowChecker) : BorrowChecker :=
  if method_borrows_receiver e receiver method ||
     (bool_decide (method ∈ ["front"; "back"]) && receiver_is_vec receiver && method_call_returns_ref e)
  then add_borrow receiver Immutable st else st.

Section walk.
Context (rec : Expr -> BorrowChecker -> BorrowChecker).

Definition check_list (es : list Expr) (st : BorrowChecker) : BorrowChecker :=
  fold_left (fun st e => rec e st) es st.

Definition check_opt (o : option Expr) (st : BorrowChecker) : BorrowChecker :=
  match o with Some e => rec e st | None => st end.

Definition check_args (args : list Expr) (st : BorrowChecker) : BorrowChecker :=
  fold_left (fun st a => maybe_move_string_arg a (rec a st)) args st.

Definition check_stmt_with (s : AStmt) (st : BorrowChecker) : BorrowChecker :=
  match stmt_kind s with
  | SLet name _ (Some value) _ =>
      maybe_move_string_arg value (track_borrows_in_expr (ident_name name) value (rec value st))
  | SLet _ _ None _ => st
  | SConst _ _ value => rec value st
  | SExpr e => rec e st
  | SItem _ => st
  end.

(** The statements of a block; only the last one is in tail position. *)
Fixpoint check_stmts_with (reject_tail_escape : bool) (stmts : list AStmt) (st : BorrowChecker) :
  BorrowChecker :=
  match stmts with
  | [] => st
  | s :: rest =>
      let st1 := check_stmt_with s st in
      let st2 := if reject_tail_escape && bool_decide (rest = []) then
                   match stmt_kind s with
                   | SExpr e => if negb (is_return e) then check_borrow_escape_expr e st1 else st1
                   | _ => st1
                   end
                 else st1 in
      check_stmts_with reject_tail_escape rest (end_borrows_with_no_remaining_uses st2)
  end.

Definition check_block_inner_with (b : ABlock) (reject_tail_escape merge_moves : bool) (st : BorrowChecker) :
  BorrowChecker :=
  pop_scope merge_moves (check_stmts_with reject_tail_escape (block_stmts b) (push_scope st)).

Definition check_block_with (b : ABlock) : BorrowChecker -> BorrowChecker :=
  check_block_inner_with b false true.

Definition check_if_with (cond : Expr) (then_branch : ABlock) (else_branch : option Expr)
  (st0 : BorrowChecker) : BorrowChecker :=
  let st := rec cond st0 in
  let before_moved := moved st in
  let before_spans := move_spans st in
  let st1 := check_block_inner_with then_branch false true st in
  let then_moved := moved st1 in
  let then_spans := move_spans st1 in
  let st2 := set_moved before_moved before_spans st1 in
  match else_branch with
  | Some else_expr =>
      let st3 := rec else_expr st2 in
      let then_falls := negb (block_has_unconditional_return_stmt then_branch) in
      let else_falls := negb (expr_has_unconditional_return else_expr) in
      let st4 := if then_falls then set_moved then_moved then_spans st3
                 else set_moved before_moved before_spans st3 in
      if else_falls then merge_else_moves (moved st3) (move_spans st3) st4 else st4
  | None =>
      if block_has_unconditional_return_stmt then_branch then set_moved before_moved before_spans st2
      else set_moved then_moved then_spans st2
  end.

Definition check_loop_with (cond : option Expr) (body : ABlock) (st : BorrowChecker) : BorrowChecker :=
  pop_active_loop_uses
    (check_block_with body (check_opt cond (push_active_loop_uses cond body st))).

Definition check_match_with (scrutinee : Expr) (arms : list (MatchArm Expr)) (st : BorrowChecker) :
  BorrowChecker :=
  fold_left (fun st a => rec (arm_body a) (check_opt (arm_guard a) st)) arms (rec scrutinee st).

Definition check_method_call_with (e receiver : Expr) (method : string) (args : list Expr)
  (st : BorrowChecker) : BorrowChecker :=
  check_args args
    (check_vec_borrow_invalidation receiver method
      (check_owned_string_invalidation receiver method (rec receiver (borrow_receiver e receiver method st)))).

Definition check_assignment_place_with (target : Expr) (st : BorrowChecker) : BorrowChecker :=
  match expr_move_path target with
  | None => rec target st
  | Some path =>
      let use_span := pair_span (expr_span target) in
      match find (fun m => (length (mp_fields m) <? length (mp_fields path))%nat && is_prefix_of m path)
              (elements (moved st)) with
      | Some m => push_error (UseAfterMove (display m) use_span (span_of_move m use_span st)) st
      | None => st
      end
  end.

Definition check_assign_with (target value : Expr) (st : BorrowChecker) : BorrowChecker :=
  let st1 := maybe_move_assignment_value target value (rec value (check_assignment_place_with target st)) in
  match expr_move_path target with
  | Some path => track_borrow_alias_for_path path value (reinitialize_move_path path st1)
  | None => st1
  end.

Definition check_return_with (value : option Expr) (st : BorrowChecker) : BorrowChecker :=
  match value with
  | Some v => maybe_move_string_arg v (check_borrow_escape_expr v (rec v st))
  | None => st
  end.
End walk.

Definition consume_path_use (e : Expr) (st : BorrowChecker) : BorrowChecker :=
  match expr_move_path e with Some path => consume_ident_use (mp_root path) st | None => st end.

Fixpoint check_expr (e : Expr) (st : BorrowChecker) : BorrowChecker :=
  match e with mkExpr k span =>
    match k with
    | EUnary op operand =>
        check_expr operand match borrow_op op with Some kind => add_borrow operand kind st | None => st end
    | EBinary _ l r => check_expr r (check_expr l st)
    | ECall func args => check_args check_expr args (check_expr func st)
    | EMethodCall receiver method args =>
        check_method_call_with check_expr e receiver (ident_name method) args st
    | EBlock b | ETryBlock b | EAsyncBlock b | EParallelBlock b => check_block_with check_expr b st
    | EIf cond then_branch else_branch => check_if_with check_expr cond then_branch else_branch st
    | EWhile cond body | EFor _ cond body => check_loop_with check_expr (Some cond) body st
    | ELoop body => check_loop_with check_expr None body st
    | EMatch scrutinee arms => check_match_with check_expr scrutinee arms st
    | EIndex base index => check_expr index (check_expr base st)
    | EField base _ =>
        let st1 := consume_path_use e st in
        match expr_move_path e with
        | Some path => check_move_path_use path (expr_span base) st1
        | None => st1
        end
    | EArray elems | ETuple elems => check_list check_expr elems st
    | EStruct _ fields base =>
        check_opt check_expr base (fold_left (fun st f => check_expr (fv_value f) st) fields st)
    | EAssign target value => check_assign_with check_expr target value st
    | EAssignOp _ target value =>
        maybe_move_assignment_value target value (check_expr value (check_expr target st))
    | ERange start end_ _ => check_opt check_expr end_ (check_opt check_expr start st)
    | ELambda _ body | ETry body | EAwait body | EParen body => check_expr body st
    | ECast x _ | EIs x _ => check_expr x st
    | EReturn value => check_return_with check_expr value st
    | EBreak value | EYield value => check_opt check_expr value st
    | EContinue | ELiteral _ => st
    | EIdent i => check_move_path_use (root_path (ident_name i)) span (consume_path_use e st)
    | EPath p =>
        let st1 := consume_path_use e st in
        match as_simple p with
        | Some i => check_move_path_use (root_path (ident_name i)) span st1
        | None => st1
        end
    end
  end.

Definition check_stmt (s : AStmt) (st : BorrowChecker) : result unit (list BorrowError) * BorrowChecker :=
  let st1 := check_stmt_with check_expr s st in
  (match errors st1 with [] => Ok tt | es => Err es end, st1).

Definition check_block_inner : ABlock -> bool -> bool -> BorrowChecker -> BorrowChecker :=
  check_block_inner_with check_expr.

Definition check_block (b : ABlock) : BorrowChecker -> BorrowChecker := check_block_inner b false true.

Definition check_function_block (b : ABlock) (st : BorrowChecker) : BorrowChecker :=
  check_block_inner b true true (prepare_remaining_uses b st).

Definition check_program (p : Program) (st : BorrowChecker) :
  result unit (list BorrowError) * BorrowChecker :=
  finish (fold_left (fun st d =>
    match decl_kind d with
    | DFunction f => check_block (fn_body f) (prepare_remaining_uses (fn_body f) st)
    | _ => st
    end) (program_decls p) st).
End env.
