(* ===== verification/BorrowInv.v ===== *)
(** What the operations of the borrow checker leave alone, and the
    invariants of the walk: errors only accumulate, every scope that is
    opened is closed, and the count of uses still to come is exact. *)

From S2P Require Import Prelude Ast Ty TypeEnv Borrow.

(** ** Paths *)

Lemma forallb_zip_prefix (l k : list string) :
  length l <= length k ->
  forallb (fun lr => bool_decide (lr.1 = lr.2)) (zip l k) = true <-> l `prefix_of` k.
Proof.
  revert k. induction l as [|x l IH]; intros [|y k] Hl; cbn in *; try lia.
  - split; [intros; apply prefix_nil|done].
  - split; [intros; apply prefix_nil|done].
  - rewrite andb_true_iff, bool_decide_eq_true, IH by lia.
    split; [intros [-> H]; by apply prefix_cons|intros H].
    split; [by eapply prefix_cons_inv_1|by eapply prefix_cons_inv_2].
Qed.

Lemma is_prefix_of_spec (p q : MovePath) :
  is_prefix_of p q = true <-> mp_root p = mp_root q /\ mp_fields p `prefix_of` mp_fields q.
Proof.
  unfold is_prefix_of. rewrite !andb_true_iff, bool_decide_eq_true, Nat.leb_le. split.
  - intros [[Hr Hl] Hf]. split; [done|]. by apply forallb_zip_prefix.
  - intros [Hr Hf]. pose proof (prefix_length _ _ Hf). split_and!; [done|done|].
    by apply forallb_zip_prefix.
Qed.

Lemma is_prefix_of_refl (p : MovePath) : is_prefix_of p p = true.
Proof. by apply is_prefix_of_spec. Qed.

Lemma is_prefix_of_trans (p q r : MovePath) :
  is_prefix_of p q = true -> is_prefix_of q r = true -> is_prefix_of p r = true.
Proof.
  rewrite !is_prefix_of_spec. intros [-> H1] [-> H2]. split; [done|]. by etrans.
Qed.

Lemma overlaps_sym (p q : MovePath) : overlaps p q = overlaps q p.
Proof. apply orb_comm. Qed.

(** ** Folds *)

Lemma fold_left_rel {A S} (R : S -> S -> Prop) `{!PreOrder R} (f : S -> A -> S) (l : list A) (s : S) :
  (forall s x, R s (f s x)) -> R s (fold_left f l s).
Proof.
  intros H. revert s. induction l as [|x l IH]; intros s; cbn; [done|].
  transitivity (f s x); [apply H|apply IH].
Qed.

(** The same with what is known of the elements. *)
Lemma fold_left_rel_Forall {A S} (R : S -> S -> Prop) `{!PreOrder R} (f : S -> A -> S) (l : list A) (s : S) :
  Forall (fun x => forall s, R s (f s x)) l -> R s (fold_left f l s).
Proof.
  intros H. revert s. induction H as [|x l Hx _ IH]; intros s; cbn; [done|].
  transitivity (f s x); [apply Hx|apply IH].
Qed.

(** ** Operations that touch only borrows, aliases and errors *)

Record borrow_only (st st' : BorrowChecker) : Prop := {
  bo_moved : moved st' = moved st;
  bo_spans : move_spans st' = move_spans st;
  bo_mstack : moved_stack st' = moved_stack st;
  bo_bstack : borrow_stack st' = borrow_stack st;
  bo_astack : borrow_alias_stack st' = borrow_alias_stack st;
  bo_uses : remaining_ident_uses st' = remaining_ident_uses st;
  bo_loops : active_loop_uses st' = active_loop_uses st;
  bo_errors : errors st `prefix_of` errors st';
}.

#[export] Instance borrow_only_preorder : PreOrder borrow_only.
Proof.
  split.
  - intros st. constructor; done.
  - intros a b c [] []. constructor; try congruence. by etrans.
Qed.

Create HintDb borrow.

Lemma push_errors_bo es st : borrow_only st (push_errors es st).
Proof. constructor; cbn; try done. by apply prefix_app_r. Qed.

Lemma push_error_bo e st : borrow_only st (push_error e st).
Proof. apply push_errors_bo. Qed.

Lemma set_borrows_bo b n st : borrow_only st (set_borrows b n st).
Proof. constructor; done. Qed.

Lemma set_aliases_bo a st : borrow_only st (set_aliases a st).
Proof. constructor; done. Qed.

#[export] Hint Resolve push_errors_bo push_error_bo set_borrows_bo set_aliases_bo : borrow.

(** Case analysis over the tests of an operation, then the parts. *)
Ltac bo_step :=
  repeat match goal with
    | |- borrow_only ?s ?s => reflexivity
    | |- borrow_only _ (match ?x with _ => _ end) => destruct x
    | |- borrow_only _ (let '(_, _) := ?x in _) => destruct x
    | |- borrow_only ?s (set_borrows _ _ ?t) => transitivity t; [|apply set_borrows_bo]
    | |- borrow_only ?s (set_aliases _ ?t) => transitivity t; [|apply set_aliases_bo]
    | |- borrow_only ?s (push_error _ ?t) => transitivity t; [|apply push_error_bo]
    | |- borrow_only ?s (push_errors _ ?t) => transitivity t; [|apply push_errors_bo]
    | |- borrow_only ?s (insert_borrows _ _ ?t) => transitivity t; [|apply set_borrows_bo]
    | |- borrow_only ?s (remove_borrows _ ?t) => transitivity t; [|apply set_borrows_bo]
    | |- borrow_only ?s (filter_borrows _ ?t) => transitivity t; [|apply set_borrows_bo]
    | |- borrow_only ?s (record_borrow_alias _ _ ?t) => transitivity t; [|apply set_aliases_bo]
    | |- borrow_only ?s (remove_alias _ ?t) => transitivity t; [|apply set_aliases_bo]
    | |- borrow_only ?s (fold_left _ _ ?t) => transitivity t; [|apply fold_left_rel; [apply _|intros]]
    end; auto with borrow.

Section frame.
Context (env : TypeEnv).

Lemma add_borrow_bo e k st : borrow_only st (add_borrow e k st).
Proof. unfold add_borrow. bo_step. Qed.
Hint Resolve add_borrow_bo : borrow.

Lemma borrow_into_bo t e k st : borrow_only st (borrow_into t e k st).2.
Proof.
  unfold borrow_into. destruct (expr_move_path e) as [p|]; cbn; [|auto with borrow].
  destruct (borrows (add_borrow e k st) !! p); cbn; bo_step.
Qed.
Hint Resolve borrow_into_bo : borrow.

Lemma rebind_alias_bo t e st : borrow_only st (rebind_alias t e st).
Proof. unfold rebind_alias. bo_step. Qed.
Hint Resolve rebind_alias_bo : borrow.

Lemma borrow_or_rebind_bo t owner kind e st :
  borrow_only st (let '(done, st1) := borrow_into t owner kind st in
                  if done : bool then st1 else rebind_alias t e st1).
Proof.
  pose proof (borrow_into_bo t owner kind st) as H. destruct (borrow_into t owner kind st) as [[] st1].
  - exact H.
  - cbn in H. transitivity st1; auto with borrow.
Qed.
Hint Resolve borrow_or_rebind_bo : borrow.

Lemma track_alias_bo t e st : borrow_only st (track_borrow_alias_for_path t e st).
Proof.
  revert st. induction e as [k s IH] using Expr_children_ind. intros st.
  cbn [track_borrow_alias_for_path]. destruct k; cbn [expr_children] in IH; forall_split;
    auto with borrow.
  - destruct (borrow_op op); auto with borrow.
  - case_bool_decide; auto with borrow.
Qed.

Lemma track_alias_name_bo n e st : borrow_only st (track_borrow_alias n e st).
Proof. apply track_alias_bo. Qed.
Hint Resolve track_alias_bo track_alias_name_bo : borrow.

Lemma track_borrows_bo n e st : borrow_only st (track_borrows_in_expr env n e st).
Proof.
  revert st. induction e as [k s IH] using Expr_children_ind. intros st.
  assert (HL : forall l st, Forall (fun e => forall st, borrow_only st (track_borrows_in_expr env n e st)) l ->
    borrow_only st (fold_left (fun st a => track_borrows_in_expr env n a st) l st)).
  { intros l st' HF. by apply fold_left_rel_Forall; [apply _|]. }
  cbn [track_borrows_in_expr]. destruct k; cbn [expr_children] in IH; forall_split;
    auto with borrow; try reflexivity; try (etrans; [|solve [eauto]]; eauto; fail).
  - destruct (borrow_op op); [auto with borrow|reflexivity].
  - destruct (match resolved_call_return_type _ _ with Some _ => _ | None => _ end); [|reflexivity].
    transitivity (track_borrows_in_expr env n func st); auto.
  - assert (Hr : borrow_only st (if method_borrows_receiver env (mkExpr (EMethodCall receiver method args) s)
        receiver (ident_name method) then (borrow_into (root_path n) receiver Immutable st).2 else st)).
    { destruct (method_borrows_receiver _ _ _ _); [auto with borrow|reflexivity]. }
    destruct (match resolved_method_return_type _ _ with Some _ => _ | None => _ end); [|done].
    etrans; [exact Hr|]. auto.
  - apply fold_left_rel_Forall; [apply _|]. by apply Forall_map in H.
Qed.
Hint Resolve track_borrows_bo : borrow.

Lemma borrow_receiver_bo e r m st : borrow_only st (borrow_receiver env e r m st).
Proof. unfold borrow_receiver. bo_step. Qed.

Lemma end_alias_bo st a : borrow_only st (end_alias env st a).
Proof. destruct a as [n o]. unfold end_alias. bo_step. Qed.
Hint Resolve end_alias_bo : borrow.

Lemma end_borrows_bo st : borrow_only st (end_borrows_with_no_remaining_uses env st).
Proof. unfold end_borrows_with_no_remaining_uses. bo_step. Qed.

Lemma end_last_use_bo o st : borrow_only st (end_last_use_borrows_for_path env o st).
Proof. unfold end_last_use_borrows_for_path. bo_step. Qed.

Lemma check_vec_bo r m st : borrow_only st (check_vec_borrow_invalidation env r m st).
Proof. unfold check_vec_borrow_invalidation. bo_step. Qed.

Lemma check_use_bo p s st : borrow_only st (check_move_path_use p s st).
Proof. unfold check_move_path_use. bo_step. Qed.
Hint Resolve check_use_bo : borrow.

Lemma check_owned_string_bo r m st : borrow_only st (check_owned_string_invalidation r m st).
Proof. unfold check_owned_string_invalidation. bo_step. Qed.

Lemma check_escaping_ref_bo e o st : borrow_only st (check_escaping_ref env e o st).
Proof. unfold check_escaping_ref. bo_step. Qed.

Lemma check_escaping_path_bo e st : borrow_only st (check_escaping_path env e st).
Proof. unfold check_escaping_path. bo_step. Qed.
Hint Resolve check_escaping_ref_bo check_escaping_path_bo : borrow.

Lemma escape_tail_bo rec stmts st :
  Forall (fun e => forall st, borrow_only st (rec e st)) (flat_map stmt_exprs stmts) ->
  borrow_only st (escape_tail rec stmts st).
Proof.
  induction stmts as [|s [|s' rest] IH]; intros H; [reflexivity| |].
  - cbn in *. rewrite app_nil_r in H. unfold stmt_exprs in H.
    destruct (stmt_kind s); try reflexivity. forall_split. destruct (negb _); auto; reflexivity.
  - cbn [flat_map] in H. apply Forall_app in H as [_ H]. apply IH. exact H.
Qed.

Lemma check_escape_bo e st : borrow_only st (check_borrow_escape_expr env e st).
Proof.
  revert st. induction e as [k s IH] using Expr_children_ind. intros st.
  cbn [check_borrow_escape_expr]. destruct k; cbn [expr_children] in IH; forall_split;
    auto with borrow.
  - destruct op; auto with borrow.
  - destruct (method_borrows_receiver _ _ _ _); auto with borrow.
  - by apply escape_tail_bo.
  - transitivity (escape_block_tail_with (check_borrow_escape_expr env) then_branch st).
    + by apply escape_tail_bo.
    + destruct else_branch; cbn in *; forall_split; auto; reflexivity.
  - apply fold_left_rel_Forall; [apply _|]. clear H. induction arms as [|a l IHl]; [constructor|].
    cbn [flat_map] in H0. apply Forall_app in H0 as [Ha Hl]. constructor; [|auto].
    unfold arm_exprs in Ha. forall_split. auto.
  - by apply fold_left_rel_Forall; [apply _|].
  - by apply fold_left_rel_Forall; [apply _|].
  - apply fold_left_rel_Forall; [apply _|]. by apply Forall_map in H.
Qed.
End frame.

#[export] Hint Resolve add_borrow_bo borrow_into_bo rebind_alias_bo track_alias_bo track_borrows_bo
  end_borrows_bo end_last_use_bo check_vec_bo check_use_bo check_owned_string_bo check_escape_bo : borrow.

(** ** The walk is balanced

    Whatever is checked, the saved scopes and the loop context are the same
    afterwards and errors have only been added. *)

Record balanced (st st' : BorrowChecker) : Prop := {
  ba_mstack : moved_stack st' = moved_stack st;
  ba_bstack : borrow_stack st' = borrow_stack st;
  ba_astack : borrow_alias_stack st' = borrow_alias_stack st;
  ba_loops : active_loop_uses st' = active_loop_uses st;
  ba_errors : errors st `prefix_of` errors st';
}.

#[export] Instance balanced_preorder : PreOrder balanced.
Proof.
  split.
  - intros st. constructor; done.
  - intros a b c [] []. constructor; try congruence. by etrans.
Qed.

Lemma borrow_only_balanced st st' : borrow_only st st' -> balanced st st'.
Proof. intros []. by constructor. Qed.

Lemma set_moved_balanced m s st : balanced st (set_moved m s st).
Proof. by constructor. Qed.

Lemma consume_balanced n st : balanced st (consume_ident_use n st).
Proof. unfold consume_ident_use. destruct (remaining_ident_uses st !! n); [by constructor|reflexivity]. Qed.

Lemma consume_path_balanced e st : balanced st (consume_path_use e st).
Proof. unfold consume_path_use. destruct (expr_move_path e); [apply consume_balanced|reflexivity]. Qed.

#[export] Hint Resolve borrow_only_balanced set_moved_balanced consume_path_balanced : borrow.

Section walk_frame.
Context (env : TypeEnv).

Lemma mark_moved_balanced p s st : balanced st (mark_moved env p s st).
Proof.
  unfold mark_moved. transitivity (end_last_use_borrows_for_path env p st); [auto with borrow|].
  destruct (first_overlapping _ _); auto with borrow.
Qed.
Hint Resolve mark_moved_balanced : borrow.

Lemma maybe_move_balanced e st : balanced st (maybe_move_string_arg env e st).
Proof.
  unfold maybe_move_string_arg. destruct (expr_move_path e); [|reflexivity].
  destruct (move_path_is_movable_owning_value _ _); [auto with borrow|reflexivity].
Qed.
Hint Resolve maybe_move_balanced : borrow.

Lemma maybe_move_assign_balanced t v st : balanced st (maybe_move_assignment_value env t v st).
Proof. unfold maybe_move_assignment_value. destruct (_ && _); [reflexivity|auto with borrow]. Qed.

Lemma merge_else_balanced em es st : balanced st (merge_else_moves em es st).
Proof.
  unfold merge_else_moves. apply fold_left_rel; [apply _|]. intros s x. destruct (es !! x); [auto with borrow|reflexivity].
Qed.
Hint Resolve maybe_move_assign_balanced merge_else_balanced : borrow.

Section rec.
Context (rec : Expr -> BorrowChecker -> BorrowChecker).

Definition keeps_balance (e : Expr) : Prop := forall st, balanced st (rec e st).

Lemma check_list_balanced l st : Forall keeps_balance l -> balanced st (check_list rec l st).
Proof. unfold check_list. intros H. by apply fold_left_rel_Forall; [apply _|]. Qed.

Lemma check_opt_balanced o st : Forall keeps_balance (opt_exprs o) -> balanced st (check_opt rec o st).
Proof. destruct o; cbn; intros H; forall_split; [auto|reflexivity]. Qed.

Lemma check_args_balanced l st : Forall keeps_balance l -> balanced st (check_args env rec l st).
Proof.
  unfold check_args. intros H. apply fold_left_rel_Forall; [apply _|]. eapply Forall_impl; [exact H|].
  intros e He s. transitivity (rec e s); auto with borrow.
Qed.

Lemma check_stmt_balanced s st : Forall keeps_balance (stmt_exprs s) -> balanced st (check_stmt_with env rec s st).
Proof.
  unfold check_stmt_with, stmt_exprs.
  destruct (stmt_kind s) as [n ? [v|] ?|? ? v|v|d]; cbn; intros H; forall_split; auto; try reflexivity.
  transitivity (rec v st); [auto|].
  transitivity (track_borrows_in_expr env (ident_name n) v (rec v st)); auto with borrow.
Qed.

Lemma check_stmts_balanced r l st :
  Forall keeps_balance (flat_map stmt_exprs l) -> balanced st (check_stmts_with env rec r l st).
Proof.
  revert st. induction l as [|s l IH]; intros st H; [reflexivity|].
  cbn [flat_map] in H. forall_split. cbn [check_stmts_with].
  match goal with |- balanced _ (check_stmts_with _ _ _ _ (_ _ ?x)) => set (st2 := x) end.
  transitivity st2; [|transitivity (end_borrows_with_no_remaining_uses env st2); auto with borrow].
  transitivity (check_stmt_with env rec s st); [by apply check_stmt_balanced|].
  subst st2. destruct (r && _); [|reflexivity]. destruct (stmt_kind s); try reflexivity.
  destruct (negb _); [auto with borrow|reflexivity].
Qed.

Lemma pop_scope_spec merge st st' :
  balanced (push_scope st) st' ->
  balanced st (pop_scope merge st') /\
  borrows (pop_scope merge st') = borrows st /\
  borrow_aliases (pop_scope merge st') = borrow_aliases st /\
  remaining_ident_uses (pop_scope merge st') = remaining_ident_uses st' /\
  (moved (pop_scope merge st'), move_spans (pop_scope merge st')) =
    foldr (pop_moved_path merge) (moved st, move_spans st') (elements (moved st')) /\
  errors (pop_scope merge st') = errors st'.
Proof.
  intros [Hm Hb Ha Hl He]. cbn in Hm, Hb, Ha, Hl, He.
  unfold pop_scope, pop_borrows. rewrite Hb. unfold pop_moved. cbn. rewrite Hm.
  destruct (foldr _ _ _) as [m s] eqn:E. unfold pop_aliases. cbn. rewrite Ha. cbn.
  by split_and!.
Qed.

Lemma check_block_inner_balanced b r m st :
  Forall keeps_balance (block_exprs b) -> balanced st (check_block_inner_with env rec b r m st).
Proof.
  intros H. apply pop_scope_spec. by apply check_stmts_balanced.
Qed.

Lemma check_block_balanced b st :
  Forall keeps_balance (block_exprs b) -> balanced st (check_block_with env rec b st).
Proof. apply check_block_inner_balanced. Qed.

Lemma check_if_balanced c t o st :
  keeps_balance c -> Forall keeps_balance (block_exprs t) -> Forall keeps_balance (opt_exprs o) ->
  balanced st (check_if_with env rec c t o st).
Proof.
  intros Hc Ht Ho. unfold check_if_with. cbv zeta.
  set (st0 := rec c st). set (st1 := check_block_inner_with env rec t false true st0).
  set (st2 := set_moved (moved st0) (move_spans st0) st1).
  transitivity st0; [apply Hc|]. transitivity st1; [by apply check_block_inner_balanced|].
  transitivity st2; [apply set_moved_balanced|].
  destruct o as [e|]; cbn in Ho; forall_split.
  - transitivity (rec e st2); [auto|]. destruct (negb (block_has_unconditional_return_stmt t));
      destruct (negb (expr_has_unconditional_return e)); auto with borrow;
      (etrans; [|apply merge_else_balanced]); auto with borrow.
  - destruct (block_has_unconditional_return_stmt t); auto with borrow.
Qed.

Lemma check_loop_balanced c b st :
  Forall keeps_balance (opt_exprs c) -> Forall keeps_balance (block_exprs b) ->
  balanced st (check_loop_with env rec c b st).
Proof.
  intros Hc Hb. unfold check_loop_with.
  set (st1 := push_active_loop_uses c b st).
  assert (H : balanced st1 (check_block_with env rec b (check_opt rec c st1))).
  { transitivity (check_opt rec c st1); [by apply check_opt_balanced|by apply check_block_inner_balanced]. }
  destruct H as [H1 H2 H3 H4 H5]. constructor; cbn; try done. by rewrite H4.
Qed.

Lemma arm_balanced a st :
  Forall keeps_balance (arm_exprs a) -> balanced st (rec (arm_body a) (check_opt rec (arm_guard a) st)).
Proof.
  unfold arm_exprs. intros H. forall_split.
  transitivity (check_opt rec (arm_guard a) st); [by apply check_opt_balanced|auto].
Qed.

Lemma check_match_balanced s arms st :
  keeps_balance s -> Forall keeps_balance (flat_map arm_exprs arms) ->
  balanced st (check_match_with rec s arms st).
Proof.
  intros Hs Ha. unfold check_match_with. transitivity (rec s st); [auto|].
  apply fold_left_rel_Forall; [apply _|]. rewrite Forall_flat_map in Ha.
  eapply Forall_impl; [exact Ha|]. intros a H st'. by apply arm_balanced.
Qed.

Lemma check_method_call_balanced e r m args st :
  keeps_balance r -> Forall keeps_balance args ->
  balanced st (check_method_call_with env rec e r m args st).
Proof.
  intros Hr Ha. unfold check_method_call_with. set (st1 := borrow_receiver env e r m st).
  transitivity st1; [apply borrow_only_balanced, borrow_receiver_bo|].
  transitivity (rec r st1); [auto|].
  transitivity (check_owned_string_invalidation r m (rec r st1)); [auto with borrow|].
  etrans; [|by apply check_args_balanced]. auto with borrow.
Qed.

Lemma check_assign_balanced t v st :
  keeps_balance t -> keeps_balance v -> balanced st (check_assign_with env rec t v st).
Proof.
  intros Ht Hv. unfold check_assign_with. cbv zeta.
  set (st0 := check_assignment_place_with rec t st).
  transitivity st0.
  { subst st0. unfold check_assignment_place_with. destruct (expr_move_path t); [|auto].
    destruct (find _ _); [auto with borrow|reflexivity]. }
  transitivity (rec v st0); [auto|].
  transitivity (maybe_move_assignment_value env t v (rec v st0)); [auto with borrow|].
  destruct (expr_move_path t) as [p|]; [|reflexivity].
  transitivity (reinitialize_move_path p (maybe_move_assignment_value env t v (rec v st0)));
    [apply set_moved_balanced|auto with borrow].
Qed.

Lemma check_return_balanced o st :
  Forall keeps_balance (opt_exprs o) -> balanced st (check_return_with env rec o st).
Proof.
  destruct o as [v|]; cbn; intros H; forall_split; [|reflexivity].
  transitivity (rec v st); [auto|].
  transitivity (check_borrow_escape_expr env v (rec v st)); auto with borrow.
Qed.
End rec.

Lemma check_expr_balanced e : keeps_balance (check_expr env) e.
Proof.
  revert e. apply (Expr_children_ind (keeps_balance (check_expr env))). intros k s IH st.
  cbn [check_expr]. destruct k; cbn [expr_children] in IH; forall_split;
    try reflexivity; auto using check_list_balanced, check_opt_balanced, check_block_balanced,
      check_if_balanced, check_match_balanced, check_method_call_balanced, check_assign_balanced,
      check_return_balanced; try (etrans; [eauto|eauto]; fail).
  - etrans; [apply (consume_path_balanced (mkExpr (EIdent i) s))|]. auto with borrow.
  - etrans; [apply (consume_path_balanced (mkExpr (EPath p) s))|].
    destruct (as_simple p); [auto with borrow|reflexivity].
  - etrans; [|eauto]. destruct (borrow_op op); [auto with borrow|reflexivity].
  - etrans; [eauto|by apply check_args_balanced].
  - apply check_loop_balanced; cbn; auto.
  - apply check_loop_balanced; cbn; auto.
  - apply check_loop_balanced; cbn; auto.
  - etrans; [apply (consume_path_balanced (mkExpr (EField base field) s))|].
    destruct (expr_move_path _); [auto with borrow|reflexivity].
  - etrans; [|by apply check_opt_balanced]. apply fold_left_rel_Forall; [apply _|].
    exact (proj1 (Forall_map _ _ _) H).
  - transitivity (check_expr env value (check_expr env target st)); [|auto with borrow].
    etrans; eauto.
  - etrans; [|by apply check_opt_balanced]. by apply check_opt_balanced.
Qed.
End walk_frame.

(** ** Uses that are still to come

    [collect_*] counts the uses of a name before the walk and the walk
    consumes them one by one.  The two agree on expressions whose assignment
    targets and field accesses are plain paths; [a[i] = v] and [f(x).y] are
    the places where they do not (see below). *)

Definition node_counted (e : Expr) : bool :=
  match expr_kind e with
  | EAssign target _ => is_some (expr_move_path target)
  | EField _ _ => is_some (expr_move_path e)
  | _ => true
  end.

Definition counted_block (b : ABlock) : bool := forallb (all_nodes node_counted) (block_exprs b).

(** The expressions whose uses the count of a node adds up. *)
Definition collected_children (k : AExprKind) : list Expr :=
  match k with EAssign _ value => [value] | _ => expr_children k end.

Definition leaf_uses (k : AExprKind) (uses : gmap string nat) : gmap string nat :=
  match k with
  | EIdent i => record_ident_use (ident_name i) uses
  | EPath p => match as_simple p with Some i => record_ident_use (ident_name i) uses | None => uses end
  | _ => uses
  end.

Lemma collect_opt_fold rec o u : collect_opt rec o u = collect_list rec (opt_exprs o) u.
Proof. by destruct o. Qed.

Lemma collect_block_fold rec b u : collect_block_with rec b u = collect_list rec (block_exprs b) u.
Proof.
  unfold collect_block_with, collect_list, block_exprs. rewrite fold_left_flat_map.
  apply fold_left_ext. intros v s. unfold collect_stmt_with, stmt_exprs.
  by destruct (stmt_kind s) as [? ? [v'|] ?|? ? v'|v'|d].
Qed.

Lemma collect_arms_fold rec arms u :
  fold_left (fun u a => collect_arm rec a u) arms u = collect_list rec (flat_map arm_exprs arms) u.
Proof.
  unfold collect_list. rewrite fold_left_flat_map. apply fold_left_ext. intros v a.
  unfold collect_arm, arm_exprs. rewrite fold_left_app. cbn. by destruct (arm_guard a).
Qed.

Lemma collect_fields_fold rec (fs : list (FieldValue Expr)) u :
  fold_left (fun u f => rec (fv_value f) u) fs u = collect_list rec (map fv_value fs) u.
Proof. revert u. induction fs as [|f fs IH]; intros u; cbn; [done|apply IH]. Qed.

Lemma collect_list_app rec l1 l2 u :
  collect_list rec (l1 ++ l2) u = collect_list rec l2 (collect_list rec l1 u).
Proof. apply fold_left_app. Qed.

Lemma collect_eq k s u :
  collect_expr_ident_uses (mkExpr k s) u =
    collect_list collect_expr_ident_uses (collected_children k) (leaf_uses k u).
Proof.
  destruct k; cbn [collect_expr_ident_uses collected_children expr_children leaf_uses];
    rewrite ?collect_fields_fold, ?collect_opt_fold, ?collect_block_fold, ?collect_arms_fold,
      ?collect_list_app; try done.
  - by rewrite <- collect_list_app.
Qed.

(** The uses of one name [n]: in a state, and in an expression. *)
Section uses.
Context (env : TypeEnv) (n : string).

Definition get_uses (u : gmap string nat) : nat := default 0 (u !! n).
Definition uses (st : BorrowChecker) : nat := get_uses (remaining_ident_uses st).
Definition uses_in (e : Expr) : nat := get_uses (collect_expr_ident_uses e ∅).
Definition uses_in_list (l : list Expr) : nat := sum_list (map uses_in l).

Arguments uses_in_list : simpl never.
Arguments uses_in : simpl never.

Lemma uses_in_list_app l1 l2 : uses_in_list (l1 ++ l2) = uses_in_list l1 + uses_in_list l2.
Proof. unfold uses_in_list. induction l1; cbn; lia. Qed.

Lemma get_empty : get_uses ∅ = 0.
Proof. unfold get_uses. by rewrite lookup_empty. Qed.

Lemma record_get name u :
  get_uses (record_ident_use name u) = get_uses u + (if bool_decide (name = n) then 1 else 0).
Proof.
  unfold get_uses, record_ident_use. case_bool_decide as E.
  - subst. rewrite lookup_insert_eq. cbn. lia.
  - rewrite lookup_insert_ne by done. lia.
Qed.

Lemma leaf_get k u : get_uses (leaf_uses k u) = get_uses u + get_uses (leaf_uses k ∅).
Proof.
  destruct k; cbn [leaf_uses]; rewrite ?record_get, ?get_empty; try lia.
  destruct (as_simple p); rewrite ?record_get, ?get_empty; lia.
Qed.

Lemma collect_list_get l u :
  Forall (fun e => forall u, get_uses (collect_expr_ident_uses e u) = get_uses u + uses_in e) l ->
  get_uses (collect_list collect_expr_ident_uses l u) = get_uses u + uses_in_list l.
Proof.
  intros H. revert u. induction H as [|e l He _ IH]; intros u; cbn; [unfold uses_in_list; cbn; lia|].
  unfold collect_list in *. rewrite IH, He. unfold uses_in_list. cbn. lia.
Qed.

Lemma collect_get e u : get_uses (collect_expr_ident_uses e u) = get_uses u + uses_in e.
Proof.
  revert u. induction e as [k s IH] using Expr_children_ind. intros u.
  assert (IH' : Forall (fun e => forall u, get_uses (collect_expr_ident_uses e u) = get_uses u + uses_in e)
                  (collected_children k)).
  { destruct k; cbn [collected_children] in *; try exact IH. by apply Forall_cons in IH as [_ IH]. }
  unfold uses_in at 1. rewrite !collect_eq, !collect_list_get by done. rewrite (leaf_get k u). lia.
Qed.

Lemma collect_list_uses l u :
  get_uses (collect_list collect_expr_ident_uses l u) = get_uses u + uses_in_list l.
Proof. apply collect_list_get, Forall_forall. intros e _ v. apply collect_get. Qed.

(** A node counts its own use and those of its collected children. *)
Lemma uses_in_eq k s :
  uses_in (mkExpr k s) = get_uses (leaf_uses k ∅) + uses_in_list (collected_children k).
Proof. unfold uses_in at 1. by rewrite collect_eq, collect_list_uses. Qed.

Lemma uses_in_path e p :
  expr_move_path e = Some p -> uses_in e = if bool_decide (mp_root p = n) then 1 else 0.
Proof.
  revert p. induction e as [k s IH] using Expr_children_ind. intros p. rewrite uses_in_eq.
  destruct k as [|i|q| | | | | | | | | | | | | | | | | | |base field| | | | | | | | | | | |inner];
    cbn [expr_move_path]; try done; cbn [collected_children expr_children leaf_uses] in *.
  - intros [= <-]. rewrite record_get, get_empty. unfold uses_in_list. cbn. lia.
  - destruct (as_simple q); [|done]. intros [= <-].
    rewrite record_get, get_empty. unfold uses_in_list. cbn. lia.
  - forall_split. destruct (expr_move_path base) as [q|] eqn:E; [|done]. intros [= <-].
    unfold uses_in_list. cbn. rewrite (H q), get_empty by done. cbn. lia.
  - forall_split. intros E. unfold uses_in_list. cbn. rewrite (H p), get_empty by done. lia.
Qed.

(** [consumes d]: a step that uses the name [d] times. *)
Definition consumes (d : nat) (st st' : BorrowChecker) : Prop := uses st' = uses st - d.

Lemma consumes_trans d1 d2 st1 st2 st3 :
  consumes d1 st1 st2 -> consumes d2 st2 st3 -> consumes (d1 + d2) st1 st3.
Proof. unfold consumes. intros -> ->. lia. Qed.

Lemma consumes_same st st' : remaining_ident_uses st' = remaining_ident_uses st -> consumes 0 st st'.
Proof. unfold consumes, uses. intros ->. lia. Qed.

Lemma consumes_bo st st' : borrow_only st st' -> consumes 0 st st'.
Proof. intros H. apply consumes_same, H. Qed.

Lemma consumes_then d st1 st2 st3 :
  consumes d st1 st2 -> remaining_ident_uses st3 = remaining_ident_uses st2 -> consumes d st1 st3.
Proof. unfold consumes, uses. by intros H ->. Qed.

Lemma consume_ident_consumes name st :
  consumes (if bool_decide (name = n) then 1 else 0) st (consume_ident_use name st).
Proof.
  unfold consumes, consume_ident_use, uses, get_uses.
  destruct (remaining_ident_uses st !! name) as [r|] eqn:E; cbn.
  - case_bool_decide as Hn; subst; rewrite ?E; cbn.
    + destruct (Nat.eqb_spec (r - 1) 0) as [Hr|Hr].
      * rewrite lookup_delete_eq. cbn. lia.
      * rewrite lookup_insert_eq. done.
    + destruct (Nat.eqb_spec (r - 1) 0); [rewrite lookup_delete_ne by done|rewrite lookup_insert_ne by done]; lia.
  - case_bool_decide as Hn; subst; rewrite ?E; cbn; lia.
Qed.

Lemma consume_path_consumes e st :
  is_some (expr_move_path e) = true -> consumes (uses_in e) st (consume_path_use e st).
Proof.
  unfold consume_path_use. destruct (expr_move_path e) as [p|] eqn:E; [|done]. intros _.
  rewrite (uses_in_path e p E). apply consume_ident_consumes.
Qed.

Lemma maybe_move_uses e st :
  remaining_ident_uses (maybe_move_string_arg env e st) = remaining_ident_uses st.
Proof.
  unfold maybe_move_string_arg, mark_moved. destruct (expr_move_path e) as [p|]; [|done].
  destruct (move_path_is_movable_owning_value env p); [|done].
  destruct (first_overlapping _ _); cbn; apply (bo_uses _ _ (end_last_use_bo env p st)).
Qed.

Lemma maybe_move_assign_uses t v st :
  remaining_ident_uses (maybe_move_assignment_value env t v st) = remaining_ident_uses st.
Proof. unfold maybe_move_assignment_value. destruct (_ && _); [done|apply maybe_move_uses]. Qed.

Lemma merge_else_uses em es st :
  remaining_ident_uses (merge_else_moves em es st) = remaining_ident_uses st.
Proof.
  unfold merge_else_moves.
  apply (fold_left_rel (fun st st' => remaining_ident_uses st' = remaining_ident_uses st)
    (PreOrder0 := ltac:(split; [by intros ?|intros ? ? ? H1 H2; by rewrite H2, H1]))).
  intros s x. by destruct (es !! x).
Qed.

Section rec.
Context (rec : Expr -> BorrowChecker -> BorrowChecker).

Definition rec_consumes (e : Expr) : Prop := forall st, consumes (uses_in e) st (rec e st).

Lemma fold_consumes {A} (f : BorrowChecker -> A -> BorrowChecker) (g : A -> list Expr) (l : list A) st :
  Forall (fun x => forall st, consumes (uses_in_list (g x)) st (f st x)) l ->
  consumes (uses_in_list (flat_map g l)) st (fold_left f l st).
Proof.
  intros H. revert st. induction H as [|x l Hx _ IH]; intros st; cbn.
  - by apply consumes_same.
  - rewrite uses_in_list_app. eapply consumes_trans; [apply Hx|apply IH].
Qed.

Lemma consumes_one e st st' : consumes (uses_in e) st st' -> consumes (uses_in_list [e]) st st'.
Proof. unfold uses_in_list. cbn. by rewrite Nat.add_0_r. Qed.

Lemma flat_map_singleton {A} (l : list A) : flat_map (fun x => [x]) l = l.
Proof. induction l; cbn; congruence. Qed.

Lemma list_consumes l st : Forall rec_consumes l -> consumes (uses_in_list l) st (check_list rec l st).
Proof.
  intros H. rewrite <- (flat_map_singleton l) at 1. apply fold_consumes.
  eapply Forall_impl; [exact H|]. intros e He st'. apply consumes_one, He.
Qed.

Lemma args_consumes l st : Forall rec_consumes l -> consumes (uses_in_list l) st (check_args env rec l st).
Proof.
  intros H. rewrite <- (flat_map_singleton l) at 1. apply fold_consumes.
  eapply Forall_impl; [exact H|]. intros e He st'. apply consumes_one.
  eapply consumes_then; [apply He|apply maybe_move_uses].
Qed.

Lemma opt_consumes o st :
  Forall rec_consumes (opt_exprs o) -> consumes (uses_in_list (opt_exprs o)) st (check_opt rec o st).
Proof.
  destruct o; cbn; intros H; [|by apply consumes_same]. forall_split. apply consumes_one; auto.
Qed.

Lemma stmt_consumes s st :
  Forall rec_consumes (stmt_exprs s) -> consumes (uses_in_list (stmt_exprs s)) st (check_stmt_with env rec s st).
Proof.
  unfold check_stmt_with, stmt_exprs.
  destruct (stmt_kind s) as [nm ? [v|] ?|? ? v|v|d]; cbn; intros H; forall_split;
    try (by apply consumes_same); try (apply consumes_one; auto).
  eapply consumes_then; [auto|]. rewrite maybe_move_uses. apply (bo_uses _ _ (track_borrows_bo _ _ _ _)).
Qed.

Lemma stmts_consumes r l st :
  Forall rec_consumes (flat_map stmt_exprs l) ->
  consumes (uses_in_list (flat_map stmt_exprs l)) st (check_stmts_with env rec r l st).
Proof.
  revert st. induction l as [|s l IH]; intros st H; [by apply consumes_same|].
  cbn [flat_map] in *. apply Forall_app in H as [H1 H2]. rewrite uses_in_list_app. cbn [check_stmts_with].
  eapply consumes_trans; [|by apply IH].
  eapply consumes_then; [by apply stmt_consumes|].
  rewrite (bo_uses _ _ (end_borrows_bo env _)). destruct (r && _); [|done].
  destruct (stmt_kind s); try done. destruct (negb _); [|done]. apply (bo_uses _ _ (check_escape_bo _ _ _)).
Qed.

Lemma block_inner_consumes b r m st :
  Forall rec_consumes (block_exprs b) -> Forall (keeps_balance rec) (block_exprs b) ->
  consumes (uses_in_list (block_exprs b)) st (check_block_inner_with env rec b r m st).
Proof.
  intros H Hb. unfold check_block_inner_with.
  pose proof (pop_scope_spec m st _ (check_stmts_balanced env rec r _ (push_scope st) Hb)) as (_ & _ & _ & E & _).
  refine (consumes_then _ (push_scope st) _ _ _ E). by apply stmts_consumes.
Qed.
End rec.

Lemma all_balanced l : Forall (keeps_balance (check_expr env)) l.
Proof. apply Forall_forall. intros e _. apply check_expr_balanced. Qed.

Notation exact_ := (rec_consumes (check_expr env)).

Lemma block_consumes b st :
  Forall exact_ (block_exprs b) ->
  consumes (uses_in_list (block_exprs b)) st (check_block_with env (check_expr env) b st).
Proof. intros H. apply block_inner_consumes; [done|apply all_balanced]. Qed.

Lemma if_consumes c t o st :
  exact_ c -> Forall exact_ (block_exprs t) -> Forall exact_ (opt_exprs o) ->
  consumes (uses_in c + uses_in_list (block_exprs t) + uses_in_list (opt_exprs o)) st
    (check_if_with env (check_expr env) c t o st).
Proof.
  intros Hc Ht Ho. unfold check_if_with. cbv zeta.
  set (st0 := check_expr env c st). set (st1 := check_block_inner_with env _ t false true st0).
  assert (H1 : consumes (uses_in c + uses_in_list (block_exprs t)) st
                 (set_moved (moved st0) (move_spans st0) st1)).
  { eapply consumes_trans; [apply Hc|]. eapply consumes_then; [by apply block_consumes|done]. }
  destruct o as [e|]; cbn [opt_exprs] in *; forall_split.
  - eapply consumes_then; [eapply consumes_trans; [exact H1|apply consumes_one; auto]|].
    destruct (negb (block_has_unconditional_return_stmt t)); destruct (negb (expr_has_unconditional_return e));
      rewrite ?merge_else_uses; done.
  - unfold uses_in_list at 2. cbn. rewrite Nat.add_0_r.
    destruct (block_has_unconditional_return_stmt t); (eapply consumes_then; [exact H1|done]).
Qed.

Lemma loop_consumes c b st :
  Forall exact_ (opt_exprs c) -> Forall exact_ (block_exprs b) ->
  consumes (uses_in_list (opt_exprs c) + uses_in_list (block_exprs b)) st
    (check_loop_with env (check_expr env) c b st).
Proof.
  intros Hc Hb. unfold check_loop_with. set (st1 := push_active_loop_uses c b st).
  eapply consumes_then with (st2 := check_block_with env (check_expr env) b (check_opt (check_expr env) c st1)); [|done].
  change (consumes (uses_in_list (opt_exprs c) + uses_in_list (block_exprs b)) st1
    (check_block_with env (check_expr env) b (check_opt (check_expr env) c st1))).
  eapply consumes_trans; [by apply opt_consumes|by apply block_consumes].
Qed.

Lemma match_consumes s arms st :
  exact_ s -> Forall exact_ (flat_map arm_exprs arms) ->
  consumes (uses_in s + uses_in_list (flat_map arm_exprs arms)) st
    (check_match_with (check_expr env) s arms st).
Proof.
  intros Hs Ha. unfold check_match_with. eapply consumes_trans; [apply Hs|].
  apply fold_consumes. rewrite Forall_flat_map in Ha. eapply Forall_impl; [exact Ha|].
  intros a H st'. unfold arm_exprs in *. cbn beta in H. forall_split. rewrite uses_in_list_app.
  eapply consumes_trans; [by apply opt_consumes|apply consumes_one; auto].
Qed.

Lemma method_consumes e r m args st :
  exact_ r -> Forall exact_ args ->
  consumes (uses_in r + uses_in_list args) st (check_method_call_with env (check_expr env) e r m args st).
Proof.
  intros Hr Ha. unfold check_method_call_with. eapply consumes_trans; [|by apply args_consumes].
  set (st1 := borrow_receiver env e r m st).
  pose proof (consumes_bo _ _ (borrow_receiver_bo env e r m st)) as H1. fold st1 in H1.
  eapply consumes_then; [exact (consumes_trans 0 _ _ _ _ H1 (Hr st1))|].
  rewrite (bo_uses _ _ (check_vec_bo _ _ _ _)). apply (bo_uses _ _ (check_owned_string_bo _ _ _)).
Qed.

Lemma assign_consumes t v st :
  is_some (expr_move_path t) = true -> exact_ v ->
  consumes (uses_in v) st (check_assign_with env (check_expr env) t v st).
Proof.
  intros Ht Hv. unfold check_assign_with. cbv zeta.
  set (st0 := check_assignment_place_with (check_expr env) t st).
  assert (H0 : consumes 0 st st0).
  { subst st0. unfold check_assignment_place_with. destruct (expr_move_path t); [|done].
    apply consumes_same. by destruct (find _ _). }
  eapply consumes_then; [exact (consumes_trans 0 _ _ _ _ H0 (Hv st0))|].
  destruct (expr_move_path t) as [p|]; [|apply maybe_move_assign_uses].
  rewrite (bo_uses _ _ (track_alias_bo _ _ _)). cbn. apply maybe_move_assign_uses.
Qed.

Lemma return_consumes o st :
  Forall exact_ (opt_exprs o) ->
  consumes (uses_in_list (opt_exprs o)) st (check_return_with env (check_expr env) o st).
Proof.
  destruct o as [v|]; cbn; intros H; [|by apply consumes_same]. forall_split.
  eapply consumes_then; [apply consumes_one; auto|].
  rewrite maybe_move_uses. apply (bo_uses _ _ (check_escape_bo _ _ _)).
Qed.

Lemma uses_leaf k s : leaf_uses k ∅ = ∅ -> uses_in (mkExpr k s) = uses_in_list (collected_children k).
Proof. intros E. by rewrite uses_in_eq, E, get_empty. Qed.

Lemma uses_in_list_cons e l : uses_in_list (e :: l) = uses_in e + uses_in_list l.
Proof. done. Qed.

Lemma flat_map_map {A B} (f : A -> B) (l : list A) : flat_map (fun x => [f x]) l = map f l.
Proof. induction l; cbn; congruence. Qed.

Lemma uses_in_list_one e : uses_in_list [e] = uses_in e.
Proof. apply Nat.add_0_r. Qed.

Lemma check_expr_consumes e : all_nodes node_counted e = true -> exact_ e.
Proof.
  induction e as [k s IH] using Expr_children_ind. intros Hc st.
  apply all_nodes_inv in Hc as [Hn Hc]. pose proof (Forall_impl_and _ _ _ IH Hc) as H. clear IH Hc.
  destruct k; cbn [node_counted expr_kind] in Hn;
    try (rewrite uses_leaf by done; cbn [collected_children expr_children] in *);
    cbn [check_expr]; rewrite ?uses_in_list_cons; forall_split;
    try (by apply consumes_same);
    auto using list_consumes, opt_consumes, block_consumes, match_consumes, method_consumes, return_consumes;
    try (apply consumes_one; auto; fail); try (rewrite Nat.add_0_r; eapply consumes_trans; eauto; fail).
  - eapply consumes_then; [by apply consume_path_consumes|apply (bo_uses _ _ (check_use_bo _ _ _))].
  - unfold consume_path_use. cbn [expr_move_path]. destruct (as_simple p) as [i|] eqn:E.
    + rewrite (uses_in_path (mkExpr (EPath p) s) (root_path (ident_name i))) by (cbn; by rewrite E).
      eapply consumes_then; [apply consume_ident_consumes|apply (bo_uses _ _ (check_use_bo _ _ _))].
    + rewrite uses_leaf by (cbn; by rewrite E). by apply consumes_same.
  - rewrite Nat.add_0_r. destruct (borrow_op op); [|auto].
    exact (consumes_trans 0 _ _ _ _ (consumes_bo _ _ (add_borrow_bo operand _ st)) (H _)).
  - eapply consumes_trans; [auto|by apply args_consumes].
  - rewrite uses_in_list_app, Nat.add_assoc. by apply if_consumes.
  - rewrite <- (uses_in_list_one cond).
    apply (loop_consumes (Some cond)); cbn; auto.
  - rewrite <- (uses_in_list_one iter).
    apply (loop_consumes (Some iter)); cbn; auto.
  - apply (loop_consumes None); cbn; auto.
  - change (consumes (uses_in_list (collected_children (EField base field))) st
      (check_expr env (mkExpr (EField base field) s) st)).
    rewrite <- (uses_leaf (EField base field) s) by done. cbn [check_expr].
    destruct (expr_move_path (mkExpr (EField base field) s)) as [p|] eqn:E; [|done].
    eapply consumes_then; [apply consume_path_consumes; by rewrite E|apply (bo_uses _ _ (check_use_bo _ _ _))].
  - rewrite uses_in_list_app. eapply consumes_trans; [|by apply opt_consumes].
    rewrite <- flat_map_map. apply (fold_consumes _ (fun f => [fv_value f])).
    eapply Forall_impl; [exact (proj1 (Forall_map _ _ _) H)|]. intros f Hf st'. apply consumes_one, Hf.
  - rewrite Nat.add_0_r. by apply assign_consumes.
  - rewrite Nat.add_0_r. eapply consumes_then; [eapply consumes_trans; eauto|apply maybe_move_assign_uses].
  - rewrite uses_in_list_app. eapply consumes_trans; by apply opt_consumes.
Qed.
End uses.

(** ** Exclusive borrows *)

(** A mutable borrow overlaps no other active borrow. *)
Definition exclusive (st : BorrowChecker) : Prop :=
  forall p q bs bs' b b',
    borrows st !! p = Some bs -> borrows st !! q = Some bs' -> b ∈ bs -> b' ∈ bs' ->
    overlaps p q = true -> b_kind b = Mutable -> p = q /\ b = b'.

Definition compatible (a b : BorrowKind) : bool :=
  match a, b with Immutable, Immutable => true | _, _ => false end.

Lemma borrow_conflict_nil kind p span b :
  borrow_conflict kind p span b = [] <-> compatible kind (b_kind b) = true.
Proof. unfold borrow_conflict. destruct kind, (b_kind b); cbn; split; done. Qed.

Lemma flat_map_nil {A B} (f : A -> list B) (l : list A) :
  flat_map f l = [] <-> forall x, x ∈ l -> f x = [].
Proof.
  induction l as [|x l IH]; cbn.
  - split; [intros _ x Hx; by apply not_elem_of_nil in Hx|done].
  - rewrite app_nil, IH. split.
    + intros [H1 H2] y [-> |Hy]%elem_of_cons; auto.
    + intros H. split; [apply H, list_elem_of_here|intros y Hy; by apply H, list_elem_of_further].
Qed.

Lemma app_same {A} (l k : list A) : (l ++ k = l <-> k = [])%list.
Proof.
  split; [|intros ->; apply app_nil_r]. intros E. apply (f_equal length) in E.
  rewrite length_app in E. destruct k; [done|cbn in E; lia].
Qed.

Lemma add_borrow_errors e kind st p :
  expr_move_path e = Some p ->
  existsb (fun b => bool_decide (b_kind b = kind) && bool_decide (b_span b = pair_span (expr_span e)))
    (default [] (borrows st !! p)) = false ->
  errors (add_borrow e kind st) = errors st <->
  forall q bs b, borrows st !! q = Some bs -> b ∈ bs -> overlaps q p = true ->
    compatible kind (b_kind b) = true.
Proof.
  intros Hp Hd. unfold add_borrow. rewrite Hp, Hd. cbn. rewrite app_same, flat_map_nil. split.
  - intros H q bs b Hq Hb Ho. specialize (H (q, bs) ltac:(by apply elem_of_map_to_list)).
    cbn in H. rewrite Ho in H. by apply (borrow_conflict_nil kind p (pair_span (expr_span e))), (proj1 (flat_map_nil _ _) H).
  - intros H [q bs] Hq. apply elem_of_map_to_list in Hq. cbn. destruct (overlaps q p) eqn:Ho; [|done].
    apply flat_map_nil. intros b Hb. apply borrow_conflict_nil. eauto.
Qed.

Lemma add_borrow_exclusive e kind st :
  exclusive st -> errors (add_borrow e kind st) = errors st -> exclusive (add_borrow e kind st).
Proof.
  intros Hx He. destruct (expr_move_path e) as [p|] eqn:Hp; [|by unfold add_borrow in *; rewrite Hp in *].
  destruct (existsb (fun b => bool_decide (b_kind b = kind) && bool_decide (b_span b = pair_span (expr_span e)))
    (default [] (borrows st !! p))) eqn:Hd.
  { unfold add_borrow. by rewrite Hp, Hd. }
  pose proof (proj1 (add_borrow_errors e kind st p Hp Hd) He) as Hc.
  set (new := mkBorrow kind (lifetime_counter st) (pair_span (expr_span e))).
  assert (Hb : borrows (add_borrow e kind st) = <[p := (default [] (borrows st !! p) ++ [new])%list]> (borrows st)).
  { unfold add_borrow. by rewrite Hp, Hd. }
  assert (Hold : forall q bs b, borrows (add_borrow e kind st) !! q = Some bs -> b ∈ bs ->
    (q = p /\ b = new) \/ exists bs0, borrows st !! q = Some bs0 /\ b ∈ bs0).
  { intros q bs b. rewrite Hb. destruct (decide (q = p)) as [->|Hne].
    - rewrite lookup_insert_eq. intros [= <-] [Hin|Hin%list_elem_of_singleton]%elem_of_app; [right|by left].
      destruct (borrows st !! p) as [bs0|]; [by exists bs0|by apply not_elem_of_nil in Hin].
    - rewrite lookup_insert_ne by done. intros E Hin. right. by exists bs. }
  intros q r bs bs' b b' Hq Hr Hbq Hbr Ho Hm.
  destruct (Hold _ _ _ Hq Hbq) as [[-> ->]|(bs0 & Hq0 & Hb0)];
    destruct (Hold _ _ _ Hr Hbr) as [[-> ->]|(bs1 & Hr0 & Hb1)]; [done| | |eauto].
  - rewrite overlaps_sym in Ho. specialize (Hc r bs1 b' Hr0 Hb1 Ho). cbn in Hm. rewrite Hm in Hc. done.
  - specialize (Hc q bs0 b Hq0 Hb0 Ho). rewrite Hm in Hc. by destruct kind.
Qed.

(** ** Theorems *)

(** Checking a block closes every scope it opens: the active borrows, the
    aliases, the saved scopes and the loop context are afterwards what they
    were before, and errors have only been added. *)
Theorem check_block_scoped (env : TypeEnv) (b : ABlock) (reject merge : bool) (st : BorrowChecker) :
  let st' := check_block_inner env b reject merge st in
  borrows st' = borrows st /\ borrow_aliases st' = borrow_aliases st /\
  borrow_stack st' = borrow_stack st /\ moved_stack st' = moved_stack st /\
  borrow_alias_stack st' = borrow_alias_stack st /\ active_loop_uses st' = active_loop_uses st /\
  errors st `prefix_of` errors st'.
Proof.
  pose proof (pop_scope_spec merge st _ (check_stmts_balanced env (check_expr env) reject (block_stmts b)
    (push_scope st) (all_balanced env _))) as ([] & Hb & Ha & _).
  by split_and!.
Qed.

(** The liveness count is exact: after the walk over the first statements
    of a function body, the remaining count of every name is the number of its
    uses in the statements that follow, so a name counts as live exactly when
    it is used later. *)
Theorem remaining_uses_exact (env : TypeEnv) (l1 l2 : list AStmt) (sp : Span) (name : string)
  (st0 : BorrowChecker) :
  counted_block (mkBlock (l1 ++ l2)%list sp) = true ->
  let st := check_stmts_with env (check_expr env) false l1
              (push_scope (prepare_remaining_uses (mkBlock (l1 ++ l2)%list sp) st0)) in
  uses name st = uses_in_list name (flat_map stmt_exprs l2) /\
  (remaining_uses_ident name st = true <-> exists e, e ∈ flat_map stmt_exprs l2 /\ 0 < uses_in name e).
Proof.
  intros Hc st.
  assert (Hu : uses name st = uses_in_list name (flat_map stmt_exprs l2)).
  { unfold counted_block, block_exprs in Hc. cbn [block_stmts] in Hc. rewrite flat_map_app, forallb_app in Hc.
    apply andb_true_iff in Hc as [Hc _]. rewrite forallb_forall in Hc.
    pose proof (stmts_consumes env name (check_expr env) false l1
      (push_scope (prepare_remaining_uses (mkBlock (l1 ++ l2)%list sp) st0))) as H.
    unfold consumes in H. fold st in H. rewrite H.
    - unfold uses, prepare_remaining_uses. cbn [push_scope set_stacks set_uses remaining_ident_uses].
      unfold collect_block_ident_uses. rewrite collect_block_fold, collect_list_uses, get_empty.
      unfold block_exprs. cbn [block_stmts]. rewrite flat_map_app, uses_in_list_app. lia.
    - apply Forall_forall. intros e He. apply check_expr_consumes, Hc. by apply list_elem_of_In. }
  split; [done|].
  unfold remaining_uses_ident. fold (get_uses name (remaining_ident_uses st)). fold (uses name st). rewrite Hu.
  rewrite Nat.ltb_lt. unfold uses_in_list. generalize (flat_map stmt_exprs l2). intros l.
  induction l as [|x l IH]; cbn.
  - split; [lia|]. intros (e & He & _). by apply not_elem_of_nil in He.
  - split.
    + intros H. destruct (decide (0 < uses_in name x)); [exists x; split; [apply list_elem_of_here|done]|].
      destruct (proj1 IH) as (e & He & Hpos); [lia|]. exists e. split; [by apply list_elem_of_further|done].
    + intros (e & [-> |He]%elem_of_cons & Hpos); [lia|].
      assert (0 < sum_list (map (uses_in name) l)) by (apply IH; eauto). lia.
Qed.

(** Taking a borrow is refused exactly when it conflicts: a new borrow of a
    path reports nothing if and only if every active borrow of an overlapping
    path is, like it, immutable; and without a report the active borrows stay
    exclusive. *)
Theorem add_borrow_exact (e : Expr) (kind : BorrowKind) (st : BorrowChecker) (p : MovePath) :
  expr_move_path e = Some p ->
  existsb (fun b => bool_decide (b_kind b = kind) && bool_decide (b_span b = pair_span (expr_span e)))
    (default [] (borrows st !! p)) = false ->
  (errors (add_borrow e kind st) = errors st <->
   forall q bs b, borrows st !! q = Some bs -> b ∈ bs -> overlaps q p = true ->
     kind = Immutable /\ b_kind b = Immutable) /\
  (exclusive st -> errors (add_borrow e kind st) = errors st -> exclusive (add_borrow e kind st)).
Proof.
  intros Hp Hd. split; [|apply add_borrow_exclusive]. rewrite (add_borrow_errors e kind st p Hp Hd).
  split; intros H q bs b Hq Hb Ho; specialize (H q bs b Hq Hb Ho).
  - by destruct kind, (b_kind b).
  - by destruct H as [-> ->].
Qed.

(** ** Samples *)

#[local] Open Scope string_scope.

Definition at_ (lo : Z) : Span := mkSpan lo (lo + 1).
Definition var_at (name : string) (lo : Z) : Expr := expr_ident name (at_ lo).
Definition call_at (f : string) (args : list Expr) (lo : Z) : Expr :=
  expr_call (var_at f lo) args (mkSpan lo (lo + 9)).
Definition block_of (es : list Expr) : ABlock := mkBlock (map stmt_expr es) span_dummy.

(** [let r = &v; use(r); done()] *)
Definition sample_uses : list AStmt :=
  [ stmt_let (ident_new "r" (at_ 4)) None (Some (expr_unary Ref (var_at "v" 9) (at_ 8))) (at_ 0);
    stmt_expr (call_at "use" [var_at "r" 24] 20);
    stmt_expr (call_at "done" [] 30) ].

Lemma remaining_uses_exact_witness :
  remaining_uses_ident "r" (check_stmts_with env_new (check_expr env_new) false (take 1 sample_uses)
    (push_scope (prepare_remaining_uses (mkBlock sample_uses span_dummy) checker_new))) = true /\
  remaining_uses_ident "r" (check_stmts_with env_new (check_expr env_new) false (take 2 sample_uses)
    (push_scope (prepare_remaining_uses (mkBlock sample_uses span_dummy) checker_new))) = false.
Proof.
  split.
  - apply (remaining_uses_exact env_new (take 1 sample_uses) (drop 1 sample_uses) span_dummy "r" checker_new).
    + by vm_compute.
    + exists (call_at "use" [var_at "r" 24] 20). split; [apply list_elem_of_here|vm_compute; lia].
  - apply not_true_is_false. intros H.
    apply (remaining_uses_exact env_new (take 2 sample_uses) (drop 2 sample_uses) span_dummy "r" checker_new) in H;
      [|by vm_compute].
    destruct H as (e & He & Hpos). cbn in He. apply list_elem_of_singleton in He as ->. vm_compute in Hpos. lia.
Defined.

Lemma add_borrow_exact_witness :
  errors (add_borrow (var_at "v" 9) Mutable checker_new) = [] /\
  exclusive (add_borrow (var_at "v" 9) Mutable checker_new) /\
  errors (add_borrow (var_at "v" 20) Immutable (add_borrow (var_at "v" 9) Mutable checker_new)) <> [].
Proof.
  assert (H0 : exclusive checker_new) by (intros p q bs bs' b b' Hp; cbn in Hp; by rewrite lookup_empty in Hp).
  assert (E : errors (add_borrow (var_at "v" 9) Mutable checker_new) = errors checker_new).
  { apply (add_borrow_exact (var_at "v" 9) Mutable checker_new (root_path "v")); [done|done|].
    intros q bs b Hq. cbn in Hq. by rewrite lookup_empty in Hq. }
  split_and!; [exact E| |by vm_compute].
  apply (add_borrow_exact (var_at "v" 9) Mutable checker_new (root_path "v")); done.
Defined.
