(* ===== verification/BorrowSound.v ===== *)
(** What the move check guarantees.

    [runs e] is a trace semantics of expressions: the sequences of uses,
    moves and initialisations of paths an evaluation may perform, over all
    outcomes of conditions, matches, [?] and loops.  A trace is safe when no
    path is used after it, a part of it or a whole it belongs to was moved and
    not initialised since.  The main theorem: a function body the checker
    accepts has only safe traces, for bodies in the fragment [supported_body].
    The last part gives, for the restrictions of the fragment, bodies that the
    checker accepts and that have an unsafe trace.

    A path moves wherever its value is taken and its type is one that moves.
    The checker looks at some of these places: call and method arguments,
    initialisers of [let], assigned values and returned values.  A value is
    also taken, as docs/language-features.md 2.9 and the lowering to MIR
    (mark_drop_expr_moved of mir/lowering) have it, from the receiver of
    [drop], [free], [close] and of a method with [self] by value, from the
    operands of an overloaded operator, the fields of a struct, the value at
    the end of a nested block, and, since a value has one owner, from the
    elements of arrays and tuples, arms of a match, constants, values of
    [break] and [yield], operands of [?] and [await], the iterated value of a
    [for] and a matched value whose patterns bind.  There the checker does not
    look, so in the fragment nothing that moves stands there.  Names are not distinguished by
    scope, which only makes safety stricter. *)

From S2P Require Import Prelude Ast Ty TypeEnv Borrow BorrowInv.

(** ** Traces *)

Inductive event := Use (p : MovePath) | Move (p : MovePath) | Init (p : MovePath).

Inductive outcome := Normal | Returned | Broke | Continued | Threw.

Definition behaviour := list event -> outcome -> Prop.

Definition skip : behaviour := fun t o => t = [] /\ o = Normal.
Definition emit (ev : event) : behaviour := fun t o => t = [ev] /\ o = Normal.
Definition stop (o' : outcome) : behaviour := fun t o => t = [] /\ o = o'.
Definition choice (A B : behaviour) : behaviour := fun t o => A t o \/ B t o.
Definition seq (A B : behaviour) : behaviour := fun t o =>
  (A t o /\ o <> Normal) \/ exists t1 t2, A t1 Normal /\ B t2 o /\ t = t1 ++ t2.
Definition catch_throw (A : behaviour) : behaviour := fun t o =>
  (A t o /\ o <> Threw) \/ (A t Threw /\ o = Normal).

Inductive iterate (A : behaviour) : behaviour :=
| iter_done : iterate A [] Normal
| iter_again t1 o1 t2 o : A t1 o1 -> o1 = Normal \/ o1 = Continued -> iterate A t2 o -> iterate A (t1 ++ t2) o
| iter_break t : A t Broke -> iterate A t Normal
| iter_exit t o : A t o -> o = Returned \/ o = Threw -> iterate A t o.

Definition seq_all {A} (f : A -> behaviour) (l : list A) : behaviour :=
  foldr (fun x b => seq (f x) b) skip l.

Lemma fold_left_mapped {S A B} (f : S -> B -> S) (g : A -> B) l st : fold_left f (map g l) st = fold_left (fun st x => f st (g x)) l st.
Proof. revert st. induction l; intros st; cbn; auto. Qed.

Lemma seq_all_map {A B} (f : B -> behaviour) (g : A -> B) l : seq_all (fun x => f (g x)) l = seq_all f (map g l).
Proof. unfold seq_all. induction l; cbn; [done|]. by f_equal. Qed.

(** *** Safety *)

Definition strict_prefix (p q : MovePath) : bool :=
  (length (mp_fields p) <? length (mp_fields q))%nat && is_prefix_of p q.

Definition safe_event (M : gset MovePath) (ev : event) : bool :=
  match ev with
  | Use p => forallb (fun m => negb (overlaps m p)) (elements M)
  | Move _ => true
  | Init p => forallb (fun m => negb (strict_prefix m p)) (elements M)
  end.

Definition after_event (M : gset MovePath) (ev : event) : gset MovePath :=
  match ev with
  | Use _ => M
  | Move p => {[p]} ∪ M
  | Init p => filter (fun m => is_prefix_of p m = false) M
  end.

(** [M] holds the paths moved so far.  A move follows the use of its path,
    which is where a second move shows. *)
Fixpoint safe (M : gset MovePath) (t : list event) : bool :=
  match t with [] => true | ev :: t' => safe_event M ev && safe (after_event M ev) t' end.

Definition after (M : gset MovePath) (t : list event) : gset MovePath := fold_left after_event t M.

Lemma safe_app M t1 t2 : safe M (t1 ++ t2) = safe M t1 && safe (after M t1) t2.
Proof.
  revert M. induction t1 as [|ev t1 IH]; intros M; cbn; [done|]. by rewrite IH, andb_assoc.
Qed.

Lemma after_app M t1 t2 : after M (t1 ++ t2) = after (after M t1) t2.
Proof. apply fold_left_app. Qed.

Lemma after_origin M t m : m ∈ after M t -> m ∈ M \/ Move m ∈ t.
Proof.
  revert M. induction t as [|ev t IH]; intros M; cbn; [by left|].
  intros [H|H]%IH; [|right; by apply list_elem_of_further].
  destruct ev as [p|p|p]; cbn in H; [by left| |].
  - apply elem_of_union in H as [->%elem_of_singleton|H]; [right; apply list_elem_of_here|by left].
  - left. set_solver.
Qed.

Lemma after_no_moves M t : (forall p, Move p ∉ t) -> after M t ⊆ M.
Proof. intros H m Hm. apply after_origin in Hm as [Hm|Hm]; [done|]. by apply H in Hm. Qed.

(** ** Evaluation *)

(** What is known of an expression only after overloading is resolved: that the
    method it calls has [self] by value (inherent_method_consumes_receiver,
    mir/lowering/context_methods.rs), and that its operator is a call of an
    operator trait (mir/lowering/op_expr_helpers.rs).  Everything below holds
    for every answer. *)
Class Dispatch := { consumes_self : Expr -> bool; overloaded : Expr -> bool }.

Definition release_method (method : string) : bool := bool_decide (method ∈ ["drop"; "free"; "close"]%string).

Fixpoint binds (p : Pattern) : bool :=
  match p with mkPattern kind _ =>
    match kind with
    | PWildcard _ | PLiteral _ _ | PPath _ _ | PRange _ _ _ _ => false
    | PIdent _ _ => true
    | PStruct _ _ fields _ => true
    | PTupleStruct _ _ ps | PTuple _ ps | POr _ ps => existsb binds ps
    | PSlice _ _ _ => true
    end
  end.

Definition last_value (b : ABlock) : list Expr :=
  match last (block_stmts b) with
  | Some s => match stmt_kind s with SExpr e => [e] | _ => [] end
  | None => []
  end.

Section semantics.
Context (env : TypeEnv) {D : Dispatch}.

Definition takes_receiver (e : Expr) (method : Ident) : bool := release_method (ident_name method) || consumes_self e.
Definition takes_matched (arms : list (MatchArm Expr)) : bool := existsb (fun a => existsb binds (arm_patterns a)) arms.

(** The move of a value whose expression is a path. *)
Definition move_site (e : Expr) : list MovePath :=
  match expr_move_path e with
  | Some p => if move_path_is_movable_owning_value env p then [p] else []
  | None => []
  end.

Definition run_move (e : Expr) : behaviour := seq_all (fun p => emit (Move p)) (move_site e).

Definition same_path (a b : Expr) : bool :=
  is_some (expr_move_path a) && bool_decide (expr_move_path a = expr_move_path b).

Section cases.
Context (rec : Expr -> behaviour).

Definition run_opt (o : option Expr) : behaviour := match o with Some e => rec e | None => skip end.

(** The value of the expression is taken. *)
Definition run_arg (e : Expr) : behaviour := seq (rec e) (run_move e).
Definition run_by (taken : bool) (e : Expr) : behaviour := if taken then run_arg e else rec e.
Definition run_taken (o : option Expr) : behaviour := match o with Some e => run_arg e | None => skip end.

Definition run_stmt (s : AStmt) : behaviour :=
  match stmt_kind s with
  | SLet _ _ (Some v) _ => run_arg v
  | SLet _ _ None _ => skip
  | SConst _ _ v => run_arg v
  | SExpr e => rec e
  | SItem _ => skip
  end.

Definition run_block (b : ABlock) : behaviour := seq (seq_all run_stmt (block_stmts b)) (seq_all run_move (last_value b)).

(** An arm is passed over, or its guard decides, or its body runs. *)
Definition run_arms (arms : list (MatchArm Expr)) : behaviour :=
  foldr (fun a rest => choice rest (seq (run_opt (arm_guard a)) (choice (run_arg (arm_body a)) rest))) skip arms.

Definition run_assign (target value : Expr) : behaviour :=
  let moved_value := seq (rec value) (if same_path target value then skip else run_move value) in
  match expr_move_path target with
  | Some p => seq moved_value (emit (Init p))
  | None => seq (rec target) moved_value
  end.
End cases.

Fixpoint runs (e : Expr) : behaviour :=
  match e with mkExpr k _ =>
    match k with
    | ELiteral _ => skip
    | EIdent i => emit (Use (root_path (ident_name i)))
    | EPath p => match as_simple p with Some i => emit (Use (root_path (ident_name i))) | None => skip end
    | EField base _ => match expr_move_path e with Some p => emit (Use p) | None => runs base end
    | EBinary op l r =>
        let operand := run_by runs (overloaded e) in
        seq (operand l) (if is_logical op then choice (operand r) skip else operand r)
    | EUnary _ x => run_by runs (overloaded e) x
    | EAwait x => run_arg runs x
    | ECast x _ | EIs x _ | EParen x => runs x
    | ECall f args => seq (runs f) (seq_all (run_arg runs) args)
    | EMethodCall r m args => seq (run_by runs (takes_receiver e m) r) (seq_all (run_arg runs) args)
    | EBlock b | EAsyncBlock b | EParallelBlock b => run_block runs b
    | EIf c t o => seq (runs c) (choice (run_block runs t) (run_taken runs o))
    | EWhile c b => iterate (seq (runs c) (choice (run_block runs b) (stop Broke)))
    | EFor _ i b => seq (run_arg runs i) (iterate (run_block runs b))
    | ELoop b => iterate (run_block runs b)
    | EMatch s arms => seq (run_by runs (takes_matched arms) s) (run_arms runs arms)
    | EReturn (Some v) => seq (run_arg runs v) (stop Returned)
    | EReturn None => stop Returned
    | EBreak o => seq (run_taken runs o) (stop Broke)
    | EContinue => stop Continued
    | EYield o => run_taken runs o
    | EIndex b i => seq (runs b) (runs i)
    | EArray es | ETuple es => seq_all (run_arg runs) es
    | EStruct _ fs o => seq (seq_all (fun f => run_arg runs (fv_value f)) fs) (run_taken runs o)
    | EAssign t v => run_assign runs t v
    | EAssignOp _ t v => seq (runs t) (seq (runs v) (if same_path t v then skip else run_move v))
    | ERange a b _ => seq (run_opt runs a) (run_opt runs b)
    | ELambda _ _ => skip
    | ETry x => seq (run_arg runs x) (choice skip (stop Threw))
    | ETryBlock b => catch_throw (run_block runs b)
    end
  end.

(** ** The fragment *)

Definition stmt_moves (s : AStmt) : list MovePath :=
  match stmt_kind s with SLet _ _ (Some v) _ => move_site v | _ => [] end.

Definition stmt_taken (s : AStmt) : list Expr := match stmt_kind s with SConst _ _ v => [v] | _ => [] end.
Definition block_taken (b : ABlock) : list Expr := flat_map stmt_taken (block_stmts b) ++ last_value b.

(** The values a node takes where the checker does not look for a move. *)
Definition node_taken (e : Expr) : list Expr :=
  match expr_kind e with
  | EMethodCall r m _ => if takes_receiver e m then [r] else []
  | EBinary _ l r => if overloaded e then [l; r] else []
  | EUnary _ x => if overloaded e then [x] else []
  | EAwait x | ETry x => [x]
  | EArray es | ETuple es => es
  | EStruct _ fs o => map fv_value fs ++ opt_exprs o
  | EBreak o | EYield o => opt_exprs o
  | EMatch s arms => (if takes_matched arms then [s] else []) ++ map arm_body arms
  | EIf _ b o => block_taken b ++ opt_exprs o
  | EFor _ i b => i :: block_taken b
  | EBlock b | EAsyncBlock b | EParallelBlock b | ETryBlock b | ELoop b | EWhile _ b => block_taken b
  | _ => []
  end.

(** The moves a node performs where the checker looks. *)
Definition inspected_moves (e : Expr) : list MovePath :=
  match expr_kind e with
  | ECall _ args | EMethodCall _ _ args => flat_map move_site args
  | EReturn (Some v) | EAssign _ v | EAssignOp _ _ v => move_site v
  | EBlock b | EAsyncBlock b | EParallelBlock b | ETryBlock b | ELoop b
  | EIf _ b _ | EWhile _ b | EFor _ _ b => flat_map stmt_moves (block_stmts b)
  | _ => []
  end.

Definition node_moves (e : Expr) : list MovePath := inspected_moves e ++ flat_map move_site (node_taken e).

Definition moves (e : Expr) : list MovePath := flat_map node_moves (subexprs e).

Definition block_moves (b : ABlock) : list MovePath :=
  flat_map stmt_moves (block_stmts b) ++ flat_map move_site (block_taken b) ++ flat_map moves (block_exprs b).

Definition no_moves (l : list MovePath) : bool := bool_decide (l = []).

(** The value of an assignment moves nothing the target is a part of. *)
Definition assign_ok (p : MovePath) (value : Expr) : bool :=
  forallb (fun q => negb (strict_prefix q p)) (move_site value ++ moves value).

Definition untaken (e : Expr) : bool := no_moves (move_site e).

(** A node of the fragment, in a body whose moves are among [W]: where the
    checker does not look nothing moves, what runs more than once or may be left by [?] moves nothing, an assignment below
    statement level reinitialises nothing that moves, a field access is a
    path, and there are no closures or concurrent blocks. *)
Definition node_ok (W : list MovePath) (e : Expr) : bool :=
  forallb untaken (node_taken e) &&
  match expr_kind e with
  | ELambda _ _ | EAsyncBlock _ | EParallelBlock _ => false
  | EField _ _ => is_some (expr_move_path e)
  | EAssign t v =>
      match expr_move_path t with
      | Some p => forallb (fun q => negb (is_prefix_of p q)) W && assign_ok p v
      | None => true
      end
  | EWhile c b => no_moves (moves c ++ block_moves b)
  | EFor _ _ b | ELoop b | ETryBlock b => no_moves (block_moves b)
  | _ => true
  end.

(** At statement level an assignment may reinitialise. *)
Definition supported_stmt (W : list MovePath) (s : AStmt) : bool :=
  match stmt_kind s with
  | SExpr e =>
      match expr_kind e with
      | EAssign t v =>
          match expr_move_path t with
          | Some p => all_nodes (node_ok W) v && assign_ok p v
          | None => all_nodes (node_ok W) e
          end
      | _ => all_nodes (node_ok W) e
      end
  | _ => forallb untaken (stmt_taken s) && forallb (all_nodes (node_ok W)) (stmt_exprs s)
  end.

Definition supported_body (b : ABlock) : bool :=
  forallb (supported_stmt (block_moves b)) (block_stmts b).
End semantics.

(** ** Soundness *)

Record wf (W : list MovePath) (st : BorrowChecker) : Prop := {
  wf_spans : moved st ⊆ dom (move_spans st);
  wf_sites : forall p, p ∈ moved st -> p ∈ W;
}.

(** A step of the checker accounts for a behaviour: when it reports nothing,
    every trace from paths the checker knows as moved is safe, and afterwards
    the checker knows what was moved. *)
Record sound (W : list MovePath) (f : BorrowChecker -> BorrowChecker) (B : behaviour) : Prop := {
  so_errors : forall st, errors st `prefix_of` errors (f st);
  so_wf : forall st, wf W st -> errors (f st) = errors st -> wf W (f st);
  so_runs : forall st t o M, wf W st -> errors (f st) = errors st -> B t o -> M ⊆ moved st ->
    safe M t = true /\ (o = Normal -> after M t ⊆ moved (f st));
}.

(** The step forgets no move. *)
Definition grows (W : list MovePath) (f : BorrowChecker -> BorrowChecker) : Prop :=
  forall st, wf W st -> errors (f st) = errors st -> moved st ⊆ moved (f st).

Definition sound_grows W f B : Prop := sound W f B /\ grows W f.

Lemma prefix_antisym {A} (l k : list A) : l `prefix_of` k -> k `prefix_of` l -> l = k.
Proof.
  intros [x ->] H. apply prefix_length in H. rewrite length_app in H.
  destruct x; [by rewrite app_nil_r|cbn in H; lia].
Qed.

Lemma errors_between {A} (a b c : list A) :
  a `prefix_of` b -> b `prefix_of` c -> c = a -> b = a /\ c = b.
Proof. intros H1 H2 ->. assert (a = b) as -> by (by apply prefix_antisym). done. Qed.

(** Steps that change neither the moved paths nor their sites. *)
Record quiet (st st' : BorrowChecker) : Prop := {
  qu_moved : moved st' = moved st;
  qu_spans : move_spans st' = move_spans st;
  qu_errors : errors st `prefix_of` errors st';
}.

Lemma borrow_only_quiet st st' : borrow_only st st' -> quiet st st'.
Proof. intros []. by constructor. Qed.

Lemma consume_quiet e st : quiet st (consume_path_use e st).
Proof.
  unfold consume_path_use, consume_ident_use. destruct (expr_move_path e) as [p|]; [|by constructor].
  destruct (remaining_ident_uses st !! mp_root p); by constructor.
Qed.

#[local] Hint Resolve borrow_only_quiet consume_quiet : borrow.

Section steps.
Context (W : list MovePath).

Lemma sound_weaken f (A B : behaviour) : (forall t o, B t o -> A t o) -> sound W f A -> sound W f B.
Proof. intros H [H1 H2 H3]. constructor; [done|done|]. intros; eauto. Qed.

Lemma sound_ext f g B : (forall st, f st = g st) -> sound W f B -> sound W g B.
Proof.
  intros H [H1 H2 H3]. constructor.
  - intros st. rewrite <- H. apply H1.
  - intros st. rewrite <- H. apply H2.
  - intros st t o M. rewrite <- H. apply H3.
Qed.

Lemma sg_quiet f : (forall st, quiet st (f st)) -> sound_grows W f skip.
Proof.
  intros H. split; [constructor|].
  - intros st. apply (H st).
  - intros st [H1 H2] _. destruct (H st) as [Em Es]. constructor; rewrite Em, ?Es; done.
  - intros st t o M _ _ [-> ->] HM. split; [done|]. intros _. cbn. by rewrite (qu_moved _ _ (H st)).
  - intros st _ _. by rewrite (qu_moved _ _ (H st)).
Qed.

Lemma sound_seq f g A B : sound W f A -> sound W g B -> sound W (fun st => g (f st)) (seq A B).
Proof.
  intros [Ef Wf Rf] [Eg Wg Rg].
  assert (HE : forall st, errors (g (f st)) = errors st -> errors (f st) = errors st /\ errors (g (f st)) = errors (f st)).
  { intros st. apply errors_between; auto. }
  constructor.
  - intros st. etrans; eauto.
  - intros st Hw E. apply HE in E as [E1 E2]. auto.
  - intros st t o M Hw E HB HM. apply HE in E as [E1 E2].
    destruct HB as [[HA Ho]|(t1 & t2 & HA & HB & ->)].
    + destruct (Rf st t o M Hw E1 HA HM). split; [done|]. by intros ->.
    + destruct (Rf st t1 Normal M Hw E1 HA HM) as [S1 A1].
      destruct (Rg (f st) t2 o (after M t1) (Wf st Hw E1) E2 HB (A1 eq_refl)) as [S2 A2].
      rewrite safe_app, after_app, S1, S2. auto.
Qed.

Lemma grows_seq f g A : sound W f A -> grows W f -> (forall st, errors st `prefix_of` errors (g st)) ->
  grows W g -> grows W (fun st => g (f st)).
Proof.
  intros [Ef Wf _] Gf Eg Gg st Hw E.
  apply (errors_between _ (errors (f st))) in E as [E1 E2]; [|auto|auto].
  etrans; [by apply Gf|]. apply Gg; auto.
Qed.

Lemma sg_seq f g A B :
  sound_grows W f A -> sound_grows W g B -> sound_grows W (fun st => g (f st)) (seq A B).
Proof.
  intros [H1 G1] [H2 G2]. split; [by apply sound_seq|].
  eapply grows_seq; eauto. apply H2.
Qed.

Lemma seq_skip_r (A : behaviour) t o : A t o -> seq A skip t o.
Proof.
  intros H. destruct o; [right|left|left|left|left]; try done.
  exists t, []. rewrite app_nil_r. done.
Qed.

Lemma seq_skip_l (A : behaviour) t o : A t o -> seq skip A t o.
Proof. intros H. right. by exists [], t. Qed.

Lemma sg_weaken f (A B : behaviour) :
  (forall t o, B t o -> A t o) -> sound_grows W f A -> sound_grows W f B.
Proof. intros H [H1 H2]. split; [by eapply sound_weaken|done]. Qed.

Lemma sg_ext f g B : (forall st, f st = g st) -> sound_grows W f B -> sound_grows W g B.
Proof.
  intros H [H1 G]. split; [by eapply sound_ext|]. intros st. rewrite <- !H. apply G.
Qed.

(** A quiet step after or before does not matter. *)
Lemma sg_then_quiet f g A :
  sound_grows W f A -> (forall st, quiet st (g st)) -> sound_grows W (fun st => g (f st)) A.
Proof.
  intros H Hg. eapply sg_weaken; [apply seq_skip_r|]. apply sg_seq; [done|by apply sg_quiet].
Qed.

Lemma sg_quiet_then f g A :
  sound_grows W f A -> (forall st, quiet st (g st)) -> sound_grows W (fun st => f (g st)) A.
Proof.
  intros H Hg. eapply sg_weaken; [apply seq_skip_l|]. apply sg_seq; [by apply sg_quiet|done].
Qed.

Lemma sg_choice f g A B :
  sound_grows W f A -> sound_grows W g B -> sound_grows W (fun st => g (f st)) (choice A B).
Proof.
  intros [HA GA] [HB GB]. split; [|by eapply grows_seq; [exact HA|done|apply HB|done]].
  pose proof (sound_seq f g A B HA HB) as [E1 W1 _]. constructor; [done|done|].
  intros st t o M Hw E H HM.
  pose proof (errors_between _ _ _ (so_errors _ _ _ HA st) (so_errors _ _ _ HB (f st)) E) as [Ea Eb].
  pose proof (so_wf _ _ _ HA st Hw Ea) as Hw'.
  destruct H as [H|H].
  - destruct (so_runs _ _ _ HA st t o M Hw Ea H HM) as [S R]. split; [done|]. intros Ho.
    etrans; [by apply R|]. by apply GB.
  - apply (so_runs _ _ _ HB (f st) t o M Hw' Eb H). etrans; [exact HM|]. by apply GA.
Qed.

Lemma sg_or f A B : sound_grows W f A -> sound_grows W f B -> sound_grows W f (choice A B).
Proof.
  intros [HA GA] [HB _]. split; [|done]. destruct HA as [E1 W1 R1]. constructor; [done|done|].
  intros st t o M Hw E [H|H] HM; [eauto|]. by apply (so_runs _ _ _ HB st t o M).
Qed.

(** The step may also be skipped, or left early. *)
Lemma sg_maybe f A o' : sound_grows W f A -> sound_grows W f (choice A (stop o')).
Proof.
  intros [HA GA]. split; [|done]. destruct HA as [E1 W1 R1]. constructor; [done|done|].
  intros st t o M Hw E [H|[-> ->]] HM; [eauto|]. split; [done|]. intros ->. cbn.
  etrans; [exact HM|]. by apply GA.
Qed.

Lemma sg_stop o' : sound_grows W (fun st => st) (stop o').
Proof.
  split; [constructor|].
  - done.
  - done.
  - intros st t o M _ _ [-> ->] HM. done.
  - intros st _ _. done.
Qed.

Lemma sg_skip : sound_grows W (fun st => st) skip.
Proof. apply sg_stop. Qed.

Lemma sg_fold {X} (f : X -> BorrowChecker -> BorrowChecker) (B : X -> behaviour) (l : list X) :
  Forall (fun x => sound_grows W (f x) (B x)) l ->
  sound_grows W (fun st => fold_left (fun st x => f x st) l st) (seq_all B l).
Proof.
  induction 1 as [|x l Hx _ IH]; [apply sg_skip|]. cbn [fold_left seq_all foldr].
  exact (sg_seq (f x) _ _ _ Hx IH).
Qed.

(** What moves nothing can be repeated, and resumed after it was left. *)
Definition moveless (B : behaviour) : Prop := forall t o, B t o -> forall p, Move p ∉ t.

Lemma sg_iterate f A : moveless A -> sound_grows W f A -> sound_grows W f (iterate A).
Proof.
  intros HL [HA GA]. split; [|done]. destruct HA as [E1 W1 R1]. constructor; [done|done|].
  intros st t o M Hw E HI. revert M. induction HI as [|t1 o1 t2 o HB Ho _ IH|t HB|t o HB Ho]; intros M HM.
  - split; [done|]. intros _. cbn. etrans; [exact HM|]. by apply GA.
  - destruct (R1 st t1 o1 M Hw E HB HM) as [S1 _].
    destruct (IH (after M t1)) as [S2 A2].
    { etrans; [apply after_no_moves; by eapply HL|done]. }
    rewrite safe_app, after_app, S1, S2. auto.
  - destruct (R1 st t Broke M Hw E HB HM) as [S1 _]. split; [done|]. intros _.
    etrans; [apply after_no_moves; by eapply HL|]. etrans; [exact HM|]. by apply GA.
  - destruct (R1 st t o M Hw E HB HM) as [S1 A1]. auto.
Qed.

Lemma sg_catch f A : moveless A -> sound_grows W f A -> sound_grows W f (catch_throw A).
Proof.
  intros HL [HA GA]. split; [|done]. destruct HA as [E1 W1 R1]. constructor; [done|done|].
  intros st t o M Hw E [[HB Ho]|[HB ->]] HM; [eauto|].
  destruct (R1 st t Threw M Hw E HB HM) as [S1 _]. split; [done|]. intros _.
  etrans; [apply after_no_moves; by eapply HL|]. etrans; [exact HM|]. by apply GA.
Qed.
End steps.

(** *** Moves, uses and initialisations of the checker *)

Lemma find_none_forallb {A} (f : A -> bool) l : find f l = None -> forallb (fun x => negb (f x)) l = true.
Proof.
  intros H. apply forallb_forall. intros x Hx. by rewrite (find_none _ _ H x Hx).
Qed.

Lemma forallb_elements (M M' : gset MovePath) (f : MovePath -> bool) :
  M ⊆ M' -> forallb f (elements M') = true -> forallb f (elements M) = true.
Proof.
  intros H. rewrite !forallb_forall. intros Hf x Hx. apply Hf.
  apply list_elem_of_In, elem_of_elements, H. by apply elem_of_elements, list_elem_of_In.
Qed.

Lemma push_error_differs e st : errors (push_error e st) <> errors st.
Proof. cbn. rewrite app_same. done. Qed.

Section checker_steps.
Context (env : TypeEnv) {D : Dispatch} (W : list MovePath).
Notation sg := (sound_grows W).

Lemma check_use_sg p s : sg (check_move_path_use p s) (emit (Use p)).
Proof.
  assert (HQ : forall st, quiet st (check_move_path_use p s st)) by (intros; apply borrow_only_quiet, check_use_bo).
  destruct (sg_quiet W _ HQ) as [[E1 W1 _] G]. split; [|done]. constructor; [done|done|].
  intros st t o M Hw E [-> ->] HM.
  assert (Hs : safe_event (moved st) (Use p) = true).
  { unfold check_move_path_use in E. destruct (find (fun m => is_prefix_of m p) _) eqn:F1.
    { by apply push_error_differs in E. }
    destruct (find (fun m => is_prefix_of p m) _) eqn:F2; [by apply push_error_differs in E|].
    apply find_none_forallb in F1, F2. cbn. rewrite forallb_forall in *. intros m Hm.
    specialize (F1 m Hm). specialize (F2 m Hm). unfold overlaps. by rewrite negb_orb, F1, F2. }
  split.
  - cbn. rewrite andb_true_r. by eapply forallb_elements.
  - intros _. cbn. by rewrite (qu_moved _ _ (HQ st)).
Qed.

Lemma mark_moved_errors p s st :
  errors (mark_moved env p s st) = errors st ->
  moved (mark_moved env p s st) = {[p]} ∪ moved st /\
  move_spans (mark_moved env p s st) = <[p := pair_span s]> (move_spans st).
Proof.
  unfold mark_moved. pose proof (end_last_use_bo env p st) as Hb.
  set (st1 := end_last_use_borrows_for_path env p st) in *.
  destruct (first_overlapping p st1) as [b|] eqn:F; intros E.
  - exfalso. destruct Hb as [_ _ _ _ _ _ _ He]. rewrite <- E in He. cbn in He.
    apply prefix_length in He. rewrite length_app in He. cbn in He. lia.
  - cbn. by rewrite (bo_moved _ _ Hb), (bo_spans _ _ Hb).
Qed.

Lemma mark_moved_sg p s : p ∈ W -> sg (mark_moved env p s) (emit (Move p)).
Proof.
  intros Hp. split; [constructor|].
  - intros st. apply (mark_moved_balanced env p s st).
  - intros st [H1 H2] E. destruct (mark_moved_errors p s st E) as [Em Es].
    constructor; rewrite Em, ?Es.
    + rewrite dom_insert. set_solver.
    + intros q [->%elem_of_singleton|Hq]%elem_of_union; auto.
  - intros st t o M Hw E [-> ->] HM. destruct (mark_moved_errors p s st E) as [Em _].
    split; [done|]. intros _. cbn. rewrite Em. set_solver.
  - intros st Hw E. destruct (mark_moved_errors p s st E) as [-> _]. set_solver.
Qed.

Lemma maybe_move_sg e :
  (forall p, p ∈ move_site env e -> p ∈ W) -> sg (maybe_move_string_arg env e) (run_move env e).
Proof.
  unfold maybe_move_string_arg, run_move, move_site. intros H.
  destruct (expr_move_path e) as [p|]; [|apply sg_skip].
  destruct (move_path_is_movable_owning_value env p); [|apply sg_skip].
  eapply sg_weaken; [|apply mark_moved_sg, H, list_elem_of_here].
  intros t o Hr. cbn in Hr. destruct Hr as [[[-> ->] ?]|(t1 & t2 & [-> _] & [-> ->] & ->)]; done.
Qed.

Lemma maybe_move_assign_sg t v :
  (forall p, p ∈ move_site env v -> p ∈ W) ->
  sg (maybe_move_assignment_value env t v) (if same_path t v then skip else run_move env v).
Proof.
  intros H. unfold maybe_move_assignment_value, same_path. destruct (_ && _); [apply sg_skip|].
  by apply maybe_move_sg.
Qed.

(** *** Blocks *)

Lemma pop_moved_paths_merge (l : list MovePath) m0 sp :
  (forall p, p ∈ l -> p ∈ dom sp) ->
  foldr (pop_moved_path true) (m0, sp) l = (list_to_set l ∪ m0, sp).
Proof.
  induction l as [|p l IH]; intros H; cbn [foldr].
  - f_equal. set_solver.
  - rewrite IH by (intros q Hq; apply H; by apply list_elem_of_further). cbn [pop_moved_path].
    destruct (proj1 (elem_of_dom sp p) (H p (list_elem_of_here _ _))) as [s Hs]. rewrite Hs.
    f_equal; [set_solver|]. by rewrite insert_delete_id.
Qed.

(** Where nothing moves a value can be taken. *)
Lemma untaken_move e t o : untaken env e = true -> run_move env e t o -> skip t o.
Proof. unfold run_move, untaken, no_moves. rewrite bool_decide_eq_true. by intros ->. Qed.

Lemma untaken_moves l t o : forallb (untaken env) l = true -> seq_all (run_move env) l t o -> skip t o.
Proof.
  revert t. induction l as [|e l IH]; intros t; cbn; [done|]. intros [He Hl]%andb_true_iff.
  intros [[H Ho]|(t1 & t2 & H1 & H2 & ->)].
  - by apply untaken_move in H as [_ ->].
  - apply untaken_move in H1 as [-> _]; [|done]. by apply IH.
Qed.

Lemma seq_skip_inv (A B : behaviour) t o : (forall t o, B t o -> skip t o) -> seq A B t o -> A t o.
Proof.
  intros HB [[H _]|(t1 & t2 & H & H2 & ->)]; [done|]. apply HB in H2 as [-> ->]. by rewrite app_nil_r.
Qed.

Lemma taken_sg f A e : sg f A -> untaken env e = true -> sg f (seq A (run_move env e)).
Proof. intros H He. eapply sg_weaken; [|exact H]. intros t o. apply seq_skip_inv. intros. by eapply untaken_move. Qed.

Lemma by_sg f rec (b : bool) e :
  sg f (rec e) -> forallb (untaken env) (if b then [e] else []) = true -> sg f (run_by env rec b e).
Proof. unfold run_by. destruct b; cbn; [|done]. rewrite andb_true_r. apply taken_sg. Qed.

Lemma block_sg rec b :
  Forall (keeps_balance rec) (block_exprs b) ->
  forallb (untaken env) (last_value b) = true ->
  (forall r, sg (check_stmts_with env rec r (block_stmts b)) (seq_all (run_stmt env (runs env)) (block_stmts b))) ->
  forall r, sg (check_block_inner_with env rec b r true) (run_block env (runs env) b).
Proof.
  intros Hbal Hl H r. specialize (H r).
  eapply sg_weaken; [intros t o; apply seq_skip_inv; intros ? ?; by apply untaken_moves|]. clear Hl.
  assert (HP : forall st, wf W st -> errors (check_block_inner_with env rec b r true st) = errors st ->
    let st' := check_stmts_with env rec r (block_stmts b) (push_scope st) in
    wf W (push_scope st) /\ errors st' = errors (push_scope st) /\
    moved (check_block_inner_with env rec b r true st) = moved st' ∪ moved st /\
    move_spans (check_block_inner_with env rec b r true st) = move_spans st').
  { intros st Hw E. cbv zeta. set (st' := check_stmts_with env rec r (block_stmts b) (push_scope st)).
    pose proof (pop_scope_spec true st st' (check_stmts_balanced env rec r _ _ Hbal)) as (_ & _ & _ & _ & Em & Ee).
    assert (Hw' : wf W (push_scope st)) by (destruct Hw; by constructor).
    assert (E' : errors st' = errors (push_scope st)) by (rewrite <- Ee; exact E).
    destruct (so_wf _ _ _ (proj1 H) _ Hw' E') as [Hs _].
    rewrite pop_moved_paths_merge in Em by (intros p Hp; apply Hs; by apply elem_of_elements).
    injection Em as Em Es. unfold check_block_inner_with. fold st'.
    rewrite Em, Es, list_to_set_elements_L. done. }
  split; [constructor|].
  - intros st. by apply check_block_inner_balanced.
  - intros st Hw E. destruct (HP st Hw E) as (Hw' & E' & Em & Es).
    pose proof (proj2 H _ Hw' E') as HG. cbn in HG.
    destruct (so_wf _ _ _ (proj1 H) _ Hw' E') as [H1 H2].
    constructor; rewrite Em, ?Es; [set_solver|]. intros p [Hp|Hp]%elem_of_union; [auto|]. by apply Hw.
  - intros st t o M Hw E HB HM. destruct (HP st Hw E) as (Hw' & E' & Em & Es).
    destruct (so_runs _ _ _ (proj1 H) _ t o M Hw' E' HB HM) as [S A]. split; [done|].
    intros Ho. rewrite Em. specialize (A Ho). set_solver.
  - intros st Hw E. destruct (HP st Hw E) as (_ & _ & Em & _). rewrite Em. set_solver.
Qed.

Notation ok e := (sg (check_expr env e) (runs env e)).
Notation sited e := (forall p, p ∈ move_site env e -> p ∈ W).

Lemma opt_sg o :
  Forall (fun e => ok e) (opt_exprs o) -> sg (check_opt (check_expr env) o) (run_opt (runs env) o).
Proof. destruct o; cbn; intros H; forall_split; [done|apply sg_skip]. Qed.

Lemma arg_sg e : ok e -> sited e ->
  sg (fun st => maybe_move_string_arg env e (check_expr env e st)) (run_arg env (runs env) e).
Proof. intros H Hs. apply sg_seq; [done|by apply maybe_move_sg]. Qed.

Lemma args_sg l : Forall (fun e => ok e) l -> (forall p, p ∈ flat_map (move_site env) l -> p ∈ W) ->
  sg (check_args env (check_expr env) l) (seq_all (run_arg env (runs env)) l).
Proof.
  intros H Hs. apply (sg_fold W (fun a st => maybe_move_string_arg env a (check_expr env a st))).
  apply Forall_forall. intros e He. rewrite Forall_forall in H. apply arg_sg; [by apply H|].
  intros p Hp. apply Hs. apply list_elem_of_In, in_flat_map. exists e. by rewrite <- !list_elem_of_In.
Qed.

Lemma taken_list_sg l : Forall (fun e => ok e) l -> forallb (untaken env) l = true ->
  sg (check_list (check_expr env) l) (seq_all (run_arg env (runs env)) l).
Proof.
  intros H Hl. apply (sg_fold W (check_expr env)). rewrite forallb_forall in Hl. rewrite Forall_forall in *.
  intros e He. apply taken_sg; [by apply H|by apply Hl, list_elem_of_In].
Qed.

Lemma taken_opt_sg o : Forall (fun e => ok e) (opt_exprs o) -> forallb (untaken env) (opt_exprs o) = true ->
  sg (check_opt (check_expr env) o) (run_taken env (runs env) o).
Proof.
  destruct o; cbn; intros H; forall_split; [|intros _; apply sg_skip]. rewrite andb_true_r. by apply taken_sg.
Qed.

Lemma stmt_sg s :
  Forall (fun e => ok e) (stmt_exprs s) -> (forall p, p ∈ stmt_moves env s -> p ∈ W) ->
  forallb (untaken env) (stmt_taken s) = true ->
  sg (check_stmt_with env (check_expr env) s) (run_stmt env (runs env) s).
Proof.
  unfold stmt_exprs, stmt_moves, stmt_taken, check_stmt_with, run_stmt.
  destruct (stmt_kind s) as [n ? [v|] ?|? ? v|v|d]; cbn; intros H Hs Hu; forall_split;
    try done; try apply sg_skip; [|apply taken_sg; [done|by rewrite andb_true_r in Hu]].
  apply sg_seq; [|by apply maybe_move_sg].
  apply (sg_then_quiet W (check_expr env v)); [done|]. intros st. apply borrow_only_quiet, track_borrows_bo.
Qed.

(** The end of a statement, tail check included, is quiet. *)
Lemma stmt_end_quiet r (rest : list AStmt) (s : AStmt) st :
  quiet st (end_borrows_with_no_remaining_uses env
    (if r && bool_decide (rest = []) then
       match stmt_kind s with
       | SExpr e => if negb (is_return e) then check_borrow_escape_expr env e st else st
       | _ => st
       end else st : BorrowChecker)).
Proof.
  apply borrow_only_quiet. etrans; [|apply end_borrows_bo].
  destruct (r && _); [|reflexivity]. destruct (stmt_kind s); try reflexivity.
  destruct (negb _); [apply check_escape_bo|reflexivity].
Qed.

Lemma stmts_sg l : Forall (fun s => sg (check_stmt_with env (check_expr env) s) (run_stmt env (runs env) s)) l ->
  forall r, sg (check_stmts_with env (check_expr env) r l) (seq_all (run_stmt env (runs env)) l).
Proof.
  induction 1 as [|s l Hs _ IH]; intros r; [apply sg_skip|].
  refine (sg_seq W (fun st => end_borrows_with_no_remaining_uses env _) _ _ _ _ (IH r)).
  refine (sg_then_quiet W _ _ _ Hs (stmt_end_quiet r l s)).
Qed.

Definition block_ok (b : ABlock) : Prop :=
  Forall (fun e => ok e) (block_exprs b) /\ (forall p, p ∈ flat_map (stmt_moves env) (block_stmts b) -> p ∈ W) /\
  forallb (untaken env) (block_taken b) = true.

Lemma run_block_sg b : block_ok b ->
  sg (check_block_with env (check_expr env) b) (run_block env (runs env) b).
Proof.
  intros (H & Hs & Hu). unfold block_taken in Hu. rewrite forallb_app in Hu. apply andb_true_iff in Hu as [Hu Hl].
  apply block_sg; [apply all_balanced|done|]. apply stmts_sg.
  unfold block_exprs in H. rewrite Forall_flat_map in H. apply Forall_forall. intros s Hin.
  rewrite Forall_forall in H. apply stmt_sg; [by apply H| |].
  - intros p Hp. apply Hs. apply list_elem_of_In, in_flat_map. exists s. by rewrite <- !list_elem_of_In.
  - rewrite forallb_forall in *. intros e He. apply Hu, in_flat_map. exists s. by rewrite <- list_elem_of_In.
Qed.

(** *** Loops *)

Lemma push_loop_quiet c b st : quiet st (push_active_loop_uses c b st).
Proof. by constructor. Qed.

Lemma pop_loop_quiet st : quiet st (pop_active_loop_uses st).
Proof. by constructor. Qed.

Lemma loop_sg c b B :
  sg (fun st => check_block_with env (check_expr env) b (check_opt (check_expr env) c st)) B ->
  sg (check_loop_with env (check_expr env) c b) B.
Proof.
  intros H. refine (sg_then_quiet W (fun st => check_block_with env (check_expr env) b
    (check_opt (check_expr env) c (push_active_loop_uses c b st))) _ _ _ pop_loop_quiet).
  exact (sg_quiet_then W _ _ _ H (push_loop_quiet c b)).
Qed.

(** *** Branches *)

Lemma return_not_normal v s t o : runs env (mkExpr (EReturn v) s) t o -> o <> Normal.
Proof.
  destruct v; cbn [runs].
  - intros [[_ H]|(t1 & t2 & _ & [_ ->] & _)]; done.
  - intros [_ ->]. done.
Qed.

Lemma stmts_return_not_normal (l : list AStmt) t o :
  existsb (fun s => match stmt_kind s with SExpr e => is_return e | _ => false end) l = true ->
  seq_all (run_stmt env (runs env)) l t o -> o <> Normal.
Proof.
  revert t. induction l as [|s l IH]; intros t; cbn [existsb]; [done|].
  intros H [[_ Ho]|(t1 & t2 & H1 & H2 & _)]; [done|].
  apply orb_true_iff in H as [H|H]; [|by eapply IH].
  exfalso. unfold run_stmt in H1. destruct (stmt_kind s) as [| |[[] sp]|]; try done.
  by apply return_not_normal in H1.
Qed.

Lemma block_return_not_normal b t o :
  block_has_unconditional_return_stmt b = true -> run_block env (runs env) b t o -> o <> Normal.
Proof.
  intros Hb [[_ Ho]|(t1 & t2 & H & _ & _)]; [done|]. by apply stmts_return_not_normal in H.
Qed.

Lemma expr_return_not_normal e t o :
  expr_has_unconditional_return e = true -> runs env e t o -> o <> Normal.
Proof.
  revert t o. induction e as [k s IH] using Expr_children_ind. intros t o H.
  destruct k; try done; cbn [expr_has_unconditional_return runs] in *.
  - by apply block_return_not_normal.
  - cbn [expr_children] in IH. forall_split. apply andb_true_iff in H as [Ht He].
    intros [[_ Ho]|(t1 & t2 & _ & [H|H] & _)]; [done|by eapply block_return_not_normal|].
    destruct else_branch as [e|]; [|done]. cbn in *. forall_split.
    destruct H as [[_ Ho]|(t3 & t4 & H & _)]; [done|].
    match goal with IH : forall t o, _ = true -> runs env e t o -> _ |- _ => by eapply IH in H end.
  - apply return_not_normal with (s := s).
Qed.

Lemma merge_else_list (es : gmap MovePath (Z * Z)) (l : list MovePath) (st : BorrowChecker) :
  (forall p, p ∈ l -> p ∈ dom es) ->
  let st' := fold_left (fun st path =>
      match es !! path with
      | Some span =>
          set_moved ({[path]} ∪ moved st)
            (match move_spans st !! path with
             | Some _ => move_spans st
             | None => <[path := span]> (move_spans st)
             end) st
      | None => st
      end) l st in
  moved st' = list_to_set l ∪ moved st /\
  (dom (move_spans st') : gset MovePath) = list_to_set l ∪ dom (move_spans st).
Proof.
  revert st. induction l as [|p l IH]; intros st Hl; cbn [fold_left list_to_set].
  - split; set_solver.
  - destruct (proj1 (elem_of_dom es p) (Hl p (list_elem_of_here _ _))) as [sp Hs]. rewrite Hs. cbv zeta.
    match goal with |- context [fold_left _ l ?x] => destruct (IH x) as [-> ->] end.
    { intros q Hq. apply Hl. by apply list_elem_of_further. }
    cbn. split; [set_solver|].
    destruct (move_spans st !! p) eqn:E; [apply elem_of_dom_2 in E; set_solver|].
    rewrite dom_insert_L. set_solver.
Qed.

Lemma merge_else_spec em es st :
  em ⊆ dom es ->
  moved (merge_else_moves em es st) = em ∪ moved st /\
  (dom (move_spans (merge_else_moves em es st)) : gset MovePath) = em ∪ dom (move_spans st).
Proof.
  intros H. destruct (merge_else_list es (elements em) st) as [Hm Hd].
  { intros p Hp. apply H. by apply elem_of_elements. }
  rewrite list_to_set_elements_L in Hm, Hd. done.
Qed.

Lemma merge_else_errors em es st : errors (merge_else_moves em es st) = errors st.
Proof.
  unfold merge_else_moves. generalize (elements em). intros l. revert st.
  induction l as [|p l IH]; intros st; cbn [fold_left]; [done|]. rewrite IH. by destruct (es !! p).
Qed.

Lemma wf_set_moved st st' : wf W st -> wf W (set_moved (moved st) (move_spans st) st').
Proof. intros []. by constructor. Qed.

(** An [if] without [else]: the checker keeps the moves of the branch unless
    the branch returns. *)
Definition merge_then (t : ABlock) (st st1 : BorrowChecker) : BorrowChecker :=
  if block_has_unconditional_return_stmt t then set_moved (moved st) (move_spans st) st1
  else set_moved (moved st1) (move_spans st1) st1.

Lemma then_sg t : block_ok t ->
  sg (fun st => merge_then t st (check_block_with env (check_expr env) t st))
    (choice (run_block env (runs env) t) skip).
Proof.
  intros Ht. destruct (run_block_sg t Ht) as [[E1 W1 R1] G1]. unfold merge_then.
  destruct (block_has_unconditional_return_stmt t) eqn:Hr; (split; [constructor|]); cbn; intros st.
  - apply E1.
  - intros Hw _. by apply wf_set_moved.
  - intros tr o M Hw E [H|[-> ->]] HM; [|done]. destruct (R1 st tr o M Hw E H HM) as [S _].
    split; [done|]. intros ->. by apply block_return_not_normal in H.
  - done.
  - apply E1.
  - intros Hw E. apply wf_set_moved. auto.
  - intros tr o M Hw E [H|[-> ->]] HM; [by apply (R1 st)|]. split; [done|]. intros _. cbn.
    etrans; [exact HM|]. by apply G1.
  - intros Hw E. by apply G1.
Qed.

(** The else branch starts from the moves before the [if]; what is kept of
    the two branches covers every branch that falls through. *)
Definition merge_both (t : ABlock) (e : Expr) (st st1 st3 : BorrowChecker) : BorrowChecker :=
  let st4 := if negb (block_has_unconditional_return_stmt t)
             then set_moved (moved st1) (move_spans st1) st3
             else set_moved (moved st) (move_spans st) st3 in
  if negb (expr_has_unconditional_return e) then merge_else_moves (moved st3) (move_spans st3) st4 else st4.

Lemma merge_both_errors t e st st1 st3 : errors (merge_both t e st st1 st3) = errors st3.
Proof. unfold merge_both. by destruct (negb _), (negb _); rewrite ?merge_else_errors. Qed.

Lemma merge_else_wf base st3 :
  wf W base -> wf W st3 ->
  let r := merge_else_moves (moved st3) (move_spans st3) (set_moved (moved base) (move_spans base) st3) in
  wf W r /\ moved r = moved st3 ∪ moved base.
Proof.
  intros Hb H3 r.
  destruct (merge_else_spec (moved st3) (move_spans st3) (set_moved (moved base) (move_spans base) st3)
    (wf_spans _ _ H3)) as (Em & Ed). fold r in Em, Ed. cbn in Em, Ed. split; [|done].
  constructor; rewrite Em.
  - intros p Hp. rewrite Ed. apply elem_of_union in Hp as [Hp|Hp]; apply elem_of_union; [by left|right].
    by apply (wf_spans _ _ Hb).
  - intros p [Hp|Hp]%elem_of_union; [by apply H3|by apply Hb].
Qed.

Lemma merge_both_spec t e st st1 st3 :
  wf W st -> wf W st1 -> wf W st3 -> moved st ⊆ moved st1 -> moved st ⊆ moved st3 ->
  wf W (merge_both t e st st1 st3) /\ moved st ⊆ moved (merge_both t e st st1 st3) /\
  (block_has_unconditional_return_stmt t = false -> moved st1 ⊆ moved (merge_both t e st st1 st3)) /\
  (expr_has_unconditional_return e = false -> moved st3 ⊆ moved (merge_both t e st st1 st3)).
Proof.
  intros Hw Hw1 Hw3 H1 H3. unfold merge_both.
  destruct (block_has_unconditional_return_stmt t), (expr_has_unconditional_return e); cbn [negb].
  - split_and!; [by apply wf_set_moved|done|done|done].
  - destruct (merge_else_wf st st3 Hw Hw3) as [Hr ->]. cbn. split_and!; [done|apply union_subseteq_r|done|].
    intros _. apply union_subseteq_l.
  - split_and!; [by apply wf_set_moved|done|done|done].
  - destruct (merge_else_wf st1 st3 Hw1 Hw3) as [Hr ->]. split_and!; [done| | |].
    + etrans; [exact H3|apply union_subseteq_l].
    + intros _. apply union_subseteq_r.
    + intros _. apply union_subseteq_l.
Qed.

Lemma else_sg t e : block_ok t -> ok e ->
  sg (fun st =>
        let st1 := check_block_with env (check_expr env) t st in
        merge_both t e st st1 (check_expr env e (set_moved (moved st) (move_spans st) st1)))
    (choice (run_block env (runs env) t) (runs env e)).
Proof.
  intros Ht He. destruct (run_block_sg t Ht) as [[E1 W1 R1] G1]. destruct He as [[E2 W2 R2] G2].
  assert (HE : forall st, wf W st ->
    let st1 := check_block_with env (check_expr env) t st in
    let st2 := set_moved (moved st) (move_spans st) st1 in
    errors (merge_both t e st st1 (check_expr env e st2)) = errors st ->
    errors st1 = errors st /\ errors (check_expr env e st2) = errors st2 /\ wf W st2 /\
    wf W st1 /\ wf W (check_expr env e st2) /\ moved st ⊆ moved st1 /\ moved st ⊆ moved (check_expr env e st2)).
  { intros st Hw st1 st2 E. rewrite merge_both_errors in E.
    destruct (errors_between _ (errors st1) _ (E1 st) (E2 st2) E) as [Ea Eb].
    pose proof (wf_set_moved st st1 Hw) as Hw2. split_and!; [done|done|done|by apply W1|by apply W2|by apply G1|exact (G2 st2 Hw2 Eb)]. }
  split; [constructor|]; cbv zeta; intros st.
  - rewrite merge_both_errors. etrans; [apply E1|]. exact (E2 (set_moved _ _ _)).
  - intros Hw E. destruct (HE st Hw E) as (_ & _ & _ & Hw1 & Hw3 & H1 & H3).
    by apply merge_both_spec.
  - intros tr o M Hw E HB HM. destruct (HE st Hw E) as (Ea & Eb & Hw2 & Hw1 & Hw3 & H1 & H3).
    destruct (merge_both_spec t e _ _ _ Hw Hw1 Hw3 H1 H3) as (_ & _ & Kt & Ke).
    destruct HB as [H|H].
    + destruct (R1 st tr o M Hw Ea H HM) as [S A]. split; [done|]. intros ->.
      destruct (block_has_unconditional_return_stmt t) eqn:Hr; [by apply block_return_not_normal in H|].
      etrans; [by apply A|]. by apply Kt.
    + destruct (R2 _ tr o M Hw2 Eb H HM) as [S A]. split; [done|]. intros ->.
      destruct (expr_has_unconditional_return e) eqn:Hr; [by apply expr_return_not_normal in H|].
      etrans; [by apply A|]. by apply Ke.
  - intros Hw E. destruct (HE st Hw E) as (_ & _ & _ & Hw1 & Hw3 & H1 & H3).
    by apply merge_both_spec.
Qed.

Lemma if_sg c t o :
  ok c -> block_ok t -> Forall (fun e => ok e) (opt_exprs o) -> forallb (untaken env) (opt_exprs o) = true ->
  sg (check_if_with env (check_expr env) c t o)
    (seq (runs env c) (choice (run_block env (runs env) t) (run_taken env (runs env) o))).
Proof.
  intros Hc Ht Ho Hu. destruct o as [e|]; cbn [opt_exprs run_taken forallb] in *; forall_split.
  - rewrite andb_true_r in Hu.
    eapply sg_ext; [|refine (sg_seq W _ _ _ _ Hc (sg_weaken W _ _ _ _ (else_sg t e Ht H)))]; [done|].
    intros tr o [Hr|Hr]; [by left|right]. eapply seq_skip_inv; [|exact Hr]. intros ? ?. by apply untaken_move.
  - eapply sg_ext; [|exact (sg_seq W _ _ _ _ Hc (then_sg t Ht))].
    intros st. unfold check_if_with, merge_then. by destruct (block_has_unconditional_return_stmt t).
Qed.

(** *** Match arms *)

Lemma arms_sg arms :
  Forall (fun e => ok e) (flat_map arm_exprs arms) -> forallb (untaken env) (map arm_body arms) = true ->
  sg (fun st => fold_left (fun st a => check_expr env (arm_body a) (check_opt (check_expr env) (arm_guard a) st)) arms st)
    (run_arms env (runs env) arms).
Proof.
  induction arms as [|a arms IH]; intros H Hu; [apply sg_skip|]. cbn [flat_map] in H.
  cbn [map forallb] in Hu. apply andb_true_iff in Hu as [Hu Hus].
  apply Forall_app in H as [Ha Hr]. specialize (IH Hr Hus). unfold arm_exprs in Ha. forall_split.
  pose proof (opt_sg _ H) as Hg. pose proof (taken_sg _ _ _ H0 Hu) as Hb. cbn [fold_left run_arms foldr].
  apply sg_or.
  - refine (sg_weaken W _ (choice (seq (run_opt (runs env) (arm_guard a)) (run_arg env (runs env) (arm_body a))) _) _ _
      (sg_choice W _ _ _ _ (sg_seq W _ _ _ _ Hg Hb) IH)). by right.
  - exact (sg_seq W _ _ _ _ Hg (sg_choice W _ _ _ _ Hb IH)).
Qed.

Lemma match_sg s arms :
  ok s -> Forall (fun e => ok e) (flat_map arm_exprs arms) ->
  forallb (untaken env) ((if takes_matched arms then [s] else []) ++ map arm_body arms) = true ->
  sg (check_match_with (check_expr env) s arms)
    (seq (run_by env (runs env) (takes_matched arms) s) (run_arms env (runs env) arms)).
Proof.
  rewrite forallb_app. intros Hs Ha [Hu Hus]%andb_true_iff.
  exact (sg_seq W _ _ _ _ (by_sg _ (runs env) _ _ Hs Hu) (arms_sg arms Ha Hus)).
Qed.

Lemma method_sg (taken : bool) e r m args :
  ok r -> forallb (untaken env) (if taken then [r] else []) = true ->
  Forall (fun e => ok e) args -> (forall p, p ∈ flat_map (move_site env) args -> p ∈ W) ->
  sg (check_method_call_with env (check_expr env) e r m args)
    (seq (run_by env (runs env) taken r) (seq_all (run_arg env (runs env)) args)).
Proof.
  intros Hr Hu Ha Hs. apply (by_sg _ _ _ _ Hr) in Hu. clear Hr. rename Hu into Hr. unfold check_method_call_with.
  refine (sg_seq W _ _ _ _ _ (args_sg args Ha Hs)).
  refine (sg_then_quiet W _ (check_vec_borrow_invalidation env r m) _ _ _);
    [|intros; apply borrow_only_quiet, check_vec_bo].
  refine (sg_then_quiet W _ (check_owned_string_invalidation r m) _ _ _);
    [|intros; apply borrow_only_quiet, check_owned_string_bo].
  refine (sg_quiet_then W _ _ _ Hr _). intros st. apply borrow_only_quiet, borrow_receiver_bo.
Qed.

End checker_steps.

(** *** Which moves a run can perform *)

Section within.
Context (env : TypeEnv) {D : Dispatch}.

Definition within (L : list MovePath) (B : behaviour) : Prop :=
  forall t o, B t o -> forall p, Move p ∈ t -> p ∈ L.

Lemma within_grow L L' B : within L B -> (forall p, p ∈ L -> p ∈ L') -> within L' B.
Proof. intros H HL t o HB p Hp. eauto. Qed.

Lemma within_quiet L B : (forall t o, B t o -> forall p, Move p ∉ t) -> within L B.
Proof. intros H t o HB p Hp. by apply (H t o HB p) in Hp. Qed.

Lemma within_skip L : within L skip.
Proof. apply within_quiet. intros t o [-> _] p. apply not_elem_of_nil. Qed.

Lemma within_stop L o : within L (stop o).
Proof. apply within_quiet. intros t o' [-> _] p. apply not_elem_of_nil. Qed.

Lemma within_emit L ev : (forall p, ev = Move p -> p ∈ L) -> within L (emit ev).
Proof. intros H t o [-> _] p Hp%list_elem_of_singleton. by apply H. Qed.

Lemma within_seq L A B : within L A -> within L B -> within L (seq A B).
Proof.
  intros HA HB t o [[H _]|(t1 & t2 & H1 & H2 & ->)] p Hp; [eauto|].
  apply elem_of_app in Hp as [Hp|Hp]; eauto.
Qed.

Lemma within_choice L A B : within L A -> within L B -> within L (choice A B).
Proof. intros HA HB t o [H|H]; eauto. Qed.

Lemma within_iterate L A : within L A -> within L (iterate A).
Proof.
  intros HA t o H p. induction H as [|t1 o1 t2 o H1 _ _ IH|t H1|t o H1 _]; eauto.
  - intros Hp. by apply not_elem_of_nil in Hp.
  - intros [Hp|Hp]%elem_of_app; eauto.
Qed.

Lemma within_catch L A : within L A -> within L (catch_throw A).
Proof. intros HA t o [[H _]|[H _]]; eauto. Qed.

Lemma within_all {X} L (f : X -> behaviour) l : Forall (fun x => within L (f x)) l -> within L (seq_all f l).
Proof. induction 1; [apply within_skip|by apply within_seq]. Qed.

Lemma within_run_move L e : (forall p, p ∈ move_site env e -> p ∈ L) -> within L (run_move env e).
Proof.
  intros H. apply within_all, Forall_forall. intros p Hp. apply within_emit. intros q [= <-]. auto.
Qed.

Lemma within_run_opt L rec o :
  Forall (fun e => within L (rec e)) (opt_exprs o) -> within L (run_opt rec o).
Proof. destruct o; cbn; intros H; forall_split; [done|apply within_skip]. Qed.

Lemma within_run_arg L rec e :
  within L (rec e) -> (forall p, p ∈ move_site env e -> p ∈ L) -> within L (run_arg env rec e).
Proof. intros H Hs. apply within_seq; [done|by apply within_run_move]. Qed.

Lemma within_run_by L rec (b : bool) e :
  within L (rec e) -> (forall p, p ∈ flat_map (move_site env) (if b then [e] else []) -> p ∈ L) -> within L (run_by env rec b e).
Proof. unfold run_by. destruct b; cbn; [|done]. rewrite app_nil_r. apply within_run_arg. Qed.

Lemma within_run_taken L rec o :
  Forall (fun e => within L (rec e)) (opt_exprs o) -> (forall p, p ∈ flat_map (move_site env) (opt_exprs o) -> p ∈ L) ->
  within L (run_taken env rec o).
Proof. destruct o; cbn; intros H; forall_split; [|intros _; apply within_skip]. rewrite app_nil_r. by apply within_run_arg. Qed.

Lemma within_run_stmt L rec s :
  Forall (fun e => within L (rec e)) (stmt_exprs s) -> (forall p, p ∈ stmt_moves env s -> p ∈ L) ->
  (forall p, p ∈ flat_map (move_site env) (stmt_taken s) -> p ∈ L) ->
  within L (run_stmt env rec s).
Proof.
  unfold stmt_exprs, stmt_moves, stmt_taken, run_stmt.
  destruct (stmt_kind s) as [n ? [v|] ?|? ? v|v|d]; cbn; intros H Hs Hu; forall_split; try done;
    try apply within_skip; apply within_run_arg; try done. by rewrite app_nil_r in Hu.
Qed.

Lemma elem_flat_map {A B} (f : A -> list B) l x y : x ∈ l -> y ∈ f x -> y ∈ flat_map f l.
Proof. intros H1 H2. apply list_elem_of_In, in_flat_map. exists x. by rewrite <- !list_elem_of_In. Qed.

Lemma within_taken_moves L l : (forall p, p ∈ flat_map (move_site env) l -> p ∈ L) -> within L (seq_all (run_move env) l).
Proof.
  intros H. apply within_all, Forall_forall. intros e He. apply within_run_move. intros p Hp. apply H. by eapply elem_flat_map.
Qed.

Lemma within_run_block L rec b :
  Forall (fun e => within L (rec e)) (block_exprs b) ->
  (forall p, p ∈ flat_map (stmt_moves env) (block_stmts b) -> p ∈ L) ->
  (forall p, p ∈ flat_map (move_site env) (block_taken b) -> p ∈ L) ->
  within L (run_block env rec b).
Proof.
  intros H Hs Hu. unfold block_taken in Hu. setoid_rewrite flat_map_app in Hu. setoid_rewrite elem_of_app in Hu.
  apply within_seq; [|apply within_taken_moves; auto]. apply within_all. unfold block_exprs in H. rewrite Forall_flat_map in H.
  rewrite Forall_forall in *. intros s Hin. apply within_run_stmt; [by apply H| |].
  - intros p Hp. apply Hs. by eapply elem_flat_map.
  - intros p Hp. apply Hu. left. rewrite flat_map_flat_map. by eapply (elem_flat_map (fun s => flat_map (move_site env) (stmt_taken s))).
Qed.

Lemma within_args L rec l :
  Forall (fun e => within L (rec e)) l -> (forall p, p ∈ flat_map (move_site env) l -> p ∈ L) ->
  within L (seq_all (run_arg env rec) l).
Proof.
  intros H Hs. apply within_all. rewrite Forall_forall in *. intros e He. apply within_seq; [auto|].
  apply within_run_move. intros p Hp. apply Hs. by eapply elem_flat_map.
Qed.

Lemma within_arms L (rec : Expr -> behaviour) (arms : list (MatchArm Expr)) :
  Forall (fun e => within L (rec e)) (flat_map arm_exprs arms) ->
  (forall p, p ∈ flat_map (move_site env) (map arm_body arms) -> p ∈ L) -> within L (run_arms env rec arms).
Proof.
  induction arms as [|a arms IH]; cbn [flat_map map]; intros H Hu; [apply within_skip|].
  setoid_rewrite elem_of_app in Hu. apply Forall_app in H as [Ha Hr]. unfold arm_exprs in Ha. forall_split. cbn [run_arms foldr].
  assert (within L (run_arms env rec arms)) as HI by (apply IH; auto).
  apply within_choice; [done|]. apply within_seq; [by apply within_run_opt|].
  apply within_choice; [apply within_run_arg; auto|done].
Qed.

Lemma within_run_assign L rec t v :
  within L (rec t) -> within L (rec v) -> (forall p, p ∈ move_site env v -> p ∈ L) ->
  within L (run_assign env rec t v).
Proof.
  intros Ht Hv Hs. unfold run_assign.
  assert (within L (seq (rec v) (if same_path t v then skip else run_move env v))).
  { apply within_seq; [done|]. destruct (same_path t v); [apply within_skip|by apply within_run_move]. }
  destruct (expr_move_path t); apply within_seq; try done. by apply within_emit.
Qed.

Lemma moves_eq k s :
  moves env (mkExpr k s) = node_moves env (mkExpr k s) ++ flat_map (moves env) (expr_children k).
Proof. unfold moves at 1. rewrite subexprs_eq. cbn [flat_map]. by rewrite flat_map_flat_map. Qed.

Lemma within_if L (b : bool) A B : within L A -> within L B -> within L (if b then A else B).
Proof. by destruct b. Qed.

#[local] Ltac sites HL HT :=
  let Hp := fresh in intros ? Hp; cbn [flat_map] in *; rewrite ?app_nil_r in Hp;
  first [solve [apply HL; eauto] | apply HT; rewrite ?flat_map_app; repeat rewrite elem_of_app; tauto].

Lemma runs_within e : within (moves env e) (runs env e).
Proof.
  induction e as [k s IH] using Expr_children_ind. rewrite moves_eq.
  set (L := node_moves env (mkExpr k s) ++ flat_map (moves env) (expr_children k)).
  assert (HL : forall p, p ∈ inspected_moves env (mkExpr k s) -> p ∈ L) by (intros; apply elem_of_app; left; apply elem_of_app; by left).
  assert (HT : forall p, p ∈ flat_map (move_site env) (node_taken (mkExpr k s)) -> p ∈ L) by (intros; apply elem_of_app; left; apply elem_of_app; by right).
  assert (HC : Forall (fun e => within L (runs env e)) (expr_children k)).
  { rewrite Forall_forall in *. intros e He. eapply within_grow; [by apply IH|].
    intros p Hp. apply elem_of_app. right. by eapply elem_flat_map. }
  clear IH. clearbody L. unfold inspected_moves in HL. unfold node_taken in HT. cbn [expr_kind] in HL, HT.
  destruct k; cbn [expr_children] in HC; forall_split; cbn [runs];
    repeat first
      [ assumption | apply within_skip | apply within_stop | apply within_catch | apply within_run_arg
      | apply within_args | apply within_run_block | apply within_arms | apply within_seq
      | apply within_choice | apply within_iterate | by apply within_run_opt | apply within_run_taken | apply within_run_by
      | by apply within_all
      | by apply within_run_move | by apply within_run_assign
      | apply within_emit; by intros ? ? | sites HL HT | apply within_if ].
  - destruct (as_simple p); [apply within_emit; by intros ? ?|apply within_skip].
  - destruct (overloaded _) in HT |- *; [sites HL HT|by intros ? ?%not_elem_of_nil].
  - destruct (overloaded _) in HT |- *; [sites HL HT|by intros ? ?%not_elem_of_nil].
  - destruct (overloaded _) in HT |- *; [sites HL HT|by intros ? ?%not_elem_of_nil].
  - destruct value; cbn in *; forall_split; [|apply within_stop].
    apply within_seq; [|apply within_stop]. apply within_seq; [done|by apply within_run_move].
  - destruct (expr_move_path (mkExpr (EField base field) s)); [apply within_emit; by intros ? ?|done].
  - rewrite (seq_all_map (run_arg env (runs env)) fv_value). apply within_args; [done|]. sites HL HT.
Qed.

Lemma elem_moves_nil (l : list MovePath) p : no_moves l = true -> p ∉ l.
Proof. unfold no_moves. rewrite bool_decide_eq_true. intros ->. apply not_elem_of_nil. Qed.

Lemma block_within b : within (block_moves env b) (run_block env (runs env) b).
Proof.
  unfold block_moves. apply within_run_block.
  - apply Forall_forall. intros e He. eapply within_grow; [apply runs_within|].
    intros p Hp. rewrite !elem_of_app. right. right. by eapply elem_flat_map.
  - intros p Hp. apply elem_of_app. by left.
  - intros p Hp. rewrite !elem_of_app. tauto.
Qed.

Lemma within_moveless L B : within L B -> no_moves L = true -> moveless B.
Proof. intros H HL t o HB p Hp. by apply (elem_moves_nil L p HL), (H t o HB). Qed.
End within.

(** *** Assignments *)

Section assignments.
Context (env : TypeEnv) {D : Dispatch} (W : list MovePath).

Definition assign_value (t v : Expr) : behaviour :=
  seq (runs env v) (if same_path t v then skip else run_move env v).

Lemma place_quiet t p st :
  expr_move_path t = Some p -> quiet st (check_assignment_place_with (check_expr env) t st).
Proof.
  intros E. unfold check_assignment_place_with. rewrite E.
  destruct (find _ _); [apply borrow_only_quiet, push_error_bo|by constructor].
Qed.

Lemma place_errors t p st :
  expr_move_path t = Some p ->
  errors (check_assignment_place_with (check_expr env) t st) = errors st ->
  safe_event (moved st) (Init p) = true.
Proof.
  intros Ep. unfold check_assignment_place_with. rewrite Ep.
  destruct (find _ _) eqn:F; [intros E; by apply push_error_differs in E|]. intros _.
  by apply find_none_forallb in F.
Qed.

Definition before_init (t v : Expr) (st : BorrowChecker) : BorrowChecker :=
  maybe_move_assignment_value env t v
    (check_expr env v (check_assignment_place_with (check_expr env) t st)).

Lemma before_init_sg t v p :
  expr_move_path t = Some p -> sound_grows W (check_expr env v) (runs env v) ->
  (forall q, q ∈ move_site env v -> q ∈ W) -> sound_grows W (before_init t v) (assign_value t v).
Proof.
  intros Ep Hv Hs. refine (sg_quiet_then W (fun st => maybe_move_assignment_value env t v (check_expr env v st))
    _ _ _ (fun st => place_quiet t p st Ep)).
  apply sg_seq; [done|by apply maybe_move_assign_sg].
Qed.

Lemma assign_value_within t v : within (move_site env v ++ moves env v) (assign_value t v).
Proof.
  apply within_seq.
  - eapply within_grow; [apply runs_within|]. intros p Hp. apply elem_of_app. by right.
  - apply within_if; [apply within_skip|]. apply within_run_move. intros p Hp. apply elem_of_app. by left.
Qed.

Lemma reinit_spans p st :
  moved st ⊆ dom (move_spans st) ->
  moved (reinitialize_move_path p st) ⊆ dom (move_spans (reinitialize_move_path p st)).
Proof.
  intros H. cbn. intros m Hm.
  assert (Hx : m ∉ elements (filter (fun m => is_prefix_of p m = true) (moved st))).
  { intros Hin%elem_of_elements. apply elem_of_filter in Hm as [Hm _], Hin as [Hin _]. congruence. }
  apply elem_of_filter in Hm as [_ Hm%H]. revert Hx Hm. generalize (elements (filter (fun m => is_prefix_of p m = true) (moved st))).
  intros l Hx Hm. induction l as [|q l IH]; cbn; [done|]. apply not_elem_of_cons in Hx as [Hne Hx].
  rewrite dom_delete. set_solver.
Qed.

Lemma init_safe p (M M' : gset MovePath) t L :
  within L (fun t' _ => t' = t) -> forallb (fun q => negb (strict_prefix q p)) L = true ->
  safe_event M' (Init p) = true -> M ⊆ M' -> safe_event (after M t) (Init p) = true.
Proof.
  intros HL HP HM Hsub. cbn in *. rewrite !forallb_forall in *. intros m Hm%list_elem_of_In%elem_of_elements.
  apply after_origin in Hm as [Hm|Hm].
  - apply HM, list_elem_of_In, elem_of_elements. auto.
  - apply HP, list_elem_of_In. by apply (HL t Normal eq_refl).
Qed.

(** Assigning to a path is sound wherever it stands. *)
Lemma assign_sound t v p :
  expr_move_path t = Some p -> assign_ok env p v = true ->
  sound_grows W (check_expr env v) (runs env v) -> (forall q, q ∈ move_site env v -> q ∈ W) ->
  sound W (check_assign_with env (check_expr env) t v) (run_assign env (runs env) t v).
Proof.
  intros Ep Ha Hv Hs. pose proof (before_init_sg t v p Ep Hv Hs) as [[E1 W1 R1] _].
  assert (HC : forall st, check_assign_with env (check_expr env) t v st =
    track_borrow_alias_for_path p v (reinitialize_move_path p (before_init t v st))).
  { intros st. unfold check_assign_with. by rewrite Ep. }
  assert (HQ : forall st, borrow_only (reinitialize_move_path p (before_init t v st))
                            (check_assign_with env (check_expr env) t v st)).
  { intros st. rewrite HC. apply track_alias_bo. }
  assert (HE : forall st, errors (check_assign_with env (check_expr env) t v st) = errors st ->
    errors (before_init t v st) = errors st).
  { intros st E. exact (proj1 (errors_between _ _ _ (E1 st) (bo_errors _ _ (HQ st)) E)). }
  constructor.
  - intros st. etrans; [apply E1|apply (bo_errors _ _ (HQ st))].
  - intros st Hw E%HE. destruct (W1 st Hw E) as [H1 H2]. destruct (HQ st) as [Em Es]. constructor; rewrite Em, ?Es.
    + by apply reinit_spans.
    + intros q Hq. cbn in Hq. apply elem_of_filter in Hq as [_ Hq]. auto.
  - intros st tr o M Hw E%HE HB HM. unfold run_assign in HB. rewrite Ep in HB.
    fold (assign_value t v) in HB. destruct HB as [[HB Ho]|(t1 & t2 & HB & [-> ->] & ->)].
    + destruct (R1 st tr o M Hw E HB HM). split; [done|]. by intros ->.
    + destruct (R1 st t1 Normal M Hw E HB HM) as [S1 A1]. rewrite safe_app, after_app, S1.
      assert (Hi : safe_event (after M t1) (Init p) = true).
      { eapply init_safe; [|exact Ha| |exact HM].
        - intros t' _ -> q. by apply (assign_value_within t v t1 Normal).
        - eapply place_errors; [exact Ep|]. unfold before_init in E.
          pose proof (qu_errors _ _ (place_quiet t p st Ep)) as Hp.
          refine (proj1 (errors_between _ _ _ Hp _ E)). etrans; [apply (proj1 Hv)|apply maybe_move_assign_balanced]. }
      cbn [safe after fold_left]. rewrite Hi. split; [done|]. intros _.
      rewrite (bo_moved _ _ (HQ st)). cbn. specialize (A1 eq_refl). intros m [H1 H2]%elem_of_filter.
      apply elem_of_filter. auto.
Qed.

Lemma reinit_noop p st :
  wf W st -> forallb (fun q => negb (is_prefix_of p q)) W = true ->
  moved (reinitialize_move_path p st) = moved st.
Proof.
  intros [_ Hw] HW. cbn. apply set_eq. intros m. rewrite elem_of_filter. split; [by intros [_ H]|].
  intros Hm. split; [|done]. rewrite forallb_forall in HW.
  specialize (HW m (proj1 (list_elem_of_In _ _) (Hw m Hm))). by apply negb_true_iff in HW.
Qed.

Lemma assign_sg t v p :
  expr_move_path t = Some p -> assign_ok env p v = true ->
  forallb (fun q => negb (is_prefix_of p q)) W = true ->
  sound_grows W (check_expr env v) (runs env v) -> (forall q, q ∈ move_site env v -> q ∈ W) ->
  sound_grows W (check_assign_with env (check_expr env) t v) (run_assign env (runs env) t v).
Proof.
  intros Ep Ha HW Hv Hs. split; [by eapply assign_sound|].
  pose proof (before_init_sg t v p Ep Hv Hs) as [[E1 W1 _] G1]. intros st Hw.
  unfold check_assign_with. rewrite Ep. fold (before_init t v st). intros E.
  pose proof (track_alias_bo p v (reinitialize_move_path p (before_init t v st))) as Hb.
  destruct (errors_between _ (errors (before_init t v st)) _ (E1 st) (bo_errors _ _ Hb) E) as [Ea _].
  rewrite (bo_moved _ _ Hb), (reinit_noop p _ (W1 st Hw Ea) HW). by apply G1.
Qed.

(** An assignment through an index or a call has no path. *)
Lemma assign_place_sg t v :
  expr_move_path t = None -> sound_grows W (check_expr env t) (runs env t) ->
  sound_grows W (check_expr env v) (runs env v) -> (forall q, q ∈ move_site env v -> q ∈ W) ->
  sound_grows W (check_assign_with env (check_expr env) t v) (run_assign env (runs env) t v).
Proof.
  intros Ep Ht Hv Hs. unfold run_assign. rewrite Ep.
  eapply sg_ext; [|refine (sg_seq W _ _ _ _ Ht (sg_seq W _ _ _ _ Hv (maybe_move_assign_sg env W t v Hs)))].
  intros st. unfold check_assign_with, check_assignment_place_with. by rewrite Ep.
Qed.
End assignments.

(** *** All expressions of the fragment *)

Section main.
Context (env : TypeEnv) {D : Dispatch} (W : list MovePath).
Notation sg := (sound_grows W).
Notation ok e := (sg (check_expr env e) (runs env e)).

Lemma path_use_sg e p s :
  expr_move_path e = Some p ->
  sg (fun st => check_move_path_use p s (consume_path_use e st)) (emit (Use p)).
Proof. intros _. refine (sg_quiet_then W _ _ _ (check_use_sg W p s) (consume_quiet e)). Qed.

Lemma exprs_ok l :
  Forall (fun e => all_nodes (node_ok env W) e = true -> (forall p, p ∈ moves env e -> p ∈ W) -> ok e) l ->
  Forall (fun e => all_nodes (node_ok env W) e = true) l ->
  (forall p, p ∈ flat_map (moves env) l -> p ∈ W) -> Forall (fun e => ok e) l.
Proof.
  intros H Hn Hm. rewrite Forall_forall in *. intros e He. apply H; [done|by apply Hn|].
  intros p Hp. apply Hm. by eapply elem_flat_map.
Qed.

Lemma check_expr_sg e :
  all_nodes (node_ok env W) e = true -> (forall p, p ∈ moves env e -> p ∈ W) -> ok e.
Proof.
  induction e as [k s IH] using Expr_children_ind. intros Hn Hm.
  apply all_nodes_inv in Hn as [Hn Hc]. rewrite moves_eq in Hm.
  assert (HN : forall p, p ∈ inspected_moves env (mkExpr k s) -> p ∈ W)
    by (intros; apply Hm, elem_of_app; left; apply elem_of_app; by left).
  assert (H : Forall (fun e => ok e) (expr_children k)).
  { apply exprs_ok; [done|done|]. intros p Hp. apply Hm, elem_of_app. by right. }
  clear IH Hc Hm. unfold node_ok in Hn. apply andb_true_iff in Hn as [Hu Hn].
  unfold inspected_moves, node_taken in *. cbn [expr_kind] in *.
  destruct k; cbn [expr_children] in H; forall_split; cbn [check_expr runs]; try done;
    try apply sg_skip; try (by apply taken_list_sg); try (by apply taken_opt_sg); try (by apply match_sg);
    try (by apply method_sg); try (by apply run_block_sg);
    try (by exact (sg_seq W _ _ _ _ H H0)).
  - exact (path_use_sg (mkExpr (EIdent i) s) (root_path (ident_name i)) s eq_refl).
  - destruct (as_simple p) as [i|] eqn:E.
    + apply (path_use_sg (mkExpr (EPath p) s) (root_path (ident_name i))). cbn. by rewrite E.
    + apply sg_quiet. intros st. apply consume_quiet.
  - assert (sg (check_expr env left_) (run_by env (runs env) (overloaded (mkExpr (EBinary op left_ right_) s)) left_) /\
      sg (check_expr env right_) (run_by env (runs env) (overloaded (mkExpr (EBinary op left_ right_) s)) right_)) as [Hl Hr].
    { destruct (overloaded _); [|done]. cbn in Hu. rewrite andb_true_r in Hu. apply andb_true_iff in Hu as [Hul Hur].
      split; by apply taken_sg. }
    refine (sg_seq W _ _ _ _ Hl _). destruct (is_logical op); [by apply (sg_maybe W _ _ Normal)|done].
  - refine (sg_quiet_then W _ _ _ (by_sg env W _ _ _ _ H Hu) _). intros st.
    destruct (borrow_op op); [apply borrow_only_quiet, add_borrow_bo|by constructor].
  - exact (sg_seq W _ _ _ _ H (args_sg env W args H0 HN)).
  - rewrite forallb_app in Hu. apply andb_true_iff in Hu as [Hu Ho]. by apply if_sg.
  - apply loop_sg. refine (sg_iterate W _ _ _ (sg_seq W _ _ _ _ H
      (sg_maybe W _ _ Broke (run_block_sg env W body (conj H0 (conj HN Hu)))))).
    eapply within_moveless; [|exact Hn]. apply within_seq.
    + eapply within_grow; [apply runs_within|]. intros p Hp. apply elem_of_app. by left.
    + apply within_choice; [|apply within_stop].
      eapply within_grow; [apply block_within|]. intros p Hp. apply elem_of_app. by right.
  - apply andb_true_iff in Hu as [Hi Hu]. apply loop_sg.
    refine (sg_seq W _ _ _ _ (taken_sg env W _ _ _ H Hi) (sg_iterate W _ _ _ (run_block_sg env W body (conj H0 (conj HN Hu))))).
    eapply within_moveless; [apply block_within|exact Hn].
  - apply loop_sg. refine (sg_iterate W _ _ _ (run_block_sg env W body (conj H (conj HN Hu)))).
    eapply within_moveless; [apply block_within|exact Hn].
  - destruct value as [v|]; cbn [opt_exprs check_return_with] in *; forall_split; [|apply sg_stop].
    refine (sg_weaken W _ _ _ _ (sg_seq W _ _ _ _ _ (sg_stop W Returned))); [intros t o Hr; exact Hr|].
    refine (sg_seq W _ _ _ _ _ (maybe_move_sg env W v HN)).
    refine (sg_then_quiet W _ _ _ H _). intros st. apply borrow_only_quiet, check_escape_bo.
  - refine (sg_seq W _ _ _ _ _ (sg_stop W Broke)). by apply taken_opt_sg.
  - apply sg_stop.
  - apply taken_sg; [done|]. by apply andb_true_iff in Hu as [Hu _].
  - destruct (expr_move_path (mkExpr (EField base field) s)) as [p|] eqn:E; [|done].
    refine (sg_quiet_then W _ _ _ (check_use_sg W p _) (consume_quiet _)).
  - rewrite forallb_app in Hu. apply andb_true_iff in Hu as [Hu Ho].
    refine (sg_seq W _ _ _ _ _ (taken_opt_sg env W base H0 Ho)).
    rewrite (seq_all_map (run_arg env (runs env)) fv_value).
    eapply sg_ext; [|exact (taken_list_sg env W _ H Hu)]. intros st. apply fold_left_mapped.
  - destruct (expr_move_path target) as [p|] eqn:E.
    + apply andb_true_iff in Hn as [HW Ha]. by eapply assign_sg.
    + by apply assign_place_sg.
  - refine (sg_seq W _ _ _ _ H (sg_seq W _ _ _ _ H0 (maybe_move_assign_sg env W target value HN))).
  - refine (sg_seq W _ _ _ _ (opt_sg env W start H) (opt_sg env W end_ H0)).
  - refine (sg_weaken W _ _ _ _ (sg_seq W _ _ _ _ (taken_sg env W _ _ _ H _) (sg_maybe W _ _ Threw (sg_skip W)))); [intros t o Hr; exact Hr|].
    by apply andb_true_iff in Hu as [Hu _].
  - refine (sg_catch W _ _ _ (run_block_sg env W b (conj H (conj HN Hu)))).
    eapply within_moveless; [apply block_within|exact Hn].
Qed.

Lemma supported_stmt_sound s :
  supported_stmt env W s = true ->
  (forall p, p ∈ stmt_moves env s -> p ∈ W) -> (forall p, p ∈ flat_map (moves env) (stmt_exprs s) -> p ∈ W) ->
  sound W (check_stmt_with env (check_expr env) s) (run_stmt env (runs env) s).
Proof.
  intros Hs Hm He.
  assert (HP : Forall (fun e => all_nodes (node_ok env W) e = true) (stmt_exprs s) -> forallb (untaken env) (stmt_taken s) = true ->
    sound W (check_stmt_with env (check_expr env) s) (run_stmt env (runs env) s)).
  { intros HF HU. apply stmt_sg; [|done|done]. rewrite Forall_forall in *. intros e Hin. apply check_expr_sg; [by apply HF|].
    intros p Hp. apply He. by eapply elem_flat_map. }
  unfold supported_stmt in Hs. unfold stmt_exprs, stmt_taken in *. destruct (stmt_kind s) as [| |e|] eqn:Ek;
    try (apply andb_true_iff in Hs as [Hu Hs]; apply HP; [|exact Hu]; apply Forall_forall; intros x Hx;
         rewrite forallb_forall in Hs; by apply Hs, list_elem_of_In).
  destruct e as [k sp]. cbn [expr_kind] in Hs.
  assert (HD : all_nodes (node_ok env W) (mkExpr k sp) = true ->
    sound W (check_stmt_with env (check_expr env) s) (run_stmt env (runs env) s)) by (intros; apply HP; [by repeat constructor|done]).
  destruct k; try (by apply HD).
  destruct (expr_move_path target) as [p|] eqn:Et; [|by apply HD].
  apply andb_true_iff in Hs as [Hv Ha]. clear HP HD.
  unfold check_stmt_with, run_stmt. rewrite Ek. cbn [check_expr runs].
  assert (HM : forall q, q ∈ moves env (mkExpr (EAssign target value) sp) -> q ∈ W).
  { intros q Hq. apply He. cbn. rewrite app_nil_r. done. }
  rewrite moves_eq in HM. eapply assign_sound; [exact Et|exact Ha| |].
  - apply check_expr_sg; [done|]. intros q Hq. apply HM. cbn. apply elem_of_app. right.
    apply elem_of_app. right. rewrite app_nil_r. done.
  - intros q Hq. apply HM, elem_of_app. left. apply elem_of_app. by left.
Qed.

Lemma stmts_sound r l :
  Forall (fun s => sound W (check_stmt_with env (check_expr env) s) (run_stmt env (runs env) s)) l ->
  sound W (check_stmts_with env (check_expr env) r l) (seq_all (run_stmt env (runs env)) l).
Proof.
  induction 1 as [|s l Hs _ IH]; [apply sg_skip|].
  refine (sound_seq W _ _ _ _ _ IH).
  eapply sound_weaken; [apply seq_skip_r|].
  exact (sound_seq W _ _ _ _ Hs (proj1 (sg_quiet W _ (stmt_end_quiet env r l s)))).
Qed.
End main.

Lemma body_stmts_sound env {D : Dispatch} b :
  supported_body env b = true ->
  sound (block_moves env b) (check_stmts_with env (check_expr env) true (block_stmts b))
    (seq_all (run_stmt env (runs env)) (block_stmts b)).
Proof.
  intros H. apply stmts_sound, Forall_forall. intros s Hs. unfold supported_body in H.
  rewrite forallb_forall in H. apply supported_stmt_sound.
  - by apply H, list_elem_of_In.
  - intros p Hp. apply elem_of_app. left. by eapply elem_flat_map.
  - intros p Hp. apply elem_of_app. right. apply elem_of_app. right. unfold block_exprs. rewrite flat_map_flat_map.
    by eapply (elem_flat_map (fun s => flat_map (moves env) (stmt_exprs s))).
Qed.

(** The value of the body itself may move: nothing runs after it. *)
Definition only_moves (t : list event) : Prop := Forall (fun ev => match ev with Move _ => True | _ => False end) t.

Lemma only_moves_safe M t : only_moves t -> safe M t = true.
Proof. intros H. revert M. induction H as [|[] t Hev _ IH]; intros M; cbn; done || apply IH. Qed.

Lemma seq_all_only_moves {A} (f : A -> behaviour) l t o :
  (forall x t o, f x t o -> only_moves t) -> seq_all f l t o -> only_moves t.
Proof.
  intros Hf. revert t. induction l as [|x l IH]; intros t; cbn.
  - intros [-> _]. constructor.
  - intros [[H _]|(t1 & t2 & H1 & H2 & ->)]; [by eapply Hf|]. apply Forall_app. split; [by eapply Hf|by apply IH].
Qed.

Lemma run_moves_only env l t o : seq_all (run_move env) l t o -> only_moves t.
Proof.
  apply seq_all_only_moves. intros x t' o'. apply seq_all_only_moves. intros p t'' o'' [-> _]. by repeat constructor.
Qed.


(** ** Bodies outside the fragment

    The environment of the samples: [s] and [v] are drop-owned strings, [p] is
    a struct of two, [r] a reference, [c] a flag. *)

#[local] Open Scope string_scope.

Definition pair_ty : Ty := mkTy 0 (TAdt "Pair" []).

Definition sample_env : TypeEnv :=
  insert_var "s" string_ty (insert_var "v" string_ty (insert_var "p" pair_ty
    (insert_var "r" (mkTy 0 (TRef false string_ty)) (insert_var "c" (mkTy 0 TBool)
      (register_struct_field_types "Pair" [] [("x", string_ty); ("y", string_ty)]
        (mark_drop_owned_type string_ty (TypeEnv.push_scope env_empty))))))).

(** No method has [self] by value, and [+] is overloaded. *)
#[local] Instance sample_dispatch : Dispatch :=
  {| consumes_self _ := false; overloaded e := match expr_kind e with EBinary BAdd _ _ => true | _ => false end |}.

Definition accepts (b : ABlock) : Prop := errors (check_function_block sample_env b checker_new) = [].

Definition assign_at (t v : Expr) (lo : Z) : Expr := expr_assign t v (at_ lo).
Definition field_at (b : Expr) (f : string) (lo : Z) : Expr := expr_field b (ident_new f (at_ lo)) (at_ lo).
Definition if_at (c : Expr) (es : list Expr) (lo : Z) : Expr := expr_if c (block_of es) None (at_ lo).
Definition arm_of (e : Expr) : MatchArm Expr := mkMatchArm [mkPattern (PWildcard _) span_dummy] None e span_dummy.

Definition pair_at (fields : list (string * Expr)) (lo : Z) : Expr :=
  expr_struct (path_from_str "Pair" (at_ lo)) (map (fun f => mkFieldValue (FieldIdent (ident_new f.1 (at_ lo))) f.2 (at_ lo)) fields) None (at_ lo).
Definition let_at (x : string) (v : Expr) (lo : Z) : AStmt := stmt_let (ident_new x (at_ lo)) None (Some v) (at_ lo).
Definition then_use (s : AStmt) : ABlock := mkBlock [s; stmt_expr (call_at "f" [var_at "s" 52] 50)] span_dummy.

Definition unsafe_run (b : ABlock) : Prop :=
  exists t o, run_block sample_env (runs sample_env) b t o /\ safe ∅ t = false.

Lemma seq_intro A B t1 t2 o : A t1 Normal -> B t2 o -> seq A B (t1 ++ t2)%list o.
Proof. intros HA HB. right. by exists t1, t2. Qed.

Lemma choice_left (A B : behaviour) t o : A t o -> choice A B t o.
Proof. by left. Qed.

Lemma choice_right (A B : behaviour) t o : B t o -> choice A B t o.
Proof. by right. Qed.

(** Run what is determined; [cbn] opens the next expression. *)
Ltac run_steps :=
  repeat (cbn [run_block run_stmt seq_all foldr block_stmts block_of map stmt_expr stmt_kind
               runs call_at var_at if_at field_at assign_at expr_call expr_ident expr_if expr_loop expr_block
               expr_match expr_return expr_try expr_try_block expr_assign expr_field expr_span
               expr_method_call expr_struct expr_binary pair_at let_at stmt_let then_use fv_value fst snd app_nil_r
               last_value last fst snd is_logical
               run_arg run_by run_taken takes_receiver release_method takes_matched overloaded consumes_self sample_dispatch
               run_assign run_arms arm_of arm_body arm_guard run_opt expr_move_path ident_name ident_new];
    first [ eapply seq_intro | split; reflexivity
          | match goal with
            | |- run_move ?env ?e _ _ => unfold run_move; let l := eval vm_compute in (move_site env e) in
                change (move_site env e) with l
            | |- (if ?c then _ else _) _ _ => let b := eval vm_compute in c in change c with b; cbn iota
            end ]).

(** [loop { f(s) }]: the body is checked once. *)
Definition loop_moves : ABlock :=
  block_of [expr_loop (block_of [call_at "f" [var_at "s" 12] 10]) (at_ 0)].

(** [{ f(s); if c { s = g() } }; h(s)] *)
Definition conditional_reinit : ABlock :=
  block_of [expr_block (block_of [call_at "f" [var_at "s" 2] 0;
              if_at (var_at "c" 20) [assign_at (var_at "s" 30) (call_at "g" [] 34) 30] 18]);
            call_at "h" [var_at "s" 52] 50].

(** [match c { _ => f(s), _ => s = g() }; h(s)] *)
Definition arm_reinit : ABlock :=
  block_of [expr_match (var_at "c" 0) [arm_of (call_at "f" [var_at "s" 12] 10);
              arm_of (assign_at (var_at "s" 30) (call_at "g" [] 34) 30)] (at_ 0);
            call_at "h" [var_at "s" 52] 50].

(** [f(g(s).x); h(s)] *)
Definition field_of_call : ABlock :=
  block_of [call_at "f" [field_at (call_at "g" [var_at "s" 12] 10) "x" 8] 0; call_at "h" [var_at "s" 52] 50].

(** [p.x = f(p)] *)
Definition assign_into_moved : ABlock :=
  block_of [assign_at (field_at (var_at "p" 0) "x" 2) (call_at "f" [var_at "p" 12] 10) 1].

(** [try { if c { f(s); k()?; return } }; h(s)] *)
Definition try_leaves_branch : ABlock :=
  block_of [expr_try_block (block_of [if_at (var_at "c" 3) [call_at "f" [var_at "s" 12] 10;
              expr_try (call_at "k" [] 22) (at_ 20); expr_return None (at_ 30)] 2]) (at_ 1);
            call_at "h" [var_at "s" 52] 50].

(** [s.drop(); f(s)], [let q = Pair { x: s }; f(s)], [let q = { s }; f(s)] and
    [s + v; f(s)] *)
Definition receiver_dropped : ABlock := then_use (stmt_expr (expr_method_call (var_at "s" 0) (ident_new "drop" (at_ 2)) [] (at_ 0))).
Definition field_taken : ABlock := then_use (let_at "q" (pair_at [("x", var_at "s" 12)] 5) 0).
Definition end_taken : ABlock := then_use (let_at "q" (expr_block (block_of [var_at "s" 12])) 0).
Definition operand_taken : ABlock := then_use (stmt_expr (expr_binary BAdd (var_at "s" 0) (var_at "v" 4) (at_ 0))).

(** The checker does not look at values that are taken elsewhere than by an
    argument, an initialiser, an assignment or a return: it accepts the use of
    a variable after [drop] was called on it, after it became the field of a
    struct, the value of a block or the operand of an overloaded operator. *)
Theorem taken_value_missed :
  Forall (fun b => accepts b /\ unsafe_run b) [receiver_dropped; field_taken; end_taken; operand_taken].
Proof.
  repeat constructor; (by vm_compute) || (eexists _, Normal; split; [run_steps|by vm_compute]).
Qed.

(** A move in a loop body is not found to happen again in the next
    iteration: the checker accepts [loop { f(s) }], whose second iteration uses
    the moved [s]. *)
Theorem loop_move_missed : accepts loop_moves /\ unsafe_run loop_moves.
Proof.
  split; [by vm_compute|]. eexists _, Normal. split.
  - run_steps.
    eapply (iter_again _ _ Normal); [|by left|].
    + run_steps.
    + eapply (iter_again _ _ Normal); [run_steps|by left|apply iter_done].
  - by vm_compute.
Qed.

(** A conditional reinitialisation hides a move: the checker accepts
    [{ f(s); if c { s = g() } }; h(s)] and a match one arm of which moves [s]
    while another one assigns it, and in both the use of [s] afterwards can see
    the moved value. *)
Theorem conditional_reinit_missed :
  (accepts conditional_reinit /\ unsafe_run conditional_reinit) /\
  (accepts arm_reinit /\ unsafe_run arm_reinit).
Proof.
  split; (split; [by vm_compute|]; eexists _, Normal; split).
  - run_steps. eapply choice_right. run_steps.
  - by vm_compute.
  - run_steps. eapply choice_right. run_steps. eapply choice_left. run_steps.
  - by vm_compute.
Qed.

(** The other restrictions of the fragment are needed as well. *)
Theorem field_of_call_missed : accepts field_of_call /\ unsafe_run field_of_call.
Proof. split; [by vm_compute|]. eexists _, Normal. split; [run_steps|by vm_compute]. Qed.

Theorem assign_into_moved_missed : accepts assign_into_moved /\ unsafe_run assign_into_moved.
Proof. split; [by vm_compute|]. eexists _, Normal. split; [run_steps|by vm_compute]. Qed.

Theorem try_leaves_branch_missed : accepts try_leaves_branch /\ unsafe_run try_leaves_branch.
Proof.
  split; [by vm_compute|]. eexists _, Normal. split.
  - run_steps. right. split; [|reflexivity]. left. split; [|done]. left. split; [|done].
    eapply seq_intro; [run_steps|]. eapply choice_left. left. split; [|done].
    eapply seq_intro; [run_steps|]. left. split; [|done].
    eapply seq_intro; [run_steps|]. eapply choice_right. by split.
  - by vm_compute.
Qed.

(** [let r = &v; r[0] = 1; f(v); use(r)]: the assignment through [r] consumes a
    use of [r] that was not counted, so the borrow of [v] ends before its last
    use; without the assignment the move of [v] is refused. *)
Definition let_borrow : AStmt :=
  stmt_let (ident_new "r" (at_ 0)) None (Some (expr_unary Ref (var_at "v" 5) (at_ 4))) (at_ 0).
Definition index_assign : AStmt :=
  stmt_expr (assign_at (expr_index (var_at "r" 10) (expr_literal (LInt 0) (at_ 12)) (at_ 11))
    (expr_literal (LInt 1) (at_ 15)) 10).
Definition move_then_use : list AStmt :=
  [stmt_expr (call_at "f" [var_at "v" 22] 20); stmt_expr (call_at "use" [var_at "r" 34] 30)].

Theorem index_assign_ends_borrow :
  accepts (mkBlock (let_borrow :: index_assign :: move_then_use) span_dummy) /\
  errors (check_function_block sample_env (mkBlock (let_borrow :: move_then_use) span_dummy) checker_new) =
    [CannotMoveBorrowed "v" (5, 6)%Z (22, 23)%Z].
Proof. split; by vm_compute. Qed.

(** [f(s); s = g(); if c { h(s); return }; k(s)] is accepted and in the
    fragment. *)
Definition sample_body : ABlock :=
  block_of [call_at "f" [var_at "s" 2] 0; assign_at (var_at "s" 10) (call_at "g" [] 14) 10;
            if_at (var_at "c" 20) [call_at "h" [var_at "s" 32] 30; expr_return None (at_ 40)] 18;
            call_at "k" [var_at "s" 52] 50].

Definition sample_trace : list event :=
  [Use (root_path "f"); Use (root_path "s"); Move (root_path "s"); Use (root_path "g"); Init (root_path "s");
   Use (root_path "c"); Use (root_path "k"); Use (root_path "s"); Move (root_path "s")].

