(* ===== verification/Hir.v ===== *)
(** The high-level IR: compiler/src/hir (ty.rs, expr.rs, stmt.rs, body.rs,
    pattern.rs, item.rs, mod.rs) and the names of types (type_naming.rs).

    As in [Ast], the recursive types are parameterized by the expressions they
    contain, and the knot is tied in [HIRExpr].  [f64] is its bit pattern,
    [char] its code point. *)

From S2P Require Import Prelude Ty Ast.
From stdpp Require Import pretty.
From Stdlib Require Import String.

#[local] Open Scope string_scope.

(** ** Types *)

Inductive HIRIntKind := HI8 | HI16 | HI32 | HI64 | HI128 | HISize | HU8 | HU16 | HU32 | HU64 | HU128 | HUSize.
Inductive HIRFloatKind := HF32 | HF64.

Inductive HIRType := mkHIRType (kind : HIRTypeKind)
with HIRTypeKind :=
| HTUnit
| HTNever
| HTBool
| HTChar
| HTStr
| HTByte
| HTBytes
| HTInt (k : HIRIntKind)
| HTFloat (k : HIRFloatKind)
| HTTuple (types : list HIRType)
| HTArray (elem : HIRType) (len : Z)
| HTSlice (elem : HIRType)
| HTRef (is_mut : bool) (inner : HIRType)
| HTPtr (inner : HIRType)
| HTFn (params : list HIRType) (ret : HIRType)
| HTNamed (name : string) (args : list HIRType)
| HTTraitObject (traits : list string)
| HTAssocProjection (base : HIRType) (trait_name name : string)
| HTError.

Definition hir_kind (t : HIRType) : HIRTypeKind := match t with mkHIRType k => k end.

Definition hir_int_is_signed (k : HIRIntKind) : bool :=
  match k with HI8 | HI16 | HI32 | HI64 | HI128 | HISize => true | _ => false end.
Definition hir_int_bits (k : HIRIntKind) : nat :=
  match k with
  | HI8 | HU8 => 8 | HI16 | HU16 => 16 | HI32 | HU32 => 32 | HI64 | HU64 => 64 | HI128 | HU128 => 128
  | HISize | HUSize => 64
  end.
Definition hir_float_bits (k : HIRFloatKind) : nat := match k with HF32 => 32 | HF64 => 64 end.
Definition hir_int_name (k : HIRIntKind) : string :=
  match k with
  | HI8 => "i8" | HI16 => "i16" | HI32 => "i32" | HI64 => "i64" | HI128 => "i128" | HISize => "isize"
  | HU8 => "u8" | HU16 => "u16" | HU32 => "u32" | HU64 => "u64" | HU128 => "u128" | HUSize => "usize"
  end.

Definition hir_unit : HIRType := mkHIRType HTUnit.
Definition hir_never : HIRType := mkHIRType HTNever.
Definition hir_bool : HIRType := mkHIRType HTBool.
Definition hir_char : HIRType := mkHIRType HTChar.
Definition hir_str : HIRType := mkHIRType HTStr.
Definition hir_int (k : HIRIntKind) : HIRType := mkHIRType (HTInt k).
Definition hir_float (k : HIRFloatKind) : HIRType := mkHIRType (HTFloat k).
Definition hir_reference (is_mut : bool) (inner : HIRType) : HIRType := mkHIRType (HTRef is_mut inner).
Definition hir_pointer (inner : HIRType) : HIRType := mkHIRType (HTPtr inner).
Definition hir_array (elem : HIRType) (len : Z) : HIRType := mkHIRType (HTArray elem len).
Definition hir_slice (elem : HIRType) : HIRType := mkHIRType (HTSlice elem).
Definition hir_tuple (types : list HIRType) : HIRType :=
  mkHIRType (match types with [] => HTUnit | _ => HTTuple types end).
Definition hir_function (params : list HIRType) (ret : HIRType) : HIRType := mkHIRType (HTFn params ret).
Definition hir_named (name : string) (args : list HIRType) : HIRType := mkHIRType (HTNamed name args).

(** *** Names of types, in the names of methods *)

Definition hir_type_prefix (ty : HIRType) : string :=
  match hir_kind ty with
  | HTInt ik => hir_int_name ik
  | HTFloat fk => "f" +:+ pretty (hir_float_bits fk)
  | HTBool => "bool"
  | HTUnit => "unit"
  | HTNamed name _ => name
  | _ => "unknown"
  end.

Fixpoint hir_type_instance_name (ty : HIRType) : string :=
  match ty with mkHIRType kind =>
    match kind with
    | HTInt ik => hir_int_name ik
    | HTFloat fk => "f" +:+ pretty (hir_float_bits fk)
    | HTBool => "bool"
    | HTUnit => "unit"
    | HTStr => "str"
    | HTRef _ inner => "ref_" +:+ hir_type_instance_name inner
    | HTPtr inner => "ptr_" +:+ hir_type_instance_name inner
    | HTArray elem len => "array_" +:+ pretty len +:+ "_" +:+ hir_type_instance_name elem
    | HTTuple [] => "unit"
    | HTTuple items => "tuple_" +:+ String.concat "_" (map hir_type_instance_name items)
    | HTNamed name [] => name
    | HTNamed name args => name +:+ "_" +:+ String.concat "_" (map hir_type_instance_name args)
    | _ => hir_type_prefix ty
    end
  end.

(** ** Expressions, statements, patterns *)

Inductive HIRLiteral :=
| HLInt (z : Z)
| HLUint (z : Z)
| HLFloat (bits : Z)
| HLString (s : string)
| HLBytes (bytes : list Z)
| HLChar (code : Z)
| HLBool (b : bool)
| HLNull.

Inductive HIRUnaryOp := HNeg | HNot | HBitNot | HRefOp | HRefMutOp | HDerefOp.

Inductive HIRBinaryOp :=
| HAdd | HSub | HMul | HDiv | HMod
| HBitAnd | HBitOr | HBitXor | HShl | HShr
| HLogAnd | HLogOr
| HEq | HNotEq | HLt | HGt | HLe | HGe
| HAssignB.

Definition hir_is_comparison (o : HIRBinaryOp) : bool :=
  match o with HEq | HNotEq | HLt | HGt | HLe | HGe => true | _ => false end.
Definition hir_is_arithmetic (o : HIRBinaryOp) : bool :=
  match o with HAdd | HSub | HMul | HDiv | HMod => true | _ => false end.
Definition hir_is_bitwise (o : HIRBinaryOp) : bool :=
  match o with HBitAnd | HBitOr | HBitXor | HShl | HShr => true | _ => false end.
Definition hir_precedence (o : HIRBinaryOp) : Z :=
  match o with
  | HMul | HDiv | HMod => 12
  | HAdd | HSub => 11
  | HShl | HShr => 10
  | HLt | HGt | HLe | HGe => 9
  | HEq | HNotEq => 8
  | HBitAnd => 7
  | HBitXor => 6
  | HBitOr => 5
  | HLogAnd => 4
  | HLogOr => 3
  | HAssignB => 2
  end.

Inductive HIRPatternOf (E : Type) :=
| HPWild
| HPLit (l : HIRLiteral)
| HPVar (name : string) (symbol : Z) (mutability : bool)
| HPStruct (name : string) (fields : list (string * option (HIRPatternOf E)))
| HPEnumVariant (discriminant : Z) (fields : list (string * option (HIRPatternOf E)))
| HPTuple (pats : list (HIRPatternOf E))
| HPOr (left_ right_ : HIRPatternOf E)
| HPSlice (before : list (HIRPatternOf E)) (rest : option (HIRPatternOf E)) (after : list (HIRPatternOf E))
| HPRange (start end_ : option E)
| HPRef (p : HIRPatternOf E)
| HPRefMut (p : HIRPatternOf E).

Inductive HIRStmtOf (E : Type) :=
| HSource (site_lo : Z)
| HCoverage (site_lo : Z)
| HLet (name : string) (symbol : Z) (ty : HIRType) (value : option E) (is_mut : bool)
| HSExpr (e : E)
| HItem.

Record HIRBodyOf (E : Type) := mkBody { body_stmts : list (HIRStmtOf E); body_expr : option E }.

Record HIRMatchArmOf (E : Type) := mkHIRArm {
  harm_pat : HIRPatternOf E;
  harm_guard : option E;
  harm_body : E;
}.

Arguments HPWild {E}.
Arguments HPLit {E}.
Arguments HPVar {E}.
Arguments HPStruct {E}.
Arguments HPEnumVariant {E}.
Arguments HPTuple {E}.
Arguments HPOr {E}.
Arguments HPSlice {E}.
Arguments HPRange {E}.
Arguments HPRef {E}.
Arguments HPRefMut {E}.
Arguments HSource {E}.
Arguments HCoverage {E}.
Arguments HLet {E}.
Arguments HSExpr {E}.
Arguments HItem {E}.
Arguments mkBody {E}.
Arguments body_stmts {E}.
Arguments body_expr {E}.
Arguments mkHIRArm {E}.
Arguments harm_pat {E}.
Arguments harm_guard {E}.
Arguments harm_body {E}.

Inductive HIRExpr :=
| HLit (l : HIRLiteral)
| HVar (name : string) (symbol : Z)
| HUnary (op : HIRUnaryOp) (e : HIRExpr)
| HBinary (op : HIRBinaryOp) (l r : HIRExpr)
| HAnd (l r : HIRExpr)
| HOr (l r : HIRExpr)
| HIf (cond : HIRExpr) (then_branch : HIRBodyOf HIRExpr) (else_branch : option (HIRBodyOf HIRExpr))
| HMatch (scrutinee : HIRExpr) (arms : list (HIRMatchArmOf HIRExpr))
| HLoop (body : HIRBodyOf HIRExpr)
| HWhile (cond : HIRExpr) (body : HIRBodyOf HIRExpr)
| HFor (var_name : string) (var_symbol : Z) (iter : HIRExpr) (body : HIRBodyOf HIRExpr)
| HCall (func : HIRExpr) (args : list HIRExpr) (site_lo : option Z) (expected_return_type : option HIRType)
| HEnumConstruct (enum_name variant_name : string) (discriminant : Z) (args : list HIRExpr)
| HMethodCall (receiver : HIRExpr) (method : string) (args : list HIRExpr) (expected_return_type : option HIRType)
| HStruct (name : string) (fields : list (string * HIRExpr)) (concrete_type : option HIRType)
| HArray (elems : list HIRExpr)
| HIndex (base index : HIRExpr)
| HField (base : HIRExpr) (field : string)
| HAssign (target value : HIRExpr)
| HAssignOp (target : HIRExpr) (op : HIRBinaryOp) (value : HIRExpr)
| HReturn (value : option HIRExpr)
| HBreak (value : option HIRExpr)
| HContinue
| HBlock (body : HIRBodyOf HIRExpr)
| HCast (e : HIRExpr) (ty : HIRType)
| HAscribe (e : HIRExpr) (ty : HIRType)
| HRefE (is_mut : bool) (e : HIRExpr)
| HDerefE (e : HIRExpr)
| HRange (start end_ : option HIRExpr) (inclusive : bool)
| HTupleE (elems : list HIRExpr)
| HLambda (params : list string) (body : HIRExpr)
| HAwait (e : HIRExpr)
| HAsyncBlock (body : HIRBodyOf HIRExpr)
| HTry (e : HIRExpr)
| HTryBlock (body : HIRBodyOf HIRExpr).

Notation HIRPattern := (HIRPatternOf HIRExpr) (only parsing).
Notation HIRStmt := (HIRStmtOf HIRExpr) (only parsing).
Notation HIRBody := (HIRBodyOf HIRExpr) (only parsing).
Notation HIRMatchArm := (HIRMatchArmOf HIRExpr) (only parsing).

Definition body_new : HIRBody := mkBody [] None.
Definition add_stmt (s : HIRStmt) (b : HIRBody) : HIRBody := mkBody (body_stmts b ++ [s])%list (body_expr b).
Definition set_expr (e : HIRExpr) (b : HIRBody) : HIRBody := mkBody (body_stmts b) (Some e).

(** ** Items *)

Record HIRTypeParam := mkHIRTypeParam {
  htp_name : string;
  htp_bounds : list string;
  htp_default : option HIRType;
}.

Record HIRParam := mkHIRParam {
  hp_name : string;
  hp_symbol : Z;
  hp_ty : HIRType;
  hp_is_borrowed : bool;
}.

Definition param_new (name : string) (symbol : Z) (ty : HIRType) : HIRParam := mkHIRParam name symbol ty false.
Definition param_borrowed (name : string) (symbol : Z) (ty : HIRType) : HIRParam := mkHIRParam name symbol ty true.
Definition param_with_type (ty : HIRType) (p : HIRParam) : HIRParam :=
  mkHIRParam (hp_name p) (hp_symbol p) ty (hp_is_borrowed p).

Record HIRFunction := mkHIRFunction {
  hf_name : string;
  hf_type_params : list HIRTypeParam;
  hf_params : list HIRParam;
  hf_return_type : HIRType;
  hf_precondition : option HIRExpr;
  hf_postcondition : option HIRExpr;
  hf_body : HIRBody;
  hf_is_async : bool;
  hf_abi : option string;
  hf_is_unsafe : bool;
  hf_no_mangle : bool;
  hf_export_name : option string;
  hf_is_pub : bool;
}.

Record HIRExternFunction := mkHIRExternFunction {
  hxf_name : string;
  hxf_params : list HIRParam;
  hxf_return_type : HIRType;
  hxf_is_unsafe : bool;
  hxf_is_pub : bool;
}.
Record HIRExternStatic := mkHIRExternStatic {
  hxs_name : string;
  hxs_ty : HIRType;
  hxs_is_mut : bool;
  hxs_is_pub : bool;
}.
Inductive HIRExternItem := HXFunction (f : HIRExternFunction) | HXStatic (s : HIRExternStatic).
Record HIRExternBlock := mkHIRExternBlock {
  hxb_abi : string;
  hxb_link_name : option string;
  hxb_items : list HIRExternItem;
}.

Record HIRField := mkHIRField { hfd_name : string; hfd_ty : HIRType; hfd_is_pub : bool }.
Record HIRStruct := mkHIRStruct {
  hst_name : string;
  hst_type_params : list HIRTypeParam;
  hst_fields : list HIRField;
  hst_is_pub : bool;
}.
Inductive HIRVariant :=
| HVTuple (name : string) (types : list HIRType)
| HVStruct (name : string) (fields : list HIRField)
| HVUnit (name : string).
Record HIREnum := mkHIREnum {
  hen_name : string;
  hen_type_params : list HIRTypeParam;
  hen_variants : list HIRVariant;
  hen_is_pub : bool;
}.
Inductive HIRTraitItem := HTIFunction (f : HIRFunction) | HTIConst (name : string) (ty : HIRType) | HTIType (name : string).
Record HIRTrait := mkHIRTrait {
  htr_name : string;
  htr_type_params : list HIRTypeParam;
  htr_items : list HIRTraitItem;
  htr_is_pub : bool;
}.
Record HIRImpl := mkHIRImpl {
  him_target_type : HIRType;
  him_trait_name : option string;
  him_trait_args : list HIRType;
  him_associated_types : list (string * HIRType);
  him_items : list HIRFunction;
}.
Record HIRConst := mkHIRConst { hco_name : string; hco_ty : HIRType; hco_value : HIRExpr; hco_is_pub : bool }.
Record HIRStatic := mkHIRStatic {
  hsc_name : string;
  hsc_ty : HIRType;
  hsc_value : HIRExpr;
  hsc_is_mut : bool;
  hsc_is_pub : bool;
}.
Record HIRTypeAlias := mkHIRTypeAlias {
  hta_name : string;
  hta_type_params : list HIRTypeParam;
  hta_alias : HIRType;
  hta_is_pub : bool;
}.

Inductive HIRItem :=
| HIFunction (f : HIRFunction)
| HIExternBlock (b : HIRExternBlock)
| HIStruct (s : HIRStruct)
| HIEnum (e : HIREnum)
| HITrait (t : HIRTrait)
| HIImpl (i : HIRImpl)
| HIConst (c : HIRConst)
| HIStatic (s : HIRStatic)
| HITypeAlias (t : HIRTypeAlias).

Record HIRModule := mkHIRModule { hmod_name : string; hmod_items : list HIRItem }.
Definition module_new (name : string) : HIRModule := mkHIRModule name [].
Definition add_item (item : HIRItem) (m : HIRModule) : HIRModule :=
  mkHIRModule (hmod_name m) (hmod_items m ++ [item])%list.
