(* ===== verification/HirLower.v ===== *)
(** Lowering types, patterns, expressions and bodies to the HIR:
    compiler/src/hir/lower/types.rs, enum_index.rs and expressions.rs.

    The two thread-local variables that the code sets around the lowering of a
    program, the index of enum variants and the switch for coverage markers,
    are parameters. *)

From S2P Require Import Prelude Ty Ast TypeEnv Hir.
From stdpp Require Import pretty.
From Stdlib Require Import String.

#[local] Open Scope string_scope.

(** ** Types *)

Definition path_to_string (p : Path) : string := String.concat "::" (map ident_name (path_segments p)).

Definition named_type (name : string) : HIRType :=
  if String.eqb name "bool" then hir_bool
  else if String.eqb name "char" then hir_char
  else if String.eqb name "str" then hir_str
  else if String.eqb name "i8" then hir_int HI8
  else if String.eqb name "i16" then hir_int HI16
  else if String.eqb name "i32" then hir_int HI32
  else if String.eqb name "i64" then hir_int HI64
  else if String.eqb name "i128" then hir_int HI128
  else if String.eqb name "isize" then hir_int HISize
  else if String.eqb name "u8" then hir_int HU8
  else if String.eqb name "u16" then hir_int HU16
  else if String.eqb name "u32" then hir_int HU32
  else if String.eqb name "u64" then hir_int HU64
  else if String.eqb name "u128" then hir_int HU128
  else if String.eqb name "usize" then hir_int HUSize
  else if String.eqb name "f32" then hir_float HF32
  else if String.eqb name "f64" then hir_float HF64
  else if String.eqb name "()" || String.eqb name "unit" then hir_unit
  else hir_named name [].

Fixpoint lower_type (t : AstType) : HIRType :=
  match t with mkAstType kind _ =>
    match kind with
    | KInfer _ => mkHIRType HTError
    | KSelfType _ => hir_named "Self" []
    | KPath _ path =>
        named_type (match as_simple path with Some ident => ident_name ident | None => path_to_string path end)
    | KPathWithArgs _ path args =>
        hir_named (match as_simple path with Some ident => ident_name ident | None => EmptyString end) (map lower_type args)
    | KTuple _ types => match types with [] => hir_unit | _ => hir_tuple (map lower_type types) end
    | KArray _ elem len => hir_array (lower_type elem) len
    | KSlice _ elem => hir_slice (lower_type elem)
    | KPtr _ base _ => hir_pointer (lower_type base)
    | KRef _ base is_mut => hir_reference is_mut (lower_type base)
    | KFn _ params ret =>
        hir_function (map lower_type params) (match ret with Some r => lower_type r | None => hir_unit end)
    | KDyn _ bounds => mkHIRType (HTTraitObject (map (fun b => path_to_string (tb_path _ b)) bounds))
    | KNever _ => hir_never
    | KImplTrait _ _ => mkHIRType HTError
    end
  end.

Definition lower_int_kind (k : IntKind) : HIRIntKind :=
  match k with
  | I8 => HI8 | I16 => HI16 | I32 => HI32 | I64 => HI64 | I128 => HI128 | ISize => HISize
  | U8 => HU8 | U16 => HU16 | U32 => HU32 | U64 => HU64 | U128 => HU128 | USize => HUSize
  end.

Fixpoint lower_checked_type (t : Ty) : HIRType :=
  match t with mkTy _ kind =>
    match kind with
    | TUnit => hir_unit
    | TNever => hir_never
    | TBool => hir_bool
    | TChar => hir_char
    | TStr => hir_str
    | TByte => mkHIRType HTByte
    | TBytes => mkHIRType HTBytes
    | TInt k => hir_int (lower_int_kind k)
    | TFloat k => hir_float (match k with F32 => HF32 | F64 => HF64 end)
    | TTuple types => hir_tuple (map lower_checked_type types)
    | TArray elem len => hir_array (lower_checked_type elem) (Z.of_nat len)
    | TSlice elem => hir_slice (lower_checked_type elem)
    | TRef is_mut inner => hir_reference is_mut (lower_checked_type inner)
    | TPtr inner => hir_pointer (lower_checked_type inner)
    | TFn params ret _ => hir_function (map lower_checked_type params) (lower_checked_type ret)
    | TAdt name args => hir_named name (map lower_checked_type args)
    | TDyn traits | TImplTrait traits => mkHIRType (HTTraitObject traits)
    | TAssocProjection base trait_name name =>
        mkHIRType (HTAssocProjection (lower_checked_type base) trait_name name)
    | TFuture inner => hir_named "Future" [lower_checked_type inner]
    | TSelfType => hir_named "Self" []
    | TError | TVar _ | TInferred => mkHIRType HTError
    end
  end.

(** *** The type of a [let] without annotation *)

Definition is_single_path (p : Path) (name : string) : bool :=
  match path_segments p with [s] => String.eqb (ident_name s) name | _ => false end.

Fixpoint expr_mentions_ident (e : Expr) (name : string) : bool :=
  match e with mkExpr kind _ =>
    match kind with
    | EIdent ident => String.eqb (ident_name ident) name
    | EPath path => is_single_path path name
    | EUnary _ operand => expr_mentions_ident operand name
    | EBinary _ l r => expr_mentions_ident l name || expr_mentions_ident r name
    | EParen inner => expr_mentions_ident inner name
    | _ => false
    end
  end.

Definition expr_is_ident (e : Expr) (name : string) : bool :=
  match expr_kind e with
  | EIdent ident => String.eqb (ident_name ident) name
  | EPath path => is_single_path path name
  | _ => false
  end.

Definition expr_is_bool_literal (e : Expr) : bool :=
  match expr_kind e with ELiteral (LBool _) => true | _ => false end.

Fixpoint lambda_body_uses_param_as_bool (name : string) (e : Expr) : bool :=
  match e with mkExpr kind _ =>
    match kind with
    | EUnary op operand => bool_decide (op = Not) && expr_mentions_ident operand name
    | EBinary op l r =>
        match op with
        | BAnd | BOr => expr_mentions_ident l name || expr_mentions_ident r name
        | BEq | BNotEq =>
            (expr_is_ident l name && expr_is_bool_literal r) ||
            (expr_is_ident r name && expr_is_bool_literal l)
        | _ => false
        end
    | EParen inner => lambda_body_uses_param_as_bool name inner
    | _ => false
    end
  end.

Definition infer_lambda_param_type (name : string) (body : Expr) : HIRType :=
  if lambda_body_uses_param_as_bool name body then hir_bool else hir_int HI64.

Definition infer_literal_type (l : Literal) : HIRType :=
  match l with
  | LInt _ => hir_int HI64
  | LUint _ => hir_int HU64
  | LFloat _ => hir_float HF64
  | LBool _ => hir_bool
  | LString _ => hir_reference false hir_str
  | LChar _ => hir_int HI32
  | LBytes _ => hir_pointer (hir_int HU8)
  | LNull => hir_pointer hir_unit
  | LUnit => hir_unit
  end.

Fixpoint infer_expr_type (e : Expr) : HIRType :=
  match e with mkExpr kind _ =>
    match kind with
    | ELiteral lit => infer_literal_type lit
    | EIdent _ | EPath _ => hir_int HI64
    | EBinary op _ _ =>
        match op with
        | BEq | BNotEq | BLt | BLe | BGt | BGe | BAnd | BOr => hir_bool
        | _ => hir_int HI64
        end
    | EUnary op operand =>
        match op with
        | Not => hir_bool
        | Ref | RefMut => hir_pointer (infer_expr_type operand)
        | Deref | DerefMut =>
            match hir_kind (infer_expr_type operand) with
            | HTPtr inner => inner
            | HTRef _ inner => inner
            | _ => hir_int HI64
            end
        | _ => hir_int HI64
        end
    | EArray elems =>
        match elems with
        | [] => hir_array (hir_int HI64) 0
        | elem :: _ => hir_array (infer_expr_type elem) (Z.of_nat (List.length elems))
        end
    | EStruct _ fields _ => hir_tuple (map (fun fv => infer_expr_type (fv_value fv)) fields)
    | ELambda params body =>
        hir_function (map (fun p => infer_lambda_param_type (ident_name p) body) params) (infer_expr_type body)
    | _ => hir_int HI64
    end
  end.

(** ** The index of enum variants *)

Notation EnumVariantIndex := (gmap string (gmap string Z)) (only parsing).

Definition variant_indices (variants : list (EnumVariant Expr)) : gmap string Z :=
  (fold_left (fun s v => let '(i, m) := s in ((i + 1)%Z, <[ident_name (ev_name _ v) := wrap_u 32 i]> m)) variants (0%Z, ∅)).2.

Definition build_enum_variant_index (program : Program) : EnumVariantIndex :=
  fold_left (fun index decl =>
      match decl_kind decl with
      | DEnum _ _ enum_decl => <[ident_name (en_name _ enum_decl) := variant_indices (en_variants _ enum_decl)]> index
      | _ => index
      end) (program_decls program) ∅.

(** ** Literals and operators *)

Definition lower_literal (l : Literal) : HIRLiteral :=
  match l with
  | LInt n => HLInt n
  | LUint n => HLUint n
  | LFloat f => HLFloat f
  | LString s => HLString s
  | LBytes b => HLBytes b
  | LChar c => HLChar c
  | LBool b => HLBool b
  | LNull | LUnit => HLNull
  end.

Definition lower_un_op (op : UnOp) : HIRUnaryOp :=
  match op with
  | Plus => HNeg
  | Neg => HNeg
  | Not => HNot
  | BitNot => HBitNot
  | Ref => HRefOp
  | RefMut => HRefMutOp
  | Deref => HDerefOp
  | DerefMut => HDerefOp
  end.

Definition lower_bin_op (op : BinOp) : HIRBinaryOp :=
  match op with
  | BAdd => HAdd | BSub => HSub | BMul => HMul | BDiv => HDiv | BMod => HMod
  | BBitAnd => HBitAnd | BBitOr => HBitOr | BBitXor => HBitXor | BShl => HShl | BShr => HShr
  | BAnd => HLogAnd | BOr => HLogOr
  | BEq => HEq | BNotEq => HNotEq | BLt => HLt | BLe => HLe | BGt => HGt | BGe => HGe
  | _ => HAdd
  end.

Definition lower_assign_op (op : AssignOp) : HIRBinaryOp :=
  match op with
  | AAddAssign => HAdd | ASubAssign => HSub | AMulAssign => HMul | ADivAssign => HDiv | AModAssign => HMod
  | ABitAndAssign => HBitAnd | ABitOrAssign => HBitOr | ABitXorAssign => HBitXor
  | AShlAssign => HShl | AShrAssign => HShr
  | _ => HAdd
  end.

(** ** Patterns and expressions *)

(** [.ok()], and [filter_map] with it. *)
Definition ok {A E} (r : result A E) : option A := match r with Ok a => Some a | Err _ => None end.
Definition all_ok {A E} (l : list (result A E)) : list A := omap ok l.

Definition last_name (p : Path) : string :=
  match last (path_segments p) with Some s => ident_name s | None => EmptyString end.

Section lowering.
Context (index : EnumVariantIndex) (coverage : bool) (type_env : TypeEnv).

Definition variant_discriminant (enum_name variant_name : string) : option Z :=
  match index !! enum_name with Some variants => variants !! variant_name | None => None end.

Definition enum_variant_pattern (enum_name variant_name : string) (fields : list (string * option HIRPattern)) :
    option HIRPattern :=
  match variant_discriminant enum_name variant_name with
  | Some discriminant => Some (HPEnumVariant discriminant fields)
  | None => None
  end.

Definition enum_constructor (p : Path) : option (string * string * Z) :=
  match path_segments p with
  | [e; v] =>
      match variant_discriminant (ident_name e) (ident_name v) with
      | Some discriminant => Some (ident_name e, ident_name v, discriminant)
      | None => None
      end
  | _ => None
  end.

(** The variant a path names: by its first segment, else in the enum of the
    scrutinee. *)
Definition path_variant (p : Path) (scrutinee_enum : option string) (fields : list (string * option HIRPattern)) :
    option HIRPattern :=
  let qualified :=
    match path_segments p with
    | e :: _ :: _ => enum_variant_pattern (ident_name e) (last_name p) fields
    | _ => None
    end in
  match qualified, scrutinee_enum with
  | Some variant, _ => Some variant
  | None, Some enum_name => enum_variant_pattern enum_name (last_name p) fields
  | None, None => None
  end.

(** The fields of a tuple pattern are named by their positions. *)
Fixpoint numbered (i : nat) (l : list (result HIRPattern string)) : list (string * option HIRPattern) :=
  match l with
  | [] => []
  | Ok sub :: l => ("_" +:+ pretty i, Some sub) :: numbered (S i) l
  | Err _ :: l => numbered (S i) l
  end.

Fixpoint or_patterns (acc : option HIRPattern) (l : list (result HIRPattern string)) : result HIRPattern string :=
  match l with
  | [] => Ok (match acc with Some p => p | None => HPWild end)
  | r :: l =>
      let? lowered := r in
      or_patterns (Some (match acc with Some left_ => HPOr left_ lowered | None => lowered end)) l
  end.

Fixpoint lower_pattern (scrutinee_enum : option string) (pat : Pattern) : result HIRPattern string :=
  match pat with mkPattern kind _ =>
    match kind with
    | PWildcard _ => Ok HPWild
    | PLiteral _ lit => Ok (HPLit (lower_literal lit))
    | PIdent _ name => Ok (HPVar (ident_name name) (ident_symbol name) false)
    | PPath _ path =>
        Ok (match path_variant path scrutinee_enum [] with
            | Some variant => variant
            | None => HPStruct (last_name path) []
            end)
    | PTupleStruct _ path patterns =>
        let fields := numbered 0 (map (lower_pattern scrutinee_enum) patterns) in
        Ok (match path_variant path scrutinee_enum fields with
            | Some variant => variant
            | None => HPStruct (last_name path) fields
            end)
    | PStruct _ path fields _ =>
        Ok (HPStruct (last_name path)
              (all_ok (map (fun f => let? sub := lower_pattern scrutinee_enum (spf_pattern _ f) in
                                     Ok (ident_name (spf_name _ f), Some sub)) fields)))
    | PTuple _ pats => Ok (HPTuple (all_ok (map (lower_pattern scrutinee_enum) pats)))
    | POr _ alts => or_patterns None (map (lower_pattern scrutinee_enum) alts)
    | PSlice _ _ _ | PRange _ _ _ _ => Ok HPWild
    end
  end.

Definition lower_arm_pattern (patterns : list Pattern) (scrutinee_enum : option string) : result HIRPattern string :=
  match patterns with
  | [] => Err "match arm requires at least one pattern"
  | first :: rest =>
      let? p := lower_pattern scrutinee_enum first in
      or_patterns (Some p) (map (lower_pattern scrutinee_enum) rest)
  end.

Definition extract_pattern_var_name (pat : Pattern) : string * Z :=
  match pat with
  | mkPattern (PIdent _ name) _ => (ident_name name, ident_symbol name)
  | _ => ("_loop", SYMBOL_INVALID)
  end.

Definition scrutinee_enum_name (scrutinee : Expr) : option string :=
  match expr_kind scrutinee with
  | EIdent ident =>
      match TypeEnv.lookup (ident_name ident) type_env with
      | Some symbol =>
          match sym_kind symbol with
          | SymVar ty _ => match ty_kind ty with TAdt name _ => Some name | _ => None end
          | _ => None
          end
      | None => None
      end
  | _ => None
  end.

Section bodies.
Context (lower_expr : Expr -> result HIRExpr string).

Definition marker (site_lo : Z) : list HIRStmt := if coverage then [HCoverage site_lo] else [].

(** One statement that is not the final expression. *)
Definition lower_stmt (stmt : AStmt) : list HIRStmt :=
  let lo := span_lo (stmt_span stmt) in
  HSource lo ::
  match stmt_kind stmt with
  | SLet name ty value is_mut =>
      let hir_ty :=
        match ty, value with
        | Some annotation, _ => lower_type annotation
        | None, Some value => infer_expr_type value
        | None, None => hir_unit
        end in
      marker lo ++
      [HLet (ident_name name) (ident_symbol name) hir_ty
         (match value with Some v => ok (lower_expr v) | None => None end) is_mut]
  | SConst name ty value =>
      let hir_value := match lower_expr value with Ok v => v | Err _ => HLit HLNull end in
      marker lo ++ [HLet (ident_name name) (ident_symbol name) (lower_type ty) (Some hir_value) false]
  | SExpr e =>
      match lower_expr e with
      | Ok hir => marker lo ++ [HSExpr hir]
      | Err _ => []
      end
  | SItem _ => []
  end%list.

Fixpoint lower_stmts (stmts : list AStmt) : HIRBody :=
  match stmts with
  | [] => body_new
  | [stmt] =>
      match stmt_kind stmt with
      | SExpr e =>
          match lower_expr e with
          | Ok hir => mkBody (HSource (span_lo (stmt_span stmt)) :: marker (span_lo (stmt_span stmt))) (Some hir)
          | Err _ => body_new
          end
      | _ => mkBody (lower_stmt stmt) None
      end
  | stmt :: rest =>
      let body := lower_stmts rest in mkBody (lower_stmt stmt ++ body_stmts body)%list (body_expr body)
  end.

Definition lower_body (block : ABlock) : HIRBody := lower_stmts (block_stmts block).

Definition lower_arm (scrutinee_enum : option string) (arm : MatchArm Expr) : result HIRMatchArm string :=
  let? pat := lower_arm_pattern (arm_patterns arm) scrutinee_enum in
  let guard := match arm_guard arm with Some g => ok (lower_expr g) | None => None end in
  let? body := lower_expr (arm_body arm) in
  Ok (mkHIRArm pat guard body).

Definition lower_opt (o : option Expr) : option HIRExpr := match o with Some e => ok (lower_expr e) | None => None end.

(** The else branch becomes a block of its own, [else ()] none. *)
Definition lower_else (e : Expr) : option HIRBody :=
  match e with mkExpr kind span =>
    match kind with
    | ELiteral LUnit => None
    | EBlock block => Some (lower_body block)
    | _ =>
        match lower_expr e with
        | Ok hir => Some (mkBody (HSource (span_lo span) :: marker (span_lo span)) (Some hir))
        | Err _ => Some body_new
        end
    end
  end.

Definition lower_field (fv : FieldValue Expr) : result (string * HIRExpr) string :=
  let name := match fv_name fv with FieldIdent ident => ident_name ident | FieldString s => s end in
  let? value := lower_expr (fv_value fv) in Ok (name, value).
End bodies.

Fixpoint lower_expr (e : Expr) : result HIRExpr string :=
  match e with mkExpr kind span =>
    match kind with
    | ELiteral lit => Ok (HLit (lower_literal lit))
    | EIdent name => Ok (HVar (ident_name name) (ident_symbol name))
    | EPath path =>
        Ok (match enum_constructor path with
            | Some (enum_name, variant_name, discriminant) => HEnumConstruct enum_name variant_name discriminant []
            | None =>
                match as_simple path with
                | Some ident => HVar (ident_name ident) (ident_symbol ident)
                | None => HVar (String.concat "_" (map ident_name (path_segments path))) SYMBOL_INVALID
                end
            end)
    | EUnary op operand => let? operand := lower_expr operand in Ok (HUnary (lower_un_op op) operand)
    | EBinary op l r =>
        let? l := lower_expr l in
        let? r := lower_expr r in
        Ok (HBinary (lower_bin_op op) l r)
    | EIf cond then_branch else_branch =>
        let? cond := lower_expr cond in
        Ok (HIf cond (lower_body lower_expr then_branch)
              (match else_branch with Some e => lower_else lower_expr e | None => None end))
    | EMatch scrutinee arms =>
        let scrutinee_enum := scrutinee_enum_name scrutinee in
        let? scrutinee := lower_expr scrutinee in
        Ok (HMatch scrutinee (all_ok (map (lower_arm lower_expr scrutinee_enum) arms)))
    | ELoop body => Ok (HLoop (lower_body lower_expr body))
    | EWhile cond body => let? cond := lower_expr cond in Ok (HWhile cond (lower_body lower_expr body))
    | EFor pattern iter body =>
        let '(var_name, var_symbol) := extract_pattern_var_name pattern in
        let? iter := lower_expr iter in
        Ok (HFor var_name var_symbol iter (lower_body lower_expr body))
    | ECall func args =>
        let args := all_ok (map lower_expr args) in
        let return_type := lower_checked_type <$> resolved_call_return_type (span_lo span) type_env in
        match resolved_associated_function (span_lo span) type_env with
        | Some resolved => Ok (HCall (HVar resolved SYMBOL_INVALID) args (Some (span_lo span)) return_type)
        | None =>
            match (match expr_kind func with EPath path => enum_constructor path | _ => None end) with
            | Some (enum_name, variant_name, discriminant) => Ok (HEnumConstruct enum_name variant_name discriminant args)
            | None => let? func := lower_expr func in Ok (HCall func args (Some (span_lo span)) return_type)
            end
        end
    | EMethodCall receiver method args =>
        let? receiver := lower_expr receiver in
        Ok (HMethodCall receiver (ident_name method) (all_ok (map lower_expr args))
              (lower_checked_type <$> resolved_method_return_type span type_env))
    | EStruct path fields _ =>
        Ok (HStruct (match as_simple path with Some i => ident_name i | None => EmptyString end)
              (all_ok (map (lower_field lower_expr) fields))
              (lower_checked_type <$> resolved_struct_literal_type span type_env))
    | EArray elems => Ok (HArray (all_ok (map lower_expr elems)))
    | EIndex base index =>
        let? base := lower_expr base in
        let? index := lower_expr index in
        Ok (HIndex base index)
    | EField base field => let? base := lower_expr base in Ok (HField base (ident_name field))
    | EAssign target value =>
        let? target := lower_expr target in
        let? value := lower_expr value in
        Ok (HAssign target value)
    | EAssignOp op target value =>
        let? target := lower_expr target in
        let? value := lower_expr value in
        Ok (HAssignOp target (lower_assign_op op) value)
    | EReturn value => Ok (HReturn (lower_opt lower_expr value))
    | EBreak value => Ok (HBreak (lower_opt lower_expr value))
    | EContinue => Ok HContinue
    | EBlock block => Ok (HBlock (lower_body lower_expr block))
    | ECast e ty => let? e := lower_expr e in Ok (HCast e (lower_type ty))
    | ETuple elems => Ok (HTupleE (all_ok (map lower_expr elems)))
    | ERange start end_ inclusive => Ok (HRange (lower_opt lower_expr start) (lower_opt lower_expr end_) inclusive)
    | EIs e _ => lower_expr e
    | EParen e => lower_expr e
    | ETry e => let? e := lower_expr e in Ok (HTry e)
    | ETryBlock block => Ok (HTryBlock (lower_body lower_expr block))
    | EYield value => Ok (match lower_opt lower_expr value with Some v => v | None => HLit HLNull end)
    | EAwait e => let? e := lower_expr e in Ok (HAwait e)
    | EAsyncBlock block => Ok (HAsyncBlock (lower_body lower_expr block))
    | EParallelBlock block => Ok (HBlock (lower_body lower_expr block))
    | ELambda params body => let? body := lower_expr body in Ok (HLambda (map ident_name params) body)
    end
  end.
End lowering.
