(* ===== verification/HirItems.v ===== *)
(** Lowering declarations and whole programs to the HIR:
    compiler/src/hir/lower.rs.

    A class becomes a struct with the fields of its ancestors and an impl with
    the methods it has or inherits.  The search along the parents carries the
    set of class names on the way, which stops it on a circular hierarchy; the
    fuel, two more than the number of classes, is never used up
    ([class_fields_total], [class_methods_total] of HirClasses). *)

From S2P Require Import Prelude Ty Ast TypeEnv Hir HirLower.
From stdpp Require Import pretty.
From Stdlib Require Import String.

#[local] Open Scope string_scope.

Arguments fn_vis {E D}.
Arguments fn_name {E D}.
Arguments fn_type_params {E D}.
Arguments fn_params {E D}.
Arguments fn_self_param {E D}.
Arguments fn_return_type {E D}.
Arguments fn_precondition {E D}.
Arguments fn_postcondition {E D}.
Arguments fn_is_async {E D}.
Arguments fn_abi {E D}.
Arguments fn_is_unsafe {E D}.
Arguments fn_no_mangle {E D}.
Arguments fn_export_name {E D}.
Arguments cl_vis {E D}.
Arguments cl_name {E D}.
Arguments cl_type_params {E D}.
Arguments cl_extends {E D}.
Arguments cl_implements {E D}.
Arguments cl_members {E D}.
Arguments CMField {E D}.
Arguments CMMethod {E D}.
Arguments tr_vis {E D}.
Arguments tr_name {E D}.
Arguments tr_type_params {E D}.
Arguments tr_items {E D}.
Arguments TIFunction {E D}.
Arguments TIConst {E D}.
Arguments TIType {E D}.
Arguments im_target_type {E D}.
Arguments im_trait_path {E D}.
Arguments im_trait_args {E D}.
Arguments im_associated_types {E D}.
Arguments im_items {E D}.

Notation AFunction := (Function_ Expr Decl) (only parsing).
Notation AClass := (Class_ Expr Decl) (only parsing).
Notation ATrait := (Trait Expr Decl) (only parsing).
Notation AImpl := (Impl Expr Decl) (only parsing).

Definition is_public (v : Visibility) : bool := match v with Public => true | Private => false end.
(** [SelfParam::is_ref] and [SelfParam::is_mut]. *)
Definition self_is_ref (s : SelfParam) : bool := match s with Borrowed | BorrowedMut => true | _ => false end.
Definition self_is_mut (s : SelfParam) : bool := match s with BorrowedMut | OwnedMut => true | _ => false end.

(** ** Indices of classes and traits *)

Definition build_class_index (program : Program) : gmap string AClass :=
  fold_left (fun index decl =>
      match decl_kind decl with DClass _ _ c => <[ident_name (cl_name c) := c]> index | _ => index end)
    (program_decls program) ∅.

Definition build_trait_index (program : Program) : gmap string ATrait :=
  fold_left (fun index decl =>
      match decl_kind decl with DTrait _ _ t => <[ident_name (tr_name t) := t]> index | _ => index end)
    (program_decls program) ∅.

Definition path_simple_name (p : Path) : option string :=
  match as_simple p with
  | Some ident => Some (ident_name ident)
  | None => ident_name <$> last (path_segments p)
  end.

Definition lower_type_param (param : TypeParam) : HIRTypeParam :=
  mkHIRTypeParam (ident_name (tp_name param)) (map (fun b => path_to_string (tb_path _ b)) (tp_bounds param))
    (lower_type <$> tp_default param).

(** ** Classes *)

Definition class_parent_name (class_decl : AClass) (class_index : gmap string AClass) : option string :=
  match cl_extends class_decl with
  | None => None
  | Some path =>
      match path_simple_name path with
      | None => None
      | Some parent => if bool_decide (parent ∈ dom class_index) then Some parent else None
      end
  end.

Definition class_header_trait_paths (class_decl : AClass) (class_index : gmap string AClass) : list string :=
  (match cl_extends class_decl with
   | None => []
   | Some path =>
       match path_simple_name path with
       | None => []
       | Some name => if bool_decide (name ∈ dom class_index) then [] else [name]
       end
   end ++
   omap (fun bound => path_simple_name (tb_path _ bound)) (cl_implements class_decl))%list.

Definition cyclic_error (class_name : string) : string :=
  "cyclic class inheritance detected while lowering `" +:+ class_name +:+ "`".

(** An effective field: its name and its declaration. *)
Notation EffectiveClassField := (string * StructField)%type (only parsing).

(** The class's own fields, after those it inherits. *)
Fixpoint add_class_fields (class_name : string) (field_index : nat) (members : list (ClassMember Expr Decl))
    (merged_fields : list EffectiveClassField) (seen_names : gset string) : result (list EffectiveClassField) string :=
  match members with
  | [] => Ok merged_fields
  | CMMethod _ :: members => add_class_fields class_name (S field_index) members merged_fields seen_names
  | CMField field :: members =>
      let field_name := match sf_name field with Some ident => ident_name ident | None => "_" +:+ pretty field_index end in
      if bool_decide (field_name ∈ seen_names)
      then Err ("duplicate inherited field `" +:+ field_name +:+ "` in class `" +:+ class_name +:+ "`")
      else add_class_fields class_name (S field_index) members (merged_fields ++ [(field_name, field)])%list
             ({[field_name]} ∪ seen_names)
  end.

Fixpoint resolve_effective_class_fields (fuel : nat) (class_decl : AClass) (class_index : gmap string AClass)
    (visiting : gset string) : option (result (list EffectiveClassField * gset string) string) :=
  match fuel with
  | O => None
  | S fuel =>
      let class_name := ident_name (cl_name class_decl) in
      if bool_decide (class_name ∈ visiting) then Some (Err (cyclic_error class_name))
      else
        let visiting := {[class_name]} ∪ visiting in
        let* inherited :=
          match class_parent_name class_decl class_index with
          | None => Some (Ok ([], visiting))
          | Some parent_name =>
              match class_index !! parent_name with
              | None => Some (Err ("class `" +:+ class_name +:+ "` extends unknown parent `" +:+ parent_name +:+ "`"))
              | Some parent_decl => resolve_effective_class_fields fuel parent_decl class_index visiting
              end
          end in
        Some (
          let? (merged_fields, visiting) := inherited in
          let? fields := add_class_fields class_name 0 (cl_members class_decl) merged_fields
                           (list_to_set (fst <$> merged_fields)) in
          Ok (fields, visiting ∖ {[class_name]}))
  end.

(** The class's own methods: one that overrides takes the place of the
    inherited one. *)
Fixpoint add_class_methods (class_name : string) (members : list (ClassMember Expr Decl)) (local_seen : gset string)
    (methods : list AFunction) (index_by_name : gmap string nat) : result (list AFunction * gmap string nat) string :=
  match members with
  | [] => Ok (methods, index_by_name)
  | CMField _ :: members => add_class_methods class_name members local_seen methods index_by_name
  | CMMethod method :: members =>
      let method_name := ident_name (fn_name method) in
      if bool_decide (method_name ∈ local_seen)
      then Err ("duplicate method `" +:+ method_name +:+ "` in class `" +:+ class_name +:+ "`")
      else
        let local_seen := {[method_name]} ∪ local_seen in
        match index_by_name !! method_name with
        | Some existing_index =>
            add_class_methods class_name members local_seen (<[existing_index := method]> methods) index_by_name
        | None =>
            add_class_methods class_name members local_seen (methods ++ [method])%list
              (<[method_name := List.length methods]> index_by_name)
        end
  end.

(** Default methods of the traits in the class header, where the class has none. *)
Definition add_default_method (s : list AFunction * gmap string nat) (item : TraitItem Expr Decl) :
    list AFunction * gmap string nat :=
  let '(methods, index_by_name) := s in
  match item with
  | TIFunction method =>
      match block_stmts (fn_body method) with
      | [] => s
      | _ =>
          let method_name := ident_name (fn_name method) in
          if bool_decide (method_name ∈ dom index_by_name) then s
          else ((methods ++ [method])%list, <[method_name := List.length methods]> index_by_name)
      end
  | _ => s
  end.

Definition add_trait_methods (trait_index : gmap string ATrait) (s : list AFunction * gmap string nat) (trait_name : string) :
    list AFunction * gmap string nat :=
  match trait_index !! trait_name with
  | Some trait_decl => fold_left add_default_method (tr_items trait_decl) s
  | None => s
  end.

Definition positions_by_name (methods : list AFunction) : gmap string nat :=
  (fold_left (fun s method => let '(i, m) := s in (S i, <[ident_name (fn_name method) := i]> m)) methods (O, ∅)).2.

Fixpoint resolve_effective_class_methods (fuel : nat) (class_decl : AClass) (class_index : gmap string AClass)
    (trait_index : gmap string ATrait) (visiting : gset string) : option (result (list AFunction * gset string) string) :=
  match fuel with
  | O => None
  | S fuel =>
      let class_name := ident_name (cl_name class_decl) in
      if bool_decide (class_name ∈ visiting) then Some (Err (cyclic_error class_name))
      else
        let visiting := {[class_name]} ∪ visiting in
        let* inherited :=
          match class_parent_name class_decl class_index with
          | None => Some (Ok ([], visiting))
          | Some parent_name =>
              match class_index !! parent_name with
              | None => Some (Err ("class `" +:+ class_name +:+ "` extends unknown parent `" +:+ parent_name +:+ "`"))
              | Some parent_decl => resolve_effective_class_methods fuel parent_decl class_index trait_index visiting
              end
          end in
        Some (
          let? (resolved, visiting) := inherited in
          let? s := add_class_methods class_name (cl_members class_decl) ∅ resolved (positions_by_name resolved) in
          let '(methods, _) := fold_left (add_trait_methods trait_index) (class_header_trait_paths class_decl class_index) s in
          Ok (methods, visiting ∖ {[class_name]}))
  end.

Definition class_fuel (class_index : gmap string AClass) : nat := S (S (size class_index)).

(** ** Declarations *)

Section items.
Context (index : gmap string (gmap string Z)) (coverage : bool) (type_env : TypeEnv).

Notation lower_expr := (lower_expr index coverage type_env).
Notation lower_body := (lower_body coverage lower_expr).

Definition lower_contract (o : option Expr) : result (option HIRExpr) string :=
  match o with
  | None => Ok None
  | Some e => let? hir := lower_expr e in Ok (Some hir)
  end.

Definition lower_param (p : Param) : HIRParam :=
  param_new (ident_name (param_name p)) (ident_symbol (param_name p)) (lower_type (param_ty p)).

Definition self_params (self_param : option SelfParam) (self_type : option HIRType) : list HIRParam :=
  match self_param, self_type with
  | Some self_param, Some ty =>
      [if self_is_ref self_param
       then param_borrowed "self" SYMBOL_INVALID (if self_is_mut self_param then hir_reference true ty else ty)
       else param_new "self" SYMBOL_INVALID ty]
  | _, _ => []
  end.

Definition lower_return_type (ty : option AstType) : HIRType :=
  match ty with Some t => lower_type t | None => hir_unit end.

Definition lower_function_with_self (fn_decl : AFunction) (self_type : option HIRType) (type_prefix : option string) :
    result HIRFunction string :=
  let name := match type_prefix with
              | Some prefix => prefix +:+ "_" +:+ ident_name (fn_name fn_decl)
              | None => ident_name (fn_name fn_decl)
              end in
  let params := (self_params (fn_self_param fn_decl) self_type ++ map lower_param (fn_params fn_decl))%list in
  let? precondition := lower_contract (fn_precondition fn_decl) in
  let? postcondition := lower_contract (fn_postcondition fn_decl) in
  Ok (mkHIRFunction name (map lower_type_param (fn_type_params fn_decl)) params
        (lower_return_type (fn_return_type fn_decl)) precondition postcondition (lower_body (fn_body fn_decl))
        (fn_is_async fn_decl) (fn_abi fn_decl) (fn_is_unsafe fn_decl) (fn_no_mangle fn_decl) (fn_export_name fn_decl)
        (is_public (fn_vis fn_decl))).

Definition lower_function (fn_decl : AFunction) : result HIRFunction string := lower_function_with_self fn_decl None None.

Definition lower_extern_item (item : ExternItem) : HIRExternItem :=
  match item with
  | XFunction f =>
      HXFunction (mkHIRExternFunction (ident_name (xf_name f)) (map lower_param (xf_params f))
                    (lower_return_type (xf_return_type f)) (xf_is_unsafe f) (is_public (xf_vis f)))
  | XStatic s =>
      HXStatic (mkHIRExternStatic (ident_name (xs_name s)) (lower_type (xs_ty s)) (xs_is_mut s) (is_public (xs_vis s)))
  end.

Definition lower_extern_block (b : ExternBlock) : result HIRExternBlock string :=
  Ok (mkHIRExternBlock (xb_abi b) (xb_link_name b) (map lower_extern_item (xb_items b))).

Definition field_name_or (i : nat) (name : option Ident) : string :=
  match name with Some ident => ident_name ident | None => "_" +:+ pretty i end.

Definition lower_struct (s : Struct) : result HIRStruct string :=
  Ok (mkHIRStruct (ident_name (st_name s)) (map lower_type_param (st_type_params s))
        (imap (fun i f => mkHIRField (field_name_or i (sf_name f)) (lower_type (sf_ty f)) (is_public (sf_vis f))) (st_fields s))
        (is_public (st_vis s))).

Definition is_unnamed (f : VariantField) : bool := match f with VUnnamed _ => true | VNamed _ _ => false end.
Definition variant_field (f : VariantField) : option HIRField :=
  match f with VNamed ident ty => Some (mkHIRField (ident_name ident) (lower_type ty) true) | VUnnamed _ => None end.

Definition lower_variant (v : EnumVariant Expr) : HIRVariant :=
  let name := ident_name (ev_name _ v) in
  match ev_fields _ v with
  | [] => HVUnit name
  | [VUnnamed ty] => HVTuple name [lower_type ty]
  | [VNamed ident ty] => HVStruct name [mkHIRField (ident_name ident) (lower_type ty) true]
  | fields =>
      if forallb is_unnamed fields
      then HVTuple name (map (fun f => match f with VUnnamed ty => lower_type ty | VNamed _ _ => mkHIRType HTError end) fields)
      else HVStruct name (omap variant_field fields)
  end.

Definition lower_enum (e : Enum Expr) : result HIREnum string :=
  Ok (mkHIREnum (ident_name (en_name _ e)) (map lower_type_param (en_type_params _ e))
        (map lower_variant (en_variants _ e)) (is_public (en_vis _ e))).

Definition lower_class_bundle (class_decl : AClass) (class_index : gmap string AClass) (trait_index : gmap string ATrait) :
    option (result (HIRStruct * option HIRImpl) string) :=
  let name := ident_name (cl_name class_decl) in
  let* fields := resolve_effective_class_fields (class_fuel class_index) class_decl class_index ∅ in
  match fields with
  | Err e => Some (Err e)
  | Ok (effective_fields, _) =>
      let class_struct :=
        mkHIRStruct name (map lower_type_param (cl_type_params class_decl))
          (map (fun '(n, f) => mkHIRField n (lower_type (sf_ty f)) (is_public (sf_vis f))) effective_fields)
          (is_public (cl_vis class_decl)) in
      let* methods := resolve_effective_class_methods (class_fuel class_index) class_decl class_index trait_index ∅ in
      Some (
        let? (effective_methods, _) := methods in
        let self_ty := hir_named name [] in
        let impl_items := all_ok (map (fun m => lower_function_with_self m (Some self_ty) (Some name)) effective_methods) in
        Ok (class_struct,
            match impl_items with
            | [] => None
            | _ => Some (mkHIRImpl self_ty None [] [] impl_items)
            end))
  end.

Definition lower_class (class_decl : AClass) : option (result HIRStruct string) :=
  let* bundle := lower_class_bundle class_decl {[ident_name (cl_name class_decl) := class_decl]} ∅ in
  Some (let? (class_struct, _) := bundle in Ok class_struct).

Definition lower_trait_item (item : TraitItem Expr Decl) : HIRTraitItem :=
  match item with
  | TIFunction fn_decl => match lower_function fn_decl with Ok f => HTIFunction f | Err _ => HTIType "_error" end
  | TIConst c => HTIConst (ident_name (co_name _ c)) (lower_type (co_ty _ c))
  | TIType t => HTIType (ident_name (at_name t))
  end.

Definition lower_trait (t : ATrait) : result HIRTrait string :=
  Ok (mkHIRTrait (ident_name (tr_name t)) (map lower_type_param (tr_type_params t)) (map lower_trait_item (tr_items t))
        (is_public (tr_vis t))).

(** The receiver of [drop] is passed by value. *)
Definition fix_drop_receiver (trait_name : option string) (fn_decl : AFunction) (target_type : HIRType) (f : HIRFunction) :
    HIRFunction :=
  if bool_decide (trait_name = Some "Drop") && String.eqb (ident_name (fn_name fn_decl)) "drop" then
    match hf_params f with
    | [] => f
    | receiver :: params =>
        mkHIRFunction (hf_name f) (hf_type_params f) (param_with_type target_type receiver :: params) (hf_return_type f)
          (hf_precondition f) (hf_postcondition f) (hf_body f) (hf_is_async f) (hf_abi f) (hf_is_unsafe f)
          (hf_no_mangle f) (hf_export_name f) (hf_is_pub f)
    end
  else f.

Definition lower_impl (i : AImpl) : result HIRImpl string :=
  let target_type := lower_type (im_target_type i) in
  let trait_name := im_trait_path i ≫= fun p => ident_name <$> as_simple p in
  let items := all_ok (map (fun fn_decl =>
      let? f := lower_function_with_self fn_decl (Some target_type) (Some (hir_type_prefix target_type)) in
      Ok (fix_drop_receiver trait_name fn_decl target_type f)) (im_items i)) in
  Ok (mkHIRImpl target_type trait_name (map lower_type (im_trait_args i))
        (map (fun b => (ident_name (ta_name b), lower_type (ta_ty b))) (im_associated_types i)) items).

Definition lower_const (c : Const Expr) : result HIRConst string :=
  let? value := lower_expr (co_value _ c) in
  Ok (mkHIRConst (ident_name (co_name _ c)) (lower_type (co_ty _ c)) value (is_public (co_vis _ c))).

Definition lower_static (s : Static Expr) : result HIRStatic string :=
  let? value := lower_expr (sc_value _ s) in
  Ok (mkHIRStatic (ident_name (sc_name _ s)) (lower_type (sc_ty _ s)) value (sc_is_mut _ s) (is_public (sc_vis _ s))).

Definition lower_type_alias (t : TypeAlias) : result HIRTypeAlias string :=
  Ok (mkHIRTypeAlias (ident_name (ta_name t)) (map lower_type_param (ta_type_params t)) (lower_type (ta_ty t))
        (is_public (ta_vis t))).

Definition map_ok {A B} (f : A -> B) (r : result A string) : result B string := let? a := r in Ok (f a).

Definition lower_decl (decl : Decl) : option (result HIRItem string) :=
  match decl_kind decl with
  | DFunction f => Some (map_ok HIFunction (lower_function f))
  | DExternBlock _ _ b => Some (map_ok HIExternBlock (lower_extern_block b))
  | DStruct _ _ s => Some (map_ok HIStruct (lower_struct s))
  | DEnum _ _ e => Some (map_ok HIEnum (lower_enum e))
  | DClass _ _ c => let* s := lower_class c in Some (map_ok HIStruct s)
  | DTrait _ _ t => Some (map_ok HITrait (lower_trait t))
  | DImpl _ _ i => Some (map_ok HIImpl (lower_impl i))
  | DConst _ _ c => Some (map_ok HIConst (lower_const c))
  | DStatic _ _ s => Some (map_ok HIStatic (lower_static s))
  | DTypeAlias _ _ t => Some (map_ok HITypeAlias (lower_type_alias t))
  | DImport _ _ _ | DModule _ _ _ => Some (Err "Unsupported item type")
  end.

(** The items one declaration adds to the module. *)
Definition lower_top (class_index : gmap string AClass) (trait_index : gmap string ATrait) (decl : Decl) :
    option (list HIRItem) :=
  match decl_kind decl with
  | DClass _ _ class_decl =>
      let* bundle := lower_class_bundle class_decl class_index trait_index in
      Some (match bundle with
            | Ok (class_struct, class_impl) => HIStruct class_struct :: match class_impl with Some i => [HIImpl i] | None => [] end
            | Err _ => []
            end)
  | _ =>
      let* item := lower_decl decl in
      Some (match item with Ok item => [item] | Err _ => [] end)
  end.

Fixpoint lower_decls (class_index : gmap string AClass) (trait_index : gmap string ATrait) (decls : list Decl)
    (module : HIRModule) : option HIRModule :=
  match decls with
  | [] => Some module
  | decl :: decls =>
      let* items := lower_top class_index trait_index decl in
      lower_decls class_index trait_index decls (fold_left (fun m item => add_item item m) items module)
  end.
End items.

Definition lower_ast_inner (index : gmap string (gmap string Z)) (coverage : bool) (program : Program) (type_env : TypeEnv) :
    option HIRModule :=
  lower_decls index coverage type_env (build_class_index program) (build_trait_index program) (program_decls program)
    (module_new "main").

(** [lower_ast], and [lower_ast_with_coverage] for [coverage = true]. *)
Definition lower_ast (coverage : bool) (program : Program) (type_env : TypeEnv) : option HIRModule :=
  lower_ast_inner (build_enum_variant_index program) coverage program type_env.
