(* ===== verification/HirClasses.v ===== *)
(** Flattening class hierarchies, correctly: [resolve_effective_class_fields]
    and [resolve_effective_class_methods] of HirItems.

    Both walk along the parents of a class and merge on the way back; the walk
    is described once, for any merge ([resolve_chain]), by the relation [chain].
    [class_layout_exact] and [class_dispatch_exact] are what it means for fields
    and for methods. *)

From S2P Require Import Prelude Ast HirLower HirItems.
From Stdlib Require Import String.

#[local] Open Scope string_scope.

Definition class_name_of (c : AClass) : string := ident_name (cl_name c).

(** ** The walk along the parents *)

Section chain.
Context (C : gmap string AClass) {X : Type} (finish : AClass -> list X -> result (list X) string).

Definition class_parent (c : AClass) : option AClass := class_parent_name c C ≫= fun n => C !! n.

Fixpoint resolve_chain (fuel : nat) (c : AClass) (visiting : gset string) : option (result (list X * gset string) string) :=
  match fuel with
  | O => None
  | S fuel =>
      if bool_decide (class_name_of c ∈ visiting) then Some (Err (cyclic_error (class_name_of c)))
      else
        let visiting := {[class_name_of c]} ∪ visiting in
        let* inherited :=
          match class_parent_name c C with
          | None => Some (Ok ([], visiting))
          | Some n =>
              match C !! n with
              | None => Some (Err ("class `" +:+ class_name_of c +:+ "` extends unknown parent `" +:+ n +:+ "`"))
              | Some p => resolve_chain fuel p visiting
              end
          end in
        Some (let? (l, visiting) := inherited in let? l := finish c l in Ok (l, visiting ∖ {[class_name_of c]}))
  end.

(** What a class has, from what its parent has. *)
Inductive chain : AClass -> list X -> Prop :=
| chain_root c l : class_parent c = None -> finish c [] = Ok l -> chain c l
| chain_child c p pl l : class_parent c = Some p -> chain p pl -> finish c pl = Ok l -> chain c l.

Definition extends (c p : AClass) : Prop := class_parent c = Some p.
Definition index_wf : Prop := forall n c, C !! n = Some c -> class_name_of c = n.

Lemma chain_det c l l' : chain c l -> chain c l' -> l = l'.
Proof.
  intros H. revert l'. induction H as [c l Hp Hf|c p pl l Hp Hc IH Hf]; intros l' H'; inversion H'; subst; try congruence.
  assert (p0 = p) as -> by congruence. apply IH in H0. congruence.
Qed.

Lemma parent_cases c : class_parent_name c C = None /\ class_parent c = None \/
  exists n p, class_parent_name c C = Some n /\ C !! n = Some p /\ class_parent c = Some p.
Proof.
  unfold class_parent. destruct (class_parent_name c C) as [n|] eqn:E; [right|by left].
  assert (n ∈ dom C) as [p Hp]%elem_of_dom; [|by exists n, p; cbn; rewrite Hp].
  unfold class_parent_name in E. repeat case_match; simplify_eq. by eapply bool_decide_eq_true.
Qed.

Lemma resolve_sound fuel c V l V' : resolve_chain fuel c V = Some (Ok (l, V')) -> chain c l.
Proof.
  revert c V l V'. induction fuel as [|fuel IH]; intros c V l V' H; [done|]. cbn in H. case_bool_decide; [done|].
  destruct (parent_cases c) as [[E Ep]|(n & p & E & Hn & Ep)]; rewrite E in H.
  - repeat case_match; simplify_eq/=. by eapply chain_root.
  - rewrite Hn in H. repeat case_match; simplify_eq/=. eapply chain_child; [done|by eapply IH|done].
Qed.

Lemma resolve_indexed fuel p V n :
  index_wf -> C !! n = Some p -> (size (dom C ∖ V) < fuel)%nat -> is_Some (resolve_chain fuel p V).
Proof.
  intros Hwf. revert p V n. induction fuel as [|fuel IH]; intros p V n Hn Hf; [lia|]. cbn. case_bool_decide as Hv; [eauto|].
  destruct (parent_cases p) as [[E Ep]|(m & q & E & Hm & Ep)]; rewrite E; [eauto|]. rewrite Hm.
  destruct (IH q ({[class_name_of p]} ∪ V) m) as [r ->]; [done| |eauto].
  assert (dom C ∖ ({[class_name_of p]} ∪ V) ⊂ dom C ∖ V) as Hs%subset_size; [|lia].
  assert (class_name_of p ∈ dom C) by (rewrite (Hwf _ _ Hn); by eapply elem_of_dom_2). set_solver.
Qed.

Lemma resolve_total c : index_wf -> is_Some (resolve_chain (class_fuel C) c ∅).
Proof.
  intros Hwf. unfold class_fuel. cbn. case_bool_decide; [eauto|].
  destruct (parent_cases c) as [[E Ep]|(m & q & E & Hm & Ep)]; rewrite E; [eauto|]. rewrite Hm.
  destruct (resolve_indexed (S (size C)) q ({[class_name_of c]} ∪ ∅) m) as [r Hr]; [done|done| |by cbn in Hr; rewrite Hr; eauto].
  rewrite <- size_dom. assert (size (dom C ∖ ({[class_name_of c]} ∪ ∅)) <= size (dom C))%nat; [|lia].
  apply subseteq_size. set_solver.
Qed.

Lemma extends_det c p q : extends c p -> extends c q -> p = q.
Proof. unfold extends. congruence. Qed.

Lemma chain_acyclic c l : chain c l -> ~ tc extends c c.
Proof.
  induction 1 as [c l Hp Hf|c p pl l Hp Hc IH Hf]; intros Ht.
  - inversion Ht; subst; unfold extends in *; congruence.
  - apply IH. inversion Ht as [? Hcc|? q ? Hcq Hqc]; subst.
    + assert (p = c) as -> by by eapply extends_det. by constructor.
    + assert (p = q) as -> by by eapply extends_det. by eapply tc_r.
Qed.

Lemma extends_indexed c p : index_wf -> extends c p -> C !! class_name_of p = Some p.
Proof.
  unfold extends, class_parent. intros Hwf. destruct (class_parent_name c C) as [n|]; cbn; [|done].
  intros Hp. by rewrite (Hwf _ _ Hp).
Qed.

Lemma ancestor_indexed c a : index_wf -> C !! class_name_of c = Some c -> rtc extends c a -> C !! class_name_of a = Some a.
Proof. intros Hwf Hc. induction 1 as [|c p a Hcp Hpa IH]; [done|]. by eapply IH, extends_indexed. Qed.

Lemma resolve_complete fuel c l V :
  index_wf -> C !! class_name_of c = Some c -> chain c l -> (forall a, rtc extends c a -> class_name_of a ∉ V) ->
  is_Some (resolve_chain fuel c V) -> exists V', resolve_chain fuel c V = Some (Ok (l, V')).
Proof.
  intros Hwf Hc Hch. revert fuel V. induction Hch as [c l Hp Hf|c p pl l Hp Hch IH Hf]; intros [|fuel] V HV Hs; try by destruct Hs.
  - cbn in *. rewrite bool_decide_eq_false_2 by (by apply HV). destruct (parent_cases c) as [[-> _]|(? & ? & _ & _ & ?)]; [|congruence].
    rewrite Hf. eauto.
  - cbn in *. rewrite bool_decide_eq_false_2 in * by (by apply HV). destruct (parent_cases c) as [[_ ?]|(n & q & E & Hn & Hq)]; [congruence|].
    assert (q = p) as -> by congruence. rewrite E, Hn in *.
    destruct (IH (extends_indexed c p Hwf Hp) fuel ({[class_name_of c]} ∪ V)) as [V' HV'].
    + intros a Ha [Hin%elem_of_singleton|Hin]%elem_of_union.
      * eapply (chain_acyclic c l); [by eapply chain_child|].
        assert (a = c) as ->; [|by eapply tc_rtc_r; [by apply tc_once|done]].
        apply (ancestor_indexed p a Hwf (extends_indexed c p Hwf Hp)) in Ha. congruence.
      * apply (HV a); [|done]. by eapply rtc_l.
    + destruct (resolve_chain fuel p _); [done|by destruct Hs].
    + rewrite HV'. cbn. rewrite Hf. eauto.
Qed.

(** Why there is no result: the hierarchy is circular, or merging fails at an
    ancestor. *)
Lemma resolve_error fuel c V e :
  index_wf -> C !! class_name_of c = Some c -> resolve_chain fuel c V = Some (Err e) ->
  (exists a, rtc extends c a /\ class_name_of a ∈ V) \/ (exists a, rtc extends c a /\ tc extends a a) \/
  (exists a pl e', rtc extends c a /\ finish a pl = Err e' /\
     match class_parent a with Some p => chain p pl | None => pl = [] end).
Proof.
  intros Hwf. revert c V e. induction fuel as [|fuel IH]; intros c V e Hc H; [done|]. cbn in H.
  case_bool_decide as Hv; [left; by exists c|].
  destruct (parent_cases c) as [[E Ep]|(n & p & E & Hn & Ep)]; rewrite E in H.
  { right. right. destruct (finish c []) as [|e2] eqn:Ef; simplify_eq/=. exists c, [], e. by rewrite Ep. }
  rewrite Hn in H. destruct (resolve_chain fuel p _) as [[[pl V']|e']|] eqn:Er; [| |done].
  { right. right. destruct (finish c pl) as [|e2] eqn:Ef; simplify_eq/=. exists c, pl, e. rewrite Ep.
    split; [done|]. split; [done|]. by eapply resolve_sound. }
  destruct (IH _ _ _ (extends_indexed c p Hwf Ep) Er) as [(a & Ha & Hin)|[(a & Ha & Hcyc)|(a & pl & e2 & Ha & Hf & Hm)]].
  - apply elem_of_union in Hin as [Hin%elem_of_singleton|Hin]; [|left; exists a; split; [by eapply rtc_l|done]].
    right. left. exists c. split; [done|]. assert (a = c) as ->; [|by eapply tc_rtc_r; [by apply tc_once|done]].
    apply (ancestor_indexed p a Hwf (extends_indexed c p Hwf Ep)) in Ha. congruence.
  - right. left. exists a. split; [by eapply rtc_l|done].
  - right. right. exists a, pl, e2. split; [by eapply rtc_l|done].
Qed.

(** The result, for a class of the index. *)
Lemma resolve_exact c :
  index_wf -> C !! class_name_of c = Some c ->
  exists r, resolve_chain (class_fuel C) c ∅ = Some r /\
    match r with
    | Ok (l, _) => chain c l
    | Err _ => (forall l, ~ chain c l) /\
        ((exists a, rtc extends c a /\ tc extends a a) \/
         (exists a pl e', rtc extends c a /\ finish a pl = Err e' /\
            match class_parent a with Some p => chain p pl | None => pl = [] end))
    end.
Proof.
  intros Hwf Hc. destruct (resolve_total c Hwf) as [[[l V]|e] Hr]; rewrite Hr; eexists; (split; [done|]); [by eapply resolve_sound|].
  split.
  - intros l Hl. destruct (resolve_complete (class_fuel C) c l ∅) as [V' HV']; [done|done|done|set_solver|by rewrite Hr|].
    congruence.
  - destruct (resolve_error _ _ _ _ Hwf Hc Hr) as [(a & _ & Hin)|[H|H]]; [set_solver|by left|by right].
Qed.

Lemma chain_resolves c l :
  index_wf -> C !! class_name_of c = Some c -> chain c l ->
  exists V, resolve_chain (class_fuel C) c ∅ = Some (Ok (l, V)).
Proof. intros Hwf Hc Hl. eapply resolve_complete; [done..|set_solver|by apply resolve_total]. Qed.

Lemma chain_parent c l p : chain c l -> extends c p -> exists pl, chain p pl /\ finish c pl = Ok l.
Proof. intros [? ? Hp ?|? q pl ? Hp Hc Hf] He; unfold extends in He; [congruence|]. assert (q = p) as -> by congruence. eauto. Qed.
End chain.

(** ** The index of a program *)

Lemma class_index_wf program : index_wf (build_class_index program).
Proof.
  unfold build_class_index. assert (forall ds (m : gmap string AClass), index_wf m ->
    index_wf (fold_left (fun index decl =>
      match decl_kind decl with DClass _ _ c => <[ident_name (cl_name c) := c]> index | _ => index end) ds m)) as H.
  { induction ds as [|d ds IH]; intros m Hm; cbn [fold_left]; [done|]. apply IH. destruct (decl_kind d); try done.
    intros n c'. rewrite lookup_insert_Some. intros [[<- <-]|[_ ?]]; [done|by apply Hm]. }
  apply H. intros n c. by rewrite lookup_empty.
Qed.

(** ** Fields *)

Definition finish_fields (c : AClass) (inherited : list (string * StructField)) : result (list (string * StructField)) string :=
  add_class_fields (class_name_of c) 0 (cl_members c) inherited (list_to_set (fst <$> inherited)).

Lemma resolve_fields_chain fuel c C V :
  resolve_effective_class_fields fuel c C V = resolve_chain C finish_fields fuel c V.
Proof.
  revert c V. induction fuel as [|fuel IH]; intros c V; [done|]. cbn. fold (class_name_of c). case_bool_decide; [done|].
  destruct (class_parent_name c C) as [n|]; [|done]. destruct (C !! n); [|done]. by rewrite IH.
Qed.

(** The fields a class declares itself, with the names they get. *)
Fixpoint own_fields (i : nat) (members : list (ClassMember Expr Decl)) : list (string * StructField) :=
  match members with
  | [] => []
  | CMMethod _ :: members => own_fields (S i) members
  | CMField f :: members => (field_name_or i (sf_name f), f) :: own_fields (S i) members
  end.

Lemma add_fields_spec name i members merged seen l :
  add_class_fields name i members merged seen = Ok l <->
  l = (merged ++ own_fields i members)%list /\ NoDup (own_fields i members).*1 /\
  forall n, n ∈ (own_fields i members).*1 -> n ∉ seen.
Proof.
  revert i merged seen. induction members as [|[f|f] members IH]; intros i merged seen; cbn.
  - rewrite app_nil_r. split; [intros [= ->]; split; [done|]; split; [constructor|set_solver]|by intros [-> _]].
  - fold (field_name_or i (sf_name f)). case_bool_decide as Hs.
    + split; [done|]. intros (_ & _ & H). exfalso. by eapply H; [left|].
    + rewrite IH, <- (assoc_L (++)), NoDup_cons. cbn. split.
      * intros (-> & Hnd & Hd). split; [done|]. split; [split; [|done]|]; [intros Hin; apply Hd in Hin; set_solver|].
        intros n [->|Hn]%elem_of_cons; [done|]. apply Hd in Hn. set_solver.
      * intros (-> & [Hni Hnd] & Hd). split; [done|]. split; [done|]. intros n Hn [->%elem_of_singleton|Hin]%elem_of_union; [done|].
        eapply Hd; [by right|done].
  - apply IH.
Qed.

Lemma finish_fields_spec c inherited l :
  finish_fields c inherited = Ok l <->
  l = (inherited ++ own_fields 0 (cl_members c))%list /\ NoDup (own_fields 0 (cl_members c)).*1 /\
  forall n, n ∈ (own_fields 0 (cl_members c)).*1 -> n ∉ inherited.*1.
Proof. unfold finish_fields. rewrite add_fields_spec. by setoid_rewrite elem_of_list_to_set. Qed.

Lemma finish_fields_error c inherited e :
  finish_fields c inherited = Err e ->
  ~ NoDup (own_fields 0 (cl_members c)).*1 \/ exists n, n ∈ (own_fields 0 (cl_members c)).*1 /\ n ∈ inherited.*1.
Proof.
  intros He. destruct (decide (NoDup (own_fields 0 (cl_members c)).*1)) as [Hnd|]; [right|by left].
  destruct (decide (Exists (fun n => n ∈ inherited.*1) (own_fields 0 (cl_members c)).*1)) as [Hx|Hx]; [by apply Exists_exists in Hx|].
  exfalso. assert (finish_fields c inherited = Ok (inherited ++ own_fields 0 (cl_members c))%list); [|congruence].
  apply finish_fields_spec. split; [done|]. split; [done|]. intros n Hn Hin. apply Hx, Exists_exists. by exists n.
Qed.

Lemma chain_fields_nodup C c l : chain C finish_fields c l -> NoDup l.*1.
Proof.
  induction 1 as [c l _ Hf|c p pl l _ _ IH Hf]; apply finish_fields_spec in Hf as (-> & Hnd & Hd); [done|].
  rewrite fmap_app. apply NoDup_app. split; [done|]. split; [|done]. intros n Hn Hn'. by eapply Hd.
Qed.

Lemma chain_fields_prefix C c l a :
  chain C finish_fields c l -> rtc (extends C) c a -> exists al, chain C finish_fields a al /\ al `prefix_of` l.
Proof.
  intros Hc Hr. revert l Hc. induction Hr as [c|c p a Hcp Hpa IH]; intros l Hc; [by exists l|].
  destruct (chain_parent _ _ _ _ _ Hc Hcp) as (pl & Hp & Hf). destruct (IH pl Hp) as (al & Ha & Hpre).
  exists al. split; [done|]. apply finish_fields_spec in Hf as (-> & _). etrans; [done|]. by apply prefix_app_r.
Qed.

(** The layout of a class.  For every class of a program the search ends.
    If it gives fields, their names are distinct, the class's own fields come
    last, and every ancestor has a layout of its own that is a prefix of this
    one, so that each inherited field is where code for the ancestor expects
    it.  It gives an error only if the hierarchy is circular or a class
    declares a field twice or again. *)
Theorem class_layout_exact (program : Program) (c : AClass) :
  let C := build_class_index program in
  C !! class_name_of c = Some c ->
  exists r, resolve_effective_class_fields (class_fuel C) c C ∅ = Some r /\
    match r with
    | Ok (fields, _) =>
        NoDup fields.*1 /\ own_fields 0 (cl_members c) `suffix_of` fields /\
        forall a, rtc (extends C) c a ->
          exists afields V, resolve_effective_class_fields (class_fuel C) a C ∅ = Some (Ok (afields, V)) /\
            afields `prefix_of` fields
    | Err _ =>
        exists a, rtc (extends C) c a /\
          (tc (extends C) a a \/ ~ NoDup (own_fields 0 (cl_members a)).*1 \/
           exists p pfields n, extends C a p /\ chain C finish_fields p pfields /\
             n ∈ (own_fields 0 (cl_members a)).*1 /\ n ∈ pfields.*1)
    end.
Proof.
  intros C Hc. pose proof (class_index_wf program : index_wf C) as Hwf.
  destruct (resolve_exact C finish_fields c Hwf Hc) as (r & Hr & Hm). rewrite resolve_fields_chain, Hr. exists r. split; [done|].
  destruct r as [[fields V]|e].
  - split; [by eapply chain_fields_nodup|]. split.
    { inversion Hm as [? ? _ Hf|? ? pl ? _ _ Hf]; subst; apply finish_fields_spec in Hf as (-> & _); by apply suffix_app_r. }
    intros a Ha. destruct (chain_fields_prefix C c fields a Hm Ha) as (al & Hal & Hp). exists al.
    destruct (chain_resolves C finish_fields a al Hwf (ancestor_indexed C c a Hwf Hc Ha) Hal) as [V' HV'].
    exists V'. by rewrite resolve_fields_chain.
  - destruct Hm as [_ [(a & Ha & Ht)|(a & pl & e' & Ha & Hf & Hp)]]; exists a; (split; [done|]); [by left|right].
    apply finish_fields_error in Hf as [Hf|(n & Hn & Hin)]; [by left|right].
    destruct (class_parent C a) as [p|] eqn:Ep; [|subst; by apply elem_of_nil in Hin]. by exists p, pl, n.
Qed.

(** ** Methods *)

Definition method_name (m : AFunction) : string := ident_name (fn_name m).
Definition method_named (n : string) (ms : list AFunction) : option AFunction :=
  List.find (fun m => bool_decide (method_name m = n)) ms.

(** The methods a class declares, and the default methods of the traits of its
    header. *)
Definition methods_of (members : list (ClassMember Expr Decl)) : list AFunction :=
  omap (fun m => match m with CMMethod f => Some f | CMField _ => None end) members.
Definition own_methods (c : AClass) : list AFunction := methods_of (cl_members c).
Definition default_method (item : TraitItem Expr Decl) : option AFunction :=
  match item with
  | TIFunction f => match block_stmts (fn_body f) with [] => None | _ => Some f end
  | _ => None
  end.
Definition default_methods (C : gmap string AClass) (T : gmap string ATrait) (c : AClass) : list AFunction :=
  flat_map (fun n => match T !! n with Some t => omap default_method (tr_items t) | None => [] end)
    (class_header_trait_paths c C).

Definition finish_methods (C : gmap string AClass) (T : gmap string ATrait) (c : AClass) (inherited : list AFunction) :
    result (list AFunction) string :=
  let? s := add_class_methods (class_name_of c) (cl_members c) ∅ inherited (positions_by_name inherited) in
  Ok (fold_left (add_trait_methods T) (class_header_trait_paths c C) s).1.

Lemma resolve_methods_chain fuel c C T V :
  resolve_effective_class_methods fuel c C T V = resolve_chain C (finish_methods C T) fuel c V.
Proof.
  revert c V. induction fuel as [|fuel IH]; intros c V; [done|]. cbn. fold (class_name_of c). case_bool_decide; [done|].
  destruct (class_parent_name c C) as [n|]; [destruct (C !! n) as [p|]; [rewrite IH;
    destruct (resolve_chain C (finish_methods C T) fuel p _) as [[[l V']|]|]|]|]; cbn; try done; unfold finish_methods;
    (destruct (add_class_methods _ _ _ _ _) as [s|]; [|done]); by destruct (fold_left _ _ s).
Qed.

(** *** A list of methods and the map of their positions *)

Definition indexed (ms : list AFunction) (ix : gmap string nat) : Prop :=
  forall n i, ix !! n = Some i <-> exists m, ms !! i = Some m /\ method_name m = n.

Lemma indexed_none ms ix n : indexed ms ix -> ix !! n = None <-> n ∉ method_name <$> ms.
Proof.
  intros Hx. split.
  - intros Hn (m & -> & [i Hi]%list_elem_of_lookup)%list_elem_of_fmap.
    assert (ix !! method_name m = Some i) by (apply Hx; eauto). congruence.
  - intros Hn. destruct (ix !! n) as [i|] eqn:E; [|done]. exfalso. apply Hx in E as (m & Hm & <-).
    apply Hn, list_elem_of_fmap. exists m. split; [done|]. by eapply list_elem_of_lookup_2.
Qed.

Lemma indexed_nodup ms ix : indexed ms ix -> NoDup (method_name <$> ms).
Proof.
  intros Hx. apply NoDup_alt. intros i j n Hi Hj. rewrite list_lookup_fmap in Hi, Hj.
  destruct (ms !! i) as [m|] eqn:Ei, (ms !! j) as [m'|] eqn:Ej; simplify_eq/=.
  assert (ix !! method_name m = Some i) by (apply Hx; eauto). assert (ix !! method_name m = Some j) by (apply Hx; eauto). congruence.
Qed.

Lemma indexed_push ms ix m :
  indexed ms ix -> ix !! method_name m = None -> indexed (ms ++ [m])%list (<[method_name m := List.length ms]> ix).
Proof.
  intros Hx Hn n i. rewrite lookup_insert_Some. split.
  - intros [[<- <-]|[Hne Hi]]; [exists m; by rewrite list_lookup_middle|].
    apply Hx in Hi as (m' & Hm' & <-). exists m'. split; [|done]. by apply lookup_app_l_Some.
  - intros (m' & Hm' & <-). apply lookup_app_Some in Hm' as [Hm'|[Hi Hm']].
    + right. assert (ix !! method_name m' = Some i) by (apply Hx; eauto). split; [congruence|done].
    + left. apply list_lookup_singleton_Some in Hm' as [? <-]. split; [done|]. lia.
Qed.

Lemma indexed_replace ms ix m i :
  indexed ms ix -> ix !! method_name m = Some i -> indexed (<[i := m]> ms) ix.
Proof.
  intros Hx Hi n j. pose proof (proj1 (Hx _ _) Hi) as (m0 & Hm0 & Hn0). rewrite (Hx n j).
  pose proof (lookup_lt_Some _ _ _ Hm0) as Hlt. destruct (decide (i = j)) as [<-|Hne].
  - rewrite list_lookup_insert_eq by done. split; intros (m' & Hm' & <-); simplify_eq; eauto.
  - by rewrite list_lookup_insert_ne.
Qed.

Lemma indexed_positions ms : NoDup (method_name <$> ms) -> indexed ms (positions_by_name ms).
Proof.
  unfold positions_by_name.
  assert (forall l pre ix, indexed pre ix -> NoDup (method_name <$> (pre ++ l)%list) ->
    indexed (pre ++ l)%list
      (fold_left (fun s m => let '(i, ix) := s in (S i, <[method_name m := i]> ix)) l (List.length pre, ix)).2) as H.
  { induction l as [|m l IH]; intros pre ix Hx Hnd; cbn [fold_left]; [by rewrite app_nil_r|].
    rewrite cons_middle, (assoc_L (++)) in Hnd |- *. specialize (IH (pre ++ [m])%list).
    rewrite length_app, Nat.add_1_r in IH. apply IH; [|done]. apply indexed_push; [done|]. apply (indexed_none pre ix); [done|].
    rewrite !fmap_app in Hnd. apply NoDup_app in Hnd as [Hnd _]. apply NoDup_app in Hnd as (_ & Hd & _).
    intros Hin. apply (Hd _ Hin). by left. }
  intros Hnd. apply (H ms [] ∅); [|done]. intros n i. rewrite lookup_empty, lookup_nil. naive_solver.
Qed.

Lemma method_named_indexed ms ix n :
  indexed ms ix -> method_named n ms = ix !! n ≫= fun i => ms !! i.
Proof.
  intros Hx. unfold method_named. destruct (List.find _ ms) as [m|] eqn:Ef.
  - apply find_some in Ef as [Hin He]. apply bool_decide_eq_true in He. apply list_elem_of_In, list_elem_of_lookup in Hin as [i Hi].
    assert (ix !! n = Some i) as -> by (apply Hx; eauto). by cbn.
  - destruct (ix !! n) as [i|] eqn:E; cbn; [|done]. exfalso. apply Hx in E as (m & Hm & Hn).
    eapply find_none in Ef; [|apply list_elem_of_In; by eapply list_elem_of_lookup_2]. by apply bool_decide_eq_false in Ef.
Qed.

(** *** What is found by name, and where *)

(** Inherited methods keep their places. *)
Definition same_slots (before after : list AFunction) : Prop :=
  forall i m, before !! i = Some m -> exists m', after !! i = Some m' /\ method_name m' = method_name m.

#[local] Instance same_slots_preorder : PreOrder same_slots.
Proof.
  split; [by intros ms i m Hm; exists m|]. intros ms1 ms2 ms3 H12 H23 i m Hm.
  destruct (H12 i m Hm) as (m' & Hm' & Hn'), (H23 i m' Hm') as (m'' & ? & ?). exists m''. split; [done|congruence].
Qed.

Lemma push_slots ms m : same_slots ms (ms ++ [m])%list.
Proof. intros i m' Hm'. exists m'. split; [by apply lookup_app_l_Some|done]. Qed.

Lemma push_named ms ix m n :
  indexed ms ix -> ix !! method_name m = None ->
  method_named n (ms ++ [m])%list = if decide (n = method_name m) then Some m else method_named n ms.
Proof.
  intros Hx Hn. rewrite (method_named_indexed _ _ n (indexed_push ms ix m Hx Hn)), (method_named_indexed ms ix n Hx).
  case_decide as E; [subst; by rewrite lookup_insert_eq; cbn; rewrite list_lookup_middle|]. rewrite lookup_insert_ne by done.
  destruct (ix !! n) as [i|] eqn:Ei; cbn; [|done]. apply Hx in Ei as (m' & Hm' & _). rewrite Hm'. by apply lookup_app_l_Some.
Qed.

Lemma replace_named ms ix m i n :
  indexed ms ix -> ix !! method_name m = Some i ->
  method_named n (<[i := m]> ms) = if decide (n = method_name m) then Some m else method_named n ms.
Proof.
  intros Hx Hi. rewrite (method_named_indexed _ _ n (indexed_replace ms ix m i Hx Hi)), (method_named_indexed ms ix n Hx).
  pose proof (proj1 (Hx _ _) Hi) as (m0 & Hm0 & Hn0). pose proof (lookup_lt_Some _ _ _ Hm0) as Hlt.
  case_decide as E; [subst n; by rewrite Hi; cbn; rewrite list_lookup_insert_eq|].
  destruct (ix !! n) as [j|] eqn:Ej; cbn; [|done]. rewrite list_lookup_insert_ne; [done|]. intros <-.
  apply Hx in Ej as (m1 & Hm1 & <-). simplify_eq.
Qed.

Lemma add_methods_spec name members seen ms ix :
  indexed ms ix ->
  match add_class_methods name members seen ms ix with
  | Ok (ms', ix') =>
      indexed ms' ix' /\ same_slots ms ms' /\
      NoDup (method_name <$> methods_of members) /\
      (forall n, n ∈ method_name <$> methods_of members -> n ∉ seen) /\
      forall n, method_named n ms' =
        match method_named n (methods_of members) with
        | Some m => Some m
        | None => method_named n ms
        end
  | Err _ =>
      ~ (NoDup (method_name <$> methods_of members) /\
         forall n, n ∈ method_name <$> methods_of members -> n ∉ seen)
  end.
Proof.
  revert seen ms ix. induction members as [|[f|m] members IH]; intros seen ms ix Hx.
  - cbn. split; [done|]. split; [done|]. split; [constructor|]. split; [set_solver|done].
  - apply (IH seen ms ix Hx).
  - assert (methods_of (CMMethod m :: members) = m :: methods_of members) as -> by done. cbn [add_class_methods].
    fold (method_name m). case_bool_decide as Hs.
    { intros [_ Hd]. eapply Hd; [by left|done]. }
    assert (exists ms1 ix1, indexed ms1 ix1 /\ same_slots ms ms1 /\
      (forall n, method_named n ms1 = if decide (n = method_name m) then Some m else method_named n ms) /\
      (match ix !! method_name m with
       | Some i => add_class_methods name members ({[method_name m]} ∪ seen) (<[i := m]> ms) ix
       | None => add_class_methods name members ({[method_name m]} ∪ seen) (ms ++ [m])%list
                   (<[method_name m := List.length ms]> ix)
       end) = add_class_methods name members ({[method_name m]} ∪ seen) ms1 ix1) as (ms1 & ix1 & Hx1 & Hs1 & Hn1 & ->).
    { destruct (ix !! method_name m) as [i|] eqn:Ei.
      - exists (<[i := m]> ms), ix. split; [by apply indexed_replace|]. split; [|split; [by intros; apply (replace_named ms ix)|done]].
        intros j m' Hm'. pose proof (proj1 (Hx _ _) Ei) as (m0 & Hm0 & Hn0). destruct (decide (i = j)) as [<-|].
        + exists m. rewrite list_lookup_insert_eq by by eapply lookup_lt_Some. split; [done|congruence].
        + exists m'. by rewrite list_lookup_insert_ne.
      - eexists _, _. split; [by apply indexed_push|]. split; [apply push_slots|]. split; [by intros; apply (push_named ms ix)|done]. }
    specialize (IH ({[method_name m]} ∪ seen) ms1 ix1 Hx1).
    destruct (add_class_methods name members _ ms1 ix1) as [[ms' ix']|e]; cbn [fmap list_fmap].
    + destruct IH as (Hx' & Hs' & Hnd & Hd & Hn'). split; [done|]. split; [by etrans|].
      split; [apply NoDup_cons_2; [intros Hin; apply Hd in Hin; set_solver|done]|].
      split; [intros n [->|Hin]%elem_of_cons; [done|]; apply Hd in Hin; set_solver|].
      intros n. rewrite Hn', Hn1. cbn. case_bool_decide as En.
      * subst n. rewrite decide_True by done. destruct (method_named (method_name m) (methods_of members)) as [m'|] eqn:E; [|done].
        exfalso. apply find_some in E as [Hin He]. apply bool_decide_eq_true in He. apply list_elem_of_In in Hin.
        apply (Hd (method_name m)); [rewrite <- He; by apply list_elem_of_fmap_2|set_solver].
      * by rewrite decide_False by done.
    + intros [Hnd Hd]. apply NoDup_cons in Hnd as [Hni Hnd]. apply IH. split; [done|]. intros n Hn [->%elem_of_singleton|Hin]%elem_of_union; [done|].
      eapply Hd; [by right|done].
Qed.

(** Default methods fill the gaps. *)
Lemma add_defaults_spec items ms ix :
  indexed ms ix ->
  let '(ms', ix') := fold_left add_default_method items (ms, ix) in
  indexed ms' ix' /\ same_slots ms ms' /\
  forall n, method_named n ms' =
    match method_named n ms with Some m => Some m | None => method_named n (omap default_method items) end.
Proof.
  revert ms ix. induction items as [|item items IH]; intros ms ix Hx; cbn [fold_left].
  { split; [done|]. split; [done|]. intros n. cbn. by case_match. }
  destruct (default_method item) as [m|] eqn:Ed.
  - assert (omap default_method (item :: items) = m :: omap default_method items) as -> by (cbn; by rewrite Ed).
    unfold add_default_method at 2. destruct item as [f|?|?]; try done. cbn in Ed. destruct (block_stmts (fn_body f)); [done|].
    injection Ed as ->. fold (method_name m). case_bool_decide as Hin.
    + specialize (IH ms ix Hx). destruct (fold_left _ items (ms, ix)) as [ms' ix']. destruct IH as (H1 & H2 & H3).
      split; [done|]. split; [done|]. intros n. rewrite H3. destruct (method_named n ms) eqn:En; [done|]. cbn.
      rewrite bool_decide_eq_false_2; [done|]. intros <-. apply elem_of_dom in Hin as [i Hi].
      rewrite (method_named_indexed ms ix _ Hx), Hi in En. cbn in En. apply Hx in Hi as (? & ? & _). congruence.
    + apply not_elem_of_dom in Hin. specialize (IH _ _ (indexed_push ms ix m Hx Hin)).
      destruct (fold_left _ items _) as [ms' ix']. destruct IH as (H1 & H2 & H3).
      split; [done|]. split; [etrans; [apply (push_slots ms m)|done]|]. intros n. rewrite H3, (push_named ms ix m n Hx Hin). cbn.
      destruct (decide (n = method_name m)) as [->|Hne]; [|by rewrite bool_decide_eq_false_2].
      rewrite bool_decide_eq_true_2 by done. destruct (method_named (method_name m) ms) eqn:En; [|done].
      rewrite (method_named_indexed ms ix _ Hx), Hin in En. done.
  - assert (omap default_method (item :: items) = omap default_method items) as -> by (cbn; by rewrite Ed).
    assert (add_default_method (ms, ix) item = (ms, ix)) as ->; [|by apply IH].
    destruct item as [f|?|?]; try done. cbn in *. by destruct (block_stmts (fn_body f)).
Qed.

Lemma method_named_app n ms ms' :
  method_named n (ms ++ ms')%list = match method_named n ms with Some m => Some m | None => method_named n ms' end.
Proof. unfold method_named. induction ms as [|m ms IH]; cbn; [done|]. by case_bool_decide. Qed.

Lemma add_traits_spec T names ms ix :
  indexed ms ix ->
  let '(ms', ix') := fold_left (add_trait_methods T) names (ms, ix) in
  indexed ms' ix' /\ same_slots ms ms' /\
  forall n, method_named n ms' =
    match method_named n ms with
    | Some m => Some m
    | None => method_named n (flat_map (fun t => match T !! t with Some t => omap default_method (tr_items t) | None => [] end) names)
    end.
Proof.
  revert ms ix. induction names as [|t names IH]; intros ms ix Hx; cbn [fold_left flat_map].
  { split; [done|]. split; [done|]. intros n. cbn. by case_match. }
  unfold add_trait_methods at 2. destruct (T !! t) as [tr|]; [|by apply IH].
  pose proof (add_defaults_spec (tr_items tr) ms ix Hx) as Hd. destruct (fold_left _ (tr_items tr) (ms, ix)) as [ms1 ix1].
  destruct Hd as (Hx1 & Hs1 & Hn1). specialize (IH ms1 ix1 Hx1). destruct (fold_left _ names (ms1, ix1)) as [ms' ix'].
  destruct IH as (H1 & H2 & H3). split; [done|]. split; [by etrans|]. intros n. rewrite H3, Hn1, method_named_app. by repeat case_match.
Qed.

(** What a class adds to the methods of its parent. *)
Lemma finish_methods_spec C T c inherited :
  NoDup (method_name <$> inherited) ->
  match finish_methods C T c inherited with
  | Ok ms =>
      NoDup (method_name <$> ms) /\ same_slots inherited ms /\
      forall n, method_named n ms =
        match method_named n (own_methods c), method_named n inherited with
        | Some m, _ => Some m
        | None, Some m => Some m
        | None, None => method_named n (default_methods C T c)
        end
  | Err _ => ~ NoDup (method_name <$> own_methods c)
  end.
Proof.
  intros Hnd. unfold finish_methods.
  pose proof (add_methods_spec (class_name_of c) (cl_members c) ∅ inherited _ (indexed_positions inherited Hnd)) as Ha.
  destruct (add_class_methods _ _ _ _ _) as [[ms1 ix1]|e].
  - destruct Ha as (Hx1 & Hs1 & _ & _ & Hn1). pose proof (add_traits_spec T (class_header_trait_paths c C) ms1 ix1 Hx1) as Ht.
    destruct (fold_left _ _ (ms1, ix1)) as [ms' ix']. destruct Ht as (Hx' & Hs' & Hn'). cbn [fst].
    split; [by eapply indexed_nodup|]. split; [by etrans|]. intros n. rewrite Hn', Hn1. unfold own_methods. by repeat case_match.
  - intros Ho. apply Ha. split; [done|set_solver].
Qed.

Lemma chain_methods_nodup C T c l : chain C (finish_methods C T) c l -> NoDup (method_name <$> l).
Proof.
  induction 1 as [c l _ Hf|c p pl l _ _ IH Hf].
  - pose proof (finish_methods_spec C T c [] NoDup_nil_2) as H. rewrite Hf in H. apply H.
  - pose proof (finish_methods_spec C T c pl IH) as H. rewrite Hf in H. apply H.
Qed.

(** The methods of the parent, none if there is no parent. *)
Definition inherited_methods (C : gmap string AClass) (T : gmap string ATrait) (c : AClass) (pms : list AFunction) : Prop :=
  match class_parent C c with
  | Some p => exists V, resolve_effective_class_methods (class_fuel C) p C T ∅ = Some (Ok (pms, V))
  | None => pms = []
  end.

(** C5: dispatch.  For every class of a program the search ends.  If it gives
    methods, no name occurs twice, and the method found under a name is the one
    the class declares, else the one its parent has, else the first default
    method of that name in the traits of its header; and each inherited method
    keeps its position, also when it is overridden.  It gives an error only if
    the hierarchy is circular or a class declares a method twice. *)
Theorem class_dispatch_exact (program : Program) (c : AClass) :
  let C := build_class_index program in
  let T := build_trait_index program in
  C !! class_name_of c = Some c ->
  exists r, resolve_effective_class_methods (class_fuel C) c C T ∅ = Some r /\
    match r with
    | Ok (methods, _) =>
        NoDup (method_name <$> methods) /\
        exists pms, inherited_methods C T c pms /\ same_slots pms methods /\
          forall n, method_named n methods =
            match method_named n (own_methods c), method_named n pms with
            | Some m, _ => Some m
            | None, Some m => Some m
            | None, None => method_named n (default_methods C T c)
            end
    | Err _ =>
        exists a, rtc (extends C) c a /\ (tc (extends C) a a \/ ~ NoDup (method_name <$> own_methods a))
    end.
Proof.
  intros C T Hc. pose proof (class_index_wf program : index_wf C) as Hwf.
  destruct (resolve_exact C (finish_methods C T) c Hwf Hc) as (r & Hr & Hm). rewrite resolve_methods_chain, Hr. exists r. split; [done|].
  destruct r as [[methods V]|e].
  - split; [by eapply chain_methods_nodup|]. unfold inherited_methods. inversion Hm as [? ? Hp Hf|? p pl ? Hp Hch Hf]; subst; rewrite Hp.
    + exists []. split; [done|]. pose proof (finish_methods_spec C T c [] NoDup_nil_2) as H. rewrite Hf in H. apply H.
    + exists pl. destruct (chain_resolves C (finish_methods C T) p pl Hwf (extends_indexed C c p Hwf Hp) Hch) as [V' HV'].
      split; [exists V'; by rewrite resolve_methods_chain|].
      pose proof (finish_methods_spec C T c pl (chain_methods_nodup _ _ _ _ Hch)) as H. rewrite Hf in H. apply H.
  - destruct Hm as [_ [(a & Ha & Ht)|(a & pl & e' & Ha & Hf & Hp)]]; exists a; (split; [done|]); [by left|right].
    assert (NoDup (method_name <$> pl)) as Hnd.
    { destruct (class_parent C a); [by eapply chain_methods_nodup|subst; constructor]. }
    pose proof (finish_methods_spec C T a pl Hnd) as H. by rewrite Hf in H.
Qed.
