(* ===== verification/HirSem.v ===== *)
(** A reference semantics of the source language and one of the HIR, for
    comparing them.

    Both are definitional interpreters in the same style, with the same
    computations ([comp]): a state of local variables, an outcome that may be
    a value, [break], [continue] or [return], and no result when a program is
    stuck or its fuel is used up.  They differ where the languages do.  The
    source knows an enum variant by its name and a block's value as its last
    statement; the HIR knows a variant by its number and has an explicit final
    expression, source and coverage markers.

    The interpreters cover the sequential core: integers of 64 bits, booleans,
    characters, strings, tuples, arrays, structs and enums; variables,
    assignment, blocks, conditionals, loops, matches and calls of functions.
    Other constructs are stuck. *)

From S2P Require Import Prelude Ty Ast TypeEnv Hir HirLower HirItems.
From stdpp Require Import pretty.
From Stdlib Require Import String.

#[local] Open Scope string_scope.

(** ** Values and computations *)

(** [T] is what distinguishes the variants of enums. *)
Inductive value (T : Type) :=
| VInt (z : Z)
| VBool (b : bool)
| VChar (code : Z)
| VStr (s : string)
| VUnit
| VTuple (vs : list (value T))
| VArray (vs : list (value T))
| VStruct (name : string) (fields : list (string * value T))
| VCtor (tag : T) (args : list (value T))
| VRange (lo hi : Z) (inclusive : bool).
Arguments VInt {T}.
Arguments VBool {T}.
Arguments VChar {T}.
Arguments VStr {T}.
Arguments VUnit {T}.
Arguments VTuple {T}.
Arguments VArray {T}.
Arguments VStruct {T}.
Arguments VCtor {T}.
Arguments VRange {T}.

Section computations.
Context {T : Type}.
Notation value := (value T).

Definition env : Type := list (string * value).
Inductive outcome := OVal (v : value) | OBreak (v : value) | OContinue | OReturn (v : value).
Definition comp : Type := env -> option (env * outcome).

Definition stuck : comp := fun _ => None.
Definition ret (v : value) : comp := fun r => Some (r, OVal v).
Definition jump (o : outcome) : comp := fun r => Some (r, o).
Definition lift (o : option value) : comp := fun r => match o with Some v => Some (r, OVal v) | None => None end.

Definition bind (m : comp) (k : value -> comp) : comp := fun r =>
  match m r with
  | Some (r, OVal v) => k v r
  | other => other
  end.

Fixpoint bind_all (ms : list comp) (k : list value -> comp) : comp :=
  match ms with
  | [] => k []
  | m :: ms => bind m (fun v => bind_all ms (fun vs => k (v :: vs)))
  end.

(** A block: its variables are gone at its end. *)
Definition scoped (m : comp) : comp := fun r =>
  match m r with
  | Some (r', o) => Some (drop (List.length r' - List.length r) r', o)
  | None => None
  end.

Definition assoc_of {A} (x : string) (l : list (string * A)) : option A :=
  snd <$> List.find (fun e => String.eqb e.1 x) l.

Definition declare (x : string) (v : value) : comp := fun r => Some ((x, v) :: r, OVal VUnit).
Definition declare_all (bs : env) (m : comp) : comp := fun r => m (bs ++ r)%list.

Fixpoint set_var (x : string) (v : value) (r : env) : option env :=
  match r with
  | [] => None
  | (y, w) :: r => if String.eqb y x then Some ((y, v) :: r) else (fun r => (y, w) :: r) <$> set_var x v r
  end.
Definition read_var (x : string) : comp := fun r => lift (assoc_of x r) r.
Definition assign (x : string) (v : value) : comp := fun r =>
  match set_var x v r with Some r => Some (r, OVal VUnit) | None => None end.

(** Loops.  The body of a loop ends the iteration with [continue] and the loop
    with [break]. *)
Fixpoint loop_ (fuel : nat) (body : comp) : comp := fun r =>
  match fuel with
  | O => None
  | S fuel =>
      match body r with
      | Some (r, OVal _) | Some (r, OContinue) => loop_ fuel body r
      | Some (r, OBreak v) => Some (r, OVal v)
      | other => other
      end
  end.

Definition while_ (fuel : nat) (cond body : comp) : comp :=
  loop_ fuel (bind cond (fun v => match v with
                          | VBool true => body
                          | VBool false => jump (OBreak VUnit)
                          | _ => stuck
                          end)).

Fixpoint for_ (n : nat) (x : string) (i : Z) (body : comp) : comp := fun r =>
  match n with
  | O => Some (r, OVal VUnit)
  | S n =>
      match scoped (bind (declare x (VInt i)) (fun _ => body)) r with
      | Some (r, OVal _) | Some (r, OContinue) => for_ n x (i + 1) body r
      | Some (r, OBreak v) => Some (r, OVal v)
      | other => other
      end
  end.

Definition for_range (x : string) (v : value) (body : comp) : comp :=
  match v with
  | VRange lo hi inclusive => for_ (Z.to_nat (hi - lo + if inclusive then 1 else 0)) x lo body
  | _ => stuck
  end.

(** A function: its parameters are its only variables. *)
Definition call_fun (params : list string) (body : comp) (args : list value) : option value :=
  if (List.length params =? List.length args)%nat then
    match body (zip params args) with
    | Some (_, OVal v) | Some (_, OReturn v) => Some v
    | _ => None
    end
  else None.

(** *** Primitive operations *)

Definition i64 (z : Z) : value := VInt (wrap_s 64 z).

Definition eq_prim (a b : value) : option bool :=
  match a, b with
  | VInt x, VInt y => Some (x =? y)%Z
  | VBool x, VBool y => Some (Bool.eqb x y)
  | VChar x, VChar y => Some (x =? y)%Z
  | VStr x, VStr y => Some (String.eqb x y)
  | VUnit, VUnit => Some true
  | _, _ => None
  end.

Definition on_ints (f : Z -> Z -> option value) (a b : value) : option value :=
  match a, b with VInt x, VInt y => f x y | _, _ => None end.
Definition shift_by (f : Z -> Z -> Z) (x n : Z) : option value :=
  if ((0 <=? n) && (n <? 64))%Z then Some (i64 (f x n)) else None.
Definition index_prim (a i : value) : option value :=
  match a, i with VArray vs, VInt i => if (0 <=? i)%Z then vs !! Z.to_nat i else None | _, _ => None end.
Definition field_prim (a : value) (f : string) : option value :=
  match a with VStruct _ fs => assoc_of f fs | _ => None end.
Definition range_prim (a b : value) (inclusive : bool) : option value :=
  match a, b with VInt x, VInt y => Some (VRange x y inclusive) | _, _ => None end.
(** *** Matching

    Matching gives no result when pattern and value do not fit together, [Some
    None] when the value is another one, and else the variables. *)

Notation matched := (option (option (list (string * value)))).

Definition and_then (a : matched) (b : matched) : matched :=
  match a with
  | Some (Some bs) => match b with Some (Some bs') => Some (Some (bs' ++ bs)%list) | other => other end
  | other => other
  end.

Definition match_all {P} (f : P -> value -> matched) : list P -> list value -> matched :=
  fix go ps vs :=
    match ps, vs with
    | [], [] => Some (Some [])
    | p :: ps, v :: vs => and_then (f p v) (go ps vs)
    | _, _ => None
    end.

Definition match_named {P} (name_of : P -> string) (f : P -> value -> matched) (get : string -> option value) :
    list P -> matched :=
  fix go ps :=
    match ps with
    | [] => Some (Some [])
    | p :: ps => match get (name_of p) with None => None | Some v => and_then (f p v) (go ps) end
    end.

Definition or_else (a b : matched) : matched := match a with Some None => b | other => other end.

Definition match_first {P} (f : P -> matched) : list P -> matched :=
  fix go ps := match ps with [] => Some None | p :: ps => or_else (f p) (go ps) end.

Definition match_eq (a b : value) : matched := (fun e : bool => if e then Some [] else None) <$> eq_prim a b.
End computations.
Arguments env : clear implicits.
Arguments outcome : clear implicits.
Arguments comp : clear implicits.

(** ** The source language *)

Notation aval := (value (string * string)) (only parsing).
Notation acomp := (comp (string * string)) (only parsing).

Definition source_literal (l : Literal) : option aval :=
  match l with
  | LInt z | LUint z => Some (VInt z)
  | LBool b => Some (VBool b)
  | LString s => Some (VStr s)
  | LChar c => Some (VChar c)
  | LUnit => Some VUnit
  | LFloat _ | LBytes _ | LNull => None
  end.

Definition source_unary (op : UnOp) (v : aval) : option aval :=
  match op, v with
  | Plus, VInt z => Some (VInt z)
  | Neg, VInt z => Some (i64 (- z))
  | Not, VBool b => Some (VBool (negb b))
  | BitNot, VInt z => Some (i64 (Z.lnot z))
  | _, _ => None
  end.

Definition source_binary (op : BinOp) (a b : aval) : option aval :=
  match op with
  | BAdd => on_ints (fun x y => Some (i64 (x + y))) a b
  | BSub => on_ints (fun x y => Some (i64 (x - y))) a b
  | BMul => on_ints (fun x y => Some (i64 (x * y))) a b
  | BDiv => on_ints (fun x y => if (y =? 0)%Z then None else Some (i64 (Z.quot x y))) a b
  | BMod => on_ints (fun x y => if (y =? 0)%Z then None else Some (i64 (Z.rem x y))) a b
  | BBitAnd => on_ints (fun x y => Some (i64 (Z.land x y))) a b
  | BBitOr => on_ints (fun x y => Some (i64 (Z.lor x y))) a b
  | BBitXor => on_ints (fun x y => Some (i64 (Z.lxor x y))) a b
  | BShl => on_ints (shift_by Z.shiftl) a b
  | BShr => on_ints (shift_by Z.shiftr) a b
  | BEq => VBool <$> eq_prim a b
  | BNotEq => (fun e => VBool (negb e)) <$> eq_prim a b
  | BLt => on_ints (fun x y => Some (VBool (x <? y)%Z)) a b
  | BLe => on_ints (fun x y => Some (VBool (x <=? y)%Z)) a b
  | BGt => on_ints (fun x y => Some (VBool (y <? x)%Z)) a b
  | BGe => on_ints (fun x y => Some (VBool (y <=? x)%Z)) a b
  | BAnd | BOr | BPipe | BCompose | BRange | BRangeInclusive => None
  end.

Section source.
(** The variants of a program, and the functions it can call. *)
Context (is_variant : string -> string -> bool) (call : string -> list aval -> option aval) (fuel : nat).

Definition same_variant (p : Path) (tag : string * string) : option bool :=
  match path_segments p with
  | [e; v] =>
      if is_variant (ident_name e) (ident_name v) && is_variant tag.1 tag.2 && String.eqb tag.1 (ident_name e)
      then Some (String.eqb tag.2 (ident_name v)) else None
  | _ => None
  end.

(** A pattern against a value. *)
Fixpoint source_match (p : Pattern) (v : aval) : option (option (list (string * aval))) :=
  match p with mkPattern kind _ =>
    match kind with
    | PWildcard _ => Some (Some [])
    | PLiteral _ l => match source_literal l with Some w => match_eq w v | None => None end
    | PIdent _ x => Some (Some [(ident_name x, v)])
    | PPath _ path =>
        match v with
        | VCtor tag args =>
            match same_variant path tag with
            | Some true => match args with [] => Some (Some []) | _ => None end
            | Some false => Some None
            | None => None
            end
        | _ => None
        end
    | PTupleStruct _ path ps =>
        match v with
        | VCtor tag args =>
            match same_variant path tag with
            | Some true => match_all source_match ps args
            | Some false => Some None
            | None => None
            end
        | _ => None
        end
    | PStruct _ path fields _ =>
        match v with
        | VStruct name fs => if String.eqb name (last_name path) 
            then match_named (fun f => ident_name (spf_name _ f)) (fun f => source_match (spf_pattern _ f)) (fun x => assoc_of x fs) fields
            else None
        | _ => None
        end
    | PTuple _ ps => match v with VTuple vs => match_all source_match ps vs | _ => None end
    | POr _ [] => None
    | POr _ ps => match_first (fun p => source_match p v) ps
    | PSlice _ _ _ | PRange _ _ _ _ => None
    end
  end.

Section blocks.
Context (ev : Expr -> acomp).

Definition source_stmt (s : AStmt) : acomp :=
  match stmt_kind s with
  | SLet x _ (Some e) _ => bind (ev e) (declare (ident_name x))
  | SLet _ _ None _ => stuck
  | SConst x _ e => bind (ev e) (declare (ident_name x))
  | SExpr e => ev e
  | SItem _ => stuck
  end.

(** The value of a block is that of its last statement, if that is an
    expression. *)
Fixpoint source_stmts (l : list AStmt) : acomp :=
  match l with
  | [] => ret VUnit
  | [s] => match stmt_kind s with SExpr e => ev e | _ => bind (source_stmt s) (fun _ => ret VUnit) end
  | s :: l => bind (source_stmt s) (fun _ => source_stmts l)
  end.

Definition source_block (b : ABlock) : acomp := scoped (source_stmts (block_stmts b)).

Fixpoint source_arms (arms : list (MatchArm Expr)) (v : aval) : acomp :=
  match arms with
  | [] => stuck
  | arm :: arms =>
      match match_first (fun p => source_match p v) (arm_patterns arm) with
      | None => stuck
      | Some None => source_arms arms v
      | Some (Some bs) =>
          match arm_guard arm with
          | None => scoped (declare_all bs (ev (arm_body arm)))
          | Some g =>
              bind (scoped (declare_all bs (ev g))) (fun c =>
                match c with
                | VBool true => scoped (declare_all bs (ev (arm_body arm)))
                | VBool false => source_arms arms v
                | _ => stuck
                end)
          end
      end
  end.
End blocks.

Definition source_path (p : Path) : acomp :=
  match path_segments p with
  | [x] => read_var (ident_name x)
  | [e; v] => if is_variant (ident_name e) (ident_name v) then ret (VCtor (ident_name e, ident_name v) []) else stuck
  | _ => stuck
  end.

(** What an expression in the place of a function calls. *)
Definition source_call (f : Expr) (args : list aval) : acomp :=
  match expr_kind f with
  | EIdent x => lift (call (ident_name x) args)
  | EPath p =>
      match path_segments p with
      | [x] => lift (call (ident_name x) args)
      | [e; v] => if is_variant (ident_name e) (ident_name v) then ret (VCtor (ident_name e, ident_name v) args) else stuck
      | _ => stuck
      end
  | _ => stuck
  end.

Definition target_var (e : Expr) : option string :=
  match expr_kind e with EIdent x => Some (ident_name x) | _ => None end.

Definition field_name (fv : FieldValue Expr) : string :=
  match fv_name fv with FieldIdent i => ident_name i | FieldString s => s end.

Definition as_bool (v : aval) (k : bool -> acomp) : acomp := match v with VBool b => k b | _ => stuck end.

Definition opt_value (ev : Expr -> acomp) (o : option Expr) (k : aval -> acomp) : acomp :=
  match o with Some e => bind (ev e) k | None => k VUnit end.

Fixpoint source_expr (e : Expr) : acomp :=
  match e with mkExpr kind _ =>
    match kind with
    | ELiteral l => lift (source_literal l)
    | EIdent x => read_var (ident_name x)
    | EPath p => source_path p
    | EUnary op e => bind (source_expr e) (fun v => lift (source_unary op v))
    | EBinary BAnd l r =>
        bind (source_expr l) (fun v => as_bool v (fun b => if b then source_expr r else ret (VBool false)))
    | EBinary BOr l r =>
        bind (source_expr l) (fun v => as_bool v (fun b => if b then ret (VBool true) else source_expr r))
    | EBinary op l r =>
        bind (source_expr l) (fun a => bind (source_expr r) (fun b => lift (source_binary op a b)))
    | EIf c t o =>
        bind (source_expr c) (fun v => as_bool v (fun b =>
          if b then source_block source_expr t
          else match o with Some e => scoped (source_expr e) | None => ret VUnit end))
    | EMatch s arms => bind (source_expr s) (source_arms source_expr arms)
    | ELoop b => loop_ fuel (source_block source_expr b)
    | EWhile c b => while_ fuel (source_expr c) (source_block source_expr b)
    | EFor (mkPattern (PIdent _ x) _) it b =>
        bind (source_expr it) (fun v => for_range (ident_name x) v (source_block source_expr b))
    | EBlock b => source_block source_expr b
    | ECall f args => bind_all (map source_expr args) (source_call f)
    | EStruct p fields None =>
        match as_simple p with
        | Some x => bind_all (map (fun fv => source_expr (fv_value fv)) fields)
                      (fun vs => ret (VStruct (ident_name x) (zip (map field_name fields) vs)))
        | None => stuck
        end
    | EArray es => bind_all (map source_expr es) (fun vs => ret (VArray vs))
    | ETuple es => bind_all (map source_expr es) (fun vs => ret (VTuple vs))
    | EIndex b i => bind (source_expr b) (fun a => bind (source_expr i) (fun i => lift (index_prim a i)))
    | EField b f => bind (source_expr b) (fun a => lift (field_prim a (ident_name f)))
    | EAssign t e =>
        match target_var t with Some x => bind (source_expr e) (assign x) | None => stuck end
    | EAssignOp op t e =>
        match target_var t, to_binop op with
        | Some x, Some op =>
            bind (read_var x) (fun a => bind (source_expr e) (fun b => bind (lift (source_binary op a b)) (assign x)))
        | _, _ => stuck
        end
    | EReturn o => opt_value source_expr o (fun v => jump (OReturn v))
    | EBreak o => opt_value source_expr o (fun v => jump (OBreak v))
    | EContinue => jump OContinue
    | ERange (Some a) (Some b) inclusive =>
        bind (source_expr a) (fun a => bind (source_expr b) (fun b => lift (range_prim a b inclusive)))
    | EParen e => source_expr e
    | _ => stuck
    end
  end.
End source.

(** A program: its enums and its functions, by name. *)
Definition enum_variants (program : Program) (enum_name : string) : option (list string) :=
  last (omap (fun d => match decl_kind d with
                       | DEnum _ _ e => if String.eqb (ident_name (en_name _ e)) enum_name
                                        then Some (map (fun v => ident_name (ev_name _ v)) (en_variants _ e)) else None
                       | _ => None
                       end) (program_decls program)).
Definition program_variant (program : Program) (enum_name variant_name : string) : bool :=
  match enum_variants program enum_name with Some vs => existsb (String.eqb variant_name) vs | None => false end.

Definition source_function (program : Program) (name : string) : option AFunction :=
  head (omap (fun d => match decl_kind d with
                       | DFunction f => if String.eqb (ident_name (fn_name f)) name then Some f else None
                       | _ => None
                       end) (program_decls program)).

(** Functions of the sequential core: not async, no receiver, no contracts. *)
Definition plain_function (f : AFunction) : bool :=
  negb (fn_is_async f) &&
  match fn_self_param f, fn_precondition f, fn_postcondition f with None, None, None => true | _, _, _ => false end.

Fixpoint run_source (program : Program) (fuel : nat) (name : string) (args : list aval) : option aval :=
  match fuel with
  | O => None
  | S fuel =>
      match source_function program name with
      | None => None
      | Some f =>
          if plain_function f then
            call_fun (map (fun p => ident_name (param_name p)) (fn_params f))
              (source_block (source_expr (program_variant program) (run_source program fuel) fuel) (fn_body f)) args
          else None
      end
  end.

(** ** The HIR *)

Notation hval := (value Z) (only parsing).
Notation hcomp := (comp Z) (only parsing).

Definition hir_literal (l : HIRLiteral) : option hval :=
  match l with
  | HLInt z | HLUint z => Some (VInt z)
  | HLBool b => Some (VBool b)
  | HLString s => Some (VStr s)
  | HLChar c => Some (VChar c)
  | HLNull => Some VUnit
  | HLFloat _ | HLBytes _ => None
  end.

Definition hir_unary (op : HIRUnaryOp) (v : hval) : option hval :=
  match op, v with
  | HNeg, VInt z => Some (i64 (- z))
  | HNot, VBool b => Some (VBool (negb b))
  | HBitNot, VInt z => Some (i64 (Z.lnot z))
  | _, _ => None
  end.

Definition hir_binary (op : HIRBinaryOp) (a b : hval) : option hval :=
  match op with
  | HAdd => on_ints (fun x y => Some (i64 (x + y))) a b
  | HSub => on_ints (fun x y => Some (i64 (x - y))) a b
  | HMul => on_ints (fun x y => Some (i64 (x * y))) a b
  | HDiv => on_ints (fun x y => if (y =? 0)%Z then None else Some (i64 (Z.quot x y))) a b
  | HMod => on_ints (fun x y => if (y =? 0)%Z then None else Some (i64 (Z.rem x y))) a b
  | HBitAnd => on_ints (fun x y => Some (i64 (Z.land x y))) a b
  | HBitOr => on_ints (fun x y => Some (i64 (Z.lor x y))) a b
  | HBitXor => on_ints (fun x y => Some (i64 (Z.lxor x y))) a b
  | HShl => on_ints (shift_by Z.shiftl) a b
  | HShr => on_ints (shift_by Z.shiftr) a b
  | HEq => VBool <$> eq_prim a b
  | HNotEq => (fun e => VBool (negb e)) <$> eq_prim a b
  | HLt => on_ints (fun x y => Some (VBool (x <? y)%Z)) a b
  | HLe => on_ints (fun x y => Some (VBool (x <=? y)%Z)) a b
  | HGt => on_ints (fun x y => Some (VBool (y <? x)%Z)) a b
  | HGe => on_ints (fun x y => Some (VBool (y <=? x)%Z)) a b
  | HLogAnd | HLogOr | HAssignB => None
  end.

(** The payload of a variant has the field names [_0], [_1], ... *)
Definition payload (args : list hval) (x : string) : option hval :=
  assoc_of x (imap (fun i v => ("_" +:+ pretty i, v)) args).

Fixpoint hir_match (p : HIRPattern) (v : hval) : option (option (list (string * hval))) :=
  match p with
  | HPWild => Some (Some [])
  | HPLit l => match hir_literal l with Some w => match_eq w v | None => None end
  | HPVar x _ _ => Some (Some [(x, v)])
  | HPEnumVariant d fields =>
      match v with
      | VCtor d' args =>
          if (d =? d')%Z
          then match_named fst (fun f v => match f.2 with Some p => hir_match p v | None => None end) (payload args) fields
          else Some None
      | _ => None
      end
  | HPStruct name fields =>
      match v with
      | VStruct name' fs =>
          if String.eqb name' name
          then match_named fst (fun f v => match f.2 with Some p => hir_match p v | None => None end) (fun x => assoc_of x fs) fields
          else None
      | _ => None
      end
  | HPTuple ps => match v with VTuple vs => match_all hir_match ps vs | _ => None end
  | HPOr l r => or_else (hir_match l v) (hir_match r v)
  | _ => None
  end.

Section hir.
Context (call : string -> list hval -> option hval) (fuel : nat).

Section bodies.
Context (ev : HIRExpr -> hcomp).

Definition hir_stmt (s : HIRStmt) : hcomp :=
  match s with
  | HSource _ | HCoverage _ | HItem => ret VUnit
  | HLet x _ _ (Some e) _ => bind (ev e) (declare x)
  | HLet _ _ _ None _ => stuck
  | HSExpr e => ev e
  end.

Fixpoint hir_stmts (l : list HIRStmt) (k : hcomp) : hcomp :=
  match l with
  | [] => k
  | s :: l => bind (hir_stmt s) (fun _ => hir_stmts l k)
  end.

Definition hir_body (b : HIRBody) : hcomp :=
  scoped (hir_stmts (body_stmts b) (match body_expr b with Some e => ev e | None => ret VUnit end)).

Fixpoint hir_arms (arms : list HIRMatchArm) (v : hval) : hcomp :=
  match arms with
  | [] => stuck
  | arm :: arms =>
      match hir_match (harm_pat arm) v with
      | None => stuck
      | Some None => hir_arms arms v
      | Some (Some bs) =>
          match harm_guard arm with
          | None => scoped (declare_all bs (ev (harm_body arm)))
          | Some g =>
              bind (scoped (declare_all bs (ev g))) (fun c =>
                match c with
                | VBool true => scoped (declare_all bs (ev (harm_body arm)))
                | VBool false => hir_arms arms v
                | _ => stuck
                end)
          end
      end
  end.
End bodies.

Definition hir_call (f : HIRExpr) (args : list hval) : hcomp :=
  match f with HVar name _ => lift (call name args) | _ => stuck end.

Definition hir_as_bool (v : hval) (k : bool -> hcomp) : hcomp := match v with VBool b => k b | _ => stuck end.

Definition hir_opt (ev : HIRExpr -> hcomp) (o : option HIRExpr) (k : hval -> hcomp) : hcomp :=
  match o with Some e => bind (ev e) k | None => k VUnit end.

Definition hir_target (e : HIRExpr) : option string := match e with HVar x _ => Some x | _ => None end.

Fixpoint hir_expr (e : HIRExpr) : hcomp :=
  match e with
  | HLit l => lift (hir_literal l)
  | HVar x _ => read_var x
  | HUnary op e => bind (hir_expr e) (fun v => lift (hir_unary op v))
  | HBinary HLogAnd l r | HAnd l r =>
      bind (hir_expr l) (fun v => hir_as_bool v (fun b => if b then hir_expr r else ret (VBool false)))
  | HBinary HLogOr l r | HOr l r =>
      bind (hir_expr l) (fun v => hir_as_bool v (fun b => if b then ret (VBool true) else hir_expr r))
  | HBinary op l r => bind (hir_expr l) (fun a => bind (hir_expr r) (fun b => lift (hir_binary op a b)))
  | HIf c t o =>
      bind (hir_expr c) (fun v => hir_as_bool v (fun b =>
        if b then hir_body hir_expr t
        else match o with Some b => hir_body hir_expr b | None => ret VUnit end))
  | HMatch s arms => bind (hir_expr s) (hir_arms hir_expr arms)
  | HLoop b => loop_ fuel (hir_body hir_expr b)
  | HWhile c b => while_ fuel (hir_expr c) (hir_body hir_expr b)
  | HFor x _ it b => bind (hir_expr it) (fun v => for_range x v (hir_body hir_expr b))
  | HCall f args _ _ => bind_all (map hir_expr args) (hir_call f)
  | HEnumConstruct _ _ d args => bind_all (map hir_expr args) (fun vs => ret (VCtor d vs))
  | HStruct name fields _ =>
      bind_all (map (fun f => hir_expr f.2) fields) (fun vs => ret (VStruct name (zip (map fst fields) vs)))
  | HArray es => bind_all (map hir_expr es) (fun vs => ret (VArray vs))
  | HTupleE es => bind_all (map hir_expr es) (fun vs => ret (VTuple vs))
  | HIndex b i => bind (hir_expr b) (fun a => bind (hir_expr i) (fun i => lift (index_prim a i)))
  | HField b f => bind (hir_expr b) (fun a => lift (field_prim a f))
  | HAssign t e => match hir_target t with Some x => bind (hir_expr e) (assign x) | None => stuck end
  | HAssignOp t op e =>
      match hir_target t with
      | Some x => bind (read_var x) (fun a => bind (hir_expr e) (fun b => bind (lift (hir_binary op a b)) (assign x)))
      | None => stuck
      end
  | HReturn o => hir_opt hir_expr o (fun v => jump (OReturn v))
  | HBreak o => hir_opt hir_expr o (fun v => jump (OBreak v))
  | HContinue => jump OContinue
  | HBlock b => hir_body hir_expr b
  | HRange (Some a) (Some b) inclusive =>
      bind (hir_expr a) (fun a => bind (hir_expr b) (fun b => lift (range_prim a b inclusive)))
  | _ => stuck
  end.
End hir.

Definition hir_function_named (m : HIRModule) (name : string) : option HIRFunction :=
  head (omap (fun item => match item with
                          | HIFunction f => if String.eqb (hf_name f) name then Some f else None
                          | _ => None
                          end) (hmod_items m)).

Fixpoint run_hir (m : HIRModule) (fuel : nat) (name : string) (args : list hval) : option hval :=
  match fuel with
  | O => None
  | S fuel =>
      match hir_function_named m name with
      | None => None
      | Some f => call_fun (map hp_name (hf_params f)) (hir_body (hir_expr (run_hir m fuel) fuel) (hf_body f)) args
      end
  end.
