(* ===== verification/HirCorrect.v ===== *)
(** Lowering to the HIR preserves what a program computes.

    [lower_expr_ok] and [lower_pattern_total]: every expression and pattern is
    lowered; the errors the code passes on never arise, and nothing is dropped.
    [lowering_preserves]: whatever a function of the source program returns,
    the lowered function returns, with the names of enum variants replaced by
    their numbers.  Excluded are the unary plus, which is lowered to negation,
    and calls that the checker has resolved to another function. *)

From S2P Require Import Prelude Ty Ast TypeEnv Hir HirLower HirItems HirClasses HirSem.
From stdpp Require Import pretty.
From Stdlib Require Import String.

#[local] Open Scope string_scope.

(** ** Everything is lowered *)

Section Pattern_induction.
Context (P : Pattern -> Prop).
Definition pattern_children (k : PatternKind Pattern) : list Pattern :=
  match k with
  | PStruct _ _ fields _ => map (spf_pattern _) fields
  | PTupleStruct _ _ ps | PTuple _ ps | POr _ ps => ps
  | _ => []
  end.
Context (H : forall k s, Forall P (pattern_children k) -> P (mkPattern k s)).

Lemma Pattern_children_ind : forall p, P p.
Proof.
  fix IH 1. intros [k s]. apply H. destruct k; cbn; try constructor.
  2-4: induction patterns; constructor; [apply IH|done]. induction fields; constructor; [apply IH|done].
Qed.
End Pattern_induction.

Section total.
Context (index : gmap string (gmap string Z)) (coverage : bool) (type_env : TypeEnv).

Notation lower_expr := (lower_expr index coverage type_env).

Definition unwrap {A} (d : A) (r : result A string) : A := match r with Ok a => a | Err _ => d end.

Definition lowered_pat (en : option string) (p : Pattern) : HIRPattern := unwrap HPWild (lower_pattern index en p).

Lemma or_patterns_ok acc (l : list HIRPattern) : exists p, or_patterns acc (map Ok l) = Ok p.
Proof. revert acc. induction l as [|p l IH]; intros acc; cbn; [eauto|apply IH]. Qed.

Lemma lower_pattern_total en p : lower_pattern index en p = Ok (lowered_pat en p).
Proof.
  unfold lowered_pat. assert (exists h, lower_pattern index en p = Ok h) as [h ->]; [|done].
  induction p as [k s IH] using Pattern_children_ind. destruct k; cbn; eauto.
  assert (exists l, map (lower_pattern index en) patterns = map Ok l) as [l ->]; [|apply or_patterns_ok].
  cbn in IH. clear s. induction IH as [|p ps [h Hh] _ [l Hl]]; [by exists []|]. exists (h :: l). cbn. by rewrite Hh, Hl.
Qed.

Definition lowered (e : Expr) : HIRExpr := unwrap (HLit HLNull) (lower_expr e).

Lemma all_ok_map {A B} (f : A -> result B string) (g : A -> B) (l : list A) :
  (forall x, f x = Ok (g x)) -> all_ok (map f l) = map g l.
Proof. unfold all_ok. intros Hf. induction l as [|x l IH]; cbn; [done|]. rewrite (Hf x). cbn. by rewrite IH. Qed.

(** Every expression is lowered. *)
Lemma lower_expr_ok e : lower_expr e = Ok (lowered e).
Proof.
  unfold lowered. assert (exists h, lower_expr e = Ok h) as [h ->]; [|done].
  induction e as [k s IH] using Expr_children_ind.
  destruct k; cbn in IH |- *;
    repeat match goal with H : Forall _ (_ :: _) |- _ => apply Forall_cons in H as [[? ?] H] end;
    repeat match goal with H : lower_expr _ = Ok _ |- _ => rewrite H end; eauto.
  - repeat case_match; eauto.
  - destruct (extract_pattern_var_name pattern). eauto.
Qed.
End total.

(** ** Values of both languages *)

Section lower_value.
Context (number : string * string -> Z).

Fixpoint lower_value (v : aval) : hval :=
  match v with
  | VInt z => VInt z
  | VBool b => VBool b
  | VChar c => VChar c
  | VStr s => VStr s
  | VUnit => VUnit
  | VTuple vs => VTuple (map lower_value vs)
  | VArray vs => VArray (map lower_value vs)
  | VStruct name fs => VStruct name (map (fun f => (f.1, lower_value f.2)) fs)
  | VCtor tag args => VCtor (number tag) (map lower_value args)
  | VRange lo hi inclusive => VRange lo hi inclusive
  end.

Definition lower_env (r : list (string * aval)) : list (string * hval) := map (fun e => (e.1, lower_value e.2)) r.
Definition lower_outcome (o : outcome (string * string)) : outcome Z :=
  match o with
  | OVal v => OVal (lower_value v)
  | OBreak v => OBreak (lower_value v)
  | OContinue => OContinue
  | OReturn v => OReturn (lower_value v)
  end.

(** [m'] does what [m] does. *)
Definition sim (m : acomp) (m' : hcomp) : Prop :=
  forall r r' o, m r = Some (r', o) -> m' (lower_env r) = Some (lower_env r', lower_outcome o).

Lemma sim_stuck m' : sim stuck m'.
Proof. by intros r r' o. Qed.

Lemma sim_ret v : sim (ret v) (ret (lower_value v)).
Proof. by intros r r' o [= <- <-]. Qed.

Lemma sim_jump o : sim (jump o) (jump (lower_outcome o)).
Proof. by intros r r' o' [= <- <-]. Qed.

Lemma sim_lift o o' : (forall v, o = Some v -> o' = Some (lower_value v)) -> sim (lift o) (lift o').
Proof. intros H r r' o1. unfold lift. destruct o as [v|]; [|done]. intros [= <- <-]. by rewrite (H v eq_refl). Qed.

Lemma sim_bind m m' k k' : sim m m' -> (forall v, sim (k v) (k' (lower_value v))) -> sim (bind m k) (bind m' k').
Proof.
  intros Hm Hk r r' o. unfold bind. destruct (m r) as [[r1 o1]|] eqn:E; [|done]. apply Hm in E. rewrite E.
  destruct o1; cbn; [apply Hk|..]; by intros [= <- <-].
Qed.

Lemma sim_bind_all ms ms' k k' :
  Forall2 sim ms ms' -> (forall vs, sim (k vs) (k' (map lower_value vs))) -> sim (bind_all ms k) (bind_all ms' k').
Proof.
  intros Hm. revert k k'. induction Hm as [|m m' ms ms' Hm _ IH]; intros k k' Hk; cbn; [apply (Hk [])|].
  apply sim_bind; [done|]. intros v. apply IH. intros vs. apply (Hk (v :: vs)).
Qed.

Lemma sim_scoped m m' : sim m m' -> sim (scoped m) (scoped m').
Proof.
  intros Hm r r' o. unfold scoped. destruct (m r) as [[r1 o1]|] eqn:E; [|done]. intros [= <- <-]. rewrite (Hm _ _ _ E).
  unfold lower_env. by rewrite !length_map, <- skipn_map.
Qed.

Lemma scoped_twice {T} (m : comp T) r : scoped (scoped m) r = scoped m r.
Proof.
  unfold scoped. destruct (m r) as [[r' o]|]; [|done]. do 2 f_equal. rewrite length_drop.
  assert (List.length r' - (List.length r' - List.length r) - List.length r = 0)%nat as -> by lia. done.
Qed.

Lemma assoc_map x (l : list (string * aval)) : assoc_of x (lower_env l) = lower_value <$> assoc_of x l.
Proof. unfold assoc_of. induction l as [|[y v] l IH]; cbn; [done|]. destruct (y =? x)%string; done. Qed.

Lemma sim_read_var x : sim (read_var x) (read_var x).
Proof.
  intros r r' o. unfold read_var, lift. rewrite assoc_map. destruct (assoc_of x r); cbn; [|done]. by intros [= <- <-].
Qed.

Lemma sim_declare x v : sim (declare x v) (declare x (lower_value v)).
Proof. by intros r r' o [= <- <-]. Qed.

Lemma sim_declare_all bs m m' : sim m m' -> sim (declare_all bs m) (declare_all (lower_env bs) m').
Proof. intros Hm r r' o. unfold declare_all, lower_env. rewrite <- map_app. apply Hm. Qed.

Lemma set_var_map x v r : set_var x (lower_value v) (lower_env r) = lower_env <$> set_var x v r.
Proof.
  induction r as [|[y w] r IH]; cbn; [done|]. fold (lower_env r). destruct (y =? x)%string; cbn; [done|].
  rewrite IH. by destruct (set_var x v r).
Qed.

Lemma sim_assign x v : sim (assign x v) (assign x (lower_value v)).
Proof. intros r r' o. unfold assign. rewrite set_var_map. destruct (set_var x v r); cbn; [|done]. by intros [= <- <-]. Qed.

Lemma sim_loop fuel m m' : sim m m' -> sim (loop_ fuel m) (loop_ fuel m').
Proof.
  intros Hm. induction fuel as [|fuel IH]; intros r r' o; cbn; [done|].
  destruct (m r) as [[r1 o1]|] eqn:E; [|done]. rewrite (Hm _ _ _ E). destruct o1; cbn; try apply IH; by intros [= <- <-].
Qed.

(** A test on a boolean. *)
Lemma sim_bool (v : aval) (k : bool -> acomp) (k' : bool -> hcomp) :
  (forall b, sim (k b) (k' b)) -> sim (as_bool v k) (hir_as_bool (lower_value v) k').
Proof. intros Hk. destruct v; cbn; try apply sim_stuck. apply Hk. Qed.

Lemma sim_while fuel c c' m m' : sim c c' -> sim m m' -> sim (while_ fuel c m) (while_ fuel c' m').
Proof.
  intros Hc Hm. apply sim_loop, sim_bind; [done|]. intros v.
  destruct v as [|[]| | | | | | | |]; cbn; try apply sim_stuck; [done|apply (sim_jump (OBreak VUnit))].
Qed.

Lemma sim_for n x i m m' : sim m m' -> sim (for_ n x i m) (for_ n x i m').
Proof.
  intros Hm. revert i. induction n as [|n IH]; intros i r r' o; cbn; [by intros [= <- <-]|].
  destruct (scoped _ r) as [[r1 o1]|] eqn:E; [|done].
  apply (sim_scoped _ (bind (declare x (VInt i)) (fun _ => m'))) in E;
    [|apply sim_bind; [apply (sim_declare x (VInt i))|done]].
  rewrite E. destruct o1; cbn; try apply IH; by intros [= <- <-].
Qed.

Lemma sim_for_range x v m m' : sim m m' -> sim (for_range x v m) (for_range x (lower_value v) m').
Proof. intros Hm. destruct v; cbn; try apply sim_stuck. by apply sim_for. Qed.

Lemma zip_lower (xs : list string) vs : zip xs (map lower_value vs) = lower_env (zip xs vs).
Proof. revert vs. induction xs as [|x xs IH]; intros [|v vs]; cbn; [done..|]. by rewrite IH. Qed.

Lemma call_fun_sim params m m' args v :
  sim m m' -> call_fun params m args = Some v -> call_fun params m' (map lower_value args) = Some (lower_value v).
Proof.
  intros Hm. unfold call_fun. rewrite length_map. case_match; [|done].
  rewrite zip_lower. destruct (m _) as [[r o]|] eqn:E; [|done]. rewrite (Hm _ _ _ E). destruct o; cbn; congruence.
Qed.

(** *** Primitive operations *)

Lemma eq_prim_lower a b e : eq_prim a b = Some e -> eq_prim (lower_value a) (lower_value b) = Some e.
Proof. by destruct a, b. Qed.

Lemma literal_lower l v : source_literal l = Some v -> hir_literal (lower_literal l) = Some (lower_value v).
Proof. destruct l; cbn; intros [= <-]; done. Qed.

Lemma unary_lower op a v :
  op <> Plus -> source_unary op a = Some v -> hir_unary (lower_un_op op) (lower_value a) = Some (lower_value v).
Proof. intros Hp. destruct op, a; cbn; try done; by intros [= <-]. Qed.

Lemma on_ints_lower (f : Z -> Z -> option aval) (g : Z -> Z -> option hval) a b v :
  (forall x y v, f x y = Some v -> g x y = Some (lower_value v)) ->
  on_ints f a b = Some v -> on_ints g (lower_value a) (lower_value b) = Some (lower_value v).
Proof. intros Hf. destruct a, b; cbn; try done. apply Hf. Qed.

Lemma binary_lower op a b v :
  source_binary op a b = Some v -> hir_binary (lower_bin_op op) (lower_value a) (lower_value b) = Some (lower_value v).
Proof.
  destruct op; cbn [source_binary lower_bin_op hir_binary]; try done;
    try (apply on_ints_lower; intros x y w; unfold shift_by, i64; repeat case_match; intros Hw; simplify_eq/=; done).
  all: destruct (eq_prim a b) eqn:E; intros Hv; simplify_eq/=; apply eq_prim_lower in E; by rewrite E.
Qed.

Lemma index_lower a i v : index_prim a i = Some v -> index_prim (lower_value a) (lower_value i) = Some (lower_value v).
Proof.
  destruct a, i; cbn; try done. case_match; [|done]. intros Hv.
  change (map lower_value vs) with (lower_value <$> vs). by rewrite list_lookup_fmap, Hv.
Qed.

Lemma field_lower a f v : field_prim a f = Some v -> field_prim (lower_value a) f = Some (lower_value v).
Proof. destruct a; cbn; try done. intros Hv. pose proof (assoc_map f fields) as E. rewrite Hv in E. exact E. Qed.

Lemma range_lower a b incl v :
  range_prim a b incl = Some v -> range_prim (lower_value a) (lower_value b) incl = Some (lower_value v).
Proof. destruct a, b; cbn; try done. by intros [= <-]. Qed.
End lower_value.

(** ** The numbers of variants *)

Definition few_variants (program : Program) : bool :=
  forallb (fun d => match decl_kind d with
                    | DEnum _ _ e => (Z.of_nat (List.length (en_variants _ e)) <=? 2 ^ 32)%Z
                    | _ => true
                    end) (program_decls program).

Definition variant_names (vs : list (EnumVariant Expr)) : list string := map (fun v => ident_name (ev_name _ v)) vs.

(** A name has the number of its last position. *)
Lemma variant_indices_spec vs n :
  (is_Some (variant_indices vs !! n) <-> n ∈ variant_names vs) /\
  (forall d, variant_indices vs !! n = Some d -> exists i, variant_names vs !! i = Some n /\ d = wrap_u 32 (Z.of_nat i)).
Proof.
  unfold variant_indices. set (step := fun s v => _).
  assert ((fold_left step vs (0%Z, ∅)).1 = Z.of_nat (List.length vs) /\
    (is_Some ((fold_left step vs (0%Z, ∅)).2 !! n) <-> n ∈ variant_names vs) /\
    (forall d, (fold_left step vs (0%Z, ∅)).2 !! n = Some d -> exists i, variant_names vs !! i = Some n /\ d = wrap_u 32 (Z.of_nat i)))
    as [_ H]; [|exact H].
  induction vs as [|v vs IH] using rev_ind.
  { cbn. split; [done|]. split; [|by intros d; rewrite lookup_empty]. rewrite lookup_empty. split; [by intros [? [=]]|by intros ?%elem_of_nil]. }
  unfold variant_names in *. rewrite fold_left_app, map_app, length_app. cbn [fold_left map].
  destruct (fold_left step vs (0%Z, ∅)) as [k m]. destruct IH as (Hk & IH1 & IH2). cbn in *. subst k.
  split; [lia|]. destruct (decide (ident_name (ev_name _ v) = n)) as [<-|Hne].
  - rewrite lookup_insert_eq. split; [split; [intros _; apply elem_of_app; right; by left|eauto]|].
    intros d [= <-]. exists (List.length vs). split; [|done].
    rewrite list_lookup_middle; [done|]. by rewrite length_map.
  - rewrite lookup_insert_ne by done. split; [rewrite IH1, elem_of_app, list_elem_of_singleton; naive_solver|].
    intros d (i & Hi & ->)%IH2. exists i. split; [|done]. by apply lookup_app_l_Some.
Qed.

Lemma variant_index_inj vs n1 n2 d :
  (Z.of_nat (List.length vs) <= 2 ^ 32)%Z -> variant_indices vs !! n1 = Some d -> variant_indices vs !! n2 = Some d -> n1 = n2.
Proof.
  intros Hlen H1 H2. apply (variant_indices_spec vs n1) in H1 as (i & Hi & ->). apply (variant_indices_spec vs n2) in H2 as (j & Hj & E).
  assert (forall k n, variant_names vs !! k = Some n -> in_u 32 (Z.of_nat k)) as Hb.
  { intros k n Hkn%lookup_lt_Some. unfold variant_names in Hkn. rewrite length_map in Hkn. unfold in_u. lia. }
  rewrite !wrap_u_id in E by eauto. assert (i = j) as -> by lia. congruence.
Qed.

(** The index of a program is that of its last enum of a name. *)
Lemma enum_index_spec program en :
  few_variants program = true ->
  match build_enum_variant_index program !! en with
  | Some m => exists vs, (Z.of_nat (List.length vs) <= 2 ^ 32)%Z /\ m = variant_indices vs /\
                enum_variants program en = Some (variant_names vs)
  | None => enum_variants program en = None
  end.
Proof.
  unfold few_variants, build_enum_variant_index, enum_variants. induction (program_decls program) as [|d ds IH] using rev_ind; [done|].
  rewrite forallb_app, fold_left_app, omap_app. intros [Hf Hd]%andb_true_iff. specialize (IH Hf). cbn [forallb] in Hd.
  apply andb_true_iff in Hd as [Hd _]. cbn [fold_left]. destruct (decl_kind d) eqn:Ed; cbn [omap list_omap]; rewrite Ed;
    cbn; rewrite ?app_nil_r; try exact IH.
  destruct (String.eqb_spec (ident_name (en_name _ e)) en) as [<-|Hne].
  - rewrite lookup_insert_eq, last_snoc. exists (en_variants _ e). split; [lia|]. done.
  - rewrite lookup_insert_ne by done. by rewrite app_nil_r.
Qed.

Section numbers.
Context (program : Program) (Hfew : few_variants program = true).
Notation index := (build_enum_variant_index program).

Definition variant_number (tag : string * string) : Z := default 0%Z (variant_discriminant index tag.1 tag.2).

Lemma variant_known en vn :
  program_variant program en vn = true -> variant_discriminant index en vn = Some (variant_number (en, vn)).
Proof.
  unfold program_variant, variant_number, variant_discriminant. cbn. pose proof (enum_index_spec program en Hfew) as H.
  destruct (index !! en) as [m|]; [destruct H as (vs & _ & -> & ->)|by rewrite H].
  intros (n & Hn & <-%String.eqb_eq)%existsb_exists. apply list_elem_of_In in Hn. apply (proj1 (variant_indices_spec vs vn)) in Hn as [d ->]. done.
Qed.

Lemma variant_unknown en vn : program_variant program en vn = false -> variant_discriminant index en vn = None.
Proof.
  unfold program_variant, variant_discriminant. pose proof (enum_index_spec program en Hfew) as H.
  destruct (index !! en) as [m|]; [destruct H as (vs & _ & -> & ->)|done]. intros He.
  destruct (variant_indices vs !! vn) as [d|] eqn:Ed; [|done].
  assert (vn ∈ variant_names vs) as Hin by (apply variant_indices_spec; eauto).
  assert (existsb (String.eqb vn) (variant_names vs) = true); [|congruence].
  apply existsb_exists. exists vn. split; [by apply list_elem_of_In|by apply String.eqb_eq].
Qed.

Lemma variant_number_inj en v1 v2 :
  program_variant program en v1 = true -> program_variant program en v2 = true ->
  variant_number (en, v1) = variant_number (en, v2) -> v1 = v2.
Proof.
  intros H1%variant_known H2%variant_known E. rewrite <- E in H2. revert H1 H2. unfold variant_discriminant.
  pose proof (enum_index_spec program en Hfew) as H. destruct (index !! en) as [m|]; [|done]. destruct H as (vs & Hlen & -> & _).
  intros. by eapply variant_index_inj.
Qed.
End numbers.

(** ** Matching *)

Section matching.
Context (program : Program) (Hfew : few_variants program = true).
Notation index := (build_enum_variant_index program).
Notation number := (variant_number program).
Notation lv := (lower_value number).
Notation lenv := (lower_env number).
Notation is_variant := (program_variant program).
Notation lp := (lowered_pat index).

Definition msim (a : option (option (list (string * aval)))) (a' : option (option (list (string * hval)))) : Prop :=
  forall x, a = Some x -> a' = Some (lenv <$> x).

Lemma msim_and_then a a' b b' : msim a a' -> msim b b' -> msim (and_then a b) (and_then a' b').
Proof.
  intros Ha Hb x. destruct a as [[bs|]|]; cbn; [|by intros [= <-]; rewrite (Ha _ eq_refl)|done].
  rewrite (Ha _ eq_refl). cbn. destruct b as [[bs'|]|]; intros [= <-]; rewrite (Hb _ eq_refl); cbn; [|done].
  unfold lower_env. by rewrite map_app.
Qed.

Lemma msim_or_else a a' b b' : msim a a' -> msim b b' -> msim (or_else a b) (or_else a' b').
Proof.
  intros Ha Hb x. destruct a as [[bs|]|]; cbn; [by intros [= <-]; rewrite (Ha _ eq_refl)|rewrite (Ha _ eq_refl); apply Hb|done].
Qed.

Lemma msim_all f g h (ps : list Pattern) vs :
  Forall (fun p => forall v, msim (f p v) (g (h p) (lv v))) ps ->
  msim (match_all f ps vs) (match_all g (map h ps : list HIRPattern) (map lv vs)).
Proof.
  intros Hp. revert vs. induction Hp as [|p ps Hp _ IH]; intros [|v vs]; cbn; try done; [by intros x [= <-]|].
  apply msim_and_then; [apply Hp|apply IH].
Qed.

Lemma msim_eq w v : msim (match_eq w v) (match_eq (lv w) (lv v)).
Proof.
  intros x. unfold match_eq. destruct (eq_prim w v) as [e|] eqn:E; [|done]. apply (eq_prim_lower number) in E. rewrite E.
  cbn. intros [= <-]. by destruct e.
Qed.

(** The payload of a variant is found by position. *)
Lemma payload_lookup args i v : args !! i = Some v -> payload args ("_" +:+ pretty i) = Some v.
Proof.
  unfold payload, assoc_of.
  assert (forall l k j w, l !! j = Some w ->
    List.find (fun e => String.eqb e.1 ("_" +:+ pretty (k + j)%nat)) (imap (fun i v => ("_" +:+ pretty (k + i)%nat, v)) l)
    = Some ("_" +:+ pretty (k + j)%nat, w : hval)) as H.
  { induction l as [|x l IH]; intros k [|j] w Hw; cbn in Hw; simplify_eq; cbn [imap List.find].
    - by rewrite Nat.add_0_r, String.eqb_refl.
    - cbn [fst]. case_match eqn:E.
      + apply String.eqb_eq in E. apply (inj (String.append "_")), (inj pretty) in E. lia.
      + replace (k + S j)%nat with (S k + j)%nat by lia. rewrite <- (IH (S k) j w Hw). f_equal.
        apply imap_ext. intros i' v' _. cbn [compose]. by replace (k + S i')%nat with (S k + i')%nat by lia. }
  intros Hv. specialize (H args O i v Hv). cbn in H. setoid_rewrite H. done.
Qed.

Lemma numbered_map i ps en :
  numbered i (map (lower_pattern index en) ps) = imap (fun j p => ("_" +:+ pretty (i + j)%nat, Some (lp en p))) ps.
Proof.
  revert i. induction ps as [|p ps IH]; intros i; cbn; [done|]. rewrite lower_pattern_total, IH, Nat.add_0_r. f_equal.
  apply imap_ext. intros. cbn. by rewrite Nat.add_succ_r.
Qed.

Definition hir_sub (f : string * option HIRPattern) (v : hval) : option (option (list (string * hval))) :=
  match f.2 with Some p => hir_match p v | None => None end.

Lemma msim_payload ps vs all k en :
  Forall (fun p => forall v, msim (source_match is_variant p v) (hir_match (lp en p) (lv v))) ps ->
  drop k all = map lv vs ->
  msim (match_all (source_match is_variant) ps vs)
    (match_named fst hir_sub (payload all) (numbered k (map (lower_pattern index en) ps))).
Proof.
  intros Hp. revert vs k. induction Hp as [|p ps Hp _ IH]; intros [|v vs] k Hk; cbn; try done; [by intros x [= <-]|].
  rewrite lower_pattern_total. cbn. assert (all !! k = Some (lv v)) as Hv.
  { by rewrite <- (Nat.add_0_r k), <- lookup_drop, Hk. }
  rewrite (payload_lookup all k (lv v) Hv). apply msim_and_then; [apply Hp|]. apply IH.
  replace (S k) with (k + 1)%nat by lia. rewrite <- drop_drop, Hk. done.
Qed.

Lemma same_variant_path en path fields tag b :
  same_variant is_variant path tag = Some b ->
  exists d, path_variant index path en fields = Some (HPEnumVariant d fields) /\ (d =? number tag)%Z = b.
Proof.
  unfold same_variant, path_variant. destruct (path_segments path) as [|e [|v [|? ?]]] eqn:Ep; try done.
  case_match eqn:Ev; [|done]. intros [= <-]. apply andb_true_iff in Ev as [[H1 H2]%andb_true_iff H3%String.eqb_eq].
  assert (last_name path = ident_name v) as -> by (unfold last_name; by rewrite Ep).
  unfold enum_variant_pattern. rewrite (variant_known program Hfew _ _ H1). exists (number (ident_name e, ident_name v)).
  split; [done|]. destruct tag as [te tv]; cbn in *. subst te. destruct (String.eqb_spec tv (ident_name v)) as [->|Hne]; [apply Z.eqb_refl|].
  apply Z.eqb_neq. intros E. apply Hne. symmetry. by eapply variant_number_inj.
Qed.

Lemma msim_first {P} (f : P -> option (option (list (string * aval)))) (g : P -> option (option (list (string * hval)))) ps :
  Forall (fun p => msim (f p) (g p)) ps -> msim (match_first f ps) (match_first g ps).
Proof. induction 1 as [|p ps Hp _ IH]; cbn; [by intros x [= <-]|]. by apply msim_or_else. Qed.

Lemma or_else_assoc {T} (a b c : option (option (list (string * value T)))) : or_else (or_else a b) c = or_else a (or_else b c).
Proof. by destruct a as [[]|]. Qed.

(** The alternatives of a pattern, one after the other. *)
Lemma or_patterns_match en acc ps v :
  match or_patterns (Some acc) (map (lower_pattern index en) ps) with
  | Ok p => hir_match p v = or_else (hir_match acc v) (match_first (fun p => hir_match (lp en p) v) ps)
  | Err _ => False
  end.
Proof.
  revert acc. induction ps as [|p ps IH]; intros acc; cbn.
  - by destruct (hir_match acc v) as [[]|].
  - rewrite lower_pattern_total. specialize (IH (HPOr acc (lp en p))). destruct (or_patterns _ _); [|done].
    rewrite IH. cbn. apply or_else_assoc.
Qed.

Lemma match_sim en p v : msim (source_match is_variant p v) (hir_match (lp en p) (lv v)).
Proof.
  revert v. induction p as [k s IH] using Pattern_children_ind. intros v. destruct k; cbn in IH |- *.
  - by intros x [= <-].
  - destruct (source_literal l) as [w|] eqn:El; [|done]. rewrite (literal_lower number l w El). apply msim_eq.
  - by intros x [= <-].
  - destruct v; try done. destruct (same_variant is_variant p tag) as [b|] eqn:Es; [|done].
    destruct (same_variant_path en p [] tag b Es) as (d & Hp & Hd). unfold lowered_pat. cbn. rewrite Hp. cbn. rewrite Hd.
    intros x. destruct b; [|by intros [= <-]]. destruct args; [|done]. by intros [= <-].
  - destruct v; try done. unfold lowered_pat. cbn [lower_pattern unwrap].
    rewrite (all_ok_map _ (fun f => (ident_name (spf_name _ f), Some (lp en (spf_pattern _ f))))).
    2: { intros f. by rewrite lower_pattern_total. }
    cbn. destruct (name =? last_name path)%string; [|done].
    induction fields as [|f fs IHf]; cbn in IH |- *; [by intros x [= <-]|]. apply Forall_cons in IH as [Hf IH].
    pose proof (assoc_map number (ident_name (spf_name _ f)) fields0) as Ha. unfold lower_env in Ha. rewrite Ha.
    destruct (assoc_of _ fields0) as [w|]; cbn; [|done]. apply msim_and_then; [apply Hf|by apply IHf].
  - destruct v; try done. destruct (same_variant is_variant path tag) as [b|] eqn:Es; [|done].
    unfold lowered_pat. cbn. destruct (same_variant_path en path (numbered 0 (map (lower_pattern index en) patterns)) tag b Es) as (d & Hp & Hd).
    rewrite Hp. cbn. rewrite Hd. destruct b; [|by intros x [= <-]]. by apply (msim_payload patterns args (map lv args) 0 en).
  - destruct v; try done. unfold lowered_pat. cbn [lower_pattern unwrap].
    rewrite (all_ok_map _ (lp en)) by (intros; apply lower_pattern_total). cbn. by apply msim_all.
  - done.
  - done.
  - unfold lowered_pat. cbn. destruct patterns as [|p ps]; cbn; [done|]. rewrite lower_pattern_total. cbn.
    pose proof (or_patterns_match en (lp en p) ps (lv v)) as Ho. destruct (or_patterns _ _); [|done]. cbn. rewrite Ho.
    apply Forall_cons in IH as [Hp IH]. apply msim_or_else; [apply Hp|]. apply msim_first. eapply Forall_impl; [exact IH|].
    intros q Hq. apply Hq.
Qed.
End matching.

(** ** Expressions *)

(** The unary plus, and calls whose function the checker replaced. *)
Definition core_node (type_env : TypeEnv) (e : Expr) : bool :=
  match e with
  | mkExpr (EUnary Plus _) _ => false
  | mkExpr (ECall _ _) s => negb (is_some (resolved_associated_function (span_lo s) type_env))
  | _ => true
  end.

Section expressions.
Context (program : Program) (Hfew : few_variants program = true) (coverage : bool) (type_env : TypeEnv).
Context (call : string -> list aval -> option aval) (hcall : string -> list hval -> option hval) (fuel : nat).
Notation index := (build_enum_variant_index program).
Notation number := (variant_number program).
Notation lv := (lower_value number).
Notation is_variant := (program_variant program).
Notation lowered := (lowered index coverage type_env).
Notation lower_expr := (lower_expr index coverage type_env).
Notation sim := (sim number).
Notation source := (source_expr is_variant call fuel).
Notation hir := (hir_expr hcall fuel).
Context (Hcall : forall f args v, call f args = Some v -> hcall f (map lv args) = Some (lv v)).

(** The statement for one expression. *)
Definition good (e : Expr) : Prop := sim (source e) (hir (lowered e)).

Lemma sim_marker m l k k' : sim m (hir_stmts hir k' k) -> sim m (hir_stmts hir (marker coverage l ++ k') k).
Proof. unfold marker. by destruct coverage. Qed.

Lemma sim_stmt s m k :
  Forall good (stmt_exprs s) -> sim m k ->
  sim (bind (source_stmt source s) (fun _ => m)) (hir_stmts hir (lower_stmt coverage lower_expr s) k).
Proof.
  unfold lower_stmt, source_stmt, stmt_exprs. intros Hs Hk. cbn [hir_stmts hir_stmt].
  assert (forall l, sim (bind (source_stmt source s) (fun _ => m)) (hir_stmts hir l k) ->
    sim (bind (source_stmt source s) (fun _ => m)) (bind (ret VUnit) (fun _ => hir_stmts hir l k))) as Hret by done.
  destruct (stmt_kind s) as [x ty [e|] is_mut|x ty e|e|d] eqn:Es; cbn in Hs;
    try (apply Forall_cons in Hs as [He _]); try (intros r r' o; cbn; done).
  - cbn. rewrite lower_expr_ok. cbn [ok]. apply (sim_marker _ _ k [_]). cbn. apply sim_bind; [|done].
    apply sim_bind; [done|]. intros v. apply sim_declare.
  - cbn. rewrite lower_expr_ok. apply (sim_marker _ _ k [_]). cbn. apply sim_bind; [|done].
    apply sim_bind; [done|]. intros v. apply sim_declare.
  - cbn. rewrite lower_expr_ok. apply (sim_marker _ _ k [_]). cbn. by apply sim_bind.
Qed.

Lemma hir_stmts_app l1 l2 k r : hir_stmts hir (l1 ++ l2) k r = hir_stmts hir l1 (hir_stmts hir l2 k) r.
Proof.
  revert r. induction l1 as [|s l1 IH]; intros r; cbn; [done|]. unfold bind. destruct (hir_stmt _ s r) as [[r' []]|]; done.
Qed.

Lemma sim_ext m m1 m2 : (forall r, m1 r = m2 r) -> sim m m1 -> sim m m2.
Proof. intros He Hm r r' o Hr. rewrite <- He. by apply Hm. Qed.

Definition run_body (b : HIRBody) : hcomp :=
  hir_stmts hir (body_stmts b) (match body_expr b with Some e => hir e | None => ret VUnit end).

Lemma sim_stmts l :
  Forall good (flat_map stmt_exprs l) -> sim (source_stmts source l) (run_body (lower_stmts coverage lower_expr l)).
Proof.
  induction l as [|s l IH]; intros Hl; [apply (sim_ret number VUnit)|]. cbn [flat_map] in Hl. apply Forall_app in Hl as [Hs Hl].
  destruct l as [|s' l].
  - cbn. unfold stmt_exprs in Hs. destruct (stmt_kind s) as [x ty v is_mut|x ty e|e|d] eqn:Es.
    1, 2, 4: apply (sim_stmt s (ret VUnit) (ret VUnit)); [by unfold stmt_exprs; rewrite Es|apply (sim_ret number VUnit)].
    apply Forall_cons in Hs as [He _]. rewrite lower_expr_ok. unfold run_body. cbn [body_stmts body_expr hir_stmts hir_stmt].
    pose proof (sim_marker (source e) (span_lo (stmt_span s)) (hir (lowered e)) []) as Hm. rewrite app_nil_r in Hm. apply Hm, He.
  - specialize (IH Hl). remember (s' :: l) as l' eqn:El.
    assert (source_stmts source (s :: l') = bind (source_stmt source s) (fun _ => source_stmts source l')) as -> by by subst.
    assert (lower_stmts coverage lower_expr (s :: l') =
      let body := lower_stmts coverage lower_expr l' in
      mkBody (lower_stmt coverage lower_expr s ++ body_stmts body)%list (body_expr body)) as -> by by subst.
    unfold run_body. cbn. eapply sim_ext; [intros r; symmetry; apply hir_stmts_app|]. by apply sim_stmt.
Qed.

Lemma sim_block b : Forall good (block_exprs b) -> sim (source_block source b) (hir_body hir (lower_body coverage lower_expr b)).
Proof. intros Hb. apply sim_scoped, (sim_stmts (block_stmts b)), Hb. Qed.

Lemma sim_exprs es : Forall good es -> Forall2 sim (map source es) (map hir (map lowered es)).
Proof. induction 1; cbn; constructor; done. Qed.

Lemma lower_exprs es : all_ok (map lower_expr es) = map lowered es.
Proof. apply all_ok_map, lower_expr_ok. Qed.

(** The arms of a match. *)
Lemma match_arm en (arm : MatchArm Expr) v :
  match lower_arm_pattern index (arm_patterns arm) en with
  | Ok p => msim program (match_first (fun p => source_match is_variant p v) (arm_patterns arm)) (hir_match p (lv v))
  | Err _ => arm_patterns arm = []
  end.
Proof.
  unfold lower_arm_pattern. destruct (arm_patterns arm) as [|p ps]; [done|]. rewrite lower_pattern_total.
  pose proof (or_patterns_match program en (lowered_pat index en p) ps (lv v)) as Ho. destruct (or_patterns _ _); [|done]. rewrite Ho.
  apply msim_or_else; [by apply match_sim|]. apply msim_first, Forall_forall. intros q _. by apply match_sim.
Qed.

Lemma sim_arms en arms v :
  Forall good (flat_map arm_exprs arms) ->
  sim (source_arms is_variant source arms v) (hir_arms hir (all_ok (map (lower_arm index lower_expr en) arms)) (lv v)).
Proof.
  induction arms as [|arm arms IH]; intros Ha; [apply sim_stuck|]. cbn [flat_map] in Ha. apply Forall_app in Ha as [Harm Ha]. specialize (IH Ha).
  unfold arm_exprs in Harm. apply Forall_app in Harm as [Hg Hb]. apply Forall_cons in Hb as [Hb _].
  cbn [source_arms map]. unfold lower_arm at 1. pose proof (match_arm en arm v) as Hm.
  destruct (lower_arm_pattern index (arm_patterns arm) en) as [p|] eqn:Ep.
  2: { rewrite Hm. cbn. exact IH. }
  rewrite lower_expr_ok. unfold all_ok. cbn [omap list_omap ok hir_arms harm_pat harm_guard harm_body]. fold (all_ok (map (lower_arm index lower_expr en) arms)).
  destruct (match_first _ _) as [m|]; [|apply sim_stuck]. rewrite (Hm m eq_refl). destruct m as [bs|]; cbn [fmap option_fmap option_map]; [|exact IH].
  destruct (arm_guard arm) as [g|]; [|by apply sim_scoped, sim_declare_all].
  cbn in Hg. apply Forall_cons in Hg as [Hg _]. rewrite lower_expr_ok. cbn [ok]. apply sim_bind; [by apply sim_scoped, sim_declare_all|].
  intros c. destruct c as [|[]| | | | | | | |]; cbn; try apply sim_stuck; [by apply sim_scoped, sim_declare_all|exact IH].
Qed.

Lemma sim_else e : good e -> Forall good (expr_children (expr_kind e)) ->
  sim (scoped (source e)) (match lower_else coverage lower_expr e with Some b => hir_body hir b | None => ret VUnit end).
Proof.
  intros He Hc.
  assert (lower_else coverage lower_expr e = Some (mkBody (HSource (span_lo (expr_span e)) :: marker coverage (span_lo (expr_span e))) (Some (lowered e))) \/
    expr_kind e = ELiteral LUnit /\ lower_else coverage lower_expr e = None \/
    exists b, expr_kind e = EBlock b /\ lower_else coverage lower_expr e = Some (lower_body coverage lower_expr b)) as [->|[[Ek ->]|(b & Ek & ->)]].
  { destruct e as [kind span]. unfold lower_else. destruct kind as [[]| | | | | | | | | | | | | | | | | | | | | | | | | | | | | | | | |];
      try (left; rewrite lower_expr_ok; done); [right; by left|right; right; by eexists]. }
  - apply sim_scoped. cbn [body_stmts body_expr hir_stmts hir_stmt].
    pose proof (sim_marker (source e) (span_lo (expr_span e)) (hir (lowered e)) []) as Hm. rewrite app_nil_r in Hm. by apply Hm.
  - destruct e as [kind span]. cbn in Ek. subst kind. intros r r' o [= <- <-]. rewrite Nat.sub_diag. done.
  - destruct e as [kind span]. cbn in Ek. subst kind. cbn in Hc. intros r r' o Hr. apply sim_block in Hc. apply Hc.
    rewrite <- Hr. symmetry. apply scoped_twice.
Qed.

Lemma path_sim p : sim (source_path is_variant p) (hir (match enum_constructor index p with
    | Some (en, vn, d) => HEnumConstruct en vn d []
    | None => match as_simple p with
              | Some ident => HVar (ident_name ident) (ident_symbol ident)
              | None => HVar (String.concat "_" (map ident_name (path_segments p))) SYMBOL_INVALID
              end
    end)).
Proof.
  unfold source_path, enum_constructor, as_simple, is_simple. destruct (path_segments p) as [|x [|y [|? ?]]]; try apply sim_stuck.
  - apply sim_read_var.
  - destruct (program_variant program (ident_name x) (ident_name y)) eqn:Ev; [|apply sim_stuck].
    rewrite (variant_known program Hfew _ _ Ev). apply (sim_ret number (VCtor _ [])).
Qed.

Lemma call_sim f args site ret_ty :
  Forall good args ->
  sim (bind_all (map source args) (source_call is_variant call f))
    (hir (match (match expr_kind f with EPath path => enum_constructor index path | _ => None end) with
          | Some (en, vn, d) => HEnumConstruct en vn d (map lowered args)
          | None => HCall (lowered f) (map lowered args) site ret_ty
          end)).
Proof.
  intros Ha.
  assert (forall vs name sym, lowered f = HVar name sym -> sim (lift (call name vs)) (hir_call hcall (lowered f) (map lv vs))) as Hv.
  { intros vs name sym ->. apply sim_lift. intros v. apply Hcall. }
  unfold source_call. destruct f as [kind span]. cbn [expr_kind].
  destruct kind; try (cbn [hir_expr]; apply sim_bind_all; [by apply sim_exprs|]; intros vs; apply sim_stuck).
  - cbn [hir_expr]. apply sim_bind_all; [by apply sim_exprs|]. intros vs. by eapply Hv.
  - unfold enum_constructor, lowered. destruct (path_segments p) as [|x [|y [|? ?]]] eqn:Ep; try (cbn [hir_expr]; apply sim_bind_all; [by apply sim_exprs|]; intros vs; apply sim_stuck).
    + cbn [hir_expr]. apply sim_bind_all; [by apply sim_exprs|]. intros vs. eapply Hv. unfold lowered, lowered. cbn.
      unfold enum_constructor, as_simple, is_simple. rewrite Ep. done.
    + destruct (program_variant program (ident_name x) (ident_name y)) eqn:Ev.
      * rewrite (variant_known program Hfew _ _ Ev). cbn [hir_expr]. apply sim_bind_all; [by apply sim_exprs|]. intros vs. apply (sim_ret number (VCtor _ vs)).
      * rewrite (variant_unknown program Hfew _ _ Ev). cbn [hir_expr]. apply sim_bind_all; [by apply sim_exprs|]. intros vs. apply sim_stuck.
Qed.

Lemma opt_sim o (k : aval -> acomp) (k' : hval -> hcomp) :
  Forall good (opt_exprs o) -> (forall v, sim (k v) (k' (lv v))) ->
  sim (opt_value source o k) (hir_opt hir (lower_opt lower_expr o) k').
Proof.
  intros Ho Hk. destruct o as [e|]; cbn; [|apply (Hk VUnit)]. apply Forall_cons in Ho as [He _]. rewrite lower_expr_ok. cbn.
  by apply sim_bind.
Qed.

Lemma assign_op_lower op b : to_binop op = Some b -> lower_assign_op op = lower_bin_op b.
Proof. by destruct op; intros [= <-]. Qed.

Lemma target_lower t x : target_var t = Some x -> hir_target (lowered t) = Some x.
Proof. by destruct t as [[] s]. Qed.

(** The lowering of a node in terms of that of its parts. *)
Lemma lowered_eq k s h : lower_expr (mkExpr k s) = Ok h -> lowered (mkExpr k s) = h.
Proof. unfold HirCorrect.lowered. by intros ->. Qed.

Ltac lower_node := erewrite lowered_eq by (cbn [HirLower.lower_expr]; rewrite ?lower_expr_ok, ?lower_exprs; reflexivity).

(** The fields of a struct literal. *)
Lemma sim_struct x ty fs :
  Forall good (map fv_value fs) ->
  sim (bind_all (map (fun fv => source (fv_value fv)) fs) (fun vs => ret (VStruct x (zip (map field_name fs) vs))))
    (hir (HStruct x (map (fun fv => (field_name fv, lowered (fv_value fv))) fs) ty)).
Proof.
  intros Hf. cbn [hir_expr]. rewrite !map_map. cbn [fst snd]. apply sim_bind_all.
  { induction fs as [|f fs IH]; cbn in Hf |- *; [constructor|]. apply Forall_cons in Hf as [Hf Hfs]. constructor; [exact Hf|by apply IH]. }
  intros vs. change (map (fun x => field_name x) fs) with (map field_name fs). rewrite (zip_lower number (map field_name fs) vs). apply (sim_ret number (VStruct x _)).
Qed.

(** The statement for an expression and its parts. *)
Definition deep (e : Expr) : Prop := good e /\ Forall good (expr_children (expr_kind e)).

(** An expression of the core is simulated by its lowering. *)
Lemma expr_step k s :
  core_node type_env (mkExpr k s) = true -> Forall deep (expr_children k) -> good (mkExpr k s).
Proof.
  intros Hcore Hd. assert (Forall good (expr_children k)) as Hc by (eapply Forall_impl; [exact Hd|by intros ? []]).
  unfold good. destruct k; cbn [expr_children] in Hc;
    repeat match goal with H : Forall _ (_ :: _) |- _ => apply Forall_cons in H as [? H] end; try apply sim_stuck.
  - lower_node. apply sim_lift. intros v. apply literal_lower.
  - lower_node. apply sim_read_var.
  - lower_node. apply path_sim.
  - lower_node. destruct op; cbn [source_expr hir_expr lower_bin_op];
      repeat (apply sim_bind; [done|]; intros ?); try (apply sim_lift; intros ?; apply binary_lower).
    all: apply sim_bool; intros []; (done || apply (sim_ret number (VBool _))).
  - lower_node. apply sim_bind; [done|]. intros v. apply sim_lift. intros w. apply unary_lower. by intros ->.
  - cbn in Hcore. destruct (resolved_associated_function (span_lo s) type_env) eqn:Er; [done|].
    pose proof (call_sim func args (Some (span_lo s)) (lower_checked_type <$> resolved_call_return_type (span_lo s) type_env) Hc) as Hs.
    erewrite lowered_eq; [exact Hs|]. cbn [HirLower.lower_expr]. rewrite Er, lower_exprs.
    destruct (match expr_kind func with EPath _ => _ | _ => _ end) as [[[? ?] ?]|]; [done|]. by rewrite lower_expr_ok.
  - lower_node. by apply sim_block.
  - apply Forall_app in Hc as [Ht Ho]. lower_node. apply sim_bind; [done|]. intros v. apply sim_bool. intros [|]; [by apply sim_block|].
    destruct else_branch as [e|]; [|apply (sim_ret number VUnit)]. cbn in Ho. apply Forall_cons in Ho as [He _].
    apply sim_else; [done|]. cbn in Hd. apply Forall_cons in Hd as [_ Hd]. apply Forall_app in Hd as [_ Hd]. by apply Forall_cons in Hd as [[_ Hd] _].
  - lower_node. apply sim_while; [done|]. by apply sim_block.
  - destruct pattern as [[] ?]; try apply sim_stuck. lower_node. apply sim_bind; [done|]. intros v. apply sim_for_range. by apply sim_block.
  - lower_node. apply sim_loop. by apply sim_block.
  - lower_node. apply sim_bind; [done|]. intros v. by apply sim_arms.
  - lower_node. apply opt_sim; [done|]. intros v. apply (sim_jump number (OReturn v)).
  - lower_node. apply opt_sim; [done|]. intros v. apply (sim_jump number (OBreak v)).
  - lower_node. apply (sim_jump number OContinue).
  - lower_node. apply sim_bind; [done|]. intros a. apply sim_bind; [done|]. intros i. apply sim_lift. intros v. apply index_lower.
  - lower_node. apply sim_bind; [done|]. intros a. apply sim_lift. intros v. apply field_lower.
  - lower_node. apply sim_bind_all; [by apply sim_exprs|]. intros vs. apply (sim_ret number (VArray vs)).
  - lower_node. apply sim_bind_all; [by apply sim_exprs|]. intros vs. apply (sim_ret number (VTuple vs)).
  - destruct base; [apply sim_stuck|]. apply Forall_app in Hc as [Hf _]. cbn [source_expr].
    destruct (as_simple path) as [x|] eqn:Ex; [|apply sim_stuck].
    erewrite lowered_eq; [eapply sim_struct, Hf|]. cbn [HirLower.lower_expr]. rewrite Ex.
    rewrite (all_ok_map _ (fun fv => (field_name fv, lowered (fv_value fv)))); [done|].
    intros fv. unfold lower_field. by rewrite lower_expr_ok.
  - cbn [source_expr]. destruct (target_var target) as [x|] eqn:Et; [|apply sim_stuck]. lower_node. cbn [hir_expr].
    rewrite (target_lower _ _ Et). apply sim_bind; [done|]. intros v. apply sim_assign.
  - cbn [source_expr]. destruct (target_var target) as [x|] eqn:Et; [|apply sim_stuck].
    destruct (to_binop op) as [b|] eqn:Eb; [|apply sim_stuck]. lower_node. cbn [hir_expr]. rewrite (target_lower _ _ Et), (assign_op_lower _ _ Eb).
    apply sim_bind; [apply sim_read_var|]. intros a. apply sim_bind; [done|]. intros w. apply sim_bind; [|intros u; apply sim_assign].
    apply sim_lift. intros u. apply binary_lower.
  - destruct start as [a|], end_ as [b|]; try apply sim_stuck. cbn in Hc.
    apply Forall_cons in Hc as [Ha Hc]. apply Forall_cons in Hc as [Hb _].
    erewrite lowered_eq by (cbn [HirLower.lower_expr lower_opt]; rewrite !lower_expr_ok; reflexivity). cbn [ok].
    apply sim_bind; [done|]. intros x. apply sim_bind; [done|]. intros y. apply sim_lift. intros v. apply range_lower.
  - erewrite lowered_eq by (cbn [HirLower.lower_expr]; apply lower_expr_ok). done.
Qed.

Lemma expr_sim e : all_nodes (core_node type_env) e = true -> good e.
Proof.
  intros Hn. assert (deep e) as [He _]; [|done]. revert Hn. induction e as [k s IH] using Expr_children_ind.
  intros Hn. apply all_nodes_inv in Hn as [Hcore Hn]. pose proof (Forall_impl_and _ _ _ IH Hn) as Hd.
  split; [by apply expr_step|]. eapply Forall_impl; [exact Hd|by intros ? []].
Qed.
End expressions.


(** ** Programs *)

Lemma class_bundle_total index coverage type_env (program : Program) c :
  is_Some (lower_class_bundle index coverage type_env c (build_class_index program) (build_trait_index program)).
Proof.
  pose proof (class_index_wf program) as Hwf. unfold lower_class_bundle.
  rewrite resolve_fields_chain, resolve_methods_chain.
  destruct (resolve_total (build_class_index program) (finish_methods (build_class_index program) (build_trait_index program)) c Hwf)
    as [r ->].
  destruct (resolve_total (build_class_index program) finish_fields c Hwf) as [[[fs V]|e] ->]; cbn; eauto.
Qed.

Section programs.
Context (index : gmap string (gmap string Z)) (coverage : bool) (type_env : TypeEnv).
Notation lower_expr := (HirLower.lower_expr index coverage type_env).

(** What the lowering of a function keeps. *)
Definition lowers (f : AFunction) (h : HIRFunction) : Prop :=
  hf_name h = ident_name (fn_name f) /\
  hf_body h = lower_body coverage lower_expr (fn_body f) /\
  (plain_function f = true -> map hp_name (hf_params h) = map (fun p => ident_name (param_name p)) (fn_params f)).

Definition item_function (i : HIRItem) : option HIRFunction := match i with HIFunction f => Some f | _ => None end.
Definition decl_function (d : Decl) : option AFunction := match decl_kind d with DFunction f => Some f | _ => None end.

Lemma lower_function_total f : exists h, lower_function index coverage type_env f = Ok h /\ lowers f h.
Proof.
  unfold lower_function, lower_function_with_self.
  assert (forall o, exists c, lower_contract index coverage type_env o = Ok c) as Hc.
  { intros [e|]; cbn; [rewrite lower_expr_ok|]; eauto. }
  destruct (Hc (fn_precondition f)) as [pre ->]. destruct (Hc (fn_postcondition f)) as [post ->].
  eexists. split; [done|]. split; [done|]. split; [done|]. unfold plain_function. intros Hp.
  destruct (fn_self_param f); [by rewrite andb_false_r in Hp|]. cbn. by rewrite map_map.
Qed.

Lemma lower_top_total (program : Program) d :
  exists items, lower_top index coverage type_env (build_class_index program) (build_trait_index program) d = Some items /\
    Forall2 lowers (option_list (decl_function d)) (omap item_function items).
Proof.
  unfold lower_top, lower_decl, decl_function. destruct (decl_kind d) eqn:Ed.
  1: destruct (lower_function_total f) as (h & -> & Hh); eexists; split; [done|]; constructor; [exact Hh|constructor].
  3: destruct (class_bundle_total index coverage type_env program c) as [b ->]; eexists; split; [done|];
     destruct b as [[st [im|]]|]; constructor.
  all: cbn; unfold map_ok, lower_const, lower_static; rewrite ?lower_expr_ok; eexists; (split; [done|]); constructor.
Qed.

Lemma add_items items m : hmod_items (fold_left (fun m item => add_item item m) items m) = (hmod_items m ++ items)%list.
Proof.
  revert m. induction items as [|i items IH]; intros m; cbn [fold_left]; [by rewrite app_nil_r|].
  rewrite IH. cbn. by rewrite <- app_assoc.
Qed.

(** Every function of the program is in the module, in its order. *)
Lemma lower_decls_total (program : Program) ds m fs :
  Forall2 lowers fs (omap item_function (hmod_items m)) ->
  exists m', lower_decls index coverage type_env (build_class_index program) (build_trait_index program) ds m = Some m' /\
    Forall2 lowers (fs ++ omap decl_function ds)%list (omap item_function (hmod_items m')).
Proof.
  revert m fs. induction ds as [|d ds IH]; intros m fs Hm; cbn [lower_decls].
  { exists m. by rewrite app_nil_r. }
  destruct (lower_top_total program d) as (items & -> & Hi). cbn [mbind option_bind].
  destruct (IH (fold_left (fun m item => add_item item m) items m) (fs ++ option_list (decl_function d))%list) as (m' & Hm' & Hfs).
  { rewrite add_items, omap_app. by apply Forall2_app. }
  exists m'. split; [done|]. rewrite <- app_assoc in Hfs. unfold omap at 1. cbn. by destruct (decl_function d).
Qed.

Definition find_named {A} (name_of : A -> string) (n : string) (l : list A) : option A :=
  head (omap (fun a => if String.eqb (name_of a) n then Some a else None) l).

Lemma omap_compose {A B C'} (f : A -> option B) (g : B -> option C') (l : list A) : omap g (omap f l) = omap (fun a => f a ≫= g) l.
Proof. induction l as [|x l IH]; cbn; [done|]. destruct (f x); cbn; [|done]. destruct (g b); [|done]. by rewrite IH. Qed.

Lemma find_lowers n fs hs f :
  Forall2 lowers fs hs -> find_named (fun f => ident_name (fn_name f)) n fs = Some f ->
  exists h, find_named hf_name n hs = Some h /\ lowers f h.
Proof.
  unfold find_named. induction 1 as [|f' h fs hs Hh _ IH]; cbn; [done|]. pose proof Hh as [-> _].
  destruct (_ =? n)%string; [|done]. intros [= <-]. eauto.
Qed.
End programs.

Lemma source_function_find program n :
  source_function program n = find_named (fun f => ident_name (fn_name f)) n (omap decl_function (program_decls program)).
Proof.
  unfold source_function, find_named. rewrite omap_compose. f_equal. apply list_omap_ext, Forall_Forall2_diag, Forall_forall. intros d _.
  unfold decl_function. by destruct (decl_kind d).
Qed.

Lemma hir_function_find m n : hir_function_named m n = find_named hf_name n (omap item_function (hmod_items m)).
Proof.
  unfold hir_function_named, find_named. rewrite omap_compose. f_equal. apply list_omap_ext, Forall_Forall2_diag, Forall_forall. intros i _. by destruct i.
Qed.

(** Every expression in a function of the program is of the core. *)
Definition core_program (type_env : TypeEnv) (program : Program) : bool :=
  forallb (fun f => forallb (all_nodes (core_node type_env)) (block_exprs (fn_body f))) (omap decl_function (program_decls program)).

(** C4: lowering preserves what a program computes.  Lowering a program ends
    and gives a module, and whatever a function of the program returns for some
    arguments, within some number of calls and iterations, the function of that
    name in the module returns the same, within the same number, where the
    variants of enums have become their numbers.  The program has no enum with
    more variants than 32 bits can number, no unary plus, and no call that the
    checker has resolved to another function. *)
Theorem lowering_preserves (coverage : bool) (program : Program) (type_env : TypeEnv) :
  few_variants program = true -> core_program type_env program = true ->
  exists module, lower_ast coverage program type_env = Some module /\
    forall fuel f args v, run_source program fuel f args = Some v ->
      run_hir module fuel f (map (lower_value (variant_number program)) args) = Some (lower_value (variant_number program) v).
Proof.
  intros Hfew Hcore.
  destruct (lower_decls_total (build_enum_variant_index program) coverage type_env program (program_decls program) (module_new "main") [])
    as (module & Hm & Hfs); [constructor|]. exists module. split; [done|]. cbn [app] in Hfs.
  induction fuel as [|fuel IH]; intros f args v; cbn [run_source run_hir]; [done|].
  rewrite source_function_find, hir_function_find. destruct (find_named _ f _) as [fn|] eqn:Ef; [|done].
  destruct (find_lowers _ _ _ f _ _ fn Hfs Ef) as (h & -> & _ & -> & Hp).
  destruct (plain_function fn) eqn:Epl; [|done]. rewrite (Hp eq_refl). apply call_fun_sim, sim_block.
  apply Forall_forall. intros e He. apply (expr_sim program Hfew coverage type_env _ _ fuel IH).
  unfold core_program in Hcore. rewrite forallb_forall in Hcore.
  assert (In fn (omap decl_function (program_decls program))) as Hin.
  { apply list_elem_of_In. unfold find_named in Ef. apply head_Some_elem_of, list_elem_of_omap in Ef as (f' & Hf' & Hn). case_match; by simplify_eq. }
  apply Hcore in Hin. rewrite forallb_forall in Hin. by apply Hin, list_elem_of_In.
Qed.
