(* ===== verification/HirExamples.v ===== *)
(** Lowering to the HIR on concrete programs: the theorems of HirClasses and
    HirCorrect at work, and programs whose lowering does something else than
    their source says. *)

From S2P Require Import Prelude Ty Ast TypeEnv Hir HirLower HirItems HirClasses HirSem HirCorrect.
From Stdlib Require Import String.

#[local] Open Scope string_scope.

(** ** Building programs *)

Definition name_ (x : string) : Ident := ident_new x span_dummy.
Definition expr_ (k : AExprKind) : Expr := mkExpr k span_dummy.
Definition var_ (x : string) : Expr := expr_ (EIdent (name_ x)).
Definition int_ (z : Z) : Expr := expr_ (ELiteral (LInt z)).
Definition path_ (xs : list string) : Path := mkPath (map name_ xs) span_dummy.
Definition stmt_ (k : StmtKind Expr Decl) : AStmt := mkStmt k span_dummy.
Definition block_ (l : list AStmt) : ABlock := mkBlock l span_dummy.
Definition pat_ (k : PatternKind Pattern) : Pattern := mkPattern k span_dummy.
Definition arm_ (p : Pattern) (e : Expr) : MatchArm Expr := mkMatchArm [p] None e span_dummy.
Definition i64_type : AstType := mkAstType (KPath _ (path_ ["i64"])) span_dummy.
Definition fun_ (name : string) (params : list string) (body : list AStmt) : AFunction :=
  mkFunction _ _ Public (name_ name) [] (map (fun x => mkParam (name_ x) i64_type false span_dummy) params) None None None None
    (block_ body) false None false false None span_dummy.
Definition decl_ (k : DeclKind Expr Decl) : Decl := mkDecl k span_dummy.
Definition enum_ (name : string) (variants : list (string * nat)) : Enum Expr :=
  mkEnum _ Public (name_ name) []
    (map (fun v => mkEnumVariant _ (name_ v.1) (repeat (VUnnamed i64_type) v.2) None span_dummy) variants) span_dummy.
Definition class_ (name : string) (parent : option string) (members : list (ClassMember Expr Decl)) : AClass :=
  mkClass _ _ Public (name_ name) [] ((fun p => path_ [p]) <$> parent) [] members span_dummy.
Definition field_ (x : string) : ClassMember Expr Decl := CMField (mkStructField Public (Some (name_ x)) i64_type span_dummy).

(** ** What lowering keeps *)

(** [enum Shape { Dot, Square(i64), Rect(i64, i64) }], its area, and a sum over
    a loop. *)
Definition shapes : Program := mkProgram [
  decl_ (DEnum _ _ (enum_ "Shape" [("Dot", 0%nat); ("Square", 1%nat); ("Rect", 2%nat)]));
  decl_ (DFunction (fun_ "area" ["s"] [stmt_ (SExpr (expr_ (EMatch (var_ "s") [
    arm_ (pat_ (PPath _ (path_ ["Shape"; "Dot"]))) (int_ 0);
    arm_ (pat_ (PTupleStruct _ (path_ ["Shape"; "Square"]) [pat_ (PIdent _ (name_ "a"))]))
      (expr_ (EBinary BMul (var_ "a") (var_ "a")));
    arm_ (pat_ (PTupleStruct _ (path_ ["Shape"; "Rect"]) [pat_ (PIdent _ (name_ "a")); pat_ (PIdent _ (name_ "b"))]))
      (expr_ (EBinary BMul (var_ "a") (var_ "b")))])))]));
  decl_ (DFunction (fun_ "total" ["n"] [
    stmt_ (SLet (name_ "t") None (Some (int_ 0)) true);
    stmt_ (SExpr (expr_ (EFor (pat_ (PIdent _ (name_ "i"))) (expr_ (ERange (Some (int_ 0)) (Some (var_ "n")) false)) (block_ [
      stmt_ (SExpr (expr_ (EAssignOp AAddAssign (var_ "t") (expr_ (ECall (var_ "area")
        [expr_ (ECall (expr_ (EPath (path_ ["Shape"; "Rect"]))) [var_ "i"; int_ 2])])))))]))));
    stmt_ (SExpr (expr_ (EIf (expr_ (EBinary BGt (var_ "t") (int_ 5))) (block_ [stmt_ (SExpr (var_ "t"))])
      (Some (expr_ (EBlock (block_ [stmt_ (SExpr (expr_ (EUnary Neg (int_ 1))))])))))))]))].

Lemma lowering_preserves_witness :
  exists module, lower_ast true shapes env_empty = Some module /\
    run_hir module 10 "area" [VCtor 2%Z [VInt 3; VInt 4]] = Some (VInt 12) /\
    run_hir module 10 "total" [VInt 4] = Some (VInt 12) /\
    run_hir module 10 "total" [VInt 2] = Some (VInt (-1)).
Proof.
  assert (few_variants shapes = true) as H1 by (vm_compute; reflexivity).
  assert (core_program env_empty shapes = true) as H2 by (vm_compute; reflexivity).
  destruct (lowering_preserves true shapes env_empty H1 H2) as (module & Hm & Hrun).
  exists module. split; [exact Hm|].
  pose proof (Hrun 10%nat "area" [VCtor ("Shape", "Rect") [VInt 3; VInt 4]] (VInt 12)) as Ha.
  pose proof (Hrun 10%nat "total" [VInt 4] (VInt 12)) as Hb. pose proof (Hrun 10%nat "total" [VInt 2] (VInt (-1))) as Hc.
  assert (variant_number shapes ("Shape", "Rect") = 2%Z) as Hn by (vm_compute; reflexivity).
  cbn [map lower_value] in Ha, Hb, Hc. rewrite Hn in Ha.
  split; [apply Ha; vm_compute; reflexivity|]. split; [apply Hb|apply Hc]; vm_compute; reflexivity.
Defined.

(** [class Animal { age; fn speak; fn grow }], [class Dog extends Animal { breed;
    fn fetch; fn speak }]. *)
Definition says (name : string) (z : Z) : ClassMember Expr Decl := CMMethod (fun_ name [] [stmt_ (SExpr (int_ z))]).
Definition Animal : AClass := class_ "Animal" None [field_ "age"; says "speak" 1; says "grow" 2].
Definition Dog : AClass := class_ "Dog" (Some "Animal") [field_ "breed"; says "fetch" 3; says "speak" 4].
Definition animals : Program := mkProgram [decl_ (DClass _ _ Dog); decl_ (DClass _ _ Animal)].

Lemma class_layout_exact_witness :
  exists fields V, resolve_effective_class_fields (class_fuel (build_class_index animals)) Dog (build_class_index animals) ∅ = Some (Ok (fields, V)) /\
    fields.*1 = ["age"; "breed"] /\ NoDup fields.*1.
Proof.
  destruct (class_layout_exact animals Dog ltac:(vm_compute; reflexivity)) as ([[fields V]|e] & Hr & H).
  - exists fields, V. split; [exact Hr|]. split; [|apply H]. vm_compute in Hr. injection Hr as Hf _. subst fields. reflexivity.
  - vm_compute in Hr. discriminate Hr.
Defined.

Lemma class_dispatch_exact_witness :
  exists methods V, resolve_effective_class_methods (class_fuel (build_class_index animals)) Dog (build_class_index animals) ∅ ∅ = Some (Ok (methods, V)) /\
    method_name <$> methods = ["speak"; "grow"; "fetch"] /\
    method_named "speak" methods = Some (fun_ "speak" [] [stmt_ (SExpr (int_ 4))]) /\
    NoDup (method_name <$> methods).
Proof.
  destruct (class_dispatch_exact animals Dog ltac:(vm_compute; reflexivity)) as ([[methods V]|e] & Hr & H).
  - exists methods, V. split; [exact Hr|]. vm_compute in Hr. injection Hr as Hf _.
    split; [subst methods; reflexivity|]. split; [subst methods; reflexivity|apply H].
  - vm_compute in Hr. discriminate Hr.
Defined.

(** ** What lowering does not keep *)

(** What a function of a program returns after lowering. *)
Definition lowered_run (program : Program) (f : string) (args : list (value Z)) : option (value Z) :=
  lower_ast false program env_empty ≫= fun m => run_hir m 10 f args.

(** The unary plus negates. *)
Definition plus_program : Program :=
  mkProgram [decl_ (DFunction (fun_ "f" ["x"] [stmt_ (SExpr (expr_ (EUnary Plus (var_ "x"))))]))].

Theorem unary_plus_negates :
  run_source plus_program 10 "f" [VInt 3] = Some (VInt 3) /\ lowered_run plus_program "f" [VInt 3] = Some (VInt (-3)).
Proof. split; vm_compute; reflexivity. Qed.

(** A range or slice pattern matches every value. *)
Theorem range_pattern_matches_all index en lo hi e s v ps rest :
  (exists p, lower_pattern index en (mkPattern (PRange _ lo hi e) s) = Ok p /\ hir_match p v = Some (Some [])) /\
  (exists p, lower_pattern index en (mkPattern (PSlice _ ps rest) s) = Ok p /\ hir_match p v = Some (Some [])).
Proof. split; eexists; done. Qed.

(** A loop over [_] binds [_loop]: [let _loop = 7; for _ in 0..3 { s += _loop }]
    adds 0, 1 and 2. *)
Definition loop_program : Program := mkProgram [
  decl_ (DFunction (fun_ "f" [] [
    stmt_ (SLet (name_ "_loop") None (Some (int_ 7)) false);
    stmt_ (SLet (name_ "s") None (Some (int_ 0)) true);
    stmt_ (SExpr (expr_ (EFor (pat_ (PWildcard _)) (expr_ (ERange (Some (int_ 0)) (Some (int_ 3)) false))
      (block_ [stmt_ (SExpr (expr_ (EAssignOp AAddAssign (var_ "s") (var_ "_loop"))))]))));
    stmt_ (SExpr (var_ "s"))]))].

Theorem wildcard_loop_captures : lowered_run loop_program "f" [] = Some (VInt 3).
Proof. vm_compute. reflexivity. Qed.

(** The base of a struct literal is dropped: [P { x: 1, ..base }] has no [y]. *)
Definition base_program : Program := mkProgram [
  decl_ (DFunction (fun_ "f" ["base"] [stmt_ (SExpr (expr_ (EStruct (path_ ["P"])
    [mkFieldValue (FieldIdent (name_ "x")) (int_ 1) span_dummy] (Some (var_ "base")))))]))].

Theorem struct_base_dropped :
  lowered_run base_program "f" [VStruct "P" [("x", VInt 5); ("y", VInt 6)]] = Some (VStruct "P" [("x", VInt 1)]).
Proof. vm_compute. reflexivity. Qed.

(** Different methods get the same name: [b_c] of [A] and [c] of [A_b]. *)
Theorem method_names_collide :
  exists f g, lower_function_with_self ∅ false env_empty (fun_ "b_c" [] []) None (Some "A") = Ok f /\
    lower_function_with_self ∅ false env_empty (fun_ "c" [] []) None (Some "A_b") = Ok g /\ hf_name f = hf_name g.
Proof. do 2 eexists. split; [reflexivity|]. split; [reflexivity|]. reflexivity. Qed.
