(* ===== verification/Prune.v ===== *)
(** Leaving out functions that main cannot reach: tools/sgc/src/pipeline/
    ast_pruning.rs and hir_pruning.rs, with the search that they share with
    mir_pruning.rs and source_pruning.rs, and the switches of pipeline.rs.

    A [HashSet] of the targets already recorded always holds the elements of
    the list of targets, and is not a state of its own here. *)

From S2P Require Import Prelude Strs Ast Hir.
From Stdlib Require Import Ascii String.

#[local] Open Scope string_scope.
#[local] Open Scope list_scope.

(** ** The search *)

(** [while let Some(idx) = stack.pop()]; the head of [stack] is its top. *)
Definition push_edges (reachable : gset nat) (targets stack : list nat) : list nat :=
  fold_left (fun stack target => if decide (target ∈ reachable) then stack else target :: stack) targets stack.

Fixpoint reach_loop (edges : nat -> list nat) (fuel : nat) (stack : list nat) (reachable : gset nat) : option (gset nat) :=
  match stack with
  | [] => Some reachable
  | idx :: stack =>
      match fuel with
      | O => None
      | S fuel =>
          if decide (idx ∈ reachable) then reach_loop edges fuel stack reachable
          else let reachable := {[idx]} ∪ reachable in reach_loop edges fuel (push_edges reachable (edges idx) stack) reachable
      end
  end.

(** Every edge is put on the stack at most once. *)
Definition edge_count (n : nat) (edges : nat -> list nat) : nat := sum_list (map (fun i => List.length (edges i)) (seq 0 n)).
Definition reach (n : nat) (edges : nat -> list nat) (stack : list nat) : option (gset nat) :=
  reach_loop edges (List.length stack + edge_count n edges) stack ∅.

(** The index of a name is that of its last function. *)
Definition index_by_name (names : list string) : gmap string nat :=
  fold_left (fun index '(i, name) => <[name := i]> index) (imap pair names) ∅.

Definition ROOT_ASYNC_HELPERS : list string := ["main__async_body"; "main__start"; "main__poll"; "main__result"].
Definition push_roots (index : gmap string nat) (helpers : list string) (stack : list nat) : list nat :=
  fold_left (fun stack helper => match index !! helper with Some idx => idx :: stack | None => stack end) helpers stack.

(** ** Targets *)

Definition push_target (targets : list nat) (idx : nat) : list nat := if decide (idx ∈ targets) then targets else targets ++ [idx].
Definition merge_targets (more targets : list nat) : list nat := fold_left push_target more targets.

Section targets.
Context (index : gmap string nat).

Definition note (name : string) (targets : list nat) : list nat :=
  match index !! name with Some idx => push_target targets idx | None => targets end.

(** *** Of the AST *)

Section ast_blocks.
Context (ev : Expr -> list nat -> list nat) (dv : Decl -> list nat -> list nat).

Definition collect_ast_call_targets_from_stmt (s : AStmt) (targets : list nat) : list nat :=
  match stmt_kind s with
  | SLet _ _ (Some value) _ | SConst _ _ value | SExpr value => ev value targets
  | SLet _ _ None _ => targets
  | SItem decl => dv decl targets
  end.
Definition collect_ast_call_targets_from_block (b : ABlock) : list nat :=
  fold_left (fun targets s => collect_ast_call_targets_from_stmt s targets) (block_stmts b) [].
Definition ast_opt (o : option Expr) (targets : list nat) : list nat := match o with Some e => ev e targets | None => targets end.
Definition ast_all (es : list Expr) (targets : list nat) : list nat := fold_left (fun targets e => ev e targets) es targets.
Definition ast_arm (a : MatchArm Expr) (targets : list nat) : list nat := ev (arm_body a) (ast_opt (arm_guard a) targets).
End ast_blocks.

(** What a call adds for the function it names. *)
Definition ast_callee (f : Expr) (targets : list nat) : list nat :=
  match expr_kind f with
  | EIdent i => note (ident_name i) targets
  | EPath p => match as_simple p with Some i => note (ident_name i) targets | None => targets end
  | _ => targets
  end.

Fixpoint collect_ast_call_targets_from_expr (e : Expr) (targets : list nat) : list nat :=
  let ev := collect_ast_call_targets_from_expr in
  let block b targets :=
    merge_targets (collect_ast_call_targets_from_block collect_ast_call_targets_from_expr collect_ast_call_targets_from_decl b) targets in
  match e with mkExpr kind _ =>
    match kind with
    | ELiteral _ | EContinue => targets
    | EIdent i => note (ident_name i) targets
    | EPath p => match as_simple p with Some i => note (ident_name i) targets | None => targets end
    | EUnary _ x | EAwait x | ETry x | EParen x | EField x _ | ECast x _ | EIs x _ | ELambda _ x => ev x targets
    | EBinary _ l r | EIndex l r | EAssign l r | EAssignOp _ l r => ev r (ev l targets)
    | ECall f args => ast_callee f (ast_all ev args (ev f targets))
    | EMethodCall receiver _ args => ast_all ev args (ev receiver targets)
    | EBlock b | ELoop b | EAsyncBlock b | EParallelBlock b | ETryBlock b => block b targets
    | EIf c t o => ast_opt ev o (block t (ev c targets))
    | EWhile c b | EFor _ c b => block b (ev c targets)
    | EMatch scrutinee arms => fold_left (fun targets a => ast_arm ev a targets) arms (ev scrutinee targets)
    | EReturn o | EBreak o | EYield o => ast_opt ev o targets
    | EArray es | ETuple es => ast_all ev es targets
    | EStruct _ fields base => ast_opt ev base (fold_left (fun targets f => ev (fv_value f) targets) fields targets)
    | ERange a b _ => ast_opt ev b (ast_opt ev a targets)
    end
  end
with collect_ast_call_targets_from_decl (d : Decl) (targets : list nat) : list nat :=
  match d with mkDecl kind _ =>
    match kind with
    | DFunction f =>
        merge_targets (collect_ast_call_targets_from_block collect_ast_call_targets_from_expr collect_ast_call_targets_from_decl (fn_body f)) targets
    | DConst _ _ c => collect_ast_call_targets_from_expr (co_value _ c) targets
    | DStatic _ _ s => collect_ast_call_targets_from_expr (sc_value _ s) targets
    | DModule _ _ m => fold_left (fun targets d => collect_ast_call_targets_from_decl d targets) (mo_items _ m) targets
    | _ => targets
    end
  end.

(** The functions a function calls, in its body and its contracts. *)
Definition ast_function_targets (f : Function_ Expr Decl) : list nat :=
  let ev := collect_ast_call_targets_from_expr in
  ast_opt ev (fn_postcondition _ _ f) (ast_opt ev (fn_precondition _ _ f)
    (collect_ast_call_targets_from_block ev collect_ast_call_targets_from_decl (fn_body f))).

(** *** Of the HIR *)

Section hir_bodies.
Context (ev : HIRExpr -> list nat -> list nat).

Definition hir_opt_targets (o : option HIRExpr) (targets : list nat) : list nat := match o with Some e => ev e targets | None => targets end.
Definition hir_all (es : list HIRExpr) (targets : list nat) : list nat := fold_left (fun targets e => ev e targets) es targets.

Definition collect_hir_call_targets_from_stmt (s : HIRStmt) (targets : list nat) : list nat :=
  match s with
  | HSource _ | HCoverage _ | HItem => targets
  | HLet _ _ _ value _ => hir_opt_targets value targets
  | HSExpr e => ev e targets
  end.
Definition hir_body_targets (b : HIRBody) (targets : list nat) : list nat :=
  hir_opt_targets (body_expr b) (fold_left (fun targets s => collect_hir_call_targets_from_stmt s targets) (body_stmts b) targets).
Definition collect_hir_call_targets_from_body (b : HIRBody) : list nat := hir_body_targets b [].

Fixpoint collect_hir_call_targets_from_pattern (p : HIRPattern) (targets : list nat) : list nat :=
  let all := fold_left (fun targets p => collect_hir_call_targets_from_pattern p targets) in
  let fields :=
    fold_left (fun targets (f : string * option HIRPattern) =>
      match f.2 with Some p => collect_hir_call_targets_from_pattern p targets | None => targets end) in
  match p with
  | HPWild | HPLit _ | HPVar _ _ _ => targets
  | HPEnumVariant _ fs | HPStruct _ fs => fields fs targets
  | HPTuple ps => all ps targets
  | HPOr l r => collect_hir_call_targets_from_pattern r (collect_hir_call_targets_from_pattern l targets)
  | HPSlice before rest after =>
      all after (match rest with
                 | Some p => collect_hir_call_targets_from_pattern p (all before targets)
                 | None => all before targets
                 end)
  | HPRange a b => hir_opt_targets b (hir_opt_targets a targets)
  | HPRef p | HPRefMut p => collect_hir_call_targets_from_pattern p targets
  end.

Definition hir_arm (a : HIRMatchArm) (targets : list nat) : list nat :=
  ev (harm_body a) (hir_opt_targets (harm_guard a) (collect_hir_call_targets_from_pattern (harm_pat a) targets)).
End hir_bodies.

Fixpoint collect_hir_call_targets_from_expr (e : HIRExpr) (targets : list nat) : list nat :=
  let ev := collect_hir_call_targets_from_expr in
  let body b targets := merge_targets (collect_hir_call_targets_from_body collect_hir_call_targets_from_expr b) targets in
  match e with
  | HLit _ | HContinue => targets
  | HVar name _ => note name targets
  | HUnary _ x | HCast x _ | HAscribe x _ | HRefE _ x | HDerefE x | HAwait x | HTry x | HField x _ | HLambda _ x => ev x targets
  | HBinary _ l r | HAnd l r | HOr l r | HIndex l r | HAssign l r | HAssignOp l _ r => ev r (ev l targets)
  | HIf c t o => match o with Some b => body b (body t (ev c targets)) | None => body t (ev c targets) end
  | HMatch scrutinee arms => fold_left (fun targets a => hir_arm ev a targets) arms (ev scrutinee targets)
  | HLoop b | HBlock b | HTryBlock b => body b targets
  | HWhile c b | HFor _ _ c b => body b (ev c targets)
  | HCall f args _ _ =>
      let targets := hir_all ev args (ev f targets) in
      match f with HVar name _ => note name targets | _ => targets end
  | HEnumConstruct _ _ _ args => hir_all ev args targets
  | HMethodCall receiver _ args _ => hir_all ev args (ev receiver targets)
  | HStruct _ fields _ => fold_left (fun targets f => ev f.2 targets) fields targets
  | HArray es | HTupleE es => hir_all ev es targets
  | HReturn o | HBreak o => hir_opt_targets ev o targets
  | HRange a b _ => hir_opt_targets ev b (hir_opt_targets ev a targets)
  | HAsyncBlock b => hir_body_targets ev b targets
  end.

Definition hir_function_targets (f : HIRFunction) : list nat :=
  let ev := collect_hir_call_targets_from_expr in
  hir_opt_targets ev (hf_postcondition f) (hir_opt_targets ev (hf_precondition f) (collect_hir_call_targets_from_body ev (hf_body f))).
End targets.

(** ** Pruning

    [None] stands for fuel that is not enough, which does not happen
    ([reach_total]). *)

(** The functions, given by their names and targets, that main reaches;
    [Some None] without a main. *)
Definition reachable_functions {F} (name : F -> string) (targets : gmap string nat -> F -> list nat) (functions : list F) :
    option (option (gmap string nat * gset nat)) :=
  let index := index_by_name (map name functions) in
  match index !! "main" with
  | None => Some None
  | Some main_index =>
      let edges idx := match functions !! idx with Some f => targets index f | None => [] end in
      let* reachable := reach (List.length functions) edges (push_roots index ROOT_ASYNC_HELPERS [main_index]) in
      Some (Some (index, reachable))
  end.

Definition ast_functions (decls : list Decl) : list (Function_ Expr Decl) :=
  omap (fun d => match decl_kind d with DFunction f => Some f | _ => None end) decls.
Definition ast_function_name (f : Function_ Expr Decl) : string := ident_name (fn_name _ _ f).

Definition ast_function_count (program : Program) : nat := List.length (ast_functions (program_decls program)).

Definition reachable_ast_function_names (program : Program) : option (option (gset string)) :=
  match ast_functions (program_decls program) with
  | [] => Some (Some ∅)
  | functions =>
      let* found := reachable_functions ast_function_name ast_function_targets functions in
      Some (match found with
            | None => None
            | Some (_, reachable) =>
                Some (list_to_set (omap (fun '(i, f) => if decide (i ∈ reachable) then Some (ast_function_name f) else None) (imap pair functions)))
            end)
  end.

Definition keeps_decl (keep_names : gset string) (d : Decl) : bool :=
  match decl_kind d with DFunction f => bool_decide (ast_function_name f ∈ keep_names) | _ => true end.
Definition prune_ast_functions_by_name_set (program : Program) (keep_names : gset string) : Program * nat :=
  let kept := List.filter (keeps_decl keep_names) (program_decls program) in
  (mkProgram kept, List.length (program_decls program) - List.length kept).

Definition prune_unreachable_ast_functions (program : Program) : option (Program * nat) :=
  if Nat.leb (ast_function_count program) 1 then Some (program, 0) else
  let* names := reachable_ast_function_names program in
  Some (match names with
        | None => (program, 0)
        | Some keep_names => prune_ast_functions_by_name_set program keep_names
        end).

Definition hir_functions (items : list HIRItem) : list HIRFunction :=
  omap (fun i => match i with HIFunction f => Some f | _ => None end) items.
Definition hir_function_count (items : list HIRItem) : nat := List.length (hir_functions items).

Definition keeps_item (index : gmap string nat) (reachable : gset nat) (i : HIRItem) : bool :=
  match i with
  | HIFunction f => match index !! hf_name f with Some idx => bool_decide (idx ∈ reachable) | None => true end
  | _ => true
  end.

Definition prune_unreachable_hir_functions (items : list HIRItem) : option (list HIRItem * nat) :=
  if Nat.leb (hir_function_count items) 1 then Some (items, 0) else
  let* found := reachable_functions hf_name hir_function_targets (hir_functions items) in
  Some (match found with
        | None => (items, 0)
        | Some (index, reachable) =>
            let kept := List.filter (keeps_item index reachable) items in
            (kept, List.length items - List.length kept)
        end).

(** ** When to prune

    A switch is the override a command line option sets, or the environment
    variable, or a default.  [env] gives the variables, [parse_usize] is
    [str::parse::<usize>]. *)

Definition DEFAULT_HIR_PRUNE_MIN_FUNCTIONS : Z := 20000.
Definition DEFAULT_TYPECK_FILTER_MIN_FUNCTIONS : Z := DEFAULT_HIR_PRUNE_MIN_FUNCTIONS.
Definition USIZE_MAX : Z := 2 ^ 64 - 1.

Definition to_ascii_lowercase (s : string) : string :=
  string_of_list_ascii (map (fun c => if is_ascii_uppercase c
                                      then Ascii.ascii_of_nat (Ascii.nat_of_ascii c + 32) else c) (list_ascii_of_string s)).
Definition is_one (words : list string) (raw : string) : bool := existsb (String.eqb (to_ascii_lowercase (trim raw))) words.
Definition YES : list string := ["1"; "true"; "on"; "yes"; "enable"; "enabled"].
Definition NO : list string := ["0"; "false"; "off"; "no"; "disable"; "disabled"].

(** An override is kept as a number: 0 for none, 1 and -1. *)
Definition encode_mode_override (value : option bool) : Z := match value with Some true => 1 | Some false => -1 | None => 0 end.
Definition decode_mode_override (value : Z) : option bool :=
  if (value =? 1)%Z then Some true else if (value =? -1)%Z then Some false else None.

(** The new value, and the old one. *)
Definition set_mode_override (value : option bool) (cell : Z) : Z * option bool := (encode_mode_override value, decode_mode_override cell).

Definition parse_large_project_mode_env (raw : string) : option bool :=
  if is_one YES raw then Some true else if is_one NO raw then Some false else None.
Definition parse_contract_checks_env (raw : string) : option (option bool) :=
  if is_one YES raw then Some (Some true) else if is_one NO raw then Some (Some false) else if is_one ["auto"] raw then Some None else None.

Section switches.
Context (env : string -> option string) (parse_usize : string -> option Z).

Definition contract_runtime_checks_enabled (cell : Z) (opt_level : Z) : bool :=
  match decode_mode_override cell with
  | Some mode => mode
  | None =>
      match env "SENGOO_CONTRACT_CHECKS" ≫= parse_contract_checks_env with
      | Some parsed => default (opt_level <=? 1)%Z parsed
      | None => false
      end
  end.

Definition large_project_optimization_enabled (cell : Z) : bool :=
  match decode_mode_override cell with
  | Some mode => mode
  | None => default true (env "SENGOO_LARGE_PROJECT_MODE" ≫= parse_large_project_mode_env)
  end.

Definition min_functions (variable : string) (default_ : Z) : Z :=
  match env variable ≫= parse_usize with
  | Some 0%Z => USIZE_MAX
  | Some value => value
  | None => default_
  end.
Definition hir_prune_min_functions : Z := min_functions "SENGOO_HIR_PRUNE_MIN_FUNCTIONS" DEFAULT_HIR_PRUNE_MIN_FUNCTIONS.
Definition typeck_filter_min_functions : Z := min_functions "SENGOO_TYPECK_FILTER_MIN_FUNCTIONS" DEFAULT_TYPECK_FILTER_MIN_FUNCTIONS.

Definition should_prune_unreachable_hir_in_default_mode (cell : Z) (items : list HIRItem) : bool :=
  large_project_optimization_enabled cell && (hir_prune_min_functions <=? Z.of_nat (hir_function_count items))%Z.
Definition should_prune_unreachable_ast_in_default_mode (cell : Z) (program : Program) : bool :=
  large_project_optimization_enabled cell && (hir_prune_min_functions <=? Z.of_nat (ast_function_count program))%Z.
Definition should_filter_typecheck_function_bodies_in_default_mode (cell : Z) (program : Program) : bool :=
  large_project_optimization_enabled cell && (typeck_filter_min_functions <=? Z.of_nat (ast_function_count program))%Z.
End switches.
