(* ===== verification/PruneMirSource.v ===== *)
(** Leaving out functions that main cannot reach from the MIR and from a large
    plain source text, before it is parsed:
    tools/sgc/src/pipeline/mir_pruning.rs and source_pruning.rs. *)

From S2P Require Import Prelude Strs Mir Scanner ExpandText Prune.
From Stdlib Require Import Ascii String.

#[local] Open Scope string_scope.
#[local] Open Scope list_scope.

#[local] Notation text := (list ascii) (only parsing).
#[local] Notation chars := list_ascii_of_string (only parsing).
#[local] Notation str := string_of_list_ascii (only parsing).

(** compiler/src/mir/dyn_dispatch.rs *)
Definition VTABLE_SHIM_PREFIX : string := "__dynshim".

(** [str::replace]; the pattern is not empty. *)
Fixpoint replace_all (fuel : nat) (pattern with_ s : list ascii) : list ascii :=
  match fuel, find_text pattern s with
  | S fuel, Some k => take k s ++ with_ ++ replace_all fuel pattern with_ (drop (k + List.length pattern) s)
  | _, _ => s
  end.
Definition replace (pattern with_ s : string) : string :=
  str (replace_all (String.length s) (chars pattern) (chars with_) (chars s)).

Definition MIR_ROOT_HELPERS : list string :=
  ROOT_ASYNC_HELPERS ++
  ["sengoo_async_poll_dispatch"; "sengoo_async_cancel_dispatch"; "sengoo_async_drop_dispatch"; "sengoo_async_result_dispatch_i8";
   "sengoo_async_result_dispatch_i16"; "sengoo_async_result_dispatch_i32"; "sengoo_async_result_dispatch_i64";
   "sengoo_async_result_dispatch_bool"; "sengoo_async_result_dispatch_f32"; "sengoo_async_result_dispatch_f64"].

Section mir_targets.
Context (index : gmap string nat).

Definition inst_target (inst : Instruction) (targets : list nat) : list nat :=
  match inst with
  | ICall _ func _ => note index func targets
  | IAssign _ (CGlobalRef name) => note index name targets
  | _ => targets
  end.
Definition terminator_targets (t : option Terminator) (targets : list nat) : list nat :=
  match t with
  | Some (TCall func _ _ _) => note index func targets
  | Some (TSuspend poll_func _ _ _ _) =>
      note index (replace "__poll" "__start" poll_func)
        (note index (replace "__poll" "__result" poll_func) (note index poll_func targets))
  | _ => targets
  end.

(** [None]: a block has an id that the function has no instruction for. *)
Definition block_targets (f : MirFunction) (b : BasicBlock) (targets : list nat) : option (list nat) :=
  let* insts := block_instructions f b in
  Some (terminator_targets (terminator b) (fold_left (fun targets inst => inst_target inst targets) insts targets)).
Definition collect_mir_call_targets (f : MirFunction) : option (list nat) :=
  foldl (fun targets b => let* targets := targets in block_targets f b targets) (Some []) (basic_blocks f).
End mir_targets.

(** Functions that are called through pointers. *)
Definition called_indirectly (f : MirFunction) : bool :=
  String.prefix "$__lambda" (fn_name f) || String.prefix VTABLE_SHIM_PREFIX (fn_name f).

Definition keeps_mir (index : gmap string nat) (reachable : gset nat) (f : MirFunction) : bool :=
  match index !! fn_name f with Some idx => bool_decide (idx ∈ reachable) | None => false end.

Definition mir_stack (index : gmap string nat) (main_index : nat) (mir_fns : list MirFunction) : list nat :=
  reverse (omap (fun '(i, f) => if called_indirectly f then Some i else None) (imap pair mir_fns)) ++
  push_roots index MIR_ROOT_HELPERS [main_index].

Definition prune_unreachable_mir_functions (mir_fns : list MirFunction) : option (list MirFunction * nat) :=
  if Nat.leb (List.length mir_fns) 1 then Some (mir_fns, 0) else
  let index := index_by_name (map fn_name mir_fns) in
  match index !! "main" with
  | None => Some (mir_fns, 0)
  | Some main_index =>
      let* targets := mapM (collect_mir_call_targets index) mir_fns in
      let* reachable := reach (List.length mir_fns) (fun idx => default [] (targets !! idx)) (mir_stack index main_index mir_fns) in
      let kept := List.filter (keeps_mir index reachable) mir_fns in
      Some (kept, List.length mir_fns - List.length kept)
  end.

(** ** Source texts *)

Record SourcePruneResult := mkSourcePruneResult { sp_source : text; sp_removed_functions : nat }.

(** A range is its bounds. *)
Record FunctionSlice := mkFunctionSlice { fs_name : text; fs_range : nat * nat; fs_body : nat * nat }.

Definition NOT_PLAIN : list text :=
  [[QUOTE]; ["'"%char]; ["#"%char]; chars "//"; chars "/*"] ++
  map (fun s => chars s) ["import"; "extern"; "requires"; "ensures"; "class"; "struct"; "enum"; "trait"; "impl"; "macro_rules!"].
Definition plain_source_prefilter_allows (source : text) : bool :=
  forallb (fun pattern => negb (is_some (find_text pattern source))) NOT_PLAIN.

Definition starts_with_keyword (bytes : text) (cursor : nat) (keyword : text) : bool :=
  starts keyword (drop cursor bytes) && negb (default false (is_ident_continue <$> bytes !! (cursor + List.length keyword))).

Definition find_next_byte (bytes : text) (cursor : nat) (target : ascii) : option nat :=
  while_bytes (List.length bytes)
    (fun cursor _ => if bool_decide (bytes !! cursor = Some target) then inr (Some cursor) else inl (S cursor, tt))
    (fun _ _ => None) cursor tt.

(** The position behind the brace that closes the one at [open]. *)
Definition find_matching_brace (bytes : text) (open : nat) : option nat :=
  while_bytes (List.length bytes)
    (fun cursor depth =>
       if bool_decide (bytes !! cursor = Some "{"%char) then inl (S cursor, S depth)
       else if bool_decide (bytes !! cursor = Some "}"%char) then
         match depth with
         | O => inr None
         | S O => inr (Some (S cursor))
         | S depth => inl (S cursor, depth)
         end
       else inl (S cursor, depth))
    (fun _ _ => None) open 0.

(** The function at [cursor]: its slice, which ends where the next one may begin. *)
Definition scan_function (source : text) (function_start : nat) : option FunctionSlice :=
  if negb (starts_with_keyword source function_start (chars "def")) then None else
  match parse_ident_range source (skip_ws source (function_start + 3)) with
  | None => None
  | Some (name_start, name_end) =>
      let* open_brace := find_next_byte source name_end "{" in
      let* close_brace := find_matching_brace source open_brace in
      Some (mkFunctionSlice (sub_text name_start name_end source) (function_start, close_brace) (S open_brace, close_brace - 1))
  end.

Definition scan_plain_top_level_functions (source : text) : option (list FunctionSlice) :=
  while_bytes (List.length source)
    (fun cursor functions =>
       let cursor := skip_ws source cursor in
       if Nat.leb (List.length source) cursor then inr (Some functions)
       else match scan_function source cursor with
            | None => inr None
            | Some f => inl (snd (fs_range f), functions ++ [f])
            end)
    (fun _ functions => Some functions) 0 [].

(** The functions whose names occur in a body, in order. *)
Definition collect_call_targets (index : gmap string nat) (body : text) : list nat :=
  while_bytes (List.length body)
    (fun cursor targets =>
       match parse_ident_range body cursor with
       | None => inl (S cursor, targets)
       | Some (start, end_) =>
           match index !! str (sub_text start end_ body) with
           | Some idx => inl (end_, targets ++ [idx])
           | None => inl (end_, targets)
           end
       end)
    (fun _ targets => targets) 0 [].

Definition slice_text (source : text) (range : nat * nat) : text := sub_text range.1 range.2 source.

(** The kept functions, with an empty line between two of them. *)
Definition join_functions (slices : list text) : text :=
  fold_left (fun pruned s => (if bool_decide (pruned = []) then [] else pruned ++ [NEWLINE; NEWLINE]) ++ s) slices [] ++ [NEWLINE].

Definition prune_plain_functions (source : text) (functions : list FunctionSlice) : option (option SourcePruneResult) :=
  let names := map (fun f => str (fs_name f)) functions in
  let index := index_by_name names in
  if negb (bool_decide (NoDup names)) then Some None else
  match index !! "main" with
  | None => Some None
  | Some main_index =>
      let edges idx := match functions !! idx with Some f => collect_call_targets index (slice_text source (fs_body f)) | None => [] end in
      let* reachable := reach (List.length functions) edges (push_roots index ROOT_ASYNC_HELPERS [main_index]) in
      let kept := omap (fun '(i, f) => if decide (i ∈ reachable) then Some f else None) (imap pair functions) in
      let count := List.length kept in
      Some (if Nat.eqb count 0 || Nat.eqb count (List.length functions) then None
            else Some (mkSourcePruneResult (join_functions (map (fun f => slice_text source (fs_range f)) kept))
                         (List.length functions - count)))
  end.

Definition prune_unreachable_plain_source_functions (source : text) (min_functions : Z) : option (option SourcePruneResult) :=
  if (Z.of_nat (List.length source) <? 1000000)%Z || negb (plain_source_prefilter_allows source) then Some None else
  match scan_plain_top_level_functions source with
  | None => Some None
  | Some functions =>
      if (Z.of_nat (List.length functions) <? min_functions)%Z then Some None else prune_plain_functions source functions
  end.
