(* ===== verification/PruneInv.v ===== *)
(** What pruning keeps: the search finds exactly the functions that can be
    reached ([reach_exact]) and always ends ([reach_total]); a program from which
    functions were left out, as an AST or as HIR, does what it did before
    ([ast_pruning_preserves], [hir_pruning_preserves]), and no MIR function that
    is kept refers to one that is not ([mir_pruning_exact]).  Calls from methods
    are not followed, which is shown at the end. *)

From S2P Require Import Prelude Ast TypeEnv Parser ParserDecl DeriveExpander ExpandInv Hir HirLower HirItems HirSem Prune.
From Stdlib Require Import Ascii String FunctionalExtensionality.

#[local] Open Scope string_scope.
#[local] Open Scope list_scope.

(** ** The search *)

Section search.
Context (edges : nat -> list nat).

Lemma push_edges_elem reachable targets stack y :
  y ∈ push_edges reachable targets stack <-> y ∈ stack \/ y ∈ targets /\ y ∉ reachable.
Proof.
  revert stack. induction targets as [|t targets IH]; intros stack; cbn; [set_solver|].
  change (y ∈ push_edges reachable targets (if decide (t ∈ reachable) then stack else t :: stack) <->
    y ∈ stack \/ y ∈ t :: targets /\ y ∉ reachable).
  rewrite IH. case_decide; set_solver.
Qed.

Lemma push_edges_length reachable targets stack : List.length (push_edges reachable targets stack) <= List.length stack + List.length targets.
Proof.
  revert stack. induction targets as [|t targets IH]; intros stack; cbn; [lia|].
  etrans; [apply (IH (if decide (t ∈ reachable) then stack else t :: stack))|]. case_decide; simpl; lia.
Qed.

Definition reached_from (start : list nat) (x : nat) : Prop := exists r, r ∈ start /\ rtc (fun x y => y ∈ edges x) r x.

Lemma search_loop_exact start fuel : forall stack (S R : gset nat),
  (forall x, x ∈ stack \/ x ∈ S -> reached_from start x) -> (forall x, x ∈ start -> x ∈ stack \/ x ∈ S) ->
  (forall x y, x ∈ S -> y ∈ edges x -> y ∈ stack \/ y ∈ S) ->
  reach_loop edges fuel stack S = Some R -> forall x, x ∈ R <-> reached_from start x.
Proof.
  induction fuel as [|fuel IH]; intros [|i stack] S R Hs Hst Hc; cbn [reach_loop]; try done.
  1,2: intros [= <-] x; split; [intros ?; apply Hs; by right|];
    intros (r & Hr & Hp); destruct (Hst r Hr) as [?%elem_of_nil|HS]; [done|];
    clear Hr; induction Hp as [|a b c Hab _ IHp]; [done|]; apply IHp; destruct (Hc a b HS Hab) as [?%elem_of_nil|]; done.
  case_decide as Hi.
  - apply IH.
    + intros x Hx. apply Hs. set_solver.
    + intros x Hx. destruct (Hst x Hx); set_solver.
    + intros x y Hx Hy. destruct (Hc x y Hx Hy); set_solver.
  - apply IH.
    + intros x. rewrite push_edges_elem. intros [[Hx|[Hx _]]|Hx]; [apply Hs; set_solver| |apply Hs; set_solver].
      destruct (Hs i) as (r & Hr & Hp); [set_solver|]. exists r. split; [done|]. by eapply rtc_r.
    + intros x Hx. rewrite push_edges_elem. destruct (Hst x Hx); set_solver.
    + intros x y Hx Hy. rewrite push_edges_elem. destruct (decide (y ∈ ({[i]} ∪ S : gset nat))); [by right|left].
      destruct (decide (x = i)) as [->|]; [by right|]. destruct (Hc x y); set_solver.
Qed.

Context (n : nat) (Hn : forall i, n <= i -> edges i = []).

Definition rest_count (S : gset nat) (l : list nat) : nat := sum_list (map (fun i => if decide (i ∈ S) then 0 else List.length (edges i)) l).

Lemma rest_count_mark S i l : NoDup l -> i ∈ l -> i ∉ S -> rest_count ({[i]} ∪ S) l + List.length (edges i) <= rest_count S l.
Proof.
  unfold rest_count. induction l as [|j l IH]; [by intros _ ?%elem_of_nil|]. intros [Hj Hl]%NoDup_cons [->|Hi]%elem_of_cons HS; cbn.
  - destruct (decide (j ∈ ({[j]} ∪ S : gset nat))) as [|Hx]; [|set_solver].
    destruct (decide (j ∈ S)); [done|]. clear IH Hl.
    enough (sum_list (map (fun i => if decide (i ∈ ({[j]} ∪ S : gset nat)) then 0 else List.length (edges i)) l) =
            sum_list (map (fun i => if decide (i ∈ S) then 0 else List.length (edges i)) l)) as -> by lia.
    f_equal. apply map_ext_in. intros k Hk%list_elem_of_In. assert (k <> j) by set_solver.
    destruct (decide (k ∈ ({[j]} ∪ S : gset nat))), (decide (k ∈ S)); set_solver.
  - specialize (IH Hl Hi HS). assert (i <> j) by set_solver.
    destruct (decide (j ∈ ({[i]} ∪ S : gset nat))), (decide (j ∈ S)); try lia; set_solver.
Qed.

Lemma search_loop_total fuel : forall stack S, List.length stack + rest_count S (seq 0 n) <= fuel -> is_Some (reach_loop edges fuel stack S).
Proof.
  induction fuel as [|fuel IH]; intros [|i stack] S Hf; cbn [reach_loop]; try by eexists. { simpl in Hf. lia. }
  simpl in Hf. case_decide as Hi; apply IH; [lia|]. pose proof (push_edges_length ({[i]} ∪ S) (edges i) stack).
  destruct (decide (i < n)) as [Hlt|Hge].
  - pose proof (rest_count_mark S i (seq 0 n) (NoDup_seq _ _) ltac:(apply elem_of_seq; lia) Hi). lia.
  - rewrite (Hn i) in * by lia. simpl in *.
    enough (rest_count ({[i]} ∪ S) (seq 0 n) <= rest_count S (seq 0 n)) by lia.
    unfold rest_count. enough (map (fun j => if decide (j ∈ ({[i]} ∪ S : gset nat)) then 0 else List.length (edges j)) (seq 0 n) =
      map (fun j => if decide (j ∈ S) then 0 else List.length (edges j)) (seq 0 n)) as -> by lia.
    apply map_ext_in. intros k [_ Hk]%in_seq. assert (k <> i) by lia.
    destruct (decide (k ∈ ({[i]} ∪ S : gset nat))), (decide (k ∈ S)); set_solver.
Qed.

Lemma reach_total stack : is_Some (reach n edges stack).
Proof.
  apply search_loop_total. unfold edge_count, rest_count. apply Nat.add_le_mono_l.
  induction (seq 0 n) as [|i l IH]; cbn; [done|]. case_decide; lia.
Qed.

Lemma reach_exact stack R : reach n edges stack = Some R -> forall x, x ∈ R <-> reached_from stack x.
Proof. apply search_loop_exact; [|set_solver..]. intros x [Hx|?]; [by exists x|set_solver]. Qed.
End search.

(** ** Names and indices *)

Lemma index_by_name_some names name i : index_by_name names !! name = Some i -> names !! i = Some name.
Proof.
  unfold index_by_name. revert i. induction names as [|x names IH] using rev_ind; intros i; [done|].
  rewrite imap_app, fold_left_app. cbn [imap fold_left]. rewrite Nat.add_0_r.
  destruct (decide (x = name)) as [->|].
  - rewrite lookup_insert_eq. intros [= <-]. rewrite lookup_app_r by done. by rewrite Nat.sub_diag.
  - rewrite lookup_insert_ne by done. intros H%IH. by apply lookup_app_l_Some.
Qed.

Lemma index_by_name_elem names name : name ∈ names -> is_Some (index_by_name names !! name).
Proof.
  unfold index_by_name. induction names as [|x names IH] using rev_ind; [by intros ?%elem_of_nil|].
  rewrite imap_app, fold_left_app. cbn [imap fold_left]. destruct (decide (x = name)) as [->|]; [rewrite lookup_insert_eq; eauto|].
  rewrite lookup_insert_ne by done. intros [?|?%list_elem_of_singleton]%elem_of_app; [by apply IH|done].
Qed.

Lemma index_by_name_nodup names name i : NoDup names -> index_by_name names !! name = Some i <-> names !! i = Some name.
Proof.
  intros Hnd. split; [apply index_by_name_some|]. intros Hi.
  destruct (index_by_name_elem names name) as [j Hj]; [by eapply list_elem_of_lookup_2|]. rewrite Hj. f_equal.
  apply index_by_name_some in Hj. by eapply NoDup_lookup.
Qed.

Lemma push_roots_elem index helpers stack i : i ∈ stack -> i ∈ push_roots index helpers stack.
Proof.
  revert stack. induction helpers as [|h helpers IH]; intros stack Hi; cbn; [done|]. apply IH. case_match; [|done]. by right.
Qed.

Lemma push_roots_exact index helpers stack i : i ∈ push_roots index helpers stack <-> i ∈ stack \/ exists h, h ∈ helpers /\ index !! h = Some i.
Proof.
  unfold push_roots. revert stack. induction helpers as [|h helpers IH]; intros stack; cbn [fold_left].
  - split; [tauto|]. intros [?|(? & ?%elem_of_nil & _)]; done.
  - rewrite IH. setoid_rewrite elem_of_cons. destruct (index !! h) as [k|] eqn:E; rewrite ?elem_of_cons; naive_solver.
Qed.

(** What the search says of functions. *)
Section reachable.
Context {F : Type} (name : F -> string) (targets : gmap string nat -> F -> list nat) (functions : list F).

Record kept_closed (index : gmap string nat) (K : gset nat) : Prop := {
  kept_index : index = index_by_name (map name functions);
  kept_main : exists i, index !! "main" = Some i /\ i ∈ K;
  kept_targets : forall i f t, functions !! i = Some f -> i ∈ K -> t ∈ targets index f -> t ∈ K;
}.

Lemma reachable_functions_spec : exists found, reachable_functions name targets functions = Some found /\
  match found with
  | None => index_by_name (map name functions) !! "main" = None
  | Some (index, K) => kept_closed index K
  end.
Proof.
  unfold reachable_functions. destruct (index_by_name _ !! "main") as [m|] eqn:Em; [|by exists None].
  set (edges := fun idx => match functions !! idx with Some f => targets (index_by_name (map name functions)) f | None => [] end).
  assert (Hn : forall i, List.length functions <= i -> edges i = []).
  { intros i Hi. unfold edges. by rewrite (proj2 (lookup_ge_None _ _)). }
  destruct (reach_total edges _ Hn (push_roots (index_by_name (map name functions)) ROOT_ASYNC_HELPERS [m])) as [K HK].
  rewrite HK. exists (Some (index_by_name (map name functions), K)). split; [done|].
  assert (HR : forall x, x ∈ K <-> reached_from edges (push_roots (index_by_name (map name functions)) ROOT_ASYNC_HELPERS [m]) x).
  { by apply (reach_exact edges (List.length functions)). }
  split; [done| |].
  - exists m. split; [done|]. apply HR. exists m. split; [apply push_roots_elem; by left|done].
  - intros i f t Hf Hi Ht. apply HR. apply HR in Hi as (r & Hr & Hp). exists r. split; [done|]. eapply rtc_r; [exact Hp|].
    cbn. unfold edges. by rewrite Hf.
Qed.
End reachable.

(** ** Collecting targets *)

Lemma push_target_elem targets idx x : x ∈ push_target targets idx <-> x ∈ targets \/ x = idx.
Proof. unfold push_target. case_decide; set_solver. Qed.

Lemma merge_targets_elem more targets x : x ∈ merge_targets more targets <-> x ∈ targets \/ x ∈ more.
Proof.
  unfold merge_targets. revert targets. induction more as [|m more IH]; intros targets; cbn [fold_left]; [set_solver|].
  rewrite IH, push_target_elem. set_solver.
Qed.

Lemma note_elem index name targets x : x ∈ note index name targets <-> x ∈ targets \/ index !! name = Some x.
Proof. unfold note. case_match; [rewrite push_target_elem|]; naive_solver. Qed.

(** A collector adds to the targets; what it adds is in [K]. *)
Definition extends (c : list nat -> list nat) : Prop := forall ts x, x ∈ ts -> x ∈ c ts.
Definition within (K : gset nat) (ts : list nat) : Prop := forall x, x ∈ ts -> x ∈ K.
Definition adds_within (K : gset nat) (c : list nat -> list nat) : Prop := exists ts, within K (c ts).

Lemma extends_fold {A} (c : A -> list nat -> list nat) (l : list A) :
  Forall (fun a => extends (c a)) l -> extends (fold_left (fun ts a => c a ts) l).
Proof. induction 1 as [|a l Ha _ IH]; intros ts x Hx; cbn; [done|]. by apply IH, Ha. Qed.

Lemma within_fold {A} (K : gset nat) (c : A -> list nat -> list nat) (l : list A) ts :
  Forall (fun a => extends (c a)) l -> within K (fold_left (fun ts a => c a ts) l ts) ->
  within K ts /\ Forall (fun a => adds_within K (c a)) l.
Proof.
  intros Hl. revert ts. induction Hl as [|a l Ha Hl IH]; intros ts HK; cbn in HK; [by split|].
  destruct (IH _ HK) as [H1 H2]. split; [|constructor; [by exists ts|done]]. intros x Hx. by apply H1, Ha.
Qed.

Lemma within_merge K more ts : within K (merge_targets more ts) -> within K more /\ within K ts.
Proof. intros H. split; intros x Hx; apply H, merge_targets_elem; tauto. Qed.

Lemma within_extends K c ts : extends c -> within K (c ts) -> within K ts /\ adds_within K c.
Proof. intros He H. split; [|by exists ts]. intros x Hx. by apply H, He. Qed.

(** *** In the AST *)

Section ast_collecting.
Context (index : gmap string nat).
Notation ce := (collect_ast_call_targets_from_expr index).
Notation cd := (collect_ast_call_targets_from_decl index).

Lemma note_extends name : extends (note index name).
Proof. intros ts x Hx. apply note_elem. by left. Qed.
Lemma merge_extends more : extends (merge_targets more).
Proof. intros ts x Hx. apply merge_targets_elem. by left. Qed.
Lemma opt_extends o : Forall (fun e => extends (ce e)) (opt_exprs o) -> extends (ast_opt ce o).
Proof. destruct o; cbn; [|by intros _ ts]. by intros [He _]%Forall_cons. Qed.
Lemma callee_extends f : extends (ast_callee index f).
Proof. unfold ast_callee. intros ts x Hx. repeat case_match; try done; by apply note_extends. Qed.
Lemma arm_extends (a : MatchArm Expr) : Forall (fun e => extends (ce e)) (arm_exprs a) -> extends (ast_arm ce a).
Proof.
  unfold arm_exprs. intros [Hg [Hb _]%Forall_cons]%Forall_app ts x Hx. by apply Hb, opt_extends.
Qed.

Lemma Forall_flat_map {A B} (P : B -> Prop) (f : A -> list B) l : Forall P (flat_map f l) <-> Forall (fun a => Forall P (f a)) l.
Proof. induction l as [|a l IH]; cbn; [by split; constructor|]. by rewrite Forall_app, Forall_cons, IH. Qed.

Lemma ast_extends e : extends (ce e).
Proof.
  induction e as [k s IH] using Expr_children_ind.
  assert (Ha : forall es, Forall (fun e => extends (ce e)) es -> extends (ast_all ce es)) by (intros; by apply extends_fold).
  destruct k; cbn [expr_children] in IH; intros ts x Hx; cbn -[merge_targets];
    rewrite ?Forall_cons, ?Forall_app, ?Forall_map, ?Forall_flat_map in IH; destruct_and?;
    try (by apply note_extends); try (case_match; [by apply note_extends|done]);
    repeat match goal with
    | |- _ ∈ ast_callee _ _ _ => apply callee_extends
    | |- _ ∈ ast_opt _ _ _ => apply opt_extends; [done|]
    | |- _ ∈ merge_targets _ _ => apply merge_extends
    | |- _ ∈ ast_all _ _ _ => apply Ha; [done|]
    | |- _ ∈ fold_left (fun ts f => ce (fv_value f) ts) _ _ => apply extends_fold; [done|]
    | |- _ ∈ fold_left _ _ _ => apply extends_fold; [by eapply Forall_impl; [done|]; intros a; apply arm_extends|]
    | H : extends (ce ?e) |- _ ∈ ce ?e _ => apply H
    end; done.
Qed.

Lemma ast_decl_extends d : extends (cd d).
Proof.
  revert d. fix IH 1. intros [k s]. destruct k; cbn -[merge_targets]; try (by intros ts); try apply ast_extends; try apply merge_extends.
  destruct m as [v nm items sp]. cbn. apply extends_fold. induction items; constructor; [apply IH|done].
Qed.

Lemma ast_stmt_extends s : extends (collect_ast_call_targets_from_stmt ce cd s).
Proof. unfold collect_ast_call_targets_from_stmt. repeat case_match; try apply ast_extends; [by intros ts|apply ast_decl_extends]. Qed.

Lemma within_block K b : within K (collect_ast_call_targets_from_block ce cd b) ->
  Forall (fun s => adds_within K (collect_ast_call_targets_from_stmt ce cd s)) (block_stmts b).
Proof. intros H. eapply within_fold; [|exact H]. apply Forall_forall. intros. apply ast_stmt_extends. Qed.
End ast_collecting.

(** *** What is evaluated calls only targets *)

Section ast_semantics.
Context (index : gmap string nat) (K : gset nat) (is_variant : string -> string -> bool) (fuel : nat).
Context (call call' : string -> list (value (string * string)) -> option (value (string * string))).
Context (Hcall : forall name, (forall i, index !! name = Some i -> i ∈ K) -> call name = call' name).
Notation ce := (collect_ast_call_targets_from_expr index).
Notation cd := (collect_ast_call_targets_from_decl index).
Notation ev := (source_expr is_variant call fuel).
Notation ev' := (source_expr is_variant call' fuel).

Lemma within_note name ts : within K (note index name ts) -> call name = call' name.
Proof. intros H. apply Hcall. intros i Hi. apply H, note_elem. by right. Qed.

Definition same (e : Expr) : Prop := adds_within K (ce e) -> ev e = ev' e.

Lemma same_stmt s : Forall same (stmt_exprs s) -> adds_within K (collect_ast_call_targets_from_stmt ce cd s) ->
  source_stmt ev s = source_stmt ev' s.
Proof.
  unfold stmt_exprs, source_stmt, collect_ast_call_targets_from_stmt. intros Hs Ha.
  destruct (stmt_kind s) as [x t [e|] m|x t e|e|d]; cbn in Hs; rewrite ?Forall_singleton in Hs; try done; by rewrite Hs.
Qed.

Lemma same_block b : Forall same (block_exprs b) -> within K (collect_ast_call_targets_from_block ce cd b) ->
  source_block ev b = source_block ev' b.
Proof.
  intros Hb Hw%within_block. unfold source_block. f_equal. unfold block_exprs in Hb.
  induction (block_stmts b) as [|s l IH]; [done|]. cbn in Hb. apply Forall_app in Hb as [Hs Hb]. apply Forall_cons in Hw as [Ha Hw].
  specialize (IH Hb Hw). cbn [source_stmts]. rewrite (same_stmt s Hs Ha). destruct l; [|by rewrite IH].
  destruct (stmt_kind s) eqn:Es; try done. pose proof (same_stmt s Hs Ha) as E. unfold source_stmt in E. by rewrite Es in E.
Qed.

Lemma same_all es : Forall same es -> Forall (fun e => adds_within K (ce e)) es -> map ev es = map ev' es.
Proof. induction 1 as [|e es He _ IH]; [done|]. intros [Ha Hes]%Forall_cons. cbn. by rewrite He, IH. Qed.

Lemma same_opt o : Forall same (opt_exprs o) -> adds_within K (ast_opt ce o) -> forall k, opt_value ev o k = opt_value ev' o k.
Proof. destruct o; cbn; [|done]. intros [He _]%Forall_cons Ha k. by rewrite He. Qed.

Lemma same_arms arms : Forall same (flat_map arm_exprs arms) -> Forall (fun a => adds_within K (ast_arm ce a)) arms ->
  source_arms is_variant ev arms = source_arms is_variant ev' arms.
Proof.
  induction arms as [|a arms IH]; [done|]. cbn [flat_map]. intros [Ha Harms]%Forall_app [[ts Hts] Hw]%Forall_cons.
  specialize (IH Harms Hw). cbn [source_arms]. rewrite IH. unfold arm_exprs in Ha. apply Forall_app in Ha as [Hg [Hb _]%Forall_cons].
  unfold ast_arm in Hts. apply within_extends in Hts as [Hts Hbody]; [|apply ast_extends]. rewrite (Hb Hbody).
  destruct (arm_guard a) as [g|]; [|done]. apply Forall_cons in Hg as [Hg _]. rewrite Hg; [done|]. by exists ts.
Qed.

Lemma same_call f args ts : within K (ast_callee index f (ast_all ce args ts)) ->
  source_call is_variant call f = source_call is_variant call' f.
Proof.
  unfold ast_callee, source_call. intros Hw. destruct (expr_kind f); try done.
  - by rewrite (within_note _ _ Hw).
  - unfold as_simple, is_simple in Hw. destruct (path_segments p) as [|x [|y [|z l]]]; try done. by rewrite (within_note _ _ Hw).
Qed.

Lemma all_extend (es : list Expr) : Forall (fun e => extends (ce e)) es.
Proof. apply Forall_forall. intros e _. apply ast_extends. Qed.

#[local] Ltac peel :=
  repeat match goal with
  | H : within K (ce ?e ?ts) |- _ => apply within_extends in H as [H ?]; [|apply ast_extends]
  | H : within K (merge_targets ?more ?ts) |- _ => apply within_merge in H as [? H]
  | H : within K (ast_opt ce ?o ?ts) |- _ => apply within_extends in H as [H ?]; [|by apply opt_extends, all_extend]
  | H : within K (ast_all ce ?es ?ts) |- _ => apply within_fold in H as [H ?]; [|by apply all_extend]
  end.

Lemma same_expr e : same e.
Proof.
  induction e as [k s IH] using Expr_children_ind. intros [ts Hts].
  destruct k; cbn [expr_children] in IH; cbn -[merge_targets] in Hts; rewrite ?Forall_cons, ?Forall_app in IH; destruct_and?;
    cbn [source_expr]; try done; peel; unfold same in *;
    rewrite ?(same_block b), ?(same_block body), ?(same_block then_branch) by done;
    repeat match goal with H : ?P -> ev ?x = ev' ?x, H' : ?P |- _ => rewrite (H H'); clear H end; try done.
  - rewrite (same_call _ _ _ Hts). apply within_extends in Hts as [Hts _]; [|apply callee_extends]. peel. by rewrite same_all.
  - destruct else_branch as [o|]; [|done]. match goal with H : Forall _ (opt_exprs _) |- _ => apply Forall_cons in H as [Ho _] end. by rewrite Ho.
  - apply within_fold in Hts as [Hts Harms]; [|apply Forall_forall; intros a _; apply arm_extends, all_extend]. peel.
    rewrite same_arms by done. match goal with H : adds_within _ _ -> _ = _ |- _ => by rewrite H end.
  - by apply same_opt.
  - by apply same_opt.
  - by rewrite same_all.
  - by rewrite same_all.
  - destruct base; [done|]. destruct (as_simple path); [|done]. apply within_fold in Hts as [_ Hf]; [|apply Forall_forall; intros f _; apply ast_extends].
    f_equal. match goal with H : Forall _ (map fv_value fields) |- _ => rename H into Hs end.
    rewrite <- !(map_map fv_value (source_expr is_variant _ fuel)).
    apply same_all; [done|]. by apply Forall_map.
  - destruct start as [a|], end_ as [b|]; try done. cbn in *. peel. rewrite ?Forall_singleton in *.
    repeat match goal with H : ?P -> ev ?x = ev' ?x, H' : ?P |- _ => rewrite (H H'); clear H end. done.
Qed.

End ast_semantics.

(** ** The AST *)

Lemma prune_ast_keeps program keep name : name ∈ keep \/ name ∉ map ast_function_name (ast_functions (program_decls program)) ->
  source_function (prune_ast_functions_by_name_set program keep).1 name = source_function program name.
Proof.
  unfold source_function, prune_ast_functions_by_name_set, ast_functions. cbn. induction (program_decls program) as [|d ds IH]; [done|].
  cbn [List.filter omap list_omap]. unfold keeps_decl at 1.
  destruct (decl_kind d) eqn:Ed; cbn [List.filter omap list_omap map]; rewrite ?Ed; intros Hname; try (by apply IH).
  case_bool_decide as Hf; cbn [omap list_omap]; rewrite ?Ed;
    destruct (String.eqb_spec (ident_name (fn_name f)) name) as [E|E]; try done;
    try (apply IH; destruct Hname as [|Hn]; [by left|right; intros H; apply Hn; by right]).
  exfalso. destruct Hname as [Hk|Hn]; [by rewrite <- E in Hk|]. apply Hn, elem_of_cons. left. exact (eq_sym E).
Qed.

Lemma prune_ast_variants program keep : program_variant (prune_ast_functions_by_name_set program keep).1 = program_variant program.
Proof.
  apply functional_extensionality. intros en. apply functional_extensionality. intros vn. unfold program_variant, enum_variants, prune_ast_functions_by_name_set.
  cbn. enough (forall ds, omap (fun d => match decl_kind d with
      | DEnum _ _ e => if String.eqb (ident_name (en_name _ e)) en then Some (map (fun v => ident_name (ev_name _ v)) (en_variants _ e)) else None
      | _ => None end) (List.filter (keeps_decl keep) ds) =
    omap (fun d => match decl_kind d with
      | DEnum _ _ e => if String.eqb (ident_name (en_name _ e)) en then Some (map (fun v => ident_name (ev_name _ v)) (en_variants _ e)) else None
      | _ => None end) ds) as -> by done.
  induction ds as [|d ds IH]; [done|]. cbn [List.filter]. unfold keeps_decl at 1. destruct (decl_kind d) eqn:Ed; cbn; rewrite ?Ed, ?IH; try done.
  case_bool_decide; cbn; by rewrite ?Ed, IH.
Qed.

Lemma source_function_in program name f : source_function program name = Some f ->
  f ∈ ast_functions (program_decls program) /\ ast_function_name f = name.
Proof.
  unfold source_function, ast_functions. induction (program_decls program) as [|d ds IH]; [done|]. cbn.
  destruct (decl_kind d) eqn:Ed; cbn; try (intros H; apply IH in H; set_solver).
  destruct (String.eqb_spec (ident_name (fn_name f0)) name) as [E|E]; cbn.
  - intros [= <-]. split; [by left|done].
  - intros H. apply IH in H as [H1 H2]. split; [by right|done].
Qed.

Lemma elem_of_reachable_names {F} (name : F -> string) (functions : list F) (K : gset nat) n :
  n ∈ (list_to_set (omap (fun '(i, f) => if decide (i ∈ K) then Some (name f) else None) (imap pair functions)) : gset string) <->
  exists i f, functions !! i = Some f /\ i ∈ K /\ name f = n.
Proof.
  rewrite elem_of_list_to_set, list_elem_of_omap. setoid_rewrite list_elem_of_lookup. setoid_rewrite list_lookup_imap. split.
  - intros ([i f] & [j Hj] & Hd). destruct (functions !! j) as [g|] eqn:E; [|done]. cbn in Hj. injection Hj as <- <-.
    case_decide; [|done]. injection Hd as <-. eauto.
  - intros (i & f & Hf & HK & <-). exists (i, f). split; [exists i; by rewrite Hf|]. by rewrite decide_True.
Qed.

Section ast_program.
Context (program : Program) (index : gmap string nat) (K : gset nat).
Let functions := ast_functions (program_decls program).
Context (Hnd : NoDup (map ast_function_name functions)) (Hclosed : kept_closed ast_function_name ast_function_targets functions index K).
Let keep : gset string := list_to_set (omap (fun '(i, f) => if decide (i ∈ K) then Some (ast_function_name f) else None) (imap pair functions)).

Lemma index_elem name i : index !! name = Some i <-> exists f, functions !! i = Some f /\ ast_function_name f = name.
Proof.
  destruct Hclosed as [-> _ _]. rewrite index_by_name_nodup by done. rewrite list_lookup_fmap. destruct (functions !! i) as [f|]; cbn; [|naive_solver].
  split; [intros [= <-]; eauto|intros (f' & [= ->] & <-); done].
Qed.

Lemma run_source_kept fuel : forall name, (forall i, index !! name = Some i -> i ∈ K) ->
  run_source (prune_ast_functions_by_name_set program keep).1 fuel name = run_source program fuel name.
Proof.
  induction fuel as [|fuel IH]; intros name Hname; [done|]. cbn [run_source]. rewrite prune_ast_variants, prune_ast_keeps.
  - destruct (source_function program name) as [f|] eqn:Ef; [|done]. destruct (plain_function f); [|done].
    apply source_function_in in Ef as [[i Hi]%list_elem_of_lookup En]. fold functions in Hi.
    assert (i ∈ K) as HiK by (apply Hname, index_elem; eauto).
    assert (within K (ast_function_targets index f)) as Hw by (intros t Ht; by eapply (kept_targets _ _ _ _ _ Hclosed)).
    unfold ast_function_targets in Hw.
    apply within_extends in Hw as [Hw _]; [|by apply opt_extends, all_extend].
    apply within_extends in Hw as [Hw _]; [|by apply opt_extends, all_extend].
    rewrite (same_block index K (program_variant program) fuel _ (run_source program fuel) (fn_body f)); [done| |exact Hw].
    apply Forall_forall. intros e _. by apply same_expr.
  - destruct (decide (name ∈ map ast_function_name functions)) as [Hin|]; [left|by right].
    apply list_elem_of_fmap in Hin as (f & -> & [i Hi]%list_elem_of_lookup). apply elem_of_reachable_names. exists i, f.
    split_and!; [done| |done]. apply Hname, index_elem. eauto.
Qed.
End ast_program.

(** C6: leaving out of a program the functions that the search does not reach
    from main ends, and changes nothing of what main computes, in the reference
    semantics of the source (whose calls are those of functions by name),
    when no two functions have the same name.  With two of them the search
    reads the body of the last one and a call runs the first
    ([same_name_pruned]). *)
Theorem ast_pruning_preserves (program : Program) :
  NoDup (map ast_function_name (ast_functions (program_decls program))) ->
  exists program' removed, prune_unreachable_ast_functions program = Some (program', removed) /\
    forall fuel args, run_source program' fuel "main" args = run_source program fuel "main" args.
Proof.
  intros Hnd. unfold prune_unreachable_ast_functions, reachable_ast_function_names. case_match; [by do 2 eexists|].
  destruct (ast_functions _) as [|f0 fs] eqn:Ef; [unfold ast_function_count in *; by rewrite Ef in *|]. rewrite <- Ef in *.
  destruct (reachable_functions_spec ast_function_name ast_function_targets (ast_functions (program_decls program))) as ([[index K]|] & -> & Hfound);
    [|by do 2 eexists].
  cbn. do 2 eexists. split; [reflexivity|]. intros fuel args.
  refine (f_equal (fun run => run args) (run_source_kept program index K Hnd Hfound fuel "main" _)).
  destruct (kept_main _ _ _ _ _ Hfound) as (m & Hm & HmK). intros i. rewrite Hm. by intros [= <-].
Qed.

(** ** The HIR *)

Definition hir_opt_exprs (o : option HIRExpr) : list HIRExpr := match o with Some e => [e] | None => [] end.
Definition hir_stmt_exprs (s : HIRStmt) : list HIRExpr :=
  match s with HLet _ _ _ o _ => hir_opt_exprs o | HSExpr e => [e] | _ => [] end.
Definition hir_body_exprs (b : HIRBody) : list HIRExpr := flat_map hir_stmt_exprs (body_stmts b) ++ hir_opt_exprs (body_expr b).
Fixpoint hir_pattern_exprs (p : HIRPattern) : list HIRExpr :=
  match p with
  | HPWild | HPLit _ | HPVar _ _ _ => []
  | HPEnumVariant _ fs | HPStruct _ fs => flat_map (fun f => match f.2 with Some p => hir_pattern_exprs p | None => [] end) fs
  | HPTuple ps => flat_map hir_pattern_exprs ps
  | HPOr l r => hir_pattern_exprs l ++ hir_pattern_exprs r
  | HPSlice before rest after =>
      flat_map hir_pattern_exprs before ++ match rest with Some p => hir_pattern_exprs p | None => [] end ++ flat_map hir_pattern_exprs after
  | HPRange a b => hir_opt_exprs a ++ hir_opt_exprs b
  | HPRef p | HPRefMut p => hir_pattern_exprs p
  end.
Definition hir_arm_exprs (a : HIRMatchArm) : list HIRExpr := hir_pattern_exprs (harm_pat a) ++ hir_opt_exprs (harm_guard a) ++ [harm_body a].

Definition hir_children (e : HIRExpr) : list HIRExpr :=
  match e with
  | HLit _ | HContinue | HVar _ _ => []
  | HUnary _ x | HCast x _ | HAscribe x _ | HRefE _ x | HDerefE x | HAwait x | HTry x | HField x _ | HLambda _ x => [x]
  | HBinary _ l r | HAnd l r | HOr l r | HIndex l r | HAssign l r | HAssignOp l _ r => [l; r]
  | HIf c t o => c :: hir_body_exprs t ++ match o with Some b => hir_body_exprs b | None => [] end
  | HMatch s arms => s :: flat_map hir_arm_exprs arms
  | HLoop b | HBlock b | HTryBlock b | HAsyncBlock b => hir_body_exprs b
  | HWhile c b | HFor _ _ c b => c :: hir_body_exprs b
  | HCall f args _ _ => f :: args
  | HEnumConstruct _ _ _ args => args
  | HMethodCall r _ args _ => r :: args
  | HStruct _ fields _ => map snd fields
  | HArray es | HTupleE es => es
  | HReturn o | HBreak o => hir_opt_exprs o
  | HRange a b _ => hir_opt_exprs a ++ hir_opt_exprs b
  end.

Section hir_induction.
Context (P : HIRExpr -> Prop).
Context (H : forall e, Forall P (hir_children e) -> P e).

Lemma HIRExpr_children_ind : forall e, P e.
Proof.
  fix IH 1. intros e. apply H.
  assert (Ho : forall o, Forall P (hir_opt_exprs o)) by (intros [x|]; repeat constructor; apply IH).
  assert (Hp : forall p, Forall P (hir_pattern_exprs p)).
  { fix IHp 1.
    assert (Hps : forall l, Forall P (flat_map hir_pattern_exprs l)) by
      (fix IHl 1; intros [|x l]; cbn [flat_map]; [constructor|apply Forall_app_2; [apply IHp|apply IHl]]).
    assert (Hfs : forall l : list (string * option HIRPattern),
        Forall P (flat_map (fun f => match f.2 with Some p => hir_pattern_exprs p | None => [] end) l)) by
      (fix IHl 1; intros [|[n [x|]] l]; cbn; [constructor|apply Forall_app_2; [apply IHp|apply IHl]|apply IHl]).
    intros [| | | | | | |? [r|] ?| | |]; cbn; repeat apply Forall_app_2; auto. }
  assert (Hb : forall b, Forall P (hir_body_exprs b)).
  { intros [l o]. unfold hir_body_exprs. cbn. apply Forall_app_2; [|apply Ho]. revert l.
    fix IHl 1. intros [|s l]; cbn; [constructor|]. apply Forall_app_2; [|apply IHl].
    destruct s; cbn; [constructor|constructor|apply Ho|repeat constructor; apply IH|constructor]. }
  assert (Ha : forall l, Forall P (flat_map hir_arm_exprs l)).
  { fix IHl 1. intros [|[p g b] l]; cbn; [constructor|]. apply Forall_app_2; [|apply IHl]. unfold hir_arm_exprs; cbn.
    repeat apply Forall_app_2; [apply Hp|apply Ho|repeat constructor; apply IH]. }
  assert (Hf : forall l : list (string * HIRExpr), Forall P (map snd l)) by
    (fix IHl 1; intros [|[n x] l]; cbn; constructor; [apply IH|apply IHl]).
  assert (Hl : forall l, Forall P l) by (fix IHl 1; intros [|x l]; constructor; [apply IH|apply IHl]).
  destruct e; cbn [hir_children]; try match goal with |- context [match ?o with _ => _ end] => destruct o end;
    repeat match goal with
      | |- Forall P [] => apply Forall_nil_2
      | |- Forall P (_ :: _) => apply Forall_cons_2; [apply IH|]
      | |- Forall P (_ ++ _) => apply Forall_app_2
      | |- Forall P (hir_body_exprs _) => apply Hb
      | |- Forall P (hir_opt_exprs _) => apply Ho
      | |- Forall P (flat_map hir_arm_exprs _) => apply Ha
      | |- Forall P (map snd _) => apply Hf
      | |- Forall P ?l => is_var l; apply Hl
      end.
Qed.
End hir_induction.

Section hir_collecting.
Context (index : gmap string nat).
Notation ch := (collect_hir_call_targets_from_expr index).

Lemma hir_opt_extends o : Forall (fun e => extends (ch e)) (hir_opt_exprs o) -> extends (hir_opt_targets ch o).
Proof. destruct o; cbn; [|by intros _ ts]. by intros [He _]%Forall_cons. Qed.

Lemma hir_stmt_extends s : Forall (fun e => extends (ch e)) (hir_stmt_exprs s) -> extends (collect_hir_call_targets_from_stmt ch s).
Proof. destruct s; cbn; try (by intros _ ts); [apply hir_opt_extends|by intros [He _]%Forall_cons]. Qed.

Lemma hir_body_extends b : Forall (fun e => extends (ch e)) (hir_body_exprs b) -> extends (hir_body_targets ch b).
Proof.
  unfold hir_body_exprs. rewrite Forall_app, Forall_flat_map. intros [Hs Ho] ts x Hx. apply hir_opt_extends; [done|].
  apply extends_fold; [|done]. eapply Forall_impl; [done|]. intros s. apply hir_stmt_extends.
Qed.

Lemma hir_pattern_extends p : Forall (fun e => extends (ch e)) (hir_pattern_exprs p) -> extends (collect_hir_call_targets_from_pattern ch p).
Proof.
  revert p. fix IH 1.
  assert (Hps : forall l, Forall (fun e => extends (ch e)) (flat_map hir_pattern_exprs l) ->
    extends (fold_left (fun ts p => collect_hir_call_targets_from_pattern ch p ts) l)).
  { fix IHl 1. intros [|p l]; cbn; [by intros _ ts|]. intros [Hp Hl]%Forall_app ts x Hx. apply (IHl l Hl), (IH p Hp), Hx. }
  assert (Hfs : forall l : list (string * option HIRPattern),
    Forall (fun e => extends (ch e)) (flat_map (fun f => match f.2 with Some p => hir_pattern_exprs p | None => [] end) l) ->
    extends (fold_left (fun ts f => match f.2 with Some p => collect_hir_call_targets_from_pattern ch p ts | None => ts end) l)).
  { fix IHl 1. intros [|[n [p|]] l]; cbn; [by intros _ ts| |apply IHl].
    intros [Hp Hl]%Forall_app ts x Hx. apply (IHl l Hl), (IH p Hp), Hx. }
  intros [| | | | |ps|l r|before rest after|a b|p|p]; cbn; try (by intros _ ts); try apply Hps; try apply Hfs; try apply IH.
  - intros [Hl Hr]%Forall_app ts x Hx. apply (IH r Hr), (IH l Hl), Hx.
  - rewrite !Forall_app. intros (Hb & Hr & Ha) ts x Hx. apply Hps; [done|].
    destruct rest as [p|]; [apply (IH p Hr)|]; by apply Hps.
  - intros [Ha Hb]%Forall_app ts x Hx. by do 2 (apply hir_opt_extends; [done|]).
Qed.

Lemma hir_arm_extends a : Forall (fun e => extends (ch e)) (hir_arm_exprs a) -> extends (hir_arm ch a).
Proof.
  unfold hir_arm_exprs. rewrite !Forall_app, Forall_singleton. intros (Hp & Hg & Hb) ts x Hx. apply Hb, hir_opt_extends; [done|].
  by apply hir_pattern_extends.
Qed.

Lemma hir_extends e : extends (ch e).
Proof.
  induction e as [e IH] using HIRExpr_children_ind.
  assert (Ha : forall es, Forall (fun e => extends (ch e)) es -> extends (hir_all ch es)) by (intros; by apply extends_fold).
  destruct e; cbn [hir_children] in IH; intros ts x Hx; cbn -[merge_targets];
    rewrite ?Forall_cons, ?Forall_app, ?Forall_map, ?Forall_flat_map in IH; destruct_and?;
    repeat match goal with
    | |- _ ∈ match ?o with _ => _ end => destruct o
    | |- _ ∈ note _ _ _ => apply note_extends
    | |- _ ∈ hir_opt_targets _ _ _ => apply hir_opt_extends; [done|]
    | |- _ ∈ merge_targets _ _ => apply merge_extends
    | |- _ ∈ hir_body_targets _ _ _ => apply hir_body_extends; [done|]
    | |- _ ∈ hir_all _ _ _ => apply Ha; [done|]
    | |- _ ∈ fold_left (fun ts f => ch f.2 ts) _ _ => apply extends_fold; [done|]
    | |- _ ∈ fold_left _ _ _ => apply extends_fold; [by eapply Forall_impl; [done|]; intros a; apply hir_arm_extends|]
    | H : extends (ch ?e) |- _ ∈ ch ?e _ => apply H
    end; try done.
Qed.

Lemma all_hir_extend (es : list HIRExpr) : Forall (fun e => extends (ch e)) es.
Proof. apply Forall_forall. intros e _. apply hir_extends. Qed.
End hir_collecting.

Section hir_semantics.
Context (index : gmap string nat) (K : gset nat) (fuel : nat) (call call' : string -> list (value Z) -> option (value Z)).
Context (Hcall : forall name, (forall i, index !! name = Some i -> i ∈ K) -> call name = call' name).
Notation ch := (collect_hir_call_targets_from_expr index).
Notation ev := (hir_expr call fuel).
Notation ev' := (hir_expr call' fuel).

Definition hsame (e : HIRExpr) : Prop := adds_within K (ch e) -> ev e = ev' e.

#[local] Ltac peel :=
  repeat match goal with
  | H : within K (ch ?e ?ts) |- _ => apply within_extends in H as [H ?]; [|apply hir_extends]
  | H : within K (merge_targets ?more ?ts) |- _ => apply within_merge in H as [? H]
  | H : within K (hir_opt_targets ch ?o ?ts) |- _ => apply within_extends in H as [H ?]; [|by apply hir_opt_extends, all_hir_extend]
  | H : within K (hir_all ch ?es ?ts) |- _ => apply within_fold in H as [H ?]; [|by apply all_hir_extend]
  end.

Lemma hsame_stmts l k k' ts : Forall hsame (flat_map hir_stmt_exprs l) -> k = k' ->
  within K (fold_left (fun ts s => collect_hir_call_targets_from_stmt ch s ts) l ts) -> hir_stmts ev l k = hir_stmts ev' l k'.
Proof.
  intros Hl <- Hw. apply within_fold in Hw as [_ Hw]; [|apply Forall_forall; intros s _; apply hir_stmt_extends, all_hir_extend].
  induction l as [|s l IH]; [done|]. cbn in Hl. apply Forall_app in Hl as [Hs Hl]. apply Forall_cons in Hw as [[ts' Hts] Hw].
  cbn [hir_stmts]. rewrite (IH Hl Hw). f_equal. destruct s as [| |x sym t [e|] m|e|]; cbn in Hs, Hts |- *; rewrite ?Forall_singleton in Hs; try done.
  - rewrite Hs; [done|by exists ts'].
  - rewrite Hs; [done|by exists ts'].
Qed.

Lemma hsame_body b ts : Forall hsame (hir_body_exprs b) -> within K (hir_body_targets ch b ts) -> hir_body ev b = hir_body ev' b.
Proof.
  unfold hir_body_exprs, hir_body_targets, hir_body. intros [Hs Ho]%Forall_app Hw. peel. f_equal. eapply hsame_stmts; [done| |done].
  destruct (body_expr b) as [e|]; [|done]. apply Forall_cons in Ho as [He _]. by apply He.
Qed.

Lemma hsame_all es : Forall hsame es -> Forall (fun e => adds_within K (ch e)) es -> map ev es = map ev' es.
Proof. induction 1 as [|e es He _ IH]; [done|]. intros [Ha Hes]%Forall_cons. cbn. by rewrite He, IH. Qed.

Lemma hsame_opt o : Forall hsame (hir_opt_exprs o) -> adds_within K (hir_opt_targets ch o) -> forall k, hir_opt ev o k = hir_opt ev' o k.
Proof. destruct o; cbn; [|done]. intros [He _]%Forall_cons Ha k. by rewrite He. Qed.

Lemma hsame_arms arms : Forall hsame (flat_map hir_arm_exprs arms) -> Forall (fun a => adds_within K (hir_arm ch a)) arms ->
  hir_arms ev arms = hir_arms ev' arms.
Proof.
  induction arms as [|a arms IH]; [done|]. cbn [flat_map]. intros [Ha Harms]%Forall_app [[ts Hts] Hw]%Forall_cons.
  specialize (IH Harms Hw). cbn [hir_arms]. rewrite IH. unfold hir_arm_exprs in Ha. rewrite !Forall_app, Forall_singleton in Ha.
  destruct Ha as (_ & Hg & Hb). unfold hir_arm in Hts. apply within_extends in Hts as [Hts Hbody]; [|apply hir_extends]. rewrite (Hb Hbody).
  destruct (harm_guard a) as [g|]; [|done]. apply Forall_cons in Hg as [Hg _]. rewrite Hg; [done|]. eexists. exact Hts.
Qed.

Lemma hsame_expr e : hsame e.
Proof.
  induction e as [e IH] using HIRExpr_children_ind. intros [ts Hts].
  destruct e; cbn [hir_children] in IH; cbn -[merge_targets] in Hts; rewrite ?Forall_cons, ?Forall_app in IH; destruct_and?;
    cbn [hir_expr]; try done; peel; unfold hsame in *;
    repeat match goal with
    | H : within K (collect_hir_call_targets_from_body ch ?b) |- _ => apply hsame_body in H; [rewrite H; clear H|done]
    end;
    repeat match goal with H : ?P -> ev ?x = ev' ?x, H' : ?P |- _ => rewrite (H H'); clear H end; try done.
  - destruct else_branch as [o|]; peel;
      repeat match goal with
      | H : within K (collect_hir_call_targets_from_body ch ?b) |- _ => apply hsame_body in H; [rewrite H; clear H|done]
      end; match goal with H : adds_within _ _ -> _ = _ |- _ => by rewrite H end.
  - apply within_fold in Hts as [Hts Harms]; [|apply Forall_forall; intros a _; apply hir_arm_extends, all_hir_extend]. peel.
    rewrite hsame_arms by done. match goal with H : adds_within _ _ -> _ = _ |- _ => by rewrite H end.
  - assert (exists ts', within K (hir_all ch args ts')) as [ts' Ht].
    { destruct e; try by (eexists; exact Hts). apply within_extends in Hts as [Hts _]; [|apply note_extends]. eexists. exact Hts. }
    peel. rewrite hsame_all by done. f_equal. destruct e; try done. unfold hir_call. rewrite (Hcall name); [done|].
    intros i Hi. apply Hts. cbn. apply note_elem. by right.
  - by rewrite hsame_all.
  - apply within_fold in Hts as [_ Hf]; [|apply Forall_forall; intros f _; apply hir_extends]. f_equal.
    rewrite <- !(map_map snd (hir_expr _ fuel)). apply hsame_all; [done|]. by apply Forall_map.
  - by rewrite hsame_all.
  - by apply hsame_opt.
  - by apply hsame_opt.
  - destruct start as [a|], end_ as [b|]; try done. cbn in *. peel. rewrite ?Forall_singleton in *.
    repeat match goal with H : ?P -> ev ?x = ev' ?x, H' : ?P |- _ => rewrite (H H'); clear H end. done.
  - by rewrite hsame_all.
Qed.
End hir_semantics.

Lemma prune_hir_keeps name' index K items name :
  (forall i, index !! name = Some i -> i ∈ K) ->
  hir_function_named (mkHIRModule name' (List.filter (keeps_item index K) items)) name = hir_function_named (mkHIRModule name' items) name.
Proof.
  intros Hname. unfold hir_function_named. cbn. induction items as [|i items IH]; [done|]. cbn [List.filter omap list_omap].
  destruct i as [f| | | | | | | |]; try exact IH. cbn [keeps_item].
  destruct (String.eqb_spec (hf_name f) name) as [E|E].
  - rewrite E. destruct (index !! name) as [i|] eqn:Ei; [rewrite bool_decide_eq_true_2 by auto|]; cbn; by rewrite E, String.eqb_refl.
  - destruct (match index !! hf_name f with Some _ => _ | None => _ end); cbn; [|exact IH].
    rewrite (proj2 (String.eqb_neq _ _) E). exact IH.
Qed.

Lemma hir_function_in name' items name f : hir_function_named (mkHIRModule name' items) name = Some f -> f ∈ hir_functions items /\ hf_name f = name.
Proof.
  unfold hir_function_named, hir_functions. cbn. induction items as [|i items IH]; [done|]. cbn. destruct i as [g| | | | | | | |]; try exact IH.
  destruct (String.eqb_spec (hf_name g) name) as [E|E]; cbn.
  - intros [= <-]. split; [by left|done].
  - intros H. apply IH in H as [H1 H2]. split; [by right|done].
Qed.

Lemma run_hir_kept module_name items index K fuel :
  NoDup (map hf_name (hir_functions items)) -> kept_closed hf_name hir_function_targets (hir_functions items) index K ->
  forall name, (forall i, index !! name = Some i -> i ∈ K) ->
  run_hir (mkHIRModule module_name (List.filter (keeps_item index K) items)) fuel name = run_hir (mkHIRModule module_name items) fuel name.
Proof.
  intros Hnd Hclosed. induction fuel as [|fuel IH]; intros name Hname; [done|]. cbn [run_hir]. rewrite prune_hir_keeps by done.
  destruct (hir_function_named _ name) as [f|] eqn:Ef; [|done].
  apply hir_function_in in Ef as [[i Hi]%list_elem_of_lookup En].
  assert (index !! name = Some i) as Hix.
  { destruct Hclosed as [-> _ _]. apply index_by_name_nodup; [done|]. rewrite list_lookup_fmap, Hi. cbn. by rewrite En. }
  assert (within K (hir_function_targets index f)) as Hw by (intros t Ht; by eapply (kept_targets _ _ _ _ _ Hclosed); [|apply Hname| ]).
  unfold hir_function_targets in Hw.
  apply within_extends in Hw as [Hw _]; [|by apply hir_opt_extends, all_hir_extend].
  apply within_extends in Hw as [Hw _]; [|by apply hir_opt_extends, all_hir_extend].
  rewrite (hsame_body index K fuel _ (run_hir (mkHIRModule module_name items) fuel) (hf_body f) []); [done| |exact Hw].
  apply Forall_forall. intros e _. by apply hsame_expr.
Qed.

(** The same of the HIR, in the reference semantics of the HIR. *)
Theorem hir_pruning_preserves (module_name : string) (items : list HIRItem) :
  NoDup (map hf_name (hir_functions items)) ->
  exists items' removed, prune_unreachable_hir_functions items = Some (items', removed) /\
    forall fuel args,
      run_hir (mkHIRModule module_name items') fuel "main" args = run_hir (mkHIRModule module_name items) fuel "main" args.
Proof.
  intros Hnd. unfold prune_unreachable_hir_functions. case_match; [by do 2 eexists|].
  destruct (reachable_functions_spec hf_name hir_function_targets (hir_functions items)) as ([[index K]|] & -> & Hfound); [|by do 2 eexists].
  cbn. do 2 eexists. split; [reflexivity|]. intros fuel args.
  rewrite (run_hir_kept module_name items index K fuel Hnd Hfound "main"); [done|].
  destruct (kept_main _ _ _ _ _ Hfound) as (m & Hm & HmK). intros i. rewrite Hm. by intros [= <-].
Qed.

(** ** Examples *)

Definition program_of (source : string) : Program := match parse_text scan source 64 with Some (Ok p, _) => p | _ => mkProgram [] end.
Definition items_of (program : Program) : list HIRItem := match lower_ast false program env_empty with Some m => hmod_items m | None => [] end.

Definition with_dead_code : Program :=
  program_of "def dead(x: i64) -> i64 { twice(x) } def twice(x: i64) -> i64 { x + x } def main() -> i64 { if twice(1) == 2 { twice(21) } else { 0 } }".

Lemma ast_pruning_preserves_witness :
  snd <$> prune_unreachable_ast_functions with_dead_code = Some 1 /\
  exists program' removed, prune_unreachable_ast_functions with_dead_code = Some (program', removed) /\
    run_source program' 10 "main" [] = Some (VInt 42).
Proof.
  split; [vm_compute; reflexivity|].
  destruct (ast_pruning_preserves with_dead_code ltac:(apply (bool_decide_unpack _); vm_compute; exact I)) as (program' & removed & E & H).
  exists program', removed. split; [exact E|]. rewrite H. vm_compute. reflexivity.
Defined.

Lemma hir_pruning_preserves_witness :
  snd <$> prune_unreachable_hir_functions (items_of with_dead_code) = Some 1 /\
  exists items' removed, prune_unreachable_hir_functions (items_of with_dead_code) = Some (items', removed) /\
    run_hir (mkHIRModule "m" items') 10 "main" [] = Some (VInt 42).
Proof.
  split; [vm_compute; reflexivity|].
  destruct (hir_pruning_preserves "m" (items_of with_dead_code) ltac:(apply (bool_decide_unpack _); vm_compute; exact I)) as (items' & removed & E & H).
  exists items', removed. split; [exact E|]. rewrite H. vm_compute. reflexivity.
Defined.

(** The bodies of methods are not searched, and neither are constants: a
    function that is only called from there is left out. *)
Definition calls_through_method : Program :=
  program_of "struct P { x: i64 } impl P { def get(&self) -> i64 { helper() } } def helper() -> i64 { 7 } def main() -> i64 { let p = P { x: 1 }; p.get() }".

Theorem method_callee_pruned :
  ast_function_name <$> ast_functions (program_decls calls_through_method) = ["helper"; "main"] /\
  reachable_ast_function_names calls_through_method = Some (Some {["main"]}).
Proof. split; vm_compute; reflexivity. Qed.

(** Of two functions of one name the search reads the last. *)
Definition two_of_a_name : Program :=
  program_of "def a() -> i64 { b() } def b() -> i64 { 1 } def a() -> i64 { 2 } def main() -> i64 { a() }".

Theorem same_name_pruned :
  run_source two_of_a_name 10 "main" [] = Some (VInt 1) /\
  match prune_unreachable_ast_functions two_of_a_name with
  | Some (program', removed) => removed = 1 /\ run_source program' 10 "main" [] = None
  | None => False
  end.
Proof. vm_compute. by split_and!. Qed.
