(* ===== verification/PruneMirInv.v ===== *)
(** What pruning keeps of MIR functions and of a source text: the functions
    that main, the helpers of the runtime and indirectly called functions can
    refer to ([mir_pruning_exact]), and of a plain source text the functions
    whose names the kept ones mention ([source_pruning_closed]). *)

From S2P Require Import Prelude Strs Mir Scanner ScannerInv ExpandText ExpandInv Prune PruneMirSource PruneInv.
From Stdlib Require Import Ascii String.

#[local] Open Scope string_scope.
#[local] Open Scope list_scope.

#[local] Notation text := (list ascii) (only parsing).
#[local] Notation str := string_of_list_ascii (only parsing).

(** ** MIR *)

(** A block of a function refers to a name. *)
Inductive block_refers (f : MirFunction) (b : BasicBlock) : string -> Prop :=
| refers_call id d name args : id ∈ block_insts b -> instruction f id = Some (ICall d name args) -> block_refers f b name
| refers_global id d name : id ∈ block_insts b -> instruction f id = Some (IAssign d (CGlobalRef name)) -> block_refers f b name
| refers_call_end name args d target : terminator b = Some (TCall name args d target) -> block_refers f b name
| refers_suspend poll h d ready pending name :
    terminator b = Some (TSuspend poll h d ready pending) ->
    name ∈ [poll; replace "__poll" "__result" poll; replace "__poll" "__start" poll] -> block_refers f b name.
Definition refers (f : MirFunction) (name : string) : Prop := exists b, b ∈ basic_blocks f /\ block_refers f b name.

(** A name stands for the last function that has it. *)
Definition stands_for (fns : list MirFunction) (name : string) (i : nat) : Prop :=
  exists f, fns !! i = Some f /\ fn_name f = name /\ forall j g, i < j -> fns !! j = Some g -> fn_name g <> name.

(** The positions of [fns] that can be entered. *)
Inductive live (fns : list MirFunction) : nat -> Prop :=
| live_named name i : name = "main" \/ name ∈ MIR_ROOT_HELPERS -> stands_for fns name i -> live fns i
| live_indirect i f : fns !! i = Some f -> called_indirectly f = true -> live fns i
| live_refers i f name j : live fns i -> fns !! i = Some f -> refers f name -> stands_for fns name j -> live fns j.

Definition entered (fns : list MirFunction) (name : string) : Prop := exists i, stands_for fns name i /\ live fns i.

(** Every instruction a block names exists. *)
Definition insts_exist (f : MirFunction) : bool :=
  forallb (fun b => forallb (fun id => is_some (instruction f id)) (block_insts b)) (basic_blocks f).

Section mir.
Context (index : gmap string nat).

Lemma inst_target_elem inst ts x : x ∈ inst_target index inst ts <-> x ∈ ts \/
  exists name, index !! name = Some x /\ ((exists d args, inst = ICall d name args) \/ exists d, inst = IAssign d (CGlobalRef name)).
Proof.
  unfold inst_target. split.
  - repeat case_match; try tauto; rewrite note_elem; intros [?|?]; eauto 8.
  - intros [Hx|(name & Hn & [(d & args & ->)|(d & ->)])]; [|apply note_elem; by right..].
    repeat case_match; try done; apply note_elem; by left.
Qed.

Lemma insts_elem insts ts x : x ∈ fold_left (fun ts inst => inst_target index inst ts) insts ts <-> x ∈ ts \/
  exists inst name, inst ∈ insts /\ index !! name = Some x /\ ((exists d args, inst = ICall d name args) \/ exists d, inst = IAssign d (CGlobalRef name)).
Proof.
  revert ts. induction insts as [|i insts IH]; intros ts; cbn.
  - split; [tauto|]. intros [?|(? & ? & ?%elem_of_nil & _)]; done.
  - rewrite IH, inst_target_elem. setoid_rewrite elem_of_cons. naive_solver.
Qed.

Lemma terminator_elem t ts x : x ∈ terminator_targets index t ts <-> x ∈ ts \/
  exists name, index !! name = Some x /\
    ((exists args d target, t = Some (TCall name args d target)) \/
     exists poll h d ready pending, t = Some (TSuspend poll h d ready pending) /\
       name ∈ [poll; replace "__poll" "__result" poll; replace "__poll" "__start" poll]).
Proof.
  unfold terminator_targets. split.
  - repeat case_match; try tauto; rewrite ?note_elem; [naive_solver|].
    intros [[[?|?]|?]|?]; [by left|right; eexists; split; [done|]; right; do 5 eexists; split; [done|]; set_solver..].
  - intros [Hx|(name & Hn & [(args & d & target & ->)|(poll & h & d & r & p & -> & Hin)])].
    + repeat case_match; rewrite ?note_elem; tauto.
    + apply note_elem. by right.
    + rewrite !note_elem. set_solver.
Qed.

Lemma mapM_elem {A B} (g : A -> option B) l k : mapM g l = Some k -> forall y, y ∈ k <-> exists x, x ∈ l /\ g x = Some y.
Proof.
  intros H%mapM_Some y. induction H as [|a b l k Hab _ IH]; [set_solver|]. setoid_rewrite elem_of_cons. rewrite IH. naive_solver.
Qed.

Lemma block_targets_exact f b acc : forallb (fun id => is_some (instruction f id)) (block_insts b) = true ->
  exists ts, block_targets index f b acc = Some ts /\
    forall x, x ∈ ts <-> x ∈ acc \/ exists name, block_refers f b name /\ index !! name = Some x.
Proof.
  intros Hi. rewrite forallb_forall in Hi.
  assert (exists insts, block_instructions f b = Some insts) as [insts Hm].
  { apply mapM_is_Some, Forall_forall. intros id Hid%list_elem_of_In%Hi. cbn. destruct (instruction f id); [by eexists|done]. }
  unfold block_targets. rewrite Hm. eexists. split; [reflexivity|]. intros x. rewrite terminator_elem, insts_elem.
  pose proof (mapM_elem _ _ _ Hm) as He. split.
  - intros [[?|(inst & name & Hin & Hn & Hk)]|(name & Hn & Hk)]; [by left|right; exists name..].
    + apply He in Hin as (id & Hid & Hinst). split; [|done].
      destruct Hk as [(d & args & ->)|(d & ->)]; [by eapply refers_call|by eapply refers_global].
    + split; [|done]. destruct Hk as [(args & d & t & Ht)|(poll & h & d & r & p & Ht & Hin)]; [by eapply refers_call_end|by eapply refers_suspend].
  - intros [?|(name & Hr & Hn)]; [by left; left|].
    inversion Hr as [id d nm args Hid Hinst|id d nm Hid Hinst|nm args d t Ht|poll h d r p nm Ht Hin]; subst.
    + left. right. eexists _, name. split; [apply He; by exists id|]. eauto 6.
    + left. right. eexists _, name. split; [apply He; by exists id|]. eauto 6.
    + right. exists name. split; [done|]. eauto 6.
    + right. exists name. split; [done|]. right. by do 5 eexists.
Qed.

(** The targets of a function are the indices of the names it refers to. *)
Lemma mir_targets_exact f : insts_exist f = true ->
  exists ts, collect_mir_call_targets index f = Some ts /\ forall x, x ∈ ts <-> exists name, refers f name /\ index !! name = Some x.
Proof.
  unfold insts_exist, collect_mir_call_targets, refers. intros Hi.
  enough (forall acc, exists ts, foldl (fun targets b => let* targets := targets in block_targets index f b targets) (Some acc) (basic_blocks f) = Some ts /\
      forall x, x ∈ ts <-> x ∈ acc \/ exists name, (exists b, b ∈ basic_blocks f /\ block_refers f b name) /\ index !! name = Some x) as H.
  { destruct (H []) as (ts & Hts & Hx). exists ts. split; [done|]. intros x. rewrite Hx. split; [intros [?%elem_of_nil|?]; done|tauto]. }
  induction (basic_blocks f) as [|b bs IH]; intros acc; cbn [foldl].
  - exists acc. split; [done|]. intros x. split; [tauto|]. intros [?|(? & (? & ?%elem_of_nil & _) & _)]; done.
  - apply andb_true_iff in Hi as [Hb Hi]. destruct (block_targets_exact f b acc Hb) as (ts & E & Hts). cbn. rewrite E.
    destruct (IH Hi ts) as (ts' & E' & Hts'). exists ts'. split; [exact E'|]. intros x. rewrite Hts', Hts. setoid_rewrite elem_of_cons. naive_solver.
Qed.
End mir.

Lemma sublist_filter_bool {A} (p : A -> bool) l : List.filter p l `sublist_of` l.
Proof. induction l as [|a l IH]; cbn; [done|]. destruct (p a); by constructor. Qed.

Lemma index_by_name_last names name i :
  index_by_name names !! name = Some i <-> names !! i = Some name /\ forall j, i < j -> names !! j <> Some name.
Proof.
  assert (forall i k, names !! i = Some name -> names !! k = Some name ->
    (forall j, i < j -> names !! j <> Some name) -> (forall j, k < j -> names !! j <> Some name) -> i = k) as Huniq.
  { intros i' k Hi Hk H1 H2. destruct (Nat.lt_trichotomy i' k) as [Hl|[->|Hl]]; [by apply H1 in Hl|done|by apply H2 in Hl]. }
  assert (forall i, index_by_name names !! name = Some i -> forall j, i < j -> names !! j <> Some name) as Hlast.
  { clear Huniq. unfold index_by_name. induction names as [|x l IH] using rev_ind; intros i' Hi j Hj; [done|].
    rewrite imap_app, fold_left_app in Hi. cbn [imap fold_left] in Hi. rewrite Nat.add_0_r in Hi.
    destruct (Nat.lt_ge_cases j (List.length l)) as [Hl|Hl].
    - rewrite lookup_app_l by done. destruct (decide (x = name)) as [->|]; [rewrite lookup_insert_eq in Hi; injection Hi as <-; lia|].
      rewrite lookup_insert_ne in Hi by done. by eapply IH.
    - rewrite lookup_app_r by done. destruct (decide (x = name)) as [->|Hne].
      + rewrite lookup_insert_eq in Hi. injection Hi as <-. by rewrite lookup_ge_None_2 by (cbn; lia).
      + destruct (j - List.length l) as [|m]; cbn; [congruence|done]. }
  split; [intros H; split; [by apply index_by_name_some|by apply Hlast]|]. intros [Hi H].
  destruct (index_by_name_elem names name) as [k Hk]; [by eapply list_elem_of_lookup_2|].
  rewrite Hk. f_equal. apply Huniq; [by apply index_by_name_some|done|by apply Hlast|done].
Qed.

Section pruned.
Context (fns : list MirFunction) (Hi : Forall (fun f => insts_exist f = true) fns).
Let index := index_by_name (map fn_name fns).

Lemma mir_index name i : index !! name = Some i <-> stands_for fns name i.
Proof.
  unfold index, stands_for. rewrite index_by_name_last. setoid_rewrite list_lookup_fmap. split.
  - intros [Hf Hl]. destruct (fns !! i) as [f|] eqn:E; [|done]. injection Hf as Hf. exists f. split_and!; [done..|].
    intros j g Hj Hg Hn. apply (Hl j Hj). by rewrite Hg, <- Hn.
  - intros (f & Hf & Hn & Hl). rewrite Hf. cbn. split; [by rewrite Hn|]. intros j Hj Hg.
    destruct (fns !! j) as [g|] eqn:E; [|done]. injection Hg as Hg. by apply (Hl j g).
Qed.

Lemma mir_stack_elem m x : index !! "main" = Some m -> x ∈ mir_stack index m fns <->
  (exists name, (name = "main" \/ name ∈ MIR_ROOT_HELPERS) /\ stands_for fns name x) \/ exists f, fns !! x = Some f /\ called_indirectly f = true.
Proof.
  intros Hm. unfold mir_stack. rewrite elem_of_app, elem_of_reverse, list_elem_of_omap, push_roots_exact. split.
  - intros [([i f] & [j Hj]%list_elem_of_lookup & Hx)|[[k Hk]%list_elem_of_lookup|(h & Hh & Hx)]].
    + rewrite list_lookup_imap in Hj. destruct (fns !! j) as [g|] eqn:E; [|done]. cbn in Hj. injection Hj as <- <-.
      case_match; [|done]. injection Hx as <-. eauto 6.
    + apply list_lookup_singleton_Some in Hk as [_ <-]. left. exists "main". split; [by left|by apply mir_index].
    + left. exists h. split; [by right|by apply mir_index].
  - intros [(name & [->|Hn] & Hs)|(f & Hf & Hc)].
    + right. left. apply list_elem_of_singleton. apply mir_index in Hs. congruence.
    + right. right. exists name. split; [done|by apply mir_index].
    + left. exists (x, f). split; [|by rewrite Hc]. apply list_elem_of_lookup. exists x. by rewrite list_lookup_imap, Hf.
Qed.

Lemma live_index targets m : mapM (collect_mir_call_targets index) fns = Some targets -> index !! "main" = Some m ->
  forall x, is_Some (fns !! x) -> (reached_from (fun idx => default [] (targets !! idx)) (mir_stack index m fns) x <-> live fns x).
Proof.
  intros Ht%mapM_Some Hm x Hx.
  assert (forall i g, fns !! i = Some g -> forall y, y ∈ default [] (targets !! i) <-> exists name, refers g name /\ index !! name = Some y) as He.
  { intros i g Hg y. destruct (Forall2_lookup_l _ _ _ _ _ Ht Hg) as (ts & Hts & E). rewrite Hts. cbn.
    destruct (mir_targets_exact index g) as (ts' & E' & H); [by eapply Forall_lookup_1 in Hi|]. replace ts with ts' by congruence. apply H. }
  assert (forall a b, b ∈ default [] (targets !! a) -> is_Some (fns !! a)) as Hin.
  { intros a b Hab. destruct (fns !! a) as [g|] eqn:E; [done|]. apply lookup_ge_None in E. rewrite (Forall2_length _ _ _ Ht) in E.
    apply lookup_ge_None in E. rewrite E in Hab. by apply elem_of_nil in Hab. }
  split.
  - intros (r & Hroot & Hp). assert (live fns r) as Hl.
    { apply (mir_stack_elem m r Hm) in Hroot as [(name & Hn & Hs)|(f & Hf & Hc)]; [by eapply live_named|by eapply live_indirect]. }
    clear Hroot. induction Hp as [|a b c Hab _ IH]; [done|]. apply IH; [done|]. pose proof (Hin _ _ Hab) as [g Hg].
    apply (He a g Hg) in Hab as (name & Hr & Hs%mir_index). by eapply live_refers.
  - intros Hl. clear Hx. induction Hl as [name i Hn Hs|i f Hf Hc|i f name j _ IH Hf Hr Hs].
    + exists i. split; [|done]. apply mir_stack_elem; eauto.
    + exists i. split; [|done]. apply mir_stack_elem; eauto.
    + destruct IH as (r & Hr' & Hp). exists r. split; [done|]. eapply rtc_r; [exact Hp|]. cbn.
      apply (He i f Hf). exists name. split; [done|by apply mir_index].
Qed.
End pruned.

(** C7: Pruning MIR functions ends.  Of one function, or without a main, all
    are kept; otherwise exactly those whose name stands for a function that
    can be entered from main, from a helper of the runtime or through a
    pointer are, in their order.  A name stands for the last function that has
    it.  That every instruction a block names exists is assumed: the lowering
    adds instructions to the function before it names them in a block. *)
Theorem mir_pruning_exact (fns : list MirFunction) :
  Forall (fun f => insts_exist f = true) fns ->
  exists kept removed, prune_unreachable_mir_functions fns = Some (kept, removed) /\ List.length fns = List.length kept + removed /\
    (List.length fns <= 1 \/ "main" ∉ map fn_name fns -> kept = fns) /\
    (2 <= List.length fns -> "main" ∈ map fn_name fns ->
      exists keep, kept = List.filter keep fns /\ forall f, f ∈ fns -> (keep f = true <-> entered fns (fn_name f))).
Proof.
  intros Hi. unfold prune_unreachable_mir_functions. destruct (Nat.leb_spec (List.length fns) 1) as [Hlen|Hlen].
  { exists fns, 0. split_and!; [done|lia|done|lia]. }
  set (index := index_by_name (map fn_name fns)). destruct (index !! "main") as [m|] eqn:Hm.
  2: { exists fns, 0. split_and!; [done|lia|done|]. intros _ [m Hm']%index_by_name_elem. fold index in Hm'. congruence. }
  assert ("main" ∈ map fn_name fns) as Hmain by (by eapply list_elem_of_lookup_2, index_by_name_some).
  assert (exists targets, mapM (collect_mir_call_targets index) fns = Some targets) as [targets Ht].
  { apply mapM_is_Some. eapply Forall_impl; [exact Hi|]. intros f Hf. destruct (mir_targets_exact index f Hf) as (ts & E & _). by exists ts. }
  rewrite Ht. cbn.
  assert (forall i, List.length fns <= i -> default [] (targets !! i) = []) as Hn.
  { intros i Hl. pose proof (length_mapM _ _ _ Ht). rewrite (proj2 (lookup_ge_None _ _)); [done|lia]. }
  destruct (reach_total (fun idx => default [] (targets !! idx)) _ Hn (mir_stack index m fns)) as [R HR]. rewrite HR. cbn.
  do 2 eexists. split; [reflexivity|]. split; [pose proof (filter_length_le (keeps_mir index R) fns); lia|]. split; [intros [?|?]; [lia|done]|].
  intros _ _. exists (keeps_mir index R). split; [done|]. intros f Hf. unfold keeps_mir, entered.
  destruct (index_by_name_elem (map fn_name fns) (fn_name f)) as [i Hfi]; [by apply list_elem_of_fmap_2|]. fold index in Hfi. rewrite Hfi, bool_decide_eq_true.
  pose proof (proj1 (mir_index fns _ _) Hfi) as Hs. pose proof (reach_exact _ _ Hn _ _ HR i) as Hre.
  assert (is_Some (fns !! i)) as Hx by (destruct Hs as (g & Hg & _); by exists g).
  pose proof (live_index fns Hi targets m Ht Hm i Hx) as Hl. fold index in Hl. rewrite Hre, Hl. split; [by exists i|].
  intros (j & Hj & Hlj). apply mir_index in Hj. fold index in Hj. congruence.
Qed.

Definition calls (name : string) (callees : list string) : MirFunction :=
  let f := function_new name [] (Mir.MInt 64) in
  default f (fold_left (fun f callee => let* f := f in push_inst_to_block 0 (ICall (mkLocal 0 LReturn) callee []) f) callees (Some f)).

Lemma mir_pruning_exact_witness :
  let fns := [calls "dead" ["used"]; calls "used" []; calls "main" ["used"; "printf"]; calls "$__lambda0" ["of_lambda"]; calls "of_lambda" []; calls "dead2" ["dead"]] in
  (fun r => (map fn_name r.1, r.2)) <$> prune_unreachable_mir_functions fns = Some (["used"; "main"; "$__lambda0"; "of_lambda"], 2) /\
  ~ entered fns "dead".
Proof.
  intros fns. assert (exists kept, prune_unreachable_mir_functions fns = Some (kept, 2) /\ map fn_name kept = ["used"; "main"; "$__lambda0"; "of_lambda"]) as (kept & Hk & Hn).
  { eexists. split; vm_compute; reflexivity. }
  split; [by rewrite Hk; cbn; rewrite Hn|].
  destruct (mir_pruning_exact fns) as (kept' & removed & E & _ & _ & H); [by repeat constructor|].
  destruct H as (keep & Hkeep & H); [cbn; lia|apply (bool_decide_unpack _); vm_compute; exact I|].
  rewrite <- (H (calls "dead" ["used"])) by left. intros Hd. assert (kept = kept') as -> by congruence.
  assert ("dead" ∈ map fn_name kept') as Hx.
  { apply (list_elem_of_fmap_2 fn_name kept' (calls "dead" ["used"])). rewrite Hkeep.
    apply list_elem_of_In, filter_In. split; [by left|done]. }
  rewrite Hn in Hx. set_solver.
Defined.

(** ** Source texts *)

Lemma run_length_before P (r rest : text) : (exists d, last r = Some d /\ P d = false) -> run_length P (r ++ rest) <= List.length r.
Proof.
  induction r as [|c r IH]; intros (d & Hd & HP); [done|]. cbn. destruct (P c) eqn:E; [|lia].
  destruct r as [|c' r]; [cbn in Hd; congruence|]. apply le_n_S, IH. eauto.
Qed.

Section text_targets.
Context (before name after : text).
Let body := before ++ name ++ after.
Context (Hname : is_ident name = true) (Hb : forall c, last before = Some c -> is_ident_continue c = false) (Ha : stops is_ident_continue after).

(** No identifier that begins in front of the name ends behind its start. *)
Lemma ident_ends_before i s e : i < List.length before -> parse_ident_range body i = Some (s, e) -> e <= List.length before.
Proof.
  intros Hi. unfold parse_ident_range, body. rewrite drop_app_le by lia.
  destruct (drop i before) as [|c r] eqn:E; [apply (f_equal List.length) in E; rewrite length_drop in E; simpl in E; lia|]. cbn.
  destruct (is_ident_start c) eqn:Ec; [|done]. intros [= <- <-].
  assert (List.length before = i + S (List.length r)) as Hl by (apply (f_equal List.length) in E; rewrite length_drop in E; simpl in E; lia).
  assert (forall d, last (c :: r) = Some d -> is_ident_continue d = false) as Hr.
  { intros d Hd. apply Hb. by rewrite <- (take_drop i before), E, last_app, Hd. }
  enough (run_length is_ident_continue (r ++ name ++ after) <= List.length r) by lia. apply run_length_before.
  destruct r as [|c' r]; [|destruct (last (c' :: r)) as [d|] eqn:Ed; [exists d; split; [done|by apply Hr]|by apply last_None in Ed]].
  specialize (Hr c eq_refl). unfold is_ident_start, is_ident_continue, is_ascii_alphanumeric in *.
  destruct (is_ascii_alphabetic c), (Ascii.eqb c "_"), (is_ascii_digit c); simpl in *; discriminate.
Qed.

(** A function whose name occurs as a word of a body is a target of the body. *)
Lemma word_is_target index idx : index !! str name = Some idx -> idx ∈ collect_call_targets index body.
Proof.
  intros Hidx. unfold collect_call_targets.
  apply (while_ind _ _ _ (fun cursor targets => cursor <= List.length before \/ idx ∈ targets) (fun targets => idx ∈ targets)); [| |left; lia].
  - intros i targets Hi [Hc|]; [|done]. pose proof (is_ident_cons name Hname) as (c & w & -> & _). unfold body in Hi. rewrite !length_app in Hi. simpl in Hi. lia.
  - intros i targets Hi Hinv. destruct (decide (i = List.length before)) as [->|Hne].
    + assert (drop (List.length before) body = name ++ after) as Hd by apply drop_app_length.
      rewrite (parse_ident_range_at _ body name after Hd Hname Ha), (sub_text_at _ body name after Hd), Hidx.
      pose proof (is_ident_cons name Hname) as (c & w & -> & _). split; [simpl; lia|right; set_solver].
    + assert (forall e, e <= List.length before -> i < e -> i < e /\ (e <= List.length before \/ idx ∈ targets)) as Hnext by auto.
      destruct (parse_ident_range body i) as [[s e]|] eqn:E.
      * pose proof (parse_ident_range_le _ _ _ _ E) as [-> [Hie _]].
        assert (e <= List.length before \/ idx ∈ targets) as Hor.
        { destruct Hinv as [Hl|]; [left|by right]. eapply ident_ends_before, E. lia. }
        destruct (index !! str (sub_text i e body)); (split; [done|]); destruct Hor; set_solver.
      * split; [lia|]. destruct Hinv; [left; lia|by right].
Qed.
End text_targets.

(** Of a plain text with distinct function names one of which is main, what is
    left when functions are removed is the text of the functions of a set that
    has main and every function whose name occurs as a word in the body of a
    function of the set. *)
Theorem source_pruning_closed (source : text) (functions : list FunctionSlice) result :
  prune_plain_functions source functions = Some (Some result) ->
  exists K : gset nat,
    sp_source result = join_functions (map (fun f => slice_text source (fs_range f)) (omap (fun '(i, f) => if decide (i ∈ K) then Some f else None) (imap pair functions))) /\
    (exists i f, i ∈ K /\ functions !! i = Some f /\ str (fs_name f) = "main") /\
    forall i f j g before after, i ∈ K -> functions !! i = Some f -> functions !! j = Some g ->
      slice_text source (fs_body f) = before ++ fs_name g ++ after -> is_ident (fs_name g) = true ->
      (forall c, last before = Some c -> is_ident_continue c = false) -> stops is_ident_continue after -> j ∈ K.
Proof.
  unfold prune_plain_functions. case_bool_decide as Hnd; [|done]. cbn [negb].
  destruct (index_by_name _ !! "main") as [m|] eqn:Em; [|done].
  match goal with |- context [reach _ ?e _] => set (edges := e) end.
  assert (Hn : forall i, List.length functions <= i -> edges i = []) by (intros i Hi; unfold edges; by rewrite (proj2 (lookup_ge_None _ _))).
  destruct (reach _ edges _) as [K|] eqn:HK; [|done]. cbn. case_match; [done|]. intros [= <-]. exists K.
  pose proof (reach_exact edges _ Hn _ _ HK) as HR. split_and!; [done| |].
  - pose proof (index_by_name_some _ _ _ Em) as Hm. rewrite list_lookup_fmap in Hm. destruct (functions !! m) as [f|] eqn:Ef; [|done].
    injection Hm as Hm. exists m, f. split_and!; [|done..]. apply HR. exists m. split; [apply push_roots_elem; by left|done].
  - intros i f j g before after Hi Hf Hg Hbody Hname Hb Ha. apply HR. apply HR in Hi as (r & Hr & Hp). exists r. split; [done|].
    eapply rtc_r; [exact Hp|]. cbn. unfold edges. rewrite Hf, Hbody. apply word_is_target; [done..|].
    apply index_by_name_nodup; [done|]. by rewrite list_lookup_fmap, Hg.
Qed.

Example source_pruned :
  let source := list_ascii_of_string "def a() -> i64 { b(1) } def b(x: i64) -> i64 { x } def dead() { a() } def main() { a() }" in
  match scan_plain_top_level_functions source with
  | Some functions =>
      map (fun f => str (fs_name f)) functions = ["a"; "b"; "dead"; "main"] /\
      match prune_plain_functions source functions with
      | Some (Some result) =>
          str (sp_source result) = String.concat (str [NEWLINE; NEWLINE]) ["def a() -> i64 { b(1) }"; "def b(x: i64) -> i64 { x }"; "def main() { a() }"] +:+ str [NEWLINE] /\
          sp_removed_functions result = 1
      | _ => False
      end
  | None => False
  end.
Proof. vm_compute. by split_and!. Qed.
