(* ===== verification/Format.v ===== *)
(** The source formatter: tools/sgfmt/src/lib.rs and expressions.rs, with the
    [Display] impls of the operators (compiler/src/ast/op.rs).

    It prints the syntax tree; parentheses are nodes of the tree.  How [f64] is
    shown and how a source text is parsed are parameters. *)

From S2P Require Import Prelude Strs Ast Token Scanner HirItems.
From stdpp Require Import pretty.
From Stdlib Require Import Ascii String.

#[local] Open Scope string_scope.

Record FormatOptions := mkFormatOptions { max_width : nat; indent_width : nat }.
Definition default_options : FormatOptions := mkFormatOptions 100 4.

(** ** Text *)

Definition str (l : list ascii) : string := string_of_list_ascii l.
Definition quoted (q : ascii) (s : string) : string := String q (s +:+ String q EmptyString).

Definition escape_with (q : option ascii) (c : ascii) : list ascii :=
  if Ascii.eqb c "\" then ["\"; "\"]%char
  else if bool_decide (q = Some c) then ["\"%char; c]
  else if Ascii.eqb c NEWLINE then ["\"; "n"]%char
  else if Ascii.eqb c "013" then ["\"; "r"]%char
  else if Ascii.eqb c "009" then ["\"; "t"]%char
  else [c].
Definition escape_string (s : string) : string :=
  str (flat_map (escape_with (Some QUOTE)) (list_ascii_of_string s)).
Definition escape_char (code : Z) : string := str (flat_map (escape_with (Some "'"%char)) (encode_char code)).

Definition binop_text (op : BinOp) : string :=
  match op with
  | BAdd => "+" | BSub => "-" | BMul => "*" | BDiv => "/" | BMod => "%"
  | BBitAnd => "&" | BBitOr => "|" | BBitXor => "^" | BShl => "<<" | BShr => ">>"
  | BAnd => "and" | BOr => "or"
  | BEq => "==" | BNotEq => "!=" | BLt => "<" | BLe => "<=" | BGt => ">" | BGe => ">="
  | BPipe => "|>" | BCompose => ".>" | BRange => ".." | BRangeInclusive => "..="
  end.
Definition unop_text (op : UnOp) : string :=
  match op with
  | Plus => "+" | Neg => "-" | Not => "not" | BitNot => "~" | Deref => "*" | Ref => "&" | RefMut => "&mut" | DerefMut => "*mut"
  end.
Definition assignop_text (op : AssignOp) : string :=
  match op with
  | AAssign => "=" | AAddAssign => "+=" | ASubAssign => "-=" | AMulAssign => "*=" | ADivAssign => "/=" | AModAssign => "%="
  | ABitAndAssign => "&=" | ABitOrAssign => "|=" | ABitXorAssign => "^=" | AShlAssign => "<<=" | AShrAssign => ">>="
  | APipeAssign => "|=>"
  end.
(** The operator is followed by a space if it is a word or ends in one. *)
Definition unop_prefix (op : UnOp) : string :=
  if chars_all is_ascii_alphabetic (unop_text op) || bool_decide (op = RefMut) || bool_decide (op = DerefMut)
  then unop_text op +:+ " " else unop_text op.

Definition has_char (c : ascii) (s : string) : bool := existsb (Ascii.eqb c) (list_ascii_of_string s).

Definition visibility_prefix (vis : Visibility) : string := if is_public vis then "pub " else EmptyString.

Definition format_self_param (s : SelfParam) : string :=
  match s with Borrowed => "&self" | BorrowedMut => "&mut self" | Owned => "self" | OwnedMut => "mut self" end.

Definition format_path (p : Path) : string := String.concat "::" (map ident_name (path_segments p)).

Definition comma (l : list string) : string := String.concat ", " l.
Definition braces (items : list string) : string :=
  match items with [] => "{}" | _ => "{ " +:+ comma items +:+ " }" end.
Definition tuple_text (items : list string) : string :=
  match items with [] => "()" | [x] => "(" +:+ x +:+ ",)" | _ => "(" +:+ comma items +:+ ")" end.
Definition newline : string := String NEWLINE EmptyString.
Definition join_nl : list string -> string := String.concat newline.

(** ** Types *)

Definition format_trait_bound_with (ty : AstType -> string) (b : TraitBound AstType) : string :=
  match tb_params _ b with
  | [] => format_path (tb_path _ b)
  | ps => format_path (tb_path _ b) +:+ "<" +:+ comma (map ty ps) +:+ ">"
  end.

Fixpoint format_type (t : AstType) : string :=
  match t with mkAstType kind _ =>
    match kind with
    | KSelfType _ => "Self"
    | KPath _ path => format_path path
    | KPathWithArgs _ path args => format_path path +:+ "<" +:+ comma (map format_type args) +:+ ">"
    | KTuple _ types => "(" +:+ comma (map format_type types) +:+ ")"
    | KArray _ elem len => "[" +:+ format_type elem +:+ "; " +:+ pretty len +:+ "]"
    | KSlice _ elem => "[" +:+ format_type elem +:+ "]"
    | KPtr _ base is_mut => (if is_mut then "*mut " else "*const ") +:+ format_type base
    | KRef _ base is_mut => (if is_mut then "&mut " else "&") +:+ format_type base
    | KFn _ params ret =>
        "fn(" +:+ comma (map format_type params) +:+ ")" +:+
        match ret with Some ret => " -> " +:+ format_type ret | None => EmptyString end
    | KNever _ => "!"
    | KInfer _ => "_"
    | KDyn _ bounds => "dyn " +:+ String.concat " + " (map (format_trait_bound_with format_type) bounds)
    | KImplTrait _ bounds => "impl " +:+ String.concat " + " (map (format_trait_bound_with format_type) bounds)
    end
  end.

Definition format_trait_bound : TraitBound AstType -> string := format_trait_bound_with format_type.

Definition format_type_param (p : TypeParam) : string :=
  ident_name (tp_name p) +:+
  match tp_bounds p with [] => EmptyString | bs => ": " +:+ String.concat " + " (map format_trait_bound bs) end +:+
  match tp_default p with Some t => " = " +:+ format_type t | None => EmptyString end.
Definition format_type_params (ps : list TypeParam) : string :=
  match ps with [] => EmptyString | _ => "<" +:+ comma (map format_type_param ps) +:+ ">" end.
Definition format_param (p : Param) : string :=
  (if param_is_mut p then "mut " else EmptyString) +:+ ident_name (param_name p) +:+ ": " +:+ format_type (param_ty p).
Definition format_struct_field (f : StructField) : string :=
  match sf_name f with
  | Some name => visibility_prefix (sf_vis f) +:+ ident_name name +:+ ": " +:+ format_type (sf_ty f)
  | None => visibility_prefix (sf_vis f) +:+ format_type (sf_ty f)
  end.
Definition format_field_name (n : FieldName) : string :=
  match n with FieldIdent i => ident_name i | FieldString s => quoted QUOTE (escape_string s) end.

(** ** Literals, patterns and expressions *)

Section formatter.
Context (options : FormatOptions) (show_f64 : Z -> string).

Definition pad (indent : nat) : string := str (repeat " "%char (indent * indent_width options)).

Definition format_literal (l : Literal) : string :=
  match l with
  | LInt z | LUint z => pretty z
  | LFloat bits =>
      let s := show_f64 bits in
      if has_char "." s || has_char "e" s || has_char "E" s then s else s +:+ ".0"
  | LString s => quoted QUOTE (escape_string s)
  | LChar c => quoted "'" (escape_char c)
  | LBytes b => "b" +:+ quoted QUOTE (str (utf8_lossy (List.length b) b))
  | LBool b => if b then "true" else "false"
  | LNull => "null"
  | LUnit => "()"
  end.

Definition range_op (e : RangeEnd) : string := match e with Inclusive => "..=" | Exclusive | HalfOpen => ".." end.
Definition is_wildcard (p : Pattern) : bool := match p with mkPattern (PWildcard _) _ => true | _ => false end.
Definition pattern_span (p : Pattern) : Span := match p with mkPattern _ s => s end.

Fixpoint format_pattern (p : Pattern) : string :=
  match p with mkPattern kind _ =>
    match kind with
    | PWildcard _ => "_"
    | PLiteral _ l => format_literal l
    | PIdent _ i => ident_name i
    | PPath _ path => format_path path
    | PStruct _ path fields rest =>
        format_path path +:+ " " +:+
        braces (map (fun f => if spf_shorthand _ f then ident_name (spf_name _ f)
                              else ident_name (spf_name _ f) +:+ ": " +:+ format_pattern (spf_pattern _ f)) fields
                ++ if rest then [".."] else [])%list
    | PTupleStruct _ path ps => format_path path +:+ "(" +:+ comma (map format_pattern ps) +:+ ")"
    | PTuple _ ps => tuple_text (map format_pattern ps)
    | PSlice _ ps rest =>
        "[" +:+ comma (map format_pattern ps ++ match rest with Some r => [".." +:+ format_pattern r] | None => [] end)%list +:+ "]"
    | PRange _ lo hi e =>
        (if is_wildcard lo && bool_decide (pattern_span lo = pattern_span hi) then EmptyString else format_pattern lo) +:+
        range_op e +:+ format_pattern hi
    | POr _ ps => match ps with [] => "_" | _ => String.concat " | " (map format_pattern ps) end
    end
  end.

Section statements.
Context (format_expr : Expr -> string).

Definition format_let (name : Ident) (ty : option AstType) (value : option Expr) (is_mut : bool) : string :=
  "let " +:+ (if is_mut then "mut " else EmptyString) +:+ ident_name name +:+
  match ty with Some t => ": " +:+ format_type t | None => EmptyString end +:+
  match value with Some v => " = " +:+ format_expr v | None => EmptyString end +:+ ";".

Definition format_const_stmt (name : Ident) (ty : AstType) (value : Expr) : string :=
  "const " +:+ ident_name name +:+ ": " +:+ format_type ty +:+ " = " +:+ format_expr value +:+ ";".

Definition format_stmt_inline (s : AStmt) : string :=
  match stmt_kind s with
  | SLet name ty value is_mut => format_let name ty value is_mut
  | SConst name ty value => format_const_stmt name ty value
  | SExpr e => format_expr e +:+ ";"
  | SItem _ => "/* item */"
  end.

Definition format_block_inline (b : ABlock) : string :=
  match block_stmts b with
  | [] => "{}"
  | stmts => "{ " +:+ String.concat " " (map format_stmt_inline stmts) +:+ " }"
  end.

Definition format_match_arm (arm : MatchArm Expr) : string :=
  match arm_patterns arm with [] => "_" | ps => String.concat " | " (map format_pattern ps) end +:+
  match arm_guard arm with Some g => " if " +:+ format_expr g | None => EmptyString end +:+
  " => " +:+ format_expr (arm_body arm).

Definition format_field_value (f : FieldValue Expr) : string :=
  match fv_name f, expr_kind (fv_value f) with
  | FieldIdent name, EIdent value =>
      if String.eqb (ident_name name) (ident_name value) then ident_name name
      else format_field_name (fv_name f) +:+ ": " +:+ format_expr (fv_value f)
  | _, _ => format_field_name (fv_name f) +:+ ": " +:+ format_expr (fv_value f)
  end.

Definition format_jump (word : string) (value : option Expr) : string :=
  match value with Some v => word +:+ " " +:+ format_expr v | None => word end.

Definition format_opt (value : option Expr) : string := match value with Some v => format_expr v | None => EmptyString end.
End statements.

Fixpoint format_expr (e : Expr) : string :=
  match e with mkExpr kind _ =>
    match kind with
    | ELiteral l => format_literal l
    | EIdent i => ident_name i
    | EPath p => format_path p
    | EBinary op l r => format_expr l +:+ " " +:+ binop_text op +:+ " " +:+ format_expr r
    | EUnary op e => unop_prefix op +:+ format_expr e
    | ECall f args => format_expr f +:+ "(" +:+ comma (map format_expr args) +:+ ")"
    | EMethodCall r m args => format_expr r +:+ "." +:+ ident_name m +:+ "(" +:+ comma (map format_expr args) +:+ ")"
    | EBlock b => format_block_inline format_expr b
    | EIf c t o =>
        "if " +:+ format_expr c +:+ " " +:+ format_block_inline format_expr t +:+
        match o with Some e => " else " +:+ format_expr e | None => EmptyString end
    | EWhile c b => "while " +:+ format_expr c +:+ " " +:+ format_block_inline format_expr b
    | EFor p it b => "for " +:+ format_pattern p +:+ " in " +:+ format_expr it +:+ " " +:+ format_block_inline format_expr b
    | ELoop b => "loop " +:+ format_block_inline format_expr b
    | EMatch s arms => "match " +:+ format_expr s +:+ " " +:+ braces (map (format_match_arm format_expr) arms)
    | EReturn o => format_jump format_expr "return" o
    | EBreak o => format_jump format_expr "break" o
    | EContinue => "continue"
    | EYield o => format_jump format_expr "yield" o
    | EAwait e => "await " +:+ format_expr e
    | EAsyncBlock b => "async " +:+ format_block_inline format_expr b
    | EParallelBlock b => "parallel " +:+ format_block_inline format_expr b
    | EIndex b i => format_expr b +:+ "[" +:+ format_expr i +:+ "]"
    | EField b f => format_expr b +:+ "." +:+ ident_name f
    | EArray es => "[" +:+ comma (map format_expr es) +:+ "]"
    | ETuple es => tuple_text (map format_expr es)
    | EStruct path fields base =>
        format_path path +:+ " " +:+
        braces (map (format_field_value format_expr) fields ++
                match base with Some b => [".." +:+ format_expr b] | None => [] end)%list
    | EAssign t v => format_expr t +:+ " = " +:+ format_expr v
    | EAssignOp op t v => format_expr t +:+ " " +:+ assignop_text op +:+ " " +:+ format_expr v
    | ERange a b inclusive => format_opt format_expr a +:+ (if inclusive then "..=" else "..") +:+ format_opt format_expr b
    | ELambda params body => "|" +:+ comma (map ident_name params) +:+ "| " +:+ format_expr body
    | ETry e => format_expr e +:+ "?"
    | ETryBlock b => "try " +:+ format_block_inline format_expr b
    | ECast e ty => format_expr e +:+ " as " +:+ format_type ty
    | EIs e ty => format_expr e +:+ " is " +:+ format_type ty
    | EParen e => "(" +:+ format_expr e +:+ ")"
    end
  end.

(** ** Declarations *)

Definition format_block_with (decl : Decl -> nat -> string) (b : ABlock) (indent : nat) : string :=
  join_nl ("{" ::
    map (fun s => match stmt_kind s with
                  | SLet name ty value is_mut => pad (S indent) +:+ format_let format_expr name ty value is_mut
                  | SConst name ty value => pad (S indent) +:+ format_const_stmt format_expr name ty value
                  | SExpr e => pad (S indent) +:+ format_expr e +:+ ";"
                  | SItem d => decl d (S indent)
                  end) (block_stmts b) ++ [pad indent +:+ "}"])%list.

Definition format_function_with (decl : Decl -> nat -> string) (f : AFunction) (indent : nat) : string :=
  let head :=
    visibility_prefix (fn_vis f) +:+
    (if fn_is_async f then "async " else EmptyString) +:+
    (if fn_is_unsafe f then "unsafe " else EmptyString) +:+
    match fn_abi f with Some abi => "extern " +:+ quoted QUOTE (escape_string abi) +:+ " " | None => EmptyString end +:+
    "def " +:+ ident_name (fn_name f) +:+ format_type_params (fn_type_params f) +:+ "(" +:+
    comma (match fn_self_param f with Some s => [format_self_param s] | None => [] end ++ map format_param (fn_params f))%list +:+
    ")" +:+
    match fn_return_type f with Some t => " -> " +:+ format_type t | None => EmptyString end +:+
    match fn_precondition f with Some e => " requires " +:+ format_expr e | None => EmptyString end +:+
    match fn_postcondition f with Some e => " ensures " +:+ format_expr e | None => EmptyString end in
  join_nl ((if fn_no_mangle f then [pad indent +:+ "#[no_mangle]"] else []) ++
           match fn_export_name f with
           | Some n => [pad indent +:+ "#[export_name = " +:+ quoted QUOTE (escape_string n) +:+ "]"]
           | None => []
           end ++
           [pad indent +:+ head +:+ " " +:+ format_block_with decl (fn_body f) indent])%list.

Definition format_struct_decl (s : Struct) (indent : nat) : string :=
  let head := pad indent +:+ visibility_prefix (st_vis s) +:+ "struct " +:+ ident_name (st_name s) +:+
              format_type_params (st_type_params s) in
  match st_fields s with
  | [] => head +:+ ";"
  | fields =>
      if forallb (fun f => is_some (sf_name f)) fields
      then join_nl ((head +:+ " {") :: map (fun f => pad (S indent) +:+ format_struct_field f +:+ ",") fields ++
                    [pad indent +:+ "}"])%list
      else head +:+ "(" +:+ comma (map format_struct_field fields) +:+ ");"
  end.

Definition variant_fields_text (fields : list VariantField) : string :=
  match fields with
  | [] => EmptyString
  | _ =>
      if forallb (fun f => negb (is_unnamed f)) fields
      then " { " +:+ comma (map (fun f => match f with
                                         | VNamed name ty => ident_name name +:+ ": " +:+ format_type ty
                                         | VUnnamed ty => format_type ty
                                         end) fields) +:+ " }"
      else "(" +:+ comma (map (fun f => match f with VNamed _ ty | VUnnamed ty => format_type ty end) fields) +:+ ")"
  end.
Definition format_enum_variant (v : EnumVariant Expr) : string :=
  ident_name (ev_name _ v) +:+ variant_fields_text (ev_fields _ v) +:+
  match ev_discriminant _ v with Some e => " == " +:+ format_expr e | None => EmptyString end.

Definition format_enum_decl (e : Enum Expr) (indent : nat) : string :=
  join_nl ((pad indent +:+ visibility_prefix (en_vis _ e) +:+ "enum " +:+ ident_name (en_name _ e) +:+
            format_type_params (en_type_params _ e) +:+ " {") ::
           map (fun v => pad (S indent) +:+ format_enum_variant v) (en_variants _ e) ++ [pad indent +:+ "}"])%list.

Definition format_type_alias_decl (t : TypeAlias) (indent : nat) : string :=
  pad indent +:+ visibility_prefix (ta_vis t) +:+ "type " +:+ ident_name (ta_name t) +:+
  format_type_params (ta_type_params t) +:+ " = " +:+ format_type (ta_ty t) +:+ ";".

Definition format_associated_type_decl (t : AssociatedTypeDecl) (indent : nat) : string :=
  pad indent +:+ "type " +:+ ident_name (at_name t) +:+ ";".

Definition format_const_decl (c : Const Expr) (indent : nat) : string :=
  pad indent +:+ visibility_prefix (co_vis _ c) +:+ "const " +:+ ident_name (co_name _ c) +:+ ": " +:+
  format_type (co_ty _ c) +:+ " == " +:+ format_expr (co_value _ c) +:+ ";".

Definition format_static_decl (s : Static Expr) (indent : nat) : string :=
  pad indent +:+ visibility_prefix (sc_vis _ s) +:+ "static " +:+ (if sc_is_mut _ s then "mut " else EmptyString) +:+
  ident_name (sc_name _ s) +:+ ": " +:+ format_type (sc_ty _ s) +:+ " == " +:+ format_expr (sc_value _ s) +:+ ";".

Definition format_import_decl (i : Import_) (indent : nat) : string :=
  let path := format_path (ip_path i) in
  match ip_kind i with
  | Simple =>
      match ip_alias i with
      | Some alias => pad indent +:+ "import " +:+ path +:+ " as " +:+ ident_name alias +:+ ";"
      | None => pad indent +:+ "import " +:+ path +:+ ";"
      end
  | Selective items => pad indent +:+ "import " +:+ path +:+ " { " +:+ comma (map ident_name items) +:+ " };"
  | Wildcard => pad indent +:+ "import " +:+ path +:+ " * from;"
  end.

Definition format_class_member_with (function : AFunction -> nat -> string) (indent : nat) (m : ClassMember Expr Decl) : string :=
  match m with
  | CMField field =>
      pad (S indent) +:+ match sf_name field with Some name => ident_name name | None => "_" end +:+ ": " +:+
      format_type (sf_ty field) +:+ ";"
  | CMMethod method => function method (S indent)
  end.

Definition format_class_decl_with (function : AFunction -> nat -> string) (c : AClass) (indent : nat) : string :=
  let head :=
    pad indent +:+ visibility_prefix (cl_vis c) +:+ "class " +:+ ident_name (cl_name c) +:+
    format_type_params (cl_type_params c) +:+
    match cl_extends c with Some parent => ": " +:+ format_path parent | None => EmptyString end +:+
    match cl_implements c with [] => EmptyString | bs => " implements " +:+ comma (map format_trait_bound bs) end in
  join_nl ((head +:+ " {") :: map (format_class_member_with function indent) (cl_members c) ++ [pad indent +:+ "}"])%list.

Definition format_trait_decl_with (function : AFunction -> nat -> string) (t : ATrait) (indent : nat) : string :=
  let head :=
    pad indent +:+ visibility_prefix (tr_vis t) +:+ "trait " +:+ ident_name (tr_name t) +:+
    format_type_params (tr_type_params t) +:+
    match tr_bounds _ _ t with [] => EmptyString | bs => ": " +:+ comma (map format_trait_bound bs) end in
  join_nl ((head +:+ " {") ::
    map (fun item => match item with
                     | TIFunction f => function f (S indent)
                     | TIConst c => format_const_decl c (S indent)
                     | TIType a => format_associated_type_decl a (S indent)
                     end) (tr_items t) ++ [pad indent +:+ "}"])%list.

Definition format_impl_decl_with (function : AFunction -> nat -> string) (i : AImpl) (indent : nat) : string :=
  let head :=
    pad indent +:+ "impl" +:+ format_type_params (im_type_params _ _ i) +:+ " " +:+
    match im_trait_path i with
    | Some path =>
        (if im_is_negative _ _ i then "!" else EmptyString) +:+ format_path path +:+
        match im_trait_args i with [] => EmptyString | args => "<" +:+ comma (map format_type args) +:+ ">" end +:+ " for "
    | None => EmptyString
    end +:+ format_type (im_target_type i) in
  join_nl ((head +:+ " {") ::
    map (fun t => format_type_alias_decl t (S indent)) (im_associated_types i) ++
    map (fun f => function f (S indent)) (im_items i) ++ [pad indent +:+ "}"])%list.

Definition format_extern_function_item (f : ExternFunction) : string :=
  visibility_prefix (xf_vis f) +:+ (if xf_is_unsafe f then "unsafe " else EmptyString) +:+ "fn " +:+ ident_name (xf_name f) +:+
  "(" +:+ comma (map format_param (xf_params f)) +:+ ")" +:+
  match xf_return_type f with Some t => " -> " +:+ format_type t | None => EmptyString end +:+ ";".
Definition format_extern_static_item (s : ExternStatic) : string :=
  visibility_prefix (xs_vis s) +:+ "static " +:+ (if xs_is_mut s then "mut " else EmptyString) +:+ ident_name (xs_name s) +:+
  ": " +:+ format_type (xs_ty s) +:+ ";".

Definition format_extern_block_decl (b : ExternBlock) (indent : nat) : string :=
  join_nl (match xb_link_name b with
           | Some n => [pad indent +:+ "#[link(name = " +:+ quoted QUOTE (escape_string n) +:+ ")]"]
           | None => []
           end ++
           [pad indent +:+ "extern " +:+ quoted QUOTE (escape_string (xb_abi b)) +:+ " {"] ++
           map (fun item => pad (S indent) +:+ match item with
                                              | XFunction f => format_extern_function_item f
                                              | XStatic s => format_extern_static_item s
                                              end) (xb_items b) ++
           [pad indent +:+ "}"])%list.

(** The items of a module, with an empty line between them. *)
Fixpoint spaced (l : list string) : list string :=
  match l with [] => [] | [x] => [x] | x :: l => x :: EmptyString :: spaced l end.

Fixpoint format_decl (d : Decl) (indent : nat) : string :=
  match d with mkDecl kind _ =>
    match kind with
    | DFunction f => format_function_with format_decl f indent
    | DStruct _ _ s => format_struct_decl s indent
    | DEnum _ _ e => format_enum_decl e indent
    | DClass _ _ c => format_class_decl_with (format_function_with format_decl) c indent
    | DTrait _ _ t => format_trait_decl_with (format_function_with format_decl) t indent
    | DImpl _ _ i => format_impl_decl_with (format_function_with format_decl) i indent
    | DExternBlock _ _ b => format_extern_block_decl b indent
    | DModule _ _ m =>
        join_nl ((pad indent +:+ visibility_prefix (mo_vis _ m) +:+ "mod " +:+ ident_name (mo_name _ m) +:+ " {") ::
                 spaced (map (fun item => format_decl item (S indent)) (mo_items _ m)) ++ [pad indent +:+ "}"])%list
    | DTypeAlias _ _ t => format_type_alias_decl t indent
    | DConst _ _ c => format_const_decl c indent
    | DStatic _ _ s => format_static_decl s indent
    | DImport _ _ i => format_import_decl i indent
    end
  end.

Definition format_block : ABlock -> nat -> string := format_block_with format_decl.
Definition format_function : AFunction -> nat -> string := format_function_with format_decl.

Definition format_program (p : Program) : string :=
  String.concat (newline +:+ newline) (map (fun d => format_decl d 0) (program_decls p)).

(** Format a text, and parse the result before it is returned. *)
Definition format_source {E} (parse : string -> result Program E) (source : string) : result string E :=
  let? program := parse source in
  let formatted := format_program program in
  let? _ := parse formatted in
  Ok formatted.
End formatter.

(** ** Test attributes (tools/sgfmt/src/main.rs)

    Lines with test attributes are blanked before the text is formatted, and put
    back before the function they stood at. *)

Definition is_test_attribute (trimmed : list ascii) : bool :=
  bool_decide (trimmed = list_ascii_of_string "#[test]") ||
  starts (list_ascii_of_string "#[case(") trimmed && is_some (Scanner.strip_suffix trimmed (list_ascii_of_string ")]")).

Definition declaration_of (trimmed : list ascii) : option (list ascii) :=
  match Scanner.strip_prefix (list_ascii_of_string "def ") trimmed with
  | Some value => Some value
  | None => Scanner.strip_prefix (list_ascii_of_string "async def ") trimmed
  end.

Definition trimmed_text (l : list ascii) : list ascii := list_ascii_of_string (trim (str l)).
Definition trimmed_start (l : list ascii) : list ascii := map Ascii.ascii_of_nat (trim_start (map Ascii.nat_of_ascii l)).

#[local] Notation text := (list ascii) (only parsing).
Definition mask_line (st : list text * list text * list (text * list text)) (line : text) :=
  let '(masked, pending, attributes) := st in
  let trimmed := trimmed_text line in
  if is_test_attribute trimmed then ((masked ++ [[]])%list, (pending ++ [trimmed])%list, attributes)
  else
    match pending, declaration_of trimmed with
    | _ :: _, Some value =>
        ((masked ++ [line])%list, [], (attributes ++ [(trimmed_text (default [] (head (split_on 40 value))), pending)])%list)
    | _, _ => ((masked ++ [line])%list, pending, attributes)
    end.

Definition mask_test_attributes (source : string) : string * list (text * list text) :=
  let '(masked, _, attributes) := fold_left mask_line (lines (list_ascii_of_string source)) ([], [], []) in
  (str (join_lines masked), attributes).

Definition declares (name line : text) : bool :=
  let trimmed := trimmed_start line in
  starts (list_ascii_of_string "def " ++ name ++ ["("%char])%list trimmed ||
  starts (list_ascii_of_string "async def " ++ name ++ ["("%char])%list trimmed.

Fixpoint position {A} (P : A -> bool) (l : list A) : option nat :=
  match l with [] => None | x :: l => if P x then Some O else S <$> position P l end.

(** The error names the function that is not found. *)
Fixpoint restore_lines (attributes : list (text * list text)) (ls : list text) : result (list text) text :=
  match attributes with
  | [] => Ok ls
  | (name, function_attributes) :: attributes =>
      match position (declares name) ls with
      | None => Err name
      | Some index => restore_lines attributes (take index ls ++ function_attributes ++ drop index ls)%list
      end
  end.
Definition restore_test_attributes (formatted : string) (attributes : list (text * list text)) : result string text :=
  let? ls := restore_lines attributes (lines (list_ascii_of_string formatted)) in Ok (str (join_lines ls)).

(** [format_file], after the file is read. *)
Definition format_content {E} (options : FormatOptions) (show_f64 : Z -> string) (parse : string -> result Program E)
    (content : string) : result string (E + text) :=
  let '(source, test_attributes) := mask_test_attributes content in
  match format_source options show_f64 parse source with
  | Err e => Err (inl e)
  | Ok formatted =>
      match restore_test_attributes formatted test_attributes with
      | Err name => Err (inr name)
      | Ok formatted => Ok (formatted +:+ newline)
      end
  end.
