(* ===== verification/FormatRoundtrip.v ===== *)
(** What the formatter prints is read back: an operator expression that is
    printed, scanned and parsed has its structure, and is printed the same again
    ([formatted_expression_read_back]).

    [pieces x] cuts the text of [x] into tokens and blanks.  A piece [fits] a
    text that follows if the scanner ends it there; that each piece of an
    expression fits the next ([pieces_laid]) is what the scanner's lemmas on
    words, numbers, strings and signs are for.  Texts that are not read back are
    at the end. *)

From Stdlib Require Import Ascii String.
From stdpp Require Import pretty.
From S2P Require Import Prelude Strs Ast Token Parser ParserDecl ParserInv ParserPratt Scanner ScannerInv HirItems Format.

#[local] Open Scope string_scope.
#[local] Open Scope list_scope.

Notation chars := list_ascii_of_string (only parsing).
Notation str := string_of_list_ascii (only parsing).

(** ** Pieces *)

(** A text, and the token it is if it is none to skip. *)
Notation piece := (list ascii * option item)%type.

Definition glyph (t : string) (k : TokenKind) : piece := (chars t, Some (sign k)).
Definition name_piece (s : string) : piece := (chars s, Some (TkIdent, TName s)).
Definition space : piece := ([" "%char], None).
Definition int_piece (n : Z) : piece := (chars (pretty n), Some (TkInt (Some n), TNumber)).
Definition string_piece (s : string) : piece := (chars (quoted QUOTE (escape_string s)), Some (sign (TkString (Some s)))).

Fixpoint joined (sep : list piece) (ls : list (list piece)) : list piece :=
  match ls with [] => [] | [l] => l | l :: ls' => l ++ sep ++ joined sep ls' end.

Definition path_pieces (names : list string) : list piece :=
  joined [glyph "::" TkColonColon] (map (fun s => [name_piece s]) names).
Definition comma_pieces : list (list piece) -> list piece := joined [glyph "," TkComma; space].

Definition prefix_pieces (op : UnOp) : list piece :=
  match op with
  | Neg => [glyph "-" TkMinus] | Not => [glyph "not" TkNotKw; space] | BitNot => [glyph "~" TkBitNot]
  | Deref => [glyph "*" TkStar] | Ref => [glyph "&" TkBitAnd]
  | RefMut => [glyph "&" TkBitAnd; glyph "mut" TkMutKw; space]
  | _ => []
  end.
Definition infix_text (o : infix_op) : string :=
  match o with OBin op => binop_text op | OAssign => "=" | OCompound op => assignop_text op end.
Definition infix_pieces (o : infix_op) : list piece :=
  match op_token o with Some (k, _) => [space; glyph (infix_text o) (in_words true k); space] | None => [] end.

Fixpoint pieces (x : sx) : list piece :=
  match x with
  | XInt n => [int_piece n]
  | XNegInt n => [glyph "-" TkMinus; int_piece n]
  | XBool b => [if b then glyph "true" TkTrueKw else glyph "false" TkFalseKw]
  | XNull => [glyph "null" TkNullKw]
  | XString s => [string_piece s]
  | XSelf => [(chars "self", Some (TkSelfLowerKw, TName "self"))]
  | XPath names => path_pieces names
  | XParen y => glyph "(" TkLParen :: pieces y ++ [glyph ")" TkRParen]
  | XArray xs => glyph "[" TkLBracket :: comma_pieces (map pieces xs) ++ [glyph "]" TkRBracket]
  | XCall names args => path_pieces names ++ glyph "(" TkLParen :: comma_pieces (map pieces args) ++ [glyph ")" TkRParen]
  | XUnary op y => prefix_pieces op ++ pieces y
  | XAwait y => glyph "await" TkAwaitKw :: space :: pieces y
  | XInfix o l r => pieces l ++ infix_pieces o ++ pieces r
  | XField y name => pieces y ++ [glyph "." TkDot; name_piece name]
  | XMethod y name args =>
      pieces y ++ glyph "." TkDot :: name_piece name :: glyph "(" TkLParen :: comma_pieces (map pieces args) ++ [glyph ")" TkRParen]
  | XIndex y i => pieces y ++ glyph "[" TkLBracket :: pieces i ++ [glyph "]" TkRBracket]
  | XTry y => pieces y ++ [glyph "?" TkQuestion]
  end.

Definition text_of (ps : list piece) : list ascii := List.concat (map fst ps).
Definition items_of (ps : list piece) : list item := omap snd ps.

Lemma text_of_app ps qs : text_of (ps ++ qs) = text_of ps ++ text_of qs.
Proof. unfold text_of. by rewrite map_app, concat_app. Qed.
Lemma text_of_cons p ps : text_of (p :: ps) = p.1 ++ text_of ps.
Proof. reflexivity. Qed.
Lemma items_of_app ps qs : items_of (ps ++ qs) = items_of ps ++ items_of qs.
Proof. apply omap_app. Qed.

Lemma items_joined sep i ls : items_of sep = [i] -> items_of (joined sep ls) = sep_by i (map items_of ls).
Proof.
  intros Hs. induction ls as [|l [|l' ls] IH]; [done|done|]. change (joined sep (l :: l' :: ls)) with (l ++ sep ++ joined sep (l' :: ls)).
  rewrite !items_of_app, Hs, IH. reflexivity.
Qed.

Lemma items_path names : items_of (path_pieces names) = print_path names.
Proof. unfold path_pieces, print_path. rewrite (items_joined _ (sign TkColonColon)) by done. by rewrite map_map. Qed.

Lemma items_list xs : Forall (fun x => canonical x = true -> items_of (pieces x) = print true x) xs -> forallb canonical xs = true ->
  items_of (comma_pieces (map pieces xs)) = sep_by (sign TkComma) (map (print true) xs).
Proof.
  intros HF Hc. unfold comma_pieces. rewrite (items_joined _ (sign TkComma)) by done. rewrite map_map. f_equal. apply map_ext_in.
  intros x Hx%list_elem_of_In. rewrite Forall_forall in HF. apply HF; [done|]. by apply (forallb_elem canonical xs).
Qed.

(** The tokens of the pieces are those of the expression. *)
Lemma pieces_items x : canonical x = true -> items_of (pieces x) = print true x.
Proof.
  induction x as [n|n|b| |s| |names|x IH|xs IH|names args IH|op x IH|x IH|o l r IHl IHr|x name IH|x name args IH IHa|x i IH IHi|x IH] using sx_nested_ind;
    cbn [canonical pieces print]; rewrite ?andb_true_iff; intros Hc; destruct_and?; try done.
  - by destruct b.
  - apply items_path.
  - change (items_of (?p :: ?l)) with (items_of ([p] ++ l)). rewrite !items_of_app, IH by done. reflexivity.
  - change (items_of (?p :: ?l)) with (items_of ([p] ++ l)). rewrite !items_of_app, items_list by done. reflexivity.
  - rewrite items_of_app, items_path. f_equal. change (items_of (?p :: ?l)) with (items_of ([p] ++ l)).
    rewrite !items_of_app, items_list by done. reflexivity.
  - rewrite items_of_app, IH by done. f_equal. by destruct op.
  - change (items_of (?p :: ?q :: ?l)) with (items_of ([p; q] ++ l)). by rewrite items_of_app, IH.
  - rewrite !items_of_app, IHl, IHr by done. do 2 f_equal. unfold infix_pieces. by destruct (op_token o) as [[k q]|].
  - rewrite items_of_app, IH by done. reflexivity.
  - rewrite items_of_app, IH by done. f_equal. change (items_of (?p :: ?q :: ?r :: ?l)) with (items_of ([p; q; r] ++ l)).
    rewrite !items_of_app, items_list by done. reflexivity.
  - rewrite items_of_app, IH by done. f_equal. change (items_of (?p :: ?l)) with (items_of ([p] ++ l)).
    rewrite !items_of_app, IHi by done. reflexivity.
  - rewrite items_of_app, IH by done. reflexivity.
Qed.

(** ** The formatter prints the pieces *)

Lemma chars_append a b : chars (a +:+ b) = chars a ++ chars b.
Proof. induction a as [|c a IH]; [done|]. simpl. by rewrite IH. Qed.

Lemma chars_concat sep l : chars (String.concat sep l) = text_of (joined [(chars sep, None)] (map (fun s => [(chars s, None)]) l)).
Proof.
  induction l as [|s [|s' l] IH]; [done|cbn; by rewrite app_nil_r|].
  change (String.concat sep (s :: s' :: l)) with (s +:+ sep +:+ String.concat sep (s' :: l)). rewrite !chars_append, IH. reflexivity.
Qed.

Lemma text_joined sep sep' ls ls' : text_of sep = text_of sep' -> map text_of ls = map text_of ls' ->
  text_of (joined sep ls) = text_of (joined sep' ls').
Proof.
  intros Hs. revert ls'. induction ls as [|l ls IH]; intros [|l' ls']; try done. intros [= Hl Hls]. specialize (IH ls' Hls).
  destruct ls, ls'; try done. change (joined ?s (?a :: ?b :: ?c)) with (a ++ s ++ joined s (b :: c)). by rewrite !text_of_app, Hl, Hs, IH.
Qed.

Section printing.
Context (show_f64 : Z -> string).
Notation format_expr := (format_expr show_f64).

Lemma text_path names : text_of (path_pieces names) = chars (String.concat "::" names).
Proof.
  rewrite chars_concat. apply text_joined; [done|]. rewrite !map_map. apply map_ext. intros s. unfold text_of. simpl. by rewrite app_nil_r.
Qed.

Definition prints (x : sx) : Prop := canonical x = true -> forall e, denotes x e -> text_of (pieces x) = chars (format_expr e).

Lemma text_list xs es : Forall prints xs -> forallb canonical xs = true -> Forall2 denotes xs es ->
  text_of (comma_pieces (map pieces xs)) = chars (comma (map format_expr es)).
Proof.
  intros HF Hc Hd. unfold comma. rewrite chars_concat. apply text_joined; [done|]. rewrite !map_map.
  induction Hd as [|x e xs es Hx Hd IH]; [done|]. apply Forall_cons in HF as [HP HF]. cbn [forallb] in Hc. apply andb_true_iff in Hc as [Hc Hcs].
  cbn [map]. f_equal; [|by apply IH]. rewrite (HP Hc e Hx). unfold text_of. simpl. by rewrite app_nil_r.
Qed.

Lemma text_one p : text_of [p] = p.1.
Proof. unfold text_of. simpl. apply app_nil_r. Qed.

Lemma text_prefix op : is_some (unary_tokens op) = true -> text_of (prefix_pieces op) = chars (unop_prefix op).
Proof. by destruct op. Qed.

Lemma text_infix o : is_some (op_token o) = true -> text_of (infix_pieces o) = chars (" " +:+ infix_text o +:+ " ").
Proof. destruct o as [op| |op]; [by destruct op|done|by destruct op]. Qed.

Lemma pieces_text x : prints x.
Proof.
  induction x as [n|n|b| |s| |names|x IH|xs IH|names args IH|op x IH|x IH|o l r IHl IHr|x name IH|x name args IH IHa|x i IH IHi|x IH] using sx_nested_ind;
    unfold prints in *; cbn [canonical pieces]; rewrite ?andb_true_iff; intros Hc e Hd; destruct_and?.
  all: destruct e as [k sp].
  all: try (destruct o as [op| |op]).
  all: destruct k; try (exfalso; exact Hd).
  all: cbn [denotes expr_kind] in Hd.
  all: cbn [Format.format_expr].
  all: repeat (rewrite text_of_app || rewrite text_one || rewrite text_of_cons); rewrite ?chars_append; cbn [fst glyph name_piece space int_piece string_piece].
  all: try match goal with l : Literal |- _ => destruct l; try (exfalso; exact Hd) end.
  all: repeat match goal with H : _ /\ _ |- _ => destruct H end; subst.
  all: repeat match goal with H : _ |- _ => apply denotes_all_inv in H end.
  all: repeat match goal with
    | IH : canonical ?y = true -> forall e, denotes ?y e -> _, C : canonical ?y = true, H : denotes ?y ?e |- _ => rewrite (IH C e H); clear IH
    | IH : Forall _ ?xs, C : forallb canonical ?xs = true, H : Forall2 denotes ?xs ?es |- _ => rewrite (text_list xs es IH C H); clear IH
    end.
  all: try match goal with H : is_some (unary_tokens _) = true |- _ => rewrite (text_prefix _ H) end.
  all: try match goal with H : is_some (op_token _) = true |- _ => rewrite (text_infix _ H), !chars_append end.
  all: rewrite ?text_path, <- ?app_assoc.
  all: try reflexivity.
  - cbn [format_literal]. destruct n as [|n|n]; [discriminate|reflexivity|discriminate].
  - by destruct b.
  - by rewrite Hd.
  - destruct func as [[] fs]; try done. simpl in H1. subst names. reflexivity.
Qed.
End printing.

(** ** The scanner reads the pieces *)

Section scanning.
Context (parse_f64 : list ascii -> option Z).
Notation next_token := (next_token parse_f64).
Notation tokens_from := (tokens_from parse_f64).

(** The scanner ends the piece where it ends. *)
Definition fits (p : piece) (rest : list ascii) : Prop :=
  next_token (p.1 ++ rest) = Some (List.length p.1, fst <$> p.2) /\
  match p.2 with Some i => text_ok i.2 (str p.1) | None => True end.

Fixpoint laid (ps : list piece) (rest : list ascii) : Prop :=
  match ps with [] => True | p :: ps => fits p (text_of ps ++ rest) /\ laid ps rest end.

Lemma laid_app ps qs rest : laid (ps ++ qs) rest <-> laid ps (text_of qs ++ rest) /\ laid qs rest.
Proof. induction ps as [|p ps IH]; simpl; [tauto|]. rewrite IH, text_of_app, <- app_assoc. tauto. Qed.

Lemma substring_app a b c : substring (List.length a) (List.length b) (str (a ++ b ++ c)) = str b.
Proof.
  induction a as [|x a IH]; [|done]. cbn [app List.length]. induction b as [|y b IH]; cbn [app List.length].
  - by destruct c.
  - cbn. by f_equal.
Qed.

Lemma length_str l : String.length (str l) = List.length l.
Proof. by rewrite <- length_chars, list_ascii_of_string_of_list_ascii. Qed.

Lemma token_with_span_ok pre t rest k x :
  (Z.of_nat (List.length (pre ++ t ++ rest)) < 2 ^ 32)%Z -> text_ok x (str t) ->
  item_ok (str (pre ++ t ++ rest)) (token_with_span k (List.length pre) (List.length pre + List.length t)) (k, x).
Proof.
  intros Hl Hx. rewrite !length_app in Hl. unfold token_with_span. rewrite !wrap_u_id by (unfold in_u; lia).
  split; [done|]. split; simpl.
  - intros _. rewrite length_str, !length_app. lia.
  - unfold slice. simpl. rewrite Nat2Z.id. replace (Z.to_nat _) with (List.length t) by lia. by rewrite substring_app.
Qed.

(** Pieces that fit are scanned to their tokens. *)
Lemma laid_tokens ps : forall pre fuel, laid ps [] -> List.length (text_of ps) <= fuel ->
  (Z.of_nat (List.length (pre ++ text_of ps)) < 2 ^ 32)%Z ->
  exists ts, tokens_from fuel (List.length pre) (text_of ps) = Some ts /\ spells (str (pre ++ text_of ps)) ts (items_of ps).
Proof.
  induction ps as [|[t k] ps IH]; intros pre fuel Hlaid Hf Hl; [exists []; split; [by destruct fuel|constructor]|].
  destruct Hlaid as [[Hn Hx] Hlaid]. rewrite text_of_cons in *. cbn [fst snd] in *. rewrite app_nil_r in Hn.
  pose proof (next_token_le _ _ _ _ Hn) as Hle. rewrite length_app in Hf.
  destruct fuel as [|fuel]; [lia|]. rewrite tokens_from_eq. destruct (t ++ text_of ps) as [|c s] eqn:Es; [simpl in Hle; lia|]. rewrite <- Es in *. clear c s Es.
  rewrite Hn. cbn [mbind option_bind fst snd]. rewrite drop_app_length.
  destruct (IH (pre ++ t) fuel) as (ts & Ht & Hs); [done|lia|by rewrite <- app_assoc|].
  rewrite length_app in Ht. rewrite Ht. cbn [mbind option_bind]. rewrite <- app_assoc in Hs.
  destruct k as [[k x]|]; (eexists; split; [reflexivity|]); [|exact Hs].
  constructor; [|exact Hs]. by apply token_with_span_ok.
Qed.

(** *** Single pieces *)

Lemma fits_sign t rest : t ∈ sign_tokens -> sign_stops t.1 rest = true -> fits (glyph t.1 t.2) rest.
Proof. intros Ht Hs. split; [|done]. simpl. rewrite next_sign by done. by rewrite length_chars. Qed.

Lemma word_kind_of t : t ∈ word_tokens -> word_kind t.1 = t.2.
Proof.
  intros Ht. unfold word_kind. destruct (List.find _ word_tokens) as [u|] eqn:E.
  - apply find_some in E as [Hu%list_elem_of_In Eu%String.eqb_eq]. by rewrite (word_tokens_unique u t).
  - apply list_elem_of_In in Ht. apply (find_none _ _ E) in Ht. simpl in Ht. by rewrite String.eqb_refl in Ht.
Qed.

Lemma fits_word w rest k x : forallb is_ident_continue (chars w) = true -> match chars w with c :: _ => is_ident_start c = true | [] => False end ->
  word_kind w = k -> text_ok x w -> word_stops rest = true -> fits (chars w, Some (k, x)) rest.
Proof.
  intros Hc Hs Hk Hx Hr. split; simpl; [|by rewrite string_of_list_ascii_of_string].
  rewrite <- (string_of_chars w) in Hk. destruct (chars w) as [|c r]; [done|]. cbn [forallb] in Hc. apply andb_true_iff in Hc as [_ Hc].
  cbn [app List.length]. by rewrite next_word, Hk.
Qed.

Lemma fits_keyword t rest : t ∈ word_tokens -> word_stops rest = true -> fits (glyph t.1 t.2) rest.
Proof. intros Ht Hr. destruct (word_tokens_words t Ht). by apply fits_word; [| |apply word_kind_of| |]. Qed.

Lemma fits_space rest : match rest with d :: _ => is_blank d = false | [] => True end -> fits space rest.
Proof. intros Hr. split; [|done]. by apply next_blank. Qed.

Lemma pretty_N_digits n s : forallb is_ascii_digit (chars s) = true -> forallb is_ascii_digit (chars (pretty_N_go n s)) = true.
Proof.
  revert s. induction (N.lt_wf_0 n) as [n _ IH]; intros s Hs. destruct (decide (n = 0)%N) as [->|]; [done|].
  rewrite pretty_N_go_step by lia. apply IH; [by apply N.div_lt; lia|]. cbn [list_ascii_of_string forallb]. rewrite Hs, andb_true_r.
  unfold pretty_N_char. by repeat case_match.
Qed.

Lemma pretty_char_value m : (m < 10)%N -> (byte_of (pretty_N_char m) - 48 = Z.of_N m)%Z.
Proof.
  intros Hm. assert (forallb (fun i => Z.eqb (byte_of (pretty_N_char (N.of_nat i)) - 48) (Z.of_nat i)) (seq 0 10) = true) as H by reflexivity.
  rewrite forallb_forall in H. specialize (H (N.to_nat m)). rewrite N2Nat.id, N_nat_Z in H. apply Z.eqb_eq, H, in_seq. lia.
Qed.

Lemma pretty_N_value n s : value_from 0 (chars (pretty_N_go n s)) = value_from (Z.of_N n) (chars s).
Proof.
  revert s. induction (N.lt_wf_0 n) as [n _ IH]; intros s. destruct (decide (n = 0)%N) as [->|Hn]; [done|].
  rewrite pretty_N_go_step by lia. rewrite IH by (apply N.div_lt; lia). cbn [list_ascii_of_string]. unfold value_from at 1. cbn [fold_left].
  fold (value_from (Z.of_N (n `div` 10) * 10 + (byte_of (pretty_N_char (n `mod` 10)) - 48)) (chars s)).
  rewrite pretty_char_value by (apply N.mod_lt; lia). f_equal. pose proof (N.div_mod n 10). lia.
Qed.

Lemma pretty_Z_decimal n : (0 <= n)%Z ->
  chars (pretty n) <> [] /\ forallb is_ascii_digit (chars (pretty n)) = true /\ decimal_value (chars (pretty n)) = n.
Proof.
  intros Hn. destruct n as [|p|p]; [done| |lia]. assert (pretty (Z.pos p) = pretty_N_go (N.pos p) EmptyString) as -> by reflexivity.
  assert (decimal_value (chars (pretty_N_go (N.pos p) EmptyString)) = Z.pos p) as Hv by apply pretty_N_value.
  split_and!; [|by apply pretty_N_digits|exact Hv]. intros E. by rewrite E in Hv.
Qed.

Lemma chars_substring n m s : chars (substring n m s) = take m (drop n (chars s)).
Proof.
  revert n m. induction s as [|c s IH]; intros [|n] [|m]; cbn; try done; by rewrite IH.
Qed.

Lemma forallb_sub {A} (P : A -> bool) n m l : forallb P l = true -> forallb P (take m (drop n l)) = true.
Proof.
  rewrite !forallb_forall. intros H x Hx%list_elem_of_In. apply H, list_elem_of_In.
  by eapply (sublist_subseteq (take m (drop n l))); [etransitivity; [apply sublist_take|apply sublist_drop]|].
Qed.

Lemma digits_no_suffix s : forallb is_ascii_digit (chars s) = true -> existsb (ends_with s) NUMERIC_SUFFIXES = false.
Proof.
  intros Hd. apply not_true_iff_false. rewrite existsb_exists. intros (x & Hx & [_ Hs%bool_decide_eq_true]%andb_true_iff).
  assert (forallb is_ascii_digit (chars x) = true) as H by (rewrite <- Hs, chars_substring; by apply forallb_sub).
  assert (forallb (fun x => negb (forallb is_ascii_digit (chars x))) NUMERIC_SUFFIXES = true) as Hf by reflexivity.
  rewrite forallb_forall in Hf. specialize (Hf x Hx). by rewrite H in Hf.
Qed.

Lemma fits_int n rest : (0 <= n < 2 ^ 64)%Z -> number_stops rest = true -> fits (int_piece n) rest.
Proof.
  intros Hn Hr. destruct (pretty_Z_decimal n) as (He & Hd & Hv); [lia|]. split; cbn [fst snd int_piece].
  - rewrite next_int by (rewrite ?Hv; done || lia). by rewrite Hv.
  - simpl. rewrite string_of_list_ascii_of_string. by apply digits_no_suffix.
Qed.

(** A text in which no character continues an ASCII character or nothing, as in
    every valid UTF-8. *)
Fixpoint ascii_alone (before : bool) (s : list ascii) : bool :=
  match s with
  | [] => true
  | c :: s => negb (before && is_continuation c) && ascii_alone (byte_of c <? 128)%Z s
  end.

Lemma escaped_body w : quoted_body (flat_map (escape_with (Some QUOTE)) w) = true.
Proof.
  unfold quoted_body. assert (quoted_rest QUOTE (flat_map (escape_with (Some QUOTE)) w ++ [QUOTE]) =
    Some (S (List.length (flat_map (escape_with (Some QUOTE)) w)))) as ->; [|by rewrite Nat.eqb_refl].
  induction w as [|c w IH]; [done|]. cbn [flat_map]. unfold escape_with at 1 3.
  destruct (Ascii.eqb_spec c "\") as [->|H1]; [cbn; by rewrite IH|].
  case_bool_decide as H2; [injection H2 as <-; cbn; by rewrite IH|].
  destruct (Ascii.eqb_spec c NEWLINE) as [->|H3]; [cbn; by rewrite IH|].
  destruct (Ascii.eqb_spec c "013") as [->|H4]; [cbn; by rewrite IH|].
  destruct (Ascii.eqb_spec c "009") as [->|H5]; [cbn; by rewrite IH|].
  cbn [app quoted_rest List.length]. destruct (Ascii.eqb_spec c QUOTE) as [->|_]; [by destruct H2|].
  destruct (Ascii.eqb_spec c "\") as [->|_]; [done|]. by rewrite IH.
Qed.

(** What is unescaped is what was escaped. *)
Lemma unescape_escaped w b : ascii_alone b w = true ->
  exists k cs, split_chars (flat_map (escape_with (Some QUOTE)) w) = (k, cs) /\ k ++ unescape_chars Plain cs = w /\ (b = true -> k = []).
Proof.
  revert b. induction w as [|c w IH]; intros b Hw; [by exists [], []|]. cbn [ascii_alone] in Hw. apply andb_true_iff in Hw as [Hc Hw].
  destruct (IH _ Hw) as (k & cs & Hs & Hu & Hk). cbn [flat_map].
  assert (Hesc : forall e d, escape_with (Some QUOTE) c = ["\"%char; e] -> is_continuation e = false -> (byte_of c <? 128)%Z = true ->
    (forall cs', unescape_chars Plain (["\"%char] :: [e] :: cs') = d :: unescape_chars Plain cs') -> d = c ->
    exists k cs, split_chars (escape_with (Some QUOTE) c ++ flat_map (escape_with (Some QUOTE)) w) = (k, cs) /\
      k ++ unescape_chars Plain cs = c :: w /\ (b = true -> k = [])).
  { intros e d -> He Ha Hun ->. specialize (Hk Ha) as ->. cbn [app split_chars]. rewrite Hs, He. eexists [], _. split; [done|]. split; [|done].
    rewrite Hun. simpl in Hu. simpl. by rewrite Hu. }
  unfold escape_with at 1 in Hesc. unfold escape_with at 1.
  destruct (Ascii.eqb_spec c "\") as [->|H1]; [by eapply Hesc|].
  case_bool_decide as H2; [injection H2 as <-; by eapply Hesc|].
  destruct (Ascii.eqb_spec c NEWLINE) as [->|H3]; [by eapply Hesc|].
  destruct (Ascii.eqb_spec c "013") as [->|H4]; [by eapply Hesc|].
  destruct (Ascii.eqb_spec c "009") as [->|H5]; [by eapply Hesc|]. clear Hesc.
  cbn [app split_chars]. rewrite Hs. destruct (is_continuation c) eqn:Ec.
  - exists (c :: k), cs. split; [done|]. split; [by rewrite <- Hu|]. intros ->. by rewrite andb_true_r in Hc.
  - exists [], ((c :: k) :: cs). split; [done|]. split; [|done]. cbn [unescape_chars]. unfold is_char at 1. rewrite bool_decide_eq_false_2 by congruence.
    by rewrite <- Hu.
Qed.

Lemma unescape_escape s : ascii_alone true (chars s) = true -> unescape_string (chars (escape_string s)) = chars s.
Proof.
  intros Hs. unfold unescape_string, chars_of, escape_string. rewrite chars_of_string.
  destruct (unescape_escaped _ _ Hs) as (k & cs & -> & Hu & Hk). rewrite (Hk eq_refl) in Hu. exact Hu.
Qed.

Lemma fits_string s rest : ascii_alone true (chars s) = true -> next_is QUOTE rest = false -> fits (string_piece s) rest.
Proof.
  intros Hs Hr. split; [|done]. cbn [fst snd string_piece]. unfold quoted. cbn [list_ascii_of_string]. rewrite chars_append. cbn [list_ascii_of_string].
  assert (Hq : quoted_body (chars (escape_string s)) = true) by (unfold escape_string; rewrite chars_of_string; apply escaped_body).
  pose proof (next_string parse_f64 (chars (escape_string s)) rest Hq Hr) as Hn. rewrite unescape_escape in Hn by done.
  rewrite <- app_comm_cons, <- app_assoc. cbn [app]. rewrite Hn. rewrite string_of_list_ascii_of_string. f_equal. f_equal. cbn [List.length]. rewrite length_app. simpl. lia.
Qed.

(** *** Expressions *)

(** A name that is no keyword, and not the wildcard. *)
Definition plain_name (s : string) : bool :=
  match chars s with c :: w => is_ident_start c && forallb is_ident_continue w | [] => false end &&
  kind_is TkIdent (word_kind s).

(** The text begins with an ampersand. *)
Fixpoint amp_first (x : sx) : bool :=
  match x with
  | XUnary Ref _ | XUnary RefMut _ => true
  | XInfix _ y _ | XField y _ | XMethod y _ _ | XIndex y _ | XTry y => amp_first y
  | _ => false
  end.

Fixpoint printable (x : sx) : bool :=
  match x with
  | XInt _ | XNegInt _ | XBool _ | XNull | XSelf => true
  | XString s => ascii_alone true (chars s)
  | XPath names => forallb plain_name names
  | XParen y | XAwait y | XTry y => printable y
  | XArray xs => forallb printable xs
  | XCall names args => forallb plain_name names && forallb printable args
  | XUnary op y => printable y && negb (bool_decide (op = Ref) && amp_first y)
  | XInfix _ l r => printable l && printable r
  | XField y name => plain_name name && printable y
  | XMethod y name args => plain_name name && printable y && forallb printable args
  | XIndex y i => printable y && printable i
  end.

Lemma word_kind_words s : kind_is TkIdent (word_kind s) = true -> word_kind s = TkIdent.
Proof.
  unfold word_kind. destruct (List.find _ word_tokens) as [t|] eqn:E.
  - apply find_some in E as [Ht _]. assert (forallb (fun t : string * TokenKind => negb (kind_is TkIdent t.2)) word_tokens = true) as H by reflexivity.
    rewrite forallb_forall in H. apply H, negb_true_iff in Ht. congruence.
  - by destruct (String.eqb s "_").
Qed.

Lemma plain_name_head s : plain_name s = true -> exists c w, chars s = c :: w /\ is_ident_start c = true.
Proof.
  unfold plain_name. rewrite andb_true_iff. intros [H _]. destruct (chars s) as [|c w]; [done|]. apply andb_true_iff in H as [H _]. eauto.
Qed.

Lemma start_continues c : is_ident_start c = true -> is_ident_continue c = true.
Proof.
  assert (forall c, implb (is_ident_start c) (is_ident_continue c) = true) as H by by_bytes. intros E. specialize (H c). by rewrite E in H.
Qed.

Lemma fits_name s rest : plain_name s = true -> word_stops rest = true -> fits (name_piece s) rest.
Proof.
  intros Hn Hr. pose proof Hn as Hn'. unfold plain_name in Hn'. apply andb_true_iff in Hn' as [Hw Hk%word_kind_words].
  apply fits_word; [| |done|done|done]; destruct (chars s) as [|c w]; try done; apply andb_true_iff in Hw as [Hc Hw]; [|done].
  cbn [forallb]. by rewrite (start_continues c Hc).
Qed.

(** What can come after an expression. *)
Definition after (rest : list ascii) : bool :=
  match rest with
  | [] => true
  | c :: r => existsb (Ascii.eqb c) [" "; ")"; "]"; ","; "?"; "["; "("]%char ||
              Ascii.eqb c "." && match r with d :: _ => is_ident_start d | [] => false end
  end.

Lemma after_stops rest : after rest = true -> word_stops rest = true /\ number_stops rest = true /\ next_is QUOTE rest = false.
Proof.
  destruct rest as [|c r]; [done|]. cbn [after]. rewrite orb_true_iff. intros [H|H].
  - apply existsb_exists in H as (d & Hd & <-%Ascii.eqb_eq). repeat (destruct Hd as [<-|Hd]; [done|]). done.
  - apply andb_true_iff in H as [->%Ascii.eqb_eq H]. split; [done|]. split; [|done]. destruct r as [|d r]; [done|]. simpl.
    assert (forall d, implb (is_ident_start d) (negb (is_ascii_digit d)) = true) as Hb by by_bytes. specialize (Hb d). by rewrite H in Hb.
Qed.

(** What an expression can begin with. *)
Definition opening (c : ascii) : bool :=
  is_ident_start c || is_ascii_digit c || existsb (Ascii.eqb c) [QUOTE; "("; "["; "-"; "*"; "&"; "~"]%char.

Lemma opening_spec c : opening c = true ->
  is_blank c = false /\ extended "-" c = false /\ extended "*" c = false /\ extended "~" c = false /\
  (c <> "&"%char -> extended "&" c = false).
Proof.
  assert (forall c, implb (opening c) (negb (is_blank c) && negb (extended "-" c) && negb (extended "*" c) && negb (extended "~" c) &&
    (Ascii.eqb c "&" || negb (extended "&" c))) = true) as H by by_bytes.
  intros E. specialize (H c). rewrite E in H. simpl in H. rewrite !andb_true_iff, orb_true_iff, !negb_true_iff, Ascii.eqb_eq in H.
  tauto.
Qed.

Definition begins (x : sx) : Prop :=
  exists c r, text_of (pieces x) = c :: r /\ opening c = true /\ (amp_first x = false -> c <> "&"%char).

Lemma start_opening c : is_ident_start c = true -> opening c = true /\ c <> "&"%char.
Proof.
  intros H. unfold opening. rewrite H. split; [done|]. by intros ->.
Qed.

Lemma begins_names names l : negb (bool_decide (names = [])) = true -> forallb plain_name names = true ->
  exists c r, text_of (path_pieces names ++ l) = c :: r /\ opening c = true /\ c <> "&"%char.
Proof.
  intros Hn Hp. destruct names as [|s names]; [done|]. cbn [forallb] in Hp. apply andb_true_iff in Hp as [Hs _].
  destruct (plain_name_head s Hs) as (c & w & Ec & Hc). exists c. assert (exists r, path_pieces (s :: names) = name_piece s :: r) as [r ->].
  { unfold path_pieces. destruct names; by eexists. }
  cbn [app]. rewrite text_of_cons. cbn [fst name_piece]. rewrite Ec. eexists. split; [reflexivity|]. by apply start_opening.
Qed.

Lemma begins_int n l : (0 <= n)%Z -> exists c r, text_of (int_piece n :: l) = c :: r /\ opening c = true /\ c <> "&"%char.
Proof.
  intros Hn. destruct (pretty_Z_decimal n Hn) as (He & Hd & _). rewrite text_of_cons. cbn [fst int_piece].
  destruct (chars (pretty n)) as [|c w]; [done|]. cbn [forallb] in Hd. apply andb_true_iff in Hd as [Hc _].
  exists c. eexists. split; [reflexivity|]. split; [unfold opening; rewrite Hc, orb_true_r; done|]. by intros ->.
Qed.

Lemma begins_app x ps (y : sx) : begins y -> (amp_first x = amp_first y) -> pieces x = pieces y ++ ps -> begins x.
Proof. intros (c & r & E & Ho & Ha) Hx Hp. exists c. eexists. rewrite Hp, text_of_app, E. split; [reflexivity|]. by rewrite Hx. Qed.

Lemma pieces_begin x : canonical x = true -> printable x = true -> begins x.
Proof.
  induction x as [n|n|b| |s| |names|x IH|xs|names args|op x IH|x IH|o l IHl r IHr|x IH name|x IH name args|x IH i IHi|x IH];
    cbn [canonical printable]; rewrite ?andb_true_iff; intros Hc Hp; destruct_and?.
  1: { destruct (begins_int n []) as (c & r & ? & ? & ?); [by apply Z.leb_le|]. by exists c, r. }
  6: { destruct (begins_names names []) as (c & r & E & ? & ?); [done..|]. exists c, r. rewrite app_nil_r in E. by split_and!. }
  8: { destruct (begins_names names (glyph "(" TkLParen :: comma_pieces (map pieces args) ++ [glyph ")" TkRParen])) as (c & r & E & ? & ?); [done..|].
       by exists c, r. }
  2: destruct b.
  1-8, 10: eexists _, _; (split; [reflexivity|done]).
  - destruct op; try done; eexists _, _; (split; [reflexivity|done]).
  - eapply begins_app; [by apply IHl|done|reflexivity].
  - eapply begins_app; [by apply IH|done|reflexivity].
  - eapply begins_app; [by apply IH|done|reflexivity].
  - eapply begins_app; [by apply IH|done|reflexivity].
  - eapply begins_app; [by apply IH|done|reflexivity].
Qed.

(** Signs that no other sign extends. *)
Definition SOLO : list string := ["("; ")"; "["; "]"; ","; "?"].

Lemma fits_solo t k rest : t ∈ SOLO -> (t, k) ∈ sign_tokens -> fits (glyph t k) rest.
Proof.
  intros Ht Hk. apply (fits_sign (t, k)); [done|]. destruct rest as [|d r]; [done|]. simpl. apply negb_true_iff.
  assert (forall d, forallb (fun t => negb (extended t d)) SOLO = true) as H by by_bytes. specialize (H d). rewrite forallb_forall in H.
  by apply negb_true_iff, H, list_elem_of_In.
Qed.

Ltac fixed := first [by apply list_elem_of_here|apply list_elem_of_further; fixed].
Ltac solo := apply fits_solo; fixed.

Lemma fits_before_space t r : t ∈ word_tokens ++ sign_tokens -> fits (glyph t.1 t.2) (" "%char :: r).
Proof.
  intros [Ht|Ht]%elem_of_app; [by apply fits_keyword|]. apply fits_sign; [done|].
  assert (forallb (fun t : string * TokenKind => negb (extended t.1 " ")) sign_tokens = true) as H by reflexivity.
  rewrite forallb_forall in H. by apply H, list_elem_of_In.
Qed.

Lemma laid_bracket o c k k' ps rest : o ∈ SOLO -> c ∈ SOLO -> (o, k) ∈ sign_tokens -> (c, k') ∈ sign_tokens ->
  laid ps (chars c ++ rest) -> laid (glyph o k :: ps ++ [glyph c k']) rest.
Proof.
  intros Ho Hc Hk Hk' Hl. split; [by apply fits_solo|]. apply laid_app. rewrite text_one. split; [exact Hl|]. split; [by apply fits_solo|done].
Qed.

(** A blank before an expression. *)
Lemma fits_space_before x rest : begins x -> fits space (text_of (pieces x) ++ rest).
Proof. intros (c & r & -> & Ho & _). apply fits_space. by apply opening_spec in Ho as [? _]. Qed.

Lemma start_not_dot c r : is_ident_start c = true -> sign_stops "." (c :: r) = true.
Proof.
  assert (forall c, implb (is_ident_start c) (negb (extended "." c)) = true) as H by by_bytes. intros E. specialize (H c). by rewrite E in H.
Qed.

Definition lays (x : sx) : Prop := forall rest, after rest = true -> laid (pieces x) rest.

Lemma laid_commas xs rest : Forall lays xs -> Forall begins xs -> after rest = true -> laid (comma_pieces (map pieces xs)) rest.
Proof.
  intros HF Hb Hr. induction HF as [|x xs Hx HF IH]; [done|]. apply Forall_cons in Hb as [_ Hb]. specialize (IH Hb).
  destruct xs as [|y ys]; [by apply Hx|]. unfold comma_pieces in *. cbn [map] in *.
  change (joined ?s (?a :: ?b :: ?c)) with (a ++ s ++ joined s (b :: c)). rewrite !laid_app. split; [by apply Hx|]. split; [|done].
  assert (begins y) as Hy by (by apply Forall_cons in Hb as [? _]). split; [solo|]. split; [|done]. cbn [text_of map List.concat app].
  apply fits_space. destruct Hy as (c & r & E & Ho & _). assert (exists r', text_of (joined [glyph "," TkComma; space] (pieces y :: map pieces ys)) ++ rest = c :: r') as [r' ->].
  { destruct (map pieces ys) as [|z zs]; [cbn [joined]; rewrite E; by eexists|]. change (joined ?s (?a :: ?b :: ?c)) with (a ++ s ++ joined s (b :: c)).
    rewrite text_of_app, E. by eexists. }
  by apply opening_spec in Ho as [? _].
Qed.

Lemma laid_path names rest : forallb plain_name names = true -> after rest = true -> laid (path_pieces names) rest.
Proof.
  intros Hp Hr. destruct (after_stops rest Hr) as (Hw & _ & _). unfold path_pieces. induction names as [|s names IH]; [done|].
  cbn [forallb] in Hp. apply andb_true_iff in Hp as [Hs Hp]. specialize (IH Hp). destruct names as [|s' names]; [split; [by apply fits_name|done]|].
  cbn [map] in *. change (joined ?s (?a :: ?b :: ?c)) with (a ++ s ++ joined s (b :: c)). rewrite !laid_app. split; [split; [|done]; by apply fits_name|].
  split; [|done]. split; [|done]. cbn [forallb] in Hp. apply andb_true_iff in Hp as [Hs' _]. destruct (plain_name_head s' Hs') as (c & w & Ec & Hc).
  apply (fits_sign ("::", TkColonColon)); [fixed|]. cbn [text_of map List.concat app].
  assert (exists r', text_of (joined [glyph "::" TkColonColon] ([name_piece s'] :: map (fun s => [name_piece s]) names)) ++ rest = c :: r') as [r' ->].
  { destruct names; cbn [map]; [cbn [joined]|change (joined ?s (?a :: ?b :: ?c)) with (a ++ s ++ joined s (b :: c)); cbn [app]]; rewrite ?text_one, ?text_of_cons; cbn [fst name_piece]; rewrite Ec; by eexists. }
  assert (forall c, implb (is_ident_start c) (negb (extended "::" c)) = true) as H by by_bytes. specialize (H c). by rewrite Hc in H.
Qed.

Lemma laid_prefix op y rest : is_some (unary_tokens op) = true -> begins y -> (op = Ref -> amp_first y = false) ->
  laid (prefix_pieces op) (text_of (pieces y) ++ rest).
Proof.
  intros Hop Hy Ha. pose proof (fits_space_before y rest Hy) as Hsp. destruct Hy as (c & r & E & Ho & Hamp). rewrite E in *.
  apply opening_spec in Ho as (_ & Hm & Hs & Ht & Hr). destruct op; try discriminate Hop.
  - split; [|done]. apply (fits_sign ("-", TkMinus)); [fixed|]. change (negb (extended "-" c) = true). by rewrite Hm.
  - split; [|by split]. apply (fits_keyword ("not", TkNotKw)); [fixed|done].
  - split; [|done]. apply (fits_sign ("~", TkBitNot)); [fixed|]. change (negb (extended "~" c) = true). by rewrite Ht.
  - split; [|done]. apply (fits_sign ("*", TkStar)); [fixed|]. change (negb (extended "*" c) = true). by rewrite Hs.
  - split; [|done]. apply (fits_sign ("&", TkBitAnd)); [fixed|]. change (negb (extended "&" c) = true). rewrite Hr; [done|]. by apply Hamp, Ha.
  - split; [apply (fits_sign ("&", TkBitAnd)); [fixed|done]|]. split; [|by split]. apply (fits_keyword ("mut", TkMutKw)); [fixed|done].
Qed.

Lemma infix_token o : is_some (op_token o) = true ->
  exists t, t ∈ word_tokens ++ sign_tokens /\ infix_pieces o = [space; glyph t.1 t.2; space] /\
    match chars t.1 with d :: _ => is_blank d = false | [] => False end.
Proof.
  assert (forall w k, List.find (fun t => String.eqb t.1 w) (word_tokens ++ sign_tokens) = Some (w, k) -> (w, k) ∈ word_tokens ++ sign_tokens) as H.
  { intros w k E. apply find_some in E as [E _]. by apply list_elem_of_In. }
  intros Ho. unfold infix_pieces. destruct (op_token o) as [[k q]|] eqn:E; [|done]. exists (infix_text o, in_words true k).
  split; [apply H|split; [done|]]; destruct o as [op| |op]; try destruct op; try discriminate E; injection E as <- <-; reflexivity.
Qed.

Lemma laid_infix o y rest : is_some (op_token o) = true -> begins y -> laid (infix_pieces o) (text_of (pieces y) ++ rest).
Proof.
  intros Ho Hy. destruct (infix_token o Ho) as (t & Ht & -> & Hd). split; [|split; [by apply fits_before_space|split; [by apply fits_space_before|done]]].
  apply fits_space. rewrite text_of_cons. cbn [fst glyph]. by destruct (chars t.1).
Qed.

Lemma lays_all xs : Forall (fun x => canonical x = true -> printable x = true -> lays x) xs -> forallb canonical xs = true -> forallb printable xs = true ->
  Forall lays xs /\ Forall begins xs.
Proof.
  intros HF Hc Hp. rewrite !Forall_forall in *. split; intros x Hx; [apply HF; [done|..]|apply pieces_begin];
    first [by apply (forallb_elem canonical xs)|by apply (forallb_elem printable xs)].
Qed.

(** Every piece of an expression fits what follows it. *)
Lemma pieces_laid x : canonical x = true -> printable x = true -> lays x.
Proof.
  induction x as [n|n|b| |s| |names|x IH|xs IH|names args IH|op x IH|x IH|o l r IHl IHr|x name IH|x name args IH IHa|x i IH IHi|x IH] using sx_nested_ind;
    cbn [canonical printable]; rewrite ?andb_true_iff; intros Hc Hp; destruct_and?; intros rest Hr; cbn [pieces];
    destruct (after_stops rest Hr) as (Hw & Hn & Hq).
  - split; [|done]. apply fits_int; [lia|done].
  - assert (fits (int_piece n) rest) as Hi by (apply fits_int; [lia|done]). split; [|by split].
    destruct (begins_int n []) as (c & r & E & Ho & _); [lia|]. rewrite E. apply opening_spec in Ho as (_ & Hm & _).
    apply (fits_sign ("-", TkMinus)); [fixed|]. change (negb (extended "-" c) = true). by rewrite Hm.
  - split; [|done]. destruct b; [apply (fits_keyword ("true", TkTrueKw))|apply (fits_keyword ("false", TkFalseKw))]; (fixed || done).
  - split; [|done]. apply (fits_keyword ("null", TkNullKw)); [fixed|done].
  - split; [|done]. by apply fits_string.
  - split; [|done]. by apply (fits_word "self").
  - by apply laid_path.
  - apply laid_bracket; [fixed..|]. by apply IH.
  - destruct (lays_all xs) as [? ?]; [done..|]. apply laid_bracket; [fixed..|]. by apply laid_commas.
  - destruct (lays_all args) as [? ?]; [done..|]. apply laid_app. split; [by apply laid_path|]. apply laid_bracket; [fixed..|]. by apply laid_commas.
  - apply laid_app. split; [|by apply IH]. apply laid_prefix; [done|by apply pieces_begin|].
    intros ->. rewrite bool_decide_eq_true_2 in * by done. by apply negb_true_iff.
  - split; [by apply (fits_keyword ("await", TkAwaitKw)); [fixed|]|]. split; [by apply fits_space_before, pieces_begin|by apply IH].
  - assert (begins r) as Hb by (by apply pieces_begin). rewrite !laid_app. split; [|split; [by apply laid_infix|by apply IHr]].
    apply IHl; [done..|]. destruct (infix_token o) as (t & _ & -> & _); done.
  - destruct (plain_name_head name) as (c & w & E & Hc'); [done|]. apply laid_app. split; [|split; [|split; [by apply fits_name|done]]].
    + apply IH; [done..|]. rewrite text_of_cons, text_one. cbn [fst glyph name_piece]. rewrite E. cbn. by rewrite Hc'.
    + apply (fits_sign (".", TkDot)); [fixed|]. rewrite text_one. cbn [fst name_piece]. rewrite E. apply start_not_dot, Hc'.
  - destruct (plain_name_head name) as (c & w & E & Hc'); [done|]. destruct (lays_all args) as [? ?]; [done..|].
    apply laid_app. split; [|split; [|split; [by apply fits_name|]]].
    + apply IH; [done..|]. rewrite !text_of_cons. cbn [fst glyph name_piece]. rewrite E. cbn. by rewrite Hc'.
    + apply (fits_sign (".", TkDot)); [fixed|]. rewrite text_of_cons. cbn [fst name_piece]. rewrite E. apply start_not_dot, Hc'.
    + apply laid_bracket; [fixed..|]. by apply laid_commas.
  - apply laid_app. split; [by apply IH|]. apply laid_bracket; [fixed..|]. by apply IHi.
  - apply laid_app. split; [by apply IH|]. split; [solo|done].
Qed.
End scanning.

(** ** Round trip *)

(** C8: An expression with the parentheses its operators need is formatted to a
    text that the scanner and the parser read back as the same structure and no
    other, without a token left, and that is formatted to itself.  Names are no
    keywords, strings are valid text, and no address is taken of what begins
    with an ampersand. *)
Theorem formatted_expression_read_back (parse_f64 : list ascii -> option Z) (show_f64 : Z -> string) (lex : string -> list Token)
    (x : sx) (e : Expr) :
  canonical x = true -> printable x = true -> denotes x e -> (Z.of_nat (String.length (format_expr show_f64 e)) < 2 ^ 32)%Z ->
  exists ts e' st',
    tokenize parse_f64 (format_expr show_f64 e) = Some ts /\
    rec_expr (parser_at lex (S (List.length ts))) 0 (new_with_pointer_width ts (format_expr show_f64 e) 64) = Some (Ok e', st') /\
    p_tokens st' = [] /\ denotes x e' /\ (forall y, canonical y = true -> denotes y e' -> y = x) /\
    format_expr show_f64 e' = format_expr show_f64 e.
Proof.
  intros Hc Hp Hd Hl. pose proof (pieces_text show_f64 x Hc e Hd) as Ht. pose proof (pieces_laid parse_f64 x Hc Hp [] eq_refl) as Hlaid.
  rewrite <- length_chars, <- Ht in Hl. destruct (laid_tokens parse_f64 (pieces x) [] (List.length (text_of (pieces x))) Hlaid) as (ts & Hts & Hs); [done..|].
  cbn [app] in Hs. rewrite Ht, string_of_list_ascii_of_string, pieces_items in Hs by done. rewrite Ht, length_chars in Hts.
  destruct (reads_back true lex (S (List.length ts)) x (new_with_pointer_width ts (format_expr show_f64 e) 64) ts []) as (e' & st' & He & Hr & Hd');
    [done|by rewrite app_nil_r|done|done|lia|].
  exists ts, e', st'. split_and!; [exact Hts|done..| |].
  - intros y Hy Hdy. by eapply denotes_inj.
  - rewrite <- (string_of_list_ascii_of_string (format_expr show_f64 e')), <- (pieces_text show_f64 x Hc e' Hd'), Ht.
    apply string_of_list_ascii_of_string.
Qed.

Definition expr (k : AExprKind) : Expr := mkExpr k span_dummy.
Definition named (name : string) : Ident := ident_new name span_dummy.
Definition names_expr (names : list string) : Expr := expr (EPath (mkPath (map named names) span_dummy)).
Definition int_expr (n : Z) : Expr := expr (ELiteral (LInt n)).

(** [a.f(1, m::x) + b * -c[2]? = not (d or true)] *)
Definition sample_expr : Expr :=
  expr (EAssign
    (expr (EBinary BAdd (expr (EMethodCall (names_expr ["a"]) (named "f") [int_expr 1; names_expr ["m"; "x"]]))
       (expr (EBinary BMul (names_expr ["b"]) (expr (EUnary Neg (expr (ETry (expr (EIndex (names_expr ["c"]) (int_expr 2)))))))))))
    (expr (EUnary Not (expr (EParen (expr (EBinary BOr (names_expr ["d"]) (expr (ELiteral (LBool true)))))))))).

Example sample_formatted : format_expr (fun _ => EmptyString) sample_expr = "a.f(1, m::x) + b * -c[2]? = not (d or true)".
Proof. reflexivity. Qed.

Lemma formatted_expression_read_back_witness :
  exists ts e' st',
    tokenize (fun _ => None) (format_expr (fun _ => EmptyString) sample_expr) = Some ts /\
    rec_expr (parser_at (fun _ => []) (S (List.length ts))) 0
      (new_with_pointer_width ts (format_expr (fun _ => EmptyString) sample_expr) 64) = Some (Ok e', st') /\
    p_tokens st' = [] /\ denotes sample_sx e' /\ (forall y, canonical y = true -> denotes y e' -> y = sample_sx) /\
    format_expr (fun _ => EmptyString) e' = format_expr (fun _ => EmptyString) sample_expr.
Proof.
  apply (formatted_expression_read_back (fun _ => None) (fun _ => EmptyString) (fun _ => []) sample_sx sample_expr).
  - vm_compute. reflexivity.
  - vm_compute. reflexivity.
  - vm_compute. tauto.
  - vm_compute. reflexivity.
Defined.

(** ** What is not read back *)

(** Scan and parse an expression. *)
Definition read_text (source : string) : option (result Expr CompileError) :=
  let* ts := tokenize (fun _ => None) source in
  let* out := rec_expr (parser_at no_lex (S (List.length ts))) 0 (new_with_pointer_width ts source 64) in
  Some out.1.
Definition scan_kinds (source : string) : option (list TokenKind) := map tok_kind <$> tokenize (fun _ => None) source.
Definition shown : Expr -> string := format_expr (fun _ => EmptyString).

(** The address of an address is printed without a blank, as a logical and, and
    the formatter's own check of its output rejects the program. *)
Theorem address_of_address_rejected :
  match read_text "& &x" with
  | Some (Ok e) => shown e = "&&x" /\ match read_text (shown e) with Some (Err _) => True | _ => False end
  | _ => False
  end.
Proof. vm_compute. split; [reflexivity|exact I]. Qed.

(** An inclusive range is written with [..==] and printed with [..=], which is
    read as an assignment to a range without an end. *)
Theorem inclusive_range_reread_as_assignment :
  match read_text "1..==5" with
  | Some (Ok (mkExpr (ERange (Some _) (Some _) true) _ as e)) =>
      shown e = "1..=5" /\
      match read_text (shown e) with Some (Ok (mkExpr (EAssign (mkExpr (ERange (Some _) None false) _) _) _)) => True | _ => False end
  | _ => False
  end.
Proof. vm_compute. split; [reflexivity|exact I]. Qed.

(** An item in a nested block becomes a comment. *)
Theorem nested_item_lost :
  forall d, format_block_inline shown (mkBlock [mkStmt (SItem d) span_dummy] span_dummy) = "{ /* item */ }".
Proof. reflexivity. Qed.
Theorem nested_item_not_scanned : scan_kinds "{ /* item */ }" = Some [TkLBrace; TkRBrace].
Proof. vm_compute. reflexivity. Qed.

(** The bindings of associated types in a bound are not printed. *)
Theorem bound_bindings_dropped :
  forall path params bindings bindings',
    format_trait_bound (mkTraitBound _ path params bindings) = format_trait_bound (mkTraitBound _ path params bindings').
Proof. reflexivity. Qed.

(** Nor is whether a field of a class is public. *)
Theorem class_field_visibility_dropped :
  forall options function indent vis vis' name ty span,
    format_class_member_with options function indent (CMField (mkStructField vis name ty span)) =
    format_class_member_with options function indent (CMField (mkStructField vis' name ty span)).
Proof. reflexivity. Qed.

(** A comment that ends in two stars and a slash goes on to the next end of a
    comment. *)
Theorem starred_comment_goes_on : scan_kinds "/* x **/ y */ z" = Some [TkIdent].
Proof. vm_compute. reflexivity. Qed.

Definition program_text (ls : list string) : string := String.concat newline ls.

(** A test attribute over a public function is put on the next function that is
    not. *)
Theorem test_attribute_of_public_moves :
  let '(masked, attributes) := mask_test_attributes (program_text ["#[test]"; "pub def a() {"; "}"; "def b() {"; "}"]) in
  restore_test_attributes masked attributes = Ok (program_text [EmptyString; "pub def a() {"; "}"; "#[test]"; "def b() {"; "}"]).
Proof. vm_compute. reflexivity. Qed.

(** A test attribute is put on the first function of its name, which may be a
    method. *)
Theorem test_attribute_moves_to_method :
  let '(masked, attributes) :=
    mask_test_attributes (program_text ["impl A {"; "    def run() {"; "    }"; "}"; "#[test]"; "def run() {"; "}"]) in
  restore_test_attributes masked attributes =
    Ok (program_text ["impl A {"; "#[test]"; "    def run() {"; "    }"; "}"; EmptyString; "def run() {"; "}"]).
Proof. vm_compute. reflexivity. Qed.
