(* ===== verification/PkgManifest.v ===== *)
(** Package manifests and paths of the package manager: tools/sgpm/src/
    manifest.rs, with the path operations of the standard library and the
    path helpers of tools/sgpm/src/resolver.rs.

    A [PathBuf] is its list of components (the Unix ones; a Windows prefix
    occurs in one place of PkgArchive).  A [BTreeMap] is an association list in
    key order.  Reading a file and the TOML and semver libraries are parameters: [TomlValue] is what the TOML
    library hands over, and [Semver] is what is used of versions. *)

From S2P Require Import Prelude Strs.
From Stdlib Require Import Ascii String.
From stdpp Require Import pretty.

#[local] Open Scope string_scope.

(** ** Paths *)

Inductive Component := RootDir | CurDir | ParentDir | NormalC (part : string).

#[export] Instance Component_eq_dec : EqDecision Component.
Proof. solve_decision. Defined.

#[export] Instance Component_countable : Countable Component.
Proof.
  refine (inj_countable' (fun c => match c with
      | RootDir => inl 0 | CurDir => inl 1 | ParentDir => inl 2 | NormalC s => inr s end)
    (fun x => match x with
      | inl 0 => RootDir | inl 1 => CurDir | inl _ => ParentDir | inr s => NormalC s end) _).
  by intros [].
Defined.

Notation path := (list Component).

Definition is_absolute (p : path) : bool := match p with RootDir :: _ => true | _ => false end.

(** [Path::join]; a [.] is a component only at the front of a path. *)
Definition join (p q : path) : path :=
  if is_absolute q then q
  else match p with
       | [] => q
       | _ => (p ++ match q with CurDir :: q' => q' | _ => q end)%list
       end.

Definition part_component (part : string) : option Component :=
  if bool_decide (part = EmptyString) || bool_decide (part = ".") then None
  else if bool_decide (part = "..") then Some ParentDir
  else Some (NormalC part).

(** [PathBuf::from] and [components]: empty parts and inner dots vanish. *)
Definition path_of (s : string) : path :=
  match split_str CH_SLASH s with
  | [] => []
  | first :: rest =>
      let front := if bool_decide (first = EmptyString) && negb (bool_decide (s = EmptyString)) then [RootDir]
                   else if bool_decide (first = ".") then [CurDir]
                   else match part_component first with Some c => [c] | None => [] end in
      (front ++ omap part_component rest)%list
  end.

Definition join_name (p : path) (name : string) : path := (p ++ [NormalC name])%list.

Definition parent (p : path) : option path :=
  match reverse p with
  | [] => None
  | RootDir :: _ => None
  | _ :: r => Some (reverse r)
  end.

Definition starts_with (p base : path) : bool := bool_decide (base `prefix_of` p).

(** *** Relative paths *)

Definition component_part (c : Component) : option string :=
  match c with
  | RootDir => Some "/"
  | NormalC part => Some part
  | ParentDir => Some ".."
  | CurDir => None
  end.

Definition path_parts (p : path) : list string := omap component_part p.

Definition slash_component (c : Component) : string :=
  match c with RootDir => "/" | NormalC part => part | ParentDir => ".." | CurDir => "." end.

Definition slash_path (p : path) : string := String.concat "/" (map slash_component p).

Fixpoint common_prefix (a b : list string) : nat :=
  match a, b with
  | x :: a', y :: b' => if bool_decide (x = y) then S (common_prefix a' b') else 0
  | _, _ => 0
  end.

(** [PathBuf::push] of a part as [path_parts] renders it. *)
Definition push_part (p : path) (part : string) : path :=
  if bool_decide (part = "/") then [RootDir]
  else if bool_decide (part = "..") then (p ++ [ParentDir])%list
  else (p ++ [NormalC part])%list.

Definition relative_path (from_dir to : path) : path :=
  if bool_decide (from_dir = to) then [CurDir]
  else
    let from := path_parts from_dir in
    let target := path_parts to in
    if negb (bool_decide (head from = head target)) then to
    else
      let common := common_prefix from target in
      let result := fold_left push_part (drop common target)
                      (replicate (length from - common) ParentDir) in
      match result with [] => [CurDir] | _ => result end.

Definition canonical_path_source (base_dir package_root : path) : string :=
  slash_path (relative_path base_dir package_root).

(** ** Manifests *)

Record PackageMeta := mkPackageMeta {
  pkg_name : string;
  pkg_version : string;
  pkg_authors : list string;
  pkg_description : option string;
  pkg_edition : option string;
}.

Record BinTarget := mkBinTarget { bin_name : option string; bin_path : path }.
Record LibTarget := mkLibTarget { lib_path : path }.
Record TestTarget := mkTestTarget { test_path : path }.

Record RegistryConfig := mkRegistryConfig {
  reg_path : option path;
  reg_url : option string;
  reg_token_env : option string;
}.

Record Dependency := mkDependency {
  dep_name : string;
  dep_package : option string;
  dep_path : option path;
  dep_git : option string;
  dep_rev : option string;
  dep_version_req : option string;
  dep_registry : option string;
}.

Record Manifest := mkManifest {
  man_package : PackageMeta;
  man_bin : option BinTarget;
  man_lib : option LibTarget;
  man_test : list TestTarget;
  man_registries : list (string * RegistryConfig);
  man_dependencies : list (string * Dependency);
}.

Definition target_name (d : Dependency) : string := default (dep_name d) (dep_package d).

Definition default_bin_path : path := [NormalC "src"; NormalC "main.sg"].
Definition default_lib_path : path := [NormalC "src"; NormalC "lib.sg"].

Definition entry_path (m : Manifest) : path :=
  match man_bin m with
  | Some b => bin_path b
  | None => match man_lib m with Some l => lib_path l | None => default_bin_path end
  end.

(** *** Validation *)

Inductive ManifestError :=
| UnsupportedSchema (version : Z)
| InvalidPackageVersion
| UnsupportedEdition (edition : string)
| EmptyName (kind : string)
| InvalidName (kind name : string)
| InvalidRegistryName (name : string)
| RegistrySource (name : string)
| RegistryToken (name : string)
| UnsupportedDependencyKeys (name : string) (keys : list string)
| DependencySources (name : string)
| RevWithoutGit (name : string)
| RegistryWithoutVersion (name : string)
| EmptyDependencyField (name field : string)
| InvalidVersionReq (name : string)
| NotADependency (name : string).

Definition validate_name (kind name : string) : result unit ManifestError :=
  if bool_decide (trim name = EmptyString) then Err (EmptyName kind)
  else if chars_all (fun c => is_ascii_lowercase c || is_ascii_digit c || char_is CH_UNDERSCORE c || char_is CH_DASH c) name
       then Ok tt else Err (InvalidName kind name).

Definition validate_package_name (name : string) : result unit ManifestError :=
  validate_name "package name" name.

Definition boundary_is_valid (c : ascii) : bool := is_ascii_lowercase c || is_ascii_digit c.

Definition validate_registry_name (name : string) : result unit ManifestError :=
  if bool_decide (trim name = EmptyString) then Err (EmptyName "registry name")
  else
    let cs := list_ascii_of_string name in
    if chars_all (fun c => boundary_is_valid c || char_is CH_UNDERSCORE c || char_is CH_DASH c || char_is CH_DOT c) name &&
       match head cs with Some c => boundary_is_valid c | None => false end &&
       match last cs with Some c => boundary_is_valid c | None => false end
    then Ok tt else Err (InvalidRegistryName name).

Definition nonblank (o : option string) : bool :=
  match o with Some s => negb (bool_decide (trim s = EmptyString)) | None => false end.

Definition validate_registry (name : string) (c : RegistryConfig) : result unit ManifestError :=
  let? _ := validate_registry_name name in
  let has_path := is_some (reg_path c) in
  let has_url := nonblank (reg_url c) in
  if Bool.eqb has_path has_url then Err (RegistrySource name)
  else if match reg_token_env c with Some t => bool_decide (trim t = EmptyString) | None => false end
  then Err (RegistryToken name)
  else if is_some (reg_token_env c) && negb has_url then Err (RegistryToken name)
  else Ok tt.

Fixpoint validate_registries (l : list (string * RegistryConfig)) : result unit ManifestError :=
  match l with
  | [] => Ok tt
  | (name, c) :: l' => let? _ := validate_registry name c in validate_registries l'
  end.

(** *** Parsing, from the values of the TOML library *)

Inductive TomlValue :=
| TomlString (s : string)
| TomlTable (t : list (string * TomlValue))
| TomlOther.

Definition toml_get (key : string) (t : list (string * TomlValue)) : option TomlValue :=
  match find (fun kv => bool_decide (kv.1 = key)) t with Some kv => Some kv.2 | None => None end.

Definition toml_str (key : string) (t : list (string * TomlValue)) : option string :=
  match toml_get key t with Some (TomlString s) => Some s | _ => None end.

Definition trimmed (o : option string) : option string :=
  match o with
  | Some s => let v := trim s in if bool_decide (v = EmptyString) then None else Some v
  | None => None
  end.

(** A key that is present but blank, or present and not a string. *)
Definition require_field (name key : string) (t : list (string * TomlValue)) (v : option string) :
  result unit ManifestError :=
  if is_some (toml_get key t) && negb (is_some v) then Err (EmptyDependencyField name key) else Ok tt.

Definition validate_opt (f : string -> result unit ManifestError) (o : option string) :
  result unit ManifestError :=
  match o with Some s => f s | None => Ok tt end.

Record RawManifest := mkRawManifest {
  raw_schema : option Z;
  raw_package : PackageMeta;
  raw_bin : option BinTarget;
  raw_lib : option LibTarget;
  raw_test : list TestTarget;
  raw_registries : list (string * RegistryConfig);
  raw_dependencies : list (string * TomlValue);
}.

(** What the package manager uses of the semver library. *)
Class Semver (V R : Type) := {
  version_parse : string -> option V;
  version_to_string : V -> string;
  version_leb : V -> V -> bool;
  req_parse : string -> option R;
  req_matches : R -> V -> bool;
}.

Section parse.
Context {V R : Type} `{Semver V R}.

Definition DEPENDENCY_KEYS : list string := ["path"; "git"; "rev"; "version"; "registry"; "package"].

Definition check_req (name : string) (req : string) : result unit ManifestError :=
  match req_parse req with Some _ => Ok tt | None => Err (InvalidVersionReq name) end.

Definition source_count (l : list (option string)) : nat := length (filter (fun o => is_some o = true) l).

Definition parse_table_dependency (name : string) (t : list (string * TomlValue)) :
  result Dependency ManifestError :=
  let unsupported := filter (fun k => k ∉ DEPENDENCY_KEYS) (map fst t) in
  if negb (bool_decide (unsupported = [])) then Err (UnsupportedDependencyKeys name unsupported)
  else
    let package := toml_str "package" t in
    let p := toml_str "path" t in
    let git := toml_str "git" t in
    let rev := toml_str "rev" t in
    let version := toml_str "version" t in
    let registry := toml_str "registry" t in
    let sources := source_count [p; git; version] in
    if (1 <? sources)%nat || Nat.eqb sources 0 then Err (DependencySources name)
    else if is_some rev && negb (is_some git) then Err (RevWithoutGit name)
    else if is_some registry && negb (is_some version) then Err (RegistryWithoutVersion name)
    else
      let package := trimmed package in
      let p := trimmed p in
      let git := trimmed git in
      let version := trimmed version in
      let registry := trimmed registry in
      let? _ := require_field name "package" t package in
      let? _ := validate_opt (validate_name "dependency package") package in
      let? _ := require_field name "path" t p in
      let? _ := require_field name "git" t git in
      let? _ := require_field name "version" t version in
      let? _ := require_field name "registry" t registry in
      let? _ := validate_opt validate_registry_name registry in
      let rev := trimmed rev in
      let? _ := require_field name "rev" t rev in
      let? _ := validate_opt (check_req name) version in
      Ok (mkDependency name package (path_of <$> p) git rev version registry).

Definition parse_dependency (name : string) (value : TomlValue) : result Dependency ManifestError :=
  let? _ := validate_name "dependency name" name in
  match value with
  | TomlTable t => parse_table_dependency name t
  | TomlString version =>
      let version := trim version in
      let? _ := check_req name version in
      Ok (mkDependency name None None None None (Some version) None)
  | TomlOther => Err (NotADependency name)
  end.

Fixpoint parse_dependencies (l : list (string * TomlValue)) :
  result (list (string * Dependency)) ManifestError :=
  match l with
  | [] => Ok []
  | (name, value) :: l' =>
      let? dep := parse_dependency name value in
      let? rest := parse_dependencies l' in
      Ok ((name, dep) :: rest)
  end.

Definition validate_package (p : PackageMeta) : result unit ManifestError :=
  match @version_parse V R _ (pkg_version p) with
  | None => Err InvalidPackageVersion
  | Some _ =>
      match pkg_edition p with
      | Some e => if negb (bool_decide (e = "2026")) then Err (UnsupportedEdition e)
                  else validate_package_name (pkg_name p)
      | None => validate_package_name (pkg_name p)
      end
  end.

(** [Manifest::parse] after the TOML library. *)
Definition manifest_parse (raw : RawManifest) : result Manifest ManifestError :=
  let? _ := match raw_schema raw with
            | Some v => if Z.eqb v 1 then Ok tt else Err (UnsupportedSchema v)
            | None => Ok tt
            end in
  let? _ := validate_package (raw_package raw) in
  let? _ := validate_opt (validate_name "binary name")
              (match raw_bin raw with Some b => bin_name b | None => None end) in
  let? _ := validate_registries (raw_registries raw) in
  let? deps := parse_dependencies (raw_dependencies raw) in
  Ok (mkManifest (raw_package raw) (raw_bin raw) (raw_lib raw) (raw_test raw) (raw_registries raw) deps).
End parse.

(** *** Workspaces *)

Record RawWorkspaceManifest := mkRawWorkspace {
  raw_members : list path;
  raw_ws_registries : list (string * RegistryConfig);
}.

Record WorkspaceManifest := mkWorkspace {
  ws_members : list path;
  ws_registries : list (string * RegistryConfig);
}.

Inductive WorkspaceError := NoMembers | WorkspaceRegistry (e : ManifestError) | EmptyMember.

Definition workspace_parse (raw : RawWorkspaceManifest) : result WorkspaceManifest WorkspaceError :=
  if bool_decide (raw_members raw = []) then Err NoMembers
  else match validate_registries (raw_ws_registries raw) with
       | Err e => Err (WorkspaceRegistry e)
       | Ok _ => if existsb (fun p => bool_decide (p = [])) (raw_members raw) then Err EmptyMember
                 else Ok (mkWorkspace (raw_members raw) (raw_ws_registries raw))
       end.

(** ** What a parsed manifest guarantees *)

Section parsed.
Context {V R : Type} `{Semver V R}.

(** A dependency has exactly one source, the fields that belong to a source
    occur only with it, and what it names is a valid name. *)
Record dependency_wf (d : Dependency) : Prop := {
  dwf_source : (is_some (dep_path d), is_some (dep_git d), is_some (dep_version_req d)) ∈
                 [(true, false, false); (false, true, false); (false, false, true)];
  dwf_rev : is_some (dep_rev d) = true -> is_some (dep_git d) = true;
  dwf_registry : is_some (dep_registry d) = true -> is_some (dep_version_req d) = true;
  dwf_name : validate_package_name (target_name d) = Ok tt;
  dwf_registry_name : forall r, dep_registry d = Some r -> validate_registry_name r = Ok tt;
  dwf_req : forall v, dep_version_req d = Some v -> is_some (@req_parse V R _ v) = true;
}.

Definition registry_wf (nc : string * RegistryConfig) : Prop :=
  validate_registry_name nc.1 = Ok tt /\
  is_some (reg_path nc.2) = negb (nonblank (reg_url nc.2)) /\
  (is_some (reg_token_env nc.2) = true -> nonblank (reg_token_env nc.2) = true /\ nonblank (reg_url nc.2) = true).

Definition manifest_wf (m : Manifest) : Prop :=
  validate_package_name (pkg_name (man_package m)) = Ok tt /\
  is_some (@version_parse V R _ (pkg_version (man_package m))) = true /\
  Forall registry_wf (man_registries m) /\
  Forall (fun nd => dep_name nd.2 = nd.1 /\ dependency_wf nd.2) (man_dependencies m).

Lemma validate_name_kind (k k' name : string) :
  validate_name k name = Ok tt -> validate_name k' name = Ok tt.
Proof. unfold validate_name. repeat case_match; done. Qed.

Lemma validate_registry_ok (name : string) (c : RegistryConfig) :
  validate_registry name c = Ok tt -> registry_wf (name, c).
Proof.
  unfold validate_registry, registry_wf. simpl. destruct (validate_registry_name name) as [[]|]; [|done].
  destruct (is_some (reg_path c)), (nonblank (reg_url c)); simpl; try done;
    destruct (reg_token_env c) as [t|]; simpl; try done; by case_bool_decide.
Qed.

Lemma validate_registries_ok (l : list (string * RegistryConfig)) :
  validate_registries l = Ok tt -> Forall registry_wf l.
Proof.
  induction l as [|[name c] l IH]; simpl; intros Hv; [constructor|].
  destruct (validate_registry name c) as [[]|] eqn:Hc; [|done].
  constructor; [by apply validate_registry_ok|auto].
Qed.

Lemma check_req_ok (name req : string) : check_req (V := V) (R := R) name req = Ok tt -> is_some (req_parse (V := V) (R := R) req) = true.
Proof. unfold check_req. by case_match. Qed.

Lemma source_count_one (p g v : option string) :
  source_count [p; g; v] = 1 ->
  (is_some p, is_some g, is_some v) ∈ [(true, false, false); (false, true, false); (false, false, true)].
Proof. destruct p, g, v; intros Hs; try discriminate Hs; simpl; set_solver. Qed.

Lemma trimmed_some (o : option string) (v : string) : trimmed o = Some v -> is_some o = true.
Proof. by destruct o. Qed.

Lemma require_field_ok (name key : string) (t : list (string * TomlValue)) :
  require_field name key t (trimmed (toml_str key t)) = Ok tt ->
  is_some (trimmed (toml_str key t)) = is_some (toml_str key t).
Proof.
  unfold require_field, toml_str. destruct (toml_get key t) as [[s| |]|]; simpl; try done.
  by destruct (bool_decide (trim s = EmptyString)).
Qed.

Lemma parse_table_ok (name : string) (t : list (string * TomlValue)) (d : Dependency) :
  validate_name "dependency name" name = Ok tt ->
  parse_table_dependency (V := V) (R := R) name t = Ok d -> dep_name d = name /\ dependency_wf d.
Proof.
  intros Hname. unfold parse_table_dependency.
  destruct (negb (bool_decide _)); [done|].
  destruct (_ || _) eqn:Hc; [done|]. apply orb_false_iff in Hc as [Hc1 Hc2].
  apply Nat.ltb_ge in Hc1. apply Nat.eqb_neq in Hc2.
  destruct (is_some (toml_str "rev" t) && negb (is_some (toml_str "git" t))) eqn:Hrev; [done|].
  destruct (is_some (toml_str "registry" t) && negb (is_some (toml_str "version" t))) eqn:Hreg; [done|].
  repeat match goal with
    | |- match require_field ?n ?k ?t ?v with _ => _ end = _ -> _ =>
        let F := fresh "F" in destruct (require_field n k t v) as [[]|] eqn:F; [|done]; apply require_field_ok in F
    | |- match validate_opt ?f ?o with _ => _ end = _ -> _ =>
        let G := fresh "G" in destruct (validate_opt f o) as [[]|] eqn:G; [|done]
    end.
  intros [= <-]. split; [done|].
  assert (Hsrc : source_count [toml_str "path" t; toml_str "git" t; toml_str "version" t] = 1) by lia.
  apply source_count_one in Hsrc.
  split; simpl.
  - rewrite F1, F2. replace (is_some (path_of <$> trimmed (toml_str "path" t))) with (is_some (toml_str "path" t)); [done|].
    rewrite <- F0. by destruct (trimmed (toml_str "path" t)).
  - rewrite F1, F4. intros Hr. rewrite Hr in Hrev. by destruct (is_some (toml_str "git" t)).
  - rewrite F2, F3. intros Hr. rewrite Hr in Hreg. by destruct (is_some (toml_str "version" t)).
  - unfold target_name. simpl. destruct (trimmed (toml_str "package" t)); simpl in *; by eapply validate_name_kind.
  - intros r Hr. by rewrite Hr in G0.
  - intros v Hv. rewrite Hv in G1. by eapply check_req_ok.
Qed.

Lemma parse_dependency_ok (name : string) (v : TomlValue) (d : Dependency) :
  parse_dependency (V := V) (R := R) name v = Ok d -> dep_name d = name /\ dependency_wf d.
Proof.
  unfold parse_dependency. destruct (validate_name _ name) as [[]|] eqn:Hn; [|done]. destruct v as [s|t|]; [| |done].
  - destruct (check_req name (trim s)) as [[]|] eqn:Hc; [|done]. intros [= <-]. split; [done|]. split; simpl; try done.
    + set_solver.
    + by eapply validate_name_kind.
    + intros v [= <-]. by eapply check_req_ok.
  - by apply parse_table_ok.
Qed.

Lemma parse_dependencies_ok (l : list (string * TomlValue)) (deps : list (string * Dependency)) :
  parse_dependencies (V := V) (R := R) l = Ok deps ->
  deps.*1 = l.*1 /\ Forall (fun nd => dep_name nd.2 = nd.1 /\ dependency_wf nd.2) deps.
Proof.
  revert deps. induction l as [|[name v] l IH]; intros deps Hp; simpl in Hp; [by simplify_eq|].
  destruct (parse_dependency name v) as [d|] eqn:Hd; [|done].
  destruct (parse_dependencies l) as [rest|]; [|done]. simplify_eq. apply parse_dependency_ok in Hd.
  destruct (IH _ eq_refl) as [Hk Hf]. split; [by rewrite !fmap_cons, Hk|]. by constructor.
Qed.
End parsed.

(** C38: a manifest that parses is well formed: the package and its registries
    have valid names, the version parses, each registry has a path or a URL but
    not both, and each dependency has exactly one source (path, git or version),
    a revision only with git, a registry only with a version, a valid target
    name and a requirement that parses.  So later stages never meet a dependency
    without a source. *)
Theorem parsed_manifest_wf {V R : Type} `{Semver V R} (raw : RawManifest) (m : Manifest) :
  manifest_parse raw = Ok m ->
  manifest_wf m /\ (man_dependencies m).*1 = (raw_dependencies raw).*1.
Proof.
  unfold manifest_parse. destruct (match raw_schema raw with Some _ => _ | None => _ end) as [[]|]; [|done].
  destruct (validate_package (raw_package raw)) as [[]|] eqn:Hp; [|done].
  destruct (validate_opt _ _) as [[]|]; [|done].
  destruct (validate_registries (raw_registries raw)) as [[]|] eqn:Hr; [|done].
  destruct (parse_dependencies (raw_dependencies raw)) as [deps|] eqn:Hd; [|done]. intros [= <-].
  apply parse_dependencies_ok in Hd as [Hk Hd]. split; [|done].
  unfold validate_package in Hp. destruct (version_parse (pkg_version (raw_package raw))) eqn:Hv; [|done].
  unfold manifest_wf. simpl. rewrite Hv. split_and!; [|done|by apply validate_registries_ok|done].
  destruct (pkg_edition (raw_package raw)); [by destruct (negb _)|done].
Qed.

(** Versions and requirements that are any text. *)
#[local] Instance text_semver : Semver string string :=
  {| version_parse := Some; version_to_string s := s; version_leb := String.leb; req_parse := Some;
     req_matches := String.prefix |}.

Definition demo_raw : RawManifest :=
  mkRawManifest (Some 1%Z) (mkPackageMeta "app" "0.1.0" [] None (Some "2026")) None None []
    [("default", mkRegistryConfig None (Some "https://r.example") None)]
    [("alpha", TomlString " ^1.2 "); ("beta", TomlTable [("path", TomlString "../beta")]);
     ("gamma", TomlTable [("git", TomlString "https://g.example/g"); ("rev", TomlString "abc"); ("package", TomlString "g2")])].

Lemma parsed_manifest_wf_witness : exists m, manifest_parse demo_raw = Ok m /\ manifest_wf m.
Proof.
  eexists. split; [vm_compute; reflexivity|]. apply (parsed_manifest_wf demo_raw). vm_compute. reflexivity.
Defined.
