(* ===== verification/PkgArchive.v ===== *)
(** Downloaded packages: the archive and cache functions of tools/sgpm/src/
    resolver.rs.

    The limits on archives ([observe]), the check of the paths inside them
    ([validated_remote_archive_path]), the loop that unpacks them
    ([unpack_entries]), the place of a package in the cache, and the content
    checksum ([package_content_checksum]).  What is asked of the file system is
    the record [FileSys]; SHA-256 is a parameter.

    The theorems: what unpacking an archive writes stays below the staging
    directory, and its entries and their declared sizes within the limits, cache paths of validated names do not
    leave the cache nor coincide, and the bytes that are hashed determine the
    content of a package. *)

From stdpp Require Import sorting.
From S2P Require Import Prelude Strs Sorting PkgManifest.
From Stdlib Require Import Ascii String.

#[local] Open Scope string_scope.

(** ** Limits on downloaded archives *)

Definition MAX_REMOTE_ARCHIVE_COMPRESSED_BYTES : Z := 64 * 1024 * 1024.
Definition MAX_REMOTE_ARCHIVE_UNCOMPRESSED_BYTES : Z := 256 * 1024 * 1024.
Definition MAX_REMOTE_ARCHIVE_ENTRIES : Z := 10000.

Record RemoteArchiveBudget := mkBudget { budget_entries : Z; budget_bytes : Z }.

Definition budget_default : RemoteArchiveBudget := mkBudget 0 0.

Inductive ArchiveError :=
| TooManyEntries
| SizeOverflow
| TooLarge
| CompressedTooLarge
| AbsolutePath (p : string)
| ParentTraversal (p : string)
| EmptyPath (p : string)
| DuplicatePath (p : string)
| UnsupportedEntryType (p : string).

Definition observe (entry_size : Z) (b : RemoteArchiveBudget) :
  result unit ArchiveError * RemoteArchiveBudget :=
  let entries := (budget_entries b + 1)%Z in
  if (MAX_REMOTE_ARCHIVE_ENTRIES <? entries)%Z then (Err TooManyEntries, mkBudget entries (budget_bytes b))
  else
    let bytes := (budget_bytes b + entry_size)%Z in
    if (2 ^ 64 <=? bytes)%Z then (Err SizeOverflow, mkBudget entries (budget_bytes b))
    else if (MAX_REMOTE_ARCHIVE_UNCOMPRESSED_BYTES <? bytes)%Z then (Err TooLarge, mkBudget entries bytes)
    else (Ok tt, mkBudget entries bytes).

Definition validate_remote_archive_compressed_size (size : Z) : result unit ArchiveError :=
  if (MAX_REMOTE_ARCHIVE_COMPRESSED_BYTES <? size)%Z then Err CompressedTooLarge else Ok tt.

(** ** Paths inside archives *)

Definition replace_backslashes (s : string) : string :=
  string_of_list_ascii (map (fun c => if char_is CH_BACKSLASH c then ascii_of_nat CH_SLASH else c)
    (list_ascii_of_string s)).

Definition has_windows_prefix (s : string) : bool :=
  match list_ascii_of_string s with
  | c :: d :: _ => char_is CH_COLON d && is_ascii_alphabetic c
  | _ => false
  end.

(** Where pushing a component leads: below the path, or, on Windows for a
    component that starts with a drive letter, somewhere else. *)
Inductive Target := Below (p : path) | Elsewhere (drive : string) (p : path).

Definition push_component (windows : bool) (t : Target) (component : string) : Target :=
  if windows && has_windows_prefix component then Elsewhere component []
  else match t with
       | Below p => Below (join_name p component)
       | Elsewhere d p => Elsewhere d (join_name p component)
       end.

Fixpoint validate_components (windows : bool) (rendered : string) (parts : list string)
  (safe_path : Target) (normalized : list string) : result (Target * list string) ArchiveError :=
  match parts with
  | [] => Ok (safe_path, normalized)
  | c :: rest =>
      if bool_decide (c = EmptyString) || bool_decide (c = ".") then
        validate_components windows rendered rest safe_path normalized
      else if bool_decide (c = "..") then Err (ParentTraversal rendered)
      else validate_components windows rendered rest (push_component windows safe_path c)
             (normalized ++ [c])%list
  end.

Definition starts_with_slash (s : string) : bool :=
  match list_ascii_of_string s with c :: _ => char_is CH_SLASH c | [] => false end.

Definition validated_remote_archive_path (windows : bool) (p : string) :
  result (Target * string) ArchiveError :=
  let rendered := replace_backslashes p in
  if starts_with_slash rendered || has_windows_prefix rendered then Err (AbsolutePath rendered)
  else
    let? (safe_path, normalized) :=
      validate_components windows rendered (split_str CH_SLASH rendered) (Below []) [] in
    match normalized with
    | [] => Err (EmptyPath rendered)
    | _ => Ok (safe_path, String.concat "/" normalized)
    end.

(** What [create_dir_all] makes, where it is missing, for the parent of a place. *)
Definition ancestors (t : Target) : list Target :=
  match t with
  | Below p => map (fun k => Below (take k p)) (seq 1 (List.length p - 1))
  | Elsewhere d p => map (fun k => Elsewhere d (take k p)) (seq 0 (List.length p))
  end.

(** An entry: the size its header declares, which is what is counted, its path
    and type, and the number of bytes unpacking it writes, which is the tar
    library's affair. *)
Inductive EntryType := FileEntry | DirEntry | OtherEntry.

#[export] Instance EntryType_eq_dec : EqDecision EntryType.
Proof. solve_decision. Defined.

Record ArchiveEntry := mkEntry { ae_header_size : Z; ae_path : string; ae_type : EntryType; ae_content : Z }.

Inductive Effect := MakeDirs (dirs : list Target) | Unpack (destination : Target) (type : EntryType) (bytes : Z).

(** The loop over the entries: what is done in the staging directory, up to
    the first error, and whether there was one. *)
Fixpoint unpack_entries (windows : bool) (entries : list ArchiveEntry) (seen : gset string)
  (b : RemoteArchiveBudget) : list Effect * result unit ArchiveError :=
  match entries with
  | [] => ([], Ok tt)
  | e :: rest =>
      match observe (ae_header_size e) b with
      | (Err err, _) => ([], Err err)
      | (Ok _, b') =>
          match validated_remote_archive_path windows (ae_path e) with
          | Err err => ([], Err err)
          | Ok (safe_path, normalized) =>
              if bool_decide (normalized ∈ seen) then ([], Err (DuplicatePath normalized))
              else match ae_type e with
                   | OtherEntry => ([], Err (UnsupportedEntryType normalized))
                   | type =>
                       let (effects, res) := unpack_entries windows rest ({[normalized]} ∪ seen) b' in
                       (MakeDirs (ancestors safe_path) :: Unpack safe_path type (ae_content e) :: effects, res)
                   end
          end
      end
  end.

(** ** Cache paths *)

(** A character of more than one byte becomes one underscore: its first byte
    does, the continuation bytes vanish. *)
Definition sanitize_char (c : ascii) : option ascii :=
  if is_ascii_alphanumeric c || char_is CH_DASH c || char_is CH_UNDERSCORE c || char_is CH_DOT c then Some c
  else if in_range 128 191 c then None
  else Some (ascii_of_nat CH_UNDERSCORE).

Definition sanitize_path_component (value : string) : string :=
  string_of_list_ascii (omap sanitize_char (list_ascii_of_string value)).

Definition cached_remote_manifest_path (registry_cache_dir : path) (registry_name package_name version : string) :
  path :=
  join (join (join (join registry_cache_dir (path_of (sanitize_path_component registry_name)))
    (path_of (sanitize_path_component package_name))) (path_of version)) [NormalC "Sengoo.toml"].

(** ** The file system *)

Inductive FileKind := KindFile | KindDir | KindSymlink.

Record FileSys := mkFileSys {
  canonicalize : path -> option path;
  w_is_dir : path -> bool;
  w_exists : path -> bool;
  w_is_file : path -> bool;
  (** the entries of a directory: name and path *)
  read_dir : path -> option (list (string * path));
  read_to_string : path -> option string;
  read_bytes : path -> option (list Z);
  (** everything below a directory, [None] when an entry cannot be read *)
  walk_dir : path -> option (list (path * FileKind));
}.

(** ** The content checksum *)

Definition REMOTE_ARCHIVE_CHECKSUM_FILE : string := ".sgpm-archive.sha256".
Definition REMOTE_CONTENT_CHECKSUM_FILE : string := ".sgpm-content.sha256".
Definition REMOTE_REGISTRY_METADATA_FILE : string := ".sgpm-registry-metadata.json".

Inductive ChecksumError := WalkFailed | ContentSymlink (p : path) | PrefixFailed (p : path) | ReadFailed (p : path).

Fixpoint strip_prefix (p base : path) : option path :=
  match base, p with
  | [], _ => Some p
  | b :: base', c :: p' => if bool_decide (b = c) then strip_prefix p' base' else None
  | _ :: _, [] => None
  end.

(** A path as text, with slashes. *)
Definition path_text (p : path) : string :=
  match p with
  | RootDir :: r => "/" +:+ slash_path r
  | _ => slash_path p
  end.

Definition relative_text (package_dir p : path) : string :=
  replace_backslashes (path_text (default p (strip_prefix p package_dir))).

(** [usize::to_le_bytes] and the like. *)
Fixpoint to_le_bytes (n : nat) (z : Z) : list Z :=
  match n with
  | 0 => []
  | S n' => (z mod 256)%Z :: to_le_bytes n' (z / 256)%Z
  end.

Definition string_bytes (s : string) : list Z := map (fun c => Z.of_N (N_of_ascii c)) (list_ascii_of_string s).

(** What one file adds to the digest. *)
Definition file_frame (f : string * list Z) : list Z :=
  (to_le_bytes 8 (Z.of_nat (String.length f.1)) ++ string_bytes f.1 ++
   to_le_bytes 8 (Z.of_nat (List.length f.2)) ++ f.2)%list.

Section checksum.
Context (fs : FileSys) (sha256 : list Z -> string).

Fixpoint collect_files (entries : list (path * FileKind)) : result (list path) ChecksumError :=
  match entries with
  | [] => Ok []
  | (p, KindSymlink) :: _ => Err (ContentSymlink p)
  | (p, KindFile) :: rest => let? more := collect_files rest in Ok (p :: more)
  | (_, KindDir) :: rest => collect_files rest
  end.

Fixpoint digest_files (package_dir : path) (files : list (string * path)) : result (list Z) ChecksumError :=
  match files with
  | [] => Ok []
  | (_, p) :: rest =>
      match strip_prefix p package_dir with
      | None => Err (PrefixFailed p)
      | Some _ =>
          match read_bytes fs p with
          | None => Err (ReadFailed p)
          | Some bytes =>
              let? more := digest_files package_dir rest in
              Ok (file_frame (relative_text package_dir p, bytes) ++ more)%list
          end
      end
  end.

Definition package_content_checksum (package_dir : path) (excluded : list string) : result string ChecksumError :=
  match walk_dir fs package_dir with
  | None => Err WalkFailed
  | Some entries =>
      let? files := collect_files entries in
      let keyed := map (fun p => (relative_text package_dir p, p)) files in
      let retained := filter (fun kp => kp.1 ∉ excluded) keyed in
      let? bytes := digest_files package_dir (sort_by key_leb retained) in
      Ok (sha256 bytes)
  end.

Definition remote_package_content_checksum (package_dir : path) : result string ChecksumError :=
  package_content_checksum package_dir [REMOTE_ARCHIVE_CHECKSUM_FILE; REMOTE_CONTENT_CHECKSUM_FILE].

Definition local_package_content_checksum (package_dir : path) : result string ChecksumError :=
  package_content_checksum package_dir ["sgpm-index.toml"].
End checksum.

(** * The archive

    ** Paths *)

Definition plain_part (c : string) : Prop :=
  c <> EmptyString /\ c <> "." /\ c <> ".." /\ Forall (fun x => char_is CH_SLASH x = false) (list_ascii_of_string c).

Lemma split_on_no_sep (c : nat) (s : list ascii) :
  Forall (Forall (fun x => char_is c x = false)) (split_on c s).
Proof.
  induction s as [|x s IH]; simpl; [by repeat constructor|].
  destruct (char_is c x) eqn:Hx; [by constructor|].
  destruct (split_on c s) as [|u us]; [by repeat constructor|].
  apply Forall_cons in IH as [? ?]. by repeat constructor.
Qed.

Lemma split_str_no_sep (c : nat) (s : string) :
  Forall (fun p => Forall (fun x => char_is c x = false) (list_ascii_of_string p)) (split_str c s).
Proof.
  unfold split_str. apply Forall_map. eapply Forall_impl; [apply split_on_no_sep|].
  intros u Hu. simpl. by rewrite list_ascii_of_string_of_list_ascii.
Qed.

(** The parts of a path that count: neither empty nor a dot. *)
Definition real_parts (parts : list string) : list string :=
  filter (fun c => c <> EmptyString /\ c <> ".") parts.

Lemma validate_components_spec (rendered : string) (parts : list string) (p : path) (n : list string) :
  validate_components false rendered parts (Below p) n =
    if bool_decide (".." ∈ real_parts parts) then Err (ParentTraversal rendered)
    else Ok (Below (p ++ map NormalC (real_parts parts)), n ++ real_parts parts)%list.
Proof.
  revert p n. induction parts as [|c parts IH]; intros p n; simpl.
  { by rewrite !app_nil_r. }
  unfold real_parts in *. rewrite filter_cons.
  destruct (bool_decide (c = EmptyString)) eqn:H1; [apply bool_decide_eq_true in H1|apply bool_decide_eq_false in H1].
  { rewrite decide_False by naive_solver. by rewrite orb_true_l. }
  destruct (bool_decide (c = ".")) eqn:H2; [apply bool_decide_eq_true in H2|apply bool_decide_eq_false in H2]; simpl.
  { rewrite decide_False by naive_solver. done. }
  rewrite decide_True by done. destruct (decide (c = "..")) as [H3|H3]; [rewrite bool_decide_eq_true_2 by done|rewrite (bool_decide_eq_false_2 (c = "..")) by done].
  { subst. by rewrite bool_decide_eq_true_2 by set_solver. }
  change (push_component false (Below p) c) with (Below (p ++ [NormalC c])). rewrite IH.
  rewrite (bool_decide_ext (".." ∈ c :: filter (fun c => c <> EmptyString /\ c <> ".") parts)
    (".." ∈ filter (fun c => c <> EmptyString /\ c <> ".") parts)) by set_solver.
  by rewrite <- !(assoc_L (++)%list).
Qed.

Lemma validated_path_spec (p : string) (t : Target) (n : string) :
  validated_remote_archive_path false p = Ok (t, n) ->
  exists parts, parts <> [] /\ Forall plain_part parts /\ t = Below (map NormalC parts) /\ n = String.concat "/" parts.
Proof.
  unfold validated_remote_archive_path. set (r := replace_backslashes p).
  destruct (_ || _); [done|]. rewrite validate_components_spec. case_bool_decide as Hd; [done|].
  simpl. intros Hn. exists (real_parts (split_str CH_SLASH r)).
  destruct (real_parts (split_str CH_SLASH r)) as [|u us] eqn:Hr; [done|].
  simplify_eq/=. split_and!; [done| |done|done]. rewrite <- Hr.
  apply Forall_forall. intros c Hc.
  pose proof Hc as [[He Hdot] Hin]%list_elem_of_filter.
  split_and!; [done|done| |].
  - intros ->. apply Hd. by rewrite <- Hr.
  - exact (proj1 (Forall_forall _ _) (split_str_no_sep CH_SLASH r) c Hin).
Qed.

(** ** Limits *)

Definition declared_size (entries : list ArchiveEntry) : Z := foldr (fun e n => (ae_header_size e + n)%Z) 0%Z entries.

Lemma observe_ok (size : Z) (b b' : RemoteArchiveBudget) :
  observe size b = (Ok tt, b') ->
  budget_entries b' = (budget_entries b + 1)%Z /\ budget_bytes b' = (budget_bytes b + size)%Z /\
  (budget_entries b' <= MAX_REMOTE_ARCHIVE_ENTRIES)%Z /\
  (budget_bytes b' <= MAX_REMOTE_ARCHIVE_UNCOMPRESSED_BYTES)%Z.
Proof.
  unfold observe. repeat case_match; intros; simplify_eq; simpl in *.
  repeat match goal with H : (_ <? _)%Z = false |- _ => apply Z.ltb_ge in H end. lia.
Qed.

(** What the loop has accepted, in terms of where it started. *)
Record accepted (seen : gset string) (b : RemoteArchiveBudget) (entries : list ArchiveEntry)
  (out : list Target) (names : list string) : Prop := {
  acc_parts : Forall2 (fun t n => exists parts, parts <> [] /\ Forall plain_part parts /\
                         t = Below (map NormalC parts) /\ n = String.concat "/" parts) out names;
  acc_names : NoDup names;
  acc_fresh : Forall (fun n => n ∉ seen) names;
  acc_length : List.length out = List.length entries;
  acc_count : (budget_entries b <= MAX_REMOTE_ARCHIVE_ENTRIES ->
               budget_entries b + Z.of_nat (List.length entries) <= MAX_REMOTE_ARCHIVE_ENTRIES)%Z;
  acc_bytes : (budget_bytes b <= MAX_REMOTE_ARCHIVE_UNCOMPRESSED_BYTES ->
               budget_bytes b + declared_size entries <= MAX_REMOTE_ARCHIVE_UNCOMPRESSED_BYTES)%Z;
  acc_types : Forall (fun e => ae_type e <> OtherEntry) entries;
}.

(** What is done for the entries [l] at the places [targets]. *)
Definition effects_of (targets : list Target) (l : list ArchiveEntry) : list Effect :=
  flat_map (fun '(t, e) => [MakeDirs (ancestors t); Unpack t (ae_type e) (ae_content e)]) (zip targets l).

(** The loop handles a prefix of the entries, all of them without an error. *)
Lemma unpack_entries_accepted (entries : list ArchiveEntry) (seen : gset string) (b : RemoteArchiveBudget) :
  exists k targets names, (unpack_entries false entries seen b).1 = effects_of targets (take k entries) /\
    accepted seen b (take k entries) targets names /\
    ((unpack_entries false entries seen b).2 = Ok tt -> take k entries = entries).
Proof.
  revert seen b. induction entries as [|e rest IH]; intros seen b; cbn [unpack_entries].
  { exists 0, [], []. split_and!; [done| |done]. split; simpl; try constructor; lia. }
  assert (accepted seen b (take 0 (e :: rest)) [] []) as H0 by (split; simpl; try constructor; lia).
  destruct (observe (ae_header_size e) b) as [[[]|err] b'] eqn:Ho; [|by exists 0, [], []].
  destruct (validated_remote_archive_path false (ae_path e)) as [[t n]|err] eqn:Hv; [|by exists 0, [], []].
  case_bool_decide as Hs; [by exists 0, [], []|].
  destruct (decide (ae_type e = OtherEntry)) as [Ht|Ht]; [rewrite Ht; by exists 0, [], []|].
  destruct (IH ({[n]} ∪ seen) b') as (k & targets & names & E & A & Hall).
  exists (S k), (t :: targets), (n :: names). destruct (unpack_entries false rest ({[n]} ∪ seen) b') as [effects res]. cbn [fst snd] in E, Hall.
  split_and!.
  - subst effects. cbn [effects_of take zip zip_with flat_map]. by destruct (ae_type e).
  - destruct (observe_ok _ _ _ Ho) as (E1 & E2 & E3 & E4). cbn [take].
    pose proof (acc_count _ _ _ _ _ A E3) as C. pose proof (acc_bytes _ _ _ _ _ A E4) as B. split; simpl.
    + constructor; [by eapply validated_path_spec|apply A].
    + constructor; [|apply A]. intros Hin. apply (proj1 (Forall_forall _ _) (acc_fresh _ _ _ _ _ A) n Hin). set_solver.
    + constructor; [done|]. eapply Forall_impl; [apply A|]. set_solver.
    + f_equal. apply A.
    + lia.
    + lia.
    + constructor; [done|apply A].
  - intros Hr. cbn [take]. f_equal. apply Hall. by destruct (ae_type e).
Qed.

Lemma Forall2_fn_NoDup {A B} (R : A -> B -> Prop) (l : list A) (k : list B) :
  (forall a b b', R a b -> R a b' -> b = b') -> Forall2 R l k -> NoDup k -> NoDup l.
Proof.
  intros Hf HR. induction HR as [|a b l k Hab HR IH]; intros Hk; [constructor|].
  apply NoDup_cons in Hk as [Hn Hk]. constructor; [|auto]. intros Hin.
  apply list_elem_of_lookup in Hin as (i & Hi).
  destruct (Forall2_lookup_l _ _ _ _ _ HR Hi) as (b' & Hb' & Hab').
  apply Hn. rewrite (Hf _ _ _ Hab Hab'). by eapply list_elem_of_lookup_2.
Qed.

(** * Sorting by name *)

Lemma sort_keys_Forall2 {A B} (R : A -> B -> Prop) (l : list (string * A)) (l' : list (string * B)) :
  Forall2 (fun x y => x.1 = y.1 /\ R x.2 y.2) l l' ->
  Forall2 (fun x y => x.1 = y.1 /\ R x.2 y.2) (sort_by key_leb l) (sort_by key_leb l').
Proof.
  set (Q := fun (x : string * A) (y : string * B) => x.1 = y.1 /\ R x.2 y.2).
  assert (Hins : forall x y k k', Q x y -> Forall2 Q k k' -> Forall2 Q (insert_by key_leb x k) (insert_by key_leb y k')).
  { intros x y k k' Hxy Hk. induction Hk as [|u v k k' Huv Hk IH]; simpl; [by constructor|].
    unfold key_leb at 1 3. rewrite (proj1 Huv), (proj1 Hxy).
    destruct (String.leb v.1 y.1); [by constructor|]. constructor; [done|by constructor]. }
  unfold sort_by. intros Hl. enough (H : forall acc acc', Forall2 Q acc acc' ->
    Forall2 Q (fold_left (fun acc x => insert_by key_leb x acc) l acc)
      (fold_left (fun acc x => insert_by key_leb x acc) l' acc')) by (apply H; constructor).
  induction Hl; intros acc acc' Ha; simpl; [done|]. apply IHHl. by apply Hins.
Qed.

(** * The bytes that are hashed *)

Lemma to_le_bytes_length (n : nat) (z : Z) : List.length (to_le_bytes n z) = n.
Proof. revert z. induction n; intros; simpl; auto. Qed.

Lemma to_le_bytes_inj (n : nat) (x y : Z) :
  (0 <= x < 256 ^ Z.of_nat n)%Z -> (0 <= y < 256 ^ Z.of_nat n)%Z -> to_le_bytes n x = to_le_bytes n y -> x = y.
Proof.
  revert x y. induction n as [|n IH]; intros x y Hx Hy Heq; simpl in *; [lia|].
  injection Heq as Hm Hd. rewrite Nat2Z.inj_succ, Z.pow_succ_r in Hx, Hy by lia.
  apply IH in Hd; [|split; [by apply Z.div_pos; lia|apply Z.div_lt_upper_bound; lia]..].
  rewrite (Z.div_mod x 256), (Z.div_mod y 256) by lia. lia.
Qed.

Definition fits_usize (f : string * list Z) : Prop :=
  (Z.of_nat (String.length f.1) < 2 ^ 64)%Z /\ (Z.of_nat (List.length f.2) < 2 ^ 64)%Z.

Lemma string_bytes_length (s : string) : List.length (string_bytes s) = String.length s.
Proof. unfold string_bytes. rewrite length_map. induction s; simpl; auto. Qed.

Lemma string_bytes_inj (s t : string) : string_bytes s = string_bytes t -> s = t.
Proof.
  unfold string_bytes. intros H.
  rewrite <- (string_of_list_ascii_of_string s), <- (string_of_list_ascii_of_string t). f_equal.
  revert H. generalize (list_ascii_of_string s) (list_ascii_of_string t).
  induction l as [|c l IH]; intros [|c' l'] H; [done|done|done|].
  cbn [map] in H. injection H as Hc Hl. f_equal; [|by apply IH].
  rewrite <- (ascii_N_embedding c), <- (ascii_N_embedding c').
  f_equal. by apply N2Z.inj.
Qed.

Lemma app_same_length {A} (a a' b b' : list A) :
  List.length a = List.length a' -> (a ++ b = a' ++ b')%list -> a = a' /\ b = b'.
Proof. intros. by apply app_inj_1. Qed.

Lemma le_len_inj (m n : nat) :
  (Z.of_nat m < 2 ^ 64)%Z -> (Z.of_nat n < 2 ^ 64)%Z ->
  to_le_bytes 8 (Z.of_nat m) = to_le_bytes 8 (Z.of_nat n) -> m = n.
Proof.
  intros Hm Hn H. apply Nat2Z.inj. apply (to_le_bytes_inj 8); [lia..|done].
Qed.

Lemma frames_inj (l l' : list (string * list Z)) :
  Forall fits_usize l -> Forall fits_usize l' -> flat_map file_frame l = flat_map file_frame l' -> l = l'.
Proof.
  intros Hl. revert l'. induction Hl as [|[k b] l [Hk Hb] Hl IH]; intros l' Hl' Heq;
    destruct Hl' as [|[k' b'] l' [Hk' Hb'] Hl']; cbn [flat_map] in Heq; [done|done|done|].
  unfold file_frame in Heq. cbn [fst snd] in *. rewrite <- !(assoc_L (++)%list) in Heq.
  apply app_same_length in Heq as [E1 Heq]; [|by rewrite !to_le_bytes_length].
  apply le_len_inj in E1; [|done..].
  apply app_same_length in Heq as [E2 Heq]; [|by rewrite !string_bytes_length].
  apply app_same_length in Heq as [E3 Heq]; [|by rewrite !to_le_bytes_length].
  apply le_len_inj in E3; [|done..].
  apply app_same_length in Heq as [E4 Heq]; [|done].
  apply string_bytes_inj in E2. subst. f_equal. by apply IH.
Qed.

(** * The content of a package

    What the checksum is about: the files below the directory that are not
    excluded, as relative name and bytes, in the order the walk gives them. *)
Definition content_of (fs : FileSys) (package_dir : path) (excluded : list string) :
  option (list (string * list Z)) :=
  match walk_dir fs package_dir with
  | None => None
  | Some entries =>
      match collect_files entries with
      | Err _ => None
      | Ok files =>
          mapM (fun kp => match read_bytes fs kp.2 with Some b => Some (kp.1, b) | None => None end)
            (filter (fun kp => kp.1 ∉ excluded) (map (fun p => (relative_text package_dir p, p)) files))
      end
  end.

Lemma digest_files_ok (fs : FileSys) (dir : path) (files : list (string * path)) (bytes : list Z) :
  Forall (fun kp => kp.1 = relative_text dir kp.2) files ->
  digest_files fs dir files = Ok bytes ->
  exists l, Forall2 (fun kp kb => kp.1 = kb.1 /\ read_bytes fs kp.2 = Some kb.2) files l /\
    bytes = flat_map file_frame l.
Proof.
  intros Hf. revert bytes. induction Hf as [|[k p] files Hk Hf IH]; intros bytes Hd; simpl in *.
  { simplify_eq. by exists []. }
  destruct (strip_prefix p dir) as [rel|]; [|done]. destruct (read_bytes fs p) as [b|] eqn:Hb; [|done].
  destruct (digest_files fs dir files) as [more|] eqn:Hm; [|done]. simplify_eq.
  destruct (IH _ eq_refl) as (l & Hl & ->). exists ((relative_text dir p, b) :: l).
  split; [|done]. by constructor.
Qed.

Lemma checksum_of_content (fs : FileSys) (sha256 : list Z -> string) (dir : path) (excluded : list string)
  (c : string) :
  package_content_checksum fs sha256 dir excluded = Ok c ->
  exists l, content_of fs dir excluded = Some l /\ c = sha256 (flat_map file_frame (sort_by key_leb l)).
Proof.
  unfold package_content_checksum, content_of. destruct (walk_dir fs dir) as [entries|]; [|done].
  destruct (collect_files entries) as [files|]; [|done].
  set (kept := filter _ _).
  destruct (digest_files fs dir (sort_by key_leb kept)) as [bytes|] eqn:Hd; [|done]. intros [= <-].
  apply digest_files_ok in Hd as (l & Hl & ->).
  2: { rewrite (sort_by_perm key_leb). apply Forall_forall. intros [k p] Hkp.
       apply list_elem_of_filter in Hkp as [_ Hkp].
       apply list_elem_of_fmap in Hkp as (p' & ? & _). by simplify_eq. }
  destruct (mapM _ kept) as [l'|] eqn:Hm.
  - exists l'. split; [done|]. do 2 f_equal. apply mapM_Some in Hm.
    assert (Hl' : Forall2 (fun kp kb => kp.1 = kb.1 /\ read_bytes fs kp.2 = Some kb.2)
                    (sort_by key_leb kept) (sort_by key_leb l')).
    { apply (sort_keys_Forall2 (fun p b => read_bytes fs p = Some b)).
      eapply Forall2_impl; [exact Hm|]. intros [k p] [k' b]. simpl. intros. case_match; by simplify_eq. }
    clear -Hl Hl'. revert l Hl. induction Hl' as [|[k p] [k' b] ? ? [] ? IH]; intros m Hm;
      inversion Hm as [|? [k'' b''] ? ? [] ?]; simplify_eq/=; [done|].
    f_equal. by apply IH.
  - exfalso. apply mapM_None in Hm as Hm2. apply Exists_exists in Hm2 as ([k p] & Hin & Hn). simpl in Hn.
    assert (Hin' : (k, p) ∈ sort_by key_leb kept) by (by rewrite sort_by_perm).
    apply list_elem_of_lookup in Hin' as (i & Hi).
    destruct (Forall2_lookup_l _ _ _ _ _ Hl Hi) as ([? ?] & _ & _ & Hb). simpl in Hb. by rewrite Hb in Hn.
Qed.

(** The content checksum identifies the content of a package.  Two packages
    with the same files and bytes have the same checksum in whatever order the
    directories are read; two packages with the same checksum have the same
    files with the same bytes, unless SHA-256 collides: the framing of names
    and contents is unambiguous. *)
Theorem content_checksum_exact (fs1 fs2 : FileSys) (sha256 : list Z -> string) (d1 d2 : path)
  (excluded : list string) (l1 l2 : list (string * list Z)) (c1 c2 : string) :
  content_of fs1 d1 excluded = Some l1 -> content_of fs2 d2 excluded = Some l2 ->
  Forall fits_usize l1 -> Forall fits_usize l2 -> NoDup (l1.*1) ->
  package_content_checksum fs1 sha256 d1 excluded = Ok c1 ->
  package_content_checksum fs2 sha256 d2 excluded = Ok c2 ->
  (l1 ≡ₚ l2 -> c1 = c2) /\
  (c1 = c2 -> l1 ≡ₚ l2 \/ exists b1 b2, b1 <> b2 /\ sha256 b1 = sha256 b2).
Proof.
  intros E1 E2 F1 F2 Hnd C1 C2.
  apply checksum_of_content in C1 as (? & ? & ->), C2 as (? & ? & ->). simplify_eq.
  split; intros Hp; [by rewrite (sort_keys_unique l1 l2)|].
  destruct (decide (flat_map file_frame (sort_by key_leb l1) = flat_map file_frame (sort_by key_leb l2)))
    as [Heq|Hne]; [|right; by eexists _, _].
  left. apply frames_inj in Heq; [|by rewrite sort_by_perm..].
  by rewrite <- (sort_by_perm key_leb l1), Heq, sort_by_perm.
Qed.

(** A file system with one package in two directories, read in two orders. *)
Definition demo_fs : FileSys :=
  mkFileSys Some (fun _ => true) (fun _ => true) (fun _ => true) (fun _ => Some []) (fun _ => None)
    (fun p => match p with [RootDir; _; NormalC "x"] => Some [1; 2]%Z | _ => Some [3]%Z end)
    (fun p => Some (match p with
       | [RootDir; NormalC "a"] => [(p ++ [NormalC "x"], KindFile); (p ++ [NormalC "y"], KindFile)]
       | _ => [(p, KindDir); (p ++ [NormalC "y"], KindFile); (p ++ [NormalC "x"], KindFile)]
       end)%list).

Definition demo_sha (l : list Z) : string := string_of_list_ascii (map (fun z => ascii_of_nat (Z.to_nat z)) l).

Definition demo_dir (d : string) : path := [RootDir; NormalC d].

Lemma content_checksum_exact_witness :
  package_content_checksum demo_fs demo_sha (demo_dir "a") [] =
  package_content_checksum demo_fs demo_sha (demo_dir "b") [].
Proof.
  destruct (package_content_checksum demo_fs demo_sha (demo_dir "a") []) as [c1|] eqn:E1; [|by vm_compute in E1].
  destruct (package_content_checksum demo_fs demo_sha (demo_dir "b") []) as [c2|] eqn:E2; [|by vm_compute in E2].
  f_equal.
  destruct (content_checksum_exact demo_fs demo_fs demo_sha (demo_dir "a") (demo_dir "b") []
    [("x", [1; 2]%Z); ("y", [3]%Z)] [("y", [3]%Z); ("x", [1; 2]%Z)] c1 c2) as [H _];
    [reflexivity|reflexivity|by repeat constructor|by repeat constructor| |exact E1|exact E2|].
  - apply (bool_decide_unpack _). vm_compute. exact I.
  - apply H, Permutation_swap.
Defined.

(** * Unpacking *)

Definition below (t : Target) : Prop := exists parts, parts <> [] /\ Forall plain_part parts /\ t = Below (map NormalC parts).

(** The places an effect writes to. *)
Definition touches (eff : Effect) : list Target := match eff with MakeDirs dirs => dirs | Unpack t _ _ => [t] end.

Lemma ancestors_below t : below t -> Forall below (ancestors t).
Proof.
  intros (parts & Hne & Hp & ->). cbn [ancestors]. apply Forall_map, Forall_forall. intros k Hk%elem_of_seq. rewrite length_map in Hk.
  exists (take k parts). split_and!; [|by apply Forall_take|by rewrite <- firstn_map].
  destruct parts; [done|]. destruct k; [lia|done].
Qed.

Lemma effects_below targets l : Forall below targets -> Forall (fun eff => Forall below (touches eff)) (effects_of targets l).
Proof.
  intros H. revert l. induction H as [|t targets Ht _ IH]; intros [|e l]; try constructor.
  - by apply ancestors_below.
  - constructor; [by repeat constructor|apply IH].
Qed.

(** C18: Whatever archive is unpacked (on Unix) and whether it is accepted or
    not: every file and directory that is made, parents of entries included,
    is strictly below the staging directory, at a non-empty path of plain
    names, without dots, parents or roots.  What is unpacked are the first of
    the entries, all of them if there is no error, each at a place of its own,
    only files and directories, at most ten thousand, and the sizes their
    headers declare are at most 256 MiB in all.  The parents that are made are
    not counted, and what an entry writes is its content, whatever its header
    declares. *)
Theorem archive_contained (entries : list ArchiveEntry) :
  exists k targets, let unpacked := take k entries in
    (unpack_entries false entries ∅ budget_default).1 = effects_of targets unpacked /\
    Forall (fun eff => Forall below (touches eff)) (unpack_entries false entries ∅ budget_default).1 /\
    List.length targets = List.length unpacked /\ NoDup targets /\
    Forall (fun e => ae_type e <> OtherEntry) unpacked /\
    (Z.of_nat (List.length unpacked) <= 10000)%Z /\ (declared_size unpacked <= 256 * 1024 * 1024)%Z /\
    ((unpack_entries false entries ∅ budget_default).2 = Ok tt -> unpacked = entries).
Proof.
  destruct (unpack_entries_accepted entries ∅ budget_default) as (k & targets & names & E & A & Hall).
  pose proof (acc_count _ _ _ _ _ A ltac:(done)) as C. pose proof (acc_bytes _ _ _ _ _ A ltac:(done)) as B.
  exists k, targets. cbv zeta. split_and!; [exact E| |apply A| |apply A|exact C|exact B|exact Hall].
  - rewrite E. apply effects_below. eapply Forall2_Forall_l; [apply A|]. apply Forall_true. unfold below. naive_solver.
  - eapply Forall2_fn_NoDup; [|apply A|apply A].
    intros t n n' (ps & _ & _ & -> & ->) (ps' & _ & _ & Hm & ->). f_equal.
    injection Hm as Hm. revert ps' Hm. induction ps as [|x ps IH]; intros [|x' ps'] Hm; simplify_eq/=; [done|].
    f_equal. by apply IH.
Qed.

Example demo_archive_unpacked :
  unpack_entries false
    [mkEntry 40 "Sengoo.toml" FileEntry 40; mkEntry 0 "./src/" DirEntry 0; mkEntry 200 "src\a\main.sg" FileEntry 200]
    ∅ budget_default =
  ([MakeDirs []; Unpack (Below [NormalC "Sengoo.toml"]) FileEntry 40; MakeDirs []; Unpack (Below [NormalC "src"]) DirEntry 0;
    MakeDirs [Below [NormalC "src"]; Below [NormalC "src"; NormalC "a"]];
    Unpack (Below [NormalC "src"; NormalC "a"; NormalC "main.sg"]) FileEntry 200], Ok tt).
Proof. vm_compute. reflexivity. Qed.

(** On Windows a component that begins with a drive letter replaces the path
    it is pushed to, and only the first component is checked for one. *)
Theorem archive_drive_escape :
  validated_remote_archive_path true "C:x" = Err (AbsolutePath "C:x") /\
  unpack_entries true [mkEntry 1 "a/C:x" FileEntry 1] ∅ budget_default =
    ([MakeDirs []; Unpack (Elsewhere "C:x" []) FileEntry 1], Ok tt).
Proof. by vm_compute. Qed.

(** * The cache *)

Lemma split_on_none (c : nat) (s : list ascii) :
  Forall (fun x => char_is c x = false) s -> split_on c s = [s].
Proof. induction 1 as [|x s Hx Hs IH]; simpl; [done|]. by rewrite Hx, IH. Qed.

Lemma path_of_plain (s : string) : plain_part s -> path_of s = [NormalC s].
Proof.
  intros (He & Hd & Hdd & Hs). unfold path_of, split_str. rewrite split_on_none by done. simpl.
  rewrite string_of_list_ascii_of_string. rewrite !bool_decide_eq_false_2 by done.
  unfold part_component. by rewrite !bool_decide_eq_false_2 by done.
Qed.

Lemma join_names (p : path) (s : string) : plain_part s -> join p (path_of s) = join_name p s.
Proof. intros Hs. rewrite path_of_plain by done. unfold join, join_name. simpl. by destruct p. Qed.

Lemma sanitize_id (s : string) :
  chars_all (fun c => is_ascii_lowercase c || is_ascii_digit c || char_is CH_UNDERSCORE c || char_is CH_DASH c ||
                      char_is CH_DOT c) s = true -> sanitize_path_component s = s.
Proof.
  unfold chars_all, sanitize_path_component. intros H.
  rewrite <- (string_of_list_ascii_of_string s) at 2. f_equal. revert H.
  generalize (list_ascii_of_string s). induction l as [|c l IH]; intros H; [done|].
  cbn [forallb] in H. apply andb_true_iff in H as [Hc H]. cbn [omap list_omap]. unfold sanitize_char at 1.
  assert (is_ascii_alphanumeric c || char_is CH_DASH c || char_is CH_UNDERSCORE c || char_is CH_DOT c = true) as ->.
  { unfold is_ascii_alphanumeric, is_ascii_alphabetic. rewrite !orb_true_iff in *. naive_solver. }
  f_equal. by apply IH.
Qed.

Lemma trim_empty : trim EmptyString = EmptyString.
Proof. reflexivity. Qed.

Lemma chars_no_slash (P : ascii -> bool) (s : string) :
  (forall c, P c = true -> char_is CH_SLASH c = false) -> chars_all P s = true ->
  Forall (fun x => char_is CH_SLASH x = false) (list_ascii_of_string s).
Proof.
  intros HP. unfold chars_all. generalize (list_ascii_of_string s).
  induction l as [|c l IH]; simpl; [constructor|]. intros [Hc Hl]%andb_true_iff. constructor; auto.
Qed.

Lemma name_char_no_slash (c : ascii) :
  is_ascii_lowercase c || is_ascii_digit c || char_is CH_UNDERSCORE c || char_is CH_DASH c || char_is CH_DOT c = true ->
  char_is CH_SLASH c = false.
Proof.
  unfold is_ascii_lowercase, is_ascii_digit, in_range, char_is, CH_UNDERSCORE, CH_DASH, CH_DOT, CH_SLASH.
  rewrite !orb_true_iff, !andb_true_iff, !Nat.leb_le, !Nat.eqb_eq, Nat.eqb_neq. lia.
Qed.

Lemma chars_all_impl (P Q : ascii -> bool) (s : string) :
  (forall c, P c = true -> Q c = true) -> chars_all P s = true -> chars_all Q s = true.
Proof. intros HPQ. unfold chars_all. rewrite !forallb_forall. eauto. Qed.

Lemma valid_package_name (n : string) :
  validate_package_name n = Ok tt -> plain_part n /\ sanitize_path_component n = n.
Proof.
  unfold validate_package_name, validate_name. case_bool_decide as Ht; [done|]. destruct (chars_all _ n) eqn:Hc; [|done].
  intros _. eapply (chars_all_impl _ (fun c => is_ascii_lowercase c || is_ascii_digit c || char_is CH_UNDERSCORE c ||
    char_is CH_DASH c || char_is CH_DOT c)) in Hc as Hc'; [|intros c; by rewrite !orb_true_iff; naive_solver].
  split; [|by apply sanitize_id]. split_and!.
  - intros ->. by apply Ht.
  - by intros ->.
  - by intros ->.
  - by eapply chars_no_slash; [apply name_char_no_slash|].
Qed.

Lemma valid_registry_name (n : string) :
  validate_registry_name n = Ok tt -> plain_part n /\ sanitize_path_component n = n.
Proof.
  unfold validate_registry_name. case_bool_decide as Ht; [done|].
  destruct (_ && _ && _) eqn:Hc; [|done]. apply andb_true_iff in Hc as [[Hc Hh]%andb_true_iff Hl]. intros _.
  eapply (chars_all_impl _ (fun c => is_ascii_lowercase c || is_ascii_digit c || char_is CH_UNDERSCORE c ||
    char_is CH_DASH c || char_is CH_DOT c)) in Hc as Hc'; [|done].
  split; [|by apply sanitize_id]. split_and!.
  - intros ->. by apply Ht.
  - by intros ->.
  - by intros ->.
  - by eapply chars_no_slash; [apply name_char_no_slash|].
Qed.

Lemma cached_path_valid (cache : path) (r p v : string) :
  validate_registry_name r = Ok tt -> validate_package_name p = Ok tt -> plain_part v ->
  cached_remote_manifest_path cache r p v = (cache ++ map NormalC [r; p; v; "Sengoo.toml"])%list.
Proof.
  intros [Hr Er]%valid_registry_name [Hp Ep]%valid_package_name Hv. unfold cached_remote_manifest_path.
  rewrite Er, Ep, !join_names by done. unfold join_name, join. simpl.
  destruct (_ ++ [NormalC v])%list eqn:He; [by apply app_nil in He as [_ ?]|]. rewrite <- He.
  by rewrite <- !(assoc_L (++)%list).
Qed.

(** For names that passed the manifest's checks the cached manifest of a
    package lies below the cache directory, and two packages share a place
    only when registry, name and version are the same.  [v] is a version as
    the semver library prints it, a plain name. *)
Theorem cached_paths_disjoint (cache : path) (r p v r' p' v' : string) :
  validate_registry_name r = Ok tt -> validate_package_name p = Ok tt -> plain_part v ->
  validate_registry_name r' = Ok tt -> validate_package_name p' = Ok tt -> plain_part v' ->
  starts_with (cached_remote_manifest_path cache r p v) cache = true /\
  (cached_remote_manifest_path cache r p v = cached_remote_manifest_path cache r' p' v' ->
   r = r' /\ p = p' /\ v = v').
Proof.
  intros Hr Hp Hv Hr' Hp' Hv'. rewrite !cached_path_valid by done. split.
  - apply bool_decide_eq_true_2. by exists (map NormalC [r; p; v; "Sengoo.toml"]).
  - intros Heq%(inj (app cache)). by injection Heq.
Qed.

Lemma cached_paths_disjoint_witness :
  cached_remote_manifest_path [RootDir; NormalC "c"] "default" "alpha" "1.0.0" <>
  cached_remote_manifest_path [RootDir; NormalC "c"] "default" "alpha" "1.0.1".
Proof.
  intros H. destruct (cached_paths_disjoint [RootDir; NormalC "c"] "default" "alpha" "1.0.0" "default" "alpha" "1.0.1")
    as [_ Hi]; [reflexivity|reflexivity|split_and!; [done..|by repeat constructor]|reflexivity|reflexivity|
    split_and!; [done..|by repeat constructor]|].
  destruct (Hi H) as (_ & _ & Hv). discriminate Hv.
Defined.
