(* ===== verification/Resolver.v ===== *)
(** The dependency resolver of the package manager: tools/sgpm/src/resolver.rs.

    [visit] is the depth-first walk over manifests that builds the package
    graph.  What it reads of the file system, and what git and the remote
    registry answer, is the record [World]; versions are the interface
    [Semver].  A [Result] is [result] with an error per cause, without the
    text of the message.  The walk takes fuel for its nesting; [None] is out
    of fuel and ResolverInv shows how much is enough.  Cloning a git
    dependency and downloading from a remote registry are functions of [World]:
    their own control flow is not modelled, the checks that guard the cache
    they fill are. *)

From S2P Require Import Prelude Strs Sorting PkgManifest PkgArchive.
From Stdlib Require Import Ascii String.

#[local] Open Scope string_scope.

(** ** Packages *)

Record RegistryPackageMetadata := mkMetadata {
  md_checksum : option string;
  md_yanked : bool;
  md_yank_reason : option string;
  md_features : list string;
}.

Inductive PackageSource :=
| SourcePath
| SourceGit (url rev : string)
| SourceRegistry (registry version : string) (metadata : RegistryPackageMetadata).

Record PackageNode := mkNode {
  node_id : string;
  node_name : string;
  node_manifest_path : path;
  node_root_dir : path;
  node_entry_path : path;
  node_manifest : Manifest;
  node_source : PackageSource;
}.

Record DependencyEdge := mkEdge { edge_from : string; edge_alias : string; edge_to : string }.

Record LockedRegistryPackage := mkLocked {
  lk_name : string;
  lk_version : string;
  lk_registry : string;
  lk_checksum : option string;
}.

Record LockedRegistryGraph := mkLockedGraph {
  lg_packages : gmap string LockedRegistryPackage;
  lg_dependencies : gmap (string * string) string;
}.

Definition locked_dependency (g : LockedRegistryGraph) (from alias : string) : option LockedRegistryPackage :=
  match lg_dependencies g !! (from, alias) with Some id => lg_packages g !! id | None => None end.

Record ResolveOptions := mkOptions {
  refresh_git : bool;
  allow_yanked : bool;
  locked_registry : option LockedRegistryGraph;
}.

Definition package_identity (name version source_key : string) : string :=
  name +:+ "@" +:+ version +:+ "+" +:+ source_key.

Definition canonical_source_key (base_dir package_root : path) (source : PackageSource) (package_name : string) :
  string :=
  match source with
  | SourcePath => "path:" +:+ canonical_path_source base_dir package_root
  | SourceGit url rev => "git+" +:+ url +:+ "#" +:+ rev
  | SourceRegistry registry version _ => "registry+" +:+ registry +:+ "/" +:+ package_name +:+ "@" +:+ version
  end.

Inductive ResolveError :=
| PathNotFound (p : path)
| ManifestFailed (p : path)
| NoParentDirectory (p : path)
| CyclicDependency (cycle : list path)
| ConflictingSources (name version : string) (existing key : path)
| EntryNotRelative (target : string)
| EntryMissing (target : string)
| EntryOutsideRoot (target : string)
| EntryNotFile (target : string)
| WrongPackageName (expected found : string)
| NoSupportedSource (dep : string)
| InvalidRequirement (dep : string)
| NoRegistry (dep registry : string)
| LockMissing (dep : string)
| LockMismatch (dep : string)
| LockUnsatisfied (dep : string)
| ChecksumMissing (dep : string)
| ChecksumMismatch (dep : string)
| NoMatchingVersion (package : string)
| WrongManifestVersion (package : string)
| InvalidIndexVersion (package version : string)
| YankedPackage (package : string)
| ContentChecksum (e : ChecksumError)
| MetadataFailed (p : path)
| CachedMetadataMismatch (p : path)
| MarkerMissing (p : path)
| ArchiveMarkerMismatch (p : path)
| ContentMarkerMismatch (p : path)
| SourceFailed (dep : string).

(** ** Choosing a version *)

Record RemoteRegistryVersion := mkRemoteVersion {
  rv_version : string;
  rv_checksum : option string;
  rv_yanked : bool;
  rv_yank_reason : option string;
  rv_features : list string;
}.

Section resolver.
Context {V R : Type} `{Semver V R}.

Definition reject_yanked_package (package_name : string) (md : RegistryPackageMetadata) :
  result unit ResolveError :=
  if negb (md_yanked md) then Ok tt else Err (YankedPackage package_name).

(** [candidates.sort_by] on the versions. *)
Definition candidate_leb {A} (x y : V * A) : bool := version_leb x.1 y.1.

(** Trim, drop blanks, sort and remove repetitions. *)
Fixpoint dedup (l : list string) : list string :=
  match l with
  | x :: ((y :: _) as l') => if bool_decide (x = y) then dedup l' else x :: dedup l'
  | _ => l
  end.

Definition normalized_features (features : list string) : list string :=
  dedup (sort_by String.leb (filter (fun f => f <> EmptyString) (map trim features))).

Fixpoint remote_candidates (versions : list RemoteRegistryVersion) (package_name : string) (req : R)
  (allow : bool) : result (list (V * RegistryPackageMetadata)) ResolveError :=
  match versions with
  | [] => Ok []
  | e :: rest =>
      match version_parse (rv_version e) with
      | None => Err (InvalidIndexVersion package_name (rv_version e))
      | Some v =>
          let? more := remote_candidates rest package_name req allow in
          if req_matches req v && (allow || negb (rv_yanked e))
          then Ok ((v, mkMetadata (rv_checksum e) (rv_yanked e) (rv_yank_reason e)
                         (normalized_features (rv_features e))) :: more)
          else Ok more
      end
  end.

Definition select_remote_registry_version_with_policy (versions : list RemoteRegistryVersion)
  (package_name : string) (req : R) (allow : bool) : result (V * RegistryPackageMetadata) ResolveError :=
  let? candidates := remote_candidates versions package_name req allow in
  match last (sort_by candidate_leb candidates) with
  | Some c => Ok c
  | None => Err (NoMatchingVersion package_name)
  end.

Definition select_remote_registry_version (versions : list RemoteRegistryVersion) (package_name : string)
  (req : R) : result (V * RegistryPackageMetadata) ResolveError :=
  select_remote_registry_version_with_policy versions package_name req false.

(** ** The world *)

(** [sgpm-index.toml] and the metadata of a cached package as their parsers
    give them, the digest, and what git and a remote registry hand over. *)
Record World := mkWorld {
  fs : FileSys;
  sha256 : list Z -> string;
  load_manifest : path -> option Manifest;
  parse_index : path -> option (bool * option string * list string);
  parse_cached_metadata : path -> option RegistryPackageMetadata;
  (** a checked-out git dependency: its manifest and revision *)
  git_checkout : path -> path -> Dependency -> string -> bool -> option (path * string);
  (** a package of a remote registry, downloaded and checked *)
  fetch_remote : path -> string -> RegistryConfig -> string -> R -> bool -> option (V * path * RegistryPackageMetadata);
}.

Context (w : World).

Definition canonicalize_existing (p : path) : result path ResolveError :=
  match canonicalize (fs w) p with Some k => Ok k | None => Err (PathNotFound p) end.

Definition load (p : path) : result Manifest ResolveError :=
  match load_manifest w p with Some m => Ok m | None => Err (ManifestFailed p) end.

Definition parent_dir (p : path) : result path ResolveError :=
  match parent p with Some d => Ok d | None => Err (NoParentDirectory p) end.

Definition resolve_manifest_path (p : path) : result path ResolveError :=
  canonicalize_existing (if w_is_dir (fs w) p then join_name p "Sengoo.toml" else p).

Definition resolve_path_dependency_manifest (parent_dir dep_path : path) : result path ResolveError :=
  let joined := if is_absolute dep_path then dep_path else join parent_dir dep_path in
  canonicalize_existing (if w_is_dir (fs w) joined then join_name joined "Sengoo.toml" else joined).

Definition resolve_registry_path (root_dir registry_path : path) : result path ResolveError :=
  canonicalize_existing (if is_absolute registry_path then registry_path else join root_dir registry_path).

Definition validate_package_entry (root_dir : path) (target : string) (relative : path) :
  result unit ResolveError :=
  if is_absolute relative then Err (EntryNotRelative target)
  else
    let entry := join root_dir relative in
    if negb (w_exists (fs w) entry) then Err (EntryMissing target)
    else match canonicalize (fs w) entry with
         | None => Err (PathNotFound entry)
         | Some e =>
             if negb (starts_with e root_dir) then Err (EntryOutsideRoot target)
             else if negb (w_is_file (fs w) e) then Err (EntryNotFile target)
             else Ok tt
         end.

Definition validate_package_entries (root_dir : path) (m : Manifest) : result unit ResolveError :=
  match man_bin m, man_lib m with
  | None, None => validate_package_entry root_dir "[bin]" (entry_path m)
  | b, l =>
      let? _ := match b with Some b => validate_package_entry root_dir "[bin]" (bin_path b) | None => Ok tt end in
      match l with Some l => validate_package_entry root_dir "[lib]" (lib_path l) | None => Ok tt end
  end.

Definition validate_dependency_package_name (dep : Dependency) (manifest_path : path) : result unit ResolveError :=
  let? m := load manifest_path in
  if negb (bool_decide (pkg_name (man_package m) = target_name dep))
  then Err (WrongPackageName (target_name dep) (pkg_name (man_package m))) else Ok tt.

Definition validate_registry_package_manifest (manifest_path : path) (package_name : string) (version : V) :
  result unit ResolveError :=
  let? m := load manifest_path in
  if negb (bool_decide (pkg_name (man_package m) = package_name))
  then Err (WrongPackageName package_name (pkg_name (man_package m)))
  else if negb (bool_decide (pkg_version (man_package m) = version_to_string version))
  then Err (WrongManifestVersion package_name)
  else let? root := parent_dir manifest_path in validate_package_entries root m.

(** *** Metadata and cache validation *)

Definition checksum_ok (r : result string ChecksumError) : result string ResolveError :=
  match r with Ok c => Ok c | Err e => Err (ContentChecksum e) end.

Definition metadata_default : RegistryPackageMetadata := mkMetadata None false None [].

Definition load_local_registry_metadata (dir : path) : result RegistryPackageMetadata ResolveError :=
  let metadata_path := join_name dir "sgpm-index.toml" in
  let? md :=
    if negb (w_exists (fs w) metadata_path) then Ok metadata_default
    else match parse_index w metadata_path with
         | None => Err (MetadataFailed metadata_path)
         | Some (yanked, reason, features) =>
             Ok (mkMetadata None yanked (if nonblank reason then reason else None) (normalized_features features))
         end in
  let? c := checksum_ok (local_package_content_checksum (fs w) (sha256 w) dir) in
  Ok (mkMetadata (Some c) (md_yanked md) (md_yank_reason md) (md_features md)).

Definition load_cached_registry_metadata (package_dir : path) (expected : string) :
  result RegistryPackageMetadata ResolveError :=
  let metadata_path := join_name package_dir REMOTE_REGISTRY_METADATA_FILE in
  if negb (w_is_file (fs w) metadata_path) then Ok (mkMetadata (Some expected) false None [])
  else match parse_cached_metadata w metadata_path with
       | None => Err (MetadataFailed metadata_path)
       | Some md => if negb (bool_decide (md_checksum md = Some expected))
                    then Err (CachedMetadataMismatch metadata_path) else Ok md
       end.

Definition read_marker (p : path) : result string ResolveError :=
  match read_to_string (fs w) p with Some s => Ok (trim s) | None => Err (MarkerMissing p) end.

Definition validate_cached_remote_package (package_dir : path) (package_name : string) (version : V)
  (archive_checksum : option string) : result unit ResolveError :=
  let? _ := validate_registry_package_manifest (join_name package_dir "Sengoo.toml") package_name version in
  let? _ := match archive_checksum with
            | None => Ok tt
            | Some expected =>
                let? marker := read_marker (join_name package_dir REMOTE_ARCHIVE_CHECKSUM_FILE) in
                if negb (bool_decide (marker = expected)) then Err (ArchiveMarkerMismatch package_dir) else Ok tt
            end in
  let? expected_content := read_marker (join_name package_dir REMOTE_CONTENT_CHECKSUM_FILE) in
  let? actual_content := checksum_ok (remote_package_content_checksum (fs w) (sha256 w) package_dir) in
  if negb (bool_decide (expected_content = actual_content)) then Err (ContentMarkerMismatch package_dir) else Ok tt.

(** The directories of a local registry package that are candidates. *)
Fixpoint local_candidates (entries : list (string * path)) (package_name : string) (req : R) (allow : bool) :
  result (list (V * (path * RegistryPackageMetadata))) ResolveError :=
  match entries with
  | [] => Ok []
  | (name, p) :: rest =>
      if negb (w_is_dir (fs w) p) then local_candidates rest package_name req allow
      else match version_parse name with
      | None => local_candidates rest package_name req allow
      | Some v =>
          if negb (req_matches req v) then local_candidates rest package_name req allow
          else
            let? mp := canonicalize_existing (join_name p "Sengoo.toml") in
            let? m := load mp in
            if negb (bool_decide (pkg_name (man_package m) = package_name))
            then Err (WrongPackageName package_name (pkg_name (man_package m)))
            else if negb (bool_decide (pkg_version (man_package m) = version_to_string v))
            then Err (WrongManifestVersion package_name)
            else match load_local_registry_metadata p with
                 | Err e => Err e
                 | Ok md =>
                     let? more := local_candidates rest package_name req allow in
                     if md_yanked md && negb allow then Ok more else Ok ((v, (mp, md)) :: more)
                 end
      end
  end.

Definition select_registry_package_manifest (package_root : path) (package_name : string) (req : R) (allow : bool) :
  result (V * (path * RegistryPackageMetadata)) ResolveError :=
  match read_dir (fs w) package_root with
  | None => Err (PathNotFound package_root)
  | Some entries =>
      let? candidates := local_candidates entries package_name req allow in
      match last (sort_by candidate_leb candidates) with
      | Some c => Ok c
      | None => Err (NoMatchingVersion package_name)
      end
  end.

(** ** The graph builder *)

Record GraphBuilder := mkBuilder {
  visiting : gset path;
  visited : gset path;
  stack : list path;
  nodes : list PackageNode;
  edges : list DependencyEdge;
  package_ids : gmap string path;
}.

(** The fields that do not change during the walk. *)
Record BuilderConfig := mkConfig {
  git_cache_dir : path;
  registry_cache_dir : path;
  root_dir : path;
  registries : list (string * RegistryConfig);
  options : ResolveOptions;
}.

Definition builder_new : GraphBuilder := mkBuilder ∅ ∅ [] [] [] ∅.

Definition config_new (git_cache root : path) (regs : list (string * RegistryConfig)) (opts : ResolveOptions) :
  BuilderConfig :=
  mkConfig git_cache
    (match parent git_cache with Some p => join_name p "registry" | None => join_name git_cache "registry" end)
    root regs opts.

Section walk.
Context (cfg : BuilderConfig).

Definition find_registry (name : string) : option RegistryConfig :=
  match find (fun kv => bool_decide (kv.1 = name)) (registries cfg) with Some kv => Some kv.2 | None => None end.

Definition opt_ok {A} (o : option A) (e : ResolveError) : result A ResolveError :=
  match o with Some a => Ok a | None => Err e end.

Definition resolve_locked_registry_dependency_manifest (dep : Dependency) (registry_name package_name : string)
  (req : R) (config : RegistryConfig) (locked : LockedRegistryPackage) :
  result (path * PackageSource) ResolveError :=
  if negb (bool_decide (lk_name locked = package_name)) || negb (bool_decide (lk_registry locked = registry_name))
  then Err (LockMismatch (dep_name dep))
  else
    let? version := opt_ok (version_parse (lk_version locked)) (LockMismatch (dep_name dep)) in
    if negb (req_matches req version) then Err (LockUnsatisfied (dep_name dep))
    else
      let? (manifest_path, md) :=
        match reg_path config with
        | Some rp =>
            let? registry_root := resolve_registry_path (root_dir cfg) rp in
            let? mp := canonicalize_existing
                         (join_name (join_name (join_name registry_root package_name) (version_to_string version))
                            "Sengoo.toml") in
            let? package_dir := parent_dir mp in
            let? md := load_local_registry_metadata package_dir in
            let? checksum := opt_ok (lk_checksum locked) (ChecksumMissing (dep_name dep)) in
            let? actual := opt_ok (md_checksum md) (ChecksumMissing (dep_name dep)) in
            if negb (bool_decide (actual = checksum)) then Err (ChecksumMismatch (dep_name dep)) else Ok (mp, md)
        | None =>
            let? checksum := opt_ok (lk_checksum locked) (ChecksumMissing (dep_name dep)) in
            let mp := cached_remote_manifest_path (registry_cache_dir cfg) registry_name package_name
                        (version_to_string version) in
            let? package_dir := parent_dir mp in
            let? _ := validate_cached_remote_package package_dir package_name version (Some checksum) in
            let? md := load_cached_registry_metadata package_dir checksum in
            Ok (mp, md)
        end in
      let? _ := validate_registry_package_manifest manifest_path package_name version in
      Ok (manifest_path, SourceRegistry registry_name (version_to_string version) md).

Definition resolve_registry_dependency_manifest (dep : Dependency) (locked : option LockedRegistryPackage) :
  result (path * PackageSource) ResolveError :=
  let? requirement := opt_ok (dep_version_req dep) (NoSupportedSource (dep_name dep)) in
  let? req := opt_ok (req_parse requirement) (InvalidRequirement (dep_name dep)) in
  let registry_name := default "default" (dep_registry dep) in
  let package_name := target_name dep in
  let? config := opt_ok (find_registry registry_name) (NoRegistry (dep_name dep) registry_name) in
  match locked with
  | Some l => resolve_locked_registry_dependency_manifest dep registry_name package_name req config l
  | None =>
      if is_some (locked_registry (options cfg)) then Err (LockMissing (dep_name dep))
      else
        let allow := allow_yanked (options cfg) in
        let? (version, (manifest_path, md)) :=
          match reg_path config with
          | Some rp =>
              let? registry_root := resolve_registry_path (root_dir cfg) rp in
              let? package_root := canonicalize_existing (join_name registry_root package_name) in
              select_registry_package_manifest package_root package_name req allow
          | None =>
              match fetch_remote w (registry_cache_dir cfg) registry_name config package_name req allow with
              | Some (v, p, md) => Ok (v, (p, md))
              | None => Err (SourceFailed (dep_name dep))
              end
          end in
        let? _ := if negb allow then reject_yanked_package package_name md else Ok tt in
        Ok (manifest_path, SourceRegistry registry_name (version_to_string version) md)
  end.

Definition resolve_dependency_manifest (parent_dir : path) (dep : Dependency)
  (locked : option LockedRegistryPackage) : result (path * PackageSource) ResolveError :=
  match dep_path dep with
  | Some p => let? mp := resolve_path_dependency_manifest parent_dir p in Ok (mp, SourcePath)
  | None =>
      match dep_git dep with
      | Some url =>
          match git_checkout w parent_dir (git_cache_dir cfg) dep url (refresh_git (options cfg)) with
          | Some (mp, rev) => Ok (mp, SourceGit url rev)
          | None => Err (SourceFailed (dep_name dep))
          end
      | None => resolve_registry_dependency_manifest dep locked
      end
  end.

Definition package_id_of (m : Manifest) (package_root : path) (source : PackageSource) : string :=
  package_identity (pkg_name (man_package m)) (pkg_version (man_package m))
    (canonical_source_key (root_dir cfg) package_root source (pkg_name (man_package m))).

(** Record the id of a package, or find it taken by another manifest. *)
Definition claim_package_id (m : Manifest) (id : string) (key : path) (b : GraphBuilder) :
  result GraphBuilder ResolveError :=
  match package_ids b !! id with
  | Some existing =>
      if negb (bool_decide (existing = key))
      then Err (ConflictingSources (pkg_name (man_package m)) (pkg_version (man_package m)) existing key)
      else Ok b
  | None => Ok (mkBuilder (visiting b) (visited b) (stack b) (nodes b) (edges b) (<[id := key]> (package_ids b)))
  end.

Definition enter (key : path) (b : GraphBuilder) : GraphBuilder :=
  mkBuilder ({[key]} ∪ visiting b) (visited b) (stack b ++ [key])%list (nodes b) (edges b) (package_ids b).

Definition leave (key : path) (node : PackageNode) (b : GraphBuilder) : GraphBuilder :=
  mkBuilder (visiting b ∖ {[key]}) ({[key]} ∪ visited b) (removelast (stack b)) (nodes b ++ [node])%list
    (edges b) (package_ids b).

Definition add_edge (e : DependencyEdge) (b : GraphBuilder) : GraphBuilder :=
  mkBuilder (visiting b) (visited b) (stack b) (nodes b) (edges b ++ [e])%list (package_ids b).

(** What one entry of [dependencies] resolves to, with its package id. *)
Definition resolve_dep (package_root : path) (package_id : string) (alias : string) (dep : Dependency) :
  result (path * PackageSource * string) ResolveError :=
  let locked := match locked_registry (options cfg) with
                | Some g => locked_dependency g package_id alias | None => None end in
  let? (dep_manifest, dep_source) := resolve_dependency_manifest package_root dep locked in
  let? _ := validate_dependency_package_name dep dep_manifest in
  let? data := load dep_manifest in
  let? dep_root := parent_dir dep_manifest in
  Ok (dep_manifest, dep_source, package_id_of data dep_root dep_source).

Section visit_deps.
Context (visit : path -> PackageSource -> GraphBuilder -> option (result GraphBuilder ResolveError)).

Fixpoint visit_deps (package_root : path) (package_id : string) (deps : list (string * Dependency))
  (b : GraphBuilder) : option (result GraphBuilder ResolveError) :=
  match deps with
  | [] => Some (Ok b)
  | (alias, dep) :: rest =>
      match resolve_dep package_root package_id alias dep with
      | Err e => Some (Err e)
      | Ok (dep_manifest, dep_source, dep_id) =>
          match visit dep_manifest dep_source (add_edge (mkEdge package_id alias dep_id) b) with
          | None => None
          | Some (Err e) => Some (Err e)
          | Some (Ok b') => visit_deps package_root package_id rest b'
          end
      end
  end.
End visit_deps.

(** The checks on a manifest before its dependencies are visited. *)
Definition open_package (key : path) (source : PackageSource) (b : GraphBuilder) :
  result (Manifest * path * string * GraphBuilder) ResolveError :=
  let? m := load key in
  let? root := parent_dir key in
  let id := package_id_of m root source in
  let? b1 := claim_package_id m id key b in
  let? _ := validate_package_entries root m in
  Ok (m, root, id, b1).

Fixpoint visit (fuel : nat) (manifest_path : path) (source : PackageSource) (b : GraphBuilder) :
  option (result GraphBuilder ResolveError) :=
  match fuel with
  | 0 => None
  | S fuel' =>
      match canonicalize_existing manifest_path with
      | Err e => Some (Err e)
      | Ok key =>
          if bool_decide (key ∈ visited b) then Some (Ok b)
          else if bool_decide (key ∈ visiting b) then Some (Err (CyclicDependency (stack b ++ [key])%list))
          else match open_package key source (enter key b) with
          | Err e => Some (Err e)
          | Ok (m, root, id, b1) =>
              match visit_deps (visit fuel') root id (man_dependencies m) b1 with
              | Some (Ok b2) =>
                  let entry := join root (entry_path m) in
                  Some (Ok (leave key (mkNode id (pkg_name (man_package m)) key root entry m source) b2))
              | r => r
              end
          end
      end
  end.

End walk.

(** ** The graph *)

Record Graph := mkGraph {
  g_root : path;
  g_nodes : list PackageNode;
  g_edges : list DependencyEdge;
  g_registries : list (string * RegistryConfig);
}.

Definition root_config (root : path) (registries : list (string * RegistryConfig)) (opts : ResolveOptions) :
  BuilderConfig :=
  config_new (join_name (join_name (join_name root "target") "sgpm") "git") root registries opts.

(** The registries of the root manifest come before the inherited ones. *)
Definition from_root_with_registries (fuel : nat) (manifest_path : path) (opts : ResolveOptions)
  (inherited : list (string * RegistryConfig)) : option (result Graph ResolveError) :=
  match resolve_manifest_path manifest_path with
  | Err e => Some (Err e)
  | Ok root_manifest =>
      match parent_dir root_manifest, load root_manifest with
      | Err e, _ => Some (Err e)
      | _, Err e => Some (Err e)
      | Ok root, Ok m =>
          let registries := (man_registries m ++ inherited)%list in
          match visit (root_config root registries opts) fuel root_manifest SourcePath builder_new with
          | Some (Ok b) => Some (Ok (mkGraph root_manifest (nodes b) (edges b) registries))
          | Some (Err e) => Some (Err e)
          | None => None
          end
      end
  end.

Definition from_root_with_options (fuel : nat) (manifest_path : path) (opts : ResolveOptions) :
  option (result Graph ResolveError) :=
  from_root_with_registries fuel manifest_path opts [].

Definition root_package (g : Graph) : option PackageNode :=
  find (fun n => bool_decide (node_manifest_path n = g_root g)) (g_nodes g).

Definition node_by_id (g : Graph) (id : string) : option PackageNode :=
  find (fun n => bool_decide (node_id n = id)) (g_nodes g).

Definition graph_requires_lockfile_v2 (g : Graph) : bool :=
  existsb (fun e => match node_by_id g (edge_to e) with
                    | Some n => negb (bool_decide (edge_alias e = node_name n)) | None => false end) (g_edges g) ||
  existsb (fun n => (1 <? size (list_to_set (C := gset string)
             (map node_id (filter (fun n' => node_name n' = node_name n) (g_nodes g)))))%nat) (g_nodes g).
End resolver.

Arguments World : clear implicits.
