(* ===== verification/ResolverInv.v ===== *)
(** Correctness of the dependency resolver of Resolver.

    The walk over manifests ends whenever the canonical paths of the file
    system are finitely many ([resolution_terminates]).  A graph it returns
    lists each package once, its dependencies before it and the root last
    ([resolution_topological]); a cycle it reports is a cycle of the
    dependency relation ([reported_cycle_real]).  The version chosen in a
    registry is the greatest that matches ([selected_version_greatest]), and
    the identity of a package given by its path determines the directory
    ([path_source_injective]). *)

From stdpp Require Import sorting.
From S2P Require Import Prelude Strs Sorting PkgManifest PkgArchive Resolver.
From Stdlib Require Import Ascii String.

#[local] Open Scope string_scope.

Section resolver_inv.
Context {V R : Type} `{Semver V R} (w : @World V R) (cfg : BuilderConfig).

(** * What a finished package satisfies *)

(** A package is read from its own manifest, with valid entries. *)
Record node_wf (n : PackageNode) : Prop := {
  wf_load : load w (node_manifest_path n) = Ok (node_manifest n);
  wf_parent : parent_dir (node_manifest_path n) = Ok (node_root_dir n);
  wf_id : node_id n = package_id_of cfg (node_manifest n) (node_root_dir n) (node_source n);
  wf_name : node_name n = pkg_name (man_package (node_manifest n));
  wf_entries : validate_package_entries w (node_root_dir n) (node_manifest n) = Ok tt;
}.

(** One dependency resolves to a manifest among [keys], and its edge is there. *)
Definition dep_ok (root : path) (id : string) (keys : gset path) (es : list DependencyEdge)
  (entry : string * Dependency) : Prop :=
  exists dm src did k, resolve_dep w cfg root id entry.1 entry.2 = Ok (dm, src, did) /\
    canonicalize (fs w) dm = Some k /\ k ∈ keys /\ mkEdge id entry.1 did ∈ es.

Notation keys_of l := (list_to_set (node_manifest_path <$> l) : gset path).

Definition deps_before (es : list DependencyEdge) (earlier : list PackageNode) (n : PackageNode) : Prop :=
  Forall (dep_ok (node_root_dir n) (node_id n) (keys_of earlier) es) (man_dependencies (node_manifest n)).

Inductive topological (es : list DependencyEdge) : list PackageNode -> Prop :=
| topo_nil : topological es []
| topo_snoc l n : topological es l -> deps_before es l n -> topological es (l ++ [n])%list.

Lemma dep_ok_mono (root : path) (id : string) (keys keys' : gset path) (es es' : list DependencyEdge)
  (entry : string * Dependency) :
  keys ⊆ keys' -> es ⊆ es' -> dep_ok root id keys es entry -> dep_ok root id keys' es' entry.
Proof. intros Hk He (dm & src & did & k & ? & ? & ? & ?). exists dm, src, did, k. set_solver. Qed.

Lemma topological_mono (es es' : list DependencyEdge) (l : list PackageNode) :
  es ⊆ es' -> topological es l -> topological es' l.
Proof.
  intros He. induction 1; constructor; [done|]. eapply Forall_impl; [done|].
  intros. by eapply dep_ok_mono.
Qed.

(** * The invariant of the walk *)

Record builder_ok (b : GraphBuilder) : Prop := {
  ok_visited : visited b = keys_of (nodes b);
  ok_nodup : NoDup (node_manifest_path <$> nodes b);
  ok_disjoint : visiting b ## visited b;
  ok_stack : visiting b = list_to_set (stack b);
  ok_nodes : Forall node_wf (nodes b);
  ok_topo : topological (edges b) (nodes b);
  ok_ids : Forall (fun n => package_ids b !! node_id n = Some (node_manifest_path n)) (nodes b);
}.

(** A finished part of the walk: what was there stays. *)
Record extends (b b' : GraphBuilder) : Prop := {
  ext_visiting : visiting b' = visiting b;
  ext_stack : stack b' = stack b;
  ext_visited : visited b ⊆ visited b';
  ext_edges : edges b ⊆ edges b';
  ext_nodes : nodes b `prefix_of` nodes b';
  ext_ids : package_ids b ⊆ package_ids b';
}.

#[local] Instance extends_refl : Reflexive extends.
Proof. by intros b. Qed.

#[local] Instance extends_trans : Transitive extends.
Proof. intros b1 b2 b3 [] []. split; [congruence|congruence|set_solver|set_solver|by etrans|by etrans]. Qed.

Lemma claim_ok (m : Manifest) (id : string) (key : path) (b b' : GraphBuilder) :
  claim_package_id m id key b = Ok b' ->
  package_ids b' !! id = Some key /\ package_ids b ⊆ package_ids b' /\
  visiting b' = visiting b /\ visited b' = visited b /\ stack b' = stack b /\ nodes b' = nodes b /\ edges b' = edges b.
Proof.
  unfold claim_package_id. destruct (package_ids b !! id) as [e|] eqn:Hid.
  - destruct (negb _) eqn:Hn; [done|]. intros [= <-].
    apply negb_false_iff, bool_decide_eq_true in Hn. subst. by split_and!.
  - intros [= <-]. simpl. split_and!; try done; [by rewrite lookup_insert_eq|by apply insert_subseteq].
Qed.

Lemma ids_mono (ids ids' : gmap string path) (l : list PackageNode) :
  ids ⊆ ids' -> Forall (fun n => ids !! node_id n = Some (node_manifest_path n)) l ->
  Forall (fun n => ids' !! node_id n = Some (node_manifest_path n)) l.
Proof. intros Hs Hl. eapply Forall_impl; [exact Hl|]. intros n Hn. cbv beta in *. by eapply lookup_weaken. Qed.

(** ** Opening a package *)

Lemma open_package_ok (key : path) (src : PackageSource) (b b1 : GraphBuilder) (m : Manifest) (root : path)
  (id : string) :
  open_package w cfg key src b = Ok (m, root, id, b1) ->
  load w key = Ok m /\ parent_dir key = Ok root /\ id = package_id_of cfg m root src /\
  validate_package_entries w root m = Ok tt /\ claim_package_id m id key b = Ok b1.
Proof.
  unfold open_package. destruct (load w key) as [m'|]; [|done]. destruct (parent_dir key) as [root'|]; [|done].
  destruct (claim_package_id _ _ key b) as [b1'|] eqn:Hc; [|done].
  destruct (validate_package_entries w root' m') as [[]|] eqn:Hv; [|done]. intros. by simplify_eq.
Qed.

Lemma enter_builder_ok (key : path) (b : GraphBuilder) :
  builder_ok b -> key ∉ visited b -> builder_ok (enter key b).
Proof. intros [] Hk. split; simpl; try done; [set_solver|]. rewrite ok_stack0. set_solver. Qed.

Lemma claim_builder_ok (m : Manifest) (id : string) (key : path) (b b' : GraphBuilder) :
  claim_package_id m id key b = Ok b' -> builder_ok b -> builder_ok b'.
Proof.
  intros (Hid & Hsub & E1 & E2 & E3 & E4 & E5)%claim_ok []. split; rewrite ?E1, ?E2, ?E3, ?E4, ?E5; try done.
  by eapply ids_mono.
Qed.

Lemma add_edge_ok (e : DependencyEdge) (b : GraphBuilder) :
  builder_ok b -> builder_ok (add_edge e b) /\ extends b (add_edge e b).
Proof.
  intros []. split; split; simpl; try done; [|set_solver].
  eapply topological_mono; [|done]. set_solver.
Qed.

Lemma enter_leave (k : path) (X : gset path) : k ∉ X -> ({[k]} ∪ X) ∖ {[k]} = X.
Proof. set_solver. Qed.

Lemma leave_ok (key : path) (src : PackageSource) (m : Manifest) (root : path) (entry : path) (b b1 b2 : GraphBuilder) :
  builder_ok b -> builder_ok b2 -> key ∉ visited b -> key ∉ visiting b ->
  let id := package_id_of cfg m root src in
  let n := mkNode id (pkg_name (man_package m)) key root entry m src in
  extends b1 b2 -> visiting b1 = visiting (enter key b) -> stack b1 = stack (enter key b) ->
  visited b1 = visited b -> edges b1 = edges b -> nodes b1 = nodes b -> package_ids b ⊆ package_ids b1 ->
  package_ids b1 !! id = Some key -> node_wf n ->
  Forall (dep_ok root id (visited b2) (edges b2)) (man_dependencies m) ->
  builder_ok (leave key n b2) /\ extends b (leave key n b2).
Proof.
  intros Hb Hb2 Hnv Hnv' id n [] E1 E2 E3 E4 E5 E6 Hid Hn Hdeps.
  assert (Hnv2 : key ∉ visited b2).
  { pose proof (ok_disjoint _ Hb2) as Hd. rewrite ext_visiting0, E1 in Hd. simpl in Hd. set_solver. }
  destruct Hb2, Hb. simpl in *. split; split; simpl.
  - rewrite ok_visited0, fmap_app, list_to_set_app_L. simpl. by rewrite union_empty_r_L, (comm_L (∪)).
  - rewrite fmap_app. apply NoDup_app. split_and!; [done| |apply NoDup_singleton].
    intros k Hk. simpl. rewrite list_elem_of_singleton. intros ->. apply Hnv2. rewrite ok_visited0. set_solver.
  - set_solver.
  - rewrite ext_visiting0, E1, ext_stack0, E2, removelast_app by done. simpl. rewrite app_nil_r, ok_stack1.
    rewrite ok_stack1 in Hnv'. by apply enter_leave.
  - apply Forall_app. split; [done|by apply Forall_singleton].
  - constructor; [done|]. unfold deps_before. simpl. by rewrite <- ok_visited0.
  - apply Forall_app. split; [done|]. apply Forall_singleton. simpl. by eapply lookup_weaken.
  - rewrite ext_visiting0, E1. by apply enter_leave.
  - rewrite ext_stack0, E2, removelast_app by done. simpl. by rewrite app_nil_r.
  - rewrite <- E3. etrans; [done|]. apply union_subseteq_r.
  - by rewrite <- E4.
  - rewrite E5 in ext_nodes0. by apply prefix_app_r.
  - by etrans.
Qed.

(** ** The walk *)

Definition visit_spec (f : path -> PackageSource -> GraphBuilder -> option (result GraphBuilder ResolveError)) : Prop :=
  forall p src b b', builder_ok b -> f p src b = Some (Ok b') ->
    exists k, canonicalize (fs w) p = Some k /\ builder_ok b' /\ extends b b' /\ k ∈ visited b' /\
      (k ∉ visited b -> exists n l, nodes b' = (l ++ [n])%list /\ node_manifest_path n = k).

Lemma visit_deps_ok f (root : path) (id : string) (deps : list (string * Dependency)) (b b' : GraphBuilder) :
  visit_spec f -> builder_ok b -> visit_deps w cfg f root id deps b = Some (Ok b') ->
  builder_ok b' /\ extends b b' /\ Forall (dep_ok root id (visited b') (edges b')) deps.
Proof.
  intros Hf. revert b. induction deps as [|[alias dep] deps IH]; intros b Hb Hv; simpl in Hv.
  { simplify_eq. by split_and!. }
  destruct (resolve_dep w cfg root id alias dep) as [[[dm src] did]|] eqn:Hr; [|done].
  set (e := mkEdge id alias did) in *. destruct (add_edge_ok e b Hb) as [He Hx].
  destruct (f dm src (add_edge e b)) as [[b1|]|] eqn:Hf1; [|done|done].
  destruct (Hf _ _ _ _ He Hf1) as (k & Hk & Hb1 & Hx1 & Hin & _).
  destruct (IH _ Hb1 Hv) as (Hb' & Hx' & Hds). split_and!; [done|by etrans; [|etrans]|].
  constructor; [|done]. exists dm, src, did, k. split_and!; [done|done| |].
  - by apply (ext_visited _ _ Hx').
  - apply (ext_edges _ _ Hx'), (ext_edges _ _ Hx1). simpl. set_solver.
Qed.

Lemma visit_ok (fuel : nat) : visit_spec (visit w cfg fuel).
Proof.
  induction fuel as [|fuel IH]; intros p src b b' Hb Hv; [done|]. simpl in Hv. unfold canonicalize_existing in Hv.
  destruct (canonicalize (fs w) p) as [key|] eqn:Hk; [|done]. exists key.
  case_bool_decide as Hvd; [by simplify_eq; split_and!|]. case_bool_decide as Hvg; [done|].
  destruct (open_package w cfg key src (enter key b)) as [[[[m root] id] b1]|] eqn:Ho; [|done].
  apply open_package_ok in Ho as (Hl & Hp & -> & Hve & Hc).
  destruct (visit_deps w cfg (visit w cfg fuel) root _ _ b1) as [[b2|]|] eqn:Hd; [|done|done]. simplify_eq.
  pose proof (claim_builder_ok _ _ _ _ _ Hc (enter_builder_ok _ _ Hb Hvd)) as Hb1.
  apply claim_ok in Hc as (Hid & Hsub & E1 & E2 & E3 & E4 & E5).
  destruct (visit_deps_ok _ _ _ _ _ _ IH Hb1 Hd) as (Hb2 & Hx & Hds).
  destruct (leave_ok key src m root (join root (entry_path m)) b b1 b2) as [Hb' Hx']; try done.
  split_and!; [done|done|done|set_solver|]. intros _. eexists _, _. split; [reflexivity|done].
Qed.

(** * Termination *)

Section termination.
Context (K : gset path) (HK : forall p k, canonicalize (fs w) p = Some k -> k ∈ K).

Definition total_at (n : nat)
  (f : path -> PackageSource -> GraphBuilder -> option (result GraphBuilder ResolveError)) : Prop :=
  forall p src b, builder_ok b -> size (K ∖ visiting b) < n -> f p src b <> None.

Lemma visit_deps_total (n : nat) f (root : path) (id : string) (deps : list (string * Dependency)) (b : GraphBuilder) :
  visit_spec f -> total_at n f -> builder_ok b -> size (K ∖ visiting b) < n ->
  visit_deps w cfg f root id deps b <> None.
Proof.
  intros Hf Ht. revert b. induction deps as [|[alias dep] deps IH]; intros b Hb Hn; simpl; [done|].
  destruct (resolve_dep w cfg root id alias dep) as [[[dm src] did]|]; [|done].
  set (e := mkEdge id alias did) in *. destruct (add_edge_ok e b Hb) as [He Hx].
  destruct (f dm src (add_edge e b)) as [[b1|]|] eqn:Hf1; [|done|by eapply Ht in Hf1].
  destruct (Hf _ _ _ _ He Hf1) as (k & _ & Hb1 & Hx1 & _). apply IH; [done|].
  by rewrite (ext_visiting _ _ Hx1).
Qed.

Lemma visit_total (fuel : nat) : total_at fuel (visit w cfg fuel).
Proof.
  induction fuel as [|fuel IH]; intros p src b Hb Hn; [lia|]. simpl. unfold canonicalize_existing.
  destruct (canonicalize (fs w) p) as [key|] eqn:Hk; [|done].
  case_bool_decide as Hvd; [done|]. case_bool_decide as Hvg; [done|].
  destruct (open_package w cfg key src (enter key b)) as [[[[m root] id] b1]|] eqn:Ho; [|done].
  apply open_package_ok in Ho as (_ & _ & -> & _ & Hc).
  pose proof (claim_builder_ok _ _ _ _ _ Hc (enter_builder_ok _ _ Hb Hvd)) as Hb1.
  apply claim_ok in Hc as (_ & _ & E1 & _).
  destruct (visit_deps w cfg (visit w cfg fuel) root _ _ b1) as [[b2|]|] eqn:Hd; [done|done|].
  exfalso. revert Hd. apply (visit_deps_total fuel); [apply visit_ok|done|done|].
  rewrite E1. simpl. apply Nat.lt_le_trans with (size (K ∖ visiting b)); [|lia].
  apply subset_size. specialize (HK _ _ Hk). set_solver.
Qed.
End termination.

(** * Cycles *)

(** The manifest [k] has a dependency that resolves to the manifest [k'], for
    some source the package may have been reached from. *)
Definition dep_step (k k' : path) : Prop :=
  exists src m root alias dep dm dsrc did,
    load w k = Ok m /\ parent_dir k = Ok root /\ (alias, dep) ∈ man_dependencies m /\
    resolve_dep w cfg root (package_id_of cfg m root src) alias dep = Ok (dm, dsrc, did) /\
    canonicalize (fs w) dm = Some k'.

Fixpoint chain (l : list path) : Prop :=
  match l with
  | x :: ((y :: _) as l') => dep_step x y /\ chain l'
  | _ => True
  end.

Definition real_cycle (c : list path) : Prop :=
  chain c /\ exists before k mid, c = (before ++ k :: mid ++ [k])%list.

Lemma chain_snoc (l : list path) (x y : path) :
  chain (l ++ [x])%list -> dep_step x y -> chain ((l ++ [x]) ++ [y])%list.
Proof.
  induction l as [|z l IH]; simpl; [by repeat split|].
  destruct l as [|z' l]; simpl in *; naive_solver.
Qed.

(** *** Other errors are not cycles *)

Definition no_cycle {A} (r : result A ResolveError) : Prop := forall c, r <> Err (CyclicDependency c).

Lemma no_cycle_ok {A} (a : A) : no_cycle (Ok a).
Proof. done. Qed.

Lemma no_cycle_bind {A B} (r : result A ResolveError) (f : A -> result B ResolveError) :
  no_cycle r -> (forall a, no_cycle (f a)) -> no_cycle (let? x := r in f x).
Proof. intros Hr Hf. destruct r; [apply Hf|]. intros c [= ->]. by apply (Hr c). Qed.

Lemma no_cycle_opt {A} (o : option A) (e : ResolveError) :
  no_cycle (Err (A := A) e) -> no_cycle (opt_ok o e).
Proof. by destruct o. Qed.

Create HintDb no_cycle.

Ltac no_cycle :=
  repeat first
    [ progress intros
    | done
    | assumption
    | apply no_cycle_opt
    | solve [auto with no_cycle]
    | match goal with |- no_cycle (match ?r with Ok _ => _ | Err _ => Err _ end) => apply (no_cycle_bind r) end
    | match goal with |- no_cycle (match ?r with _ => _ end) => destruct r end ].

Lemma no_cycle_canonicalize_existing (p : path) : no_cycle (canonicalize_existing w p).
Proof. unfold canonicalize_existing. no_cycle. Qed.
#[local] Hint Resolve no_cycle_canonicalize_existing : no_cycle.

Lemma no_cycle_load (p : path) : no_cycle (load w p).
Proof. unfold load. no_cycle. Qed.
#[local] Hint Resolve no_cycle_load : no_cycle.

Lemma no_cycle_parent_dir (p : path) : no_cycle (parent_dir p).
Proof. unfold parent_dir. no_cycle. Qed.
#[local] Hint Resolve no_cycle_parent_dir : no_cycle.

Lemma no_cycle_resolve_path_dependency_manifest (p q : path) : no_cycle (resolve_path_dependency_manifest w p q).
Proof. unfold resolve_path_dependency_manifest. no_cycle. Qed.
#[local] Hint Resolve no_cycle_resolve_path_dependency_manifest : no_cycle.

Lemma no_cycle_resolve_registry_path (p q : path) : no_cycle (resolve_registry_path w p q).
Proof. unfold resolve_registry_path. no_cycle. Qed.
#[local] Hint Resolve no_cycle_resolve_registry_path : no_cycle.

Lemma no_cycle_validate_package_entry (root rel : path) (target : string) : no_cycle (validate_package_entry w root target rel).
Proof. unfold validate_package_entry. no_cycle. Qed.
#[local] Hint Resolve no_cycle_validate_package_entry : no_cycle.

Lemma no_cycle_validate_package_entries (root : path) (m : Manifest) : no_cycle (validate_package_entries w root m).
Proof. unfold validate_package_entries. no_cycle. Qed.
#[local] Hint Resolve no_cycle_validate_package_entries : no_cycle.

Lemma no_cycle_validate_dependency_package_name (dep : Dependency) (p : path) : no_cycle (validate_dependency_package_name w dep p).
Proof. unfold validate_dependency_package_name. no_cycle. Qed.
#[local] Hint Resolve no_cycle_validate_dependency_package_name : no_cycle.

Lemma no_cycle_validate_registry_package_manifest (p : path) (name : string) (v : V) : no_cycle (validate_registry_package_manifest w p name v).
Proof. unfold validate_registry_package_manifest. no_cycle. Qed.
#[local] Hint Resolve no_cycle_validate_registry_package_manifest : no_cycle.

Lemma no_cycle_checksum_ok (r : result string ChecksumError) : no_cycle (checksum_ok r).
Proof. unfold checksum_ok. no_cycle. Qed.
#[local] Hint Resolve no_cycle_checksum_ok : no_cycle.

Lemma no_cycle_load_local_registry_metadata (p : path) : no_cycle (load_local_registry_metadata w p).
Proof. unfold load_local_registry_metadata. no_cycle. Qed.
#[local] Hint Resolve no_cycle_load_local_registry_metadata : no_cycle.

Lemma no_cycle_load_cached_registry_metadata (p : path) (c : string) : no_cycle (load_cached_registry_metadata w p c).
Proof. unfold load_cached_registry_metadata. no_cycle. Qed.
#[local] Hint Resolve no_cycle_load_cached_registry_metadata : no_cycle.

Lemma no_cycle_read_marker (p : path) : no_cycle (read_marker w p).
Proof. unfold read_marker. no_cycle. Qed.
#[local] Hint Resolve no_cycle_read_marker : no_cycle.

Lemma no_cycle_validate_cached_remote_package (p : path) (name : string) (v : V) (c : option string) : no_cycle (validate_cached_remote_package w p name v c).
Proof. unfold validate_cached_remote_package. no_cycle. Qed.
#[local] Hint Resolve no_cycle_validate_cached_remote_package : no_cycle.

Lemma no_cycle_reject_yanked_package (name : string) (md : RegistryPackageMetadata) : no_cycle (reject_yanked_package name md).
Proof. unfold reject_yanked_package. no_cycle. Qed.
#[local] Hint Resolve no_cycle_reject_yanked_package : no_cycle.

Lemma no_cycle_local_candidates (l : list (string * path)) (name : string) (req : R) (allow : bool) :
  no_cycle (local_candidates w l name req allow).
Proof. induction l as [|[x p] l IH]; simpl; no_cycle. Qed.
#[local] Hint Resolve no_cycle_local_candidates : no_cycle.

Lemma no_cycle_select (p : path) (name : string) (req : R) (allow : bool) :
  no_cycle (select_registry_package_manifest w p name req allow).
Proof. unfold select_registry_package_manifest. no_cycle. Qed.
#[local] Hint Resolve no_cycle_select : no_cycle.

Lemma no_cycle_locked (dep : Dependency) (rn pn : string) (req : R) (rc : RegistryConfig) (l : LockedRegistryPackage) :
  no_cycle (resolve_locked_registry_dependency_manifest w cfg dep rn pn req rc l).
Proof. unfold resolve_locked_registry_dependency_manifest. no_cycle. Qed.
#[local] Hint Resolve no_cycle_locked : no_cycle.

Lemma no_cycle_registry (dep : Dependency) (l : option LockedRegistryPackage) :
  no_cycle (resolve_registry_dependency_manifest w cfg dep l).
Proof. unfold resolve_registry_dependency_manifest. no_cycle. Qed.
#[local] Hint Resolve no_cycle_registry : no_cycle.

Lemma no_cycle_resolve_dep (root : path) (id alias : string) (dep : Dependency) :
  no_cycle (resolve_dep w cfg root id alias dep).
Proof. unfold resolve_dep, resolve_dependency_manifest. no_cycle. Qed.

Lemma no_cycle_open (key : path) (src : PackageSource) (b : GraphBuilder) :
  no_cycle (open_package w cfg key src b).
Proof. unfold open_package, claim_package_id. no_cycle. Qed.

(** *** The cycle that is reported *)

Definition cycle_spec (f : path -> PackageSource -> GraphBuilder -> option (result GraphBuilder ResolveError)) : Prop :=
  forall p src b c, builder_ok b ->
    (forall k, canonicalize (fs w) p = Some k -> chain (stack b ++ [k])%list) ->
    f p src b = Some (Err (CyclicDependency c)) -> real_cycle c.

Lemma visit_deps_cycle f (root : path) (id : string) (deps : list (string * Dependency)) (b : GraphBuilder)
  (c : list path) :
  visit_spec f -> cycle_spec f -> builder_ok b ->
  (forall alias dep dm src did k, (alias, dep) ∈ deps -> resolve_dep w cfg root id alias dep = Ok (dm, src, did) ->
     canonicalize (fs w) dm = Some k -> chain (stack b ++ [k])%list) ->
  visit_deps w cfg f root id deps b = Some (Err (CyclicDependency c)) -> real_cycle c.
Proof.
  intros Hf Hc. revert b. induction deps as [|[alias dep] deps IH]; intros b Hb Hds Hv; simpl in Hv; [done|].
  destruct (resolve_dep w cfg root id alias dep) as [[[dm src] did]|] eqn:Hr.
  2: { simplify_eq. by apply no_cycle_resolve_dep in Hr. }
  set (e := mkEdge id alias did) in *. destruct (add_edge_ok e b Hb) as [He Hx].
  destruct (f dm src (add_edge e b)) as [[b1|]|] eqn:Hf1; [| |done].
  - destruct (Hf _ _ _ _ He Hf1) as (k & _ & Hb1 & Hx1 & _). eapply IH; [exact Hb1| |exact Hv].
    intros. rewrite (ext_stack _ _ Hx1). simpl. eapply Hds; [by right|done|done].
  - simplify_eq. eapply Hc; [exact He| |exact Hf1]. intros k Hk. simpl. eapply Hds; [by left|done|done].
Qed.

Lemma visit_cycle (fuel : nat) : cycle_spec (visit w cfg fuel).
Proof.
  induction fuel as [|fuel IH]; intros p src b c Hb Hch Hv; [done|]. simpl in Hv. unfold canonicalize_existing in Hv.
  destruct (canonicalize (fs w) p) as [key|] eqn:Hk; [|done]. specialize (Hch key eq_refl).
  case_bool_decide as Hvd; [done|]. case_bool_decide as Hvg.
  { simplify_eq. split; [done|]. rewrite (ok_stack _ Hb), elem_of_list_to_set in Hvg.
    apply list_elem_of_split in Hvg as (l1 & l2 & ->). exists l1, key, l2. by rewrite <- (assoc_L (++)%list). }
  destruct (open_package w cfg key src (enter key b)) as [[[[m root] id] b1]|] eqn:Ho.
  2: { simplify_eq. by apply no_cycle_open in Ho. }
  apply open_package_ok in Ho as (Hl & Hp & -> & Hve & Hc).
  pose proof (claim_builder_ok _ _ _ _ _ Hc (enter_builder_ok _ _ Hb Hvd)) as Hb1.
  apply claim_ok in Hc as (_ & _ & _ & _ & E3 & _).
  destruct (visit_deps w cfg (visit w cfg fuel) root _ _ b1) as [[b2|]|] eqn:Hd; [done| |done]. simplify_eq.
  eapply (visit_deps_cycle _ _ _ _ _ _ (visit_ok fuel) IH Hb1); [|exact Hd].
  intros alias dep dm dsrc did k Hin Hr Hck. rewrite E3. simpl. apply chain_snoc; [done|].
  by exists src, m, root, alias, dep, dm, dsrc, did.
Qed.
End resolver_inv.

(** * Theorems on whole resolutions *)

Lemma builder_new_ok {V R : Type} `{Semver V R} (w : @World V R) (cfg : BuilderConfig) : builder_ok w cfg builder_new.
Proof. split; simpl; try constructor; set_solver. Qed.

Lemma find_snoc_unique {A} (f : A -> bool) (l : list A) (x : A) :
  Forall (fun y => f y = false) l -> f x = true -> find f (l ++ [x])%list = Some x.
Proof. induction 1 as [|y l Hy Hl IH]; intros Hx; simpl; [by rewrite Hx|]. rewrite Hy. auto. Qed.

(** C37: resolution always ends: when the canonical paths of the file system are
    a finite set [K], nesting deeper than the size of [K] never happens and the
    walk returns a graph or an error. *)
Theorem resolution_terminates {V R : Type} `{Semver V R} (w : @World V R) (K : gset path) (fuel : nat) (mp : path)
  (opts : ResolveOptions) (inherited : list (string * RegistryConfig)) :
  (forall p k, canonicalize (fs w) p = Some k -> k ∈ K) -> size K < fuel ->
  from_root_with_registries w fuel mp opts inherited <> None.
Proof.
  intros HK Hf. unfold from_root_with_registries. destruct (resolve_manifest_path w mp) as [rm|]; [|done].
  destruct (parent_dir rm) as [root|]; [|done]. destruct (load w rm) as [m|]; [|done].
  destruct (visit w _ fuel rm SourcePath builder_new) as [[b|]|] eqn:Hv; [done|done|].
  exfalso. revert Hv. apply (visit_total w _ K HK); [apply builder_new_ok|].
  simpl. by rewrite difference_empty_L.
Qed.

(** C16: a resolved graph is in dependency order.  No manifest and no package id
    occurs twice, the root package is the last one and the one [root_package]
    finds, each package was read from its own manifest with valid entries, and
    each of its dependencies resolves to a package earlier in the list, with an
    edge for it.  So the dependencies of a resolved graph have no cycle.
    [canonicalize] gives canonical paths, which are their own. *)
Theorem resolution_topological {V R : Type} `{Semver V R} (w : @World V R) (fuel : nat) (mp : path)
  (opts : ResolveOptions) (inherited : list (string * RegistryConfig)) (g : Graph) :
  (forall p k, canonicalize (fs w) p = Some k -> canonicalize (fs w) k = Some k) ->
  from_root_with_registries w fuel mp opts inherited = Some (Ok g) ->
  exists root n l, let cfg := root_config root (g_registries g) opts in
    parent_dir (g_root g) = Ok root /\
    g_nodes g = (l ++ [n])%list /\ root_package g = Some n /\
    NoDup (node_manifest_path <$> g_nodes g) /\ NoDup (node_id <$> g_nodes g) /\
    Forall (node_wf w cfg) (g_nodes g) /\ topological w cfg (g_edges g) (g_nodes g).
Proof.
  intros Hcan. unfold from_root_with_registries, resolve_manifest_path, canonicalize_existing.
  destruct (canonicalize (fs w) _) as [rm|] eqn:Hrm; [|done]. apply Hcan in Hrm.
  destruct (parent_dir rm) as [root|] eqn:Hroot; [|done]. destruct (load w rm) as [m|]; [|done].
  destruct (visit w _ fuel rm SourcePath builder_new) as [[b|]|] eqn:Hv; [|done|done]. intros [= <-].
  destruct (visit_ok w _ fuel _ _ _ _ (builder_new_ok w _) Hv) as (k & Hk & Hb & _ & _ & Hlast). simplify_eq.
  destruct Hlast as (n & l & Hn & Hnk); [simpl; set_solver|]. exists root, n, l. destruct Hb as [_ Hnd _ _ Hwf Htopo Hids]. simpl.
  split_and!; try done.
  - unfold root_package. simpl. rewrite Hn. apply find_snoc_unique; [|by apply bool_decide_eq_true].
    rewrite Hn, fmap_app in Hnd. apply NoDup_app in Hnd as (_ & Hd & _). apply Forall_forall. intros n' Hn'.
    apply bool_decide_eq_false. intros He. apply (Hd (node_manifest_path n')); [by apply list_elem_of_fmap_2|].
    simpl. rewrite He, Hnk. by left.
  - apply (NoDup_fmap_2_strong node_id); [|by eapply NoDup_fmap_1].
    intros x y Hx Hy Hxy. rewrite Forall_forall in Hids. pose proof (Hids x Hx). pose proof (Hids y Hy).
    assert (Hp : node_manifest_path x = node_manifest_path y) by congruence.
    apply list_elem_of_lookup in Hx as (i & Hi), Hy as (j & Hj).
    assert (i = j) as ->; [|by simplify_eq].
    eapply (NoDup_lookup (node_manifest_path <$> nodes b)); [done| |]; rewrite list_lookup_fmap;
      [by rewrite Hi|by rewrite Hj, Hp].
Qed.

(** C39: when resolution fails with a cycle, the list of manifests it reports is
    one: each has a dependency that resolves to the next, and the last occurs
    before. *)
Theorem reported_cycle_real {V R : Type} `{Semver V R} (w : @World V R) (fuel : nat) (mp : path)
  (opts : ResolveOptions) (inherited : list (string * RegistryConfig)) (c : list path) :
  from_root_with_registries w fuel mp opts inherited = Some (Err (CyclicDependency c)) ->
  exists root registries, real_cycle w (root_config root registries opts) c.
Proof.
  unfold from_root_with_registries. destruct (resolve_manifest_path w mp) as [rm|] eqn:Hm.
  2: { intros [= ->]. unfold resolve_manifest_path in Hm. by apply no_cycle_canonicalize_existing in Hm. }
  destruct (parent_dir rm) as [root|] eqn:Hp; [|intros [= ->]; by apply no_cycle_parent_dir in Hp].
  destruct (load w rm) as [m|] eqn:Hl; [|intros [= ->]; by apply no_cycle_load in Hl].
  destruct (visit w _ fuel rm SourcePath builder_new) as [[b|]|] eqn:Hv; [done| |done]. intros [= ->].
  eexists _, _. eapply visit_cycle; [apply builder_new_ok| |exact Hv]. by intros k _.
Qed.

(** * Versions *)

(** What is relied on of the order of versions. *)
Class SemverLaws (V R : Type) `{Semver V R} : Prop := {
  version_total : forall a b : V, version_leb a b \/ version_leb b a;
  version_trans : forall a b c : V, version_leb a b -> version_leb b c -> version_leb a c;
}.

Section versions.
Context {V R : Type} `{SemverLaws V R}.

Definition eligible (req : R) (allow : bool) (e : RemoteRegistryVersion) (v : V) : Prop :=
  version_parse (rv_version e) = Some v /\ req_matches req v = true /\ (allow = true \/ rv_yanked e = false).

Definition metadata_of (e : RemoteRegistryVersion) : RegistryPackageMetadata :=
  mkMetadata (rv_checksum e) (rv_yanked e) (rv_yank_reason e) (normalized_features (rv_features e)).

Lemma remote_candidates_spec (versions : list RemoteRegistryVersion) (name : string) (req : R) (allow : bool)
  (l : list (V * RegistryPackageMetadata)) :
  remote_candidates versions name req allow = Ok l ->
  forall v md, (v, md) ∈ l <-> exists e, e ∈ versions /\ eligible req allow e v /\ md = metadata_of e.
Proof.
  revert l. induction versions as [|e rest IH]; intros l Hr v md; simpl in Hr.
  { simplify_eq. set_solver. }
  destruct (version_parse (rv_version e)) as [u|] eqn:Hp; [|done].
  destruct (remote_candidates rest name req allow) as [more|]; [|done]. specialize (IH _ eq_refl v md).
  setoid_rewrite elem_of_cons. destruct (req_matches req u && (allow || negb (rv_yanked e))) eqn:Hc; simplify_eq.
  - apply andb_true_iff in Hc as [Hm Ha]. apply orb_true_iff in Ha. rewrite negb_true_iff in Ha.
    rewrite elem_of_cons, IH. split.
    + intros [Heq|(e' & ?)]; [|naive_solver]. simplify_eq. exists e. split; [by left|]. done.
    + intros (e' & [->|Hin] & Hel & ->); [left|right; by exists e'].
      destruct Hel as [Hp' _]. rewrite Hp in Hp'. by simplify_eq.
  - rewrite IH. split; [naive_solver|]. intros (e' & [->|Hin] & Hel & ->); [|by exists e'].
    exfalso. destruct Hel as (Hp' & Hm & Ha).
    rewrite Hp in Hp'. simplify_eq. rewrite Hm in Hc. simpl in Hc. apply orb_false_iff in Hc as [-> Hy].
    apply negb_false_iff in Hy. destruct Ha; congruence.
Qed.

Lemma candidate_leb_total {A} (x y : V * A) : candidate_leb x y \/ candidate_leb y x.
Proof. apply version_total. Qed.

Lemma candidate_leb_trans {A} (x y z : V * A) : candidate_leb x y -> candidate_leb y z -> candidate_leb x z.
Proof. apply version_trans. Qed.

(** The version chosen in a remote registry is one of its entries that
    matches the requirement and is not yanked (unless yanked ones are allowed),
    with that entry's metadata, and no eligible entry is greater; when it
    reports that no version matches there is no eligible entry. *)
Theorem selected_version_greatest (versions : list RemoteRegistryVersion) (name : string) (req : R) (allow : bool) :
  match select_remote_registry_version_with_policy versions name req allow with
  | Ok (v, md) =>
      (exists e, e ∈ versions /\ eligible req allow e v /\ md = metadata_of e) /\
      forall e v', e ∈ versions -> eligible req allow e v' -> version_leb v' v
  | Err (NoMatchingVersion _) => forall e v, e ∈ versions -> ~ eligible req allow e v
  | Err _ => exists e, e ∈ versions /\ @version_parse V R _ (rv_version e) = None
  end.
Proof.
  unfold select_remote_registry_version_with_policy.
  destruct (remote_candidates versions name req allow) as [l|err] eqn:Hr.
  - pose proof (remote_candidates_spec _ _ _ _ _ Hr) as Hs.
    destruct (last (sort_by candidate_leb l)) as [[v md]|] eqn:Hl.
    + destruct (last_sort_by_max _ candidate_leb_total candidate_leb_trans _ _ Hl) as [Hin Hmax].
      split; [by apply Hs|]. intros e v' He Hel. apply (Hmax (v', metadata_of e)), Hs. eauto.
    + intros e v He Hel. assert (Hin : (v, metadata_of e) ∈ l) by (apply Hs; eauto).
      apply last_None in Hl. rewrite <- (sort_by_perm candidate_leb l), Hl in Hin. set_solver.
  - assert (exists e, e ∈ versions /\ @version_parse V R _ (rv_version e) = None /\
              err = InvalidIndexVersion name (rv_version e)) as (e & He & Hp & ->); [|eauto].
    clear -Hr. induction versions as [|e rest IH]; simpl in Hr; [done|].
    destruct (version_parse (rv_version e)) eqn:Hp; [|exists e; split_and!; [by left|done|congruence]].
    destruct (remote_candidates rest name req allow) eqn:Hr'; [by destruct (_ && _)|].
    destruct IH as (e' & ? & ? & ?); [congruence|]. exists e'. by split_and!; [right| |].
Qed.
End versions.

(** * Identities of path packages *)

(** What following a path from a directory means, symbolic links aside. *)
Definition step_into (d : path) (c : Component) : path :=
  match c with
  | RootDir => [RootDir]
  | CurDir => d
  | ParentDir => match parent d with Some p => p | None => d end
  | NormalC s => (d ++ [NormalC s])%list
  end.

Definition follow (d p : path) : path := fold_left step_into p d.

(** A canonical directory. *)
Definition canonical_dir (p : path) : Prop := exists parts, p = RootDir :: map NormalC parts /\ Forall plain_part parts.

Lemma follow_app (d p q : path) : follow d (p ++ q)%list = follow (follow d p) q.
Proof. apply fold_left_app. Qed.

Lemma follow_names (d : path) (parts : list string) : follow d (map NormalC parts) = (d ++ map NormalC parts)%list.
Proof.
  revert d. induction parts as [|s parts IH]; intros d; simpl; [by rewrite app_nil_r|].
  rewrite IH. by rewrite <- (assoc_L (++)%list).
Qed.

Lemma parent_snoc (d : path) (s : string) : parent (d ++ [NormalC s])%list = Some d.
Proof. unfold parent. rewrite reverse_app. simpl. by rewrite reverse_involutive. Qed.

Lemma follow_up (d : path) (parts : list string) (n : nat) :
  List.length parts = n -> follow (d ++ map NormalC parts)%list (replicate n ParentDir) = d.
Proof.
  revert parts. induction n as [|n IH]; intros parts Hn.
  { destruct parts; [|done]. simpl. by rewrite app_nil_r. }
  destruct parts as [|s parts _] using rev_ind; [done|]. rewrite length_app in Hn. simpl in Hn.
  rewrite map_app, (assoc_L (++)%list). simpl replicate.
  change (follow (?d ++ ?x)%list (ParentDir :: ?r)) with (follow (step_into (d ++ x)%list ParentDir) r).
  simpl. rewrite parent_snoc. apply IH. lia.
Qed.

Lemma push_parts_names (p : path) (parts : list string) :
  Forall plain_part parts -> Forall (fun s => s <> "/") parts ->
  fold_left push_part parts p = (p ++ map NormalC parts)%list.
Proof.
  intros Hp. revert p. induction Hp as [|s parts (_ & _ & Hdd & _) Hp IH]; intros p Hs; simpl; [by rewrite app_nil_r|].
  apply Forall_cons in Hs as [Hs Hs']. unfold push_part at 2. rewrite !bool_decide_eq_false_2 by done.
  rewrite IH by done. by rewrite <- (assoc_L (++)%list).
Qed.

Lemma plain_not_slash (s : string) : plain_part s -> s <> "/".
Proof. intros (_ & _ & _ & Hf) ->. simpl in Hf. apply Forall_cons in Hf as [Hf _]. done. Qed.

Lemma path_parts_names (parts : list string) : path_parts (RootDir :: map NormalC parts) = "/" :: parts.
Proof. unfold path_parts. simpl. f_equal. induction parts; simpl; [done|]. by f_equal. Qed.

Lemma common_prefix_spec (a b : list string) :
  take (common_prefix a b) a = take (common_prefix a b) b /\ common_prefix a b <= List.length a /\ common_prefix a b <= List.length b.
Proof.
  revert b. induction a as [|x a IH]; intros [|y b]; simpl; [split_and!; [done|lia..]..|].
  case_bool_decide; simpl; [|split_and!; [done|lia..]]. subst. destruct (IH b) as (-> & ? & ?). split_and!; [done|lia..].
Qed.

#[local] Instance NormalC_inj : Inj (=) (=) NormalC.
Proof. by intros ?? [= ->]. Qed.

(** The relative path between canonical directories, spelled out. *)
Lemma relative_path_spec (a b : list string) :
  Forall plain_part b -> a <> b ->
  let c := common_prefix a b in
  let r := (replicate (List.length a - c) ParentDir ++ map NormalC (drop c b))%list in
  r <> [] /\ relative_path (RootDir :: map NormalC a) (RootDir :: map NormalC b) = r.
Proof.
  intros Hb Hne c r. assert (Hr : r <> []).
  { unfold r. intros [H1 H2]%app_nil. destruct (common_prefix_spec a b) as (Ht & Hl1 & Hl2). fold c in Ht, Hl1, Hl2.
    apply (f_equal List.length) in H1. rewrite length_replicate in H1. simpl in H1.
    apply (f_equal List.length) in H2. rewrite length_map, length_drop in H2. simpl in H2.
    apply Hne. rewrite <- (take_ge a c), <- (take_ge b c) by lia. done. }
  split; [done|]. unfold relative_path. rewrite bool_decide_eq_false_2.
  2: { intros [= He]. apply Hne. revert He. apply (inj (fmap NormalC)). }
  rewrite !path_parts_names. simpl head. rewrite bool_decide_eq_true_2 by done.
  replace (common_prefix ("/" :: a) ("/" :: b)) with (S c) by done.
  simpl. rewrite push_parts_names; [fold r; by destruct r| |].
  - by apply Forall_drop.
  - apply Forall_drop. eapply Forall_impl; [done|apply plain_not_slash].
Qed.

Lemma relative_path_follow (from to : path) :
  canonical_dir from -> canonical_dir to -> follow from (relative_path from to) = to.
Proof.
  intros (a & -> & Ha) (b & -> & Hb). destruct (decide (a = b)) as [->|Hne].
  { unfold relative_path. by rewrite bool_decide_eq_true_2. }
  destruct (relative_path_spec a b Hb Hne) as [_ ->].
  destruct (common_prefix_spec a b) as (Ht & Hl1 & Hl2). set (c := common_prefix a b) in *.
  rewrite follow_app, follow_names. rewrite <- (take_drop c a) at 1. rewrite map_app.
  change (RootDir :: (?x ++ ?y)%list) with ((RootDir :: x) ++ y)%list.
  rewrite follow_up by (rewrite length_drop; lia).
  rewrite Ht. simpl. rewrite <- map_app, take_drop. done.
Qed.

(** ** Rendering *)

Lemma list_ascii_app (s t : string) :
  list_ascii_of_string (s ++ t) = (list_ascii_of_string s ++ list_ascii_of_string t)%list.
Proof. induction s; simpl; [done|]. by f_equal. Qed.

Lemma split_on_app (c : nat) (x : ascii) (u v : list ascii) :
  char_is c x = true -> Forall (fun y => char_is c y = false) u ->
  split_on c (u ++ x :: v)%list = u :: split_on c v.
Proof. intros Hx. induction 1 as [|y u Hy Hu IH]; simpl; [by rewrite Hx|]. by rewrite Hy, IH. Qed.

Definition no_slash (s : string) : Prop := Forall (fun x => char_is CH_SLASH x = false) (list_ascii_of_string s).

Lemma split_concat (parts : list string) :
  parts <> [] -> Forall no_slash parts -> split_str CH_SLASH (String.concat "/" parts) = parts.
Proof.
  intros Hne. induction 1 as [|s parts Hs Hp IH]; [done|]. destruct parts as [|t parts].
  { unfold split_str. simpl. rewrite split_on_none by done. simpl. by rewrite string_of_list_ascii_of_string. }
  change (String.concat "/" (s :: t :: parts)) with (s ++ "/" ++ String.concat "/" (t :: parts)).
  unfold split_str in *. rewrite !list_ascii_app. simpl app.
  rewrite split_on_app by done. simpl map. rewrite string_of_list_ascii_of_string. f_equal. by apply IH.
Qed.

Definition tame (c : Component) : Prop := c = CurDir \/ c = ParentDir \/ exists s, c = NormalC s /\ plain_part s.

Lemma tame_component_inj (c d : Component) : tame c -> tame d -> slash_component c = slash_component d -> c = d.
Proof.
  unfold tame, plain_part. intros [->|[->|(s & -> & ? & ? & ? & ?)]] [->|[->|(t & -> & ? & ? & ? & ?)]] He;
    simpl in *; congruence.
Qed.

Lemma slash_path_inj (p q : path) :
  p <> [] -> q <> [] -> Forall tame p -> Forall tame q -> slash_path p = slash_path q -> p = q.
Proof.
  intros Hp Hq Tp Tq He. unfold slash_path in He.
  assert (Hns : forall l, Forall tame l -> Forall no_slash (map slash_component l)).
  { intros l Hl. apply Forall_map. eapply Forall_impl; [exact Hl|].
    intros c [->|[->|(s & -> & _ & _ & _ & ?)]]; [by repeat constructor..|done]. }
  apply (f_equal (split_str CH_SLASH)) in He.
  rewrite !split_concat in He; [|by destruct q|by apply Hns|by destruct p|by apply Hns].
  clear Hp Hq Hns. revert q Tq He. induction Tp as [|c p Hc Tp IH]; intros q Tq He; destruct Tq as [|d q Hd Tq];
    [done|done|done|]. cbn [map] in He. injection He as Hcd He. f_equal; [by apply tame_component_inj|by apply IH].
Qed.

Lemma relative_path_tame (from to : path) :
  canonical_dir from -> canonical_dir to -> relative_path from to <> [] /\ Forall tame (relative_path from to).
Proof.
  intros (a & -> & Ha) (b & -> & Hb). destruct (decide (a = b)) as [->|Hne].
  { unfold relative_path. rewrite bool_decide_eq_true_2 by done. split; [done|]. repeat constructor. }
  destruct (relative_path_spec a b Hb Hne) as [Hr ->]. split; [done|]. apply Forall_app. split.
  - apply Forall_replicate. right. by left.
  - apply Forall_map, Forall_drop. eapply Forall_impl; [done|]. intros s Hs. right. right. eauto.
Qed.

(** The source of a path package identifies its directory.  The relative
    path written for it leads from the root directory back to the package, and
    two packages in different directories have different sources, as their
    text in the package id and the lock file. *)
Theorem path_source_injective (base p q : path) :
  canonical_dir base -> canonical_dir p -> canonical_dir q ->
  follow base (relative_path base p) = p /\
  (canonical_path_source base p = canonical_path_source base q -> p = q).
Proof.
  intros Hb Hp Hq. split; [by apply relative_path_follow|]. intros He.
  destruct (relative_path_tame base p Hb Hp), (relative_path_tame base q Hb Hq).
  apply slash_path_inj in He; [|done..].
  by rewrite <- (relative_path_follow base p), <- (relative_path_follow base q), He.
Qed.

Lemma path_source_injective_witness :
  follow [RootDir; NormalC "w"; NormalC "app"] [ParentDir; NormalC "lib"] = [RootDir; NormalC "w"; NormalC "lib"].
Proof.
  refine (proj1 (path_source_injective [RootDir; NormalC "w"; NormalC "app"] [RootDir; NormalC "w"; NormalC "lib"]
    [RootDir] _ _ _)).
  - exists ["w"; "app"]. split; [done|]. repeat constructor; done.
  - exists ["w"; "lib"]. split; [done|]. repeat constructor; done.
  - by exists [].
Defined.

(** * Examples *)

(** Versions as strings, requirements as prefixes. *)
#[local] Instance demo_semver : Semver string string := {
  version_parse s := if bool_decide (s = EmptyString) then None else Some s;
  version_to_string s := s;
  version_leb := String.leb;
  req_parse := Some;
  req_matches := String.prefix;
}.

#[local] Instance demo_semver_laws : SemverLaws string string.
Proof.
  split.
  - intros a b. apply (String.le_total a b).
  - intros a b c Hab Hbc. by apply (@transitivity _ String.le _ a b c).
Qed.

Definition demo_versions : list RemoteRegistryVersion :=
  [mkRemoteVersion "1.0" None false None []; mkRemoteVersion "1.2" None true None [];
   mkRemoteVersion "1.1" None false None []].

Lemma selected_version_greatest_witness :
  select_remote_registry_version_with_policy demo_versions "alpha" "1" false =
    Ok ("1.1", mkMetadata None false None []) /\ version_leb "1.0" "1.1".
Proof.
  split; [vm_compute; reflexivity|].
  refine (proj2 (selected_version_greatest demo_versions "alpha" "1" false)
    (mkRemoteVersion "1.0" None false None []) "1.0" _ _).
  - apply list_elem_of_here.
  - split_and!; [reflexivity|reflexivity|by right].
Defined.

(** A file system that holds packages: a directory each, with a manifest and a
    main file. *)
Definition manifest_file (d : path) : path := join_name d "Sengoo.toml".
Definition main_file (d : path) : path := (d ++ default_bin_path)%list.

Section demo.
Context (packages : list (path * Manifest)).

Definition demo_files : list path := flat_map (fun dm => [manifest_file dm.1; main_file dm.1]) packages.
Definition demo_known : list path := (demo_files ++ map fst packages)%list.

Definition demo_canonicalize (extra : list path) (p : path) : option path :=
  let q := follow [] p in
  if bool_decide (q ∈ (demo_known ++ extra)%list) then Some q else None.

Definition demo_packages_fs (extra : list path) (entries : list (string * path)) : FileSys :=
  mkFileSys (demo_canonicalize extra) (fun p => bool_decide (follow [] p ∈ map fst packages))
    (fun p => bool_decide (follow [] p ∈ demo_known)) (fun p => bool_decide (follow [] p ∈ demo_files))
    (fun _ => Some entries) (fun _ => None) (fun _ => Some [])
    (fun d => Some [(manifest_file d, KindFile); (main_file d, KindFile)]).

Definition demo_world (extra : list path) (entries : list (string * path)) : @World string string :=
  mkWorld (demo_packages_fs extra entries) demo_sha
    (fun p => match find (fun dm => bool_decide (manifest_file dm.1 = p)) packages with
              | Some dm => Some dm.2 | None => None end)
    (fun _ => None) (fun _ => None) (fun _ _ _ _ _ => None) (fun _ _ _ _ _ _ => None).

Lemma demo_known_canonical (extra : list path) (p k : path) :
  Forall (fun q => follow [] q = q) (demo_known ++ extra)%list ->
  demo_canonicalize extra p = Some k -> k ∈ (demo_known ++ extra)%list /\ demo_canonicalize extra k = Some k.
Proof.
  unfold demo_canonicalize. intros Hf. case_bool_decide as Hin; [|done]. intros [= <-]. split; [done|].
  rewrite (proj1 (Forall_forall _ _) Hf _ Hin). by rewrite bool_decide_eq_true_2.
Qed.
End demo.

Definition demo_manifest (name : string) (regs : list (string * RegistryConfig)) (deps : list (string * Dependency)) :
  Manifest :=
  mkManifest (mkPackageMeta name "1.0.0" [] None None) None None [] regs deps.

Definition path_dep (name p : string) : string * Dependency :=
  (name, mkDependency name None (Some (path_of p)) None None None None).

Definition demo_opts : ResolveOptions := mkOptions false false None.

(** [app] uses [a] and [b], and [a] uses [b]. *)
Definition diamond : list (path * Manifest) :=
  [(path_of "/app", demo_manifest "app" [] [path_dep "a" "../a"; path_dep "b" "../b"]);
   (path_of "/a", demo_manifest "a" [] [path_dep "b" "../b"]);
   (path_of "/b", demo_manifest "b" [] [])].

Definition demo_resolve (packages : list (path * Manifest)) (fuel : nat) :
  option (result Graph ResolveError) :=
  from_root_with_registries (demo_world packages [] []) fuel (path_of "/app") demo_opts [].

Lemma resolution_terminates_witness : demo_resolve diamond 10 <> None.
Proof.
  apply (resolution_terminates (demo_world diamond [] []) (list_to_set (demo_known diamond ++ [])%list) 10).
  - intros p k Hk. apply elem_of_list_to_set.
    refine (proj1 (demo_known_canonical diamond [] p k _ Hk)).
    apply (bool_decide_unpack _). vm_compute. exact I.
  - vm_compute. lia.
Defined.

Definition names_of (r : option (result Graph ResolveError)) : list string :=
  match r with Some (Ok g) => node_name <$> g_nodes g | _ => [] end.

Lemma resolution_topological_witness :
  exists g, demo_resolve diamond 10 = Some (Ok g) /\ (node_name <$> g_nodes g) = ["b"; "a"; "app"] /\
    NoDup (node_id <$> g_nodes g).
Proof.
  destruct (demo_resolve diamond 10) as [[g|]|] eqn:Hg; [|by vm_compute in Hg..].
  exists g. split; [done|]. split.
  - change (names_of (Some (Ok g)) = ["b"; "a"; "app"]). rewrite <- Hg. vm_compute. reflexivity.
  - destruct (resolution_topological (demo_world diamond [] []) 10 (path_of "/app") demo_opts [] g) as
      (root & n & l & _ & _ & _ & _ & Hnd & _); [|exact Hg|exact Hnd].
    intros p k Hk. refine (proj2 (demo_known_canonical diamond [] p k _ Hk)).
    apply (bool_decide_unpack _). vm_compute. exact I.
Defined.

(** [a] and [b] use each other. *)
Definition looped : list (path * Manifest) :=
  [(path_of "/app", demo_manifest "app" [] [path_dep "a" "../a"]);
   (path_of "/a", demo_manifest "a" [] [path_dep "b" "../b"]);
   (path_of "/b", demo_manifest "b" [] [path_dep "a" "../a"])].

Lemma reported_cycle_real_witness :
  exists root registries, real_cycle (demo_world looped [] []) (root_config root registries demo_opts)
    (map (fun d => manifest_file (path_of d)) ["/app"; "/a"; "/b"; "/a"]).
Proof. apply (reported_cycle_real _ 10 (path_of "/app") demo_opts []). vm_compute. reflexivity. Defined.

(** ** A package reached from two sources *)

(** [app] uses the package in [reg/a/1.0.0] both by its path and through the
    registry [reg]. *)
Definition two_sources : list (path * Manifest) :=
  [(path_of "/app", demo_manifest "app" [("default", mkRegistryConfig (Some (path_of "reg")) None None)]
      [path_dep "a" "reg/a/1.0.0"; ("b", mkDependency "b" (Some "a") None None None (Some "1") None)]);
   (path_of "/app/reg/a/1.0.0", demo_manifest "a" [] [])].

Definition two_sources_world : @World string string :=
  demo_world two_sources [path_of "/app/reg"; path_of "/app/reg/a"] [("1.0.0", path_of "/app/reg/a/1.0.0")].

Definition dangling_edges (g : Graph) : list DependencyEdge :=
  filter (fun e => node_by_id g (edge_to e) = None) (g_edges g).

(** The package is visited once, under the id of the first source; the edge of
    the second dependency leads to an id that no package of the graph has. *)
Theorem edge_without_node :
  match from_root_with_registries two_sources_world 10 (path_of "/app") demo_opts [] with
  | Some (Ok g) =>
      map edge_to (g_edges g) = ["a@1.0.0+path:reg/a/1.0.0"; "a@1.0.0+registry+default/a@1.0.0"] /\
      map node_id (g_nodes g) = ["a@1.0.0+path:reg/a/1.0.0"; "app@1.0.0+path:."] /\
      map edge_alias (dangling_edges g) = ["b"]
  | _ => False
  end.
Proof. vm_compute. by split_and!. Qed.
